(* ===== verification/_CoqProject ===== *)
-Q . S2P
Prelude.v
Arrays.v
SortSpec.v
SortInsertion.v
SortExchange.v
SortMerge.v
SortHeap.v
SortQuick.v
SortTheorems.v
PriorityQueue.v
Extract.v
Calendar.v
Civil.v
ChronoFormat.v
ChronoParse.v
ChronoRoundtrip.v
ChronoTheorems.v
Sums.v
Limb.v
Mpn.v
MpnValue.v
MpnArith.v
MpnBits.v
MpnMul.v
MpnMulProof.v
MpnDiv.v
MpnDivProof.v
MpnSchoolbook.v
MpnTheorems.v
MpnFrame.v
Thresholds.v
MpnKaratsuba.v
MpnKaratsubaProof.v
MpnToom3.v
MpnToom4.v
MpnToomScratch.v
MpnResidue.v
MpnToom3Proof.v
MpnToom4Proof.v
MpnTiers.v
MpnTiersProof.v
MpnDc.v
MpnDcProof.v
MpnTierTheorems.v
Arbuint.v
ArbuintProof.v
ArbuintDiv.v
ArbuintBits.v
ArbuintConv.v
ArbuintMachine.v
ArbuintTheorems.v
ArbConvert.v
Radix.v
ArbPrint.v
ArbTower.v
ArbScan.v
ArbFormat.v
ArbConvertTheorems.v
Arbint.v
SignMagnitude.v
ArbintProof.v
ArbintOps.v
ArbintText.v
ArbintTheorems.v
Steps.v
Spsc.v
SpscProof.v
Semaphore.v
SemaphoreProof.v
Locks.v
SpinLock.v
RecursiveLock.v
FutexMutex.v
FutexMutexProof.v
TicketLock.v
TicketLockProof.v
McsLock.v
McsLockProof.v
ConcurrencyTheorems.v
LockTheorems.v
