(* ===== verification/Prelude.v ===== *)
(** * micron: verification of the sorting, calendar, big-integer and concurrent code

    micron is a header-only C++ library.  This development models four groups of
    its headers, the first three as Rocq functions translated routine by routine and
    the fourth as step relations with one step per access to shared memory, and
    proves what makes them correct.  All paths below are under src/src/.

    ** Conventions

    - Machine integers are [Z] with their wrap-around written out ([wrap], [swrap]
      here; [to_limb] for limbs).  [usize] counters that cannot wrap, because they
      count cells of a modelled array, are plain [Z].
    - An array, an iterator range or a limb vector is a list with checked access
      ([Arrays]): [a.[i]] and [aset a i x] are [None] out of range.  A routine is a
      function to [option]; [None] is undefined behaviour or fuel exhaustion, so
      each "returns" theorem ([returns x Q]: x is [Some y] with [Q y]) includes
      memory safety and termination.
    - Errors the code reports (a thrown exception, a status, a zero return) are
      values of the result types, never [None].
    - Loops are [for_up], [for_down] or recursion on fuel.  The fuel is the loop's
      own bound where it has one (the range's length), and a proved measure where it
      has none; every entry point passes enough, and its theorem shows it.

    ** Sorting: sort/*.hpp, heap/heapq.hpp, heap/binary_heap.hpp

    [SortSpec] has strict weak orders, sortedness, permutation and stability.
    [SortInsertion] models insertion.hpp, shell.hpp and the order predicates of
    sorts.hpp, [SortExchange] bubble.hpp and comb.hpp, [SortMerge] merge.hpp and
    stable.hpp (the scratch buffer is threaded through, with arbitrary contents),
    [SortHeap] heap.hpp and select.hpp's heap part, [SortQuick] quick.hpp, sort.hpp
    (introsort with its depth limit) and select.hpp.  [SortTheorems] has the
    contracts: every sort terminates inside the array with a sorted permutation, the
    stable ones are stable and compute the same array, the overloads with a limit
    sort exactly that prefix.  Comb sort has no bound of its own in the code; its
    fuel is the measure of its termination proof (gap plus inversions).
    [PriorityQueue] models the two heaps and [Extract] the extraction adaptors of
    sort/extract.hpp over the class [ExtractableHeap] of heaps.  [binary_heap] is an
    instance, [heapq] (whose class has no category_type) is not one; [ExtractsFirst]
    says that such a heap refines a multiset.

    ** Time: chrono/calendar.hpp, civil.hpp, format.hpp, parse.hpp

    [Calendar] has the proleptic Gregorian arithmetic, proved against a calendar
    that steps from day to day by month lengths; [Civil] the transition tables and
    the conversion of local readings; [ChronoFormat] the writers into a caller's
    buffer; [ChronoParse] the parsers; [ChronoRoundtrip] and [ChronoTheorems] that
    parsing inverts writing (for the years and offsets the formats carry), that every
    parser accepts valid times only and a duration with the value of its text
    ([duration_text]), and that writers never leave the buffer, write their reference
    text ([strftime_text] for a format) and agree with their size functions.

    ** Big integers: math/arbint/*.hpp

    [Limb] models limb.hpp and bits/carry.hpp for both limb widths (class
    [LimbWidth], with instances for 64 and 32 bits).  A memory is a list of limbs, a
    pointer an index into it, and a vector a pointer with a length, so that in-place
    calls and overlapping vectors are modelled as they are.  [MpnValue] has the
    number [num m p n] a vector denotes and the frame predicate [modifies].
      - [Mpn], [MpnArith], [MpnBits]: mpn_core.hpp.
      - [MpnMul], [MpnMulProof]: mul_basecase.hpp, over the column sums of [Sums].
      - [MpnDiv], [MpnDivProof], [MpnSchoolbook]: div.hpp.
      - [Thresholds]: thresholds.hpp and tags.hpp, with the default of each macro.
      - [MpnKaratsuba], [MpnKaratsubaProof]: mul_karatsuba.hpp.
      - [MpnToom3], [MpnToom4] and their proofs: mul_toom.hpp and mul_toom4.hpp.
        [MpnResidue] follows the interpolation sequences as ring computations modulo
        a power of the base; [MpnToomScratch] has the scratch accounting.
      - [MpnTiers], [MpnTiersProof]: mul.hpp.
      - [MpnDc], [MpnDcProof]: div_dc.hpp and the dispatcher of div_mu.hpp.
      - [Arbuint] and the files after it: storage.hpp's inline store and
        unsigned.hpp, the integers modulo 2^Bits.  An object is a region of the
        memory that holds a limb count and the limbs; [ArbuintProof], [ArbuintDiv],
        [ArbuintBits] and [ArbuintConv] prove each operation against the integer the
        object denotes, also when operands are the same object.  [ArbuintMachine]
        puts the operations together: client programs over a table of objects, with
        a meaning on integers.
      - [ArbConvert]: convert.hpp, the conversion to and from text in bases 2 to 36.
        [Radix] has the numerals it is proved against; [ArbPrint] the digits out,
        [ArbTower] the tower of powers the recursive halves share, [ArbScan] the
        reading and [ArbFormat] the strings.  Their local arrays and temporaries are
        the record [workspace], laid out in the caller's memory.
      - [Arbint]: signed.hpp, a sign cell behind an [arbuint] object.  [SignMagnitude]
        has the numbers as pairs of sign and magnitude, [ArbintProof] proves the
        compound assignments against them, [ArbintOps] the operators built from them,
        [ArbintText] models and proves the signed overloads of convert.hpp.    [MpnFrame] has the contract of a multiplication ([mul_pre], [mul_post]) that each
    rung of the ladder is proved against, with the recursive calls of a level as the
    hypothesis that the rung below meets it.  [MpnTheorems] has the theorems on the
    linear and quadratic routines, [MpnTierTheorems] those on the ladder: [mul] and
    [sqr] give the exact product of operands of any length inside the scratch that
    [mul_itch] and [sqr_itch] ask for.  The fuel of the recursions is the operand
    length (an + bn for Karatsuba), which every call lowers.
    Division ([divrem_divides]) goes from one limb over schoolbook to divide and
    conquer; the recursion lowers the divisor's length, its fuel.  [ArbuintTheorems]
    has the contract of the integer class: a client program computes on the objects
    what it denotes on integers modulo 2^Bits, throws exactly at a division by zero
    and then leaves the operands, and every object stays in normal form.
    [ArbConvertTheorems]: numbers print as their shortest numeral, texts are read as
    their value modulo 2^Bits or rejected, and printing reads back; the strings are
    exact while the tower of powers is, and where it wraps [to_string] can store its
    digits before its buffer.  The fuel of reading is the length of the text, that of printing the
    number of bits.  [ArbintTheorems]: signed results are the exact integers with the
    magnitude cut to 2^Bits, division truncates, bit operations and shifts are those
    of two's complement, texts read back; a zero carries a sign in one case only, a
    sum of exactly -2^Bits.

    ** Concurrency: queue/spsc_queue.hpp, sync/semaphore.hpp, mutex/*.hpp

    [Steps] has executions of a step relation, forward simulation with an abstract
    machine, the bound a measure puts on the number of steps, and sums over threads.
    A thread's place in its call is a constructor of the component's [pc]; a step is
    one access to a shared word, a call with its arguments labels the step that makes
    it and the answer the step that ends it, and an execution is any interleaving.
    (In the two fair locks a call is silent, and its place in the queue and its answer
    are the labels.)  An abstract machine fixes the answers in its state; [tracked]
    adds the phase of each thread's call, so that every answer is one of the call its
    thread made.  The kernel's futex queue is part of the step relation: sleeping
    while the word has the expected value, waking, early returns.
      - [Spsc], [SpscProof]: the ring of queue/spsc_queue.hpp with its stale index
        copies; it is a bounded first-in first-out queue ([fifo_step]) and wait-free.
      - [Semaphore], [SemaphoreProof]: sync/semaphore.hpp; it counts permits, and the
        calls under way come to rest with nobody asleep while a permit is there.
      - [Locks] has the abstract lock with one owner; [SpinLock] models
        locks/spin_lock.hpp, ttas_lock.hpp and the spinning mutexes of mutex.hpp,
        constructed open or locked, [RecursiveLock] locks/recursive_lock.hpp,
        [FutexMutex], [FutexMutexProof] locks/futex_mutex.hpp with bits/__backoff.hpp.
      - [Turns] (in [Locks]) has the abstract lock with a queue; [TicketLock],
        [TicketLockProof] model locks/ticket_lock.hpp, [McsLock], [McsLockProof] the
        queuing_mutex of mutex.hpp with its linked nodes.
    [ConcurrencyTheorems] and [LockTheorems] have the theorems: mutual exclusion,
    arrival order of the fair locks, no lost wake-up.  Each has the bounds it needs:
    fewer than 2^31 threads and permits for the semaphore's 32-bit counter, fewer
    than 2^32 tickets drawn for the ticket lock, whose try_lock compares tickets read
    at different times.
    ** Not modelled

    - The assembly kernels of math/arbint/arch: the model is the portable loops,
      the code of constant evaluation and of builds without the kernels.
    - Values of the tuning macros other than the defaults.  With the default cap on
      squaring tiers [sqr] never reaches Toom-4; its kernel is proved for one level,
      its recursion is only modelled.
    - The tier of division above divide and conquer (div_mu.hpp's Newton and Barrett
      steps) is an argument of the division model.
    - The heap store of the unbounded integers (Bits = 0), which is over the
      library's vector.    - heapq's lock is not modelled, only the bodies it protects.
    - Weak memory: in the concurrent models every access is seen by all threads at
      once; the acquire and release annotations of the code are not used.
    - Floating point (time_of_day, the numeric library), system calls, SIMD, the
      allocators, and the containers the algorithms run over: an algorithm sees a
      container as the sequence it holds.

    ** Plan

    In the order they would be added: gcd and modular exponentiation as clients of
    the modelled division; the latch, the barrier and the event count as further
    step relations; the remaining sorts; the open-addressing maps as a refinement
    of finite maps. *)
From stdpp Require Import base numbers list option.
From Stdlib Require Import ZArith Lia.

Local Open Scope Z_scope.

(** * Machine integers

    A w-bit unsigned value is a [Z] in [0, 2^w); arithmetic that may leave the
    range is followed by an explicit wrap. *)

Definition wrap (w z : Z) : Z := z mod 2 ^ w.

Definition swrap (w z : Z) : Z := (z + 2 ^ (w - 1)) mod 2 ^ w - 2 ^ (w - 1).

Definition in_unsigned (w z : Z) : Prop := 0 <= z < 2 ^ w.

Definition in_signed (w z : Z) : Prop := - 2 ^ (w - 1) <= z < 2 ^ (w - 1).

Lemma wrap_id w z : in_unsigned w z -> wrap w z = z.
Proof. unfold wrap, in_unsigned. intros. by apply Z.mod_small. Qed.

Lemma wrap_range w z : 0 <= w -> in_unsigned w (wrap w z).
Proof. intros. apply Z.mod_pos_bound. by apply Z.pow_pos_nonneg. Qed.

Lemma swrap_id w z : 0 < w -> in_signed w z -> swrap w z = z.
Proof.
  unfold swrap, in_signed. intros Hw [H1 H2].
  assert (2 ^ w = 2 * 2 ^ (w - 1)) as E.
  { rewrite <- Z.pow_succ_r by lia. f_equal. lia. }
  rewrite Z.mod_small; lia.
Qed.

Lemma swrap_range w z : 0 < w -> in_signed w (swrap w z).
Proof.
  unfold swrap, in_signed. intros Hw.
  assert (2 ^ w = 2 * 2 ^ (w - 1)) as E.
  { rewrite <- Z.pow_succ_r by lia. f_equal. lia. }
  pose proof (Z.pow_pos_nonneg 2 (w - 1)).
  pose proof (Z.mod_pos_bound (z + 2 ^ (w - 1)) (2 ^ w)). lia.
Qed.

(** * Computations that may fail

    A routine that indexes memory or loops returns an [option]: [None] is an
    access outside the array or a loop that did not stop within its fuel.
    [returns m Q] states that neither happens and that the result satisfies
    [Q], so every theorem of this form includes memory safety and
    termination. *)

Definition returns {A} (m : option A) (Q : A -> Prop) : Prop :=
  exists r, m = Some r /\ Q r.

Lemma returns_ret {A} (x : A) (Q : A -> Prop) : Q x -> returns (Some x) Q.
Proof. intros. by exists x. Qed.

Lemma returns_eq {A} (m : option A) (x : A) : returns m (eq x) <-> m = Some x.
Proof. split; [by intros (? & -> & <-)|]. intros ->. by exists x. Qed.

Lemma returns_bind {A B} (m : option A) (f : A -> option B) (P : A -> Prop) (Q : B -> Prop) :
  returns m P -> (forall x, P x -> returns (f x) Q) -> returns (m ≫= f) Q.
Proof. intros (x & -> & Hx) Hf. simpl. by apply Hf. Qed.

Lemma returns_mono {A} (m : option A) (P Q : A -> Prop) :
  returns m P -> (forall x, P x -> Q x) -> returns m Q.
Proof. intros (x & -> & Hx) HPQ. exists x. auto. Qed.

Lemma returns_if {A} (b : bool) (m1 m2 : option A) (Q : A -> Prop) :
  (b = true -> returns m1 Q) -> (b = false -> returns m2 Q) ->
  returns (if b then m1 else m2) Q.
Proof. destruct b; auto. Qed.

(** * Loops

    [for_ lo hi body s] is [for (i = lo; i < hi; ++i) body]; [for_down n body s]
    is [for (i = n; i-- > 0;) body]; [while_ fuel step s] iterates [step] until
    it answers [inr], and is [None] when the fuel runs out. *)

Fixpoint for_up {St} (n : nat) (i : Z) (body : Z -> St -> option St) (s : St) : option St :=
  match n with
  | O => Some s
  | S n' => s' ← body i s; for_up n' (i + 1) body s'
  end.

Definition for_ {St} (lo hi : Z) (body : Z -> St -> option St) (s : St) : option St :=
  for_up (Z.to_nat (hi - lo)) lo body s.

Fixpoint for_dn {St} (n : nat) (body : Z -> St -> option St) (s : St) : option St :=
  match n with
  | O => Some s
  | S n' => s' ← body (Z.of_nat n') s; for_dn n' body s'
  end.

Definition for_down {St} (n : Z) (body : Z -> St -> option St) (s : St) : option St :=
  for_dn (Z.to_nat n) body s.

Fixpoint while_ {St R} (fuel : nat) (step : St -> option (St + R)) (s : St) : option R :=
  match fuel with
  | O => None
  | S fuel' =>
      o ← step s;
      match o with
      | inl s' => while_ fuel' step s'
      | inr r => Some r
      end
  end.

Section loop_rules.
Context {St : Type}.
Implicit Types (I : Z -> St -> Prop) (Q : St -> Prop).

Lemma returns_for_up n lo body s I Q :
  I lo s ->
  (forall i s, lo <= i < lo + Z.of_nat n -> I i s -> returns (body i s) (I (i + 1))) ->
  (forall s, I (lo + Z.of_nat n) s -> Q s) ->
  returns (for_up n lo body s) Q.
Proof.
  revert lo s. induction n as [|n IH]; intros lo s H0 Hstep HQ; simpl.
  - apply returns_ret, HQ. by replace (lo + Z.of_nat 0) with lo by lia.
  - eapply returns_bind; [apply Hstep; [lia|done]|].
    intros s' Hs'. eapply (IH (lo + 1)); [done| |].
    + intros. apply Hstep; [lia|done].
    + intros s'' Hs''. apply HQ. by replace (lo + Z.of_nat (S n)) with (lo + 1 + Z.of_nat n) by lia.
Qed.

Lemma returns_for lo hi body s I Q :
  lo <= hi ->
  I lo s ->
  (forall i s, lo <= i < hi -> I i s -> returns (body i s) (I (i + 1))) ->
  (forall s, I hi s -> Q s) ->
  returns (for_ lo hi body s) Q.
Proof.
  intros Hle H0 Hstep HQ. eapply returns_for_up; [done| |].
  - intros. apply Hstep; [lia|done].
  - intros s'. replace (lo + Z.of_nat (Z.to_nat (hi - lo))) with hi by lia. apply HQ.
Qed.

Lemma returns_for_down n body s I Q :
  0 <= n ->
  I n s ->
  (forall i s, 0 <= i < n -> I (i + 1) s -> returns (body i s) (I i)) ->
  (forall s, I 0 s -> Q s) ->
  returns (for_down n body s) Q.
Proof.
  intros Hn. unfold for_down. rewrite <- (Z2Nat.id n) by done. rewrite Nat2Z.id.
  generalize (Z.to_nat n). clear Hn n. intros n. revert s.
  induction n as [|n IH]; intros s H0 Hstep HQ; simpl.
  - by apply returns_ret, HQ.
  - eapply returns_bind; [apply Hstep; [lia|]|].
    + by replace (Z.of_nat n + 1) with (Z.of_nat (S n)) by lia.
    + intros s' Hs'. apply IH; [done| |done]. intros. apply Hstep; [lia|done].
Qed.

Lemma returns_while {R} fuel (step : St -> option (St + R)) s
    (I : St -> Prop) (m : St -> Z) (Q : R -> Prop) :
  I s ->
  0 <= m s < Z.of_nat fuel ->
  (forall s, I s -> returns (step s) (fun o =>
    match o with inl s' => I s' /\ 0 <= m s' < m s | inr r => Q r end)) ->
  returns (while_ fuel step s) Q.
Proof.
  revert s. induction fuel as [|fuel IH]; intros s Hs Hm Hstep; simpl; [lia|].
  eapply returns_bind; [by apply Hstep|]. intros [s'|r].
  - intros [Hs' Hm']. apply IH; [done|lia|done].
  - intros Hr. by apply returns_ret.
Qed.
End loop_rules.

Lemma for_empty {St} lo hi (body : Z -> St -> option St) s : hi <= lo -> for_ lo hi body s = Some s.
Proof. intros. unfold for_. by replace (Z.to_nat (hi - lo)) with O by lia. Qed.

Lemma for_ext {St} lo hi (body body' : Z -> St -> option St) s :
  (forall i s, body i s = body' i s) -> for_ lo hi body s = for_ lo hi body' s.
Proof.
  intros E. unfold for_. generalize (Z.to_nat (hi - lo)) as n. intros n.
  revert lo s. induction n as [|n IH]; intros lo s; [done|]. simpl. rewrite E.
  destruct (body' lo s); [apply IH|done].
Qed.

Lemma while_ext {St R} fuel (step step' : St -> option (St + R)) s :
  (forall s, step s = step' s) -> while_ fuel step s = while_ fuel step' s.
Proof.
  intros E. revert s. induction fuel as [|fuel IH]; intros s; [done|]. simpl. rewrite E.
  destruct (step' s) as [[]|]; [apply IH|done|done].
Qed.
