(* ===== verification/Arrays.v ===== *)
(** Arrays indexed by machine integers.

    A contiguous buffer ([T *], an iterator range, the storage of a container)
    is a [list]; the index type is [Z].  Reading or writing outside the buffer
    is [None].  The file gives the read/write/swap theory, the rules that the
    [returns] logic of [Prelude] uses for them, and the notion of a rearrangement
    confined to an index range that the in-place sorts are specified with. *)
From stdpp Require Import base numbers list option.
From Stdlib Require Ascii String.
From Stdlib Require Import ZArith Lia.
From S2P Require Import Prelude.

Local Open Scope Z_scope.

Definition alen {A} (a : list A) : Z := Z.of_nat (length a).

Definition aget {A} (a : list A) (i : Z) : option A :=
  if decide (0 <= i) then a !! Z.to_nat i else None.

Definition upd {A} (a : list A) (i : Z) (x : A) : list A := <[Z.to_nat i := x]> a.

Definition aset {A} (a : list A) (i : Z) (x : A) : option (list A) :=
  if decide (0 <= i < alen a) then Some (upd a i x) else None.

Definition aswap {A} (a : list A) (i j : Z) : option (list A) :=
  x ← aget a i;
  y ← aget a j;
  a' ← aset a i y;
  aset a' j x.

Declare Scope array_scope.
Delimit Scope array_scope with array.
Notation "a .[ i ]" := (aget a i) (at level 1, left associativity, format "a .[ i ]") : array_scope.
Open Scope array_scope.

Create Rewrite HintDb arr.
Create HintDb arr_bounds.

Section arrays.
Context {A : Type}.
Implicit Types (a b : list A) (i j k lo hi : Z) (x y : A).

Lemma alen_nonneg a : 0 <= alen a.
Proof. unfold alen. lia. Qed.

Lemma aget_Some_bounds a i x : a.[i] = Some x -> 0 <= i < alen a.
Proof.
  unfold aget, alen. case_decide; [|done]. intros ?%lookup_lt_Some. lia.
Qed.

Lemma aget_in a i : 0 <= i < alen a -> exists x, a.[i] = Some x.
Proof.
  unfold aget, alen. intros. rewrite decide_True by lia.
  apply lookup_lt_is_Some_2. lia.
Qed.

Lemma aget_out a i : ~ (0 <= i < alen a) -> a.[i] = None.
Proof.
  unfold aget, alen. intros. case_decide; [|done]. apply lookup_ge_None_2. lia.
Qed.

Lemma aget_nat a n : a.[Z.of_nat n] = a !! n.
Proof. unfold aget. rewrite decide_True by lia. by rewrite Nat2Z.id. Qed.

Lemma alen_upd a i x : alen (upd a i x) = alen a.
Proof. unfold alen, upd. by rewrite length_insert. Qed.

Lemma aget_upd_eq a i x : 0 <= i < alen a -> (upd a i x).[i] = Some x.
Proof.
  unfold aget, upd, alen. intros. rewrite decide_True by lia.
  apply list_lookup_insert_eq. lia.
Qed.

Lemma aget_upd_ne a i j x : 0 <= i -> i <> j -> (upd a i x).[j] = a.[j].
Proof.
  unfold aget, upd. intros. case_decide; [|done]. apply list_lookup_insert_ne. lia.
Qed.

Lemma aget_upd a i j x :
  0 <= i < alen a -> (upd a i x).[j] = if decide (j = i) then Some x else a.[j].
Proof.
  intros. case_decide; subst; [by apply aget_upd_eq|apply aget_upd_ne; lia].
Qed.

Lemma upd_same a i x : a.[i] = Some x -> upd a i x = a.
Proof.
  unfold aget, upd. case_decide; [|done]. apply list_insert_id.
Qed.

Lemma upd_upd_eq a i x y : upd (upd a i x) i y = upd a i y.
Proof. apply list_insert_insert_eq. Qed.

Lemma upd_upd_ne a i j x y : 0 <= i -> 0 <= j -> i <> j ->
  upd (upd a i x) j y = upd (upd a j y) i x.
Proof. intros. apply list_insert_insert_ne. lia. Qed.

Lemma array_ext a b : (forall i, 0 <= i -> a.[i] = b.[i]) -> a = b.
Proof.
  intros H. apply list_eq. intros n. rewrite <- !aget_nat. apply H. lia.
Qed.

Lemma alen_eq a b : (forall i, 0 <= i -> is_Some (a.[i]) <-> is_Some (b.[i])) -> alen a = alen b.
Proof.
  intros H. assert (forall c d : list A, (forall i, 0 <= i -> is_Some (c.[i]) -> is_Some (d.[i])) -> alen c <= alen d) as Hle.
  { intros c d Hcd. pose proof (alen_nonneg d). pose proof (alen_nonneg c).
    destruct (decide (alen c = 0)); [lia|].
    destruct (Hcd (alen c - 1)) as [y Hy]; [lia| |].
    - destruct (aget_in c (alen c - 1)); [lia|]. by eexists.
    - apply aget_Some_bounds in Hy. lia. }
  apply Z.le_antisymm; apply Hle; intros; by apply H.
Qed.

Lemma aset_in a i x : 0 <= i < alen a -> aset a i x = Some (upd a i x).
Proof. unfold aset. intros. by rewrite decide_True. Qed.

Lemma aswap_in a i j x y :
  a.[i] = Some x -> a.[j] = Some y -> aswap a i j = Some (upd (upd a i y) j x).
Proof.
  intros Hi Hj. unfold aswap. rewrite Hi, Hj. simpl.
  pose proof (aget_Some_bounds _ _ _ Hi). pose proof (aget_Some_bounds _ _ _ Hj).
  rewrite aset_in by lia. simpl. apply aset_in. by rewrite alen_upd.
Qed.

(** Rules for the [returns] logic. *)

Lemma returns_get {B} a i (f : A -> option B) Q :
  0 <= i < alen a -> (forall x, a.[i] = Some x -> returns (f x) Q) ->
  returns (a.[i] ≫= f) Q.
Proof. intros Hi Hf. destruct (aget_in a i Hi) as [x Hx]. rewrite Hx. by apply Hf. Qed.

Lemma returns_set {B} a i x (f : list A -> option B) Q :
  0 <= i < alen a -> returns (f (upd a i x)) Q -> returns (aset a i x ≫= f) Q.
Proof. intros Hi Hf. by rewrite aset_in. Qed.

Lemma returns_set_tail a i x (Q : list A -> Prop) :
  0 <= i < alen a -> Q (upd a i x) -> returns (aset a i x) Q.
Proof. intros Hi Hf. rewrite aset_in by done. by apply returns_ret. Qed.

Lemma aswap_comm a i j : aswap a i j = aswap a j i.
Proof.
  unfold aswap. destruct (a.[i]) as [x|] eqn:Hi, (a.[j]) as [y|] eqn:Hj; simpl; try done.
  pose proof (aget_Some_bounds _ _ _ Hi). pose proof (aget_Some_bounds _ _ _ Hj).
  rewrite !aset_in by done. simpl. rewrite !aset_in by (by rewrite alen_upd).
  destruct (decide (i = j)) as [->|]; [congruence|]. by rewrite upd_upd_ne by lia.
Qed.

Definition swapped a i j b : Prop :=
  exists x y, a.[i] = Some x /\ a.[j] = Some y /\ b = upd (upd a i y) j x.

Lemma returns_swap {B} a i j (f : list A -> option B) Q :
  0 <= i < alen a -> 0 <= j < alen a ->
  (forall b, swapped a i j b -> returns (f b) Q) ->
  returns (aswap a i j ≫= f) Q.
Proof.
  intros Hi Hj Hf. destruct (aget_in a i Hi) as [x Hx]. destruct (aget_in a j Hj) as [y Hy].
  erewrite aswap_in by done. apply Hf. by exists x, y.
Qed.

Lemma returns_swap_tail a i j (Q : list A -> Prop) :
  0 <= i < alen a -> 0 <= j < alen a ->
  (forall b, swapped a i j b -> Q b) ->
  returns (aswap a i j) Q.
Proof.
  intros Hi Hj Hf. destruct (aget_in a i Hi) as [x Hx]. destruct (aget_in a j Hj) as [y Hy].
  erewrite aswap_in by done. apply returns_ret, Hf. by exists x, y.
Qed.

Lemma swapped_alen a i j b : swapped a i j b -> alen b = alen a.
Proof. intros (x & y & _ & _ & ->). by rewrite !alen_upd. Qed.

Lemma swapped_get a i j b k : swapped a i j b ->
  b.[k] = if decide (k = j) then a.[i] else if decide (k = i) then a.[j] else a.[k].
Proof.
  intros (x & y & Hi & Hj & ->).
  pose proof (aget_Some_bounds _ _ _ Hi). pose proof (aget_Some_bounds _ _ _ Hj).
  rewrite aget_upd by (rewrite alen_upd; lia). case_decide; [done|].
  rewrite aget_upd by lia. case_decide; done.
Qed.

Lemma swapped_perm a i j b : swapped a i j b -> a ≡ₚ b.
Proof.
  intros (x & y & Hi & Hj & ->).
  destruct (decide (i = j)) as [->|Hne].
  { simplify_eq. rewrite upd_upd_eq, upd_same by done. done. }
  pose proof (aget_Some_bounds _ _ _ Hi). pose proof (aget_Some_bounds _ _ _ Hj).
  unfold upd. revert Hi Hj. unfold aget. rewrite !decide_True by lia. intros Hi Hj.
  symmetry. rewrite (list_insert_insert_ne a) by lia.
  apply Permutation_inj. split; [by rewrite !length_insert|].
  exists (fun n : nat => if decide (n = Z.to_nat i) then Z.to_nat j
               else if decide (n = Z.to_nat j) then Z.to_nat i else n).
  split.
  - intros u v. repeat case_decide; subst; try done; lia.
  - intros n. destruct (decide (n = Z.to_nat i)) as [->|].
    + rewrite list_lookup_insert_eq; [done|rewrite length_insert; by apply lookup_lt_Some in Hi].
    + rewrite list_lookup_insert_ne by done. destruct (decide (n = Z.to_nat j)) as [->|].
      * rewrite list_lookup_insert_eq; [done|by apply lookup_lt_Some in Hj].
      * by rewrite list_lookup_insert_ne.
Qed.

(** ** Rearrangement confined to [lo, hi] *)

Definition rperm lo hi a b : Prop :=
  a ≡ₚ b /\ forall k, ~ (lo <= k <= hi) -> b.[k] = a.[k].

Lemma rperm_refl lo hi a : rperm lo hi a a.
Proof. by split. Qed.

Lemma rperm_trans lo hi a b c : rperm lo hi a b -> rperm lo hi b c -> rperm lo hi a c.
Proof.
  intros [P1 F1] [P2 F2]. split; [by rewrite P1|]. intros k Hk. by rewrite F2, F1.
Qed.

Lemma rperm_mono lo hi lo' hi' a b : lo' <= lo -> hi <= hi' -> rperm lo hi a b -> rperm lo' hi' a b.
Proof. intros ?? [P F]. split; [done|]. intros k Hk. apply F. lia. Qed.

Lemma rperm_perm lo hi a b : rperm lo hi a b -> a ≡ₚ b.
Proof. by intros []. Qed.

Lemma rperm_alen lo hi a b : rperm lo hi a b -> alen b = alen a.
Proof. intros [P _]. unfold alen. by rewrite P. Qed.

Lemma rperm_out lo hi a b k : rperm lo hi a b -> ~ (lo <= k <= hi) -> b.[k] = a.[k].
Proof. intros [_ F]. apply F. Qed.

Lemma swapped_rperm lo hi a i j b :
  swapped a i j b -> lo <= i <= hi -> lo <= j <= hi -> rperm lo hi a b.
Proof.
  intros Hs Hi Hj. split; [by eapply swapped_perm|].
  intros k Hk. rewrite (swapped_get _ _ _ _ _ Hs). repeat case_decide; lia || done.
Qed.

Lemma perm_alen a b : a ≡ₚ b -> alen b = alen a.
Proof. intros P. unfold alen. by rewrite P. Qed.
End arrays.

Arguments rperm_trans {A lo hi a} b {c}.

(** The part of an array between two indices (inclusive). *)
Definition segment {A} (lo hi : Z) (a : list A) : list A :=
  take (Z.to_nat (hi + 1 - lo)) (drop (Z.to_nat lo) a).

Section segments.
Context {A : Type}.
Implicit Types (a b : list A) (i j k lo hi : Z) (x y : A).

Lemma aget_segment lo hi a k : 0 <= lo ->
  (segment lo hi a).[k] = if decide (0 <= k <= hi - lo) then a.[lo + k] else None.
Proof.
  intros Hlo. unfold segment, aget. repeat case_decide; try lia; try done.
  - rewrite lookup_take_lt by lia. rewrite lookup_drop. f_equal. lia.
  - apply lookup_take_ge. lia.
Qed.

Lemma segment_elem lo hi a x : 0 <= lo ->
  x ∈ segment lo hi a <-> exists k, lo <= k <= hi /\ a.[k] = Some x.
Proof.
  intros Hlo. rewrite list_elem_of_lookup. split.
  - intros [n Hn]. rewrite <- aget_nat, aget_segment in Hn by done.
    case_decide; [|done]. exists (lo + Z.of_nat n). split; [lia|done].
  - intros (k & Hk & Hx). exists (Z.to_nat (k - lo)).
    rewrite <- aget_nat, aget_segment by done. rewrite decide_True by lia.
    by replace (lo + Z.of_nat (Z.to_nat (k - lo))) with k by lia.
Qed.

Lemma array_split3 lo hi a : 0 <= lo -> lo <= hi + 1 ->
  a = take (Z.to_nat lo) a ++ segment lo hi a ++ drop (Z.to_nat (hi + 1)) a.
Proof.
  intros. unfold segment.
  replace (drop (Z.to_nat (hi + 1)) a)
    with (drop (Z.to_nat (hi + 1 - lo)) (drop (Z.to_nat lo) a)).
  - by rewrite take_drop, take_drop.
  - rewrite drop_drop. f_equal. lia.
Qed.

Lemma rperm_segment lo hi a b : 0 <= lo -> lo <= hi + 1 ->
  rperm lo hi a b -> segment lo hi a ≡ₚ segment lo hi b.
Proof.
  intros Hlo Hhi [P F].
  assert (take (Z.to_nat lo) a = take (Z.to_nat lo) b) as E1.
  { apply list_eq. intros n. destruct (decide (n < Z.to_nat lo)%nat).
    - rewrite !lookup_take_lt by done. rewrite <- !aget_nat. symmetry. apply F. lia.
    - by rewrite !lookup_take_ge by lia. }
  assert (drop (Z.to_nat (hi + 1)) a = drop (Z.to_nat (hi + 1)) b) as E2.
  { apply list_eq. intros n. rewrite !lookup_drop, <- !aget_nat. symmetry. apply F. lia. }
  rewrite (array_split3 lo hi a), (array_split3 lo hi b) in P by done.
  rewrite E1, E2 in P. by apply Permutation_app_inv_l, Permutation_app_inv_r in P.
Qed.

(** What holds of every element of the range before a confined rearrangement
    holds of every element of the range after it. *)
Lemma rperm_forall lo hi a b (P : A -> Prop) : 0 <= lo ->
  rperm lo hi a b ->
  (forall k x, lo <= k <= hi -> a.[k] = Some x -> P x) ->
  (forall k x, lo <= k <= hi -> b.[k] = Some x -> P x).
Proof.
  intros Hlo Hr Ha k x Hk Hx.
  assert (x ∈ segment lo hi b) as Hin by (apply segment_elem; eauto).
  rewrite <- (rperm_segment lo hi a b) in Hin by (done || lia).
  apply segment_elem in Hin as (k' & Hk' & Hx'); [|done]. eauto.
Qed.

Lemma segment_full a : segment 0 (alen a - 1) a = a.
Proof.
  unfold segment, alen. rewrite drop_0. apply take_ge. lia.
Qed.

Lemma segment_empty lo hi a : hi < lo -> segment lo hi a = [].
Proof. intros. unfold segment. by replace (Z.to_nat (hi + 1 - lo)) with O by lia. Qed.

Lemma segment_snoc lo hi a x : 0 <= lo <= hi + 1 -> a.[hi + 1] = Some x ->
  segment lo (hi + 1) a = segment lo hi a ++ [x].
Proof.
  intros Hlo Hx. unfold segment.
  replace (Z.to_nat (hi + 1 + 1 - lo)) with (S (Z.to_nat (hi + 1 - lo))) by lia.
  apply take_S_r. rewrite lookup_drop, <- aget_nat. rewrite <- Hx. f_equal. lia.
Qed.

Lemma segment_cons lo hi a x : 0 <= lo <= hi -> a.[lo] = Some x ->
  segment lo hi a = x :: segment (lo + 1) hi a.
Proof.
  intros Hlo Hx. unfold segment.
  replace (Z.to_nat (hi + 1 - lo)) with (S (Z.to_nat (hi + 1 - (lo + 1)))) by lia.
  rewrite <- (Z2Nat.id lo), aget_nat in Hx by lia.
  rewrite (drop_S a x (Z.to_nat lo)) by done. simpl. f_equal. f_equal. f_equal. lia.
Qed.

Lemma segment_app lo mid hi a : 0 <= lo <= mid + 1 -> mid <= hi ->
  segment lo hi a = segment lo mid a ++ segment (mid + 1) hi a.
Proof.
  intros. apply array_ext. intros i Hi.
  unfold segment, aget. rewrite !decide_True by done.
  destruct (decide (i < hi + 1 - lo)); cycle 1.
  { rewrite lookup_take_ge by lia. symmetry. apply lookup_ge_None_2.
    rewrite length_app, !length_take, !length_drop. lia. }
  rewrite lookup_take_lt by lia. rewrite lookup_drop.
  destruct (decide (i < mid + 1 - lo)).
  - rewrite lookup_app. rewrite lookup_take_lt, lookup_drop by lia.
    destruct (a !! _) eqn:E; [done|].
    symmetry. apply lookup_ge_None_2. apply lookup_ge_None_1 in E.
    rewrite !length_take, !length_drop. lia.
  - destruct (decide (mid + 1 < alen a)) as [Hm|Hm]; unfold alen in Hm.
    + rewrite lookup_app_r by (rewrite length_take, length_drop; lia).
      rewrite length_take, length_drop, lookup_take_lt, lookup_drop by lia. f_equal. lia.
    + transitivity (@None A); [apply lookup_ge_None_2; lia|].
      symmetry. apply lookup_ge_None_2. rewrite length_app, !length_take, !length_drop. lia.
Qed.

Lemma alen_segment lo hi a : 0 <= lo -> lo <= hi + 1 -> hi < alen a ->
  alen (segment lo hi a) = hi + 1 - lo.
Proof. unfold alen, segment. intros. rewrite length_take, length_drop. lia. Qed.

Lemma segment_ext lo hi a b : 0 <= lo ->
  (forall k, lo <= k <= hi -> a.[k] = b.[k]) -> segment lo hi a = segment lo hi b.
Proof.
  intros Hlo H. apply array_ext. intros i Hi. rewrite !aget_segment by done.
  case_decide; [|done]. apply H. lia.
Qed.

Lemma segment_perm_rperm lo hi a b : 0 <= lo -> lo <= hi + 1 ->
  segment lo hi a ≡ₚ segment lo hi b ->
  (forall k, ~ (lo <= k <= hi) -> b.[k] = a.[k]) -> rperm lo hi a b.
Proof.
  intros Hlo Hhi P F. split; [|done].
  rewrite (array_split3 lo hi a), (array_split3 lo hi b) by done.
  apply Permutation_app; [|apply Permutation_app; [done|]].
  - erewrite (list_eq (take _ a)); [done|]. intros n.
    destruct (decide (n < Z.to_nat lo)%nat).
    + rewrite !lookup_take_lt by done. rewrite <- !aget_nat. symmetry. apply F. lia.
    + by rewrite !lookup_take_ge by lia.
  - erewrite (list_eq (drop _ a)); [done|]. intros n.
    rewrite !lookup_drop, <- !aget_nat. symmetry. apply F. lia.
Qed.
End segments.

#[export] Hint Rewrite @alen_upd : arr.
#[export] Hint Resolve alen_nonneg : arr_bounds.

(** Replaces every known length by the length of the array it was obtained
    from, so that [lia] can check index bounds. *)
Ltac alen_norm :=
  repeat match goal with
  | H : swapped ?a _ _ ?b |- _ =>
      lazymatch goal with
      | _ : alen b = alen a |- _ => fail
      | _ => pose proof (swapped_alen _ _ _ _ H)
      end
  | H : rperm _ _ ?a ?b |- _ =>
      lazymatch goal with
      | _ : alen b = alen a |- _ => fail
      | _ => pose proof (rperm_alen _ _ _ _ H)
      end
  | H : aget ?a ?i = Some _ |- _ =>
      lazymatch goal with
      | _ : 0 <= i < alen a |- _ => fail
      | _ => pose proof (aget_Some_bounds _ _ _ H)
      end
  end;
  autorewrite with arr in *.

Ltac bnd := alen_norm; lia.

(** ** Characters and string literals as codes *)

Definition ch (a : Ascii.ascii) : Z := Z.of_N (Ascii.N_of_ascii a).

Definition cstr (s : String.string) : list Z := ch <$> String.list_ascii_of_string s.
