(* ===== verification/SortSpec.v ===== *)
(** What the routines of [src/sort] promise.

    A comparator [comp] is the C++ [Cmp] argument; the library asks for a
    strict weak order.  [sorts] is the contract of every sort, [stably_sorts]
    the contract of the ones documented as stable (insertion, bubble, merge,
    stable).  The file proves the order theory the component files share and
    that a stable sort is determined by its contract. *)
From stdpp Require Import base numbers list option sorting.
From Stdlib Require Import ZArith Lia.
From S2P Require Import Prelude Arrays.

Local Open Scope Z_scope.

Class StrictWeakOrder {A} (comp : A -> A -> bool) : Prop := {
  swo_asym x y : comp x y = true -> comp y x = false;
  swo_negtrans x y z : comp x y = false -> comp y z = false -> comp x z = false;
}.

#[export] Instance Zltb_swo : StrictWeakOrder Z.ltb.
Proof. split; intros *; rewrite ?Z.ltb_lt, ?Z.ltb_ge; lia. Qed.

(** Ordering by a key: the comparators of the stability witnesses. *)
#[export] Instance key_swo {A} (key : A -> Z) : StrictWeakOrder (fun x y => Z.ltb (key x) (key y)).
Proof. split; intros *; rewrite ?Z.ltb_lt, ?Z.ltb_ge; lia. Qed.

(** The reversed comparator: a min-heap is a max-heap for it. *)
Definition flipc {A} (comp : A -> A -> bool) (x y : A) : bool := comp y x.

#[export] Instance flipc_swo {A} (comp : A -> A -> bool) `{!StrictWeakOrder comp} :
  StrictWeakOrder (flipc comp).
Proof. unfold flipc. split; intros *; [apply swo_asym|]. intros H1 H2. by eapply swo_negtrans. Qed.

Section order.
Context {A : Type} (comp : A -> A -> bool).

(** [le x y]: [x] may stand before [y]. *)
Definition le (x y : A) : Prop := comp y x = false.

(** Neither is smaller: the elements a stable sort may not exchange. *)
Definition eqv (x y : A) : bool := negb (comp x y) && negb (comp y x).

Definition sorted_in (lo hi : Z) (a : list A) : Prop :=
  forall i j x y, lo <= i -> i < j -> j <= hi -> a.[i] = Some x -> a.[j] = Some y -> le x y.

Definition sorts (a b : list A) : Prop := a ≡ₚ b /\ StronglySorted le b.

Definition stable (a b : list A) : Prop :=
  forall x, filter (fun y => eqv x y = true) a = filter (fun y => eqv x y = true) b.

Definition stably_sorts (a b : list A) : Prop := sorts a b /\ stable a b.

(** The contract of the overloads with a limit: only the first [n] elements
    are touched, and they end up in order. *)
Definition sorts_prefix (n : Z) (a b : list A) : Prop :=
  rperm 0 (n - 1) a b /\ sorted_in 0 (n - 1) b.

Context `{!StrictWeakOrder comp}.

Lemma le_refl x : le x x.
Proof. unfold le. destruct (comp x x) eqn:E; [|done]. by apply swo_asym in E as E'; rewrite E in E'. Qed.

Lemma le_trans x y z : le x y -> le y z -> le x z.
Proof. unfold le. intros. by apply (swo_negtrans z y x). Qed.

Lemma lt_le x y : comp x y = true -> le x y.
Proof. apply swo_asym. Qed.

Lemma eqv_spec x y : eqv x y = true <-> le x y /\ le y x.
Proof. unfold eqv, le. rewrite andb_true_iff, !negb_true_iff. tauto. Qed.

Lemma lt_not_eqv x y : comp x y = true -> eqv x y = false.
Proof. unfold eqv. by intros ->. Qed.

Lemma eqv_lt_l z x y : comp x y = true -> eqv z x = true -> eqv z y = false.
Proof.
  intros Hxy Hzx. destruct (eqv z y) eqn:E; [|done].
  apply eqv_spec in E as [? ?]. apply eqv_spec in Hzx as [? ?].
  assert (le y x) as Hle by (by apply (le_trans y z x)). unfold le in Hle. congruence.
Qed.

Lemma eqv_lt_r z x y : comp x y = true -> eqv z y = true -> eqv z x = false.
Proof.
  intros Hxy Hzy. destruct (eqv z x) eqn:E; [|done].
  by rewrite (eqv_lt_l z x y) in Hzy.
Qed.

Lemma sorted_in_adjacent lo hi a :
  (forall i x y, lo <= i < hi -> a.[i] = Some x -> a.[i + 1] = Some y -> le x y) ->
  0 <= lo -> hi < alen a ->
  sorted_in lo hi a.
Proof.
  intros Hadj Hlo Hhi i j x y Hi Hij Hj Hx Hy.
  remember (Z.to_nat (j - i)) as d eqn:Ed.
  revert i x Hi Hij Hx Ed. induction d as [|d IH]; intros i x Hi Hij Hx Ed; [lia|].
  destruct (decide (j = i + 1)) as [->|].
  { apply (Hadj i); [lia|done|done]. }
  destruct (aget_in a (i + 1)) as [z Hz]; [lia|].
  apply (le_trans x z y); [apply (Hadj i); [lia|done|done]|].
  apply (IH (i + 1)); [lia|lia|done|lia].
Qed.

Lemma sorted_in_mono lo hi lo' hi' a :
  lo' <= lo -> hi <= hi' -> sorted_in lo' hi' a -> sorted_in lo hi a.
Proof. intros ?? H i j x y ??? Hx Hy. apply (H i j); done || lia. Qed.

Lemma sorted_in_trivial lo hi a : hi <= lo -> sorted_in lo hi a.
Proof. intros ? i j x y ???. lia. Qed.

Lemma sorted_in_ext lo hi a b :
  (forall k, lo <= k <= hi -> b.[k] = a.[k]) -> sorted_in lo hi a -> sorted_in lo hi b.
Proof.
  intros E H i j x y Hi Hij Hj. rewrite !E by lia. by apply H.
Qed.

Lemma StronglySorted_lookup (l : list A) :
  StronglySorted le l <->
  (forall (i j : nat) x y, (i < j)%nat -> l !! i = Some x -> l !! j = Some y -> le x y).
Proof.
  induction l as [|z l IH].
  - split; [done|]. intros _. constructor.
  - split.
    + intros Hs. apply StronglySorted_inv in Hs as [Hs Hz].
      intros [|i] [|j] x y Hij Hx Hy; simpl in *; try lia.
      * simplify_eq. eapply Forall_lookup_1; eauto.
      * apply (proj1 IH Hs i j); [lia|done|done].
    + intros H. constructor.
      * apply IH. intros i j x y Hij Hx Hy. apply (H (S i) (S j)); simpl; [lia|done|done].
      * apply Forall_lookup. intros j y Hy. apply (H O (S j)); simpl; [lia|done|done].
Qed.

Lemma sorted_in_StronglySorted a : sorted_in 0 (alen a - 1) a <-> StronglySorted le a.
Proof.
  rewrite StronglySorted_lookup. split.
  - intros H i j x y Hij Hx Hy.
    pose proof (lookup_lt_Some _ _ _ Hy).
    apply (H (Z.of_nat i) (Z.of_nat j)); rewrite ?aget_nat; unfold alen; (done || lia).
  - intros H i j x y Hi Hij Hj Hx Hy.
    apply (H (Z.to_nat i) (Z.to_nat j)); [lia| |].
    + rewrite <- aget_nat. rewrite <- Hx. f_equal. lia.
    + rewrite <- aget_nat. rewrite <- Hy. f_equal. lia.
Qed.

Lemma stable_refl a : stable a a.
Proof. done. Qed.

Lemma stable_trans a b c : stable a b -> stable b c -> stable a c.
Proof. intros H1 H2 x. by rewrite H1, H2. Qed.

Lemma stable_app a b c d : stable a b -> stable c d -> stable (a ++ c) (b ++ d).
Proof. intros H1 H2 x. by rewrite !filter_app, H1, H2. Qed.

Lemma stable_nil_inv b : stable [] b -> b = [].
Proof.
  destruct b as [|y b]; [done|]. intros H. specialize (H y).
  rewrite filter_nil, filter_cons_True in H; [done|].
  apply eqv_spec. split; apply le_refl.
Qed.

(** Two elements in strict order may be exchanged when they are neighbours:
    no equivalence class changes. *)
Lemma stable_exchange (l r : list A) x y :
  comp x y = true -> stable (l ++ x :: y :: r) (l ++ y :: x :: r).
Proof.
  intros Hxy z. rewrite !filter_app. f_equal. rewrite !filter_cons.
  pose proof (eqv_lt_l z x y Hxy). repeat case_decide; try done. naive_solver congruence.
Qed.

(** A key may jump over a block of strictly greater elements. *)
Lemma stable_jump (l m r : list A) x :
  Forall (fun y => comp x y = true) m -> stable (l ++ m ++ x :: r) (l ++ x :: m ++ r).
Proof.
  intros Hm. apply stable_app; [apply stable_refl|].
  induction m as [|y m IH]; [apply stable_refl|].
  apply Forall_cons in Hm as [Hy Hm]. simpl.
  apply (stable_trans _ (y :: x :: m ++ r)).
  - apply (stable_app [y] [y]); [apply stable_refl|by apply IH].
  - intros z. symmetry. revert z. by apply (stable_exchange [] (m ++ r) x y).
Qed.

Lemma sorted_stable_eq (b c : list A) :
  StronglySorted le b -> StronglySorted le c -> stable b c -> b = c.
Proof.
  revert c. induction b as [|x b IH]; intros c Hb Hc Hst.
  { symmetry. by apply stable_nil_inv. }
  destruct c as [|y c].
  { apply stable_nil_inv. intros z. symmetry. apply Hst. }
  apply StronglySorted_inv in Hb as [Hb Hx]. apply StronglySorted_inv in Hc as [Hc Hy].
  assert (forall u v l l', Forall (le u) l -> Forall (le v) l' -> stable (u :: l) (v :: l') -> le u v) as Hle.
  { intros u v l l' Hu Hv Hs. specialize (Hs v).
    rewrite (filter_cons_True _ v l') in Hs by (apply eqv_spec; split; apply le_refl).
    assert (v ∈ filter (fun y => eqv v y = true) (u :: l)) as Hin by (rewrite Hs; left).
    apply list_elem_of_filter in Hin as [_ Hin]. apply elem_of_cons in Hin as [->|Hin]; [apply le_refl|].
    rewrite Forall_forall in Hu. by apply Hu. }
  assert (le x y) as Hxy by eauto.
  assert (le y x) as Hyx. { eapply (Hle y x c b); eauto. intros z. symmetry. apply Hst. }
  pose proof (Hst x) as Ex.
  rewrite !filter_cons_True in Ex by (apply eqv_spec; split; auto using le_refl).
  injection Ex as -> _. f_equal. apply IH; [done|done|].
  intros z. specialize (Hst z). rewrite !filter_cons in Hst. by case_decide; simplify_eq.
Qed.

(** The contract of a stable sort has one solution. *)
Lemma stably_sorts_unique a b c : stably_sorts a b -> stably_sorts a c -> b = c.
Proof.
  intros [[_ Hb] Sb] [[_ Hc] Sc]. apply sorted_stable_eq; [done|done|].
  intros x. by rewrite <- Sb, <- Sc.
Qed.
End order.

#[export] Instance le_dec {A} (comp : A -> A -> bool) : RelDecision (le comp).
Proof. intros x y. unfold le. apply _. Defined.

#[export] Instance le_preorder {A} (comp : A -> A -> bool) `{!StrictWeakOrder comp} : PreOrder (le comp).
Proof. split; [intros x; by apply le_refl|intros x y z; by apply le_trans]. Qed.

#[export] Instance le_total {A} (comp : A -> A -> bool) `{!StrictWeakOrder comp} : Total (le comp).
Proof. intros x y. destruct (comp y x) eqn:E; [right; by apply lt_le|by left]. Qed.

Create HintDb sort.
#[export] Hint Resolve le_refl lt_le sorted_in_trivial stable_refl rperm_refl : sort.

Ltac split_comp := match goal with
  | |- context [if ?c then _ else _] =>
      lazymatch type of c with bool => let E := fresh "Ec" in destruct c eqn:E end
  end.

Section adjacent.
Context {A : Type} (comp : A -> A -> bool) `{!StrictWeakOrder comp}.

(** Exchanging an adjacent inversion keeps the order of equivalent elements. *)
Lemma swapped_adjacent_stable (a b : list A) j x y :
  swapped a (j - 1) j b -> a.[j - 1] = Some y -> a.[j] = Some x -> comp x y = true ->
  stable comp a b.
Proof.
  intros (y' & x' & Hy' & Hx' & ->) Hy Hx Hc.
  assert (y' = y) as -> by congruence. assert (x' = x) as -> by congruence.
  pose proof (aget_Some_bounds _ _ _ Hy). pose proof (aget_Some_bounds _ _ _ Hx).
  rewrite <- (Z2Nat.id (j - 1)), aget_nat in Hy by lia.
  assert (a !! S (Z.to_nat (j - 1)) = Some x) as Hx2.
  { rewrite <- Hx, <- aget_nat. f_equal. lia. }
  unfold upd. replace (Z.to_nat j) with (S (Z.to_nat (j - 1))) by lia.
  set (n := Z.to_nat (j - 1)) in *.
  assert (a = take n a ++ y :: x :: drop (S (S n)) a) as E.
  { rewrite <- (take_drop n a) at 1. f_equal.
    rewrite (drop_S a y n), (drop_S a x (S n)) by done. done. }
  assert (<[S n:=y]> (<[n:=x]> a) = take n a ++ x :: y :: drop (S (S n)) a) as E2.
  { rewrite E at 1. assert (length (take n a) = n) as L.
    { apply length_take_le. apply lookup_lt_Some in Hy. lia. }
    rewrite (insert_app_r_alt _ _ n) by lia. rewrite L, Nat.sub_diag. simpl.
    rewrite (insert_app_r_alt _ _ (S n)) by lia. rewrite L.
    by replace (S n - n)%nat with 1%nat by lia. }
  rewrite E2. rewrite E at 1. intros z. symmetry. revert z. by apply stable_exchange.
Qed.
End adjacent.
