(* ===== verification/SortInsertion.v ===== *)
(** [src/sort/insertion.hpp] and [src/sort/shell.hpp]. *)
From stdpp Require Import base numbers list option sorting.
From Stdlib Require Import ZArith Lia.
From S2P Require Import Prelude Arrays SortSpec.

Local Open Scope Z_scope.

Section code.
Context {A : Type} (comp : A -> A -> bool).

(** [while (j > 0 && comp(key, arr[j - 1])) { arr[j] = arr[j - 1]; --j; }] *)
Definition __insertion_shift (key : A) (i : Z) (a : list A) : option (list A * Z) :=
  while_ (S (Z.to_nat i)) (fun '(a, j) =>
    if 0 <? j then
      x ← a.[j - 1];
      if comp key x then a' ← aset a j x; Some (inl (a', j - 1))
      else Some (inr (a, j))
    else Some (inr (a, j))) (a, i).

Definition __insertion_body (i : Z) (a : list A) : option (list A) :=
  key ← a.[i];
  '(a', j) ← __insertion_shift key i a;
  aset a' j key.

Definition __insertion (a : list A) (start end_ : Z) : option (list A) :=
  for_ (start + 1) end_ __insertion_body a.

Definition insertion (a : list A) : option (list A) := __insertion a 0 (alen a).

Definition insertion_lim (a : list A) (lim : Z) : option (list A) :=
  __insertion a 0 (if lim <? alen a then lim else alen a).

(** The iterator form: the buffer is the range [start, end). *)
Definition __insertion_it (a : list A) : option (list A) :=
  let cnt := alen a in
  for_ 1 cnt __insertion_body a.

(** The gapped insertion of shell sort. *)
Definition __shell_shift (gap : Z) (key : A) (i : Z) (a : list A) : option (list A * Z) :=
  while_ (S (Z.to_nat i)) (fun '(a, j) =>
    if gap <=? j then
      x ← a.[j - gap];
      if comp key x then a' ← aset a j x; Some (inl (a', j - gap))
      else Some (inr (a, j))
    else Some (inr (a, j))) (a, i).

Definition __shell_body (gap i : Z) (a : list A) : option (list A) :=
  key ← a.[i];
  '(a', j) ← __shell_shift gap key i a;
  aset a' j key.

Definition ciura : list Z := [1; 4; 10; 23; 57; 132; 301; 701; 1750].

(** [while (ng < 96 && gaps[ng - 1] < n) { gaps[ng] = gaps[ng - 1] * 9 / 4; ++ng; }]
    with the filled part of [gaps] as a list. *)
Definition __shell_gaps (n : Z) : option (list Z) :=
  while_ 97 (fun gaps =>
    let ng := alen gaps in
    if ng <? 96 then
      last ← gaps.[ng - 1];
      if last <? n then Some (inl (gaps ++ [Z.quot (last * 9) 4])) else Some (inr gaps)
    else Some (inr gaps)) ciura.

Definition __shell (a : list A) : option (list A) :=
  let n := alen a in
  if n <? 2 then Some a
  else
    gaps ← __shell_gaps n;
    for_down (alen gaps) (fun g a =>
      gap ← gaps.[g];
      if n <=? gap then Some a
      else for_ gap n (__shell_body gap) a) a.
End code.

Section proofs.
Context {A : Type} (comp : A -> A -> bool) `{!StrictWeakOrder comp}.
Implicit Types (a b : list A) (key : A).

(** The array in which the key has been written back to the hole. *)
Lemma hole_swap a key j j' x :
  0 <= j < alen a -> 0 <= j' < alen a -> j <> j' -> a.[j'] = Some x ->
  swapped (upd a j key) j' j (upd (upd a j x) j' key).
Proof.
  intros Hj Hj' Hne Hx. exists x, key. split_and!.
  - rewrite aget_upd_ne by lia. done.
  - by apply aget_upd_eq.
  - rewrite (upd_upd_ne (upd a j key) j' j) by lia. rewrite upd_upd_eq. done.
Qed.

Lemma shell_shift_spec gap key i a :
  0 < gap -> 0 <= i < alen a -> a.[i] = Some key ->
  returns (__shell_shift comp gap key i a) (fun '(a', j) =>
    0 <= j <= i /\ alen a' = alen a /\ rperm 0 i a (upd a' j key)).
Proof.
  intros Hgap Hi Hk. unfold __shell_shift.
  apply (returns_while _ _ _
    (fun '(a', j) => 0 <= j <= i /\ alen a' = alen a /\ rperm 0 i a (upd a' j key))
    (fun '(_, j) => j)).
  - split_and!; [lia|lia|done|]. rewrite upd_same by done. apply rperm_refl.
  - lia.
  - intros [a' j] (Hj & Hl & Hp). apply returns_if; intros Hg; cycle 1.
    { by apply returns_ret. }
    apply Z.leb_le in Hg. apply returns_get; [lia|]. intros x Hx.
    apply returns_if; intros Hc; [|by apply returns_ret].
    apply returns_set; [lia|]. apply returns_ret. split; [|lia].
    split_and!; [lia|lia|by rewrite alen_upd|].
    eapply rperm_trans; [done|].
    eapply swapped_rperm; [apply (hole_swap a' key j (j - gap)); [lia|lia|lia|done]|lia|lia].
Qed.

Lemma shell_body_perm gap i a : 0 < gap -> 0 <= i < alen a ->
  returns (__shell_body comp gap i a) (fun a' => rperm 0 i a a').
Proof.
  intros Hgap Hi. unfold __shell_body. apply returns_get; [done|]. intros key Hk.
  eapply returns_bind; [by apply shell_shift_spec|]. intros [a' j] (Hj & Hl & Hp).
  apply returns_set_tail; [lia|done].
Qed.

(** What holds of [b], the array with the key in the hole, while it sinks to
    position [j]: [0, i] without [j] is sorted and everything right of [j] is
    strictly greater than the key. *)
Definition sinking (i j : Z) (key : A) (b : list A) : Prop :=
  b.[j] = Some key /\
  (forall p q x y, 0 <= p -> p < q -> q <= i -> p <> j -> q <> j ->
     b.[p] = Some x -> b.[q] = Some y -> le comp x y) /\
  (forall q y, j < q <= i -> b.[q] = Some y -> comp key y = true).

Lemma sinking_init i key a : a.[i] = Some key -> sorted_in comp 0 (i - 1) a -> sinking i i key a.
Proof.
  intros Hk Hs. split_and!; [done| |intros; lia].
  intros p q x y ?????. apply Hs; lia.
Qed.

Lemma sinking_step i j key a b x :
  0 < j <= i -> sinking i j key a -> a.[j - 1] = Some x -> comp key x = true ->
  swapped a (j - 1) j b -> sinking i (j - 1) key b.
Proof.
  intros Hj (Hk & Hs & Hg) Hx Hc Hsw.
  pose proof (fun k => swapped_get _ _ _ _ k Hsw) as G. split_and!.
  - rewrite G. by repeat (case_decide; try lia).
  - intros p q u v Hp Hpq Hq Hpj Hqj. rewrite !G.
    repeat (case_decide; try lia); intros Hu Hv; simplify_eq.
    + apply (Hs (j - 1) q); done || lia.
    + apply (Hs p (j - 1)); done || lia.
    + apply (Hs p q); done || lia.
  - intros q y Hq. rewrite G. repeat (case_decide; try lia); intros Hy; simplify_eq; [done|].
    apply (Hg q); [lia|done].
Qed.

Lemma sinking_done i j key b :
  0 <= j <= i -> sinking i j key b ->
  (j = 0 \/ exists x, b.[j - 1] = Some x /\ comp key x = false) ->
  sorted_in comp 0 i b.
Proof.
  intros Hj (Hk & Hs & Hg) Hstop p q x y Hp Hpq Hq Hx Hy.
  destruct (decide (p = j)) as [->|Hpj].
  { simplify_eq. apply lt_le; [done|]. apply (Hg q); [lia|done]. }
  destruct (decide (q = j)) as [->|Hqj]; [|by apply (Hs p q)].
  simplify_eq. destruct Hstop as [->|(z & Hz & Hc)]; [lia|].
  destruct (decide (p = j - 1)) as [->|]; [by simplify_eq|].
  apply (le_trans comp x z key); [|done]. apply (Hs p (j - 1)); done || lia.
Qed.

Lemma insertion_shift_spec key i a :
  0 <= i < alen a -> a.[i] = Some key -> sorted_in comp 0 (i - 1) a ->
  returns (__insertion_shift comp key i a) (fun '(a', j) =>
    0 <= j <= i /\ alen a' = alen a /\ rperm 0 i a (upd a' j key) /\
    stable comp a (upd a' j key) /\ sorted_in comp 0 i (upd a' j key)).
Proof.
  intros Hi Hk Hs. unfold __insertion_shift.
  apply (returns_while _ _ _
    (fun '(a', j) => 0 <= j <= i /\ alen a' = alen a /\ rperm 0 i a (upd a' j key) /\
      stable comp a (upd a' j key) /\ sinking i j key (upd a' j key))
    (fun '(_, j) => j)).
  - rewrite upd_same by done. split_and!; auto using sinking_init with sort; lia.
  - lia.
  - intros [a' j] (Hj & Hl & Hp & Hst & Hsk).
    assert (forall P : Prop, P -> (j = 0 \/ exists x, (upd a' j key).[j - 1] = Some x /\ comp key x = false) ->
      0 <= j <= i /\ alen a' = alen a /\ rperm 0 i a (upd a' j key) /\
      stable comp a (upd a' j key) /\ sorted_in comp 0 i (upd a' j key)) as Hexit.
    { intros _ _ Hstop. split_and!; try done; try lia. by eapply sinking_done. }
    apply returns_if; intros Hg; cycle 1.
    { apply returns_ret, (Hexit True); [done|]. apply Z.ltb_ge in Hg. left. lia. }
    apply Z.ltb_lt in Hg. apply returns_get; [lia|]. intros x Hx.
    apply returns_if; intros Hc.
    + apply returns_set; [lia|]. apply returns_ret. split; [|lia].
      pose proof (hole_swap a' key j (j - 1) x) as Hsw.
      specialize (Hsw ltac:(lia) ltac:(lia) ltac:(lia) Hx).
      assert ((upd a' j key).[j - 1] = Some x) as Hx' by (rewrite aget_upd_ne by lia; done).
      split_and!; [lia|lia|by rewrite alen_upd| | |].
      * eapply rperm_trans; [done|]. eapply swapped_rperm; [done|lia|lia].
      * eapply stable_trans; [done|]. eapply swapped_adjacent_stable; eauto. apply Hsk.
      * eapply sinking_step; eauto. lia.
    + apply returns_ret, (Hexit True); [done|]. right. exists x.
      rewrite aget_upd_ne by lia. done.
Qed.

Lemma insertion_body_spec i a :
  0 <= i < alen a -> sorted_in comp 0 (i - 1) a ->
  returns (__insertion_body comp i a) (fun a' =>
    rperm 0 i a a' /\ stable comp a a' /\ sorted_in comp 0 i a').
Proof.
  intros Hi Hs. unfold __insertion_body. apply returns_get; [done|]. intros key Hk.
  eapply returns_bind; [by apply insertion_shift_spec|]. intros [a' j] (Hj & Hl & ? & ? & ?).
  apply returns_set_tail; [lia|done].
Qed.

(** Sorting the first [n] elements, the others stay. *)
Lemma insertion_prefix a n : 0 <= n <= alen a ->
  returns (__insertion comp a 0 n) (fun a' =>
    rperm 0 (n - 1) a a' /\ stable comp a a' /\ sorted_in comp 0 (n - 1) a').
Proof.
  intros Hn. unfold __insertion.
  destruct (decide (n <= 1)).
  { rewrite for_empty by lia. apply returns_ret. auto with sort lia. }
  apply (returns_for _ _ _ _ (fun i b =>
    rperm 0 (n - 1) a b /\ stable comp a b /\ sorted_in comp 0 (i - 1) b)); [lia| | |].
  - auto with sort lia.
  - intros i b Hi (Hp & Hst & Hs). pose proof (rperm_alen _ _ _ _ Hp).
    eapply returns_mono; [apply insertion_body_spec; [lia|done]|].
    intros b' (Hp' & Hst' & Hs'). split_and!.
    + eapply rperm_trans; [done|]. eapply rperm_mono; [| |done]; lia.
    + by eapply stable_trans.
    + by replace (i + 1 - 1) with i by lia.
  - done.
Qed.

Lemma insertion_full a :
  returns (insertion comp a) (fun b => stably_sorts comp a b).
Proof.
  unfold insertion. eapply returns_mono; [apply insertion_prefix; pose proof (alen_nonneg a); lia|].
  intros b (Hp & Hst & Hs). split; [|done]. split; [by eapply rperm_perm|].
  apply sorted_in_StronglySorted. by rewrite (rperm_alen _ _ _ _ Hp).
Qed.

Lemma shell_gap1_shift key i a : __shell_shift comp 1 key i a = __insertion_shift comp key i a.
Proof.
  apply while_ext. intros [a' j]. by replace (1 <=? j) with (0 <? j) by lia.
Qed.

Lemma shell_gap1 a : for_ 1 (alen a) (__shell_body comp 1) a = insertion comp a.
Proof.
  apply for_ext. intros i b. unfold __shell_body, __insertion_body.
  destruct (b.[i]) as [key|]; [|done]. simpl. by rewrite shell_gap1_shift.
Qed.

Definition gaps_ok (gaps : list Z) : Prop :=
  gaps.[0] = Some 1 /\ 1 <= alen gaps /\ forall k g, gaps.[k] = Some g -> 0 < g.

Lemma gaps_ok_snoc gaps last : gaps_ok gaps -> 0 < last ->
  gaps_ok (gaps ++ [Z.quot (last * 9) 4]).
Proof.
  intros (H0 & Hl & Hpos) Hlast.
  assert (0 < Z.quot (last * 9) 4) by (rewrite Z.quot_div_nonneg by lia; apply Z.div_str_pos; lia).
  split_and!.
  - destruct gaps; [done|]. done.
  - unfold alen. rewrite length_app. unfold alen in Hl. lia.
  - intros k g Hk. pose proof (aget_Some_bounds _ _ _ Hk).
    rewrite <- (Z2Nat.id k), aget_nat in Hk by lia.
    apply lookup_app_Some in Hk as [Hk|[_ Hk]].
    + rewrite <- aget_nat in Hk. eauto.
    + by apply list_lookup_singleton_Some in Hk as [_ <-].
Qed.

Lemma shell_gaps_spec n : returns (__shell_gaps n) gaps_ok.
Proof.
  apply (returns_while _ _ _ (fun g => gaps_ok g /\ alen g <= 96) (fun g => 96 - alen g)).
  - split; [|unfold alen; simpl; lia]. split_and!; [done|unfold alen; simpl; lia|].
    intros k g Hk. pose proof (aget_Some_bounds _ _ _ Hk).
    rewrite <- (Z2Nat.id k), aget_nat in Hk by lia.
    revert Hk. apply Forall_lookup_1. repeat constructor.
  - unfold alen. simpl. lia.
  - intros gaps [Hok Hle]. pose proof (proj1 (proj2 Hok)).
    apply returns_if; intros Hng; [|by apply returns_ret].
    apply returns_get; [lia|]. intros last Hlast.
    apply returns_if; intros Hn; [|by apply returns_ret].
    apply returns_ret. assert (alen (gaps ++ [Z.quot (last * 9) 4]) = alen gaps + 1) as E.
    { unfold alen. rewrite length_app. simpl. lia. }
    rewrite E. split_and!; try lia. apply gaps_ok_snoc; [done|]. by eapply Hok.
Qed.

Lemma shell_pass_perm gap a : 0 < gap <= alen a ->
  returns (for_ gap (alen a) (__shell_body comp gap) a) (fun b => rperm 0 (alen a - 1) a b).
Proof.
  intros Hg.
  apply (returns_for _ _ _ _ (fun _ b => rperm 0 (alen a - 1) a b)); [lia|auto with sort| |done].
  intros i b Hi Hp. pose proof (rperm_alen _ _ _ _ Hp).
  eapply returns_mono; [apply shell_body_perm; lia|]. intros b' Hp'.
  eapply rperm_trans; [done|]. eapply rperm_mono; [| |done]; lia.
Qed.

Lemma shell_spec a : returns (__shell comp a) (fun b => sorts comp a b).
Proof.
  unfold __shell. apply returns_if; intros Hn.
  { apply returns_ret. split; [done|]. apply sorted_in_StronglySorted.
    apply sorted_in_trivial. lia. }
  eapply returns_bind; [apply shell_gaps_spec|]. intros gaps (H0 & Hl & Hpos).
  apply (returns_for_down _ _ _ (fun g b =>
    rperm 0 (alen a - 1) a b /\ (g = 0 -> sorted_in comp 0 (alen a - 1) b))); [lia| | |].
  - split; [auto with sort|lia].
  - intros g b Hg [Hp _]. pose proof (rperm_alen _ _ _ _ Hp) as Hlen.
    apply returns_get; [lia|]. intros gap Hgap. pose proof (Hpos _ _ Hgap) as Hgp.
    apply returns_if; intros Hbig.
    { apply returns_ret. split; [done|]. intros ->. simplify_eq. lia. }
    rewrite <- Hlen. destruct (decide (g = 0)) as [->|].
    + simplify_eq. rewrite shell_gap1. eapply returns_mono; [apply insertion_full|].
      intros b' [[Hp' Hs'] _]. rewrite Hlen. split.
      * split; [by rewrite <- Hp'; eapply rperm_perm|]. intros k Hk.
        rewrite !aget_out; [done|lia|]. rewrite (perm_alen _ _ Hp'). lia.
      * intros _. rewrite <- Hlen, <- (perm_alen _ _ Hp'). by apply sorted_in_StronglySorted.
    + eapply returns_mono; [apply shell_pass_perm; lia|]. intros b' Hp'.
      simpl in Hp'. rewrite Hlen in Hp' |- *. split; [by eapply rperm_trans|lia].
  - intros b [Hp Hs]. split; [by eapply rperm_perm|].
    apply sorted_in_StronglySorted. rewrite (rperm_alen _ _ _ _ Hp). by apply Hs.
Qed.
End proofs.
