(* ===== verification/SortExchange.v ===== *)
(** The exchange sorts: [src/sort/bubble.hpp], [src/sort/comb.hpp], and the
    selection sort and sortedness tests of [src/sort/select.hpp]. *)
From stdpp Require Import base numbers list option sorting.
From Stdlib Require Import ZArith Lia.
From S2P Require Import Prelude Arrays SortSpec.

Local Open Scope Z_scope.

Section code.
Context {A : Type} (comp : A -> A -> bool).

(** One pass; [k] is the index of the last exchange. *)
Definition __bubble_pass (n : Z) (a : list A) : option (list A * Z) :=
  for_ 1 n (fun i '(a, k) =>
    x ← a.[i];
    y ← a.[i - 1];
    if comp x y then a' ← aswap a (i - 1) i; Some (a', i) else Some (a, k)) (a, 0).

Definition __bubble (a : list A) : option (list A) :=
  while_ (S (length a)) (fun '(a, n) =>
    if 1 <=? n then '(a', k) ← __bubble_pass n a; Some (inl (a', k))
    else Some (inr a)) (a, alen a).

(** The iterator form: the buffer is the range [start, end). *)
Definition __bubble_it (a : list A) : option (list A) :=
  while_ (S (length a)) (fun '(a, n) =>
    if 1 <=? n then '(a', k) ← __bubble_pass n a; Some (inl (a', k))
    else Some (inr a)) (a, alen a).

Definition __selection_min (i n : Z) (a : list A) : option Z :=
  for_ (i + 1) n (fun j m =>
    x ← a.[j];
    y ← a.[m];
    Some (if comp x y then j else m)) i.

Definition __selection (a : list A) : option (list A) :=
  let n := alen a in
  for_ 0 (n - 1) (fun i a =>
    m ← __selection_min i n a;
    if negb (m =? i) then aswap a i m else Some a) a.

Definition __selection_it (a : list A) : option (list A) :=
  let n := alen a in
  for_ 0 (n - 1) (fun i a =>
    m ← __selection_min i n a;
    if negb (m =? i) then aswap a i m else Some a) a.

(** [gap = (gap * 10) / 13], the 9/10 to 11 rule and the floor of 1. *)
Definition __comb_gap (gap : Z) : Z :=
  let gap := Z.quot (gap * 10) 13 in
  let gap := if (gap =? 9) || (gap =? 10) then 11 else gap in
  if gap <? 1 then 1 else gap.

Definition __comb_pass (n gap : Z) (a : list A) : option (list A * bool) :=
  for_ 0 (n - gap) (fun i '(a, swapped) =>
    x ← a.[i + gap];
    y ← a.[i];
    if comp x y then a' ← aswap a i (i + gap); Some (a', true) else Some (a, swapped)) (a, false).

Definition __comb (a : list A) : option (list A) :=
  let n := alen a in
  if n <? 2 then Some a
  else
    while_ (Z.to_nat (n + 2 * (n * n) + 2)) (fun '(a, gap, swapped) =>
      if (1 <? gap) || swapped then
        let gap := __comb_gap gap in
        '(a', swapped') ← __comb_pass n gap a;
        Some (inl (a', gap, swapped'))
      else Some (inr a)) (a, n, true).

(** The first index whose element is smaller than its predecessor. *)
Definition __is_sorted_until (a : list A) : option Z :=
  let n := alen a in
  while_ (S (length a)) (fun i =>
    if i <? n then
      x ← a.[i];
      y ← a.[i - 1];
      Some (if comp x y then inr i else inl (i + 1))
    else Some (inr n)) 1.

Definition __is_sorted (a : list A) : option bool :=
  let n := alen a in
  while_ (S (length a)) (fun i =>
    if i <? n then
      x ← a.[i];
      y ← a.[i - 1];
      Some (if comp x y then inr false else inl (i + 1))
    else Some (inr true)) 1.
End code.

Section bubble.
Context {A : Type} (comp : A -> A -> bool) `{!StrictWeakOrder comp}.
Implicit Types (a b : list A).

(** Everything in [0, n) may stand before everything in [n, hi]. *)
Definition split_at (n hi : Z) a : Prop :=
  forall p q x y, 0 <= p < n -> n <= q <= hi -> a.[p] = Some x -> a.[q] = Some y -> le comp x y.

Lemma split_at_zero hi a : split_at 0 hi a.
Proof. intros p q x y. lia. Qed.

Lemma split_at_rperm n hi a b :
  rperm 0 (n - 1) a b -> split_at n hi a -> split_at n hi b.
Proof.
  intros Hp Hs p q x y Hpn Hq Hx Hy.
  rewrite (rperm_out _ _ _ _ q Hp) in Hy by lia.
  revert p x Hpn Hx. intros p x Hpn.
  apply (rperm_forall 0 (n - 1) a b (fun x => le comp x y)); [lia|done| |lia].
  intros k z Hk Hz. apply (Hs k q); done || lia.
Qed.

Definition pass_inv i k b : Prop :=
  0 <= k <= i - 1 /\ sorted_in comp k (i - 1) b /\ split_at k (i - 1) b.

Lemma pass_inv_max i k b p x y :
  pass_inv i k b -> 0 <= p < i - 1 -> b.[p] = Some x -> b.[i - 1] = Some y -> le comp x y.
Proof.
  intros (Hk & Hs & Hsp) Hp Hx Hy. destruct (decide (p < k)).
  - apply (Hsp p (i - 1)); done || lia.
  - apply (Hs p (i - 1)); done || lia.
Qed.

Lemma pass_inv_swap i k b b' x y :
  1 <= i -> pass_inv i k b -> b.[i] = Some x -> b.[i - 1] = Some y -> comp x y = true ->
  swapped b (i - 1) i b' -> pass_inv (i + 1) i b'.
Proof.
  intros Hi HI Hx Hy Hc Hsw. pose proof (fun k => swapped_get _ _ _ _ k Hsw) as G.
  split_and!; [lia|lia|apply sorted_in_trivial; lia|].
  intros p q u v Hp Hq. replace q with i by lia. rewrite !G.
  repeat (case_decide; try lia); intros Hu Hv; simplify_eq.
  - by apply lt_le.
  - eapply (pass_inv_max i k b p); done || lia.
Qed.

Lemma pass_inv_keep i k b x y :
  1 <= i -> pass_inv i k b -> b.[i] = Some x -> b.[i - 1] = Some y -> comp x y = false ->
  pass_inv (i + 1) k b.
Proof.
  intros Hi HI Hx Hy Hc. pose proof HI as (Hk & Hs & Hsp).
  assert (forall p u, 0 <= p < i -> b.[p] = Some u -> le comp u x) as Hmax.
  { intros p u Hp Hu. destruct (decide (p = i - 1)) as [->|]; [by simplify_eq|].
    apply (le_trans comp u y x); [|done]. eapply (pass_inv_max i k b p); done || lia. }
  split_and!; [lia|lia| |].
  - intros p q u v Hp Hpq Hq Hu Hv. destruct (decide (q = i)) as [->|].
    + simplify_eq. apply (Hmax p); [lia|done].
    + apply (Hs p q); done || lia.
  - intros p q u v Hp Hq Hu Hv. destruct (decide (q = i)) as [->|].
    + simplify_eq. apply (Hmax p); [lia|done].
    + apply (Hsp p q); done || lia.
Qed.

Lemma bubble_pass_spec n a : 1 <= n <= alen a ->
  returns (__bubble_pass comp n a) (fun '(b, k) =>
    rperm 0 (n - 1) a b /\ stable comp a b /\ pass_inv n k b).
Proof.
  intros Hn. apply (returns_for _ _ _ _ (fun i '(b, k) =>
    rperm 0 (n - 1) a b /\ stable comp a b /\ pass_inv i k b)); [lia| | |].
  - split_and!; auto with sort. split_and!; auto with sort lia. apply split_at_zero.
  - intros i [b k] Hi (Hp & Hst & HI). pose proof (rperm_alen _ _ _ _ Hp).
    apply returns_get; [lia|]. intros x Hx. apply returns_get; [lia|]. intros y Hy.
    apply returns_if; intros Hc.
    + apply returns_swap; [lia|lia|]. intros b' Hsw. apply returns_ret. split_and!.
      * eapply rperm_trans; [done|]. eapply swapped_rperm; [done|lia|lia].
      * eapply stable_trans; [done|]. by eapply swapped_adjacent_stable.
      * eapply pass_inv_swap; eauto. lia.
    + apply returns_ret. split_and!; [done|done|]. eapply pass_inv_keep; eauto. lia.
  - by intros [b k].
Qed.

Lemma bubble_spec a : returns (__bubble comp a) (fun b => stably_sorts comp a b).
Proof.
  pose proof (alen_nonneg a).
  apply (returns_while _ _ _ (fun '(b, n) =>
    0 <= n <= alen a /\ rperm 0 (alen a - 1) a b /\ stable comp a b /\
    sorted_in comp n (alen a - 1) b /\ split_at n (alen a - 1) b) (fun '(_, n) => n)).
  - split_and!; auto with sort lia. intros p q x y; lia.
  - unfold alen. lia.
  - intros [b n] (Hn & Hp & Hst & Hs & Hsp). pose proof (rperm_alen _ _ _ _ Hp) as Hl.
    apply returns_if; intros Hc.
    + eapply returns_bind; [apply bubble_pass_spec; lia|].
      intros [b' k] (Hp' & Hst' & Hk & Hs' & Hsp'). apply returns_ret. split; [|lia].
      pose proof (split_at_rperm n (alen a - 1) b b' Hp' Hsp) as Hsp2.
      split_and!; try lia; eauto using rperm_trans, rperm_mono, stable_trans.
      * eapply rperm_trans; [done|]. eapply rperm_mono; [| |done]; lia.
      * intros p q x y Hpk Hpq Hq Hx Hy. destruct (decide (q < n)).
        { apply (Hs' p q); done || lia. }
        destruct (decide (p < n)); [apply (Hsp2 p q); done || lia|].
        rewrite (rperm_out _ _ _ _ p Hp') in Hx by lia.
        rewrite (rperm_out _ _ _ _ q Hp') in Hy by lia. apply (Hs p q); done || lia.
      * intros p q x y Hpk Hq Hx Hy. destruct (decide (q < n)).
        { apply (Hsp' p q); done || lia. }
        apply (Hsp2 p q); done || lia.
    + apply returns_ret. replace n with 0 in * by lia.
      split; [|done]. split; [by eapply rperm_perm|].
      apply sorted_in_StronglySorted. by rewrite Hl.
Qed.
End bubble.

Section selection.
Context {A : Type} (comp : A -> A -> bool) `{!StrictWeakOrder comp}.
Implicit Types (a b : list A).

Lemma selection_min_spec i n a : 0 <= i < n -> n <= alen a ->
  returns (__selection_min comp i n a) (fun m => i <= m < n /\
    forall k x y, i <= k < n -> a.[m] = Some x -> a.[k] = Some y -> le comp x y).
Proof.
  intros Hi Hn. apply (returns_for _ _ _ _ (fun j m => i <= m < j /\
    forall k x y, i <= k < j -> a.[m] = Some x -> a.[k] = Some y -> le comp x y)); [lia| | |done].
  - split; [lia|]. intros k x y Hk Hx Hy. assert (k = i) as -> by lia. simplify_eq. by apply le_refl.
  - intros j m Hj (Hm & Hmin). apply returns_get; [lia|]. intros x Hx.
    apply returns_get; [lia|]. intros y Hy. apply returns_ret.
    assert (forall k z, i <= k < j -> a.[k] = Some z -> le comp y z) as Hy' by eauto.
    destruct (comp x y) eqn:Hc; (split; [lia|]); intros k u v Hk Hu Hv; simplify_eq.
    + destruct (decide (k = j)) as [->|]; [simplify_eq; by apply le_refl|].
      apply (le_trans comp x y v); [by apply lt_le|]. apply (Hy' k); [lia|done].
    + destruct (decide (k = j)) as [->|]; [by simplify_eq|]. apply (Hy' k); [lia|done].
Qed.

Lemma selection_spec a : returns (__selection comp a) (fun b => sorts comp a b).
Proof.
  pose proof (alen_nonneg a). unfold __selection.
  destruct (decide (alen a <= 1)).
  { rewrite for_empty by lia. apply returns_ret. split; [done|].
    apply sorted_in_StronglySorted. apply sorted_in_trivial. lia. }
  apply (returns_for _ _ _ _ (fun i b => rperm 0 (alen a - 1) a b /\
    sorted_in comp 0 (i - 1) b /\ split_at comp i (alen a - 1) b)); [lia| | |].
  - split_and!; auto with sort lia. apply split_at_zero.
  - intros i b Hi (Hp & Hs & Hsp). pose proof (rperm_alen _ _ _ _ Hp) as Hl.
    eapply returns_bind; [apply selection_min_spec; lia|]. intros m (Hm & Hmin).
    assert (forall b', swapped b i m b' -> rperm 0 (alen a - 1) a b' /\
      sorted_in comp 0 (i + 1 - 1) b' /\ split_at comp (i + 1) (alen a - 1) b') as Hfin.
    { intros b' Hsw. pose proof (fun k => swapped_get _ _ _ _ k Hsw) as G. split_and!.
      - eapply rperm_trans; [done|]. eapply swapped_rperm; [done|lia|lia].
      - intros p q x y Hpp Hpq Hq. rewrite !G.
        repeat (case_decide; try lia); intros Hx Hy;
          first [apply (Hsp p m); done || lia | apply (Hs p q); done || lia | apply (Hsp p i); done || lia].
      - intros p q x y Hpp Hq. rewrite !G.
        repeat (case_decide; try lia); intros Hx Hy; simplify_eq; try (assert (m = i) as -> by lia);
          first [ apply (Hsp p q); done || lia | apply (Hsp p i); done || lia
                | apply (Hmin i); done || lia | apply (Hmin q); done || lia ]. }
    apply returns_if; intros Hc.
    + apply returns_swap_tail; [lia|lia|done].
    + apply returns_ret, Hfin. assert (m = i) as -> by lia.
      destruct (aget_in b i) as [x Hx]; [lia|]. exists x, x. split_and!; [done|done|].
      by rewrite upd_upd_eq, upd_same.
  - intros b (Hp & Hs & Hsp). split; [by eapply rperm_perm|].
    apply sorted_in_StronglySorted. rewrite (rperm_alen _ _ _ _ Hp).
    intros p q x y Hpp Hpq Hq Hx Hy. destruct (decide (q < alen a - 1)).
    + apply (Hs p q); done || lia.
    + apply (Hsp p q); done || lia.
Qed.

Lemma is_sorted_until_spec a : returns (__is_sorted_until comp a) (fun r =>
  (r = alen a \/ 1 <= r < alen a /\ exists x y, a.[r] = Some x /\ a.[r - 1] = Some y /\ comp x y = true) /\
  sorted_in comp 0 (r - 1) a).
Proof.
  apply (returns_while _ _ _ (fun i => 1 <= i <= Z.max 1 (alen a) /\ sorted_in comp 0 (i - 1) a)
    (fun i => Z.max 1 (alen a) - i)).
  - auto with sort lia.
  - unfold alen. lia.
  - intros i (Hi & Hs). apply returns_if; intros Hc.
    + apply returns_get; [lia|]. intros x Hx. apply returns_get; [lia|]. intros y Hy.
      apply returns_ret. destruct (comp x y) eqn:E.
      * split; [|done]. right. split; [lia|eauto].
      * split; [split; [lia|]|lia]. replace (i + 1 - 1) with i by lia.
        intros p q u v Hp Hpq Hq Hu Hv. destruct (decide (q = i)) as [->|].
        -- simplify_eq. destruct (decide (p = i - 1)) as [->|]; [by simplify_eq|].
           apply (le_trans comp _ y _); [|done]. apply (Hs p (i - 1)); done || lia.
        -- apply (Hs p q); done || lia.
    + apply returns_ret. split; [by left|]. eapply sorted_in_mono; [| |done]; lia.
Qed.

Lemma is_sorted_spec a : returns (__is_sorted comp a) (fun r =>
  r = true <-> StronglySorted (le comp) a).
Proof.
  apply (returns_mono _ (fun r => r = true <-> sorted_in comp 0 (alen a - 1) a));
    [|intros r Hr; by rewrite <- sorted_in_StronglySorted].
  apply (returns_while _ _ _ (fun i => 1 <= i <= Z.max 1 (alen a) /\
    forall k x y, 1 <= k < i -> a.[k] = Some x -> a.[k - 1] = Some y -> le comp y x)
    (fun i => Z.max 1 (alen a) - i)).
  - split; [lia|]. intros; lia.
  - unfold alen. lia.
  - intros i (Hi & Hs). apply returns_if; intros Hc.
    + apply returns_get; [lia|]. intros x Hx. apply returns_get; [lia|]. intros y Hy.
      apply returns_ret. destruct (comp x y) eqn:E.
      * split; [done|]. intros Hso. assert (le comp y x) as Hle by (apply (Hso (i - 1) i); done || lia).
        unfold le in Hle. congruence.
      * split; [split; [lia|]|lia]. intros k u v Hk Hu Hv.
        destruct (decide (k = i)) as [->|]; [by simplify_eq|]. apply (Hs k); done || lia.
    + apply returns_ret. split; [|done]. intros _. apply sorted_in_adjacent; [done| |lia|lia].
      intros k x y Hk Hx Hy. apply (Hs (k + 1)); [lia|done|]. by replace (k + 1 - 1) with k by lia.
Qed.
End selection.

(** Comb sort stops because every exchange removes inversions. *)
Section inversions.
Context {A : Type} (comp : A -> A -> bool) `{!StrictWeakOrder comp}.
Implicit Types (a b l m r : list A).

(** How many elements of [l] are strictly smaller than [x]. *)
Fixpoint smaller (x : A) l : Z :=
  match l with
  | [] => 0
  | y :: l' => (if comp y x then 1 else 0) + smaller x l'
  end.

Fixpoint inversions l : Z :=
  match l with
  | [] => 0
  | x :: l' => smaller x l' + inversions l'
  end.

(** Inversions between an element of [l] and one of [r]. *)
Fixpoint cross l r : Z :=
  match l with
  | [] => 0
  | x :: l' => smaller x r + cross l' r
  end.

Lemma smaller_app x l r : smaller x (l ++ r) = smaller x l + smaller x r.
Proof. induction l; simpl; lia. Qed.

Lemma smaller_perm x l r : l ≡ₚ r -> smaller x l = smaller x r.
Proof. induction 1; simpl; lia. Qed.

Lemma smaller_bound x l : 0 <= smaller x l <= alen l.
Proof. unfold alen. induction l; simpl; [lia|]. case_match; lia. Qed.

Lemma cross_perm l r r' : r ≡ₚ r' -> cross l r = cross l r'.
Proof. intros P. induction l; simpl; [done|]. rewrite (smaller_perm _ _ _ P). lia. Qed.

Lemma inversions_app l r : inversions (l ++ r) = inversions l + inversions r + cross l r.
Proof. induction l as [|x l IH]; simpl; [lia|]. rewrite IH, smaller_app. lia. Qed.

Lemma inversions_bound l : 0 <= inversions l <= alen l * alen l.
Proof.
  induction l as [|x l IH]; simpl; [unfold alen; simpl; lia|].
  pose proof (smaller_bound x l). pose proof (alen_nonneg l).
  replace (alen (x :: l)) with (alen l + 1) by (unfold alen; simpl; lia). nia.
Qed.

Lemma smaller_mono x y l : comp y x = true -> smaller y l <= smaller x l.
Proof.
  intros Hc. induction l as [|z l IH]; simpl; [lia|].
  destruct (comp z y) eqn:E1, (comp z x) eqn:E2; try lia.
  assert (le comp y x) as Hyx by (by apply lt_le).
  assert (le comp x z) as Hxz by done.
  assert (le comp y z) as Hyz by (by apply (le_trans comp y x z)).
  exfalso. assert (le comp x y) as Hxy.
  { apply (le_trans comp x z y); [done|]. by apply lt_le. }
  unfold le in *. congruence.
Qed.

Lemma cross_single_mono x y m : comp y x = true -> cross m [x] <= cross m [y].
Proof.
  intros Hc. induction m as [|z m IH]; simpl; [lia|].
  destruct (comp x z) eqn:E1, (comp y z) eqn:E2; try lia.
  exfalso. assert (le comp x y) as Hxy.
  { apply (le_trans comp x z y); [by apply lt_le|done]. }
  unfold le in *. congruence.
Qed.

Lemma cross_app_r l r s : cross l (r ++ s) = cross l r + cross l s.
Proof. induction l as [|x l IH]; simpl; [lia|]. rewrite smaller_app, IH. lia. Qed.

(** Exchanging an inverted pair, however far apart, removes inversions. *)
Lemma inversions_exchange l m r x y : comp y x = true ->
  inversions (l ++ y :: m ++ x :: r) < inversions (l ++ x :: m ++ y :: r).
Proof.
  intros Hc. rewrite !(inversions_app l).
  assert (y :: m ++ x :: r ≡ₚ x :: m ++ y :: r) as P.
  { rewrite <- !Permutation_middle. apply Permutation_swap. }
  rewrite (cross_perm l _ _ P). simpl.
  rewrite !inversions_app, !smaller_app. simpl.
  change (x :: r) with ([x] ++ r). change (y :: r) with ([y] ++ r). rewrite !cross_app_r.
  pose proof (smaller_mono x y m Hc). pose proof (cross_single_mono x y m Hc).
  rewrite Hc. assert (comp x y = false) as -> by (by apply lt_le). lia.
Qed.

Lemma swapped_inversions (a b : list A) i j x y :
  i < j -> swapped a i j b -> a.[i] = Some x -> a.[j] = Some y -> comp y x = true ->
  inversions b < inversions a.
Proof.
  intros Hij (x' & y' & Hi' & Hj' & ->) Hi Hj Hc.
  assert (x' = x) as -> by congruence. assert (y' = y) as -> by congruence.
  pose proof (aget_Some_bounds _ _ _ Hi) as Hib. pose proof (aget_Some_bounds _ _ _ Hj) as Hjb.
  unfold alen in *.
  assert (exists l m r, a = l ++ x :: m ++ y :: r /\ Z.of_nat (length l) = i /\
    Z.of_nat (length l + S (length m)) = j) as (l & m & r & -> & Hl & Hm).
  { exists (take (Z.to_nat i) a), (take (Z.to_nat j - S (Z.to_nat i)) (drop (S (Z.to_nat i)) a)),
      (drop (S (Z.to_nat j)) a). split_and!.
    - rewrite <- (Z2Nat.id i), aget_nat in Hi by lia. rewrite <- (Z2Nat.id j), aget_nat in Hj by lia.
      rewrite <- (take_drop (Z.to_nat i) a) at 1. f_equal. rewrite (drop_S a x) by done. f_equal.
      rewrite <- (take_drop (Z.to_nat j - S (Z.to_nat i)) (drop (S (Z.to_nat i)) a)) at 1. f_equal.
      rewrite drop_drop. replace (S (Z.to_nat i) + (Z.to_nat j - S (Z.to_nat i)))%nat with (Z.to_nat j) by lia.
      by apply drop_S.
    - rewrite length_take. lia.
    - rewrite !length_take, length_drop. lia. }
  assert (upd (upd (l ++ x :: m ++ y :: r) i y) j x = l ++ y :: m ++ x :: r) as ->.
  { unfold upd. replace (Z.to_nat i) with (length l + 0)%nat by lia.
    replace (Z.to_nat j) with (length l + S (length m + 0))%nat by lia.
    rewrite !insert_app_r. simpl. by rewrite insert_app_r. }
  by apply inversions_exchange.
Qed.

Lemma comb_gap_range gap : 1 <= gap -> 1 <= __comb_gap gap <= gap /\ (1 < gap -> __comb_gap gap < gap).
Proof.
  intros Hg. unfold __comb_gap. rewrite Z.quot_div_nonneg by lia.
  pose proof (Z.div_mod (gap * 10) 13 ltac:(lia)). pose proof (Z.mod_pos_bound (gap * 10) 13 ltac:(lia)).
  destruct (Z.eqb_spec (gap * 10 / 13) 9), (Z.eqb_spec (gap * 10 / 13) 10); simpl;
    try case_match; lia.
Qed.

Lemma comb_pass_spec n gap a : 1 <= gap -> n = alen a ->
  returns (__comb_pass comp n gap a) (fun '(b, sw) =>
    rperm 0 (alen a - 1) a b /\
    (sw = true -> inversions b < inversions a) /\
    (sw = false -> b = a /\ forall i x y, 0 <= i < n - gap -> a.[i] = Some x -> a.[i + gap] = Some y -> le comp x y)).
Proof.
  intros Hg ->. unfold __comb_pass.
  destruct (decide (alen a - gap <= 0)).
  { rewrite for_empty by lia. apply returns_ret. split_and!; auto with sort; [done|].
    intros _. split; [done|]. intros; lia. }
  apply (returns_for _ _ _ _ (fun i '(b, sw) => rperm 0 (alen a - 1) a b /\
    (sw = true -> inversions b < inversions a) /\
    (sw = false -> b = a /\ forall k x y, 0 <= k < i -> a.[k] = Some x -> a.[k + gap] = Some y -> le comp x y))); [lia| | |].
  - split_and!; auto with sort; [done|]. intros _. split; [done|]. intros; lia.
  - intros i [b sw] Hi (Hp & Ht & Hf). pose proof (rperm_alen _ _ _ _ Hp).
    apply returns_get; [lia|]. intros y Hy. apply returns_get; [lia|]. intros x Hx.
    apply returns_if; intros Hc.
    + apply returns_swap; [lia|lia|]. intros b' Hsw. apply returns_ret. split_and!; [|intros _|done].
      * eapply rperm_trans; [done|]. eapply swapped_rperm; [done|lia|lia].
      * assert (inversions b' < inversions b) by (eapply (swapped_inversions b b' i (i + gap)); eauto; lia).
        destruct sw; [lia|]. destruct (Hf eq_refl) as [-> _]. lia.
    + apply returns_ret. split_and!; [done|done|]. intros ->. destruct (Hf eq_refl) as [-> Hs].
      split; [done|]. intros k u v Hk Hu Hv. destruct (decide (k = i)) as [->|]; [by simplify_eq|].
      apply (Hs k); done || lia.
  - by intros [b sw].
Qed.

Lemma comb_spec a : returns (__comb comp a) (fun b => sorts comp a b).
Proof.
  unfold __comb. apply returns_if; intros Hn.
  { apply returns_ret. split; [done|]. apply sorted_in_StronglySorted, sorted_in_trivial. lia. }
  pose proof (inversions_bound a) as Hb0.
  apply (returns_while _ _ _ (fun '(b, gap, sw) => rperm 0 (alen a - 1) a b /\ 1 <= gap /\
    (gap = 1 -> sw = false -> sorted_in comp 0 (alen a - 1) b))
    (fun '(b, gap, sw) => gap + 2 * inversions b + (if sw : bool then 1 else 0))).
  - split_and!; auto with sort; [lia|]. done.
  - lia.
  - intros [[b gap] sw] (Hp & Hg & Hdone). pose proof (rperm_alen _ _ _ _ Hp) as Hl.
    pose proof (comb_gap_range gap Hg) as [Hg1 Hg2].
    apply returns_if; intros Hc.
    + eapply returns_bind; [apply comb_pass_spec; [lia|by symmetry]|].
      intros [b' sw'] (Hp' & Ht & Hf). rewrite Hl in Hp'. apply returns_ret.
      pose proof (inversions_bound b'). split; [split_and!|].
      * by eapply rperm_trans.
      * lia.
      * intros E ->. destruct (Hf eq_refl) as [-> Hs]. rewrite E in *.
        apply sorted_in_adjacent; [done| |lia|lia]. intros i x y Hi. apply Hs. lia.
      * apply orb_true_iff in Hc. destruct sw'; [specialize (Ht eq_refl)|destruct (Hf eq_refl) as [-> _]].
        -- destruct sw; lia.
        -- destruct Hc as [Hc| ->]; [|lia]. destruct sw; lia.
    + apply returns_ret. apply orb_false_iff in Hc as [Hc ->]. split; [by eapply rperm_perm|].
      apply sorted_in_StronglySorted. rewrite Hl. apply Hdone; [lia|done].
Qed.
End inversions.
