(* ===== verification/SortMerge.v ===== *)
(** [src/sort/merge.hpp] (top-down and bottom-up merge sort over a scratch
    buffer) and [src/sort/stable.hpp], which routes to it. *)
From stdpp Require Import base numbers list option sorting.
From Stdlib Require Import ZArith Lia.
From S2P Require Import Prelude Arrays SortSpec.

Local Open Scope Z_scope.

Section code.
Context {A : Type} (comp : A -> A -> bool).

(** [L] is [scratch], [R] is [scratch + n1]; the three loops after the copies
    are the merge and the two drains. *)
Definition __merge_into (a : list A) (left mid right : Z) (scratch : list A)
    : option (list A * list A) :=
  let n1 := mid - left + 1 in
  let n2 := right - mid in
  sc ← for_ 0 n1 (fun i sc => x ← a.[left + i]; aset sc i x) scratch;
  sc ← for_ 0 n2 (fun j sc => x ← a.[mid + 1 + j]; aset sc (n1 + j) x) sc;
  '(a, i, j, k) ← while_ (Z.to_nat (n1 + n2 + 1)) (fun '(a, i, j, k) =>
    if (i <? n1) && (j <? n2) then
      y ← sc.[n1 + j];
      x ← sc.[i];
      if comp y x then a' ← aset a k y; Some (inl (a', i, j + 1, k + 1))
      else a' ← aset a k x; Some (inl (a', i + 1, j, k + 1))
    else Some (inr (a, i, j, k))) (a, 0, 0, left);
  '(a, i, k) ← while_ (Z.to_nat (n1 + 1)) (fun '(a, i, k) =>
    if i <? n1 then x ← sc.[i]; a' ← aset a k x; Some (inl (a', i + 1, k + 1))
    else Some (inr (a, i, k))) (a, i, k);
  '(a, j, k) ← while_ (Z.to_nat (n2 + 1)) (fun '(a, j, k) =>
    if j <? n2 then y ← sc.[n1 + j]; a' ← aset a k y; Some (inl (a', j + 1, k + 1))
    else Some (inr (a, j, k))) (a, j, k);
  Some (a, sc).

Fixpoint __merge_sort_with (fuel : nat) (a : list A) (left right : Z) (scratch : list A)
    : option (list A * list A) :=
  match fuel with
  | O => None
  | S fuel' =>
      if right <=? left then Some (a, scratch)
      else
        let mid := left + Z.shiftr (right - left) 1 in
        '(a, scratch) ← __merge_sort_with fuel' a left mid scratch;
        '(a, scratch) ← __merge_sort_with fuel' a (mid + 1) right scratch;
        __merge_into a left mid right scratch
  end.

(** [new U[n]]: [n] elements of unspecified value. *)
Context (new_array : Z -> list A).

Definition __merge_buf (n : Z) : list A := new_array (if 0 <? n then n else 1).

Definition __merge (a : list A) (left mid right : Z) : option (list A) :=
  let sc := __merge_buf (right - left + 1) in
  '(a, _) ← __merge_into a left mid right sc;
  Some a.

Definition __merge_sort (a : list A) (left right : Z) : option (list A) :=
  if right <=? left then Some a
  else
    let sc := __merge_buf (right - left + 1) in
    '(a, _) ← __merge_sort_with (Z.to_nat (right - left + 1)) a left right sc;
    Some a.

Definition merge (a : list A) : option (list A) :=
  if 1 <? alen a then __merge_sort a 0 (alen a - 1) else Some a.

Definition merge_lim (a : list A) (lim : Z) : option (list A) :=
  let n := if lim <? alen a then lim else alen a in
  if 1 <? n then __merge_sort a 0 (n - 1) else Some a.

(** The iterator form: the buffer is the range [start, end). *)
Definition merge_it (a : list A) : option (list A) :=
  let cnt := alen a in
  if 1 <? cnt then __merge_sort a 0 (cnt - 1) else Some a.

Definition stable_sort (a : list A) : option (list A) := merge a.

Definition stable_lim (a : list A) (lim : Z) : option (list A) := merge_lim a lim.

Definition stable_it (a : list A) : option (list A) := merge_it a.

(** One sweep of the bottom-up sort: merge the runs of length [width]. *)
Definition __merge_sweep (n width : Z) (a sc : list A) : option (list A * list A) :=
  while_ (S (Z.to_nat n)) (fun '(a, sc, i) =>
    if i <? n then
      let next := i + Z.shiftl width 1 in
      let left := i in
      let mid := i + width - 1 in
      let right := i + Z.shiftl width 1 - 1 in
      if n <=? mid then Some (inl (a, sc, next))
      else
        let right := if n <=? right then n - 1 else right in
        if right <=? mid then Some (inl (a, sc, next))
        else '(a, sc) ← __merge_into a left mid right sc; Some (inl (a, sc, next))
    else Some (inr (a, sc))) (a, sc, 0).

Definition __merge_sort_bottom_up (a : list A) (n : Z) : option (list A) :=
  if n <? 2 then Some a
  else
    let sc := __merge_buf n in
    while_ (S (Z.to_nat n)) (fun '(a, sc, width) =>
      if width <? n then
        '(a, sc) ← __merge_sweep n width a sc;
        Some (inl (a, sc, Z.shiftl width 1))
      else Some (inr a)) (a, sc, 1).

Definition merge_bottom_up (a : list A) : option (list A) :=
  if 1 <? alen a then __merge_sort_bottom_up a (alen a) else Some a.

Definition merge_bottom_up_lim (a : list A) (lim : Z) : option (list A) :=
  let n := if lim <? alen a then lim else alen a in
  if 1 <? n then __merge_sort_bottom_up a n else Some a.
End code.

(** * The functional merge *)
Section list_merge.
Context {A : Type} (comp : A -> A -> bool) `{!StrictWeakOrder comp}.
Implicit Types (l r : list A).

Lemma list_merge_nil_r l : list_merge (le comp) l [] = l.
Proof. by destruct l. Qed.

Lemma list_merge_nil_l r : list_merge (le comp) [] r = r.
Proof. by destruct r. Qed.

Lemma list_merge_left x y l r : comp y x = false ->
  list_merge (le comp) (x :: l) (y :: r) = x :: list_merge (le comp) l (y :: r).
Proof. intros. simpl. by rewrite decide_True. Qed.

Lemma list_merge_right x y l r : comp y x = true ->
  list_merge (le comp) (x :: l) (y :: r) = y :: list_merge (le comp) (x :: l) r.
Proof. intros H. simpl. rewrite decide_False; [done|]. unfold le. congruence. Qed.

Lemma list_merge_sorted l r :
  StronglySorted (le comp) l -> StronglySorted (le comp) r ->
  StronglySorted (le comp) (list_merge (le comp) l r).
Proof.
  intros Hl Hr. apply Sorted_StronglySorted; [apply _|].
  apply Sorted_list_merge; [apply _| |]; by apply StronglySorted_Sorted.
Qed.

Lemma list_merge_stable l r :
  StronglySorted (le comp) l -> StronglySorted (le comp) r ->
  stable comp (l ++ r) (list_merge (le comp) l r).
Proof.
  intros Hl Hr. revert r Hr. induction l as [|x l IHl]; intros r Hr.
  { rewrite list_merge_nil_l. apply stable_refl. }
  induction r as [|y r IHr]; [rewrite app_nil_r; apply stable_refl|].
  destruct (comp y x) eqn:Hc.
  - rewrite list_merge_right by done.
    apply StronglySorted_inv in Hr as [Hr _].
    eapply stable_trans; [|apply (stable_app comp [y] [y]); [apply stable_refl|by apply IHr]].
    apply (stable_jump comp [] (x :: l) r y).
    apply StronglySorted_inv in Hl as [_ Hx]. constructor; [done|].
    eapply Forall_impl; [done|]. intros z Hz. destruct (comp y z) eqn:E; [done|].
    assert (le comp x y) as Hxy by (by apply (le_trans comp x z y)). unfold le in Hxy. congruence.
  - rewrite list_merge_left by done. apply StronglySorted_inv in Hl as [Hl _].
    apply (stable_app comp [x] [x]); [apply stable_refl|]. by apply IHl.
Qed.

Lemma list_merge_stably_sorts l r :
  StronglySorted (le comp) l -> StronglySorted (le comp) r ->
  stably_sorts comp (l ++ r) (list_merge (le comp) l r).
Proof.
  intros Hl Hr. split; [split|by apply list_merge_stable].
  - symmetry. apply merge_Permutation.
  - by apply list_merge_sorted.
Qed.
End list_merge.

Section proofs.
Context {A : Type} (comp : A -> A -> bool) `{!StrictWeakOrder comp}.
Implicit Types (a b sc : list A).

Local Abbreviation lm := (list_merge (le comp)).

Lemma copy_spec a sc src dst n :
  0 <= src -> 0 <= dst -> 0 <= n -> src + n <= alen a -> dst + n <= alen sc ->
  returns (for_ 0 n (fun i sc => x ← a.[src + i]; aset sc (dst + i) x) sc) (fun sc' =>
    alen sc' = alen sc /\
    (forall i, 0 <= i < n -> sc'.[dst + i] = a.[src + i]) /\
    (forall i, ~ (dst <= i < dst + n) -> sc'.[i] = sc.[i])).
Proof.
  intros Hs Hd Hn Ha Hsc. apply (returns_for _ _ _ _ (fun m sc' => alen sc' = alen sc /\
    (forall i, 0 <= i < m -> sc'.[dst + i] = a.[src + i]) /\
    (forall i, ~ (dst <= i < dst + m) -> sc'.[i] = sc.[i]))); [lia| | |done].
  - split_and!; [done|intros; lia|done].
  - intros m s Hm (Hl & Hin & Hout). apply returns_get; [lia|]. intros x Hx.
    apply returns_set_tail; [lia|]. split_and!.
    + by rewrite alen_upd.
    + intros i Hi. rewrite aget_upd by lia. case_decide; [|apply Hin; lia].
      replace i with m by lia. by rewrite Hx.
    + intros i Hi. rewrite aget_upd_ne by lia. apply Hout. lia.
Qed.

(** The scratch buffer holds the two runs of [a]. *)
Definition holds_runs a left mid right sc : Prop :=
  (forall i, 0 <= i < mid - left + 1 -> sc.[i] = a.[left + i]) /\
  (forall j, 0 <= j < right - mid -> sc.[mid - left + 1 + j] = a.[mid + 1 + j]).

(** [b] has the merge of the consumed prefixes in [left, k). *)
Definition merging a left mid right i j k b : Prop :=
  0 <= i <= mid - left + 1 /\ 0 <= j <= right - mid /\ k = left + i + j /\
  alen b = alen a /\
  (forall p, ~ (left <= p <= right) -> b.[p] = a.[p]) /\
  segment left (k - 1) b ++ lm (segment (left + i) mid a) (segment (mid + 1 + j) right a)
    = lm (segment left mid a) (segment (mid + 1) right a).

Lemma merging_out a left mid right i j k b x l r :
  0 <= left <= mid + 1 -> mid <= right -> right < alen a ->
  merging a left mid right i j k b -> i + j < right - left + 1 ->
  lm (segment (left + i) mid a) (segment (mid + 1 + j) right a) = x :: lm l r ->
  segment left (k + 1 - 1) (upd b k x) ++ lm l r = lm (segment left mid a) (segment (mid + 1) right a) /\
  (forall p, ~ (left <= p <= right) -> (upd b k x).[p] = a.[p]).
Proof.
  intros Hl Hm Hr (Hi & Hj & -> & Hlen & Hout & Hseg) Hlt E. split.
  - rewrite <- Hseg, E. replace (left + i + j + 1 - 1) with (left + i + j - 1 + 1) by lia.
    rewrite (segment_snoc left (left + i + j - 1) _ x).
    + rewrite <- app_assoc. f_equal. apply segment_ext; [lia|]. intros p Hp. apply aget_upd_ne; lia.
    + lia.
    + replace (left + i + j - 1 + 1) with (left + i + j) by lia. apply aget_upd_eq. lia.
  - intros p Hp. rewrite aget_upd_ne by lia. by apply Hout.
Qed.

Lemma merging_step_l a left mid right i j k b x :
  0 <= left <= mid + 1 -> mid <= right -> right < alen a ->
  merging a left mid right i j k b -> i < mid - left + 1 -> a.[left + i] = Some x ->
  (j < right - mid -> exists y, a.[mid + 1 + j] = Some y /\ comp y x = false) ->
  merging a left mid right (i + 1) j (k + 1) (upd b k x).
Proof.
  intros Hl Hm Hr HI Hi Hx Hy. pose proof HI as (Hi' & Hj & Hk & Hlen & _).
  destruct (merging_out a left mid right i j k b x (segment (left + (i + 1)) mid a) (segment (mid + 1 + j) right a))
    as [E1 E2]; try done; try lia.
  - rewrite (segment_cons (left + i) mid a x) by (done || lia).
    replace (left + (i + 1)) with (left + i + 1) by lia.
    destruct (decide (j < right - mid)) as [Hlt|Hge].
    + destruct (Hy Hlt) as (y & Hyj & Hc). rewrite (segment_cons (mid + 1 + j) right a y) by (done || lia).
      by apply list_merge_left.
    + rewrite (segment_empty (mid + 1 + j) right a) by lia. by rewrite !list_merge_nil_r.
  - unfold merging. rewrite alen_upd. split_and!; try done; lia.
Qed.

Lemma merging_step_r a left mid right i j k b y :
  0 <= left <= mid + 1 -> mid <= right -> right < alen a ->
  merging a left mid right i j k b -> j < right - mid -> a.[mid + 1 + j] = Some y ->
  (i < mid - left + 1 -> exists x, a.[left + i] = Some x /\ comp y x = true) ->
  merging a left mid right i (j + 1) (k + 1) (upd b k y).
Proof.
  intros Hl Hm Hr HI Hj Hy Hx. pose proof HI as (Hi & Hj' & Hk & Hlen & _).
  destruct (merging_out a left mid right i j k b y (segment (left + i) mid a) (segment (mid + 1 + (j + 1)) right a))
    as [E1 E2]; try done; try lia.
  - rewrite (segment_cons (mid + 1 + j) right a y) by (done || lia).
    replace (mid + 1 + (j + 1)) with (mid + 1 + j + 1) by lia.
    destruct (decide (i < mid - left + 1)) as [Hlt|Hge].
    + destruct (Hx Hlt) as (x & Hxi & Hc). rewrite (segment_cons (left + i) mid a x) by (done || lia).
      by apply list_merge_right.
    + rewrite (segment_empty (left + i) mid a) by lia. by rewrite !list_merge_nil_l.
  - unfold merging. rewrite alen_upd. split_and!; try done; lia.
Qed.

Lemma merge_into_spec a left mid right sc :
  0 <= left <= mid + 1 -> mid <= right -> right < alen a -> right - left + 1 <= alen sc ->
  returns (__merge_into comp a left mid right sc) (fun '(b, sc') =>
    alen sc' = alen sc /\ alen b = alen a /\
    (forall p, ~ (left <= p <= right) -> b.[p] = a.[p]) /\
    segment left right b = lm (segment left mid a) (segment (mid + 1) right a)).
Proof.
  intros Hl Hm Hr Hsc. unfold __merge_into.
  eapply returns_bind; [apply (copy_spec a sc left 0); lia|]. intros s1 (L1 & C1 & _).
  eapply returns_bind; [apply (copy_spec a s1 (mid + 1)); lia|]. intros s2 (L2 & C2 & F2).
  assert (holds_runs a left mid right s2) as [HL HR].
  { split; [|done]. intros i Hi. rewrite F2 by lia. by apply (C1 i). }
  set (n1 := mid - left + 1) in *. set (n2 := right - mid) in *.
  eapply returns_bind.
  { apply (returns_while _ _ _ (fun '(b, i, j, k) => merging a left mid right i j k b)
      (fun '(_, i, j, _) => n1 + n2 - i - j)
      (fun '(b, i, j, k) => merging a left mid right i j k b /\ (i = n1 \/ j = n2))).
    - unfold merging. rewrite segment_empty, !Z.add_0_r by lia. split_and!; try done; lia.
    - lia.
    - intros [[[b i] j] k] HI. pose proof HI as (Hi & Hj & Hk & Hlen & _).
      apply returns_if; intros Hc.
      + apply andb_true_iff in Hc as [Hc1%Z.ltb_lt Hc2%Z.ltb_lt].
        apply returns_get; [lia|]. intros y Hy. apply returns_get; [lia|]. intros x Hx.
        rewrite HR in Hy by lia. rewrite HL in Hx by lia.
        apply returns_if; intros Hcmp; (apply returns_set; [lia|]); apply returns_ret; (split; [|lia]).
        * eapply merging_step_r; eauto.
        * eapply merging_step_l; eauto.
      + apply returns_ret. split; [done|]. apply andb_false_iff in Hc. lia. }
  intros [[[b i] j] k] [HI Hend].
  eapply returns_bind.
  { apply (returns_while _ _ _ (fun '(b, i, k) => merging a left mid right i j k b /\ (i = n1 \/ j = n2))
      (fun '(_, i, _) => n1 - i) (fun '(b, i, k) => merging a left mid right i j k b /\ i = n1)).
    - done.
    - destruct HI. lia.
    - clear b i k HI Hend. intros [[b i] k] [HI Hend]. pose proof HI as (Hi & Hj & Hk & Hlen & _).
      apply returns_if; intros Hc; [|apply returns_ret; split; [done|lia]].
      apply returns_get; [lia|]. intros x Hx. rewrite HL in Hx by lia.
      apply returns_set; [lia|]. apply returns_ret. split; [|lia]. split; [|lia].
      eapply merging_step_l; eauto; lia. }
  clear b i k HI Hend. intros [[b i] k] [HI ->].
  eapply returns_bind.
  { apply (returns_while _ _ _ (fun '(b, j, k) => merging a left mid right n1 j k b)
      (fun '(_, j, _) => n2 - j) (fun '(b, j, k) => merging a left mid right n1 n2 k b)).
    - done.
    - destruct HI as (_ & ? & _). lia.
    - clear b j k HI. intros [[b j] k] HI. pose proof HI as (Hi & Hj & Hk & Hlen & _).
      apply returns_if; intros Hc; [|apply returns_ret; by replace n2 with j by lia].
      apply returns_get; [lia|]. intros y Hy. rewrite HR in Hy by lia.
      apply returns_set; [lia|]. apply returns_ret. split; [|lia].
      eapply merging_step_r; eauto; lia. }
  clear b j k HI. intros [[b j] k] (_ & _ & -> & Hlen & Hout & Hseg).
  apply returns_ret. split_and!; [congruence|done|done|].
  rewrite <- Hseg, !(segment_empty _ _ a), list_merge_nil_l, app_nil_r by lia. f_equal. lia.
Qed.

(** Sorting a range stably: the contract of the recursive routine. *)
Definition range_stably_sorted left right a b : Prop :=
  alen b = alen a /\ (forall p, ~ (left <= p <= right) -> b.[p] = a.[p]) /\
  stably_sorts comp (segment left right a) (segment left right b).

Lemma stably_sorts_trans_l l l' l'' :
  stable comp l l' -> l ≡ₚ l' -> stably_sorts comp l' l'' -> stably_sorts comp l l''.
Proof.
  intros Hs Hp [[Hp' Hs'] Hst]. split; [split; [by rewrite Hp|done]|]. by eapply stable_trans.
Qed.

Lemma range_stably_sorted_trivial left right a : right <= left -> range_stably_sorted left right a a.
Proof.
  intros Hle. split_and!; [done|done|]. split; [split; [done|]|apply stable_refl].
  unfold segment. assert (Z.to_nat (right + 1 - left) <= 1)%nat as H1 by lia.
  destruct (drop (Z.to_nat left) a) as [|x l]; [rewrite take_nil; constructor|].
  destruct (Z.to_nat (right + 1 - left)) as [|[|n]]; [constructor| |lia]. simpl. rewrite take_0.
  repeat constructor.
Qed.

Lemma merge_sorted_halves a b left mid right :
  0 <= left <= mid + 1 -> mid <= right -> right < alen a ->
  alen b = alen a -> (forall p, ~ (left <= p <= right) -> b.[p] = a.[p]) ->
  StronglySorted (le comp) (segment left mid a) ->
  StronglySorted (le comp) (segment (mid + 1) right a) ->
  segment left right b = lm (segment left mid a) (segment (mid + 1) right a) ->
  range_stably_sorted left right a b.
Proof.
  intros Hl Hm Hr Hlen Hout H1 H2 E. split_and!; [done|done|].
  rewrite E, (segment_app left mid right a) by lia. by apply list_merge_stably_sorts.
Qed.

Lemma merge_sort_with_spec fuel a left right sc :
  0 <= left -> right < alen a -> right - left + 1 <= alen sc ->
  right - left < Z.of_nat fuel -> 1 <= Z.of_nat fuel ->
  returns (__merge_sort_with comp fuel a left right sc) (fun '(b, sc') =>
    alen sc' = alen sc /\ range_stably_sorted left right a b).
Proof.
  revert a left right sc. induction fuel as [|fuel IH]; intros a left right sc Hl Hr Hsc Hf Hf1; [lia|].
  simpl. apply returns_if; intros Hc.
  { apply returns_ret. split; [done|]. apply range_stably_sorted_trivial. lia. }
  assert (left <= left + Z.shiftr (right - left) 1 < right) as Hmid.
  { rewrite Z.shiftr_div_pow2 by lia. change (2 ^ 1) with 2.
    pose proof (Z.div_lt (right - left) 2). pose proof (Z.div_pos (right - left) 2). lia. }
  set (mid := left + Z.shiftr (right - left) 1) in *.
  eapply returns_bind; [apply IH; lia|]. intros [b1 sc1] (Ls1 & L1 & O1 & S1).
  eapply returns_bind; [apply IH; lia|]. intros [b2 sc2] (Ls2 & L2 & O2 & S2).
  eapply returns_mono; [apply merge_into_spec; lia|]. intros [b3 sc3] (Ls3 & L3 & O3 & E3).
  split; [congruence|].
  assert (segment left mid b2 = segment left mid b1) as Eleft.
  { apply segment_ext; [lia|]. intros p Hp. apply O2. lia. }
  assert (segment (mid + 1) right b1 = segment (mid + 1) right a) as Eright.
  { apply segment_ext; [lia|]. intros p Hp. apply O1. lia. }
  rewrite Eright in S2. destruct S1 as [[P1 S1] T1]. destruct S2 as [[P2 S2] T2].
  destruct (merge_sorted_halves b2 b3 left mid right) as (L4 & O4 & S4); try done; try lia.
  { by rewrite Eleft. }
  split_and!; [lia| |].
  - intros p Hp. rewrite O4, O2, O1 by lia. done.
  - eapply stably_sorts_trans_l; [| |exact S4]; rewrite !(segment_app left mid right) by lia; rewrite Eleft.
    + by apply stable_app.
    + by apply Permutation_app.
Qed.

Lemma range_stably_sorted_full a b :
  range_stably_sorted 0 (alen a - 1) a b -> stably_sorts comp a b.
Proof.
  intros (L & _ & S). rewrite segment_full in S. by rewrite <- L, segment_full in S.
Qed.

Context (new_array : Z -> list A) (new_array_len : forall n, 0 < n -> alen (new_array n) = n).

Lemma merge_buf_len n : 0 < n -> alen (__merge_buf new_array n) = n.
Proof. intros. unfold __merge_buf. by rewrite (proj2 (Z.ltb_lt 0 n)), new_array_len. Qed.

Lemma merge_sort_spec a left right : 0 <= left -> right < alen a ->
  returns (__merge_sort comp new_array a left right) (range_stably_sorted left right a).
Proof using new_array_len StrictWeakOrder0.
  intros Hl Hr. unfold __merge_sort. apply returns_if; intros Hc.
  { apply returns_ret, range_stably_sorted_trivial. lia. }
  eapply returns_bind.
  { apply merge_sort_with_spec; rewrite ?merge_buf_len by lia; lia. }
  intros [b sc] [_ H]. by apply returns_ret.
Qed.

Lemma merge_spec a : returns (merge comp new_array a) (stably_sorts comp a).
Proof using new_array_len StrictWeakOrder0.
  unfold merge. apply returns_if; intros Hc.
  - eapply returns_mono; [apply merge_sort_spec; lia|]. apply range_stably_sorted_full.
  - apply returns_ret, range_stably_sorted_full, range_stably_sorted_trivial. lia.
Qed.
End proofs.

(** * Bottom-up merge sort *)
Section bottom_up.
Context {A : Type} (comp : A -> A -> bool) `{!StrictWeakOrder comp}.
Implicit Types (a b sc : list A).

(** The runs of [width] elements that start in [lo, hi) are sorted. *)
Definition runs_sorted width lo hi a : Prop :=
  forall p q x y, lo <= p -> p < q -> q < hi -> p / width = q / width ->
    a.[p] = Some x -> a.[q] = Some y -> le comp x y.

Lemma runs_sorted_segment width lo hi i right a :
  0 < width -> 0 <= lo <= i -> right < hi -> i mod width = 0 -> right < i + width ->
  runs_sorted width lo hi a -> sorted_in comp i right a.
Proof.
  intros Hw Hlo Hr Hi Hri Hruns p q x y Hp Hpq Hq. apply Hruns; try lia.
  pose proof (Z.div_mod i width ltac:(lia)).
  rewrite <- (Z.div_unique p width (i / width) (p - i)) by lia.
  rewrite <- (Z.div_unique q width (i / width) (q - i)) by lia. done.
Qed.

Lemma segment_StronglySorted i right a : 0 <= i ->
  sorted_in comp i right a -> StronglySorted (le comp) (segment i right a).
Proof.
  intros Hi Hs. apply sorted_in_StronglySorted. intros p q x y Hp Hpq Hq.
  rewrite !aget_segment by done. repeat case_decide; try done.
  intros Hx Hy. apply (Hs (i + p) (i + q)); done || lia.
Qed.

Lemma StronglySorted_segment i right a : 0 <= i ->
  StronglySorted (le comp) (segment i right a) -> sorted_in comp i right a.
Proof.
  intros Hi Hs p q x y Hp Hpq Hq Hx Hy. apply sorted_in_StronglySorted in Hs.
  apply (Hs (p - i) (q - i)); try lia; rewrite ?aget_segment by done.
  - pose proof (aget_Some_bounds (segment i right a) (q - i) y) as H.
    rewrite aget_segment, decide_True in H by lia.
    replace (i + (q - i)) with q in H by lia. specialize (H Hy). lia.
  - rewrite decide_True by lia. by replace (i + (p - i)) with p by lia.
  - rewrite decide_True by lia. by replace (i + (q - i)) with q by lia.
Qed.

Lemma range_stable lo hi a b : 0 <= lo -> lo <= hi + 1 ->
  range_stably_sorted comp lo hi a b -> stable comp a b /\ rperm lo hi a b.
Proof.
  intros Hlo Hhi (L & O & [P S] & T). assert (rperm lo hi a b) as R by (by apply segment_perm_rperm).
  split; [|done]. rewrite (array_split3 lo hi a), (array_split3 lo hi b) by done.
  apply stable_app; [|apply stable_app; [done|]].
  - erewrite (list_eq (take _ a)); [apply stable_refl|]. intros n.
    destruct (decide (n < Z.to_nat lo)%nat).
    + rewrite !lookup_take_lt by done. rewrite <- !aget_nat. symmetry. apply O. lia.
    + by rewrite !lookup_take_ge by lia.
  - erewrite (list_eq (drop _ a)); [apply stable_refl|]. intros n.
    rewrite !lookup_drop, <- !aget_nat. symmetry. apply O. lia.
Qed.

(** The state of a sweep at the run that starts at [i]. *)
Definition sweep_inv a n width i b : Prop :=
  0 <= i /\ i mod (2 * width) = 0 /\ rperm 0 (n - 1) a b /\ stable comp a b /\
  runs_sorted (2 * width) 0 (Z.min i n) b /\ runs_sorted width i n b.

Lemma double_div width p q :
  0 < width -> p / width = q / width -> p / (2 * width) = q / (2 * width).
Proof. intros Hw E. rewrite (Z.mul_comm 2 width), <- !Z.div_div by lia. by rewrite E. Qed.

Lemma sweep_advance a n width i b b' :
  0 < width -> i < n -> n <= alen a -> sweep_inv a n width i b ->
  rperm i (Z.min (i + 2 * width) n - 1) b b' -> stable comp b b' ->
  sorted_in comp i (Z.min (i + 2 * width) n - 1) b' ->
  sweep_inv a n width (i + 2 * width) b'.
Proof.
  intros Hw Hin Hn (Hi & Hmod & Hp & Hst & Hdone & Htodo) Hp' Hst' Hs.
  assert ((i + 2 * width) mod (2 * width) = 0) as Hmod'.
  { rewrite <- (Z.mul_1_l (2 * width)) at 1. by rewrite Z.mod_add by lia. }
  split_and!; [lia|done| |by eapply stable_trans| |].
  - eapply rperm_trans; [done|]. eapply rperm_mono; [| |done]; lia.
  - intros p q x y Hp0 Hpq Hq E Hx Hy. destruct (decide (i <= p)); [apply (Hs p q); done || lia|].
    destruct (decide (q < i)).
    + rewrite (rperm_out _ _ _ _ p Hp') in Hx by lia. rewrite (rperm_out _ _ _ _ q Hp') in Hy by lia.
      apply (Hdone p q); done || lia.
    + exfalso. pose proof (Z.div_mod i (2 * width) ltac:(lia)) as Di.
      assert (p / (2 * width) < i / (2 * width)) by (apply Z.div_lt_upper_bound; lia).
      assert (i / (2 * width) <= q / (2 * width)) by (apply Z.div_le_mono; lia). lia.
  - intros p q x y Hp0 Hpq Hq E Hx Hy.
    rewrite (rperm_out _ _ _ _ p Hp') in Hx by lia. rewrite (rperm_out _ _ _ _ q Hp') in Hy by lia.
    apply (Htodo p q); done || lia.
Qed.

Lemma sweep_spec a n width sc :
  1 <= width < n -> n <= alen a -> n <= alen sc -> runs_sorted width 0 n a ->
  returns (__merge_sweep comp n width a sc) (fun '(b, sc') =>
    alen sc' = alen sc /\ rperm 0 (n - 1) a b /\ stable comp a b /\ runs_sorted (2 * width) 0 n b).
Proof.
  intros Hw Hn Hsc H0. unfold __merge_sweep. rewrite Z.shiftl_mul_pow2 by lia. change (2 ^ 1) with 2.
  apply (returns_while _ _ _ (fun '(b, sc', i) => alen sc' = alen sc /\ sweep_inv a n width i b)
    (fun '(_, _, i) => Z.max 0 (n - i))).
  - split; [done|]. split_and!; [lia|apply Z.mod_0_l; lia|auto with sort..|].
    + intros p q x y. lia.
    + done.
  - lia.
  - intros [[b sc'] i] (Ls & HI). pose proof HI as (Hi & Hmod & Hp & Hst & Hdone & Htodo).
    pose proof (rperm_alen _ _ _ _ Hp) as Lb.
    apply returns_if; intros Hc; cycle 1.
    { apply returns_ret. split_and!; try done. by replace (Z.min i n) with n in Hdone by lia. }
    assert (i mod width = 0) as Hmodw.
    { apply Z.mod_divide; [lia|]. apply Z.mod_divide in Hmod as [c ->]; [|lia]. exists (c * 2). lia. }
    assert (forall r, r < n -> r < i + width -> sorted_in comp i r b) as Hrun.
    { intros r Hr1 Hr2. eapply (runs_sorted_segment width i n); eauto; lia. }
    assert (n <= i + width -> sweep_inv a n width (i + 2 * width) b) as Hlast.
    { intros Hle. eapply sweep_advance; eauto with sort; [lia|lia|]. apply Hrun; lia. }
    replace (width * 2) with (2 * width) by lia.
    apply returns_if; intros Hc1; [apply returns_ret; split; [split; [done|apply Hlast; lia]|lia]|].
    set (right := if n <=? i + 2 * width - 1 then n - 1 else i + 2 * width - 1).
    assert (right = Z.min (i + 2 * width) n - 1) as Er by (unfold right; case_match; lia).
    apply returns_if; intros Hc2; [apply returns_ret; split; [split; [done|apply Hlast; lia]|lia]|].
    eapply returns_bind; [apply merge_into_spec; lia|]. intros [b' sc2] (Ls2 & L2 & O2 & E2).
    apply returns_ret. split; [split; [congruence|]|lia].
    assert (range_stably_sorted comp i right b b') as R.
    { eapply (merge_sorted_halves comp b b' i (i + width - 1) right); try done; try lia.
      - apply segment_StronglySorted; [lia|]. apply Hrun; lia.
      - replace (i + width - 1 + 1) with (i + width) by lia. apply segment_StronglySorted; [lia|].
        eapply (runs_sorted_segment width i n); eauto; try lia.
        rewrite <- (Z.mul_1_l width) at 1. by rewrite Z.mod_add by lia. }
    destruct (range_stable i right b b') as [T R2]; [lia|lia|done|].
    eapply sweep_advance; eauto; [lia|lia|by rewrite <- Er|]. rewrite <- Er.
    apply StronglySorted_segment; [lia|]. apply R.
Qed.

Context (new_array : Z -> list A) (new_array_len : forall n, 0 < n -> alen (new_array n) = n).

Lemma bottom_up_spec a n : 0 <= n <= alen a ->
  returns (__merge_sort_bottom_up comp new_array a n) (fun b =>
    rperm 0 (n - 1) a b /\ stable comp a b /\ sorted_in comp 0 (n - 1) b).
Proof using new_array_len StrictWeakOrder0.
  intros Hn. unfold __merge_sort_bottom_up. apply returns_if; intros Hc.
  { apply returns_ret. auto with sort lia. }
  apply (returns_while _ _ _ (fun '(b, sc, width) => n <= alen sc /\ 1 <= width /\
    rperm 0 (n - 1) a b /\ stable comp a b /\ runs_sorted width 0 n b)
    (fun '(_, _, width) => Z.max 0 (n - width))).
  - rewrite merge_buf_len by (done || lia). split_and!; auto with sort; try lia.
    intros p q x y Hp Hpq Hq. rewrite !Z.div_1_r. lia.
  - lia.
  - intros [[b sc] width] (Ls & Hw & Hp & Hst & Hr). pose proof (rperm_alen _ _ _ _ Hp) as Lb.
    rewrite Z.shiftl_mul_pow2 by lia. change (2 ^ 1) with 2.
    apply returns_if; intros Hc1.
    + eapply returns_bind; [apply sweep_spec; (done || lia)|]. intros [b' sc'] (Ls' & Hp' & Hst' & Hr').
      apply returns_ret. split; [|lia]. rewrite Z.mul_comm. split_and!; try done; try lia.
      * by eapply rperm_trans.
      * by eapply stable_trans.
    + apply returns_ret. split_and!; try done. intros p q x y Hp0 Hpq Hq. apply Hr; try lia.
      by rewrite !Z.div_small by lia.
Qed.

Lemma merge_bottom_up_spec a : returns (merge_bottom_up comp new_array a) (stably_sorts comp a).
Proof using new_array_len StrictWeakOrder0.
  unfold merge_bottom_up. apply returns_if; intros Hc.
  - eapply returns_mono; [apply bottom_up_spec; lia|]. intros b (Hp & Hst & Hs).
    split; [|done]. split; [by eapply rperm_perm|]. apply sorted_in_StronglySorted.
    by rewrite (rperm_alen _ _ _ _ Hp).
  - apply returns_ret. split; [|apply stable_refl]. split; [done|].
    apply sorted_in_StronglySorted, sorted_in_trivial. lia.
Qed.
End bottom_up.
