(* ===== verification/SortHeap.v ===== *)
(** [src/sort/heap.hpp]: sift-down, heap construction and heapsort, with the
    theory of array heaps that the priority queues of [src/heap] reuse. *)
From stdpp Require Import base numbers list option sorting.
From Stdlib Require Import ZArith Lia.
From S2P Require Import Prelude Arrays SortSpec SortExchange.

Local Open Scope Z_scope.

Section code.
Context {A : Type} (comp : A -> A -> bool).

(** The index the root is exchanged with: [root] itself, or its larger child. *)
Definition __sift_pick (a : list A) (root left n : Z) : option Z :=
  let swap_i := root in
  x ← a.[swap_i];
  y ← a.[left];
  let swap_i := if comp x y then left else swap_i in
  let right := left + 1 in
  if right <? n then
    x ← a.[swap_i];
    y ← a.[right];
    Some (if comp x y then right else swap_i)
  else Some swap_i.

Definition __sift_down (a : list A) (start n : Z) : option (list A) :=
  while_ (S (Z.to_nat n)) (fun '(a, root) =>
    let left := Z.shiftl root 1 + 1 in
    if n <=? left then Some (inr a)
    else
      swap_i ← __sift_pick a root left n;
      if swap_i =? root then Some (inr a)
      else a' ← aswap a root swap_i; Some (inl (a', swap_i))) (a, start).

Definition __make_heap (a : list A) (n : Z) : option (list A) :=
  if n <? 2 then Some a
  else for_down (n / 2) (fun i a => __sift_down a i n) a.

Definition __sort_heap (a : list A) (n : Z) : option (list A) :=
  if n <? 2 then Some a
  else
    while_ (Z.to_nat n) (fun '(a, n) =>
      if 1 <? n then
        a ← aswap a 0 (n - 1);
        let n := n - 1 in
        a ← __sift_down a 0 n;
        Some (inl (a, n))
      else Some (inr a)) (a, n).

Definition make_heap (a : list A) : option (list A) := __make_heap a (alen a).

Definition heap (a : list A) : option (list A) :=
  let n := alen a in
  a ← __make_heap a n;
  __sort_heap a n.

Definition as_heap_lim (a : list A) (lim : Z) : option (list A) :=
  let n := if lim <? alen a then lim else alen a in
  a ← __make_heap a n;
  __sort_heap a n.
End code.

Section theory.
Context {A : Type} (comp : A -> A -> bool) `{!StrictWeakOrder comp}.
Implicit Types (a b : list A) (i c r s n : Z).

Definition child_of c i : Prop := c = 2 * i + 1 \/ c = 2 * i + 2.

(** Every node from [s] on dominates its children below [n]. *)
Definition heap_from s n a : Prop :=
  forall i c x y, s <= i -> child_of c i -> c < n -> a.[i] = Some x -> a.[c] = Some y -> le comp y x.

(** The same with a hole at [r] whose children its parent still dominates. *)
Definition heap_hole s r n a : Prop :=
  (forall i c x y, s <= i -> i <> r -> child_of c i -> c < n ->
     a.[i] = Some x -> a.[c] = Some y -> le comp y x) /\
  (forall p c x y, s <= p -> child_of r p -> child_of c r -> c < n ->
     a.[p] = Some x -> a.[c] = Some y -> le comp y x).

Lemma heap_from_hole s n a : 0 <= s -> heap_from (s + 1) n a -> heap_hole s s n a.
Proof.
  intros Hs H. split.
  - intros i c x y ?? ?. apply (H i c); lia || done.
  - intros p c x y ? [?|?]; lia.
Qed.

Lemma heap_from_empty s n a : n <= 2 * s + 1 -> heap_from s n a.
Proof. intros ? i c x y ? [?|?]; lia. Qed.

Lemma heap_from_mono s n n' a : n' <= n -> heap_from s n a -> heap_from s n' a.
Proof. intros ? H i c x y ???. apply (H i c); done || lia. Qed.

Lemma heap_from_ext s n a b :
  0 <= s -> (forall i, s <= i < n -> b.[i] = a.[i]) -> heap_from s n a -> heap_from s n b.
Proof.
  intros Hs E H i c x y Hi Hc Hn. rewrite !E by (destruct Hc; lia). by apply H.
Qed.

(** Moving the larger child [m] of the hole [r] up. *)
Lemma heap_hole_step s r m n a b x y :
  0 <= s <= r -> heap_hole s r n a -> child_of m r -> m < n ->
  a.[r] = Some x -> a.[m] = Some y -> comp x y = true ->
  (forall c z, child_of c r -> c < n -> a.[c] = Some z -> le comp z y) ->
  swapped a r m b -> heap_hole s m n b.
Proof.
  intros Hs [H1 H2] Hm Hmn Hx Hy Hc Hmax Hsw.
  pose proof (fun k => swapped_get _ _ _ _ k Hsw) as G. split.
  - intros i c u v Hi Him Hci Hcn. rewrite !G.
    repeat (case_decide; subst); try (destruct Hci, Hm; lia); intros Hu Hv; simplify_eq.
    + by apply lt_le.
    + by apply (Hmax c).
    + by apply (H2 i m).
    + apply (H1 i c); done.
  - intros p c u v Hp Hmp Hcm Hcn. assert (p = r) as -> by (destruct Hmp, Hm; lia). rewrite !G.
    repeat (case_decide; subst); try (destruct Hcm, Hm; lia); intros Hu Hv; simplify_eq.
    apply (H1 m c); (done || destruct Hm; lia).
Qed.

Lemma heap_hole_done s r n a :
  (forall c x y, child_of c r -> c < n -> a.[r] = Some x -> a.[c] = Some y -> le comp y x) ->
  heap_hole s r n a -> heap_from s n a.
Proof.
  intros Hr [H1 _] i c x y Hi Hc Hn Hx Hy. destruct (decide (i = r)) as [->|]; [by eapply Hr|].
  by apply (H1 i c).
Qed.

(** The children of [r] below [n] are not above [z]. *)
Definition dominates (a : list A) r n (z : A) : Prop :=
  forall c y, child_of c r -> c < n -> a.[c] = Some y -> le comp y z.

Lemma dominates_intro a r n z yl :
  a.[2 * r + 1] = Some yl -> le comp yl z ->
  (2 * r + 2 < n -> forall yr, a.[2 * r + 1 + 1] = Some yr -> le comp yr z) ->
  dominates a r n z.
Proof.
  intros Hl Hle Hr c y [->| ->] Hcn Hy; [by simplify_eq|].
  apply Hr; [done|]. by replace (2 * r + 1 + 1) with (2 * r + 2) by lia.
Qed.

Lemma sift_pick_spec a r n x : 0 <= r -> a.[r] = Some x -> n <= alen a -> 2 * r + 1 < n ->
  returns (__sift_pick comp a r (2 * r + 1) n) (fun m =>
    (m = r /\ dominates a r n x) \/
    (m <> r /\ child_of m r /\ m < n /\ exists y, a.[m] = Some y /\ comp x y = true /\ dominates a r n y)).
Proof.
  intros Hr Hx Hn Hl. unfold __sift_pick. rewrite Hx. simpl.
  apply returns_get; [lia|]. intros y Hy.
  set (m := if comp x y then 2 * r + 1 else r). set (z := if comp x y then y else x).
  assert (a.[m] = Some z) as Hm by (unfold m, z; by case_match).
  assert (le comp x z /\ le comp y z) as [Hxz Hyz].
  { unfold z. destruct (comp x y) eqn:E; auto using le_refl, lt_le. }
  apply returns_if; intros Hrn.
  - rewrite Hm. simpl. apply returns_get; [lia|]. intros y' Hy'. apply returns_ret.
    destruct (comp z y') eqn:Hzy.
    + right. split_and!; [lia|right; lia|lia|]. exists y'. assert (le comp z y') by (by apply lt_le). split_and!; [done| |].
      * destruct (comp x y') eqn:E; [done|]. assert (le comp y' z) as L by (by apply (le_trans comp y' x z)).
        unfold le in L. congruence.
      * eapply dominates_intro; [done|by apply (le_trans comp y z y')|]. intros _ yr ?. simplify_eq. by apply le_refl.
    + assert (dominates a r n z) as D.
      { eapply dominates_intro; [done|done|]. intros _ yr ?. by simplify_eq. }
      unfold m, z in *. destruct (comp x y) eqn:E; [right|by left].
      split_and!; [lia|left; lia|lia|eauto].
  - assert (dominates a r n z) as D by (eapply dominates_intro; [done|done|lia]).
    apply returns_ret. unfold m, z in *. destruct (comp x y) eqn:E; [right|by left].
    split_and!; [lia|left; lia|lia|eauto].
Qed.

Lemma sift_down_spec a start n :
  0 <= start -> n <= alen a -> heap_from (start + 1) n a ->
  returns (__sift_down comp a start n) (fun b => rperm start (n - 1) a b /\ heap_from start n b).
Proof.
  intros Hs Hn H0. unfold __sift_down.
  apply (returns_while _ _ _ (fun '(b, r) => start <= r /\
    rperm start (n - 1) a b /\ heap_hole start r n b)
    (fun '(_, r) => Z.max 0 (n - r))).
  - split_and!; auto with sort; [lia|]. by apply heap_from_hole.
  - lia.
  - intros [b r] (Hr & Hp & Hh). pose proof (rperm_alen _ _ _ _ Hp) as Hl.
    rewrite Z.shiftl_mul_pow2 by lia. change (2 ^ 1) with 2. rewrite (Z.mul_comm r 2).
    apply returns_if; intros Hc.
    { apply returns_ret. split; [done|]. eapply heap_hole_done; [|done].
      intros c x y [?|?]; lia. }
    destruct (aget_in b r) as [x Hx]; [lia|].
    eapply returns_bind; [apply (sift_pick_spec b r n x); (done || lia)|].
    intros m [[-> HD]|(Hne & Hm & Hmn & y & Hy & Hxy & HD)].
    + rewrite Z.eqb_refl. apply returns_ret. split; [done|]. eapply heap_hole_done; [|done].
      intros c u v ?? Hu ?. simplify_eq. by apply (HD c).
    + rewrite (proj2 (Z.eqb_neq m r)) by done.
      assert (r < m) by (destruct Hm; lia).
      apply returns_swap; [lia|lia|]. intros b' Hsw. apply returns_ret. split; [|lia].
      split_and!; [lia| |].
      * eapply rperm_trans; [done|]. eapply swapped_rperm; [done|lia|lia].
      * eapply heap_hole_step; eauto; lia.
Qed.

Lemma parent_child i : 0 < i -> child_of i ((i - 1) / 2) /\ 0 <= (i - 1) / 2 < i.
Proof.
  intros Hi. pose proof (Z.div_mod (i - 1) 2 ltac:(lia)). pose proof (Z.mod_pos_bound (i - 1) 2 ltac:(lia)).
  unfold child_of. lia.
Qed.

Lemma heap_root_max n a i x y :
  n <= alen a -> heap_from 0 n a -> 0 <= i < n -> a.[0] = Some x -> a.[i] = Some y -> le comp y x.
Proof.
  intros Hn H Hi Hx. revert i y Hi.
  assert (forall k i y, Z.to_nat i = k -> 0 <= i < n -> a.[i] = Some y -> le comp y x) as Hall; [|eauto].
  induction k as [k IH] using lt_wf_ind. intros i y Hk Hi Hy.
  destruct (decide (i = 0)) as [->|]; [simplify_eq; by apply le_refl|].
  destruct (parent_child i) as [Hc Hp]; [lia|].
  destruct (aget_in a ((i - 1) / 2)) as [z Hz]; [lia|].
  apply (le_trans comp y z x).
  - apply (H ((i - 1) / 2) i); (done || lia).
  - eapply (IH (Z.to_nat ((i - 1) / 2))); (done || lia).
Qed.

Lemma make_heap_spec a n : 0 <= n <= alen a ->
  returns (__make_heap comp a n) (fun b => rperm 0 (n - 1) a b /\ heap_from 0 n b).
Proof.
  intros Hn. unfold __make_heap. apply returns_if; intros Hc.
  { apply returns_ret. split; [auto with sort|]. apply heap_from_empty. lia. }
  pose proof (Z.div_mod n 2 ltac:(lia)). pose proof (Z.mod_pos_bound n 2 ltac:(lia)).
  apply (returns_for_down _ _ _ (fun i b => rperm 0 (n - 1) a b /\ heap_from i n b)); [lia| | |done].
  - split; [auto with sort|]. apply heap_from_empty. lia.
  - intros i b Hi (Hp & Hh). pose proof (rperm_alen _ _ _ _ Hp).
    eapply returns_mono; [apply sift_down_spec; (done || lia)|]. intros b' (Hp' & Hh').
    split; [|done]. eapply rperm_trans; [done|]. eapply rperm_mono; [| |done]; lia.
Qed.

Lemma sort_heap_spec a n : 0 <= n <= alen a -> heap_from 0 n a ->
  returns (__sort_heap comp a n) (fun b => rperm 0 (n - 1) a b /\ sorted_in comp 0 (n - 1) b).
Proof.
  intros Hn H0. unfold __sort_heap. apply returns_if; intros Hc.
  { apply returns_ret. auto with sort lia. }
  apply (returns_while _ _ _ (fun '(b, m) => 1 <= m <= n /\ rperm 0 (n - 1) a b /\ heap_from 0 m b /\
    sorted_in comp m (n - 1) b /\ split_at comp m (n - 1) b) (fun '(_, m) => m - 1)).
  - split_and!; auto with sort lia. intros p q x y. lia.
  - lia.
  - intros [b m] (Hm & Hp & Hh & Hs & Hsp). pose proof (rperm_alen _ _ _ _ Hp) as Hl.
    apply returns_if; intros Hcm; cycle 1.
    { apply returns_ret. split; [done|]. replace m with 1 in * by lia.
      intros p q x y Hp0 Hpq Hq Hx Hy. destruct (decide (p < 1)).
      - apply (Hsp p q); done || lia.
      - apply (Hs p q); done || lia. }
    apply returns_swap; [lia|lia|]. intros b1 Hsw. pose proof (swapped_alen _ _ _ _ Hsw) as Hl1.
    pose proof (fun k => swapped_get _ _ _ _ k Hsw) as G.
    eapply returns_bind.
    { apply (sift_down_spec b1 0 (m - 1)); [lia|lia|].
      apply (heap_from_ext 1 (m - 1) b); [lia| |].
      - intros i Hi. rewrite G. by repeat (case_decide; try lia).
      - eapply (heap_from_mono _ m); [lia|]. intros i c x y ?. apply Hh. lia. }
    intros b2 (Hp2 & Hh2). apply returns_ret.
    assert (rperm 0 (m - 1) b b2) as Hpb.
    { eapply rperm_trans; [eapply swapped_rperm; [done|lia|lia]|].
      eapply rperm_mono; [| |done]; lia. }
    pose proof (split_at_rperm comp m (n - 1) b b2 Hpb Hsp) as Hsp2.
    assert (b2.[m - 1] = b.[0]) as Emax.
    { rewrite (rperm_out _ _ _ _ (m - 1) Hp2) by lia. rewrite G. by rewrite decide_True. }
    assert (forall k u v, 0 <= k <= m - 1 -> b2.[k] = Some u -> b.[0] = Some v -> le comp u v) as Hmax.
    { intros k u v Hk Hu Hv. revert k u Hk Hu.
      apply (rperm_forall 0 (m - 1) b b2 (fun u => le comp u v)); [lia|done|].
      intros k u Hk Hu. eapply (heap_root_max m b k); eauto; lia. }
    split; [|lia]. split_and!; [lia|lia| |done| |].
    + eapply rperm_trans; [done|]. eapply rperm_mono; [| |done]; lia.
    + intros p q x y Hp0 Hpq Hq Hx Hy. destruct (decide (p = m - 1)) as [->|].
      * apply (Hsp2 (m - 1) q); done || lia.
      * rewrite (rperm_out _ _ _ _ p Hpb) in Hx by lia. rewrite (rperm_out _ _ _ _ q Hpb) in Hy by lia.
        apply (Hs p q); done || lia.
    + intros p q x y Hp0 Hq Hx Hy. destruct (decide (q = m - 1)) as [->|].
      * rewrite Emax in Hy. apply (Hmax p); done || lia.
      * apply (Hsp2 p q); done || lia.
Qed.

Lemma heap_prefix_spec a n : 0 <= n <= alen a ->
  returns (a ← __make_heap comp a n; __sort_heap comp a n) (fun b =>
    rperm 0 (n - 1) a b /\ sorted_in comp 0 (n - 1) b).
Proof.
  intros Hn. eapply returns_bind; [by apply make_heap_spec|]. intros b (Hp & Hh).
  pose proof (rperm_alen _ _ _ _ Hp).
  eapply returns_mono; [apply sort_heap_spec; (done || lia)|]. intros b' (Hp' & Hs).
  split; [by eapply rperm_trans|done].
Qed.

Lemma heap_spec a : returns (heap comp a) (sorts comp a).
Proof.
  pose proof (alen_nonneg a). unfold heap. eapply returns_mono; [apply heap_prefix_spec; lia|].
  intros b (Hp & Hs). split; [by eapply rperm_perm|]. apply sorted_in_StronglySorted.
  by rewrite (rperm_alen _ _ _ _ Hp).
Qed.
End theory.
