(* ===== verification/SortQuick.v ===== *)
(** [src/sort/quick.hpp] (median of three, Lomuto partition, quicksort), the
    selection routines of [src/sort/select.hpp] built on it, and the introsort
    of [src/sort/sort.hpp], which finishes with the insertion sort. *)
From stdpp Require Import base numbers list option sorting.
From Stdlib Require Import ZArith Lia.
From S2P Require Import Prelude Arrays SortSpec SortInsertion SortExchange.

Local Open Scope Z_scope.

Section code.
Context {A : Type} (comp : A -> A -> bool).

(** [if (comp(a[i], a[j])) swap(a[i], a[j]);] *)
Definition __swap_if (a : list A) (i j : Z) : option (list A) :=
  x ← a.[i];
  y ← a.[j];
  if comp x y then aswap a i j else Some a.

Definition __q_med3_to_high (a : list A) (lo hi : Z) : option (list A) :=
  let mid := lo + Z.shiftr (hi - lo) 1 in
  a ← __swap_if a mid lo;
  a ← __swap_if a hi lo;
  a ← __swap_if a hi mid;
  aswap a mid hi.

Definition __q_partition (a : list A) (lo hi : Z) : option (list A * Z) :=
  pivot ← a.[hi];
  '(a, i) ← for_ lo hi (fun j '(a, i) =>
    x ← a.[j];
    if comp x pivot then
      let i := i + 1 in
      a ← (if negb (i =? j) then aswap a i j else Some a);
      Some (a, i)
    else Some (a, i)) (a, lo - 1);
  let i := i + 1 in
  a ← (if negb (i =? hi) then aswap a i hi else Some a);
  Some (a, i).

(** The two statements every user of the partition starts with. *)
Definition __q_split (a : list A) (lo hi : Z) : option (list A * Z) :=
  a ← (if 2 <=? hi - lo then __q_med3_to_high a lo hi else Some a);
  __q_partition a lo hi.

(** The loop and the recursion share the fuel: each turn leaves a shorter range. *)
Fixpoint __quick (fuel : nat) (a : list A) (low high : Z) : option (list A) :=
  match fuel with
  | O => None
  | S fuel' =>
      if low <? high then
        '(a, p) ← __q_split a low high;
        if p - low <? high - p then
          a ← (if low <? p - 1 then __quick fuel' a low (p - 1) else Some a);
          __quick fuel' a (p + 1) high
        else
          a ← (if p + 1 <? high then __quick fuel' a (p + 1) high else Some a);
          __quick fuel' a low (p - 1)
      else Some a
  end.

Definition quick (a : list A) : option (list A) :=
  if 1 <? alen a then __quick (length a) a 0 (alen a - 1) else Some a.

Definition quick_lim (a : list A) (lim : Z) : option (list A) :=
  let n := if lim <? alen a then lim else alen a in
  if 1 <? n then __quick (Z.to_nat n) a 0 (n - 1) else Some a.

Fixpoint __quickselect (fuel : nat) (a : list A) (lo hi k : Z) : option (list A) :=
  match fuel with
  | O => None
  | S fuel' =>
      if lo <? hi then
        '(a, p) ← __q_split a lo hi;
        if k =? p then Some a
        else if k <? p then __quickselect fuel' a lo (p - 1) k
        else __quickselect fuel' a (p + 1) hi k
      else Some a
  end.

Definition __nth_element (a : list A) (k : Z) : option (list A) :=
  let n := alen a in
  if (n <? 2) || (n <=? k) then Some a
  else __quickselect (length a) a 0 (n - 1) k.

Definition quickselect (a : list A) (k : Z) : option (list A * A) :=
  let n := alen a in
  let kk := if k <? n then k else (if n =? 0 then 0 else n - 1) in
  a ← __nth_element a kk;
  x ← a.[kk];
  Some (a, x).

Definition __partial_sort (a : list A) (k : Z) : option (list A) :=
  let n := alen a in
  let m := if k <? n then k else n in
  if (m <? 1) || (n <? 2) then Some a
  else
    a ← (if m <? n then __quickselect (length a) a 0 (n - 1) (m - 1) else Some a);
    __quick (length a) a 0 (m - 1).

(** The [sift] lambda of [__heap_range]. *)
Definition __heap_range_sift (a : list A) (lo root cnt : Z) : option (list A) :=
  while_ (S (Z.to_nat cnt)) (fun '(a, root) =>
    let child := Z.shiftl root 1 + 1 in
    if cnt <=? child then Some (inr a)
    else
      child ← (if child + 1 <? cnt then
                 x ← a.[lo + child];
                 y ← a.[lo + child + 1];
                 Some (if comp x y then child + 1 else child)
               else Some child);
      x ← a.[lo + root];
      y ← a.[lo + child];
      if negb (comp x y) then Some (inr a)
      else a' ← aswap a (lo + root) (lo + child); Some (inl (a', child))) (a, root).

Definition __heap_range (a : list A) (lo hi : Z) : option (list A) :=
  let n := hi - lo + 1 in
  a ← for_down (Z.quot n 2) (fun start a => __heap_range_sift a lo start n) a;
  while_ (S (Z.to_nat n)) (fun '(a, cnt) =>
    if 1 <? cnt then
      let cnt := cnt - 1 in
      a ← aswap a lo (lo + cnt);
      a ← __heap_range_sift a lo 0 cnt;
      Some (inl (a, cnt))
    else Some (inr a)) (a, n).

Definition THRESH : Z := 24.

Fixpoint __introsort (fuel : nat) (a : list A) (lo hi depth : Z) : option (list A) :=
  match fuel with
  | O => None
  | S fuel' =>
      if THRESH <? hi - lo then
        if depth =? 0 then __heap_range a lo hi
        else
          let depth := depth - 1 in
          '(a, p) ← __q_split a lo hi;
          if p - lo <? hi - p then
            a ← (if lo <? p - 1 then __introsort fuel' a lo (p - 1) depth else Some a);
            __introsort fuel' a (p + 1) hi depth
          else
            a ← (if p + 1 <? hi then __introsort fuel' a (p + 1) hi depth else Some a);
            __introsort fuel' a lo (p - 1) depth
      else Some a
  end.

(** [for (t = n; t > 1; t >>= 1) depth += 2;] *)
Definition __sort_depth (n : Z) : option Z :=
  while_ (S (Z.to_nat n)) (fun '(t, depth) =>
    if 1 <? t then Some (inl (Z.shiftr t 1, depth + 2)) else Some (inr depth)) (n, 0).

Definition __sort_dispatch (a : list A) : option (list A) :=
  let n := alen a in
  if n <? 2 then Some a
  else
    depth ← __sort_depth n;
    a ← __introsort (length a) a 0 (n - 1) depth;
    __insertion comp a 0 (alen a).

Definition sort (a : list A) : option (list A) := __sort_dispatch a.
End code.

Section partition.
Context {A : Type} (comp : A -> A -> bool) `{!StrictWeakOrder comp}.
Implicit Types (a b : list A).

Lemma swap_if_spec a i j lo hi : lo <= i <= hi -> lo <= j <= hi -> 0 <= lo -> hi < alen a ->
  returns (__swap_if comp a i j) (rperm lo hi a).
Proof.
  intros Hi Hj Hlo Hhi. unfold __swap_if. apply returns_get; [lia|]. intros x Hx.
  apply returns_get; [lia|]. intros y Hy. apply returns_if; intros _.
  - apply returns_swap_tail; [lia|lia|]. intros b Hb. eapply swapped_rperm; [done|lia|lia].
  - apply returns_ret, rperm_refl.
Qed.

Lemma med3_spec a lo hi : 0 <= lo < hi -> hi < alen a ->
  returns (__q_med3_to_high comp a lo hi) (rperm lo hi a).
Proof.
  intros Hlo Hhi. unfold __q_med3_to_high.
  assert (lo <= lo + Z.shiftr (hi - lo) 1 <= hi) as Hmid.
  { rewrite Z.shiftr_div_pow2 by lia. change (2 ^ 1) with 2.
    pose proof (Z.div_lt (hi - lo) 2). pose proof (Z.div_pos (hi - lo) 2). lia. }
  set (mid := lo + Z.shiftr (hi - lo) 1) in *.
  eapply returns_bind; [apply (swap_if_spec a mid lo lo hi); lia|]. intros b1 R1.
  eapply returns_bind; [apply (swap_if_spec b1 hi lo lo hi); bnd|]. intros b2 R2.
  eapply returns_bind; [apply (swap_if_spec b2 hi mid lo hi); bnd|]. intros b3 R3.
  apply returns_swap_tail; [bnd|bnd|]. intros b Hb.
  eapply rperm_trans; [exact R1|]. eapply rperm_trans; [exact R2|]. eapply rperm_trans; [exact R3|].
  eapply swapped_rperm; [done|lia|lia].
Qed.

(** [lo, p) is strictly below the pivot at [p], and (p, hi] is not. *)
Definition partitioned lo p hi b : Prop :=
  exists pivot, b.[p] = Some pivot /\
    (forall k x, lo <= k < p -> b.[k] = Some x -> comp x pivot = true) /\
    (forall k x, p < k <= hi -> b.[k] = Some x -> comp x pivot = false).

Definition part_inv lo hi j pivot i b : Prop :=
  lo - 1 <= i < j /\ b.[hi] = Some pivot /\
  (forall k x, lo <= k <= i -> b.[k] = Some x -> comp x pivot = true) /\
  (forall k x, i < k < j -> b.[k] = Some x -> comp x pivot = false).

Lemma part_inv_less lo hi j pivot i b b' x :
  lo <= j < hi -> part_inv lo hi j pivot i b -> b.[j] = Some x -> comp x pivot = true ->
  swapped b (i + 1) j b' -> part_inv lo hi (j + 1) pivot (i + 1) b'.
Proof.
  intros Hj (Hi & Hp & H1 & H2) Hx Hc Hsw. pose proof (fun k => swapped_get _ _ _ _ k Hsw) as G.
  split_and!; [lia|lia| | |].
  - rewrite G. by repeat (case_decide; try lia).
  - intros k y Hk. rewrite G. repeat (case_decide; try lia); intros Hy.
    + assert (i + 1 = j) by lia. subst. congruence.
    + congruence.
    + apply (H1 k); [lia|done].
  - intros k y Hk. rewrite G. repeat (case_decide; try lia); intros Hy.
    + apply (H2 (i + 1)); [lia|done].
    + apply (H2 k); [lia|done].
Qed.

Lemma swapped_self b i : 0 <= i < alen b -> swapped b i i b.
Proof.
  intros Hi. destruct (aget_in b i Hi) as [x Hx]. exists x, x. split_and!; [done|done|].
  by rewrite upd_upd_eq, upd_same.
Qed.

Lemma partition_spec a lo hi : 0 <= lo <= hi -> hi < alen a ->
  returns (__q_partition comp a lo hi) (fun '(b, p) =>
    rperm lo hi a b /\ lo <= p <= hi /\ partitioned lo p hi b).
Proof.
  intros Hlo Hhi. unfold __q_partition. apply returns_get; [lia|]. intros pivot Hpv.
  eapply returns_bind.
  { apply (returns_for _ _ _ _ (fun j '(b, i) => rperm lo hi a b /\ part_inv lo hi j pivot i b)
      (fun '(b, i) => rperm lo hi a b /\ part_inv lo hi hi pivot i b)); [lia| | |by intros [b i]].
    - split; [apply rperm_refl|]. split_and!; [lia|lia|done|intros; lia|intros; lia].
    - intros j [b i] Hj (Hp & HI). pose proof (rperm_alen _ _ _ _ Hp). pose proof HI as (Hi & _).
      apply returns_get; [lia|]. intros x Hx. apply returns_if; intros Hc.
      + apply (returns_bind _ _ (fun b' => swapped b (i + 1) j b')).
        { apply returns_if; intros Hne.
          - apply returns_swap_tail; [lia|lia|done].
          - apply returns_ret. assert (i + 1 = j) as -> by lia. apply swapped_self. lia. }
        intros b' Hsw. apply returns_ret. split.
        * eapply rperm_trans; [done|]. eapply swapped_rperm; [done|lia|lia].
        * by eapply part_inv_less.
      + apply returns_ret. split; [done|]. destruct HI as (_ & Hh & H1 & H2).
        split_and!; [lia|lia|done|done|]. intros k y Hk Hy.
        destruct (decide (k = j)) as [->|]; [by simplify_eq|]. apply (H2 k); [lia|done]. }
  intros [b i] (Hp & Hi & Hh & H1 & H2). pose proof (rperm_alen _ _ _ _ Hp).
  apply (returns_bind _ _ (fun b' => swapped b (i + 1) hi b')).
  { apply returns_if; intros Hne.
    - apply returns_swap_tail; [lia|lia|done].
    - apply returns_ret. assert (i + 1 = hi) as -> by lia. apply swapped_self. lia. }
  intros b' Hsw. pose proof (fun k => swapped_get _ _ _ _ k Hsw) as G. apply returns_ret.
  split_and!; [|lia|lia|].
  - eapply rperm_trans; [done|]. eapply swapped_rperm; [done|lia|lia].
  - exists pivot. split_and!.
    + rewrite G. repeat (case_decide; try lia); congruence.
    + intros k x Hk. rewrite G. repeat (case_decide; try lia). apply H1. lia.
    + intros k x Hk. rewrite G. repeat (case_decide; try lia); apply H2; lia.
Qed.

Lemma q_split_spec a lo hi : 0 <= lo < hi -> hi < alen a ->
  returns (__q_split comp a lo hi) (fun '(b, p) =>
    rperm lo hi a b /\ lo <= p <= hi /\ partitioned lo p hi b).
Proof.
  intros Hlo Hhi. unfold __q_split.
  apply (returns_bind _ _ (rperm lo hi a)).
  { apply returns_if; intros _; [by apply med3_spec|]. apply returns_ret, rperm_refl. }
  intros b Hp. eapply returns_mono; [apply partition_spec; bnd|]. intros [b' p] (Hp' & ?).
  split; [by eapply rperm_trans|done].
Qed.

Lemma partitioned_left lo p hi b c : 0 <= lo ->
  rperm lo (p - 1) b c -> partitioned lo p hi b -> partitioned lo p hi c.
Proof.
  intros Hlo R (pivot & Hp & H1 & H2). exists pivot. split_and!.
  - by rewrite (rperm_out _ _ _ _ p R) by lia.
  - intros k x Hk. apply (rperm_forall lo (p - 1) b c (fun x => comp x pivot = true)); [done|done| |lia].
    intros i y Hi. apply H1. lia.
  - intros k x Hk. rewrite (rperm_out _ _ _ _ k R) by lia. by apply H2.
Qed.

Lemma partitioned_right lo p hi b c : 0 <= p ->
  rperm (p + 1) hi b c -> partitioned lo p hi b -> partitioned lo p hi c.
Proof.
  intros Hlo R (pivot & Hp & H1 & H2). exists pivot. split_and!.
  - by rewrite (rperm_out _ _ _ _ p R) by lia.
  - intros k x Hk. rewrite (rperm_out _ _ _ _ k R) by lia. by apply H1.
  - intros k x Hk. apply (rperm_forall (p + 1) hi b c (fun x => comp x pivot = false)); [lia|done| |lia].
    intros i y Hi. apply H2. lia.
Qed.

Lemma partitioned_le lo p hi b i j x y :
  partitioned lo p hi b -> lo <= i <= p -> p <= j <= hi ->
  b.[i] = Some x -> b.[j] = Some y -> le comp x y.
Proof.
  intros (pivot & Hp & H1 & H2) Hi Hj Hx Hy.
  apply (le_trans comp x pivot y).
  - destruct (decide (i = p)) as [->|]; [simplify_eq; by apply le_refl|].
    apply lt_le; [done|]. apply (H1 i); [lia|done].
  - destruct (decide (j = p)) as [->|]; [simplify_eq; by apply le_refl|]. apply (H2 j); [lia|done].
Qed.

Lemma partitioned_sorted lo p hi b :
  partitioned lo p hi b -> sorted_in comp lo (p - 1) b -> sorted_in comp (p + 1) hi b ->
  sorted_in comp lo hi b.
Proof.
  intros HP S1 S2 i j x y Hi Hij Hj Hx Hy.
  destruct (decide (j < p)); [apply (S1 i j); done || lia|].
  destruct (decide (p < i)); [apply (S2 i j); done || lia|].
  apply (partitioned_le lo p hi b i j); done || lia.
Qed.
End partition.

Section quick.
Context {A : Type} (comp : A -> A -> bool) `{!StrictWeakOrder comp}.
Implicit Types (a b : list A).

(** The two recursive calls, whichever comes first, complete the sort. *)
Lemma quick_join lo p hi b c d :
  0 <= lo -> 0 <= p -> partitioned comp lo p hi b ->
  (rperm lo (p - 1) b c /\ sorted_in comp lo (p - 1) c /\
   rperm (p + 1) hi c d /\ sorted_in comp (p + 1) hi d \/
   rperm (p + 1) hi b c /\ sorted_in comp (p + 1) hi c /\
   rperm lo (p - 1) c d /\ sorted_in comp lo (p - 1) d) ->
  lo <= p <= hi -> rperm lo hi b d /\ sorted_in comp lo hi d.
Proof.
  intros Hlo Hp HP [(R1 & S1 & R2 & S2)|(R1 & S1 & R2 & S2)] Hr; split.
  1, 3: eapply rperm_trans; (eapply rperm_mono; [| |done]; lia).
  - apply (partitioned_sorted comp lo p hi); [|eapply sorted_in_ext; [|exact S1]|done].
    + eapply partitioned_right; [done|done|]. by eapply partitioned_left.
    + intros k Hk. apply (rperm_out _ _ _ _ k R2). lia.
  - apply (partitioned_sorted comp lo p hi); [|done|eapply sorted_in_ext; [|exact S1]].
    + eapply partitioned_left; [done|done|]. by eapply partitioned_right.
    + intros k Hk. apply (rperm_out _ _ _ _ k R2). lia.
Qed.

Lemma quick_range fuel a low high :
  0 <= low -> high < alen a -> high - low < Z.of_nat fuel -> (1 <= fuel)%nat ->
  returns (__quick comp fuel a low high) (fun b => rperm low high a b /\ sorted_in comp low high b).
Proof.
  revert a low high. induction fuel as [|fuel IH]; intros a low high Hlo Hhi Hf Hf1; [lia|].
  simpl. apply returns_if; intros Hc; cycle 1.
  { apply returns_ret. auto with sort lia. }
  eapply returns_bind; [apply q_split_spec; lia|]. intros [b p] (Hp & Hpr & HP).
  pose proof (rperm_alen _ _ _ _ Hp) as Lb.
  assert (forall (g : bool) a' l h, alen a' = alen a -> 0 <= l -> h < alen a -> h - l < Z.of_nat fuel ->
    (g = false -> h <= l) ->
    returns (if g then __quick comp fuel a' l h else Some a')
      (fun b => rperm l h a' b /\ sorted_in comp l h b)) as Hrec.
  { intros g a' l h L' Hl' Hh' Hf' Hg. apply returns_if; intros Eg.
    - apply IH; lia.
    - apply returns_ret. auto with sort lia. }
  assert (forall d, rperm low high b d /\ sorted_in comp low high d ->
    rperm low high a d /\ sorted_in comp low high d) as Hfin.
  { intros d [R S]. split; [by eapply rperm_trans|done]. }
  apply returns_if; intros Hside.
  - eapply returns_bind; [apply (Hrec _ b low (p - 1)); lia|]. intros c [R1 S1].
    pose proof (rperm_alen _ _ _ _ R1).
    eapply returns_mono; [apply IH; lia|]. intros d [R2 S2].
    apply Hfin. apply (quick_join low p high b c d); [lia|lia|done|by left|lia].
  - eapply returns_bind; [apply (Hrec _ b (p + 1) high); lia|]. intros c [R1 S1].
    pose proof (rperm_alen _ _ _ _ R1).
    eapply returns_mono; [apply IH; lia|]. intros d [R2 S2].
    apply Hfin. apply (quick_join low p high b c d); [lia|lia|done|by right|lia].
Qed.

Lemma sorted_full a b : rperm 0 (alen a - 1) a b -> sorted_in comp 0 (alen a - 1) b -> sorts comp a b.
Proof.
  intros Hp Hs. split; [by eapply rperm_perm|]. apply sorted_in_StronglySorted.
  by rewrite (rperm_alen _ _ _ _ Hp).
Qed.

Lemma quick_spec a : returns (quick comp a) (sorts comp a).
Proof.
  unfold quick. apply returns_if; intros Hc.
  - eapply returns_mono; [apply quick_range; unfold alen in *; lia|]. intros b [R S]. by apply sorted_full.
  - apply returns_ret, sorted_full; auto with sort lia.
Qed.

(** * Selection *)

(** Position [k] holds the element that sorting would put there. *)
Definition placed k a : Prop :=
  split_at comp k (alen a - 1) a /\ split_at comp (k + 1) (alen a - 1) a.

Lemma split_at_right t n lo hi a b :
  0 <= lo -> t <= lo -> hi <= n -> rperm lo hi a b -> split_at comp t n a -> split_at comp t n b.
Proof.
  intros Hlo Ht Hn R HS p q x y Hp Hq Hx Hy.
  rewrite (rperm_out _ _ _ _ p R) in Hx by lia.
  destruct (decide (lo <= q <= hi)) as [Hin|Hout].
  - revert q y Hin Hq Hy. intros q y Hin _.
    apply (rperm_forall lo hi a b (fun y => le comp x y)); [done|done| |done].
    intros k z Hk Hz. apply (HS p k); done || lia.
  - rewrite (rperm_out _ _ _ _ q R) in Hy by lia. apply (HS p q); done || lia.
Qed.

Lemma split_at_left t n lo hi a b :
  0 <= lo -> hi < t -> rperm lo hi a b -> split_at comp t n a -> split_at comp t n b.
Proof.
  intros Hlo Ht R. apply split_at_rperm. eapply rperm_mono; [| |done]; lia.
Qed.

Lemma partitioned_split lo p hi n b :
  0 <= lo -> lo <= p <= hi -> hi <= n ->
  partitioned comp lo p hi b -> split_at comp lo n b -> split_at comp (hi + 1) n b ->
  split_at comp p n b /\ split_at comp (p + 1) n b.
Proof.
  intros Hlo Hp Hhi HP H1 H2. split; intros i j x y Hi Hj Hx Hy.
  - destruct (decide (i < lo)); [apply (H1 i j); done || lia|].
    destruct (decide (hi < j)); [apply (H2 i j); done || lia|].
    apply (partitioned_le comp lo p hi b i j); done || lia.
  - destruct (decide (i < lo)); [apply (H1 i j); done || lia|].
    destruct (decide (hi < j)); [apply (H2 i j); done || lia|].
    apply (partitioned_le comp lo p hi b i j); done || lia.
Qed.

Lemma quickselect_range fuel a lo hi k :
  0 <= lo -> lo <= k <= hi -> hi < alen a -> hi - lo < Z.of_nat fuel ->
  split_at comp lo (alen a - 1) a -> split_at comp (hi + 1) (alen a - 1) a ->
  returns (__quickselect comp fuel a lo hi k) (fun b => rperm lo hi a b /\ placed k b).
Proof.
  revert a lo hi. induction fuel as [|fuel IH]; intros a lo hi Hlo Hk Hhi Hf H1 H2; [lia|].
  simpl. apply returns_if; intros Hc; cycle 1.
  { apply returns_ret. split; [apply rperm_refl|]. assert (lo = k) as -> by lia.
    assert (hi = k) as -> by lia. done. }
  eapply returns_bind; [apply q_split_spec; lia|]. intros [b p] (Hp & Hpr & HP).
  pose proof (rperm_alen _ _ _ _ Hp) as Lb.
  assert (split_at comp lo (alen a - 1) b) as H1b by (eapply (split_at_right _ _ lo hi); eauto; lia).
  assert (split_at comp (hi + 1) (alen a - 1) b) as H2b by (eapply (split_at_left _ _ lo hi); eauto; lia).
  destruct (partitioned_split lo p hi (alen a - 1) b) as [Hp1 Hp2]; [lia|lia|lia|done|done|done|].
  apply returns_if; intros Ek.
  { apply returns_ret. split; [done|]. assert (k = p) as -> by lia. unfold placed. by rewrite Lb. }
  apply returns_if; intros Elt.
  - eapply returns_mono; [apply IH; rewrite ?Lb; try lia; [done|]|].
    + by replace (p - 1 + 1) with p by lia.
    + intros c [R Hpl]. split; [|done]. eapply rperm_trans; [done|]. eapply rperm_mono; [| |done]; lia.
  - eapply returns_mono; [apply IH; rewrite ?Lb; try lia; done|].
    intros c [R Hpl]. split; [|done]. eapply rperm_trans; [done|]. eapply rperm_mono; [| |done]; lia.
Qed.

Lemma split_at_full n a : split_at comp (n + 1) n a.
Proof. intros p q x y. lia. Qed.

Lemma quickselect_full a k : 0 <= k < alen a ->
  returns (__quickselect comp (length a) a 0 (alen a - 1) k) (fun b =>
    rperm 0 (alen a - 1) a b /\ placed k b).
Proof.
  intros Hk. apply quickselect_range; try (unfold alen in *; lia).
  - apply split_at_zero.
  - apply split_at_full.
Qed.

Lemma nth_element_spec a k : 0 <= k < alen a ->
  returns (__nth_element comp a k) (fun b => a ≡ₚ b /\ placed k b).
Proof.
  intros Hk. unfold __nth_element. apply returns_if; intros Hc.
  - apply returns_ret. split; [done|]. apply orb_true_iff in Hc.
    split; intros p q x y Hp Hq; lia.
  - eapply returns_mono; [by apply quickselect_full|]. intros b [R Hpl].
    split; [by eapply rperm_perm|done].
Qed.

Lemma partial_sort_spec a k : 0 <= k ->
  returns (__partial_sort comp a k) (fun b => a ≡ₚ b /\
    sorted_in comp 0 (Z.min k (alen a) - 1) b /\ split_at comp (Z.min k (alen a)) (alen a - 1) b).
Proof.
  intros Hk. unfold __partial_sort. pose proof (alen_nonneg a).
  set (m := if k <? alen a then k else alen a).
  assert (m = Z.min k (alen a)) as <- by (unfold m; case_match; lia).
  assert (0 <= m <= alen a) as Hm by (unfold m; case_match; lia).
  apply returns_if; intros Hc.
  { apply returns_ret. apply orb_true_iff in Hc. split_and!; [done|apply sorted_in_trivial; lia|].
    intros p q x y Hp Hq; lia. }
  apply orb_false_iff in Hc as [Hc1 Hc2].
  apply (returns_bind _ _ (fun b => rperm 0 (alen a - 1) a b /\ split_at comp m (alen a - 1) b)).
  { apply returns_if; intros Hlt.
    - eapply returns_mono; [apply quickselect_full; lia|]. intros b [R [_ Hpl]].
      split; [done|]. rewrite (rperm_alen _ _ _ _ R) in Hpl. by replace (m - 1 + 1) with m in Hpl by lia.
    - apply returns_ret. split; [apply rperm_refl|]. intros p q x y. lia. }
  intros b [R HS]. pose proof (rperm_alen _ _ _ _ R) as Lb.
  eapply returns_mono; [apply quick_range; unfold alen in *; lia|]. intros c [R' S']. split_and!.
  - rewrite (rperm_perm _ _ _ _ R). by eapply rperm_perm.
  - done.
  - eapply (split_at_left m _ 0 (m - 1)); eauto; lia.
Qed.

(** * Introsort *)

Lemma heap_range_sift_spec a lo root cnt hi :
  0 <= lo -> 0 <= root -> lo + cnt - 1 <= hi -> hi < alen a ->
  returns (__heap_range_sift comp a lo root cnt) (rperm lo hi a).
Proof.
  intros Hlo Hr Hcnt Hhi. unfold __heap_range_sift.
  apply (returns_while _ _ _ (fun '(b, r) => 0 <= r /\ rperm lo hi a b)
    (fun '(_, r) => Z.max 0 (cnt - r))).
  - split; [done|apply rperm_refl].
  - lia.
  - intros [b r] [Hr0 R]. pose proof (rperm_alen _ _ _ _ R).
    rewrite Z.shiftl_mul_pow2 by lia. change (2 ^ 1) with 2.
    apply returns_if; intros Hc; [by apply returns_ret|].
    apply (returns_bind _ _ (fun c => r < c < cnt)).
    { apply returns_if; intros Hc1.
      - apply returns_get; [lia|]. intros x _. apply returns_get; [lia|]. intros y _.
        apply returns_ret. case_match; lia.
      - apply returns_ret. lia. }
    intros c Hcr. apply returns_get; [lia|]. intros x _. apply returns_get; [lia|]. intros y _.
    apply returns_if; intros _; [by apply returns_ret|].
    apply returns_swap; [lia|lia|]. intros b' Hsw. apply returns_ret. split; [|lia].
    split; [lia|]. eapply rperm_trans; [done|]. eapply swapped_rperm; [done|lia|lia].
Qed.

Lemma heap_range_perm a lo hi : 0 <= lo <= hi -> hi < alen a ->
  returns (__heap_range comp a lo hi) (rperm lo hi a).
Proof.
  intros Hlo Hhi. unfold __heap_range. rewrite Z.quot_div_nonneg by lia.
  pose proof (Z.div_pos (hi - lo + 1) 2 ltac:(lia) ltac:(lia)).
  eapply returns_bind.
  { apply (returns_for_down _ _ _ (fun _ b => rperm lo hi a b)); [lia|apply rperm_refl| |intros b Hb; exact Hb].
    intros i b Hi R. pose proof (rperm_alen _ _ _ _ R).
    eapply returns_mono; [apply (heap_range_sift_spec b lo i _ hi); lia|].
    intros b' R'. by eapply rperm_trans. }
  intros b R. apply (returns_while _ _ _ (fun '(b, cnt) => 1 <= cnt <= hi - lo + 1 /\ rperm lo hi a b)
    (fun '(_, cnt) => cnt)).
  - split; [lia|done].
  - lia.
  - clear b R. intros [b cnt] [Hcnt R]. pose proof (rperm_alen _ _ _ _ R).
    apply returns_if; intros Hc; [|by apply returns_ret].
    apply returns_swap; [lia|lia|]. intros b1 Hsw. pose proof (swapped_alen _ _ _ _ Hsw).
    eapply returns_bind; [apply (heap_range_sift_spec b1 lo 0 _ hi); lia|]. intros b2 R2.
    apply returns_ret. split; [split; [lia|]|lia].
    eapply rperm_trans; [done|]. eapply rperm_trans; [|done]. eapply swapped_rperm; [done|lia|lia].
Qed.

Lemma introsort_perm fuel a lo hi depth :
  0 <= lo -> hi < alen a -> hi - lo < Z.of_nat fuel -> (1 <= fuel)%nat -> lo <= hi + 1 ->
  returns (__introsort comp fuel a lo hi depth) (rperm lo hi a).
Proof.
  revert a lo hi depth. induction fuel as [|fuel IH]; intros a lo hi depth Hlo Hhi Hf Hf1 Hle; [lia|].
  simpl. unfold THRESH. apply returns_if; intros Hc; [|apply returns_ret, rperm_refl].
  apply returns_if; intros _; [apply heap_range_perm; lia|].
  eapply returns_bind; [apply q_split_spec; lia|]. intros [b p] (Hp & Hpr & _).
  pose proof (rperm_alen _ _ _ _ Hp) as Lb.
  assert (forall (g : bool) a' l h d, rperm lo hi a a' -> lo <= l -> h <= hi -> l <= h + 1 -> h - l < Z.of_nat fuel ->
    returns (if g then __introsort comp fuel a' l h d else Some a') (rperm lo hi a)) as Hrec.
  { intros g a' l h d R Hl Hh Hlh Hf'. pose proof (rperm_alen _ _ _ _ R). apply returns_if; intros _; [|by apply returns_ret].
    eapply returns_mono; [apply IH; lia|]. intros c Rc. eapply rperm_trans; [done|].
    eapply rperm_mono; [| |done]; lia. }
  apply returns_if; intros _.
  - eapply returns_bind; [apply (Hrec _ b lo (p - 1)); done || lia|]. intros c Rc.
    apply (Hrec true c (p + 1) hi); done || lia.
  - eapply returns_bind; [apply (Hrec _ b (p + 1) hi); done || lia|]. intros c Rc.
    apply (Hrec true c lo (p - 1)); done || lia.
Qed.

Lemma sort_depth_spec n : returns (__sort_depth n) (fun d => 0 <= d).
Proof.
  apply (returns_while _ _ _ (fun '(t, d) => 0 <= d) (fun '(t, _) => Z.max 0 t)).
  - lia.
  - lia.
  - intros [t d] Hd. apply returns_if; intros Hc; apply returns_ret; [|done].
    split; [lia|]. rewrite Z.shiftr_div_pow2 by lia. change (2 ^ 1) with 2.
    pose proof (Z.div_lt t 2). pose proof (Z.div_pos t 2). lia.
Qed.

Lemma sort_spec a : returns (sort comp a) (sorts comp a).
Proof.
  unfold sort, __sort_dispatch. apply returns_if; intros Hc.
  { apply returns_ret, sorted_full; auto with sort lia. }
  eapply returns_bind; [apply sort_depth_spec|]. intros d _.
  eapply returns_bind; [apply introsort_perm; unfold alen in *; lia|]. intros b R.
  pose proof (rperm_alen _ _ _ _ R) as Lb.
  eapply returns_mono; [apply insertion_full; done|]. intros c [[P S] _].
  split; [by rewrite (rperm_perm _ _ _ _ R)|done].
Qed.
End quick.
