(* ===== verification/SortTheorems.v ===== *)
(** The sorting library: what its entry points promise.

    Every statement is over an arbitrary strict weak order and says that the
    routine returns, that is, it stays inside the array and its loops stop. *)
From stdpp Require Import base numbers list option sorting.
From Stdlib Require Import ZArith Lia.
From S2P Require Import Prelude Arrays SortSpec SortInsertion SortExchange SortMerge SortHeap SortQuick.

Local Open Scope Z_scope.

Section lim.
Context {A : Type} (comp : A -> A -> bool) `{!StrictWeakOrder comp}.
Implicit Types (a b : list A).

(** [lim < arr.size() ? lim : arr.size()] *)
Lemma clamp_min lim a : (if lim <? alen a then lim else alen a) = Z.min lim (alen a).
Proof. destruct (Z.ltb_spec lim (alen a)); lia. Qed.

Lemma sorts_prefix_trivial n a : n <= 1 -> sorts_prefix comp n a a.
Proof. split; auto with sort lia. Qed.

Lemma insertion_lim_spec a lim : 0 <= lim ->
  returns (insertion_lim comp a lim) (sorts_prefix comp (Z.min lim (alen a)) a).
Proof.
  intros. unfold insertion_lim. rewrite clamp_min. pose proof (alen_nonneg a).
  eapply returns_mono; [apply (insertion_prefix comp); lia|]. intros b (? & _ & ?). by split.
Qed.

Lemma quick_lim_spec a lim : 0 <= lim ->
  returns (quick_lim comp a lim) (sorts_prefix comp (Z.min lim (alen a)) a).
Proof.
  intros. unfold quick_lim. rewrite clamp_min. pose proof (alen_nonneg a).
  apply returns_if; intros Hc.
  - apply (quick_range comp); lia.
  - apply returns_ret, sorts_prefix_trivial. lia.
Qed.

Lemma as_heap_lim_spec a lim : 0 <= lim ->
  returns (as_heap_lim comp a lim) (sorts_prefix comp (Z.min lim (alen a)) a).
Proof.
  intros. unfold as_heap_lim. rewrite clamp_min. pose proof (alen_nonneg a).
  apply (heap_prefix_spec comp). lia.
Qed.

Context (new_array : Z -> list A) (new_array_len : forall n, 0 < n -> alen (new_array n) = n).

Lemma range_sorts_prefix n a b : 0 <= n -> range_stably_sorted comp 0 (n - 1) a b -> sorts_prefix comp n a b.
Proof.
  intros Hn (L & Hout & (Hp & Hs) & _). split.
  - apply segment_perm_rperm; [lia|lia|done|done].
  - apply StronglySorted_segment; [lia|done].
Qed.

Lemma merge_lim_spec a lim : 0 <= lim ->
  returns (merge_lim comp new_array a lim) (sorts_prefix comp (Z.min lim (alen a)) a).
Proof using new_array_len StrictWeakOrder0.
  intros. unfold merge_lim. rewrite clamp_min. pose proof (alen_nonneg a).
  apply returns_if; intros Hc.
  - eapply returns_mono; [apply (merge_sort_spec comp new_array new_array_len); lia|]. intros b.
    apply (range_sorts_prefix). lia.
  - apply returns_ret, sorts_prefix_trivial. lia.
Qed.

Lemma merge_bottom_up_lim_spec a lim : 0 <= lim ->
  returns (merge_bottom_up_lim comp new_array a lim) (sorts_prefix comp (Z.min lim (alen a)) a).
Proof using new_array_len StrictWeakOrder0.
  intros. unfold merge_bottom_up_lim. rewrite clamp_min. pose proof (alen_nonneg a).
  apply returns_if; intros Hc.
  - eapply returns_mono; [apply (bottom_up_spec comp new_array new_array_len); lia|]. intros b (? & _ & ?). by split.
  - apply returns_ret, sorts_prefix_trivial. lia.
Qed.
End lim.

Section theorems.
Context {A : Type} (comp : A -> A -> bool) `{!StrictWeakOrder comp}.
Implicit Types (a b : list A).

Context (new_array : Z -> list A) (new_array_len : forall n, 0 < n -> alen (new_array n) = n).

(** C1: the default entry point [sort::sort] (introsort) stays inside the
    array, terminates, and leaves a sorted permutation of its input, for
    every comparator that is a strict weak order. *)
Theorem sort_sorts a : returns (sort comp a) (sorts comp a).
Proof. exact (sort_spec comp a). Qed.

(** C2: [sort::merge], its bottom-up variant, [sort::stable], insertion sort and
    bubble sort (with the last-exchange bound) terminate in bounds, sort, and are
    stable: every class of equivalent elements keeps its order, for whatever
    values the allocated scratch buffer holds.  So they are one function: on every
    input all of them return the same array. *)
Theorem merge_sorts_stably a :
  returns (insertion comp a) (stably_sorts comp a) /\ returns (__bubble comp a) (stably_sorts comp a) /\
  returns (merge comp new_array a) (stably_sorts comp a) /\
  returns (merge_bottom_up comp new_array a) (stably_sorts comp a) /\
  returns (stable_sort comp new_array a) (stably_sorts comp a) /\
  insertion comp a = __bubble comp a /\ insertion comp a = merge comp new_array a /\
  insertion comp a = merge_bottom_up comp new_array a /\ insertion comp a = stable_sort comp new_array a.
Proof using new_array_len StrictWeakOrder0.
  destruct (insertion_full comp a) as (b & -> & Hb), (bubble_spec comp a) as (b1 & -> & H1).
  destruct (merge_spec comp new_array new_array_len a) as (b2 & E2 & H2), (merge_bottom_up_spec comp new_array new_array_len a) as (b3 & -> & H3).
  unfold stable_sort. rewrite E2. split_and!; try (by apply returns_ret); f_equal; by eapply stably_sorts_unique.
Qed.

(** C3: quick sort (median of three, Lomuto partition, recursion on the
    smaller side), heap sort, selection sort and shell sort (for the extended
    Ciura gaps) each return a sorted permutation of their input, without
    leaving the array. *)
Theorem in_place_sorts a :
  returns (quick comp a) (sorts comp a) /\ returns (heap comp a) (sorts comp a) /\
  returns (__selection comp a) (sorts comp a) /\ returns (__shell comp a) (sorts comp a).
Proof.
  split_and!; [exact (quick_spec comp a)|exact (heap_spec comp a)
    |exact (selection_spec comp a)|exact (shell_spec comp a)].
Qed.

(** C4: comb sort terminates (its loop has no explicit bound: every pass
    with an exchange removes an inversion) and sorts. *)
Theorem comb_terminates_sorted a : returns (__comb comp a) (sorts comp a).
Proof. exact (comb_spec comp a). Qed.

(** C7: [nth_element] puts the element of rank [k] at [k], everything before
    it not larger and everything after it not smaller; [partial_sort] puts
    the [k] smallest elements first and in order; the overloads of the sorts with a
    limit touch only the first [min(lim, size)] elements and sort them; [is_sorted]
    decides sortedness, and [is_sorted_until] returns the end of the longest sorted
    prefix. *)
Theorem selection_algorithms a k lim : 0 <= lim ->
  let spec := sorts_prefix comp (Z.min lim (alen a)) a in
  (0 <= k < alen a ->
   returns (__nth_element comp a k) (fun b => a ≡ₚ b /\ placed comp k b) /\
   returns (__partial_sort comp a k) (fun b => a ≡ₚ b /\
     sorted_in comp 0 (k - 1) b /\ split_at comp k (alen a - 1) b)) /\
  returns (insertion_lim comp a lim) spec /\
  returns (merge_lim comp new_array a lim) spec /\
  returns (merge_bottom_up_lim comp new_array a lim) spec /\
  returns (quick_lim comp a lim) spec /\
  returns (as_heap_lim comp a lim) spec /\
  returns (__is_sorted comp a) (fun r => r = true <-> StronglySorted (le comp) a) /\
  returns (__is_sorted_until comp a) (fun r =>
    sorted_in comp 0 (r - 1) a /\
    (r = alen a \/ 1 <= r < alen a /\
      exists x y, a.[r] = Some x /\ a.[r - 1] = Some y /\ comp x y = true)).
Proof using new_array_len StrictWeakOrder0.
  intros Hl. split; [|split_and!].
  - intros Hk. split; [by apply (nth_element_spec comp)|]. eapply returns_mono; [apply (partial_sort_spec comp); lia|].
    intros b (Hp & Hs & Hsp). by rewrite Z.min_l in Hs, Hsp by lia.
  - by apply (insertion_lim_spec comp).
  - by apply (merge_lim_spec comp new_array new_array_len).
  - by apply (merge_bottom_up_lim_spec comp new_array new_array_len).
  - by apply (quick_lim_spec comp).
  - by apply (as_heap_lim_spec comp).
  - exact (is_sorted_spec comp a).
  - eapply returns_mono; [exact (is_sorted_until_spec comp a)|]. by intros r [? ?].
Qed.
End theorems.

(** ** Witnesses: integers, and pairs ordered by their first component *)

Definition by_fst (x y : Z * Z) : bool := Z.ltb x.1 y.1.

#[export] Instance by_fst_swo : StrictWeakOrder by_fst.
Proof. exact (key_swo fst). Qed.

Definition zeros {A} (x : A) (n : Z) : list A := replicate (Z.to_nat n) x.

Lemma zeros_len {A} (x : A) n : 0 < n -> alen (zeros x n) = n.
Proof. intros. unfold alen, zeros. rewrite length_replicate. lia. Qed.

Definition pairs : list (Z * Z) := [(2, 0); (1, 1); (2, 2); (1, 3); (0, 4)].

Lemma sort_sorts_witness : returns (sort Z.ltb [3; 1; 2]) (sorts Z.ltb [3; 1; 2]).
Proof. apply (sort_sorts Z.ltb). Defined.

Lemma merge_sorts_stably_witness :
  returns (merge by_fst (zeros (0, 0)) pairs) (stably_sorts by_fst pairs) /\
  insertion by_fst pairs = merge_bottom_up by_fst (zeros (0, 0)) pairs /\
  merge by_fst (zeros (0, 0)) pairs = Some [(0, 4); (1, 1); (1, 3); (2, 0); (2, 2)].
Proof. split_and!; [apply (merge_sorts_stably by_fst (zeros (0, 0)) (zeros_len _))..|by vm_compute]. Defined.

Lemma in_place_sorts_witness :
  returns (quick Z.ltb [3; 1; 2; 1]) (sorts Z.ltb [3; 1; 2; 1]) /\
  returns (heap Z.ltb [3; 1; 2; 1]) (sorts Z.ltb [3; 1; 2; 1]) /\
  returns (__selection Z.ltb [3; 1; 2; 1]) (sorts Z.ltb [3; 1; 2; 1]) /\
  returns (__shell Z.ltb [3; 1; 2; 1]) (sorts Z.ltb [3; 1; 2; 1]).
Proof. apply (in_place_sorts Z.ltb). Defined.

Lemma comb_terminates_sorted_witness : returns (__comb Z.ltb [3; 1; 2]) (sorts Z.ltb [3; 1; 2]).
Proof. apply (comb_terminates_sorted Z.ltb). Defined.

Lemma selection_algorithms_witness :
  returns (__nth_element Z.ltb [4; 3; 1; 2] 2) (fun b => [4; 3; 1; 2] ≡ₚ b /\ placed Z.ltb 2 b) /\
  returns (quick_lim Z.ltb [4; 3; 1; 2] 2) (sorts_prefix Z.ltb 2 [4; 3; 1; 2]).
Proof.
  split; apply (selection_algorithms Z.ltb (zeros 0) (zeros_len 0) [4; 3; 1; 2] 2 2); unfold alen; simpl; lia.
Defined.
