(* ===== verification/PriorityQueue.v ===== *)
(** The array priority queues [src/heap/heapq.hpp] (min first, growable) and
    [src/heap/binary_heap.hpp] (max first, fixed capacity), and their client
    [drain_sorted] of [src/sort/extract.hpp].

    The mutex of [heapq] makes each operation atomic; the definitions are the
    bodies of the critical sections.  An exception is [inl]. *)
From stdpp Require Import base numbers list option sorting.
From Stdlib Require Import ZArith Lia.
From S2P Require Import Prelude Arrays SortSpec SortHeap.

Local Open Scope Z_scope.

(** The exceptions of [except.hpp] that the modelled code throws. *)
Inductive exception := library_error.

(** * heapq *)
Module heapq.
Section heapq.
Context {A : Type} (lt : A -> A -> bool).

Definition sift_up (heap : list A) (idx : Z) : option (list A) :=
  while_ (S (Z.to_nat idx)) (fun '(heap, idx) =>
    if 0 <? idx then
      let parent := (idx - 1) / 2 in
      x ← heap.[idx];
      y ← heap.[parent];
      if lt x y then heap' ← aswap heap idx parent; Some (inl (heap', parent))
      else Some (inr heap)
    else Some (inr heap)) (heap, idx).

(** [if (c < n && heap[c] < heap[smallest]) smallest = c;] *)
Definition pick (heap : list A) (n c smallest : Z) : option Z :=
  if c <? n then
    x ← heap.[c];
    y ← heap.[smallest];
    Some (if lt x y then c else smallest)
  else Some smallest.

Definition sift_down (heap : list A) (idx : Z) : option (list A) :=
  let n := alen heap in
  while_ (S (Z.to_nat n)) (fun '(heap, idx) =>
    let left := 2 * idx + 1 in
    let right := 2 * idx + 2 in
    smallest ← pick heap n left idx;
    smallest ← pick heap n right smallest;
    if negb (smallest =? idx) then heap' ← aswap heap idx smallest; Some (inl (heap', smallest))
    else Some (inr heap)) (heap, idx).

(** [explicit heapq(const fvector<T> &v)] *)
Definition of_vector (v : list A) : option (list A) :=
  for_down (alen v / 2) (fun i heap => sift_down heap i) v.

Definition push (heap : list A) (val : A) : option (list A) :=
  let heap := heap ++ [val] in
  sift_up heap (alen heap - 1).

Definition pop (heap : list A) : option (exception + A * list A) :=
  if alen heap =? 0 then Some (inl library_error)
  else
    min_val ← heap.[0];
    back ← heap.[alen heap - 1];
    heap ← aset heap 0 back;
    let heap := take (length heap - 1) heap in
    heap ← (if negb (alen heap =? 0) then sift_down heap 0 else Some heap);
    Some (inr (min_val, heap)).

Definition top (heap : list A) : option (exception + A) :=
  if alen heap =? 0 then Some (inl library_error)
  else x ← heap.[0]; Some (inr x).
End heapq.
End heapq.

(** * binary_heap *)
Module binary_heap.
Record t (A : Type) := mk {
  memory : list A;      (** the allocated buffer; its length is the capacity *)
  length : Z;
}.
Arguments mk {A} _ _.
Arguments memory {A} _.
Arguments length {A} _.

Section binary_heap.
Context {A : Type} (lt : A -> A -> bool).

Definition capacity (h : t A) : Z := alen (memory h).

Definition make_heap (mem : list A) (j : Z) : option (list A) :=
  while_ (S (Z.to_nat j)) (fun '(mem, j) =>
    if 0 <? j then
      let k := (j - 1) / 2 in
      x ← mem.[k];
      y ← mem.[j];
      if negb (lt x y) then Some (inr mem)
      else mem' ← aswap mem k j; Some (inl (mem', k))
    else Some (inr mem)) (mem, j).

(** [if (c < length && memory[c] > memory[max]) max = c;] *)
Definition pick (mem : list A) (len c max : Z) : option Z :=
  if c <? len then
    x ← mem.[c];
    y ← mem.[max];
    Some (if lt y x then c else max)
  else Some max.

Definition reduce_heap (mem : list A) (len j : Z) : option (list A) :=
  while_ (S (Z.to_nat len)) (fun '(mem, j) =>
    let left := 2 * j + 1 in
    let right := 2 * j + 2 in
    max ← pick mem len left j;
    max ← pick mem len right max;
    if max =? j then Some (inr mem)
    else mem' ← aswap mem j max; Some (inl (mem', max))) (mem, j).

Definition insert (h : t A) (v : A) : option (t A) :=
  if length h =? capacity h then Some h
  else
    mem ← aset (memory h) (length h) v;
    mem ← make_heap mem (length h);
    Some (mk mem (length h + 1)).

Definition clear (h : t A) : t A := mk (memory h) 0.

Definition get (h : t A) : option (exception + A * t A) :=
  if length h =? 0 then Some (inl library_error)
  else
    v ← (memory h).[0];
    let len := length h - 1 in
    mem ← (if negb (len =? 0) then x ← (memory h).[len]; aset (memory h) 0 x else Some (memory h));
    mem ← reduce_heap mem len 0;
    Some (inr (v, mk mem len)).

Definition size (h : t A) : Z := length h.

Definition max (h : t A) : option (exception + A) :=
  if length h =? 0 then Some (inl library_error)
  else x ← (memory h).[0]; Some (inr x).
End binary_heap.
End binary_heap.

Section sifting.
Context {A : Type} (comp : A -> A -> bool) `{!StrictWeakOrder comp}.
Implicit Types (a b : list A).

(** A heap below [n] except that the node at [j] may exceed its ancestors. *)
Definition heap_rising j n a : Prop :=
  (forall i c x y, 0 <= i -> child_of c i -> c < n -> c <> j ->
     a.[i] = Some x -> a.[c] = Some y -> le comp y x) /\
  (forall p c x y, 0 <= p -> child_of j p -> child_of c j -> c < n ->
     a.[p] = Some x -> a.[c] = Some y -> le comp y x).

Lemma heap_rising_last n a b : 0 <= n ->
  (forall i, 0 <= i < n -> b.[i] = a.[i]) ->
  heap_from comp 0 n a -> heap_rising n (n + 1) b.
Proof.
  intros Hn E H. split.
  - intros i c x y Hi Hc Hcn Hne. rewrite !E by (destruct Hc; lia).
    apply (H i c); (done || lia).
  - intros p c x y Hp Hj [?|?]; lia.
Qed.

Lemma heap_rising_step j p n a b x y :
  0 <= p -> child_of j p -> j < n -> heap_rising j n a ->
  a.[p] = Some x -> a.[j] = Some y -> comp x y = true -> swapped a p j b ->
  heap_rising p n b.
Proof.
  intros Hp Hj Hjn [H1 H2] Hx Hy Hc Hsw. pose proof (fun k => swapped_get _ _ _ _ k Hsw) as G.
  assert (le comp x y) as Hxy by (by apply lt_le). split.
  - intros i c u v Hi Hci Hcn Hcp. rewrite !G.
    repeat (case_decide; subst); try (destruct Hci, Hj; lia); intros Hu Hv; simplify_eq.
    + apply (H2 p c); done.
    + done.
    + apply (le_trans comp v x _); [|done]. apply (H1 p c); done.
    + apply (H1 i c); done.
  - intros g c u v Hg Hpg Hcp Hcn. rewrite !G.
    repeat (case_decide; subst); try (destruct Hcp, Hpg, Hj; lia); intros Hu Hv; simplify_eq.
    + apply (H1 g p); (done || destruct Hj; lia).
    + apply (le_trans comp v x _); [apply (H1 p c); done|].
      apply (H1 g p); (done || destruct Hj; lia).
Qed.

Lemma heap_rising_done j n a :
  (forall p x y, 0 <= p -> child_of j p -> a.[p] = Some x -> a.[j] = Some y -> le comp y x) ->
  heap_rising j n a -> heap_from comp 0 n a.
Proof.
  intros Hj [H1 _] i c x y Hi Hc Hn Hx Hy.
  destruct (decide (c = j)) as [->|]; [by eapply Hj|]. by apply (H1 i c).
Qed.

Lemma rising_spec a j n : 0 <= j < n -> n <= alen a -> heap_rising j n a ->
  returns (binary_heap.make_heap comp a j) (fun b => rperm 0 (n - 1) a b /\ heap_from comp 0 n b).
Proof.
  intros Hj Hn H0. unfold binary_heap.make_heap.
  apply (returns_while _ _ _ (fun '(b, j) => 0 <= j < n /\ rperm 0 (n - 1) a b /\ heap_rising j n b)
    (fun '(_, j) => j)).
  - split_and!; auto with sort lia.
  - lia.
  - clear j Hj H0. intros [b j] (Hj & Hp & Hr). pose proof (rperm_alen _ _ _ _ Hp).
    apply returns_if; intros Hc; cycle 1.
    { apply returns_ret. split; [done|]. apply (heap_rising_done j); [|done].
      intros p x y ? [?|?]; lia. }
    destruct (parent_child j) as [Hcj Hpj]; [lia|].
    apply returns_get; [lia|]. intros x Hx. apply returns_get; [lia|]. intros y Hy.
    apply returns_if; intros Hcmp.
    + apply returns_ret. split; [done|]. apply (heap_rising_done j); [|done].
      intros p u v Hp0 Hjp Hu Hv. assert (p = (j - 1) / 2) as -> by (destruct Hjp, Hcj; lia).
      simplify_eq. by apply negb_true_iff in Hcmp.
    + apply returns_swap; [lia|lia|]. intros b' Hsw. apply returns_ret. split; [|lia].
      split_and!; [lia|lia| |].
      * eapply rperm_trans; [done|]. eapply swapped_rperm; [done|lia|lia].
      * eapply heap_rising_step; eauto; [lia|lia|]. by apply negb_false_iff in Hcmp.
Qed.

Lemma reduce_heap_sift a len j :
  binary_heap.reduce_heap comp a len j = __sift_down comp a j len.
Proof.
  apply while_ext. clear. intros [a j]. rewrite Z.shiftl_mul_pow2 by lia.
  change (2 ^ 1) with 2. rewrite (Z.mul_comm j 2). unfold binary_heap.pick, __sift_pick.
  replace (2 * j + 2) with (2 * j + 1 + 1) by lia.
  destruct (Z.leb_spec len (2 * j + 1)) as [Hle|Hlt].
  - rewrite (proj2 (Z.ltb_ge (2 * j + 1) len)) by lia. simpl.
    rewrite (proj2 (Z.ltb_ge (2 * j + 1 + 1) len)) by lia. simpl. by rewrite Z.eqb_refl.
  - rewrite (proj2 (Z.ltb_lt (2 * j + 1) len)) by lia. simpl.
    destruct (a.[j]) as [x|] eqn:Ex, (a.[2 * j + 1]) as [y|] eqn:Ey; simpl; try done.
    destruct (2 * j + 1 + 1 <? len); [|done].
    destruct (comp x y); rewrite ?Ex, ?Ey; simpl;
      destruct (a.[2 * j + 1 + 1]); simpl; done.
Qed.

Lemma heapq_sift_up (lt : A -> A -> bool) a j : 
  heapq.sift_up lt a j = binary_heap.make_heap (flipc lt) a j.
Proof.
  apply while_ext. clear. unfold flipc. intros [a j]. destruct (0 <? j); [|done].
  cbv zeta. destruct (a.[j]) as [y|], (a.[(j - 1) / 2]) as [x|]; simpl; try done.
  rewrite (aswap_comm a j). by destruct (lt y x).
Qed.

Lemma heapq_sift_down (lt : A -> A -> bool) a j :
  heapq.sift_down lt a j = binary_heap.reduce_heap (flipc lt) a (alen a) j.
Proof.
  apply while_ext. intros [b i]. simpl.
  change (heapq.pick lt) with (binary_heap.pick (flipc lt)).
  destruct (binary_heap.pick _ b _ (2 * i + 1) i) as [s|]; [|done]. simpl.
  destruct (binary_heap.pick _ b _ (2 * i + 2) s) as [s'|]; [|done]. simpl.
  by destruct (s' =? i).
Qed.
End sifting.

Lemma perm_pop {A} (a : list A) v n : 0 <= n < alen a -> a.[0] = Some v ->
  exists x, a.[n] = Some x /\
    segment 0 n a ≡ₚ v :: (if decide (n = 0) then [] else segment 0 (n - 1) (upd a 0 x)).
Proof.
  intros Hn Hv. destruct (aget_in a n) as [x Hx]; [lia|]. exists x. split; [done|].
  rewrite (segment_cons 0 n a v) by (done || lia). case_decide as Hz.
  { subst. by rewrite segment_empty by lia. }
  apply perm_skip.
  rewrite (segment_cons 0 (n - 1) (upd a 0 x) x) by (lia || apply aget_upd_eq; lia).
  replace n with (n - 1 + 1) at 1 by lia.
  rewrite (segment_snoc (0 + 1) (n - 1) a x) by (lia || by replace (n - 1 + 1) with n by lia).
  rewrite (segment_ext (0 + 1) (n - 1) (upd a 0 x) a) by (lia || intros; apply aget_upd_ne; lia).
  by rewrite Permutation_app_comm.
Qed.

(** * heapq refines a multiset with minimum extraction *)
Section heapq_proofs.
Context {A : Type} (lt : A -> A -> bool) `{!StrictWeakOrder lt}.
Implicit Types (h : list A).

Local Abbreviation gt := (flipc lt).

(** Every node may stand before its children. *)
Definition heapq_ok h : Prop := heap_from gt 0 (alen h) h.

Lemma heapq_ok_nil : heapq_ok [].
Proof. apply heap_from_empty. unfold alen. simpl. lia. Qed.

Lemma heapq_sift_down_spec h idx : 0 <= idx -> heap_from gt (idx + 1) (alen h) h ->
  returns (heapq.sift_down lt h idx) (fun h' =>
    rperm idx (alen h - 1) h h' /\ heap_from gt idx (alen h) h').
Proof.
  intros Hi Hh. rewrite heapq_sift_down, reduce_heap_sift. apply (sift_down_spec gt); [done|lia|done].
Qed.

Lemma heapq_push_spec h v : heapq_ok h ->
  returns (heapq.push lt h v) (fun h' => heapq_ok h' /\ h' ≡ₚ v :: h).
Proof.
  intros Hok. unfold heapq.push. rewrite heapq_sift_up.
  assert (alen (h ++ [v]) = alen h + 1) as L by (unfold alen; rewrite length_app; simpl; lia).
  rewrite L. replace (alen h + 1 - 1) with (alen h) by lia. pose proof (alen_nonneg h).
  eapply returns_mono; [apply (rising_spec gt (h ++ [v]) (alen h) (alen h + 1)); [lia|lia|]|].
  - apply (heap_rising_last gt (alen h) h); [done| |done]. intros i Hi.
    rewrite <- (Z2Nat.id i), !aget_nat by lia. apply lookup_app_l. unfold alen in *. lia.
  - intros h' [Hp Hh]. split.
    + unfold heapq_ok. by rewrite (rperm_alen _ _ _ _ Hp), L.
    + rewrite <- (rperm_perm _ _ _ _ Hp). by rewrite Permutation_app_comm.
Qed.

Lemma heapq_min h x y : heapq_ok h -> h.[0] = Some x -> y ∈ h -> le lt x y.
Proof.
  intros Hok Hx Hy. apply list_elem_of_lookup in Hy as [n Hn].
  pose proof (lookup_lt_Some _ _ _ Hn). rewrite <- aget_nat in Hn.
  apply (heap_root_max gt (alen h) h (Z.of_nat n)); [lia|done|unfold alen; lia|done|done].
Qed.

Lemma heapq_pop_spec h : heapq_ok h -> h <> [] ->
  returns (heapq.pop lt h) (fun r => exists m h', r = inr (m, h') /\
    heapq_ok h' /\ h ≡ₚ m :: h' /\ forall y, y ∈ h -> le lt m y).
Proof.
  intros Hok Hne. assert (0 < alen h) as Hpos by (destruct h; [done|unfold alen; simpl; lia]).
  unfold heapq.pop. rewrite (proj2 (Z.eqb_neq (alen h) 0)) by lia.
  apply returns_get; [lia|]. intros m Hm.
  destruct (perm_pop h m (alen h - 1)) as (x & Hx & Hperm); [lia|done|].
  rewrite Hx. simpl. rewrite segment_full in Hperm. apply returns_set; [lia|].
  assert (take (length (upd h 0 x) - 1) (upd h 0 x) = segment 0 (alen h - 1 - 1) (upd h 0 x)) as ->.
  { unfold segment. rewrite drop_0. f_equal. unfold upd, alen in *. rewrite length_insert. lia. }
  set (h1 := segment 0 (alen h - 1 - 1) (upd h 0 x)) in *.
  assert (alen h1 = alen h - 1) as L1.
  { unfold h1. rewrite alen_segment; rewrite ?alen_upd; lia. }
  assert (forall h2, rperm 0 (alen h1 - 1) h1 h2 -> h ≡ₚ m :: h2) as Hfin.
  { intros h2 R. rewrite Hperm. case_decide.
    - assert (h2 = []) as ->; [|done]. apply nil_length_inv.
      pose proof (rperm_alen _ _ _ _ R). unfold alen in *. lia.
    - by rewrite (rperm_perm _ _ _ _ R). }
  apply (returns_bind _ _ (fun h2 => rperm 0 (alen h1 - 1) h1 h2 /\ heap_from gt 0 (alen h1) h2)).
  { apply returns_if; intros Hz.
    - apply heapq_sift_down_spec; [done|]. apply (heap_from_ext gt 1 (alen h1) h); [lia| |].
      + intros i Hi. unfold h1. rewrite aget_segment by lia. rewrite decide_True by lia.
        rewrite Z.add_0_l. apply aget_upd_ne; lia.
      + apply (heap_from_mono gt 1 (alen h)); [lia|]. intros i c u v ?. apply Hok. lia.
    - apply returns_ret. split; [auto with sort|]. apply heap_from_empty.
      apply negb_false_iff, Z.eqb_eq in Hz. lia. }
  intros h2 [R Hh2]. apply returns_ret. exists m, h2. split_and!; [done| |by apply Hfin|].
  - unfold heapq_ok. by rewrite (rperm_alen _ _ _ _ R).
  - intros y. by apply heapq_min.
Qed.

Lemma heapq_pop_top h m h' : heapq.pop lt h = Some (inr (m, h')) -> heapq.top h = Some (inr m).
Proof.
  unfold heapq.pop, heapq.top. destruct (alen h =? 0); [done|].
  destruct (h.[0]) as [x|]; [|done]. simpl. destruct (h.[alen h - 1]) as [y|]; [|done]. simpl.
  destruct (aset h 0 y) as [h1|]; [|done]. simpl.
  destruct (if negb _ then _ else _); [|done]. simpl. by intros [= -> _].
Qed.

Lemma heapq_of_vector_spec v :
  returns (heapq.of_vector lt v) (fun h => heapq_ok h /\ h ≡ₚ v).
Proof.
  unfold heapq.of_vector. pose proof (alen_nonneg v).
  pose proof (Z.div_mod (alen v) 2 ltac:(lia)). pose proof (Z.mod_pos_bound (alen v) 2 ltac:(lia)).
  apply (returns_for_down _ _ _ (fun i h => rperm 0 (alen v - 1) v h /\ heap_from gt i (alen v) h)); [lia| | |].
  - split; [auto with sort|]. apply heap_from_empty. lia.
  - intros i h Hi [R Hh]. pose proof (rperm_alen _ _ _ _ R) as L.
    eapply returns_mono; [apply heapq_sift_down_spec; [lia|by rewrite L]|]. rewrite L.
    intros h' [R' Hh']. split; [|done]. eapply rperm_trans; [done|]. eapply rperm_mono; [| |done]; lia.
  - intros h [R Hh]. split; [|symmetry; by eapply rperm_perm].
    unfold heapq_ok. by rewrite (rperm_alen _ _ _ _ R).
Qed.
End heapq_proofs.

(** * binary_heap *)
Section binary_heap_proofs.
Context {A : Type} (lt : A -> A -> bool) `{!StrictWeakOrder lt}.
Implicit Types (h : binary_heap.t A).

Import binary_heap.

Definition elements h : list A := segment 0 (length h - 1) (memory h).

Definition bheap_ok h : Prop :=
  0 <= length h <= capacity h /\ heap_from lt 0 (length h) (memory h).

Lemma elements_length h : bheap_ok h -> alen (elements h) = size h.
Proof. intros [Hl _]. unfold elements, size. unfold capacity in Hl. rewrite alen_segment; lia. Qed.

Lemma elements_max h x y : bheap_ok h -> (memory h).[0] = Some x -> y ∈ elements h -> le lt y x.
Proof.
  intros [Hl Hok] Hx Hy. apply segment_elem in Hy as (k & Hk & Hy); [|lia].
  apply (heap_root_max lt (length h) (memory h) k); (done || unfold capacity in Hl; lia).
Qed.

Lemma insert_spec h v : bheap_ok h -> length h < capacity h ->
  returns (insert lt h v) (fun h' => bheap_ok h' /\ elements h' ≡ₚ v :: elements h).
Proof.
  intros [Hl Hh] Hroom. unfold insert. rewrite (proj2 (Z.eqb_neq _ _)) by lia.
  unfold capacity in *. apply returns_set; [lia|].
  eapply returns_bind.
  { apply (rising_spec lt _ (length h) (length h + 1)); [lia|rewrite alen_upd; lia|].
    apply (heap_rising_last lt (length h) (memory h)); [lia| |done].
    intros i Hi. apply aget_upd_ne; lia. }
  intros m [R Hm]. apply returns_ret. pose proof (rperm_alen _ _ _ _ R) as L. rewrite alen_upd in L.
  split; [split; [unfold capacity; simpl; lia|done]|].
  unfold elements. simpl. rewrite <- (rperm_segment 0 (length h + 1 - 1) _ _) by (done || lia).
  replace (length h + 1 - 1) with (length h - 1 + 1) by lia.
  rewrite (segment_snoc 0 (length h - 1) _ v).
  - rewrite (segment_ext 0 (length h - 1) _ (memory h)) by (lia || intros; apply aget_upd_ne; lia).
    by rewrite Permutation_app_comm.
  - lia.
  - replace (length h - 1 + 1) with (length h) by lia. apply aget_upd_eq. lia.
Qed.

Lemma get_spec h : bheap_ok h -> 0 < length h ->
  returns (get lt h) (fun r => exists m h', r = inr (m, h') /\
    bheap_ok h' /\ elements h ≡ₚ m :: elements h' /\ forall y, y ∈ elements h -> le lt y m).
Proof.
  intros Hok Hpos. pose proof Hok as [Hl Hh]. unfold capacity in Hl.
  unfold get. rewrite (proj2 (Z.eqb_neq _ _)) by lia.
  apply returns_get; [lia|]. intros v Hv.
  destruct (perm_pop (memory h) v (length h - 1)) as (x & Hx & Hperm); [lia|done|].
  set (m1 := if decide (length h - 1 = 0) then memory h else upd (memory h) 0 x).
  apply (returns_bind _ _ (fun m => m = m1)).
  { unfold m1. rewrite Hx. simpl. apply returns_if; intros Hz.
    - apply negb_true_iff, Z.eqb_neq in Hz. rewrite decide_False by done. by apply returns_set_tail; [lia|].
    - apply negb_false_iff, Z.eqb_eq in Hz. rewrite decide_True by done. by apply returns_ret. }
  intros m ->.
  assert (length h - 1 <> 0 -> m1 = upd (memory h) 0 x) as E1 by (intros; unfold m1; by rewrite decide_False).
  assert (alen m1 = alen (memory h)) as L1 by (unfold m1; case_decide; by rewrite ?alen_upd).
  rewrite reduce_heap_sift. eapply returns_bind.
  { apply (sift_down_spec lt m1 0 (length h - 1)); [lia|lia|].
    apply (heap_from_ext lt 1 (length h - 1) (memory h)); [lia| |].
    - intros i Hi. unfold m1. case_decide; [done|]. apply aget_upd_ne; lia.
    - apply (heap_from_mono lt 1 (length h)); [lia|]. intros i c a b ?. apply Hh. lia. }
  intros m2 [R Hm2]. apply returns_ret. pose proof (rperm_alen _ _ _ _ R) as L2.
  eexists _, _. split_and!; [done| | |].
  - split; [unfold capacity; simpl; lia|done].
  - unfold elements. rewrite Hperm. simpl. apply perm_skip.
    case_decide as Hz.
    + by rewrite segment_empty by lia.
    + rewrite (E1 Hz) in R. apply rperm_segment; [lia|lia|done].
  - intros y Hy. by eapply elements_max.
Qed.
End binary_heap_proofs.
