(* ===== verification/Extract.v ===== *)
(** The extraction adaptors of [src/sort/extract.hpp]: [sorted] copies the
    elements of an iterable container into a vector and sorts it,
    [sort_into] appends them sorted to an output container, and
    [drain_sorted] empties a heap.

    [drain_sorted] is a template over the concept [is_extractable_heap]
    ([src/concepts.hpp]): the class [ExtractableHeap] has its two operations
    and [ExtractsFirst] the contract the client needs; [binary_heap]
    discharges it. *)
From stdpp Require Import base numbers list option sorting.
From Stdlib Require Import ZArith Lia.
From S2P Require Import Prelude Arrays SortSpec SortHeap SortQuick PriorityQueue.

Local Open Scope Z_scope.

(** The requirements of the concept: [h.size()] and one of
    [h.extract_min()], [h.get()], [h.pop()]. *)
Class ExtractableHeap (H A : Type) := {
  h_size : H -> Z;
  h_extract : H -> option (exception + A * H);
}.

#[export] Instance binary_heap_extractable {A} (lt : A -> A -> bool) :
    ExtractableHeap (binary_heap.t A) A := {
  h_size := binary_heap.size;
  h_extract := binary_heap.get lt;
}.

Section code.
Context {A : Type}.

(** [sorted(c, comp)]; [c] is the sequence its iterators visit. *)
Definition sorted (comp : A -> A -> bool) (c : list A) : option (list A) :=
  let out := foldl (fun out e => out ++ [e]) [] c in
  sort comp out.

Definition sort_into (comp : A -> A -> bool) (c out : list A) : option (list A) :=
  s ← sorted comp c;
  Some (foldl (fun out e => out ++ [e]) out s).

Context {H : Type} `{!ExtractableHeap H A}.

Definition drain_sorted (h : H) : option (exception + list A * H) :=
  while_ (S (Z.to_nat (h_size h))) (fun '(out, h) =>
    if 0 <? h_size h then
      r ← h_extract h;
      match r with
      | inl e => Some (inr (inl e))
      | inr (x, h') => Some (inl (out ++ [x], h'))
      end
    else Some (inr (inr (out, h)))) ([], h).
End code.

(** What a heap promises to [drain_sorted]: on a valid heap the size counts
    the elements and a non-empty heap yields the element that comes first in
    [comp], and keeps the others. *)
Class ExtractsFirst (H A : Type) `{!ExtractableHeap H A} (comp : A -> A -> bool) := {
  h_ok : H -> Prop;
  h_elements : H -> list A;
  h_size_spec h : h_ok h -> h_size h = alen (h_elements h);
  h_extract_spec h : h_ok h -> 0 < h_size h ->
    returns (h_extract h) (fun r => exists x h', r = inr (x, h') /\
      h_ok h' /\ h_elements h ≡ₚ x :: h_elements h' /\
      forall y, y ∈ h_elements h -> le comp x y);
}.

#[export] Program Instance binary_heap_extracts {A} (lt : A -> A -> bool) `{!StrictWeakOrder lt} :
    @ExtractsFirst (binary_heap.t A) A (binary_heap_extractable lt) (flipc lt) := {
  h_ok := bheap_ok lt;
  h_elements := elements;
}.
Next Obligation. intros. symmetry. by eapply elements_length. Qed.
Next Obligation. intros A lt ? h Hok Hpos. by apply get_spec. Qed.

Lemma foldl_push_back {A} (c out : list A) : foldl (fun out e => out ++ [e]) out c = out ++ c.
Proof.
  revert out. induction c as [|x c IH]; intros out; simpl; [by rewrite app_nil_r|].
  by rewrite IH, <- app_assoc.
Qed.

Section sorted_proofs.
Context {A : Type} (comp : A -> A -> bool) `{!StrictWeakOrder comp}.

Lemma sorted_spec c : returns (sorted comp c) (sorts comp c).
Proof. unfold sorted. rewrite foldl_push_back. by apply (sort_spec comp). Qed.

Lemma sort_into_spec c out :
  returns (sort_into comp c out) (fun r => exists s, r = out ++ s /\ sorts comp c s).
Proof.
  eapply returns_bind; [apply sorted_spec|]. intros s Hs. apply returns_ret.
  exists s. by rewrite foldl_push_back.
Qed.
End sorted_proofs.

Section drain_proofs.
Context {H A : Type} (comp : A -> A -> bool).
Context `{!ExtractableHeap H A, !ExtractsFirst H A comp}.

Definition drain_inv (h0 : H) (s : list A * H) : Prop :=
  let '(out, h) := s in
  h_ok h /\ h_elements h0 ≡ₚ out ++ h_elements h /\ StronglySorted (le comp) out /\
  forall x y, x ∈ out -> y ∈ h_elements h -> le comp x y.

Lemma StronglySorted_push (out : list A) x :
  StronglySorted (le comp) out -> (forall y, y ∈ out -> le comp y x) ->
  StronglySorted (le comp) (out ++ [x]).
Proof.
  intros Hs Hx. induction Hs as [|y out Hs IH Hy]; simpl; [repeat constructor|].
  constructor.
  - apply IH. intros z Hz. apply Hx. by right.
  - apply Forall_app. split; [done|]. constructor; [|done]. apply Hx. by left.
Qed.

Lemma drain_inv_step h0 out h x h' :
  drain_inv h0 (out, h) -> h_ok h' -> h_elements h ≡ₚ x :: h_elements h' ->
  (forall y, y ∈ h_elements h -> le comp x y) -> drain_inv h0 (out ++ [x], h').
Proof.
  intros (Hok & Hperm & Hs & Hle) Hok' Hp Hx. split_and!; [done| | |].
  - by rewrite Hperm, Hp, <- app_assoc.
  - apply StronglySorted_push; [done|]. intros y Hy. apply Hle; [done|]. rewrite Hp. by left.
  - intros u v Hu Hv. assert (v ∈ h_elements h) as Hv' by (rewrite Hp; by right).
    apply elem_of_app in Hu as [Hu|Hu]; [by apply Hle|].
    apply list_elem_of_singleton in Hu as ->. by apply Hx.
Qed.

Lemma drain_sorted_spec h : h_ok h ->
  returns (drain_sorted h) (fun r => exists out h', r = inr (out, h') /\
    sorts comp (h_elements h) out /\ h_ok h' /\ h_elements h' = []).
Proof.
  intros Hok0. unfold drain_sorted.
  apply (returns_while _ _ _ (drain_inv h) (fun '(_, h) => h_size h)).
  - split_and!; [done|done|constructor|]. by intros x y ?%not_elem_of_nil.
  - rewrite h_size_spec by done. pose proof (alen_nonneg (h_elements h)). lia.
  - intros [out g] Hinv. pose proof Hinv as (Hok & Hp & Hs & Hle).
    apply returns_if; intros Hc.
    + apply Z.ltb_lt in Hc. eapply returns_bind; [by apply h_extract_spec|].
      intros r (x & g' & -> & Hok' & Hp' & Hx). apply returns_ret. split.
      * by eapply drain_inv_step.
      * rewrite !h_size_spec by done. unfold alen. rewrite Hp'. simpl. lia.
    + apply Z.ltb_ge in Hc. rewrite h_size_spec in Hc by done.
      assert (h_elements g = []) as Hnil.
      { apply nil_length_inv. unfold alen in Hc. lia. }
      apply returns_ret. exists out, g. split_and!; [done| |done|done].
      split; [|done]. by rewrite Hp, Hnil, app_nil_r.
Qed.
End drain_proofs.

(** * The queues and their client *)
Section theorems.
Context {A : Type} (lt : A -> A -> bool) `{!StrictWeakOrder lt}.

Lemma bheap_insert_full h v : binary_heap.length h = binary_heap.capacity h ->
  binary_heap.insert lt h v = Some h.
Proof. intros E. unfold binary_heap.insert. by rewrite E, Z.eqb_refl. Qed.

Lemma bheap_get_empty h : binary_heap.length h = 0 ->
  binary_heap.get lt h = Some (inl library_error).
Proof. intros E. unfold binary_heap.get. by rewrite E. Qed.

Lemma heapq_queue (v h : list A) (x : A) : heapq_ok lt h ->
  returns (heapq.of_vector lt v) (fun h' => heapq_ok lt h' /\ h' ≡ₚ v) /\
  returns (heapq.push lt h x) (fun h' => heapq_ok lt h' /\ h' ≡ₚ x :: h) /\
  (h <> [] -> returns (heapq.pop lt h) (fun r => exists m h', r = inr (m, h') /\
     heapq.top h = Some (inr m) /\
     heapq_ok lt h' /\ h ≡ₚ m :: h' /\ forall y, y ∈ h -> le lt m y)) /\
  heapq.pop lt [] = Some (inl library_error) /\
  heapq.top (A := A) [] = Some (inl library_error).
Proof.
  intros Hok. split_and!; [apply (heapq_of_vector_spec lt)|by apply (heapq_push_spec lt)| |done|done].
  intros Hne. destruct (heapq_pop_spec lt h Hok Hne) as (r & E & m & h' & -> & Hok' & Hp & Hm).
  exists (inr (m, h')). split; [done|]. exists m, h'. split_and!; [done| |done|done|done].
  by eapply heapq_pop_top.
Qed.

(** C6: The two heaps are priority queues.  [heapq]: building it from a vector gives a
    valid heap of the same elements; on a valid heap [push] adds one element, [pop]
    removes a minimum and keeps the rest, both leave a valid heap, and [top] reads the
    element [pop] would remove; on the empty queue [pop] and [top] throw.
    [binary_heap], bounded: [insert] adds the element while there is room and changes
    nothing on a full heap, [get] removes a maximum and keeps the rest, both preserve
    the heap invariant and the bound by the capacity, and [get] on an empty heap
    throws. *)
Theorem heaps_are_priority_queues (v h : list A) (bh : binary_heap.t A) (x : A) : heapq_ok lt h -> bheap_ok lt bh ->
  (returns (heapq.of_vector lt v) (fun h' => heapq_ok lt h' /\ h' ≡ₚ v) /\
   returns (heapq.push lt h x) (fun h' => heapq_ok lt h' /\ h' ≡ₚ x :: h) /\
   (h <> [] -> returns (heapq.pop lt h) (fun r => exists m h', r = inr (m, h') /\
      heapq.top h = Some (inr m) /\
      heapq_ok lt h' /\ h ≡ₚ m :: h' /\ forall y, y ∈ h -> le lt m y)) /\
   heapq.pop lt [] = Some (inl library_error) /\
   heapq.top (A := A) [] = Some (inl library_error)) /\
  (binary_heap.size bh < binary_heap.capacity bh ->
     returns (binary_heap.insert lt bh x) (fun h' =>
       bheap_ok lt h' /\ elements h' ≡ₚ x :: elements bh)) /\
  (binary_heap.size bh = binary_heap.capacity bh -> binary_heap.insert lt bh x = Some bh) /\
  (0 < binary_heap.size bh ->
     returns (binary_heap.get lt bh) (fun r => exists m h', r = inr (m, h') /\
       bheap_ok lt h' /\ elements bh ≡ₚ m :: elements h' /\
       forall y, y ∈ elements bh -> le lt y m)) /\
  (binary_heap.size bh = 0 -> binary_heap.get lt bh = Some (inl library_error)).
Proof.
  intros Hh Hok. split; [by apply heapq_queue|]. split_and!.
  - by apply (insert_spec lt).
  - apply bheap_insert_full.
  - by apply (get_spec lt).
  - apply bheap_get_empty.
Qed.

(** C5: [drain_sorted] on any heap that extracts the first element in [comp]
    (the contract [binary_heap] discharges for the reversed order)
    terminates, returns the elements of the heap sorted by [comp], and
    leaves the heap empty. *)
Theorem drain_sorted_sorts {H} `{!ExtractableHeap H A, !ExtractsFirst H A lt} (h : H) : h_ok h ->
  returns (drain_sorted h) (fun r => exists out h', r = inr (out, h') /\
    sorts lt (h_elements h) out /\ h_ok h' /\ h_elements h' = []).
Proof. exact (drain_sorted_spec lt h). Qed.
End theorems.

(** ** Witnesses *)

Definition heap3 : binary_heap.t Z := binary_heap.mk [9; 4; 7; 0] 3.

Lemma heap3_ok : bheap_ok Z.ltb heap3.
Proof.
  split; [by vm_compute|]. intros i c x y Hi Hc Hn. simpl in Hn.
  assert (i = 0 /\ (c = 1 \/ c = 2)) as [-> [-> | ->]] by (destruct Hc; lia);
    cbn; intros [= <-] [= <-]; reflexivity.
Qed.

Lemma heaps_are_priority_queues_witness :
  returns (heapq.push Z.ltb [] 5) (fun h' => heapq_ok Z.ltb h' /\ h' ≡ₚ [5]) /\
  returns (binary_heap.insert Z.ltb heap3 8) (fun h' =>
    bheap_ok Z.ltb h' /\ elements h' ≡ₚ 8 :: elements heap3) /\
  binary_heap.insert Z.ltb heap3 8 = Some (binary_heap.mk [9; 8; 7; 4] 4).
Proof.
  split; [|split; [|by vm_compute]].
  - apply (heaps_are_priority_queues Z.ltb [] [] heap3 5); [apply heapq_ok_nil|apply heap3_ok].
  - apply (heaps_are_priority_queues Z.ltb [] [] heap3 8); [apply heapq_ok_nil|apply heap3_ok|by vm_compute].
Defined.

Lemma drain_sorted_sorts_witness :
  returns (@drain_sorted Z _ (binary_heap_extractable Z.ltb) heap3) (fun r => exists out h', r = inr (out, h') /\
    sorts (flipc Z.ltb) [9; 4; 7] out /\ bheap_ok Z.ltb h' /\ elements h' = []).
Proof.
  apply (@drain_sorted_sorts Z (flipc Z.ltb) _ (binary_heap_extractable Z.ltb) (binary_heap_extracts Z.ltb) heap3).
  apply heap3_ok.
Defined.
