(* ===== verification/Calendar.v ===== *)
(** The proleptic Gregorian calendar of [src/chrono/calendar.hpp].

    Years are [i32], months and days [u32], day numbers [i64]; [/] and [%] on
    signed operands truncate ([Z.quot], [Z.rem]) and the casts of the code are
    explicit wraps.  A reference calendar that only knows the length of each
    month ([next_day]) specifies the conversion. *)
From stdpp Require Import base numbers list option.
From Stdlib Require Import ZArith Lia.
From S2P Require Import Prelude.

Local Open Scope Z_scope.

Definition floor_div (a b : Z) : Z :=
  let q := Z.quot a b in
  if negb (Z.rem a b =? 0) && xorb (a <? 0) (b <? 0) then q - 1 else q.

Definition floor_mod (a b : Z) : Z := a - floor_div a b * b.

Record civil_date := mk_date { cd_y : Z; cd_m : Z; cd_d : Z }.

#[export] Instance civil_date_eq_dec : EqDecision civil_date.
Proof. solve_decision. Defined.

Definition is_leap (y : Z) : bool :=
  ((Z.rem y 4 =? 0) && negb (Z.rem y 100 =? 0)) || (Z.rem y 400 =? 0).

Definition __dm (m : Z) : Z :=
  default 0 ([0; 31; 28; 31; 30; 31; 30; 31; 31; 30; 31; 30; 31] !! Z.to_nat m).

Definition days_in_month (y m : Z) : Z :=
  if m =? 2 then (if is_leap y then 29 else 28)
  else if (1 <=? m) && (m <=? 12) then __dm m else 0.

Definition days_in_year (y : Z) : Z := if is_leap y then 366 else 365.

Definition days_from_civil (y_ m d : Z) : Z :=
  let y := y_ - (if m <=? 2 then 1 else 0) in
  let era := floor_div y 400 in
  let yoe := y - era * 400 in
  let doy := Z.quot (153 * (m + (if 2 <? m then -3 else 9)) + 2) 5 + d - 1 in
  let doe := yoe * 365 + Z.quot yoe 4 - Z.quot yoe 100 + doy in
  era * 146097 + doe - 719468.

Definition civil_from_days (z : Z) : civil_date :=
  let z := z + 719468 in
  let era := floor_div z 146097 in
  let doe := z - era * 146097 in
  let yoe := Z.quot (doe - Z.quot doe 1460 + Z.quot doe 36524 - Z.quot doe 146096) 365 in
  let y := yoe + era * 400 in
  let doy := doe - (365 * yoe + Z.quot yoe 4 - Z.quot yoe 100) in
  let mp := Z.quot (5 * doy + 2) 153 in
  let d := wrap 32 (doy - Z.quot (153 * mp + 2) 5 + 1) in
  let m := wrap 32 (if mp <? 10 then mp + 3 else mp - 9) in
  mk_date (swrap 32 (y + (if m <=? 2 then 1 else 0))) m d.

Definition civil_valid (y m d : Z) : bool :=
  (1 <=? m) && (m <=? 12) && (1 <=? d) && (d <=? days_in_month y m).

Definition weekday_from_days (z : Z) : Z := wrap 32 (floor_mod (z + 4) 7).

Definition weekday_of (y m d : Z) : Z := weekday_from_days (days_from_civil y m d).

Definition iso_weekday_of (y m d : Z) : Z :=
  let w := weekday_of y m d in if w =? 0 then 7 else w.

Definition day_of_year (y m d : Z) : Z :=
  wrap 32 (days_from_civil y m d - days_from_civil y 1 1 + 1).

Record iso_week := mk_iso { iso_year : Z; iso_wk : Z; iso_weekday : Z }.

Definition iso_week_date (y m d : Z) : iso_week :=
  let z := days_from_civil y m d in
  let wd := wrap 32 (wrap 32 (floor_mod (z + 3) 7) + 1) in
  let thursday := z + (4 - wd) in
  let tc := civil_from_days thursday in
  let jan1 := days_from_civil (cd_y tc) 1 1 in
  mk_iso (cd_y tc) (wrap 32 (Z.quot (thursday - jan1) 7 + 1)) wd.

(** The public wrapper. *)
Module year_month_day.
Definition from_unix (unix_sec : Z) : civil_date := civil_from_days (floor_div unix_sec 86400).

Definition from_days (days : Z) : civil_date := civil_from_days days.

Definition to_days (c : civil_date) : Z := days_from_civil (cd_y c) (cd_m c) (cd_d c).

Definition to_unix (c : civil_date) : Z := to_days c * 86400.

Definition ok (c : civil_date) : bool := civil_valid (cd_y c) (cd_m c) (cd_d c).

Definition weekday (c : civil_date) : Z := weekday_from_days (to_days c).

Definition day_of_year (c : civil_date) : Z := day_of_year (cd_y c) (cd_m c) (cd_d c).
End year_month_day.

(** * Reference calendar *)

Definition next_day (c : civil_date) : civil_date :=
  if cd_d c <? days_in_month (cd_y c) (cd_m c) then mk_date (cd_y c) (cd_m c) (cd_d c + 1)
  else if cd_m c <? 12 then mk_date (cd_y c) (cd_m c + 1) 1
  else mk_date (cd_y c + 1) 1 1.

(** Chronological order of dates. *)
Definition date_lt (a b : civil_date) : Prop :=
  cd_y a < cd_y b \/ cd_y a = cd_y b /\ (cd_m a < cd_m b \/ cd_m a = cd_m b /\ cd_d a < cd_d b).

Definition ok_date (c : civil_date) : Prop := civil_valid (cd_y c) (cd_m c) (cd_d c) = true.

(** The day numbers whose year fits [i32]. *)
Definition day_range (z : Z) : Prop :=
  days_from_civil (- 2 ^ 31) 1 1 <= z <= days_from_civil (2 ^ 31 - 1) 12 31.

(** * Arithmetic *)

(** [lia] with the defining equations of division by constants. *)
Ltac divlia := Z.to_euclidean_division_equations; lia.

Lemma floor_div_spec a b : 0 < b -> floor_div a b = a / b.
Proof.
  intros Hb. unfold floor_div.
  pose proof (Z.quot_rem' a b) as E. pose proof (Z.rem_bound_abs a b ltac:(lia)) as Ha.
  rewrite (proj2 (Z.ltb_ge b 0)), xorb_false_r by lia.
  destruct (Z.eqb_spec (Z.rem a b) 0) as [E0|E0]; simpl.
  - rewrite E0 in E. apply Z.div_unique_exact; lia.
  - destruct (Z.ltb_spec a 0).
    + pose proof (Z.rem_nonpos a b ltac:(lia) ltac:(lia)).
      apply (Z.div_unique_pos a b _ (Z.rem a b + b)); lia.
    + pose proof (Z.rem_nonneg a b ltac:(lia) ltac:(lia)).
      apply (Z.div_unique_pos a b _ (Z.rem a b)); lia.
Qed.

Lemma floor_mod_spec a b : 0 < b -> floor_mod a b = a mod b.
Proof. intros. unfold floor_mod. rewrite floor_div_spec by done. rewrite Z.mod_eq by lia. lia. Qed.

Lemma rem_mod_zero y k : 0 < k -> (Z.rem y k =? 0) = (y mod k =? 0).
Proof.
  intros Hk. apply eq_bool_prop_intro. rewrite !Is_true_true, !Z.eqb_eq.
  rewrite Z.rem_divide, Z.mod_divide by lia. done.
Qed.

Lemma is_leap_spec y :
  is_leap y = ((y mod 4 =? 0) && negb (y mod 100 =? 0)) || (y mod 400 =? 0).
Proof. unfold is_leap. by rewrite !rem_mod_zero by lia. Qed.

(** * Years within an era

    Years start in March: the leap day is the last day of year [yoe], that is,
    of February of the civil year [yoe + 1]. *)

Definition leap_days (y : Z) : Z := if is_leap y then 1 else 0.

Definition year_start (yoe : Z) : Z := 365 * yoe + yoe / 4 - yoe / 100.

Definition year_len (yoe : Z) : Z := 365 + leap_days (yoe + 1).

Definition year_estimate (doe : Z) : Z := (doe - doe / 1460 + doe / 36524 - doe / 146096) / 365.

Lemma year_estimate_mono a b : 0 <= a <= b -> year_estimate a <= year_estimate b.
Proof.
  intros Hab. unfold year_estimate. apply Z.div_le_mono; [lia|].
  assert (b / 1460 - a / 1460 <= b - a) by divlia.
  assert (b / 146096 - a / 146096 <= b / 36524 - a / 36524).
  { change 146096 with (36524 * 4). rewrite <- !Z.div_div by lia.
    pose proof (Z.div_le_mono a b 36524 ltac:(lia) ltac:(lia)) as Hm.
    revert Hm. generalize (a / 36524) as u, (b / 36524) as v. intros. divlia. }
  lia.
Qed.

Definition year_estimate_ok (yoe : Z) : bool :=
  (year_estimate (year_start yoe) =? yoe) &&
  (year_estimate (year_start yoe + year_len yoe - 1) =? yoe).

Lemma year_estimate_ends : forallb year_estimate_ok (seqZ 0 400) = true.
Proof. by vm_compute. Qed.

Lemma leap_days_range y : 0 <= leap_days y <= 1.
Proof. unfold leap_days. destruct (is_leap y); lia. Qed.

Lemma leap_days_count y : leap_days y = (y / 4 - (y - 1) / 4) - (y / 100 - (y - 1) / 100) + (y / 400 - (y - 1) / 400).
Proof.
  unfold leap_days. rewrite is_leap_spec.
  assert (forall k, 0 < k -> y / k - (y - 1) / k = if y mod k =? 0 then 1 else 0) as D.
  { intros k Hk. destruct (Z.eqb_spec (y mod k) 0) as [E|E].
    - rewrite (Z.div_mod y k) at 2 by lia. rewrite E.
      replace (k * (y / k) + 0 - 1) with ((k - 1) + (y / k - 1) * k) by lia.
      rewrite Z.div_add, (Z.div_small (k - 1)) by lia. lia.
    - rewrite (Z.div_mod y k) at 2 by lia. pose proof (Z.mod_pos_bound y k Hk).
      replace (k * (y / k) + y mod k - 1) with ((y mod k - 1) + (y / k) * k) by lia.
      rewrite Z.div_add, (Z.div_small (y mod k - 1)) by lia. lia. }
  rewrite !D by lia.
  destruct (Z.eqb_spec (y mod 4) 0), (Z.eqb_spec (y mod 100) 0), (Z.eqb_spec (y mod 400) 0);
    simpl; try lia; divlia.
Qed.

Lemma year_start_succ yoe : 0 <= yoe < 399 -> year_start (yoe + 1) = year_start yoe + year_len yoe.
Proof.
  intros. unfold year_start, year_len. rewrite leap_days_count.
  replace (yoe + 1 - 1) with yoe by lia.
  rewrite (Z.div_small (yoe + 1) 400), (Z.div_small yoe 400) by lia. lia.
Qed.

Lemma year_estimate_at yoe : 0 <= yoe <= 399 ->
  year_estimate (year_start yoe) = yoe /\ year_estimate (year_start yoe + year_len yoe - 1) = yoe.
Proof.
  intros Hy. pose proof year_estimate_ends as H0. rewrite forallb_forall in H0.
  specialize (H0 yoe). unfold year_estimate_ok in H0.
  rewrite <- list_elem_of_In, elem_of_seqZ, andb_true_iff, !Z.eqb_eq in H0.
  apply H0. lia.
Qed.

(** The closed form of [civil_from_days] for the year within the era. *)
Lemma year_estimate_spec yoe doe : 0 <= yoe <= 399 ->
  year_start yoe <= doe < year_start yoe + year_len yoe -> year_estimate doe = yoe.
Proof.
  intros Hy Hd. assert (0 <= year_start yoe) by (unfold year_start; divlia).
  destruct (year_estimate_at yoe Hy) as [E1 E2].
  pose proof (year_estimate_mono (year_start yoe) doe).
  pose proof (year_estimate_mono doe (year_start yoe + year_len yoe - 1)). lia.
Qed.

(** Every day of the era lies in the year the estimate names. *)
Lemma year_estimate_bounds doe : 0 <= doe < 146097 ->
  0 <= year_estimate doe <= 399 /\
  year_start (year_estimate doe) <= doe < year_start (year_estimate doe) + year_len (year_estimate doe).
Proof.
  intros Hd. set (y := year_estimate doe).
  assert (forall n, 0 <= n <= 399 -> 0 <= year_start n) as Hpos by (intros; unfold year_start; divlia).
  assert (0 <= y <= 399) as Hy.
  { pose proof (year_estimate_mono 0 doe). pose proof (year_estimate_mono doe 146096).
    change (year_estimate 0) with 0 in *. change (year_estimate 146096) with 399 in *. lia. }
  split; [done|]. split; apply Z.nlt_ge || apply Z.nle_gt; intros Hc.
  - destruct (decide (y = 0)) as [E|]; [rewrite E in Hc; change (year_start 0) with 0 in Hc; lia|].
    pose proof (year_start_succ (y - 1) ltac:(lia)) as E. replace (y - 1 + 1) with y in E by lia.
    pose proof (year_estimate_at (y - 1) ltac:(lia)) as [_ E2].
    pose proof (year_estimate_mono doe (year_start (y - 1) + year_len (y - 1) - 1)). lia.
  - destruct (decide (y = 399)) as [E|].
    { rewrite E in Hc. change (year_start 399 + year_len 399) with 146097 in Hc. lia. }
    pose proof (year_start_succ y ltac:(lia)) as E.
    pose proof (year_estimate_at (y + 1) ltac:(lia)) as [E2 _].
    pose proof (year_estimate_mono (year_start (y + 1)) doe). 
    specialize (Hpos (y + 1) ltac:(lia)). lia.
Qed.

(** * Months within a year *)

Definition month_start (mp : Z) : Z := (153 * mp + 2) / 5.

Definition month_index (m : Z) : Z := if 2 <? m then m - 3 else m + 9.

Definition month_of (doy : Z) : Z := (5 * doy + 2) / 153.

Lemma month_of_spec mp doy : month_start mp <= doy < month_start (mp + 1) -> month_of doy = mp.
Proof. unfold month_start, month_of. intros. divlia. Qed.

Lemma month_of_bounds doy : 0 <= doy <= 365 ->
  0 <= month_of doy <= 11 /\ month_start (month_of doy) <= doy < month_start (month_of doy + 1).
Proof. unfold month_start, month_of. intros. divlia. Qed.

(** * Closed forms

    [year_day0 y] is the number of days from 0000-03-01 to the first of March
    of year [y]. *)

Definition year_day0 (y : Z) : Z := 365 * y + y / 4 - y / 100 + y / 400.

Definition march_year (y m : Z) : Z := y - (if m <=? 2 then 1 else 0).

Definition march_day (m d : Z) : Z := month_start (month_index m) + d - 1.

Lemma year_day0_era era yoe : 0 <= yoe <= 399 ->
  year_day0 (yoe + era * 400) = era * 146097 + year_start yoe.
Proof. unfold year_day0, year_start. intros. divlia. Qed.

Lemma year_day0_succ y : year_day0 (y + 1) = year_day0 y + year_len y.
Proof.
  unfold year_day0, year_len. rewrite leap_days_count. replace (y + 1 - 1) with y by lia. lia.
Qed.

Lemma year_day0_mono a b : a <= b -> year_day0 a + 365 * (b - a) <= year_day0 b.
Proof.
  intros Hab. unfold year_day0.
  assert (a / 4 - a / 100 <= b / 4 - b / 100).
  { change 100 with (4 * 25). rewrite <- !Z.div_div by lia.
    pose proof (Z.div_le_mono a b 4 ltac:(lia) ltac:(lia)) as Hm.
    revert Hm. generalize (a / 4) as u, (b / 4) as v. intros. divlia. }
  pose proof (Z.div_le_mono a b 400 ltac:(lia) ltac:(lia)). lia.
Qed.

Lemma days_from_civil_closed y m d : 1 <= m ->
  days_from_civil y m d = year_day0 (march_year y m) + march_day m d - 719468.
Proof.
  intros Hm. unfold days_from_civil. fold (march_year y m).
  rewrite floor_div_spec by lia. set (Y := march_year y m).
  pose proof (Z.mod_pos_bound Y 400 ltac:(lia)) as HY. rewrite Z.mod_eq in HY by lia.
  replace (Y / 400 * 400) with (400 * (Y / 400)) by lia.
  set (yoe := Y - 400 * (Y / 400)) in *.
  replace (year_day0 Y) with (year_day0 (yoe + Y / 400 * 400)) by (f_equal; unfold yoe; lia).
  rewrite year_day0_era by lia. rewrite !Z.quot_div_nonneg by (destruct (2 <? m) eqn:?; lia).
  unfold march_day, month_start, month_index, year_start.
  destruct (Z.ltb_spec 2 m); [replace (m + -3) with (m - 3) by lia|]; lia.
Qed.

Lemma leap_days_era yoe era : leap_days (yoe + era * 400) = leap_days yoe.
Proof.
  unfold leap_days. rewrite !is_leap_spec.
  assert (forall k q, 400 = q * k -> (yoe + era * 400) mod k = yoe mod k) as E.
  { intros k q ->. rewrite Z.mul_assoc. destruct (decide (k = 0)) as [->|]; [|by apply Z.mod_add].
    by rewrite Z.mul_0_r, Z.add_0_r. }
  by rewrite (E 4 100), (E 100 4), (E 400 1).
Qed.

(** The date [doy] days after the first of March of [y]. *)
Definition date_of (y doy : Z) : civil_date :=
  let mp := month_of doy in
  let m := if mp <? 10 then mp + 3 else mp - 9 in
  mk_date (y + (if m <=? 2 then 1 else 0)) m (doy - month_start mp + 1).

Lemma civil_from_days_closed y doy :
  0 <= doy < year_len y -> in_signed 32 (cd_y (date_of y doy)) ->
  civil_from_days (year_day0 y + doy - 719468) = date_of y doy.
Proof.
  intros Hd Hr. pose proof (leap_days_range (y + 1)) as Hl. unfold civil_from_days.
  replace (year_day0 y + doy - 719468 + 719468) with (year_day0 y + doy) by lia.
  rewrite floor_div_spec by lia.
  pose proof (Z.mod_pos_bound y 400 ltac:(lia)) as Hm. pose proof (Z.div_mod y 400 ltac:(lia)) as Ey.
  set (era := y / 400) in *. set (yoe := y mod 400) in *.
  assert (year_len y = year_len yoe) as El.
  { unfold year_len. f_equal. rewrite <- (leap_days_era (yoe + 1) era). f_equal. lia. }
  assert (year_day0 y = era * 146097 + year_start yoe) as E0.
  { rewrite <- year_day0_era by lia. f_equal. lia. }
  assert (0 <= year_start yoe) by (unfold year_start; divlia).
  assert (year_start yoe + year_len yoe <= 146097).
  { unfold year_start, year_len in *. rewrite leap_days_count. divlia. }
  assert ((year_day0 y + doy) / 146097 = era) as ->.
  { symmetry. apply (Z.div_unique_pos _ _ _ (year_start yoe + doy)); lia. }
  replace (year_day0 y + doy - era * 146097) with (year_start yoe + doy) by lia.
  set (doe := year_start yoe + doy) in *.
  rewrite !(Z.quot_div_nonneg doe) by lia.
  rewrite Z.quot_div_nonneg by (Z.to_euclidean_division_equations; lia).
  fold (year_estimate doe). rewrite (year_estimate_spec yoe) by lia.
  rewrite !(Z.quot_div_nonneg yoe) by lia. fold (year_start yoe).
  replace (doe - year_start yoe) with doy by lia.
  rewrite (Z.quot_div_nonneg (5 * doy + 2)) by lia. fold (month_of doy).
  destruct (month_of_bounds doy) as [Hmp Hms]; [unfold year_len in *; lia|].
  rewrite Z.quot_div_nonneg by lia. fold (month_start (month_of doy)).
  assert (month_start (month_of doy + 1) <= month_start (month_of doy) + 31) by (unfold month_start; divlia).
  replace (yoe + era * 400) with y by lia.
  unfold date_of in *. cbn [cd_y] in Hr.
  rewrite (wrap_id 32 (if month_of doy <? 10 then month_of doy + 3 else month_of doy - 9))
    by (unfold in_unsigned; destruct (month_of doy <? 10) eqn:?; lia).
  rewrite wrap_id by (unfold in_unsigned; lia). rewrite swrap_id by (done || lia). done.
Qed.

Lemma day_split z : exists y doy, 0 <= doy < year_len y /\ z = year_day0 y + doy - 719468.
Proof.
  set (era := (z + 719468) / 146097). set (doe := (z + 719468) mod 146097).
  pose proof (Z.div_mod (z + 719468) 146097 ltac:(lia)) as Ez.
  pose proof (Z.mod_pos_bound (z + 719468) 146097 ltac:(lia)) as Hd. fold era doe in Ez, Hd.
  destruct (year_estimate_bounds doe Hd) as [Hy Hb]. set (yoe := year_estimate doe) in *.
  exists (yoe + era * 400), (doe - year_start yoe). rewrite year_day0_era by lia.
  unfold year_len. replace (yoe + era * 400 + 1) with (yoe + 1 + era * 400) by lia.
  rewrite leap_days_era. unfold year_len in Hb. lia.
Qed.

Lemma civil_valid_spec y m d : civil_valid y m d = true <-> 1 <= m <= 12 /\ 1 <= d <= days_in_month y m.
Proof. unfold civil_valid. rewrite !andb_true_iff, !Z.leb_le. lia. Qed.

(** Case analysis on a value in a small range. *)
Ltac each_value x lo hi :=
  lazymatch lo with
  | hi => replace x with hi in * by lia
  | _ => destruct (Z.eq_dec x lo) as [->|];
         [|let lo' := eval compute in (lo + 1) in each_value x lo' hi]
  end.

Lemma month_len y m : 1 <= m <= 12 -> m <> 2 ->
  days_in_month y m = month_start (month_index m + 1) - month_start (month_index m).
Proof. intros Hm H2. each_value m 1 12; try done. Qed.

Lemma month_len_feb y : days_in_month y 2 = year_len (march_year y 2) - month_start 11.
Proof.
  unfold days_in_month, march_year, year_len, leap_days. simpl.
  replace (y - 1 + 1) with y by lia. by destruct (is_leap y).
Qed.

Lemma days_in_month_range y m : 1 <= m <= 12 -> 28 <= days_in_month y m <= 31.
Proof.
  intros Hm. destruct (decide (m = 2)) as [->|].
  - unfold days_in_month. simpl. destruct (is_leap y); lia.
  - rewrite month_len by done. unfold month_index, month_start. destruct (Z.ltb_spec 2 m); divlia.
Qed.

Lemma month_index_inv m : 1 <= m <= 12 ->
  0 <= month_index m <= 11 /\
  (if month_index m <? 10 then month_index m + 3 else month_index m - 9) = m.
Proof.
  intros Hm. unfold month_index. destruct (Z.ltb_spec 2 m).
  - rewrite (proj2 (Z.ltb_lt _ _)) by lia. lia.
  - rewrite (proj2 (Z.ltb_ge _ _)) by lia. lia.
Qed.

Lemma month_start_mono a b : a <= b -> month_start a <= month_start b.
Proof. intros. unfold month_start. divlia. Qed.

Lemma march_day_spec y m d : civil_valid y m d = true ->
  0 <= march_day m d < year_len (march_year y m) /\ month_of (march_day m d) = month_index m.
Proof.
  rewrite civil_valid_spec. intros [Hm Hd]. destruct (month_index_inv m Hm) as [Hi _].
  pose proof (month_start_mono 0 (month_index m) ltac:(lia)). change (month_start 0) with 0 in *.
  unfold march_day. destruct (decide (m = 2)) as [->|Hne].
  - rewrite month_len_feb in Hd. change (month_index 2) with 11 in *.
    assert (year_len (march_year y 2) <= 366) by (pose proof (leap_days_range (march_year y 2 + 1)); unfold year_len; lia).
    split; [lia|]. apply month_of_spec. change (month_start (11 + 1)) with 367. lia.
  - rewrite month_len in Hd by done. split; [|apply month_of_spec; lia].
    assert (month_index m + 1 <= 11).
    { unfold month_index in *. destruct (Z.ltb_spec 2 m); lia. }
    pose proof (month_start_mono (month_index m + 1) 11 ltac:(lia)).
    change (month_start 11) with 337 in *.
    pose proof (leap_days_range (march_year y m + 1)). unfold year_len. lia.
Qed.

Lemma date_of_march y m d : civil_valid y m d = true ->
  date_of (march_year y m) (march_day m d) = mk_date y m d.
Proof.
  intros Hv. destruct (march_day_spec y m d Hv) as [_ E]. apply civil_valid_spec in Hv as [Hm _].
  destruct (month_index_inv m Hm) as [_ Em].
  unfold date_of. rewrite E, Em. unfold march_year, march_day. f_equal; lia.
Qed.

Lemma civil_from_days_from_civil y m d : in_signed 32 y -> civil_valid y m d = true ->
  civil_from_days (days_from_civil y m d) = mk_date y m d.
Proof.
  intros Hy Hv. pose proof Hv as [Hm _]%civil_valid_spec.
  rewrite days_from_civil_closed, civil_from_days_closed, date_of_march; [done|done|..|lia].
  - by apply march_day_spec.
  - by rewrite date_of_march.
Qed.

(** A date named by its March year and day of that year. *)
Lemma date_of_spec y doy : 0 <= doy < year_len y ->
  let c := date_of y doy in
  civil_valid (cd_y c) (cd_m c) (cd_d c) = true /\
  march_year (cd_y c) (cd_m c) = y /\ march_day (cd_m c) (cd_d c) = doy.
Proof.
  intros Hd. pose proof (leap_days_range (y + 1)).
  destruct (month_of_bounds doy) as [Hmp Hms]; [unfold year_len in *; lia|].
  unfold date_of. set (mp := month_of doy) in *. set (m := if mp <? 10 then mp + 3 else mp - 9).
  assert (1 <= m <= 12 /\ month_index m = mp) as [Hm Ei].
  { unfold m, month_index. destruct (Z.ltb_spec mp 10), (Z.ltb_spec 2 (mp + 3)), (Z.ltb_spec 2 (mp - 9)); lia. }
  cbn [cd_y cd_m cd_d].
  assert (march_year (y + (if m <=? 2 then 1 else 0)) m = y) as EY by (unfold march_year; lia).
  split_and!; [|done|unfold march_day; rewrite Ei; lia].
  apply civil_valid_spec. split; [done|]. split; [lia|].
  destruct (decide (m = 2)) as [E2|].
  - rewrite E2 in *. rewrite month_len_feb, EY. change (month_index 2) with 11 in Ei.
    rewrite <- Ei in *. lia.
  - rewrite month_len, Ei by done. lia.
Qed.

Lemma day_range_year z y doy : day_range z -> 0 <= doy < year_len y ->
  z = year_day0 y + doy - 719468 -> in_signed 32 (cd_y (date_of y doy)).
Proof.
  unfold day_range. rewrite !days_from_civil_closed by lia.
  change (march_year (- 2 ^ 31) 1) with (- 2 ^ 31 - 1). change (march_year (2 ^ 31 - 1) 12) with (2 ^ 31 - 1).
  change (march_day 1 1) with 306. change (march_day 12 31) with 305.
  intros Hz Hd E. pose proof (leap_days_range (y + 1)). unfold year_len in Hd.
  assert (- 2 ^ 31 - 1 <= y).
  { apply Z.nlt_ge. intros Hc. pose proof (year_day0_mono (y + 1) (- 2 ^ 31 - 1)).
    pose proof (year_day0_succ y). unfold year_len in *. lia. }
  assert (y <= 2 ^ 31 - 1).
  { apply Z.nlt_ge. intros Hc. pose proof (year_day0_mono (2 ^ 31 - 1) y). lia. }
  destruct (date_of_spec y doy) as (Hv & EY & ED); [unfold year_len; lia|].
  apply civil_valid_spec in Hv as [Hm Hdd].
  set (c := date_of y doy) in *. unfold march_year in EY. unfold in_signed.
  change (2 ^ (32 - 1)) with (2 ^ 31). set (lim := 2 ^ 31) in *. clearbody lim.
  assert (y = - lim - 1 -> 306 <= doy) by (intros Ey; rewrite Ey in E; lia).
  assert (y = lim - 1 -> doy <= 305) by (intros Ey; rewrite Ey in E; lia).
  unfold march_day, month_index in ED. 
  destruct (Z.leb_spec (cd_m c) 2) as [Hle|Hgt].
  - split; [lia|]. rewrite (proj2 (Z.ltb_ge 2 (cd_m c))) in ED by lia.
    pose proof (month_start_mono 10 (cd_m c + 9) ltac:(lia)). change (month_start 10) with 306 in *. lia.
  - rewrite (proj2 (Z.ltb_lt 2 (cd_m c))) in ED by lia. split; [|lia].
    destruct (decide (y = - lim - 1)) as [Ey|]; [|lia].
    rewrite month_len in Hdd by lia. unfold month_index in Hdd.
    rewrite (proj2 (Z.ltb_lt 2 (cd_m c))) in Hdd by lia.
    pose proof (month_start_mono (cd_m c - 3 + 1) 10 ltac:(lia)). change (month_start 10) with 306 in *. lia.
Qed.

Lemma civil_from_days_spec z : day_range z ->
  let c := civil_from_days z in
  in_signed 32 (cd_y c) /\ civil_valid (cd_y c) (cd_m c) (cd_d c) = true /\
  days_from_civil (cd_y c) (cd_m c) (cd_d c) = z.
Proof.
  intros Hz c. destruct (day_split z) as (y & doy & Hd & E).
  pose proof (day_range_year z y doy Hz Hd E) as Hr.
  assert (c = date_of y doy) as -> by (unfold c; rewrite E; by apply civil_from_days_closed).
  destruct (date_of_spec y doy Hd) as (Hv & EY & ED).
  split_and!; [done|done|]. apply civil_valid_spec in Hv as [Hm _].
  rewrite days_from_civil_closed, EY, ED by lia. done.
Qed.

(** Going to the next month advances by the length of this one. *)
Lemma month_step y m d : 1 <= m <= 11 ->
  days_from_civil y (m + 1) d = days_from_civil y m d + days_in_month y m.
Proof.
  intros Hm. rewrite !days_from_civil_closed by lia. unfold march_day.
  destruct (decide (m = 2)) as [->|].
  - rewrite month_len_feb. change (march_year y (2 + 1)) with (y - 0). change (march_year y 2) with (y - 1).
    change (month_index (2 + 1)) with 0. change (month_start 0) with 0. change (month_index 2) with 11.
    pose proof (year_day0_succ (y - 1)) as E. replace (y - 1 + 1) with y in E by lia.
    rewrite Z.sub_0_r. lia.
  - rewrite month_len by lia.
    assert (march_year y (m + 1) = march_year y m) as ->.
    { unfold march_year. destruct (Z.leb_spec (m + 1) 2), (Z.leb_spec m 2); lia. }
    assert (month_index (m + 1) = month_index m + 1) as ->; [|lia].
    unfold month_index. destruct (Z.ltb_spec 2 (m + 1)), (Z.ltb_spec 2 m); lia.
Qed.

Lemma year_step y : days_from_civil (y + 1) 1 1 = days_from_civil y 12 31 + 1.
Proof.
  rewrite !days_from_civil_closed by lia.
  replace (march_year (y + 1) 1) with y by (unfold march_year; simpl; lia).
  replace (march_year y 12) with y by (unfold march_year; simpl; lia).
  change (march_day 1 1) with 306. change (march_day 12 31) with 305. lia.
Qed.

Lemma day_step y m d k : 1 <= m -> days_from_civil y m (d + k) = days_from_civil y m d + k.
Proof. intros. rewrite !days_from_civil_closed by lia. unfold march_day. lia. Qed.

Lemma next_day_spec c : ok_date c ->
  ok_date (next_day c) /\ year_month_day.to_days (next_day c) = year_month_day.to_days c + 1.
Proof.
  unfold ok_date. destruct c as [y m d]. cbn [cd_y cd_m cd_d]. rewrite !civil_valid_spec. intros [Hm Hd].
  unfold year_month_day.to_days, next_day. cbn [cd_y cd_m cd_d].
  destruct (Z.ltb_spec d (days_in_month y m)); [|destruct (Z.ltb_spec m 12)]; cbn [cd_y cd_m cd_d].
  - split; [lia|]. rewrite (day_step y m d 1); lia.
  - pose proof (days_in_month_range y (m + 1)). split; [lia|].
    rewrite month_step by lia. replace d with (1 + (days_in_month y m - 1)) by lia.
    rewrite (day_step y m 1) by lia. lia.
  - assert (m = 12) as -> by lia. pose proof (days_in_month_range (y + 1) 1). split; [lia|].
    rewrite year_step. change (days_in_month y 12) with 31 in *. replace d with 31 by lia. done.
Qed.

(** * Order *)

Lemma march_lex a b :
  ok_date a -> ok_date b -> date_lt a b ->
  march_year (cd_y a) (cd_m a) < march_year (cd_y b) (cd_m b) \/
  march_year (cd_y a) (cd_m a) = march_year (cd_y b) (cd_m b) /\
    (month_index (cd_m a) < month_index (cd_m b) \/
     month_index (cd_m a) = month_index (cd_m b) /\ cd_d a < cd_d b).
Proof.
  unfold ok_date, date_lt. rewrite !civil_valid_spec. intros [Ha _] [Hb _] H.
  unfold march_year, month_index.
  destruct (Z.leb_spec (cd_m a) 2), (Z.leb_spec (cd_m b) 2), (Z.ltb_spec 2 (cd_m a)), (Z.ltb_spec 2 (cd_m b)); lia.
Qed.

Lemma date_lt_days a b : ok_date a -> ok_date b -> date_lt a b ->
  year_month_day.to_days a < year_month_day.to_days b.
Proof.
  intros Ha Hb H. pose proof (march_lex a b Ha Hb H) as L. clear H.
  pose proof Ha as [[? _] Ma]%march_day_spec. pose proof Hb as [? Mb]%march_day_spec.
  pose proof Ha as [[? ?] [? ?]]%civil_valid_spec. pose proof Hb as [[? ?] [? ?]]%civil_valid_spec.
  pose proof Ha as [[_ Ua] _]%march_day_spec.
  unfold year_month_day.to_days. rewrite !days_from_civil_closed by lia.
  set (ya := march_year (cd_y a) (cd_m a)) in *. set (yb := march_year (cd_y b) (cd_m b)) in *.
  destruct L as [L|[<- L]].
  - pose proof (year_day0_succ ya). pose proof (year_day0_mono (ya + 1) yb). lia.
  - assert (march_day (cd_m a) (cd_d a) < march_day (cd_m b) (cd_d b)); [|lia].
    destruct L as [L|[L ?]]; [|unfold march_day; rewrite L; lia].
    rewrite <- Ma, <- Mb in L. apply Z.nle_gt. intros Hc.
    unfold month_of in L. pose proof (Z.div_le_mono (5 * march_day (cd_m b) (cd_d b) + 2)
      (5 * march_day (cd_m a) (cd_d a) + 2) 153). lia.
Qed.

Lemma date_lt_total a b : a = b \/ date_lt a b \/ date_lt b a.
Proof.
  destruct a as [ya ma da], b as [yb mb db]. unfold date_lt. cbn [cd_y cd_m cd_d].
  destruct (Z.lt_trichotomy ya yb) as [|[->|]]; [lia| |lia].
  destruct (Z.lt_trichotomy ma mb) as [|[->|]]; [lia| |lia].
  destruct (Z.lt_trichotomy da db) as [|[->|]]; [lia|by left|lia].
Qed.

Lemma date_lt_iff a b : ok_date a -> ok_date b ->
  date_lt a b <-> year_month_day.to_days a < year_month_day.to_days b.
Proof.
  intros Ha Hb. split; [by apply date_lt_days|]. intros H.
  destruct (date_lt_total a b) as [->|[?|Hc]]; [lia|done|].
  apply date_lt_days in Hc; [lia|done|done].
Qed.

(** * Ordinal days *)

(** The days of the months before [m], counted from their lengths. *)
Definition days_before (y m : Z) : Z :=
  foldr Z.add 0 (days_in_month y <$> seqZ 1 (m - 1)).

Lemma days_before_succ y m : 1 <= m -> days_before y (m + 1) = days_before y m + days_in_month y m.
Proof.
  intros Hm. unfold days_before. replace (m + 1 - 1) with ((m - 1) + 1) by lia.
  rewrite seqZ_app, fmap_app, foldr_app by lia. replace (1 + (m - 1)) with m by lia.
  replace (seqZ m 1) with [m] by (by rewrite seqZ_cons by lia). cbn [fmap list_fmap foldr].
  generalize (days_in_month y <$> seqZ 1 (m - 1)) as l. intros l.
  induction l as [|x l IH]; simpl; lia.
Qed.

Lemma day_of_year_closed y m d : 1 <= m <= 12 ->
  days_from_civil y m d - days_from_civil y 1 1 + 1 = days_before y m + d.
Proof.
  intros Hm. replace d with (1 + (d - 1)) at 1 by lia. rewrite day_step by lia.
  enough (days_from_civil y m 1 - days_from_civil y 1 1 = days_before y m) by lia.
  assert (forall n, 0 <= n -> n <= 11 ->
    days_from_civil y (n + 1) 1 - days_from_civil y 1 1 = days_before y (n + 1)) as Hn.
  { apply (natlike_ind (fun n => n <= 11 -> _)).
    - intros _. change (0 + 1) with 1. change (days_before y 1) with 0. lia.
    - intros n Hn IH Hle. unfold Z.succ. rewrite month_step, days_before_succ by lia.
      specialize (IH ltac:(lia)). lia. }
  specialize (Hn (m - 1)). replace (m - 1 + 1) with m in Hn by lia. apply Hn; lia.
Qed.

Lemma days_before_year y : days_before y 13 = days_in_year y.
Proof. unfold days_before, days_in_year, days_in_month. by destruct (is_leap y). Qed.

Lemma day_of_year_spec y m d : civil_valid y m d = true ->
  day_of_year y m d = days_before y m + d /\ 1 <= day_of_year y m d <= days_in_year y.
Proof.
  rewrite civil_valid_spec. intros [Hm Hd]. unfold day_of_year. rewrite day_of_year_closed by lia.
  assert (0 <= days_before y m /\ days_before y m + days_in_month y m <= days_in_year y) as [? ?].
  { rewrite <- days_before_year. assert (forall n, 0 <= n -> 0 <= days_before y (n + 1)) as H0.
    { apply (natlike_ind (fun n => _)); [done|]. intros n Hn IH. unfold Z.succ.
      rewrite days_before_succ by lia. destruct (decide (n + 1 <= 12)).
      - pose proof (days_in_month_range y (n + 1)). lia.
      - unfold days_in_month. rewrite (proj2 (Z.eqb_neq _ _)), (proj2 (Z.leb_gt _ 12)), andb_false_r by lia. lia. }
    assert (forall n, 0 <= n -> n <= 12 - m -> days_before y m + days_in_month y m <= days_before y (m + 1 + n)) as Hn.
    { apply (natlike_ind (fun n => n <= 12 - m -> _)).
      - intros _. rewrite Z.add_0_r, days_before_succ by lia. lia.
      - intros n Hn IH Hle. replace (m + 1 + Z.succ n) with (m + 1 + n + 1) by lia.
        rewrite (days_before_succ y (m + 1 + n)) by lia. pose proof (days_in_month_range y (m + 1 + n)).
        specialize (IH ltac:(lia)). lia. }
    split.
    - specialize (H0 (m - 1)). replace (m - 1 + 1) with m in H0 by lia. apply H0. lia.
    - specialize (Hn (12 - m)). replace (m + 1 + (12 - m)) with 13 in Hn by lia. apply Hn; lia. }
  rewrite wrap_id; [lia|]. unfold in_unsigned.
  assert (days_in_year y <= 366) by (unfold days_in_year; destruct (is_leap y); lia). lia.
Qed.

Lemma year_days y m d : civil_valid y m d = true ->
  days_from_civil y 1 1 <= days_from_civil y m d <= days_from_civil y 1 1 + 365.
Proof.
  intros Hv. destruct (day_of_year_spec y m d Hv) as [E Hr].
  pose proof Hv as [Hm Hd]%civil_valid_spec. pose proof (day_of_year_closed y m d Hm).
  assert (days_in_year y <= 366) by (unfold days_in_year; destruct (is_leap y); lia). lia.
Qed.

Lemma day_range_near y m d k : - 2 ^ 31 < y < 2 ^ 31 - 1 -> civil_valid y m d = true -> -3 <= k <= 3 ->
  day_range (days_from_civil y m d + k).
Proof.
  intros Hy Hv Hk. unfold day_range. pose proof (year_days y m d Hv) as H.
  revert H. rewrite !days_from_civil_closed by (try apply civil_valid_spec in Hv; lia).
  change (march_year (- 2 ^ 31) 1) with (- 2 ^ 31 - 1). change (march_year (2 ^ 31 - 1) 12) with (2 ^ 31 - 1).
  change (march_year y 1) with (y - 1). change (march_day 1 1) with 306. change (march_day 12 31) with 305.
  set (lim := 2 ^ 31) in *. clearbody lim.
  pose proof (year_day0_mono (- lim - 1) (y - 1)). pose proof (year_day0_mono y (lim - 1)).
  pose proof (year_day0_succ (y - 1)) as E. unfold year_len in E.
  replace (y - 1 + 1) with y in E by lia. pose proof (leap_days_range y). lia.
Qed.

(** * Weeks *)

Lemma weekday_from_days_mod z : weekday_from_days z = (z + 4) mod 7.
Proof.
  unfold weekday_from_days. rewrite floor_mod_spec, wrap_id by (unfold in_unsigned; divlia). done.
Qed.

(** The Monday of ISO week 1: the one of the week that contains January 4. *)
Definition iso_week1_monday (y : Z) : Z :=
  let jan4 := days_from_civil y 1 4 in jan4 - (jan4 + 3) mod 7.

Lemma week_count t : 0 <= t <= 365 -> 0 <= t / 7 <= 52.
Proof. intros. divlia. Qed.

Lemma iso_weekday_arith z : (z + 3) mod 7 + 1 = if (z + 4) mod 7 =? 0 then 7 else (z + 4) mod 7.
Proof. destruct (Z.eqb_spec ((z + 4) mod 7) 0); divlia. Qed.

(** [w] is the weekday index of [z], [t] the distance of its Thursday from
    January 1. *)
Lemma iso_week_arith jan1 w t z : 0 <= w < 7 -> (z + 3) mod 7 = w -> t = z + (4 - (w + 1)) - jan1 -> 0 <= t ->
  z = jan1 + 3 - (jan1 + 3 + 3) mod 7 + 7 * (t / 7 + 1 - 1) + (w + 1 - 1).
Proof. intros. divlia. Qed.

(** A day whose Thursday is before January 1 is before the first week of that year. *)
Lemma week_before_next jan1 z : z + (4 - ((z + 3) mod 7 + 1)) < jan1 -> z < jan1 + 3 - (jan1 + 3 + 3) mod 7.
Proof. intros. divlia. Qed.

Lemma week1_from_jan1 y : iso_week1_monday y = days_from_civil y 1 1 + 3 - (days_from_civil y 1 1 + 3 + 3) mod 7.
Proof. unfold iso_week1_monday. by rewrite (day_step y 1 1 3 ltac:(lia) : days_from_civil y 1 4 = _). Qed.

Lemma next_year_later c : ok_date c -> year_month_day.to_days c < days_from_civil (cd_y c + 1) 1 1.
Proof. intros Hc. apply (date_lt_days c (mk_date (cd_y c + 1) 1 1)); [done|done|left; cbn; lia]. Qed.

(** The week of [z] in the year of the date [c] of its Thursday. *)
Lemma iso_week_of_thursday z c : ok_date c -> year_month_day.to_days c = z + (3 - (z + 3) mod 7) ->
  let t := z + (3 - (z + 3) mod 7) - days_from_civil (cd_y c) 1 1 in
  0 <= t <= 365 /\ z = iso_week1_monday (cd_y c) + 7 * (t / 7) + (z + 3) mod 7 /\
  iso_week1_monday (cd_y c) <= z < iso_week1_monday (cd_y c + 1).
Proof.
  intros Hc E. pose proof (next_year_later c Hc) as Hnext. rewrite E in Hnext. rewrite !week1_from_jan1.
  pose proof (year_days _ _ _ Hc) as Hyd. unfold year_month_day.to_days in E. rewrite E in Hyd. cbv zeta.
  pose proof (week_before_next (days_from_civil (cd_y c + 1) 1 1) z ltac:(lia)).
  set (jan1 := days_from_civil (cd_y c) 1 1) in *. pose proof (Z.mod_pos_bound (z + 3) 7 ltac:(lia)).
  pose proof (week_count (z + (3 - (z + 3) mod 7) - jan1) ltac:(lia)).
  pose proof (iso_week_arith jan1 ((z + 3) mod 7) (z + (3 - (z + 3) mod 7) - jan1) z ltac:(lia) eq_refl ltac:(lia) ltac:(lia)).
  split_and!; lia.
Qed.

Lemma iso_week_date_spec y m d : - 2 ^ 31 < y < 2 ^ 31 - 1 -> civil_valid y m d = true ->
  let w := iso_week_date y m d in
  days_from_civil y m d = iso_week1_monday (iso_year w) + 7 * (iso_wk w - 1) + (iso_weekday w - 1) /\
  1 <= iso_wk w <= 53 /\ iso_weekday w = iso_weekday_of y m d /\ 1 <= iso_weekday w <= 7 /\
  cd_y (civil_from_days (days_from_civil y m d + (4 - iso_weekday w))) = iso_year w /\
  iso_week1_monday (iso_year w) <= days_from_civil y m d < iso_week1_monday (iso_year w + 1).
Proof.
  intros Hy Hv. unfold iso_week_date, iso_weekday_of, weekday_of. rewrite weekday_from_days_mod.
  rewrite floor_mod_spec by lia. generalize (fun k => day_range_near y m d k Hy Hv). intros Hnear.
  generalize dependent (days_from_civil y m d). intros z Hnear.
  pose proof (Z.mod_pos_bound (z + 3) 7 ltac:(lia)) as Hmod.
  rewrite !(wrap_id 32 ((z + 3) mod 7)), !(wrap_id 32 ((z + 3) mod 7 + 1)) by (unfold in_unsigned; lia).
  cbn [iso_year iso_wk iso_weekday]. replace (4 - ((z + 3) mod 7 + 1)) with (3 - (z + 3) mod 7) by lia.
  destruct (civil_from_days_spec (z + (3 - (z + 3) mod 7)) (Hnear (3 - (z + 3) mod 7) ltac:(lia))) as (_ & Hok & E).
  destruct (iso_week_of_thursday z _ Hok E) as (Ht & Ez & Hw). cbv zeta in Ht, Ez.
  pose proof (week_count _ Ht). rewrite Z.quot_div_nonneg by lia. rewrite wrap_id by (unfold in_unsigned; lia).
  split_and!; [lia|lia|lia|by apply iso_weekday_arith|lia|lia|done|lia|lia].
Qed.

(** * Theorems *)

Lemma to_days_inj a b : ok_date a -> ok_date b ->
  year_month_day.to_days a = year_month_day.to_days b -> a = b.
Proof.
  intros Ha Hb E. destruct (date_lt_total a b) as [?|[H|H]]; [done|..];
    apply date_lt_days in H; (done || lia).
Qed.

(** C8: [civil_from_days] and [days_from_civil] are inverse: a valid date of
    any [i32] year survives the round trip, and every day number whose year
    fits [i32] comes from exactly the valid date that [civil_from_days] gives
    it.  [day_of_year] counts the days of the earlier months plus the day, and
    lies in the year; [iso_week_date] gives the ISO-8601 week date: week 1 is
    the one that contains January 4, weeks run from Monday, the date is
    recovered from year, week and weekday, and the ISO year is the calendar
    year of the week's Thursday: the date is not before week 1 of that year and
    before week 1 of the next. *)
Theorem calendar_roundtrip y m d z :
  in_signed 32 y -> civil_valid y m d = true -> day_range z ->
  civil_from_days (days_from_civil y m d) = mk_date y m d /\
  ok_date (civil_from_days z) /\ year_month_day.to_days (civil_from_days z) = z /\
  (- 2 ^ 31 < y < 2 ^ 31 - 1 -> let w := iso_week_date y m d in
   (day_of_year y m d = days_before y m + d /\ 1 <= day_of_year y m d <= days_in_year y) /\
   days_from_civil y m d = iso_week1_monday (iso_year w) + 7 * (iso_wk w - 1) + (iso_weekday w - 1) /\
   1 <= iso_wk w <= 53 /\ iso_weekday w = iso_weekday_of y m d /\ 1 <= iso_weekday w <= 7 /\
   cd_y (civil_from_days (days_from_civil y m d + (4 - iso_weekday w))) = iso_year w /\
   iso_week1_monday (iso_year w) <= days_from_civil y m d < iso_week1_monday (iso_year w + 1)).
Proof.
  intros Hy Hv Hz. destruct (civil_from_days_spec z Hz) as (_ & Hok & E).
  split; [by apply civil_from_days_from_civil|]. split; [done|]. split; [done|]. intros Hy' w.
  split; [by apply day_of_year_spec|by apply iso_week_date_spec].
Qed.

Lemma calendar_roundtrip_witness :
  civil_from_days (days_from_civil 2000 2 29) = mk_date 2000 2 29 /\
  ok_date (civil_from_days (-1)) /\ year_month_day.to_days (civil_from_days (-1)) = -1 /\
  day_of_year 2021 1 3 = days_before 2021 1 + 3 /\ iso_week_date 2021 1 3 = mk_iso 2020 53 7 /\
  iso_week_date 2019 12 30 = mk_iso 2020 1 1 /\ cd_y (civil_from_days (days_from_civil 2019 12 30 + 3)) = 2020.
Proof.
  assert (in_signed 32 2000 /\ in_signed 32 2021 /\ in_signed 32 2019) as (S1 & S2 & S3) by (unfold in_signed; lia).
  assert (day_range (-1)) as R1 by (by vm_compute). assert (day_range 0) as R2 by (by vm_compute).
  destruct (calendar_roundtrip 2000 2 29 (-1) S1 eq_refl R1) as (E1 & E2 & E3 & _).
  destruct (calendar_roundtrip 2021 1 3 0 S2 eq_refl R2) as (_ & _ & _ & Hw1).
  destruct (calendar_roundtrip 2019 12 30 0 S3 eq_refl R2) as (_ & _ & _ & Hw2).
  destruct Hw1 as [[E4 _] _]; [lia|]. destruct Hw2 as (_ & _ & _ & _ & _ & E5 & _); [lia|].
  split_and!; [exact E1|exact E2|exact E3|exact E4|reflexivity|reflexivity|exact E5].
Defined.

(** C9: day 0 is 1970-01-01 and each following day is the next day of the
    calendar, by the month lengths and the leap rule alone: the era arithmetic
    of [civil_from_days] agrees with the reference calendar everywhere, and day
    numbers order the valid dates chronologically. *)
Theorem calendar_follows_reference z : day_range z -> day_range (z + 1) ->
  civil_from_days 0 = mk_date 1970 1 1 /\
  civil_from_days (z + 1) = next_day (civil_from_days z) /\
  (forall a b, ok_date a -> ok_date b -> date_lt a b <-> year_month_day.to_days a < year_month_day.to_days b).
Proof.
  intros Hz Hz1. split; [by vm_compute|]. split; [|exact date_lt_iff].
  destruct (civil_from_days_spec z Hz) as (_ & Hok & E).
  destruct (civil_from_days_spec (z + 1) Hz1) as (_ & Hok1 & E1).
  destruct (next_day_spec _ Hok) as [Hokn En].
  apply to_days_inj; [done|done|]. rewrite En. unfold year_month_day.to_days. lia.
Qed.

Lemma calendar_follows_reference_witness :
  civil_from_days 11017 = next_day (civil_from_days 11016) /\
  civil_from_days 11017 = mk_date 2000 3 1.
Proof. split; [apply (calendar_follows_reference 11016); by vm_compute|by vm_compute]. Defined.

