(* ===== verification/Civil.v ===== *)
(** Local time: [src/chrono/civil.hpp].

    A transition table is two parallel arrays; [offset_at] finds the last
    transition by binary search and is proved equal to a linear scan.
    [from_civil] inverts local time across the transitions. *)
From stdpp Require Import base numbers list option.
From Stdlib Require Import ZArith Lia.
From S2P Require Import Prelude Arrays Calendar.

Local Open Scope Z_scope.

Record civil := mk_civil {
  c_y : Z; c_mo : Z; c_d : Z; c_h : Z; c_mi : Z; c_s : Z; c_ns : Z; c_off : Z;
}.

#[export] Instance civil_eq_dec : EqDecision civil.
Proof. solve_decision. Defined.

(** The default member initialisers. *)
Definition civil_default : civil := mk_civil 1970 1 1 0 0 0 0 0.

Definition valid (c : civil) : bool :=
  civil_valid (c_y c) (c_mo c) (c_d c) &&
  (c_h c <? 24) && (c_mi c <? 60) && (c_s c <? 61) && (c_ns c <? 1000000000).

(** [trans] is [None] for the null pointer. *)
Record tz_table := mk_tz {
  tz_trans : option (list Z); tz_off : list Z; tz_n : Z; tz_first : Z; tz_loaded : bool;
}.

Definition tz_of (t o : list Z) (count before : Z) : tz_table := mk_tz (Some t) o count before true.

Definition tz_fixed (offset_sec : Z) : tz_table := mk_tz None [] 0 offset_sec true.

Definition tz_utc : tz_table := tz_fixed 0.

Definition offset_at (t : tz_table) (utc : Z) : option Z :=
  match tz_trans t with
  | Some trans =>
      if negb (tz_loaded t) || (tz_n t =? 0) then Some (if tz_loaded t then tz_first t else 0)
      else
        t0 ← trans.[0];
        if utc <? t0 then Some (tz_first t)
        else
          lo ← while_ (S (Z.to_nat (tz_n t))) (fun '(lo, hi) =>
            if lo <? hi then
              let mid := lo + Z.quot (hi - lo + 1) 2 in
              x ← trans.[mid];
              if x <=? utc then Some (inl (mid, hi)) else Some (inl (lo, mid - 1))
            else Some (inr lo)) (0, tz_n t - 1);
          (tz_off t).[lo]
  | None => Some (if tz_loaded t then tz_first t else 0)
  end.

(** [to_civil(utc_sec, off)] *)
Definition to_civil (utc_sec off : Z) : civil :=
  let local := utc_sec + off in
  let days := floor_div local 86400 in
  let rem := local - days * 86400 in
  let cd := civil_from_days days in
  mk_civil (cd_y cd) (cd_m cd) (cd_d cd)
    (wrap 32 (Z.quot rem 3600)) (wrap 32 (Z.quot (Z.rem rem 3600) 60)) (wrap 32 (Z.rem rem 60)) 0 off.

Definition with_ns (c : civil) (nsec : Z) : civil :=
  mk_civil (c_y c) (c_mo c) (c_d c) (c_h c) (c_mi c) (c_s c) nsec (c_off c).

(** [to_civil(utc_sec, off, nsec)] *)
Definition to_civil_ns (utc_sec off nsec : Z) : civil := with_ns (to_civil utc_sec off) nsec.

(** [to_civil(t, utc_sec)] *)
Definition to_civil_tz (t : tz_table) (utc_sec : Z) : option civil :=
  off ← offset_at t utc_sec; Some (to_civil utc_sec off).

Definition civil_utc (utc_sec : Z) : civil := to_civil utc_sec 0.

Definition civil_secs (c : civil) : Z :=
  days_from_civil (c_y c) (c_mo c) (c_d c) * 86400 + c_h c * 3600 + c_mi c * 60 + c_s c.

Definition from_civil (c : civil) (t : tz_table) : option Z :=
  let local := civil_secs c in
  match tz_trans t with
  | Some _ =>
      if negb (tz_loaded t) || (tz_n t =? 0) then Some (local - (if tz_loaded t then tz_first t else 0))
      else
        a ← offset_at t (local - 86400);
        b ← offset_at t (local + 86400);
        let ca := local - a in
        let cb := local - b in
        oa ← offset_at t ca;
        let va := oa =? a in
        ob ← offset_at t cb;
        let vb := ob =? b in
        Some (if va && vb then (if ca <? cb then ca else cb)
              else if va then ca
              else if vb then cb
              else if cb <? ca then ca else cb)
  | None => Some (local - (if tz_loaded t then tz_first t else 0))
  end.

Definition offset_hours (off_sec : Z) : Z := Z.quot off_sec 3600.

Definition offset_minutes (off_sec : Z) : Z :=
  let mag := if off_sec <? 0 then - off_sec else off_sec in
  swrap 32 (Z.quot (Z.rem mag 3600) 60).

Definition offset_negative (off_sec : Z) : bool := off_sec <? 0.

(** [weekday_of(c)], [day_of_year(c)], [iso_week_date(c)] *)
Definition civil_weekday_of (c : civil) : Z := weekday_of (c_y c) (c_mo c) (c_d c).

Definition civil_day_of_year (c : civil) : Z := day_of_year (c_y c) (c_mo c) (c_d c).

Definition civil_iso_week_date (c : civil) : iso_week := iso_week_date (c_y c) (c_mo c) (c_d c).

(** * The reference scan *)

(** The offset after the last transition not later than [utc]. *)
Fixpoint offset_scan (first : Z) (l : list (Z * Z)) (utc : Z) : Z :=
  match l with
  | [] => first
  | (t, o) :: l => if t <=? utc then offset_scan o l utc else first
  end.

(** Transitions in increasing order, each [gap] later than the one before. *)
Fixpoint spaced (gap : Z) (l : list (Z * Z)) : Prop :=
  match l with
  | (t, _) :: ((t', _) :: _) as l' => t + gap <= t' /\ spaced gap l'
  | _ => True
  end.

(** A loaded table holds the transitions [l] after the offset [first]. *)
Definition tz_holds (t : tz_table) (first : Z) (l : list (Z * Z)) : Prop :=
  tz_loaded t = true /\ tz_first t = first /\ tz_n t = alen l /\
  match tz_trans t with
  | Some trans => trans = l.*1 /\ tz_off t = l.*2
  | None => l = []
  end.

Lemma spaced_tail gap x l : spaced gap (x :: l) -> spaced gap l.
Proof. destruct x as [t o], l as [|[t' o'] l]; simpl; [done|]. tauto. Qed.

Lemma spaced_mono gap gap' l : gap' <= gap -> spaced gap l -> spaced gap' l.
Proof.
  intros Hg. induction l as [|[t o] [|[t' o'] l] IH]; simpl; [done|done|].
  intros [? ?]. split; [lia|]. by apply IH.
Qed.

Lemma spaced_lookup gap l i j x y : 0 <= gap -> spaced gap l -> (i <= j)%nat ->
  l.*1 !! i = Some x -> l.*1 !! j = Some y -> x <= y.
Proof.
  intros Hg. revert i j x. induction l as [|[t o] l IH]; intros i j x Hs Hij Hx Hy; [done|].
  destruct j as [|j].
  { assert (i = 0%nat) as -> by lia. simpl in *. simplify_eq. lia. }
  destruct i as [|i]; simpl in *.
  - simplify_eq. destruct l as [|[t' o'] l]; [done|].
    pose proof (proj1 Hs). apply (Z.le_trans _ t'); [lia|].
    apply (IH 0%nat j t'); [exact (proj2 Hs)|lia|done|done].
  - apply (IH i j); [exact (spaced_tail gap (t, o) l Hs)|lia|done|done].
Qed.

Lemma offset_scan_at first l utc k t o :
  spaced 0 l -> l.*1 !! k = Some t -> l.*2 !! k = Some o -> t <= utc ->
  (forall t', l.*1 !! S k = Some t' -> utc < t') ->
  offset_scan first l utc = o.
Proof.
  revert first k. induction l as [|[t0 o0] l IH]; intros first k Hs Ht Ho Hle Hgt; [done|].
  assert (t0 <= utc) as H0.
  { assert (t0 <= t); [|lia]. by eapply (spaced_lookup 0 ((t0, o0) :: l) 0 k); [done|done|lia| |]. }
  simpl. rewrite (proj2 (Z.leb_le t0 utc) H0). destruct k as [|k]; simpl in *.
  - simplify_eq. destruct l as [|[t1 o1] l]; [done|]. simpl.
    by rewrite (proj2 (Z.leb_gt t1 utc)) by (by apply Hgt).
  - eapply (IH _ k); [exact (spaced_tail 0 (t0, o0) l Hs)|done|done|done|done].
Qed.

Lemma offset_scan_before first l utc : spaced 0 l ->
  (forall t, l.*1 !! 0%nat = Some t -> utc < t) -> offset_scan first l utc = first.
Proof.
  intros Hs H. destruct l as [|[t o] l]; [done|]. simpl.
  by rewrite (proj2 (Z.leb_gt t utc)) by (by apply H).
Qed.

(** * Binary search *)
Section search.
Context (first : Z) (l : list (Z * Z)) (utc : Z).
Hypothesis Hs : spaced 0 l.

(** The answer lies between [lo] and [hi]. *)
Definition search_inv (lo hi : Z) : Prop :=
  0 <= lo <= hi /\ hi < alen l /\
  (forall x, (l.*1).[lo] = Some x -> x <= utc) /\
  (forall k x, hi < k -> (l.*1).[k] = Some x -> utc < x).

Lemma alen_fmap {A B} (f : A -> B) (a : list A) : alen (f <$> a) = alen a.
Proof. unfold alen. by rewrite length_fmap. Qed.

Lemma search_inv_step lo hi x : lo < hi -> search_inv lo hi ->
  let mid := lo + Z.quot (hi - lo + 1) 2 in
  (l.*1).[mid] = Some x ->
  if x <=? utc then search_inv mid hi /\ hi - mid < hi - lo
  else search_inv lo (mid - 1) /\ mid - 1 - lo < hi - lo.
Proof using Hs.
  intros Hlt (Hlo & Hhi & Hle & Hgt) mid Hx.
  assert (lo < mid <= hi) as Hm by (unfold mid; rewrite Z.quot_div_nonneg by lia; divlia).
  destruct (Z.leb_spec x utc) as [Hc|Hc]; (split; [|lia]).
  - split_and!; [lia|lia|lia| |done]. intros. by simplify_eq.
  - split_and!; [lia|lia|lia|done|]. intros k z Hk Hz.
    apply (Z.lt_le_trans _ x); [done|].
    pose proof (aget_Some_bounds _ _ _ Hz). rewrite <- (Z2Nat.id k), aget_nat in Hz by lia.
    rewrite <- (Z2Nat.id mid), aget_nat in Hx by lia.
    apply (spaced_lookup 0 l (Z.to_nat mid) (Z.to_nat k)); (done || lia).
Qed.

Lemma search_inv_done lo o : search_inv lo lo -> (l.*2).[lo] = Some o -> offset_scan first l utc = o.
Proof using Hs.
  intros (Hlo & Hhi & Hle & Hgt) Ho. destruct (aget_in (l.*1) lo) as [x Hx]; [rewrite alen_fmap; lia|].
  specialize (Hle x Hx).
  assert (lo = Z.of_nat (Z.to_nat lo)) as E by lia. rewrite E, aget_nat in Hx, Ho.
  apply (offset_scan_at first l utc (Z.to_nat lo) x o); try done.
  intros t' Ht'. apply (Hgt (Z.of_nat (S (Z.to_nat lo)))); [lia|]. by rewrite aget_nat.
Qed.
End search.

Lemma offset_at_spec t first l utc : tz_holds t first l -> spaced 0 l ->
  offset_at t utc = Some (offset_scan first l utc).
Proof.
  intros (Hld & Hf & Hn & Htr) Hs. unfold offset_at. rewrite Hld, Hf, Hn. cbn [negb orb].
  destruct (tz_trans t) as [trans|]; [|by rewrite Htr]. destruct Htr as [-> ->].
  destruct (Z.eqb_spec (alen l) 0) as [E|E].
  { destruct l; [done|]. unfold alen in E. simpl in E. lia. }
  pose proof (alen_nonneg l). destruct (aget_in (l.*1) 0) as [t0 Ht0]; [rewrite alen_fmap; lia|].
  rewrite Ht0. cbn [mbind option_bind]. destruct (Z.ltb_spec utc t0) as [Hlt|Hge].
  { f_equal. symmetry. apply offset_scan_before; [done|]. intros x. rewrite <- aget_nat. change (Z.of_nat 0) with 0.
    rewrite Ht0. by intros [= <-]. }
  apply returns_eq.
  eapply returns_bind.
  - apply (returns_while _ _ _ (fun '(lo, hi) => search_inv l utc lo hi) (fun '(lo, hi) => hi - lo)
      (fun lo => search_inv l utc lo lo)).
    + split_and!; [lia|lia|lia| |].
      * intros x Hx. simplify_eq. done.
      * intros k x Hk Hx. apply aget_Some_bounds in Hx. rewrite alen_fmap in Hx. lia.
    + lia.
    + intros [lo hi] Hinv. pose proof Hinv as (Hlo & Hhi & _). apply returns_if; intros Hc.
      * apply Z.ltb_lt in Hc. cbv zeta. apply returns_get.
        { rewrite alen_fmap. rewrite Z.quot_div_nonneg by lia. divlia. }
        intros x Hx. pose proof (search_inv_step l utc Hs lo hi x Hc Hinv Hx) as Hst.
        destruct (x <=? utc); apply returns_ret; destruct Hst as [Hst ?]; (split; [done|]);
          destruct Hst as (? & ? & _); lia.
      * apply Z.ltb_ge in Hc. apply returns_ret. by replace hi with lo in Hinv by lia.
  - intros lo Hinv. pose proof Hinv as (Hlo & Hhi & _).
    destruct (aget_in (l.*2) lo) as [o Ho]; [rewrite alen_fmap; lia|]. rewrite Ho.
    apply returns_ret. by rewrite (search_inv_done first l utc Hs lo o).
Qed.

(** * Inverting local time *)

Lemma offset_scan_window first l lo hi : hi - lo <= 172800 -> spaced 172800 l ->
  exists cut, forall u, lo <= u <= hi ->
    offset_scan first l u = if u <? cut then offset_scan first l lo else offset_scan first l hi.
Proof.
  intros Hw. revert first. induction l as [|[t o] l IH]; intros first Hs.
  { exists 0. intros. simpl. by destruct (u <? 0). }
  pose proof (spaced_tail _ _ _ Hs) as Hs'. cbn [offset_scan].
  destruct (Z.leb_spec t lo) as [Hlo|Hlo].
  { destruct (IH o Hs') as [cut Hcut]. exists cut. intros u Hu.
    rewrite (proj2 (Z.leb_le t u)), (proj2 (Z.leb_le t hi)) by lia. by apply Hcut. }
  destruct (Z.leb_spec t hi) as [Hhi|Hhi].
  - exists t. assert (forall u, u <= hi -> offset_scan o l u = o) as E.
    { intros u Hu. apply offset_scan_before; [by apply (spaced_mono 172800); [lia|]|].
      destruct l as [|[t' o'] l]; [done|]. simpl. intros ? [= <-]. pose proof (proj1 Hs). lia. }
    intros u Hu. rewrite E by lia. rewrite E by lia.
    destruct (Z.leb_spec t u), (Z.ltb_spec u t); (done || lia).
  - exists (hi + 1). intros u Hu. rewrite (proj2 (Z.leb_gt t u)), (proj2 (Z.ltb_lt u (hi + 1))) by lia. done.
Qed.

Lemma from_civil_spec t first l c : tz_holds t first l -> spaced 172800 l ->
  (forall u, - 86400 <= offset_scan first l u <= 86400) ->
  returns (from_civil c t) (fun r => forall u, u + offset_scan first l u = civil_secs c ->
    r + offset_scan first l r = civil_secs c /\ r <= u).
Proof.
  intros Ht Hs Hb. assert (spaced 0 l) as Hs0 by (by apply (spaced_mono 172800); [lia|]).
  pose proof (fun u => offset_at_spec t first l u Ht Hs0) as Hat.
  unfold from_civil. destruct Ht as (Hld & Hf & Hn & Htr). rewrite Hld, Hf, Hn. simpl.
  assert (l = [] -> returns (Some (civil_secs c - first)) (fun r => forall u,
    u + offset_scan first l u = civil_secs c -> r + offset_scan first l r = civil_secs c /\ r <= u)) as Hnil.
  { intros ->. apply returns_ret. simpl. lia. }
  destruct (tz_trans t) as [trans|]; [|by apply Hnil].
  destruct (Z.eqb_spec (alen l) 0) as [E|E].
  { apply Hnil. apply nil_length_inv. unfold alen in E. lia. }
  rewrite !Hat. simpl. rewrite !Hat. simpl. apply returns_ret. intros u Hu.
  set (L := civil_secs c) in *. pose proof (Hb u) as Hbu.
  destruct (offset_scan_window first l (L - 86400) (L + 86400)) as [cut Hcut]; [lia|done|].
  set (a := offset_scan first l (L - 86400)) in *. set (b := offset_scan first l (L + 86400)) in *.
  specialize (Hcut u ltac:(lia)).
  assert (u = L - a /\ offset_scan first l (L - a) = a \/ u = L - b /\ offset_scan first l (L - b) = b) as Hab.
  { destruct (u <? cut).
    - left. assert (u = L - a) as E1 by lia. split; [done|]. by rewrite <- E1.
    - right. assert (u = L - b) as E1 by lia. split; [done|]. by rewrite <- E1. }
  destruct (Z.eqb_spec (offset_scan first l (L - a)) a) as [Ea|Ea],
    (Z.eqb_spec (offset_scan first l (L - b)) b) as [Eb|Eb]; simpl.
  - destruct (Z.ltb_spec (L - a) (L - b)); destruct Hab as [[-> ?]|[-> ?]]; lia.
  - destruct Hab as [[-> ?]|[-> ?]]; lia.
  - destruct Hab as [[-> ?]|[-> ?]]; lia.
  - destruct Hab as [[-> ?]|[-> ?]]; lia.
Qed.

(** * Civil fields *)

Lemma to_civil_fields utc off : day_range ((utc + off) / 86400) ->
  let c := to_civil utc off in
  valid c = true /\ civil_secs c = utc + off /\ in_signed 32 (c_y c) /\
  0 <= c_h c < 24 /\ 0 <= c_mi c < 60 /\ 0 <= c_s c < 60 /\ c_ns c = 0 /\ c_off c = off.
Proof.
  intros Hr. unfold to_civil. rewrite floor_div_spec by lia.
  set (z := (utc + off) / 86400) in *.
  pose proof (Z.mod_pos_bound (utc + off) 86400 ltac:(lia)) as Hrem.
  pose proof (Z.mod_eq (utc + off) 86400 ltac:(lia)) as Er. fold z in Er.
  replace (utc + off - z * 86400) with ((utc + off) mod 86400) by lia.
  set (rem := (utc + off) mod 86400) in *.
  rewrite !Z.rem_mod_nonneg by lia.
  rewrite !Z.quot_div_nonneg by (try lia; apply Z.mod_pos_bound; lia).
  assert (0 <= rem / 3600 < 24 /\ 0 <= rem mod 3600 / 60 < 60 /\ 0 <= rem mod 60 < 60 /\
    rem = rem / 3600 * 3600 + rem mod 3600 / 60 * 60 + rem mod 60) as (Hh & Hmi & Hsec & Esum).
  { clear -Hrem. divlia. }
  rewrite !wrap_id by (unfold in_unsigned; lia).
  destruct (civil_from_days_spec z Hr) as (Hy & Hv & E). set (cd := civil_from_days z) in *.
  cbn [c_y c_mo c_d c_h c_mi c_s c_ns c_off]. unfold civil_secs, valid. cbn [c_y c_mo c_d c_h c_mi c_s c_ns c_off].
  rewrite Hv, E. by split_and!; try lia.
Qed.

(** * Theorems *)

(** C10: [offset_at], a binary search for the last transition, gives the
    offset that a scan of the table from its first transition gives, for every
    instant and every table in increasing order. *)
Theorem offset_at_is_scan t first l utc : tz_holds t first l -> spaced 0 l ->
  offset_at t utc = Some (offset_scan first l utc).
Proof. exact (offset_at_spec t first l utc). Qed.

(** C11: [from_civil] inverts local time: if the table's transitions are at
    least two days apart and its offsets within a day, then for every instant
    [u] the reading of [u] on the local clock is a valid civil time, and
    [from_civil] maps it back to the earliest instant with that reading ([u]
    itself, or the first of the two when the clock was set back).  For transitions
    that are closer [from_civil] may not try the offset between them. *)
Theorem local_time_inverts t first l u : tz_holds t first l -> spaced 172800 l ->
  (forall v, - 86400 <= offset_scan first l v <= 86400) ->
  day_range ((u + offset_scan first l u) / 86400) ->
  returns (to_civil_tz t u) (fun c => valid c = true /\
    civil_secs c = u + offset_scan first l u /\
    returns (from_civil c t) (fun r => r <= u /\
      r + offset_scan first l r = u + offset_scan first l u /\
      forall v, v + offset_scan first l v = u + offset_scan first l u -> r <= v)).
Proof.
  intros Ht Hs Hb Hr. unfold to_civil_tz.
  rewrite (offset_at_spec t first l u Ht) by (by apply (spaced_mono 172800); [lia|]).
  apply returns_ret. destruct (to_civil_fields _ _ Hr) as (Hv & E & _).
  set (c := to_civil u (offset_scan first l u)) in *. split_and!; [done|done|].
  eapply returns_mono; [by apply (from_civil_spec t first l)|]. simpl. rewrite E. intros r H.
  destruct (H u eq_refl) as [H1 H2]. split_and!; [done|done|]. intros v Hv'. by apply (H v).
Qed.

(** ** Witnesses: a zone with summer time *)

Definition berlin_2024 : tz_table := tz_of [1711846800; 1729990800] [7200; 3600] 2 3600.

Definition berlin_list : list (Z * Z) := [(1711846800, 7200); (1729990800, 3600)].

Lemma offset_at_is_scan_witness :
  offset_at berlin_2024 1720000000 = Some (offset_scan 3600 berlin_list 1720000000) /\
  offset_at berlin_2024 1720000000 = Some 7200.
Proof.
  split; [|by vm_compute]. apply (offset_at_is_scan berlin_2024 3600 berlin_list); [by vm_compute|].
  by split; [lia|].
Defined.

Lemma berlin_bound v : - 86400 <= offset_scan 3600 berlin_list v <= 86400.
Proof. simpl. destruct (_ <=? v); [destruct (_ <=? v)|]; lia. Qed.

(** 02:30 local time on the day the clock is set back: the second of the two
    instants maps to the first. *)
Lemma local_time_inverts_witness :
  returns (to_civil_tz berlin_2024 1729992600) (fun c => valid c = true /\
    civil_secs c = 1729992600 + 3600 /\
    returns (from_civil c berlin_2024) (fun r => r <= 1729992600 /\
      r + offset_scan 3600 berlin_list r = 1729992600 + 3600 /\
      forall v, v + offset_scan 3600 berlin_list v = 1729992600 + 3600 -> r <= v)) /\
  from_civil (to_civil 1729992600 3600) berlin_2024 = Some 1729989000.
Proof.
  split; [|by vm_compute].
  apply (local_time_inverts berlin_2024 3600 berlin_list 1729992600);
    [by vm_compute|by split; [lia|]|exact berlin_bound|by vm_compute].
Defined.
