(* ===== verification/ChronoFormat.v ===== *)
(** Timestamp writers: [src/chrono/format.hpp].

    A writer emits characters into a caller's buffer through [wbuf], which
    counts every character and stores those that fit.  Characters are their
    codes.  The [_text] functions say what a writer emits, as a list; the
    writers are proved to emit exactly that and to stay inside the buffer. *)
From Stdlib Require Import Ascii String.
From stdpp Require Import base numbers list option.
From Stdlib Require Import ZArith Lia.
From S2P Require Import Prelude Arrays Calendar Civil.

Local Open Scope Z_scope.

Inductive offset_style := os_none | z_or_colon | colon | compact | z_or_compact.

Inductive date_sep := iso_t | space | sep_none.

#[export] Instance offset_style_eq_dec : EqDecision offset_style.
Proof. solve_decision. Defined.

#[export] Instance date_sep_eq_dec : EqDecision date_sep.
Proof. solve_decision. Defined.

(** * wbuf *)
Record wbuf := mk_wbuf { w_p : list Z; w_cap : Z; w_n : Z }.

Definition wbuf_new (buf : list Z) (cap : Z) : wbuf := mk_wbuf buf cap 0.

Definition put (w : wbuf) (c : Z) : option wbuf :=
  p ← (if w_n w <? w_cap w then aset (w_p w) (w_n w) c else Some (w_p w));
  Some (mk_wbuf p (w_cap w) (w_n w + 1)).

Definition put_n (w : wbuf) (s : list Z) (k : Z) : option wbuf :=
  for_ 0 k (fun i w => c ← s.[i]; put w c) w.

(** A C string is the list of its characters. *)
Fixpoint put_cstr (w : wbuf) (s : list Z) : option wbuf :=
  match s with
  | [] => Some w
  | c :: s => w ← put w c; put_cstr w s
  end.

(** The digit loop: [tmp] is filled from the least significant digit. *)
Definition put_u_digits (v : Z) : option (list Z * Z) :=
  while_ 24 (fun '(tmp, k, v) =>
    tmp ← aset tmp k (ch "0" + v mod 10);
    let k := k + 1 in
    let v := v / 10 in
    Some (if negb (v =? 0) then inl (tmp, k, v) else inr (tmp, k))) (replicate 24 0, 0, v).

Definition put_u_fill (w : wbuf) (v width fill : Z) : option wbuf :=
  '(tmp, k) ← put_u_digits v;
  w ← for_ k width (fun _ w => put w fill) w;
  for_down k (fun i w => c ← tmp.[i]; put w c) w.

(** [put_u] with its default [fill]. *)
Definition put_u (w : wbuf) (v width : Z) : option wbuf := put_u_fill w v width (ch "0").

Definition put_i (w : wbuf) (v width : Z) : option wbuf :=
  if v <? 0 then
    w ← put w (ch "-");
    put_u w (wrap 64 (wrap 64 (- (v + 1)) + 1)) width
  else put_u w (wrap 64 v) width.

Definition __put_year (w : wbuf) (y : Z) : option wbuf :=
  if (0 <=? y) && (y <=? 9999) then put_u w (wrap 64 y) 4
  else
    w ← put w (if y <? 0 then ch "-" else ch "+");
    let mag := if y <? 0 then - y else y in
    put_u w (wrap 64 mag) 4.

Definition subsec_scale (digits : Z) : option Z :=
  for_ digits 9 (fun _ scale => Some (wrap 32 (scale * 10))) 1.

Definition __put_subsec (w : wbuf) (ns digits : Z) : option wbuf :=
  if digits =? 0 then Some w
  else
    let digits := if 9 <? digits then 9 else digits in
    scale ← subsec_scale digits;
    w ← put w (ch ".");
    put_u w (ns / scale) digits.

Definition __put_offset (w : wbuf) (off : Z) (os : offset_style) : option wbuf :=
  if decide (os = os_none) then Some w
  else if (off =? 0) && (bool_decide (os = z_or_colon) || bool_decide (os = z_or_compact)) then put w (ch "Z")
  else
    w ← put w (if off <? 0 then ch "-" else ch "+");
    let mag := wrap 32 (if off <? 0 then - off else off) in
    w ← put_u w (mag / 3600) 2;
    w ← (if bool_decide (os = z_or_colon) || bool_decide (os = colon) then put w (ch ":") else Some w);
    put_u w ((mag mod 3600) / 60) 2.

Definition put_hms (w : wbuf) (c : civil) : option wbuf :=
  w ← put_u w (c_h c) 2;
  w ← put w (ch ":");
  w ← put_u w (c_mi c) 2;
  w ← put w (ch ":");
  put_u w (c_s c) 2.

(** The writers below return the buffer and the count [w.n]. *)
Definition finish (m : option wbuf) : option (list Z * Z) := w ← m; Some (w_p w, w_n w).

Definition emit_iso8601 (w : wbuf) (c : civil) (subsec_digits : Z) (sep : date_sep) (os : offset_style)
    : option wbuf :=
  w ← __put_year w (c_y c);
  w ← put w (ch "-");
  w ← put_u w (c_mo c) 2;
  w ← put w (ch "-");
  w ← put_u w (c_d c) 2;
  w ← put w (if decide (sep = space) then ch " " else ch "T");
  w ← put_hms w c;
  w ← __put_subsec w (c_ns c) subsec_digits;
  __put_offset w (c_off c) os.

Definition __iso8601 (buf : list Z) (cap : Z) (c : civil) (subsec_digits : Z) (sep : date_sep)
    (os : offset_style) : option (list Z * Z) :=
  finish (emit_iso8601 (wbuf_new buf cap) c subsec_digits sep os).

Definition month_abbr : list string :=
  ["???"; "Jan"; "Feb"; "Mar"; "Apr"; "May"; "Jun"; "Jul"; "Aug"; "Sep"; "Oct"; "Nov"; "Dec"]%string.

Definition month_name : list string :=
  ["???"; "January"; "February"; "March"; "April"; "May"; "June"; "July"; "August"; "September";
   "October"; "November"; "December"]%string.

Definition weekday_abbr : list string := ["Sun"; "Mon"; "Tue"; "Wed"; "Thu"; "Fri"; "Sat"]%string.

Definition weekday_name : list string :=
  ["Sunday"; "Monday"; "Tuesday"; "Wednesday"; "Thursday"; "Friday"; "Saturday"]%string.

(** [put_cstr(table[i])] *)
Definition put_entry (w : wbuf) (table : list string) (i : Z) : option wbuf :=
  s ← table.[i]; put_cstr w (cstr s).

(** [wd < 7 ? wd : 0] and [c.mo <= 12 ? c.mo : 0] *)
Definition wd_index (wd : Z) : Z := if wd <? 7 then wd else 0.

Definition mo_index (mo : Z) : Z := if mo <=? 12 then mo else 0.

Definition emit_rfc2822 (w : wbuf) (c : civil) (gmt_literal : bool) : option wbuf :=
  let wd := civil_weekday_of c in
  w ← put_entry w weekday_abbr (wd_index wd);
  w ← put w (ch ",");
  w ← put w (ch " ");
  w ← put_u w (c_d c) 2;
  w ← put w (ch " ");
  w ← put_entry w month_abbr (mo_index (c_mo c));
  w ← put w (ch " ");
  w ← put_i w (c_y c) 4;
  w ← put w (ch " ");
  w ← put_hms w c;
  w ← put w (ch " ");
  if gmt_literal then put_cstr w (cstr "GMT") else __put_offset w (c_off c) compact.

Definition __rfc2822 (buf : list Z) (cap : Z) (c : civil) (gmt_literal : bool) : option (list Z * Z) :=
  finish (emit_rfc2822 (wbuf_new buf cap) c gmt_literal).

Definition emit_asctime (w : wbuf) (c : civil) : option wbuf :=
  let wd := civil_weekday_of c in
  w ← put_entry w weekday_abbr (wd_index wd);
  w ← put w (ch " ");
  w ← put_entry w month_abbr (mo_index (c_mo c));
  w ← put w (ch " ");
  w ← put_u_fill w (c_d c) 2 (ch " ");
  w ← put w (ch " ");
  w ← put_hms w c;
  w ← put w (ch " ");
  put_i w (c_y c) 4.

Definition __asctime (buf : list Z) (cap : Z) (c : civil) : option (list Z * Z) :=
  finish (emit_asctime (wbuf_new buf cap) c).

Definition emit_compact (w : wbuf) (c : civil) (with_z : bool) : option wbuf :=
  w ← put_u w (wrap 64 (if c_y c <? 0 then 0 else c_y c)) 4;
  w ← put_u w (c_mo c) 2;
  w ← put_u w (c_d c) 2;
  w ← put w (ch "T");
  w ← put_u w (c_h c) 2;
  w ← put_u w (c_mi c) 2;
  w ← put_u w (c_s c) 2;
  if with_z then put w (ch "Z") else Some w.

Definition __compact (buf : list Z) (cap : Z) (c : civil) (with_z : bool) : option (list Z * Z) :=
  finish (emit_compact (wbuf_new buf cap) c with_z).

(** * Public writers: the count when it fits, 0 otherwise *)

Definition fitted (cap : Z) (m : option (list Z * Z)) : option (list Z * Z) :=
  '(buf, need) ← m; Some (buf, if need <=? cap then need else 0).

Definition size_of (m : option (list Z * Z)) : option Z := '(_, need) ← m; Some need.

Definition iso8601_size c subsec_digits sep os := size_of (__iso8601 [] 0 c subsec_digits sep os).

Definition write_iso8601 buf cap c subsec_digits sep os :=
  fitted cap (__iso8601 buf cap c subsec_digits sep os).

Definition write_rfc3339 buf cap c subsec_digits := write_iso8601 buf cap c subsec_digits iso_t z_or_colon.

Definition rfc3339_size c subsec_digits := iso8601_size c subsec_digits iso_t z_or_colon.

Definition write_iso_full buf cap c subsec_digits := write_iso8601 buf cap c subsec_digits space compact.

Definition iso_full_size c subsec_digits := iso8601_size c subsec_digits space compact.

Definition write_rfc2822 buf cap c := fitted cap (__rfc2822 buf cap c false).

Definition rfc2822_size c := size_of (__rfc2822 [] 0 c false).

Definition write_http_date buf cap c := fitted cap (__rfc2822 buf cap c true).

Definition http_date_size c := size_of (__rfc2822 [] 0 c true).

Definition write_asctime buf cap c := fitted cap (__asctime buf cap c).

Definition asctime_size c := size_of (__asctime [] 0 c).

Definition write_compact buf cap c with_z := fitted cap (__compact buf cap c with_z).

Definition compact_size c with_z := size_of (__compact [] 0 c with_z).

Definition write_log_stamp buf cap c subsec_digits := write_iso8601 buf cap c subsec_digits space os_none.

Definition log_stamp_size c subsec_digits := iso8601_size c subsec_digits space os_none.

(** * strftime *)

(** [((v % 100) + 100) % 100] *)
Definition two_digit_year (v : Z) : Z := wrap 64 (Z.rem (Z.rem v 100 + 100) 100).

(** [c.h % 12u == 0u ? 12u : c.h % 12u] *)
Definition hour12 (h : Z) : Z := if h mod 12 =? 0 then 12 else h mod 12.

Definition put_mdy (w : wbuf) (c : civil) : option wbuf :=
  w ← put_u w (c_mo c) 2;
  w ← put w (ch "/");
  w ← put_u w (c_d c) 2;
  w ← put w (ch "/");
  put_u w (two_digit_year (c_y c)) 2.

Definition put_ampm (w : wbuf) (c : civil) : option wbuf :=
  put_cstr w (if c_h c <? 12 then cstr "AM" else cstr "PM").

(** The cases of the [switch] from [s] on. *)
Definition strftime_spec_tail (w : wbuf) (f : Z) (c : civil) : option wbuf :=
  let wd := civil_weekday_of c in
  if f =? ch "s" then put_i w (civil_secs c - c_off c) 1
  else if f =? ch "S" then put_u w (c_s c) 2
  else if f =? ch "t" then put w 9
  else if f =? ch "T" then put_hms w c
  else if f =? ch "u" then put_u w (if wd =? 0 then 7 else wd) 1
  else if f =? ch "U" then put_u w (wrap 32 (wrap 32 (civil_day_of_year c + 6) - wd) / 7) 2
  else if f =? ch "V" then put_u w (iso_wk (civil_iso_week_date c)) 2
  else if f =? ch "w" then put_u w wd 1
  else if f =? ch "W" then
    put_u w (wrap 32 (wrap 32 (civil_day_of_year c + 6) - (if wd =? 0 then 6 else wd - 1)) / 7) 2
  else if f =? ch "x" then put_mdy w c
  else if f =? ch "X" then put_hms w c
  else if f =? ch "y" then put_u w (two_digit_year (c_y c)) 2
  else if f =? ch "Y" then __put_year w (c_y c)
  else if f =? ch "z" then __put_offset w (c_off c) compact
  else if f =? ch "Z" then
    if c_off c =? 0 then put_cstr w (cstr "UTC") else __put_offset w (c_off c) compact
  else if f =? ch "%" then put w (ch "%")
  else w ← put w (ch "%"); put w f.

(** The [switch] on the specifier [f]. *)
Definition strftime_spec (w : wbuf) (f : Z) (c : civil) : option wbuf :=
  let wd := civil_weekday_of c in
  if f =? ch "a" then put_entry w weekday_abbr (wd_index wd)
  else if f =? ch "A" then put_entry w weekday_name (wd_index wd)
  else if (f =? ch "b") || (f =? ch "h") then put_entry w month_abbr (mo_index (c_mo c))
  else if f =? ch "B" then put_entry w month_name (mo_index (c_mo c))
  else if f =? ch "c" then emit_asctime w c
  else if f =? ch "C" then put_u w (wrap 64 (if 0 <=? c_y c then Z.quot (c_y c) 100 else 0)) 2
  else if f =? ch "d" then put_u w (c_d c) 2
  else if f =? ch "D" then put_mdy w c
  else if f =? ch "e" then put_u_fill w (c_d c) 2 (ch " ")
  else if f =? ch "F" then
    w ← __put_year w (c_y c);
    w ← put w (ch "-");
    w ← put_u w (c_mo c) 2;
    w ← put w (ch "-");
    put_u w (c_d c) 2
  else if f =? ch "g" then put_u w (two_digit_year (iso_year (civil_iso_week_date c))) 2
  else if f =? ch "G" then put_i w (iso_year (civil_iso_week_date c)) 4
  else if f =? ch "H" then put_u w (c_h c) 2
  else if f =? ch "I" then put_u w (hour12 (c_h c)) 2
  else if f =? ch "j" then put_u w (civil_day_of_year c) 3
  else if f =? ch "k" then put_u_fill w (c_h c) 2 (ch " ")
  else if f =? ch "l" then put_u_fill w (hour12 (c_h c)) 2 (ch " ")
  else if f =? ch "m" then put_u w (c_mo c) 2
  else if f =? ch "M" then put_u w (c_mi c) 2
  else if f =? ch "n" then put w 10
  else if f =? ch "p" then put_ampm w c
  else if f =? ch "P" then put_cstr w (if c_h c <? 12 then cstr "am" else cstr "pm")
  else if f =? ch "r" then
    w ← put_u w (hour12 (c_h c)) 2;
    w ← put w (ch ":");
    w ← put_u w (c_mi c) 2;
    w ← put w (ch ":");
    w ← put_u w (c_s c) 2;
    w ← put w (ch " ");
    put_ampm w c
  else if f =? ch "R" then
    w ← put_u w (c_h c) 2;
    w ← put w (ch ":");
    put_u w (c_mi c) 2
  else strftime_spec_tail w f c.

(** The loop over the format; [fmt] is the list of its characters. *)
Fixpoint emit_strftime (w : wbuf) (fmt : list Z) (c : civil) : option wbuf :=
  match fmt with
  | [] => Some w
  | f :: fmt =>
      if negb (f =? ch "%") then w ← put w f; emit_strftime w fmt c
      else
        match fmt with
        | [] => put w (ch "%")
        | f :: fmt => w ← strftime_spec w f c; emit_strftime w fmt c
        end
  end.

Definition __strftime (buf : list Z) (cap : Z) (fmt : list Z) (c : civil) : option (list Z * Z) :=
  finish (emit_strftime (wbuf_new buf cap) fmt c).

Definition strftime_size fmt c := size_of (__strftime [] 0 fmt c).

Definition write_strftime buf cap fmt c := fitted cap (__strftime buf cap fmt c).

(** * Durations *)

Definition ns_per_us : Z := 1000.
Definition ns_per_ms : Z := 1000 * ns_per_us.
Definition ns_per_s : Z := 1000 * ns_per_ms.
Definition ns_per_min : Z := 60 * ns_per_s.
Definition ns_per_hour : Z := 60 * ns_per_min.
Definition ns_per_day : Z := 24 * ns_per_hour.
Definition ns_per_week : Z := 7 * ns_per_day.

Definition emit_dur_hms (w : wbuf) (secs : Z) : option wbuf :=
  let d := secs / 86400 in
  let h := (secs / 3600) mod 24 in
  let m := (secs / 60) mod 60 in
  if negb (d =? 0) then
    w ← put_u w d 1;
    w ← put w (ch "d");
    w ← put w (ch " ");
    w ← put_u w h 2;
    w ← put w (ch ":");
    put_u w m 2
  else
    w ← put_u w h 2;
    w ← put w (ch ":");
    w ← put_u w m 2;
    w ← put w (ch ":");
    put_u w (secs mod 60) 2.

Definition __dur_hms (buf : list Z) (cap secs : Z) : option (list Z * Z) :=
  finish (emit_dur_hms (wbuf_new buf cap) secs).

Definition emit_dur_clock (w : wbuf) (ticks hz : Z) : option wbuf :=
  let hz := if hz =? 0 then 1 else hz in
  let secs := ticks / hz in
  if secs <? 3600 then
    w ← put_u w (secs / 60) 1;
    w ← put w (ch ":");
    w ← put_u w (secs mod 60) 2;
    w ← put w (ch ".");
    put_u w (wrap 64 (ticks mod hz * 100) / hz) 2
  else if secs <? 86400 then
    w ← put_u w (secs / 3600) 1;
    w ← put w (ch ":");
    w ← put_u w ((secs / 60) mod 60) 2;
    w ← put w (ch ":");
    put_u w (secs mod 60) 2
  else
    w ← put_u w (secs / 86400) 1;
    w ← put w (ch "d");
    w ← put w (ch " ");
    w ← put_u w ((secs / 3600) mod 24) 2;
    w ← put w (ch ":");
    put_u w ((secs / 60) mod 60) 2.

Definition __dur_clock (buf : list Z) (cap ticks hz : Z) : option (list Z * Z) :=
  finish (emit_dur_clock (wbuf_new buf cap) ticks hz).

(** The table [__c] of scales and suffixes. *)
Definition dur_comps : list (Z * string) :=
  [(ns_per_week, "w"); (ns_per_day, "d"); (ns_per_hour, "h"); (ns_per_min, "m");
   (ns_per_s, "s"); (ns_per_ms, "ms"); (ns_per_us, "us"); (1, "ns")]%string.

(** The loop over [__c]; [break] stops it. *)
Fixpoint emit_dur_comps (w : wbuf) (rest : Z) (comps : list (Z * string)) : option wbuf :=
  match comps with
  | [] => Some w
  | (scale, suffix) :: comps =>
      let v := rest / scale in
      if v =? 0 then emit_dur_comps w rest comps
      else
        w ← put_u w v 1;
        w ← put_cstr w (cstr suffix);
        let rest := rest - v * scale in
        if rest =? 0 then Some w else emit_dur_comps w rest comps
  end.

Definition emit_dur_units (w : wbuf) (ns : Z) : option wbuf :=
  if ns =? 0 then w ← put w (ch "0"); put w (ch "s")
  else emit_dur_comps w ns dur_comps.

Definition __dur_units (buf : list Z) (cap ns : Z) : option (list Z * Z) :=
  finish (emit_dur_units (wbuf_new buf cap) ns).

Definition write_duration_hms buf cap secs := fitted cap (__dur_hms buf cap secs).

Definition duration_hms_size secs := size_of (__dur_hms [] 0 secs).

Definition write_duration_clock buf cap ticks hz := fitted cap (__dur_clock buf cap ticks hz).

Definition duration_clock_size ticks hz := size_of (__dur_clock [] 0 ticks hz).

Definition write_duration_units buf cap ns := fitted cap (__dur_units buf cap ns).

Definition duration_units_size ns := size_of (__dur_units [] 0 ns).

Definition iso8601_max : Z := 48.
Definition rfc2822_max : Z := 48.
Definition asctime_max : Z := 32.
Definition compact_max : Z := 16.
Definition duration_max : Z := 64.

(** * What is emitted *)

(** The buffer is the caller's: it has the capacity it was given with. *)
Definition wbuf_ok (w : wbuf) : Prop := alen (w_p w) = w_cap w /\ 0 <= w_n w.

Definition put1 (w : wbuf) (c : Z) : wbuf :=
  mk_wbuf (if w_n w <? w_cap w then upd (w_p w) (w_n w) c else w_p w) (w_cap w) (w_n w + 1).

Definition appends (w : wbuf) (s : list Z) : wbuf := foldl put1 w s.

(** [f] writes the characters of [s], whatever is in the buffer. *)
Definition emits (f : wbuf -> option wbuf) (s : list Z) : Prop :=
  forall w, wbuf_ok w -> f w = Some (appends w s).

Lemma put1_ok w c : wbuf_ok w -> wbuf_ok (put1 w c).
Proof.
  intros [H1 H2]. split; simpl; [|lia]. destruct (_ <? _); [|done]. by rewrite alen_upd.
Qed.

Lemma appends_ok w s : wbuf_ok w -> wbuf_ok (appends w s).
Proof. revert w. induction s as [|c s IH]; intros w Hw; [done|]. by apply IH, put1_ok. Qed.

Lemma appends_app w s t : appends w (s ++ t) = appends (appends w s) t.
Proof. apply foldl_app. Qed.

Lemma appends_count w s : w_n (appends w s) = w_n w + alen s /\ w_cap (appends w s) = w_cap w.
Proof.
  revert w. induction s as [|c s IH]; intros w; unfold alen in *; simpl; [split; [lia|done]|].
  destruct (IH (put1 w c)) as [-> ->]. simpl. split; [lia|done].
Qed.

(** The characters that fit are in the buffer, the rest of it is untouched. *)
Lemma appends_get w s i : wbuf_ok w ->
  (w_p (appends w s)).[i] =
    if decide (w_n w <= i < w_n w + alen s /\ i < w_cap w) then s.[i - w_n w] else (w_p w).[i].
Proof.
  revert w. induction s as [|c s IH]; intros w Hw.
  { unfold alen. simpl. rewrite decide_False by lia. done. }
  change (appends w (c :: s)) with (appends (put1 w c) s). rewrite IH by (by apply put1_ok).
  destruct Hw as [Hp Hn]. assert (alen (c :: s) = alen s + 1) as L by (unfold alen; simpl; lia).
  rewrite L. pose proof (alen_nonneg s). cbn [put1 w_p w_cap w_n].
  destruct (decide (w_n w = i)) as [<-|Hne].
  - rewrite (decide_False (P := w_n w + 1 <= w_n w < _ /\ _)) by lia.
    destruct (Z.ltb_spec (w_n w) (w_cap w)).
    + rewrite decide_True by lia. rewrite aget_upd_eq by lia. by rewrite Z.sub_diag.
    + rewrite decide_False by lia. done.
  - assert ((if w_n w <? w_cap w then upd (w_p w) (w_n w) c else w_p w).[i] = (w_p w).[i]) as ->.
    { destruct (_ <? _); [|done]. by apply aget_upd_ne. }
    destruct (decide (w_n w + 1 <= i < w_n w + 1 + alen s /\ i < w_cap w)).
    + rewrite decide_True by lia. rewrite <- (Z2Nat.id (i - w_n w)), <- (Z2Nat.id (i - (w_n w + 1))), !aget_nat by lia.
      replace (Z.to_nat (i - w_n w)) with (S (Z.to_nat (i - (w_n w + 1)))) by lia. done.
    + by rewrite decide_False by lia.
Qed.

Section emits_rules.
Implicit Types (f g : wbuf -> option wbuf) (s t : list Z).

Lemma emits_put c : emits (fun w => put w c) [c].
Proof.
  intros w [Hp Hn]. unfold put, appends. simpl. unfold put1. destruct (Z.ltb_spec (w_n w) (w_cap w)).
  - by rewrite aset_in by lia.
  - done.
Qed.

Lemma emits_ret : emits (fun w => Some w) [].
Proof. intros w _. done. Qed.

Lemma emits_bind f g s t : emits f s -> emits g t -> emits (fun w => w ← f w; g w) (s ++ t).
Proof.
  intros Hf Hg w Hw. rewrite (Hf w Hw). simpl. rewrite Hg by (by apply appends_ok). by rewrite appends_app.
Qed.

Lemma emits_ext f s t : s = t -> emits f s -> emits f t.
Proof. by intros ->. Qed.

Lemma emits_if (b : bool) f g s t : emits f s -> emits g t ->
  emits (fun w => if b then f w else g w) (if b then s else t).
Proof. by destruct b. Qed.

Lemma emits_put_cstr s : emits (fun w => put_cstr w s) s.
Proof.
  induction s as [|c s IH]; [apply emits_ret|].
  exact (emits_bind _ _ [c] s (emits_put c) IH).
Qed.

Lemma emits_repeat lo hi c : emits (for_ lo hi (fun _ w => put w c)) (replicate (Z.to_nat (hi - lo)) c).
Proof.
  unfold for_. generalize (Z.to_nat (hi - lo)) as n. intros n. revert lo.
  induction n as [|n IH]; intros lo; [apply emits_ret|].
  exact (emits_bind _ _ [c] (replicate n c) (emits_put c) (IH (lo + 1))).
Qed.

(** [while ( k != 0 ) put(tmp[--k])] writes the first [k] of [tmp] backwards. *)
Lemma emits_backwards tmp k : 0 <= k <= alen tmp ->
  emits (for_down k (fun i w => c ← tmp.[i]; put w c)) (reverse (take (Z.to_nat k) tmp)).
Proof.
  intros Hk. unfold for_down. assert (Z.to_nat k <= length tmp)%nat as Hle by (unfold alen in Hk; lia).
  revert Hle. generalize (Z.to_nat k) as n. clear k Hk. induction n as [|n IH]; intros Hle; [apply emits_ret|].
  destruct (lookup_lt_is_Some_2 tmp n) as [c Hc]; [lia|].
  rewrite (take_S_r _ _ c) by done. rewrite reverse_snoc.
  apply (emits_bind (fun w => c ← tmp.[Z.of_nat n]; put w c) (for_dn n _) [c]); [|apply IH; lia].
  rewrite aget_nat, Hc. apply emits_put.
Qed.
End emits_rules.

(** * Decimal text *)

(** Digits from the least significant one; 24 is the size of [tmp]. *)
Fixpoint dec_rev (fuel : nat) (v : Z) : list Z :=
  match fuel with
  | O => []
  | S fuel => (ch "0" + v mod 10) :: (if v / 10 =? 0 then [] else dec_rev fuel (v / 10))
  end.

Definition decimal (v : Z) : list Z := reverse (dec_rev 24 v).

Definition padded (width fill v : Z) : list Z :=
  replicate (Z.to_nat (width - alen (decimal v))) fill ++ decimal v.

Definition is_digit (c : Z) : Prop := 48 <= c <= 57.

Definition digits_value (l : list Z) : Z := foldl (fun v c => v * 10 + (c - 48)) 0 l.

Lemma put_u_digits_loop f tmp k v :
  0 <= v < 10 ^ Z.of_nat f -> alen tmp = 24 -> 0 <= k -> k + Z.of_nat f = 24 -> (1 <= f)%nat ->
  exists tmp' k', while_ f (fun '(tmp, k, v) =>
    tmp ← aset tmp k (ch "0" + v mod 10);
    let k := k + 1 in
    let v := v / 10 in
    Some (if negb (v =? 0) then inl (tmp, k, v) else inr (tmp, k))) (tmp, k, v) = Some (tmp', k') /\
  take (Z.to_nat k') tmp' = take (Z.to_nat k) tmp ++ dec_rev f v /\ k < k' <= 24 /\ alen tmp' = 24.
Proof.
  revert tmp k v. induction f as [|f IH]; intros tmp k v Hv Hl Hk Hf Hf1; [lia|].
  cbn [while_]. rewrite aset_in by lia. cbn [mbind option_bind].
  set (d := ch "0" + v mod 10). set (tmp1 := upd tmp k d).
  assert (take (Z.to_nat (k + 1)) tmp1 = take (Z.to_nat k) tmp ++ [d]) as E1.
  { unfold tmp1, upd. unfold alen in Hl. replace (Z.to_nat (k + 1)) with (S (Z.to_nat k)) by lia.
    rewrite (take_S_r _ _ d) by (apply list_lookup_insert_eq; lia).
    by rewrite take_insert_ge by lia. }
  assert (alen tmp1 = 24) as L1 by (unfold tmp1; by rewrite alen_upd).
  cbn [dec_rev]. fold d. destruct (Z.eqb_spec (v / 10) 0) as [E0|E0]; cbn [negb].
  - exists tmp1, (k + 1). split_and!; (done || lia).
  - rewrite Nat2Z.inj_succ, Z.pow_succ_r in Hv by lia.
    assert (0 <= v / 10 < 10 ^ Z.of_nat f) as Hv' by (split; [divlia|apply Z.div_lt_upper_bound; lia]).
    assert (f <> 0%nat) by (intros ->; simpl in Hv'; lia).
    destruct (IH tmp1 (k + 1) (v / 10)) as (tmp' & k' & Ew & Et & Hk' & Hl'); try lia.
    exists tmp', k'. split_and!; [done| |lia|lia|done]. rewrite Et, E1. by rewrite <- app_assoc.
Qed.

Lemma emits_put_u v width fill : 0 <= v < 2 ^ 64 ->
  emits (fun w => put_u_fill w v width fill) (padded width fill v).
Proof.
  intros Hv. destruct (put_u_digits_loop 24 (replicate 24 0) 0 v) as (tmp & k & E & Et & Hk & Hl);
    [split; [lia|]; assert (2 ^ 64 < 10 ^ Z.of_nat 24) by done; lia|done|lia|done|lia|].
  change (put_u_digits v = Some (tmp, k)) in E. unfold put_u_fill. rewrite E. cbn [mbind option_bind].
  change (take (Z.to_nat 0) (replicate 24 0) ++ dec_rev 24 v) with (dec_rev 24 v) in Et.
  assert (alen (decimal v) = k) as Ek.
  { unfold decimal, alen. rewrite length_reverse, <- Et, length_take. unfold alen in Hl. lia. }
  unfold padded. rewrite Ek. unfold decimal. rewrite <- Et.
  apply emits_bind; [apply emits_repeat|apply emits_backwards; lia].
Qed.

Lemma dec_rev_digits f v : 0 <= v -> Forall is_digit (dec_rev f v).
Proof.
  revert v. induction f as [|f IH]; intros v Hv; simpl; [constructor|].
  pose proof (Z.mod_pos_bound v 10 ltac:(lia)). constructor.
  - unfold is_digit. change (ch "0") with 48. lia.
  - destruct (v / 10 =? 0); [constructor|]. apply IH. divlia.
Qed.

Lemma dec_rev_value f v : 0 <= v < 10 ^ Z.of_nat f ->
  foldr (fun c v => v * 10 + (c - 48)) 0 (dec_rev f v) = v.
Proof.
  revert v. induction f as [|f IH]; intros v Hv; [simpl in Hv; simpl; lia|].
  cbn [dec_rev foldr]. change (ch "0") with 48.
  rewrite Nat2Z.inj_succ, Z.pow_succ_r in Hv by lia.
  pose proof (Z.div_mod v 10 ltac:(lia)) as Ev.
  destruct (Z.eqb_spec (v / 10) 0) as [E|E]; [simpl; lia|].
  rewrite IH; [lia|]. split; [divlia|apply Z.div_lt_upper_bound; lia].
Qed.

Lemma dec_rev_length f v width : 0 <= v < 10 ^ Z.of_nat width -> (1 <= width)%nat ->
  (length (dec_rev f v) <= width)%nat.
Proof.
  revert v width. induction f as [|f IH]; intros v width Hv Hw; [simpl; lia|].
  cbn [dec_rev length]. destruct (Z.eqb_spec (v / 10) 0); [simpl; lia|].
  destruct width as [|width]; [lia|]. rewrite Nat2Z.inj_succ, Z.pow_succ_r in Hv by lia.
  assert (0 <= v / 10 < 10 ^ Z.of_nat width) as Hv' by (split; [divlia|apply Z.div_lt_upper_bound; lia]).
  assert (width <> 0%nat) by (intros ->; simpl in Hv'; lia).
  specialize (IH (v / 10) width Hv'). lia.
Qed.

Lemma foldl_reverse {A B} (f : B -> A -> B) (b : B) (l : list A) :
  foldl f b (reverse l) = foldr (fun x y => f y x) b l.
Proof. induction l as [|x l IH]; [done|]. rewrite reverse_cons, foldl_app. simpl. by rewrite IH. Qed.

Lemma digits_value_app l r : digits_value (l ++ r) =
  foldl (fun v c => v * 10 + (c - 48)) (digits_value l) r.
Proof. unfold digits_value. by rewrite foldl_app. Qed.

Lemma digits_value_zeros n l : digits_value (replicate n 48 ++ l) = digits_value l.
Proof.
  rewrite digits_value_app. f_equal. unfold digits_value.
  induction n as [|n IH]; [done|]. simpl. done.
Qed.

Lemma digits_value_decimal v : 0 <= v < 2 ^ 64 -> digits_value (decimal v) = v.
Proof.
  intros Hv. unfold digits_value, decimal. rewrite foldl_reverse.
  apply dec_rev_value. assert (2 ^ 64 < 10 ^ Z.of_nat 24) by done. lia.
Qed.

Lemma padded_digits width v : 0 <= v -> Forall is_digit (padded width 48 v).
Proof.
  intros Hv. unfold padded. apply Forall_app. split.
  - apply Forall_replicate. unfold is_digit. lia.
  - unfold decimal. apply Forall_reverse, dec_rev_digits. done.
Qed.

Lemma padded_value width v : 0 <= v < 2 ^ 64 -> digits_value (padded width 48 v) = v.
Proof. intros. unfold padded. rewrite digits_value_zeros. by apply digits_value_decimal. Qed.

Lemma padded_length width v : 0 <= v < 10 ^ width -> 1 <= width ->
  length (padded width 48 v) = Z.to_nat width.
Proof.
  intros Hv Hw. unfold padded. rewrite length_app, length_replicate.
  assert (length (decimal v) <= Z.to_nat width)%nat.
  { unfold decimal. rewrite length_reverse. apply dec_rev_length; [|lia]. by rewrite Z2Nat.id by lia. }
  unfold alen. lia.
Qed.

Lemma decimal_nonempty v : decimal v <> [].
Proof. unfold decimal. intros E%(f_equal reverse). rewrite reverse_involutive in E. done. Qed.

(** * The text of each writer *)

Definition num (width v : Z) : list Z := padded width (ch "0") v.

Definition int_text (width v : Z) : list Z :=
  if v <? 0 then [ch "-"] ++ num width (- v) else num width v.

Definition year_text (y : Z) : list Z :=
  if (0 <=? y) && (y <=? 9999) then num 4 y
  else [if y <? 0 then ch "-" else ch "+"] ++ num 4 (Z.abs y).

Definition subsec_text (ns digits : Z) : list Z :=
  if digits =? 0 then []
  else let digits := Z.min 9 digits in [ch "."] ++ num digits (ns / 10 ^ (9 - digits)).

Definition offset_text (off : Z) (os : offset_style) : list Z :=
  if decide (os = os_none) then []
  else if (off =? 0) && (bool_decide (os = z_or_colon) || bool_decide (os = z_or_compact)) then [ch "Z"]
  else
    [if off <? 0 then ch "-" else ch "+"] ++ num 2 (Z.abs off / 3600) ++
    (if bool_decide (os = z_or_colon) || bool_decide (os = colon) then [ch ":"] else []) ++
    num 2 (Z.abs off mod 3600 / 60).

Definition hms_text (c : civil) : list Z :=
  num 2 (c_h c) ++ [ch ":"] ++ num 2 (c_mi c) ++ [ch ":"] ++ num 2 (c_s c).

Definition iso8601_text (c : civil) (digits : Z) (sep : date_sep) (os : offset_style) : list Z :=
  year_text (c_y c) ++ [ch "-"] ++ num 2 (c_mo c) ++ [ch "-"] ++ num 2 (c_d c) ++
  [if decide (sep = space) then ch " " else ch "T"] ++ hms_text c ++
  subsec_text (c_ns c) digits ++ offset_text (c_off c) os.

Definition entry_text (table : list string) (i : Z) : list Z := default [] (cstr <$> table.[i]).

Definition rfc2822_text (c : civil) (gmt : bool) : list Z :=
  entry_text weekday_abbr (civil_weekday_of c) ++ [ch ","] ++ [ch " "] ++ num 2 (c_d c) ++ [ch " "] ++
  entry_text month_abbr (mo_index (c_mo c)) ++ [ch " "] ++ int_text 4 (c_y c) ++ [ch " "] ++ hms_text c ++ [ch " "] ++
  (if gmt then cstr "GMT" else offset_text (c_off c) compact).

Definition asctime_text (c : civil) : list Z :=
  entry_text weekday_abbr (civil_weekday_of c) ++ [ch " "] ++ entry_text month_abbr (mo_index (c_mo c)) ++ [ch " "] ++
  padded 2 (ch " ") (c_d c) ++ [ch " "] ++ hms_text c ++ [ch " "] ++ int_text 4 (c_y c).

Definition compact_text (c : civil) (with_z : bool) : list Z :=
  num 4 (Z.max 0 (c_y c)) ++ num 2 (c_mo c) ++ num 2 (c_d c) ++ [ch "T"] ++
  num 2 (c_h c) ++ num 2 (c_mi c) ++ num 2 (c_s c) ++ (if with_z then [ch "Z"] else []).

(** The fields are values of their C++ types. *)
Record civil_typed (c : civil) : Prop := {
  ty_y : in_signed 32 (c_y c); ty_mo : in_unsigned 32 (c_mo c); ty_d : in_unsigned 32 (c_d c);
  ty_h : in_unsigned 32 (c_h c); ty_mi : in_unsigned 32 (c_mi c); ty_s : in_unsigned 32 (c_s c);
  ty_ns : in_unsigned 32 (c_ns c); ty_off : in_signed 32 (c_off c);
}.

Lemma emits_num v width : 0 <= v < 2 ^ 64 -> emits (fun w => put_u w v width) (num width v).
Proof. apply emits_put_u. Qed.

Lemma emits_put_i v width : in_signed 64 v -> emits (fun w => put_i w v width) (int_text width v).
Proof.
  intros [H1 H2]. change (2 ^ (64 - 1)) with (2 ^ 63) in *. unfold put_i, int_text.
  destruct (Z.ltb_spec v 0).
  - apply emits_bind; [apply emits_put|].
    rewrite (wrap_id 64 (- (v + 1))) by (unfold in_unsigned; lia).
    replace (- (v + 1) + 1) with (- v) by lia.
    rewrite wrap_id by (unfold in_unsigned; lia). apply emits_num. lia.
  - rewrite wrap_id by (unfold in_unsigned; lia). apply emits_num. lia.
Qed.

Lemma emits_year y : in_signed 32 y -> emits (fun w => __put_year w y) (year_text y).
Proof.
  intros [H1 H2]. change (2 ^ (32 - 1)) with (2 ^ 31) in *. unfold __put_year, year_text.
  destruct (_ && _) eqn:E.
  - apply andb_true_iff in E as [E1 E2]. rewrite wrap_id by (unfold in_unsigned; lia). apply emits_num. lia.
  - apply emits_bind; [apply emits_put|].
    replace (if y <? 0 then - y else y) with (Z.abs y) by (destruct (Z.ltb_spec y 0); lia).
    rewrite wrap_id by (unfold in_unsigned; lia). apply emits_num. lia.
Qed.

Lemma subsec_scale_spec digits : 1 <= digits <= 9 -> subsec_scale digits = Some (10 ^ (9 - digits)).
Proof. intros. each_value digits 1 9; by vm_compute. Qed.

Lemma emits_subsec ns digits : in_unsigned 32 ns -> 0 <= digits ->
  emits (fun w => __put_subsec w ns digits) (subsec_text ns digits).
Proof.
  intros Hns Hd. unfold __put_subsec, subsec_text, in_unsigned in *.
  destruct (Z.eqb_spec digits 0); [apply emits_ret|].
  replace (if 9 <? digits then 9 else digits) with (Z.min 9 digits) by (destruct (Z.ltb_spec 9 digits); lia).
  cbv zeta. rewrite subsec_scale_spec by lia. apply emits_bind; [apply emits_put|].
  apply emits_num. assert (0 < 10 ^ (9 - Z.min 9 digits)) by (apply Z.pow_pos_nonneg; lia).
  split; [apply Z.div_pos; lia|]. apply (Z.le_lt_trans _ ns); [|lia].
  apply Z.div_le_upper_bound; [lia|]. nia.
Qed.

Lemma emits_offset off os : in_signed 32 off -> emits (fun w => __put_offset w off os) (offset_text off os).
Proof.
  intros [H1 H2]. change (2 ^ (32 - 1)) with (2 ^ 31) in *. unfold __put_offset, offset_text.
  destruct (decide _); [apply emits_ret|]. destruct (_ && _); [apply emits_put|].
  replace (if off <? 0 then - off else off) with (Z.abs off) by (destruct (Z.ltb_spec off 0); lia).
  rewrite wrap_id by (unfold in_unsigned; lia).
  apply emits_bind; [apply emits_put|]. apply emits_bind; [apply emits_num; divlia|].
  apply emits_bind; [apply emits_if; [apply emits_put|apply emits_ret]|]. apply emits_num. divlia.
Qed.

Lemma emits_entry table i s : table.[i] = Some s ->
  emits (fun w => put_entry w table i) (entry_text table i).
Proof. intros E. unfold put_entry, entry_text. rewrite E. apply emits_put_cstr. Qed.

Lemma weekday_range z : 0 <= weekday_from_days z < 7.
Proof. rewrite weekday_from_days_mod. apply Z.mod_pos_bound. lia. Qed.

Lemma emits_weekday table c : alen table = 7 ->
  emits (fun w => put_entry w table (wd_index (civil_weekday_of c))) (entry_text table (civil_weekday_of c)).
Proof.
  intros Hl. pose proof (weekday_range (days_from_civil (c_y c) (c_mo c) (c_d c))) as Hr.
  change (weekday_from_days _) with (civil_weekday_of c) in Hr.
  unfold wd_index. rewrite (proj2 (Z.ltb_lt _ _)) by lia.
  destruct (aget_in table (civil_weekday_of c)) as [s Hs]; [lia|]. by eapply emits_entry.
Qed.

Lemma emits_month table mo : alen table = 13 -> 0 <= mo ->
  emits (fun w => put_entry w table (mo_index mo)) (entry_text table (mo_index mo)).
Proof.
  intros Hl Hm. destruct (aget_in table (mo_index mo)) as [s Hs]; [|by eapply emits_entry].
  unfold mo_index. destruct (Z.leb_spec mo 12); lia.
Qed.

(** Walks down a writer: each step is one of the emitters above. *)
Ltac emit_side := unfold in_signed, in_unsigned, hour12, two_digit_year in *; lia.

Ltac emit :=
  lazymatch goal with
  | |- emits (fun w => put w _) _ => apply emits_put
  | |- emits (fun w => put_cstr w _) _ => apply emits_put_cstr
  | |- emits (fun w => Some w) _ => apply emits_ret
  | |- emits Some _ => exact emits_ret
  | |- emits (fun w => put_u w _ _) _ => apply emits_num; try emit_side
  | |- emits (fun w => put_u_fill w _ _ _) _ => apply emits_put_u; try emit_side
  | |- emits (fun w => put_i w _ _) _ => apply emits_put_i; try emit_side
  | |- emits (fun w => __put_year w _) _ => apply emits_year; try emit_side
  | |- emits (fun w => __put_subsec w _ _) _ => apply emits_subsec; try emit_side
  | |- emits (fun w => __put_offset w _ _) _ => apply emits_offset; try emit_side
  | |- emits (fun w => put_entry w _ (wd_index _)) _ => apply emits_weekday; done
  | |- emits (fun w => put_entry w _ (mo_index _)) _ => apply emits_month; [done|emit_side]
  | |- emits (fun w => if _ then _ else _) _ => apply emits_if; emit
  | |- emits (fun w => _ ≫= _) _ => eapply emits_bind; [emit|emit]
  | |- _ => eassumption || idtac
  end.

Section writers.
Context (c : civil) (Hc : civil_typed c).

Lemma emits_hms : emits (fun w => put_hms w c) (hms_text c).
Proof using Hc. destruct Hc. unfold put_hms, hms_text. emit. Qed.

Lemma emits_iso8601 digits sep os : 0 <= digits ->
  emits (fun w => emit_iso8601 w c digits sep os) (iso8601_text c digits sep os).
Proof using Hc.
  intros Hd. pose proof emits_hms as H. destruct Hc. unfold emit_iso8601, iso8601_text.
  emit.
Qed.

Lemma emits_rfc2822 gmt : emits (fun w => emit_rfc2822 w c gmt) (rfc2822_text c gmt).
Proof using Hc.
  pose proof emits_hms as H. destruct Hc. unfold emit_rfc2822, rfc2822_text. cbv zeta. emit.
Qed.

Lemma emits_asctime : emits (fun w => emit_asctime w c) (asctime_text c).
Proof using Hc.
  pose proof emits_hms as H. destruct Hc. unfold emit_asctime, asctime_text. cbv zeta. emit.
Qed.

Lemma emits_compact z : emits (fun w => emit_compact w c z) (compact_text c z).
Proof using Hc.
  destruct Hc as [[Hy1 Hy2] ? ? ? ? ? ? ?]. change (2 ^ (32 - 1)) with (2 ^ 31) in *.
  unfold emit_compact, compact_text.
  replace (if c_y c <? 0 then 0 else c_y c) with (Z.max 0 (c_y c)) by (destruct (Z.ltb_spec (c_y c) 0); lia).
  rewrite wrap_id by (unfold in_unsigned; lia). emit.
Qed.
End writers.

(** Every specifier emits some text. *)
Lemma emits_two_digit_year v : emits (fun w => put_u w (two_digit_year v) 2) (num 2 (two_digit_year v)).
Proof. apply emits_num. apply wrap_range. lia. Qed.

Lemma emits_mdy c : civil_typed c -> exists s, emits (fun w => put_mdy w c) s.
Proof.
  intros []. eexists. unfold put_mdy. repeat (eapply emits_bind; [emit|]). apply emits_two_digit_year.
Qed.

Lemma wrap_unsigned64 w z : 0 <= w <= 64 -> 0 <= wrap w z < 2 ^ 64.
Proof.
  intros Hw. destruct (wrap_range w z) as [? ?]; [lia|].
  pose proof (Z.pow_le_mono_r 2 w 64 ltac:(lia) ltac:(lia)). lia.
Qed.

Lemma div_unsigned64 v k : 0 <= v < 2 ^ 64 -> 0 < k -> 0 <= v / k < 2 ^ 64.
Proof. intros. split; [apply Z.div_pos; lia|]. apply Z.div_lt_upper_bound; nia. Qed.

Lemma civil_secs_range c : civil_typed c -> in_signed 64 (civil_secs c - c_off c).
Proof.
  intros [[] [] [] [] [] [] [] []]. unfold civil_secs, days_from_civil, in_signed.
  change (2 ^ (64 - 1)) with (2 ^ 63). change (2 ^ (32 - 1)) with (2 ^ 31) in *.
  rewrite floor_div_spec by lia.
  set (y := c_y c - _). assert (- 2 ^ 31 - 1 <= y < 2 ^ 31) by (unfold y; destruct (_ <=? 2); lia).
  clearbody y. set (k := if 2 <? c_mo c then -3 else 9).
  assert (-3 <= k <= 9) by (unfold k; destruct (2 <? c_mo c); lia). clearbody k.
  pose proof (Z.mod_pos_bound y 400 ltac:(lia)) as Hm. pose proof (Z.mod_eq y 400 ltac:(lia)) as Em.
  replace (y - y / 400 * 400) with (y mod 400) by lia.
  set (yoe := y mod 400) in *. rewrite !(Z.quot_div_nonneg yoe) by lia.
  set (u := 153 * (c_mo c + k) + 2). assert (- 2 ^ 40 <= u <= 2 ^ 40) as Hu by lia. clearbody u.
  assert (- 2 ^ 40 <= Z.quot u 5 <= 2 ^ 40) by (clear -Hu; divlia).
  assert (- 2 ^ 23 <= y / 400 <= 2 ^ 23) by divlia.
  assert (0 <= yoe / 4 <= 100) by divlia. assert (0 <= yoe / 100 <= 4) by divlia. lia.
Qed.

Lemma iso_week_typed c : in_signed 32 (iso_year (civil_iso_week_date c)) /\
  in_unsigned 32 (iso_wk (civil_iso_week_date c)).
Proof. split; [apply swrap_range|apply wrap_range]; lia. Qed.

Lemma emits_strftime_spec f c : civil_typed c -> exists s, emits (fun w => strftime_spec w f c) s.
Proof.
  intros Hc. pose proof (emits_hms c Hc) as Hhms. pose proof (emits_asctime c Hc) as Hasc.
  destruct (emits_mdy c Hc) as [mdy Hmdy]. destruct (iso_week_typed c) as [Hiy Hiw].
  pose proof (civil_secs_range c Hc) as Hsecs. pose proof (wrap_range 32 (days_from_civil (c_y c) (c_mo c) (c_d c) -
    days_from_civil (c_y c) 1 1 + 1) ltac:(lia)) as Hdoy. change (in_unsigned 32 (civil_day_of_year c)) in Hdoy.
  pose proof (weekday_range (days_from_civil (c_y c) (c_mo c) (c_d c))) as Hwd.
  change (0 <= civil_weekday_of c < 7) in Hwd.
  assert (0 <= hour12 (c_h c) <= 12) as Hh12.
  { unfold hour12. pose proof (Z.mod_pos_bound (c_h c) 12 ltac:(lia)). destruct (Z.eqb_spec (c_h c mod 12) 0); lia. }
  assert (forall v, 0 <= wrap 32 v / 7 < 2 ^ 64) as Hweek.
  { intros v. apply div_unsigned64; [apply wrap_unsigned64|]; lia. }
  destruct Hc. unfold strftime_spec, strftime_spec_tail, put_ampm. cbv zeta.
  set (h12 := hour12 (c_h c)) in *. set (wk := civil_iso_week_date c) in *.
  set (doy := civil_day_of_year c) in *. set (secs := civil_secs c - c_off c) in *.
  clearbody h12 wk doy secs.
  eexists. emit. all: apply Hweek || (apply wrap_unsigned64; lia) || (destruct (_ =? 0); lia).
Qed.

Lemma emits_strftime fmt c : civil_typed c -> exists s, emits (fun w => emit_strftime w fmt c) s.
Proof.
  intros Hc. remember (length fmt) as n eqn:E. assert (length fmt <= n)%nat as Hn by lia. clear E.
  revert fmt Hn. induction n as [|n IH]; intros [|f fmt] Hn; simpl in *; try lia;
    try (exists []; apply emits_ret).
  destruct (f =? ch "%"); simpl.
  - destruct fmt as [|g fmt]; [exists [ch "%"]; apply emits_put|].
    destruct (emits_strftime_spec g c Hc) as [s Hs]. destruct (IH fmt) as [t Ht]; [simpl in Hn; lia|].
    exists (s ++ t). by apply (emits_bind (fun w => strftime_spec w g c) (fun w => emit_strftime w fmt c)).
  - destruct (IH fmt) as [t Ht]; [lia|]. exists ([f] ++ t).
    apply (emits_bind (fun w => put w f) (fun w => emit_strftime w fmt c)); [apply emits_put|done].
Qed.

(** ** strftime *)

(** The text of each conversion of a valid time. *)
Definition mdy_text (c : civil) : list Z :=
  num 2 (c_mo c) ++ [ch "/"] ++ num 2 (c_d c) ++ [ch "/"] ++ num 2 (c_y c mod 100).

Definition ampm_text (c : civil) : list Z := if c_h c <? 12 then cstr "AM" else cstr "PM".

Definition conversions (c : civil) : list (Z * list Z) :=
  let wd := civil_weekday_of c in
  let doy := days_before (c_y c) (c_mo c) + c_d c in
  let h12 := (c_h c + 11) mod 12 + 1 in
  let wk := civil_iso_week_date c in
  [(ch "a", entry_text weekday_abbr wd); (ch "A", entry_text weekday_name wd);
   (ch "b", entry_text month_abbr (c_mo c)); (ch "h", entry_text month_abbr (c_mo c)); (ch "B", entry_text month_name (c_mo c));
   (ch "c", asctime_text c); (ch "C", num 2 (Z.max 0 (c_y c) / 100)); (ch "d", num 2 (c_d c)); (ch "D", mdy_text c);
   (ch "e", padded 2 (ch " ") (c_d c));
   (ch "F", year_text (c_y c) ++ [ch "-"] ++ num 2 (c_mo c) ++ [ch "-"] ++ num 2 (c_d c));
   (ch "g", num 2 (iso_year wk mod 100)); (ch "G", int_text 4 (iso_year wk));
   (ch "H", num 2 (c_h c)); (ch "I", num 2 h12); (ch "j", num 3 doy);
   (ch "k", padded 2 (ch " ") (c_h c)); (ch "l", padded 2 (ch " ") h12);
   (ch "m", num 2 (c_mo c)); (ch "M", num 2 (c_mi c)); (ch "n", [10]);
   (ch "p", ampm_text c); (ch "P", if c_h c <? 12 then cstr "am" else cstr "pm");
   (ch "r", num 2 h12 ++ [ch ":"] ++ num 2 (c_mi c) ++ [ch ":"] ++ num 2 (c_s c) ++ [ch " "] ++ ampm_text c);
   (ch "R", num 2 (c_h c) ++ [ch ":"] ++ num 2 (c_mi c));
   (ch "s", int_text 1 (civil_secs c - c_off c)); (ch "S", num 2 (c_s c)); (ch "t", [9]); (ch "T", hms_text c);
   (ch "u", num 1 (if wd =? 0 then 7 else wd)); (ch "U", num 2 ((doy + 6 - wd) / 7)); (ch "V", num 2 (iso_wk wk));
   (ch "w", num 1 wd); (ch "W", num 2 ((doy + 6 - (wd + 6) mod 7) / 7));
   (ch "x", mdy_text c); (ch "X", hms_text c); (ch "y", num 2 (c_y c mod 100)); (ch "Y", year_text (c_y c));
   (ch "z", offset_text (c_off c) compact);
   (ch "Z", if c_off c =? 0 then cstr "UTC" else offset_text (c_off c) compact);
   (ch "%", [ch "%"])].

(** A specifier that is none of these is written as it stands. *)
Fixpoint convert (table : list (Z * list Z)) (f : Z) : list Z :=
  match table with
  | [] => [ch "%"] ++ [f]
  | (a, s) :: table => if f =? a then s else convert table f
  end.

Fixpoint strftime_text (fmt : list Z) (c : civil) : list Z :=
  match fmt with
  | [] => []
  | f :: fmt =>
      if f =? ch "%" then
        match fmt with [] => [ch "%"] | f :: fmt => convert (conversions c) f ++ strftime_text fmt c end
      else f :: strftime_text fmt c
  end.

Lemma two_digit_year_mod v : two_digit_year v = v mod 100.
Proof.
  unfold two_digit_year. assert (Z.rem (Z.rem v 100 + 100) 100 = v mod 100) as -> by divlia.
  apply wrap_id. unfold in_unsigned. pose proof (Z.mod_pos_bound v 100 ltac:(lia)). lia.
Qed.

Lemma hour12_mod h : hour12 h = (h + 11) mod 12 + 1.
Proof. unfold hour12. destruct (Z.eqb_spec (h mod 12) 0); divlia. Qed.

Lemma week_number doy k : 1 <= doy <= 366 -> 0 <= k < 7 ->
  wrap 32 (wrap 32 (doy + 6) - k) / 7 = (doy + 6 - k) / 7 /\ 0 <= (doy + 6 - k) / 7 < 2 ^ 64.
Proof.
  intros Hd Hk. rewrite (wrap_id 32 (doy + 6)) by (unfold in_unsigned; lia). rewrite wrap_id by (unfold in_unsigned; lia).
  split; [done|]. apply div_unsigned64; lia.
Qed.

Lemma if_orb {A} (a b : bool) (x y : A) : (if a then x else if b then x else y) = if a || b then x else y.
Proof. by destruct a. Qed.

Lemma emits_conversion f c : civil_typed c -> valid c = true -> emits (fun w => strftime_spec w f c) (convert (conversions c) f).
Proof.
  intros Hc Hv. pose proof (emits_hms c Hc) as Hhms. pose proof (emits_asctime c Hc) as Hasc.
  destruct (iso_week_typed c) as [Hiy Hiw]. pose proof (civil_secs_range c Hc) as Hsecs.
  assert (civil_valid (c_y c) (c_mo c) (c_d c) = true) as Hcv by (unfold valid in Hv; by destruct (civil_valid _ _ _)).
  pose proof (day_of_year_spec _ _ _ Hcv) as [Edoy Hdoy]. change (day_of_year _ _ _) with (civil_day_of_year c) in Edoy, Hdoy.
  assert (days_in_year (c_y c) <= 366) by (unfold days_in_year; destruct (is_leap _); lia).
  pose proof (weekday_range (days_from_civil (c_y c) (c_mo c) (c_d c))) as Hwd. change (0 <= civil_weekday_of c < 7) in Hwd.
  assert (mo_index (c_mo c) = c_mo c) as Emo.
  { unfold mo_index. apply civil_valid_spec in Hcv as [Hmo _]. by rewrite (proj2 (Z.leb_le _ _)) by lia. }
  assert (wrap 64 (if 0 <=? c_y c then Z.quot (c_y c) 100 else 0) = Z.max 0 (c_y c) / 100) as EC.
  { destruct Hc as [[Hy1 Hy2]]. change (2 ^ (32 - 1)) with (2 ^ 31) in *. rewrite wrap_id; destruct (Z.leb_spec 0 (c_y c)); unfold in_unsigned; divlia. }
  assert ((if civil_weekday_of c =? 0 then 6 else civil_weekday_of c - 1) = (civil_weekday_of c + 6) mod 7) as EW.
  { destruct (Z.eqb_spec (civil_weekday_of c) 0); divlia. }
  destruct (week_number (civil_day_of_year c) (civil_weekday_of c) ltac:(lia) Hwd) as [EU1 EU2].
  destruct (week_number (civil_day_of_year c) ((civil_weekday_of c + 6) mod 7) ltac:(lia) (Z.mod_pos_bound _ 7 ltac:(lia))) as [EW1 EW2].
  unfold strftime_spec, strftime_spec_tail, put_mdy, put_ampm, conversions, mdy_text, ampm_text. cbv zeta. cbn [convert].
  rewrite if_orb, EW, EU1, EW1, EC, !two_digit_year_mod, !hour12_mod, <- !Edoy.
  assert (forall t, entry_text t (c_mo c) = entry_text t (mo_index (c_mo c))) as Et by (intros; by rewrite Emo). rewrite !Et.
  clear Et Emo EC EW EU1 EW1 Hcv Hv Edoy. destruct Hc.
  set (u1 := (civil_day_of_year c + 6 - civil_weekday_of c) / 7) in *.
  set (u2 := (civil_day_of_year c + 6 - (civil_weekday_of c + 6) mod 7) / 7) in *.
  set (wk := civil_iso_week_date c) in *. set (doy := civil_day_of_year c) in *. set (secs := civil_secs c - c_off c) in *.
  clearbody u1 u2 wk doy secs. emit.
  all: try (unfold in_unsigned, in_signed in *; divlia). destruct (_ =? 0); lia.
Qed.

Lemma emits_strftime_text fmt c : civil_typed c -> valid c = true -> emits (fun w => emit_strftime w fmt c) (strftime_text fmt c).
Proof.
  intros Hc Hv. remember (length fmt) as n eqn:E. assert (length fmt <= n)%nat as Hn by lia. clear E.
  revert fmt Hn. induction n as [|n IH]; intros [|f fmt] Hn; cbn [length] in Hn; try lia; try apply emits_ret.
  cbn [emit_strftime strftime_text]. destruct (f =? ch "%"); cbn [negb].
  - destruct fmt as [|g fmt]; [apply emits_put|]. cbn [length] in Hn.
    apply (emits_bind (fun w => strftime_spec w g c) (fun w => emit_strftime w fmt c)); [by apply emits_conversion|apply IH; lia].
  - apply (emits_bind (fun w => put w f) (fun w => emit_strftime w fmt c) [f]); [apply emits_put|apply IH; lia].
Qed.

(** ** Durations *)

Definition dur_hms_text (secs : Z) : list Z :=
  if secs / 86400 =? 0 then
    num 2 (secs / 3600 mod 24) ++ [ch ":"] ++ num 2 (secs / 60 mod 60) ++ [ch ":"] ++ num 2 (secs mod 60)
  else
    num 1 (secs / 86400) ++ [ch "d"] ++ [ch " "] ++ num 2 (secs / 3600 mod 24) ++ [ch ":"] ++
    num 2 (secs / 60 mod 60).

Fixpoint dur_comps_text (rest : Z) (comps : list (Z * string)) : list Z :=
  match comps with
  | [] => []
  | (scale, suffix) :: comps =>
      if rest / scale =? 0 then dur_comps_text rest comps
      else num 1 (rest / scale) ++ cstr suffix ++
        (if rest mod scale =? 0 then [] else dur_comps_text (rest mod scale) comps)
  end.

Definition dur_units_text (ns : Z) : list Z :=
  if ns =? 0 then [ch "0"] ++ [ch "s"] else dur_comps_text ns dur_comps.

Lemma emits_dur_hms secs : in_unsigned 64 secs -> emits (fun w => emit_dur_hms w secs) (dur_hms_text secs).
Proof.
  intros Hs. unfold in_unsigned in Hs. unfold emit_dur_hms, dur_hms_text. cbv zeta.
  destruct (secs / 86400 =? 0); simpl negb; cbv iota; emit; try apply div_unsigned64; try done; divlia.
Qed.

(** [hundredths] is what comes after the point of a duration below an hour. *)
Definition clock_text (secs hundredths : Z) : list Z :=
  if secs <? 3600 then
    num 1 (secs / 60) ++ [ch ":"] ++ num 2 (secs mod 60) ++ [ch "."] ++ num 2 hundredths
  else if secs <? 86400 then
    num 1 (secs / 3600) ++ [ch ":"] ++ num 2 (secs / 60 mod 60) ++ [ch ":"] ++ num 2 (secs mod 60)
  else
    num 1 (secs / 86400) ++ [ch "d"] ++ [ch " "] ++ num 2 (secs / 3600 mod 24) ++ [ch ":"] ++ num 2 (secs / 60 mod 60).

(** Ticks of a clock of [hz] ticks a second, cut to hundredths of a second. *)
Definition dur_clock_text (ticks hz : Z) : list Z :=
  let hz := Z.max 1 hz in clock_text (ticks / hz) (ticks mod hz * 100 / hz).

Lemma emits_dur_clock ticks hz : in_unsigned 64 ticks -> in_unsigned 64 hz ->
  exists t, 0 <= t < 2 ^ 64 /\ emits (fun w => emit_dur_clock w ticks hz) (clock_text (ticks / Z.max 1 hz) t) /\
    (hz * 100 <= 2 ^ 64 -> clock_text (ticks / Z.max 1 hz) t = dur_clock_text ticks hz).
Proof.
  intros Ht Hh. unfold in_unsigned in *. unfold emit_dur_clock, dur_clock_text, clock_text.
  replace (if hz =? 0 then 1 else hz) with (Z.max 1 hz) by (destruct (Z.eqb_spec hz 0); lia).
  set (k := Z.max 1 hz). assert (0 < k) as Hk by lia. assert (hz * 100 <= 2 ^ 64 -> k * 100 <= 2 ^ 64) as Hk100 by lia.
  clearbody k. cbv zeta. pose proof (div_unsigned64 ticks k Ht ltac:(lia)) as Hd. exists (wrap 64 (ticks mod k * 100) / k).
  assert (0 <= wrap 64 (ticks mod k * 100) / k < 2 ^ 64) as Hw by (apply div_unsigned64; [apply wrap_unsigned64; lia|done]).
  split_and!; [apply Hw..| |].
  - set (secs := ticks / k) in *. set (t := wrap 64 (ticks mod k * 100) / k) in *. clearbody secs t. emit; try (by apply div_unsigned64); try divlia.
  - intros Hz. pose proof (Z.mod_pos_bound ticks k Hk). by rewrite wrap_id by (unfold in_unsigned; lia).
Qed.

Lemma emits_dur_comps comps rest : Forall (fun p => 0 < p.1) comps -> in_unsigned 64 rest ->
  emits (fun w => emit_dur_comps w rest comps) (dur_comps_text rest comps).
Proof.
  revert rest. induction comps as [|[scale suffix] comps IH]; intros rest Hp Hr; [apply emits_ret|].
  pose proof (Forall_inv Hp) as Hs. apply Forall_inv_tail in Hp. simpl in Hs. cbn [emit_dur_comps dur_comps_text]. unfold in_unsigned in *.
  assert (rest - rest / scale * scale = rest mod scale) as -> by (rewrite Z.mod_eq by lia; lia).
  pose proof (Z.mod_pos_bound rest scale Hs). pose proof (Z.mod_le rest scale ltac:(lia) Hs).
  destruct (rest / scale =? 0); [by apply IH|].
  apply emits_bind; [apply emits_num; by apply div_unsigned64|]. apply emits_bind; [apply emits_put_cstr|].
  apply emits_if; [apply emits_ret|]. apply IH; [done|lia].
Qed.

Lemma emits_dur_units ns : in_unsigned 64 ns -> emits (fun w => emit_dur_units w ns) (dur_units_text ns).
Proof.
  intros Hn. unfold emit_dur_units, dur_units_text. apply emits_if; [emit|].
  apply emits_dur_comps; [|done]. repeat constructor.
Qed.

(** * The contract of the public writers *)

(** The size function gives the length of the text [s]; a writer given a
    buffer of its stated capacity stays inside it, leaves the text at its
    start and returns the length when it fits, and returns 0 otherwise. *)
Definition writer_contract (write : list Z -> Z -> option (list Z * Z)) (size : option Z) (s : list Z) : Prop :=
  size = Some (alen s) /\
  forall buf, returns (write buf (alen buf)) (fun '(buf', n) =>
    alen buf' = alen buf /\
    (alen s <= alen buf -> n = alen s /\ buf' = s ++ drop (length s) buf) /\
    (alen buf < alen s -> n = 0)).

Lemma appends_fits buf s : alen s <= alen buf ->
  w_p (appends (wbuf_new buf (alen buf)) s) = s ++ drop (length s) buf.
Proof.
  intros Hl. apply array_ext. intros i Hi. rewrite appends_get by (split; simpl; lia). simpl.
  unfold alen in *. rewrite <- (Z2Nat.id i), !aget_nat by lia. rewrite Z.sub_0_r, aget_nat.
  case_decide as Hd.
  - rewrite lookup_app_l by lia. done.
  - destruct (decide (Z.to_nat i < length s)%nat) as [Hlt|Hge].
    + lia.
    + rewrite lookup_app_r, lookup_drop by lia. f_equal. lia.
Qed.

Lemma emits_contract f s : emits f s ->
  writer_contract (fun buf cap => fitted cap (finish (f (wbuf_new buf cap))))
    (size_of (finish (f (wbuf_new [] 0)))) s.
Proof.
  intros Hf. split.
  - rewrite (Hf (wbuf_new [] 0)) by (split; simpl; [done|lia]). simpl. f_equal.
    destruct (appends_count (wbuf_new [] 0) s) as [-> _]. simpl. lia.
  - intros buf. rewrite (Hf (wbuf_new buf (alen buf))) by (split; simpl; [done|lia]).
    apply returns_ret. simpl. destruct (appends_count (wbuf_new buf (alen buf)) s) as [En Ec].
    rewrite En. simpl in *. rewrite Z.add_0_l.
    destruct (appends_ok (wbuf_new buf (alen buf)) s) as [Hl _]; [split; simpl; [done|lia]|].
    rewrite Hl, Ec. split_and!; [done| |].
    + intros Hle. rewrite (proj2 (Z.leb_le _ _)) by done. split; [done|]. by apply appends_fits.
    + intros Hlt. by rewrite (proj2 (Z.leb_gt _ _)) by done.
Qed.

Lemma writers_agree c digits sep os gmt z fmt ns secs ticks hz :
  civil_typed c -> 0 <= digits -> in_unsigned 64 ns -> in_unsigned 64 secs ->
  in_unsigned 64 ticks -> in_unsigned 64 hz ->
  writer_contract (fun b cap => write_iso8601 b cap c digits sep os) (iso8601_size c digits sep os)
    (iso8601_text c digits sep os) /\
  writer_contract (fun b cap => fitted cap (__rfc2822 b cap c gmt)) (size_of (__rfc2822 [] 0 c gmt))
    (rfc2822_text c gmt) /\
  writer_contract (fun b cap => write_asctime b cap c) (asctime_size c) (asctime_text c) /\
  writer_contract (fun b cap => write_compact b cap c z) (compact_size c z) (compact_text c z) /\
  writer_contract (fun b cap => write_duration_hms b cap secs) (duration_hms_size secs) (dur_hms_text secs) /\
  writer_contract (fun b cap => write_duration_units b cap ns) (duration_units_size ns) (dur_units_text ns) /\
  (exists s, writer_contract (fun b cap => write_strftime b cap fmt c) (strftime_size fmt c) s /\
    (valid c = true -> s = strftime_text fmt c)) /\
  (exists s, writer_contract (fun b cap => write_duration_clock b cap ticks hz) (duration_clock_size ticks hz) s /\
    (hz * 100 <= 2 ^ 64 -> s = dur_clock_text ticks hz)).
Proof.
  intros Hc Hd Hns Hsecs Ht Hh. split_and!.
  - by apply (emits_contract (fun w => emit_iso8601 w c digits sep os)), emits_iso8601.
  - by apply (emits_contract (fun w => emit_rfc2822 w c gmt)), emits_rfc2822.
  - by apply (emits_contract (fun w => emit_asctime w c)), emits_asctime.
  - by apply (emits_contract (fun w => emit_compact w c z)), emits_compact.
  - by apply (emits_contract (fun w => emit_dur_hms w secs)), emits_dur_hms.
  - by apply (emits_contract (fun w => emit_dur_units w ns)), emits_dur_units.
  - destruct (valid c) eqn:Hv.
    + exists (strftime_text fmt c). split; [|done]. by apply (emits_contract (fun w => emit_strftime w fmt c)), emits_strftime_text.
    + destruct (emits_strftime fmt c Hc) as [s Hs]. exists s. split; [|done]. by apply (emits_contract (fun w => emit_strftime w fmt c)).
  - destruct (emits_dur_clock ticks hz Ht Hh) as (t & _ & Hs & E). eexists. split; [|exact E].
    by apply (emits_contract (fun w => emit_dur_clock w ticks hz)).
Qed.

Definition moon_landing : civil := mk_civil 1969 7 20 20 17 40 0 0.

Lemma moon_landing_typed : civil_typed moon_landing.
Proof. split; by vm_compute. Qed.

Lemma emits_same f g s buf : emits f s -> emits g s ->
  fitted (alen buf) (finish (f (wbuf_new buf (alen buf)))) =
  fitted (alen buf) (finish (g (wbuf_new buf (alen buf)))).
Proof. intros Hf Hg. by rewrite Hf, Hg by (split; simpl; [done|lia]). Qed.

Lemma emits_strftime_cons f fmt c s t :
  emits (fun w => strftime_spec w f c) s -> emits (fun w => emit_strftime w fmt c) t ->
  emits (fun w => emit_strftime w (ch "%" :: f :: fmt) c) (s ++ t).
Proof. exact (emits_bind (fun w => strftime_spec w f c) (fun w => emit_strftime w fmt c) s t). Qed.

Lemma emits_strftime_lit f fmt c t : f <> ch "%" -> emits (fun w => emit_strftime w fmt c) t ->
  emits (fun w => emit_strftime w (f :: fmt) c) ([f] ++ t).
Proof.
  intros Hf Ht. cbn [emit_strftime]. rewrite (proj2 (Z.eqb_neq _ _) Hf).
  exact (emits_bind (fun w => put w f) (fun w => emit_strftime w fmt c) [f] t (emits_put f) Ht).
Qed.

Lemma emits_spec f fmt c (g : wbuf -> option wbuf) s t : (forall w, strftime_spec w f c = g w) -> emits g s ->
  emits (fun w => emit_strftime w fmt c) t ->
  emits (fun w => emit_strftime w (ch "%" :: f :: fmt) c) (s ++ t).
Proof. intros E Hg Ht. apply emits_strftime_cons; [|done]. intros w Hw. rewrite E. by apply Hg. Qed.

(** the conversion specifiers agree with the dedicated writers: [%c] is
    [asctime], [%FT%T] is ISO 8601 without an offset, and
    [%a, %d %b %Y %T %z] is RFC 2822 for the years with four digits. *)
Theorem strftime_agrees c buf : civil_typed c ->
  write_strftime buf (alen buf) (cstr "%c") c = write_asctime buf (alen buf) c /\
  write_strftime buf (alen buf) (cstr "%FT%T") c = write_iso8601 buf (alen buf) c 0 iso_t os_none /\
  (0 <= c_y c <= 9999 ->
   write_strftime buf (alen buf) (cstr "%a, %d %b %Y %T %z") c = write_rfc2822 buf (alen buf) c).
Proof.
  intros Hc. pose proof (emits_hms c Hc) as Hhms. pose proof Hc as [].
  split_and!; [| |intros Hy].
  - apply (emits_same (fun w => emit_strftime w (cstr "%c") c) (fun w => emit_asctime w c) (asctime_text c));
      [|by apply emits_asctime].
    rewrite <- (app_nil_r (asctime_text c)).
    apply (emits_spec (ch "c") [] c (fun w => emit_asctime w c)); [done|by apply emits_asctime|apply emits_ret].
  - apply (emits_same (fun w => emit_strftime w (cstr "%FT%T") c)
      (fun w => emit_iso8601 w c 0 iso_t os_none) (iso8601_text c 0 iso_t os_none)); [|by apply emits_iso8601].
    eapply emits_ext; [|apply (emits_spec (ch "F") _ c (fun w =>
        w ← __put_year w (c_y c); w ← put w (ch "-"); w ← put_u w (c_mo c) 2;
        w ← put w (ch "-"); put_u w (c_d c) 2)); [done|emit|];
      apply emits_strftime_lit; [done|];
      apply (emits_spec (ch "T") [] c (fun w => put_hms w c)); [done|exact Hhms|apply emits_ret]].
    unfold iso8601_text. by rewrite <- !app_assoc.
  - apply (emits_same (fun w => emit_strftime w (cstr "%a, %d %b %Y %T %z") c)
      (fun w => emit_rfc2822 w c false) (rfc2822_text c false)); [|by apply emits_rfc2822].
    eapply emits_ext; [|
      apply (emits_spec (ch "a") _ c (fun w => put_entry w weekday_abbr (wd_index (civil_weekday_of c)))); [done|emit|];
      apply emits_strftime_lit; [done|]; apply emits_strftime_lit; [done|];
      apply (emits_spec (ch "d") _ c (fun w => put_u w (c_d c) 2)); [done|emit|]; apply emits_strftime_lit; [done|];
      apply (emits_spec (ch "b") _ c (fun w => put_entry w month_abbr (mo_index (c_mo c)))); [done|emit|];
      apply emits_strftime_lit; [done|];
      apply (emits_spec (ch "Y") _ c (fun w => __put_year w (c_y c))); [done|emit|]; apply emits_strftime_lit; [done|];
      apply (emits_spec (ch "T") _ c (fun w => put_hms w c)); [done|emit|]; apply emits_strftime_lit; [done|];
      apply (emits_spec (ch "z") [] c (fun w => __put_offset w (c_off c) compact)); [done|emit|apply emits_ret]].
    unfold rfc2822_text, year_text, int_text.
    rewrite (proj2 (Z.leb_le 0 (c_y c))), (proj2 (Z.leb_le (c_y c) 9999)), (proj2 (Z.ltb_ge (c_y c) 0)) by lia.
    by rewrite app_nil_r.
Qed.

Lemma strftime_agrees_witness :
  write_strftime (replicate 24 0) 24 (cstr "%c") moon_landing = write_asctime (replicate 24 0) 24 moon_landing.
Proof. apply (strftime_agrees moon_landing (replicate 24 0) moon_landing_typed). Defined.

(** * The advertised sizes *)

Lemma alen_app {A} (a b : list A) : alen (a ++ b) = alen a + alen b.
Proof. unfold alen. rewrite length_app. lia. Qed.

Lemma padded_len width fill v k : 0 <= v < 10 ^ k -> 1 <= k -> width <= k -> alen (padded width fill v) <= k.
Proof.
  intros Hv Hk Hw. unfold padded. rewrite alen_app.
  assert (alen (decimal v) <= k).
  { unfold decimal, alen. rewrite length_reverse.
    pose proof (dec_rev_length 24 v (Z.to_nat k)) as H. rewrite Z2Nat.id in H by lia. lia. }
  pose proof (alen_nonneg (decimal v)). unfold alen at 1. rewrite length_replicate. lia.
Qed.

Lemma num_len width v k : 0 <= v < 10 ^ k -> 1 <= k -> width <= k -> alen (num width v) <= k.
Proof. apply padded_len. Qed.

Lemma year_text_len y : in_signed 32 y -> alen (year_text y) <= 11.
Proof.
  intros [H1 H2]. change (2 ^ (32 - 1)) with (2 ^ 31) in *. unfold year_text. destruct (_ && _) eqn:E.
  - apply (Z.le_trans _ 10); [apply num_len; lia|lia].
  - rewrite alen_app. pose proof (num_len 4 (Z.abs y) 10). unfold alen at 1. simpl length. lia.
Qed.

Lemma int_text_len y : in_signed 32 y -> alen (int_text 4 y) <= 11.
Proof.
  intros [H1 H2]. change (2 ^ (32 - 1)) with (2 ^ 31) in *. unfold int_text. destruct (Z.ltb_spec y 0).
  - rewrite alen_app. pose proof (num_len 4 (- y) 10). unfold alen at 1. simpl length. lia.
  - pose proof (num_len 4 y 10). lia.
Qed.

Lemma subsec_text_len ns digits : 0 <= ns < 10 ^ 9 -> 0 <= digits -> alen (subsec_text ns digits) <= 10.
Proof.
  intros Hn Hd. unfold subsec_text. destruct (Z.eqb_spec digits 0); [by vm_compute|]. rewrite alen_app.
  set (k := Z.min 9 digits). assert (0 < 10 ^ (9 - k)) by (apply Z.pow_pos_nonneg; lia).
  pose proof (num_len k (ns / 10 ^ (9 - k)) 9) as H1. unfold alen at 1. simpl length.
  assert (0 <= ns / 10 ^ (9 - k)) by (apply Z.div_pos; lia).
  assert (ns / 10 ^ (9 - k) <= ns) by (apply Z.div_le_upper_bound; nia). lia.
Qed.

Lemma offset_text_len off os : in_signed 32 off -> alen (offset_text off os) <= 10.
Proof.
  intros [H1 H2]. change (2 ^ (32 - 1)) with (2 ^ 31) in *. unfold offset_text.
  destruct (decide _); [by vm_compute|]. destruct (_ && _); [by vm_compute|]. rewrite !alen_app.
  pose proof (num_len 2 (Z.abs off / 3600) 6 ltac:(divlia) ltac:(lia) ltac:(lia)).
  pose proof (num_len 2 (Z.abs off mod 3600 / 60) 2 ltac:(divlia) ltac:(lia) ltac:(lia)).
  destruct (_ || _); [change (alen [ch ":"]) with 1|change (alen (@nil Z)) with 0];
    unfold alen at 1; simpl length; lia.
Qed.

Record civil_ranges (c : civil) : Prop := {
  cr_mo : 1 <= c_mo c <= 12; cr_d : 1 <= c_d c <= 31; cr_h : 0 <= c_h c < 24; cr_mi : 0 <= c_mi c < 60;
  cr_s : 0 <= c_s c <= 60; cr_ns : 0 <= c_ns c < 10 ^ 9;
}.

Lemma valid_ranges c : civil_typed c -> valid c = true -> civil_ranges c.
Proof.
  intros [] Hv. unfold valid in Hv. rewrite !andb_true_iff, !Z.ltb_lt in Hv.
  destruct Hv as ((((Hv & ?) & ?) & ?) & ?). apply civil_valid_spec in Hv as [Hm Hd].
  pose proof (days_in_month_range (c_y c) (c_mo c) Hm). unfold in_unsigned in *.
  change (10 ^ 9) with 1000000000. split; lia.
Qed.

Lemma hms_text_len c : civil_ranges c -> alen (hms_text c) <= 8.
Proof.
  intros []. unfold hms_text. rewrite !alen_app. change (alen [ch ":"]) with 1.
  pose proof (num_len 2 (c_h c) 2). pose proof (num_len 2 (c_mi c) 2). pose proof (num_len 2 (c_s c) 2). lia.
Qed.

Lemma entry_text_len table i k : Forall (fun s => alen (cstr s) <= k) table -> 0 <= k ->
  alen (entry_text table i) <= k.
Proof.
  intros Hf Hk. unfold entry_text, aget. destruct (decide _); [|by simpl].
  destruct (table !! Z.to_nat i) as [s|] eqn:E; [|by simpl]. simpl.
  by eapply Forall_lookup_1 in Hf.
Qed.

Definition dur_bounded (comps : list (Z * string)) (bound n : Z) : Prop :=
  forall r, 0 <= r < bound -> alen (dur_comps_text r comps) <= n.

Lemma dur_bounded_cons scale suffix comps k n bound m :
  dur_bounded comps scale n -> (0 <? scale) && (1 <=? k) && (bound <=? scale * 10 ^ k) &&
    (k + alen (cstr suffix) + n <=? m) = true ->
  dur_bounded ((scale, suffix) :: comps) bound m.
Proof.
  rewrite !andb_true_iff, !Z.leb_le, Z.ltb_lt. intros IH (((Hs & Hk) & Hb) & Hm) r Hr.
  cbn [dur_comps_text]. pose proof (alen_nonneg (cstr suffix)).
  assert (0 <= r / scale < 10 ^ k) as Hv by (split; [apply Z.div_pos; lia|apply Z.div_lt_upper_bound; lia]).
  pose proof (Z.mod_pos_bound r scale Hs) as Hmod.
  destruct (Z.eqb_spec (r / scale) 0) as [E|_].
  - pose proof (Z.div_mod r scale ltac:(lia)). specialize (IH r ltac:(lia)). lia.
  - rewrite !alen_app. pose proof (num_len 1 (r / scale) k Hv Hk ltac:(lia)).
    specialize (IH (r mod scale) Hmod). pose proof (alen_nonneg (dur_comps_text (r mod scale) comps)).
    destruct (r mod scale =? 0); [change (alen (@nil Z)) with 0|]; lia.
Qed.

Lemma dur_units_len ns : in_unsigned 64 ns -> alen (dur_units_text ns) <= 32.
Proof.
  intros Hn. unfold dur_units_text. destruct (ns =? 0); [by vm_compute|].
  revert ns Hn. change (dur_bounded dur_comps (2 ^ 64) 32).
  apply (dur_bounded_cons _ _ _ 5 26); [|by vm_compute].
  apply (dur_bounded_cons _ _ _ 1 24); [|by vm_compute].
  apply (dur_bounded_cons _ _ _ 2 21); [|by vm_compute].
  apply (dur_bounded_cons _ _ _ 2 18); [|by vm_compute].
  apply (dur_bounded_cons _ _ _ 2 15); [|by vm_compute].
  apply (dur_bounded_cons _ _ _ 3 10); [|by vm_compute].
  apply (dur_bounded_cons _ _ _ 3 5); [|by vm_compute].
  apply (dur_bounded_cons _ _ _ 3 0); [|by vm_compute].
  intros r _. by vm_compute.
Qed.

Lemma num64_len v k : 0 <= v < 2 ^ 64 -> k <= 20 -> alen (num k v) <= 20.
Proof. intros. apply num_len; [|lia|done]. assert (2 ^ 64 < 10 ^ 20) by done. lia. Qed.

Lemma dur_hms_len secs : in_unsigned 64 secs -> alen (dur_hms_text secs) <= duration_max.
Proof.
  intros Hs. unfold dur_hms_text, duration_max, in_unsigned in *.
  pose proof (num64_len (secs / 86400) 1 (div_unsigned64 secs 86400 Hs ltac:(lia)) ltac:(lia)).
  pose proof (num_len 2 (secs / 3600 mod 24) 2 ltac:(divlia) ltac:(lia) ltac:(lia)).
  pose proof (num_len 2 (secs / 60 mod 60) 2 ltac:(divlia) ltac:(lia) ltac:(lia)).
  pose proof (num_len 2 (secs mod 60) 2 ltac:(divlia) ltac:(lia) ltac:(lia)).
  destruct (_ =? 0); rewrite !alen_app; change (alen [ch ":"]) with 1; change (alen [ch "d"]) with 1; change (alen [ch " "]) with 1; lia.
Qed.

Lemma clock_len secs t : 0 <= secs < 2 ^ 64 -> 0 <= t < 2 ^ 64 -> alen (clock_text secs t) <= duration_max.
Proof.
  intros Hs Ht. unfold clock_text, duration_max.
  assert (forall k, 0 < k -> alen (num 1 (secs / k)) <= 20) as Hn by (intros k Hk; apply num64_len; [by apply div_unsigned64|lia]).
  pose proof (Hn 60 ltac:(lia)). pose proof (Hn 3600 ltac:(lia)). pose proof (Hn 86400 ltac:(lia)). pose proof (num64_len t 2 Ht ltac:(lia)).
  pose proof (num_len 2 (secs / 3600 mod 24) 2 ltac:(divlia) ltac:(lia) ltac:(lia)).
  pose proof (num_len 2 (secs / 60 mod 60) 2 ltac:(divlia) ltac:(lia) ltac:(lia)).
  pose proof (num_len 2 (secs mod 60) 2 ltac:(divlia) ltac:(lia) ltac:(lia)).
  destruct (secs <? 3600); [|destruct (secs <? 86400)]; rewrite !alen_app; change (alen [ch ":"]) with 1; change (alen [ch "d"]) with 1;
    change (alen [ch " "]) with 1; change (alen [ch "."]) with 1; lia.
Qed.

Lemma size_bound f s n : emits f s -> alen s <= n ->
  returns (size_of (finish (f (wbuf_new [] 0)))) (fun k => k <= n).
Proof. intros Hf Hn. rewrite (proj1 (emits_contract f s Hf)). by apply returns_ret. Qed.

(** The advertised buffer sizes suffice. *)
Lemma sizes_fit c digits sep os gmt z ns secs ticks hz : civil_typed c -> valid c = true -> 0 <= digits ->
  in_unsigned 64 ns -> in_unsigned 64 secs -> in_unsigned 64 ticks -> in_unsigned 64 hz ->
  returns (iso8601_size c digits sep os) (fun n => n <= iso8601_max) /\
  returns (size_of (__rfc2822 [] 0 c gmt)) (fun n => n <= rfc2822_max) /\
  returns (asctime_size c) (fun n => n <= asctime_max) /\
  (c_y c <= 9999 -> returns (compact_size c z) (fun n => n <= compact_max)) /\
  returns (duration_units_size ns) (fun n => n <= duration_max) /\
  returns (duration_hms_size secs) (fun n => n <= duration_max) /\
  returns (duration_clock_size ticks hz) (fun n => n <= duration_max).
Proof.
  intros Hc Hv Hd Hns Hsecs Ht Hz. pose proof (valid_ranges c Hc Hv) as Hr.
  pose proof (hms_text_len c Hr) as Hhms. pose proof Hc as [Hy]. pose proof Hr as [Hmo Hdd Hh Hmi Hsec Hfrac].
  pose proof (year_text_len _ Hy). pose proof (int_text_len _ Hy).
  pose proof (num_len 2 (c_mo c) 2 ltac:(lia) ltac:(lia) ltac:(lia)).
  pose proof (num_len 2 (c_d c) 2 ltac:(lia) ltac:(lia) ltac:(lia)).
  assert (forall os, alen (offset_text (c_off c) os) <= 10) as Hoff by (intros; by apply offset_text_len).
  assert (forall i, alen (entry_text weekday_abbr i) <= 3) as Hwd by (intros; apply entry_text_len; [by repeat constructor|lia]).
  assert (forall i, alen (entry_text month_abbr i) <= 3) as Hmn by (intros; apply entry_text_len; [by repeat constructor|lia]).
  split_and!.
  - apply (size_bound (fun w => emit_iso8601 w c digits sep os) _ _ (emits_iso8601 c Hc digits sep os Hd)).
    unfold iso8601_text. rewrite !alen_app. pose proof (subsec_text_len (c_ns c) digits ltac:(lia) Hd).
    specialize (Hoff os). change (alen [ch "-"]) with 1. unfold iso8601_max.
    assert (alen [if decide (sep = space) then ch " " else ch "T"] = 1) by done. lia.
  - apply (size_bound (fun w => emit_rfc2822 w c gmt) _ _ (emits_rfc2822 c Hc gmt)).
    unfold rfc2822_text. rewrite !alen_app. specialize (Hwd (civil_weekday_of c)). specialize (Hmn (mo_index (c_mo c))).
    specialize (Hoff compact). change (alen [ch ","]) with 1. change (alen [ch " "]) with 1.
    unfold rfc2822_max. destruct gmt; [change (alen (cstr "GMT")) with 3|]; lia.
  - apply (size_bound (fun w => emit_asctime w c) _ _ (emits_asctime c Hc)).
    unfold asctime_text. rewrite !alen_app. specialize (Hwd (civil_weekday_of c)). specialize (Hmn (mo_index (c_mo c))).
    pose proof (padded_len 2 (ch " ") (c_d c) 2 ltac:(lia) ltac:(lia) ltac:(lia)). change (alen [ch " "]) with 1.
    unfold asctime_max. lia.
  - intros Hle. apply (size_bound (fun w => emit_compact w c z) _ _ (emits_compact c Hc z)).
    unfold compact_text. rewrite !alen_app. pose proof (num_len 4 (Z.max 0 (c_y c)) 4 ltac:(lia) ltac:(lia) ltac:(lia)).
    pose proof (num_len 2 (c_h c) 2 ltac:(lia) ltac:(lia) ltac:(lia)).
    pose proof (num_len 2 (c_mi c) 2 ltac:(lia) ltac:(lia) ltac:(lia)).
    pose proof (num_len 2 (c_s c) 2 ltac:(lia) ltac:(lia) ltac:(lia)). change (alen [ch "T"]) with 1.
    unfold compact_max. destruct z; [change (alen [ch "Z"]) with 1|change (alen (@nil Z)) with 0]; lia.
  - apply (size_bound (fun w => emit_dur_units w ns) _ _ (emits_dur_units ns Hns)).
    pose proof (dur_units_len ns Hns). unfold duration_max. lia.
  - apply (size_bound (fun w => emit_dur_hms w secs) _ _ (emits_dur_hms secs Hsecs)). by apply dur_hms_len.
  - destruct (emits_dur_clock ticks hz Ht Hz) as (t & Hb & He & _). apply (size_bound (fun w => emit_dur_clock w ticks hz) _ _ He).
    apply clock_len; [|done]. apply div_unsigned64; [done|lia].
Qed.


