(* ===== verification/ChronoParse.v ===== *)
(** Timestamp and duration parsers: [src/chrono/parse.hpp].

    The input is a character array [s] with a length [n]; a null pointer is
    [None].  The parsers return early with an error; [early] is the monad of
    code that may have returned.  An auxiliary parser that answers [false]
    leaves its out-parameters unread, so it is an inner [None]. *)
From Stdlib Require Import Ascii String.
From stdpp Require Import base numbers list option.
From Stdlib Require Import ZArith Lia.
From S2P Require Import Prelude Arrays Calendar Civil ChronoFormat.

Local Open Scope Z_scope.

(** * Early return *)

(** [None]: a bad access; [inl r]: returned [r]; [inr x]: goes on with [x]. *)
Definition early (R A : Type) : Type := option (R + A).

Definition go {R A} (x : A) : early R A := Some (inr x).

Definition ret {R A} (r : R) : early R A := Some (inl r).

Definition ebind {R A B} (m : early R A) (f : A -> early R B) : early R B :=
  match m with None => None | Some (inl r) => ret r | Some (inr x) => f x end.

Declare Scope early_scope.
Notation "x '<~' m ; k" := (ebind m (fun x => k))
  (at level 20, m at level 100, k at level 200, right associativity) : early_scope.
Notation "' pat '<~' m ; k" := (ebind m (fun x => match x with pat => k end))
  (at level 20, pat pattern, m at level 100, k at level 200, right associativity) : early_scope.
Local Open Scope early_scope.

(** A memory read. *)
Definition lift {R A} (m : option A) : early R A :=
  match m with None => None | Some x => go x end.

(** [if ( !m ) return r;] *)
Definition or_ret {R A} (m : option (option A)) (r : R) : early R A :=
  match m with None => None | Some (Some x) => go x | Some None => ret r end.

(** [if ( !b ) return r;] *)
Definition ensure {R} (b : bool) (r : R) : early R unit := if b then go () else ret r.

Definition run {R} (m : early R R) : option R :=
  match m with None => None | Some (inl r) => Some r | Some (inr r) => Some r end.

(** * Results *)

Inductive parse_err :=
  | empty | malformed | bad_year | bad_month | bad_day | bad_hour | bad_minute | bad_second
  | bad_offset | bad_weekday | trailing | overflow | no_offset.

Record civil_result := mk_res { r_c : civil; r_err : option parse_err; r_has_offset : bool }.

Definition res0 : civil_result := mk_res civil_default None false.

Definition fail_with (r : civil_result) (e : parse_err) : civil_result := mk_res (r_c r) (Some e) (r_has_offset r).

Record dur_result := mk_dur { dr_ns : Z; dr_err : option parse_err; dr_forever : bool }.

(** * Lexical helpers *)

Definition __is_digit (c : Z) : bool := (ch "0" <=? c) && (c <=? ch "9").

Definition __fixed_digits (s : list Z) (n i count : Z) : option (option (Z * Z)) :=
  if n <? i + count then Some None
  else
    while_ (S (Z.to_nat count)) (fun '(k, i, out) =>
      if k <? count then
        c ← s.[i];
        if negb (__is_digit c) then Some (inr None)
        else Some (inl (k + 1, i + 1, wrap 32 (out * 10 + (c - ch "0"))))
      else Some (inr (Some (i, out)))) (0, i, 0).

(** The cursor, the value and the number of digits taken. *)
Definition __some_digits (s : list Z) (n i max : Z) : option (option (Z * Z * Z)) :=
  '(i, out, taken) ← while_ (S (Z.to_nat (n - i))) (fun '(i, out, taken) =>
    if (i <? n) && (taken <? max) then
      c ← s.[i];
      if __is_digit c then Some (inl (i + 1, wrap 64 (out * 10 + (c - ch "0")), taken + 1))
      else Some (inr (i, out, taken))
    else Some (inr (i, out, taken))) (i, 0, 0);
  Some (if negb (taken =? 0) then Some (i, out, taken) else None).

Definition lower (c : Z) : Z := if (ch "A" <=? c) && (c <=? ch "Z") then c + 32 else c.

Definition __ieq (s : list Z) (n i : Z) (lit : list Z) (k : Z) : option bool :=
  if n <? i + k then Some false
  else
    while_ (S (Z.to_nat k)) (fun j =>
      if j <? k then
        a ← s.[i + j];
        b ← lit.[j];
        if negb (lower a =? lower b) then Some (inr false) else Some (inl (j + 1))
      else Some (inr true)) 0.

(** [i < n && p(s[i])] *)
Definition next_is (s : list Z) (n i : Z) (p : Z -> bool) : option bool :=
  if i <? n then c ← s.[i]; Some (p c) else Some false.

(** [while ( i < n && p(s[i]) ) ++i;] *)
Definition skip (s : list Z) (n i : Z) (p : Z -> bool) : option Z :=
  while_ (S (Z.to_nat (n - i))) (fun i =>
    b ← next_is s n i p;
    Some (if (b : bool) then inl (i + 1) else inr i)) i.

Definition is_ch (a : ascii) (c : Z) : bool := c =? ch a.

Definition __year (s : list Z) (n i : Z) : option (option (Z * Z)) :=
  sign ← next_is s n i (fun c => is_ch "+" c || is_ch "-" c);
  neg ← next_is s n i (is_ch "-");
  let expanded : bool := sign in
  let i := if expanded then i + 1 else i in
  o ← __some_digits s n i (if expanded then 9 else 4);
  match o with
  | None => Some None
  | Some (i, v, taken) =>
      if negb expanded && negb (taken =? 4) then Some None
      else if expanded && (taken <? 4) then Some None
      else if 2000000000 <? v then Some None
      else Some (Some (i, swrap 32 (if (neg : bool) then - v else v)))
  end.

Definition __offset (s : list Z) (n i : Z) : option (option (Z * Z)) :=
  if n <=? i then Some None
  else
    c ← s.[i];
    if is_ch "Z" c || is_ch "z" c then Some (Some (i + 1, 0))
    else if negb (is_ch "+" c) && negb (is_ch "-" c) then Some None
    else
      let neg := is_ch "-" c in
      o ← __fixed_digits s n (i + 1) 2;
      match o with
      | None => Some None
      | Some (i, hh) =>
          is_colon ← next_is s n i (is_ch ":");
          digit ← next_is s n i __is_digit;
          o ← (if (is_colon : bool) then __fixed_digits s n (i + 1) 2
               else if (digit : bool) then __fixed_digits s n i 2
               else Some (Some (i, 0)));
          match o with
          | None => Some None
          | Some (i, mm) =>
              if (23 <? hh) || (59 <? mm) then Some None
              else
                let mag := hh * 3600 + mm * 60 in
                Some (Some (i, if neg then - mag else mag))
          end
      end.

(** [if ( i >= n || s[i] != a ) return r; ++i;] *)
Definition expect {R} (s : list Z) (n i : Z) (a : ascii) (r : R) : early R Z :=
  b <~ lift (next_is s n i (is_ch a));
  _ <~ ensure b r;
  go (i + 1).

(** [if ( i < n && s[i] == ':' ) { ++i; two digits }] *)
Definition optional_seconds {R} (s : list Z) (n i : Z) (r : R) : early R (Z * Z) :=
  b <~ lift (next_is s n i (is_ch ":"));
  if b then or_ret (__fixed_digits s n (i + 1) 2) r else go (i, 0).

(** * ISO 8601 *)

(** [r.c.y = y; r.c.mo = mo; r.c.d = d;] and the other assignments *)
Definition set_date (c : civil) (y mo d : Z) : civil :=
  mk_civil y mo d (c_h c) (c_mi c) (c_s c) (c_ns c) (c_off c).

Definition set_time (c : civil) (h mi s : Z) : civil :=
  mk_civil (c_y c) (c_mo c) (c_d c) h mi s (c_ns c) (c_off c).

Definition set_off (c : civil) (off : Z) : civil :=
  mk_civil (c_y c) (c_mo c) (c_d c) (c_h c) (c_mi c) (c_s c) (c_ns c) off.

Definition set_c (r : civil_result) (c : civil) : civil_result := mk_res c (r_err r) (r_has_offset r).

(** [for ( k = taken; k < 9; ++k ) frac *= 10;] *)
Definition scale_frac (frac taken : Z) : option Z :=
  for_ taken 9 (fun _ frac => Some (wrap 64 (frac * 10))) frac.

(** The optional fraction after the seconds: the cursor and the record. *)
Definition parse_frac (s : list Z) (n i : Z) (r : civil_result) : early civil_result (Z * civil_result) :=
  b <~ lift (next_is s n i (fun c => is_ch "." c || is_ch "," c));
  if negb b then go (i, r)
  else
    '(i, frac, taken) <~ or_ret (__some_digits s n (i + 1) 9) (fail_with r malformed);
    frac <~ lift (scale_frac frac taken);
    let r := set_c r (with_ns (r_c r) (wrap 32 frac)) in
    i <~ lift (skip s n i __is_digit);
    go (i, r).

(** The date: the cursor and the fields. *)
Definition parse_date (s : list Z) (n : Z) (r : civil_result) : early civil_result (Z * Z * Z * Z) :=
  '(i, y) <~ or_ret (__year s n 0) (fail_with r bad_year);
  i <~ expect s n i "-" (fail_with r malformed);
  '(i, mo) <~ or_ret (__fixed_digits s n i 2) (fail_with r bad_month);
  i <~ expect s n i "-" (fail_with r malformed);
  '(i, d) <~ or_ret (__fixed_digits s n i 2) (fail_with r bad_day);
  _ <~ ensure (negb ((mo <? 1) || (12 <? mo))) (fail_with r bad_month);
  _ <~ ensure (negb ((d <? 1) || (days_in_month y mo <? d))) (fail_with r bad_day);
  go (i, y, mo, d).

Definition parse_iso8601 (s : option (list Z)) (n : Z) : option civil_result :=
  match s with
  | None => Some (fail_with res0 empty)
  | Some s =>
      if n =? 0 then Some (fail_with res0 empty)
      else run (
        '(i, y, mo, d) <~ parse_date s n res0;
        let r := set_c res0 (set_date civil_default y mo d) in
        if i =? n then ret r
        else
          c <~ lift (s.[i]);
          _ <~ ensure (is_ch "T" c || is_ch "t" c || is_ch " " c) (fail_with r malformed);
          '(i, h) <~ or_ret (__fixed_digits s n (i + 1) 2) (fail_with r bad_hour);
          i <~ expect s n i ":" (fail_with r malformed);
          '(i, mi) <~ or_ret (__fixed_digits s n i 2) (fail_with r bad_minute);
          '(i, sec) <~ optional_seconds s n i (fail_with r bad_second);
          _ <~ ensure (negb (23 <? h)) (fail_with r bad_hour);
          _ <~ ensure (negb (59 <? mi)) (fail_with r bad_minute);
          _ <~ ensure (negb (60 <? sec)) (fail_with r bad_second);
          let r := set_c r (set_time (r_c r) h mi sec) in
          '(i, r) <~ parse_frac s n i r;
          '(i, r) <~ (if i <? n then
                        '(i, off) <~ or_ret (__offset s n i) (fail_with r bad_offset);
                        go (i, mk_res (set_off (r_c r) off) (r_err r) true)
                      else go (i, r));
          _ <~ ensure (i =? n) (fail_with r trailing);
          go r)
  end.

Definition parse_rfc3339 (s : option (list Z)) (n : Z) : option civil_result :=
  r ← parse_iso8601 s n;
  match r_err r with
  | Some _ => Some r
  | None => if negb (r_has_offset r) then Some (fail_with r no_offset) else Some r
  end.

(** [to_unix(r)] *)
Definition result_to_unix (r : civil_result) : Z :=
  let c := r_c r in
  let c := if c_s c =? 60 then set_time c (c_h c) (c_mi c) 59 else c in
  civil_secs c - c_off c.

(** * RFC 2822 *)

(** The first [k] whose name matches at [i]. *)
Fixpoint match_name (s : list Z) (n i : Z) (names : list string) (k : Z) : option (option Z) :=
  match names with
  | [] => Some None
  | name :: names =>
      b ← __ieq s n i (cstr name) 3;
      if (b : bool) then Some (Some k) else match_name s n i names (k + 1)
  end.

(** The optional weekday name: the cursor after it. *)
Definition parse_weekday (s : list Z) (n : Z) (r : civil_result) : early civil_result Z :=
  named <~ (if 4 <=? n then c <~ lift (s.[0]); go (negb (__is_digit c)) else go false);
  if negb named then go 0
  else
    _ <~ or_ret (match_name s n 0 weekday_abbr 0) (fail_with r bad_weekday);
    comma <~ lift (next_is s n 3 (is_ch ","));
    lift (skip s n (if comma then 4 else 3) (is_ch " ")).

(** The zone at the end: the cursor, the offset, and whether there was one. *)
Definition parse_zone (s : list Z) (n i : Z) (r : civil_result) : early civil_result (Z * Z * civil_result) :=
  if i <? n then
    gmt <~ lift (__ieq s n i (cstr "GMT") 3);
    utc <~ lift (__ieq s n i (cstr "UTC") 3);
    ut <~ lift (__ieq s n i (cstr "UT") 2);
    '(i, off) <~ (if gmt || utc then go (i + 3, 0)
                  else if ut then go (i + 2, 0)
                  else or_ret (__offset s n i) (fail_with r bad_offset));
    go (i, off, mk_res (r_c r) (r_err r) true)
  else go (i, 0, r).

Definition parse_rfc2822 (s : option (list Z)) (n : Z) : option civil_result :=
  match s with
  | None => Some (fail_with res0 empty)
  | Some s =>
      if n =? 0 then Some (fail_with res0 empty)
      else run (
        let r := res0 in
        i <~ parse_weekday s n r;
        '(i, dv, _) <~ or_ret (__some_digits s n i 2) (fail_with r bad_day);
        i <~ lift (skip s n i (is_ch " "));
        mo <~ or_ret (match_name s n i (tail month_abbr) 1) (fail_with r bad_month);
        i <~ lift (skip s n (i + 3) (is_ch " "));
        '(i, yv, taken) <~ or_ret (__some_digits s n i 4) (fail_with r bad_year);
        let yv := if taken =? 2 then wrap 64 (yv + (if yv <? 50 then 2000 else 1900)) else yv in
        i <~ lift (skip s n i (is_ch " "));
        '(i, h) <~ or_ret (__fixed_digits s n i 2) (fail_with r bad_hour);
        i <~ expect s n i ":" (fail_with r malformed);
        '(i, mi) <~ or_ret (__fixed_digits s n i 2) (fail_with r bad_minute);
        '(i, sec) <~ optional_seconds s n i (fail_with r bad_second);
        i <~ lift (skip s n i (is_ch " "));
        '(i, off, r) <~ parse_zone s n i r;
        i <~ lift (skip s n i (fun c => is_ch " " c || (c =? 13) || (c =? 10)));
        _ <~ ensure (i =? n) (fail_with r trailing);
        let y := swrap 32 yv in
        let d := wrap 32 dv in
        _ <~ ensure (negb ((d <? 1) || (days_in_month y mo <? d))) (fail_with r bad_day);
        _ <~ ensure (negb (23 <? h)) (fail_with r bad_hour);
        _ <~ ensure (negb (59 <? mi)) (fail_with r bad_minute);
        _ <~ ensure (negb (60 <? sec)) (fail_with r bad_second);
        go (set_c r (set_off (set_time (set_date (r_c r) y mo d) h mi sec) off)))
  end.

(** * Wake-up times *)

Record until_spec := mk_until {
  u_c : civil; u_secs : Z; u_err : option parse_err; u_utc : bool; u_epoch : bool; u_time_only : bool;
}.

Definition until0 : until_spec := mk_until civil_default 0 None false false false.

Definition until_fail (u : until_spec) (e : parse_err) : until_spec :=
  mk_until (u_c u) (u_secs u) (Some e) (u_utc u) (u_epoch u) (u_time_only u).

(** [@SECONDS] *)
Definition parse_until_epoch (s : list Z) (n : Z) : early until_spec until_spec :=
  let u := until0 in
  sign <~ lift (next_is s n 1 (fun c => is_ch "-" c || is_ch "+" c));
  neg <~ lift (next_is s n 1 (is_ch "-"));
  '(i, v, _) <~ or_ret (__some_digits s n (if (sign : bool) then 2 else 1) 19) (until_fail u malformed);
  _ <~ ensure (i =? n) (until_fail u trailing);
  _ <~ ensure (negb (2 ^ 63 - 1 <? v)) (until_fail u overflow);
  go (mk_until (u_c u) (if neg then - v else v) None (u_utc u) true (u_time_only u)).

(** The scan for a dash. *)
Definition has_dash (s : list Z) (len : Z) : option bool :=
  while_ (S (Z.to_nat len)) (fun k =>
    if k <? len then c ← s.[k]; Some (if is_ch "-" c then inr true else inl (k + 1))
    else Some (inr false)) 0.

(** [HH:MM[:SS]] *)
Definition parse_until_time (s : list Z) (len : Z) (u : until_spec) : early until_spec until_spec :=
  '(i, h) <~ or_ret (__fixed_digits s len 0 2) (until_fail u bad_hour);
  i <~ expect s len i ":" (until_fail u malformed);
  '(i, mi) <~ or_ret (__fixed_digits s len i 2) (until_fail u bad_minute);
  '(i, sec) <~ optional_seconds s len i (until_fail u bad_second);
  _ <~ ensure (i =? len) (until_fail u trailing);
  _ <~ ensure (negb (23 <? h)) (until_fail u bad_hour);
  _ <~ ensure (negb (59 <? mi)) (until_fail u bad_minute);
  _ <~ ensure (negb (59 <? sec)) (until_fail u bad_second);
  go (mk_until (set_time (u_c u) h mi sec) (u_secs u) (u_err u) (u_utc u) (u_epoch u) true).

Definition parse_until (s : option (list Z)) (n : Z) : option until_spec :=
  match s with
  | None => Some (until_fail until0 empty)
  | Some s =>
      if n =? 0 then Some (until_fail until0 empty)
      else
        c0 ← s.[0];
        if is_ch "@" c0 then run (parse_until_epoch s n)
        else
          z ← s.[n - 1];
          let utc := is_ch "Z" z || is_ch "z" z in
          let len := if utc then n - 1 else n in
          let u := mk_until civil_default 0 None utc false false in
          dash ← has_dash s len;
          if negb dash then run (parse_until_time s len u)
          else
            r ← parse_iso8601 (Some s) len;
            match r_err r with
            | Some e => Some (until_fail u e)
            | None =>
                if r_has_offset r then Some (until_fail u trailing)
                else Some (mk_until (r_c r) (u_secs u) (u_err u) utc (u_epoch u) (u_time_only u))
            end
  end.

Definition until_epoch (u : until_spec) (now : Z) (t : tz_table) : option Z :=
  if u_epoch u then Some (u_secs u)
  else
    c ← (if u_time_only u then
           off ← (if u_utc u then Some 0 else offset_at t now);
           let today := to_civil now off in
           Some (set_date (u_c u) (c_y today) (c_mo today) (c_d today))
         else Some (u_c u));
    let epoch c := if u_utc u then Some (civil_secs c) else from_civil c t in
    e ← epoch c;
    if u_time_only u && (e <=? now) then
      let mid := set_time c 0 0 0 in
      let next := to_civil (civil_secs mid + 86400) 0 in
      epoch (set_date c (c_y next) (c_mo next) (c_d next))
    else Some e.

(** * Durations *)

Definition __dur_pow10 (e : Z) : option Z := for_ 0 e (fun _ v => Some (wrap 64 (v * 10))) 1.

(** The scale and the length of the suffix at [i]. *)
Definition __dur_unit (s : list Z) (n i : Z) : option (Z * Z) :=
  second_s ← (if i + 1 <? n then c ← s.[i + 1]; Some (is_ch "s" c) else Some false);
  let two (a : ascii) (c : Z) : bool := is_ch a c && second_s in
  if i <? n then
    c ← s.[i];
    if two "n"%char c then Some (1, 2)
    else if two "u"%char c then Some (ns_per_us, 2)
    else if two "m"%char c then Some (ns_per_ms, 2)
    else if is_ch "s" c then Some (ns_per_s, 1)
    else if is_ch "m" c then Some (ns_per_min, 1)
    else if is_ch "h" c then Some (ns_per_hour, 1)
    else if is_ch "d" c then Some (ns_per_day, 1)
    else if is_ch "w" c then Some (ns_per_week, 1)
    else Some (ns_per_s, 0)
  else Some (ns_per_s, 0).

(** [None] is the overflow the checks detect. *)
Definition __dur_add (acc v : Z) : option Z :=
  if 2 ^ 64 - 1 - v <? acc then None else Some (wrap 64 (acc + v)).

Definition __dur_mul (a b : Z) : option Z :=
  if negb (a =? 0) && ((2 ^ 64 - 1) / a <? b) then None else Some (wrap 64 (a * b)).

Definition dur_fail (e : parse_err) : dur_result := mk_dur 0 (Some e) false.

(** One [NUMBER[.FRACTION][SUFFIX]]: the cursor, the new total, the suffix length. *)
Definition parse_dur_part (s : list Z) (n i total : Z) : early dur_result (Z * Z * Z) :=
  '(i, whole, _) <~ or_ret (__some_digits s n i 19) (dur_fail malformed);
  dot <~ lift (next_is s n i (is_ch "."));
  '(i, frac, ftaken) <~ (if (dot : bool) then
      '(i, frac, ftaken) <~ or_ret (__some_digits s n (i + 1) 9) (dur_fail malformed);
      i <~ lift (skip s n i __is_digit);
      go (i, frac, ftaken)
    else go (i, 0, 0));
  '(scale, slen) <~ lift (__dur_unit s n i);
  let i := i + slen in
  part <~ or_ret (Some (__dur_mul whole scale)) (dur_fail overflow);
  part <~ (if negb (ftaken =? 0) then
      num <~ or_ret (Some (__dur_mul frac scale)) (dur_fail overflow);
      p10 <~ lift (__dur_pow10 ftaken);
      or_ret (Some (__dur_add part (num / p10))) (dur_fail overflow)
    else go part);
  total <~ or_ret (Some (__dur_add total part)) (dur_fail overflow);
  go (i, total, slen).

Definition parse_duration_ns (s : option (list Z)) (n : Z) : option dur_result :=
  match s with
  | None => Some (dur_fail empty)
  | Some s =>
      if n =? 0 then Some (dur_fail empty)
      else
        inf8 ← __ieq s n 0 (cstr "infinity") 8;
        inf3 ← __ieq s n 0 (cstr "inf") 3;
        if (inf8 && (n =? 8)) || (inf3 && (n =? 3)) then Some (mk_dur (2 ^ 64 - 1) None true)
        else
          while_ (S (Z.to_nat n)) (fun '(i, total, any) =>
            if i <? n then
              o ← parse_dur_part s n i total;
              Some (match o with
                    | inl r => inr r
                    | inr (i, total, slen) =>
                        if (slen =? 0) && negb (i =? n) then inr (dur_fail trailing)
                        else inl (i, total, true)
                    end)
            else Some (inr (if negb any then dur_fail malformed else mk_dur total None false)))
            (0, 0, false)
  end.
