(* ===== verification/ChronoRoundtrip.v ===== *)
(** The parsers of [src/chrono/parse.hpp] invert the writers of
    [src/chrono/format.hpp], accept only valid times, and never read outside
    their input. *)
From Stdlib Require Import Ascii String.
From stdpp Require Import base numbers list option.
From Stdlib Require Import ZArith Lia.
From S2P Require Import Prelude Arrays Calendar Civil ChronoFormat ChronoParse.

Local Open Scope Z_scope.

(** * Cursors: the input from [i] on is [l] *)

Definition cursor (s : list Z) (i : Z) (l : list Z) : Prop :=
  0 <= i /\ i + alen l = alen s /\ drop (Z.to_nat i) s = l.

Lemma cursor_start s : cursor s 0 s.
Proof. split_and!; [lia|lia|]. by rewrite drop_0. Qed.

Lemma cursor_end s i : cursor s i [] -> i = alen s.
Proof. intros (_ & H & _). unfold alen in *. simpl in H. lia. Qed.

Lemma cursor_get s i c l : cursor s i (c :: l) -> s.[i] = Some c /\ i < alen s /\ cursor s (i + 1) l.
Proof.
  intros (Hi & Hl & Hd). unfold alen in *. simpl in Hl. split_and!; [|lia|split_and!].
  - rewrite <- (Z2Nat.id i), aget_nat by lia.
    pose proof (lookup_drop s (Z.to_nat i) 0) as E. rewrite Hd in E. simpl in E.
    by rewrite Nat.add_0_r in E.
  - lia.
  - unfold alen. lia.
  - replace (Z.to_nat (i + 1)) with (Z.to_nat i + 1)%nat by lia.
    by rewrite <- drop_drop, Hd.
Qed.

Lemma cursor_app s i l r : cursor s i (l ++ r) -> cursor s (i + alen l) r.
Proof.
  revert i. induction l as [|c l IH]; intros i H.
  - unfold alen. simpl. by rewrite Z.add_0_r.
  - apply cursor_get in H as (_ & _ & H). apply IH in H.
    replace (i + alen (c :: l)) with (i + 1 + alen l) by (unfold alen; simpl; lia). done.
Qed.

Lemma cursor_bound s i l : cursor s i l -> 0 <= i <= alen s /\ i + alen l = alen s.
Proof. intros (? & ? & _). pose proof (alen_nonneg l). lia. Qed.

(** * Lexical helpers on known input *)

Definition head_sat (p : Z -> bool) (l : list Z) : bool :=
  match l with c :: _ => p c | [] => false end.

Lemma next_is_at s i l p : cursor s i l -> next_is s (alen s) i p = Some (head_sat p l).
Proof.
  intros H. unfold next_is. destruct l as [|c l].
  - apply cursor_end in H as ->. by rewrite Z.ltb_irrefl.
  - apply cursor_get in H as (E & Hlt & _). rewrite (proj2 (Z.ltb_lt _ _)) by done. by rewrite E.
Qed.

Lemma is_digit_spec c : __is_digit c = true <-> is_digit c.
Proof.
  unfold __is_digit, is_digit. rewrite andb_true_iff, !Z.leb_le. done.
Qed.

Lemma digits_value_snoc l c : digits_value (l ++ [c]) = digits_value l * 10 + (c - 48).
Proof. by rewrite digits_value_app. Qed.

Lemma digits_value_bound l : Forall is_digit l -> 0 <= digits_value l < 10 ^ alen l.
Proof.
  induction l as [|c l IH] using rev_ind; intros Hd; [by vm_compute|].
  apply Forall_app in Hd as [Hl Hc]. apply Forall_inv in Hc. unfold is_digit in Hc. specialize (IH Hl).
  rewrite digits_value_snoc, alen_app. change (alen [c]) with 1.
  rewrite Z.pow_add_r by (pose proof (alen_nonneg l); lia). lia.
Qed.

(** Reading [todo] after [got], one digit per iteration. *)
Lemma fixed_digits_loop s got todo rest i k count fuel :
  cursor s i (todo ++ rest) -> Forall is_digit got -> Forall is_digit todo ->
  k = alen got -> k + alen todo = count -> 0 <= count <= 9 -> (length todo < fuel)%nat ->
  while_ fuel (fun '(k, i, out) =>
      if k <? count then
        c ← s.[i];
        if negb (__is_digit c) then Some (inr None)
        else Some (inl (k + 1, i + 1, wrap 32 (out * 10 + (c - ch "0"))))
      else Some (inr (Some (i, out)))) (k, i, digits_value got)
    = Some (Some (i + alen todo, digits_value (got ++ todo))).
Proof.
  revert got i k fuel. induction todo as [|c todo IH]; intros got i k fuel Hcur Hg Ht Hk Hc Hb Hf;
    (destruct fuel as [|fuel]; [simpl in Hf; lia|]); cbn [while_].
  - unfold alen in Hc at 1. simpl in Hc. rewrite (proj2 (Z.ltb_ge _ _)) by lia.
    change (alen (@nil Z)) with 0. by rewrite Z.add_0_r, app_nil_r.
  - assert (alen (c :: todo) = alen todo + 1) as L by (unfold alen; simpl; lia).
    pose proof (alen_nonneg todo). rewrite (proj2 (Z.ltb_lt _ _)) by lia.
    simpl app in Hcur. apply cursor_get in Hcur as (E & _ & Hcur). rewrite E. cbn [mbind option_bind].
    pose proof (Forall_inv Ht) as Hd. apply Forall_inv_tail in Ht.
    rewrite (proj2 (is_digit_spec c) Hd). cbn [negb]. cbv iota.
    change (digits_value got * 10 + (c - ch "0")) with (digits_value got * 10 + (c - 48)).
    rewrite <- digits_value_snoc.
    assert (Forall is_digit (got ++ [c])) as Hg' by (apply Forall_app; split; [done|by constructor]).
    pose proof (digits_value_bound _ Hg') as Hv. rewrite alen_app in Hv. change (alen [c]) with 1 in Hv.
    rewrite wrap_id.
    2: { unfold in_unsigned. pose proof (Z.pow_le_mono_r 10 (alen got + 1) 9). assert (10 ^ 9 < 2 ^ 32) by done. lia. }
    cbn [mbind option_bind]. rewrite (IH (got ++ [c]) (i + 1) (k + 1)); try done.
    + rewrite <- app_assoc. simpl. do 3 f_equal. lia.
    + rewrite alen_app. change (alen [c]) with 1. lia.
    + lia.
    + simpl in Hf. lia.
Qed.

Lemma fixed_digits_at s i tok l count : cursor s i (tok ++ l) -> Forall is_digit tok ->
  alen tok = count -> count <= 9 ->
  __fixed_digits s (alen s) i count = Some (Some (i + count, digits_value tok)) /\ cursor s (i + count) l.
Proof.
  intros Hcur Hd Hl Hc. pose proof (cursor_bound _ _ _ Hcur) as [Hi He]. rewrite alen_app in He.
  pose proof (alen_nonneg l). pose proof (alen_nonneg tok). split; [|rewrite <- Hl; by apply cursor_app].
  unfold __fixed_digits. rewrite (proj2 (Z.ltb_ge _ _)) by lia. rewrite <- Hl.
  apply (fixed_digits_loop s [] tok l); [done|constructor|done|done|lia|lia|unfold alen; lia].
Qed.

Lemma some_digits_loop s got todo rest i taken max fuel :
  cursor s i (todo ++ rest) -> Forall is_digit got -> Forall is_digit todo ->
  taken = alen got -> taken + alen todo <= max -> max <= 19 ->
  (taken + alen todo = max \/ head_sat __is_digit rest = false) -> (length todo < fuel)%nat ->
  while_ fuel (fun '(i, out, taken) =>
    if (i <? alen s) && (taken <? max) then
      c ← s.[i];
      if __is_digit c then Some (inl (i + 1, wrap 64 (out * 10 + (c - ch "0")), taken + 1))
      else Some (inr (i, out, taken))
    else Some (inr (i, out, taken))) (i, digits_value got, taken)
  = Some (i + alen todo, digits_value (got ++ todo), taken + alen todo).
Proof.
  revert got i taken fuel. induction todo as [|c todo IH]; intros got i taken fuel Hcur Hg Ht Hk Hm Hb Hstop Hf;
    (destruct fuel as [|fuel]; [simpl in Hf; lia|]); cbn [while_].
  - change (alen (@nil Z)) with 0 in *. rewrite !Z.add_0_r, app_nil_r in *.
    destruct ((i <? alen s) && (taken <? max)) eqn:E; [|done].
    apply andb_true_iff in E as [E1 E2]. apply Z.ltb_lt in E1, E2. destruct Hstop as [?|Hstop]; [lia|].
    simpl in Hcur. destruct rest as [|c rest]; [apply cursor_end in Hcur; lia|].
    apply cursor_get in Hcur as (-> & _). simpl in Hstop. cbn [mbind option_bind]. by rewrite Hstop.
  - assert (alen (c :: todo) = alen todo + 1) as L by (unfold alen; simpl; lia). rewrite L in *.
    pose proof (alen_nonneg todo). simpl app in Hcur. apply cursor_get in Hcur as (E & Hlt & Hcur).
    rewrite (proj2 (Z.ltb_lt i _)), (proj2 (Z.ltb_lt taken _)) by lia. cbn [andb].
    rewrite E. cbn [mbind option_bind].
    pose proof (Forall_inv Ht) as Hd. apply Forall_inv_tail in Ht.
    rewrite (proj2 (is_digit_spec c) Hd).
    change (digits_value got * 10 + (c - ch "0")) with (digits_value got * 10 + (c - 48)).
    rewrite <- digits_value_snoc.
    assert (Forall is_digit (got ++ [c])) as Hg' by (apply Forall_app; split; [done|by constructor]).
    pose proof (digits_value_bound _ Hg') as Hv. rewrite alen_app in Hv. change (alen [c]) with 1 in Hv.
    rewrite wrap_id.
    2: { unfold in_unsigned. pose proof (Z.pow_le_mono_r 10 (alen got + 1) 19). assert (10 ^ 19 < 2 ^ 64) by done. lia. }
    cbn [mbind option_bind]. rewrite (IH (got ++ [c]) (i + 1) (taken + 1)); try done.
    + rewrite <- app_assoc. simpl. f_equal. f_equal; [f_equal; lia|lia].
    + rewrite alen_app. change (alen [c]) with 1. lia.
    + lia.
    + destruct Hstop; [left; lia|by right].
    + simpl in Hf. lia.
Qed.

Lemma some_digits_at s i tok l max : cursor s i (tok ++ l) -> Forall is_digit tok ->
  1 <= alen tok <= max -> max <= 19 -> (alen tok = max \/ head_sat __is_digit l = false) ->
  __some_digits s (alen s) i max = Some (Some (i + alen tok, digits_value tok, alen tok)) /\
  cursor s (i + alen tok) l.
Proof.
  intros Hcur Hd Hl Hm Hs. pose proof (cursor_bound _ _ _ Hcur) as [Hi He]. rewrite alen_app in He.
  pose proof (alen_nonneg l). split; [|by apply cursor_app].
  unfold __some_digits.
  rewrite (some_digits_loop s [] tok l i 0 max); try done; try lia; [|unfold alen in *; lia].
  cbn [mbind option_bind]. rewrite !Z.add_0_l. by rewrite (proj2 (Z.eqb_neq _ _)) by lia.
Qed.

Lemma skip_at s i tok l p : cursor s i (tok ++ l) -> Forall (fun c => p c = true) tok ->
  head_sat p l = false -> skip s (alen s) i p = Some (i + alen tok) /\ cursor s (i + alen tok) l.
Proof.
  intros Hcur Ht Hl. split; [|by apply cursor_app].
  pose proof (cursor_bound _ _ _ Hcur) as [Hi He]. rewrite alen_app in He. pose proof (alen_nonneg l).
  unfold skip. assert (length tok < S (Z.to_nat (alen s - i)))%nat as Hf by (unfold alen in *; lia).
  revert Hf. generalize (S (Z.to_nat (alen s - i))) as fuel. clear Hi He.
  revert i Hcur Ht. induction tok as [|c tok IH]; intros i Hcur Ht fuel Hf;
    (destruct fuel as [|fuel]; [lia|]); cbn [while_]; rewrite (next_is_at s i _ p Hcur); cbn [mbind option_bind].
  - simpl app. rewrite Hl. change (alen (@nil Z)) with 0. by rewrite Z.add_0_r.
  - simpl head_sat. rewrite (Forall_inv Ht). apply Forall_inv_tail in Ht.
    apply cursor_get in Hcur as (_ & _ & Hcur). rewrite IH; [|done|done|simpl in Hf; lia].
    f_equal. unfold alen. simpl. lia.
Qed.

(** * Numbers *)

Lemma num_digits w v : 0 <= v -> Forall is_digit (num w v).
Proof. apply padded_digits. Qed.

Lemma num_value w v : 0 <= v < 2 ^ 64 -> digits_value (num w v) = v.
Proof. apply padded_value. Qed.

Lemma num_alen w v : 0 <= v < 10 ^ w -> 1 <= w -> alen (num w v) = w.
Proof. intros Hv Hw. unfold alen. pose proof (padded_length w v Hv Hw : length (num w v) = _). lia. Qed.

Lemma num_head w v : 0 <= v -> exists d t, num w v = d :: t /\ is_digit d.
Proof.
  intros Hv. pose proof (num_digits w v Hv) as Hd. destruct (num w v) as [|d t] eqn:E.
  - exfalso. unfold num, padded in E. apply app_eq_nil in E as [_ E]. by apply (decimal_nonempty v).
  - exists d, t. split; [done|]. by apply Forall_inv in Hd.
Qed.

Lemma num_head_sat w v l p : 0 <= v -> (forall d, is_digit d -> p d = false) -> head_sat p (num w v ++ l) = false.
Proof. intros Hv Hp. destruct (num_head w v Hv) as (d & t & -> & Hd). by apply Hp. Qed.

Lemma num_head_digit w v l : 0 <= v -> head_sat __is_digit (num w v ++ l) = true.
Proof. intros Hv. destruct (num_head w v Hv) as (d & t & -> & Hd). by apply is_digit_spec. Qed.

Lemma is_ch_digit a d : is_digit d -> (ch a <? 48) || (57 <? ch a) = true -> is_ch a d = false.
Proof.
  unfold is_digit, is_ch. rewrite orb_true_iff, !Z.ltb_lt. intros. apply Z.eqb_neq. lia.
Qed.

(** Two digits at the cursor. *)
Lemma two_digits_at s i v l : cursor s i (num 2 v ++ l) -> 0 <= v < 100 ->
  __fixed_digits s (alen s) i 2 = Some (Some (i + 2, v)) /\ cursor s (i + 2) l.
Proof.
  intros Hc Hv. rewrite <- (num_value 2 v) at 1 by lia.
  apply fixed_digits_at; [done|apply num_digits; lia|apply num_alen; lia|lia].
Qed.

Lemma year_at s i y l : cursor s i (year_text y ++ l) -> - 999999999 <= y <= 999999999 ->
  head_sat __is_digit l = false ->
  exists i', __year s (alen s) i = Some (Some (i', y)) /\ cursor s i' l.
Proof.
  intros Hc Hy Hl. unfold __year, year_text in *.
  destruct ((0 <=? y) && (y <=? 9999)) eqn:E4.
  - apply andb_true_iff in E4 as [E1 E2]. apply Z.leb_le in E1, E2.
    rewrite !(next_is_at s i _ _ Hc).
    rewrite !num_head_sat by (try lia; intros d Hd; by rewrite ?(is_ch_digit _ d Hd)).
    cbn [mbind option_bind negb andb].
    pose proof (num_alen 4 y ltac:(lia) ltac:(lia)) as L.
    destruct (some_digits_at s i (num 4 y) l 4) as [-> Hc']; [done|apply num_digits; lia|lia|lia|by left|].
    rewrite L in *. rewrite num_value by lia. cbn [mbind option_bind].
    change (4 =? 4) with true. cbn [negb]. rewrite (proj2 (Z.ltb_ge _ _)) by lia.
    rewrite swrap_id by (unfold in_signed; lia). by eexists.
  - assert (alen (num 4 (Z.abs y)) <= 9) as L9 by (apply num_len; lia).
    assert (4 <= alen (num 4 (Z.abs y))) as L4.
    { unfold num, padded. rewrite alen_app. unfold alen at 1. rewrite length_replicate. lia. }
    rewrite <- app_assoc in Hc. rewrite !(next_is_at s i _ _ Hc). simpl app in Hc.
    apply cursor_get in Hc as (_ & _ & Hc). cbn [app head_sat mbind option_bind].
    assert (is_ch "+" (if y <? 0 then ch "-" else ch "+") || is_ch "-" (if y <? 0 then ch "-" else ch "+") = true)
      as -> by (by destruct (y <? 0)).
    assert (is_ch "-" (if y <? 0 then ch "-" else ch "+") = (y <? 0)) as -> by (by destruct (y <? 0)).
    destruct (some_digits_at s (i + 1) (num 4 (Z.abs y)) l 9) as [-> Hc'];
      [done|apply num_digits; lia|lia|lia|by right|].
    rewrite num_value by lia. cbn [mbind option_bind negb andb].
    rewrite !(proj2 (Z.ltb_ge _ _)) by lia.
    exists (i + 1 + alen (num 4 (Z.abs y))). split; [|done]. do 3 f_equal.
    destruct (Z.ltb_spec y 0); rewrite swrap_id by (unfold in_signed; lia); lia.
Qed.

Lemma expect_at {R} s i a l (r : R) : cursor s i (ch a :: l) ->
  expect s (alen s) i a r = go (i + 1) /\ cursor s (i + 1) l.
Proof.
  intros Hc. unfold expect. rewrite (next_is_at s i _ _ Hc). simpl head_sat.
  unfold is_ch. rewrite Z.eqb_refl. apply cursor_get in Hc as (_ & _ & Hc). done.
Qed.

(** Offsets of whole minutes within a day. *)
Definition offset_ok (off : Z) : Prop := - 86400 < off < 86400 /\ off mod 60 = 0.

Lemma offset_text_at s i off os l : cursor s i (offset_text off os ++ l) -> os <> os_none -> offset_ok off ->
  head_sat __is_digit l = false -> head_sat (is_ch ":") l = false ->
  exists i', __offset s (alen s) i = Some (Some (i', off)) /\ cursor s i' l.
Proof.
  intros Hc Hos [Ho Hm] Hld Hlc. unfold offset_text in Hc. rewrite decide_False in Hc by done.
  unfold __offset. destruct (_ && _) eqn:EZ.
  - apply andb_true_iff in EZ as [E0%Z.eqb_eq _].
    apply cursor_get in Hc as (E & Hlt & Hc). rewrite (proj2 (Z.leb_gt _ _)) by lia.
    rewrite E. cbn [mbind option_bind]. simpl. exists (i + 1). by rewrite E0.
  - rewrite <- !app_assoc in Hc. simpl app in Hc. apply cursor_get in Hc as (E & Hlt & Hc).
    rewrite (proj2 (Z.leb_gt _ _)) by lia. rewrite E. cbn [mbind option_bind].
    assert (forall b : bool, is_ch "Z" (if b then ch "-" else ch "+") || is_ch "z" (if b then ch "-" else ch "+") = false)
      as -> by (by intros []).
    assert (forall b : bool, negb (is_ch "+" (if b then ch "-" else ch "+")) &&
      negb (is_ch "-" (if b then ch "-" else ch "+")) = false) as -> by (by intros []).
    assert (forall b : bool, is_ch "-" (if b then ch "-" else ch "+") = b) as -> by (by intros []).
    destruct (two_digits_at s (i + 1) (Z.abs off / 3600) _ Hc) as [-> Hc1]; [divlia|].
    cbn [mbind option_bind]. set (sep := bool_decide _ || bool_decide _) in Hc1.
    set (mm := Z.abs off mod 3600 / 60) in *. assert (0 <= mm < 60) as Hmm by (unfold mm; divlia).
    assert (exists i', (is_colon ← next_is s (alen s) (i + 1 + 2) (is_ch ":");
      digit ← next_is s (alen s) (i + 1 + 2) __is_digit;
      (if (is_colon : bool) then __fixed_digits s (alen s) (i + 1 + 2 + 1) 2
       else if (digit : bool) then __fixed_digits s (alen s) (i + 1 + 2) 2
       else Some (Some (i + 1 + 2, 0)))) = Some (Some (i', mm)) /\ cursor s i' l) as (i' & Em & Hc2).
    { destruct sep; rewrite !(next_is_at s _ _ _ Hc1); cbn [mbind option_bind].
      - simpl app in *. apply cursor_get in Hc1 as (_ & _ & Hc1). simpl.
        destruct (two_digits_at s (i + 1 + 2 + 1) mm l Hc1) as [-> Hc2]; [lia|]. by eexists.
      - simpl app in *. rewrite num_head_sat by (try lia; intros d Hd; by apply is_ch_digit).
        rewrite num_head_digit by lia.
        destruct (two_digits_at s (i + 1 + 2) mm l Hc1) as [-> Hc2]; [lia|]. by eexists. }
    revert Em. destruct (next_is s _ _ (is_ch ":")) as [b1|]; [|done]. cbn [mbind option_bind].
    destruct (next_is s _ _ __is_digit) as [b2|]; [|done]. cbn [mbind option_bind]. intros ->.
    cbn [mbind option_bind]. assert (Z.abs off / 3600 < 24) as Hhh by divlia.
    rewrite !(proj2 (Z.ltb_ge _ _)) by lia. cbn [orb].
    exists i'. split; [|done]. do 3 f_equal.
    assert (Z.abs off = Z.abs off / 3600 * 3600 + mm * 60) as Ea by (unfold mm; clear -Hm; divlia).
    destruct (Z.ltb_spec off 0); lia.
Qed.

(** * Steps of a parse that succeeds *)

Lemma ebind_go {R A B} (x : A) (f : A -> early R B) : ebind (go x) f = f x.
Proof. done. Qed.

Lemma or_ret_some {R A} (m : option (option A)) (x : A) (r : R) : m = Some (Some x) -> or_ret m r = go x.
Proof. by intros ->. Qed.

Lemma lift_some {R A} (m : option A) (x : A) : m = Some x -> lift (R := R) m = go x.
Proof. by intros ->. Qed.

Lemma ensure_true {R} b (r : R) : b = true -> ensure b r = go ().
Proof. by intros ->. Qed.

Lemma scale_frac_spec frac taken : 1 <= taken <= 9 -> 0 <= frac < 10 ^ taken ->
  scale_frac frac taken = Some (frac * 10 ^ (9 - taken)).
Proof.
  intros Ht Hf. apply returns_eq. unfold scale_frac.
  apply (returns_for _ _ _ _ (fun k f => f = frac * 10 ^ (k - taken))); [lia| | |].
  - by rewrite Z.sub_diag, Z.mul_1_r.
  - intros k f Hk ->. apply returns_ret. replace (k + 1 - taken) with (k - taken + 1) by lia.
    rewrite Z.pow_add_r, Z.mul_assoc by lia. change (10 ^ 1) with 10. apply wrap_id. unfold in_unsigned.
    assert (0 < 10 ^ (k - taken)) by (apply Z.pow_pos_nonneg; lia).
    assert (10 ^ taken * 10 ^ (k - taken) = 10 ^ k) as E by (rewrite <- Z.pow_add_r by lia; f_equal; lia).
    pose proof (Z.pow_le_mono_r 10 k 8 ltac:(lia) ltac:(lia)). assert (10 ^ 8 * 10 < 2 ^ 64) by done. nia.
  - by intros ? <-.
Qed.

(** The nanoseconds that [digits] decimals keep. *)
Definition truncated_ns (ns digits : Z) : Z :=
  if digits =? 0 then 0 else let d := Z.min 9 digits in ns / 10 ^ (9 - d) * 10 ^ (9 - d).

Lemma parse_frac_at s i ns digits l r : cursor s i (subsec_text ns digits ++ l) ->
  0 <= ns < 10 ^ 9 -> 0 <= digits ->
  head_sat __is_digit l = false -> head_sat (fun c => is_ch "." c || is_ch "," c) l = false ->
  c_ns (r_c r) = 0 ->
  exists i', parse_frac s (alen s) i r = go (i', set_c r (with_ns (r_c r) (truncated_ns ns digits))) /\
    cursor s i' l.
Proof.
  intros Hc Hns Hd Hld Hlp Hr0. unfold parse_frac, subsec_text, truncated_ns in *.
  destruct (Z.eqb_spec digits 0) as [->|Hne].
  - rewrite (next_is_at s i _ _ Hc). simpl app in *. rewrite Hlp. exists i. split; [|done].
    simpl. unfold go. do 3 f_equal. destruct r as [[] ? ?]. unfold set_c, with_ns. simpl in *. by subst.
  - set (d := Z.min 9 digits) in *. cbv zeta in Hc.
    assert (0 < 10 ^ (9 - d)) as Hpow by (apply Z.pow_pos_nonneg; lia).
    assert (10 ^ d * 10 ^ (9 - d) = 10 ^ 9) as Epow by (rewrite <- Z.pow_add_r by lia; f_equal; lia).
    set (frac := ns / 10 ^ (9 - d)) in *.
    assert (0 <= frac < 10 ^ d) as Hfrac.
    { unfold frac. split; [apply Z.div_pos; lia|]. apply Z.div_lt_upper_bound; lia. }
    pose proof (Z.mul_div_le ns (10 ^ (9 - d)) Hpow) as Hle. fold frac in Hle.
    assert (10 ^ d <= 10 ^ 9) by (apply Z.pow_le_mono_r; lia).
    pose proof (num_alen d frac Hfrac ltac:(lia)) as L.
    rewrite <- app_assoc in Hc. rewrite (next_is_at s i _ _ Hc). simpl app in Hc.
    apply cursor_get in Hc as (_ & _ & Hc). simpl head_sat. rewrite (lift_some _ true) by done. rewrite ebind_go.
    cbn [negb]. destruct (some_digits_at s (i + 1) (num d frac) l 9) as [E Hc'];
      [done|apply num_digits; lia|lia|lia|by right|].
    rewrite (or_ret_some _ _ _ E), ebind_go, L. rewrite num_value by (assert (10 ^ 9 < 2 ^ 64) by done; lia).
    rewrite (lift_some _ _ (scale_frac_spec frac d ltac:(lia) Hfrac)), ebind_go.
    destruct (skip_at s (i + 1 + d) [] l __is_digit) as [E' Hc'']; [by rewrite <- L|constructor|done|].
    rewrite (lift_some _ _ E'), ebind_go. eexists. split; [|exact Hc'']. do 4 f_equal.
    rewrite wrap_id; [done|]. unfold in_unsigned. assert (10 ^ 9 < 2 ^ 32) by done. lia.
Qed.

Lemma time_fields_at {R} s i c l (r1 r2 : R) : cursor s i (hms_text c ++ l) -> civil_ranges c ->
  exists i1 i2 i3, __fixed_digits s (alen s) i 2 = Some (Some (i1, c_h c)) /\
    expect s (alen s) i1 ":" r1 = go (i1 + 1) /\
    __fixed_digits s (alen s) (i1 + 1) 2 = Some (Some (i2, c_mi c)) /\
    optional_seconds s (alen s) i2 r2 = go (i3, c_s c) /\ cursor s i3 l.
Proof.
  intros Hc Hr. destruct Hr. unfold hms_text in Hc. rewrite <- !app_assoc in Hc.
  destruct (two_digits_at s i (c_h c) _ Hc) as [E1 Hc1]; [lia|].
  destruct (expect_at s _ ":" _ r1 Hc1) as [E2 Hc2].
  destruct (two_digits_at s _ (c_mi c) _ Hc2) as [E3 Hc3]; [lia|].
  exists (i + 2), (i + 2 + 1 + 2), (i + 2 + 1 + 2 + 1 + 2). split_and!; [done|done|done| |].
  - unfold optional_seconds. rewrite (next_is_at s _ _ _ Hc3). simpl app in *. simpl head_sat.
    rewrite (lift_some _ true) by done. rewrite ebind_go. apply cursor_get in Hc3 as (_ & _ & Hc4).
    destruct (two_digits_at s _ (c_s c) l Hc4) as [E4 _]; [lia|]. by rewrite (or_ret_some _ _ _ E4).
  - simpl app in Hc3. apply cursor_get in Hc3 as (_ & _ & Hc4).
    by destruct (two_digits_at s _ (c_s c) l Hc4) as [_ ?]; [lia|].
Qed.

(** * ISO 8601 *)

(** Times the format can carry: the year in at most nine digits. *)
Definition iso_representable (c : civil) : Prop :=
  civil_typed c /\ valid c = true /\ - 999999999 <= c_y c <= 999999999 /\ offset_ok (c_off c).

(** What is read back: the sub-second digits that were written, and no offset
    when none was. *)
Definition iso_reread (c : civil) (digits : Z) (os : offset_style) : civil_result :=
  mk_res (set_off (with_ns c (truncated_ns (c_ns c) digits)) (if decide (os = os_none) then 0 else c_off c))
    None (bool_decide (os <> os_none)).

Lemma parse_date_at s y mo d l r : cursor s 0 (year_text y ++ [ch "-"] ++ num 2 mo ++ [ch "-"] ++ num 2 d ++ l) ->
  - 999999999 <= y <= 999999999 -> civil_valid y mo d = true ->
  exists i, parse_date s (alen s) r = go (i, y, mo, d) /\ cursor s i l.
Proof.
  intros Hc Hy Hv. apply civil_valid_spec in Hv as [Hm Hd].
  pose proof (days_in_month_range y mo Hm). unfold parse_date.
  destruct (year_at s 0 y _ Hc Hy) as (i & E1 & Hc1); [done|]. rewrite (or_ret_some _ _ _ E1), ebind_go.
  destruct (expect_at s i "-" _ (fail_with r malformed) Hc1) as [-> Hc2]. rewrite ebind_go.
  destruct (two_digits_at s _ mo _ Hc2) as [E3 Hc3]; [lia|]. rewrite (or_ret_some _ _ _ E3), ebind_go.
  destruct (expect_at s _ "-" _ (fail_with r malformed) Hc3) as [-> Hc4]. rewrite ebind_go.
  destruct (two_digits_at s _ d _ Hc4) as [E5 Hc5]; [lia|]. rewrite (or_ret_some _ _ _ E5), ebind_go.
  rewrite !(proj2 (Z.ltb_ge _ _)) by lia. eexists. split; [done|exact Hc5].
Qed.

Lemma offset_text_head off os : 
  head_sat __is_digit (offset_text off os) = false /\
  head_sat (fun c => is_ch "." c || is_ch "," c) (offset_text off os) = false /\
  (offset_text off os = [] <-> os = os_none).
Proof.
  unfold offset_text. destruct (decide _) as [->|]; [by split_and!|].
  destruct (_ && _); [by split_and!|]. simpl. destruct (off <? 0); by split_and!.
Qed.

Lemma parse_tail_at s i off os r : cursor s i (offset_text off os) -> offset_ok off ->
  c_off (r_c r) = 0 -> r_has_offset r = false ->
  exists i', (if i <? alen s then
      ebind (or_ret (__offset s (alen s) i) (fail_with r bad_offset))
        (fun x => match x with (i, off) => go (i, mk_res (set_off (r_c r) off) (r_err r) true) end)
    else go (i, r)) = go (i', mk_res (set_off (r_c r) (if decide (os = os_none) then 0 else off)) (r_err r)
      (bool_decide (os <> os_none))) /\ i' = alen s.
Proof.
  intros Hc Ho Hr0 Hr1. destruct (offset_text_head off os) as (_ & _ & Hnil).
  destruct (decide (os = os_none)) as [->|Hos].
  - rewrite (proj2 Hnil) in Hc by done. apply cursor_end in Hc as ->. rewrite Z.ltb_irrefl.
    exists (alen s). split; [|done]. unfold go. do 3 f_equal. destruct r as [[] ? ?].
    unfold set_off. simpl in *. by subst.
  - destruct (Z.ltb_spec i (alen s)) as [Hlt|Hge].
    + rewrite <- (app_nil_r (offset_text off os)) in Hc.
      destruct (offset_text_at s i off os [] Hc Hos Ho) as (i' & E & Hc'); [done|done|].
      rewrite (or_ret_some _ _ _ E), ebind_go. exists i'. split; [|by apply cursor_end].
      by rewrite bool_decide_true.
    + exfalso. apply Hos, Hnil, nil_length_inv. pose proof (cursor_bound _ _ _ Hc) as [_ H]. unfold alen in *. lia.
Qed.

Lemma parse_iso8601_text c digits sep os : iso_representable c -> 0 <= digits ->
  let s := iso8601_text c digits sep os in
  parse_iso8601 (Some s) (alen s) = Some (iso_reread c digits os).
Proof.
  intros (Hty & Hv & Hy & Ho) Hd s. pose proof (valid_ranges c Hty Hv) as Hr. pose proof Hr as [].
  assert (civil_valid (c_y c) (c_mo c) (c_d c) = true) as Hcv.
  { unfold valid in Hv. by rewrite !andb_true_iff in Hv; destruct Hv as ((((? & _) & _) & _) & _). }
  unfold parse_iso8601. assert (alen s <> 0) as Hne.
  { unfold s, iso8601_text. rewrite alen_app, alen_app. change (alen [ch "-"]) with 1.
    pose proof (alen_nonneg (year_text (c_y c))).
    match goal with |- context [alen ?l] => pose proof (alen_nonneg l) end.
    match goal with |- ?a + (1 + ?b) <> 0 => assert (0 <= b) by apply alen_nonneg end. lia. }
  rewrite (proj2 (Z.eqb_neq _ _)) by done.
  destruct (parse_date_at s (c_y c) (c_mo c) (c_d c) _ res0 (cursor_start s) Hy Hcv) as (i & -> & Hc).
  rewrite ebind_go.
  pose proof (cursor_get s i _ _ Hc) as (Ei & Hlt & Hc1). rewrite (proj2 (Z.eqb_neq _ _)) by lia.
  rewrite (lift_some _ _ Ei), ebind_go. rewrite ensure_true by (by destruct (decide (sep = space))).
  rewrite ebind_go.
  set (r := set_c res0 (set_date civil_default (c_y c) (c_mo c) (c_d c))).
  destruct (time_fields_at s (i + 1) c _ (fail_with r malformed) (fail_with r bad_second) Hc1 Hr)
    as (i1 & i2 & i3 & E1 & E2 & E3 & E4 & Hc4).
  rewrite (or_ret_some _ _ _ E1), ebind_go, E2, ebind_go, (or_ret_some _ _ _ E3), ebind_go, E4, ebind_go.
  rewrite !(proj2 (Z.ltb_ge _ _)) by lia. rewrite !ensure_true, !ebind_go by done.
  destruct (offset_text_head (c_off c) os) as (Hh1 & Hh2 & _).
  destruct (parse_frac_at s i3 (c_ns c) digits _ (set_c r (set_time (r_c r) (c_h c) (c_mi c) (c_s c))) Hc4)
    as (i4 & -> & Hc5); [lia|done|done|done|done|].
  rewrite ebind_go.
  destruct (parse_tail_at s i4 (c_off c) os (set_c (set_c r (set_time (r_c r) (c_h c) (c_mi c) (c_s c)))
    (with_ns (r_c (set_c r (set_time (r_c r) (c_h c) (c_mi c) (c_s c)))) (truncated_ns (c_ns c) digits))) Hc5 Ho)
    as (i5 & -> & ->); [done|done|].
  rewrite ebind_go, ensure_true, ebind_go by apply Z.eqb_refl. done.
Qed.

(** * RFC 2822 *)

Definition ieq_spec (tok lit : list Z) : bool :=
  forallb (fun p => lower p.1 =? lower p.2) (zip tok lit).

Lemma ieq_loop s i tok lit rest j k fuel :
  cursor s (i + j) (tok ++ rest) -> 0 <= j -> k = j + alen tok ->
  (forall m, 0 <= m < alen tok -> lit.[j + m] = (drop (Z.to_nat j) lit).[m]) ->
  length (drop (Z.to_nat j) lit) = length tok -> (length tok < fuel)%nat ->
  while_ fuel (fun j =>
      if j <? k then
        a ← s.[i + j];
        b ← lit.[j];
        if negb (lower a =? lower b) then Some (inr false) else Some (inl (j + 1))
      else Some (inr true)) j = Some (ieq_spec tok (drop (Z.to_nat j) lit)).
Proof.
  revert j fuel. induction tok as [|c tok IH]; intros j fuel Hc Hj Hk Hl Hlen Hf;
    (destruct fuel as [|fuel]; [simpl in Hf; lia|]); cbn [while_].
  - change (alen (@nil Z)) with 0 in Hk. rewrite (proj2 (Z.ltb_ge _ _)) by lia. done.
  - assert (alen (c :: tok) = alen tok + 1) as L by (unfold alen; simpl; lia). pose proof (alen_nonneg tok).
    rewrite (proj2 (Z.ltb_lt _ _)) by lia. simpl app in Hc. apply cursor_get in Hc as (E & _ & Hc).
    rewrite E. cbn [mbind option_bind]. destruct (drop (Z.to_nat j) lit) as [|b lit'] eqn:Ed; [done|].
    assert (lit.[j] = Some b) as ->.
    { specialize (Hl 0 ltac:(lia)). by rewrite Z.add_0_r in Hl. }
    cbn [mbind option_bind]. unfold ieq_spec. cbn [zip zip_with forallb fst snd].
    destruct (lower c =? lower b); cbn [negb andb mbind option_bind]; [|done].
    assert (drop (Z.to_nat (j + 1)) lit = lit') as Ed'.
    { replace (Z.to_nat (j + 1)) with (Z.to_nat j + 1)%nat by lia. by rewrite <- drop_drop, Ed. }
    rewrite IH; rewrite ?Ed'; try done; try lia.
    + by replace (i + (j + 1)) with (i + j + 1) by lia.
    + intros m Hm. specialize (Hl (m + 1) ltac:(lia)). replace (j + 1 + m) with (j + (m + 1)) by lia.
      rewrite Hl. rewrite <- (Z2Nat.id m), aget_nat by lia.
      replace (Z.of_nat (Z.to_nat m) + 1) with (Z.of_nat (S (Z.to_nat m))) by lia. by rewrite aget_nat.
    + simpl in Hlen. lia.
    + simpl in Hf. lia.
Qed.

Lemma ieq_at s i tok l lit k : cursor s i (tok ++ l) -> alen tok = k -> alen lit = k ->
  __ieq s (alen s) i lit k = Some (ieq_spec tok lit).
Proof.
  intros Hc Ht Hl. pose proof (cursor_bound _ _ _ Hc) as [Hi He]. rewrite alen_app in He.
  pose proof (alen_nonneg l). pose proof (alen_nonneg tok). unfold __ieq. rewrite (proj2 (Z.ltb_ge _ _)) by lia.
  rewrite (ieq_loop s i tok lit l 0 k); rewrite ?drop_0; try done; try lia.
  - by rewrite Z.add_0_r.
  - unfold alen in *. lia.
  - unfold alen in *. lia.
Qed.

Lemma ieq_head_ne s i c l b lit k : cursor s i (c :: l) -> (lower c =? lower b) = false -> 1 <= k ->
  __ieq s (alen s) i (b :: lit) k = Some false.
Proof.
  intros Hc Hne Hk. unfold __ieq. destruct (_ <? _); [done|].
  destruct (Z.to_nat k) as [|fuel] eqn:E; [lia|]. cbn [while_].
  rewrite (proj2 (Z.ltb_lt _ _)) by lia. rewrite Z.add_0_r. apply cursor_get in Hc as (-> & _).
  change ((b :: lit).[0]) with (Some b). cbn [mbind option_bind]. by rewrite Hne.
Qed.

Fixpoint find_name (tok : list Z) (names : list string) (k : Z) : option Z :=
  match names with
  | [] => None
  | name :: names => if ieq_spec tok (cstr name) then Some k else find_name tok names (k + 1)
  end.

Lemma match_name_at s i tok l names k : cursor s i (tok ++ l) -> alen tok = 3 ->
  Forall (fun name => alen (cstr name) = 3) names ->
  match_name s (alen s) i names k = Some (find_name tok names k).
Proof.
  intros Hc Ht Hn. revert k. induction Hn as [|name names Hl Hn IH]; intros k; [done|].
  cbn [match_name find_name]. rewrite (ieq_at s i tok l (cstr name) 3) by done. cbn [mbind option_bind].
  destruct (ieq_spec tok (cstr name)); [done|apply IH].
Qed.

Lemma month_found mo : 1 <= mo <= 12 ->
  find_name (entry_text month_abbr mo) (tail month_abbr) 1 = Some mo /\ alen (entry_text month_abbr mo) = 3.
Proof. intros. each_value mo 1 12; by vm_compute. Qed.

Lemma weekday_found w : 0 <= w < 7 ->
  (exists k, find_name (entry_text weekday_abbr w) weekday_abbr 0 = Some k) /\
  alen (entry_text weekday_abbr w) = 3 /\
  exists c t, entry_text weekday_abbr w = c :: t /\ __is_digit c = false.
Proof.
  intros Hw. each_value w 0 6; (split_and!; [by eexists; vm_compute|by vm_compute|by eexists _, _; vm_compute]).
Qed.

Lemma parse_weekday_at s w l r : cursor s 0 (entry_text weekday_abbr w ++ [ch ","] ++ [ch " "] ++ l) ->
  0 <= w < 7 -> head_sat (is_ch " ") l = false ->
  parse_weekday s (alen s) r = go 5 /\ cursor s 5 l.
Proof.
  intros Hc Hw Hl. destruct (weekday_found w Hw) as ((k & Ek) & L3 & c & t & Ec & Hd).
  pose proof (cursor_bound _ _ _ Hc) as [_ He]. rewrite !alen_app, L3 in He.
  change (alen [ch ","]) with 1 in He. change (alen [ch " "]) with 1 in He. pose proof (alen_nonneg l).
  pose proof (match_name_at s 0 _ _ weekday_abbr 0 Hc L3 ltac:(by repeat constructor)) as Em. rewrite Ek in Em.
  pose proof (cursor_app s 0 _ _ Hc) as Hc3. rewrite L3 in Hc3. simpl Z.add in Hc3.
  rewrite Ec in Hc. simpl app in Hc. apply cursor_get in Hc as (E0 & _).
  unfold parse_weekday. rewrite (proj2 (Z.leb_le 4 _)) by lia.
  rewrite (lift_some _ _ E0), ebind_go, ebind_go, Hd. cbn [negb].
  rewrite (or_ret_some _ _ _ Em), ebind_go. rewrite (lift_some _ _ (next_is_at s 3 _ (is_ch ",") Hc3)), ebind_go.
  simpl app in Hc3. apply cursor_get in Hc3 as (_ & _ & Hc4). simpl head_sat. change (3 + 1) with 4 in Hc4.
  destruct (skip_at s 4 [ch " "] l (is_ch " ")) as [Es Hc5]; [done|by repeat constructor|done|].
  change (is_ch "," (ch ",")) with true. cbv iota. rewrite (lift_some _ _ Es). done.
Qed.

Lemma skip_space_at {R} s i l (f : Z -> early R R) : cursor s i ([ch " "] ++ l) -> head_sat (is_ch " ") l = false ->
  ebind (lift (skip s (alen s) i (is_ch " "))) f = f (i + 1) /\ cursor s (i + 1) l.
Proof.
  intros Hc Hl. destruct (skip_at s i [ch " "] l (is_ch " ")) as [Es Hc']; [done|by repeat constructor|done|].
  by rewrite (lift_some _ _ Es), ebind_go.
Qed.

Definition zone_text (gmt : bool) (off : Z) : list Z := if gmt then cstr "GMT" else offset_text off compact.

Lemma zone_head gmt off p : p (ch "G") = false -> p (ch "+") = false -> p (ch "-") = false ->
  head_sat p (zone_text gmt off) = false.
Proof.
  intros HG Hp Hm. destruct gmt; [done|]. unfold zone_text, offset_text.
  rewrite decide_False by done. rewrite (bool_decide_false (compact = z_or_colon)), (bool_decide_false (compact = z_or_compact)) by done.
  rewrite andb_false_r. simpl. by destruct (off <? 0).
Qed.

Lemma parse_zone_at s i gmt off r : cursor s i (zone_text gmt off) -> offset_ok off ->
  exists i', parse_zone s (alen s) i r = go (i', if gmt then 0 else off, mk_res (r_c r) (r_err r) true) /\
    cursor s i' [].
Proof.
  intros Hc Ho. unfold parse_zone.
  assert (exists c t, zone_text gmt off = c :: t) as (c & t & Ec).
  { destruct (zone_text gmt off) as [|c t] eqn:E; [|by eexists _, _]. exfalso.
    destruct gmt; [done|]. apply offset_text_head in E. done. }
  pose proof Hc as Hc0. rewrite Ec in Hc0. pose proof (cursor_get _ _ _ _ Hc0) as (_ & Hlt & _).
  rewrite (proj2 (Z.ltb_lt _ _)) by done.
  rewrite <- (app_nil_r (zone_text gmt off)) in Hc. destruct gmt.
  - rewrite (lift_some _ _ (ieq_at s i (cstr "GMT") [] (cstr "GMT") 3 Hc eq_refl eq_refl)), ebind_go.
    rewrite (lift_some _ _ (ieq_at s i (cstr "GMT") [] (cstr "UTC") 3 Hc eq_refl eq_refl)), ebind_go.
    rewrite (lift_some _ _ (ieq_head_ne s i c t (ch "U") (cstr "T") 2 Hc0 ltac:(by injection Ec as <- _) ltac:(lia))), ebind_go.
    change (ieq_spec (cstr "GMT") (cstr "GMT")) with true. cbn [orb]. rewrite ebind_go.
    exists (i + 3). split; [done|]. by apply (cursor_app s i (cstr "GMT") []).
  - assert (c = ch "+" \/ c = ch "-") as Hcc.
    { unfold zone_text, offset_text in Ec. rewrite decide_False in Ec by done.
      rewrite (bool_decide_false (compact = z_or_colon)), (bool_decide_false (compact = z_or_compact)), andb_false_r in Ec by done.
      injection Ec as <- _. destruct (off <? 0); auto. }
    assert ((lower c =? lower (ch "G")) = false /\ (lower c =? lower (ch "U")) = false) as [HG HU]
      by (by destruct Hcc as [-> | ->]).
    rewrite (lift_some _ _ (ieq_head_ne s i c t (ch "G") (cstr "MT") 3 Hc0 HG ltac:(lia))), ebind_go.
    rewrite (lift_some _ _ (ieq_head_ne s i c t (ch "U") (cstr "TC") 3 Hc0 HU ltac:(lia))), ebind_go.
    rewrite (lift_some _ _ (ieq_head_ne s i c t (ch "U") (cstr "T") 2 Hc0 HU ltac:(lia))), ebind_go.
    cbn [orb]. destruct (offset_text_at s i off compact [] Hc) as (i' & E & Hc'); [done|done|done|done|].
    rewrite (or_ret_some _ _ _ E), ebind_go. by exists i'.
Qed.

Definition rfc2822_representable (c : civil) : Prop :=
  civil_typed c /\ valid c = true /\ 0 <= c_y c <= 9999 /\ offset_ok (c_off c).

Lemma parse_rfc2822_text c gmt : rfc2822_representable c ->
  let s := rfc2822_text c gmt in
  parse_rfc2822 (Some s) (alen s) =
    Some (mk_res (set_off (with_ns c 0) (if gmt then 0 else c_off c)) None true).
Proof.
  intros (Hty & Hv & Hy & Ho) s. pose proof (valid_ranges c Hty Hv) as Hr. pose proof Hr as [].
  assert (civil_valid (c_y c) (c_mo c) (c_d c) = true) as Hcv.
  { unfold valid in Hv. by rewrite !andb_true_iff in Hv; destruct Hv as ((((? & _) & _) & _) & _). }
  apply civil_valid_spec in Hcv as [_ Hdim].
  pose proof (weekday_range (days_from_civil (c_y c) (c_mo c) (c_d c)) : 0 <= civil_weekday_of c < 7) as Hw.
  pose proof (cursor_start s) as Hc. unfold s at 2 in Hc. unfold rfc2822_text in Hc.
  assert (mo_index (c_mo c) = c_mo c) as Emo by (unfold mo_index; by rewrite (proj2 (Z.leb_le _ _)) by lia).
  assert (int_text 4 (c_y c) = num 4 (c_y c)) as Ey by (unfold int_text; by rewrite (proj2 (Z.ltb_ge _ _)) by lia).
  rewrite Emo, Ey in Hc. fold (zone_text gmt (c_off c)) in Hc.
  assert (forall w v l, 0 <= v -> head_sat (is_ch " ") (num w v ++ l) = false) as Hsp.
  { intros. apply num_head_sat; [done|]. intros. by apply is_ch_digit. }
  destruct (parse_weekday_at s _ _ res0 Hc Hw) as [Ewd Hc1]; [apply Hsp; lia|].
  unfold parse_rfc2822. assert (alen s <> 0) as Hne.
  { pose proof (cursor_bound _ _ _ Hc1). lia. }
  rewrite (proj2 (Z.eqb_neq _ _)), Ewd, ebind_go by done.
  pose proof (num_alen 2 (c_d c) ltac:(lia) ltac:(lia)) as L2.
  destruct (some_digits_at s 5 (num 2 (c_d c)) _ 2 Hc1) as [E2 Hc2]; [apply num_digits; lia|lia|lia|by left|].
  rewrite (or_ret_some _ _ _ E2), ebind_go, num_value by lia. rewrite L2 in *.
  destruct (month_found (c_mo c)) as [Emn L3]; [lia|].
  assert (exists a t, entry_text month_abbr (c_mo c) = a :: t /\ is_ch " " a = false) as (a & t & Ea & Ha).
  { assert (1 <= c_mo c <= 12) as Hm by lia. clear -Hm. revert Hm. generalize (c_mo c) as m. intros m Hm.
    each_value m 1 12; by eexists _, _; vm_compute. }
  edestruct (skip_space_at (R := civil_result) s (5 + 2)) as [-> Hc3]; [exact Hc2|by rewrite Ea|].
  pose proof (match_name_at s _ _ _ (tail month_abbr) 1 Hc3 L3 ltac:(by repeat constructor)) as Em. rewrite Emn in Em.
  rewrite (or_ret_some _ _ _ Em), ebind_go.
  pose proof (cursor_app _ _ _ _ Hc3) as Hc4. rewrite L3 in Hc4.
  edestruct (skip_space_at (R := civil_result) s (5 + 2 + 1 + 3)) as [-> Hc5]; [exact Hc4|apply Hsp; lia|].
  pose proof (num_alen 4 (c_y c) ltac:(lia) ltac:(lia)) as L4.
  destruct (some_digits_at s _ (num 4 (c_y c)) _ 4 Hc5) as [E5 Hc6]; [apply num_digits; lia|lia|lia|by left|].
  rewrite (or_ret_some _ _ _ E5), ebind_go, num_value by lia. rewrite L4 in *. change (4 =? 2) with false. cbv iota.
  edestruct (skip_space_at (R := civil_result) s) as [-> Hc7];
    [exact Hc6|unfold hms_text; rewrite <- !app_assoc; apply Hsp; lia|].
  destruct (time_fields_at s _ c _ (fail_with res0 malformed) (fail_with res0 bad_second) Hc7 Hr)
    as (i1 & i2 & i3 & E1 & E3 & E4 & E6 & Hc8).
  rewrite (or_ret_some _ _ _ E1), ebind_go, E3, ebind_go, (or_ret_some _ _ _ E4), ebind_go, E6, ebind_go.
  edestruct (skip_space_at (R := civil_result) s i3) as [-> Hc9]; [exact Hc8|by apply zone_head|].
  destruct (parse_zone_at s _ gmt (c_off c) res0 Hc9 Ho) as (i4 & -> & Hc10). rewrite ebind_go.
  destruct (skip_at s i4 [] [] (fun c => is_ch " " c || (c =? 13) || (c =? 10))) as [Es _]; [done|constructor|done|].
  rewrite (lift_some _ _ Es), ebind_go. change (alen (@nil Z)) with 0. rewrite Z.add_0_r.
  rewrite ensure_true, ebind_go by (apply Z.eqb_eq; by apply cursor_end).
  rewrite (swrap_id 32), (wrap_id 32) by (unfold in_signed, in_unsigned; lia).
  rewrite !(proj2 (Z.ltb_ge _ _)) by lia. rewrite !ensure_true, !ebind_go by done. done.
Qed.

(** * Arbitrary input: in bounds, and only valid results *)

(** [m] makes no bad access; an early result satisfies [Qr], a value [Q]. *)
Definition esafe {R A} (m : early R A) (Qr : R -> Prop) (Q : A -> Prop) : Prop :=
  match m with None => False | Some (inl r) => Qr r | Some (inr x) => Q x end.

Lemma esafe_bind {R A B} (m : early R A) (f : A -> early R B) Qr (P : A -> Prop) Q :
  esafe m Qr P -> (forall x, P x -> esafe (f x) Qr Q) -> esafe (ebind m f) Qr Q.
Proof. destruct m as [[r|x]|]; simpl; auto. Qed.

Lemma esafe_or_ret {R A} (m : option (option A)) (r : R) Qr (P : A -> Prop) :
  returns m (fun o => forall x, o = Some x -> P x) -> Qr r -> esafe (or_ret m r) Qr P.
Proof. intros ([x|] & -> & Hx) Hr; simpl; auto. Qed.

Lemma esafe_lift {R A} (m : option A) (Qr : R -> Prop) P : returns m P -> esafe (lift m) Qr P.
Proof. by intros (x & -> & Hx). Qed.

Lemma esafe_ensure {R} b (r : R) (Qr : R -> Prop) : Qr r -> esafe (ensure b r) Qr (fun _ => b = true).
Proof. by destruct b. Qed.

Lemma esafe_run {R} (m : early R R) Q : esafe m Q Q -> returns (run m) Q.
Proof. destruct m as [[r|r]|]; simpl; [|intros; by apply returns_ret..|done]. intros. by apply returns_ret. Qed.

Section input.
Context (s : list Z) (n : Z) (Hn : n <= alen s).

Lemma next_is_safe i p : 0 <= i -> returns (next_is s n i p) (fun b => b = true -> i < n).
Proof using Hn.
  intros Hi. unfold next_is. apply returns_if; intros Hc.
  - apply returns_get; [lia|]. intros c _. apply returns_ret. intros _. lia.
  - by apply returns_ret.
Qed.

Lemma fixed_digits_safe i count : 0 <= i -> 0 <= count <= 9 ->
  returns (__fixed_digits s n i count) (fun o => forall x, o = Some x ->
    x.1 = i + count /\ i + count <= n /\ 0 <= x.2 < 10 ^ count).
Proof using Hn.
  intros Hi Hc. unfold __fixed_digits. apply returns_if; intros Hb; [by apply returns_ret|].
  apply (returns_while _ _ _ (fun '(k, j, out) => 0 <= k <= count /\ j = i + k /\ 0 <= out < 10 ^ k)
    (fun '(k, _, _) => count - k)).
  - split_and!; lia.
  - lia.
  - intros [[k j] out] (Hk & -> & Ho). apply returns_if; intros Hlt.
    + apply returns_get; [lia|]. intros c _. apply returns_if; intros Hd; apply returns_ret; [done|].
      apply negb_false_iff, is_digit_spec in Hd. unfold is_digit in Hd. change (ch "0") with 48.
      assert (10 ^ (k + 1) <= 10 ^ 9) by (apply Z.pow_le_mono_r; lia). rewrite Z.pow_add_r in * by lia.
      assert (10 ^ 9 < 2 ^ 32) by done.
      rewrite wrap_id by (unfold in_unsigned; lia). split; [|lia]. split_and!; lia.
    + apply returns_ret. intros x [= <-]. simpl. replace k with count in * by lia. lia.
Qed.

Lemma some_digits_safe i max : 0 <= i <= n -> 0 <= max <= 19 ->
  returns (__some_digits s n i max) (fun o => forall x, o = Some x ->
    i < x.1.1 <= n /\ 0 <= x.1.2 < 10 ^ x.2 /\ 1 <= x.2 <= max).
Proof using Hn.
  intros Hi Hm. unfold __some_digits. eapply returns_bind.
  - apply (returns_while _ _ _ (fun '(j, out, k) => 0 <= k <= max /\ j = i + k /\ j <= n /\ 0 <= out < 10 ^ k)
      (fun '(j, _, _) => n - j) (fun '(j, out, k) => 0 <= k <= max /\ j = i + k /\ j <= n /\ 0 <= out < 10 ^ k)).
    + split_and!; lia.
    + lia.
    + intros [[j out] k] (Hk & Hj & Hle & Ho). apply returns_if; intros Hb; [|by apply returns_ret].
      apply andb_true_iff in Hb as [H1%Z.ltb_lt H2%Z.ltb_lt].
      apply returns_get; [lia|]. intros c _. apply returns_if; intros Hd; apply returns_ret; [|done].
      apply is_digit_spec in Hd. unfold is_digit in Hd. change (ch "0") with 48.
      assert (10 ^ (k + 1) <= 10 ^ 19) by (apply Z.pow_le_mono_r; lia). rewrite Z.pow_add_r in * by lia.
      assert (10 ^ 19 < 2 ^ 64) by done.
      rewrite wrap_id by (unfold in_unsigned; lia). split; [|lia]. split_and!; lia.
  - intros [[j out] k] (Hk & Hj & Hle & Ho). apply returns_ret. destruct (Z.eqb_spec k 0); simpl; [done|].
    intros x [= <-]. simpl. lia.
Qed.

Lemma skip_safe i p : 0 <= i <= n -> returns (skip s n i p) (fun j => i <= j <= n).
Proof using Hn.
  intros Hi. unfold skip. apply (returns_while _ _ _ (fun j => i <= j <= n) (fun j => n - j)); [lia|lia|].
  intros j Hj. eapply returns_bind; [apply next_is_safe; lia|]. intros [] Hb; apply returns_ret; [|lia].
  specialize (Hb eq_refl). lia.
Qed.

Lemma expect_safe {R} i a (r : R) Qr : 0 <= i -> Qr r ->
  esafe (expect s n i a r) Qr (fun j => j = i + 1 /\ j <= n).
Proof using Hn.
  intros Hi Hr. unfold expect. eapply esafe_bind; [apply esafe_lift, next_is_safe; lia|]. intros b Hb.
  eapply esafe_bind; [by apply esafe_ensure|]. intros [] Hb'. simpl. specialize (Hb Hb'). lia.
Qed.

Lemma optional_seconds_safe {R} i (r : R) Qr : 0 <= i <= n -> Qr r ->
  esafe (optional_seconds s n i r) Qr (fun x => i <= x.1 <= n /\ 0 <= x.2 < 100).
Proof using Hn.
  intros Hi Hr. unfold optional_seconds. eapply esafe_bind; [apply esafe_lift, next_is_safe; lia|].
  intros [] Hb; [|simpl; lia]. apply esafe_or_ret; [|done].
  eapply returns_mono; [apply fixed_digits_safe; lia|]. intros o Ho x Hx. specialize (Ho x Hx). lia.
Qed.

Lemma year_safe i : 0 <= i <= n ->
  returns (__year s n i) (fun o => forall x, o = Some x -> i < x.1 <= n /\ - 2000000000 <= x.2 <= 2000000000).
Proof using Hn.
  intros Hi. unfold __year. eapply returns_bind; [apply next_is_safe; lia|]. intros sign Hs.
  eapply returns_bind; [apply next_is_safe; lia|]. intros neg _.
  eapply returns_bind.
  { apply some_digits_safe; [destruct sign; [specialize (Hs eq_refl)|]; lia|destruct sign; lia]. }
  intros [[[j v] k]|] Ho; [|by apply returns_ret]. specialize (Ho _ eq_refl). simpl in Ho.
  repeat (apply returns_if; intros ?; [by apply returns_ret|]). apply returns_ret. intros x [= <-]. simpl.
  rewrite swrap_id by (unfold in_signed; destruct neg; lia). destruct sign, neg; lia.
Qed.

Lemma offset_safe i : 0 <= i -> returns (__offset s n i) (fun o => forall x, o = Some x ->
  i < x.1 <= n /\ - 86400 < x.2 < 86400).
Proof using Hn.
  intros Hi. unfold __offset. apply returns_if; intros Hb; [by apply returns_ret|].
  apply returns_get; [lia|]. intros c _.
  apply returns_if; intros _; [apply returns_ret; intros x [= <-]; simpl; lia|].
  apply returns_if; intros _; [by apply returns_ret|].
  eapply returns_bind; [apply fixed_digits_safe; lia|]. intros [[j hh]|] Ho; [|by apply returns_ret].
  specialize (Ho _ eq_refl). simpl in Ho. destruct Ho as (-> & Hj & Hhh).
  eapply returns_bind; [apply next_is_safe; lia|]. intros b1 _.
  eapply returns_bind; [apply next_is_safe; lia|]. intros b2 _.
  apply (returns_bind _ _ (fun o => forall x, o = Some x -> i < x.1 <= n /\ 0 <= x.2 < 100)).
  { destruct b1; [|destruct b2].
    - eapply returns_mono; [apply fixed_digits_safe; lia|]. intros o Ho x Hx. specialize (Ho x Hx). lia.
    - eapply returns_mono; [apply fixed_digits_safe; lia|]. intros o Ho x Hx. specialize (Ho x Hx). lia.
    - apply returns_ret. intros x [= <-]. simpl. lia. }
  intros [[j mm]|] Ho; [|by apply returns_ret]. specialize (Ho _ eq_refl). simpl in Ho.
  apply returns_if; intros Hr; [by apply returns_ret|]. apply orb_false_iff in Hr as [H1%Z.ltb_ge H2%Z.ltb_ge].
  apply returns_ret. intros x [= <-]. simpl. destruct (is_ch "-" c); lia.
Qed.
End input.

(** What an accepted time satisfies. *)
Definition accepted (r : civil_result) : Prop :=
  r_err r = None -> valid (r_c r) = true /\ - 86400 < c_off (r_c r) < 86400 /\
    - 2000000000 <= c_y (r_c r) <= 2000000000.

Lemma accepted_fail r e : accepted (fail_with r e).
Proof. by intros. Qed.

Lemma valid_intro c : civil_valid (c_y c) (c_mo c) (c_d c) = true ->
  c_h c < 24 -> c_mi c < 60 -> c_s c < 61 -> c_ns c < 1000000000 -> valid c = true.
Proof. intros Hv. intros. unfold valid. rewrite Hv. by rewrite !(proj2 (Z.ltb_lt _ _)) by lia. Qed.

Section accept.
Context (s : list Z) (n : Z) (Hn : 0 <= n <= alen s).

Lemma parse_date_safe r : esafe (parse_date s n r) accepted (fun '(i, y, mo, d) =>
  0 <= i <= n /\ - 2000000000 <= y <= 2000000000 /\ civil_valid y mo d = true).
Proof using Hn.
  unfold parse_date.
  eapply esafe_bind; [apply esafe_or_ret; [apply year_safe; lia|apply accepted_fail]|]. intros [i y] [Hi Hy]. simpl in *.
  eapply esafe_bind; [apply expect_safe; [lia|lia|apply accepted_fail]|]. intros j [-> Hj].
  eapply esafe_bind; [apply esafe_or_ret; [apply fixed_digits_safe; lia|apply accepted_fail]|].
  intros [i1 mo] H; simpl in H; destruct H as (-> & Hi1 & Hmo).
  eapply esafe_bind; [apply expect_safe; [lia|lia|apply accepted_fail]|]. intros j2 [-> Hj2].
  eapply esafe_bind; [apply esafe_or_ret; [apply fixed_digits_safe; lia|apply accepted_fail]|].
  intros [i2 d] H; simpl in H; destruct H as (-> & Hi2 & Hd).
  eapply esafe_bind; [apply esafe_ensure, accepted_fail|]. intros [] H1.
  eapply esafe_bind; [apply esafe_ensure, accepted_fail|]. intros [] H2. simpl.
  rewrite negb_true_iff, orb_false_iff, !Z.ltb_ge in H1, H2.
  split_and!; [lia|lia|lia|lia|]. apply civil_valid_spec. lia.
Qed.

Lemma parse_frac_safe i r : 0 <= i <= n -> c_ns (r_c r) = 0 ->
  esafe (parse_frac s n i r) accepted (fun '(j, r') => 0 <= j <= n /\
    exists ns, 0 <= ns < 1000000000 /\ r' = set_c r (with_ns (r_c r) ns)).
Proof using Hn.
  intros Hi Hr. unfold parse_frac.
  eapply esafe_bind; [apply esafe_lift, next_is_safe; lia|]. intros [] Hb; simpl negb; cbv iota.
  - specialize (Hb eq_refl).
    eapply esafe_bind; [apply esafe_or_ret; [apply some_digits_safe; lia|apply accepted_fail]|].
    intros [[j frac] taken] (Hj & Hf & Ht). simpl in *.
    rewrite (lift_some _ _ (scale_frac_spec frac taken ltac:(lia) ltac:(lia))), ebind_go.
    eapply esafe_bind; [apply esafe_lift, skip_safe; lia|]. intros k Hk. simpl in *. split; [lia|].
    assert (10 ^ taken * 10 ^ (9 - taken) = 10 ^ 9) as E by (rewrite <- Z.pow_add_r by lia; f_equal; lia).
    change (10 ^ 9) with 1000000000 in E. assert (0 < 10 ^ (9 - taken)) by (apply Z.pow_pos_nonneg; lia).
    eexists. split; [|done]. rewrite wrap_id by (unfold in_unsigned; nia). nia.
  - split; [lia|]. exists 0. split; [lia|]. destruct r as [[] ? ?]. unfold set_c, with_ns. simpl in *. by subst.
Qed.

Lemma parse_iso8601_safe : returns (parse_iso8601 (Some s) n) accepted.
Proof using Hn.
  unfold parse_iso8601. apply returns_if; intros Hz; [apply returns_ret, accepted_fail|]. apply esafe_run.
  eapply esafe_bind; [apply parse_date_safe|]. intros [[[i y] mo] d] (Hi & Hy & Hv).
  set (r := set_c res0 (set_date civil_default y mo d)).
  destruct (Z.eqb_spec i n).
  { change (accepted r). intros _. simpl. split_and!; [by apply valid_intro|lia..]. }
  destruct (aget_in s i) as [c Hc]; [lia|]. rewrite (lift_some _ _ Hc), ebind_go. eapply esafe_bind; [apply esafe_ensure, accepted_fail|]. intros [] _.
  eapply esafe_bind; [apply esafe_or_ret; [apply fixed_digits_safe; lia|apply accepted_fail]|].
  intros [i1 h] H; simpl in H; destruct H as (-> & Hi1 & Hh).
  eapply esafe_bind; [apply expect_safe; [lia|lia|apply accepted_fail]|]. intros j [-> Hj].
  eapply esafe_bind; [apply esafe_or_ret; [apply fixed_digits_safe; lia|apply accepted_fail]|].
  intros [i2 mi] H; simpl in H; destruct H as (-> & Hi2 & Hmi).
  eapply esafe_bind; [apply optional_seconds_safe; [lia|lia|apply accepted_fail]|].
  intros [i3 sec] (Hi3 & Hsec). simpl in *.
  eapply esafe_bind; [apply esafe_ensure, accepted_fail|]. intros [] H1%negb_true_iff%Z.ltb_ge.
  eapply esafe_bind; [apply esafe_ensure, accepted_fail|]. intros [] H2%negb_true_iff%Z.ltb_ge.
  eapply esafe_bind; [apply esafe_ensure, accepted_fail|]. intros [] H3%negb_true_iff%Z.ltb_ge.
  eapply esafe_bind; [apply parse_frac_safe; [lia|done]|]. intros [i4 r2] (Hi4 & ns & Hns & ->).
  set (r1 := set_c _ (with_ns _ ns)).
  apply (esafe_bind _ _ _ (fun '(i5, r5) => exists off b, - 86400 < off < 86400 /\
    r5 = mk_res (set_off (r_c r1) off) None b)).
  { destruct (i4 <? n) eqn:Elt.
    - eapply esafe_bind; [apply esafe_or_ret; [apply offset_safe; lia|apply accepted_fail]|].
      intros [i5 off] [_ Ho]. simpl in *. by exists off, true.
    - exists 0, false. split; [lia|]. done. }
  intros [i5 r5] (off & b & Ho & ->). eapply esafe_bind; [apply esafe_ensure, accepted_fail|]. intros [] _.
  intros _. simpl. split_and!; [|lia|lia|lia|lia]. apply valid_intro; simpl; (done || lia).
Qed.
End accept.
