(* ===== verification/ChronoTheorems.v ===== *)
(** What the writers and parsers of [src/chrono] promise together: round
    trips, rejection of invalid input, exact overflow detection, and the next
    wake-up time. *)
From Stdlib Require Import Ascii String.
From stdpp Require Import base numbers list option.
From Stdlib Require Import ZArith Lia.
From S2P Require Import Prelude Arrays Calendar Civil ChronoFormat ChronoParse ChronoRoundtrip.

Local Open Scope Z_scope.
Local Open Scope early_scope.

(** * Durations *)

Lemma dur_mul_spec a b : in_unsigned 64 a -> in_unsigned 64 b ->
  __dur_mul a b = if a * b <? 2 ^ 64 then Some (a * b) else None.
Proof.
  intros Ha Hb. unfold __dur_mul, in_unsigned in *. destruct (Z.eqb_spec a 0) as [->|Hne]; simpl negb; cbn [andb].
  { simpl. by rewrite wrap_id by (unfold in_unsigned; lia). }
  pose proof (Z.div_mod (2 ^ 64 - 1) a ltac:(lia)) as E.
  pose proof (Z.mod_pos_bound (2 ^ 64 - 1) a ltac:(lia)) as Hm.
  destruct (Z.ltb_spec ((2 ^ 64 - 1) / a) b) as [Hlt|Hge], (Z.ltb_spec (a * b) (2 ^ 64)) as [H1|H1]; try done.
  - exfalso. nia.
  - rewrite wrap_id; [done|]. unfold in_unsigned. nia.
  - exfalso. nia.
Qed.

Lemma dur_add_spec a b : in_unsigned 64 a -> in_unsigned 64 b ->
  __dur_add a b = if a + b <? 2 ^ 64 then Some (a + b) else None.
Proof.
  intros Ha Hb. unfold __dur_add, in_unsigned in *.
  destruct (Z.ltb_spec (2 ^ 64 - 1 - b) a), (Z.ltb_spec (a + b) (2 ^ 64)); try (done || lia).
  rewrite wrap_id; [done|]. unfold in_unsigned. lia.
Qed.

(** The entries of the unit table, as a boolean check over it. *)
Definition comp_facts (q : Z * string) : bool :=
  (0 <? q.1) && (q.1 <? 2 ^ 64) && (1 <=? alen (cstr q.2)) &&
  negb (head_sat (is_ch ".") (cstr q.2)) && negb (head_sat __is_digit (cstr q.2)).

Lemma dur_comps_facts q : In q dur_comps ->
  0 < q.1 < 2 ^ 64 /\ exists c t, cstr q.2 = c :: t /\ is_ch "." c = false /\ __is_digit c = false.
Proof.
  intros Hin. assert (comp_facts q = true) as H.
  { apply (proj1 (forallb_forall comp_facts dur_comps)); [by vm_compute|done]. }
  unfold comp_facts in H. rewrite !andb_true_iff, !negb_true_iff, !Z.ltb_lt, Z.leb_le in H.
  destruct H as ((((H1 & H2) & H3) & H4) & H5). split; [done|].
  destruct (cstr q.2) as [|c t]; [by vm_compute in H3|]. by exists c, t.
Qed.

Lemma dur_unit_at s i scale suffix l : In (scale, suffix) dur_comps -> cursor s i (cstr suffix ++ l) ->
  head_sat (is_ch "s") l = false ->
  __dur_unit s (alen s) i = Some (scale, alen (cstr suffix)) /\ cursor s (i + alen (cstr suffix)) l.
Proof.
  intros Hin Hc Hl. split; [|by apply cursor_app].
  destruct (dur_comps_facts _ Hin) as (_ & c & t & Ec & _). simpl in Ec.
  pose proof Hc as Hc0. rewrite Ec in Hc0. simpl app in Hc0. apply cursor_get in Hc0 as (E0 & Hlt & Hc1).
  unfold __dur_unit. fold (next_is s (alen s) (i + 1) (is_ch "s")).
  rewrite (next_is_at s (i + 1) _ _ Hc1). cbn [mbind option_bind].
  rewrite (proj2 (Z.ltb_lt _ _)) by done. rewrite E0. cbn [mbind option_bind].
  repeat destruct Hin as [[= <- <-]|Hin]; try (injection Ec as <- <-; simpl app; try rewrite Hl; reflexivity). done.
Qed.

(** The scales decrease down to 1 and every count has at most 19 digits. *)
Fixpoint comps_ok (bound : Z) (comps : list (Z * string)) : Prop :=
  match comps with
  | [] => bound <= 1
  | (scale, suffix) :: comps =>
      0 < scale /\ bound <= scale * 10 ^ 19 /\ In (scale, suffix) dur_comps /\ comps_ok scale comps
  end.

Lemma dur_comps_head rest comps p : 0 <= rest -> (forall d, is_digit d -> p d = false) ->
  Forall (fun q => 0 < q.1) comps -> head_sat p (dur_comps_text rest comps) = false.
Proof.
  intros Hr Hp Hc. induction Hc as [|[scale suffix] comps Hs Hc IH]; [done|]. cbn [dur_comps_text].
  destruct (Z.eqb_spec (rest / scale) 0); [done|].
  apply num_head_sat; [|done]. simpl in Hs. apply Z.div_pos; lia.
Qed.

Lemma comps_ok_pos bound comps : comps_ok bound comps -> Forall (fun q => 0 < q.1) comps.
Proof.
  revert bound. induction comps as [|[scale suffix] comps IH]; intros bound; [constructor|].
  intros (Hs & _ & _ & H). constructor; [done|]. by apply (IH scale).
Qed.

(** Reading one count with its unit. *)
Lemma parse_dur_part_at s i v scale suffix l total :
  cursor s i (num 1 v ++ cstr suffix ++ l) -> In (scale, suffix) dur_comps -> 0 < scale ->
  0 <= v < 10 ^ 19 -> 0 <= total -> total + v * scale < 2 ^ 64 ->
  head_sat (is_ch "s") l = false ->
  exists i', parse_dur_part s (alen s) i total = go (i', total + v * scale, alen (cstr suffix)) /\
    cursor s i' l /\ i < i'.
Proof.
  intros Hc Hin Hs Hv Ht Hsum Hl. unfold parse_dur_part.
  pose proof (num_len 1 v 19 Hv ltac:(lia) ltac:(lia)) as L19.
  assert (1 <= alen (num 1 v)) as L1.
  { destruct (num_head 1 v) as (d & t & -> & _); [lia|]. unfold alen. simpl. lia. }
  destruct (dur_comps_facts _ Hin) as (Hs64 & c & t & Ec & Hdot & Hdig). simpl in Ec, Hs64.
  destruct (some_digits_at s i (num 1 v) _ 19 Hc) as [E1 Hc1]; [apply num_digits; lia|lia|lia|right; by rewrite Ec|].
  rewrite (or_ret_some _ _ _ E1), ebind_go. rewrite num_value by (assert (10 ^ 19 < 2 ^ 64) by done; lia).
  rewrite (lift_some _ _ (next_is_at s _ _ (is_ch ".") Hc1)), ebind_go.
  assert (head_sat (is_ch ".") (cstr suffix ++ l) = false) as -> by (by rewrite Ec). cbv iota. rewrite ebind_go.
  destruct (dur_unit_at s _ scale suffix l Hin Hc1 Hl) as [E2 Hc2]. rewrite (lift_some _ _ E2), ebind_go.
  assert (10 ^ 19 < 2 ^ 64) as Hpow by done.
  rewrite dur_mul_spec, (proj2 (Z.ltb_lt _ _)) by (unfold in_unsigned; lia). rewrite (or_ret_some _ _ _ eq_refl), ebind_go.
  change (negb (0 =? 0)) with false. cbv iota. rewrite ebind_go.
  rewrite dur_add_spec, (proj2 (Z.ltb_lt _ _)) by (unfold in_unsigned; nia).
  rewrite (or_ret_some _ _ _ eq_refl), ebind_go. eexists. split_and!; [done|done|].
  pose proof (alen_nonneg (cstr suffix)). lia.
Qed.

Lemma parse_dur_loop s comps : forall bound rest i total any fuel,
  comps_ok bound comps -> 0 < rest < bound -> 0 <= total -> total + rest < 2 ^ 64 ->
  cursor s i (dur_comps_text rest comps) -> (Z.to_nat (alen s - i) < fuel)%nat ->
  while_ fuel (fun '(i, total, any) =>
    if i <? alen s then
      o ← parse_dur_part s (alen s) i total;
      Some (match o with
            | inl r => inr r
            | inr (i, total, slen) =>
                if (slen =? 0) && negb (i =? alen s) then inr (dur_fail trailing)
                else inl (i, total, true)
            end)
    else Some (inr (if negb any then dur_fail malformed else mk_dur total None false))) (i, total, any)
  = Some (mk_dur (total + rest) None false).
Proof.
  induction comps as [|[scale suffix] comps IH]; intros bound rest i total any fuel Hok Hr Ht Hsum Hc Hf.
  { simpl in Hok. lia. }
  destruct Hok as (Hs & Hb & Hin & Hok). cbn [dur_comps_text] in Hc.
  pose proof (Z.div_mod rest scale ltac:(lia)) as Ediv. pose proof (Z.mod_pos_bound rest scale Hs) as Hmod.
  destruct (Z.eqb_spec (rest / scale) 0) as [E0|E0].
  { apply (IH scale); try done. lia. }
  assert (0 <= rest / scale < 10 ^ 19) as Hv.
  { split; [apply Z.div_pos; lia|]. apply Z.div_lt_upper_bound; lia. }
  set (l := if rest mod scale =? 0 then [] else dur_comps_text (rest mod scale) comps) in *.
  destruct (parse_dur_part_at s i (rest / scale) scale suffix l total Hc) as (i' & E & Hc' & Hi); try done; try lia.
  { unfold l. destruct (_ =? 0); [done|]. apply dur_comps_head; [lia| |by eapply comps_ok_pos].
    intros; by apply is_ch_digit. }
  pose proof (cursor_bound _ _ _ Hc) as [Hb1 Hb2]. pose proof (cursor_bound _ _ _ Hc') as [Hb1' Hb2'].
  destruct fuel as [|fuel]; [lia|]. cbn [while_]. rewrite (proj2 (Z.ltb_lt _ _)) by lia.
  rewrite E. cbn [mbind option_bind go].
  assert ((alen (cstr suffix) =? 0) = false) as ->.
  { apply Z.eqb_neq. destruct (dur_comps_facts _ Hin) as (_ & c & t & Ec & _). simpl in Ec. by rewrite Ec. }
  cbn [andb]. unfold l in Hc'. destruct (Z.eqb_spec (rest mod scale) 0) as [Em|Em].
  - apply cursor_end in Hc' as ->. destruct fuel as [|fuel]; [lia|]. cbn [while_].
    rewrite Z.ltb_irrefl. cbn [mbind option_bind negb]. do 2 f_equal. lia.
  - rewrite (IH scale (rest mod scale)); try done; try lia. do 2 f_equal. lia.
Qed.

Lemma ieq_digit_at s w v l lit k : cursor s 0 (num w v ++ l) -> 0 <= v -> 1 <= k ->
  __ieq s (alen s) 0 (ch "i" :: lit) k = Some false.
Proof.
  intros Hc Hv Hk. destruct (num_head w v Hv) as (d & t & E & Hd). rewrite E in Hc. simpl app in Hc.
  eapply ieq_head_ne; [done| |done]. unfold is_digit in Hd. apply Z.eqb_neq. unfold lower.
  change (ch "A") with 65. change (ch "Z") with 90. change (ch "i") with 105.
  rewrite (proj2 (Z.leb_gt 65 d)) by lia. simpl. lia.
Qed.

(** Text that begins with a number is not one of the words for infinity. *)
Lemma parse_duration_number s w v l : cursor s 0 (num w v ++ l) -> 0 <= v ->
  parse_duration_ns (Some s) (alen s) =
  while_ (S (Z.to_nat (alen s))) (fun '(i, total, any) =>
    if i <? alen s then
      o ← parse_dur_part s (alen s) i total;
      Some (match o with
            | inl r => inr r
            | inr (i, total, slen) =>
                if (slen =? 0) && negb (i =? alen s) then inr (dur_fail trailing)
                else inl (i, total, true)
            end)
    else Some (inr (if negb any then dur_fail malformed else mk_dur total None false))) (0, 0, false).
Proof.
  intros Hc Hv. unfold parse_duration_ns.
  assert (alen s <> 0).
  { destruct (num_head w v Hv) as (d & t & E & _). rewrite E in Hc. apply cursor_get in Hc as (_ & ? & _). lia. }
  rewrite (proj2 (Z.eqb_neq _ _)) by done.
  rewrite (ieq_digit_at s w v l (cstr "nfinity") 8 Hc Hv ltac:(lia) : __ieq s (alen s) 0 (cstr "infinity") 8 = _).
  cbn [mbind option_bind].
  rewrite (ieq_digit_at s w v l (cstr "nf") 3 Hc Hv ltac:(lia) : __ieq s (alen s) 0 (cstr "inf") 3 = _).
  done.
Qed.

Lemma dur_comps_text_number ns comps bound : comps_ok bound comps -> 0 < ns < bound ->
  exists v l, dur_comps_text ns comps = num 1 v ++ l /\ 0 <= v.
Proof.
  revert bound. induction comps as [|[scale suffix] comps IH]; intros bound Hok Hns; [simpl in Hok; lia|].
  destruct Hok as (Hs & _ & _ & Hok). cbn [dur_comps_text]. destruct (Z.eqb_spec (ns / scale) 0) as [E|E].
  - apply (IH scale); [done|]. pose proof (Z.div_mod ns scale ltac:(lia)).
    pose proof (Z.mod_pos_bound ns scale Hs). lia.
  - eexists _, _. split; [done|]. apply Z.div_pos; lia.
Qed.

Lemma dur_comps_ok : comps_ok (2 ^ 64) dur_comps.
Proof. repeat split; try (by vm_compute); simpl; tauto. Qed.

Lemma parse_dur_units_text ns : in_unsigned 64 ns ->
  let s := dur_units_text ns in parse_duration_ns (Some s) (alen s) = Some (mk_dur ns None false).
Proof.
  intros Hns s. unfold in_unsigned in Hns. unfold s, dur_units_text. destruct (Z.eqb_spec ns 0) as [->|Hne].
  { by vm_compute. }
  set (t := dur_comps_text ns dur_comps).
  destruct (dur_comps_text_number ns dur_comps _ dur_comps_ok ltac:(lia)) as (v & l & E & Hv).
  rewrite (parse_duration_number t 1 v l); [|unfold t; rewrite <- E; apply cursor_start|done].
  apply (parse_dur_loop t dur_comps (2 ^ 64) ns 0 0); try lia; [apply dur_comps_ok|apply cursor_start].
Qed.

(** * Arbitrary durations *)
Section input.
Context (s : list Z) (n : Z) (Hn : 0 <= n <= alen s).

Lemma ieq_safe i lit k : 0 <= i -> 0 <= k <= alen lit -> returns (__ieq s n i lit k) (fun b => b = true -> i + k <= n).
Proof using Hn.
  intros Hi Hk. unfold __ieq. apply returns_if; intros Hb; [by apply returns_ret|]. apply Z.ltb_ge in Hb.
  apply (returns_while _ _ _ (fun j => 0 <= j <= k) (fun j => k - j)); [lia|lia|].
  intros j Hj. apply returns_if; intros Hlt; [|by apply returns_ret].
  apply returns_get; [lia|]. intros a _. apply returns_get; [lia|]. intros b _.
  apply returns_if; intros _; apply returns_ret; [done|lia].
Qed.

Lemma dur_unit_safe i : 0 <= i <= n -> returns (__dur_unit s n i) (fun x =>
  0 < x.1 < 2 ^ 64 /\ 0 <= x.2 /\ i + x.2 <= n).
Proof using Hn.
  intros Hi. unfold __dur_unit.
  apply (returns_bind _ _ (fun b => b = true -> i + 1 < n)).
  { apply (next_is_safe s n ltac:(lia) (i + 1)); lia. }
  intros b Hb. apply returns_if; intros Hlt; [|apply returns_ret; simpl; unfold ns_per_s, ns_per_ms, ns_per_us; lia].
  apply returns_get; [lia|]. intros c _.
  assert (forall a, is_ch a c && b = true -> i + 2 <= n) as H2.
  { intros a [_ E]%andb_true_iff. specialize (Hb E). lia. }
  unfold ns_per_week, ns_per_day, ns_per_hour, ns_per_min, ns_per_s, ns_per_ms, ns_per_us.
  repeat (apply returns_if; intros ?; [apply returns_ret; simpl; try (specialize (H2 _ ltac:(eassumption))); lia|]).
  apply returns_ret. simpl. lia.
Qed.

Lemma dur_pow10_spec e : 0 <= e <= 19 -> __dur_pow10 e = Some (10 ^ e).
Proof. intros. each_value e 0 19; by vm_compute. Qed.

Lemma esafe_opt {R A} (o : option A) (r : R) (Qr : R -> Prop) (P : A -> Prop) :
  (forall x, o = Some x -> P x) -> Qr r -> esafe (or_ret (Some o) r) Qr P.
Proof. intros H Hr. destruct o; simpl; auto. Qed.

Lemma parse_dur_part_safe i total : 0 <= i < n -> in_unsigned 64 total ->
  esafe (parse_dur_part s n i total) (fun r => dr_err r <> None) (fun x =>
    i < x.1.1 <= n /\ in_unsigned 64 x.1.2).
Proof using Hn.
  intros Hi Ht. unfold parse_dur_part.
  eapply esafe_bind; [apply esafe_or_ret; [apply (some_digits_safe s n); lia|done]|].
  intros [[i1 whole] k] (H1 & H2 & H3). simpl in *.
  eapply esafe_bind; [apply esafe_lift, (next_is_safe s n); lia|]. intros dot Hdot.
  apply (esafe_bind _ _ _ (fun '(j, frac, ft) => i < j <= n /\ 0 <= ft <= 9 /\ 0 <= frac < 10 ^ ft)).
  { destruct dot; [specialize (Hdot eq_refl)|simpl; lia].
    eapply esafe_bind; [apply esafe_or_ret; [apply (some_digits_safe s n); lia|done]|].
    intros [[i2 frac] ft] (H4 & H5 & H6). simpl in *.
    eapply esafe_bind; [apply esafe_lift, (skip_safe s n); lia|]. intros j Hj. simpl in *. lia. }
  intros [[i2 frac] ft] (Hi2 & Hft & Hfrac).
  eapply esafe_bind; [apply esafe_lift, dur_unit_safe; lia|]. intros [scale slen] (Hs & Hl1 & Hl2). simpl in *.
  assert (10 ^ 19 < 2 ^ 64) as Hpow by done.
  assert (10 ^ k <= 10 ^ 19) by (apply Z.pow_le_mono_r; lia).
  assert (10 ^ ft <= 10 ^ 19) by (apply Z.pow_le_mono_r; lia).
  assert (forall a b, in_unsigned 64 a -> in_unsigned 64 b -> forall x, __dur_mul a b = Some x -> in_unsigned 64 x) as Hmul.
  { intros a b Ha Hb x. rewrite dur_mul_spec by done. unfold in_unsigned in *.
    destruct (Z.ltb_spec (a * b) (2 ^ 64)); [intros [= <-]; nia|done]. }
  assert (forall a b, in_unsigned 64 a -> in_unsigned 64 b -> forall x, __dur_add a b = Some x -> in_unsigned 64 x) as Hadd.
  { intros a b Ha Hb x. rewrite dur_add_spec by done. unfold in_unsigned in *.
    destruct (Z.ltb_spec (a + b) (2 ^ 64)); [intros [= <-]; lia|done]. }
  eapply esafe_bind; [apply esafe_opt; [apply Hmul; unfold in_unsigned; lia|done]|]. intros part Hpart.
  apply (esafe_bind _ _ _ (in_unsigned 64)).
  { destruct (negb (ft =? 0)); [|done].
    eapply esafe_bind; [apply esafe_opt; [apply Hmul; unfold in_unsigned; lia|done]|]. intros num0 Hnum.
    rewrite (lift_some _ _ (dur_pow10_spec ft ltac:(lia))), ebind_go.
    apply esafe_opt; [|done]. apply Hadd; [done|]. apply div_unsigned64; [done|]. apply Z.pow_pos_nonneg; lia. }
  intros part2 Hpart2. eapply esafe_bind; [apply esafe_opt; [by apply Hadd|done]|]. intros tot Htot.
  simpl. split; [lia|done].
Qed.

Lemma parse_duration_safe : returns (parse_duration_ns (Some s) n) (fun r =>
  dr_err r = None -> in_unsigned 64 (dr_ns r)).
Proof using Hn.
  unfold parse_duration_ns. apply returns_if; intros Hz; [by apply returns_ret|].
  eapply returns_bind; [by apply ieq_safe|]. intros b8 _. eapply returns_bind; [by apply ieq_safe|]. intros b3 _.
  apply returns_if; intros _; [by apply returns_ret|].
  apply (returns_while _ _ _ (fun '(i, total, _) => 0 <= i <= n /\ in_unsigned 64 total) (fun '(i, _, _) => n - i)).
  - split; [lia|by vm_compute].
  - lia.
  - intros [[i total] any] [Hi Ht]. apply returns_if; intros Hlt.
    + pose proof (parse_dur_part_safe i total ltac:(lia) Ht) as Hp. unfold esafe in Hp.
      destruct (parse_dur_part s n i total) as [[r|[[j tot] slen]]|]; [| |done]; cbn [mbind option_bind];
        apply returns_ret.
      * done.
      * simpl in Hp. destruct (_ && _); [done|]. split; [|lia]. split; [lia|tauto].
    + apply returns_ret. destruct any; simpl; done.
Qed.
(** ** RFC 2822 *)

Lemma match_name_safe i names k : 0 <= i -> Forall (fun name => 3 <= alen (cstr name)) names ->
  returns (match_name s n i names k) (fun o => forall x, o = Some x -> k <= x < k + Z.of_nat (length names) /\ i + 3 <= n).
Proof using Hn.
  intros Hi Hf. revert k. induction Hf as [|name names Hl Hf IH]; intros k; cbn [match_name]; [by apply returns_ret|].
  eapply returns_bind; [apply ieq_safe; lia|]. intros b Hb. apply returns_if; intros E.
  - apply returns_ret. intros x [= <-]. specialize (Hb E). cbn [length]. lia.
  - eapply returns_mono; [apply IH|]. intros o Ho x Hx. specialize (Ho x Hx). cbn [length]. lia.
Qed.

Lemma parse_weekday_safe r : esafe (parse_weekday s n r) (fun r => r_err r <> None) (fun i => 0 <= i <= n).
Proof using Hn.
  unfold parse_weekday. apply (esafe_bind _ _ _ (fun b => b = true -> 4 <= n)).
  { destruct (Z.leb_spec 4 n); [|done]. destruct (aget_in s 0 ltac:(lia)) as [c E]. rewrite (lift_some _ _ E), ebind_go. cbn. lia. }
  intros named Hnamed. destruct named; cbn [negb]; [specialize (Hnamed eq_refl)|cbn; lia].
  eapply esafe_bind; [apply esafe_or_ret; [apply match_name_safe; [lia|by repeat constructor]|done]|]. intros k [_ _].
  eapply esafe_bind; [apply esafe_lift, (next_is_safe s n); lia|]. intros comma _.
  apply esafe_lift. eapply returns_mono; [apply (skip_safe s n); [lia|destruct comma; lia]|]. intros j Hj. destruct comma; lia.
Qed.

Lemma parse_zone_safe i r : 0 <= i <= n -> esafe (parse_zone s n i r) (fun r => r_err r <> None) (fun '(j, off, r') =>
  0 <= j <= n /\ - 86400 < off < 86400 /\ exists b, r' = mk_res (r_c r) (r_err r) b).
Proof using Hn.
  intros Hi. unfold parse_zone. destruct (Z.ltb_spec i n).
  2: { split_and!; [lia..|]. exists (r_has_offset r). by destruct r. }
  eapply esafe_bind; [apply esafe_lift, ieq_safe; [lia|by vm_compute]|]. intros gmt Hg.
  eapply esafe_bind; [apply esafe_lift, ieq_safe; [lia|by vm_compute]|]. intros utc Hu.
  eapply esafe_bind; [apply esafe_lift, ieq_safe; [lia|by vm_compute]|]. intros ut Ht.
  apply (esafe_bind _ _ _ (fun '(j, off) => 0 <= j <= n /\ - 86400 < off < 86400)).
  { destruct (gmt || utc) eqn:E; [|destruct ut].
    - cbn. apply orb_true_iff in E as [->| ->]; [specialize (Hg eq_refl)|specialize (Hu eq_refl)]; lia.
    - specialize (Ht eq_refl). cbn. lia.
    - apply esafe_or_ret; [|done]. eapply returns_mono; [apply (offset_safe s n); lia|].
      intros o Ho [j off] Hx. specialize (Ho _ Hx). cbn in Ho. lia. }
  intros [j off] [Hj Ho]. cbn. split_and!; [lia..|by eexists].
Qed.

Lemma parse_rfc2822_safe : returns (parse_rfc2822 (Some s) n) (fun r => accepted r /\ (r_err r = None -> 0 <= c_y (r_c r) <= 9999)).
Proof using Hn.
  unfold parse_rfc2822. apply returns_if; intros Hz; [by apply returns_ret|].
  assert (forall m, esafe m (fun r => r_err r <> None) (fun r => accepted r /\ (r_err r = None -> 0 <= c_y (r_c r) <= 9999)) ->
    returns (run m) (fun r => accepted r /\ (r_err r = None -> 0 <= c_y (r_c r) <= 9999))) as Hrun.
  { intros [[r|r]|]; cbn; [|intros; by apply returns_ret|done]. intros Hr. apply returns_ret. split; intros ?; congruence. }
  apply Hrun. clear Hrun.
  eapply esafe_bind; [apply parse_weekday_safe|]. intros i Hi; cbv beta in Hi.
  eapply esafe_bind; [apply esafe_or_ret; [apply (some_digits_safe s n); lia|done]|]. intros [[i1 dv] k] (H1 & H2 & H3). cbn in H1, H2, H3.
  eapply esafe_bind; [apply esafe_lift, (skip_safe s n); lia|]. intros i2 Hi2; cbv beta in Hi2.
  eapply esafe_bind; [apply esafe_or_ret; [apply match_name_safe; [lia|by repeat constructor]|done]|]. intros mo [Hmo Hm3]. cbn in Hmo.
  eapply esafe_bind; [apply esafe_lift, (skip_safe s n); lia|]. intros i3 Hi3; cbv beta in Hi3.
  eapply esafe_bind; [apply esafe_or_ret; [apply (some_digits_safe s n); lia|done]|]. intros [[i4 yv] taken] (H4 & H5 & H6). cbn in H4, H5, H6.
  eapply esafe_bind; [apply esafe_lift, (skip_safe s n); lia|]. intros i5 Hi5; cbv beta in Hi5.
  eapply esafe_bind; [apply esafe_or_ret; [apply (fixed_digits_safe s n); lia|done]|]. intros [i6 h] H; cbn in H; destruct H as (-> & Hi6 & Hh).
  eapply esafe_bind; [apply (expect_safe s n); [lia|cbn; lia|done]|]. intros i7 H; cbv beta in H; destruct H as [-> Hi7].
  eapply esafe_bind; [apply esafe_or_ret; [apply (fixed_digits_safe s n); [lia|cbn; lia|lia]|done]|]. intros [i8 mi] H; cbn in H; destruct H as (-> & Hi8 & Hmi).
  eapply esafe_bind; [apply (optional_seconds_safe s n); [lia|cbn; lia|done]|]. intros [i9 sec] (Hi9 & Hsec). cbn in Hi9, Hsec.
  eapply esafe_bind; [apply esafe_lift, (skip_safe s n); lia|]. intros i10 Hi10; cbv beta in Hi10.
  eapply esafe_bind; [apply parse_zone_safe; lia|]. intros [[i11 off] r] (Hi11 & Hoff & b & ->).
  eapply esafe_bind; [apply esafe_lift, (skip_safe s n); lia|]. intros i12 Hi12; cbv beta in Hi12.
  eapply esafe_bind; [by apply esafe_ensure|]. intros [] _.
  eapply esafe_bind; [by apply esafe_ensure|]. intros [] Hd. rewrite negb_true_iff, orb_false_iff, !Z.ltb_ge in Hd.
  eapply esafe_bind; [by apply esafe_ensure|]. intros [] Hh'%negb_true_iff%Z.ltb_ge.
  eapply esafe_bind; [by apply esafe_ensure|]. intros [] Hmi'%negb_true_iff%Z.ltb_ge.
  eapply esafe_bind; [by apply esafe_ensure|]. intros [] Hs'%negb_true_iff%Z.ltb_ge.
  assert (10 ^ taken <= 10 ^ 4) by (apply Z.pow_le_mono_r; lia).
  set (y := if taken =? 2 then _ else yv) in *.
  assert (0 <= y <= 9999) as Hy.
  { unfold y. destruct (Z.eqb_spec taken 2) as [->|]; [|lia]. rewrite wrap_id by (unfold in_unsigned; destruct (yv <? 50); lia).
    destruct (yv <? 50); lia. }
  rewrite (swrap_id 32) in * by (done || unfold in_signed; lia).
  cbn [esafe go]. split; [|intros _; exact Hy]. intros _. cbn [set_c r_c set_off set_time set_date c_y c_off].
  split_and!; [|lia..]. apply valid_intro; cbn; [|lia..]. apply civil_valid_spec. lia.
Qed.

(** ** Wake-up times *)

(** What an accepted wake-up time is: an instant, a time of day, or a valid date and time
    with no offset of its own. *)
Definition until_accepted (u : until_spec) : Prop :=
  u_err u = None ->
  if u_epoch u then - 2 ^ 63 < u_secs u < 2 ^ 63
  else if u_time_only u then 0 <= c_h (u_c u) < 24 /\ 0 <= c_mi (u_c u) < 60 /\ 0 <= c_s (u_c u) < 60
  else valid (u_c u) = true.

Lemma parse_until_epoch_safe : 1 <= n -> returns (run (parse_until_epoch s n)) until_accepted.
Proof using Hn.
  intros H1. apply esafe_run. unfold parse_until_epoch.
  eapply esafe_bind; [apply esafe_lift, (next_is_safe s n); lia|]. intros sign Hsign.
  eapply esafe_bind; [apply esafe_lift, (next_is_safe s n); lia|]. intros neg _.
  eapply esafe_bind; [apply esafe_or_ret; [apply (some_digits_safe s n); [lia|destruct sign; [specialize (Hsign eq_refl)|]; lia|lia]|done]|].
  intros [[i v] k] (Hi & Hv & Hk). cbn in Hi, Hv, Hk.
  eapply esafe_bind; [by apply esafe_ensure|]. intros [] _.
  eapply esafe_bind; [by apply esafe_ensure|]. intros [] Hle%negb_true_iff%Z.ltb_ge.
  intros _. cbn. destruct neg; lia.
Qed.

Lemma has_dash_safe : returns (has_dash s n) (fun _ => True).
Proof using Hn.
  unfold has_dash. apply (returns_while _ _ _ (fun k => 0 <= k <= n) (fun k => n - k)); [lia|lia|].
  intros k Hk. apply returns_if; intros Hlt; [|by apply returns_ret]. apply returns_get; [lia|]. intros c _.
  apply returns_ret. destruct (is_ch "-" c); [done|]. lia.
Qed.

Lemma parse_until_time_safe u : u_epoch u = false -> returns (run (parse_until_time s n u)) until_accepted.
Proof using Hn.
  intros He. apply esafe_run. unfold parse_until_time.
  eapply esafe_bind; [apply esafe_or_ret; [apply (fixed_digits_safe s n); lia|done]|]. intros [i h] H; cbn in H; destruct H as (-> & Hi & Hh).
  eapply esafe_bind; [apply (expect_safe s n); [lia|cbn; lia|done]|]. intros j H; cbv beta in H; destruct H as [-> Hj].
  eapply esafe_bind; [apply esafe_or_ret; [apply (fixed_digits_safe s n); [lia|cbn; lia|lia]|done]|]. intros [i2 mi] H; cbn in H; destruct H as (-> & Hi2 & Hmi).
  eapply esafe_bind; [apply (optional_seconds_safe s n); [lia|cbn; lia|done]|]. intros [i3 sec] (Hi3 & Hsec). cbn in Hi3, Hsec.
  eapply esafe_bind; [by apply esafe_ensure|]. intros [] _.
  eapply esafe_bind; [by apply esafe_ensure|]. intros [] H1%negb_true_iff%Z.ltb_ge.
  eapply esafe_bind; [by apply esafe_ensure|]. intros [] H2%negb_true_iff%Z.ltb_ge.
  eapply esafe_bind; [by apply esafe_ensure|]. intros [] H3%negb_true_iff%Z.ltb_ge.
  intros _. cbn. rewrite He. lia.
Qed.
End input.

Lemma parse_until_safe s n : 0 <= n <= alen s -> returns (parse_until (Some s) n) until_accepted.
Proof.
  intros Hn. unfold parse_until. apply returns_if; intros Hz; [by apply returns_ret|]. apply Z.eqb_neq in Hz.
  apply returns_get; [lia|]. intros c0 _. apply returns_if; intros _; [apply parse_until_epoch_safe; lia|].
  apply returns_get; [lia|]. intros z _. set (utc := is_ch "Z" z || is_ch "z" z). set (len := if utc then n - 1 else n).
  assert (0 <= len <= alen s) as Hlen by (unfold len; destruct utc; lia). cbv zeta.
  eapply returns_bind; [by apply has_dash_safe|]. intros dash _. apply returns_if; intros _; [by apply parse_until_time_safe|].
  eapply returns_bind; [by apply parse_iso8601_safe|]. intros r Hr. destruct (r_err r) eqn:E; [by apply returns_ret|].
  apply returns_if; intros _; apply returns_ret; [done|]. intros _. cbn. by apply Hr.
Qed.

(** * The value of a duration *)

(** A duration text and its value in nanoseconds: numbers with a unit, each with an
    optional fraction of which the first nine digits count; the last number may have
    no unit and then counts seconds. *)
Inductive fraction_text : list Z -> list Z -> Prop :=
| no_fraction : fraction_text [] []
| some_fraction fs : Forall is_digit fs -> fs <> [] -> fraction_text (ch "." :: fs) fs.

Definition fraction_value (fs : list Z) (scale : Z) : Z :=
  digits_value (take 9 fs) * scale / 10 ^ alen (take 9 fs).

Inductive unit_text : list Z -> Z -> Prop :=
| no_unit : unit_text [] ns_per_s
| some_unit scale suffix : In (scale, suffix) dur_comps -> unit_text (cstr suffix) scale.

Inductive duration_text : list Z -> Z -> Prop :=
| duration_end : duration_text [] 0
| duration_part whole frac fs suffix scale l v :
    Forall is_digit whole -> 1 <= alen whole <= 19 -> fraction_text frac fs -> unit_text suffix scale ->
    (suffix = [] -> l = []) -> duration_text l v ->
    duration_text (whole ++ frac ++ suffix ++ l) (digits_value whole * scale + fraction_value fs scale + v).

Lemma digit_run t max : 0 <= max -> exists ds l, t = ds ++ l /\ Forall is_digit ds /\ alen ds <= max /\
  (alen ds = max \/ head_sat __is_digit l = false).
Proof.
  assert (alen (@nil Z) = 0) as E0 by done.
  revert max. induction t as [|c t IH]; intros max Hm; [exists [], []; by split_and!; [| |lia|right]|].
  destruct (decide (max = 0)) as [->|Hne]; [exists [], (c :: t); by split_and!; [| |lia|left]|].
  destruct (__is_digit c) eqn:Ec; [|exists [], (c :: t); by split_and!; [| |lia|right]].
  destruct (IH (max - 1) ltac:(lia)) as (ds & l & -> & Hd & Hl & Hs). exists (c :: ds), l.
  assert (alen (c :: ds) = alen ds + 1) as El by (unfold alen; cbn; lia). rewrite El.
  split_and!; [done|constructor; [by apply is_digit_spec|done]|lia|]. destruct Hs; [left; lia|by right].
Qed.

(** Digits at the cursor of any input. *)
Lemma some_digits_any s i t max : cursor s i t -> 1 <= max <= 19 ->
  __some_digits s (alen s) i max = Some None \/
  exists ds l, t = ds ++ l /\ Forall is_digit ds /\ 1 <= alen ds <= max /\ (alen ds = max \/ head_sat __is_digit l = false) /\
    __some_digits s (alen s) i max = Some (Some (i + alen ds, digits_value ds, alen ds)) /\ cursor s (i + alen ds) l.
Proof.
  intros Hc Hm. destruct (digit_run t max ltac:(lia)) as (ds & l & -> & Hd & Hl & Hs). pose proof (alen_nonneg ds).
  destruct (decide (alen ds = 0)) as [E0|].
  - left. destruct ds; [|unfold alen in E0; cbn in E0; lia]. unfold __some_digits.
    rewrite (some_digits_loop s [] [] l i 0 max); try done; try lia; cbn; lia.
  - right. exists ds, l. destruct (some_digits_at s i ds l max Hc Hd ltac:(lia) ltac:(lia) Hs) as [E Hc']. by split_and!; [| |lia|lia| | |].
Qed.

(** The fraction at the cursor: nine digits are taken, the others skipped. *)
Lemma dur_fraction_any s i t : cursor s i t ->
  esafe (if head_sat (is_ch ".") t then
      '(i, frac, ftaken) <~ or_ret (__some_digits s (alen s) (i + 1) 9) (dur_fail malformed);
      i <~ lift (skip s (alen s) i __is_digit);
      go (i, frac, ftaken)
    else go (i, 0, 0)) (fun r => dr_err r <> None) (fun '(j, frac, ft) => exists ftext fs l,
    t = ftext ++ l /\ fraction_text ftext fs /\ frac = digits_value (take 9 fs) /\ ft = alen (take 9 fs) /\ cursor s j l).
Proof.
  intros Hc.
  destruct t as [|c t]; [exists [], [], []; split_and!; done || constructor|]. cbn [head_sat].
  destruct (is_ch "." c) eqn:Ec; [|exists [], [], (c :: t); split_and!; done || constructor].
  apply Z.eqb_eq in Ec as ->. apply cursor_get in Hc as (_ & _ & Hc).
  destruct (some_digits_any s (i + 1) t 9 Hc ltac:(lia)) as [->|(ds & l & -> & Hd & Hl & Hs & -> & Hc')]; [done|].
  cbn [or_ret]. rewrite ebind_go.
  destruct (digit_run l (alen l) (alen_nonneg l)) as (more & l' & -> & Hd' & _ & Hs').
  assert (head_sat __is_digit l' = false) as Hl'.
  { destruct Hs' as [E|]; [|done]. rewrite alen_app in E. destruct l'; [done|]. unfold alen in E. cbn in E. lia. }
  destruct (skip_at s _ more l' __is_digit Hc') as [Ek Hc2]; [eapply Forall_impl; [|exact Hd']; intros a Ha; by apply is_digit_spec|done|].
  rewrite (lift_some _ _ Ek), ebind_go.
  assert (take 9 (ds ++ more) = ds) as Et.
  { destruct Hs as [E|E].
    - rewrite take_app_le by (unfold alen in E; lia). apply take_ge. unfold alen in E. lia.
    - destruct more as [|d more]; [rewrite app_nil_r; apply take_ge; unfold alen in Hl; lia|]. cbn in E.
      apply Forall_inv, is_digit_spec in Hd'. congruence. }
  exists (ch "." :: ds ++ more), (ds ++ more), l'. rewrite Et. split_and!; [|constructor|done|done|done].
  - by rewrite <- app_comm_cons, <- app_assoc.
  - by apply Forall_app.
  - destruct ds; [unfold alen in Hl; cbn in Hl; lia|done].
Qed.

Lemma dur_unit_any s i t : cursor s i t -> exists suffix scale l,
  t = suffix ++ l /\ unit_text suffix scale /\ __dur_unit s (alen s) i = Some (scale, alen suffix) /\ cursor s (i + alen suffix) l.
Proof.
  intros Hc. enough (exists suffix scale l, t = suffix ++ l /\ unit_text suffix scale /\ __dur_unit s (alen s) i = Some (scale, alen suffix))
    as (suffix & scale & l & -> & Hu & E) by (exists suffix, scale, l; split_and!; [done|done|done|by apply cursor_app]).
  unfold __dur_unit. destruct t as [|c t].
  { apply cursor_end in Hc as ->. rewrite (proj2 (Z.ltb_ge (alen s + 1) _)) by lia. rewrite Z.ltb_irrefl. exists [], ns_per_s, []. split_and!; done || constructor. }
  apply cursor_get in Hc as (E0 & Hlt & Hc). fold (next_is s (alen s) (i + 1) (is_ch "s")). rewrite (next_is_at s (i + 1) _ _ Hc).
  cbn [mbind option_bind]. rewrite (proj2 (Z.ltb_lt _ _)), E0 by done. cbn [mbind option_bind].
  assert (forall a scale (suffix : string), is_ch a c && head_sat (is_ch "s") t = true -> In (scale, suffix) dur_comps ->
    cstr suffix = [ch a; ch "s"] -> exists suffix scale' l, c :: t = suffix ++ l /\ unit_text suffix scale' /\ Some (scale, 2) = Some (scale', alen suffix)) as Htwo.
  { intros a scale suffix [Ea Es]%andb_true_iff Hin Ec. destruct t as [|c2 t]; [done|]. apply Z.eqb_eq in Ea as ->. apply Z.eqb_eq in Es as ->.
    exists [ch a; ch "s"], scale, t. rewrite <- Ec. split_and!; [by rewrite Ec|by econstructor|by rewrite Ec]. }
  assert (forall a scale (suffix : string), is_ch a c = true -> In (scale, suffix) dur_comps ->
    cstr suffix = [ch a] -> exists suffix scale' l, c :: t = suffix ++ l /\ unit_text suffix scale' /\ Some (scale, 1) = Some (scale', alen suffix)) as Hone.
  { intros a scale suffix Ea%Z.eqb_eq Hin Ec. subst c. exists [ch a], scale, t. rewrite <- Ec. split_and!; [by rewrite Ec|by econstructor|by rewrite Ec]. }
  destruct (is_ch "n" c && _) eqn:E1; [apply (Htwo "n"%char 1 "ns"%string E1); [cbn; tauto|done]|].
  destruct (is_ch "u" c && _) eqn:E2; [apply (Htwo "u"%char ns_per_us "us"%string E2); [cbn; tauto|done]|].
  destruct (is_ch "m" c && _) eqn:E3; [apply (Htwo "m"%char ns_per_ms "ms"%string E3); [cbn; tauto|done]|].
  destruct (is_ch "s" c) eqn:E4; [apply (Hone "s"%char ns_per_s "s"%string E4); [cbn; tauto|done]|].
  destruct (is_ch "m" c) eqn:E5; [apply (Hone "m"%char ns_per_min "m"%string E5); [cbn; tauto|done]|].
  destruct (is_ch "h" c) eqn:E6; [apply (Hone "h"%char ns_per_hour "h"%string E6); [cbn; tauto|done]|].
  destruct (is_ch "d" c) eqn:E7; [apply (Hone "d"%char ns_per_day "d"%string E7); [cbn; tauto|done]|].
  destruct (is_ch "w" c) eqn:E8; [apply (Hone "w"%char ns_per_week "w"%string E8); [cbn; tauto|done]|].
  exists [], ns_per_s, (c :: t). split_and!; done || constructor.
Qed.

Lemma unit_scale suffix scale : unit_text suffix scale -> 0 < scale < 2 ^ 64.
Proof. intros [|? ? Hin]; [done|]. by destruct (dur_comps_facts _ Hin). Qed.

Lemma digits64 ds : Forall is_digit ds -> alen ds <= 19 -> in_unsigned 64 (digits_value ds).
Proof.
  intros Hd Hl. pose proof (digits_value_bound ds Hd). pose proof (alen_nonneg ds).
  assert (10 ^ alen ds <= 10 ^ 19) by (apply Z.pow_le_mono_r; lia). assert (10 ^ 19 < 2 ^ 64) by done. unfold in_unsigned. lia.
Qed.

(** One part at the cursor: what it adds is the value of its text. *)
Lemma parse_dur_part_any s i t total : cursor s i t -> in_unsigned 64 total ->
  esafe (parse_dur_part s (alen s) i total) (fun r => dr_err r <> None) (fun '(j, tot, slen) => exists whole frac fs suffix scale l,
    t = whole ++ frac ++ suffix ++ l /\ Forall is_digit whole /\ 1 <= alen whole <= 19 /\ fraction_text frac fs /\ unit_text suffix scale /\
    cursor s j l /\ slen = alen suffix /\ in_unsigned 64 tot /\ tot = total + (digits_value whole * scale + fraction_value fs scale)).
Proof.
  intros Hc Ht. unfold parse_dur_part.
  destruct (some_digits_any s i t 19 Hc ltac:(lia)) as [->|(whole & l1 & -> & Hd & Hl & _ & -> & Hc1)]; [done|]. cbn [or_ret]. rewrite ebind_go.
  rewrite (lift_some _ _ (next_is_at s _ _ (is_ch ".") Hc1)), ebind_go.
  eapply esafe_bind; [by apply dur_fraction_any|]. intros [[i2 frac] ft] (ftext & fs & l2 & -> & Hf & -> & -> & Hc2).
  destruct (dur_unit_any s i2 l2 Hc2) as (suffix & scale & l3 & -> & Hu & Eu & Hc3). rewrite (lift_some _ _ Eu), ebind_go.
  pose proof (unit_scale _ _ Hu) as Hs. assert (in_unsigned 64 scale) as Hs' by (unfold in_unsigned; lia). pose proof (digits64 whole Hd ltac:(lia)) as Hw.
  assert (Forall is_digit fs) as Hfs by (by destruct Hf).
  assert (alen (take 9 fs) <= 9) as Hl9 by (unfold alen; rewrite length_take; lia).
  pose proof (digits64 (take 9 fs) (Forall_take _ _ _ Hfs) ltac:(lia)) as Hw9.
  assert (0 < 10 ^ alen (take 9 fs)) as Hp10 by (apply Z.pow_pos_nonneg; [lia|apply alen_nonneg]).
  assert (__dur_pow10 (alen (take 9 fs)) = Some (10 ^ alen (take 9 fs))) as Ep by (apply dur_pow10_spec; pose proof (alen_nonneg (take 9 fs)); lia).
  rewrite dur_mul_spec by done. destruct (Z.ltb_spec (digits_value whole * scale) (2 ^ 64)) as [Hm1|]; [|done]. cbn [or_ret]. rewrite ebind_go.
  apply (esafe_bind _ _ _ (fun part => in_unsigned 64 part /\ part = digits_value whole * scale + fraction_value fs scale)).
  { unfold fraction_value. destruct (Z.eqb_spec (alen (take 9 fs)) 0) as [E0|E0]; cbn [negb].
    - destruct (take 9 fs) as [|? ?]; [|unfold alen in E0; cbn in E0; lia]. change (digits_value [] * scale / 10 ^ alen (@nil Z)) with (0 / 1).
      rewrite Z.add_0_r. unfold in_unsigned in *. split; [nia|done].
    - rewrite dur_mul_spec by done. destruct (Z.ltb_spec (digits_value (take 9 fs) * scale) (2 ^ 64)); [|done]. cbn [or_ret]. rewrite ebind_go.
      rewrite (lift_some _ _ Ep), ebind_go. unfold in_unsigned in *.
      assert (in_unsigned 64 (digits_value (take 9 fs) * scale / 10 ^ alen (take 9 fs))) as Hq by (apply div_unsigned64; [unfold in_unsigned; nia|done]).
      rewrite dur_add_spec by (done || unfold in_unsigned; nia). unfold in_unsigned in *. destruct (Z.ltb_spec (digits_value whole * scale + digits_value (take 9 fs) * scale / 10 ^ alen (take 9 fs)) (2 ^ 64)); [|done].
      split; [nia|done]. }
  intros part [Hp ->]. rewrite dur_add_spec by done. destruct (Z.ltb_spec (total + (digits_value whole * scale + fraction_value fs scale)) (2 ^ 64)); [|done].
  exists whole, ftext, fs, suffix, scale, l3. unfold in_unsigned in *. split_and!; done || lia.
Qed.

(** The words for infinity, in any case. *)
Lemma ieq_whole s lit : alen lit = alen s -> returns (__ieq s (alen s) 0 lit (alen s)) (fun b => b = true -> lower <$> s = lower <$> lit).
Proof.
  intros El. unfold __ieq. rewrite Z.ltb_irrefl.
  apply (returns_while _ _ _ (fun j => 0 <= j <= alen s /\ take (Z.to_nat j) (lower <$> s) = take (Z.to_nat j) (lower <$> lit)) (fun j => alen s - j)).
  - split; [pose proof (alen_nonneg s); lia|done].
  - pose proof (alen_nonneg s). lia.
  - intros j [Hj Et]. apply returns_if; intros Hlt.
    + apply returns_get; [lia|]. intros a Ha. apply returns_get; [lia|]. intros b Hb. apply returns_if; intros He; apply returns_ret; [done|].
      apply negb_false_iff, Z.eqb_eq in He. split; [|lia]. split; [lia|]. replace (Z.to_nat (j + 1)) with (S (Z.to_nat j)) by lia.
      unfold aget in Ha, Hb. rewrite decide_True in Ha, Hb by lia. rewrite Z.add_0_l in Ha.
      rewrite (take_S_r _ _ (lower a)), (take_S_r _ _ (lower b)); [by rewrite Et, He|by rewrite list_lookup_fmap, Hb|by rewrite list_lookup_fmap, Ha].
    + apply returns_ret. intros _. rewrite !take_ge in Et; [done|rewrite length_fmap; unfold alen in *; lia..].
Qed.

(** What an accepted duration is: infinity, or the sum of the parts of the text. *)
Definition duration_accepted (s : list Z) (r : dur_result) : Prop :=
  dr_err r = None -> in_unsigned 64 (dr_ns r) /\
  if dr_forever r then (lower <$> s = cstr "infinity" \/ lower <$> s = cstr "inf") /\ dr_ns r = 2 ^ 64 - 1
  else s <> [] /\ duration_text s (dr_ns r).

Lemma parse_duration_value s : returns (parse_duration_ns (Some s) (alen s)) (duration_accepted s).
Proof.
  unfold parse_duration_ns. apply returns_if; intros Hz; [by apply returns_ret|]. apply Z.eqb_neq in Hz.
  eapply (returns_bind _ _ (fun b => alen s = 8 -> b = true -> lower <$> s = cstr "infinity")).
  { destruct (decide (alen s = 8)) as [E8|]; [|by eapply returns_mono; [apply (ieq_safe s (alen s)); [pose proof (alen_nonneg s); lia|lia|done]|]; intros].
    rewrite <- E8. eapply returns_mono; [by apply ieq_whole|]. by intros b Hb _. }
  intros b8 H8. eapply (returns_bind _ _ (fun b => alen s = 3 -> b = true -> lower <$> s = cstr "inf")).
  { destruct (decide (alen s = 3)) as [E3|]; [|by eapply returns_mono; [apply (ieq_safe s (alen s)); [pose proof (alen_nonneg s); lia|lia|done]|]; intros].
    rewrite <- E3. eapply returns_mono; [by apply ieq_whole|]. by intros b Hb _. }
  intros b3 H3. apply returns_if; intros Hinf.
  { apply returns_ret. intros _. split; [done|]. cbn. split; [|done]. apply orb_true_iff in Hinf as [[]%andb_true_iff|[]%andb_true_iff];
      [left; apply H8|right; apply H3]; done || by apply Z.eqb_eq. }
  apply (returns_while _ _ _ (fun '(i, total, _) => in_unsigned 64 total /\ exists l, cursor s i l /\ forall v, duration_text l v -> duration_text s (total + v))
    (fun '(i, _, _) => alen s - i)).
  - split; [done|]. exists s. split; [apply cursor_start|]. done.
  - pose proof (alen_nonneg s). lia.
  - intros [[i total] any] (Ht & l & Hc & Hk). pose proof (cursor_bound _ _ _ Hc) as [Hi Hend]. apply returns_if; intros Hlt.
    + pose proof (parse_dur_part_any s i l total Hc Ht) as Hp. unfold esafe in Hp.
      destruct (parse_dur_part s (alen s) i total) as [[r|[[j tot] slen]]|]; [| |done]; cbn [mbind option_bind]; apply returns_ret; [done|].
      destruct Hp as (whole & frac & fs & suffix & scale & l' & -> & Hd & Hl & Hf & Hu & Hc' & -> & Ht' & ->).
      pose proof (cursor_bound _ _ _ Hc) as [_ El]. pose proof (cursor_bound _ _ _ Hc') as [Hj El']. rewrite !alen_app in El.
      pose proof (alen_nonneg frac). pose proof (alen_nonneg suffix).
      destruct ((alen suffix =? 0) && negb (j =? alen s)) eqn:Eb; [done|]. split; [|lia]. split; [done|]. exists l'. split; [done|].
      intros v Hv. rewrite <- Z.add_assoc. apply Hk. constructor; try done. intros ->. change (alen (@nil Z)) with 0 in Eb. cbn in Eb.
      apply negb_false_iff, Z.eqb_eq in Eb. destruct l'; [done|]. unfold alen in *. cbn in El'. lia.
    + apply returns_ret. destruct any; [|done]. intros _. split; [done|]. cbn. split; [intros ->; done|].
      rewrite <- (Z.add_0_r total). apply Hk. destruct l; [constructor|]. apply Z.ltb_ge in Hlt. unfold alen in *. cbn in Hend. lia.
Qed.

(** * Wake-up times *)

Definition time_of_day (c : civil) : Z := c_h c * 3600 + c_mi c * 60 + c_s c.

Lemma civil_secs_split c : civil_secs c = days_from_civil (c_y c) (c_mo c) (c_d c) * 86400 + time_of_day c.
Proof. unfold civil_secs, time_of_day. lia. Qed.

Lemma to_civil_date secs : day_range (secs / 86400) ->
  let c := to_civil secs 0 in days_from_civil (c_y c) (c_mo c) (c_d c) = secs / 86400.
Proof.
  intros Hr. unfold to_civil. cbn [c_y c_mo c_d]. rewrite Z.add_0_r, floor_div_spec by lia.
  by apply civil_from_days_spec.
Qed.

Lemma until_epoch_utc u now t :
  u_epoch u = false -> u_time_only u = true -> u_utc u = true -> 0 <= time_of_day (u_c u) < 86400 ->
  day_range (now / 86400) -> day_range (now / 86400 + 1) ->
  returns (until_epoch u now t) (fun e =>
    now < e <= now + 86400 /\ e mod 86400 = time_of_day (u_c u)).
Proof.
  intros He Ht Hu Htod Hr Hr1. unfold until_epoch. rewrite He, Ht, Hu. cbn [mbind option_bind].
  set (day := now / 86400) in *. pose proof (Z.div_mod now 86400 ltac:(lia)) as En. fold day in En.
  pose proof (Z.mod_pos_bound now 86400 ltac:(lia)) as Hm.
  set (c := set_date (u_c u) _ _ _).
  assert (civil_secs c = day * 86400 + time_of_day (u_c u)) as Ec.
  { rewrite civil_secs_split. f_equal. f_equal. unfold c. cbn [c_y c_mo c_d set_date]. by apply to_civil_date. }
  set (tod := time_of_day (u_c u)) in *.
  assert (forall d, (d * 86400 + tod) mod 86400 = tod) as Hmod.
  { intros d. rewrite Z.add_comm, Z.mod_add by lia. by apply Z.mod_small. }
  rewrite Ec. cbn [andb]. apply returns_if; intros Hc.
  - apply Z.leb_le in Hc. assert (civil_secs (set_time c 0 0 0) + 86400 = (day + 1) * 86400) as Emid.
    { rewrite civil_secs_split in Ec |- *. change (time_of_day c) with tod in Ec.
      change (time_of_day (set_time c 0 0 0)) with 0. cbn [set_time c_y c_mo c_d]. lia. }
    rewrite Emid. assert ((day + 1) * 86400 / 86400 = day + 1) as Ed by (by apply Z.div_mul).
    apply returns_ret. rewrite civil_secs_split. cbn [c_y c_mo c_d set_date].
    rewrite to_civil_date by (by rewrite Ed). rewrite Ed.
    change (time_of_day (set_date c _ _ _)) with tod. split; [lia|apply Hmod].
  - apply Z.leb_gt in Hc. apply returns_ret. split; [lia|apply Hmod].
Qed.

(** * Theorems *)

Lemma iso8601_reads_back c digits sep os buf : iso_representable c -> 0 <= digits ->
  alen (iso8601_text c digits sep os) <= alen buf ->
  returns (write_iso8601 buf (alen buf) c digits sep os) (fun '(buf', n) =>
    parse_iso8601 (Some (take (Z.to_nat n) buf')) n = Some (iso_reread c digits os) /\
    (9 <= digits -> os <> os_none -> r_c (iso_reread c digits os) = c)).
Proof.
  intros Hc Hd Hl. pose proof Hc as (Hty & Hv & _).
  destruct (emits_contract _ _ (emits_iso8601 c Hty digits sep os Hd)) as [_ H].
  eapply returns_mono; [apply (H buf)|]. intros [buf' n] (_ & Hfit & _). destruct (Hfit Hl) as [-> ->].
  set (s := iso8601_text c digits sep os) in *. split.
  - unfold alen at 1. rewrite Nat2Z.id, take_app_length. by apply parse_iso8601_text.
  - intros Hd9 Hos. unfold iso_reread, truncated_ns. rewrite decide_False by done.
    rewrite (proj2 (Z.eqb_neq _ _)) by lia. rewrite Z.min_l by lia. simpl. rewrite Z.div_1_r, Z.mul_1_r.
    by destruct c.
Qed.

Lemma rfc2822_reads_back c gmt buf : rfc2822_representable c ->
  alen (rfc2822_text c gmt) <= alen buf ->
  returns (fitted (alen buf) (__rfc2822 buf (alen buf) c gmt)) (fun '(buf', n) =>
    parse_rfc2822 (Some (take (Z.to_nat n) buf')) n =
      Some (mk_res (set_off (with_ns c 0) (if gmt then 0 else c_off c)) None true)).
Proof.
  intros Hc Hl. pose proof Hc as (Hty & _).
  destruct (emits_contract _ _ (emits_rfc2822 c Hty gmt)) as [_ H].
  eapply returns_mono; [apply (H buf)|]. intros [buf' n] (_ & Hfit & _). destruct (Hfit Hl) as [-> ->].
  unfold alen at 1. rewrite Nat2Z.id, take_app_length. by apply parse_rfc2822_text.
Qed.

Lemma duration_reads_back ns : in_unsigned 64 ns ->
  let s := dur_units_text ns in
  duration_units_size ns = Some (alen s) /\
  parse_duration_ns (Some s) (alen s) = Some (mk_dur ns None false).
Proof.
  intros Hns s. split; [|by apply parse_dur_units_text].
  exact (proj1 (emits_contract _ _ (emits_dur_units ns Hns))).
Qed.

(** C12: for a valid time whose year has at most nine digits and whose offset is
    a whole number of minutes below a day, an ISO 8601 text written by
    [write_iso8601] with the separator [iso_t] or [space] is read back by
    [parse_iso8601]: every field returns, the sub-seconds to the digits that were
    written and the offset when one was written; with nine digits and an offset
    the time is exactly the one written.  (The separator [none] is left out: its
    documented text has no dashes, and the code writes them.)  For a year from 0
    to 9999 and such an offset, an RFC 2822 date (or an HTTP date) written by the
    library is read back by [parse_rfc2822]: all fields but the sub-seconds, which
    the format does not carry.  The duration text of every 64-bit count of
    nanoseconds is read back as the same count. *)
Theorem timestamps_roundtrip c digits sep os gmt buf ns : 0 <= digits -> in_unsigned 64 ns ->
  (iso_representable c -> sep <> sep_none -> alen (iso8601_text c digits sep os) <= alen buf ->
   returns (write_iso8601 buf (alen buf) c digits sep os) (fun '(buf', n) =>
     parse_iso8601 (Some (take (Z.to_nat n) buf')) n = Some (iso_reread c digits os) /\
     (9 <= digits -> os <> os_none -> r_c (iso_reread c digits os) = c))) /\
  (rfc2822_representable c -> alen (rfc2822_text c gmt) <= alen buf ->
   returns (fitted (alen buf) (__rfc2822 buf (alen buf) c gmt)) (fun '(buf', n) =>
     parse_rfc2822 (Some (take (Z.to_nat n) buf')) n =
       Some (mk_res (set_off (with_ns c 0) (if gmt then 0 else c_off c)) None true))) /\
  (let s := dur_units_text ns in
   duration_units_size ns = Some (alen s) /\ parse_duration_ns (Some s) (alen s) = Some (mk_dur ns None false)).
Proof. intros Hd Hns. split_and!; [intros; by apply iso8601_reads_back|intros; by apply rfc2822_reads_back|by apply duration_reads_back..]. Qed.

Lemma timestamps_roundtrip_witness :
  returns (write_iso8601 (replicate 40 0) 40 (mk_civil 2024 2 29 23 59 60 123456789 (-12600)) 9 iso_t z_or_colon)
    (fun '(buf', n) => parse_iso8601 (Some (take (Z.to_nat n) buf')) n =
      Some (mk_res (mk_civil 2024 2 29 23 59 60 123456789 (-12600)) None true)) /\
  returns (fitted 40 (__rfc2822 (replicate 40 0) 40 (mk_civil 1994 11 6 8 49 37 0 7200) false)) (fun '(buf', n) =>
    parse_rfc2822 (Some (take (Z.to_nat n) buf')) n = Some (mk_res (mk_civil 1994 11 6 8 49 37 0 7200) None true)) /\
  dur_units_text 5402500000000 = cstr "1h30m2s500ms" /\
  parse_duration_ns (Some (dur_units_text 5402500000000)) 12 = Some (mk_dur 5402500000000 None false).
Proof.
  split; [|split; [|split; [by vm_compute|]]].
  - eapply returns_mono; [apply (timestamps_roundtrip (mk_civil 2024 2 29 23 59 60 123456789 (-12600)) 9 iso_t z_or_colon false
      (replicate 40 0) 0)|].
    + lia.
    + by vm_compute.
    + split_and!; [split; by vm_compute|by vm_compute|by vm_compute..].
    + done.
    + by vm_compute.
    + intros [buf' n] [H _]. exact H.
  - apply (timestamps_roundtrip (mk_civil 1994 11 6 8 49 37 0 7200) 0 iso_t z_or_colon false (replicate 40 0) 0);
      [lia|by vm_compute| |by vm_compute].
    split_and!; [split; by vm_compute|by vm_compute|by vm_compute..].
  - apply (timestamps_roundtrip (mk_civil 1994 11 6 8 49 37 0 7200) 0 iso_t z_or_colon false (replicate 40 0) 5402500000000);
      [lia|by vm_compute].
Defined.

(** C13: on any input the parsers read only inside it, stop, and accept only
    valid results: a time that [parse_iso8601], [parse_rfc3339] or
    [parse_rfc2822] accepts is a valid civil time with an offset below one day
    ([parse_rfc3339] insists on an offset, and the year of an RFC 2822 date is at
    most 9999); a wake-up time that [parse_until] accepts is an instant of 64
    bits, a time of day, or a valid date and time; and a duration that
    [parse_duration_ns] accepts is the word for infinity or has the exact value of
    its text: the sum of its numbers times their units, with the first nine digits
    of each fraction. *)
Theorem parsers_accept_valid s n : 0 <= n <= alen s ->
  returns (parse_iso8601 (Some s) n) accepted /\
  returns (parse_rfc3339 (Some s) n) (fun r => accepted r /\ (r_err r = None -> r_has_offset r = true)) /\
  returns (parse_rfc2822 (Some s) n) (fun r => accepted r /\ (r_err r = None -> 0 <= c_y (r_c r) <= 9999)) /\
  returns (parse_until (Some s) n) until_accepted /\
  returns (parse_duration_ns (Some s) n) (fun _ => True) /\
  (n = alen s -> returns (parse_duration_ns (Some s) n) (duration_accepted s)).
Proof.
  intros Hn. split_and!; [by apply parse_iso8601_safe| |by apply parse_rfc2822_safe|by apply parse_until_safe| |].
  - eapply returns_bind; [by apply parse_iso8601_safe|]. intros r Hr.
    destruct (r_err r) eqn:E; [apply returns_ret; split; [done|congruence]|].
    apply returns_if; intros Hb; apply returns_ret; [done|].
    split; [done|]. intros _. by apply negb_false_iff in Hb.
  - by eapply returns_mono; [apply parse_duration_safe|].
  - intros ->. apply parse_duration_value.
Qed.

Lemma parsers_accept_valid_witness :
  returns (parse_iso8601 (Some (cstr "2023-02-29T00:00:00Z")) 20) accepted /\
  parse_iso8601 (Some (cstr "2023-02-29T00:00:00Z")) 20 = Some (fail_with res0 bad_day) /\
  returns (parse_duration_ns (Some (cstr "1h30m2.5")) 8) (duration_accepted (cstr "1h30m2.5")) /\
  parse_duration_ns (Some (cstr "1h30m2.5")) 8 = Some (mk_dur 5402500000000 None false).
Proof.
  split; [|split; [by vm_compute|split; [|by vm_compute]]].
  - apply (parsers_accept_valid (cstr "2023-02-29T00:00:00Z") 20). by vm_compute.
  - apply (parsers_accept_valid (cstr "1h30m2.5") 8); by vm_compute.
Defined.

(** The tenth digit of a fraction is dropped although it can be worth more than a
    nanosecond: this is 360 ns. *)
Example tenth_digit_dropped : parse_duration_ns (Some (cstr "0.0000000001h")) 13 = Some (mk_dur 0 None false).
Proof. by vm_compute. Qed.

(** [until_epoch] rolls a bare time of day to its next occurrence: in UTC
    the result has that time of day and lies after now and at most a day
    ahead. *)
Theorem until_next_occurrence u now t :
  u_epoch u = false -> u_time_only u = true -> u_utc u = true -> 0 <= time_of_day (u_c u) < 86400 ->
  day_range (now / 86400) -> day_range (now / 86400 + 1) ->
  returns (until_epoch u now t) (fun e =>
    now < e <= now + 86400 /\ e mod 86400 = time_of_day (u_c u)).
Proof. exact (until_epoch_utc u now t). Qed.

Lemma until_next_occurrence_witness :
  returns (u ← parse_until (Some (cstr "10:30Z")) 6; until_epoch u 1720000000 tz_utc) (fun e =>
    1720000000 < e <= 1720000000 + 86400 /\ e mod 86400 = 37800).
Proof.
  replace (parse_until (Some (cstr "10:30Z")) 6) with
    (Some (mk_until (set_time civil_default 10 30 0) 0 None true false true)) by (by vm_compute).
  apply (until_next_occurrence (mk_until (set_time civil_default 10 30 0) 0 None true false true) 1720000000 tz_utc);
    by vm_compute.
Defined.

(** C15: the overflow checks of the duration parser are exact: a product or a
    sum is rejected precisely when it does not fit 64 bits.  They guard the
    intermediate product of the fraction with its scale, so a nine-digit
    fraction of an hour is rejected although its value, 444 s, fits. *)
Theorem duration_overflow_exact a b : in_unsigned 64 a -> in_unsigned 64 b ->
  (__dur_mul a b = if a * b <? 2 ^ 64 then Some (a * b) else None) /\
  (__dur_add a b = if a + b <? 2 ^ 64 then Some (a + b) else None) /\
  parse_duration_ns (Some (cstr "0.123456789h")) 12 = Some (dur_fail overflow) /\
  123456789 * ns_per_hour / 10 ^ 9 = 444444440400.
Proof. intros Ha Hb. split_and!; [by apply dur_mul_spec|by apply dur_add_spec|by vm_compute|by vm_compute]. Qed.

Lemma duration_overflow_exact_witness : __dur_mul (2 ^ 63) 2 = None.
Proof. apply (duration_overflow_exact (2 ^ 63) 2); by vm_compute. Defined.
