(* ===== verification/Sums.v ===== *)
(** Finite sums over integer ranges, for the column form of a product. *)
From stdpp Require Import base numbers.
From Stdlib Require Import ZArith Lia.
From S2P Require Import Prelude.

Local Open Scope Z_scope.

Fixpoint zsum (n : nat) (lo : Z) (f : Z -> Z) : Z :=
  match n with
  | O => 0
  | S k => zsum k lo f + f (lo + Z.of_nat k)
  end.

(** Sum of [f i] for lo <= i < hi. *)
Definition sum_ (lo hi : Z) (f : Z -> Z) : Z := zsum (Z.to_nat (hi - lo)) lo f.

Section sums.
Implicit Types (f g : Z -> Z) (lo hi i k : Z).

Lemma sum_empty lo hi f : hi <= lo -> sum_ lo hi f = 0.
Proof. intros. unfold sum_. by replace (Z.to_nat (hi - lo)) with O by lia. Qed.

Lemma sum_snoc lo hi f : lo <= hi -> sum_ lo (hi + 1) f = sum_ lo hi f + f hi.
Proof.
  intros. unfold sum_. replace (Z.to_nat (hi + 1 - lo)) with (S (Z.to_nat (hi - lo))) by lia.
  simpl. f_equal. f_equal. lia.
Qed.

(** Induction on the upper end of the range. *)
Lemma range_ind (P : Z -> Prop) lo :
  P lo -> (forall hi, lo <= hi -> P hi -> P (hi + 1)) -> forall hi, lo <= hi -> P hi.
Proof.
  intros H0 Hs hi Hhi. replace hi with (lo + (hi - lo)) by lia.
  assert (0 <= hi - lo) as Hd by lia. revert Hd. generalize (hi - lo) as d.
  apply natlike_ind; [by rewrite Z.add_0_r|]. intros d Hd IH.
  unfold Z.succ. rewrite Z.add_assoc. apply Hs; [lia|done].
Qed.

Lemma sum_ext lo hi f g : (forall i, lo <= i < hi -> f i = g i) -> sum_ lo hi f = sum_ lo hi g.
Proof.
  destruct (decide (lo <= hi)); [|by rewrite !sum_empty by lia].
  revert hi l. refine (range_ind _ _ _ _); [by rewrite !sum_empty by lia|].
  intros hi Hle IH E. rewrite !sum_snoc by done. rewrite E by lia. f_equal. apply IH.
  intros. apply E. lia.
Qed.

Lemma sum_app lo mid hi f : lo <= mid <= hi -> sum_ lo hi f = sum_ lo mid f + sum_ mid hi f.
Proof.
  intros [Hl Hm]. revert hi Hm. refine (range_ind _ _ _ _); [rewrite (sum_empty mid mid) by lia; lia|].
  intros hi Hle IH. rewrite !sum_snoc by lia. lia.
Qed.

Lemma sum_cons lo hi f : lo < hi -> sum_ lo hi f = f lo + sum_ (lo + 1) hi f.
Proof.
  intros. rewrite (sum_app lo (lo + 1) hi) by lia. f_equal.
  rewrite sum_snoc, sum_empty by lia. lia.
Qed.

Lemma sum_zero lo hi f : (forall i, lo <= i < hi -> f i = 0) -> sum_ lo hi f = 0.
Proof.
  destruct (decide (lo <= hi)); [|by rewrite sum_empty by lia].
  revert hi l. refine (range_ind _ _ _ _); [by rewrite sum_empty by lia|].
  intros hi Hle IH E. rewrite sum_snoc by done. rewrite E, IH; [done|intros; apply E; lia|lia].
Qed.

Lemma sum_scale lo hi c f : sum_ lo hi (fun i => c * f i) = c * sum_ lo hi f.
Proof.
  destruct (decide (lo <= hi)); [|rewrite !sum_empty by lia; lia].
  revert hi l. refine (range_ind _ _ _ _); [rewrite !sum_empty by lia; lia|].
  intros hi Hle IH. rewrite !sum_snoc, IH by done. lia.
Qed.

Lemma sum_plus lo hi f g : sum_ lo hi (fun i => f i + g i) = sum_ lo hi f + sum_ lo hi g.
Proof.
  destruct (decide (lo <= hi)); [|by rewrite !sum_empty by lia].
  revert hi l. refine (range_ind _ _ _ _); [by rewrite !sum_empty by lia|].
  intros hi Hle IH. rewrite !sum_snoc, IH by done. lia.
Qed.

Lemma sum_swap lo hi lo' hi' (f : Z -> Z -> Z) :
  sum_ lo hi (fun i => sum_ lo' hi' (f i)) = sum_ lo' hi' (fun j => sum_ lo hi (fun i => f i j)).
Proof.
  destruct (decide (lo <= hi)); cycle 1.
  { rewrite sum_empty by lia. symmetry. apply sum_zero. intros. apply sum_empty. lia. }
  revert hi l. refine (range_ind _ _ _ _).
  { rewrite sum_empty by lia. symmetry. apply sum_zero. intros. apply sum_empty. lia. }
  intros hi Hle IH. rewrite sum_snoc, IH, <- sum_plus by done.
  apply sum_ext. intros. by rewrite sum_snoc.
Qed.

Lemma sum_shift lo hi d f : sum_ (lo + d) (hi + d) f = sum_ lo hi (fun i => f (i + d)).
Proof.
  destruct (decide (lo <= hi)); [|by rewrite !sum_empty by lia].
  revert hi l. refine (range_ind _ _ _ _); [by rewrite !sum_empty by lia|].
  intros hi Hle IH. replace (hi + 1 + d) with (hi + d + 1) by lia. rewrite !sum_snoc, IH by lia. done.
Qed.

Lemma sum_bound lo hi f c : lo <= hi -> (forall i, lo <= i < hi -> 0 <= f i <= c) ->
  0 <= sum_ lo hi f <= (hi - lo) * c.
Proof.
  revert hi. refine (range_ind _ _ _ _); [rewrite sum_empty by lia; lia|].
  intros hi Hle IH E. rewrite sum_snoc by done. pose proof (E hi ltac:(lia)).
  assert (0 <= sum_ lo hi f <= (hi - lo) * c) by (apply IH; intros; apply E; lia). lia.
Qed.

(** Only the part of the range where the guard holds counts. *)
Lemma sum_guard lo hi lo' hi' f : lo <= lo' -> hi' <= hi -> lo' <= hi' ->
  sum_ lo hi (fun i => if andb (Z.leb lo' i) (Z.ltb i hi') then f i else 0) = sum_ lo' hi' f.
Proof.
  intros. rewrite (sum_app lo lo' hi), (sum_app lo' hi' hi) by lia.
  rewrite (sum_zero lo lo'), (sum_zero hi' hi).
  - rewrite Z.add_0_l, Z.add_0_r. apply sum_ext. intros i Hi.
    by rewrite (proj2 (Z.leb_le lo' i)), (proj2 (Z.ltb_lt i hi')) by lia.
  - intros i Hi. rewrite (proj2 (Z.ltb_ge i hi')) by lia. by rewrite andb_false_r.
  - intros i Hi. by rewrite (proj2 (Z.leb_gt lo' i)) by lia.
Qed.

(** A sum that is symmetric about k / 2 is twice its lower half, plus the middle
    term when k is even. *)
Lemma sum_symmetric lo hi k f : lo + hi = k -> lo <= hi + 1 ->
  (forall i, lo <= i <= hi -> f (k - i) = f i) ->
  sum_ lo (hi + 1) f =
    2 * sum_ lo ((k + 1) / 2) f + (if Z.eqb (k mod 2) 0 then f (k / 2) else 0).
Proof.
  intros Hk Hle. assert (0 <= hi + 1 - lo) as Hd by lia. revert Hd. remember (hi + 1 - lo) as d eqn:Ed.
  intros Hd. revert lo hi Hk Hle Ed. pattern d. apply Zlt_0_ind; [|done]. clear d Hd.
  intros d IH Hd lo hi Hk Hle Ed Hf.
  destruct (decide (hi + 1 = lo)) as [E|Hne].
  { replace k with (2 * hi + 1) by lia. rewrite !sum_empty; [|Z.to_euclidean_division_equations; lia|lia].
    replace ((2 * hi + 1) mod 2) with 1 by (Z.to_euclidean_division_equations; lia). done. }
  destruct (decide (hi = lo)) as [E|Hne2].
  { replace k with (2 * lo) by lia. rewrite (sum_empty lo ((2 * lo + 1) / 2)) by (Z.to_euclidean_division_equations; lia).
    replace ((2 * lo) mod 2) with 0 by (Z.to_euclidean_division_equations; lia).
    replace (2 * lo / 2) with lo by (Z.to_euclidean_division_equations; lia).
    subst hi. rewrite sum_snoc, sum_empty by lia. done. }
  rewrite sum_snoc, sum_cons by lia. rewrite (sum_cons lo ((k + 1) / 2)) by (Z.to_euclidean_division_equations; lia).
  pose proof (Hf lo ltac:(lia)) as Hlo. replace (k - lo) with hi in Hlo by lia.
  pose proof (IH (d - 2) ltac:(lia) (lo + 1) (hi - 1) ltac:(lia) ltac:(lia) ltac:(lia)) as IH'.
  replace (hi - 1 + 1) with hi in IH' by lia. rewrite IH' by (intros; apply Hf; lia). lia.
Qed.
End sums.
