(* ===== verification/Limb.v ===== *)
(** Limbs of the multi-precision integers (math/arbint/limb.hpp, bits/carry.hpp).

    A limb is a machine word of 64 or 32 bits, by target; the width is the class
    [LimbWidth] so that every theorem covers both targets.  The file has the
    width arithmetic, the single-limb bit queries, the carry primitives and the
    three-limb column accumulator, each with its exact meaning over [Z].
    Out-parameters ([limb_t &r]) become extra results. *)
From stdpp Require Import base numbers list option.
From Stdlib Require Import ZArith Lia.
From S2P Require Import Prelude Arrays.

Local Open Scope Z_scope.

Class LimbWidth := {
  limb_bits : Z;
  limb_bits_ok : limb_bits = 64 \/ limb_bits = 32
}.

Program Definition limb64 : LimbWidth := {| limb_bits := 64 |}.
Next Obligation. by left. Qed.

Program Definition limb32 : LimbWidth := {| limb_bits := 32 |}.
Next Obligation. by right. Qed.

Section limb.
Context `{LimbWidth}.

(** 2^w, the base the limbs are digits of. *)
Definition base : Z := 2 ^ limb_bits.

Definition is_limb (x : Z) : Prop := 0 <= x < base.

(** static_cast<limb_t> *)
Definition to_limb (z : Z) : Z := wrap limb_bits z.

(** dlimb_t arithmetic *)
Definition to_dlimb (z : Z) : Z := wrap (2 * limb_bits) z.

Definition limb_bytes : Z := limb_bits / 8.

(** ~x on a limb *)
Definition limb_not (x : Z) : Z := to_limb (Z.lnot x).

Definition limb_max : Z := limb_not 0.

Definition limb_msb : Z := to_limb (Z.shiftl 1 (limb_bits - 1)).

(** x << c and x >> c: a shift by the width of the type or more is undefined. *)
Definition limb_shl (x c : Z) : option Z :=
  if decide (0 <= c < limb_bits) then Some (to_limb (Z.shiftl x c)) else None.

Definition limb_shr (x c : Z) : option Z :=
  if decide (0 <= c < limb_bits) then Some (Z.shiftr x c) else None.

Definition limbs_for (bits : Z) : Z := wrap limb_bits (bits + (limb_bits - 1)) / limb_bits.

Definition lo_half (v : Z) : Z := to_limb v.

Definition hi_half (v : Z) : Z := to_limb (Z.shiftr v limb_bits).

Definition join (hi lo : Z) : Z := Z.lor (to_dlimb (Z.shiftl hi limb_bits)) lo.

(** ** Single-limb bit queries *)

(** The compiler builtins: the number of leading and trailing zeros of a nonzero
    word and the number of set bits. *)
Definition builtin_clz (x : Z) : Z := limb_bits - 1 - Z.log2 x.

Fixpoint pos_ctz (p : positive) : Z :=
  match p with xO q => 1 + pos_ctz q | _ => 0 end.

Definition builtin_ctz (x : Z) : Z := match x with Zpos p => pos_ctz p | _ => 0 end.

Fixpoint pos_popcount (p : positive) : Z :=
  match p with xH => 1 | xO q => pos_popcount q | xI q => 1 + pos_popcount q end.

Definition builtin_popcount (x : Z) : Z := match x with Zpos p => pos_popcount p | _ => 0 end.

Definition countl_zero (x : Z) : Z := if Z.eqb x 0 then limb_bits else builtin_clz x.

Definition countr_zero (x : Z) : Z := if Z.eqb x 0 then limb_bits else builtin_ctz x.

Definition limb_clz (x : Z) : Z := if Z.eqb x 0 then limb_bits else countl_zero x.

Definition limb_ctz (x : Z) : Z := if Z.eqb x 0 then limb_bits else countr_zero x.

Definition limb_bitlen (x : Z) : Z := limb_bits - limb_clz x.

Definition limb_popcount (x : Z) : Z := builtin_popcount x.

(** ** Carry primitives: (carry out, result) *)

Definition builtin_add_overflow (a b : Z) : Z * Z :=
  (if Z.leb base (a + b) then 1 else 0, to_limb (a + b)).

Definition builtin_sub_overflow (a b : Z) : Z * Z :=
  (if Z.ltb a b then 1 else 0, to_limb (a - b)).

Definition addc (a b cin : Z) : Z * Z :=
  let '(c0, s0) := builtin_add_overflow a b in
  let '(c1, s1) := builtin_add_overflow s0 cin in
  (Z.lor c0 c1, s1).

Definition subb (a b bin : Z) : Z * Z :=
  let '(b0, d0) := builtin_sub_overflow a b in
  let '(b1, d1) := builtin_sub_overflow d0 bin in
  (Z.lor b0 b1, d1).

(** ** Widening multiplies: (lo, hi) *)

Definition mul_wide (a b : Z) : Z * Z :=
  let p := to_dlimb (a * b) in
  (lo_half p, hi_half p).

Definition muladd_wide (a b c : Z) : Z * Z :=
  let p := to_dlimb (to_dlimb (a * b) + c) in
  (lo_half p, hi_half p).

Definition muladd2_wide (a b c d : Z) : Z * Z :=
  let p := to_dlimb (to_dlimb (to_dlimb (a * b) + c) + d) in
  (lo_half p, hi_half p).

(** ** Column accumulator *)

Record acc3 := Acc3 { c0 : Z; c1 : Z; c2 : Z }.

Definition acc3_zero : acc3 := Acc3 0 0 0.

Definition fma (acc : acc3) (a b : Z) : acc3 :=
  let '(lo, hi) := mul_wide a b in
  let '(k0, x0) := addc acc.(c0) lo 0 in
  let '(k1, x1) := addc acc.(c1) hi k0 in
  Acc3 x0 x1 (to_limb (acc.(c2) + k1)).

Definition fma2 (acc : acc3) (a b : Z) : acc3 :=
  let '(lo, hi) := mul_wide a b in
  let '(k0, x0) := addc acc.(c0) lo 0 in
  let '(k1, x1) := addc acc.(c1) hi k0 in
  let x2 := to_limb (acc.(c2) + k1) in
  let '(k0, y0) := addc x0 lo 0 in
  let '(k1, y1) := addc x1 hi k0 in
  Acc3 y0 y1 (to_limb (x2 + k1)).

Definition acc_add (acc : acc3) (v : Z) : acc3 :=
  let '(k0, x0) := addc acc.(c0) v 0 in
  let '(k1, x1) := addc acc.(c1) 0 k0 in
  Acc3 x0 x1 (to_limb (acc.(c2) + k1)).

Definition shift_out (acc : acc3) : Z * acc3 := (acc.(c0), Acc3 acc.(c1) acc.(c2) 0).
End limb.

#[global] Arguments base : simpl never.
#[global] Arguments to_limb : simpl never.
#[global] Arguments to_dlimb : simpl never.
#[global] Arguments addc : simpl never.
#[global] Arguments subb : simpl never.
#[global] Arguments mul_wide : simpl never.
#[global] Arguments limb_not : simpl never.

(** ** What they compute *)

Section limb_facts.
Context `{LimbWidth}.

Lemma limb_bits_pos : 32 <= limb_bits <= 64.
Proof. destruct limb_bits_ok; lia. Qed.

Lemma base_ge : 2 ^ 32 <= base.
Proof. apply Z.pow_le_mono_r; pose proof limb_bits_pos; lia. Qed.

Lemma base_pos : 0 < base.
Proof. pose proof base_ge. lia. Qed.

Lemma base_sq : 2 ^ (2 * limb_bits) = base * base.
Proof. pose proof limb_bits_pos. unfold base. rewrite <- Z.pow_add_r by lia. f_equal. lia. Qed.

Lemma base_succ i : 0 <= i -> base ^ (i + 1) = base * base ^ i.
Proof. intros. by rewrite Z.add_1_r, Z.pow_succ_r. Qed.

Lemma base_split i j : 0 <= i <= j -> base ^ j = base ^ i * base ^ (j - i).
Proof. intros. rewrite <- Z.pow_add_r by lia. f_equal. lia. Qed.

Lemma base_pow_pos i : 0 <= i -> 0 < base ^ i.
Proof. intros. apply Z.pow_pos_nonneg; [apply base_pos|done]. Qed.

Lemma to_limb_range z : is_limb (to_limb z).
Proof. apply wrap_range. pose proof limb_bits_pos. lia. Qed.

Lemma to_limb_id z : is_limb z -> to_limb z = z.
Proof. apply wrap_id. Qed.

Lemma to_dlimb_id z : 0 <= z < base * base -> to_dlimb z = z.
Proof. intros. apply wrap_id. unfold in_unsigned. by rewrite base_sq. Qed.

Lemma to_limb_eq z : to_limb z = z mod base.
Proof. done. Qed.

(** A wrapped value differs from the exact one by a multiple of the base. *)
Lemma to_limb_wit z : exists q, z = to_limb z + q * base /\ is_limb (to_limb z).
Proof.
  exists (z / base). split; [|apply to_limb_range]. rewrite to_limb_eq.
  pose proof (Z.div_mod z base). pose proof base_pos. lia.
Qed.

Lemma to_limb_unique z x q : is_limb x -> z = x + q * base -> to_limb z = x.
Proof.
  intros Hx ->. rewrite to_limb_eq, Z.mod_add by (pose proof base_pos; lia).
  by apply Z.mod_small.
Qed.

(** Or-ing values with no common bit position adds them. *)
Lemma lor_high_low k x y : 0 <= k -> 0 <= y < 2 ^ k -> Z.lor (x * 2 ^ k) y = x * 2 ^ k + y.
Proof.
  intros Hk Hy. assert (Z.land (x * 2 ^ k) y = 0) as E.
  { apply Z.bits_inj'. intros i Hi. rewrite Z.land_spec, Z.bits_0.
    destruct (decide (i < k)).
    - by rewrite Z.mul_pow2_bits_low.
    - replace (Z.testbit y i) with false; [apply andb_false_r|]. symmetry.
      destruct (decide (y = 0)) as [->|]; [apply Z.bits_0|].
      apply Z.bits_above_log2; [lia|]. apply Z.log2_lt_pow2; [lia|].
      eapply Z.lt_le_trans; [apply Hy|]. apply Z.pow_le_mono_r; lia. }
  rewrite Z.add_nocarry_lxor by done. symmetry. by apply Z.lxor_lor.
Qed.

Lemma half_base : base = 2 ^ (limb_bits - 1) * 2.
Proof.
  pose proof limb_bits_pos. unfold base. rewrite Z.mul_comm, <- Z.pow_succ_r by lia. f_equal. lia.
Qed.

Lemma double_limb x b : is_limb x -> 0 <= b <= 1 ->
  is_limb (Z.lor (to_limb (Z.shiftl x 1)) b) /\ 0 <= Z.shiftr x (limb_bits - 1) <= 1 /\
  Z.lor (to_limb (Z.shiftl x 1)) b + base * Z.shiftr x (limb_bits - 1) = 2 * x + b.
Proof.
  intros Hx Hb. pose proof limb_bits_pos. pose proof half_base as HB.
  rewrite Z.shiftl_mul_pow2, Z.shiftr_div_pow2 by lia. change (2 ^ 1) with 2.
  set (h := 2 ^ (limb_bits - 1)) in *. unfold is_limb in *.
  assert (0 < h) by (apply Z.pow_pos_nonneg; lia).
  pose proof (Z.div_mod x h ltac:(lia)). pose proof (Z.mod_pos_bound x h ltac:(lia)).
  assert (0 <= x / h <= 1) as Hq by nia.
  rewrite (to_limb_unique (x * 2) (x mod h * 2) (x / h)) by (unfold is_limb; nia).
  pose proof (lor_high_low 1 (x mod h) b) as El. change (2 ^ 1) with 2 in El. rewrite El by lia. nia.
Qed.

Lemma halves v : 0 <= v < base * base ->
  is_limb (lo_half v) /\ is_limb (hi_half v) /\ v = lo_half v + base * hi_half v.
Proof.
  intros Hv. pose proof base_pos. pose proof limb_bits_pos.
  assert (hi_half v = v / base) as ->.
  { unfold hi_half. rewrite Z.shiftr_div_pow2 by lia. fold base. apply to_limb_id.
    split; [apply Z.div_pos; lia|]. apply Z.div_lt_upper_bound; lia. }
  split; [apply to_limb_range|]. split.
  - split; [apply Z.div_pos; lia|]. apply Z.div_lt_upper_bound; lia.
  - unfold lo_half. rewrite to_limb_eq. pose proof (Z.div_mod v base). lia.
Qed.

Lemma limb_mul_bound a b : is_limb a -> is_limb b -> 0 <= a * b <= base * base - 2 * base + 1.
Proof.
  unfold is_limb. intros [] []. split; [by apply Z.mul_nonneg_nonneg|].
  transitivity ((base - 1) * (base - 1)); [apply Z.mul_le_mono_nonneg; lia|lia].
Qed.

Lemma addc_spec a b cin : is_limb a -> is_limb b -> is_limb cin -> a + b + cin < 2 * base ->
  let '(c, r) := addc a b cin in 0 <= c <= 1 /\ is_limb r /\ r + base * c = a + b + cin.
Proof.
  unfold is_limb. intros Ha Hb Hc Hsum. unfold addc, builtin_add_overflow.
  destruct (Z.leb_spec base (a + b)) as [L|L].
  - rewrite (to_limb_unique (a + b) (a + b - base) 1) by (unfold is_limb; lia).
    destruct (Z.leb_spec base (a + b - base + cin)); [lia|].
    rewrite to_limb_id by (unfold is_limb; lia). rewrite ?Z.lor_0_r, ?Z.lor_0_l. lia.
  - rewrite (to_limb_id (a + b)) by (unfold is_limb; lia).
    destruct (Z.leb_spec base (a + b + cin)).
    + rewrite (to_limb_unique _ (a + b + cin - base) 1) by (unfold is_limb; lia). rewrite ?Z.lor_0_r, ?Z.lor_0_l. lia.
    + rewrite to_limb_id by (unfold is_limb; lia). rewrite ?Z.lor_0_r, ?Z.lor_0_l. lia.
Qed.

Lemma subb_spec a b bin : is_limb a -> is_limb b -> is_limb bin -> - base <= a - b - bin ->
  let '(c, r) := subb a b bin in 0 <= c <= 1 /\ is_limb r /\ r - base * c = a - b - bin.
Proof.
  unfold is_limb. intros Ha Hb Hc Hsum. unfold subb, builtin_sub_overflow.
  destruct (Z.ltb_spec a b) as [L|L].
  - rewrite (to_limb_unique (a - b) (a - b + base) (-1)) by (unfold is_limb; lia).
    destruct (Z.ltb_spec (a - b + base) bin); [lia|].
    rewrite to_limb_id by (unfold is_limb; lia). rewrite ?Z.lor_0_r, ?Z.lor_0_l. lia.
  - rewrite (to_limb_id (a - b)) by (unfold is_limb; lia).
    destruct (Z.ltb_spec (a - b) bin).
    + rewrite (to_limb_unique _ (a - b - bin + base) (-1)) by (unfold is_limb; lia). rewrite ?Z.lor_0_r, ?Z.lor_0_l. lia.
    + rewrite to_limb_id by (unfold is_limb; lia). rewrite ?Z.lor_0_r, ?Z.lor_0_l. lia.
Qed.

Lemma mul_wide_spec a b : is_limb a -> is_limb b ->
  let '(lo, hi) := mul_wide a b in
  is_limb lo /\ is_limb hi /\ hi <= base - 2 /\ lo + base * hi = a * b.
Proof.
  intros Ha Hb. pose proof (limb_mul_bound a b Ha Hb) as Hm. pose proof base_ge.
  unfold mul_wide. rewrite to_dlimb_id by lia.
  destruct (halves (a * b)) as (Hl & Hh & E); [lia|].
  unfold is_limb in *. repeat split; try lia. nia.
Qed.

Lemma muladd_wide_spec a b c : is_limb a -> is_limb b -> is_limb c ->
  let '(lo, hi) := muladd_wide a b c in
  is_limb lo /\ is_limb hi /\ lo + base * hi = a * b + c.
Proof.
  intros Ha Hb Hc. pose proof (limb_mul_bound a b Ha Hb) as Hm. pose proof base_ge.
  unfold muladd_wide. unfold is_limb in Hc.
  rewrite (to_dlimb_id (a * b)), to_dlimb_id by lia.
  destruct (halves (a * b + c)) as (Hl & Hh & E); [lia|].
  unfold is_limb in *. repeat split; lia.
Qed.

Lemma muladd2_wide_spec a b c d : is_limb a -> is_limb b -> is_limb c -> is_limb d ->
  let '(lo, hi) := muladd2_wide a b c d in
  is_limb lo /\ is_limb hi /\ lo + base * hi = a * b + c + d.
Proof.
  intros Ha Hb Hc Hd. pose proof (limb_mul_bound a b Ha Hb) as Hm. pose proof base_ge.
  unfold muladd2_wide. unfold is_limb in Hc, Hd.
  rewrite (to_dlimb_id (a * b)), (to_dlimb_id (a * b + c)), to_dlimb_id by lia.
  destruct (halves (a * b + c + d)) as (Hl & Hh & E); [lia|].
  unfold is_limb in *. repeat split; lia.
Qed.
End limb_facts.
