(* ===== verification/Mpn.v ===== *)
(** Natural-number routines on limb vectors (math/arbint/mpn_core.hpp).

    The routines take naked pointers and lengths, so the model has one memory,
    a list of limbs, and a pointer is an offset into it: [p[i]] is [m.[p + i]],
    and an operation returns the new memory next to its carry or borrow.  A
    destination that equals a source is therefore the same cells, as in the
    code.  An access outside the memory, or a shift by the width of a limb, is
    [None].  The definitions are the portable loops, which are the code under
    MICRON_ARBINT_NO_ASM, on targets without kernels and in constant
    evaluation. *)
From stdpp Require Import base numbers list option.
From Stdlib Require Import ZArith Lia.
From S2P Require Import Prelude Arrays Limb.

Local Open Scope Z_scope.

Abbreviation mem := (list Z).

(** ** Bulk moves *)

Definition copyi (m : mem) (rp ap n : Z) : option mem :=
  for_ 0 n (fun i m => x ← m.[ap + i]; aset m (rp + i) x) m.

Definition copyd (m : mem) (rp ap n : Z) : option mem :=
  for_down n (fun i m => x ← m.[ap + i]; aset m (rp + i) x) m.

Definition zero (m : mem) (rp n : Z) : option mem :=
  for_ 0 n (fun i m => aset m (rp + i) 0) m.

(** ** Compares *)

Fixpoint cmp_loop (m : mem) (ap bp : Z) (i : nat) : option Z :=
  match i with
  | O => Some 0
  | S i =>
      x ← m.[ap + Z.of_nat i];
      y ← m.[bp + Z.of_nat i];
      if negb (Z.eqb x y) then Some (if Z.ltb x y then -1 else 1) else cmp_loop m ap bp i
  end.

Definition cmp (m : mem) (ap bp n : Z) : option Z := cmp_loop m ap bp (Z.to_nat n).

Definition cmp_var (m : mem) (ap an bp bn : Z) : option Z :=
  if negb (Z.eqb an bn) then Some (if Z.ltb an bn then -1 else 1) else cmp m ap bp an.

Fixpoint is_zero_loop (m : mem) (ap i : Z) (k : nat) : option bool :=
  match k with
  | O => Some true
  | S k => x ← m.[ap + i]; if negb (Z.eqb x 0) then Some false else is_zero_loop m ap (i + 1) k
  end.

Definition is_zero (m : mem) (ap n : Z) : option bool := is_zero_loop m ap 0 (Z.to_nat n).

Module __portable.
Section portable.
Context `{LimbWidth}.

Definition add_n (m : mem) (rp ap bp n : Z) : option (mem * Z) :=
  for_ 0 n (fun i '(m, cy) =>
    x ← m.[ap + i];
    y ← m.[bp + i];
    let '(cy, r) := addc x y cy in
    m ← aset m (rp + i) r;
    Some (m, cy)) (m, 0).

Definition sub_n (m : mem) (rp ap bp n : Z) : option (mem * Z) :=
  for_ 0 n (fun i '(m, bw) =>
    x ← m.[ap + i];
    y ← m.[bp + i];
    let '(bw, r) := subb x y bw in
    m ← aset m (rp + i) r;
    Some (m, bw)) (m, 0).

Definition mul_1 (m : mem) (rp ap n b : Z) : option (mem * Z) :=
  for_ 0 n (fun i '(m, cy) =>
    x ← m.[ap + i];
    let '(lo, hi) := muladd_wide x b cy in
    m ← aset m (rp + i) lo;
    Some (m, hi)) (m, 0).

Definition addmul_1 (m : mem) (rp ap n b : Z) : option (mem * Z) :=
  for_ 0 n (fun i '(m, cy) =>
    x ← m.[ap + i];
    y ← m.[rp + i];
    let '(lo, hi) := muladd2_wide x b cy y in
    m ← aset m (rp + i) lo;
    Some (m, hi)) (m, 0).

Definition submul_1 (m : mem) (rp ap n b : Z) : option (mem * Z) :=
  for_ 0 n (fun i '(m, cy) =>
    x ← m.[ap + i];
    let '(lo, hi) := muladd_wide x b cy in
    y ← m.[rp + i];
    let '(bw, d) := subb y lo 0 in
    m ← aset m (rp + i) d;
    Some (m, to_limb (hi + bw))) (m, 0).

(** for (i = n - 1; i > 0; --i): the body of [for_down] at [k] is the iteration
    i = k + 1. *)
Definition lshift (m : mem) (rp ap n cnt : Z) : option (mem * Z) :=
  if Z.eqb n 0 then Some (m, 0) else
  let tnc := limb_bits - cnt in
  high ← m.[ap + (n - 1)];
  ret ← limb_shr high tnc;
  '(m, high) ← for_down (n - 1) (fun k '(m, high) =>
    let i := k + 1 in
    low ← m.[ap + (i - 1)];
    h ← limb_shl high cnt;
    l ← limb_shr low tnc;
    m ← aset m (rp + i) (Z.lor h l);
    Some (m, low)) (m, high);
  h ← limb_shl high cnt;
  m ← aset m rp h;
  Some (m, ret).

Definition rshift (m : mem) (rp ap n cnt : Z) : option (mem * Z) :=
  if Z.eqb n 0 then Some (m, 0) else
  let tnc := limb_bits - cnt in
  low ← m.[ap];
  ret ← limb_shl low tnc;
  '(m, low) ← for_ 0 (n - 1) (fun i '(m, low) =>
    high ← m.[ap + (i + 1)];
    l ← limb_shr low cnt;
    h ← limb_shl high tnc;
    m ← aset m (rp + i) (Z.lor l h);
    Some (m, high)) (m, low);
  l ← limb_shr low cnt;
  m ← aset m (rp + (n - 1)) l;
  Some (m, ret).
End portable.
End __portable.

Section mpn.
Context `{LimbWidth}.

(** ** Add and subtract *)

Definition add_n (m : mem) (rp ap bp n : Z) : option (mem * Z) := __portable.add_n m rp ap bp n.

Definition sub_n (m : mem) (rp ap bp n : Z) : option (mem * Z) := __portable.sub_n m rp ap bp n.

(** for (; i < n && cy != 0; ++i): [k] is the number of limbs left. *)
Fixpoint add_1_loop (m : mem) (rp ap i cy : Z) (k : nat) : option (mem * Z * Z) :=
  match k with
  | O => Some (m, i, cy)
  | S k =>
      if Z.eqb cy 0 then Some (m, i, cy) else
      x ← m.[ap + i];
      let '(cy, r) := addc x cy 0 in
      m ← aset m (rp + i) r;
      add_1_loop m rp ap (i + 1) cy k
  end.

(** for (; i < n; ++i) rp[i] = ap[i] *)
Definition copy_rest (m : mem) (rp ap i n : Z) : option mem :=
  for_ i n (fun i m => x ← m.[ap + i]; aset m (rp + i) x) m.

Definition add_1 (m : mem) (rp ap n b : Z) : option (mem * Z) :=
  '(m, i, cy) ← add_1_loop m rp ap 0 b (Z.to_nat n);
  m ← (if negb (Z.eqb rp ap) then copy_rest m rp ap i n else Some m);
  Some (m, cy).

Fixpoint sub_1_loop (m : mem) (rp ap i bw : Z) (k : nat) : option (mem * Z * Z) :=
  match k with
  | O => Some (m, i, bw)
  | S k =>
      if Z.eqb bw 0 then Some (m, i, bw) else
      x ← m.[ap + i];
      let '(bw, r) := subb x bw 0 in
      m ← aset m (rp + i) r;
      sub_1_loop m rp ap (i + 1) bw k
  end.

Definition sub_1 (m : mem) (rp ap n b : Z) : option (mem * Z) :=
  '(m, i, bw) ← sub_1_loop m rp ap 0 b (Z.to_nat n);
  m ← (if negb (Z.eqb rp ap) then copy_rest m rp ap i n else Some m);
  Some (m, bw).

Definition add (m : mem) (rp ap an bp bn : Z) : option (mem * Z) :=
  '(m, cy) ← add_n m rp ap bp bn;
  if Z.eqb an bn then Some (m, cy) else add_1 m (rp + bn) (ap + bn) (an - bn) cy.

Definition sub (m : mem) (rp ap an bp bn : Z) : option (mem * Z) :=
  '(m, bw) ← sub_n m rp ap bp bn;
  if Z.eqb an bn then Some (m, bw) else sub_1 m (rp + bn) (ap + bn) (an - bn) bw.

(** for (++i; i < n; ++i) rp[i] = ~ap[i] *)
Definition com_from (m : mem) (rp ap i n : Z) : option mem :=
  for_ i n (fun i m => x ← m.[ap + i]; aset m (rp + i) (limb_not x)) m.

Fixpoint neg_loop (m : mem) (rp ap n i : Z) (k : nat) : option (mem * Z) :=
  match k with
  | O => Some (m, 0)
  | S k =>
      x ← m.[ap + i];
      if negb (Z.eqb x 0) then
        m ← aset m (rp + i) (to_limb (limb_not x + 1));
        m ← com_from m rp ap (i + 1) n;
        Some (m, 1)
      else
        m ← aset m (rp + i) 0;
        neg_loop m rp ap n (i + 1) k
  end.

Definition neg (m : mem) (rp ap n : Z) : option (mem * Z) := neg_loop m rp ap n 0 (Z.to_nat n).

(** ** Conditional add and subtract *)

(** static_cast<limb_t>(0) - static_cast<limb_t>(c) *)
Definition limb_mask (c : bool) : Z := to_limb (0 - (if c then 1 else 0)).

Definition cnd_add_n (cnd : Z) (m : mem) (rp ap bp n : Z) : option (mem * Z) :=
  let mask := limb_mask (negb (Z.eqb cnd 0)) in
  for_ 0 n (fun i '(m, cy) =>
    x ← m.[ap + i];
    y ← m.[bp + i];
    let '(cy, r) := addc x (Z.land y mask) cy in
    m ← aset m (rp + i) r;
    Some (m, cy)) (m, 0).

Definition cnd_sub_n (cnd : Z) (m : mem) (rp ap bp n : Z) : option (mem * Z) :=
  let mask := limb_mask (negb (Z.eqb cnd 0)) in
  for_ 0 n (fun i '(m, bw) =>
    x ← m.[ap + i];
    y ← m.[bp + i];
    let '(bw, r) := subb x (Z.land y mask) bw in
    m ← aset m (rp + i) r;
    Some (m, bw)) (m, 0).

(** ** Multiply by one limb, shifts *)

Definition mul_1 (m : mem) (rp ap n b : Z) : option (mem * Z) := __portable.mul_1 m rp ap n b.

Definition addmul_1 (m : mem) (rp ap n b : Z) : option (mem * Z) := __portable.addmul_1 m rp ap n b.

Definition submul_1 (m : mem) (rp ap n b : Z) : option (mem * Z) := __portable.submul_1 m rp ap n b.

Definition lshift (m : mem) (rp ap n cnt : Z) : option (mem * Z) := __portable.lshift m rp ap n cnt.

Definition rshift (m : mem) (rp ap n cnt : Z) : option (mem * Z) := __portable.rshift m rp ap n cnt.

(** ** Bitwise *)

Definition and_n (m : mem) (rp ap bp n : Z) : option mem :=
  for_ 0 n (fun i m => x ← m.[ap + i]; y ← m.[bp + i]; aset m (rp + i) (Z.land x y)) m.

Definition ior_n (m : mem) (rp ap bp n : Z) : option mem :=
  for_ 0 n (fun i m => x ← m.[ap + i]; y ← m.[bp + i]; aset m (rp + i) (Z.lor x y)) m.

Definition xor_n (m : mem) (rp ap bp n : Z) : option mem :=
  for_ 0 n (fun i m => x ← m.[ap + i]; y ← m.[bp + i]; aset m (rp + i) (Z.lxor x y)) m.

Definition com (m : mem) (rp ap n : Z) : option mem :=
  for_ 0 n (fun i m => x ← m.[ap + i]; aset m (rp + i) (limb_not x)) m.

(** ** Queries *)

Fixpoint normalize_loop (m : mem) (p : Z) (n : nat) : option Z :=
  match n with
  | O => Some 0
  | S n' =>
      x ← m.[p + Z.of_nat n'];
      if Z.eqb x 0 then normalize_loop m p n' else Some (Z.of_nat n)
  end.

Definition normalize (m : mem) (p n : Z) : option Z := normalize_loop m p (Z.to_nat n).

Definition bitlen (m : mem) (p n : Z) : option Z :=
  n ← normalize m p n;
  if Z.eqb n 0 then Some 0 else
  x ← m.[p + (n - 1)];
  Some ((n - 1) * limb_bits + limb_bitlen x).

Definition popcount (m : mem) (p n : Z) : option Z :=
  for_ 0 n (fun i c => x ← m.[p + i]; Some (c + limb_popcount x)) 0.

Fixpoint scan1_loop (m : mem) (p i n : Z) (k : nat) : option Z :=
  match k with
  | O => Some (n * limb_bits)
  | S k =>
      x ← m.[p + i];
      if negb (Z.eqb x 0) then Some (i * limb_bits + limb_ctz x) else scan1_loop m p (i + 1) n k
  end.

Definition scan1 (m : mem) (p n : Z) : option Z := scan1_loop m p 0 n (Z.to_nat n).

Definition testbit (m : mem) (p n bit : Z) : option bool :=
  let i := bit / limb_bits in
  if Z.leb n i then Some false else
  x ← m.[p + i];
  y ← limb_shr x (bit mod limb_bits);
  Some (negb (Z.eqb (Z.land y 1) 0)).
End mpn.
