(* ===== verification/MpnValue.v ===== *)
(** The number a limb vector denotes, and the rules the mpn routines are
    verified with.

    [num m p n] is the value of the [n] limbs at [p] in base 2^w, least
    significant first.  [modifies rp n m m'] says that [m'] is [m] with only the
    [n] cells at [rp] rewritten, by limbs.  [fwd] and [bwd] are the overlaps a
    loop that runs up or down tolerates; both include the documented ones (the
    vectors are equal or disjoint). *)
From stdpp Require Import base numbers list option.
From Stdlib Require Import ZArith Lia.
From S2P Require Import Prelude Arrays Limb Mpn.

Local Open Scope Z_scope.

(** The vector [p, n] lies inside the memory. *)
Definition valid (m : mem) (p n : Z) : Prop := 0 <= p /\ 0 <= n /\ p + n <= alen m.

(** Storing upwards at [rp] never hits a limb of [ap, n] that is still to be
    read; [bwd] is the same for storing downwards. *)
Definition fwd (rp ap n : Z) : Prop := rp <= ap \/ ap + n <= rp.
Definition bwd (rp ap n : Z) : Prop := ap <= rp \/ rp + n <= ap.

Definition disjoint (p n q k : Z) : Prop := p + n <= q \/ q + k <= p.

Definition cell (m : mem) (k : Z) : Z := default 0 (m.[k]).

Section value.
Context `{LimbWidth}.

Fixpoint num_nat (m : mem) (p : Z) (n : nat) : Z :=
  match n with
  | O => 0
  | S k => num_nat m p k + base ^ Z.of_nat k * cell m (p + Z.of_nat k)
  end.

Definition num (m : mem) (p n : Z) : Z := num_nat m p (Z.to_nat n).

(** Every cell holds a limb. *)
Definition wf (m : mem) : Prop := forall k x, m.[k] = Some x -> is_limb x.

Definition modifies (rp n : Z) (m m' : mem) : Prop :=
  alen m' = alen m /\ wf m' /\ forall k, ~ (rp <= k < rp + n) -> m'.[k] = m.[k].

Implicit Types (m : mem) (p q n i : Z).

(** *** Values *)

Lemma num_0 m p : num m p 0 = 0.
Proof. done. Qed.

Lemma num_succ m p n : 0 <= n -> num m p (n + 1) = num m p n + base ^ n * cell m (p + n).
Proof.
  intros. unfold num. replace (Z.to_nat (n + 1)) with (S (Z.to_nat n)) by lia. simpl.
  by rewrite Z2Nat.id.
Qed.

Lemma num_1 m p : num m p 1 = cell m p.
Proof. change 1 with (0 + 1). rewrite num_succ by lia. rewrite num_0, Z.add_0_r. lia. Qed.

Lemma num_ext m m' p n :
  (forall k, p <= k < p + n -> m'.[k] = m.[k]) -> num m' p n = num m p n.
Proof.
  intros Hk. unfold num.
  assert (forall k : nat, (k <= Z.to_nat n)%nat -> num_nat m' p k = num_nat m p k) as E; [|by apply E].
  induction k as [|k IH]; intros Hle; [done|]. simpl. rewrite IH by lia.
  unfold cell. by rewrite Hk by lia.
Qed.

Lemma num_split m p i j : 0 <= i -> 0 <= j ->
  num m p (i + j) = num m p i + base ^ i * num m (p + i) j.
Proof.
  intros Hi. revert j. apply natlike_ind.
  - rewrite num_0, Z.add_0_r. lia.
  - intros j Hj IH. unfold Z.succ. rewrite Z.add_assoc, !num_succ, IH, Z.pow_add_r by lia.
    rewrite (Z.add_assoc p i j). ring.
Qed.

Lemma num_split_at m p i n : 0 <= i <= n ->
  num m p n = num m p i + base ^ i * num m (p + i) (n - i).
Proof. intros. rewrite <- num_split by lia. f_equal. lia. Qed.

Lemma num_cons m p n : 0 <= n -> num m p (n + 1) = cell m p + base * num m (p + 1) n.
Proof. intros. rewrite Z.add_comm, num_split by lia. by rewrite num_1, Z.pow_1_r. Qed.

(** *** Cells *)

Lemma cell_eq m k x : m.[k] = Some x -> cell m k = x.
Proof. unfold cell. by intros ->. Qed.

Lemma wf_cell m k : wf m -> is_limb (cell m k).
Proof.
  intros Hm. unfold cell. destruct (m.[k]) as [x|] eqn:E; [by eapply Hm|].
  pose proof base_pos. unfold is_limb. simpl. lia.
Qed.

Lemma get_cell m k : 0 <= k < alen m -> m.[k] = Some (cell m k).
Proof. intros Hk. destruct (aget_in m k Hk) as [x Hx]. by rewrite (cell_eq _ _ _ Hx). Qed.

Lemma num_range m p n : wf m -> 0 <= n -> 0 <= num m p n < base ^ n.
Proof.
  intros Hm. revert n. apply natlike_ind.
  - rewrite num_0. simpl. lia.
  - intros n Hn IH. unfold Z.succ. rewrite num_succ, base_succ by lia.
    pose proof (wf_cell m (p + n) Hm) as Hc. unfold is_limb in Hc.
    pose proof (base_pow_pos n Hn). nia.
Qed.

(** Two vectors with the same value have the same limbs. *)
Lemma num_inj m m' p p' n : wf m -> wf m' -> 0 <= n -> num m p n = num m' p' n ->
  forall i, 0 <= i < n -> cell m (p + i) = cell m' (p' + i).
Proof.
  intros Hm Hm' Hn. revert n Hn. refine (natlike_ind _ _ _); [lia|].
  intros n Hn IH. unfold Z.succ. rewrite !num_succ by lia. intros E.
  pose proof (num_range m p n Hm Hn). pose proof (num_range m' p' n Hm' Hn).
  assert (cell m (p + n) = cell m' (p' + n)) as Ec by nia.
  intros i Hi. destruct (decide (i = n)) as [->|]; [done|]. apply IH; [|lia]. rewrite Ec in E. lia.
Qed.

(** *** Stores *)

Lemma modifies_refl rp m : wf m -> modifies rp 0 m m.
Proof. done. Qed.

Lemma wf_upd m k x : wf m -> 0 <= k -> is_limb x -> wf (upd m k x).
Proof.
  intros Hm Hk Hx j y Hj. destruct (decide (j = k)) as [->|].
  - pose proof (aget_Some_bounds _ _ _ Hj) as Hb. rewrite alen_upd in Hb.
    rewrite aget_upd_eq in Hj by done. by simplify_eq.
  - rewrite aget_upd_ne in Hj by done. by eapply Hm.
Qed.

Lemma modifies_upd rp i n m m' k x :
  modifies rp i m m' -> 0 <= rp -> i <= n -> rp <= k < rp + n -> is_limb x ->
  modifies rp n m (upd m' k x).
Proof.
  intros (Hl & Hw & Hf) Hrp Hi Hk Hx. split; [by rewrite alen_upd|]. split; [apply wf_upd; done || lia|].
  intros j Hj. rewrite aget_upd_ne by lia. apply Hf. lia.
Qed.

(** A store just below or inside the cells already rewritten. *)
Lemma modifies_upd_gen rp i rp' n m m' k x :
  modifies rp i m m' -> 0 <= rp' -> rp' <= rp -> rp + i <= rp' + n -> rp' <= k < rp' + n -> is_limb x ->
  modifies rp' n m (upd m' k x).
Proof.
  intros (Hl & Hw & Hf) H0 Hrp Hi Hk Hx. split; [by rewrite alen_upd|].
  split; [apply wf_upd; done || lia|].
  intros j Hj. rewrite aget_upd_ne by lia. apply Hf. lia.
Qed.

Lemma modifies_mono rp rp' n n' m m' :
  modifies rp n m m' -> rp' <= rp -> rp + n <= rp' + n' -> modifies rp' n' m m'.
Proof. intros (Hl & Hw & Hf) ??. split; [done|]. split; [done|]. intros. apply Hf. lia. Qed.

Lemma modifies_trans rp n m1 m2 m3 :
  modifies rp n m1 m2 -> modifies rp n m2 m3 -> modifies rp n m1 m3.
Proof.
  intros (Hl & Hw & Hf) (Hl' & Hw' & Hf'). split; [congruence|]. split; [done|].
  intros. by rewrite Hf', Hf.
Qed.

Lemma modifies_wf rp n m m' : modifies rp n m m' -> wf m'.
Proof. by intros (_ & ? & _). Qed.

Lemma modifies_alen rp n m m' : modifies rp n m m' -> alen m' = alen m.
Proof. by intros (? & _). Qed.

Lemma modifies_out rp n m m' k : modifies rp n m m' -> ~ (rp <= k < rp + n) -> m'.[k] = m.[k].
Proof. intros (_ & _ & ?). auto. Qed.

Lemma modifies_num rp n m m' p k : modifies rp n m m' -> disjoint p k rp n -> num m' p k = num m p k.
Proof. intros Hm Hd. apply num_ext. intros. eapply modifies_out; [done|]. unfold disjoint in Hd. lia. Qed.

Lemma num_upd_at m rp i x : 0 <= rp -> 0 <= i -> rp + i < alen m ->
  num (upd m (rp + i) x) rp (i + 1) = num m rp i + base ^ i * x.
Proof.
  intros. rewrite num_succ by done. f_equal.
  - apply num_ext. intros. rewrite aget_upd_ne by lia. done.
  - erewrite cell_eq; [done|]. apply aget_upd_eq. lia.
Qed.

Lemma num_upd_low m p x n : 0 <= p < alen m -> 0 < n ->
  num (upd m p x) p n = x + base * num m (p + 1) (n - 1).
Proof.
  intros. replace n with (n - 1 + 1) at 1 by lia. rewrite num_cons by lia. f_equal.
  - erewrite cell_eq; [done|]. by apply aget_upd_eq.
  - f_equal. apply num_ext. intros. by rewrite aget_upd_ne by lia.
Qed.

Lemma modifies_read_up rp ap n i m m' : modifies rp i m m' -> fwd rp ap n -> valid m ap n ->
  0 <= i < n -> m'.[ap + i] = Some (cell m (ap + i)).
Proof.
  intros Hm Hf (H0 & Hn & Ha) Hi. rewrite (modifies_out _ _ _ _ _ Hm); [|unfold fwd in Hf; lia].
  apply get_cell. lia.
Qed.

(** *** The loop that stores one limb per step, upwards, and carries a limb

    [J i v c] relates the value [v] stored by the first [i] steps to the carry
    [c]. *)
Lemma returns_store_up rp n m0 s0 (body : Z -> mem * Z -> option (mem * Z)) (J : Z -> Z -> Z -> Prop) :
  wf m0 -> valid m0 rp n ->
  J 0 0 s0 ->
  (forall i m c, 0 <= i < n -> modifies rp i m0 m -> J i (num m rp i) c ->
     exists x c', body i (m, c) = Some (upd m (rp + i) x, c') /\ is_limb x /\
       J (i + 1) (num m rp i + base ^ i * x) c') ->
  returns (for_ 0 n body (m0, s0)) (fun '(m, c) => modifies rp n m0 m /\ J n (num m rp n) c).
Proof.
  intros Hw (Hr & Hn & Hb) H0 Hstep.
  apply (returns_for _ _ _ _ (fun i '(m, c) => modifies rp i m0 m /\ J i (num m rp i) c)).
  - done.
  - by split.
  - intros i [m c] Hi [Hm HJ]. destruct (Hstep i m c Hi Hm HJ) as (x & c' & -> & Hx & HJ').
    apply returns_ret. split; [eapply modifies_upd; [done|..]; done || lia|].
    rewrite num_upd_at; [done|lia..|]. rewrite (modifies_alen _ _ _ _ Hm). lia.
  - by intros [m c].
Qed.

(** The same loop without a carry. *)
Lemma returns_map_up rp n m0 (body : Z -> mem -> option mem) (J : Z -> Z -> Prop) lo :
  wf m0 -> valid m0 rp n -> 0 <= lo <= n ->
  J lo (num m0 rp lo) ->
  (forall i m, lo <= i < n -> modifies rp i m0 m -> J i (num m rp i) ->
     exists x, body i m = Some (upd m (rp + i) x) /\ is_limb x /\
       J (i + 1) (num m rp i + base ^ i * x)) ->
  returns (for_ lo n body m0) (fun m => modifies rp n m0 m /\ J n (num m rp n)).
Proof.
  intros Hw (Hr & Hn & Hb) Hlo H0 Hstep.
  apply (returns_for _ _ _ _ (fun i m => modifies rp i m0 m /\ J i (num m rp i))).
  - lia.
  - split; [|done]. eapply modifies_mono; [by apply (modifies_refl rp)|lia..].
  - intros i m Hi [Hm HJ]. destruct (Hstep i m Hi Hm HJ) as (x & -> & Hx & HJ').
    apply returns_ret. split; [eapply modifies_upd; [done|..]; done || lia|].
    rewrite num_upd_at; [done|lia..|]. rewrite (modifies_alen _ _ _ _ Hm). lia.
  - done.
Qed.
End value.
