(* ===== verification/MpnArith.v ===== *)
(** Correctness of the linear mpn routines: addition, subtraction, negation,
    multiplication by a limb. *)
From stdpp Require Import base numbers list option.
From Stdlib Require Import ZArith Lia.
From S2P Require Import Prelude Arrays Limb Mpn MpnValue.

Local Open Scope Z_scope.

(** Solves the bounds of one store or load of a vector. *)
Ltac vec_bounds :=
  repeat match goal with
  | H : modifies _ _ ?m ?m' |- _ =>
      lazymatch goal with
      | _ : alen m' = alen m |- _ => fail
      | _ => pose proof (modifies_alen _ _ _ _ H)
      end
  end; unfold valid, fwd, bwd, disjoint in *; autorewrite with arr; lia.

Section arith.
Context `{LimbWidth}.
Implicit Types (m : mem) (rp ap bp n i : Z).

Lemma is_limb_0 : is_limb 0.
Proof. pose proof base_pos. unfold is_limb. lia. Qed.

Lemma is_limb_bit c : 0 <= c <= 1 -> is_limb c.
Proof. pose proof base_ge. unfold is_limb. lia. Qed.

Lemma addc_bit a b cin : is_limb a -> is_limb b -> 0 <= cin <= 1 ->
  exists c r, addc a b cin = (c, r) /\ 0 <= c <= 1 /\ is_limb r /\ r + base * c = a + b + cin.
Proof.
  intros Ha Hb Hc. pose proof (addc_spec a b cin Ha Hb (is_limb_bit _ Hc)) as E.
  destruct (addc a b cin) as [c r]. exists c, r. split; [done|]. apply E. unfold is_limb in *. lia.
Qed.

Lemma subb_bit a b bin : is_limb a -> is_limb b -> 0 <= bin <= 1 ->
  exists c r, subb a b bin = (c, r) /\ 0 <= c <= 1 /\ is_limb r /\ r - base * c = a - b - bin.
Proof.
  intros Ha Hb Hc. pose proof (subb_spec a b bin Ha Hb (is_limb_bit _ Hc)) as E.
  destruct (subb a b bin) as [c r]. exists c, r. split; [done|]. apply E. unfold is_limb in *. lia.
Qed.

(** ** add_n, sub_n and their conditional variants

    [cnd_add_n] with any condition adds the masked operand, and [add_n] is the
    case of a set condition; the loops are the same once the mask is applied. *)

Definition add_loop (f : Z -> Z) (m : mem) (rp ap bp n : Z) : option (mem * Z) :=
  for_ 0 n (fun i '(m, cy) =>
    x ← m.[ap + i]; y ← m.[bp + i];
    let '(cy, r) := addc x (f y) cy in
    m ← aset m (rp + i) r; Some (m, cy)) (m, 0).

Definition sub_loop (f : Z -> Z) (m : mem) (rp ap bp n : Z) : option (mem * Z) :=
  for_ 0 n (fun i '(m, bw) =>
    x ← m.[ap + i]; y ← m.[bp + i];
    let '(bw, r) := subb x (f y) bw in
    m ← aset m (rp + i) r; Some (m, bw)) (m, 0).

Section loops.
Context (m : mem) (rp ap bp n : Z) (k : Z).
Context (Hw : wf m) (Hr : valid m rp n) (Ha : valid m ap n) (Hb : valid m bp n).
Context (Fa : fwd rp ap n) (Fb : fwd rp bp n).
Context (f : Z -> Z) (Hk : 0 <= k <= 1) (Hf : forall y, is_limb y -> f y = k * y).

Lemma masked_limb y : is_limb y -> is_limb (f y).
Proof. intros Hy. rewrite Hf by done. unfold is_limb in *. nia. Qed.

Lemma add_loop_spec : returns (add_loop f m rp ap bp n) (fun '(m', cy) =>
  modifies rp n m m' /\ 0 <= cy <= 1 /\ num m' rp n + base ^ n * cy = num m ap n + k * num m bp n).
Proof.
  apply (returns_store_up rp n m 0 _ (fun i v c =>
    0 <= c <= 1 /\ v + base ^ i * c = num m ap i + k * num m bp i)); [done|done| |].
  { rewrite !num_0. lia. }
  intros i m1 c Hi Hm [Hc E].
  rewrite (modifies_read_up _ _ n _ _ _ Hm Fa Ha Hi), (modifies_read_up _ _ n _ _ _ Hm Fb Hb Hi).
  destruct (addc_bit (cell m (ap + i)) (f (cell m (bp + i))) c) as (c' & r & Ec & Hc' & Hr' & E').
  { by apply wf_cell. } { by apply masked_limb, wf_cell. } { done. }
  exists r, c'. cbn [mbind option_bind]. rewrite Ec, aset_in by vec_bounds. split; [done|].
  split; [done|]. split; [done|]. rewrite Hf in E' by (by apply wf_cell).
  rewrite !num_succ, base_succ by lia. nia.
Qed.

Lemma sub_loop_spec : returns (sub_loop f m rp ap bp n) (fun '(m', bw) =>
  modifies rp n m m' /\ 0 <= bw <= 1 /\ num m' rp n - base ^ n * bw = num m ap n - k * num m bp n).
Proof.
  apply (returns_store_up rp n m 0 _ (fun i v c =>
    0 <= c <= 1 /\ v - base ^ i * c = num m ap i - k * num m bp i)); [done|done| |].
  { rewrite !num_0. lia. }
  intros i m1 c Hi Hm [Hc E].
  rewrite (modifies_read_up _ _ n _ _ _ Hm Fa Ha Hi), (modifies_read_up _ _ n _ _ _ Hm Fb Hb Hi).
  destruct (subb_bit (cell m (ap + i)) (f (cell m (bp + i))) c) as (c' & r & Ec & Hc' & Hr' & E').
  { by apply wf_cell. } { by apply masked_limb, wf_cell. } { done. }
  exists r, c'. cbn [mbind option_bind]. rewrite Ec, aset_in by vec_bounds. split; [done|].
  split; [done|]. split; [done|]. rewrite Hf in E' by (by apply wf_cell).
  rewrite !num_succ, base_succ by lia. nia.
Qed.
End loops.

Lemma land_mask (c : bool) y : is_limb y -> Z.land y (limb_mask c) = (if c then 1 else 0) * y.
Proof.
  intros Hy. pose proof limb_bits_pos. destruct c; unfold limb_mask.
  - rewrite (to_limb_unique _ (base - 1) (-1)) by (pose proof base_ge; unfold is_limb; lia).
    unfold base. replace (2 ^ limb_bits - 1) with (Z.ones limb_bits).
    + rewrite Z.land_ones by lia. rewrite Z.mul_1_l. by apply Z.mod_small.
    + rewrite Z.ones_equiv. lia.
  - rewrite Z.sub_0_r, to_limb_id by apply is_limb_0. apply Z.land_0_r.
Qed.

(** ** add_1, sub_1 *)

Section single.
Context (m : mem) (rp ap n : Z).
Context (Hw : wf m) (Hr : valid m rp n) (Ha : valid m ap n) (Fa : fwd rp ap n).

(** Copying what the carry did not reach, or leaving it when the vector is
    updated in place, puts the rest of the source behind the limbs written. *)
Lemma finish_rest m1 i : modifies rp i m m1 -> 0 <= i <= n ->
  returns (if negb (Z.eqb rp ap) then copy_rest m1 rp ap i n else Some m1) (fun m2 =>
    modifies rp n m m2 /\ num m2 rp n = num m1 rp i + base ^ i * num m (ap + i) (n - i)).
Proof.
  intros Hm Hi. destruct (Z.eqb_spec rp ap) as [E|E].
  - apply returns_ret. split; [eapply modifies_mono; [done|lia..]|].
    rewrite (num_split_at m1 rp i) by lia. do 2 f_equal.
    subst ap. apply num_ext. intros. apply (modifies_out _ _ _ _ _ Hm). lia.
  - eapply returns_mono.
    + apply (returns_map_up rp n m1 _ (fun j v =>
        v = num m1 rp i + base ^ i * num m (ap + i) (j - i)) i).
      * by eapply modifies_wf.
      * vec_bounds.
      * done.
      * rewrite Z.sub_diag, num_0. lia.
      * intros j m2 Hj Hm2 Ev. assert (modifies rp j m m2) as Hm3.
        { eapply modifies_trans; [eapply modifies_mono; [exact Hm|lia..]|done]. }
        rewrite (modifies_read_up _ _ n _ _ _ Hm3 Fa Ha) by lia.
        exists (cell m (ap + j)). cbn [mbind option_bind]. rewrite aset_in by vec_bounds.
        split; [done|]. split; [by apply wf_cell|]. rewrite Ev.
        replace (j + 1 - i) with (j - i + 1) by lia. rewrite num_succ by lia.
        replace (ap + i + (j - i)) with (ap + j) by lia.
        rewrite (base_split i j) by lia. ring.
    + cbn beta. intros m2 [Hm2 Ev]. split; [|done].
      eapply modifies_trans; [eapply modifies_mono; [exact Hm|lia..]|done].
Qed.

Definition carry_inv (sgn b i v cy : Z) : Prop :=
  is_limb cy /\ v + sgn * (base ^ i * cy) = num m ap i + sgn * b.

Lemma add_1_loop_spec b : forall k i m1 cy, Z.of_nat k = n - i -> 0 <= i -> modifies rp i m m1 ->
  carry_inv 1 b i (num m1 rp i) cy -> (cy <= 1 \/ i = 0) ->
  returns (add_1_loop m1 rp ap i cy k) (fun '(m2, j, c) =>
    i <= j <= n /\ (j = n \/ c = 0) /\ modifies rp j m m2 /\ carry_inv 1 b j (num m2 rp j) c /\ (c <= 1 \/ j = 0)).
Proof.
  induction k as [|k IH]; intros i m1 cy Hk Hi Hm [Hcy E] Hc1; cbn [add_1_loop].
  { apply returns_ret. split_and!; try done; lia. }
  destruct (Z.eqb_spec cy 0) as [->|Hnz].
  { apply returns_ret. split_and!; try done; lia. }
  rewrite (modifies_read_up _ _ n _ _ _ Hm Fa Ha) by lia. cbn [mbind option_bind].
  pose proof (addc_spec (cell m (ap + i)) cy 0 (wf_cell _ _ Hw) Hcy is_limb_0) as Hs.
  destruct (addc (cell m (ap + i)) cy 0) as [c r]. destruct Hs as (Hc & Hr' & E').
  { pose proof (wf_cell m (ap + i) Hw). unfold is_limb in *. lia. }
  rewrite aset_in by vec_bounds. cbn [mbind option_bind].
  eapply returns_mono.
  - apply IH; [lia|lia| | |lia].
    + eapply modifies_upd; [exact Hm|unfold valid in *; lia..|done].
    + split; [by apply is_limb_bit|]. rewrite num_upd_at by vec_bounds.
      rewrite num_succ, base_succ by lia. nia.
  - intros [[m2 j] c'] (? & ? & ? & ? & ?). split_and!; try done; lia.
Qed.

Lemma add_1_spec b : is_limb b -> returns (add_1 m rp ap n b) (fun '(m', cy) =>
  modifies rp n m m' /\ is_limb cy /\ (cy <= 1 \/ n = 0) /\ num m' rp n + base ^ n * cy = num m ap n + b).
Proof.
  intros Hb. unfold add_1. eapply returns_bind.
  - apply (add_1_loop_spec b); [unfold valid in *; lia|lia|by apply modifies_refl| |by right].
    split; [done|]. rewrite !num_0. lia.
  - intros [[m1 i] cy] (Hi & Hz & Hm & [Hcy E] & Hc1). eapply returns_bind.
    + apply finish_rest; [done|lia].
    + intros m2 [Hm2 Ev]. apply returns_ret. split; [done|]. split; [done|].
      split; [destruct Hc1, Hz; try subst; unfold valid in *; lia|].
      rewrite Ev, (num_split_at m ap i n), (base_split i n) by lia.
      destruct Hz as [-> | ->]; [rewrite Z.sub_diag, num_0; lia|lia].
Qed.

Lemma sub_1_loop_spec b : forall k i m1 cy, Z.of_nat k = n - i -> 0 <= i -> modifies rp i m m1 ->
  carry_inv (-1) b i (num m1 rp i) cy -> (cy <= 1 \/ i = 0) ->
  returns (sub_1_loop m1 rp ap i cy k) (fun '(m2, j, c) =>
    i <= j <= n /\ (j = n \/ c = 0) /\ modifies rp j m m2 /\ carry_inv (-1) b j (num m2 rp j) c /\ (c <= 1 \/ j = 0)).
Proof.
  induction k as [|k IH]; intros i m1 cy Hk Hi Hm [Hcy E] Hc1; cbn [sub_1_loop].
  { apply returns_ret. split_and!; try done; lia. }
  destruct (Z.eqb_spec cy 0) as [->|Hnz].
  { apply returns_ret. split_and!; try done; lia. }
  rewrite (modifies_read_up _ _ n _ _ _ Hm Fa Ha) by lia. cbn [mbind option_bind].
  pose proof (subb_spec (cell m (ap + i)) cy 0 (wf_cell _ _ Hw) Hcy is_limb_0) as Hs.
  destruct (subb (cell m (ap + i)) cy 0) as [c r]. destruct Hs as (Hc & Hr' & E').
  { pose proof (wf_cell m (ap + i) Hw). unfold is_limb in *. lia. }
  rewrite aset_in by vec_bounds. cbn [mbind option_bind].
  eapply returns_mono.
  - apply IH; [lia|lia| | |lia].
    + eapply modifies_upd; [exact Hm|unfold valid in *; lia..|done].
    + split; [by apply is_limb_bit|]. rewrite num_upd_at by vec_bounds.
      rewrite num_succ, base_succ by lia. nia.
  - intros [[m2 j] c'] (? & ? & ? & ? & ?). split_and!; try done; lia.
Qed.

Lemma sub_1_spec b : is_limb b -> returns (sub_1 m rp ap n b) (fun '(m', bw) =>
  modifies rp n m m' /\ is_limb bw /\ (bw <= 1 \/ n = 0) /\ num m' rp n - base ^ n * bw = num m ap n - b).
Proof.
  intros Hb. unfold sub_1. eapply returns_bind.
  - apply (sub_1_loop_spec b); [unfold valid in *; lia|lia|by apply modifies_refl| |by right].
    split; [done|]. rewrite !num_0. lia.
  - intros [[m1 i] cy] (Hi & Hz & Hm & [Hcy E] & Hc1). eapply returns_bind.
    + apply finish_rest; [done|lia].
    + intros m2 [Hm2 Ev]. apply returns_ret. split; [done|]. split; [done|].
      split; [destruct Hc1, Hz; try subst; unfold valid in *; lia|].
      rewrite Ev, (num_split_at m ap i n), (base_split i n) by lia.
      destruct Hz as [-> | ->]; [rewrite Z.sub_diag, num_0; lia|lia].
Qed.
End single.

(** ** The exported routines *)

Section exported.
Context (m : mem) (rp ap bp n : Z).
Context (Hw : wf m) (Hr : valid m rp n) (Ha : valid m ap n) (Hb : valid m bp n).
Context (Fa : fwd rp ap n) (Fb : fwd rp bp n).

Lemma add_n_spec : returns (add_n m rp ap bp n) (fun '(m', cy) =>
  modifies rp n m m' /\ 0 <= cy <= 1 /\ num m' rp n + base ^ n * cy = num m ap n + num m bp n).
Proof.
  eapply returns_mono; [apply (add_loop_spec m rp ap bp n 1) with (f := id); try done; intros; unfold id; lia|].
  intros [m' cy] (? & ? & ?). split_and!; done || lia.
Qed.

Lemma sub_n_spec : returns (sub_n m rp ap bp n) (fun '(m', bw) =>
  modifies rp n m m' /\ 0 <= bw <= 1 /\ num m' rp n - base ^ n * bw = num m ap n - num m bp n).
Proof.
  eapply returns_mono; [apply (sub_loop_spec m rp ap bp n 1) with (f := id); try done; intros; unfold id; lia|].
  intros [m' cy] (? & ? & ?). split_and!; done || lia.
Qed.

Definition cnd_bit (cnd : Z) : Z := if Z.eqb cnd 0 then 0 else 1.

Lemma cnd_add_n_spec cnd : returns (cnd_add_n cnd m rp ap bp n) (fun '(m', cy) =>
  modifies rp n m m' /\ 0 <= cy <= 1 /\
  num m' rp n + base ^ n * cy = num m ap n + cnd_bit cnd * num m bp n).
Proof.
  apply (add_loop_spec m rp ap bp n (cnd_bit cnd)); try done.
  - unfold cnd_bit. destruct (Z.eqb cnd 0); lia.
  - intros y Hy. rewrite land_mask by done. unfold cnd_bit. by destruct (Z.eqb cnd 0).
Qed.

Lemma cnd_sub_n_spec cnd : returns (cnd_sub_n cnd m rp ap bp n) (fun '(m', bw) =>
  modifies rp n m m' /\ 0 <= bw <= 1 /\
  num m' rp n - base ^ n * bw = num m ap n - cnd_bit cnd * num m bp n).
Proof.
  apply (sub_loop_spec m rp ap bp n (cnd_bit cnd)); try done.
  - unfold cnd_bit. destruct (Z.eqb cnd 0); lia.
  - intros y Hy. rewrite land_mask by done. unfold cnd_bit. by destruct (Z.eqb cnd 0).
Qed.
End exported.

Section different_lengths.
Context (m : mem) (rp ap bp an bn : Z).
Context (Hw : wf m) (Hr : valid m rp an) (Ha : valid m ap an) (Hb : valid m bp bn) (Hn : bn <= an).
Context (Fa : fwd rp ap an) (Fb : fwd rp bp bn).

Lemma add_var_spec : returns (add m rp ap an bp bn) (fun '(m', cy) =>
  modifies rp an m m' /\ 0 <= cy <= 1 /\ num m' rp an + base ^ an * cy = num m ap an + num m bp bn).
Proof.
  unfold add. eapply returns_bind; [apply add_n_spec; try done; vec_bounds|].
  intros [m1 cy] (Hm & Hcy & E). destruct (Z.eqb_spec an bn) as [->|Hne].
  { apply returns_ret. split; [done|by split]. }
  eapply returns_mono.
  - apply (add_1_spec m1 (rp + bn) (ap + bn) (an - bn)); [by eapply modifies_wf|vec_bounds..|by apply is_limb_bit].
  - intros [m2 c2] (Hm2 & Hc2 & Hc1 & E2). split_and!.
    + eapply modifies_trans; eapply modifies_mono; [exact Hm| | |exact Hm2| |]; vec_bounds.
    + unfold is_limb in Hc2. lia.
    + unfold is_limb in Hc2. vec_bounds.
    + rewrite (num_split_at m2 rp bn), (num_split_at m ap bn), (base_split bn an) by vec_bounds.
      rewrite (modifies_num _ _ _ _ rp bn Hm2) by vec_bounds.
      rewrite (modifies_num _ _ _ _ (ap + bn) (an - bn) Hm) in E2 by vec_bounds. nia.
Qed.

Lemma sub_var_spec : returns (sub m rp ap an bp bn) (fun '(m', bw) =>
  modifies rp an m m' /\ 0 <= bw <= 1 /\ num m' rp an - base ^ an * bw = num m ap an - num m bp bn).
Proof.
  unfold sub. eapply returns_bind; [apply sub_n_spec; try done; vec_bounds|].
  intros [m1 cy] (Hm & Hcy & E). destruct (Z.eqb_spec an bn) as [->|Hne].
  { apply returns_ret. split; [done|by split]. }
  eapply returns_mono.
  - apply (sub_1_spec m1 (rp + bn) (ap + bn) (an - bn)); [by eapply modifies_wf|vec_bounds..|by apply is_limb_bit].
  - intros [m2 c2] (Hm2 & Hc2 & Hc1 & E2). split_and!.
    + eapply modifies_trans; eapply modifies_mono; [exact Hm| | |exact Hm2| |]; vec_bounds.
    + unfold is_limb in Hc2. lia.
    + unfold is_limb in Hc2. vec_bounds.
    + rewrite (num_split_at m2 rp bn), (num_split_at m ap bn), (base_split bn an) by vec_bounds.
      rewrite (modifies_num _ _ _ _ rp bn Hm2) by vec_bounds.
      rewrite (modifies_num _ _ _ _ (ap + bn) (an - bn) Hm) in E2 by vec_bounds. nia.
Qed.
End different_lengths.

(** ** Complement and negation *)

Lemma limb_not_eq x : is_limb x -> limb_not x = base - 1 - x.
Proof.
  intros Hx. apply (to_limb_unique _ _ (-1)); [unfold is_limb in *; lia|].
  pose proof (Z.add_lnot_diag x). lia.
Qed.

Lemma limb_not_limb x : is_limb x -> is_limb (limb_not x).
Proof. intros. apply to_limb_range. Qed.

Section unary.
Context (m : mem) (rp ap n : Z).
Context (Hw : wf m) (Hr : valid m rp n) (Ha : valid m ap n) (Fa : fwd rp ap n).

(** Complementing from limb [i] on turns a value [i] limbs below a power of the
    base into one [n] limbs below it. *)
Lemma com_from_spec m1 i d : modifies rp i m m1 -> 0 <= i <= n ->
  num m1 rp i = base ^ i - num m ap i - d ->
  returns (com_from m1 rp ap i n) (fun m2 =>
    modifies rp n m m2 /\ num m2 rp n = base ^ n - num m ap n - d).
Proof.
  intros Hm Hi E. eapply returns_mono.
  - apply (returns_map_up rp n m1 _ (fun j v => v = base ^ j - num m ap j - d) i);
      [by eapply modifies_wf|vec_bounds|done|done|].
    intros j m2 Hj Hm2 Ev. assert (modifies rp j m m2) as Hm3.
    { eapply modifies_trans; [eapply modifies_mono; [exact Hm|lia..]|done]. }
    rewrite (modifies_read_up _ _ n _ _ _ Hm3 Fa Ha) by lia.
    exists (limb_not (cell m (ap + j))). cbn [mbind option_bind]. rewrite aset_in by vec_bounds.
    split; [done|]. split; [by apply limb_not_limb, wf_cell|].
    rewrite Ev, limb_not_eq by (by apply wf_cell). rewrite num_succ, base_succ by lia. ring.
  - cbn beta. intros m2 [Hm2 Ev]. split; [|done].
    eapply modifies_trans; [eapply modifies_mono; [exact Hm|lia..]|done].
Qed.

Lemma com_spec : returns (com m rp ap n) (fun m' =>
  modifies rp n m m' /\ num m' rp n = base ^ n - 1 - num m ap n).
Proof.
  eapply returns_mono.
  - apply (com_from_spec m 0 1); [by apply modifies_refl|unfold valid in *; lia|].
    rewrite !num_0. done.
  - intros m2 [? ?]. split; [done|lia].
Qed.

Lemma neg_loop_spec : forall k i m1, Z.of_nat k = n - i -> 0 <= i -> modifies rp i m m1 ->
  num m1 rp i = 0 -> num m ap i = 0 ->
  returns (neg_loop m1 rp ap n i k) (fun '(m2, b) =>
    modifies rp n m m2 /\ b = (if Z.eqb (num m ap n) 0 then 0 else 1) /\
    num m2 rp n = base ^ n * b - num m ap n).
Proof.
  induction k as [|k IH]; intros i m1 Hk Hi Hm E0 Ea; cbn [neg_loop].
  { apply returns_ret. replace i with n in * by lia. rewrite Ea. cbn. split_and!; done || lia. }
  rewrite (modifies_read_up _ _ n _ _ _ Hm Fa Ha) by lia. cbn [mbind option_bind].
  pose proof (wf_cell m (ap + i) Hw) as Hc. pose proof (base_pow_pos i Hi) as Hp.
  destruct (Z.eqb_spec (cell m (ap + i)) 0) as [Ez|Hnz]; cbn [negb];
    rewrite aset_in by vec_bounds; cbn [mbind option_bind].
  - apply IH; [lia|lia|eapply modifies_upd; [exact Hm|unfold valid in *; lia..|apply is_limb_0]|..].
    + rewrite num_upd_at by vec_bounds. lia.
    + rewrite num_succ by lia. rewrite Ez. lia.
  - rewrite limb_not_eq by done. unfold is_limb in Hc.
    rewrite to_limb_id by (unfold is_limb; lia). eapply returns_bind.
    + apply (com_from_spec _ (i + 1) 0); [|lia|].
      * eapply modifies_upd; [exact Hm|unfold valid, is_limb in *; lia..].
      * rewrite num_upd_at by vec_bounds. rewrite num_succ, base_succ by lia. rewrite E0, Ea. ring.
    + intros m2 [Hm2 Ev]. apply returns_ret. split; [done|].
      assert (num m ap n <> 0) as Hne.
      { rewrite (num_split_at m ap (i + 1)), num_succ by lia.
        pose proof (num_range m (ap + (i + 1)) (n - (i + 1)) Hw). pose proof (base_pow_pos (i + 1)). nia. }
      apply Z.eqb_neq in Hne. rewrite Hne. split; [done|lia].
Qed.

Lemma neg_spec : returns (neg m rp ap n) (fun '(m', b) =>
    modifies rp n m m' /\ b = (if Z.eqb (num m ap n) 0 then 0 else 1) /\
    num m' rp n = base ^ n * b - num m ap n).
Proof. apply neg_loop_spec; [unfold valid in *; lia|lia|by apply modifies_refl|done..]. Qed.

(** ** Multiply by a limb *)

Lemma mul_1_spec b : is_limb b -> returns (mul_1 m rp ap n b) (fun '(m', cy) =>
  modifies rp n m m' /\ is_limb cy /\ num m' rp n + base ^ n * cy = num m ap n * b).
Proof.
  intros Hb. apply (returns_store_up rp n m 0 _ (fun i v c =>
    is_limb c /\ v + base ^ i * c = num m ap i * b)); [done|done| |].
  { rewrite !num_0. split; [apply is_limb_0|lia]. }
  intros i m1 c Hi Hm [Hc E].
  rewrite (modifies_read_up _ _ n _ _ _ Hm Fa Ha Hi).
  pose proof (muladd_wide_spec (cell m (ap + i)) b c (wf_cell _ _ Hw) Hb Hc) as Hs.
  cbn [mbind option_bind].
  destruct (muladd_wide (cell m (ap + i)) b c) as [lo hi]. destruct Hs as (Hl & Hh & E').
  exists lo, hi. rewrite aset_in by vec_bounds. split; [done|]. split; [done|].
  split; [done|]. rewrite !num_succ, base_succ by lia. nia.
Qed.

(** The destination is also an operand: the limbs not yet reached still hold the
    old value. *)
Lemma modifies_read_next m1 i : modifies rp i m m1 -> 0 <= i < n ->
  m1.[rp + i] = Some (cell m (rp + i)).
Proof.
  intros Hm Hi. rewrite (modifies_out _ _ _ _ _ Hm) by lia. apply get_cell. vec_bounds.
Qed.

Lemma addmul_1_spec b : is_limb b -> returns (addmul_1 m rp ap n b) (fun '(m', cy) =>
  modifies rp n m m' /\ is_limb cy /\
  num m' rp n + base ^ n * cy = num m rp n + num m ap n * b).
Proof.
  intros Hb. apply (returns_store_up rp n m 0 _ (fun i v c =>
    is_limb c /\ v + base ^ i * c = num m rp i + num m ap i * b)); [done|done| |].
  { rewrite !num_0. split; [apply is_limb_0|lia]. }
  intros i m1 c Hi Hm [Hc E].
  rewrite (modifies_read_up _ _ n _ _ _ Hm Fa Ha Hi), (modifies_read_next _ _ Hm Hi).
  pose proof (muladd2_wide_spec (cell m (ap + i)) b c (cell m (rp + i)) (wf_cell _ _ Hw) Hb Hc (wf_cell _ _ Hw)) as Hs.
  cbn [mbind option_bind].
  destruct (muladd2_wide (cell m (ap + i)) b c _) as [lo hi]. destruct Hs as (Hl & Hh & E').
  exists lo, hi. rewrite aset_in by vec_bounds. split; [done|]. split; [done|].
  split; [done|]. rewrite !num_succ, base_succ by lia. nia.
Qed.

Lemma submul_1_spec b : is_limb b -> returns (submul_1 m rp ap n b) (fun '(m', cy) =>
  modifies rp n m m' /\ is_limb cy /\
  num m' rp n - base ^ n * cy = num m rp n - num m ap n * b).
Proof.
  intros Hb. apply (returns_store_up rp n m 0 _ (fun i v c =>
    is_limb c /\ v - base ^ i * c = num m rp i - num m ap i * b)); [done|done| |].
  { rewrite !num_0. split; [apply is_limb_0|lia]. }
  intros i m1 c Hi Hm [Hc E].
  rewrite (modifies_read_up _ _ n _ _ _ Hm Fa Ha Hi).
  pose proof (wf_cell m (ap + i) Hw) as Hx. pose proof (wf_cell m (rp + i) Hw) as Hy.
  pose proof (muladd_wide_spec (cell m (ap + i)) b c Hx Hb Hc) as Hs. cbn [mbind option_bind].
  destruct (muladd_wide (cell m (ap + i)) b c) as [lo hi]. destruct Hs as (Hl & Hh & E').
  rewrite (modifies_read_next _ _ Hm Hi). cbn [mbind option_bind].
  destruct (subb_bit (cell m (rp + i)) lo 0) as (bw & d & -> & Hbw & Hd & E2); [done|done|lia|].
  rewrite aset_in by vec_bounds. exists d, (hi + bw). rewrite to_limb_id.
  - split; [done|]. split; [done|]. split.
    + pose proof (limb_mul_bound _ _ Hx Hb). unfold is_limb in *. nia.
    + rewrite !num_succ, base_succ by lia. nia.
  - pose proof (limb_mul_bound _ _ Hx Hb). unfold is_limb in *. nia.
Qed.
End unary.
End arith.
