(* ===== verification/MpnBits.v ===== *)
(** Correctness of the shifts, compares, bitwise routines and queries on limb
    vectors. *)
From stdpp Require Import base numbers list option.
From Stdlib Require Import ZArith Lia.
From S2P Require Import Prelude Arrays Limb Mpn MpnValue MpnArith.

Local Open Scope Z_scope.

Section shifts.
Context `{LimbWidth}.

(** Splitting a limb at bit w - c. *)
Lemma shift_limb x c : is_limb x -> 0 < c < limb_bits ->
  exists q, limb_shl x c = Some (q * 2 ^ c) /\ is_limb (q * 2 ^ c) /\
  limb_shr x (limb_bits - c) = Some (Z.shiftr x (limb_bits - c)) /\
  0 <= Z.shiftr x (limb_bits - c) < 2 ^ c /\
  x * 2 ^ c = q * 2 ^ c + base * Z.shiftr x (limb_bits - c) /\ 0 <= q < 2 ^ (limb_bits - c).
Proof.
  intros Hx Hc. unfold limb_shl, limb_shr. rewrite !decide_True by lia.
  rewrite Z.shiftl_mul_pow2, Z.shiftr_div_pow2 by lia.
  assert (base = 2 ^ (limb_bits - c) * 2 ^ c) as HB.
  { unfold base. rewrite <- Z.pow_add_r by lia. f_equal. lia. }
  set (h := 2 ^ (limb_bits - c)) in *. set (p := 2 ^ c) in *.
  assert (0 < h) by (apply Z.pow_pos_nonneg; lia). assert (0 < p) by (apply Z.pow_pos_nonneg; lia).
  pose proof (Z.div_mod x h ltac:(lia)). pose proof (Z.mod_pos_bound x h ltac:(lia)).
  unfold is_limb in Hx. exists (x mod h).
  assert (is_limb (x mod h * p)) as Hl by (unfold is_limb; nia).
  rewrite (to_limb_unique (x * p) (x mod h * p) (x / h)) by (done || nia).
  assert (0 <= x / h < p) by (split; [apply Z.div_pos; lia|apply Z.div_lt_upper_bound; lia]).
  split_and!; try done; try lia; try apply Hl.
Qed.

Definition hi_part (c x : Z) : Z := Z.shiftr x (limb_bits - c).
Definition lo_part (c x : Z) : Z := to_limb (Z.shiftl x c).

Lemma limb_parts c x y : is_limb x -> is_limb y -> 0 < c < limb_bits ->
  limb_shl x c = Some (lo_part c x) /\ limb_shr x (limb_bits - c) = Some (hi_part c x) /\
  is_limb (lo_part c x) /\ 0 <= hi_part c x < 2 ^ c /\
  x * 2 ^ c = lo_part c x + base * hi_part c x /\
  is_limb (lo_part c x + hi_part c y) /\ Z.lor (lo_part c x) (hi_part c y) = lo_part c x + hi_part c y.
Proof.
  intros Hx Hy Hcc. destruct (shift_limb x c Hx Hcc) as (q & E1 & L1 & E2 & R2 & E3 & Q1).
  destruct (shift_limb y c Hy Hcc) as (q' & _ & _ & _ & R2' & _ & _).
  assert (lo_part c x = q * 2 ^ c) as El.
  { unfold limb_shl in E1. rewrite decide_True in E1 by lia. by simplify_eq. }
  rewrite El. fold (hi_part c x) in *. fold (hi_part c y) in *.
  assert (base = 2 ^ (limb_bits - c) * 2 ^ c) as HB.
  { unfold base. rewrite <- Z.pow_add_r by lia. f_equal. lia. }
  assert (is_limb (q * 2 ^ c + hi_part c y)) as Hs by (unfold is_limb; nia).
  split_and!; try done; try lia; try apply L1; try apply Hs.
  apply lor_high_low; lia.
Qed.

Section vectors.
Context (m : mem) (rp ap n cnt : Z).
Context (Hw : wf m) (Hr : valid m rp n) (Ha : valid m ap n) (Hc : 0 < cnt < limb_bits).

Lemma parts_at c i j : 0 < c < limb_bits ->
  let x := cell m (ap + i) in let y := cell m (ap + j) in
  limb_shl x c = Some (lo_part c x) /\ limb_shr x (limb_bits - c) = Some (hi_part c x) /\
  is_limb (lo_part c x) /\ 0 <= hi_part c x < 2 ^ c /\
  x * 2 ^ c = lo_part c x + base * hi_part c x /\
  is_limb (lo_part c x + hi_part c y) /\ Z.lor (lo_part c x) (hi_part c y) = lo_part c x + hi_part c y.
Proof. intros. by apply limb_parts; try apply wf_cell. Qed.

(** What is written above limb [i], the pending low part of limb [i] and the limbs
    below it still make up the shifted value. *)
Definition lshift_inv (i : Z) (s : mem * Z) : Prop :=
  let '(m', high) := s in
  high = cell m (ap + i) /\ modifies (rp + i + 1) (n - 1 - i) m m' /\
  num m ap n * 2 ^ cnt = base ^ n * hi_part cnt (cell m (ap + (n - 1))) +
    base ^ i * (lo_part cnt (cell m (ap + i)) + base * num m' (rp + i + 1) (n - 1 - i)) +
    num m ap i * 2 ^ cnt.

Lemma lshift_init : 1 <= n -> lshift_inv (n - 1) (m, cell m (ap + (n - 1))).
Proof.
  intros Hn. split; [done|]. rewrite Z.sub_diag. split; [by apply modifies_refl|]. rewrite num_0.
  destruct (parts_at cnt (n - 1) 0 Hc) as (_ & _ & _ & _ & E & _).
  rewrite (num_split_at m ap (n - 1) n), (base_split (n - 1) n) by lia.
  replace (n - (n - 1)) with 1 by lia. rewrite num_1, Z.pow_1_r. nia.
Qed.

Lemma lshift_inv_step i m1 : 0 <= i < n - 1 -> lshift_inv (i + 1) (m1, cell m (ap + (i + 1))) ->
  lshift_inv i (upd m1 (rp + (i + 1)) (lo_part cnt (cell m (ap + (i + 1))) + hi_part cnt (cell m (ap + i))),
    cell m (ap + i)).
Proof.
  intros Hi (_ & Hm1 & E).
  destruct (parts_at cnt (i + 1) i Hc) as (_ & _ & _ & _ & _ & Hlimb & _).
  destruct (parts_at cnt i i Hc) as (_ & _ & _ & _ & Ek & _).
  split; [done|]. split; [eapply modifies_upd_gen; [exact Hm1|vec_bounds..|done]|].
  rewrite E. replace (rp + (i + 1)) with (rp + i + 1) in * by lia.
  rewrite num_upd_low by vec_bounds. replace (n - 1 - i - 1) with (n - 1 - (i + 1)) by lia.
  rewrite num_succ, base_succ by lia. nia.
Qed.

(** Left shift: the result and the bits shifted out are the vector times 2^cnt. *)
Lemma lshift_spec : 1 <= n -> bwd rp ap n -> returns (lshift m rp ap n cnt) (fun '(m', ret) =>
  modifies rp n m m' /\ 0 <= ret < 2 ^ cnt /\ num m' rp n + base ^ n * ret = num m ap n * 2 ^ cnt).
Proof.
  intros Hn Fa. unfold lshift, __portable.lshift. rewrite (proj2 (Z.eqb_neq n 0)) by lia.
  rewrite get_cell by vec_bounds. cbn [mbind option_bind].
  destruct (parts_at cnt (n - 1) 0 Hc) as (_ & -> & _ & Hret & _). cbn [mbind option_bind].
  eapply returns_bind.
  - apply (returns_for_down _ _ _ lshift_inv (lshift_inv 0)); [lia|by apply lshift_init| |done].
    intros k [m1 high] Hk Hinv. pose proof Hinv as (-> & Hm1 & E). cbn beta iota zeta.
    replace (k + 1 - 1) with k by lia.
    rewrite (modifies_out _ _ _ _ _ Hm1), get_cell by vec_bounds. cbn [mbind option_bind].
    destruct (parts_at cnt (k + 1) k Hc) as (-> & _ & _ & _ & _ & _ & Hlor).
    destruct (parts_at cnt k k Hc) as (_ & -> & _). cbn [mbind option_bind]. rewrite Hlor.
    apply returns_set; [vec_bounds|]. apply returns_ret. by apply lshift_inv_step.
  - intros [m1 high] (-> & Hm1 & E).
    destruct (parts_at cnt 0 0 Hc) as (-> & _ & Hlo & _). cbn [mbind option_bind].
    apply returns_set; [vec_bounds|]. apply returns_ret. split; [|split; [done|]].
    + eapply modifies_upd_gen; [exact Hm1|vec_bounds..|done].
    + rewrite num_upd_low by vec_bounds. rewrite E, num_0, Z.pow_0_r.
      replace (rp + 0 + 1) with (rp + 1) by lia. replace (n - 1 - 0) with (n - 1) by lia. lia.
Qed.

(** Right shift: the dual of the left shift by w - cnt into one more limb. *)
Definition rshift_inv (ret i : Z) (s : mem * Z) : Prop :=
  let '(m', low) := s in
  low = cell m (ap + i) /\ modifies rp i m m' /\
  num m ap (i + 1) * 2 ^ (limb_bits - cnt) =
    ret + base * (num m' rp i + base ^ i * hi_part (limb_bits - cnt) (cell m (ap + i))).

Lemma rshift_spec_raw : 1 <= n -> fwd rp ap n -> returns (rshift m rp ap n cnt) (fun '(m', ret) =>
  modifies rp n m m' /\ is_limb ret /\ num m ap n * 2 ^ (limb_bits - cnt) = ret + base * num m' rp n).
Proof.
  intros Hn Fa. unfold rshift, __portable.rshift. rewrite (proj2 (Z.eqb_neq n 0)) by lia.
  replace (m.[ap]) with (m.[ap + 0]) by (f_equal; lia).
  rewrite get_cell by vec_bounds. cbn [mbind option_bind].
  assert (0 < limb_bits - cnt < limb_bits) as Hc' by lia.
  pose proof (fun i j => parts_at (limb_bits - cnt) i j Hc') as HP. cbv zeta in HP.
  replace (limb_bits - (limb_bits - cnt)) with cnt in HP by lia.
  destruct (HP 0 0) as (-> & _ & Hret & _ & E0 & _). cbn [mbind option_bind].
  eapply returns_bind.
  - apply (returns_for _ _ _ _ (rshift_inv (lo_part (limb_bits - cnt) (cell m (ap + 0))))
      (rshift_inv (lo_part (limb_bits - cnt) (cell m (ap + 0))) (n - 1))); [lia| | |done].
    + split; [done|]. split; [by apply modifies_refl|]. rewrite num_succ, !num_0, Z.pow_0_r by lia. lia.
    + intros i [m1 low] Hi (-> & Hm1 & E). cbn beta iota zeta.
      rewrite (modifies_out _ _ _ _ _ Hm1), get_cell by vec_bounds. cbn [mbind option_bind].
      destruct (HP i i) as (_ & -> & _). destruct (HP (i + 1) i) as (-> & _ & _ & _ & E1 & Hlimb & Hlor).
      cbn [mbind option_bind]. rewrite Z.lor_comm, Hlor. apply returns_set; [vec_bounds|].
      apply returns_ret. split; [done|]. split; [eapply modifies_upd; [exact Hm1|vec_bounds..|done]|].
      rewrite num_upd_at by vec_bounds. rewrite (num_succ m ap (i + 1)), base_succ by lia. nia.
  - intros [m1 low] (-> & Hm1 & E). destruct (HP (n - 1) 0) as (_ & -> & _ & Hhi & _).
    cbn [mbind option_bind]. apply returns_set; [vec_bounds|]. apply returns_ret.
    assert (is_limb (hi_part (limb_bits - cnt) (cell m (ap + (n - 1))))) as Hl.
    { unfold is_limb. split; [lia|]. etrans; [apply Hhi|]. apply Z.pow_lt_mono_r; lia. }
    replace (n - 1 + 1) with n in E by lia. split; [|split; [done|]].
    + eapply modifies_upd; [exact Hm1|vec_bounds..|done].
    + rewrite E, <- num_upd_at by vec_bounds. by replace (n - 1 + 1) with n by lia.
Qed.

Lemma rshift_spec : 1 <= n -> fwd rp ap n -> returns (rshift m rp ap n cnt) (fun '(m', ret) =>
  modifies rp n m m' /\ num m' rp n = num m ap n / 2 ^ cnt /\
  ret = num m ap n mod 2 ^ cnt * 2 ^ (limb_bits - cnt)).
Proof.
  intros Hn Fa. eapply returns_mono; [by apply rshift_spec_raw|].
  intros [m' ret] (Hm & Hret & E). split; [done|].
  assert (base = 2 ^ cnt * 2 ^ (limb_bits - cnt)) as HB.
  { unfold base. rewrite <- Z.pow_add_r by lia. f_equal. lia. }
  set (q := 2 ^ (limb_bits - cnt)) in *. set (c := 2 ^ cnt) in *.
  assert (0 < q) by (apply Z.pow_pos_nonneg; lia). assert (0 < c) by (apply Z.pow_pos_nonneg; lia).
  assert (ret = (num m ap n - c * num m' rp n) * q) as Er by (rewrite HB in E; lia).
  unfold is_limb in Hret. rewrite HB in Hret.
  assert (num m' rp n = num m ap n / c) as Eq.
  { apply (Z.div_unique _ _ _ (num m ap n - c * num m' rp n)); [|lia]. left. nia. }
  split; [done|]. rewrite Er, Eq. f_equal. pose proof (Z.div_mod (num m ap n) c ltac:(lia)). lia.
Qed.
End vectors.
End shifts.

(** ** Compares *)

Definition sign_of (c : comparison) : Z := match c with Lt => -1 | Eq => 0 | Gt => 1 end.

Section compares.
Context `{LimbWidth}.
Implicit Types (m : mem) (p n ap bp : Z).

(** The top limbs decide, unless they are equal. *)
Lemma compare_top m ap bp n : wf m -> 0 <= n ->
  (num m ap (n + 1) ?= num m bp (n + 1)) =
    match cell m (ap + n) ?= cell m (bp + n) with Eq => num m ap n ?= num m bp n | c => c end.
Proof.
  intros Hw Hn. rewrite !num_succ by done.
  pose proof (num_range m ap n Hw Hn). pose proof (num_range m bp n Hw Hn).
  destruct (Z.compare_spec (cell m (ap + n)) (cell m (bp + n))) as [E|L|L].
  - rewrite E. destruct (Z.compare_spec (num m ap n) (num m bp n)) as [E'|L|L].
    + rewrite E'. apply Z.compare_refl.
    + apply Z.compare_lt_iff. lia.
    + apply Z.compare_gt_iff. lia.
  - apply Z.compare_lt_iff. nia.
  - apply Z.compare_gt_iff. nia.
Qed.

Lemma cmp_loop_spec m ap bp k : wf m -> valid m ap (Z.of_nat k) -> valid m bp (Z.of_nat k) ->
  cmp_loop m ap bp k = Some (sign_of (num m ap (Z.of_nat k) ?= num m bp (Z.of_nat k))).
Proof.
  intros Hw. induction k as [|k IH]; intros Ha Hb; [done|]. cbn [cmp_loop].
  rewrite !get_cell by vec_bounds. cbn [mbind option_bind].
  rewrite Nat2Z.inj_succ. unfold Z.succ. rewrite compare_top by (done || lia).
  destruct (Z.eqb_spec (cell m (ap + Z.of_nat k)) (cell m (bp + Z.of_nat k))) as [E|E]; cbn [negb].
  - rewrite E, Z.compare_refl. apply IH; vec_bounds.
  - unfold Z.ltb. destruct (Z.compare_spec (cell m (ap + Z.of_nat k)) (cell m (bp + Z.of_nat k))); [by exfalso|done..].
Qed.

Lemma cmp_spec m ap bp n : wf m -> valid m ap n -> valid m bp n ->
  cmp m ap bp n = Some (sign_of (num m ap n ?= num m bp n)).
Proof.
  intros Hw Ha Hb. assert (0 <= n) by apply Ha. unfold cmp. rewrite cmp_loop_spec; rewrite ?Z2Nat.id by done; done.
Qed.

Definition normalized m p n : Prop := n = 0 \/ cell m (p + (n - 1)) <> 0.

Lemma normalized_range m p n : wf m -> 1 <= n -> normalized m p n -> base ^ (n - 1) <= num m p n.
Proof.
  intros Hw Hn [->|Ht]; [lia|]. pose proof (wf_cell m (p + (n - 1)) Hw) as Hc. unfold is_limb in Hc.
  replace n with (n - 1 + 1) at 2 by lia. rewrite num_succ by lia.
  pose proof (num_range m p (n - 1) Hw ltac:(lia)). pose proof (base_pow_pos (n - 1) ltac:(lia)). nia.
Qed.

Lemma normalized_shorter m p n q k : wf m -> 0 <= n < k -> normalized m q k -> num m p n < num m q k.
Proof.
  intros Hw Hn Hk. pose proof (num_range m p n Hw ltac:(lia)).
  pose proof (normalized_range m q k Hw ltac:(lia) Hk).
  assert (base ^ n <= base ^ (k - 1)) by (apply Z.pow_le_mono_r; [apply base_pos|lia]). lia.
Qed.

Lemma cmp_var_spec m ap an bp bn : wf m -> valid m ap an -> valid m bp bn ->
  normalized m ap an -> normalized m bp bn ->
  cmp_var m ap an bp bn = Some (sign_of (num m ap an ?= num m bp bn)).
Proof.
  intros Hw Ha Hb Na Nb. unfold cmp_var. destruct (Z.eqb_spec an bn) as [->|Hne]; cbn [negb].
  - by apply cmp_spec.
  - destruct (Z.ltb_spec an bn).
    + by rewrite (proj2 (Z.compare_lt_iff _ _)) by (apply normalized_shorter; [done|vec_bounds|done]).
    + by rewrite (proj2 (Z.compare_gt_iff _ _)) by (apply normalized_shorter; [done|vec_bounds|done]).
Qed.

Lemma is_zero_loop_spec m p n k i : wf m -> valid m p n -> Z.of_nat k = n - i -> 0 <= i -> num m p i = 0 ->
  is_zero_loop m p i k = Some (Z.eqb (num m p n) 0).
Proof.
  intros Hw Hp. revert i. induction k as [|k IH]; intros i Hk Hi E; cbn [is_zero_loop].
  { replace n with i by lia. by rewrite E. }
  rewrite get_cell by vec_bounds. cbn [mbind option_bind].
  destruct (Z.eqb_spec (cell m (p + i)) 0) as [Ez|Hnz]; cbn [negb].
  - apply IH; [lia|lia|]. rewrite num_succ, E, Ez by lia. lia.
  - symmetry. f_equal. apply Z.eqb_neq. rewrite (num_split_at m p (i + 1)), num_succ by lia.
    pose proof (wf_cell m (p + i) Hw) as Hc. unfold is_limb in Hc.
    pose proof (num_range m (p + (i + 1)) (n - (i + 1)) Hw ltac:(lia)).
    pose proof (base_pow_pos (i + 1) ltac:(lia)). pose proof (base_pow_pos i ltac:(lia)). nia.
Qed.

Lemma is_zero_spec m p n : wf m -> valid m p n -> is_zero m p n = Some (Z.eqb (num m p n) 0).
Proof. intros Hw Hp. apply is_zero_loop_spec; [done|done| |lia|done]. destruct Hp. lia. Qed.

Lemma normalize_loop_spec m p k : valid m p (Z.of_nat k) ->
  exists n, normalize_loop m p k = Some n /\ 0 <= n <= Z.of_nat k /\ normalized m p n /\
    num m p n = num m p (Z.of_nat k).
Proof.
  induction k as [|k IH]; intros Hp; cbn [normalize_loop].
  { exists 0. split_and!; try done. by left. }
  rewrite get_cell by vec_bounds. cbn [mbind option_bind].
  destruct (Z.eqb_spec (cell m (p + Z.of_nat k)) 0) as [E|E].
  - destruct IH as (n & -> & Hn & Hnorm & En); [vec_bounds|]. exists n. split; [done|].
    split; [lia|]. split; [done|]. rewrite Nat2Z.inj_succ. unfold Z.succ.
    rewrite num_succ, E, En by lia. lia.
  - eexists. split; [done|]. split; [lia|]. split; [|done]. right.
    by replace (Z.of_nat (S k) - 1) with (Z.of_nat k) by lia.
Qed.

Lemma normalize_spec m p n : valid m p n ->
  exists n', normalize m p n = Some n' /\ 0 <= n' <= n /\ normalized m p n' /\ num m p n' = num m p n.
Proof.
  intros Hp. assert (0 <= n) by apply Hp.
  pose proof (normalize_loop_spec m p (Z.to_nat n)) as Hs. rewrite Z2Nat.id in Hs by done. by apply Hs.
Qed.
End compares.

(** ** Bits of a vector *)

(** The bits of two numbers side by side. *)
Lemma testbit_cat k x y i : 0 <= k -> 0 <= x < 2 ^ k -> 0 <= i ->
  Z.testbit (x + 2 ^ k * y) i = if Z.ltb i k then Z.testbit x i else Z.testbit y (i - k).
Proof.
  intros Hk Hx Hi. replace (x + 2 ^ k * y) with (y * 2 ^ k + x) by lia.
  rewrite <- lor_high_low, Z.lor_spec by done. destruct (Z.ltb_spec i k).
  - by rewrite Z.mul_pow2_bits_low.
  - rewrite Z.mul_pow2_bits by done. replace (Z.testbit x i) with false; [apply orb_false_r|].
    symmetry. destruct (decide (x = 0)) as [->|]; [apply Z.bits_0|].
    apply Z.bits_above_log2; [lia|]. apply Z.log2_lt_pow2; [lia|].
    eapply Z.lt_le_trans; [apply Hx|]. apply Z.pow_le_mono_r; lia.
Qed.

Lemma popcount_double z b : 0 <= z -> 0 <= b <= 1 -> builtin_popcount (2 * z + b) = builtin_popcount z + b.
Proof.
  intros Hz Hb. assert (b = 0 \/ b = 1) as [-> | ->] by lia; destruct z as [|p|p]; try done; try lia.
  - replace (2 * Z.pos p + 0) with (Z.pos p~0) by lia. cbn [builtin_popcount pos_popcount]. lia.
  - replace (2 * Z.pos p + 1) with (Z.pos p~1) by lia. cbn [builtin_popcount pos_popcount]. lia.
Qed.

Lemma popcount_cat k x y : 0 <= k -> 0 <= x < 2 ^ k -> 0 <= y ->
  builtin_popcount (x + 2 ^ k * y) = builtin_popcount x + builtin_popcount y.
Proof.
  intros Hk. revert k Hk x. refine (natlike_ind _ _ _).
  - intros x Hx Hy. rewrite Z.pow_0_r in *. replace x with 0 by lia. cbn [builtin_popcount].
    rewrite !Z.add_0_l. f_equal. lia.
  - intros k Hk IH x Hx Hy. rewrite Z.pow_succ_r in * by done.
    pose proof (Z.div_mod x 2 ltac:(lia)) as Ex. pose proof (Z.mod_pos_bound x 2 ltac:(lia)).
    rewrite Ex at 2. rewrite popcount_double by lia.
    replace (x + 2 * 2 ^ k * y) with (2 * (x / 2 + 2 ^ k * y) + x mod 2) by lia.
    pose proof (Z.pow_pos_nonneg 2 k).
    rewrite popcount_double, IH by nia. lia.
Qed.

Lemma pos_ctz_spec p : 0 <= pos_ctz p /\ exists o, 0 <= o /\ Zpos p = 2 ^ pos_ctz p * (2 * o + 1).
Proof.
  induction p as [p _|p (Hp & o & Hop & Ho)|]; cbn [pos_ctz].
  - split; [done|]. exists (Zpos p). split; [done|]. rewrite Z.pow_0_r. lia.
  - split; [lia|]. exists o. split; [done|]. rewrite Z.pow_add_r, Z.pow_1_r, <- Z.mul_assoc, <- Ho by lia. lia.
  - split; [done|]. by exists 0.
Qed.

Section queries.
Context `{LimbWidth}.
Implicit Types (m : mem) (p n : Z).

Lemma limb_bits_gt : 0 < limb_bits.
Proof. pose proof limb_bits_pos. lia. Qed.

Lemma limb_bits_nonzero : limb_bits <> 0.
Proof. pose proof limb_bits_pos. lia. Qed.

Lemma base_pow2 n : 0 <= n -> base ^ n = 2 ^ (limb_bits * n).
Proof. intros. pose proof limb_bits_pos. unfold base. by rewrite <- Z.pow_mul_r by lia. Qed.

Lemma num_testbit m p n bit : wf m -> 0 <= bit < limb_bits * n ->
  Z.testbit (num m p n) bit = Z.testbit (cell m (p + bit / limb_bits)) (bit mod limb_bits).
Proof.
  intros Hw Hb. pose proof limb_bits_pos as HW.
  pose proof (Z.div_mod bit _ limb_bits_nonzero) as Ed.
  pose proof (Z.mod_pos_bound bit _ limb_bits_gt) as Hm. set (i := bit / limb_bits) in *.
  assert (0 <= i < n) as Hi by nia.
  rewrite (num_split_at m p i n), base_pow2 by lia.
  pose proof (num_range m p i Hw ltac:(lia)) as Hr. rewrite base_pow2 in Hr by lia.
  rewrite testbit_cat by lia. rewrite (proj2 (Z.ltb_ge _ _)) by lia.
  replace (bit - limb_bits * i) with (bit mod limb_bits) by lia.
  replace (n - i) with (n - i - 1 + 1) by lia. rewrite num_cons by lia.
  pose proof (wf_cell m (p + i) Hw). unfold base.
  rewrite testbit_cat by (done || lia). by rewrite (proj2 (Z.ltb_lt _ _)) by lia.
Qed.

Lemma testbit_spec m p n bit : wf m -> valid m p n -> 0 <= bit ->
  testbit m p n bit = Some (Z.testbit (num m p n) bit).
Proof.
  intros Hw Hp Hb. pose proof limb_bits_pos as HW. unfold testbit.
  pose proof (Z.div_mod bit _ limb_bits_nonzero) as Ed.
  pose proof (Z.mod_pos_bound bit _ limb_bits_gt) as Hm.
  assert (0 <= bit / limb_bits) by (apply Z.div_pos; lia).
  destruct (Z.leb_spec n (bit / limb_bits)) as [L|L].
  - f_equal. symmetry. pose proof (num_range m p n Hw ltac:(apply Hp)) as Hr.
    rewrite base_pow2 in Hr by apply Hp.
    destruct (decide (num m p n = 0)) as [->|]; [apply Z.bits_0|].
    apply Z.bits_above_log2; [lia|]. apply Z.log2_lt_pow2; [lia|].
    eapply Z.lt_le_trans; [apply Hr|]. apply Z.pow_le_mono_r; nia.
  - rewrite get_cell by vec_bounds. cbn [mbind option_bind]. unfold limb_shr.
    rewrite decide_True by lia. cbn [mbind option_bind]. f_equal. rewrite num_testbit by (done || nia).
    replace (Z.land (Z.shiftr (cell m (p + bit / limb_bits)) (bit mod limb_bits)) 1)
      with (Z.shiftr (cell m (p + bit / limb_bits)) (bit mod limb_bits) mod 2)
      by (symmetry; apply (Z.land_ones _ 1); lia).
    rewrite Z.testbit_eqb, Z.shiftr_div_pow2 by lia.
    pose proof (Z.mod_pos_bound (cell m (p + bit / limb_bits) / 2 ^ (bit mod limb_bits)) 2).
    destruct (Z.eqb_spec (cell m (p + bit / limb_bits) / 2 ^ (bit mod limb_bits) mod 2) 0) as [->|]; [done|].
    symmetry. apply Z.eqb_eq. lia.
Qed.

(** Number of bits of the value: 0 for zero, log2 + 1 otherwise. *)
Definition bit_length (z : Z) : Z := if Z.eqb z 0 then 0 else Z.log2 z + 1.

Lemma bitlen_spec m p n : wf m -> valid m p n -> bitlen m p n = Some (bit_length (num m p n)).
Proof.
  intros Hw Hp. pose proof limb_bits_pos as HW. unfold bitlen.
  destruct (normalize_spec m p n Hp) as (n' & -> & Hn & Hnorm & En). cbn [mbind option_bind]. rewrite <- En.
  destruct (Z.eqb_spec n' 0) as [->|Hnz]; [done|]. rewrite get_cell by vec_bounds. cbn [mbind option_bind].
  destruct Hnorm as [?|Ht]; [lia|]. pose proof (wf_cell m (p + (n' - 1)) Hw) as Hc. unfold is_limb in Hc.
  set (t := cell m (p + (n' - 1))) in *. f_equal.
  unfold limb_bitlen, limb_clz, countl_zero, builtin_clz. rewrite (proj2 (Z.eqb_neq t 0)) by done.
  assert (num m p n' = num m p (n' - 1) + base ^ (n' - 1) * t) as Et.
  { replace n' with (n' - 1 + 1) at 1 by lia. by rewrite num_succ by lia. }
  pose proof (num_range m p (n' - 1) Hw ltac:(lia)). pose proof (base_pow_pos (n' - 1) ltac:(lia)).
  pose proof (Z.log2_spec t ltac:(lia)) as [L1 L2]. rewrite Z.pow_succ_r in L2 by apply Z.log2_nonneg.
  unfold bit_length. rewrite (proj2 (Z.eqb_neq _ 0)) by nia.
  rewrite (Z.log2_unique (num m p n') (limb_bits * (n' - 1) + Z.log2 t)); [lia| |].
  - pose proof (Z.log2_nonneg t). nia.
  - pose proof (Z.log2_nonneg t). rewrite Z.pow_succ_r, Z.pow_add_r, <- base_pow2 by nia. nia.
Qed.

Lemma popcount_spec m p n : wf m -> valid m p n -> popcount m p n = Some (builtin_popcount (num m p n)).
Proof.
  intros Hw Hp. apply returns_eq. pose proof limb_bits_pos.
  apply (returns_for _ _ _ _ (fun i c => c = builtin_popcount (num m p i))); [apply Hp|done| |done].
  intros i c Hi ->. rewrite get_cell by vec_bounds. cbn [mbind option_bind]. apply returns_ret.
  pose proof (num_range m p i Hw ltac:(lia)) as Hr. rewrite base_pow2 in Hr by lia.
  pose proof (wf_cell m (p + i) Hw) as Hc. rewrite num_succ, base_pow2 by lia.
  by rewrite popcount_cat by (apply Hc || lia).
Qed.

(** The position of the lowest set bit, or the width of the vector. *)
Lemma scan1_loop_spec m p n k i : wf m -> valid m p n -> Z.of_nat k = n - i -> 0 <= i -> num m p i = 0 ->
  exists s, scan1_loop m p i n k = Some s /\
    (num m p n = 0 /\ s = n * limb_bits \/ exists o, 0 <= s < n * limb_bits /\ num m p n = 2 ^ s * (2 * o + 1)).
Proof.
  intros Hw Hp. pose proof limb_bits_pos as HW. revert i.
  induction k as [|k IH]; intros i Hk Hi E; cbn [scan1_loop].
  { eexists. split; [done|]. left. by replace n with i by lia. }
  rewrite get_cell by vec_bounds. cbn [mbind option_bind].
  destruct (Z.eqb_spec (cell m (p + i)) 0) as [Ez|Hnz]; cbn [negb].
  { apply IH; [lia|lia|]. rewrite num_succ, E, Ez by lia. lia. }
  eexists. split; [done|]. right. pose proof (wf_cell m (p + i) Hw) as Hc. unfold is_limb in Hc.
  unfold limb_ctz, countr_zero. rewrite (proj2 (Z.eqb_neq _ 0)) by done.
  rewrite (num_split_at m p (i + 1)), num_succ, E by lia.
  destruct (cell m (p + i)) as [|q|q] eqn:Eq; [done| |lia]. cbn [builtin_ctz].
  destruct (pos_ctz_spec q) as (Hq & o & Hop & Ho).
  assert (pos_ctz q < limb_bits) as Hlt.
  { apply (Z.pow_lt_mono_r_iff 2); [lia|lia|]. fold base. rewrite Ho in Hc.
    pose proof (Z.pow_pos_nonneg 2 (pos_ctz q)). eapply Z.le_lt_trans; [|apply Hc]. nia. }
  assert (base ^ (i + 1) = 2 ^ (i * limb_bits) * (2 ^ pos_ctz q * (2 * 2 ^ (limb_bits - pos_ctz q - 1)))) as Eb.
  { rewrite base_pow2, <- !Z.pow_succ_r, <- !Z.pow_add_r by lia. f_equal. lia. }
  exists (o + 2 ^ (limb_bits - pos_ctz q - 1) * num m (p + (i + 1)) (n - (i + 1))).
  split; [nia|]. rewrite Ho, Eb, base_pow2, Z.pow_add_r, (Z.mul_comm limb_bits) by nia. ring.
Qed.

Lemma scan1_spec m p n : wf m -> valid m p n ->
  exists s, scan1 m p n = Some s /\
    (num m p n = 0 /\ s = n * limb_bits \/ exists o, 0 <= s < n * limb_bits /\ num m p n = 2 ^ s * (2 * o + 1)).
Proof. intros Hw Hp. apply scan1_loop_spec; [done|done| |lia|done]. destruct Hp. lia. Qed.
End queries.

(** ** Bitwise routines

    One argument for the three of them: [f] acts on bits through [g]. *)
Section bitwise.
Context `{LimbWidth}.
Context (f : Z -> Z -> Z) (g : bool -> bool -> bool).
Context (Hfg : forall x y i, 0 <= i -> Z.testbit (f x y) i = g (Z.testbit x i) (Z.testbit y i)).
Context (Hg : g false false = false).

Lemma bits_small k z : 0 <= k -> (forall i, k <= i -> Z.testbit z i = false) -> 0 <= z < 2 ^ k.
Proof.
  intros Hk Hz. assert (z = z mod 2 ^ k) as ->; [|apply Z.mod_pos_bound, Z.pow_pos_nonneg; lia].
  apply Z.bits_inj'. intros i Hi. destruct (decide (i < k)).
  - by rewrite Z.mod_pow2_bits_low.
  - rewrite Z.mod_pow2_bits_high by lia. apply Hz. lia.
Qed.

Lemma small_bits k z i : 0 <= k <= i -> 0 <= z < 2 ^ k -> Z.testbit z i = false.
Proof.
  intros Hk Hz. replace z with (z + 2 ^ k * 0) by lia. rewrite testbit_cat by lia.
  rewrite (proj2 (Z.ltb_ge _ _)) by lia. apply Z.bits_0.
Qed.

Lemma bitwise_small k x y : 0 <= k -> 0 <= x < 2 ^ k -> 0 <= y < 2 ^ k -> 0 <= f x y < 2 ^ k.
Proof.
  intros Hk Hx Hy. apply bits_small; [done|]. intros i Hi. rewrite Hfg by lia.
  by rewrite (small_bits k x i), (small_bits k y i) by (done || lia).
Qed.

Lemma bitwise_cat k x y x' y' : 0 <= k -> 0 <= x < 2 ^ k -> 0 <= x' < 2 ^ k ->
  f (x + 2 ^ k * y) (x' + 2 ^ k * y') = f x x' + 2 ^ k * f y y'.
Proof.
  intros Hk Hx Hx'. apply Z.bits_inj'. intros i Hi. rewrite Hfg, !testbit_cat by (done || by apply bitwise_small).
  destruct (Z.ltb_spec i k); by rewrite Hfg by lia.
Qed.

Lemma bitwise_up m rp ap bp n : wf m -> valid m rp n -> valid m ap n -> valid m bp n ->
  fwd rp ap n -> fwd rp bp n ->
  returns (for_ 0 n (fun i m => x ← m.[ap + i]; y ← m.[bp + i]; aset m (rp + i) (f x y)) m) (fun m' =>
    modifies rp n m m' /\ num m' rp n = f (num m ap n) (num m bp n)).
Proof.
  intros Hw Hr Ha Hb Fa Fb. pose proof limb_bits_pos.
  apply (returns_map_up rp n m _ (fun i v => v = f (num m ap i) (num m bp i)) 0); [done|done|vec_bounds| |].
  { rewrite !num_0. apply Z.bits_inj'. intros i Hi. by rewrite Hfg, Z.bits_0, Hg. }
  intros i m1 Hi Hm E.
  rewrite (modifies_read_up _ _ n _ _ _ Hm Fa Ha Hi), (modifies_read_up _ _ n _ _ _ Hm Fb Hb Hi).
  exists (f (cell m (ap + i)) (cell m (bp + i))). cbn [mbind option_bind]. rewrite aset_in by vec_bounds.
  split; [done|]. split; [apply bitwise_small; [lia|by apply wf_cell..]|].
  pose proof (num_range m ap i Hw ltac:(lia)) as R1. pose proof (num_range m bp i Hw ltac:(lia)) as R2.
  rewrite E, !num_succ by lia. rewrite base_pow2 in * by lia. by rewrite bitwise_cat by lia.
Qed.
End bitwise.
