(* ===== verification/MpnMul.v ===== *)
(** Quadratic multiplication and squaring (math/arbint/mul_basecase.hpp): by rows,
    by columns with the three-limb accumulator, and squaring from the triangle.

    [rp] holds an + bn limbs and is distinct from the operands.  The [_fixed]
    templates are the same loops with the lengths as template parameters. *)
From stdpp Require Import base numbers list option.
From Stdlib Require Import ZArith Lia.
From S2P Require Import Prelude Arrays Limb Mpn MpnValue MpnArith.

Local Open Scope Z_scope.

Section mul.
Context `{LimbWidth}.

Definition mul_basecase (m : mem) (rp ap an bp bn : Z) : option mem :=
  b0 ← m.[bp];
  '(m, cy) ← mul_1 m rp ap an b0;
  m ← aset m (rp + an) cy;
  for_ 1 bn (fun j m =>
    b ← m.[bp + j];
    '(m, cy) ← addmul_1 m (rp + j) ap an b;
    aset m (rp + (an + j)) cy) m.

(** for (i = ilo; i <= ihi; ++i) acc.fma(ap[i], bp[k - i]) *)
Definition comba_column (m : mem) (ap bp k ilo ihi : Z) (acc : acc3) : option acc3 :=
  for_ ilo (ihi + 1) (fun i acc =>
    x ← m.[ap + i];
    y ← m.[bp + (k - i)];
    Some (fma acc x y)) acc.

Definition mul_comba (m : mem) (rp ap an bp bn : Z) : option mem :=
  let rn := an + bn in
  '(m, _) ← for_ 0 rn (fun k '(m, acc) =>
    let ilo := if Z.ltb bn (k + 1) then k + 1 - bn else 0 in
    let ihi := if Z.ltb k (an - 1) then k else an - 1 in
    acc ← comba_column m ap bp k ilo ihi acc;
    let '(out, acc) := shift_out acc in
    m ← aset m (rp + k) out;
    Some (m, acc)) (m, acc3_zero);
  Some m.

Definition mul_comba_fixed (AN BN : Z) (m : mem) (rp ap bp : Z) : option mem :=
  let RN := AN + BN in
  '(m, _) ← for_ 0 RN (fun k '(m, acc) =>
    let ilo := if Z.ltb BN (k + 1) then k + 1 - BN else 0 in
    let ihi := if Z.ltb k (AN - 1) then k else AN - 1 in
    acc ← comba_column m ap bp k ilo ihi acc;
    let '(out, acc) := shift_out acc in
    m ← aset m (rp + k) out;
    Some (m, acc)) (m, acc3_zero);
  Some m.

(** The strict upper triangle of sqr_basecase. *)
Definition sqr_triangle (m : mem) (rp ap n : Z) : option mem :=
  m ← aset m rp 0;
  a0 ← m.[ap];
  '(m, cy) ← mul_1 m (rp + 1) (ap + 1) (n - 1) a0;
  m ← aset m (rp + n) cy;
  m ← for_ 1 (n - 1) (fun i m =>
    x ← m.[ap + i];
    '(m, cy) ← addmul_1 m (rp + 2 * i + 1) (ap + i + 1) (n - i - 1) x;
    aset m (rp + (n + i)) cy) m;
  aset m (rp + (2 * n - 1)) 0.

Definition sqr_double (m : mem) (rp rn : Z) : option (mem * Z) :=
  for_ 0 rn (fun i '(m, bit) =>
    w ← m.[rp + i];
    m ← aset m (rp + i) (Z.lor (to_limb (Z.shiftl w 1)) bit);
    Some (m, Z.shiftr w (limb_bits - 1))) (m, 0).

Definition sqr_diagonal (m : mem) (rp ap n : Z) : option (mem * Z) :=
  for_ 0 n (fun i '(m, cy) =>
    x ← m.[ap + i];
    let '(lo, hi) := mul_wide x x in
    y ← m.[rp + 2 * i];
    let '(c0, t) := addc y lo cy in
    m ← aset m (rp + 2 * i) t;
    y ← m.[rp + (2 * i + 1)];
    let '(cy, t) := addc y hi c0 in
    m ← aset m (rp + (2 * i + 1)) t;
    Some (m, cy)) (m, 0).

Definition sqr_basecase (m : mem) (rp ap n : Z) : option mem :=
  if Z.eqb n 1 then
    x ← m.[ap];
    let '(lo, hi) := mul_wide x x in
    m ← aset m rp lo;
    aset m (rp + 1) hi
  else
    let rn := 2 * n in
    m ← sqr_triangle m rp ap n;
    '(m, _) ← sqr_double m rp rn;
    '(m, _) ← sqr_diagonal m rp ap n;
    Some m.

(** for (i = ilo; i <= ihi && 2 i < k; ++i) acc.fma2(ap[i], ap[k - i]): [todo] is
    ihi + 1 - i. *)
Fixpoint sqr_column (m : mem) (ap k i : Z) (todo : nat) (acc : acc3) : option acc3 :=
  match todo with
  | O => Some acc
  | S todo =>
      if Z.ltb (2 * i) k then
        x ← m.[ap + i];
        y ← m.[ap + (k - i)];
        sqr_column m ap k (i + 1) todo (fma2 acc x y)
      else Some acc
  end.

Definition sqr_comba (m : mem) (rp ap n : Z) : option mem :=
  let rn := 2 * n in
  '(m, _) ← for_ 0 rn (fun k '(m, acc) =>
    let ilo := if Z.ltb n (k + 1) then k + 1 - n else 0 in
    let ihi := if Z.ltb k (n - 1) then k else n - 1 in
    acc ← sqr_column m ap k ilo (Z.to_nat (ihi + 1 - ilo)) acc;
    acc ← (if andb (Z.eqb (Z.land k 1) 0) (Z.leb (Z.shiftr k 1) ihi) then
             x ← m.[ap + Z.shiftr k 1]; Some (fma acc x x)
           else Some acc);
    let '(out, acc) := shift_out acc in
    m ← aset m (rp + k) out;
    Some (m, acc)) (m, acc3_zero);
  Some m.

Definition sqr_comba_fixed (N : Z) (m : mem) (rp ap : Z) : option mem :=
  let RN := 2 * N in
  '(m, _) ← for_ 0 RN (fun k '(m, acc) =>
    let ilo := if Z.ltb N (k + 1) then k + 1 - N else 0 in
    let ihi := if Z.ltb k (N - 1) then k else N - 1 in
    acc ← sqr_column m ap k ilo (Z.to_nat (ihi + 1 - ilo)) acc;
    acc ← (if andb (Z.eqb (Z.land k 1) 0) (Z.leb (Z.shiftr k 1) ihi) then
             x ← m.[ap + Z.shiftr k 1]; Some (fma acc x x)
           else Some acc);
    let '(out, acc) := shift_out acc in
    m ← aset m (rp + k) out;
    Some (m, acc)) (m, acc3_zero);
  Some m.
End mul.
