(* ===== verification/MpnMulProof.v ===== *)
(** Correctness of the quadratic multiplications and squarings. *)
From stdpp Require Import base numbers list option.
From Stdlib Require Import ZArith Lia.
From S2P Require Import Prelude Arrays Sums Limb Mpn MpnValue MpnArith MpnMul.

Local Open Scope Z_scope.

(** ** The column accumulator *)

Section accumulator.
Context `{LimbWidth}.

Definition acc_value (acc : acc3) : Z := acc.(c0) + base * (acc.(c1) + base * acc.(c2)).

Definition acc_ok (acc : acc3) : Prop := is_limb acc.(c0) /\ is_limb acc.(c1) /\ is_limb acc.(c2).

Lemma acc_zero_ok : acc_ok acc3_zero /\ acc_value acc3_zero = 0.
Proof. split; [split_and!; apply is_limb_0|]. unfold acc_value. simpl. lia. Qed.

Lemma acc_nonneg acc : acc_ok acc -> 0 <= acc_value acc.
Proof.
  intros (H0 & H1 & H2). unfold is_limb, acc_value in *.
  assert (0 <= base * c2 acc) by (apply Z.mul_nonneg_nonneg; lia).
  assert (0 <= base * (c1 acc + base * c2 acc)) by (apply Z.mul_nonneg_nonneg; lia). lia.
Qed.

(** Adding a double-limb value; the top limb counts the column overflows. *)
Lemma acc_add_wide acc lo hi k0 x0 k1 x1 : acc_ok acc -> is_limb lo -> is_limb hi ->
  addc (c0 acc) lo 0 = (k0, x0) -> addc (c1 acc) hi k0 = (k1, x1) ->
  acc_value acc + (lo + base * hi) < base ^ 3 ->
  acc_ok (Acc3 x0 x1 (to_limb (c2 acc + k1))) /\
  acc_value (Acc3 x0 x1 (to_limb (c2 acc + k1))) = acc_value acc + (lo + base * hi).
Proof.
  intros (H0 & H1 & H2) Hlo Hhi E0 E1 Hb.
  destruct (addc_bit (c0 acc) lo 0) as (k & x & Ek & Hk & Hx & Ev); [done|done|lia|].
  rewrite E0 in Ek. simplify_eq.
  destruct (addc_bit (c1 acc) hi k) as (k' & x' & Ek' & Hk' & Hx' & Ev'); [done|done|lia|].
  rewrite E1 in Ek'. simplify_eq. unfold acc_value in *. cbn [c0 c1 c2].
  assert (x + base * (x' + base * (c2 acc + k')) =
    c0 acc + base * (c1 acc + base * c2 acc) + (lo + base * hi)) as Et by nia.
  assert (is_limb (c2 acc + k')) as Hc.
  { unfold is_limb in *. split; [lia|]. change (base ^ 3) with (base * (base * (base * 1))) in Hb. nia. }
  rewrite to_limb_id by done. split; [by split_and!|]. done.
Qed.

Lemma fma_spec acc a b : acc_ok acc -> is_limb a -> is_limb b -> acc_value acc + a * b < base ^ 3 ->
  acc_ok (fma acc a b) /\ acc_value (fma acc a b) = acc_value acc + a * b.
Proof.
  intros Hacc Ha Hb Hlt. unfold fma. pose proof (mul_wide_spec a b Ha Hb) as Hm.
  destruct (mul_wide a b) as [lo hi]. destruct Hm as (Hlo & Hhi & _ & E). rewrite <- E in *.
  destruct (addc (c0 acc) lo 0) as [k0 x0] eqn:E0. destruct (addc (c1 acc) hi k0) as [k1 x1] eqn:E1.
  by eapply acc_add_wide.
Qed.

Lemma fma2_fma acc a b : fma2 acc a b = fma (fma acc a b) a b.
Proof.
  unfold fma2, fma. destruct (mul_wide a b) as [lo hi].
  destruct (addc (c0 acc) lo 0) as [k0 x0]. destruct (addc (c1 acc) hi k0) as [k1 x1].
  cbn [c0 c1 c2]. done.
Qed.

Lemma fma2_spec acc a b : acc_ok acc -> is_limb a -> is_limb b -> acc_value acc + 2 * (a * b) < base ^ 3 ->
  acc_ok (fma2 acc a b) /\ acc_value (fma2 acc a b) = acc_value acc + 2 * (a * b).
Proof.
  intros Hacc Ha Hb Hlt. pose proof (limb_mul_bound a b Ha Hb). rewrite fma2_fma.
  destruct (fma_spec acc a b) as [Hok Hv]; [done..|lia|].
  destruct (fma_spec (fma acc a b) a b) as [Hok' Hv']; [done..|lia|]. split; [done|lia].
Qed.

Lemma acc_add_spec acc v : acc_ok acc -> is_limb v -> acc_value acc + v < base ^ 3 ->
  acc_ok (acc_add acc v) /\ acc_value (acc_add acc v) = acc_value acc + v.
Proof.
  intros Hacc Hv Hlt. unfold acc_add.
  destruct (addc (c0 acc) v 0) as [k0 x0] eqn:E0. destruct (addc (c1 acc) 0 k0) as [k1 x1] eqn:E1.
  replace (acc_value acc + v) with (acc_value acc + (v + base * 0)) in * by lia.
  eapply acc_add_wide; try done. apply is_limb_0.
Qed.

Lemma shift_out_spec acc : acc_ok acc ->
  let '(x, acc') := shift_out acc in
  is_limb x /\ acc_ok acc' /\ acc_value acc = x + base * acc_value acc'.
Proof.
  intros (H0 & H1 & H2). cbn. split; [done|]. split; [split_and!; try done; apply is_limb_0|].
  unfold acc_value. cbn [c0 c1 c2]. ring.
Qed.
End accumulator.

(** ** By rows *)

(** Reading an operand while the product is being written. *)
Lemma read_operand `{LimbWidth} m m1 rp rn p n i : modifies rp rn m m1 -> valid m p n -> disjoint p n rp rn ->
  0 <= i < n -> m1.[p + i] = Some (cell m (p + i)).
Proof.
  intros Hm Hp Hd Hi. rewrite (modifies_out _ _ _ _ _ Hm) by vec_bounds. apply get_cell. vec_bounds.
Qed.

Section rows.
Context `{LimbWidth}.
Context (m : mem) (rp ap an bp bn : Z).
Context (Hw : wf m) (Hr : valid m rp (an + bn)) (Ha : valid m ap an) (Hb : valid m bp bn).
Context (Hn : 1 <= an) (Hn' : 1 <= bn).
Context (Da : disjoint ap an rp (an + bn)) (Db : disjoint bp bn rp (an + bn)).

Lemma mul_basecase_spec : returns (mul_basecase m rp ap an bp bn) (fun m' =>
  modifies rp (an + bn) m m' /\ num m' rp (an + bn) = num m ap an * num m bp bn).
Proof.
  unfold mul_basecase. replace (m.[bp]) with (m.[bp + 0]) by (f_equal; lia).
  rewrite (get_cell m (bp + 0)) by vec_bounds. cbn [mbind option_bind].
  eapply returns_bind.
  { apply (mul_1_spec m rp ap an); [done|vec_bounds..|by apply wf_cell]. }
  intros [m1 cy] (Hm & Hcy & E). apply returns_set; [vec_bounds|].
  apply (returns_for _ _ _ _ (fun j m' => modifies rp (an + bn) m m' /\
    num m' rp (an + j) = num m ap an * num m bp j)); [done| | |done].
  - split.
    + eapply modifies_upd; [exact Hm|vec_bounds..|done].
    + rewrite num_upd_at by vec_bounds. change 1 with (0 + 1). rewrite (num_succ m bp), num_0 by lia.
      rewrite E. simpl. lia.
  - intros j m2 Hj [Hm2 E2]. rewrite (read_operand _ _ _ _ bp bn j Hm2 Hb Db) by lia. cbn [mbind option_bind].
    eapply returns_bind.
    { apply (addmul_1_spec m2 (rp + j) ap an); [by eapply modifies_wf|vec_bounds..|by apply wf_cell]. }
    intros [m3 c3] (Hm3 & Hc3 & E3). apply returns_set_tail; [vec_bounds|]. split.
    + eapply (modifies_upd _ (an + bn)); [|vec_bounds..|done].
      eapply modifies_trans; [exact Hm2|]. eapply modifies_mono; [exact Hm3|vec_bounds..].
    + rewrite (Z.add_assoc an j 1), num_upd_at by vec_bounds.
      rewrite (num_split_at m3 rp j) by lia. rewrite (num_split_at m2 rp j) in E2 by lia.
      replace (an + j - j) with an in * by lia.
      rewrite (modifies_num _ _ _ _ rp j Hm3) by vec_bounds.
      rewrite (modifies_num _ _ _ _ ap an Hm2) in E3 by vec_bounds.
      rewrite num_succ, Z.pow_add_r by lia. nia.
Qed.
End rows.

(** ** By columns *)

Section columns.
Context `{LimbWidth}.

Lemma num_sum m p n : 0 <= n -> num m p n = sum_ 0 n (fun i => base ^ i * cell m (p + i)).
Proof.
  revert n. refine (range_ind _ _ _ _); [by rewrite sum_empty by lia|].
  intros n Hn IH. by rewrite num_succ, sum_snoc, IH by done.
Qed.

(** First and last index of the products of column [k]. *)
Definition ilo (bn k : Z) : Z := if Z.ltb bn (k + 1) then k + 1 - bn else 0.
Definition ihi (an k : Z) : Z := if Z.ltb k (an - 1) then k else an - 1.

Lemma ilo_eq bn k : ilo bn k = Z.max 0 (k + 1 - bn).
Proof. unfold ilo. destruct (Z.ltb_spec bn (k + 1)); lia. Qed.

Lemma ihi_eq an k : ihi an k = Z.min k (an - 1).
Proof. unfold ihi. destruct (Z.ltb_spec k (an - 1)); lia. Qed.

Definition column (m : mem) (ap an bp bn k : Z) : Z :=
  sum_ (ilo bn k) (ihi an k + 1) (fun i => cell m (ap + i) * cell m (bp + (k - i))).

(** The columns, each at its weight, add up to the product. *)
Lemma columns_product m ap an bp bn : 1 <= an -> 1 <= bn ->
  sum_ 0 (an + bn) (fun k => base ^ k * column m ap an bp bn k) = num m ap an * num m bp bn.
Proof.
  intros Han Hbn.
  transitivity (sum_ 0 (an + bn) (fun k => sum_ 0 an (fun i =>
    if andb (Z.leb i k) (Z.ltb k (i + bn)) then base ^ k * (cell m (ap + i) * cell m (bp + (k - i))) else 0))).
  { apply sum_ext. intros k Hk. unfold column. rewrite <- sum_scale. symmetry.
    rewrite <- (sum_guard 0 an (ilo bn k) (ihi an k + 1)) by (rewrite ?ilo_eq, ?ihi_eq; lia).
    apply sum_ext. intros i Hi. rewrite ilo_eq, ihi_eq.
    destruct (Z.leb_spec i k), (Z.ltb_spec k (i + bn)), (Z.leb_spec (Z.max 0 (k + 1 - bn)) i),
      (Z.ltb_spec i (Z.min k (an - 1) + 1)); try done; lia. }
  rewrite sum_swap, (num_sum m ap), Z.mul_comm, <- sum_scale by lia.
  apply sum_ext. intros i Hi. rewrite sum_guard by lia.
  replace i with (0 + i) at 1 by lia. rewrite (Z.add_comm i bn), sum_shift, (num_sum m bp) by lia.
  rewrite Z.mul_comm, <- sum_scale. apply sum_ext. intros j Hj.
  rewrite Z.pow_add_r by lia. replace (j + i - i) with j by lia. ring.
Qed.

Lemma column_bound m ap an bp bn k : wf m -> 0 <= k < an + bn -> 1 <= an -> 1 <= bn ->
  0 <= column m ap an bp bn k <= an * (base * base - 2 * base + 1).
Proof.
  intros Hw Hk Han Hbn. pose proof base_ge.
  pose proof (sum_bound (ilo bn k) (ihi an k + 1) (fun i => cell m (ap + i) * cell m (bp + (k - i)))
    (base * base - 2 * base + 1)) as Hs. fold (column m ap an bp bn k) in Hs.
  rewrite ilo_eq, ihi_eq in Hs. destruct Hs as [H1 H2]; [lia| |split; [done|]].
  - intros i _. apply limb_mul_bound; by apply wf_cell.
  - etrans; [exact H2|]. apply Z.mul_le_mono_nonneg_r; [nia|lia].
Qed.

Definition comba_step (rp : Z) (f : Z -> mem -> acc3 -> option acc3) (k : Z) (s : mem * acc3) : option (mem * acc3) :=
  let '(m, acc) := s in
  acc ← f k m acc;
  let '(out, acc) := shift_out acc in
  m ← aset m (rp + k) out;
  Some (m, acc).

(** A loop that adds column [k] to the accumulator and emits its low limb writes
    the sum of the columns, as long as the accumulator is wide enough. *)
Lemma comba_spec m rp rn f (col : Z -> Z) w :
  wf m -> valid m rp rn -> 0 <= w <= base ->
  (forall k, 0 <= k < rn -> 0 <= col k <= w * (base * base - 2 * base + 1)) ->
  (forall k m1 acc, 0 <= k < rn -> modifies rp k m m1 -> acc_ok acc ->
     acc_value acc <= w * (base - 1) ->
     returns (f k m1 acc) (fun acc' => acc_ok acc' /\ acc_value acc' = acc_value acc + col k)) ->
  sum_ 0 rn (fun k => base ^ k * col k) < base ^ rn ->
  returns (for_ 0 rn (comba_step rp f) (m, acc3_zero)) (fun '(m', _) =>
    modifies rp rn m m' /\ num m' rp rn = sum_ 0 rn (fun k => base ^ k * col k)).
Proof.
  intros Hw Hr Hwd Hcol Hf HV. destruct acc_zero_ok as [Hz Hz0]. pose proof base_ge as HB.
  apply (returns_for _ _ _ _ (fun k '(m1, acc) => modifies rp k m m1 /\ acc_ok acc /\
    acc_value acc <= w * (base - 1) /\
    num m1 rp k + base ^ k * acc_value acc = sum_ 0 k (fun k => base ^ k * col k))).
  - apply Hr.
  - split; [by apply modifies_refl|]. split; [done|]. rewrite Hz0, num_0, sum_empty by lia. nia.
  - intros k [m1 acc] Hk (Hm & Hok & Hle & E). unfold comba_step.
    eapply returns_bind; [by apply Hf|]. intros acc1 [Hok1 E1].
    pose proof (shift_out_spec acc1 Hok1) as Hs. destruct (shift_out acc1) as [x acc2].
    destruct Hs as (Hx & Hok2 & E2). apply returns_set; [vec_bounds|]. apply returns_ret.
    split; [eapply modifies_upd; [exact Hm|vec_bounds..|done]|]. split; [done|]. split.
    + pose proof (Hcol k Hk). unfold is_limb in Hx.
      apply (Z.mul_le_mono_pos_l _ _ base); [lia|]. lia.
    + rewrite num_upd_at by vec_bounds. rewrite sum_snoc, base_succ by lia. rewrite <- E. nia.
  - intros [m1 acc] (Hm & Hok & _ & E). split; [done|]. pose proof (acc_nonneg acc Hok).
    destruct (num_range m1 rp rn) as [Hlo Hhi]; [by eapply modifies_wf|apply Hr|].
    rewrite <- E in HV. assert (acc_value acc = 0) as Ez by nia. rewrite Ez in E. lia.
Qed.
End columns.

Section product_scanning.
Context `{LimbWidth}.
Context (m : mem) (rp ap an bp bn : Z).
Context (Hw : wf m) (Hr : valid m rp (an + bn)) (Ha : valid m ap an) (Hb : valid m bp bn).
Context (Hn : 1 <= an <= base) (Hn' : 1 <= bn).
Context (Da : disjoint ap an rp (an + bn)) (Db : disjoint bp bn rp (an + bn)).

(** What is still free in the accumulator when a column of at most [an] products
    is added to it. *)
Lemma acc_room v s : v <= an * (base - 1) -> s <= an * (base * base - 2 * base + 1) -> v + s < base ^ 3.
Proof.
  intros Hv Hs. pose proof base_ge. change (base ^ 3) with (base * (base * (base * 1))).
  assert (an * (base * (base - 1)) <= base * (base * (base - 1))) by (apply Z.mul_le_mono_nonneg_r; nia).
  nia.
Qed.

Lemma comba_column_spec m1 k acc : 0 <= k < an + bn -> modifies rp k m m1 -> acc_ok acc ->
  acc_value acc <= an * (base - 1) ->
  returns (comba_column m1 ap bp k (ilo bn k) (ihi an k) acc) (fun acc' =>
    acc_ok acc' /\ acc_value acc' = acc_value acc + column m ap an bp bn k).
Proof.
  intros Hk Hm Hok Hv. pose proof base_ge.
  pose proof (ilo_eq bn k) as El. pose proof (ihi_eq an k) as Eh.
  apply (returns_for _ _ _ _ (fun i acc' => acc_ok acc' /\ acc_value acc' = acc_value acc +
    sum_ (ilo bn k) i (fun i => cell m (ap + i) * cell m (bp + (k - i))))).
  - lia.
  - split; [done|]. rewrite sum_empty by lia. lia.
  - intros i acc' Hi [Hok' E].
    assert (modifies rp (an + bn) m m1) as Hm' by (eapply modifies_mono; [exact Hm|lia..]).
    rewrite (read_operand _ _ _ _ ap an i Hm' Ha Da) by lia. cbn [mbind option_bind].
    rewrite (read_operand _ _ _ _ bp bn (k - i) Hm' Hb Db) by lia. cbn [mbind option_bind].
    pose proof (limb_mul_bound _ _ (wf_cell m (ap + i) Hw) (wf_cell m (bp + (k - i)) Hw)).
    destruct (sum_bound (ilo bn k) (i + 1) (fun i => cell m (ap + i) * cell m (bp + (k - i)))
      (base * base - 2 * base + 1)) as [_ Hsb]; [lia|intros; apply limb_mul_bound; by apply wf_cell|].
    rewrite sum_snoc in Hsb by lia.
    destruct (fma_spec acc' (cell m (ap + i)) (cell m (bp + (k - i)))) as [Hok2 E2];
      [done|by apply wf_cell..| |].
    + rewrite E, <- Z.add_assoc. apply acc_room; [done|]. etrans; [exact Hsb|].
      apply Z.mul_le_mono_nonneg_r; nia.
    + apply returns_ret. split; [done|]. rewrite E2, E, sum_snoc by lia. lia.
  - done.
Qed.

Lemma mul_comba_spec : returns (mul_comba m rp ap an bp bn) (fun m' =>
  modifies rp (an + bn) m m' /\ num m' rp (an + bn) = num m ap an * num m bp bn).
Proof.
  unfold mul_comba. eapply returns_bind.
  - apply (comba_spec m rp (an + bn) (fun k m1 acc => comba_column m1 ap bp k (ilo bn k) (ihi an k) acc)
      (column m ap an bp bn) an); [done|done|lia|intros; by apply column_bound; try lia|intros; by apply comba_column_spec|].
    rewrite columns_product, Z.pow_add_r by lia.
    pose proof (num_range m ap an Hw ltac:(lia)). pose proof (num_range m bp bn Hw ltac:(lia)). nia.
  - intros [m' acc] [Hm E]. apply returns_ret. split; [done|]. rewrite E. apply columns_product; lia.
Qed.
End product_scanning.

Lemma mul_comba_fixed_eq `{LimbWidth} AN BN m rp ap bp :
  mul_comba_fixed AN BN m rp ap bp = mul_comba m rp ap AN bp BN.
Proof. done. Qed.

Section square_scanning.
Context `{LimbWidth}.
Context (m : mem) (rp ap n : Z).
Context (Hw : wf m) (Hr : valid m rp (n + n)) (Ha : valid m ap n) (Hn : 1 <= n <= base).
Context (Da : disjoint ap n rp (n + n)).

Definition half_column (lo k i : Z) : Z := sum_ lo i (fun i => cell m (ap + i) * cell m (ap + (k - i))).

(** A column of a square is symmetric. *)
Lemma column_square k : 0 <= k < n + n ->
  column m ap n ap n k = 2 * half_column (ilo n k) k ((k + 1) / 2) +
    (if Z.eqb (k mod 2) 0 then cell m (ap + k / 2) * cell m (ap + k / 2) else 0).
Proof.
  intros Hk. unfold column. pose proof (ilo_eq n k). pose proof (ihi_eq n k).
  rewrite (sum_symmetric (ilo n k) (ihi n k) k).
  - f_equal. destruct (Z.eqb_spec (k mod 2) 0) as [E|]; [|done].
    by replace (k - k / 2) with (k / 2) by (Z.to_euclidean_division_equations; lia).
  - lia.
  - lia.
  - intros i Hi. replace (k - (k - i)) with i by lia. lia.
Qed.

Lemma sqr_column_spec k m1 : 0 <= k < n + n -> modifies rp k m m1 ->
  forall todo i acc, Z.of_nat todo = ihi n k + 1 - i -> ilo n k <= i ->
  acc_ok acc -> i <= (k + 1) / 2 ->
  acc_value acc + 2 * (half_column (ilo n k) k ((k + 1) / 2) - half_column (ilo n k) k i) < base ^ 3 ->
  returns (sqr_column m1 ap k i todo acc) (fun acc' => acc_ok acc' /\
    acc_value acc' = acc_value acc + 2 * (half_column (ilo n k) k ((k + 1) / 2) - half_column (ilo n k) k i)).
Proof.
  intros Hk Hm. pose proof (ilo_eq n k) as El. pose proof (ihi_eq n k) as Eh.
  assert (modifies rp (n + n) m m1) as Hm' by (eapply modifies_mono; [exact Hm|lia..]).
  induction todo as [|todo IH]; intros i acc Ht Hi Hok Hh Hlt; cbn [sqr_column].
  { apply returns_ret. split; [done|].
    replace ((k + 1) / 2) with i by (Z.to_euclidean_division_equations; lia). lia. }
  destruct (Z.ltb_spec (2 * i) k) as [Hik|Hik].
  - rewrite (read_operand _ _ _ _ ap n i Hm' Ha Da) by lia. cbn [mbind option_bind].
    rewrite (read_operand _ _ _ _ ap n (k - i) Hm' Ha Da) by lia. cbn [mbind option_bind].
    set (t := cell m (ap + i) * cell m (ap + (k - i))) in *.
    assert (half_column (ilo n k) k (i + 1) = half_column (ilo n k) k i + t) as Es
      by (unfold half_column; by rewrite sum_snoc by lia).
    assert (0 <= half_column (ilo n k) k ((k + 1) / 2) - half_column (ilo n k) k (i + 1)) as Hpos.
    { unfold half_column. rewrite (sum_app (ilo n k) (i + 1) ((k + 1) / 2)) by (Z.to_euclidean_division_equations; lia).
      destruct (sum_bound (i + 1) ((k + 1) / 2) (fun i => cell m (ap + i) * cell m (ap + (k - i)))
        (base * base - 2 * base + 1)); [Z.to_euclidean_division_equations; lia|intros; apply limb_mul_bound; by apply wf_cell|lia]. }
    destruct (fma2_spec acc (cell m (ap + i)) (cell m (ap + (k - i)))) as [Hok2 E2];
      [done|by apply wf_cell..|subst t; lia|].
    eapply returns_mono.
    + apply (IH (i + 1)); [lia|lia|done|Z.to_euclidean_division_equations; lia|]. subst t. lia.
    + cbn beta. intros acc' [? E]. split; [done|]. rewrite E, E2. fold t. lia.
  - apply returns_ret. split; [done|].
    replace ((k + 1) / 2) with i by (Z.to_euclidean_division_equations; lia). lia.
Qed.

Definition sqr_comba_column (k : Z) (m1 : mem) (acc : acc3) : option acc3 :=
  acc ← sqr_column m1 ap k (ilo n k) (Z.to_nat (ihi n k + 1 - ilo n k)) acc;
  if andb (Z.eqb (Z.land k 1) 0) (Z.leb (Z.shiftr k 1) (ihi n k)) then
    x ← m1.[ap + Z.shiftr k 1]; Some (fma acc x x)
  else Some acc.

Lemma sqr_comba_column_spec k m1 acc : 0 <= k < n + n -> modifies rp k m m1 -> acc_ok acc ->
  acc_value acc <= n * (base - 1) ->
  returns (sqr_comba_column k m1 acc) (fun acc' =>
    acc_ok acc' /\ acc_value acc' = acc_value acc + column m ap n ap n k).
Proof.
  intros Hk Hm Hok Hv. pose proof (ilo_eq n k) as El. pose proof (ihi_eq n k) as Eh.
  pose proof (column_bound m ap n ap n k Hw Hk ltac:(lia) ltac:(lia)) as Hcb.
  pose proof (acc_room n Hn (acc_value acc) _ Hv (proj2 Hcb)) as Hroom.
  rewrite column_square in * by done. unfold sqr_comba_column.
  replace (Z.land k 1) with (k mod 2) by (symmetry; apply (Z.land_ones k 1); lia).
  rewrite Z.shiftr_div_pow2 by lia. change (2 ^ 1) with 2.
  set (mid := cell m (ap + k / 2) * cell m (ap + k / 2)) in *.
  assert (0 <= mid) by (apply limb_mul_bound; by apply wf_cell).
  assert (half_column (ilo n k) k (ilo n k) = 0) as E0 by (apply sum_empty; lia).
  eapply returns_bind.
  - eapply (sqr_column_spec k m1 Hk Hm _ (ilo n k) acc); [lia|lia|done|Z.to_euclidean_division_equations; lia|].
    rewrite E0. destruct (Z.eqb (k mod 2) 0); lia.
  - cbn beta. intros acc1 [Hok1 E1]. rewrite E0 in E1.
    destruct (Z.eqb_spec (k mod 2) 0) as [Ek|Ek]; cbn [andb].
    + rewrite (proj2 (Z.leb_le _ _)) by (Z.to_euclidean_division_equations; lia).
      assert (modifies rp (n + n) m m1) as Hm' by (eapply modifies_mono; [exact Hm|lia..]).
      rewrite (read_operand _ _ _ _ ap n (k / 2) Hm' Ha Da) by (Z.to_euclidean_division_equations; lia).
      cbn [mbind option_bind].
      destruct (fma_spec acc1 (cell m (ap + k / 2)) (cell m (ap + k / 2))) as [Hok2 E2];
        [done|by apply wf_cell..|fold mid; lia|].
      apply returns_ret. split; [done|]. fold mid in E2. lia.
    + apply returns_ret. split; [done|]. lia.
Qed.

Lemma sqr_comba_spec : returns (sqr_comba m rp ap n) (fun m' =>
  modifies rp (2 * n) m m' /\ num m' rp (2 * n) = num m ap n * num m ap n).
Proof.
  unfold sqr_comba. replace (2 * n) with (n + n) by lia. eapply returns_bind.
  - erewrite for_ext.
    + apply (comba_spec m rp (n + n) sqr_comba_column (column m ap n ap n) n);
        [done|done|lia|intros; by apply column_bound; try lia|intros; by apply sqr_comba_column_spec|].
      rewrite columns_product, Z.pow_add_r by lia.
      pose proof (num_range m ap n Hw ltac:(lia)). nia.
    + intros k [m1 acc]. unfold comba_step, sqr_comba_column. fold (ilo n k) (ihi n k).
      by destruct (sqr_column m1 ap k (ilo n k) _ acc).
  - intros [m' acc] [Hm E]. apply returns_ret. split; [done|]. rewrite E. apply columns_product; lia.
Qed.
End square_scanning.

Lemma sqr_comba_fixed_eq `{LimbWidth} N m rp ap : sqr_comba_fixed N m rp ap = sqr_comba m rp ap N.
Proof. done. Qed.

(** ** Squaring from the triangle *)

Section triangle.
Context `{LimbWidth}.
Context (m : mem) (rp ap n : Z).
Context (Hw : wf m) (Hr : valid m rp (2 * n)) (Ha : valid m ap n) (Hn : 1 <= n).
Context (Da : disjoint ap n rp (2 * n)).

Definition tail (i : Z) : Z := num m (ap + i) (n - i).
Definition tri (i : Z) : Z := base ^ (2 * i + 1) * (cell m (ap + i) * tail (i + 1)).
Definition diag (i : Z) : Z := base ^ (2 * i) * (cell m (ap + i) * cell m (ap + i)).

Lemma tail_cons i : 0 <= i < n -> tail i = cell m (ap + i) + base * tail (i + 1).
Proof.
  intros Hi. unfold tail. replace (n - i) with (n - (i + 1) + 1) by lia.
  rewrite num_cons by lia. by rewrite Z.add_assoc.
Qed.

Lemma square_split i : 0 <= i -> i <= n ->
  num m ap n * num m ap n = base ^ (2 * i) * (tail i * tail i) + 2 * sum_ 0 i tri + sum_ 0 i diag.
Proof.
  revert i. refine (range_ind _ _ _ _).
  - intros _. rewrite !sum_empty by lia. unfold tail. rewrite !Z.add_0_r, !Z.sub_0_r. change (2 * 0) with 0. rewrite Z.pow_0_r. lia.
  - intros i Hi IH Hle. rewrite IH, !sum_snoc by lia. unfold tri, diag. rewrite (tail_cons i) by lia.
    replace (2 * (i + 1)) with (2 * i + 1 + 1) by lia. rewrite !base_succ by lia. ring.
Qed.

Lemma square_sums : num m ap n * num m ap n = 2 * sum_ 0 n tri + sum_ 0 n diag.
Proof. rewrite (square_split n) by lia. unfold tail. rewrite Z.sub_diag, num_0. lia. Qed.

Lemma sqr_triangle_spec : 2 <= n -> returns (sqr_triangle m rp ap n) (fun m' =>
  modifies rp (2 * n) m m' /\ num m' rp (2 * n) = sum_ 0 n tri).
Proof.
  intros Hn2. unfold sqr_triangle. apply returns_set; [vec_bounds|].
  set (m0 := upd m rp 0). assert (modifies rp (2 * n) m m0) as Hm0.
  { eapply modifies_upd; [by apply modifies_refl|vec_bounds..|apply is_limb_0]. }
  replace (m0.[ap]) with (m0.[ap + 0]) by (f_equal; lia).
  rewrite (read_operand _ _ _ _ ap n 0 Hm0 Ha Da) by lia. cbn [mbind option_bind].
  eapply returns_bind.
  { apply (mul_1_spec m0 (rp + 1) (ap + 1) (n - 1)); [by eapply modifies_wf|vec_bounds..|by apply wf_cell]. }
  intros [m1 cy] (Hm1 & Hcy & E1). apply returns_set; [vec_bounds|].
  assert (modifies rp (2 * n) m m1) as Hm1'.
  { eapply modifies_trans; [exact Hm0|]. eapply modifies_mono; [exact Hm1|vec_bounds..]. }
  eapply returns_bind with (P := fun m' => modifies rp (2 * n) m m' /\ num m' rp (n + (n - 1)) = sum_ 0 (n - 1) tri).
  - apply (returns_for _ _ _ _ (fun i m' => modifies rp (2 * n) m m' /\
      num m' rp (n + i) = sum_ 0 i tri)); [lia| | |done].
    + split; [eapply modifies_upd; [exact Hm1'|vec_bounds..|done]|].
      rewrite num_upd_at by vec_bounds. rewrite (num_split_at m1 rp 1 n), num_1 by lia.
      unfold cell at 1. rewrite (modifies_out _ _ _ _ _ Hm1) by lia.
      unfold m0 at 1. rewrite aget_upd_eq by vec_bounds. cbn [default option_fmap].
      rewrite sum_cons, sum_empty by lia. unfold tri, tail.
      rewrite (modifies_num _ _ _ _ (ap + 1) (n - 1) Hm0) in E1 by vec_bounds.
      replace (2 * 0 + 1) with 1 by lia. replace (0 + 1) with 1 by lia.
      rewrite (base_split 1 n) by lia. rewrite Z.pow_1_r. simpl. nia.
    + intros i m2 Hi [Hm2 E2]. rewrite (read_operand _ _ _ _ ap n i Hm2 Ha Da) by lia.
      cbn [mbind option_bind]. eapply returns_bind.
      { apply (addmul_1_spec m2 (rp + 2 * i + 1) (ap + i + 1) (n - i - 1));
          [by eapply modifies_wf|vec_bounds..|by apply wf_cell]. }
      intros [m3 c3] (Hm3 & Hc3 & E3). apply returns_set_tail; [vec_bounds|]. split.
      * eapply (modifies_upd _ (2 * n)); [|vec_bounds..|done].
        eapply modifies_trans; [exact Hm2|]. eapply modifies_mono; [exact Hm3|vec_bounds..].
      * rewrite (Z.add_assoc n i 1), num_upd_at by vec_bounds. rewrite sum_snoc by lia. rewrite <- E2.
        rewrite (num_split_at m3 rp (2 * i + 1)), (num_split_at m2 rp (2 * i + 1)) by lia.
        rewrite (base_split (2 * i + 1) (n + i)) by lia.
        replace (n + i - (2 * i + 1)) with (n - i - 1) by lia.
        rewrite (modifies_num _ _ _ _ rp (2 * i + 1) Hm3) by vec_bounds.
        rewrite (modifies_num _ _ _ _ (ap + i + 1) (n - i - 1) Hm2) in E3 by vec_bounds.
        unfold tri, tail. rewrite !Z.add_assoc. replace (n - (i + 1)) with (n - i - 1) by lia. nia.
  - cbn beta. intros m2 [Hm2 E2]. apply returns_set_tail; [vec_bounds|]. split.
    + eapply (modifies_upd _ (2 * n)); [exact Hm2|vec_bounds..|apply is_limb_0].
    + replace (2 * n - 1) with (n + (n - 1)) by lia. replace (2 * n) with (n + (n - 1) + 1) by lia.
      rewrite num_upd_at, E2 by vec_bounds. rewrite (sum_app 0 (n - 1) n), (sum_cons (n - 1) n) by lia.
      rewrite (sum_empty (n - 1 + 1)) by lia. unfold tri, tail.
      replace (n - (n - 1 + 1)) with 0 by lia. rewrite num_0. lia.
Qed.
End triangle.

Section double_and_diagonal.
Context `{LimbWidth}.

Lemma sqr_double_spec m rp rn : wf m -> valid m rp rn ->
  returns (sqr_double m rp rn) (fun '(m', bit) =>
    modifies rp rn m m' /\ 0 <= bit <= 1 /\ num m' rp rn + base ^ rn * bit = 2 * num m rp rn).
Proof.
  intros Hw Hr. apply (returns_store_up rp rn m 0 _ (fun i v c =>
    0 <= c <= 1 /\ v + base ^ i * c = 2 * num m rp i)); [done|done| |].
  { rewrite num_0. lia. }
  intros i m1 c Hi Hm [Hc E]. rewrite (modifies_out _ _ _ _ _ Hm), get_cell by vec_bounds. cbn [mbind option_bind].
  destruct (double_limb (cell m (rp + i)) c) as (H1 & H2 & H3); [by apply wf_cell|done|].
  eexists _, _. rewrite aset_in by vec_bounds. split; [done|]. split; [done|]. split; [done|].
  rewrite num_succ, base_succ by lia. nia.
Qed.

Section diagonal.
Context (m : mem) (rp ap n : Z).
Context (Hw : wf m) (Hr : valid m rp (2 * n)) (Ha : valid m ap n) (Hn : 1 <= n).
Context (Da : disjoint ap n rp (2 * n)).

Lemma sqr_diagonal_spec m0 : modifies rp (2 * n) m m0 ->
  returns (sqr_diagonal m0 rp ap n) (fun '(m', cy) =>
    modifies rp (2 * n) m m' /\ 0 <= cy <= 1 /\
    num m' rp (2 * n) + base ^ (2 * n) * cy = num m0 rp (2 * n) + sum_ 0 n (diag m ap)).
Proof.
  intros Hm0. apply (returns_for _ _ _ _ (fun i '(m1, cy) => modifies rp (2 * n) m m1 /\
    modifies rp (2 * i) m0 m1 /\ 0 <= cy <= 1 /\
    num m1 rp (2 * i) + base ^ (2 * i) * cy = num m0 rp (2 * i) + sum_ 0 i (diag m ap))).
  - lia.
  - split; [done|]. split; [by apply modifies_refl; eapply modifies_wf|]. rewrite sum_empty by lia.
    change (2 * 0) with 0. rewrite !num_0. lia.
  - intros i [m1 cy] Hi (Hm1 & Hm1' & Hcy & E).
    rewrite (read_operand _ _ _ _ ap n i Hm1 Ha Da) by lia. cbn [mbind option_bind].
    pose proof (wf_cell m (ap + i) Hw) as Hx. pose proof (mul_wide_spec _ _ Hx Hx) as Hs.
    destruct (mul_wide (cell m (ap + i)) (cell m (ap + i))) as [lo hi]. destruct Hs as (Hl & Hh & _ & Ep).
    pose proof (modifies_wf _ _ _ _ Hm0) as Hw0.
    rewrite (modifies_out _ _ _ _ (rp + 2 * i) Hm1'), get_cell by vec_bounds. cbn [mbind option_bind].
    destruct (addc_bit (cell m0 (rp + 2 * i)) lo cy) as (k0 & t0 & -> & Hk0 & Ht0 & E0);
      [by apply wf_cell|done|done|].
    apply returns_set; [vec_bounds|].
    rewrite aget_upd_ne, (modifies_out _ _ _ _ (rp + (2 * i + 1)) Hm1'), get_cell by vec_bounds.
    cbn [mbind option_bind].
    destruct (addc_bit (cell m0 (rp + (2 * i + 1))) hi k0) as (k1 & t1 & -> & Hk1 & Ht1 & E1);
      [by apply wf_cell|done|done|].
    apply returns_set; [vec_bounds|]. apply returns_ret.
    assert (modifies rp (2 * i + 1) m0 (upd m1 (rp + 2 * i) t0)) as Hu
      by (eapply modifies_upd; [exact Hm1'|vec_bounds..|done]).
    split; [|split; [|split; [done|]]].
    + eapply (modifies_upd _ (2 * n)); [eapply modifies_upd; [exact Hm1|vec_bounds..|done]|vec_bounds..|done].
    + eapply modifies_upd; [exact Hu|vec_bounds..|done].
    + replace (2 * (i + 1)) with (2 * i + 1 + 1) by lia. rewrite num_upd_at by vec_bounds.
      rewrite num_upd_at by vec_bounds. rewrite !num_succ, !base_succ, sum_snoc by lia.
      unfold diag at 2. nia.
  - intros [m1 cy] (? & ? & ? & ?). by split.
Qed.

Lemma sqr_basecase_spec : returns (sqr_basecase m rp ap n) (fun m' =>
  modifies rp (2 * n) m m' /\ num m' rp (2 * n) = num m ap n * num m ap n).
Proof.
  unfold sqr_basecase. destruct (Z.eqb_spec n 1) as [->|Hne].
  - rewrite get_cell by vec_bounds. cbn [mbind option_bind]. pose proof (wf_cell m ap Hw) as Hx.
    pose proof (mul_wide_spec _ _ Hx Hx) as Hs. destruct (mul_wide (cell m ap) (cell m ap)) as [lo hi].
    destruct Hs as (Hl & Hh & _ & E). apply returns_set; [vec_bounds|].
    apply returns_set_tail; [vec_bounds|]. split.
    + eapply (modifies_upd _ 1); [eapply modifies_upd; [by apply modifies_refl|vec_bounds..|done]|vec_bounds..|done].
    + change (2 * 1) with (1 + 1). rewrite num_upd_at by vec_bounds. rewrite !num_1, Z.pow_1_r.
      unfold cell at 1. rewrite aget_upd_eq by vec_bounds. done.
  - eapply returns_bind; [by apply sqr_triangle_spec; try lia|]. intros m1 [Hm1 E1].
    eapply returns_bind; [apply sqr_double_spec; [by eapply modifies_wf|vec_bounds]|].
    intros [m2 bit] (Hm2 & Hbit & E2).
    eapply returns_bind; [apply sqr_diagonal_spec; by eapply modifies_trans|].
    intros [m3 cy] (Hm3 & Hcy & E3). apply returns_ret. split; [done|].
    pose proof (num_range m ap n Hw ltac:(lia)) as HA. pose proof (square_sums m ap n) as Hsq.
    pose proof (num_range m2 rp (2 * n) (modifies_wf _ _ _ _ Hm2) ltac:(lia)).
    pose proof (num_range m3 rp (2 * n) (modifies_wf _ _ _ _ Hm3) ltac:(lia)).
    assert (0 <= num m ap n * num m ap n < base ^ (2 * n)) as Hlt.
    { replace (2 * n) with (n + n) by lia. rewrite Z.pow_add_r by lia. nia. }
    assert (bit = 0) by nia. assert (cy = 0) by nia. subst. lia.
Qed.
End diagonal.
End double_and_diagonal.
