(* ===== verification/MpnDiv.v ===== *)
(** Division by a precomputed reciprocal and schoolbook division
    (math/arbint/div.hpp).

    Out-parameters become results, high limb first as in the parameter list.  A
    division by zero or an undefined shift is [None]. *)
From stdpp Require Import base numbers list option.
From Stdlib Require Import ZArith Lia.
From S2P Require Import Prelude Arrays Limb Mpn.

Local Open Scope Z_scope.

Section div.
Context `{LimbWidth}.

(** (sh, sl) *)
Definition add2 (ah al bh bl : Z) : Z * Z :=
  let '(c, lo) := addc al bl 0 in
  (to_limb (to_limb (ah + bh) + c), lo).

Definition sub2 (ah al bh bl : Z) : Z * Z :=
  let '(bw, lo) := subb al bl 0 in
  (to_limb (to_limb (ah - bh) - bw), lo).

Definition invert_limb (d : Z) : option Z :=
  if Z.eqb d 0 then None else Some (lo_half (join (limb_not d) limb_max / d)).

Definition invert_pi1 (d1 d0 : Z) : option Z :=
  v ← invert_limb d1;
  let p := to_limb (to_limb (d1 * v) + d0) in
  let '(v, p) :=
    if Z.ltb p d0 then
      let v := to_limb (v - 1) in
      let mask := limb_mask (Z.leb d1 p) in
      let p := to_limb (p - d1) in
      let v := to_limb (v + mask) in
      let p := to_limb (p - Z.land mask d1) in
      (v, p)
    else (v, p) in
  let '(t0, t1) := mul_wide d0 v in
  let p := to_limb (p + t1) in
  Some (if Z.ltb p t1 then
          let v := to_limb (v - 1) in
          if andb (Z.leb d1 p) (orb (Z.ltb d1 p) (Z.leb d0 t0)) then to_limb (v - 1) else v
        else v).

(** (q, r) *)
Definition divrem_2by1 (nh nl d dinv : Z) : Z * Z :=
  let '(ql, qh) := mul_wide nh dinv in
  let '(qh, ql) := add2 qh ql (to_limb (nh + 1)) nl in
  let rr := to_limb (nl - to_limb (qh * d)) in
  let mask := limb_mask (Z.ltb ql rr) in
  let qh := to_limb (qh + mask) in
  let rr := to_limb (rr + Z.land mask d) in
  if Z.leb d rr then (to_limb (qh + 1), to_limb (rr - d)) else (qh, rr).

(** (q, r1, r0) *)
Definition divrem_3by2 (n2 n1 n0 d1 d0 dinv : Z) : Z * Z * Z :=
  let '(q0, qh) := mul_wide n2 dinv in
  let '(qh, q0) := add2 qh q0 n2 n1 in
  let s1 := to_limb (n1 - to_limb (d1 * qh)) in
  let '(s1, s0) := sub2 s1 n0 d1 d0 in
  let '(t0, t1) := mul_wide d0 qh in
  let '(s1, s0) := sub2 s1 s0 t1 t0 in
  let qh := to_limb (qh + 1) in
  let mask := limb_mask (Z.leb q0 s1) in
  let qh := to_limb (qh + mask) in
  let '(s1, s0) := add2 s1 s0 (Z.land mask d1) (Z.land mask d0) in
  if andb (Z.leb d1 s1) (orb (Z.ltb d1 s1) (Z.leb d0 s0)) then
    let '(s1, s0) := sub2 s1 s0 d1 d0 in
    (to_limb (qh + 1), s1, s0)
  else (qh, s1, s0).

(** The limb of the shifted numerator at [i]: up[i] << sh, with the bits of
    up[i - 1] that move up. *)
Definition shifted_limb (m : mem) (up i sh rsh : Z) : option Z :=
  x ← m.[up + i];
  nl ← limb_shl x sh;
  if andb (negb (Z.eqb sh 0)) (Z.ltb 0 i) then
    y ← m.[up + (i - 1)];
    l ← limb_shr y rsh;
    Some (Z.lor nl l)
  else Some nl.

Definition divrem_1 (m : mem) (qp up un d : Z) : option (mem * Z) :=
  let sh := limb_clz d in
  dnorm ← limb_shl d sh;
  dinv ← invert_limb dnorm;
  let rsh := limb_bits - sh in
  r ← (if negb (Z.eqb sh 0) then x ← m.[up + (un - 1)]; limb_shr x rsh else Some 0);
  '(m, r) ← for_down un (fun i '(m, r) =>
    nl ← shifted_limb m up i sh rsh;
    let '(q, r) := divrem_2by1 r nl dnorm dinv in
    m ← aset m (qp + i) q;
    Some (m, r)) (m, r);
  r ← limb_shr r sh;
  Some (m, r).

Definition mod_1 (m : mem) (up un d : Z) : option Z :=
  let sh := limb_clz d in
  dnorm ← limb_shl d sh;
  dinv ← invert_limb dnorm;
  let rsh := limb_bits - sh in
  r ← (if negb (Z.eqb sh 0) then x ← m.[up + (un - 1)]; limb_shr x rsh else Some 0);
  r ← for_down un (fun i r =>
    nl ← shifted_limb m up i sh rsh;
    let '(q, r) := divrem_2by1 r nl dnorm dinv in
    Some r) r;
  limb_shr r sh.

(** One quotient limb of the schoolbook loop: the new memory, the top limb of the
    partial remainder and the quotient limb. *)
Definition sbpi1_digit (m : mem) (np dp dn d1 d0 dinv n1 j : Z) : option (mem * Z * Z) :=
  x1 ← m.[np + (j + dn - 1)];
  if andb (Z.eqb n1 d1) (Z.eqb x1 d0) then
    let q := limb_max in
    '(m, _) ← submul_1 m (np + j) dp dn q;
    n1 ← m.[np + (j + dn - 1)];
    Some (m, n1, q)
  else
    x0 ← m.[np + (j + dn - 2)];
    let '(q, n1, n0) := divrem_3by2 n1 x1 x0 d1 d0 dinv in
    '(m, cy) ← submul_1 m (np + j) dp (dn - 2) q;
    let cy1 := if Z.ltb n0 cy then 1 else 0 in
    let n0 := to_limb (n0 - cy) in
    let cy2 := if Z.ltb n1 cy1 then 1 else 0 in
    let n1 := to_limb (n1 - cy1) in
    m ← aset m (np + (j + dn - 2)) n0;
    if negb (Z.eqb cy2 0) then
      '(m, c) ← add_n m (np + j) (np + j) dp (dn - 1);
      Some (m, to_limb (to_limb (n1 + d1) + c), to_limb (q - 1))
    else Some (m, n1, q).

Definition sbpi1_div_qr (m : mem) (qp np nn dp dn dinv : Z) : option (mem * Z) :=
  c ← cmp m (np + nn - dn) dp dn;
  let qh := if Z.leb 0 c then 1 else 0 in
  m ← (if negb (Z.eqb qh 0) then
         '(m, _) ← sub_n m (np + nn - dn) (np + nn - dn) dp dn; Some m
       else Some m);
  d1 ← m.[dp + (dn - 1)];
  d0 ← m.[dp + (dn - 2)];
  n1 ← m.[np + (nn - 1)];
  '(m, n1) ← for_down (nn - dn) (fun j '(m, n1) =>
    '(m, n1, q) ← sbpi1_digit m np dp dn d1 d0 dinv n1 j;
    m ← aset m (qp + j) q;
    Some (m, n1)) (m, n1);
  m ← aset m (np + (dn - 1)) n1;
  Some (m, qh).
End div.
