(* ===== verification/MpnDivProof.v ===== *)
(** Correctness of the reciprocal divisions, of division by a limb and of
    schoolbook division. *)
From stdpp Require Import base numbers list option.
From Stdlib Require Import ZArith Lia.
From S2P Require Import Prelude Arrays Limb Mpn MpnValue MpnArith MpnBits MpnDiv.

Local Open Scope Z_scope.

(** ** The quotient estimates, as facts on integers

    With [V] the reciprocal of the divisor, the estimated quotient is off by at
    most one either way, and the low half [q0] of the product tells which. *)
Section estimates.
Context (B : Z).

Lemma estimate_2by1 d V k nh nl q1 q0 : 0 < B -> d * V = B * B - k -> 1 <= k <= d -> d < B ->
  0 <= nh < d -> 0 <= nl < B -> 0 <= q0 < B ->
  q1 * B + q0 = V * nh + nl + B ->
  let R := nh * B + nl - q1 * d in
  - d <= R /\ q0 - B < R /\ (R < B - d \/ R < q0).
Proof.
  intros HB HV Hk Hd Hnh Hnl Hq0 Eq R.
  assert (B * R = k * nh + (B - d) * nl - d * (B - q0)) as ER.
  { unfold R. transitivity (B * (nh * B + nl) - d * (V * nh + nl + B - q0)); [rewrite <- Eq; ring|].
    transitivity (B * (nh * B + nl) - (d * V) * nh - d * (nl + B - q0)); [ring|]. rewrite HV. ring. }
  clearbody R. clear Eq HV V q1.
  assert (0 <= k * nh) by (apply Z.mul_nonneg_nonneg; lia).
  assert (0 <= (B - d) * nl) by (apply Z.mul_nonneg_nonneg; lia).
  assert (k * nh <= d * (d - 1)) by (apply Z.mul_le_mono_nonneg; lia).
  assert ((B - d) * nl <= (B - d) * (B - 1)) by (apply Z.mul_le_mono_nonneg_l; lia).
  split_and!.
  - nia.
  - nia.
  - destruct (decide (R < B - d)); [by left|]. right. apply Z.nle_gt. intros Hge.
    assert ((B - d) * (B - d) <= (B - d) * R) by (apply Z.mul_le_mono_nonneg_l; lia).
    assert (d * q0 <= d * R) by (apply Z.mul_le_mono_nonneg_l; lia). lia.
Qed.

Lemma estimate_3by2 D V K n2 n1 n0 q1 q0 : 0 < B -> D * V = B * B * B - K -> 1 <= K <= D -> B <= V ->
  0 < D < B * B -> 0 <= n2 -> 0 <= n1 < B -> 0 <= n0 < B -> n2 * B + n1 < D -> 0 <= q0 < B ->
  q1 * B + q0 = n2 * V + n1 ->
  let R := n2 * B * B + n1 * B + n0 - (q1 + 1) * D in
  - D <= R /\ q0 * B - B * B < R /\ (R < B * B - D \/ R < q0 * B).
Proof.
  intros HB HV HK HVB HD Hn2 Hn1 Hn0 Hlt Hq0 Eq R.
  assert (B * R = n2 * K + n1 * (B * B - D) + n0 * B + q0 * D - B * D) as ER.
  { unfold R. transitivity (B * (n2 * B * B + n1 * B + n0) - (n2 * V + n1 - q0 + B) * D); [rewrite <- Eq; ring|].
    transitivity (B * (n2 * B * B + n1 * B + n0) - n2 * (D * V) - (n1 - q0 + B) * D); [ring|]. rewrite HV. ring. }
  clearbody R. clear Eq q1.
  assert (0 <= n2 * K) by (apply Z.mul_nonneg_nonneg; lia).
  assert (0 <= n1 * (B * B - D)) by (apply Z.mul_nonneg_nonneg; lia).
  assert (0 <= n0 * B <= (B - 1) * B) as Hn0B by (split; [apply Z.mul_nonneg_nonneg|apply Z.mul_le_mono_nonneg_r]; lia).
  assert (0 <= q0 * D <= q0 * (B * B)) by (split; [apply Z.mul_nonneg_nonneg|apply Z.mul_le_mono_nonneg_l]; lia).
  split; [apply (Z.mul_le_mono_pos_l _ _ B); lia|].
  split; [apply (Z.mul_lt_mono_pos_l B); [done|]|].
  { assert ((B - q0) * D < (B - q0) * (B * B)) by (apply Z.mul_lt_mono_pos_l; lia). lia. }
  destruct (decide (R < B * B - D)) as [|HR1]; [by left|]. right. apply Z.nle_gt. intros HR2. exfalso.
  set (e := B * B - D) in *. assert (D = B * B - e) as ED by lia. clearbody e. subst D.
  destruct (decide ((B * B - e) * (B + 1) <= B * B * B)) as [HA|HA].
  - assert (0 <= B * e - (B * B - e)) by lia.
    assert (n1 * (B * e - (B * B - e)) <= (B - 1) * (B * e - (B * B - e))) by (apply Z.mul_le_mono_nonneg_r; lia).
    assert (n2 * B * K <= n2 * B * (B * B - e)) by (apply Z.mul_le_mono_nonneg_l; [apply Z.mul_nonneg_nonneg; lia|lia]).
    assert (n2 * B * (B * B - e) <= (B * B - e - 1 - n1) * (B * B - e)) by (apply Z.mul_le_mono_nonneg_r; lia).
    assert (e * e <= e * R) by (apply Z.mul_le_mono_nonneg_l; lia).
    assert ((B * B - e) * (q0 * B) <= (B * B - e) * R) by (apply Z.mul_le_mono_nonneg_l; lia).
    assert (B * (n0 * B) <= B * ((B - 1) * B)) by (apply Z.mul_le_mono_nonneg_l; lia).
    assert (B * (B * R) = B * (n2 * K + n1 * e + n0 * B + q0 * (B * B - e) - B * (B * B - e))) by (by rewrite ER).
    lia.
  - assert (e <= B - 1).
    { apply Z.lt_succ_r, Z.nle_gt. intros Hge.
      assert (B * (B + 1) <= e * (B + 1)) by (apply Z.mul_le_mono_nonneg_r; lia). lia. }
    assert (V = B).
    { apply Z.le_antisymm; [|done]. apply Z.lt_succ_r, Z.nle_gt. intros Hge.
      assert ((B * B - e) * (B + 1) <= (B * B - e) * V) by (apply Z.mul_le_mono_nonneg_l; lia). lia. }
    subst V. assert (K = B * e) by lia. subst K. assert (0 <= q0 * e) by (apply Z.mul_nonneg_nonneg; lia).
    assert ((n2 * B + n1) * e <= (B * B - e - 1) * e) by (apply Z.mul_le_mono_nonneg_r; lia).
    assert ((B * B - e - 1) * e <= (B * B - e - 1) * (B - 1)) by (apply Z.mul_le_mono_nonneg_l; lia).
    assert (B * (q0 * B) <= B * R) by (apply Z.mul_le_mono_nonneg_l; lia). lia.
Qed.

(** The division of [u] by [d] is known once the remainder is in range. *)
Lemma quotient_unique u d q r : 0 <= r < d -> u = q * d + r -> q = u / d /\ r = u mod d.
Proof.
  intros Hr E. split; [apply (Z.div_unique _ _ _ r)|apply (Z.mod_unique _ _ q)]; lia.
Qed.

Lemma quotient_range N D q r : 0 <= N < D * B -> 0 <= r < D -> N = q * D + r -> 0 <= q < B.
Proof. intros HN Hr E. split; nia. Qed.
End estimates.

Section limbs.
Context `{LimbWidth}.

Definition norm_limb (d : Z) : Prop := is_limb d /\ base <= 2 * d.

Lemma to_limb_congr a b k : a = b + k * base -> to_limb a = to_limb b.
Proof. intros ->. rewrite !to_limb_eq. apply Z.mod_add. pose proof base_pos. lia. Qed.

Lemma invert_limb_spec d : norm_limb d ->
  exists v k, invert_limb d = Some v /\ is_limb v /\ d * (v + base) = base * base - k /\ 1 <= k <= d.
Proof.
  intros [Hd Hn]. pose proof base_ge as HB. unfold is_limb in Hd. unfold invert_limb.
  rewrite (proj2 (Z.eqb_neq d 0)) by lia.
  assert (limb_max = base - 1) as Em by (unfold limb_max; rewrite limb_not_eq by apply is_limb_0; lia).
  assert (join (limb_not d) limb_max = base * base - 1 - d * base) as Ej.
  { rewrite limb_not_eq, Em by done. unfold join. rewrite Z.shiftl_mul_pow2 by (pose proof limb_bits_pos; lia).
    fold base. rewrite to_dlimb_id by nia.
    pose proof (lor_high_low limb_bits (base - 1 - d) (base - 1)) as El. fold base in El.
    rewrite El by (pose proof limb_bits_pos; lia). ring. }
  rewrite Ej. set (u := base * base - 1 - d * base).
  pose proof (Z.div_mod u d ltac:(lia)) as Ed. pose proof (Z.mod_pos_bound u d ltac:(lia)) as Hm.
  assert (0 <= u / d < base) as Hq.
  { split; [apply Z.div_pos; [unfold u; nia|lia]|apply Z.div_lt_upper_bound; [lia|unfold u; nia]]. }
  exists (u / d), (1 + u mod d). unfold lo_half. rewrite to_limb_id by done.
  split; [done|]. split; [done|]. split; [|lia]. unfold u in *. lia.
Qed.

Lemma add2_spec ah al bh bl : is_limb ah -> is_limb al -> is_limb bh -> is_limb bl ->
  let '(sh, sl) := add2 ah al bh bl in
  is_limb sh /\ is_limb sl /\ exists k, sh * base + sl = (ah * base + al) + (bh * base + bl) + k * (base * base).
Proof.
  intros Hah Hal Hbh Hbl. unfold add2.
  destruct (addc_bit al bl 0 Hal Hbl) as (c & lo & -> & Hc & Hlo & E); [lia|].
  split; [apply to_limb_range|]. split; [done|].
  destruct (to_limb_wit (ah + bh)) as (k1 & E1 & _). destruct (to_limb_wit (to_limb (ah + bh) + c)) as (k2 & E2 & _).
  exists (- k1 - k2). nia.
Qed.

Lemma sub2_spec ah al bh bl : is_limb ah -> is_limb al -> is_limb bh -> is_limb bl ->
  let '(sh, sl) := sub2 ah al bh bl in
  is_limb sh /\ is_limb sl /\ exists k, sh * base + sl = (ah * base + al) - (bh * base + bl) + k * (base * base).
Proof.
  intros Hah Hal Hbh Hbl. unfold sub2.
  destruct (subb_bit al bl 0 Hal Hbl) as (c & lo & -> & Hc & Hlo & E); [lia|].
  split; [apply to_limb_range|]. split; [done|].
  destruct (to_limb_wit (ah - bh)) as (k1 & E1 & _). destruct (to_limb_wit (to_limb (ah - bh) - c)) as (k2 & E2 & _).
  exists (- k1 - k2). nia.
Qed.

Lemma mask_land (c : bool) d : is_limb d -> Z.land (limb_mask c) d = if c then d else 0.
Proof. intros. rewrite Z.land_comm, land_mask by done. destruct c; lia. Qed.

Lemma mask_add (c : bool) q : to_limb (q + limb_mask c) = to_limb (if c then q - 1 else q).
Proof.
  destruct c; unfold limb_mask.
  - apply (to_limb_congr _ _ 1). rewrite (to_limb_unique (0 - 1) (base - 1) (-1)) by (pose proof base_ge; unfold is_limb; lia). lia.
  - rewrite (to_limb_id (0 - 0)) by apply is_limb_0. f_equal. lia.
Qed.

Lemma to_limb_add_l a b : to_limb (to_limb a + b) = to_limb (a + b).
Proof. destruct (to_limb_wit a) as (k & E & _). apply (to_limb_congr _ _ (-k)). lia. Qed.

Lemma to_limb_sub_r a b : to_limb (a - to_limb b) = to_limb (a - b).
Proof. destruct (to_limb_wit b) as (k & E & _). apply (to_limb_congr _ _ k). lia. Qed.

Lemma to_limb_mul_l a b : to_limb (to_limb a * b) = to_limb (a * b).
Proof. destruct (to_limb_wit a) as (k & E & _). apply (to_limb_congr _ _ (- k * b)). nia. Qed.

(** The two corrections applied to the estimate [q1] with remainder [R]. *)
Lemma correct_2by1 d q1 q0 R : norm_limb d -> is_limb q0 ->
  - d <= R -> q0 - base < R -> (R < base - d \/ R < q0) ->
  let rr := to_limb R in
  let mask := limb_mask (Z.ltb q0 rr) in
  let qh := to_limb (to_limb q1 + mask) in
  let rr := to_limb (rr + Z.land mask d) in
  exists q r, (if Z.leb d rr then (to_limb (qh + 1), to_limb (rr - d)) else (qh, rr)) = (to_limb q, r) /\
    0 <= r < d /\ q * d + r = q1 * d + R.
Proof.
  intros [Hd Hn] Hq0 H1 H2 H3. unfold is_limb in *. rewrite mask_add, mask_land by done.
  destruct (decide (R < 0)) as [Hneg|Hpos].
  - rewrite (to_limb_unique R (R + base) (-1)) by (unfold is_limb; lia).
    rewrite (proj2 (Z.ltb_lt _ _)) by lia. rewrite (to_limb_unique _ (R + d) 1) by (unfold is_limb; lia).
    rewrite (proj2 (Z.leb_gt _ _)) by lia. exists (q1 - 1), (R + d).
    split; [|lia]. f_equal. rewrite <- Z.add_opp_r, to_limb_add_l. f_equal.
  - rewrite (to_limb_id R) by (unfold is_limb; lia). destruct (Z.ltb_spec q0 R).
    + rewrite (to_limb_id (R + d)) by (unfold is_limb; lia). rewrite (proj2 (Z.leb_le _ _)) by lia.
      exists q1, R. split; [|lia]. f_equal.
      * rewrite to_limb_add_l, Z.sub_add. apply to_limb_id, to_limb_range.
      * rewrite to_limb_id by (unfold is_limb; lia). lia.
    + rewrite Z.add_0_r, (to_limb_id R) by (unfold is_limb; lia). destruct (Z.leb_spec d R).
      * exists (q1 + 1), (R - d). split; [|lia]. f_equal.
        -- rewrite (to_limb_id (to_limb q1)) by apply to_limb_range. apply to_limb_add_l.
        -- apply to_limb_id. unfold is_limb. lia.
      * exists q1, R. split; [|lia]. f_equal. apply to_limb_id, to_limb_range.
Qed.

Lemma divrem_2by1_spec nh nl d dinv : norm_limb d -> invert_limb d = Some dinv ->
  0 <= nh < d -> is_limb nl ->
  divrem_2by1 nh nl d dinv = ((nh * base + nl) / d, (nh * base + nl) mod d).
Proof.
  intros Hd Hinv Hnh Hnl. pose proof base_ge as HB.
  destruct (invert_limb_spec d Hd) as (v & k & Ev & Hv & EV & Hk). rewrite Hinv in Ev. simplify_eq.
  assert (is_limb nh) as Hnh' by (destruct Hd; unfold is_limb in *; lia). unfold divrem_2by1.
  pose proof (mul_wide_spec nh v Hnh' Hv) as Hm. destruct (mul_wide nh v) as [ql qh].
  destruct Hm as (Hql & Hqh & _ & Em).
  pose proof (add2_spec qh ql (to_limb (nh + 1)) nl Hqh Hql (to_limb_range _) Hnl) as Ha.
  destruct (add2 qh ql (to_limb (nh + 1)) nl) as [qh' ql']. destruct Ha as (Hqh' & Hql' & k1 & E1).
  destruct (to_limb_wit (nh + 1)) as (k2 & E2 & _).
  set (q1 := qh' + (k2 - k1) * base).
  assert (q1 * base + ql' = (v + base) * nh + nl + base) as Eq by (unfold q1; nia).
  destruct (estimate_2by1 base d (v + base) k nh nl q1 ql') as (R1 & R2 & R3); try done;
    try (destruct Hd; unfold is_limb in *; lia).
  pose proof (correct_2by1 d q1 ql' (nh * base + nl - q1 * d) Hd Hql' R1 R2 R3) as Hc. cbv zeta in Hc.
  assert (to_limb (nh * base + nl - q1 * d) = to_limb (nl - to_limb (qh' * d))) as Er.
  { rewrite to_limb_sub_r. apply (to_limb_congr _ _ (nh - (k2 - k1) * d)). unfold q1. ring. }
  assert (to_limb q1 = qh') as Eqh by (apply (to_limb_unique _ _ (k2 - k1)); [done|unfold q1; ring]).
  rewrite Er, Eqh in Hc. destruct Hc as (q & r & -> & Hr & Equ).
  destruct (quotient_unique (nh * base + nl) d q r) as [Hq <-]; [done|lia|]. f_equal.
  rewrite Hq. apply to_limb_id. unfold is_limb in *.
  assert ((nh + 1) * base <= d * base) by (apply Z.mul_le_mono_nonneg_r; lia).
  assert (0 <= nh * base) by (apply Z.mul_nonneg_nonneg; lia).
  split; [apply Z.div_pos; lia|apply Z.div_lt_upper_bound; lia].
Qed.
End limbs.

(** ** Division by one limb *)

Lemma limb_clz_spec `{LimbWidth} d : is_limb d -> d <> 0 ->
  0 <= limb_clz d < limb_bits /\ limb_shl d (limb_clz d) = Some (d * 2 ^ limb_clz d) /\
  norm_limb (d * 2 ^ limb_clz d).
Proof.
  intros Hd Hz. unfold is_limb in Hd. pose proof limb_bits_pos as HW.
  unfold limb_clz, countl_zero, builtin_clz. rewrite (proj2 (Z.eqb_neq d 0)) by done.
  pose proof (Z.log2_spec d ltac:(lia)) as [L1 L2]. pose proof (Z.log2_nonneg d).
  assert (Z.log2 d < limb_bits) by (apply Z.log2_lt_pow2; [lia|apply Hd]).
  set (s := limb_bits - 1 - Z.log2 d) in *.
  assert (norm_limb (d * 2 ^ s)) as Hn.
  { assert (base = 2 * 2 ^ Z.log2 d * 2 ^ s) as HB.
    { rewrite <- Z.pow_succ_r, <- Z.pow_add_r by lia. unfold base. f_equal. lia. }
    rewrite Z.pow_succ_r in L2 by lia. pose proof (Z.pow_pos_nonneg 2 s).
    unfold norm_limb, is_limb. rewrite HB. nia. }
  split; [lia|]. split; [|done]. unfold limb_shl. rewrite decide_True by lia.
  rewrite Z.shiftl_mul_pow2 by lia. f_equal. apply to_limb_id, Hn.
Qed.

Section by_limb.
Context `{LimbWidth}.
Context (m : mem) (up un d : Z).
Context (Hw : wf m) (Hu : valid m up un) (Hn : 1 <= un) (Hd : is_limb d) (Hd0 : d <> 0).

Definition dsh : Z := limb_clz d.
Definition dnrm : Z := d * 2 ^ dsh.

(** The bits of a limb that move into the next one. *)
Definition carried (x : Z) : Z := if Z.eqb dsh 0 then 0 else hi_part dsh x.

(** The low [i] limbs of the numerator shifted by [dsh]. *)
Definition low_limbs (i : Z) : Z :=
  num m up i * 2 ^ dsh - base ^ i * (if Z.eqb i 0 then 0 else carried (cell m (up + (i - 1)))).

Lemma dsh_range : 0 <= dsh < limb_bits.
Proof. by apply limb_clz_spec. Qed.

Lemma dnrm_norm : norm_limb dnrm.
Proof. by apply limb_clz_spec. Qed.

Lemma carried_spec x : is_limb x ->
  limb_shl x dsh = Some (lo_part dsh x) /\ is_limb (lo_part dsh x) /\ 0 <= carried x < 2 ^ dsh /\
  x * 2 ^ dsh = lo_part dsh x + base * carried x.
Proof.
  intros Hx. pose proof dsh_range. unfold carried. destruct (Z.eqb_spec dsh 0) as [E|E].
  - rewrite E. unfold lo_part, limb_shl. rewrite decide_True by lia.
    rewrite Z.shiftl_0_r, to_limb_id, Z.pow_0_r by done. split_and!; try done; try apply Hx; lia.
  - destruct (limb_parts dsh x x Hx Hx) as (E1 & _ & E2 & E3 & E4 & _); [lia|]. by split_and!; try apply E2; try apply E3.
Qed.

Lemma low_limbs_0 : low_limbs 0 = 0.
Proof. unfold low_limbs. rewrite num_0. simpl. lia. Qed.

Lemma shifted_limb_spec m1 i : 0 <= i < un ->
  (forall k, 0 <= k <= i -> m1.[up + k] = m.[up + k]) ->
  exists x, shifted_limb m1 up i dsh (limb_bits - dsh) = Some x /\ is_limb x /\
    low_limbs (i + 1) = low_limbs i + base ^ i * x.
Proof.
  intros Hi Hsame. pose proof dsh_range. unfold shifted_limb.
  rewrite (Hsame i) by lia. rewrite (get_cell m (up + i)) by vec_bounds. cbn [mbind option_bind].
  pose proof (wf_cell m (up + i) Hw) as Hx. destruct (carried_spec _ Hx) as (-> & Hl & Hc & E).
  cbn [mbind option_bind]. unfold low_limbs. rewrite (proj2 (Z.eqb_neq (i + 1) 0)) by lia.
  rewrite Z.add_simpl_r, num_succ, base_succ by lia.
  destruct (Z.ltb_spec 0 i) as [Hpos|Hz].
  - rewrite (proj2 (Z.eqb_neq i 0)) by lia. unfold carried.
    destruct (Z.eqb_spec dsh 0) as [Es|Es]; cbn [negb andb].
    + eexists. split; [done|]. split; [done|]. unfold carried in E. rewrite Es in *. cbn in E |- *. lia.
    + rewrite (Hsame (i - 1)) by lia. rewrite get_cell by vec_bounds. cbn [mbind option_bind].
      destruct (limb_parts dsh (cell m (up + i)) (cell m (up + (i - 1)))) as (_ & _ & _ & _ & _ & H1 & H2);
        [done|by apply wf_cell|lia|].
      destruct (limb_parts dsh (cell m (up + (i - 1))) (cell m (up + i))) as (_ & -> & _);
        [by apply wf_cell|done|lia|]. cbn [mbind option_bind]. rewrite H2.
      eexists. split; [done|]. split; [done|]. unfold carried in E. rewrite (proj2 (Z.eqb_neq _ _) Es) in E. lia.
  - replace i with 0 in * by lia. rewrite andb_false_r. eexists. split; [done|]. split; [done|].
    rewrite num_0. cbn [Z.eqb]. lia.
Qed.

(** One step of the long division. *)
Lemma digit_step i r x Q dinv : invert_limb dnrm = Some dinv -> 0 <= i -> 0 <= r < dnrm -> is_limb x ->
  exists q r', divrem_2by1 r x dnrm dinv = (q, r') /\ is_limb q /\ 0 <= r' < dnrm /\
    base ^ (i + 1) * (Q * dnrm + r) + base ^ i * x = base ^ i * ((Q * base + q) * dnrm + r').
Proof.
  intros Hinv Hi Hr Hx. rewrite divrem_2by1_spec by (done || apply dnrm_norm).
  destruct dnrm_norm as [Hl Hb]. unfold is_limb in *. eexists _, _. split; [done|].
  pose proof (Z.div_mod (r * base + x) dnrm ltac:(lia)) as Ed.
  pose proof (Z.mod_pos_bound (r * base + x) dnrm ltac:(lia)) as Hm.
  split; [|split; [done|]].
  - assert ((r + 1) * base <= dnrm * base) by (apply Z.mul_le_mono_nonneg_r; lia).
    assert (0 <= r * base) by (apply Z.mul_nonneg_nonneg; lia).
    split; [apply Z.div_pos; lia|apply Z.div_lt_upper_bound; lia].
  - rewrite base_succ by done.
    transitivity (base ^ i * (Q * base * dnrm + (r * base + x))); [ring|]. rewrite Ed at 1. ring.
Qed.

(** The first remainder is what the shift moves out of the top limb. *)
Lemma top_limb : exists r,
  (if negb (Z.eqb dsh 0) then x ← m.[up + (un - 1)]; limb_shr x (limb_bits - dsh) else Some 0) = Some r /\
  0 <= r < dnrm /\ num m up un * 2 ^ dsh = base ^ un * r + low_limbs un.
Proof.
  pose proof dsh_range. pose proof (wf_cell m (up + (un - 1)) Hw) as Hx.
  destruct (carried_spec _ Hx) as (_ & _ & Hc & _).
  exists (carried (cell m (up + (un - 1)))). split; [|split].
  - unfold carried. destruct (Z.eqb_spec dsh 0); [done|]. cbn [negb].
    rewrite get_cell by vec_bounds. cbn [mbind option_bind]. unfold limb_shr. by rewrite decide_True by lia.
  - unfold dnrm. unfold is_limb in Hd. nia.
  - unfold low_limbs. rewrite (proj2 (Z.eqb_neq un 0)) by lia. lia.
Qed.

Lemma final_remainder r Q : 0 <= r < dnrm -> num m up un * 2 ^ dsh = Q * dnrm + r ->
  exists r', limb_shr r dsh = Some r' /\ 0 <= r' < d /\ num m up un = Q * d + r'.
Proof.
  intros Hr E. pose proof dsh_range. unfold limb_shr. rewrite decide_True by lia.
  rewrite Z.shiftr_div_pow2 by lia. pose proof (Z.pow_pos_nonneg 2 dsh ltac:(lia) ltac:(lia)) as Hp.
  unfold dnrm in *. assert (r = (num m up un - Q * d) * 2 ^ dsh) as -> by lia.
  rewrite Z.div_mul by lia. eexists. split; [done|]. split; [nia|lia].
Qed.

Lemma divrem_1_spec qp : valid m qp un -> bwd qp up un ->
  returns (divrem_1 m qp up un d) (fun '(m', r) =>
    modifies qp un m m' /\ num m' qp un = num m up un / d /\ r = num m up un mod d).
Proof.
  intros Hq Fq. unfold divrem_1. fold dsh.
  destruct (limb_clz_spec d Hd Hd0) as (_ & Es & _). fold dsh in Es. rewrite Es. fold dnrm. cbn [mbind option_bind].
  destruct (invert_limb_spec dnrm dnrm_norm) as (dinv & k & Hinv & _). rewrite Hinv. cbn [mbind option_bind].
  destruct top_limb as (r0 & -> & Hr0 & E0). cbn [mbind option_bind].
  eapply returns_bind with (P := fun '(m', r) => modifies qp un m m' /\ 0 <= r < dnrm /\
    num m up un * 2 ^ dsh = num m' qp un * dnrm + r).
  - apply (returns_for_down _ _ _ (fun i '(m', r) => modifies (qp + i) (un - i) m m' /\ 0 <= r < dnrm /\
      num m up un * 2 ^ dsh = base ^ i * (num m' (qp + i) (un - i) * dnrm + r) + low_limbs i)).
    + lia.
    + rewrite Z.sub_diag, num_0. split; [by apply modifies_refl|]. split; [done|lia].
    + intros i [m1 r] Hi (Hm1 & Hr & E).
      destruct (shifted_limb_spec m1 i) as (x & -> & Hx & El);
        [lia|intros; apply (modifies_out _ _ _ _ _ Hm1); vec_bounds|].
      cbn [mbind option_bind].
      destruct (digit_step i r x (num m1 (qp + (i + 1)) (un - (i + 1))) dinv Hinv) as (q & r' & -> & Hq' & Hr' & Es');
        [lia|done|done|].
      apply returns_set; [vec_bounds|]. apply returns_ret.
      split; [eapply modifies_upd_gen; [exact Hm1|vec_bounds..|done]|]. split; [done|].
      rewrite num_upd_low by vec_bounds. rewrite E, El.
      replace (un - i - 1) with (un - (i + 1)) by lia. replace (qp + i + 1) with (qp + (i + 1)) by lia. lia.
    + intros [m1 r] (Hm1 & Hr & E). rewrite low_limbs_0, Z.pow_0_r in E.
      rewrite (Z.add_0_r qp), (Z.sub_0_r un) in Hm1, E. split; [done|]. split; [done|]. lia.
  - intros [m1 r] (Hm1 & Hr & E). destruct (final_remainder r (num m1 qp un) Hr E) as (r' & -> & Hr' & E').
    cbn [mbind option_bind]. apply returns_ret. split; [done|]. by apply quotient_unique.
Qed.

Lemma mod_1_spec : mod_1 m up un d = Some (num m up un mod d).
Proof.
  apply returns_eq. unfold mod_1. fold dsh.
  destruct (limb_clz_spec d Hd Hd0) as (_ & Es & _). fold dsh in Es. rewrite Es. fold dnrm. cbn [mbind option_bind].
  destruct (invert_limb_spec dnrm dnrm_norm) as (dinv & k & Hinv & _). rewrite Hinv. cbn [mbind option_bind].
  destruct top_limb as (r0 & -> & Hr0 & E0). cbn [mbind option_bind].
  eapply returns_bind with (P := fun r => 0 <= r < dnrm /\ exists Q, num m up un * 2 ^ dsh = Q * dnrm + r).
  - apply (returns_for_down _ _ _ (fun i r => 0 <= r < dnrm /\
      exists Q, num m up un * 2 ^ dsh = base ^ i * (Q * dnrm + r) + low_limbs i)).
    + lia.
    + split; [done|]. exists 0. lia.
    + intros i r Hi (Hr & Q & E).
      destruct (shifted_limb_spec m i) as (x & -> & Hx & El); [lia|done|]. cbn [mbind option_bind].
      destruct (digit_step i r x Q dinv Hinv) as (q & r' & -> & Hq' & Hr' & Es'); [lia|done|done|].
      apply returns_ret. split; [done|]. exists (Q * base + q). rewrite E, El. lia.
    + intros r (Hr & Q & E). rewrite low_limbs_0, Z.pow_0_r in E. split; [done|]. exists Q. lia.
  - intros r (Hr & Q & E). destruct (final_remainder r Q Hr E) as (r' & -> & Hr' & E').
    apply returns_ret. symmetry. by apply (quotient_unique _ _ Q).
Qed.
End by_limb.

(** ** Three limbs by two *)

Section three_by_two.
Context `{LimbWidth}.

(** Two limbs hold a value below base^2 exactly. *)
Lemma two_unique s1 s0 X k : is_limb s1 -> is_limb s0 -> 0 <= X < base * base ->
  s1 * base + s0 = X + k * (base * base) -> s1 * base + s0 = X.
Proof. unfold is_limb. intros. assert (k = 0) by nia. lia. Qed.

Lemma two_range s1 s0 : is_limb s1 -> is_limb s0 -> 0 <= s1 * base + s0 < base * base.
Proof. unfold is_limb. nia. Qed.

Lemma two_leb s1 s0 d1 d0 : is_limb s1 -> is_limb s0 -> is_limb d1 -> is_limb d0 ->
  andb (Z.leb d1 s1) (orb (Z.ltb d1 s1) (Z.leb d0 s0)) = Z.leb (d1 * base + d0) (s1 * base + s0).
Proof.
  unfold is_limb. intros. destruct (Z.leb_spec (d1 * base + d0) (s1 * base + s0)) as [L|L];
    destruct (Z.leb_spec d1 s1), (Z.ltb_spec d1 s1), (Z.leb_spec d0 s0); cbn [andb orb]; try done; exfalso; nia.
Qed.

Definition norm_two (d1 d0 : Z) : Prop := norm_limb d1 /\ is_limb d0.

Lemma norm_two_bounds d1 d0 : norm_two d1 d0 ->
  0 < d1 * base + d0 < base * base /\ base * base <= 2 * (d1 * base + d0).
Proof. intros [[Hd Hn] Hd0]. pose proof base_ge. unfold is_limb in *. nia. Qed.

(** The last correction: subtract the divisor once if it fits. *)
Lemma subtract_once d1 d0 x1 x0 qh : norm_two d1 d0 -> is_limb x1 -> is_limb x0 -> is_limb qh ->
  exists e r1 r0,
    (if andb (Z.leb d1 x1) (orb (Z.ltb d1 x1) (Z.leb d0 x0)) then
       let '(s1, s0) := sub2 x1 x0 d1 d0 in (to_limb (qh + 1), s1, s0)
     else (qh, x1, x0)) = (to_limb (qh + e), r1, r0) /\
    is_limb r1 /\ is_limb r0 /\ r1 * base + r0 < d1 * base + d0 /\
    e * (d1 * base + d0) + (r1 * base + r0) = x1 * base + x0.
Proof.
  intros Hn Hx1 Hx0 Hqh. pose proof (norm_two_bounds _ _ Hn) as [HD HD2]. destruct Hn as [[Hd1 _] Hd0].
  pose proof (two_range x1 x0 Hx1 Hx0). rewrite two_leb by done.
  destruct (Z.leb_spec (d1 * base + d0) (x1 * base + x0)) as [L|L].
  - pose proof (sub2_spec x1 x0 d1 d0 Hx1 Hx0 Hd1 Hd0) as Hsub. destruct (sub2 x1 x0 d1 d0) as [y1 y0].
    destruct Hsub as (Hy1 & Hy0 & k2 & Ey).
    assert (y1 * base + y0 = x1 * base + x0 - (d1 * base + d0)) as Ey'
      by (apply (two_unique _ _ _ k2); done || lia).
    exists 1, y1, y0. split; [done|]. split; [done|]. split; [done|]. lia.
  - exists 0, x1, x0. rewrite Z.add_0_r, to_limb_id by done. split; [done|]. split; [done|]. split; [done|]. lia.
Qed.

(** The corrections after the estimate. *)
Lemma correct_3by2 d1 d0 q1 q0 s1 s0 R k : norm_two d1 d0 -> is_limb q0 -> is_limb s1 -> is_limb s0 ->
  s1 * base + s0 = R + k * (base * base) ->
  - (d1 * base + d0) <= R -> q0 * base - base * base < R ->
  (R < base * base - (d1 * base + d0) \/ R < q0 * base) ->
  let mask := limb_mask (Z.leb q0 s1) in
  let qh := to_limb (to_limb q1 + mask) in
  let '(s1, s0) := add2 s1 s0 (Z.land mask d1) (Z.land mask d0) in
  exists q r1 r0,
    (if andb (Z.leb d1 s1) (orb (Z.ltb d1 s1) (Z.leb d0 s0)) then
       let '(s1, s0) := sub2 s1 s0 d1 d0 in (to_limb (qh + 1), s1, s0)
     else (qh, s1, s0)) = (to_limb q, r1, r0) /\
    is_limb r1 /\ is_limb r0 /\ r1 * base + r0 < d1 * base + d0 /\
    q * (d1 * base + d0) + (r1 * base + r0) = q1 * (d1 * base + d0) + R.
Proof.
  intros Hn Hq0 Hs1 Hs0 Es R1 R2 R3. pose proof (norm_two_bounds _ _ Hn) as [HD HD2].
  pose proof Hn as [[Hd1 _] Hd0]. cbv zeta. rewrite mask_add, !mask_land by done.
  pose proof (two_range s1 s0 Hs1 Hs0) as Hs. set (c := Z.leb q0 s1).
  assert (exists R', 0 <= R' < base * base /\ R' = R + (if c then d1 * base + d0 else 0)) as (R' & HR' & ER').
  { eexists. split; [|done]. unfold c. clear c. unfold is_limb in *.
    assert (q0 * base <= (base - 1) * base) by (apply Z.mul_le_mono_nonneg_r; lia).
    destruct (decide (R < 0)) as [Hneg|Hpos].
    - assert (s1 * base + s0 = R + base * base) by (apply (two_unique _ _ _ (k - 1)); unfold is_limb; lia).
      rewrite (proj2 (Z.leb_le _ _)) by nia. lia.
    - assert (s1 * base + s0 = R) by (apply (two_unique _ _ _ k); unfold is_limb; lia).
      destruct (Z.leb_spec q0 s1) as [L|L]; [|lia].
      assert (q0 * base <= s1 * base) by (apply Z.mul_le_mono_nonneg_r; lia). lia. }
  pose proof (add2_spec s1 s0 (if c then d1 else 0) (if c then d0 else 0) Hs1 Hs0) as Ha.
  destruct (add2 s1 s0 (if c then d1 else 0) (if c then d0 else 0)) as [x1 x0].
  destruct Ha as (Hx1 & Hx0 & k1 & Ex); [by destruct c; [|apply is_limb_0]..|].
  assert (x1 * base + x0 = R') as Ex' by (apply (two_unique _ _ _ (k + k1)); try done; destruct c; lia).
  destruct (subtract_once d1 d0 x1 x0 (to_limb (if c then to_limb q1 - 1 else to_limb q1)))
    as (e & r1 & r0 & -> & Hr1 & Hr0 & Hr & Er); [done..|apply to_limb_range|].
  exists ((if c then q1 - 1 else q1) + e), r1, r0. split; [|split; [done|split; [done|split; [done|]]]].
  - do 2 f_equal. rewrite to_limb_add_l. destruct c.
    + replace (to_limb q1 - 1 + e) with (to_limb q1 + (e - 1)) by lia. rewrite to_limb_add_l. f_equal. lia.
    + apply to_limb_add_l.
  - destruct c; lia.
Qed.

(** The reciprocal of a two-limb divisor: [V = v + B] with D V in [B^3 - D, B^3). *)
Definition recip_two (d1 d0 v : Z) : Prop :=
  is_limb v /\ exists K, 1 <= K <= d1 * base + d0 /\
    (d1 * base + d0) * (v + base) = base * base * base - K.

(** First correction of invert_pi1: afterwards d1 V + d0 = B^2 - B + p with p at
    least B - d1. *)
Lemma invert_pi1_first d1 d0 v k : norm_two d1 d0 -> is_limb v ->
  d1 * (v + base) = base * base - k -> 1 <= k <= d1 ->
  let p := to_limb (to_limb (d1 * v) + d0) in
  let '(v, p) :=
    if Z.ltb p d0 then
      (to_limb (to_limb (v - 1) + limb_mask (Z.leb d1 p)),
       to_limb (to_limb (p - d1) - Z.land (limb_mask (Z.leb d1 p)) d1))
    else (v, p) in
  is_limb v /\ is_limb p /\ base - d1 <= p /\ d1 * (v + base) + d0 = base * base - base + p.
Proof.
  intros [[Hd1 Hn] Hd0] Hv EV Hk. pose proof base_ge as HB. unfold is_limb in Hd1, Hd0.
  cbv zeta. rewrite (to_limb_add_l (d1 * v) d0), mask_add, mask_land by done.
  destruct (decide (base - k + d0 < base)) as [Hno|Hov].
  - rewrite (to_limb_unique (d1 * v + d0) (base - k + d0) (base - d1 - 1)) by (unfold is_limb; lia).
    rewrite (proj2 (Z.ltb_ge _ _)) by lia. split; [done|]. unfold is_limb. lia.
  - rewrite (to_limb_unique (d1 * v + d0) (d0 - k) (base - d1)) by (unfold is_limb; lia).
    rewrite (proj2 (Z.ltb_lt _ _)) by lia.
    assert (base - 1 <= v + base) as Hlow by (unfold is_limb in Hv; lia).
    destruct (Z.leb_spec d1 (d0 - k)) as [L|L].
    + rewrite (to_limb_id (d0 - k - d1)) by (unfold is_limb; lia).
      rewrite (to_limb_unique (d0 - k - d1 - d1) (d0 - k - d1 - d1 + base) (-1)) by (unfold is_limb; lia).
      assert (2 <= v) by (unfold is_limb in Hv; nia).
      rewrite <- Z.add_opp_r, to_limb_add_l, to_limb_id by (unfold is_limb in *; lia). unfold is_limb in *. lia.
    + rewrite (to_limb_unique (d0 - k - d1) (d0 - k - d1 + base) (-1)) by (unfold is_limb; lia).
      rewrite Z.sub_0_r, (to_limb_id (d0 - k - d1 + base)) by (unfold is_limb; lia).
      assert (1 <= v) by (unfold is_limb in Hv; nia).
      rewrite (to_limb_id (to_limb (v - 1))), to_limb_id by (apply to_limb_range || (unfold is_limb in *; lia)).
      unfold is_limb in *. lia.
Qed.

(** A candidate close enough to B^3 from below is a limb above B. *)
Lemma recip_two_intro d1 d0 v K : norm_two d1 d0 -> 1 <= K <= d1 * base + d0 ->
  (d1 * base + d0) * (v + base) = base * base * base - K -> recip_two d1 d0 (to_limb v) /\ to_limb v = v.
Proof.
  intros Hn HK E. pose proof (norm_two_bounds _ _ Hn) as [HD HD2]. pose proof base_ge as HB.
  set (D := d1 * base + d0) in *.
  assert (0 <= v).
  { apply Z.nlt_ge. intros Hlt. assert (D * (v + base + 1) <= D * base) by (apply Z.mul_le_mono_nonneg_l; lia).
    assert (D * base <= (base * base - 1) * base) by (apply Z.mul_le_mono_nonneg_r; lia). lia. }
  assert (v < base).
  { apply Z.nle_gt. intros Hge. assert (D * (2 * base) <= D * (v + base)) by (apply Z.mul_le_mono_nonneg_l; lia).
    assert (base * base * base <= 2 * D * base) by (apply Z.mul_le_mono_nonneg_r; lia). lia. }
  assert (to_limb v = v) as Ev by (apply to_limb_id; unfold is_limb; lia).
  rewrite Ev. split; [|done]. split; [unfold is_limb; lia|]. by exists K.
Qed.

Lemma invert_pi1_spec d1 d0 : norm_two d1 d0 -> exists v, invert_pi1 d1 d0 = Some v /\ recip_two d1 d0 v.
Proof.
  intros Hn. pose proof (norm_two_bounds _ _ Hn) as [HD HD2]. pose proof Hn as [Hn1 Hd0].
  destruct (invert_limb_spec d1 Hn1) as (v0 & k & E0 & Hv0 & EV & Hk).
  unfold invert_pi1. rewrite E0. cbn [mbind option_bind].
  pose proof (invert_pi1_first d1 d0 v0 k Hn Hv0 EV Hk) as Hf. cbv zeta in Hf |- *.
  destruct (if Z.ltb (to_limb (to_limb (d1 * v0) + d0)) d0 then _ else _) as [v p].
  destruct Hf as (Hv & Hp & Hpl & Ep).
  pose proof (mul_wide_spec d0 v Hd0 Hv) as Hm. destruct (mul_wide d0 v) as [t0 t1].
  destruct Hm as (Ht0 & Ht1 & _ & Et).
  assert ((d1 * base + d0) * (v + base) = base * base * base - base * base + (p + t1) * base + t0) as EP.
  { transitivity (base * (d1 * (v + base) + d0) + d0 * v); [ring|]. rewrite Ep, <- Et. ring. }
  eexists. split; [done|]. destruct Hn1 as [Hd1 Hb1]. pose proof (two_range p t0 Hp Ht0).
  destruct (decide (p + t1 < base)) as [Hno|Hov].
  - rewrite (to_limb_id (p + t1)), (proj2 (Z.ltb_ge _ _)) by (unfold is_limb in *; lia).
    destruct (recip_two_intro d1 d0 v (base * base - (p + t1) * base - t0)) as [Hr Ev]; [done| |lia|by rewrite Ev in Hr].
    assert ((base - d1) * base <= (p + t1) * base) by (apply Z.mul_le_mono_nonneg_r; unfold is_limb in *; lia).
    assert ((p + t1) * base <= (base - 1) * base) by (apply Z.mul_le_mono_nonneg_r; unfold is_limb in *; lia).
    unfold is_limb in *. lia.
  - rewrite (to_limb_unique (p + t1) (p + t1 - base) 1), (proj2 (Z.ltb_lt _ _)) by (unfold is_limb in *; lia).
    assert (is_limb (p + t1 - base)) as Hp' by (unfold is_limb in *; lia).
    pose proof (two_range _ _ Hp' Ht0). rewrite two_leb by done.
    destruct (Z.leb_spec (d1 * base + d0) ((p + t1 - base) * base + t0)) as [L|L].
    + replace (to_limb (to_limb (v - 1) - 1)) with (to_limb (v - 2))
        by (rewrite <- (Z.add_opp_r (to_limb _)), to_limb_add_l; f_equal; lia).
      eapply (recip_two_intro d1 d0 (v - 2) (2 * (d1 * base + d0) - ((p + t1 - base) * base + t0))); [done|lia|lia].
    + eapply (recip_two_intro d1 d0 (v - 1) ((d1 * base + d0) - ((p + t1 - base) * base + t0))); [done|lia|lia].
Qed.

Lemma divrem_3by2_spec n2 n1 n0 d1 d0 dinv : norm_two d1 d0 -> recip_two d1 d0 dinv ->
  is_limb n2 -> is_limb n1 -> is_limb n0 -> n2 * base + n1 < d1 * base + d0 ->
  exists q r1 r0, divrem_3by2 n2 n1 n0 d1 d0 dinv = (q, r1, r0) /\
    is_limb q /\ is_limb r1 /\ is_limb r0 /\ r1 * base + r0 < d1 * base + d0 /\
    n2 * base * base + n1 * base + n0 = q * (d1 * base + d0) + (r1 * base + r0).
Proof.
  intros Hn (Hv & K & HK & EV) Hn2 Hn1 Hn0 Hlt. pose proof (norm_two_bounds _ _ Hn) as [HD HD2].
  pose proof Hn as [[Hd1 _] Hd0]. pose proof base_ge as HB. unfold divrem_3by2.
  pose proof (mul_wide_spec n2 dinv Hn2 Hv) as Hm. destruct (mul_wide n2 dinv) as [a0 a1].
  destruct Hm as (Ha0 & Ha1 & _ & Em).
  pose proof (add2_spec a1 a0 n2 n1 Ha1 Ha0 Hn2 Hn1) as Ha. destruct (add2 a1 a0 n2 n1) as [qh q0].
  destruct Ha as (Hqh & Hq0 & k1 & E1).
  assert (qh * base + q0 = n2 * (dinv + base) + n1) as Eq.
  { apply (two_unique _ _ _ k1); [done..| |lia]. unfold is_limb in *.
    split; [apply Z.add_nonneg_nonneg; [apply Z.mul_nonneg_nonneg; lia|lia]|].
    apply (Z.mul_lt_mono_pos_r base); [lia|].
    assert (n1 * base <= n1 * (dinv + base)) by (apply Z.mul_le_mono_nonneg_l; lia).
    assert ((n2 * base + n1) * (dinv + base) <= (d1 * base + d0) * (dinv + base))
      by (apply Z.mul_le_mono_nonneg_r; lia). lia. }
  destruct (estimate_3by2 base (d1 * base + d0) (dinv + base) K n2 n1 n0 qh q0) as (R1 & R2 & R3);
    try done; try (unfold is_limb in *; lia).
  set (D := d1 * base + d0) in *. set (R := n2 * base * base + n1 * base + n0 - (qh + 1) * D) in *.
  set (s1 := to_limb (n1 - to_limb (d1 * qh))).
  pose proof (sub2_spec s1 n0 d1 d0 (to_limb_range _) Hn0 Hd1 Hd0) as Hs. destruct (sub2 s1 n0 d1 d0) as [x1 x0].
  destruct Hs as (Hx1 & Hx0 & k2 & E2).
  pose proof (mul_wide_spec d0 qh Hd0 Hqh) as Ht. destruct (mul_wide d0 qh) as [t0 t1].
  destruct Ht as (Ht0 & Ht1 & _ & Et).
  pose proof (sub2_spec x1 x0 t1 t0 Hx1 Hx0 Ht1 Ht0) as Hs. destruct (sub2 x1 x0 t1 t0) as [y1 y0].
  destruct Hs as (Hy1 & Hy0 & k3 & E3).
  assert (exists k, y1 * base + y0 = R + k * (base * base)) as [k Ey].
  { unfold s1 in E2. rewrite to_limb_sub_r in E2. destruct (to_limb_wit (n1 - d1 * qh)) as (k4 & E4 & _).
    exists (k2 + k3 - k4 - n2). unfold R, D. rewrite E3, E2, (Z.add_comm (t1 * base)), (Z.mul_comm t1), Et.
    replace (to_limb (n1 - d1 * qh)) with (n1 - d1 * qh - k4 * base) by lia. ring. }
  pose proof (correct_3by2 d1 d0 (qh + 1) q0 y1 y0 R k Hn Hq0 Hy1 Hy0 Ey R1 R2 R3) as Hc. cbv zeta in Hc.
  destruct (add2 y1 y0 _ _) as [z1 z0].
  destruct Hc as (q & r1 & r0 & -> & Hr1 & Hr0 & Hr & Er).
  assert (0 <= q < base) as Hq.
  { pose proof (two_range r1 r0 Hr1 Hr0). unfold is_limb in Hn2, Hn1, Hn0.
    apply (quotient_range base ((n2 * base + n1) * base + n0) D q (r1 * base + r0)); [|lia|unfold R in Er; lia].
    assert ((n2 * base + n1 + 1) * base <= D * base) by (apply Z.mul_le_mono_nonneg_r; lia).
    assert (0 <= n2 * base) by (apply Z.mul_nonneg_nonneg; lia).
    assert (0 <= (n2 * base + n1) * base) by (apply Z.mul_nonneg_nonneg; lia). lia. }
  exists q, r1, r0. rewrite to_limb_id by done. split; [done|]. unfold R, D in *. split_and!; try done; try apply Hr1; try apply Hr0; lia.
Qed.
End three_by_two.
