(* ===== verification/MpnSchoolbook.v ===== *)
(** Correctness of schoolbook division (sbpi1_div_qr): the quotient and remainder
    of a vector by a normalized divisor of two limbs or more.

    Each step divides the window of dn + 1 limbs at [j], whose top limb is kept
    apart in [n1], by the divisor; the estimate from the top three limbs is at
    most one too large. *)
From stdpp Require Import base numbers list option.
From Stdlib Require Import ZArith Lia.
From S2P Require Import Prelude Arrays Limb Mpn MpnValue MpnArith MpnBits MpnDiv MpnDivProof.

Local Open Scope Z_scope.

Lemma two_inj B a b c d : 0 <= b < B -> 0 <= d < B -> a * B + b = c * B + d -> a = c /\ b = d.
Proof. intros Hb Hd E. assert (a = c) by nia. subst. lia. Qed.

(** ** The step, on integers

    [P] is the weight of the limbs below the top two, [L] and [Dl] the values of
    those limbs of the window and of the divisor. *)
Section digit.
Context (B P d1 d0 Dl : Z).
Context (HB : 2 <= B) (HP : 0 < P) (Hd1 : 1 <= d1 < B) (Hd0 : 0 <= d0 < B) (HDl : 0 <= Dl < P).

Definition divisor : Z := P * (d1 * B + d0) + Dl.

Lemma window_top n1 x1 x0 L : 0 <= x0 -> 0 <= L ->
  P * ((n1 * B + x1) * B + x0) + L < B * divisor -> n1 * B + x1 <= d1 * B + d0.
Proof.
  intros Hx0 HL Hlt. unfold divisor in Hlt. apply Z.lt_succ_r, Z.nle_gt. intros Hge.
  assert (P * B * (d1 * B + d0 + 1) <= P * B * (n1 * B + x1)) by (apply Z.mul_le_mono_nonneg_l; nia).
  assert (B * Dl <= B * (P - 1)) by (apply Z.mul_le_mono_nonneg_l; lia).
  assert (0 <= P * x0) by (apply Z.mul_nonneg_nonneg; lia). lia.
Qed.

Lemma window_max x0 L : 0 <= x0 -> 0 <= L -> (B - 1) * divisor <= P * ((d1 * B + d0) * B + x0) + L.
Proof.
  intros Hx0 HL. unfold divisor.
  assert ((B - 1) * Dl <= (B - 1) * P) by (apply Z.mul_le_mono_nonneg_l; lia).
  assert (P * B <= P * (d1 * B + d0)) by (apply Z.mul_le_mono_nonneg_l; nia).
  assert (0 <= P * x0) by (apply Z.mul_nonneg_nonneg; lia). lia.
Qed.

(** After subtracting q times the divisor, the partial remainder is short of zero
    by less than one divisor. *)
Lemma remainder_range r q L s L2 : 0 <= q < B -> 0 <= L -> 0 <= L2 < P -> 0 <= r < d1 * B + d0 ->
  P * s + L2 = P * r + L - Dl * q -> s <= r ->
  - divisor <= P * s + L2 < divisor /\ (P * s + L2 < 0 <-> s < 0).
Proof.
  intros Hq HL HL2 Hr E Hs. unfold divisor.
  assert (Dl * q <= P * (B - 1)) by (apply Z.mul_le_mono_nonneg; lia).
  assert (P * B <= P * (d1 * B + d0)) by (apply Z.mul_le_mono_nonneg_l; nia).
  assert (0 <= P * r) by (apply Z.mul_nonneg_nonneg; lia).
  assert (P * s <= P * (d1 * B + d0 - 1)) by (apply Z.mul_le_mono_nonneg_l; lia).
  split; [lia|]. split; intros; nia.
Qed.
End digit.

Section digit_step.
Context `{LimbWidth}.
Context (m : mem) (np dp dn dinv n1 j : Z).
Context (Hw : wf m) (Hnp : valid m (np + j) dn) (Hdp : valid m dp dn) (Hdn : 2 <= dn).
Context (Dd : disjoint dp dn (np + j) dn).

Let d1 := cell m (dp + (dn - 1)).
Let d0 := cell m (dp + (dn - 2)).
Let D := num m dp dn.
Let P := base ^ (dn - 2).
Let x1 := cell m (np + j + (dn - 1)).
Let x0 := cell m (np + j + (dn - 2)).
Let L := num m (np + j) (dn - 2).
Let X := base ^ dn * n1 + num m (np + j) dn.

Context (Hnorm : norm_limb d1) (Hrec : recip_two d1 d0 dinv) (Hn1 : is_limb n1) (HX : X < base * D).

Lemma top_two p m' : num m' p dn =
  num m' p (dn - 2) + P * (cell m' (p + (dn - 2)) + base * cell m' (p + (dn - 1))).
Proof.
  rewrite (num_split_at m' p (dn - 2)) by lia. f_equal. unfold P. f_equal.
  replace (dn - (dn - 2)) with (1 + 1) by lia. rewrite num_cons, num_1 by lia. do 3 f_equal. lia.
Qed.

Lemma weights : 0 < P /\ base ^ (dn - 1) = P * base /\ base ^ dn = P * (base * base).
Proof.
  split; [apply base_pow_pos; lia|]. unfold P. split.
  - replace (dn - 1) with (dn - 2 + 1) by lia. rewrite base_succ by lia. lia.
  - replace dn with (dn - 2 + 1 + 1) at 1 by lia. rewrite !base_succ by lia. lia.
Qed.

Lemma divisor_eq : D = divisor base P d1 d0 (num m dp (dn - 2)).
Proof. unfold D, divisor. rewrite top_two. fold d1 d0. lia. Qed.

Lemma window_eq : X = P * ((n1 * base + x1) * base + x0) + L.
Proof. unfold X. rewrite top_two. fold x1 x0 L. destruct weights as (_ & _ & ->). lia. Qed.

Lemma limb_facts : 2 <= base /\ 1 <= d1 < base /\ 0 <= d0 < base /\ 0 <= x1 < base /\ 0 <= x0 < base /\
  0 <= num m dp (dn - 2) < P /\ 0 <= L < P /\ 0 <= n1 < base.
Proof.
  pose proof base_ge. destruct Hnorm as [Hd1 Hn]. unfold is_limb in Hd1, Hn1.
  pose proof (wf_cell m (dp + (dn - 2)) Hw) as Hc0. pose proof (wf_cell m (np + j + (dn - 1)) Hw) as Hc1.
  pose proof (wf_cell m (np + j + (dn - 2)) Hw) as Hc2. unfold is_limb in Hc0, Hc1, Hc2.
  pose proof (num_range m dp (dn - 2) Hw ltac:(lia)) as R1.
  pose proof (num_range m (np + j) (dn - 2) Hw ltac:(lia)) as R2.
  fold d0 in Hc0. fold x1 in Hc1. fold x0 in Hc2. fold P in R1, R2. fold L in R2. lia.
Qed.

(** What a step leaves: the quotient limb and a partial remainder below the
    divisor, whose top limb is returned apart. *)
Definition digit_post (m' : mem) (n1' q : Z) : Prop :=
  modifies (np + j) dn m m' /\ is_limb n1' /\ is_limb q /\
  X = q * D + (base ^ (dn - 1) * n1' + num m' (np + j) (dn - 1)) /\
  base ^ (dn - 1) * n1' + num m' (np + j) (dn - 1) < D.

(** The window starts with the top two limbs of the divisor. *)
Lemma digit_max : n1 = d1 -> x1 = d0 ->
  returns ('(m, _) ← submul_1 m (np + j) dp dn limb_max;
           n1 ← m.[np + (j + dn - 1)]; Some (m, n1, limb_max))
    (fun '(m', n1', q) => digit_post m' n1' q).
Proof.
  intros E1 E0. destruct limb_facts as (HB & Hd1 & Hd0 & _ & Hx0 & HDl & HL & _).
  assert (limb_max = base - 1) as Em by (unfold limb_max; rewrite limb_not_eq by apply is_limb_0; lia).
  assert (is_limb limb_max) as Hq by (rewrite Em; unfold is_limb; lia).
  eapply returns_bind; [apply (submul_1_spec m (np + j) dp dn Hw Hnp Hdp); [vec_bounds|exact Hq]|].
  intros [m2 cy] (Hm2 & Hcy & E). replace (np + (j + dn - 1)) with (np + j + (dn - 1)) by lia.
  rewrite get_cell by vec_bounds. cbn [mbind option_bind]. apply returns_ret.
  pose proof (modifies_wf _ _ _ _ Hm2) as Hw2. pose proof (num_range m2 (np + j) dn Hw2 ltac:(lia)) as R2.
  pose proof (num_range m dp dn Hw ltac:(lia)) as RD. fold D in RD, E.
  assert ((base - 1) * D <= X) as Hlow.
  { rewrite window_eq, E1, E0, divisor_eq. apply window_max; lia || apply weights. }
  rewrite Em in E. unfold X in *.
  assert (n1 = cy) as Ecy by (pose proof (base_pow_pos dn ltac:(lia)); nia).
  assert (num m2 (np + j) dn = base ^ (dn - 1) * cell m2 (np + j + (dn - 1)) + num m2 (np + j) (dn - 1)) as Et.
  { replace dn with (dn - 1 + 1) at 1 by lia. rewrite num_succ by lia. lia. }
  split; [done|]. split; [by apply wf_cell|]. split; [done|]. rewrite <- Et, Em. unfold X. split; lia.
Qed.

(** Subtracting a limb from a two-limb value. *)
Lemma two_sub r1 r0 cy : is_limb r1 -> is_limb r0 -> is_limb cy ->
  let cy1 := if Z.ltb r0 cy then 1 else 0 in
  let cy2 := if Z.ltb r1 cy1 then 1 else 0 in
  is_limb (to_limb (r0 - cy)) /\ is_limb (to_limb (r1 - cy1)) /\
  r1 * base + r0 - cy = to_limb (r1 - cy1) * base + to_limb (r0 - cy) - cy2 * (base * base) /\
  (r1 * base + r0 - cy < 0 <-> cy2 = 1).
Proof.
  intros H1 H0 Hc. cbv zeta. split; [apply to_limb_range|]. split; [apply to_limb_range|].
  pose proof base_ge. unfold is_limb in *. destruct (Z.ltb_spec r0 cy).
  - rewrite (to_limb_unique (r0 - cy) (r0 - cy + base) (-1)) by (unfold is_limb; lia).
    destruct (Z.ltb_spec r1 1).
    + rewrite (to_limb_unique (r1 - 1) (r1 - 1 + base) (-1)) by (unfold is_limb; lia). replace r1 with 0 by lia. lia.
    + rewrite to_limb_id by (unfold is_limb; lia). split; [lia|]. split; [nia|lia].
  - rewrite to_limb_id by (unfold is_limb; lia). rewrite (proj2 (Z.ltb_ge r1 0)) by lia.
    rewrite to_limb_id by (unfold is_limb; lia). split; [lia|]. split; [nia|lia].
Qed.

(** The borrow of the estimate being one too large: add the divisor back. *)
Lemma digit_addback m3 n1' q : modifies (np + j) dn m m3 -> is_limb n1' -> is_limb q ->
  X = q * D + (base ^ (dn - 1) * (n1' - base) + num m3 (np + j) (dn - 1)) ->
  - D <= base ^ (dn - 1) * (n1' - base) + num m3 (np + j) (dn - 1) < 0 ->
  returns ('(m, c) ← add_n m3 (np + j) (np + j) dp (dn - 1);
           Some (m, to_limb (to_limb (n1' + d1) + c), to_limb (q - 1)))
    (fun '(m', n1', q) => digit_post m' n1' q).
Proof.
  intros Hm3 Hn1' Hq E R. pose proof (modifies_wf _ _ _ _ Hm3) as Hw3. pose proof base_ge as HB.
  eapply returns_bind; [apply (add_n_spec m3 (np + j) (np + j) dp (dn - 1)); [done|vec_bounds..]|].
  intros [m4 c] (Hm4 & Hc & E4). apply returns_ret. rewrite (modifies_num _ _ _ _ dp (dn - 1) Hm3) in E4 by vec_bounds.
  pose proof (num_range m4 (np + j) (dn - 1) (modifies_wf _ _ _ _ Hm4) ltac:(lia)) as R4.
  assert (D = base ^ (dn - 1) * d1 + num m dp (dn - 1)) as ED.
  { unfold D, d1. replace dn with (dn - 1 + 1) at 1 by lia. rewrite num_succ by lia. lia. }
  pose proof (num_range m dp dn Hw ltac:(lia)) as RD. fold D in RD.
  assert (base ^ dn = base * base ^ (dn - 1)) as Eb by (rewrite <- base_succ by lia; f_equal; lia).
  pose proof (base_pow_pos (dn - 1) ltac:(lia)) as HW.
  assert (0 <= n1' + d1 + c - base < base) as Ht.
  { assert (base ^ (dn - 1) * (n1' + d1 + c - base) + num m4 (np + j) (dn - 1) < D) as H1 by nia.
    assert (0 <= base ^ (dn - 1) * (n1' + d1 + c - base) + num m4 (np + j) (dn - 1)) as H2 by nia.
    clear - H1 H2 RD Eb R4 HW. nia. }
  rewrite to_limb_add_l, (to_limb_unique (n1' + d1 + c) (n1' + d1 + c - base) 1) by (unfold is_limb; lia).
  assert (1 <= q) as Hq1.
  { apply Z.nlt_ge. intros Hlt. replace q with 0 in E by (unfold is_limb in Hq; lia). unfold X in E.
    pose proof (num_range m (np + j) dn Hw ltac:(lia)). unfold is_limb in Hn1.
    pose proof (Z.mul_nonneg_nonneg (base ^ dn) n1). lia. }
  rewrite to_limb_id by (unfold is_limb in *; lia). split; [|split; [|split; [|split]]].
  - eapply modifies_trans; [exact Hm3|]. eapply modifies_mono; [exact Hm4|lia..].
  - unfold is_limb. lia.
  - unfold is_limb in *. lia.
  - lia.
  - lia.
Qed.

Lemma digit_general : ~ (n1 = d1 /\ x1 = d0) ->
  returns (x0 ← m.[np + (j + dn - 2)];
    let '(q, n1, n0) := divrem_3by2 n1 x1 x0 d1 d0 dinv in
    '(m, cy) ← submul_1 m (np + j) dp (dn - 2) q;
    let cy1 := if Z.ltb n0 cy then 1 else 0 in
    let n0 := to_limb (n0 - cy) in
    let cy2 := if Z.ltb n1 cy1 then 1 else 0 in
    let n1 := to_limb (n1 - cy1) in
    m ← aset m (np + (j + dn - 2)) n0;
    if negb (Z.eqb cy2 0) then
      '(m, c) ← add_n m (np + j) (np + j) dp (dn - 1);
      Some (m, to_limb (to_limb (n1 + d1) + c), to_limb (q - 1))
    else Some (m, n1, q))
    (fun '(m', n1', q) => digit_post m' n1' q).
Proof.
  intros Hne. destruct limb_facts as (HB & Hd1 & Hd0 & Hx1 & Hx0 & HDl & HL & Hn1').
  destruct weights as (HP & W1 & W2).
  replace (np + (j + dn - 2)) with (np + j + (dn - 2)) by lia.
  rewrite get_cell by vec_bounds. cbn [mbind option_bind]. fold x0.
  assert (n1 * base + x1 < d1 * base + d0) as Hlt.
  { pose proof HX as HX'. rewrite window_eq, divisor_eq in HX'.
    apply window_top in HX'; [|lia..].
    destruct (decide (n1 * base + x1 = d1 * base + d0)) as [E|]; [|lia]. exfalso. by apply Hne, (two_inj base). }
  destruct (divrem_3by2_spec n1 x1 x0 d1 d0 dinv) as (q & r1 & r0 & -> & Hq & Hr1 & Hr0 & Hr & Er);
    [by split; [|unfold is_limb; lia]|done|unfold is_limb; lia..|done|].
  eapply returns_bind; [apply (submul_1_spec m (np + j) dp (dn - 2) Hw); [vec_bounds..|exact Hq]|].
  intros [m2 cy] (Hm2 & Hcy & E2). fold L P in E2. cbv zeta.
  destruct (two_sub r1 r0 cy Hr1 Hr0 Hcy) as (Hn0 & Hn1'' & Es & Hneg). cbv zeta in Es, Hneg.
  set (cy1 := if Z.ltb r0 cy then 1 else 0) in *. set (cy2 := if Z.ltb r1 cy1 then 1 else 0) in *.
  apply returns_set; [vec_bounds|]. set (m3 := upd m2 (np + j + (dn - 2)) (to_limb (r0 - cy))).
  assert (modifies (np + j) dn m m3) as Hm3
    by (eapply modifies_upd; [exact Hm2|vec_bounds..|done]).
  assert (num m3 (np + j) (dn - 1) = num m2 (np + j) (dn - 2) + P * to_limb (r0 - cy)) as E3.
  { replace (dn - 1) with (dn - 2 + 1) by lia. unfold m3. by rewrite num_upd_at by vec_bounds. }
  pose proof (num_range m2 (np + j) (dn - 2) (modifies_wf _ _ _ _ Hm2) ltac:(lia)) as R2. fold P in R2.
  destruct (remainder_range base P d1 d0 (num m dp (dn - 2)) HB HP Hd1 Hd0 HDl (r1 * base + r0) q L
    (r1 * base + r0 - cy) (num m2 (np + j) (dn - 2))) as [Rng Hsign];
    [done|lia|done|split; [pose proof (two_range _ _ Hr1 Hr0)|]; lia|lia|unfold is_limb in Hcy; lia|].
  rewrite <- divisor_eq in Rng.
  assert (X = q * D + (P * (r1 * base + r0 - cy) + num m2 (np + j) (dn - 2))) as EX.
  { rewrite window_eq, divisor_eq. unfold divisor.
    replace ((n1 * base + x1) * base + x0) with (q * (d1 * base + d0) + (r1 * base + r0)) by lia. lia. }
  unfold cy2 in *. destruct (Z.ltb_spec r1 cy1) as [Lt|Ge]; cbn [Z.eqb negb].
  - pose proof (proj2 Hsign (proj2 Hneg eq_refl)) as Hlt0. rewrite Es in EX, Rng, Hlt0.
    apply digit_addback; [done|done|done| |]; rewrite E3, W1, ?EX; lia.
  - apply returns_ret. split; [done|]. split; [done|]. split; [done|]. rewrite E3, W1, EX, Es. split; [lia|].
    rewrite Es in Rng. lia.
Qed.

Lemma sbpi1_digit_spec : returns (sbpi1_digit m np dp dn d1 d0 dinv n1 j)
  (fun '(m', n1', q) => digit_post m' n1' q).
Proof.
  unfold sbpi1_digit. replace (np + (j + dn - 1)) with (np + j + (dn - 1)) by lia.
  rewrite (get_cell m (np + j + (dn - 1))) by vec_bounds. cbn [mbind option_bind]. fold x1.
  replace (np + j + (dn - 1)) with (np + (j + dn - 1)) by lia.
  destruct (Z.eqb_spec n1 d1) as [E1|E1], (Z.eqb_spec x1 d0) as [E0|E0]; cbn [andb];
    [by apply digit_max|apply digit_general; tauto..].
Qed.
End digit_step.

(** ** The whole division *)

Section schoolbook.
Context `{LimbWidth}.
Context (m : mem) (qp np nn dp dn dinv : Z).
Context (Hw : wf m) (Hnp : valid m np nn) (Hdp : valid m dp dn) (Hqp : valid m qp (nn - dn)).
Context (Hdn : 2 <= dn <= nn).
Context (Dnd : disjoint dp dn np nn) (Dqn : disjoint qp (nn - dn) np nn) (Dqd : disjoint qp (nn - dn) dp dn).

Let d1 := cell m (dp + (dn - 1)).
Let d0 := cell m (dp + (dn - 2)).
Let D := num m dp dn.

Context (Hnorm : norm_limb d1) (Hrec : recip_two d1 d0 dinv).

(** Only the numerator and the quotient vectors are written. *)
Definition only_nq (m' : mem) : Prop :=
  alen m' = alen m /\ wf m' /\
  forall k, ~ (np <= k < np + nn) -> ~ (qp <= k < qp + (nn - dn)) -> m'.[k] = m.[k].

Lemma only_nq_modifies m1 m2 p n : only_nq m1 -> modifies p n m1 m2 ->
  (np <= p /\ p + n <= np + nn \/ qp <= p /\ p + n <= qp + (nn - dn)) -> only_nq m2.
Proof.
  intros (Hl & _ & Hf) Hm2 Hin. split; [by rewrite (modifies_alen _ _ _ _ Hm2)|].
  split; [by eapply modifies_wf|]. intros k Hk1 Hk2. rewrite (modifies_out _ _ _ _ _ Hm2); [by apply Hf|lia].
Qed.

Lemma only_nq_upd m1 k x : only_nq m1 -> (np <= k < np + nn \/ qp <= k < qp + (nn - dn)) -> is_limb x ->
  only_nq (upd m1 k x).
Proof.
  intros Hm1 Hk Hx. eapply (only_nq_modifies m1 _ k 1); [done| |lia].
  eapply modifies_upd; [apply modifies_refl, Hm1|unfold valid in *; lia..|done].
Qed.

Lemma only_nq_divisor m1 : only_nq m1 -> num m1 dp dn = D /\
  cell m1 (dp + (dn - 1)) = d1 /\ cell m1 (dp + (dn - 2)) = d0.
Proof.
  intros (_ & _ & Hf).
  assert (forall i, 0 <= i < dn -> m1.[dp + i] = m.[dp + i]) as Hd by (intros; apply Hf; unfold disjoint in *; lia).
  split; [|split].
  - apply num_ext. intros k Hk. replace k with (dp + (k - dp)) by lia. apply Hd. lia.
  - unfold d1, cell. by rewrite Hd by lia.
  - unfold d0, cell. by rewrite Hd by lia.
Qed.

(** The partial remainder at [j], with its top limb apart. *)
Definition partial (m1 : mem) (n1 j : Z) : Z := base ^ (dn - 1) * n1 + num m1 (np + j) (dn - 1).

Definition div_inv (qh j : Z) (s : mem * Z) : Prop :=
  let '(m1, n1) := s in
  only_nq m1 /\ is_limb n1 /\ (forall k, 0 <= k < j -> m1.[np + k] = m.[np + k]) /\
  0 <= partial m1 n1 j < D /\
  num m np nn = qh * base ^ (nn - dn) * D +
    base ^ j * (num m1 (qp + j) (nn - dn - j) * D + partial m1 n1 j) + num m np j.

Lemma window_next m1 n1 j : 0 <= j ->
  base ^ dn * n1 + num m1 (np + j) dn = cell m1 (np + j) + base * partial m1 n1 (j + 1).
Proof.
  intros. unfold partial. pose proof (num_cons m1 (np + j) (dn - 1) ltac:(lia)) as En.
  pose proof (base_succ (dn - 1) ltac:(lia)) as Eb. replace (dn - 1 + 1) with dn in * by lia.
  rewrite Z.add_assoc, En, Eb. lia.
Qed.

Lemma div_inv_step qh j m1 n1 : 0 <= j < nn - dn -> div_inv qh (j + 1) (m1, n1) ->
  returns ('(m, n1, q) ← sbpi1_digit m1 np dp dn d1 d0 dinv n1 j; m ← aset m (qp + j) q; Some (m, n1))
    (div_inv qh j).
Proof.
  intros Hj (Hm1 & Hn1 & Hlow & Hp & E). pose proof Hm1 as (Hl & Hw1 & _).
  destruct (only_nq_divisor m1 Hm1) as (ED & E1 & E0).
  pose proof (window_next m1 n1 j ltac:(lia)) as Ewin. pose proof (wf_cell m1 (np + j) Hw1) as Hc.
  unfold is_limb in Hc.
  eapply returns_bind.
  - rewrite <- E1, <- E0. apply sbpi1_digit_spec; rewrite ?ED, ?E1, ?E0; try done; try vec_bounds.
    rewrite Ewin. assert (base * partial m1 n1 (j + 1) <= base * (D - 1)) by (apply Z.mul_le_mono_nonneg_l; lia). lia.
  - intros [[m2 n1'] q] (Hm2 & Hn1' & Hq & EX & Hlt). rewrite ED in EX, Hlt. fold (partial m2 n1' j) in EX, Hlt.
    apply returns_set; [vec_bounds|]. apply returns_ret.
    assert (only_nq m2) as Hm2' by (eapply only_nq_modifies; [exact Hm1|exact Hm2|lia]).
    assert (partial (upd m2 (qp + j) q) n1' j = partial m2 n1' j) as Ep.
    { unfold partial. f_equal. apply num_ext. intros. rewrite aget_upd_ne by vec_bounds. done. }
    split; [apply only_nq_upd; [done|lia|done]|]. split; [done|]. rewrite Ep. split; [|split].
    + intros k Hk. rewrite aget_upd_ne by vec_bounds. rewrite (modifies_out _ _ _ _ _ Hm2) by lia. apply Hlow. lia.
    + split; [|done]. unfold partial. pose proof (num_range m2 (np + j) (dn - 1) (proj1 (proj2 Hm2')) ltac:(lia)).
      pose proof (base_pow_pos (dn - 1) ltac:(lia)). unfold is_limb in Hn1'.
      apply Z.add_nonneg_nonneg; [apply Z.mul_nonneg_nonneg; lia|lia].
    + rewrite num_upd_low by vec_bounds. rewrite (modifies_num _ _ _ _ (qp + j + 1) (nn - dn - j - 1) Hm2) by vec_bounds.
      rewrite E, Ewin in *. replace (nn - dn - (j + 1)) with (nn - dn - j - 1) by lia.
      replace (qp + (j + 1)) with (qp + j + 1) by lia. rewrite num_succ, base_succ by lia.
      replace (cell m (np + j)) with (cell m1 (np + j)) by (unfold cell; by rewrite Hlow by lia).
      transitivity (qh * base ^ (nn - dn) * D + base ^ j * (base * num m1 (qp + j + 1) (nn - dn - j - 1) * D +
        (cell m1 (np + j) + base * partial m1 n1 (j + 1))) + num m np j); [ring|]. rewrite EX. ring.
Qed.

Lemma divisor_half : 0 < D < base ^ dn /\ base ^ dn <= 2 * D.
Proof.
  pose proof (num_range m dp dn Hw ltac:(lia)) as R. fold D in R.
  assert (D = num m dp (dn - 1) + base ^ (dn - 1) * d1) as ED.
  { unfold D, d1. replace dn with (dn - 1 + 1) at 1 by lia. by rewrite num_succ by lia. }
  pose proof (num_range m dp (dn - 1) Hw ltac:(lia)). pose proof (base_pow_pos (dn - 1) ltac:(lia)).
  pose proof (base_succ (dn - 1) ltac:(lia)) as Eb. replace (dn - 1 + 1) with dn in Eb by lia.
  destruct Hnorm as [Hd Hn]. unfold is_limb in Hd. nia.
Qed.

(** The first quotient digit is 0 or 1: the top of the numerator is below twice
    the divisor. *)
Lemma top_digit c : cmp m (np + nn - dn) dp dn = Some c ->
  let qh := if Z.leb 0 c then 1 else 0 in
  returns (if negb (Z.eqb qh 0) then '(m, _) ← sub_n m (np + nn - dn) (np + nn - dn) dp dn; Some m else Some m)
    (fun m1 => modifies (np + nn - dn) dn m m1 /\
       num m1 (np + nn - dn) dn = num m (np + nn - dn) dn - qh * D /\ num m1 (np + nn - dn) dn < D).
Proof.
  destruct divisor_half as [HD HD2]. rewrite cmp_spec by (done || vec_bounds). intros [= <-]. fold D. cbv zeta.
  pose proof (num_range m (np + nn - dn) dn Hw ltac:(lia)) as R. set (T := num m (np + nn - dn) dn) in *.
  assert (Z.leb 0 (sign_of (T ?= D)) = Z.leb D T) as ->
    by (destruct (Z.compare_spec T D), (Z.leb_spec D T); simpl; done || lia).
  destruct (Z.leb_spec D T) as [L|L]; cbn [Z.eqb negb].
  - eapply returns_bind; [apply (sub_n_spec m (np + nn - dn) (np + nn - dn) dp dn); [done|vec_bounds..]|].
    intros [m1 bw] (Hm1 & Hbw & E1). apply returns_ret. fold T D in E1.
    pose proof (num_range m1 (np + nn - dn) dn (modifies_wf _ _ _ _ Hm1) ltac:(lia)) as R1.
    assert (bw = 0) by nia. subst bw. split; [done|lia].
  - apply returns_ret. split; [|fold T; lia].
    eapply modifies_mono; [by apply (modifies_refl (np + nn - dn))|lia..].
Qed.

Lemma div_inv_init qh m1 : modifies (np + nn - dn) dn m m1 ->
  num m1 (np + nn - dn) dn = num m (np + nn - dn) dn - qh * D -> num m1 (np + nn - dn) dn < D ->
  div_inv qh (nn - dn) (m1, cell m1 (np + (nn - 1))).
Proof.
  intros Hm1 E Hlt. pose proof (modifies_wf _ _ _ _ Hm1) as Hw1.
  assert (partial m1 (cell m1 (np + (nn - 1))) (nn - dn) = num m1 (np + nn - dn) dn) as Ep.
  { unfold partial. replace dn with (dn - 1 + 1) at 5 by lia. rewrite num_succ by lia.
    replace (np + (nn - dn)) with (np + nn - dn) by lia.
    replace (np + nn - dn + (dn - 1)) with (np + (nn - 1)) by lia. lia. }
  split; [eapply (only_nq_modifies m); [by split_and!|exact Hm1|lia]|]. split; [by apply wf_cell|].
  split; [intros; apply (modifies_out _ _ _ _ _ Hm1); lia|]. rewrite Ep.
  split; [split; [apply num_range; [done|lia]|done]|].
  rewrite Z.sub_diag, num_0, E, (num_split_at m np (nn - dn) nn) by lia.
  replace (nn - (nn - dn)) with dn by lia. replace (np + (nn - dn)) with (np + nn - dn) by lia. ring.
Qed.

(** The numerator is the quotient, with its top digit returned apart, times the
    divisor plus the remainder left in the low limbs of the numerator. *)
Lemma sbpi1_div_qr_spec : returns (sbpi1_div_qr m qp np nn dp dn dinv) (fun '(m', qh) =>
  only_nq m' /\ 0 <= qh <= 1 /\ num m' np dn < D /\
  num m np nn = (qh * base ^ (nn - dn) + num m' qp (nn - dn)) * D + num m' np dn).
Proof.
  unfold sbpi1_div_qr. destruct (cmp m (np + nn - dn) dp dn) as [c|] eqn:Ec;
    [|rewrite cmp_spec in Ec by (done || vec_bounds); done].
  cbn [mbind option_bind]. set (qh := if Z.leb 0 c then 1 else 0).
  eapply returns_bind; [by apply top_digit|]. intros m1 (Hm1 & E1 & Hlt1). fold qh in E1.
  pose proof (div_inv_init qh m1 Hm1 E1 Hlt1) as Hinit. pose proof Hinit as (Hnq & _).
  destruct (only_nq_divisor m1 Hnq) as (_ & Ed1 & Ed0). pose proof Hnq as (Hl & _).
  rewrite (get_cell m1 (dp + (dn - 1))) by vec_bounds. cbn [mbind option_bind].
  rewrite (get_cell m1 (dp + (dn - 2))) by vec_bounds. cbn [mbind option_bind].
  rewrite (get_cell m1 (np + (nn - 1))) by vec_bounds. cbn [mbind option_bind]. rewrite Ed1, Ed0.
  eapply returns_bind.
  - apply (returns_for_down _ _ _ (div_inv qh) (div_inv qh 0)); [lia|exact Hinit| |done].
    intros j [m2 n1] Hj Hinv. by apply div_inv_step.
  - intros [m2 n1] (Hnq2 & Hn1 & _ & Hp & E). pose proof Hnq2 as (Hl2 & _). apply returns_set; [vec_bounds|].
    apply returns_ret. rewrite Z.pow_0_r, num_0, Z.add_0_r, (Z.add_0_r qp), (Z.sub_0_r (nn - dn)) in E.
    assert (num (upd m2 (np + (dn - 1)) n1) np dn = partial m2 n1 0) as Er.
    { replace dn with (dn - 1 + 1) at 2 by lia. rewrite num_upd_at by vec_bounds. unfold partial.
      rewrite Z.add_0_r. lia. }
    rewrite Er. split; [apply only_nq_upd; [done|lia|done]|].
    split; [unfold qh; destruct (Z.leb 0 c); lia|]. split; [lia|].
    rewrite E. rewrite (num_ext m2 (upd m2 _ _) qp) by (intros; rewrite aget_upd_ne by vec_bounds; done). ring.
Qed.
End schoolbook.
