(* ===== verification/MpnTheorems.v ===== *)
(** What the mpn routines promise their callers: exact integer arithmetic on the
    numbers the limb vectors denote, without leaving the vectors, for both limb
    widths, with the destination allowed to coincide with a source where the code
    allows it. *)
From stdpp Require Import base numbers list option.
From Stdlib Require Import ZArith Lia.
From S2P Require Import Prelude Arrays Sums Limb Mpn MpnValue MpnArith MpnBits MpnMul MpnMulProof MpnDiv MpnDivProof MpnSchoolbook.

Local Open Scope Z_scope.

(** ** Concrete memories *)

Definition wf_check `{LimbWidth} (m : mem) : bool := forallb (fun x => andb (Z.leb 0 x) (Z.ltb x base)) m.

Lemma wf_check_sound `{LimbWidth} m : wf_check m = true -> wf m.
Proof.
  intros Hc k x Hk. unfold wf_check in Hc. rewrite forallb_forall in Hc.
  specialize (Hc x). rewrite andb_true_iff, Z.leb_le, Z.ltb_lt in Hc. apply Hc.
  unfold aget in Hk. case_decide; [|done]. apply list_elem_of_lookup_2 in Hk. by apply list_elem_of_In.
Qed.

Ltac concrete_mem := first [apply wf_check_sound; vm_compute; reflexivity | vm_compute; intuition congruence | vm_compute; lia].

(** Two rewrites of the same vector with the same value are the same memory. *)
Lemma same_value_same_memory `{LimbWidth} m m1 m2 rp n : 0 <= n ->
  modifies rp n m m1 -> modifies rp n m m2 -> num m1 rp n = num m2 rp n -> m1 = m2.
Proof.
  intros Hn H1 H2 E. apply array_ext. intros i Hi. destruct (decide (rp <= i < rp + n)) as [Hin|Hout].
  - pose proof (num_inj m1 m2 rp rp n (modifies_wf _ _ _ _ H1) (modifies_wf _ _ _ _ H2) Hn E (i - rp) ltac:(lia)) as Ec.
    replace (rp + (i - rp)) with i in Ec by lia.
    pose proof (modifies_alen _ _ _ _ H1). pose proof (modifies_alen _ _ _ _ H2).
    destruct (decide (i < alen m)).
    + rewrite !get_cell by lia. by rewrite Ec.
    + by rewrite !aget_out by lia.
  - by rewrite (modifies_out _ _ _ _ _ H1), (modifies_out _ _ _ _ _ H2).
Qed.

Section theorems.
Context `{LimbWidth}.

Lemma products_same m rp ap an bp bn : wf m ->
  valid m rp (an + bn) -> valid m ap an -> valid m bp bn -> 1 <= an <= base -> 1 <= bn ->
  disjoint ap an rp (an + bn) -> disjoint bp bn rp (an + bn) ->
  returns (mul_basecase m rp ap an bp bn) (fun m' =>
    modifies rp (an + bn) m m' /\ num m' rp (an + bn) = num m ap an * num m bp bn /\
    mul_comba m rp ap an bp bn = Some m' /\ mul_comba_fixed an bn m rp ap bp = Some m').
Proof.
  intros Hw Hr Ha Hb Hn Hn' Da Db.
  destruct (mul_basecase_spec m rp ap an bp bn) as (m1 & E1 & H1 & V1); try done; [lia|].
  destruct (mul_comba_spec m rp ap an bp bn) as (m2 & E2 & H2 & V2); try done.
  assert (m1 = m2) as <- by (eapply (same_value_same_memory m); [|done..|congruence]; lia).
  exists m1. rewrite mul_comba_fixed_eq. by split_and!.
Qed.

Lemma squares_same m rp ap n : wf m ->
  valid m rp (2 * n) -> valid m ap n -> 1 <= n <= base -> disjoint ap n rp (2 * n) ->
  returns (sqr_basecase m rp ap n) (fun m' =>
    modifies rp (2 * n) m m' /\ num m' rp (2 * n) = num m ap n * num m ap n /\
    sqr_comba m rp ap n = Some m' /\ sqr_comba_fixed n m rp ap = Some m' /\
    mul_basecase m rp ap n ap n = Some m').
Proof.
  intros Hw Hr Ha Hn Da. assert (2 * n = n + n) as En by lia.
  destruct (sqr_basecase_spec m rp ap n) as (m1 & E1 & H1 & V1); try done; [lia|].
  rewrite En in Hr, Da.
  destruct (sqr_comba_spec m rp ap n) as (m2 & E2 & H2 & V2); try done.
  destruct (mul_basecase_spec m rp ap n ap n) as (m3 & E3 & H3 & V3); try done; [lia..|]. rewrite <- En in H3, V3.
  assert (m1 = m2) as <- by (eapply (same_value_same_memory m); [|done..|congruence]; lia).
  assert (m1 = m3) as <- by (eapply (same_value_same_memory m); [|done..|congruence]; lia).
  exists m1. rewrite sqr_comba_fixed_eq. by split_and!.
Qed.

(** C17: Row-wise, column-wise and fixed-width multiplication write the same
    memory, in which the an + bn limbs of the destination are the exact product of
    the operands; the three-limb column accumulator never overflows.  Likewise the
    four squaring routines and the general product of a vector with itself write
    the same memory: the exact square. *)
Theorem products_agree m rp ap an bp bn : wf m ->
  valid m rp (an + bn) -> valid m ap an -> valid m bp bn -> 1 <= an <= base -> 1 <= bn ->
  disjoint ap an rp (an + bn) -> disjoint bp bn rp (an + bn) ->
  returns (mul_basecase m rp ap an bp bn) (fun m' =>
    modifies rp (an + bn) m m' /\ num m' rp (an + bn) = num m ap an * num m bp bn /\
    mul_comba m rp ap an bp bn = Some m' /\ mul_comba_fixed an bn m rp ap bp = Some m') /\
  (an = bn -> returns (sqr_basecase m rp ap an) (fun m' =>
    modifies rp (2 * an) m m' /\ num m' rp (2 * an) = num m ap an * num m ap an /\
    sqr_comba m rp ap an = Some m' /\ sqr_comba_fixed an m rp ap = Some m' /\
    mul_basecase m rp ap an ap an = Some m')).
Proof.
  intros. split; [by apply products_same|]. intros <-. replace (an + an) with (2 * an) in * by lia.
  by apply squares_same.
Qed.

Lemma limb_divides m qp up un d : wf m ->
  valid m up un -> valid m qp un -> 1 <= un -> is_limb d -> bwd qp up un ->
  if Z.eqb d 0 then divrem_1 m qp up un d = None
  else returns (divrem_1 m qp up un d) (fun '(m', r) =>
    modifies qp un m m' /\ num m' qp un = num m up un / d /\ r = num m up un mod d /\
    mod_1 m up un d = Some r).
Proof.
  intros Hw Hu Hq Hn Hd Fq. destruct (Z.eqb_spec d 0) as [->|Hd0].
  - unfold divrem_1, limb_clz, limb_shl. cbn [Z.eqb]. by rewrite decide_False by lia.
  - eapply returns_mono; [by apply divrem_1_spec|].
    intros [m' r] (? & ? & ->). split_and!; try done. by apply mod_1_spec.
Qed.

(** C16: Schoolbook division by a normalized divisor of two limbs or more: with the
    reciprocal [invert_pi1] computes for the top two limbs, the numerator is
    (qh * base^(nn - dn) + quotient) * divisor + remainder, the remainder is below
    the divisor, and only the numerator and quotient vectors are written.  Division
    by one limb with a precomputed reciprocal gives the exact quotient and remainder
    for every nonzero divisor, in place if the caller wishes, and [mod_1] gives the
    same remainder; division by zero has no result. *)
Theorem schoolbook_divides m qp np nn dp dn up un d : wf m ->
  (valid m np nn -> valid m dp dn -> valid m qp (nn - dn) -> 2 <= dn <= nn ->
   disjoint dp dn np nn -> disjoint qp (nn - dn) np nn -> disjoint qp (nn - dn) dp dn ->
   base <= 2 * cell m (dp + (dn - 1)) ->
   exists dinv, invert_pi1 (cell m (dp + (dn - 1))) (cell m (dp + (dn - 2))) = Some dinv /\
     returns (sbpi1_div_qr m qp np nn dp dn dinv) (fun '(m', qh) =>
       only_nq m qp np nn dn m' /\ 0 <= qh <= 1 /\ num m' np dn < num m dp dn /\
       num m np nn = (qh * base ^ (nn - dn) + num m' qp (nn - dn)) * num m dp dn + num m' np dn)) /\
  (valid m up un -> valid m qp un -> 1 <= un -> is_limb d -> bwd qp up un ->
   if Z.eqb d 0 then divrem_1 m qp up un d = None
   else returns (divrem_1 m qp up un d) (fun '(m', r) =>
     modifies qp un m m' /\ num m' qp un = num m up un / d /\ r = num m up un mod d /\
     mod_1 m up un d = Some r)).
Proof.
  intros Hw. split; [|by apply limb_divides]. intros Hnp Hdp Hqp Hdn D1 D2 D3 Hnorm.
  assert (norm_two (cell m (dp + (dn - 1))) (cell m (dp + (dn - 2)))) as Hn2
    by (split; [split|]; try done; by apply wf_cell).
  destruct (invert_pi1_spec _ _ Hn2) as (v & Ev & Hv). exists v. split; [done|].
  apply sbpi1_div_qr_spec; try done. apply Hn2.
Qed.

(** C20: A left shift by 0 < cnt < w bits multiplies by 2^cnt, returning the bits
    shifted out; a right shift divides by 2^cnt, returning the bits shifted out at
    the top of a limb; shifting back in place what a left shift lost nothing of
    restores the value. *)
Theorem shifts_exact m rp ap n cnt : wf m ->
  valid m rp n -> valid m ap n -> 1 <= n -> 0 < cnt < limb_bits ->
  (bwd rp ap n -> returns (lshift m rp ap n cnt) (fun '(m', out) =>
     modifies rp n m m' /\ 0 <= out < 2 ^ cnt /\
     num m' rp n + base ^ n * out = num m ap n * 2 ^ cnt /\
     (out = 0 -> returns (rshift m' rp rp n cnt) (fun '(m'', lost) =>
        num m'' rp n = num m ap n /\ lost = 0)))) /\
  (fwd rp ap n -> returns (rshift m rp ap n cnt) (fun '(m', out) =>
     modifies rp n m m' /\ num m' rp n = num m ap n / 2 ^ cnt /\
     out = num m ap n mod 2 ^ cnt * 2 ^ (limb_bits - cnt))).
Proof.
  intros Hw Hr Ha Hn Hc. split; intros F; [|by apply rshift_spec].
  eapply returns_mono; [by apply lshift_spec|]. intros [m' out] (Hm & Ho & E). split_and!; try done; try apply Ho.
  intros ->. eapply returns_mono.
  { apply (rshift_spec m' rp rp n cnt); [by eapply modifies_wf|vec_bounds|vec_bounds|done|done|left; lia]. }
  intros [m'' lost] (_ & E1 & E2). assert (num m' rp n = num m ap n * 2 ^ cnt) as Ev by lia.
  pose proof (Z.pow_pos_nonneg 2 cnt ltac:(lia) ltac:(lia)).
  rewrite E1, E2, Ev, Z.div_mul, Z.mod_mul by lia. split; lia.
Qed.

Lemma masks_and_complements m rp ap bp n cnd : wf m ->
  valid m rp n -> valid m ap n -> valid m bp n -> fwd rp ap n -> fwd rp bp n ->
  let writes f := fun m' => modifies rp n m m' /\ num m' rp n = f (num m ap n) (num m bp n) in
  returns (neg m rp ap n) (fun '(m', b) => modifies rp n m m' /\
    b = (if Z.eqb (num m ap n) 0 then 0 else 1) /\ num m' rp n = base ^ n * b - num m ap n) /\
  returns (com m rp ap n) (writes (fun x _ => base ^ n - 1 - x)) /\
  returns (cnd_add_n cnd m rp ap bp n) (fun '(m', cy) => modifies rp n m m' /\ 0 <= cy <= 1 /\
    num m' rp n + base ^ n * cy = num m ap n + (if Z.eqb cnd 0 then 0 else num m bp n)) /\
  returns (cnd_sub_n cnd m rp ap bp n) (fun '(m', bw) => modifies rp n m m' /\ 0 <= bw <= 1 /\
    num m' rp n - base ^ n * bw = num m ap n - (if Z.eqb cnd 0 then 0 else num m bp n)) /\
  returns (and_n m rp ap bp n) (writes Z.land) /\
  returns (ior_n m rp ap bp n) (writes Z.lor) /\
  returns (xor_n m rp ap bp n) (writes Z.lxor).
Proof.
  intros Hw Hr Ha Hb Fa Fb writes.
  assert (forall y, cnd_bit cnd * y = if Z.eqb cnd 0 then 0 else y) as Hcb
    by (intros; unfold cnd_bit; destruct (Z.eqb cnd 0); lia).
  split; [by apply neg_spec|]. split; [by apply com_spec|].
  split; [rewrite <- Hcb; by apply cnd_add_n_spec|]. split; [rewrite <- Hcb; by apply cnd_sub_n_spec|].
  split; [|split].
  - apply (bitwise_up Z.land andb); try done. intros. apply Z.land_spec.
  - apply (bitwise_up Z.lor orb); try done. intros. apply Z.lor_spec.
  - apply (bitwise_up Z.lxor xorb); try done. intros. apply Z.lxor_spec.
Qed.

(** C18: [add] and [sub] on vectors of different lengths compute the exact sum and
    difference: the result vector together with the carry (borrow) out, which is 0
    or 1, denotes the integer sum (difference) of the operands, and no other cell
    is written.  The destination may be either source.  On vectors of one length
    [neg] gives base^n minus a nonzero value and reports whether it was nonzero,
    [com] gives base^n - 1 minus the value, the conditional routines add or subtract
    the second operand exactly when the condition is nonzero, and the bitwise
    routines act as the integer operations on the denoted numbers. *)
Theorem add_sub_exact m rp ap an bp bn cnd : wf m ->
  valid m rp an -> valid m ap an -> valid m bp bn -> bn <= an -> fwd rp ap an -> fwd rp bp bn ->
  let writes f := fun m' => modifies rp an m m' /\ num m' rp an = f (num m ap an) (num m bp an) in
  (returns (add m rp ap an bp bn) (fun '(m', cy) => modifies rp an m m' /\ 0 <= cy <= 1 /\
     num m' rp an + base ^ an * cy = num m ap an + num m bp bn) /\
   returns (sub m rp ap an bp bn) (fun '(m', bw) => modifies rp an m m' /\ 0 <= bw <= 1 /\
     num m' rp an - base ^ an * bw = num m ap an - num m bp bn)) /\
  (an = bn ->
   returns (neg m rp ap an) (fun '(m', b) => modifies rp an m m' /\
     b = (if Z.eqb (num m ap an) 0 then 0 else 1) /\ num m' rp an = base ^ an * b - num m ap an) /\
   returns (com m rp ap an) (writes (fun x _ => base ^ an - 1 - x)) /\
   returns (cnd_add_n cnd m rp ap bp an) (fun '(m', cy) => modifies rp an m m' /\ 0 <= cy <= 1 /\
     num m' rp an + base ^ an * cy = num m ap an + (if Z.eqb cnd 0 then 0 else num m bp an)) /\
   returns (cnd_sub_n cnd m rp ap bp an) (fun '(m', bw) => modifies rp an m m' /\ 0 <= bw <= 1 /\
     num m' rp an - base ^ an * bw = num m ap an - (if Z.eqb cnd 0 then 0 else num m bp an)) /\
   returns (and_n m rp ap bp an) (writes Z.land) /\
   returns (ior_n m rp ap bp an) (writes Z.lor) /\
   returns (xor_n m rp ap bp an) (writes Z.lxor)).
Proof.
  intros Hw Hr Ha Hb Hn Fa Fb writes. split; [split; [by apply add_var_spec|by apply sub_var_spec]|].
  intros <-. by apply masks_and_complements.
Qed.

(** The compares and queries answer as the integers do: [cmp] and, on
    normalized vectors, [cmp_var] give the sign of the comparison; [is_zero],
    [bitlen], [popcount] and [testbit] give the answer for the denoted number;
    [scan1] finds its lowest set bit; [normalize] keeps the value and leaves no
    zero top limb. *)
Theorem queries_exact m ap an bp bn bit : wf m -> valid m ap an -> valid m bp bn -> 0 <= bit ->
  (an = bn -> cmp m ap bp an = Some (sign_of (num m ap an ?= num m bp bn))) /\
  (normalized m ap an -> normalized m bp bn ->
     cmp_var m ap an bp bn = Some (sign_of (num m ap an ?= num m bp bn))) /\
  is_zero m ap an = Some (Z.eqb (num m ap an) 0) /\
  bitlen m ap an = Some (bit_length (num m ap an)) /\
  popcount m ap an = Some (builtin_popcount (num m ap an)) /\
  testbit m ap an bit = Some (Z.testbit (num m ap an) bit) /\
  returns (scan1 m ap an) (fun s => num m ap an = 0 /\ s = an * limb_bits \/
    exists o, 0 <= s < an * limb_bits /\ num m ap an = 2 ^ s * (2 * o + 1)) /\
  returns (normalize m ap an) (fun n => 0 <= n <= an /\ normalized m ap n /\ num m ap n = num m ap an).
Proof.
  intros Hw Ha Hb Hbit. split_and!.
  - intros <-. by apply cmp_spec.
  - intros. by apply cmp_var_spec.
  - by apply is_zero_spec.
  - by apply bitlen_spec.
  - by apply popcount_spec.
  - by apply testbit_spec.
  - by apply scan1_spec.
  - by apply normalize_spec.
Qed.
End theorems.

(** ** The theorems at concrete vectors *)

#[local] Existing Instance limb64.

(** A two-limb number minus one, in place; and its conjunction with itself. *)
Lemma add_sub_exact_witness :
  let m := [2 ^ 64 - 1; 2 ^ 64 - 1; 1] in
  add m 0 0 2 2 1 = Some ([0; 0; 1], 1) /\
  returns (sub m 0 0 2 2 1) (fun '(m', bw) => num m' 0 2 - base ^ 2 * bw = num m 0 2 - 1) /\
  returns (and_n m 0 0 0 2) (fun m' => num m' 0 2 = Z.land (num m 0 2) (num m 0 2)).
Proof.
  split; [vm_compute; reflexivity|]. split.
  - destruct (add_sub_exact [2 ^ 64 - 1; 2 ^ 64 - 1; 1] 0 0 2 2 1 0) as [[_ Hs] _]; [concrete_mem..|].
    eapply returns_mono; [exact Hs|]. intros [m' bw] (_ & _ & E). exact E.
  - destruct (add_sub_exact [2 ^ 64 - 1; 2 ^ 64 - 1; 1] 0 0 2 0 2 0) as [_ Hm]; [concrete_mem..|].
    destruct (Hm eq_refl) as (_ & _ & _ & _ & Ha & _). eapply returns_mono; [exact Ha|]. intros m' [_ E]. exact E.
Defined.

(** (2^65 - 1) (6 2^64 - 1) by rows and columns, and (2^65 - 1)^2. *)
Lemma products_agree_witness :
  let m := [2 ^ 64 - 1; 1; 2 ^ 64 - 1; 5; 9; 9; 9; 9] in
  returns (mul_basecase m 4 0 2 2 2) (fun m' =>
    num m' 4 4 = (2 ^ 65 - 1) * (6 * 2 ^ 64 - 1) /\ mul_comba m 4 0 2 2 2 = Some m') /\
  returns (sqr_basecase m 4 0 2) (fun m' => num m' 4 4 = (2 ^ 65 - 1) * (2 ^ 65 - 1) /\ sqr_comba m 4 0 2 = Some m').
Proof.
  destruct (products_agree [2 ^ 64 - 1; 1; 2 ^ 64 - 1; 5; 9; 9; 9; 9] 4 0 2 2 2) as [Hp Hs]; [concrete_mem..|].
  split; (eapply returns_mono; [first [exact Hp|exact (Hs eq_refl)]|]).
  - cbn beta. intros m' (_ & E & Ec & _). split; [|exact Ec]. etransitivity; [exact E|]. vm_compute. reflexivity.
  - cbn beta. intros m' (_ & E & Ec & _). split; [|exact Ec]. etransitivity; [exact E|]. vm_compute. reflexivity.
Defined.

(** A four-limb numerator by a two-limb divisor, the quotient goes to cell 6; and the
    numerator by ten, in place. *)
Lemma schoolbook_divides_witness :
  let m := [5; 6; 7; 8; 3; 2 ^ 63 + 1; 0; 0] in
  (exists dinv, invert_pi1 (2 ^ 63 + 1) 3 = Some dinv /\
    returns (sbpi1_div_qr m 6 0 4 4 2 dinv) (fun '(m', qh) =>
      num m 0 4 = (qh * base ^ 2 + num m' 6 2) * num m 4 2 + num m' 0 2)) /\
  divrem_1 m 6 0 2 0 = None.
Proof.
  split.
  - destruct (schoolbook_divides [5; 6; 7; 8; 3; 2 ^ 63 + 1; 0; 0] 6 0 4 4 2 0 2 0) as [Hs _]; [concrete_mem|].
    destruct Hs as (v & Ev & Hr); [concrete_mem..|].
    exists v. split; [exact Ev|]. eapply returns_mono; [exact Hr|]. intros [m' qh] (_ & _ & _ & E). exact E.
  - apply (schoolbook_divides [5; 6; 7; 8; 3; 2 ^ 63 + 1; 0; 0] 6 0 4 4 2 0 2 0); concrete_mem.
Defined.

Lemma shifts_exact_witness :
  let m := [2 ^ 63; 1; 0] in
  returns (lshift m 0 0 3 4) (fun '(m', out) => num m' 0 3 = num m 0 3 * 16 /\ out = 0).
Proof.
  destruct (shifts_exact [2 ^ 63; 1; 0] 0 0 3 4) as [Hl _]; [concrete_mem..|].
  eapply returns_mono; [apply Hl; left; lia|].
  intros [m' out] (Hm & Ho & E & _).
  assert (num m' 0 3 < base ^ 3) by (apply num_range; [apply (modifies_wf _ _ _ _ Hm)|lia]).
  assert (num [2 ^ 63; 1; 0] 0 3 * 2 ^ 4 < base ^ 3) by (vm_compute; reflexivity).
  pose proof (num_range m' 0 3 (modifies_wf _ _ _ _ Hm) ltac:(lia)).
  assert (out = 0) by nia. subst out. split; [|reflexivity]. change 16 with (2 ^ 4). lia.
Defined.

Lemma queries_exact_witness :
  let m := [0; 5; 1; 5; 0] in
  cmp_var m 0 2 2 2 = Some (-1) /\ bitlen m 0 2 = Some 67 /\ returns (scan1 m 0 2) (eq 64).
Proof.
  destruct (queries_exact [0; 5; 1; 5; 0] 0 2 2 2 64) as (_ & Hc & _ & Hb & _ & _ & Hs & _); [concrete_mem..|].
  split; [rewrite Hc by (right; vm_compute; discriminate); vm_compute; reflexivity|].
  split; [rewrite Hb; vm_compute; reflexivity|].
  destruct Hs as (s & Es & _). exists s. split; [exact Es|].
  assert (Some 64 = Some s) as [= E] by (rewrite <- Es; vm_compute; reflexivity). exact E.
Defined.
