(* ===== verification/MpnFrame.v ===== *)
(** Frames over several vectors.

    The recursive routines write a result vector and a scratch area, so their
    frame is a set of cells: [touches P m m'] says that [m'] is [m] with only
    cells of [P] rewritten, by limbs.  [mul_pre] and [mul_post] are the contract
    every multiplication tier is proved against, [sqr_pre] and [sqr_post] the
    one of the squarings.  The file also has the specifications of the bulk
    moves and the modular forms of the addition and subtraction routines. *)
From stdpp Require Import base numbers list option.
From Stdlib Require Import ZArith Lia.
From S2P Require Import Prelude Arrays Limb Mpn MpnValue MpnArith MpnBits.

Local Open Scope Z_scope.

(** The cells of the vector [p, n]. *)
Definition vec (p n k : Z) : Prop := p <= k < p + n.

Section frame.
Context `{LimbWidth}.
Implicit Types (m : mem) (P Q R : Z -> Prop).

Definition touches P m m' : Prop :=
  alen m' = alen m /\ wf m' /\ forall k, ~ P k -> m'.[k] = m.[k].

Lemma modifies_touches rp n m m' : modifies rp n m m' <-> touches (vec rp n) m m'.
Proof. done. Qed.

Lemma touches_refl P m : wf m -> touches P m m.
Proof. done. Qed.

Lemma touches_mono P Q m m' : touches P m m' -> (forall k, P k -> Q k) -> touches Q m m'.
Proof. intros (? & ? & Hf) HPQ. split_and!; auto. Qed.

Lemma touches_trans P m1 m2 m3 : touches P m1 m2 -> touches P m2 m3 -> touches P m1 m3.
Proof. intros (E & _ & Hf) (E' & ? & Hf'). split_and!; [congruence|done|]. intros. by rewrite Hf', Hf. Qed.

Lemma touches_wf P m m' : touches P m m' -> wf m'.
Proof. by intros (_ & ? & _). Qed.

Lemma touches_alen P m m' : touches P m m' -> alen m' = alen m.
Proof. by intros (? & _). Qed.

Lemma touches_upd P m k x : wf m -> is_limb x -> 0 <= k -> P k -> touches P m (upd m k x).
Proof.
  intros Hw Hx Hk HP. split_and!; [apply alen_upd|by apply wf_upd|]. intros j Hj.
  apply aget_upd_ne; [done|]. by intros ->.
Qed.

Lemma touches_num P m m' p n : touches P m m' -> (forall k, vec p n k -> ~ P k) -> num m' p n = num m p n.
Proof. intros (_ & _ & Hf) Hd. apply num_ext. intros k Hk. by apply Hf, Hd. Qed.

Lemma touches_cell P m m' k : touches P m m' -> ~ P k -> cell m' k = cell m k.
Proof. intros (_ & _ & Hf) Hd. unfold cell. by rewrite Hf. Qed.
End frame.

(** Brings the lengths of the memories in scope together. *)
Ltac same_length :=
  repeat match goal with
  | H : touches _ ?m ?m' |- _ =>
      lazymatch goal with
      | _ : alen m' = alen m |- _ => fail
      | _ => pose proof (touches_alen _ _ _ H)
      end
  | H : modifies _ _ ?m ?m' |- _ =>
      lazymatch goal with
      | _ : alen m' = alen m |- _ => fail
      | _ => pose proof (modifies_alen _ _ _ _ H)
      end
  end.

(** Drops the hypotheses on values, which only slow down index arithmetic. *)
Ltac drop_values :=
  repeat match goal with
  | H : context [num _ _ _] |- _ => clear H
  | H : context [base] |- _ => clear H
  end.

(** Index arithmetic without memory. *)
Ltac idx := solve [drop_values; lia].

(** Arithmetic on lengths and the base, without the values of vectors. *)
Ltac lens :=
  solve [repeat match goal with
  | H : context [num _ _ _] |- _ => clear H
  | H : context [Z.pow] |- _ => clear H
  end; lia].

(** Solves the bounds and the separation of vectors.  A hypothesis on separation
    doubles the cases, so it is first tried without them, then with those whose
    two vectors the goal mentions. *)
Ltac vecs_core := unfold valid, fwd, bwd, disjoint, vec in *; autorewrite with arr; intros; lia.

Ltac relevant_only :=
  repeat match goal with
  | H : disjoint ?p _ ?q _ |- ?G =>
      assert_fails (match G with context [p] => match G with context [q] => idtac end end); clear H
  end.

Ltac vecs :=
  same_length; drop_values;
  first [solve [repeat match goal with H : disjoint _ _ _ _ |- _ => clear H end; vecs_core]
        |solve [relevant_only; vecs_core]|vecs_core].

(** A carry or borrow is determined by the range of the exact result. *)
Lemma no_borrow v P b d : v - P * b = d -> 0 <= v < P -> 0 <= b -> 0 <= d -> v = d.
Proof. intros E Hv Hb Hd. assert (b = 0) as -> by (destruct (decide (b = 0)); [done|nia]). lia. Qed.

Lemma no_carry v P c s : v + P * c = s -> 0 <= v < P -> 0 <= c -> s < P -> v = s.
Proof. intros E Hv Hb Hd. assert (c = 0) as -> by (destruct (decide (c = 0)); [done|nia]). lia. Qed.

(** Tests of the result of [cmp]. *)
Lemma sign_leb x y : Z.leb 0 (sign_of (x ?= y)) = Z.leb y x.
Proof. destruct (Z.compare_spec x y), (Z.leb_spec y x); cbn; done || lia. Qed.

Lemma sign_ltb x y : Z.ltb (sign_of (x ?= y)) 0 = Z.ltb x y.
Proof. destruct (Z.compare_spec x y), (Z.ltb_spec x y); cbn; done || lia. Qed.

(** An addition at weight [P] into a number whose part above [P] has [R] values. *)
Lemma add_at_weight P R lo hi hi' c x t : lo + P * hi = t -> hi' + R * c = hi + x ->
  0 <= hi' < R -> 0 <= c -> 0 <= lo -> 0 < P -> t + P * x < P * R -> lo + P * hi' = t + P * x.
Proof.
  intros E E' Hh Hc Hl HP Hs. rewrite (no_carry _ _ _ _ E'); [lia|lia|lia|].
  apply (Z.mul_lt_mono_pos_l P); lia.
Qed.

(** ** Bulk moves *)

Section moves.
Context `{LimbWidth}.

Lemma copyi_spec m rp ap n : wf m -> valid m rp n -> valid m ap n -> fwd rp ap n ->
  returns (copyi m rp ap n) (fun m' => modifies rp n m m' /\ num m' rp n = num m ap n).
Proof.
  intros Hw Hr Ha Fa. apply (returns_map_up rp n m _ (fun i v => v = num m ap i) 0); [done..|destruct Hr; lia| |].
  - done.
  - intros i m1 Hi Hm E. exists (cell m (ap + i)).
    rewrite (modifies_read_up _ _ n _ _ _ Hm Fa Ha Hi). cbn [mbind option_bind].
    rewrite aset_in by vecs. split_and!; [done|by apply wf_cell|]. rewrite num_succ, E by lia. done.
Qed.

Lemma zero_spec m rp n : wf m -> valid m rp n ->
  returns (zero m rp n) (fun m' => modifies rp n m m' /\ num m' rp n = 0).
Proof.
  intros Hw Hr. apply (returns_map_up rp n m _ (fun i v => v = 0) 0); [done..|destruct Hr; lia|done|].
  intros i m1 Hi Hm E. exists 0. rewrite aset_in by vecs. split_and!; [done|apply is_limb_0|lia].
Qed.
End moves.

(** ** The contract of the multiplications *)

Section contract.
Context `{LimbWidth}.

Record mul_pre (m : mem) (rp ap an bp bn sc itch : Z) : Prop := {
  mp_wf : wf m;
  mp_rp : valid m rp (an + bn);
  mp_ap : valid m ap an;
  mp_bp : valid m bp bn;
  mp_sc : valid m sc itch;
  mp_ar : disjoint ap an rp (an + bn);
  mp_br : disjoint bp bn rp (an + bn);
  mp_as : disjoint ap an sc itch;
  mp_bs : disjoint bp bn sc itch;
  mp_rs : disjoint rp (an + bn) sc itch;
  mp_bn : 1 <= bn <= an;
  mp_an : an <= base
}.

Definition mul_post (m : mem) (rp ap an bp bn sc itch : Z) (m' : mem) : Prop :=
  touches (fun k => vec rp (an + bn) k \/ vec sc itch k) m m' /\
  num m' rp (an + bn) = num m ap an * num m bp bn.

Record sqr_pre (m : mem) (rp ap n sc itch : Z) : Prop := {
  sp_wf : wf m;
  sp_rp : valid m rp (2 * n);
  sp_ap : valid m ap n;
  sp_sc : valid m sc itch;
  sp_ar : disjoint ap n rp (2 * n);
  sp_as : disjoint ap n sc itch;
  sp_rs : disjoint rp (2 * n) sc itch;
  sp_n : 1 <= n <= base
}.

Definition sqr_post (m : mem) (rp ap n sc itch : Z) (m' : mem) : Prop :=
  touches (fun k => vec rp (2 * n) k \/ vec sc itch k) m m' /\
  num m' rp (2 * n) = num m ap n * num m ap n.

(** A product that used less scratch. *)
Lemma mul_post_mono m rp ap an bp bn sc it sc' it' m' :
  mul_post m rp ap an bp bn sc it m' -> (forall k, vec sc it k -> vec sc' it' k) ->
  mul_post m rp ap an bp bn sc' it' m'.
Proof. intros [Ht E] Hv. split; [|done]. eapply touches_mono; [exact Ht|]. intros k [?|?]; auto. Qed.

Lemma sqr_post_mono m rp ap n sc it sc' it' m' :
  sqr_post m rp ap n sc it m' -> (forall k, vec sc it k -> vec sc' it' k) ->
  sqr_post m rp ap n sc' it' m'.
Proof. intros [Ht E] Hv. split; [|done]. eapply touches_mono; [exact Ht|]. intros k [?|?]; auto. Qed.
End contract.

(** Moves [num] terms about a later memory back to the earlier ones, where the
    steps in between left the vector alone. *)
Ltac pull_goal :=
  repeat match goal with
  | H : touches _ ?m ?m' |- context [num ?m' ?p ?n] => rewrite (touches_num _ _ _ p n H) by vecs
  | H : modifies _ _ ?m ?m' |- context [num ?m' ?p ?n] => rewrite (modifies_num _ _ _ _ p n H) by vecs
  end.

Ltac pull_in E :=
  repeat match type of E with
  | context [num ?m' ?p ?n] =>
      match goal with
      | H : touches _ ?m m' |- _ => rewrite (touches_num _ _ _ p n H) in E by vecs
      | H : modifies _ _ ?m m' |- _ => rewrite (modifies_num _ _ _ _ p n H) in E by vecs
      end
  end.

Ltac wf_mem :=
  match goal with
  | H : wf ?m |- wf ?m => exact H
  | H : touches _ _ ?m |- wf ?m => exact (touches_wf _ _ _ H)
  | H : modifies _ _ _ ?m |- wf ?m => exact (modifies_wf _ _ _ _ H)
  end.

(** Composes the steps between two memories into one frame. *)
Ltac touched :=
  match goal with
  | |- modifies ?rp ?n ?m ?m' => change (touches (vec rp n) m m'); touched
  | H : touches _ ?m ?m' |- touches _ ?m ?m' => eapply touches_mono; [exact H|vecs]
  | H : modifies _ _ ?m ?m' |- touches _ ?m ?m' => eapply touches_mono; [exact H|vecs]
  | H : touches _ ?m1 ?m' |- touches ?P ?m ?m' =>
      apply (touches_trans P m m1 m'); [touched|eapply touches_mono; [exact H|vecs]]
  | H : modifies _ _ ?m1 ?m' |- touches ?P ?m ?m' =>
      apply (touches_trans P m m1 m'); [touched|eapply touches_mono; [exact H|vecs]]
  end.

(** [subst_values m in V] replaces in [V] the vectors of [m] with known value;
    [carry M] moves the known values across the step [M] and extends the frame
    [touches _ m0 _] kept in scope. *)
Ltac subst_values m V :=
  repeat match goal with
  | E : num m ?p ?k = _ |- _ => rewrite E in V
  end.

Ltac carry M :=
  lazymatch type of M with
  | modifies ?rp ?n ?m ?m' => change (touches (vec rp n) m m') in M
  | _ => idtac
  end;
  lazymatch type of M with
  | touches ?P ?m ?m' =>
      repeat match goal with
      | V : num m ?p ?k = _ |- _ => first [rewrite <- (touches_num P m m' p k M ltac:(vecs)) in V|clear V]
      end;
      match goal with
      | T : touches ?Q ?m0 m |- _ =>
          let T' := fresh "T" in
          assert (touches Q m0 m') as T' by (apply (touches_trans Q m0 m m' T); eapply touches_mono; [exact M|vecs]);
          clear T; rename T' into T
      end; clear M; try clear m
  end.
