(* ===== verification/Thresholds.v ===== *)
(** Tier crossovers (math/arbint/thresholds.hpp) and tier tags (math/arbint/tags.hpp).

    The crossovers are macros; the model has their default values, which depend
    on the limb width.  The [static_assert]s on them are the lemma
    [thresholds_ascend]. *)
From stdpp Require Import base numbers option.
From Stdlib Require Import ZArith Lia.
From S2P Require Import Prelude Limb.

Local Open Scope Z_scope.

(** ** Tags *)

Inductive algo := basecase | comba | karatsuba | toom3 | toom4 | nussbaumer.

Inductive divalgo := sbpi1 | dc | mu.

#[export] Instance algo_eq_dec : EqDecision algo.
Proof. solve_decision. Defined.

#[export] Instance divalgo_eq_dec : EqDecision divalgo.
Proof. solve_decision. Defined.

(** static_cast<u8> *)
Definition algo_u8 (k : algo) : Z :=
  match k with
  | basecase => 0 | comba => 1 | karatsuba => 2 | toom3 => 3 | toom4 => 4 | nussbaumer => 5
  end.

Definition divalgo_u8 (k : divalgo) : Z := match k with sbpi1 => 0 | dc => 1 | mu => 2 end.

Definition clamp_to {E} (u8 : E -> Z) (k cap : E) : E := if Z.ltb (u8 cap) (u8 k) then cap else k.

(** The solver tags a type can be pinned to. *)
Module solver.
Inductive t := automatic | basecase | comba | karatsuba | toom | nussbaumer.
End solver.

Module threshold.
Section threshold.
Context `{LimbWidth}.

(** #if defined(__micron_arch_width_64) *)
Definition by_width (w64 w32 : Z) : Z := if Z.eqb limb_bits 64 then w64 else w32.

Definition mul_karatsuba : Z := by_width 20 40.
Definition mul_comba : Z := mul_karatsuba.
Definition mul_toom4 : Z := by_width 320 640.
Definition mul_toom3 : Z := mul_toom4.
Definition mul_nussbaumer : Z := by_width 50000 100000.

Definition sqr_karatsuba : Z := by_width 32 64.
Definition sqr_comba : Z := sqr_karatsuba.
Definition sqr_toom3 : Z := by_width 512 1024.
Definition sqr_toom4 : Z := by_width 2048 4096.
Definition sqr_nussbaumer : Z := by_width 40000 80000.

Definition div_dc : Z := by_width 320 640.
Definition div_mu : Z := by_width 1536 3072.
End threshold.
End threshold.

(** static_cast<algo>(MICRON_ARBINT_MUL_TIER_CAP) and its siblings *)
Definition mul_tier_cap : algo := toom4.
Definition sqr_tier_cap : algo := toom3.
Definition div_tier_cap : divalgo := dc.

Section ladders.
Context `{LimbWidth}.

Definition pick_mul (an bn : Z) : algo :=
  let n := if Z.ltb an bn then an else bn in
  if Z.ltb n threshold.mul_comba then basecase
  else if Z.ltb n threshold.mul_karatsuba then comba
  else if Z.ltb n threshold.mul_toom3 then karatsuba
  else if Z.ltb n threshold.mul_toom4 then toom3
  else if Z.ltb n threshold.mul_nussbaumer then toom4
  else nussbaumer.

Definition pick_sqr (n : Z) : algo :=
  if Z.ltb n threshold.sqr_comba then basecase
  else if Z.ltb n threshold.sqr_karatsuba then comba
  else if Z.ltb n threshold.sqr_toom3 then karatsuba
  else if Z.ltb n threshold.sqr_toom4 then toom3
  else if Z.ltb n threshold.sqr_nussbaumer then toom4
  else nussbaumer.

Definition pick_div (nn dn : Z) : divalgo :=
  if Z.ltb dn threshold.div_dc then sbpi1
  else if Z.ltb dn threshold.div_mu then dc
  else if andb (Z.leb dn nn) (Z.leb dn (nn - dn)) then mu else dc.

Definition clamp_algo (k : algo) : algo := clamp_to algo_u8 k mul_tier_cap.

(** [pinned_algo<S>()], for the tags other than [automatic]. *)
Definition pinned_algo (s : solver.t) : algo :=
  match s with
  | solver.basecase => basecase
  | solver.comba => comba
  | solver.karatsuba => karatsuba
  | solver.toom => toom3
  | _ => nussbaumer
  end.

Lemma thresholds_ascend :
  1 <= threshold.mul_comba <= threshold.mul_karatsuba /\
  threshold.mul_karatsuba <= threshold.mul_toom3 <= threshold.mul_toom4 /\
  threshold.mul_toom4 <= threshold.mul_nussbaumer /\
  1 <= threshold.sqr_comba <= threshold.sqr_karatsuba /\
  threshold.sqr_karatsuba <= threshold.sqr_toom3 <= threshold.sqr_toom4 /\
  threshold.sqr_toom4 <= threshold.sqr_nussbaumer /\
  threshold.div_dc <= threshold.div_mu.
Proof.
  unfold threshold.mul_comba, threshold.mul_karatsuba, threshold.mul_toom3, threshold.mul_toom4,
    threshold.mul_nussbaumer, threshold.sqr_comba, threshold.sqr_karatsuba, threshold.sqr_toom3,
    threshold.sqr_toom4, threshold.sqr_nussbaumer, threshold.div_dc, threshold.div_mu, threshold.by_width.
  destruct (Z.eqb limb_bits 64); lia.
Qed.
End ladders.
