(* ===== verification/MpnKaratsuba.v ===== *)
(** Karatsuba multiplication and squaring (math/arbint/mul_karatsuba.hpp).

    The three mutually recursive routines become two functions over the
    recursive call and one fixpoint that closes the knot with fuel; the fuel
    an + bn is enough, because every recursive call has a smaller sum of
    lengths.  The scratch accounting loops are [level_sum]. *)
From stdpp Require Import base numbers list option.
From Stdlib Require Import ZArith Lia.
From S2P Require Import Prelude Arrays Limb Mpn MpnMul Thresholds.

Local Open Scope Z_scope.

(** while (go(n)) { total += cost(n); n = next(n); } *)
Fixpoint level_sum (fuel : nat) (go : Z -> bool) (cost next : Z -> Z) (n total : Z) : Z * Z :=
  match fuel with
  | O => (total, n)
  | S fuel =>
      if go n then level_sum fuel go cost next (next n) (total + cost n) else (total, n)
  end.

Definition at_least_2 (cutoff : Z) : Z := if Z.ltb cutoff 2 then 2 else cutoff.

Definition karatsuba_force : Z := 2.

Definition karatsuba_itch (n cutoff : Z) : Z :=
  let cutoff := at_least_2 cutoff in
  fst (level_sum (Z.to_nat n) (fun n => andb (Z.leb cutoff n) (Z.leb 2 n))
    (fun n => 6 * ((n + 1) / 2) + 1) (fun n => (n + 1) / 2) n 0).

Fixpoint unbalanced_stage_loop (fuel : nat) (an bn cutoff total : Z) : Z :=
  match fuel with
  | O => total
  | S fuel =>
      if andb (andb (Z.ltb bn an) (Z.leb cutoff bn)) (Z.leb 2 bn) then
        let total := total + 2 * bn in
        let take := an mod bn in
        if Z.eqb take 0 then total else unbalanced_stage_loop fuel bn take cutoff total
      else total
  end.

Definition unbalanced_stage_itch (an bn cutoff : Z) : Z :=
  unbalanced_stage_loop (Z.to_nat bn) an bn (at_least_2 cutoff) 0.

Definition sqr_karatsuba_itch (n cutoff : Z) : Z :=
  let cutoff := at_least_2 cutoff in
  fst (level_sum (Z.to_nat n) (fun n => andb (Z.leb cutoff n) (Z.leb 2 n))
    (fun n => 5 * ((n + 1) / 2) + 1) (fun n => (n + 1) / 2) n 0).

Section karatsuba.
Context `{LimbWidth}.

(** The type of [__mul_rec]: memory, rp, ap, an, bp, bn, scratch, cutoff. *)
Abbreviation mul_fn := (mem -> Z -> Z -> Z -> Z -> Z -> Z -> Z -> option mem).

(** |x0 - x1| of the two halves of an operand into [dp]; true when x0 < x1. *)
Definition abs_diff_halves (m : mem) (dp xp k h : Z) : option (mem * bool) :=
  m ← copyi m dp (xp + k) h;
  m ← zero m (dp + h) (k - h);
  c ← cmp m xp dp k;
  '(m, _) ← (if Z.ltb c 0 then sub_n m dp dp xp k else sub_n m dp xp dp k);
  Some (m, Z.ltb c 0).

Definition mul_karatsuba_n (rec_ : mul_fn) (m : mem) (rp ap bp n scratch cutoff : Z) : option mem :=
  let k := (n + 1) / 2 in
  let h := n - k in
  let asm1 := scratch in
  let bsm1 := asm1 + k in
  let vm1 := bsm1 + k in
  let mid := vm1 + 2 * k in
  let rec := mid + 2 * k + 1 in
  '(m, asign) ← abs_diff_halves m asm1 ap k h;
  '(m, bsign) ← abs_diff_halves m bsm1 bp k h;
  m ← rec_ m rp ap k bp k rec cutoff;
  m ← rec_ m (rp + 2 * k) (ap + k) h (bp + k) h rec cutoff;
  m ← rec_ m vm1 asm1 k bsm1 k rec cutoff;
  '(m, cy) ← add m mid rp (2 * k) (rp + 2 * k) (2 * h);
  m ← aset m (mid + 2 * k) cy;
  '(m, _) ← (if Bool.eqb asign bsign then sub m mid mid (2 * k + 1) vm1 (2 * k)
             else add m mid mid (2 * k + 1) vm1 (2 * k));
  '(m, _) ← add m (rp + k) (rp + k) (2 * n - k) mid (n + 1);
  Some m.

(** The loop over the blocks of [ap] that follow the first. *)
Definition mul_karatsuba_unbalanced (rec_ : mul_fn) (m : mem) (rp ap an bp bn scratch cutoff : Z) : option mem :=
  let block := scratch in
  let rec := block + 2 * bn in
  let done := if Z.ltb bn an then bn else an in
  m ← rec_ m rp ap done bp bn rec cutoff;
  m ← zero m (rp + done + bn) (an - done);
  while_ (Z.to_nat (an + 1)) (fun '(m, done) =>
    if Z.ltb done an then
      let take := if Z.ltb (an - done) bn then an - done else bn in
      m ← rec_ m block bp bn (ap + done) take rec cutoff;
      '(m, _) ← add m (rp + done) (rp + done) (an + bn - done) block (take + bn);
      Some (inl (m, done + take))
    else Some (inr m)) (m, done).

Fixpoint __mul_rec (fuel : nat) (m : mem) (rp ap an bp bn scratch cutoff : Z) : option mem :=
  match fuel with
  | O => None
  | S fuel =>
      if Z.eqb bn 1 then
        b0 ← m.[bp];
        '(m, cy) ← mul_1 m rp ap an b0;
        aset m (rp + an) cy
      else if Z.ltb bn cutoff then
        if Z.ltb bn threshold.mul_comba then mul_basecase m rp ap an bp bn
        else mul_comba m rp ap an bp bn
      else if Z.eqb an bn then mul_karatsuba_n (__mul_rec fuel) m rp ap bp an scratch cutoff
      else mul_karatsuba_unbalanced (__mul_rec fuel) m rp ap an bp bn scratch cutoff
  end.

Definition mul_rec_fuel (an bn : Z) : nat := Z.to_nat (an + bn).

Definition mul_karatsuba (m : mem) (rp ap an bp bn scratch cutoff : Z) : option mem :=
  __mul_rec (mul_rec_fuel an bn) m rp ap an bp bn scratch (at_least_2 cutoff).

Definition mul_karatsuba_top (m : mem) (rp ap an bp bn scratch : Z) : option mem :=
  let fuel := mul_rec_fuel an bn in
  if Z.ltb bn 2 then __mul_rec fuel m rp ap an bp bn scratch threshold.mul_karatsuba
  else if Z.eqb an bn then
    mul_karatsuba_n (__mul_rec fuel) m rp ap bp an scratch threshold.mul_karatsuba
  else
    mul_karatsuba_unbalanced (__mul_rec fuel) m rp ap an bp bn scratch threshold.mul_karatsuba.

(** The type of [sqr_karatsuba]: memory, rp, ap, n, scratch, cutoff. *)
Abbreviation sqr_fn := (mem -> Z -> Z -> Z -> Z -> Z -> option mem).

Definition sqr_karatsuba_n (rec_ : sqr_fn) (m : mem) (rp ap n scratch cutoff : Z) : option mem :=
  let k := (n + 1) / 2 in
  let h := n - k in
  let asm1 := scratch in
  let vm1 := asm1 + k in
  let mid := vm1 + 2 * k in
  let rec := mid + 2 * k + 1 in
  '(m, _) ← abs_diff_halves m asm1 ap k h;
  m ← rec_ m rp ap k rec cutoff;
  m ← rec_ m (rp + 2 * k) (ap + k) h rec cutoff;
  m ← rec_ m vm1 asm1 k rec cutoff;
  '(m, cy) ← add m mid rp (2 * k) (rp + 2 * k) (2 * h);
  m ← aset m (mid + 2 * k) cy;
  '(m, _) ← sub m mid mid (2 * k + 1) vm1 (2 * k);
  '(m, _) ← add m (rp + k) (rp + k) (2 * n - k) mid (n + 1);
  Some m.

Fixpoint sqr_karatsuba_rec (fuel : nat) (m : mem) (rp ap n scratch cutoff : Z) : option mem :=
  match fuel with
  | O => None
  | S fuel =>
      let cutoff := at_least_2 cutoff in
      if orb (Z.ltb n cutoff) (Z.ltb n 2) then sqr_basecase m rp ap n
      else sqr_karatsuba_n (sqr_karatsuba_rec fuel) m rp ap n scratch cutoff
  end.

Definition sqr_karatsuba (m : mem) (rp ap n scratch cutoff : Z) : option mem :=
  sqr_karatsuba_rec (Z.to_nat n) m rp ap n scratch cutoff.

Definition sqr_karatsuba_top (m : mem) (rp ap n scratch : Z) : option mem :=
  if Z.ltb n 2 then sqr_basecase m rp ap n
  else sqr_karatsuba_n sqr_karatsuba m rp ap n scratch threshold.sqr_karatsuba.
End karatsuba.
