(* ===== verification/MpnKaratsubaProof.v ===== *)
(** Correctness of Karatsuba multiplication and squaring: the result is the exact
    product, only the result and the accounted scratch are written, and the
    recursion stops. *)
From stdpp Require Import base numbers list option.
From Stdlib Require Import ZArith Lia.
From S2P Require Import Prelude Arrays Limb Mpn MpnValue MpnArith MpnBits MpnMul MpnMulProof MpnFrame Thresholds MpnKaratsuba.

Local Open Scope Z_scope.

(** ** Scratch accounting *)

Section level_sum.
Context (go : Z -> bool) (cost next : Z -> Z).
Context (Hnext : forall n, go n = true -> 0 <= next n < n).

Lemma level_sum_total fuel n t :
  level_sum fuel go cost next n t =
  (t + fst (level_sum fuel go cost next n 0), snd (level_sum fuel go cost next n 0)).
Proof.
  revert n t. induction fuel as [|fuel IH]; intros n t; simpl; [f_equal; lia|].
  destruct (go n); simpl; [|f_equal; lia]. rewrite IH, (IH (next n) (0 + cost n)). simpl. f_equal. lia.
Qed.

Lemma level_sum_fuel fuel n t : n <= Z.of_nat fuel ->
  level_sum fuel go cost next n t = level_sum (Z.to_nat n) go cost next n t.
Proof.
  revert n t. induction fuel as [fuel IH] using (well_founded_induction lt_wf). intros n t Hle.
  destruct fuel as [|f], (Z.to_nat n) as [|f'] eqn:En; simpl; try done.
  - lia.
  - destruct (go n) eqn:Eg; [|done]. specialize (Hnext n Eg). lia.
  - destruct (go n) eqn:Eg; [|done]. specialize (Hnext n Eg).
    rewrite (IH f) by lia. rewrite (IH f') by lia. done.
Qed.

Definition total_cost (n : Z) : Z := fst (level_sum (Z.to_nat n) go cost next n 0).

Lemma total_cost_eq n : total_cost n = if go n then cost n + total_cost (next n) else 0.
Proof.
  unfold total_cost. destruct (go n) eqn:Eg.
  - pose proof (Hnext n Eg). replace (Z.to_nat n) with (S (Z.to_nat (n - 1))) by lia.
    simpl. rewrite Eg, level_sum_total. cbn [fst]. rewrite level_sum_fuel by lia. lia.
  - destruct (Z.to_nat n); simpl; [done|]. by rewrite Eg.
Qed.

Lemma last_level_eq n :
  snd (level_sum (Z.to_nat n) go cost next n 0) =
  if go n then snd (level_sum (Z.to_nat (next n)) go cost next (next n) 0) else n.
Proof.
  destruct (go n) eqn:Eg.
  - pose proof (Hnext n Eg). replace (Z.to_nat n) with (S (Z.to_nat (n - 1))) by lia.
    simpl. rewrite Eg, level_sum_total. cbn [snd]. by rewrite level_sum_fuel by lia.
  - destruct (Z.to_nat n); simpl; [done|]. by rewrite Eg.
Qed.
End level_sum.

Lemma at_least_2_ge c : 2 <= at_least_2 c /\ c <= at_least_2 c.
Proof. unfold at_least_2. destruct (Z.ltb_spec c 2); lia. Qed.

Lemma at_least_2_idem c : at_least_2 (at_least_2 c) = at_least_2 c.
Proof. pose proof (at_least_2_ge c). unfold at_least_2 at 1. destruct (Z.ltb_spec (at_least_2 c) 2); lia. Qed.

Lemma at_least_2_mono c c' : c <= c' -> at_least_2 c <= at_least_2 c'.
Proof. intros. unfold at_least_2. destruct (Z.ltb_spec c 2), (Z.ltb_spec c' 2); lia. Qed.

(** The two halves of an operand of at least two limbs. *)
Lemma split_halves n : 2 <= n -> let k := (n + 1) / 2 in 1 <= n - k <= k /\ k < n /\ 2 * k <= n + 1.
Proof. intros. pose proof (Z.div_mod (n + 1) 2). pose proof (Z.mod_pos_bound (n + 1) 2). lia. Qed.

Lemma split_halves_mono a b : a <= b -> (a + 1) / 2 <= (b + 1) / 2.
Proof. intros. apply Z.div_le_mono; lia. Qed.

(** Both accountings have a multiplier [c] per level. *)
Definition kara_cost (c cutoff n : Z) : Z :=
  total_cost (fun n => andb (Z.leb cutoff n) (Z.leb 2 n)) (fun n => c * ((n + 1) / 2) + 1) (fun n => (n + 1) / 2) n.

Lemma kara_cost_eq c cutoff n : kara_cost c cutoff n =
  if andb (Z.leb cutoff n) (Z.leb 2 n) then c * ((n + 1) / 2) + 1 + kara_cost c cutoff ((n + 1) / 2) else 0.
Proof.
  unfold kara_cost. rewrite total_cost_eq; [done|]. intros n' Hn'.
  assert (2 <= n') as Hn2 by (apply andb_prop in Hn' as [_ ?%Z.leb_le]; done).
  pose proof (split_halves n' Hn2). simpl in *. lia.
Qed.

Lemma kara_cost_nonneg c cutoff n : 0 <= c -> 0 <= kara_cost c cutoff n.
Proof.
  intros Hc. destruct (Z.lt_ge_cases n 0) as [|Hn].
  { rewrite kara_cost_eq. destruct (Z.leb_spec 2 n); [lia|]. by rewrite Bool.andb_false_r. }
  revert n Hn. refine (Z_lt_induction _ _). intros n IH. rewrite kara_cost_eq.
  destruct (andb _ _) eqn:E; [|done]. apply andb_prop in E as [_ E%Z.leb_le].
  pose proof (split_halves n E) as Hh. simpl in Hh. pose proof (IH ((n + 1) / 2) ltac:(lia)). nia.
Qed.

(** More limbs or a lower cutoff never need less scratch. *)
Lemma kara_cost_mono c cut cut' a b : 0 <= c -> a <= b -> cut' <= cut -> kara_cost c cut a <= kara_cost c cut' b.
Proof.
  intros Hc Hab Hcut. destruct (Z.lt_ge_cases b 0) as [|Hb].
  { rewrite (kara_cost_eq _ _ a). destruct (Z.leb_spec 2 a); [lia|]. rewrite Bool.andb_false_r.
    by apply kara_cost_nonneg. }
  revert b Hb a Hab. refine (Z_lt_induction _ _). intros b IH a Hab.
  rewrite (kara_cost_eq _ _ a). destruct (andb _ _) eqn:E; [|by apply kara_cost_nonneg].
  apply andb_prop in E as [E1%Z.leb_le E2%Z.leb_le].
  rewrite (kara_cost_eq _ _ b), (proj2 (Z.leb_le cut' b)), (proj2 (Z.leb_le 2 b)) by lia. cbn [andb].
  pose proof (split_halves b ltac:(lia)) as Hh. simpl in Hh. pose proof (split_halves_mono a b Hab).
  pose proof (IH ((b + 1) / 2) ltac:(lia) ((a + 1) / 2) ltac:(lia)).
  assert (c * ((a + 1) / 2) <= c * ((b + 1) / 2)) by (apply Z.mul_le_mono_nonneg_l; lia). lia.
Qed.

Lemma karatsuba_itch_cost n cutoff : karatsuba_itch n cutoff = kara_cost 6 (at_least_2 cutoff) n.
Proof. done. Qed.

Lemma sqr_karatsuba_itch_cost n cutoff : sqr_karatsuba_itch n cutoff = kara_cost 5 (at_least_2 cutoff) n.
Proof. done. Qed.

(** *** The stages of an unbalanced product *)

Lemma stage_total fuel an bn c t :
  unbalanced_stage_loop fuel an bn c t = t + unbalanced_stage_loop fuel an bn c 0.
Proof.
  revert an bn t. induction fuel as [|f IH]; intros an bn t; simpl; [lia|].
  destruct (andb _ _); [|lia]. destruct (Z.eqb _ 0); [lia|]. rewrite IH, (IH _ _ (2 * bn)). lia.
Qed.

Lemma stage_guard an bn c : andb (andb (Z.ltb bn an) (Z.leb c bn)) (Z.leb 2 bn) = true <-> bn < an /\ c <= bn /\ 2 <= bn.
Proof. rewrite !Bool.andb_true_iff, Z.ltb_lt, !Z.leb_le. tauto. Qed.

Lemma stage_fuel fuel an bn c t : bn <= Z.of_nat fuel ->
  unbalanced_stage_loop fuel an bn c t = unbalanced_stage_loop (Z.to_nat bn) an bn c t.
Proof.
  revert an bn t. induction fuel as [fuel IH] using (well_founded_induction lt_wf). intros an bn t Hle.
  destruct fuel as [|f], (Z.to_nat bn) as [|f'] eqn:En; simpl; try done.
  - lia.
  - destruct (andb _ _) eqn:Eg; [|done]. apply stage_guard in Eg. lia.
  - destruct (andb _ _) eqn:Eg; [|done]. apply stage_guard in Eg.
    destruct (Z.eqb_spec (an mod bn) 0); [done|]. pose proof (Z.mod_pos_bound an bn ltac:(lia)).
    rewrite (IH f) by lia. rewrite (IH f') by lia. done.
Qed.

Definition stages (an bn c : Z) : Z := unbalanced_stage_loop (Z.to_nat bn) an bn c 0.

Lemma stages_eq an bn c : stages an bn c =
  if andb (andb (Z.ltb bn an) (Z.leb c bn)) (Z.leb 2 bn) then
    2 * bn + (if Z.eqb (an mod bn) 0 then 0 else stages bn (an mod bn) c)
  else 0.
Proof.
  unfold stages. destruct (andb _ _) eqn:Eg.
  - pose proof (proj1 (stage_guard _ _ _) Eg). pose proof (Z.mod_pos_bound an bn ltac:(lia)).
    replace (Z.to_nat bn) with (S (Z.to_nat (bn - 1))) by lia. simpl. rewrite Eg.
    destruct (Z.eqb _ 0); [lia|]. rewrite stage_total, stage_fuel by lia. lia.
  - destruct (Z.to_nat bn); simpl; [done|]. by rewrite Eg.
Qed.

Lemma stages_nonneg an bn c : 0 <= stages an bn c.
Proof.
  destruct (Z.lt_ge_cases bn 0) as [|Hn].
  { rewrite stages_eq. destruct (andb _ _) eqn:Eg; [|done]. apply stage_guard in Eg. lia. }
  revert bn Hn an. refine (Z_lt_induction _ _). intros bn IH an. rewrite stages_eq.
  destruct (andb _ _) eqn:Eg; [|done]. apply stage_guard in Eg.
  pose proof (Z.mod_pos_bound an bn ltac:(lia)) as Hm. destruct (Z.eqb_spec (an mod bn) 0); [lia|].
  pose proof (IH (an mod bn) ltac:(lia) bn). lia.
Qed.

Lemma stages_cutoff an bn c c' : 0 <= bn -> c' <= c -> stages an bn c <= stages an bn c'.
Proof.
  intros Hn Hc. revert bn Hn an. refine (Z_lt_induction _ _). intros bn IH an. rewrite stages_eq.
  destruct (andb _ _) eqn:Eg; [|apply stages_nonneg]. apply stage_guard in Eg.
  rewrite (stages_eq an bn c'), (proj2 (stage_guard an bn c')) by lia.
  pose proof (Z.mod_pos_bound an bn ltac:(lia)) as Hm. destruct (Z.eqb_spec (an mod bn) 0); [lia|].
  pose proof (IH (an mod bn) ltac:(lia) bn). lia.
Qed.

(** What a product of [an] by [bn] limbs needs. *)
Definition need (an bn c : Z) : Z := stages an bn c + kara_cost 6 c bn.

Lemma need_nonneg an bn c : 0 <= need an bn c.
Proof. pose proof (stages_nonneg an bn c). pose proof (kara_cost_nonneg 6 c bn). unfold need. lia. Qed.

Lemma need_balanced n c : need n n c = kara_cost 6 c n.
Proof.
  unfold need. rewrite stages_eq. destruct (andb _ _) eqn:Eg; [|lia]. apply stage_guard in Eg. lia.
Qed.

Lemma need_halves n c : 2 <= n -> c <= n -> let k := (n + 1) / 2 in
  need n n c = 6 * k + 1 + need k k c /\ need (n - k) (n - k) c <= need k k c.
Proof.
  intros Hn Hc k. pose proof (split_halves n Hn) as Hh. rewrite !need_balanced, (kara_cost_eq _ _ n).
  rewrite (proj2 (Z.leb_le _ _) Hn), (proj2 (Z.leb_le _ _) Hc). cbn [andb]. split; [done|].
  apply kara_cost_mono; simpl in *; lia.
Qed.

Lemma need_blocks an bn c : bn < an -> 2 <= bn -> c <= bn ->
  2 * bn + need bn bn c <= need an bn c /\
  (forall t, t = an mod bn -> t <> 0 -> 2 * bn + need bn t c <= need an bn c).
Proof.
  intros Hab Hb Hc. rewrite need_balanced. unfold need.
  rewrite (stages_eq an), (proj2 (stage_guard an bn c)) by lia.
  pose proof (Z.mod_pos_bound an bn ltac:(lia)). split.
  - destruct (Z.eqb_spec (an mod bn) 0); [lia|]. pose proof (stages_nonneg bn (an mod bn) c). lia.
  - intros t -> Ht. destruct (Z.eqb_spec (an mod bn) 0); [lia|].
    pose proof (kara_cost_mono 6 c c (an mod bn) bn). lia.
Qed.

(** ** One level *)

Section level.
Context `{LimbWidth}.

Lemma abs_diff_halves_spec m dp xp k h : wf m -> valid m dp k -> valid m xp (k + h) -> 0 <= h <= k ->
  disjoint xp (k + h) dp k ->
  returns (abs_diff_halves m dp xp k h) (fun '(m', s) => modifies dp k m m' /\
    num m' dp k = Z.abs (num m xp k - num m (xp + k) h) /\ s = Z.ltb (num m xp k) (num m (xp + k) h)).
Proof.
  intros Hw Hd Hx Hh D. unfold abs_diff_halves.
  eapply returns_bind; [apply copyi_spec; [done|vecs..]|]. intros m1 [M1 E1].
  eapply returns_bind; [apply zero_spec; [wf_mem|vecs]|]. intros m2 [M2 E2].
  assert (modifies dp k m m2) as M2'.
  { eapply modifies_trans; eapply modifies_mono; [exact M1| | |exact M2| |]; vecs. }
  assert (num m2 dp k = num m (xp + k) h) as Ed.
  { rewrite (num_split_at m2 dp h) by lia. rewrite E2. pull_goal. rewrite E1. lia. }
  assert (num m2 xp k = num m xp k) as Ex by (pull_goal; done).
  rewrite cmp_spec by (wf_mem || vecs). cbn [mbind option_bind]. rewrite Ed, Ex.
  set (x0 := num m xp k) in *. set (x1 := num m (xp + k) h) in *.
  pose proof (num_range m xp k Hw ltac:(lia)). pose proof (num_range m2 dp k (modifies_wf _ _ _ _ M2') ltac:(lia)).
  rewrite sign_ltb. destruct (Z.ltb_spec x0 x1) as [Hlt|Hge].
  - eapply returns_bind; [apply sub_n_spec; [wf_mem|vecs..]|]. intros [m3 bw] (M3 & Hbw & E3).
    apply returns_ret. pose proof (num_range m3 dp k (modifies_wf _ _ _ _ M3) ltac:(lia)).
    split_and!; [by eapply modifies_trans| |done].
    rewrite Ed, Ex in E3. rewrite (no_borrow _ _ _ _ E3) by lia. lia.
  - eapply returns_bind; [apply sub_n_spec; [wf_mem|vecs..]|]. intros [m3 bw] (M3 & Hbw & E3).
    apply returns_ret. pose proof (num_range m3 dp k (modifies_wf _ _ _ _ M3) ltac:(lia)).
    split_and!; [by eapply modifies_trans| |done].
    rewrite Ed, Ex in E3. rewrite (no_borrow _ _ _ _ E3) by lia. lia.
Qed.

(** The end of a level: z0 and z2 are in place at [rp], their sum corrected by the
    product of the differences is added in the middle. *)
Section combine.
Context (m : mem) (rp vm1 mid n k h : Z).
Context (Hh : 1 <= n - k <= k /\ k < n /\ 2 * k <= n + 1) (Eh : h = n - k) (Hw : wf m) (Hr : valid m rp (2 * n)) (Hv : valid m vm1 (2 * k)) (Hm : valid m mid (2 * k + 1)).
Context (Dm : disjoint rp (2 * n) mid (2 * k + 1)) (Dv : disjoint vm1 (2 * k) mid (2 * k + 1)).

Lemma combine_spec (same : bool) z0 z2 v mm :
  num m rp (2 * k) = z0 -> num m (rp + 2 * k) (2 * h) = z2 -> num m vm1 (2 * k) = v ->
  mm = z0 + z2 - (if same then v else - v) -> 0 <= mm < base ^ (n + 1) ->
  z0 + base ^ k * mm + base ^ (2 * k) * z2 < base ^ (2 * n) ->
  returns ('(m, cy) ← add m mid rp (2 * k) (rp + 2 * k) (2 * h);
    m ← aset m (mid + 2 * k) cy;
    '(m, _) ← (if same then sub m mid mid (2 * k + 1) vm1 (2 * k) else add m mid mid (2 * k + 1) vm1 (2 * k));
    '(m, _) ← add m (rp + k) (rp + k) (2 * n - k) mid (n + 1);
    Some m)
    (fun m' => touches (fun c => vec rp (2 * n) c \/ vec mid (2 * k + 1) c) m m' /\
      num m' rp (2 * n) = z0 + base ^ k * mm + base ^ (2 * k) * z2).
Proof.
  intros E0 E2 Ev Em Hmm Hsum.
  assert (base ^ (n + 1) <= base ^ (2 * k + 1)) as Hpow by (apply Z.pow_le_mono_r; [apply base_pos|lia]).
  eapply returns_bind; [apply add_var_spec; [done|vecs..]|]. intros [m1 cy] (M1 & Hcy & V1).
  apply returns_set; [vecs|]. rewrite E0, E2 in V1.
  assert (modifies mid (2 * k + 1) m (upd m1 (mid + 2 * k) cy)) as M2.
  { eapply modifies_upd; [exact M1|vecs..|by apply is_limb_bit]. }
  assert (num (upd m1 (mid + 2 * k) cy) mid (2 * k + 1) = z0 + z2) as V2.
  { rewrite num_upd_at by vecs. clear - V1. lia. }
  revert M2 V2. generalize (upd m1 (mid + 2 * k) cy). clear V1 Hcy M1. intros m2 M2 V2.
  assert (num m2 vm1 (2 * k) = v) as Ev2 by (pull_goal; done).
  pose proof (num_range m2 vm1 (2 * k) (modifies_wf _ _ _ _ M2) ltac:(idx)) as RV.
  apply (returns_bind _ _ (fun '(m3, _) => modifies mid (2 * k + 1) m2 m3 /\ num m3 mid (2 * k + 1) = mm)).
  { destruct same.
    - eapply returns_mono; [apply sub_var_spec; [wf_mem|vecs..]|]. intros [m3 b] (M3 & Hb & V3).
      pose proof (num_range m3 mid (2 * k + 1) (modifies_wf _ _ _ _ M3) ltac:(idx)) as RR.
      split; [done|]. rewrite V2, Ev2 in V3. clear - V3 Hb Hmm Hpow Em RR RV. rewrite (no_borrow _ _ _ _ V3); lia.
    - eapply returns_mono; [apply add_var_spec; [wf_mem|vecs..]|]. intros [m3 b] (M3 & Hb & V3).
      pose proof (num_range m3 mid (2 * k + 1) (modifies_wf _ _ _ _ M3) ltac:(idx)) as RR.
      split; [done|]. rewrite V2, Ev2 in V3. clear - V3 Hb Hmm Hpow Em RR RV. rewrite (no_carry _ _ _ _ V3); lia. }
  intros [m3 b] [M3 V3].
  eapply returns_bind; [apply add_var_spec; [wf_mem|vecs..]|]. intros [m4 cy4] (M4 & Hc4 & V4).
  apply returns_ret. split.
  { touched. }
  assert (num m3 mid (n + 1) = mm) as Vm.
  { pose proof (num_split_at m3 mid (n + 1) (2 * k + 1) ltac:(idx)) as Es. rewrite V3 in Es.
    pose proof (num_range m3 mid (n + 1) (modifies_wf _ _ _ _ M3) ltac:(idx)) as R1.
    pose proof (num_range m3 (mid + (n + 1)) (2 * k + 1 - (n + 1)) (modifies_wf _ _ _ _ M3) ltac:(idx)) as R2.
    symmetry in Es. clear - Es R1 R2 Hmm. apply (no_carry _ _ _ _ Es); lia. }
  rewrite Vm in V4.
  pose proof (num_split_at m3 rp k (2 * n) ltac:(idx)) as Es3.
  rewrite (num_split_at m3 rp (2 * k) (2 * n)) in Es3 by idx.
  assert (num m3 rp (2 * k) = z0) as F0 by (pull_goal; done).
  assert (num m3 (rp + 2 * k) (2 * n - 2 * k) = z2) as F2.
  { replace (2 * n - 2 * k) with (2 * h) by idx. pull_goal. done. }
  rewrite F0, F2 in Es3.
  rewrite (num_split_at m4 rp k (2 * n)) by idx. rewrite (modifies_num _ _ _ _ rp k M4) by vecs.
  rewrite (base_split k (2 * n)) in Hsum by idx.
  pose proof (num_range m4 (rp + k) (2 * n - k) (modifies_wf _ _ _ _ M4) ltac:(idx)) as R4.
  pose proof (num_range m3 rp k (modifies_wf _ _ _ _ M3) ltac:(idx)) as R3.
  pose proof (base_pow_pos k ltac:(idx)) as HP. clear - Es3 V4 R3 R4 HP Hsum Hc4.
  rewrite (add_at_weight _ _ _ _ _ _ _ _ (eq_sym Es3) V4); lia.
Qed.
End combine.
End level.

(** ** The identity *)

Lemma karatsuba_identity a0 a1 b0 b1 :
  a0 * b0 + a1 * b1 -
    (if Bool.eqb (Z.ltb a0 a1) (Z.ltb b0 b1) then Z.abs (a0 - a1) * Z.abs (b0 - b1)
     else - (Z.abs (a0 - a1) * Z.abs (b0 - b1))) = a0 * b1 + a1 * b0.
Proof. destruct (Z.ltb_spec a0 a1), (Z.ltb_spec b0 b1); cbn [Bool.eqb]; nia. Qed.

Lemma middle_bound `{LimbWidth} a0 a1 b0 b1 k h n : 0 <= k -> 0 <= h -> n = k + h ->
  0 <= a0 < base ^ k -> 0 <= b0 < base ^ k -> 0 <= a1 < base ^ h -> 0 <= b1 < base ^ h ->
  0 <= a0 * b1 + a1 * b0 < base ^ (n + 1).
Proof.
  intros Hk Hh -> Ha0 Hb0 Ha1 Hb1. rewrite base_succ, Z.pow_add_r by lia.
  assert (a0 * b1 < base ^ k * base ^ h) by (apply Z.mul_lt_mono_nonneg; lia).
  assert (b0 * a1 < base ^ k * base ^ h) by (apply Z.mul_lt_mono_nonneg; lia).
  pose proof base_ge. nia.
Qed.

Lemma num_halves `{LimbWidth} m p n : 2 <= n -> let k := (n + 1) / 2 in
  num m p n = num m p k + base ^ k * num m (p + k) (n - k).
Proof. intros Hn. pose proof (split_halves n Hn). apply num_split_at. simpl in *. lia. Qed.

Lemma product_bound `{LimbWidth} m p n q j : wf m -> 0 <= n -> 0 <= j ->
  0 <= num m p n * num m q j < base ^ (n + j).
Proof.
  intros Hw Hn Hj. rewrite Z.pow_add_r by done.
  pose proof (num_range m p n Hw Hn). pose proof (num_range m q j Hw Hj). nia.
Qed.

(** ** One level of the recursion *)

Section recursion.
Context `{LimbWidth}.
Context (rec_ : mem -> Z -> Z -> Z -> Z -> Z -> Z -> Z -> option mem) (cutoff c lim : Z).

Definition rec_ok : Prop := forall m rp ap an bp bn sc it, an + bn < lim -> need an bn c <= it ->
  mul_pre m rp ap an bp bn sc it ->
  returns (rec_ m rp ap an bp bn sc cutoff) (mul_post m rp ap an bp bn sc it).

Context (Hrec : rec_ok).

Lemma mul_karatsuba_n_spec m rp ap bp n sc it : 2 <= n -> 2 * n <= lim ->
  6 * ((n + 1) / 2) + 1 + need ((n + 1) / 2) ((n + 1) / 2) c <= it ->
  need (n - (n + 1) / 2) (n - (n + 1) / 2) c <= need ((n + 1) / 2) ((n + 1) / 2) c ->
  mul_pre m rp ap n bp n sc it ->
  returns (mul_karatsuba_n rec_ m rp ap bp n sc cutoff) (mul_post m rp ap n bp n sc it).
Proof.
  intros Hn Hlim Hit Hit' [Hw Hr Ha Hb Hs Dar Dbr Das Dbs Drs _ Hbase].
  unfold mul_karatsuba_n, mul_post. pose proof (split_halves n Hn) as Hh. cbv zeta in Hh.
  pose proof (num_halves m ap n Hn) as Ea. pose proof (num_halves m bp n Hn) as Eb. cbv zeta in Ea, Eb |- *.
  pose proof (product_bound m ap n bp n Hw ltac:(lia) ltac:(lia)) as Hprod.
  revert Hh Ea Eb Hit Hit'. generalize ((n + 1) / 2) as k. intros k Hh Ea Eb Hit Hit'.
  remember (n - k) as h eqn:Eh. pose proof (need_nonneg k k c) as Hnn.
  eapply returns_bind; [apply (abs_diff_halves_spec m sc ap k h); [done|vecs..]|]. intros [m1 sa] (M1 & V1 & ->).
  eapply returns_bind; [apply (abs_diff_halves_spec m1 (sc + k) bp k h); [wf_mem|vecs..]|].
  intros [m2 sb] (M2 & V2 & ->). pull_in V2.
  rewrite !(modifies_num _ _ _ _ bp k M1), !(modifies_num _ _ _ _ (bp + k) h M1) by vecs.
  eapply returns_bind.
  { apply (Hrec m2 rp ap k bp k _ (it - (6 * k + 1))); [idx..|]. constructor; [wf_mem|vecs..|lens]. }
  intros m3 [M3 V3]. pull_in V3.
  eapply returns_bind.
  { apply (Hrec m3 (rp + 2 * k) (ap + k) h (bp + k) h _ (it - (6 * k + 1))); [idx..|]. constructor; [wf_mem|vecs..|lens]. }
  intros m4 [M4 V4]. pull_in V4.
  eapply returns_bind.
  { apply (Hrec m4 (sc + k + k) sc k (sc + k) k _ (it - (6 * k + 1))); [idx..|]. constructor; [wf_mem|vecs..|lens]. }
  intros m5 [M5 V5]. pull_in V5. rewrite V1, V2 in V5.
  set (a0 := num m ap k) in *. set (a1 := num m (ap + k) h) in *.
  set (b0 := num m bp k) in *. set (b1 := num m (bp + k) h) in *.
  assert (num m5 rp (2 * k) = a0 * b0) as W0 by (replace (2 * k) with (k + k) by idx; pull_goal; exact V3).
  assert (num m5 (rp + 2 * k) (2 * h) = a1 * b1) as W2 by (replace (2 * h) with (h + h) by idx; pull_goal; exact V4).
  replace (k + k) with (2 * k) in V5 by idx.
  pose proof (num_range m ap k Hw ltac:(idx)) as Ra0. pose proof (num_range m (ap + k) h Hw ltac:(idx)) as Ra1.
  pose proof (num_range m bp k Hw ltac:(idx)) as Rb0. pose proof (num_range m (bp + k) h Hw ltac:(idx)) as Rb1.
  assert (num m ap n * num m bp n = a0 * b0 + base ^ k * (a0 * b1 + a1 * b0) + base ^ (2 * k) * (a1 * b1)) as Et.
  { rewrite Ea, Eb. replace (2 * k) with (k + k) by idx. rewrite Z.pow_add_r by idx. fold a0 a1 b0 b1. ring. }
  eapply returns_mono.
  - apply (combine_spec m5 rp (sc + k + k) _ n k h) with (z0 := a0 * b0) (z2 := a1 * b1) (mm := a0 * b1 + a1 * b0)
      (v := Z.abs (a0 - a1) * Z.abs (b0 - b1)); [idx|done|wf_mem|vecs|vecs|vecs|vecs|vecs|exact W0|exact W2|exact V5|..].
    + symmetry. apply karatsuba_identity.
    + apply (middle_bound a0 a1 b0 b1 k h n); done || idx.
    + rewrite <- Et. replace (2 * n) with (n + n) by idx. apply Hprod.
  - intros m6 [M6 V6]. replace (n + n) with (2 * n) by idx. split; [|by rewrite Et].
    touched.
Qed.

Section blocks.
Context (m : mem) (rp ap an bp bn sc it : Z).
Context (Hn : 2 <= bn < an) (Hlim : an + bn <= lim) (Hfull : 2 * bn + need bn bn c <= it).
Context (Hrest : an mod bn <> 0 -> 2 * bn + need bn (an mod bn) c <= it).
Context (Hpre : mul_pre m rp ap an bp bn sc it).

(** The low [done] limbs of [ap] have been multiplied. *)
Definition blocks_inv (s : mem * Z) : Prop :=
  let '(m', done) := s in
  bn <= done <= an /\ (done mod bn = 0 \/ done = an) /\
  touches (fun k => vec rp (an + bn) k \/ vec sc it k) m m' /\
  num m' rp (an + bn) = num m ap done * num m bp bn.

Lemma take_need done : bn <= done < an -> done mod bn = 0 ->
  let take := if Z.ltb (an - done) bn then an - done else bn in
  1 <= take <= bn /\ done + take <= an /\ ((done + take) mod bn = 0 \/ done + take = an) /\
  2 * bn + need bn take c <= it.
Proof.
  intros Hd Hm. cbv zeta. destruct (Z.ltb_spec (an - done) bn) as [Hlt|Hge].
  - assert (an mod bn = an - done) as E.
    { symmetry. apply (Z.mod_unique_pos _ _ (done / bn)); [lia|]. pose proof (Z.div_mod done bn). lia. }
    rewrite E in Hrest. split_and!; lia.
  - split_and!; try lia. left. rewrite Z.add_mod, Hm, Z.mod_same by lia. done.
Qed.

Lemma blocks_step m1 done : blocks_inv (m1, done) -> done < an ->
  let take := if Z.ltb (an - done) bn then an - done else bn in
  returns (m ← rec_ m1 sc bp bn (ap + done) take (sc + 2 * bn) cutoff;
    '(m, _) ← add m (rp + done) (rp + done) (an + bn - done) sc (take + bn);
    Some (inl (B := mem) (m, done + take)))
    (fun o => match o with
      | inl s => blocks_inv s /\ 0 <= an - snd s < an - done
      | inr _ => False end).
Proof.
  intros (Hd & Hmod & Ht & Ev) Hlt. destruct Hmod as [Hmod|]; [|lia].
  pose proof (take_need done ltac:(lia) Hmod) as Htake. cbv zeta in *.
  revert Htake. generalize (if Z.ltb (an - done) bn then an - done else bn) as take.
  intros take (Htk & Hle & Hmod' & Hneed). pose proof (need_nonneg bn take c). destruct Hpre as [Hw Hr Ha Hb Hs Dar Dbr Das Dbs Drs _ Hbase].
  eapply returns_bind.
  { apply (Hrec m1 sc bp bn (ap + done) take _ (it - 2 * bn)); [idx..|]. constructor; [wf_mem|vecs..|lens]. }
  intros m2 [M2 V2]. pull_in V2.
  eapply returns_bind; [apply add_var_spec; [wf_mem|vecs..]|]. intros [m3 cy] (M3 & Hcy & V3).
  apply returns_ret. cbn [snd blocks_inv]. split; [|idx]. split_and!; [idx|idx|done|touched|].
  replace (take + bn) with (bn + take) in V3 by idx. rewrite V2 in V3.
  pose proof (product_bound m ap (done + take) bp bn Hw ltac:(idx) ltac:(idx)) as Hprod.
  assert (base ^ (done + take + bn) <= base ^ (an + bn)) as Hpow by (apply Z.pow_le_mono_r; [apply base_pos|idx]).
  assert (num m2 rp (an + bn) = num m ap done * num m bp bn) as Ev2 by (pull_goal; exact Ev).
  rewrite (num_split_at m2 rp done) in Ev2 by idx. rewrite (num_split_at m3 rp done) by idx.
  rewrite (modifies_num _ _ _ _ rp done M3) by vecs. rewrite (base_split done (an + bn)) in Hpow by idx.
  pose proof (num_range m3 (rp + done) (an + bn - done) (modifies_wf _ _ _ _ M3) ltac:(idx)) as R3.
  pose proof (num_range m2 rp done (touches_wf _ _ _ M2) ltac:(idx)) as R2.
  pose proof (base_pow_pos done ltac:(idx)) as HP. rewrite num_split in Hprod |- * by idx.
  clear - Ev2 V3 R2 R3 HP Hprod Hpow Hcy.
  rewrite (add_at_weight _ _ _ _ _ _ _ _ Ev2 V3); lia.
Qed.

Lemma mul_karatsuba_unbalanced_spec :
  returns (mul_karatsuba_unbalanced rec_ m rp ap an bp bn sc cutoff) (mul_post m rp ap an bp bn sc it).
Proof.
  destruct Hpre as [Hw Hr Ha Hb Hs Dar Dbr Das Dbs Drs _ Hbase].
  pose proof (need_nonneg bn bn c).
  unfold mul_karatsuba_unbalanced. rewrite (proj2 (Z.ltb_lt bn an)) by lia. cbv zeta.
  eapply returns_bind.
  { apply (Hrec m rp ap bn bp bn _ (it - 2 * bn)); [idx..|]. constructor; [wf_mem|vecs..|lens]. }
  intros m1 [M1 V1]. eapply returns_bind; [apply zero_spec; [wf_mem|vecs]|]. intros m2 [M2 V2].
  apply (returns_while _ _ _ blocks_inv (fun '(_, done) => an - done)); [|lia|].
  - cbn [blocks_inv]. split_and!; [idx|idx|left; apply Z.mod_same; idx|touched|].
    rewrite (num_split_at m2 rp (bn + bn)) by idx.
    replace (an + bn - (bn + bn)) with (an - bn) by idx. replace (rp + (bn + bn)) with (rp + bn + bn) by idx.
    rewrite V2. pull_goal. rewrite V1. lia.
  - intros [m3 done] Hinv. destruct (Z.ltb_spec done an) as [Hlt|Hge].
    + eapply returns_mono; [by apply blocks_step|]. intros [[m4 d]|r]; [|done]. cbn [snd]. tauto.
    + apply returns_ret. destruct Hinv as (Hd & _ & Ht & Ev). split; [exact Ht|].
      by replace done with an in Ev by lia.
Qed.
End blocks.
End recursion.

(** ** Closing the recursion *)

Lemma need_cutoff an bn c c' : 0 <= bn -> c' <= c -> need an bn c <= need an bn c'.
Proof.
  intros Hb Hc. unfold need. pose proof (stages_cutoff an bn c c' Hb Hc).
  pose proof (kara_cost_mono 6 c c' bn bn). lia.
Qed.

Section products.
Context `{LimbWidth}.

(** The quadratic routines meet the contract with any scratch. *)
Lemma mul_quadratic_post m rp ap an bp bn sc it (x : option mem) :
  returns x (fun m' => modifies rp (an + bn) m m' /\ num m' rp (an + bn) = num m ap an * num m bp bn) ->
  returns x (mul_post m rp ap an bp bn sc it).
Proof.
  intros Hx. eapply returns_mono; [exact Hx|]. intros m' [Hm E]. split; [|done].
  eapply touches_mono; [exact Hm|]. by left.
Qed.

Lemma mul_by_1_spec m rp ap an bp sc it : mul_pre m rp ap an bp 1 sc it ->
  returns (b0 ← m.[bp]; '(m, cy) ← mul_1 m rp ap an b0; aset m (rp + an) cy) (mul_post m rp ap an bp 1 sc it).
Proof.
  intros [Hw Hr Ha Hb Hs Dar Dbr Das Dbs Drs Hn Hbase]. apply mul_quadratic_post.
  rewrite get_cell by vecs. cbn [mbind option_bind].
  eapply returns_bind; [apply mul_1_spec; [done|vecs..|by apply wf_cell]|]. intros [m1 cy] (M1 & Hcy & V1).
  apply returns_set_tail; [vecs|]. split; [eapply modifies_upd; [exact M1|vecs..|done]|].
  rewrite num_upd_at by vecs. by rewrite num_1.
Qed.

Lemma mul_basecase_post m rp ap an bp bn sc it : mul_pre m rp ap an bp bn sc it ->
  returns (mul_basecase m rp ap an bp bn) (mul_post m rp ap an bp bn sc it).
Proof. intros []. apply mul_quadratic_post, mul_basecase_spec; done || lia. Qed.

Lemma mul_comba_post m rp ap an bp bn sc it : mul_pre m rp ap an bp bn sc it ->
  returns (mul_comba m rp ap an bp bn) (mul_post m rp ap an bp bn sc it).
Proof. intros []. apply mul_quadratic_post, mul_comba_spec; done || lia. Qed.

Lemma __mul_rec_spec cutoff fuel : forall m rp ap an bp bn sc it, an + bn <= Z.of_nat fuel ->
  need an bn (at_least_2 cutoff) <= it -> mul_pre m rp ap an bp bn sc it ->
  returns (__mul_rec fuel m rp ap an bp bn sc cutoff) (mul_post m rp ap an bp bn sc it).
Proof.
  induction fuel as [|fuel IH]; intros m rp ap an bp bn sc it Hf Hit Hpre; pose proof (mp_bn _ _ _ _ _ _ _ _ Hpre); [lia|].
  cbn [__mul_rec]. destruct (Z.eqb_spec bn 1) as [->|Hb1]; [by apply mul_by_1_spec|].
  destruct (Z.ltb_spec bn cutoff) as [Hlt|Hge].
  { destruct (Z.ltb bn _); [by apply mul_basecase_post|by apply mul_comba_post]. }
  assert (at_least_2 cutoff <= bn) as Hc by (unfold at_least_2; destruct (Z.ltb_spec cutoff 2); lia).
  assert (rec_ok (__mul_rec fuel) cutoff (at_least_2 cutoff) (Z.of_nat (S fuel))) as Hrec.
  { intros m' rp' ap' an' bp' bn' sc' it' Hf' Hit' Hpre'. apply IH; [lia|done..]. }
  destruct (Z.eqb_spec an bn) as [->|Hne].
  - destruct (need_halves bn (at_least_2 cutoff)) as [E Hle]; [lia|done|].
    eapply mul_karatsuba_n_spec; [exact Hrec|lia|lia|by rewrite <- E|done|done].
  - destruct (need_blocks an bn (at_least_2 cutoff)) as [E Hle]; [lia|lia|done|].
    eapply mul_karatsuba_unbalanced_spec; [exact Hrec|lia|lia|lia| |done].
    intros Hm. specialize (Hle _ eq_refl Hm). lia.
Qed.

Lemma need_itch an bn cutoff : need an bn (at_least_2 cutoff) = unbalanced_stage_itch an bn cutoff + karatsuba_itch bn cutoff.
Proof. done. Qed.

Lemma mul_karatsuba_spec m rp ap an bp bn sc it cutoff :
  unbalanced_stage_itch an bn cutoff + karatsuba_itch bn cutoff <= it -> mul_pre m rp ap an bp bn sc it ->
  returns (mul_karatsuba m rp ap an bp bn sc cutoff) (mul_post m rp ap an bp bn sc it).
Proof.
  intros Hit Hpre. pose proof (mp_bn _ _ _ _ _ _ _ _ Hpre). apply __mul_rec_spec; [unfold mul_rec_fuel; lia| |done].
  by rewrite at_least_2_idem, need_itch.
Qed.

(** The forced entry runs one Karatsuba level at any size of two limbs or more. *)
Lemma mul_karatsuba_top_spec m rp ap an bp bn sc it :
  unbalanced_stage_itch an bn karatsuba_force + karatsuba_itch bn karatsuba_force <= it ->
  mul_pre m rp ap an bp bn sc it ->
  returns (mul_karatsuba_top m rp ap an bp bn sc) (mul_post m rp ap an bp bn sc it).
Proof.
  intros Hit Hpre. pose proof (mp_bn _ _ _ _ _ _ _ _ Hpre). rewrite <- need_itch in Hit.
  change (at_least_2 karatsuba_force) with 2 in Hit. pose proof (at_least_2_ge threshold.mul_karatsuba) as [Hc _].
  assert (forall a b, 0 <= b -> need a b (at_least_2 threshold.mul_karatsuba) <= need a b 2) as Hmono
    by (intros; by apply need_cutoff).
  unfold mul_karatsuba_top. assert (rec_ok (__mul_rec (mul_rec_fuel an bn)) threshold.mul_karatsuba
    (at_least_2 threshold.mul_karatsuba) (an + bn)) as Hrec.
  { intros m' rp' ap' an' bp' bn' sc' it' Hf' Hit' Hpre'. apply __mul_rec_spec; [|done..]. unfold mul_rec_fuel. lia. }
  destruct (Z.ltb_spec bn 2) as [Hlt|Hge].
  - apply __mul_rec_spec; [unfold mul_rec_fuel; lia| |done]. specialize (Hmono an bn). lia.
  - destruct (Z.eqb_spec an bn) as [->|Hne].
    + destruct (need_halves bn 2) as [E Hle]; [lia..|]. cbv zeta in *.
      pose proof (split_halves bn Hge) as Hh. cbv zeta in Hh.
      pose proof (Hmono ((bn + 1) / 2) ((bn + 1) / 2)).
      eapply mul_karatsuba_n_spec; [exact Hrec|lia|lia|lia| |done].
      rewrite !need_balanced. apply kara_cost_mono; lia.
    + destruct (need_blocks an bn 2) as [E Hle]; [lia..|].
      pose proof (Z.mod_pos_bound an bn ltac:(lia)).
      eapply mul_karatsuba_unbalanced_spec; [exact Hrec|lia|lia| | |done].
      * specialize (Hmono bn bn). lia.
      * intros Hm. specialize (Hle _ eq_refl Hm). specialize (Hmono bn (an mod bn)). lia.
Qed.
End products.

(** ** Squares *)

Section squares.
Context `{LimbWidth}.

Section square_level.
Context (rec_ : mem -> Z -> Z -> Z -> Z -> Z -> option mem) (cutoff c lim : Z).

Definition sqr_rec_ok : Prop := forall m rp ap n sc it, n < lim -> kara_cost 5 c n <= it ->
  sqr_pre m rp ap n sc it -> returns (rec_ m rp ap n sc cutoff) (sqr_post m rp ap n sc it).

Context (Hrec : sqr_rec_ok).

Lemma sqr_karatsuba_n_spec m rp ap n sc it : 2 <= n <= lim ->
  5 * ((n + 1) / 2) + 1 + kara_cost 5 c ((n + 1) / 2) <= it -> sqr_pre m rp ap n sc it ->
  returns (sqr_karatsuba_n rec_ m rp ap n sc cutoff) (sqr_post m rp ap n sc it).
Proof.
  intros Hn Hit [Hw Hr Ha Hs Dar Das Drs Hbase].
  unfold sqr_karatsuba_n, sqr_post. pose proof (split_halves n ltac:(lia)) as Hh. cbv zeta in Hh |- *.
  pose proof (num_halves m ap n ltac:(lia)) as Ea. cbv zeta in Ea.
  pose proof (product_bound m ap n ap n Hw ltac:(lia) ltac:(lia)) as Hprod.
  revert Hh Ea Hit. generalize ((n + 1) / 2) as k. intros k Hh Ea Hit.
  pose proof (kara_cost_mono 5 c c (n - k) k ltac:(lia) ltac:(lia) ltac:(lia)) as Hit'.
  remember (n - k) as h eqn:Eh. pose proof (kara_cost_nonneg 5 c k ltac:(lia)) as Hnn.
  eapply returns_bind; [apply (abs_diff_halves_spec m sc ap k h); [done|vecs..]|]. intros [m1 sa] (M1 & V1 & ->).
  eapply returns_bind.
  { apply (Hrec m1 rp ap k _ (it - (5 * k + 1))); [idx..|]. constructor; [wf_mem|vecs..|lens]. }
  intros m3 [M3 V3]. pull_in V3.
  eapply returns_bind.
  { apply (Hrec m3 (rp + 2 * k) (ap + k) h _ (it - (5 * k + 1))); [idx..|]. constructor; [wf_mem|vecs..|lens]. }
  intros m4 [M4 V4]. pull_in V4.
  eapply returns_bind.
  { apply (Hrec m4 (sc + k) sc k _ (it - (5 * k + 1))); [idx..|]. constructor; [wf_mem|vecs..|lens]. }
  intros m5 [M5 V5]. pull_in V5. rewrite V1 in V5.
  set (a0 := num m ap k) in *. set (a1 := num m (ap + k) h) in *.
  assert (num m5 rp (2 * k) = a0 * a0) as W0 by (pull_goal; exact V3).
  assert (num m5 (rp + 2 * k) (2 * h) = a1 * a1) as W2 by (pull_goal; exact V4).
  pose proof (num_range m ap k Hw ltac:(idx)) as Ra0. pose proof (num_range m (ap + k) h Hw ltac:(idx)) as Ra1.
  assert (num m ap n * num m ap n = a0 * a0 + base ^ k * (a0 * a1 + a1 * a0) + base ^ (2 * k) * (a1 * a1)) as Et.
  { rewrite Ea. replace (2 * k) with (k + k) by idx. rewrite Z.pow_add_r by idx. fold a0 a1. ring. }
  eapply returns_mono.
  - apply (combine_spec m5 rp (sc + k) _ n k h) with (same := true) (z0 := a0 * a0) (z2 := a1 * a1)
      (mm := a0 * a1 + a1 * a0) (v := Z.abs (a0 - a1) * Z.abs (a0 - a1));
      [idx|done|wf_mem|vecs|vecs|vecs|vecs|vecs|exact W0|exact W2|exact V5|..].
    + clear. lia.
    + apply (middle_bound a0 a1 a0 a1 k h n); done || idx.
    + rewrite <- Et. replace (2 * n) with (n + n) by idx. apply Hprod.
  - intros m6 [M6 V6]. split; [touched|by rewrite Et].
Qed.
End square_level.

Lemma sqr_basecase_post m rp ap n sc it : sqr_pre m rp ap n sc it ->
  returns (sqr_basecase m rp ap n) (sqr_post m rp ap n sc it).
Proof.
  intros []. eapply returns_mono; [apply sqr_basecase_spec; done || lia|]. intros m' [Hm E].
  split; [|done]. eapply touches_mono; [exact Hm|]. by left.
Qed.

Lemma sqr_comba_post m rp ap n sc it : sqr_pre m rp ap n sc it ->
  returns (sqr_comba m rp ap n) (sqr_post m rp ap n sc it).
Proof.
  intros []. replace (2 * n) with (n + n) in * by lia.
  eapply returns_mono; [apply sqr_comba_spec; done || lia|]. intros m' [Hm E].
  split; [|done]. eapply touches_mono; [exact Hm|]. by left.
Qed.

Lemma sqr_karatsuba_rec_spec cutoff fuel : forall m rp ap n sc it, n <= Z.of_nat fuel ->
  kara_cost 5 (at_least_2 cutoff) n <= it -> sqr_pre m rp ap n sc it ->
  returns (sqr_karatsuba_rec fuel m rp ap n sc cutoff) (sqr_post m rp ap n sc it).
Proof.
  revert cutoff. induction fuel as [|fuel IH]; intros cutoff m rp ap n sc it Hf Hit Hpre;
    pose proof (sp_n _ _ _ _ _ _ Hpre); [lia|].
  cbn [sqr_karatsuba_rec]. cbv zeta. pose proof (at_least_2_ge cutoff).
  destruct (Z.ltb_spec n (at_least_2 cutoff)); cbn [orb]; [by apply sqr_basecase_post|].
  rewrite (proj2 (Z.ltb_ge n 2)) by lia.
  apply (sqr_karatsuba_n_spec _ _ (at_least_2 cutoff) (Z.of_nat (S fuel))); [|lia| |done].
  - intros m' rp' ap' n' sc' it' Hf' Hit' Hpre'. apply IH; [lia| |done]. by rewrite at_least_2_idem.
  - rewrite kara_cost_eq in Hit. rewrite (proj2 (Z.leb_le _ n)), (proj2 (Z.leb_le 2 n)) in Hit by lia. exact Hit.
Qed.

Lemma sqr_karatsuba_spec m rp ap n sc it cutoff : sqr_karatsuba_itch n cutoff <= it -> sqr_pre m rp ap n sc it ->
  returns (sqr_karatsuba m rp ap n sc cutoff) (sqr_post m rp ap n sc it).
Proof.
  intros Hit Hpre. pose proof (sp_n _ _ _ _ _ _ Hpre). apply sqr_karatsuba_rec_spec; [lia|done|done].
Qed.

Lemma sqr_karatsuba_top_spec m rp ap n sc it : sqr_karatsuba_itch n karatsuba_force <= it -> sqr_pre m rp ap n sc it ->
  returns (sqr_karatsuba_top m rp ap n sc) (sqr_post m rp ap n sc it).
Proof.
  intros Hit Hpre. pose proof (sp_n _ _ _ _ _ _ Hpre). unfold sqr_karatsuba_top.
  destruct (Z.ltb_spec n 2); [by apply sqr_basecase_post|].
  set (cut := threshold.sqr_karatsuba). pose proof (at_least_2_ge cut).
  apply (sqr_karatsuba_n_spec _ _ (at_least_2 cut) n); [|lia| |done].
  - intros m' rp' ap' n' sc' it' Hf' Hit' Hpre'. by apply sqr_karatsuba_spec.
  - rewrite sqr_karatsuba_itch_cost, kara_cost_eq in Hit.
    change (at_least_2 karatsuba_force) with 2 in Hit.
    rewrite (proj2 (Z.leb_le 2 n)) in Hit by lia. cbn [andb] in Hit.
    pose proof (kara_cost_mono 5 (at_least_2 cut) 2 ((n + 1) / 2) ((n + 1) / 2)). lia.
Qed.
End squares.
