(* ===== verification/MpnToom3.v ===== *)
(** Toom-Cook 3 (math/arbint/mul_toom.hpp): five products of a third of the size.

    As in [MpnKaratsuba], the routine that splits is a function of the recursive
    call and a fixpoint closes the knot; the fuel n is enough, because the parts
    of a split are shorter.  [void r] is the [(void)] that discards a carry. *)
From stdpp Require Import base numbers list option.
From Stdlib Require Import ZArith Lia.
From S2P Require Import Prelude Arrays Limb Mpn MpnMul Thresholds MpnKaratsuba.

Local Open Scope Z_scope.

Definition void (r : option (mem * Z)) : option mem := '(m, _) ← r; Some m.

(** n >= 3 && n > 2 * ceil(n / 3): the top part has at least one limb. *)
Definition toom3_split_ok (n : Z) : bool := andb (Z.leb 3 n) (Z.ltb (2 * ((n + 2) / 3)) n).

Definition toom3_applies (an bn : Z) : bool := andb (Z.eqb an bn) (toom3_split_ok an).

Definition sqr_toom3_applies (n : Z) : bool := toom3_split_ok n.

(** The first level is taken below the crossover when [force_top]; [ops] is the
    number of evaluated vectors. *)
Definition toom3_levels (t3 ops n : Z) (force_top : bool) : Z * Z :=
  let cost n := let k := (n + 2) / 3 in ops * (k + 1) + 5 * (2 * k + 2) in
  let next n := (n + 2) / 3 + 1 in
  let '(total, n) :=
    if andb force_top (andb (Z.leb 3 n) (Z.ltb n t3)) then (cost n, next n) else (0, n) in
  level_sum (Z.to_nat n) (fun n => andb (Z.leb t3 n) (Z.leb 3 n)) cost next n total.

Section toom3.
Context `{LimbWidth}.

(** *** Exact division by 3 *)

(** 0xAAAAAAAAAAAAAAAB or 0xAAAAAAAB *)
Definition inv3 : Z := to_limb (if Z.eqb limb_bits 64 then 12297829382473034411 else 2863311531).

Definition third_max : Z := limb_max / 3.

Definition divexact_by3 (m : mem) (rp up n : Z) : option mem :=
  void (for_ 0 n (fun i '(m, c) =>
    x ← m.[up + i];
    let '(b, l) := subb x c 0 in
    let q := to_limb (l * inv3) in
    m ← aset m (rp + i) q;
    Some (m, to_limb (b + (if Z.ltb third_max q then 1 else 0) +
                      (if Z.ltb (to_limb (third_max * 2)) q then 1 else 0)))) (m, 0)).

(** *** Scratch *)

Definition toom3_itch (n : Z) (force_top : bool) : Z :=
  let '(total, n) := toom3_levels threshold.mul_toom3 6 n force_top in
  total + karatsuba_itch n karatsuba_force.

Definition sqr_toom3_itch (n : Z) (force_top : bool) : Z :=
  let '(total, n) := toom3_levels threshold.sqr_toom3 3 n force_top in
  total + sqr_karatsuba_itch n karatsuba_force.

(** *** Evaluation *)

(** s = a0 + a1 + a2, k + 1 limbs *)
Definition toom3_eval1 (m : mem) (s a0 a1 a2 k t : Z) : option mem :=
  m ← copyi m s a0 k;
  '(m, c) ← add_n m s s a1 k;
  m ← aset m (s + k) c;
  '(m, c) ← add m s s k a2 t;
  x ← m.[s + k];
  m ← aset m (s + k) (to_limb (x + c));
  Some m.

(** s = a0 + 2 a1 + 4 a2 by Horner, k + 1 limbs *)
Definition toom3_eval2 (m : mem) (s a0 a1 a2 k t : Z) : option mem :=
  m ← copyi m s a2 t;
  m ← zero m (s + t) (k + 1 - t);
  m ← void (lshift m s s (k + 1) 1);
  '(m, c) ← add_n m s s a1 k;
  x ← m.[s + k];
  m ← aset m (s + k) (to_limb (x + c));
  m ← void (lshift m s s (k + 1) 1);
  '(m, c) ← add_n m s s a0 k;
  x ← m.[s + k];
  m ← aset m (s + k) (to_limb (x + c));
  Some m.

(** s = |a0 - a1 + a2| in k + 1 limbs; true when negative *)
Definition toom3_evalm1 (m : mem) (s tmp a0 a1 a2 k t : Z) : option (mem * bool) :=
  m ← copyi m tmp a0 k;
  '(m, c) ← add m tmp tmp k a2 t;
  m ← aset m (tmp + k) c;
  x ← m.[tmp + k];
  ge ← (if negb (Z.eqb x 0) then Some true else c ← cmp m tmp a1 k; Some (Z.leb 0 c));
  if (ge : bool) then
    m ← copyi m s tmp (k + 1);
    '(m, b) ← sub_n m s s a1 k;
    x ← m.[s + k];
    m ← aset m (s + k) (to_limb (x - b));
    Some (m, false)
  else
    m ← void (sub_n m s a1 tmp k);
    m ← aset m (s + k) 0;
    Some (m, true).

(** *** Interpolation *)

(** add(rp + off, rp + off, rn - off, w, normalize(w, wn)) *)
Definition add_part (m : mem) (rp rn off w wn : Z) : option mem :=
  n ← normalize m w wn;
  void (add m (rp + off) (rp + off) (rn - off) w n).

(** The linear solve: on exit [w0], [wm1], [w1], [w2], [winf] hold c0 .. c4. *)
Definition toom_solve_5pts (m : mem) (w0 w1 wm1 w2 winf kk : Z) (sm : bool) : option mem :=
  m ← void (if sm then add_n m w2 w2 wm1 kk else sub_n m w2 w2 wm1 kk);
  m ← divexact_by3 m w2 w2 kk;
  m ← void (if sm then add_n m wm1 w1 wm1 kk else sub_n m wm1 w1 wm1 kk);
  m ← void (rshift m wm1 wm1 kk 1);
  m ← void (sub_n m w1 w1 w0 kk);
  m ← void (sub_n m w2 w2 w1 kk);
  m ← void (rshift m w2 w2 kk 1);
  m ← void (sub_n m w2 w2 winf kk);
  m ← void (sub_n m w2 w2 winf kk);
  m ← void (sub_n m w1 w1 wm1 kk);
  m ← void (sub_n m w1 w1 winf kk);
  void (sub_n m wm1 wm1 w2 kk).

Definition toom_interpolate_5pts (m : mem) (rp w0 w1 wm1 w2 winf k n t kk : Z) (sm : bool) : option mem :=
  m ← toom_solve_5pts m w0 w1 wm1 w2 winf kk sm;
  let rn := 2 * n in
  m ← zero m rp rn;
  m ← copyi m rp w0 (2 * k);
  m ← add_part m rp rn k wm1 kk;
  m ← add_part m rp rn (2 * k) w1 kk;
  m ← add_part m rp rn (3 * k) w2 kk;
  add_part m rp rn (4 * k) winf (2 * t).

(** *** Products *)

Definition mul_toom3 (rec_ : mem -> Z -> Z -> Z -> Z -> Z -> Z -> Z -> option mem)
    (m : mem) (rp ap bp n scratch cutoff : Z) : option mem :=
  let k := (n + 2) / 3 in
  let t := n - 2 * k in
  let kk := 2 * k + 2 in
  let as1 := scratch in
  let as2 := as1 + (k + 1) in
  let asm1 := as2 + (k + 1) in
  let bs1 := asm1 + (k + 1) in
  let bs2 := bs1 + (k + 1) in
  let bsm1 := bs2 + (k + 1) in
  let w0 := bsm1 + (k + 1) in
  let w1 := w0 + kk in
  let wm1 := w1 + kk in
  let w2 := wm1 + kk in
  let winf := w2 + kk in
  let rec := winf + kk in
  let a0 := ap in
  let a1 := ap + k in
  let a2 := ap + 2 * k in
  let b0 := bp in
  let b1 := bp + k in
  let b2 := bp + 2 * k in
  m ← toom3_eval1 m as1 a0 a1 a2 k t;
  m ← toom3_eval1 m bs1 b0 b1 b2 k t;
  m ← toom3_eval2 m as2 a0 a1 a2 k t;
  m ← toom3_eval2 m bs2 b0 b1 b2 k t;
  '(m, sa) ← toom3_evalm1 m asm1 w0 a0 a1 a2 k t;
  '(m, sb) ← toom3_evalm1 m bsm1 w1 b0 b1 b2 k t;
  let sm := xorb sa sb in
  m ← rec_ m w1 as1 (k + 1) bs1 (k + 1) rec cutoff;
  m ← rec_ m wm1 asm1 (k + 1) bsm1 (k + 1) rec cutoff;
  m ← rec_ m w2 as2 (k + 1) bs2 (k + 1) rec cutoff;
  m ← rec_ m w0 a0 k b0 k rec cutoff;
  m ← zero m (w0 + 2 * k) (kk - 2 * k);
  m ← rec_ m winf a2 t b2 t rec cutoff;
  m ← zero m (winf + 2 * t) (kk - 2 * t);
  toom_interpolate_5pts m rp w0 w1 wm1 w2 winf k n t kk sm.

Fixpoint __mul_rec3 (fuel : nat) (m : mem) (rp ap an bp bn scratch cutoff : Z) : option mem :=
  match fuel with
  | O => None
  | S fuel =>
      if andb (andb (Z.eqb an bn) (Z.leb threshold.mul_toom3 an)) (toom3_split_ok an) then
        mul_toom3 (__mul_rec3 fuel) m rp ap bp an scratch cutoff
      else __mul_rec (mul_rec_fuel an bn) m rp ap an bp bn scratch cutoff
  end.

Definition sqr_toom3 (rec_ : mem -> Z -> Z -> Z -> Z -> Z -> option mem)
    (m : mem) (rp ap n scratch cutoff : Z) : option mem :=
  let k := (n + 2) / 3 in
  let t := n - 2 * k in
  let kk := 2 * k + 2 in
  let as1 := scratch in
  let as2 := as1 + (k + 1) in
  let asm1 := as2 + (k + 1) in
  let w0 := asm1 + (k + 1) in
  let w1 := w0 + kk in
  let wm1 := w1 + kk in
  let w2 := wm1 + kk in
  let winf := w2 + kk in
  let rec := winf + kk in
  let a0 := ap in
  let a1 := ap + k in
  let a2 := ap + 2 * k in
  m ← toom3_eval1 m as1 a0 a1 a2 k t;
  m ← toom3_eval2 m as2 a0 a1 a2 k t;
  '(m, _) ← toom3_evalm1 m asm1 w0 a0 a1 a2 k t;
  m ← rec_ m w1 as1 (k + 1) rec cutoff;
  m ← rec_ m wm1 asm1 (k + 1) rec cutoff;
  m ← rec_ m w2 as2 (k + 1) rec cutoff;
  m ← rec_ m w0 a0 k rec cutoff;
  m ← zero m (w0 + 2 * k) (kk - 2 * k);
  m ← rec_ m winf a2 t rec cutoff;
  m ← zero m (winf + 2 * t) (kk - 2 * t);
  toom_interpolate_5pts m rp w0 w1 wm1 w2 winf k n t kk false.

Fixpoint __sqr_rec3 (fuel : nat) (m : mem) (rp ap n scratch cutoff : Z) : option mem :=
  match fuel with
  | O => None
  | S fuel =>
      if andb (Z.leb threshold.sqr_toom3 n) (toom3_split_ok n) then
        sqr_toom3 (__sqr_rec3 fuel) m rp ap n scratch cutoff
      else sqr_karatsuba m rp ap n scratch cutoff
  end.
End toom3.
