(* ===== verification/MpnToom4.v ===== *)
(** Toom-Cook 4 (math/arbint/mul_toom4.hpp): seven products of a quarter of the
    size, interpolated by Bodrato's sequence. *)
From stdpp Require Import base numbers list option.
From Stdlib Require Import ZArith Lia.
From S2P Require Import Prelude Arrays Limb Mpn MpnMul Thresholds MpnKaratsuba MpnToom3.

Local Open Scope Z_scope.

(** n >= 4 && n > 3 * ceil(n / 4) *)
Definition toom4_split_ok (n : Z) : bool := andb (Z.leb 4 n) (Z.ltb (3 * ((n + 3) / 4)) n).

Definition toom4_applies (an bn : Z) : bool := andb (Z.eqb an bn) (toom4_split_ok an).

Definition sqr_toom4_applies (n : Z) : bool := toom4_split_ok n.

Definition toom4_levels (t4 ops n : Z) (force_top : bool) : Z * Z :=
  let cost n := let k := (n + 3) / 4 in ops * (k + 1) + 8 * (2 * k + 2) in
  let next n := (n + 3) / 4 + 1 in
  let '(total, n) :=
    if andb force_top (andb (Z.leb 4 n) (Z.ltb n t4)) then (cost n, next n) else (0, n) in
  level_sum (Z.to_nat n) (fun n => andb (Z.leb t4 n) (Z.leb 4 n)) cost next n total.

Section toom4.
Context `{LimbWidth}.

(** *** Exact division by an odd limb *)

(** x = x (2 - d x), six times *)
Definition binv_odd (d : Z) : Z :=
  Nat.iter 6 (fun x => to_limb (x * to_limb (2 - to_limb (d * x)))) d.

Definition inv9 : Z := binv_odd 9.

Definition inv15 : Z := binv_odd 15.

Definition divexact_1_odd (m : mem) (rp up n d dinv : Z) : option mem :=
  void (for_ 0 n (fun i '(m, cy) =>
    x ← m.[up + i];
    let '(bw, s) := subb x cy 0 in
    let q := to_limb (s * dinv) in
    m ← aset m (rp + i) q;
    let '(lo, hi) := mul_wide q d in
    Some (m, to_limb (hi + bw))) (m, 0)).

Definition divexact_by9 (m : mem) (rp up n : Z) : option mem := divexact_1_odd m rp up n 9 inv9.

Definition divexact_by15 (m : mem) (rp up n : Z) : option mem := divexact_1_odd m rp up n 15 inv15.

Definition rsh1add_n (m : mem) (rp up vp n : Z) : option mem :=
  '(m, cy) ← add_n m rp up vp n;
  m ← void (rshift m rp rp n 1);
  x ← m.[rp + (n - 1)];
  c ← limb_shl cy (limb_bits - 1);
  aset m (rp + (n - 1)) (Z.lor x c).

(** *** Evaluation *)

(** neg ? sub_n(xm, tp, xp) : sub_n(xm, xp, tp), then xp += tp *)
Definition toom4_pm (m : mem) (xp xm tp e : Z) : option (mem * bool) :=
  c ← cmp m xp tp e;
  let neg := Z.ltb c 0 in
  m ← void (if neg then sub_n m xm tp xp e else sub_n m xm xp tp e);
  m ← void (add_n m xp xp tp e);
  Some (m, neg).

Definition toom4_eval_pm1 (m : mem) (xp1 xm1 tp x0 x1 x2 x3 k s : Z) : option (mem * bool) :=
  '(m, c) ← add_n m xp1 x0 x2 k;
  m ← aset m (xp1 + k) c;
  '(m, c) ← add m tp x1 k x3 s;
  m ← aset m (tp + k) c;
  toom4_pm m xp1 xm1 tp (k + 1).

(** tp[k] = (tp[k] << 1) | cy *)
Definition shl1_top (m : mem) (p k cy : Z) : option mem :=
  x ← m.[p + k];
  y ← limb_shl x 1;
  aset m (p + k) (Z.lor y cy).

Definition toom4_eval_pm2 (m : mem) (xp2 xm2 tp x0 x1 x2 x3 k s : Z) : option (mem * bool) :=
  '(m, cy) ← lshift m xp2 x2 k 2;
  '(m, c) ← add_n m xp2 xp2 x0 k;
  m ← aset m (xp2 + k) (to_limb (cy + c));
  m ← zero m tp (k + 1);
  m ← copyi m tp x3 s;
  '(m, cy) ← lshift m tp tp k 2;
  '(m, c) ← add_n m tp tp x1 k;
  m ← aset m (tp + k) (to_limb (cy + c));
  '(m, cy) ← lshift m tp tp k 1;
  m ← shl1_top m tp k cy;
  toom4_pm m xp2 xm2 tp (k + 1).

Definition toom4_eval_half (m : mem) (xh x0 x1 x2 x3 k s : Z) : option mem :=
  '(m, c) ← lshift m xh x0 k 1;
  '(m, c') ← add_n m xh xh x1 k;
  m ← aset m (xh + k) (to_limb (c + c'));
  '(m, c) ← lshift m xh xh k 1;
  m ← shl1_top m xh k c;
  '(m, c) ← add_n m xh xh x2 k;
  x ← m.[xh + k];
  m ← aset m (xh + k) (to_limb (x + c));
  '(m, c) ← lshift m xh xh k 1;
  m ← shl1_top m xh k c;
  '(m, c) ← add m xh xh k x3 s;
  x ← m.[xh + k];
  m ← aset m (xh + k) (to_limb (x + c));
  Some m.

(** *** Interpolation *)

(** The linear solve: on exit the seven buffers hold c0 .. c6. *)
Definition toom_solve_7pts (mm : mem) (w0 w1 w2 w3 w4 w5 w6 tp m : Z) (w1_neg w3_neg : bool) : option mem :=
  mm ← void (add_n mm w5 w5 w4 m);
  mm ← (if w1_neg then rsh1add_n mm w1 w1 w4 m
        else mm ← void (sub_n mm w1 w4 w1 m); void (rshift mm w1 w1 m 1));
  mm ← void (sub_n mm w4 w4 w0 m);
  mm ← void (sub_n mm w4 w4 w1 m);
  mm ← void (rshift mm w4 w4 m 2);
  mm ← void (lshift mm tp w6 m 4);
  mm ← void (sub_n mm w4 w4 tp m);
  mm ← (if w3_neg then rsh1add_n mm w3 w3 w2 m
        else mm ← void (sub_n mm w3 w2 w3 m); void (rshift mm w3 w3 m 1));
  mm ← void (sub_n mm w2 w2 w3 m);
  mm ← void (submul_1 mm w5 w2 m 65);
  mm ← void (sub_n mm w2 w2 w6 m);
  mm ← void (sub_n mm w2 w2 w0 m);
  mm ← void (addmul_1 mm w5 w2 m 45);
  mm ← void (rshift mm w5 w5 m 1);
  mm ← void (sub_n mm w4 w4 w2 m);
  mm ← divexact_by3 mm w4 w4 m;
  mm ← void (sub_n mm w2 w2 w4 m);
  mm ← void (sub_n mm w1 w5 w1 m);
  mm ← void (lshift mm tp w3 m 3);
  mm ← void (sub_n mm w5 w5 tp m);
  mm ← divexact_by9 mm w5 w5 m;
  mm ← void (sub_n mm w3 w3 w5 m);
  mm ← divexact_by15 mm w1 w1 m;
  mm ← rsh1add_n mm w1 w1 w5 m;
  x ← mm.[w1 + (m - 1)];
  half ← limb_shr limb_max 1;
  mm ← aset mm (w1 + (m - 1)) (Z.land x half);
  void (sub_n mm w5 w5 w1 m).

Definition toom_interpolate_7pts (mm : mem) (rp w0 w1 w2 w3 w4 w5 w6 tp k n s m : Z)
    (w1_neg w3_neg : bool) : option mem :=
  mm ← toom_solve_7pts mm w0 w1 w2 w3 w4 w5 w6 tp m w1_neg w3_neg;
  let rn := 2 * n in
  mm ← zero mm rp rn;
  mm ← copyi mm rp w0 (2 * k);
  mm ← add_part mm rp rn k w1 m;
  mm ← add_part mm rp rn (2 * k) w2 m;
  mm ← add_part mm rp rn (3 * k) w3 m;
  mm ← add_part mm rp rn (4 * k) w4 m;
  mm ← add_part mm rp rn (5 * k) w5 m;
  add_part mm rp rn (6 * k) w6 (2 * s).

(** *** Scratch *)

Definition toom4_itch (n : Z) (force_top : bool) : Z :=
  let '(total, n) := toom4_levels threshold.mul_toom4 11 n force_top in
  total + toom3_itch n false.

Definition sqr_toom4_itch (n : Z) (force_top : bool) : Z :=
  let '(total, n) := toom4_levels threshold.sqr_toom4 6 n force_top in
  total + sqr_toom3_itch n false.

(** *** Products *)

Definition mul_toom4 (rec_ : mem -> Z -> Z -> Z -> Z -> Z -> Z -> Z -> option mem)
    (mm : mem) (rp ap bp n scratch cutoff : Z) : option mem :=
  let k := (n + 3) / 4 in
  let s := n - 3 * k in
  let m := 2 * k + 2 in
  let e := k + 1 in
  let ap1 := scratch in
  let am1 := ap1 + e in
  let ap2 := am1 + e in
  let am2 := ap2 + e in
  let ah := am2 + e in
  let bp1 := ah + e in
  let bm1 := bp1 + e in
  let bp2 := bm1 + e in
  let bm2 := bp2 + e in
  let bh := bm2 + e in
  let et := bh + e in
  let w0 := et + e in
  let w1 := w0 + m in
  let w2 := w1 + m in
  let w3 := w2 + m in
  let w4 := w3 + m in
  let w5 := w4 + m in
  let w6 := w5 + m in
  let tp := w6 + m in
  let rec := tp + m in
  let a0 := ap in
  let a1 := ap + k in
  let a2 := ap + 2 * k in
  let a3 := ap + 3 * k in
  let b0 := bp in
  let b1 := bp + k in
  let b2 := bp + 2 * k in
  let b3 := bp + 3 * k in
  '(mm, an1) ← toom4_eval_pm1 mm ap1 am1 et a0 a1 a2 a3 k s;
  '(mm, bn1) ← toom4_eval_pm1 mm bp1 bm1 et b0 b1 b2 b3 k s;
  '(mm, an2) ← toom4_eval_pm2 mm ap2 am2 et a0 a1 a2 a3 k s;
  '(mm, bn2) ← toom4_eval_pm2 mm bp2 bm2 et b0 b1 b2 b3 k s;
  mm ← toom4_eval_half mm ah a0 a1 a2 a3 k s;
  mm ← toom4_eval_half mm bh b0 b1 b2 b3 k s;
  mm ← rec_ mm w2 ap1 e bp1 e rec cutoff;
  mm ← rec_ mm w3 am1 e bm1 e rec cutoff;
  mm ← rec_ mm w4 ap2 e bp2 e rec cutoff;
  mm ← rec_ mm w1 am2 e bm2 e rec cutoff;
  mm ← rec_ mm w5 ah e bh e rec cutoff;
  mm ← rec_ mm w0 a0 k b0 k rec cutoff;
  mm ← zero mm (w0 + 2 * k) (m - 2 * k);
  mm ← rec_ mm w6 a3 s b3 s rec cutoff;
  mm ← zero mm (w6 + 2 * s) (m - 2 * s);
  toom_interpolate_7pts mm rp w0 w1 w2 w3 w4 w5 w6 tp k n s m (xorb an2 bn2) (xorb an1 bn1).

Fixpoint __mul_rec4 (fuel : nat) (m : mem) (rp ap an bp bn scratch cutoff : Z) : option mem :=
  match fuel with
  | O => None
  | S fuel =>
      if andb (andb (Z.eqb an bn) (Z.leb threshold.mul_toom4 an)) (toom4_split_ok an) then
        mul_toom4 (__mul_rec4 fuel) m rp ap bp an scratch cutoff
      else __mul_rec3 (Z.to_nat an) m rp ap an bp bn scratch cutoff
  end.

Definition sqr_toom4 (rec_ : mem -> Z -> Z -> Z -> Z -> Z -> option mem)
    (mm : mem) (rp ap n scratch cutoff : Z) : option mem :=
  let k := (n + 3) / 4 in
  let s := n - 3 * k in
  let m := 2 * k + 2 in
  let e := k + 1 in
  let ap1 := scratch in
  let am1 := ap1 + e in
  let ap2 := am1 + e in
  let am2 := ap2 + e in
  let ah := am2 + e in
  let et := ah + e in
  let w0 := et + e in
  let w1 := w0 + m in
  let w2 := w1 + m in
  let w3 := w2 + m in
  let w4 := w3 + m in
  let w5 := w4 + m in
  let w6 := w5 + m in
  let tp := w6 + m in
  let rec := tp + m in
  let a0 := ap in
  let a1 := ap + k in
  let a2 := ap + 2 * k in
  let a3 := ap + 3 * k in
  '(mm, _) ← toom4_eval_pm1 mm ap1 am1 et a0 a1 a2 a3 k s;
  '(mm, _) ← toom4_eval_pm2 mm ap2 am2 et a0 a1 a2 a3 k s;
  mm ← toom4_eval_half mm ah a0 a1 a2 a3 k s;
  mm ← rec_ mm w2 ap1 e rec cutoff;
  mm ← rec_ mm w3 am1 e rec cutoff;
  mm ← rec_ mm w4 ap2 e rec cutoff;
  mm ← rec_ mm w1 am2 e rec cutoff;
  mm ← rec_ mm w5 ah e rec cutoff;
  mm ← rec_ mm w0 a0 k rec cutoff;
  mm ← zero mm (w0 + 2 * k) (m - 2 * k);
  mm ← rec_ mm w6 a3 s rec cutoff;
  mm ← zero mm (w6 + 2 * s) (m - 2 * s);
  toom_interpolate_7pts mm rp w0 w1 w2 w3 w4 w5 w6 tp k n s m false false.

Fixpoint __sqr_rec4 (fuel : nat) (m : mem) (rp ap n scratch cutoff : Z) : option mem :=
  match fuel with
  | O => None
  | S fuel =>
      if andb (Z.leb threshold.sqr_toom4 n) (toom4_split_ok n) then
        sqr_toom4 (__sqr_rec4 fuel) m rp ap n scratch cutoff
      else __sqr_rec3 (Z.to_nat n) m rp ap n scratch cutoff
  end.
End toom4.
