(* ===== verification/MpnToomScratch.v ===== *)
(** Scratch accounting of the Toom tiers: the [itch] functions are monotone in the
    length, so the scratch of the longest part of a split covers the others. *)
From stdpp Require Import base numbers list option.
From Stdlib Require Import ZArith Lia.
From S2P Require Import Prelude Arrays Limb Mpn Thresholds MpnKaratsuba MpnKaratsubaProof MpnToom3 MpnToom4.

Local Open Scope Z_scope.

(** ** Scratch of the ladder

    [ladder_need] is the scratch of a tier that splits while [go] holds and then
    hands over to a tier that needs [low]; it is monotone when one level of this
    tier never needs less than the lower one. *)

Section ladder.
Context (thr nmin : Z) (cost next low : Z -> Z) (need_ : Z -> Z).
Abbreviation go n := (andb (Z.leb thr n) (Z.leb nmin n)).
Context (Hneed : forall n, need_ n = if go n then cost n + need_ (next n) else low n).
Context (Hnext : forall n, go n = true -> 0 <= next n < n).
Context (Hnmono : forall a b, a <= b -> next a <= next b).
Context (Hcmono : forall a b, a <= b -> cost a <= cost b).
Context (Hlow : forall a b, 0 <= a <= b -> 0 <= low a <= low b).
Context (Hstep : forall n, go n = true -> low n <= cost n + low (next n)).

Lemma go_up a b : a <= b -> go a = true -> go b = true.
Proof. rewrite !Bool.andb_true_iff, !Z.leb_le. lia. Qed.

Lemma ladder_low n : 0 <= n -> low n <= need_ n.
Proof.
  revert n. refine (Z_lt_induction _ _). intros n IH. rewrite Hneed. destruct (go n) eqn:E; [|done].
  pose proof (Hnext n E). pose proof (Hstep n E). pose proof (IH (next n) ltac:(lia)). lia.
Qed.

Lemma ladder_mono a b : 0 <= a <= b -> 0 <= need_ a <= need_ b.
Proof.
  intros Hab. assert (0 <= need_ a).
  { pose proof (ladder_low a ltac:(lia)). pose proof (Hlow a a ltac:(lia)). lia. }
  split; [done|]. clear H. assert (0 <= b) as Hb by lia. revert b Hb a Hab. refine (Z_lt_induction _ _).
  intros b IH a Hab. rewrite (Hneed a). destruct (go a) eqn:Ea.
  - pose proof (go_up a b ltac:(lia) Ea) as Eb. rewrite (Hneed b), Eb.
    pose proof (Hnext a Ea). pose proof (Hnext b Eb). pose proof (Hnmono a b ltac:(lia)).
    pose proof (Hcmono a b ltac:(lia)). pose proof (IH (next b) ltac:(lia) (next a) ltac:(lia)). lia.
  - pose proof (Hlow a b Hab). pose proof (ladder_low b ltac:(lia)). lia.
Qed.
End ladder.

(** Two Karatsuba levels against one level of a tier with parts of [p] limbs. *)
Lemma kara_two_levels c n p : 0 <= c -> 3 <= n -> (n + 3) / 4 <= p ->
  kara_cost c 2 n <= c * ((n + 1) / 2) + c * ((n + 3) / 4) + 2 + kara_cost c 2 p.
Proof.
  intros Hc Hn Hp. rewrite kara_cost_eq, (proj2 (Z.leb_le 2 n)) by lia. cbn [andb].
  pose proof (Z.div_mod (n + 1) 2). pose proof (Z.mod_pos_bound (n + 1) 2).
  rewrite (kara_cost_eq c 2 ((n + 1) / 2)), (proj2 (Z.leb_le 2 ((n + 1) / 2))) by lia. cbn [andb].
  assert (((n + 1) / 2 + 1) / 2 = (n + 3) / 4) as ->.
  { replace ((n + 1) / 2 + 1) with ((n + 3) / 2); [rewrite Z.div_div by lia; done|].
    replace (n + 3) with (n + 1 + 1 * 2) by lia. rewrite Z.div_add by lia. done. }
  pose proof (kara_cost_mono c 2 2 ((n + 3) / 4) p Hc Hp). lia.
Qed.

(** *** Toom-3 *)

Section toom3_scratch.
Context (t3 ops c : Z) (Hc : 0 <= c).
Abbreviation next3 n := ((n + 2) / 3 + 1).
Abbreviation cost3 n := (ops * ((n + 2) / 3 + 1) + 5 * (2 * ((n + 2) / 3) + 2)).
Context (Hops : 0 <= ops) (Hcost : forall n, 3 <= n -> c * ((n + 1) / 2) + c * ((n + 3) / 4) + 2 <= cost3 n).

Definition toom3_need (n : Z) : Z :=
  fst (toom3_levels t3 ops n false) + kara_cost c 2 (snd (toom3_levels t3 ops n false)).

Lemma next3_lt n : andb (Z.leb t3 n) (Z.leb 3 n) = true -> 0 <= next3 n < n.
Proof.
  intros [_ ?%Z.leb_le]%andb_prop. pose proof (Z.div_mod (n + 2) 3). pose proof (Z.mod_pos_bound (n + 2) 3). lia.
Qed.

Lemma toom3_need_eq n : toom3_need n =
  if andb (Z.leb t3 n) (Z.leb 3 n) then cost3 n + toom3_need (next3 n) else kara_cost c 2 n.
Proof.
  unfold toom3_need, toom3_levels. cbn [andb].
  pose proof (total_cost_eq (fun n => andb (Z.leb t3 n) (Z.leb 3 n)) (fun n => cost3 n) (fun n => next3 n) next3_lt n) as E1.
  pose proof (last_level_eq (fun n => andb (Z.leb t3 n) (Z.leb 3 n)) (fun n => cost3 n) (fun n => next3 n) next3_lt n) as E2.
  unfold total_cost in E1. cbv zeta in *. rewrite E1, E2. destruct (andb _ _); lia.
Qed.

Lemma kara_low a b : 0 <= a <= b -> 0 <= kara_cost c 2 a <= kara_cost c 2 b.
Proof. intros. split; [by apply kara_cost_nonneg|apply kara_cost_mono; lia]. Qed.

Lemma toom3_step n : andb (Z.leb t3 n) (Z.leb 3 n) = true -> kara_cost c 2 n <= cost3 n + kara_cost c 2 (next3 n).
Proof.
  intros [_ Hn%Z.leb_le]%andb_prop. pose proof (Hcost n Hn).
  pose proof (Z.div_mod (n + 2) 3). pose proof (Z.mod_pos_bound (n + 2) 3).
  pose proof (Z.div_mod (n + 3) 4). pose proof (Z.mod_pos_bound (n + 3) 4).
  pose proof (kara_two_levels c n (next3 n) Hc Hn ltac:(lia)). lia.
Qed.

Lemma toom3_need_kara n : 0 <= n -> kara_cost c 2 n <= toom3_need n.
Proof.
  exact (ladder_low t3 3 (fun n => cost3 n) (fun n => next3 n) _ _ toom3_need_eq next3_lt toom3_step n).
Qed.

Lemma toom3_need_mono a b : 0 <= a <= b -> 0 <= toom3_need a <= toom3_need b.
Proof.
  apply (ladder_mono t3 3 (fun n => cost3 n) (fun n => next3 n) (kara_cost c 2)).
  - exact toom3_need_eq.
  - exact next3_lt.
  - intros x y Hxy. pose proof (Z.div_le_mono (x + 2) (y + 2) 3). lia.
  - intros x y Hxy. pose proof (Z.div_le_mono (x + 2) (y + 2) 3 ltac:(lia) ltac:(lia)). nia.
  - exact kara_low.
  - exact toom3_step.
Qed.

Lemma toom3_need_low n : 0 <= n -> n < t3 -> toom3_need n = kara_cost c 2 n.
Proof. intros _ Hlt. rewrite toom3_need_eq. by rewrite (proj2 (Z.leb_gt t3 n) Hlt). Qed.

(** A forced top level. *)
Lemma toom3_forced n : 3 <= n ->
  fst (toom3_levels t3 ops n true) + kara_cost c 2 (snd (toom3_levels t3 ops n true)) = cost3 n + toom3_need (next3 n).
Proof.
  intros Hn. destruct (Z.ltb_spec n t3) as [Hlt|Hge].
  - unfold toom3_need, toom3_levels. rewrite (proj2 (Z.leb_le 3 n) Hn), (proj2 (Z.ltb_lt n t3) Hlt). cbn [andb].
    rewrite (level_sum_total _ _ _ _ _ (_ + _)). cbn [fst snd]. lia.
  - pose proof (toom3_need_eq n) as E. rewrite (proj2 (Z.leb_le t3 n)), (proj2 (Z.leb_le 3 n)) in E by lia.
    cbn [andb] in E. rewrite <- E. unfold toom3_need, toom3_levels.
    rewrite (proj2 (Z.ltb_ge n t3)) by lia. by rewrite !Bool.andb_false_r.
Qed.
End toom3_scratch.

Lemma toom3_cost_mul n : 3 <= n ->
  6 * ((n + 1) / 2) + 6 * ((n + 3) / 4) + 2 <= 6 * ((n + 2) / 3 + 1) + 5 * (2 * ((n + 2) / 3) + 2).
Proof.
  intros. pose proof (Z.div_mod (n + 2) 3). pose proof (Z.mod_pos_bound (n + 2) 3).
  pose proof (Z.div_mod (n + 3) 4). pose proof (Z.mod_pos_bound (n + 3) 4).
  pose proof (Z.div_mod (n + 1) 2). pose proof (Z.mod_pos_bound (n + 1) 2). lia.
Qed.

Lemma toom3_cost_sqr n : 3 <= n ->
  5 * ((n + 1) / 2) + 5 * ((n + 3) / 4) + 2 <= 3 * ((n + 2) / 3 + 1) + 5 * (2 * ((n + 2) / 3) + 2).
Proof.
  intros. pose proof (Z.div_mod (n + 2) 3). pose proof (Z.mod_pos_bound (n + 2) 3).
  pose proof (Z.div_mod (n + 3) 4). pose proof (Z.mod_pos_bound (n + 3) 4).
  pose proof (Z.div_mod (n + 1) 2). pose proof (Z.mod_pos_bound (n + 1) 2). lia.
Qed.

Lemma toom3_itch_need `{LimbWidth} n : toom3_itch n false = toom3_need threshold.mul_toom3 6 6 n.
Proof. unfold toom3_itch, toom3_need. by destruct (toom3_levels _ _ _ _). Qed.

Lemma sqr_toom3_itch_need `{LimbWidth} n : sqr_toom3_itch n false = toom3_need threshold.sqr_toom3 3 5 n.
Proof. unfold sqr_toom3_itch, toom3_need. by destruct (toom3_levels _ _ _ _). Qed.

(** *** Toom-4, with the crossover of Toom-3 not below its own *)

Section toom4_scratch.
Context (t3 t4 ops4 ops3 c : Z) (Hc : 0 <= c) (Ht : 4 <= t4 <= t3).
Abbreviation next4 n := ((n + 3) / 4 + 1).
Abbreviation cost4 n := (ops4 * ((n + 3) / 4 + 1) + 8 * (2 * ((n + 3) / 4) + 2)).
Context (Hops : 0 <= ops4) (Hcost : forall n, 4 <= n -> c * ((n + 1) / 2) + c * ((n + 3) / 4) + 2 <= cost4 n).

Definition toom4_need (n : Z) : Z :=
  fst (toom4_levels t4 ops4 n false) + toom3_need t3 ops3 c (snd (toom4_levels t4 ops4 n false)).

Lemma next4_lt n : andb (Z.leb t4 n) (Z.leb 4 n) = true -> 0 <= next4 n < n.
Proof.
  intros [_ ?%Z.leb_le]%andb_prop. pose proof (Z.div_mod (n + 3) 4). pose proof (Z.mod_pos_bound (n + 3) 4). lia.
Qed.

Lemma toom4_need_eq n : toom4_need n =
  if andb (Z.leb t4 n) (Z.leb 4 n) then cost4 n + toom4_need (next4 n) else kara_cost c 2 n.
Proof.
  unfold toom4_need, toom4_levels. cbn [andb].
  pose proof (total_cost_eq (fun n => andb (Z.leb t4 n) (Z.leb 4 n)) (fun n => cost4 n) (fun n => next4 n) next4_lt n) as E1.
  pose proof (last_level_eq (fun n => andb (Z.leb t4 n) (Z.leb 4 n)) (fun n => cost4 n) (fun n => next4 n) next4_lt n) as E2.
  unfold total_cost in E1. cbv zeta in *. rewrite E1, E2.
  destruct (andb (Z.leb t4 n) (Z.leb 4 n)) eqn:Eg; [lia|]. rewrite Z.add_0_l.
  rewrite toom3_need_eq. destruct (andb (Z.leb t3 n) (Z.leb 3 n)) eqn:Eg'; [|done]. exfalso.
  apply andb_prop in Eg' as [?%Z.leb_le _]. apply Bool.andb_false_iff in Eg as [?%Z.leb_gt|?%Z.leb_gt]; lia.
Qed.

Lemma toom4_step n : andb (Z.leb t4 n) (Z.leb 4 n) = true -> kara_cost c 2 n <= cost4 n + kara_cost c 2 (next4 n).
Proof.
  intros [_ Hn%Z.leb_le]%andb_prop. pose proof (Hcost n Hn).
  pose proof (kara_two_levels c n (next4 n) Hc ltac:(lia) ltac:(lia)). lia.
Qed.

Lemma toom4_need_kara n : 0 <= n -> kara_cost c 2 n <= toom4_need n.
Proof.
  exact (ladder_low t4 4 (fun n => cost4 n) (fun n => next4 n) _ _ toom4_need_eq next4_lt toom4_step n).
Qed.

Lemma toom4_need_mono a b : 0 <= a <= b -> 0 <= toom4_need a <= toom4_need b.
Proof.
  apply (ladder_mono t4 4 (fun n => cost4 n) (fun n => next4 n) (kara_cost c 2)).
  - exact toom4_need_eq.
  - exact next4_lt.
  - intros x y Hxy. pose proof (Z.div_le_mono (x + 3) (y + 3) 4). lia.
  - intros x y Hxy. pose proof (Z.div_le_mono (x + 3) (y + 3) 4 ltac:(lia) ltac:(lia)). nia.
  - by apply kara_low.
  - exact toom4_step.
Qed.

(** A forced top level. *)
Lemma toom4_forced n : 4 <= n ->
  fst (toom4_levels t4 ops4 n true) + toom3_need t3 ops3 c (snd (toom4_levels t4 ops4 n true)) =
  cost4 n + toom4_need (next4 n).
Proof.
  intros Hn. destruct (Z.ltb_spec n t4) as [Hlt|Hge].
  - unfold toom4_need, toom4_levels. rewrite (proj2 (Z.leb_le 4 n) Hn), (proj2 (Z.ltb_lt n t4) Hlt). cbn [andb].
    rewrite (level_sum_total _ _ _ _ _ (_ + _)). cbn [fst snd]. lia.
  - pose proof (toom4_need_eq n) as E. rewrite (proj2 (Z.leb_le t4 n)), (proj2 (Z.leb_le 4 n)) in E by lia.
    cbn [andb] in E. rewrite <- E. unfold toom4_need, toom4_levels.
    rewrite (proj2 (Z.ltb_ge n t4)) by lia. by rewrite !Bool.andb_false_r.
Qed.
End toom4_scratch.

Lemma toom4_cost_mul n : 4 <= n ->
  6 * ((n + 1) / 2) + 6 * ((n + 3) / 4) + 2 <= 11 * ((n + 3) / 4 + 1) + 8 * (2 * ((n + 3) / 4) + 2).
Proof.
  intros. pose proof (Z.div_mod (n + 3) 4). pose proof (Z.mod_pos_bound (n + 3) 4).
  pose proof (Z.div_mod (n + 1) 2). pose proof (Z.mod_pos_bound (n + 1) 2). lia.
Qed.

Lemma toom4_itch_need `{LimbWidth} n :
  toom4_itch n false = toom4_need threshold.mul_toom3 threshold.mul_toom4 11 6 6 n.
Proof.
  unfold toom4_itch, toom4_need. destruct (toom4_levels _ _ _ _). cbn [fst snd]. by rewrite toom3_itch_need.
Qed.
