(* ===== verification/MpnResidue.v ===== *)
(** Arithmetic on vectors modulo base^n.

    The Toom interpolations work in place on vectors of a fixed length and let
    differences wrap; [residue m p n v] says that the vector at [p] holds the
    integer [v], of either sign, modulo base^n.  Each routine has a rule on
    residues; the rules for the shifts right ask for the exact value, the one for
    the exact division does not. *)
From stdpp Require Import base numbers list option.
From Stdlib Require Import ZArith Zdivisibility Lia.
From S2P Require Import Prelude Arrays Limb Mpn MpnValue MpnArith MpnBits MpnFrame MpnToom3 MpnToom4.

Local Open Scope Z_scope.

Section residues.
Context `{LimbWidth}.
Implicit Types (m : mem) (p n v x y : Z).

Definition residue m p n v : Prop := num m p n = v mod base ^ n.

Lemma residue_num m p n v : wf m -> 0 <= n -> num m p n = v -> residue m p n v.
Proof. intros Hw Hn <-. unfold residue. symmetry. apply Z.mod_small. by apply num_range. Qed.

Lemma residue_exact m p n v : residue m p n v -> 0 <= v < base ^ n -> num m p n = v.
Proof. intros -> Hv. by apply Z.mod_small. Qed.

Lemma residue_frame P m m' p n v : touches P m m' -> (forall k, vec p n k -> ~ P k) -> residue m p n v -> residue m' p n v.
Proof. intros Ht Hd Hr. unfold residue. by rewrite (touches_num _ _ _ _ _ Ht Hd). Qed.

(** The number at [p] differs from [v] by a multiple of base^n. *)
Lemma residue_wit m p n v : 0 <= n -> residue m p n v -> exists q, num m p n = v + base ^ n * q.
Proof.
  intros Hn E. pose proof (base_pow_pos n Hn) as Hp. exists (- (v / base ^ n)). rewrite E.
  pose proof (Z.div_mod v (base ^ n)). lia.
Qed.

Lemma residue_intro m p n v q : wf m -> 0 <= n -> num m p n = v + base ^ n * q -> residue m p n v.
Proof.
  intros Hw Hn E. unfold residue. pose proof (num_range m p n Hw Hn) as Hr.
  apply (Z.mod_unique_pos _ _ (- q)); [done|]. lia.
Qed.

(** *** Additions and subtractions *)

Section linear.
Context m rp ap bp n x y (Hw : wf m) (Hr : valid m rp n) (Ha : valid m ap n) (Hb : valid m bp n).
Context (Fa : fwd rp ap n) (Fb : fwd rp bp n) (Rx : residue m ap n x) (Ry : residue m bp n y).

Lemma add_n_residue : returns (void (add_n m rp ap bp n)) (fun m' => modifies rp n m m' /\ residue m' rp n (x + y)).
Proof.
  assert (0 <= n) as Hn by apply Hr. destruct (residue_wit _ _ _ _ Hn Rx) as [qx Ex]. destruct (residue_wit _ _ _ _ Hn Ry) as [qy Ey].
  eapply returns_bind; [by apply add_n_spec|]. intros [m' cy] (M & Hc & E). apply returns_ret. split; [done|].
  apply (residue_intro _ _ _ _ (qx + qy - cy)); [wf_mem|done|]. lia.
Qed.

Lemma sub_n_residue : returns (void (sub_n m rp ap bp n)) (fun m' => modifies rp n m m' /\ residue m' rp n (x - y)).
Proof.
  assert (0 <= n) as Hn by apply Hr. destruct (residue_wit _ _ _ _ Hn Rx) as [qx Ex]. destruct (residue_wit _ _ _ _ Hn Ry) as [qy Ey].
  eapply returns_bind; [by apply sub_n_spec|]. intros [m' cy] (M & Hc & E). apply returns_ret. split; [done|].
  apply (residue_intro _ _ _ _ (qx - qy + cy)); [wf_mem|done|]. lia.
Qed.
End linear.

(** x - z from the magnitude of z and its sign. *)
Lemma signed_sub_residue (neg : bool) m rp ap bp n x z : wf m -> valid m rp n -> valid m ap n -> valid m bp n ->
  fwd rp ap n -> fwd rp bp n -> residue m ap n x -> residue m bp n (if neg then - z else z) ->
  returns (void (if neg then add_n m rp ap bp n else sub_n m rp ap bp n)) (fun m' =>
    modifies rp n m m' /\ residue m' rp n (x - z)).
Proof.
  intros Hw Hr Ha Hb Fa Fb Rx Rz. destruct neg; [|by apply sub_n_residue].
  rewrite <- Z.add_opp_r. by apply add_n_residue.
Qed.

Section scaled.
Context m rp ap n x y c (Hw : wf m) (Hr : valid m rp n) (Ha : valid m ap n) (Hc : is_limb c).
Context (Rx : residue m rp n x) (Ry : residue m ap n y).

Lemma addmul_1_residue : disjoint ap n rp n ->
  returns (void (addmul_1 m rp ap n c)) (fun m' => modifies rp n m m' /\ residue m' rp n (x + c * y)).
Proof.
  intros D. assert (0 <= n) as Hn by apply Hr. destruct (residue_wit _ _ _ _ Hn Rx) as [qx Ex]. destruct (residue_wit _ _ _ _ Hn Ry) as [qy Ey].
  eapply returns_bind; [apply addmul_1_spec; [done|done|done|vecs|done]|]. intros [m' cy] (M & Hcy & E). apply returns_ret. split; [done|].
  apply (residue_intro _ _ _ _ (qx + c * qy - cy)); [wf_mem|done|]. rewrite Ex, Ey in E. lia.
Qed.

Lemma submul_1_residue : disjoint ap n rp n ->
  returns (void (submul_1 m rp ap n c)) (fun m' => modifies rp n m m' /\ residue m' rp n (x - c * y)).
Proof.
  intros D. assert (0 <= n) as Hn by apply Hr. destruct (residue_wit _ _ _ _ Hn Rx) as [qx Ex]. destruct (residue_wit _ _ _ _ Hn Ry) as [qy Ey].
  eapply returns_bind; [apply submul_1_spec; [done|done|done|vecs|done]|]. intros [m' cy] (M & Hcy & E). apply returns_ret. split; [done|].
  apply (residue_intro _ _ _ _ (qx - c * qy + cy)); [wf_mem|done|]. rewrite Ex, Ey in E. lia.
Qed.
End scaled.

(** *** Shifts *)

Section shifted.
Context m rp ap n x cnt (Hw : wf m) (Hr : valid m rp n) (Ha : valid m ap n) (Hn : 1 <= n) (Hc : 0 < cnt < limb_bits).

Lemma lshift_residue : residue m ap n x -> bwd rp ap n ->
  returns (void (lshift m rp ap n cnt)) (fun m' => modifies rp n m m' /\ residue m' rp n (x * 2 ^ cnt)).
Proof.
  intros Rx F. destruct (residue_wit m ap n x ltac:(lia) Rx) as [qx Ex].
  eapply returns_bind; [by apply lshift_spec|]. intros [m' out] (M & Ho & E). apply returns_ret. split; [done|].
  apply (residue_intro _ _ _ _ (qx * 2 ^ cnt - out)); [wf_mem|lia|]. rewrite Ex in E. lia.
Qed.

(** The value must be exact, and divisible. *)
Lemma rshift_residue : residue m ap n (x * 2 ^ cnt) -> 0 <= x * 2 ^ cnt < base ^ n -> fwd rp ap n ->
  returns (void (rshift m rp ap n cnt)) (fun m' => modifies rp n m m' /\ residue m' rp n x).
Proof.
  intros Rx Hx F. pose proof (residue_exact _ _ _ _ Rx Hx) as E.
  eapply returns_bind; [by apply rshift_spec|]. intros [m' out] (M & Ho & _). apply returns_ret. split; [done|].
  apply residue_num; [wf_mem|lia|]. rewrite Ho, E. apply Z.div_mul.
  pose proof (Z.pow_pos_nonneg 2 cnt). lia.
Qed.
End shifted.

(** *** The top bit *)

Definition half_base : Z := 2 ^ (limb_bits - 1).

Lemma base_halves : base = 2 * half_base /\ 0 < half_base.
Proof.
  pose proof limb_bits_pos. unfold base, half_base. split; [|apply Z.pow_pos_nonneg; lia].
  rewrite <- Z.pow_succ_r by lia. f_equal. lia.
Qed.

Lemma num_top m p n : 1 <= n -> num m p n = num m p (n - 1) + base ^ (n - 1) * cell m (p + (n - 1)).
Proof. intros. replace n with (n - 1 + 1) at 1 by lia. by rewrite num_succ by lia. Qed.

Lemma num_upd_top m p n x : valid m p n -> 1 <= n ->
  num (upd m (p + (n - 1)) x) p n = num m p (n - 1) + base ^ (n - 1) * x.
Proof. intros Hp Hn. replace n with (n - 1 + 1) at 2 by lia. apply num_upd_at; vecs. Qed.

Lemma pow_top n : 1 <= n -> base ^ n = 2 * (base ^ (n - 1) * half_base).
Proof.
  intros. replace n with (n - 1 + 1) at 1 by lia. rewrite base_succ by lia. destruct base_halves. lia.
Qed.

(** The average of two vectors. *)
Lemma rsh1add_n_spec m rp up vp n : wf m -> valid m rp n -> valid m up n -> valid m vp n -> 1 <= n ->
  fwd rp up n -> fwd rp vp n ->
  returns (rsh1add_n m rp up vp n) (fun m' => modifies rp n m m' /\ num m' rp n = (num m up n + num m vp n) / 2).
Proof.
  intros Hw Hr Hu Hv Hn Fu Fv. pose proof limb_bits_pos as HW. unfold rsh1add_n.
  eapply returns_bind; [by apply add_n_spec|]. intros [m1 cy] (M1 & Hcy & V1).
  eapply returns_bind.
  { eapply returns_bind; [apply rshift_spec; [wf_mem|vecs|vecs|lia|lia|vecs]|].
    intros [m2 out] (M2 & V2 & _). apply returns_ret. exact (conj M2 V2). }
  intros m2 [M2 V2]. rewrite get_cell by vecs. cbn [mbind option_bind].
  unfold limb_shl. rewrite decide_True by lia. cbn [mbind option_bind]. rewrite Z.shiftl_mul_pow2 by lia.
  destruct base_halves as [Eb Hh]. fold half_base.
  pose proof (wf_cell m2 (rp + (n - 1)) (modifies_wf _ _ _ _ M2)) as Hx. unfold is_limb in Hx.
  set (x := cell m2 (rp + (n - 1))) in *. set (P := base ^ (n - 1)) in *.
  assert (0 < P) as HP by (apply base_pow_pos; lia).
  pose proof (num_range m1 rp n (modifies_wf _ _ _ _ M1) ltac:(lia)) as R1.
  pose proof (num_range m2 rp (n - 1) (modifies_wf _ _ _ _ M2) ltac:(lia)) as R2.
  pose proof (num_top m2 rp n Hn) as Et. fold x P in Et. pose proof (pow_top n Hn) as EM. fold P in EM.
  assert (num m1 rp n / 2 < P * half_base) as Hlt by (apply Z.div_lt_upper_bound; lia).
  assert (x < half_base) as Hxh.
  { apply (Z.mul_lt_mono_pos_l P); [done|]. rewrite Et in V2. change (2 ^ 1) with 2 in V2. lia. }
  assert (is_limb (cy * half_base + x)) as Hl by (unfold is_limb; nia).
  rewrite (to_limb_id (cy * half_base)) by (unfold is_limb; nia).
  rewrite Z.lor_comm. unfold half_base at 1. rewrite lor_high_low by (fold half_base; lia). fold half_base.
  apply returns_set_tail; [vecs|]. split.
  - eapply modifies_trans; [exact M1|]. eapply modifies_upd; [exact M2|vecs..|done].
  - rewrite num_upd_top by (vecs || lia). fold P. rewrite <- V1, EM. change (2 ^ 1) with 2 in V2.
    replace (num m1 rp n + 2 * (P * half_base) * cy) with (num m1 rp n + (P * half_base * cy) * 2) by ring.
    rewrite Z.div_add by lia. lia.
Qed.

Lemma rsh1add_n_residue m rp up vp n x y z : wf m -> valid m rp n -> valid m up n -> valid m vp n -> 1 <= n ->
  fwd rp up n -> fwd rp vp n -> residue m up n x -> residue m vp n y ->
  0 <= x < base ^ n -> 0 <= y < base ^ n -> x + y = z * 2 ->
  returns (rsh1add_n m rp up vp n) (fun m' => modifies rp n m m' /\ residue m' rp n z).
Proof.
  intros Hw Hr Hu Hv Hn Fu Fv Rx Ry Hx Hy E. eapply returns_mono; [by apply rsh1add_n_spec|].
  intros m' [M V]. split; [done|]. apply residue_num; [wf_mem|lia|].
  rewrite V, (residue_exact _ _ _ _ Rx Hx), (residue_exact _ _ _ _ Ry Hy), E. apply Z.div_mul. lia.
Qed.

(** w[n - 1] &= limb_max >> 1 *)
Lemma clear_top_bit {R} m p n (K : mem -> option R) Q : wf m -> valid m p n -> 1 <= n ->
  (forall m', modifies p n m m' -> num m' p n = num m p n mod (base ^ (n - 1) * half_base) -> returns (K m') Q) ->
  returns (x ← m.[p + (n - 1)]; half ← limb_shr limb_max 1; m ← aset m (p + (n - 1)) (Z.land x half); K m) Q.
Proof.
  intros Hw Hp Hn HK. pose proof limb_bits_pos as HW. destruct base_halves as [Eb Hh].
  rewrite get_cell by vecs. cbn [mbind option_bind]. unfold limb_shr. rewrite decide_True by lia. cbn [mbind option_bind].
  assert (Z.shiftr limb_max 1 = Z.ones (limb_bits - 1)) as ->.
  { unfold limb_max. rewrite limb_not_eq by apply is_limb_0. rewrite Z.shiftr_div_pow2, Z.ones_equiv by lia.
    fold half_base. change (2 ^ 1) with 2. symmetry. apply (Z.div_unique_pos _ _ _ 1); lia. }
  rewrite Z.land_ones by lia. fold half_base.
  pose proof (wf_cell m (p + (n - 1)) Hw) as Hx. unfold is_limb in Hx. set (x := cell m (p + (n - 1))) in *.
  pose proof (Z.mod_pos_bound x half_base Hh) as Hm.
  apply returns_set; [vecs|]. apply HK; [eapply (modifies_upd _ 0); [by apply modifies_refl|vecs..|unfold is_limb; lia]|].
  rewrite num_upd_top, (num_top m p n) by done. fold x.
  pose proof (num_range m p (n - 1) Hw ltac:(lia)) as Rl. set (P := base ^ (n - 1)) in *.
  apply (Z.mod_unique_pos _ _ (x / half_base)).
  - split; [nia|]. assert (P * (x mod half_base + 1) <= P * half_base) by (apply Z.mul_le_mono_nonneg_l; lia). lia.
  - pose proof (Z.div_mod x half_base). nia.
Qed.

(** (y - z) / 2 from the magnitude of z and its sign. *)
Lemma half_signed_residue (neg : bool) m wp yp n y z u : wf m -> valid m wp n -> valid m yp n -> 1 <= n ->
  disjoint yp n wp n -> residue m wp n (if neg then - z else z) -> residue m yp n y ->
  0 <= (if neg then - z else z) < base ^ n -> 0 <= y < base ^ n -> 0 <= u * 2 < base ^ n -> y - z = u * 2 ->
  returns (if neg then rsh1add_n m wp wp yp n
           else m ← void (sub_n m wp yp wp n); void (rshift m wp wp n 1))
    (fun m' => modifies wp n m m' /\ residue m' wp n u).
Proof.
  intros Hw Hp Hy Hn D Rz Ry Bz By Bu E. pose proof limb_bits_pos. destruct neg.
  - apply (rsh1add_n_residue m wp wp yp n (- z) y u); try done; [vecs..|lia].
  - eapply returns_bind; [apply (sub_n_residue m wp yp wp n y z); try done; vecs|]. intros m1 [M1 R1].
    rewrite E in R1. eapply returns_mono.
    + apply (rshift_residue m1 wp wp n u 1); [wf_mem|vecs|vecs|lia|lia|done|done|vecs].
    + intros m2 [M2 R2]. split; [touched|done].
Qed.

(** The average of x - y, taken modulo base^n, and x + y, without the top bit. *)
Lemma average_residue {R} m wp yp n x y (K : mem -> option R) Q : wf m -> valid m wp n -> valid m yp n -> 1 <= n ->
  disjoint yp n wp n -> residue m wp n (x - y) -> residue m yp n (x + y) ->
  0 <= x -> 0 <= y -> 2 * (x + y) < base ^ n ->
  (forall m', modifies wp n m m' -> residue m' wp n x -> returns (K m') Q) ->
  returns (m ← rsh1add_n m wp wp yp n; a ← m.[wp + (n - 1)]; half ← limb_shr limb_max 1;
    m ← aset m (wp + (n - 1)) (Z.land a half); K m) Q.
Proof.
  intros Hw Hp Hy Hn D Rd Rs Hx Hy0 Hlt HK. eapply returns_bind; [apply rsh1add_n_spec; [done|vecs..]|].
  intros m1 [M1 V1]. apply clear_top_bit; [wf_mem|vecs|lia|]. intros m2 M2 V2. apply HK; [touched|].
  apply residue_num; [wf_mem|lia|]. rewrite V2, V1. clear V1 V2 HK.
  rewrite (residue_exact _ _ _ _ Rs) by lia. destruct (residue_wit m wp n (x - y) ltac:(lia) Rd) as [q Eq].
  pose proof (num_range m wp n Hw ltac:(lia)) as Rn. rewrite Eq in *. clear Eq Rd Rs.
  pose proof (pow_top n Hn) as EM. set (P := base ^ n) in *. set (h := base ^ (n - 1) * half_base) in *.
  assert (q = 0 \/ q = 1) as [-> | ->] by nia.
  - replace (x - y + P * 0 + (x + y)) with (x * 2) by lia. rewrite Z.div_mul by lia. apply Z.mod_small. lia.
  - replace (x - y + P * 1 + (x + y)) with ((x + h) * 2) by lia. rewrite Z.div_mul by lia.
    replace (x + h) with (x + 1 * h) by lia. rewrite Z.mod_add by lia. apply Z.mod_small. lia.
Qed.

(** *** Exact division

    The loop emits, least significant first, the limbs q with d q = u - c modulo
    base, and carries what is left over; no size condition is needed. *)

Section exact_division.
Context (d : Z) (step : Z -> Z -> Z * Z).
Context (Hd : 0 < d <= 15) (Hodd : Z.gcd d 2 = 1).
Context (Hstep : forall x c, is_limb x -> 0 <= c <= d ->
  is_limb (fst (step x c)) /\ 0 <= snd (step x c) <= d /\
  x - c = d * fst (step x c) - base * snd (step x c)).

Definition divexact_loop (m : mem) (rp up n : Z) : option (mem * Z) :=
  for_ 0 n (fun i '(m, c) => x ← m.[up + i]; m ← aset m (rp + i) (fst (step x c)); Some (m, snd (step x c))) (m, 0).

Lemma divexact_loop_spec m rp up n : wf m -> valid m rp n -> valid m up n -> fwd rp up n ->
  returns (divexact_loop m rp up n) (fun '(m', c) => modifies rp n m m' /\
    0 <= c <= d /\ num m up n = d * num m' rp n - base ^ n * c).
Proof.
  intros Hw Hr Hu Fu. apply (returns_store_up rp n m 0 _ (fun i v c =>
    0 <= c <= d /\ num m up i = d * v - base ^ i * c)); [done|done|rewrite num_0; lia|].
  intros i m1 c Hi M1 [Hc E]. exists (fst (step (cell m (up + i)) c)), (snd (step (cell m (up + i)) c)).
  rewrite (modifies_read_up _ _ n _ _ _ M1 Fu Hu Hi). cbn [mbind option_bind].
  destruct (Hstep (cell m (up + i)) c) as (Hq & Hc' & Es); [by apply wf_cell|done|].
  rewrite aset_in by vecs. split_and!; [done|done|lia..|].
  rewrite num_succ, base_succ, E by lia. clear E.
  replace (cell m (up + i)) with (c + (d * fst (step (cell m (up + i)) c) - base * snd (step (cell m (up + i)) c))) at 1 by lia.
  ring.
Qed.

(** An odd divisor is invertible modulo base^n. *)
Lemma cancel_odd n v w q : 0 <= n -> d * w = d * v + base ^ n * q -> exists j, w = v + base ^ n * j.
Proof.
  intros Hn E. assert ((base ^ n | d * (w - v))) as Hdiv by (exists q; lia).
  apply Z.gauss in Hdiv.
  - destruct Hdiv as [j Hj]. exists j. lia.
  - pose proof limb_bits_pos. rewrite base_pow2 by done. rewrite Z.gcd_comm. apply Z.coprime_pow_r; [lia|done].
Qed.

Lemma divexact_loop_residue m rp up n v : wf m -> valid m rp n -> valid m up n -> fwd rp up n ->
  residue m up n (d * v) ->
  returns (void (divexact_loop m rp up n)) (fun m' => modifies rp n m m' /\ residue m' rp n v).
Proof.
  intros Hw Hr Hu Fu Rv. assert (0 <= n) as Hn by apply Hr.
  destruct (residue_wit m up n _ Hn Rv) as [q Eq].
  eapply returns_bind; [by apply divexact_loop_spec|]. intros [m' c] (M & Hc & E). apply returns_ret.
  split; [done|]. destruct (cancel_odd n v (num m' rp n) (q + c) Hn) as [j Ej]; [lia|].
  apply (residue_intro _ _ _ _ j); [wf_mem|done|done].
Qed.
End exact_division.

(** A quotient limb: q = l dinv has d q = l + base h with h < d. *)
Lemma odd_quotient d dinv l : 0 < d <= 15 -> to_limb (d * dinv) = 1 -> is_limb l ->
  exists h, d * to_limb (l * dinv) = l + base * h /\ 0 <= h < d.
Proof.
  intros Hd Hinv Hl. pose proof base_ge as HB. destruct (to_limb_wit (l * dinv)) as (q1 & E1 & H1).
  destruct (to_limb_wit (d * dinv)) as (q2 & E2 & _). rewrite Hinv in E2.
  set (q := to_limb (l * dinv)) in *. exists (l * q2 - d * q1).
  assert (d * q = l + base * (l * q2 - d * q1)) as E.
  { assert (d * (l * dinv) = l * (d * dinv)) as Ec by ring. rewrite E1, E2 in Ec. lia. }
  split; [done|]. unfold is_limb in *. clear E1 E2 Hinv.
  assert (d * q <= d * (base - 1)) by (apply Z.mul_le_mono_nonneg_l; lia).
  revert E. generalize (l * q2 - d * q1). intros h E. nia.
Qed.

Lemma inv3_ok : to_limb (3 * inv3) = 1.
Proof. unfold inv3, to_limb, wrap. destruct limb_bits_ok as [-> | ->]; vm_compute; done. Qed.

Lemma inv9_ok : to_limb (9 * inv9) = 1.
Proof. unfold inv9, binv_odd, to_limb, wrap. destruct limb_bits_ok as [-> | ->]; vm_compute; done. Qed.

Lemma inv15_ok : to_limb (15 * inv15) = 1.
Proof. unfold inv15, binv_odd, to_limb, wrap. destruct limb_bits_ok as [-> | ->]; vm_compute; done. Qed.

Definition step_by3 (x c : Z) : Z * Z :=
  let '(b, l) := subb x c 0 in
  let q := to_limb (l * inv3) in
  (q, to_limb (b + (if Z.ltb third_max q then 1 else 0) + (if Z.ltb (to_limb (third_max * 2)) q then 1 else 0))).

Definition step_odd (d dinv x c : Z) : Z * Z :=
  let '(bw, s) := subb x c 0 in
  let q := to_limb (s * dinv) in
  let '(lo, hi) := mul_wide q d in
  (q, to_limb (hi + bw)).

Lemma third_max_eq : 3 * third_max = base - 1 /\ to_limb (third_max * 2) = 2 * third_max.
Proof.
  assert (limb_max = base - 1) as Em by (unfold limb_max; rewrite limb_not_eq by apply is_limb_0; lia).
  assert (3 * third_max = base - 1) as E.
  { unfold third_max. rewrite Em. unfold base. by destruct limb_bits_ok as [-> | ->]. }
  split; [done|]. rewrite to_limb_id; [lia|]. pose proof base_ge. unfold is_limb. lia.
Qed.

Lemma step_by3_ok x c : is_limb x -> 0 <= c <= 3 ->
  is_limb (fst (step_by3 x c)) /\ 0 <= snd (step_by3 x c) <= 3 /\
  x - c = 3 * fst (step_by3 x c) - base * snd (step_by3 x c).
Proof.
  intros Hx Hc. pose proof base_ge as HB. unfold step_by3.
  destruct (subb_bit x c 0) as (b & l & -> & Hb & Hl & E); [done|unfold is_limb; lia|lia|].
  destruct (odd_quotient 3 inv3 l ltac:(lia) inv3_ok Hl) as (h & Eh & Hh).
  destruct third_max_eq as [E3 ->]. pose proof (to_limb_range (l * inv3)) as Hq.
  set (q := to_limb (l * inv3)) in *. cbn [fst snd].
  assert (h = (if Z.ltb third_max q then 1 else 0) + (if Z.ltb (2 * third_max) q then 1 else 0)) as Eh'.
  { unfold is_limb in *. destruct (Z.ltb_spec third_max q), (Z.ltb_spec (2 * third_max) q); try lia; nia. }
  rewrite to_limb_id; [|rewrite <- Z.add_assoc, <- Eh'; unfold is_limb; lia].
  rewrite <- Z.add_assoc, <- Eh'. split_and!; [done|lia..].
Qed.

Lemma step_odd_ok d dinv x c : 0 < d <= 15 -> to_limb (d * dinv) = 1 -> is_limb x -> 0 <= c <= d ->
  is_limb (fst (step_odd d dinv x c)) /\ 0 <= snd (step_odd d dinv x c) <= d /\
  x - c = d * fst (step_odd d dinv x c) - base * snd (step_odd d dinv x c).
Proof.
  intros Hd Hinv Hx Hc. pose proof base_ge as HB. unfold step_odd.
  destruct (subb_bit x c 0) as (b & l & -> & Hb & Hl & E); [done|unfold is_limb; lia|lia|].
  destruct (odd_quotient d dinv l Hd Hinv Hl) as (h & Eh & Hh). pose proof (to_limb_range (l * dinv)) as Hq.
  set (q := to_limb (l * dinv)) in *.
  pose proof (mul_wide_spec q d Hq ltac:(unfold is_limb; lia)) as Hm. destruct (mul_wide q d) as [lo hi].
  destruct Hm as (Hlo & Hhi & _ & Em). cbn [fst snd].
  assert (hi = h) as -> by (unfold is_limb in *; nia).
  rewrite to_limb_id by (unfold is_limb; lia). split_and!; [done|lia..].
Qed.

Lemma divexact_by3_residue m rp up n v : wf m -> valid m rp n -> valid m up n -> fwd rp up n ->
  residue m up n (3 * v) ->
  returns (divexact_by3 m rp up n) (fun m' => modifies rp n m m' /\ residue m' rp n v).
Proof.
  intros. change (divexact_by3 m rp up n) with (void (divexact_loop step_by3 m rp up n)).
  apply (divexact_loop_residue 3 step_by3); try done; apply step_by3_ok.
Qed.

Lemma divexact_1_odd_residue m rp up n d dinv v : 0 < d <= 15 -> Z.gcd d 2 = 1 -> to_limb (d * dinv) = 1 ->
  wf m -> valid m rp n -> valid m up n -> fwd rp up n -> residue m up n (d * v) ->
  returns (divexact_1_odd m rp up n d dinv) (fun m' => modifies rp n m m' /\ residue m' rp n v).
Proof.
  intros. change (divexact_1_odd m rp up n d dinv) with (void (divexact_loop (step_odd d dinv) m rp up n)).
  apply (divexact_loop_residue d (step_odd d dinv)); try done; intros; by apply step_odd_ok.
Qed.

Lemma divexact_by9_residue m rp up n v : wf m -> valid m rp n -> valid m up n -> fwd rp up n ->
  residue m up n (9 * v) ->
  returns (divexact_by9 m rp up n) (fun m' => modifies rp n m m' /\ residue m' rp n v).
Proof. intros. apply divexact_1_odd_residue; try done. apply inv9_ok. Qed.

Lemma divexact_by15_residue m rp up n v : wf m -> valid m rp n -> valid m up n -> fwd rp up n ->
  residue m up n (15 * v) ->
  returns (divexact_by15 m rp up n) (fun m' => modifies rp n m m' /\ residue m' rp n v).
Proof. intros. apply divexact_1_odd_residue; try done. apply inv15_ok. Qed.
End residues.

(** *** Running a routine on residues

    [advance M] moves the residues in scope across the step [M] and extends the
    frame; [run lem] applies a rule whose premises are in scope. *)
Ltac advance M :=
  lazymatch type of M with
  | modifies ?rp ?n ?m ?m' =>
      repeat match goal with
      | R : residue m ?p ?k ?v |- _ =>
          let R' := fresh "R" in
          first [pose proof (residue_frame _ m m' p k v M ltac:(vecs) R) as R'; clear R; rename R' into R
                |clear R]
      end;
      match goal with
      | T : touches ?P ?m0 m |- _ =>
          let T' := fresh "T" in
          assert (touches P m0 m') as T' by (apply (touches_trans P m0 m m' T); eapply touches_mono; [exact M|vecs]);
          clear T; rename T' into T
      end; clear M; try clear m
  end.

Ltac run lem :=
  eapply returns_bind; [eapply lem; first [eassumption|wf_mem|vecs|lia]|];
  let m' := fresh "m" in let M := fresh "M" in let R := fresh "R" in
  intros m' [M R]; advance M.

(** Restates the value a vector holds. *)
Tactic Notation "value" constr(w) "is" constr(v) :=
  match goal with R : residue ?m w ?n ?x |- _ => replace x with v in R by ring end.
