(* ===== verification/MpnToom3Proof.v ===== *)
(** Correctness of Toom-Cook 3: evaluation, interpolation, products and squares. *)
From stdpp Require Import base numbers list option.
From Stdlib Require Import ZArith Lia.
From S2P Require Import Prelude Arrays Limb Mpn MpnValue MpnArith MpnBits MpnMul MpnMulProof MpnFrame Thresholds MpnKaratsuba MpnKaratsubaProof MpnToom3 MpnToom4 MpnToomScratch MpnResidue.

Local Open Scope Z_scope.

(** ** Evaluation steps

    The rules take the rest of the routine as a continuation [K]. *)

Section evaluation.
Context `{LimbWidth}.

Lemma add_same_length m rp ap bp n : add m rp ap n bp n = add_n m rp ap bp n.
Proof.
  unfold add. rewrite Z.eqb_refl. destruct (add_n m rp ap bp n) as [[m' c]|]; done.
Qed.

(** A part of at most [k] limbs, and what fits above it. *)
Lemma part_range m p t k : wf m -> 0 <= t <= k -> 0 <= num m p t < base ^ k.
Proof.
  intros Hw Ht. pose proof (num_range m p t Hw ltac:(lia)).
  assert (base ^ t <= base ^ k) by (apply Z.pow_le_mono_r; [apply base_pos|lia]). lia.
Qed.

Lemma room k : 0 <= k -> 2 ^ 32 * base ^ k <= base ^ (k + 1).
Proof. intros Hk. rewrite base_succ by done. pose proof base_ge. pose proof (base_pow_pos k Hk). nia. Qed.

(** d[k] = add(d, x, k, y, t) *)
Lemma add_set_spec {R} m d x k y t (K : mem -> option R) Q : wf m -> valid m d (k + 1) -> valid m x k -> valid m y t ->
  t <= k -> fwd d x k -> disjoint y t d (k + 1) \/ fwd d y t /\ y + t <= d + k ->
  (forall m', modifies d (k + 1) m m' -> num m' d (k + 1) = num m x k + num m y t -> returns (K m') Q) ->
  returns ('(m, c) ← add m d x k y t; m ← aset m (d + k) c; K m) Q.
Proof.
  intros Hw Hd Hx Hy Ht Fx Fy HK. eapply returns_bind; [apply add_var_spec; [done|vecs..]|].
  intros [m1 c] (M1 & Hc & V1). apply returns_set; [vecs|]. apply HK.
  - eapply modifies_upd; [exact M1|vecs..|by apply is_limb_bit].
  - rewrite num_upd_at by vecs. exact V1.
Qed.

(** s[k] += add(s, s, k, y, t) *)
Lemma add_into_spec {R} m s k y t (K : mem -> option R) Q : wf m -> valid m s (k + 1) -> valid m y t -> 0 <= t <= k ->
  disjoint y t s (k + 1) -> num m s (k + 1) + num m y t < base ^ (k + 1) ->
  (forall m', modifies s (k + 1) m m' -> num m' s (k + 1) = num m s (k + 1) + num m y t -> returns (K m') Q) ->
  returns ('(m, c) ← add m s s k y t; x ← m.[s + k]; m ← aset m (s + k) (to_limb (x + c)); K m) Q.
Proof.
  intros Hw Hs Hy Ht D Hlt HK. eapply returns_bind; [apply add_var_spec; [done|vecs..]|].
  intros [m1 c] (M1 & Hc & V1). rewrite (modifies_out _ _ _ _ (s + k) M1) by vecs.
  rewrite get_cell by vecs. cbn [mbind option_bind]. rewrite num_succ in Hlt by vecs.
  pose proof (wf_cell m (s + k) Hw) as Hx. pose proof (base_pow_pos k ltac:(vecs)) as HP.
  pose proof (num_range m1 s k (modifies_wf _ _ _ _ M1) ltac:(vecs)) as R1.
  assert (is_limb (cell m (s + k) + c)) as Hl.
  { unfold is_limb in *. split; [lia|]. rewrite base_succ in Hlt by vecs.
    apply (Z.mul_lt_mono_pos_l (base ^ k)); lia. }
  rewrite to_limb_id by done. apply returns_set; [vecs|]. apply HK.
  - eapply modifies_upd; [exact M1|vecs..|done].
  - rewrite num_upd_at, num_succ by vecs. lia.
Qed.

(** lshift(s, s, n, 1) of a value with room *)
Lemma double_spec {R} m s n (K : mem -> option R) Q : wf m -> valid m s n -> 1 <= n -> 2 * num m s n < base ^ n ->
  (forall m', modifies s n m m' -> num m' s n = 2 * num m s n -> returns (K m') Q) ->
  returns (m ← void (lshift m s s n 1); K m) Q.
Proof.
  intros Hw Hs Hn Hlt HK. pose proof limb_bits_pos. pose proof (num_range m s n Hw ltac:(lia)).
  eapply returns_bind.
  { apply (lshift_residue m s s n (num m s n) 1); [done|done|done|done|lia| |vecs].
    apply residue_num; done || lia. }
  intros m1 [M1 V1]. apply HK; [done|]. rewrite (residue_exact _ _ _ _ V1); lia.
Qed.

Section toom3_points.
Context (a0 a1 a2 k t : Z) (Hk : 1 <= t <= k).

Lemma toom3_eval1_spec m s : wf m -> valid m s (k + 1) -> valid m a0 k -> valid m a1 k -> valid m a2 t ->
  disjoint a0 k s (k + 1) -> disjoint a1 k s (k + 1) -> disjoint a2 t s (k + 1) ->
  returns (toom3_eval1 m s a0 a1 a2 k t) (fun m' => modifies s (k + 1) m m' /\
    num m' s (k + 1) = num m a0 k + num m a1 k + num m a2 t).
Proof.
  intros Hw Hs V0 V1 V2 D0 D1 D2. unfold toom3_eval1.
  pose proof (part_range m a0 k k Hw ltac:(lia)) as R0. pose proof (part_range m a1 k k Hw ltac:(lia)) as R1.
  pose proof (part_range m a2 t k Hw ltac:(lia)) as R2. pose proof (room k ltac:(lia)) as HR.
  eapply returns_bind; [apply copyi_spec; [done|vecs..]|]. intros m1 [M1 E1].
  rewrite <- add_same_length. apply add_set_spec; [wf_mem|vecs|vecs|vecs|lia|vecs|vecs|].
  intros m2 M2 E2. rewrite E1 in E2. pull_in E2.
  apply add_into_spec; [wf_mem|vecs|vecs|lia|vecs|rewrite E2; pull_goal; lia|]. intros m3 M3 E3.
  rewrite E2 in E3. pull_in E3. apply returns_ret. split; [|done]. touched.
Qed.

Lemma toom3_eval2_spec m s : wf m -> valid m s (k + 1) -> valid m a0 k -> valid m a1 k -> valid m a2 t ->
  disjoint a0 k s (k + 1) -> disjoint a1 k s (k + 1) -> disjoint a2 t s (k + 1) ->
  returns (toom3_eval2 m s a0 a1 a2 k t) (fun m' => modifies s (k + 1) m m' /\
    num m' s (k + 1) = num m a0 k + 2 * num m a1 k + 4 * num m a2 t).
Proof.
  intros Hw Hs V0 V1 V2 D0 D1 D2. unfold toom3_eval2.
  pose proof (part_range m a0 k k Hw ltac:(lia)) as R0. pose proof (part_range m a1 k k Hw ltac:(lia)) as R1.
  pose proof (part_range m a2 t k Hw ltac:(lia)) as R2. pose proof (room k ltac:(lia)) as HR.
  eapply returns_bind; [apply copyi_spec; [done|vecs..]|]. intros m1 [M1 E1].
  eapply returns_bind; [apply zero_spec; [wf_mem|vecs]|]. intros m2 [M2 E2].
  assert (num m2 s (k + 1) = num m a2 t) as Es.
  { rewrite (num_split_at m2 s t) by lia. rewrite E2. pull_goal. rewrite E1. lia. }
  apply double_spec; [wf_mem|vecs|lia|lia|]. intros m3 M3 E3. rewrite Es in E3.
  rewrite <- add_same_length. apply add_into_spec; [wf_mem|vecs|vecs|lia|vecs|rewrite E3; pull_goal; lia|].
  intros m4 M4 E4. rewrite E3 in E4. pull_in E4.
  apply double_spec; [wf_mem|vecs|lia|lia|]. intros m5 M5 E5. rewrite E4 in E5.
  rewrite <- add_same_length. apply add_into_spec; [wf_mem|vecs|vecs|lia|vecs|rewrite E5; pull_goal; lia|].
  intros m6 M6 E6. rewrite E5 in E6. pull_in E6. apply returns_ret. split; [touched|lia].
Qed.

Lemma toom3_evalm1_spec m s tmp : wf m -> valid m s (k + 1) -> valid m tmp (k + 1) ->
  valid m a0 k -> valid m a1 k -> valid m a2 t ->
  disjoint a0 k s (k + 1) -> disjoint a1 k s (k + 1) -> disjoint a2 t s (k + 1) ->
  disjoint a0 k tmp (k + 1) -> disjoint a1 k tmp (k + 1) -> disjoint a2 t tmp (k + 1) ->
  disjoint s (k + 1) tmp (k + 1) ->
  returns (toom3_evalm1 m s tmp a0 a1 a2 k t) (fun '(m', neg) =>
    touches (fun c => vec s (k + 1) c \/ vec tmp (k + 1) c) m m' /\
    num m' s (k + 1) = Z.abs (num m a0 k - num m a1 k + num m a2 t) /\
    neg = Z.ltb (num m a0 k - num m a1 k + num m a2 t) 0).
Proof.
  intros Hw Hs Htmp V0 V1 V2 D0 D1 D2 T0 T1 T2 DT. unfold toom3_evalm1.
  pose proof (part_range m a0 k k Hw ltac:(lia)) as R0. pose proof (part_range m a1 k k Hw ltac:(lia)) as R1.
  pose proof (part_range m a2 t k Hw ltac:(lia)) as R2. pose proof (base_pow_pos k ltac:(lia)) as HP.
  eapply returns_bind; [apply copyi_spec; [done|vecs..]|]. intros m1 [M1 E1].
  apply add_set_spec; [wf_mem|vecs|vecs|vecs|lia|vecs|vecs|]. intros m2 M2 E2. rewrite E1 in E2. pull_in E2.
  assert (num m2 a1 k = num m a1 k) as Ea by (pull_goal; done).
  pose proof (num_succ m2 tmp k ltac:(lia)) as Es. rewrite E2 in Es.
  pose proof (num_range m2 tmp k (modifies_wf _ _ _ _ M2) ltac:(lia)) as Rt.
  rewrite get_cell by vecs. cbn [mbind option_bind].
  set (A0 := num m a0 k) in *. set (A1 := num m a1 k) in *. set (A2 := num m a2 t) in *.
  assert (returns (if negb (Z.eqb (cell m2 (tmp + k)) 0) then Some true
    else c ← cmp m2 tmp a1 k; Some (Z.leb 0 c)) (eq (Z.leb 0 (A0 - A1 + A2)))) as (ge & -> & <-).
  { destruct (Z.eqb_spec (cell m2 (tmp + k)) 0) as [Ez|Ez]; cbn [negb].
    - rewrite cmp_spec by (wf_mem || vecs). cbn [mbind option_bind]. apply returns_ret. rewrite sign_leb, Ea.
      rewrite Ez in Es. destruct (Z.leb_spec 0 (A0 - A1 + A2)), (Z.leb_spec A1 (num m2 tmp k)); done || lia.
    - apply returns_ret. pose proof (wf_cell m2 (tmp + k) (modifies_wf _ _ _ _ M2)) as Hc. unfold is_limb in Hc.
      apply Z.leb_le. assert (base ^ k <= base ^ k * cell m2 (tmp + k)) by (apply Z.le_mul_diag_r; lia). lia. }
  cbn [mbind option_bind]. destruct (Z.leb_spec 0 (A0 - A1 + A2)) as [Hge|Hlt].
  - eapply returns_bind; [apply copyi_spec; [wf_mem|vecs..]|]. intros m3 [M3 E3]. rewrite E2 in E3.
    eapply returns_bind; [apply sub_n_spec; [wf_mem|vecs..]|]. intros [m4 b] (M4 & Hb & E4).
    rewrite (modifies_out _ _ _ _ (s + k) M4), get_cell by vecs. cbn [mbind option_bind].
    pose proof (num_succ m3 s k ltac:(lia)) as Es3. rewrite E3 in Es3.
    assert (num m3 a1 k = A1) as Ea3 by (pull_goal; done). rewrite Ea3 in E4.
    pose proof (num_range m4 s k (modifies_wf _ _ _ _ M4) ltac:(lia)) as R4.
    pose proof (wf_cell m3 (s + k) (modifies_wf _ _ _ _ M3)) as Hc.
    assert (is_limb (cell m3 (s + k) - b)) as Hl.
    { unfold is_limb in *. split; [|lia]. apply Z.le_0_sub.
      assert (base ^ k * b < base ^ k * (cell m3 (s + k) + 1)) as Hx by lia.
      apply Z.mul_lt_mono_pos_l in Hx; lia. }
    rewrite to_limb_id by done. apply returns_set; [vecs|]. apply returns_ret. split_and!; [|..].
    + eapply (touches_trans _ _ m4); [touched|]. eapply touches_upd; [wf_mem|done|vecs|vecs].
    + rewrite num_upd_at by vecs. lia.
    + symmetry. apply Z.ltb_ge. lia.
  - pose proof (wf_cell m2 (tmp + k) (modifies_wf _ _ _ _ M2)) as Hc. unfold is_limb in Hc.
    assert (cell m2 (tmp + k) = 0) as Ez.
    { destruct (decide (cell m2 (tmp + k) = 0)); [done|].
      assert (base ^ k <= base ^ k * cell m2 (tmp + k)) by (apply Z.le_mul_diag_r; lia). lia. }
    rewrite Ez in Es. eapply returns_bind.
    { apply (sub_n_residue m2 s a1 tmp k A1 (num m2 tmp k)); [wf_mem|vecs..|by apply residue_num; try wf_mem; lia
        |apply residue_num; [wf_mem|lia|done]]. }
    intros m3 [M3 E3]. apply residue_exact in E3; [|lia]. apply returns_set; [vecs|]. apply returns_ret. split_and!.
    + eapply (touches_trans _ _ m3); [touched|]. eapply touches_upd; [wf_mem|apply is_limb_0|vecs|vecs].
    + rewrite num_upd_at by vecs. lia.
    + symmetry. apply Z.ltb_lt. lia.
Qed.
End toom3_points.
End evaluation.

(** ** Interpolation *)

Section assembly.
Context `{LimbWidth}.

(** The low limbs of a vector that holds a small value. *)
Lemma num_low m p i n v : wf m -> 0 <= i <= n -> num m p n = v -> v < base ^ i -> num m p i = v.
Proof.
  intros Hw Hi E Hv. rewrite (num_split_at m p i n Hi) in E. pose proof (num_range m p i Hw ltac:(lia)).
  pose proof (num_range m (p + i) (n - i) Hw ltac:(lia)). apply (no_carry _ _ _ _ E); lia.
Qed.

Lemma add_part_spec m rp rn off w wn t c : wf m -> valid m rp rn -> valid m w wn -> disjoint w wn rp rn ->
  0 <= off <= rn -> num m rp rn = t -> num m w wn = c -> t + base ^ off * c < base ^ rn ->
  returns (add_part m rp rn off w wn) (fun m' => modifies rp rn m m' /\ num m' rp rn = t + base ^ off * c).
Proof.
  intros Hw Hr Hv D Ho Et Ec Hlt. unfold add_part.
  destruct (normalize_spec m w wn Hv) as (j & -> & Hj & Hnorm & Ej). cbn [mbind option_bind]. rewrite Ec in Ej.
  pose proof (base_pow_pos off ltac:(lia)) as HP. rewrite (base_split off rn) in Hlt by lia.
  pose proof (num_range m rp rn Hw ltac:(lia)) as Rt. rewrite Et in Rt.
  assert (c < base ^ (rn - off)) as Hc by (apply (Z.mul_lt_mono_pos_l (base ^ off)); lia).
  assert (j <= rn - off) as Hjle.
  { destruct (decide (j = 0)); [lia|]. pose proof (normalized_range m w j Hw ltac:(lia) Hnorm) as Hn.
    rewrite Ej in Hn. assert (j - 1 < rn - off); [|lia].
    apply (Z.pow_lt_mono_r_iff base); [pose proof base_ge; lia|lia|lia]. }
  eapply returns_bind; [apply add_var_spec; [done|vecs..]|]. intros [m1 cy] (M1 & Hcy & V1).
  rewrite Ej in V1. apply returns_ret. split; [touched|].
  rewrite (num_split_at m rp off rn) in Et by lia. rewrite (num_split_at m1 rp off rn) by lia.
  rewrite (modifies_num _ _ _ _ rp off M1) by vecs.
  pose proof (num_range m1 (rp + off) (rn - off) (modifies_wf _ _ _ _ M1) ltac:(lia)).
  pose proof (num_range m rp off Hw ltac:(lia)).
  apply (add_at_weight _ _ _ _ _ _ _ _ Et V1); lia.
Qed.
End assembly.

(** Applies [add_part_spec] to the vector [w] with value [c]. *)
Tactic Notation "put_part" constr(V) constr(off) constr(w) constr(wn) constr(c) :=
  lazymatch type of V with
  | num ?m ?rp ?rn = ?t =>
      apply (add_part_spec m rp rn off w wn t c);
      [wf_mem|vecs|vecs|vecs|idx|exact V|try (pull_goal; assumption)|]
  end.

(** zero(rp, rn); copyi(rp, w, k) *)
Lemma zero_then_copy `{LimbWidth} {R} m rp rn w k (K : mem -> option R) Q : wf m -> valid m rp rn -> valid m w k -> k <= rn ->
  disjoint rp rn w k ->
  (forall m', modifies rp rn m m' -> num m' rp rn = num m w k -> returns (K m') Q) ->
  returns (m ← zero m rp rn; m ← copyi m rp w k; K m) Q.
Proof.
  intros Hw Hr Hv Hk D HK. eapply returns_bind; [apply zero_spec; [done|vecs]|]. intros m1 [M1 V1].
  eapply returns_bind; [apply copyi_spec; [wf_mem|vecs..]|]. intros m2 [M2 V2]. pull_in V2. apply HK; [touched|].
  rewrite (num_split_at m1 rp k) in V1 by vecs. rewrite (num_split_at m2 rp k) by vecs. rewrite V2.
  rewrite (modifies_num _ _ _ _ (rp + k) (rn - k) M2) by vecs.
  pose proof (num_range m1 rp k (modifies_wf _ _ _ _ M1) ltac:(vecs)).
  pose proof (num_range m1 (rp + k) (rn - k) (modifies_wf _ _ _ _ M1) ltac:(vecs)).
  pose proof (base_pow_pos k ltac:(vecs)).
  assert (num m1 (rp + k) (rn - k) = 0) as -> by nia. lia.
Qed.

Section five_points.
Context `{LimbWidth}.
Context (m : mem) (w0 kk : Z) (c0 c1 c2 c3 c4 : Z).
Abbreviation w1 := (w0 + kk).
Abbreviation wm1 := (w0 + kk + kk).
Abbreviation w2 := (w0 + kk + kk + kk).
Abbreviation winf := (w0 + kk + kk + kk + kk).
Context (Hw : wf m) (Hkk : 1 <= kk) (Vw : valid m w0 (5 * kk)).
Context (Hc : 0 <= c0 /\ 0 <= c1 /\ 0 <= c2 /\ 0 <= c3 /\ 0 <= c4).
Context (Hsmall : 64 * (c0 + c1 + c2 + c3 + c4) < base ^ kk).

Lemma toom_solve_5pts_spec (sm : bool) :
  residue m w0 kk c0 -> residue m w1 kk (c0 + c1 + c2 + c3 + c4) ->
  residue m wm1 kk (if sm then - (c0 - c1 + c2 - c3 + c4) else c0 - c1 + c2 - c3 + c4) ->
  residue m w2 kk (c0 + 2 * c1 + 4 * c2 + 8 * c3 + 16 * c4) -> residue m winf kk c4 ->
  returns (toom_solve_5pts m w0 w1 wm1 w2 winf kk sm) (fun m' =>
    touches (vec w0 (5 * kk)) m m' /\ residue m' w0 kk c0 /\ residue m' wm1 kk c1 /\
    residue m' w1 kk c2 /\ residue m' w2 kk c3 /\ residue m' winf kk c4).
Proof.
  intros R0 R1 Rm R2 Ri. unfold toom_solve_5pts. pose proof limb_bits_pos as HW.
  assert (touches (vec w0 (5 * kk)) m m) as T by by apply touches_refl.
  run signed_sub_residue. value w2 is (3 * (c1 + c2 + 3 * c3 + 5 * c4)).
  run divexact_by3_residue.
  run signed_sub_residue. value wm1 is ((c1 + c3) * 2 ^ 1).
  run rshift_residue.
  run sub_n_residue. value w1 is (c1 + c2 + c3 + c4).
  run sub_n_residue. value w2 is ((c3 + 2 * c4) * 2 ^ 1).
  run rshift_residue. run sub_n_residue. run sub_n_residue. value w2 is c3.
  run sub_n_residue. run sub_n_residue. value w1 is c2.
  eapply returns_mono; [eapply sub_n_residue; first [eassumption|wf_mem|vecs]|]. intros m' [M' R']. advance M'.
  value wm1 is c1. by split_and!.
Qed.
End five_points.

(** The coefficients, added at strides of [k] limbs. *)
Section assemble_5pts.
Context `{LimbWidth}.
Context (m : mem) (rp w0 k n t : Z) (c0 c1 c2 c3 c4 : Z).
Abbreviation kk := (2 * k + 2).
Abbreviation total := (c0 + base ^ k * c1 + base ^ (2 * k) * c2 + base ^ (3 * k) * c3 + base ^ (4 * k) * c4).
Context (Hw : wf m) (Ht : 1 <= t <= k) (Hn : n = 2 * k + t).
Context (Vw : valid m w0 (5 * kk)) (Vr : valid m rp (2 * n)) (D : disjoint rp (2 * n) w0 (5 * kk)).
Context (Hc : 0 <= c0 /\ 0 <= c1 /\ 0 <= c2 /\ 0 <= c3 /\ 0 <= c4).
Context (Hsmall : 64 * (c0 + c1 + c2 + c3 + c4) < base ^ kk).
Context (H0 : c0 < base ^ (2 * k)) (H4 : c4 < base ^ (2 * t)) (Hsum : total < base ^ (2 * n)).

Lemma toom_interpolate_5pts_spec (sm : bool) :
  residue m w0 kk c0 -> residue m (w0 + kk) kk (c0 + c1 + c2 + c3 + c4) ->
  residue m (w0 + kk + kk) kk (if sm then - (c0 - c1 + c2 - c3 + c4) else c0 - c1 + c2 - c3 + c4) ->
  residue m (w0 + kk + kk + kk) kk (c0 + 2 * c1 + 4 * c2 + 8 * c3 + 16 * c4) ->
  residue m (w0 + kk + kk + kk + kk) kk c4 ->
  returns (toom_interpolate_5pts m rp w0 (w0 + kk) (w0 + kk + kk) (w0 + kk + kk + kk) (w0 + kk + kk + kk + kk)
      k n t kk sm) (fun m' =>
    touches (fun c => vec rp (2 * n) c \/ vec w0 (5 * kk) c) m m' /\ num m' rp (2 * n) = total).
Proof.
  intros R0 R1 Rm R2 Ri. unfold toom_interpolate_5pts. cbv zeta.
  eapply returns_bind; [apply (toom_solve_5pts_spec m w0 kk c0 c1 c2 c3 c4); [done|idx|done..]|].
  clear R0 R1 Rm R2 Ri. intros m1 (T1 & R0 & Rm & R1 & R2 & Ri).
  apply residue_exact in R0, R1, R2, Rm, Ri; [|clear - Hc Hsmall; lia..]. pose proof (touches_wf _ _ _ T1) as Hw1.
  assert (forall j c, 0 <= j -> 0 <= c -> 0 <= base ^ j * c) as Hpos.
  { intros j c Hj Hc'. pose proof (base_pow_pos j Hj). apply Z.mul_nonneg_nonneg; lia. }
  pose proof (Hpos k c1 ltac:(idx) ltac:(idx)) as P1. pose proof (Hpos (2 * k) c2 ltac:(idx) ltac:(idx)) as P2.
  pose proof (Hpos (3 * k) c3 ltac:(idx) ltac:(idx)) as P3. pose proof (Hpos (4 * k) c4 ltac:(idx) ltac:(idx)) as P4.
  clear Hpos.
  apply (zero_then_copy m1 rp (2 * n) w0 (2 * k)); [done|vecs|vecs|idx|vecs|]. intros m3 M3 V3. rewrite (num_low m1 w0 (2 * k) kk c0 Hw1 ltac:(idx) R0 H0) in V3.
  eapply returns_bind; [put_part V3 k (w0 + kk + kk) kk c1; clear - Hsum P2 P3 P4; lia|]. intros m4 [M4 V4].
  eapply returns_bind; [put_part V4 (2 * k) (w0 + kk) kk c2; clear - Hsum P3 P4; lia|]. intros m5 [M5 V5].
  eapply returns_bind; [put_part V5 (3 * k) (w0 + kk + kk + kk) kk c3; clear - Hsum P4; lia|]. intros m6 [M6 V6].
  eapply returns_mono; [put_part V6 (4 * k) (w0 + kk + kk + kk + kk) (2 * t) c4; [|exact Hsum]|].
  { pull_goal. apply (num_low _ _ _ kk); [done|idx|done|done]. }
  intros m7 [M7 V7]. split; [touched|exact V7].
Qed.
End assemble_5pts.

(** ** Products *)

Lemma abs_product x y :
  Z.abs x * Z.abs y = if xorb (Z.ltb x 0) (Z.ltb y 0) then - (x * y) else x * y.
Proof. destruct (Z.ltb_spec x 0), (Z.ltb_spec y 0); cbn [xorb]; nia. Qed.

(** A vector whose upper limbs are cleared. *)
Lemma num_zero_above `{LimbWidth} m p i n : 0 <= i <= n -> num m (p + i) (n - i) = 0 -> num m p n = num m p i.
Proof. intros Hi E. rewrite (num_split_at m p i n Hi), E. lia. Qed.

Lemma thirds n : toom3_split_ok n = true -> let k := (n + 2) / 3 in
  3 <= n /\ 1 <= n - 2 * k <= k /\ k + 1 < n.
Proof.
  intros Hs. apply andb_prop in Hs as [H1%Z.leb_le H2%Z.ltb_lt]. cbv zeta.
  pose proof (Z.div_mod (n + 2) 3). pose proof (Z.mod_pos_bound (n + 2) 3). lia.
Qed.

Section three_parts.
Context `{LimbWidth}.
Context (k t n : Z) (Ht : 1 <= t <= k) (Hn : n = 2 * k + t).
Abbreviation kk := (2 * k + 2).

(** The value of an operand of three parts. *)
Definition join3 (a0 a1 a2 : Z) : Z := a0 + base ^ k * a1 + base ^ (2 * k) * a2.

Lemma num_thirds m p : num m p n = join3 (num m p k) (num m (p + k) k) (num m (p + 2 * k) t).
Proof.
  subst n. rewrite num_split by lia. replace (2 * k) with (k + k) at 1 by lia. rewrite num_split by lia.
  unfold join3. done.
Qed.

Section finish.
Context (m : mem) (rp w0 : Z) (a0 a1 a2 b0 b1 b2 : Z).
Context (Ra : 0 <= a0 < base ^ k /\ 0 <= a1 < base ^ k /\ 0 <= a2 < base ^ t).
Context (Rb : 0 <= b0 < base ^ k /\ 0 <= b1 < base ^ k /\ 0 <= b2 < base ^ t).

(** Coefficients of products of parts are small. *)
Lemma thirds_small :
  64 * (a0 * b0 + (a0 * b1 + a1 * b0) + (a0 * b2 + a1 * b1 + a2 * b0) + (a1 * b2 + a2 * b1) + a2 * b2) < base ^ kk.
Proof.
  set (P := base ^ k) in *. pose proof (base_pow_pos k ltac:(lia)) as HP. fold P in HP.
  assert (base ^ t <= P) by (apply Z.pow_le_mono_r; [apply base_pos|lia]).
  assert (base ^ kk = base * base * (P * P)) as ->.
  { replace kk with (1 + 1 + (k + k)) by lia. rewrite !Z.pow_add_r, !Z.pow_1_r by lia. done. }
  assert (forall x y, 0 <= x < P -> 0 <= y < P -> 0 <= x * y <= P * P) as Hxy by (intros; nia).
  assert ((0 <= a0 * b0 <= P * P /\ 0 <= a0 * b1 <= P * P /\ 0 <= a1 * b0 <= P * P) /\
    (0 <= a0 * b2 <= P * P /\ 0 <= a1 * b1 <= P * P /\ 0 <= a2 * b0 <= P * P) /\
    (0 <= a1 * b2 <= P * P /\ 0 <= a2 * b1 <= P * P /\ 0 <= a2 * b2 <= P * P)) as Hp
    by (split_and!; apply Hxy; lia).
  assert (577 * (P * P) <= base * base * (P * P)) as Hb by (apply Z.mul_le_mono_nonneg_r; pose proof base_ge; nia).
  assert (0 < P * P) as HPP by nia. clear - Hp Hb HPP. lia.
Qed.

Context (Hw : wf m) (Vw : valid m w0 (5 * kk)) (Vr : valid m rp (2 * n)) (D : disjoint rp (2 * n) w0 (5 * kk)).

Lemma toom3_finish (sm : bool) : join3 a0 a1 a2 * join3 b0 b1 b2 < base ^ (2 * n) ->
  num m w0 kk = a0 * b0 -> num m (w0 + kk) kk = (a0 + a1 + a2) * (b0 + b1 + b2) ->
  num m (w0 + kk + kk) kk = (if sm then - ((a0 - a1 + a2) * (b0 - b1 + b2)) else (a0 - a1 + a2) * (b0 - b1 + b2)) ->
  num m (w0 + kk + kk + kk) kk = (a0 + 2 * a1 + 4 * a2) * (b0 + 2 * b1 + 4 * b2) ->
  num m (w0 + kk + kk + kk + kk) kk = a2 * b2 ->
  returns (toom_interpolate_5pts m rp w0 (w0 + kk) (w0 + kk + kk) (w0 + kk + kk + kk) (w0 + kk + kk + kk + kk)
      k n t kk sm) (fun m' =>
    touches (fun c => vec rp (2 * n) c \/ vec w0 (5 * kk) c) m m' /\
    num m' rp (2 * n) = join3 a0 a1 a2 * join3 b0 b1 b2).
Proof.
  intros Hlt E0 E1 Em E2 Ei. pose proof thirds_small as Hs.
  assert (join3 a0 a1 a2 * join3 b0 b1 b2 =
    a0 * b0 + base ^ k * (a0 * b1 + a1 * b0) + base ^ (2 * k) * (a0 * b2 + a1 * b1 + a2 * b0) +
    base ^ (3 * k) * (a1 * b2 + a2 * b1) + base ^ (4 * k) * (a2 * b2)) as Ej.
  { unfold join3. replace (4 * k) with (k + k + k + k) by idx. replace (3 * k) with (k + k + k) by idx.
    replace (2 * k) with (k + k) by idx. rewrite !Z.pow_add_r by idx. ring. }
  rewrite Ej in *. clear Ej. apply toom_interpolate_5pts_spec; try done.
  - clear - Ra Rb. destruct Ra as (? & ? & ?), Rb as (? & ? & ?). split_and!; repeat apply Z.add_nonneg_nonneg;
      apply Z.mul_nonneg_nonneg; lia.
  - clear - Ra Rb Ht. replace (2 * k) with (k + k) by lia. rewrite Z.pow_add_r by lia. apply Z.mul_lt_mono_nonneg; lia.
  - clear - Ra Rb Ht. replace (2 * t) with (t + t) by lia. rewrite Z.pow_add_r by lia. apply Z.mul_lt_mono_nonneg; lia.
  - apply residue_num; [done|idx|done].
  - apply residue_num; [done|idx|]. rewrite E1. ring.
  - apply residue_num; [done|idx|]. rewrite Em. destruct sm; ring.
  - apply residue_num; [done|idx|]. rewrite E2. ring.
  - apply residue_num; [done|idx|done].
Qed.
End finish.
End three_parts.

(** Names the value of a part of an operand, with its range. *)
Tactic Notation "name_part" constr(m) constr(p) constr(n) "as" ident(x) ident(E) ident(R) :=
  assert (exists x, num m p n = x) as [x E] by (by eexists);
  assert (0 <= x < base ^ n) as R by (rewrite <- E; apply num_range; [wf_mem|lia]).

(** One recursive product into [W], with [it] limbs of scratch; one clearing. *)
Tactic Notation "product" constr(Hrec) constr(it') ident(m) "as" ident(m') ident(W) :=
  let M := fresh "M" in
  eapply returns_bind; [eapply (Hrec m) with (it := it'); [idx|idx|constructor; [wf_mem|vecs..|lens]]|];
  intros m' [M W]; subst_values m W; carry M.

Tactic Notation "clearing" "as" ident(m') ident(W) :=
  let M := fresh "M" in
  eapply returns_bind; [apply zero_spec; [wf_mem|vecs]|]; intros m' [M W]; carry M.

(** One evaluation by [lem]. *)
Tactic Notation "evaluate" uconstr(lem) "from" ident(m) "as" ident(m') ident(V) :=
  let M := fresh "M" in
  eapply returns_bind; [apply lem; first [wf_mem|vecs|split; vecs]|]; intros m' [M V]; subst_values m V; carry M.

Section toom3_level.
Context `{LimbWidth}.
Context (rec_ : mem -> Z -> Z -> Z -> Z -> Z -> Z -> Z -> option mem) (cutoff lim : Z) (need3 : Z -> Z).

Definition balanced_ok : Prop := forall m rp ap bp n sc it, n < lim -> need3 n <= it ->
  mul_pre m rp ap n bp n sc it -> returns (rec_ m rp ap n bp n sc cutoff) (mul_post m rp ap n bp n sc it).

Context (Hrec : balanced_ok) (Hneed : forall a b, 0 <= a <= b -> 0 <= need3 a <= need3 b).

Lemma mul_toom3_spec m rp ap bp n sc it : toom3_split_ok n = true -> n <= lim ->
  6 * ((n + 2) / 3 + 1) + 5 * (2 * ((n + 2) / 3) + 2) + need3 ((n + 2) / 3 + 1) <= it ->
  mul_pre m rp ap n bp n sc it ->
  returns (mul_toom3 rec_ m rp ap bp n sc cutoff) (mul_post m rp ap n bp n sc it).
Proof.
  intros Hs Hlim Hit [Hw Hr Ha Hb Hsc Dar Dbr Das Dbs Drs _ Hbase].
  unfold mul_toom3, mul_post. pose proof (thirds n Hs) as Hk. cbv zeta in Hk |- *.
  pose proof (product_bound m ap n bp n Hw ltac:(lia) ltac:(lia)) as Hprod.
  revert Hk Hit. generalize ((n + 2) / 3) as k. intros k (Hn3 & Ht & Hk) Hit.
  remember (n - 2 * k) as t eqn:Et. assert (n = 2 * k + t) as En by lia. clear Et Hs.
  pose proof (Hneed k (k + 1) ltac:(lia)) as Hn1. pose proof (Hneed t (k + 1) ltac:(lia)) as Hn2.
  remember (it - (16 * (k + 1))) as it' eqn:Eit. assert (need3 (k + 1) <= it') as Hit' by lia.
  name_part m ap k as a0 A0 RA0. name_part m (ap + k) k as a1 A1 RA1. name_part m (ap + 2 * k) t as a2 A2 RA2.
  name_part m bp k as b0 B0 RB0. name_part m (bp + k) k as b1 B1 RB1. name_part m (bp + 2 * k) t as b2 B2 RB2.
  assert (num m ap n * num m bp n = join3 k a0 a1 a2 * join3 k b0 b1 b2) as Ej
    by (rewrite !(num_thirds k t n) by lia; by rewrite A0, A1, A2, B0, B1, B2).
  rewrite Ej in Hprod. replace (n + n) with (2 * n) in Hprod by lia.
  assert (touches (fun c => vec rp (n + n) c \/ vec sc it c) m m) as T by by apply touches_refl.
  evaluate (toom3_eval1_spec ap (ap + k) (ap + 2 * k) k t) from m as m1 V1.
  evaluate (toom3_eval1_spec bp (bp + k) (bp + 2 * k) k t) from m1 as m2 V2.
  evaluate (toom3_eval2_spec ap (ap + k) (ap + 2 * k) k t) from m2 as m3 V3.
  evaluate (toom3_eval2_spec bp (bp + k) (bp + 2 * k) k t) from m3 as m4 V4.
  eapply returns_bind; [apply (toom3_evalm1_spec ap (ap + k) (ap + 2 * k) k t); [idx|wf_mem|vecs..]|].
  intros [m5 sa] (M5 & V5 & Hsa). subst_values m4 V5. subst_values m4 Hsa. carry M5.
  eapply returns_bind; [apply (toom3_evalm1_spec bp (bp + k) (bp + 2 * k) k t); [idx|wf_mem|vecs..]|].
  intros [m6 sb] (M6 & V6 & Hsb). subst_values m5 V6. subst_values m5 Hsb. carry M6.
  product Hrec it' m6 as m7 W1. clear V1 V2.
  product Hrec it' m7 as m8 Wm. clear V5 V6.
  product Hrec it' m8 as m9 W2. clear V3 V4.
  product Hrec it' m9 as m10 W0.
  clearing as m11 Z0.
  product Hrec it' m11 as m12 Wi.
  clearing as m13 Zi.
  replace (k + k) with (2 * k) in W0 by idx. replace (t + t) with (2 * t) in Wi by idx.
  replace (k + 1 + (k + 1)) with (2 * k + 2) in W1, W2, Wm by idx.
  rewrite <- (num_zero_above m13 _ (2 * k) (2 * k + 2) ltac:(idx) Z0) in W0.
  rewrite <- (num_zero_above m13 _ (2 * t) (2 * k + 2) ltac:(idx) Zi) in Wi.
  rewrite abs_product in Wm. subst sa sb.
  eapply returns_mono.
  - apply (toom3_finish k t n ltac:(idx) En m13 rp _ a0 a1 a2 b0 b1 b2);
      [done|done|wf_mem|vecs|vecs|vecs|apply Hprod|exact W0|exact W1|exact Wm|exact W2|exact Wi].
  - intros m14 [M14 V14]. split; [|replace (n + n) with (2 * n) by idx; by rewrite Ej].
    apply (touches_trans _ _ m13 _ T). eapply touches_mono; [exact M14|vecs].
Qed.
End toom3_level.

Section toom3_square.
Context `{LimbWidth}.
Context (rec_ : mem -> Z -> Z -> Z -> Z -> Z -> option mem) (cutoff lim : Z) (need3 : Z -> Z).

Definition square_ok : Prop := forall m rp ap n sc it, n < lim -> need3 n <= it ->
  sqr_pre m rp ap n sc it -> returns (rec_ m rp ap n sc cutoff) (sqr_post m rp ap n sc it).

Context (Hrec : square_ok) (Hneed : forall a b, 0 <= a <= b -> 0 <= need3 a <= need3 b).

Lemma sqr_toom3_spec m rp ap n sc it : toom3_split_ok n = true -> n <= lim ->
  3 * ((n + 2) / 3 + 1) + 5 * (2 * ((n + 2) / 3) + 2) + need3 ((n + 2) / 3 + 1) <= it ->
  sqr_pre m rp ap n sc it ->
  returns (sqr_toom3 rec_ m rp ap n sc cutoff) (sqr_post m rp ap n sc it).
Proof.
  intros Hs Hlim Hit [Hw Hr Ha Hsc Dar Das Drs Hbase].
  unfold sqr_toom3, sqr_post. pose proof (thirds n Hs) as Hk. cbv zeta in Hk |- *.
  pose proof (product_bound m ap n ap n Hw ltac:(lia) ltac:(lia)) as Hprod.
  revert Hk Hit. generalize ((n + 2) / 3) as k. intros k (Hn3 & Ht & Hk) Hit.
  remember (n - 2 * k) as t eqn:Et. assert (n = 2 * k + t) as En by lia. clear Et Hs.
  pose proof (Hneed k (k + 1) ltac:(lia)) as Hn1. pose proof (Hneed t (k + 1) ltac:(lia)) as Hn2.
  remember (it - (13 * (k + 1))) as it' eqn:Eit. assert (need3 (k + 1) <= it') as Hit' by lia.
  name_part m ap k as a0 A0 RA0. name_part m (ap + k) k as a1 A1 RA1. name_part m (ap + 2 * k) t as a2 A2 RA2.
  assert (num m ap n * num m ap n = join3 k a0 a1 a2 * join3 k a0 a1 a2) as Ej
    by (rewrite !(num_thirds k t n) by lia; by rewrite A0, A1, A2).
  rewrite Ej in Hprod. replace (n + n) with (2 * n) in Hprod by lia.
  assert (touches (fun c => vec rp (2 * n) c \/ vec sc it c) m m) as T by by apply touches_refl.
  evaluate (toom3_eval1_spec ap (ap + k) (ap + 2 * k) k t) from m as m1 V1.
  evaluate (toom3_eval2_spec ap (ap + k) (ap + 2 * k) k t) from m1 as m3 V3.
  eapply returns_bind; [apply (toom3_evalm1_spec ap (ap + k) (ap + 2 * k) k t); [idx|wf_mem|vecs..]|].
  intros [m5 sa] (M5 & V5 & Hsa). subst_values m3 V5. carry M5. clear Hsa sa.
  product Hrec it' m5 as m7 W1. clear V1.
  product Hrec it' m7 as m8 Wm. clear V5.
  product Hrec it' m8 as m9 W2. clear V3.
  product Hrec it' m9 as m10 W0.
  clearing as m11 Z0.
  product Hrec it' m11 as m12 Wi.
  clearing as m13 Zi.
  replace (2 * (k + 1)) with (2 * k + 2) in W1, W2, Wm by idx.
  rewrite <- (num_zero_above m13 _ (2 * k) (2 * k + 2) ltac:(idx) Z0) in W0.
  rewrite <- (num_zero_above m13 _ (2 * t) (2 * k + 2) ltac:(idx) Zi) in Wi.
  rewrite abs_product, Bool.xorb_nilpotent in Wm.
  eapply returns_mono.
  - apply (toom3_finish k t n ltac:(idx) En m13 rp _ a0 a1 a2 a0 a1 a2) with (sm := false);
      [done|done|wf_mem|vecs|vecs|vecs|apply Hprod|exact W0|exact W1|exact Wm|exact W2|exact Wi].
  - intros m14 [M14 V14]. split; [|by rewrite Ej].
    apply (touches_trans _ _ m13 _ T). eapply touches_mono; [exact M14|vecs].
Qed.
End toom3_square.

(** ** Closing the recursion *)

Section toom3_rec.
Context `{LimbWidth}.
Abbreviation need3 := (toom3_need threshold.mul_toom3 6 6).
Abbreviation sqr_need3 := (toom3_need threshold.sqr_toom3 3 5).

Lemma need3_mono a b : 0 <= a <= b -> 0 <= need3 a <= need3 b.
Proof. apply toom3_need_mono; [lia|lia|exact toom3_cost_mul]. Qed.

Lemma sqr_need3_mono a b : 0 <= a <= b -> 0 <= sqr_need3 a <= sqr_need3 b.
Proof. apply toom3_need_mono; [lia|lia|exact toom3_cost_sqr]. Qed.

Lemma need3_kara n : 0 <= n -> kara_cost 6 2 n <= need3 n.
Proof. apply toom3_need_kara; [lia|exact toom3_cost_mul]. Qed.

Lemma sqr_need3_kara n : 0 <= n -> kara_cost 5 2 n <= sqr_need3 n.
Proof. apply toom3_need_kara; [lia|exact toom3_cost_sqr]. Qed.

Lemma __mul_rec3_spec cutoff fuel : forall m rp ap bp n sc it, n <= Z.of_nat fuel -> need3 n <= it ->
  mul_pre m rp ap n bp n sc it ->
  returns (__mul_rec3 fuel m rp ap n bp n sc cutoff) (mul_post m rp ap n bp n sc it).
Proof.
  induction fuel as [|fuel IH]; intros m rp ap bp n sc it Hf Hit Hpre; pose proof (mp_bn _ _ _ _ _ _ _ _ Hpre); [lia|].
  cbn [__mul_rec3]. rewrite Z.eqb_refl. cbn [andb].
  destruct (Z.leb threshold.mul_toom3 n) eqn:E1; cbn [andb]; [destruct (toom3_split_ok n) eqn:E2|].
  - apply (mul_toom3_spec _ _ (Z.of_nat (S fuel)) need3); [|exact need3_mono|done|lia| |done].
    + intros m' rp' ap' bp' n' sc' it' Hf' Hit' Hpre'. apply IH; [lia|done|done].
    + pose proof (thirds n E2). cbv zeta in *. rewrite toom3_need_eq, E1, (proj2 (Z.leb_le 3 n)) in Hit by lia. exact Hit.
  - apply __mul_rec_spec; [unfold mul_rec_fuel; lia| |done]. rewrite need_balanced.
    pose proof (need3_kara n ltac:(lia)).
    pose proof (at_least_2_ge cutoff). pose proof (kara_cost_mono 6 (at_least_2 cutoff) 2 n n). lia.
  - apply __mul_rec_spec; [unfold mul_rec_fuel; lia| |done]. rewrite need_balanced.
    pose proof (need3_kara n ltac:(lia)).
    pose proof (at_least_2_ge cutoff). pose proof (kara_cost_mono 6 (at_least_2 cutoff) 2 n n). lia.
Qed.

Lemma __sqr_rec3_spec cutoff fuel : forall m rp ap n sc it, n <= Z.of_nat fuel -> sqr_need3 n <= it ->
  sqr_pre m rp ap n sc it ->
  returns (__sqr_rec3 fuel m rp ap n sc cutoff) (sqr_post m rp ap n sc it).
Proof.
  induction fuel as [|fuel IH]; intros m rp ap n sc it Hf Hit Hpre; pose proof (sp_n _ _ _ _ _ _ Hpre); [lia|].
  cbn [__sqr_rec3]. destruct (andb _ _) eqn:E.
  - apply andb_prop in E as [E1 E2].
    apply (sqr_toom3_spec _ _ (Z.of_nat (S fuel)) sqr_need3); [|exact sqr_need3_mono|done|lia| |done].
    + intros m' rp' ap' n' sc' it' Hf' Hit' Hpre'. apply IH; [lia|done|done].
    + pose proof (thirds n E2). cbv zeta in *. rewrite toom3_need_eq, E1, (proj2 (Z.leb_le 3 n)) in Hit by lia. exact Hit.
  - apply sqr_karatsuba_spec; [|done]. rewrite sqr_karatsuba_itch_cost.
    pose proof (sqr_need3_kara n ltac:(lia)).
    pose proof (at_least_2_ge cutoff). pose proof (kara_cost_mono 5 (at_least_2 cutoff) 2 n n). lia.
Qed.
End toom3_rec.
