(* ===== verification/MpnToom4Proof.v ===== *)
(** Correctness of Toom-Cook 4: evaluation, Bodrato's interpolation, products and
    squares. *)
From stdpp Require Import base numbers list option.
From Stdlib Require Import ZArith Lia.
From S2P Require Import Prelude Arrays Limb Mpn MpnValue MpnArith MpnBits MpnMul MpnMulProof MpnFrame Thresholds MpnKaratsuba MpnKaratsubaProof MpnToom3 MpnToom4 MpnToomScratch MpnResidue MpnToom3Proof.

Local Open Scope Z_scope.

(** ** Interpolation *)

Section seven_points.
Context `{LimbWidth}.
Context (m : mem) (w0 n : Z) (c0 c1 c2 c3 c4 c5 c6 : Z).
Abbreviation w1 := (w0 + n).
Abbreviation w2 := (w0 + n + n).
Abbreviation w3 := (w0 + n + n + n).
Abbreviation w4 := (w0 + n + n + n + n).
Abbreviation w5 := (w0 + n + n + n + n + n).
Abbreviation w6 := (w0 + n + n + n + n + n + n).
Abbreviation tp := (w0 + n + n + n + n + n + n + n).
Context (Hw : wf m) (Hn : 1 <= n) (Vw : valid m w0 (8 * n)).
Context (Hc : 0 <= c0 /\ 0 <= c1 /\ 0 <= c2 /\ 0 <= c3 /\ 0 <= c4 /\ 0 <= c5 /\ 0 <= c6).
Context (Hsmall : 1024 * (c0 + c1 + c2 + c3 + c4 + c5 + c6) < base ^ n).

(** The values at 1, -1, 2, -2 and 64 times the value at 1/2. *)
Abbreviation f1 := (c0 + c1 + c2 + c3 + c4 + c5 + c6).
Abbreviation fm1 := (c0 - c1 + c2 - c3 + c4 - c5 + c6).
Abbreviation f2 := (c0 + 2 * c1 + 4 * c2 + 8 * c3 + 16 * c4 + 32 * c5 + 64 * c6).
Abbreviation fm2 := (c0 - 2 * c1 + 4 * c2 - 8 * c3 + 16 * c4 - 32 * c5 + 64 * c6).
Abbreviation fh := (64 * c0 + 32 * c1 + 16 * c2 + 8 * c3 + 4 * c4 + 2 * c5 + c6).

Lemma toom_solve_7pts_spec (neg2 neg1 : bool) :
  0 <= (if neg2 then - fm2 else fm2) -> 0 <= (if neg1 then - fm1 else fm1) ->
  residue m w0 n c0 -> residue m w1 n (if neg2 then - fm2 else fm2) -> residue m w2 n f1 ->
  residue m w3 n (if neg1 then - fm1 else fm1) -> residue m w4 n f2 -> residue m w5 n fh -> residue m w6 n c6 ->
  returns (toom_solve_7pts m w0 w1 w2 w3 w4 w5 w6 tp n neg2 neg1) (fun m' =>
    touches (vec w0 (8 * n)) m m' /\ residue m' w0 n c0 /\ residue m' w1 n c1 /\ residue m' w2 n c2 /\
    residue m' w3 n c3 /\ residue m' w4 n c4 /\ residue m' w5 n c5 /\ residue m' w6 n c6).
Proof.
  intros S2 S1 R0 R1 R2 R3 R4 R5 R6. unfold toom_solve_7pts. pose proof limb_bits_pos as HW. pose proof base_ge as HB.
  assert (is_limb 65 /\ is_limb 45) as [L65 L45] by (unfold is_limb; lia).
  assert (touches (vec w0 (8 * n)) m m) as T by by apply touches_refl.
  run add_n_residue. value w5 is (65 * c0 + 34 * c1 + 20 * c2 + 16 * c3 + 20 * c4 + 34 * c5 + 65 * c6).
  eapply returns_bind.
  { apply (half_signed_residue neg2 _ w1 w4 n f2 fm2 (2 * c1 + 8 * c3 + 32 * c5));
      [wf_mem|vecs|vecs|lia|vecs|eassumption|eassumption|destruct neg2; lia|lia|lia|ring]. }
  intros ma [Ma Ra]. advance Ma.
  run sub_n_residue. run sub_n_residue. value w4 is ((c2 + 4 * c4 + 16 * c6) * 2 ^ 2). run rshift_residue.
  run lshift_residue. run sub_n_residue. value w4 is (c2 + 4 * c4).
  eapply returns_bind.
  { apply (half_signed_residue neg1 _ w3 w2 n f1 fm1 (c1 + c3 + c5));
      [wf_mem|vecs|vecs|lia|vecs|eassumption|eassumption|destruct neg1; lia|lia|lia|ring]. }
  intros mb [Mb Rb]. advance Mb.
  run sub_n_residue. value w2 is (c0 + c2 + c4 + c6).
  run submul_1_residue. value w5 is (34 * c1 + 16 * c3 + 34 * c5 - 45 * c2 - 45 * c4).
  run sub_n_residue. run sub_n_residue. value w2 is (c2 + c4).
  run addmul_1_residue. value w5 is ((17 * c1 + 8 * c3 + 17 * c5) * 2 ^ 1). run rshift_residue.
  run sub_n_residue. value w4 is (3 * c4). run divexact_by3_residue. run sub_n_residue. value w2 is c2.
  run sub_n_residue. value w1 is (15 * (c1 - c5)).
  run lshift_residue. run sub_n_residue. value w5 is (9 * (c1 + c5)).
  run divexact_by9_residue. run sub_n_residue. value w3 is c3.
  run divexact_by15_residue.
  apply (average_residue _ w1 w5 n c1 c5); [wf_mem|vecs|vecs|lia|vecs|eassumption|eassumption|lia|lia|lia|].
  intros mc Mc Rc. advance Mc.
  eapply returns_mono; [eapply sub_n_residue; first [eassumption|wf_mem|vecs]|]. intros md [Md Rd]. advance Md.
  value w5 is c5. by split_and!.
Qed.
End seven_points.

(** ** Evaluation *)

Section evaluation4.
Context `{LimbWidth}.

(** d = (x << cnt) + y, with the carries in the top limb *)
Lemma shift_add_spec {R} m d x y k cnt (K : mem -> option R) Q : wf m -> valid m d (k + 1) -> valid m x k -> valid m y k ->
  1 <= k -> 0 < cnt <= 2 -> bwd d x k -> disjoint y k d (k + 1) ->
  (forall m', modifies d (k + 1) m m' -> num m' d (k + 1) = num m x k * 2 ^ cnt + num m y k -> returns (K m') Q) ->
  returns ('(m, cy) ← lshift m d x k cnt; '(m, c) ← add_n m d d y k; m ← aset m (d + k) (to_limb (cy + c)); K m) Q.
Proof.
  intros Hw Hd Hx Hy Hk Hcnt F D HK. pose proof limb_bits_pos. pose proof base_ge.
  eapply returns_bind; [apply lshift_spec; [done|vecs|vecs|lia|lia|vecs]|]. intros [m1 cy] (M1 & Hcy & V1).
  eapply returns_bind; [apply add_n_spec; [wf_mem|vecs..]|]. intros [m2 c] (M2 & Hc & V2). pull_in V2.
  assert (2 ^ cnt <= 2 ^ 2) by (apply Z.pow_le_mono_r; lia).
  assert (is_limb (cy + c)) by (unfold is_limb; lia).
  rewrite to_limb_id by done. apply returns_set; [vecs|]. apply HK.
  - eapply (modifies_upd _ k); [eapply modifies_trans; [exact M1|exact M2]|vecs..|done].
  - rewrite num_upd_at by vecs. lia.
Qed.

(** lshift(p, p, k, 1) into the top limb *)
Lemma double_top_spec {R} m p k (K : mem -> option R) Q : wf m -> valid m p (k + 1) -> 1 <= k ->
  2 * num m p (k + 1) < base ^ (k + 1) ->
  (forall m', modifies p (k + 1) m m' -> num m' p (k + 1) = 2 * num m p (k + 1) -> returns (K m') Q) ->
  returns ('(m, cy) ← lshift m p p k 1; m ← shl1_top m p k cy; K m) Q.
Proof.
  intros Hw Hp Hk Hlt HK. pose proof limb_bits_pos as HW.
  eapply returns_bind; [apply lshift_spec; [done|vecs|vecs|lia|lia|vecs]|]. intros [m1 cy] (M1 & Hcy & V1).
  change (2 ^ 1) with 2 in *. unfold shl1_top.
  rewrite (modifies_out _ _ _ _ (p + k) M1), get_cell by vecs. cbn [mbind option_bind].
  unfold limb_shl. rewrite decide_True by lia. cbn [mbind option_bind]. rewrite Z.shiftl_mul_pow2 by lia.
  pose proof (wf_cell m (p + k) Hw) as Hx. unfold is_limb in Hx.
  rewrite num_succ, base_succ in Hlt by lia. pose proof (num_range m p k Hw ltac:(lia)).
  pose proof (base_pow_pos k ltac:(lia)).
  assert (cell m (p + k) * 2 < base) as Hx2 by (apply (Z.mul_lt_mono_pos_l (base ^ k)); lia).
  rewrite to_limb_id by (unfold is_limb; change (2 ^ 1) with 2; lia).
  rewrite lor_high_low by (change (2 ^ 1) with 2; lia). change (2 ^ 1) with 2.
  apply returns_set; [vecs|]. apply HK.
  - eapply modifies_upd; [exact M1|vecs..|]. destruct base_halves. unfold is_limb. lia.
  - rewrite num_upd_at, num_succ by vecs. lia.
Qed.

(** The last steps of an evaluation at a point and its opposite. *)
Lemma toom4_pm_spec m xp xm tp e : wf m -> valid m xp e -> valid m xm e -> valid m tp e ->
  disjoint xp e xm e -> disjoint xp e tp e -> disjoint xm e tp e ->
  num m xp e + num m tp e < base ^ e ->
  returns (toom4_pm m xp xm tp e) (fun '(m', neg) =>
    touches (fun c => vec xp e c \/ vec xm e c) m m' /\
    num m' xp e = num m xp e + num m tp e /\ num m' xm e = Z.abs (num m xp e - num m tp e) /\
    neg = Z.ltb (num m xp e - num m tp e) 0).
Proof.
  intros Hw Vp Vm Vt D1 D2 D3 Hlt. unfold toom4_pm. rewrite cmp_spec by (done || vecs). cbn [mbind option_bind].
  rewrite sign_ltb. assert (0 <= e) as He by apply Vp.
  pose proof (num_range m xp e Hw He). pose proof (num_range m tp e Hw He).
  set (x := num m xp e) in *. set (y := num m tp e) in *.
  apply (returns_bind _ _ (fun m1 => modifies xm e m m1 /\ num m1 xm e = Z.abs (x - y))).
  { destruct (Z.ltb_spec x y).
    - eapply returns_mono; [apply (sub_n_residue m xm tp xp e y x); [done|vecs..| |]; by apply residue_num|].
      intros m1 [M1 V1]. split; [done|]. rewrite (residue_exact _ _ _ _ V1); lia.
    - eapply returns_mono; [apply (sub_n_residue m xm xp tp e x y); [done|vecs..| |]; by apply residue_num|].
      intros m1 [M1 V1]. split; [done|]. rewrite (residue_exact _ _ _ _ V1); lia. }
  intros m1 [M1 V1].
  eapply returns_bind.
  { apply (add_n_residue m1 xp xp tp e x y); [wf_mem|vecs..| |]; apply residue_num; try wf_mem; try done; pull_goal; done. }
  intros m2 [M2 V2]. apply residue_exact in V2; [|lia]. apply returns_ret. split_and!.
  - touched.
  - done.
  - pull_goal. done.
  - destruct (Z.ltb_spec x y), (Z.ltb_spec (x - y) 0); done || lia.
Qed.

Section points4.
Context (x0 k s : Z) (Hk : 1 <= s <= k).
Context (m : mem) (Hw : wf m) (V0 : valid m x0 (3 * k + s)).
Abbreviation x1 := (x0 + k).
Abbreviation x2 := (x0 + 2 * k).
Abbreviation x3 := (x0 + 3 * k).
Abbreviation X0 := (num m x0 k).
Abbreviation X1 := (num m x1 k).
Abbreviation X2 := (num m x2 k).
Abbreviation X3 := (num m x3 s).

(** A vector of [k + 1] limbs away from the operand. *)
Definition apart (d : Z) : Prop := valid m d (k + 1) /\ disjoint x0 (3 * k + s) d (k + 1).

Lemma parts_range : (0 <= X0 < base ^ k /\ 0 <= X1 < base ^ k /\ 0 <= X2 < base ^ k /\ 0 <= X3 < base ^ k) /\
  2 ^ 32 * base ^ k <= base ^ (k + 1).
Proof. split; [do 3 (split; [apply part_range; done || lia|]); apply part_range; done || lia|apply room; lia]. Qed.

Lemma toom4_eval_pm1_spec xp xm tp : apart xp -> apart xm -> apart tp ->
  disjoint xp (k + 1) xm (k + 1) -> disjoint xp (k + 1) tp (k + 1) -> disjoint xm (k + 1) tp (k + 1) ->
  returns (toom4_eval_pm1 m xp xm tp x0 x1 x2 x3 k s) (fun '(m', neg) =>
    touches (fun c => vec xp (k + 1) c \/ vec xm (k + 1) c \/ vec tp (k + 1) c) m m' /\
    num m' xp (k + 1) = X0 + X1 + X2 + X3 /\ num m' xm (k + 1) = Z.abs (X0 - X1 + X2 - X3) /\
    neg = Z.ltb (X0 - X1 + X2 - X3) 0).
Proof.
  intros Ap Am At D1 D2 D3. destruct parts_range as [Rx HR]. unfold toom4_eval_pm1, apart in *.
  rewrite <- add_same_length. apply add_set_spec; [done|vecs|vecs|vecs|lia|vecs|vecs|]. intros m1 M1 E1.
  apply add_set_spec; [wf_mem|vecs|vecs|vecs|lia|vecs|vecs|]. intros m2 M2 E2. pull_in E2.
  assert (num m2 xp (k + 1) = X0 + X2) as E1' by (pull_goal; done).
  eapply returns_mono; [apply toom4_pm_spec; [wf_mem|vecs..|rewrite E1', E2; lia]|].
  intros [m3 neg] (M3 & P3 & N3 & ->). rewrite E1', E2 in *.
  split_and!; [touched|lia|rewrite N3; f_equal; lia|f_equal; lia].
Qed.

Lemma toom4_eval_pm2_spec xp xm tp : apart xp -> apart xm -> apart tp ->
  disjoint xp (k + 1) xm (k + 1) -> disjoint xp (k + 1) tp (k + 1) -> disjoint xm (k + 1) tp (k + 1) ->
  returns (toom4_eval_pm2 m xp xm tp x0 x1 x2 x3 k s) (fun '(m', neg) =>
    touches (fun c => vec xp (k + 1) c \/ vec xm (k + 1) c \/ vec tp (k + 1) c) m m' /\
    num m' xp (k + 1) = X0 + 2 * X1 + 4 * X2 + 8 * X3 /\ num m' xm (k + 1) = Z.abs (X0 - 2 * X1 + 4 * X2 - 8 * X3) /\
    neg = Z.ltb (X0 - 2 * X1 + 4 * X2 - 8 * X3) 0).
Proof.
  intros Ap Am At D1 D2 D3. destruct parts_range as [Rx HR]. unfold toom4_eval_pm2, apart in *.
  apply shift_add_spec; [done|vecs|vecs|vecs|lia|lia|vecs|vecs|]. intros m1 M1 E1.
  apply (zero_then_copy m1 tp (k + 1) x3 s); [wf_mem|vecs|vecs|lia|vecs|]. intros m2 M2 E2. pull_in E2.
  pose proof (num_low m2 tp k (k + 1) _ (modifies_wf _ _ _ _ M2) ltac:(lia) E2 ltac:(lia)) as E2'.
  apply shift_add_spec; [wf_mem|vecs|vecs|vecs|lia|lia|vecs|vecs|]. intros m3 M3 E3. rewrite E2' in E3. pull_in E3.
  apply double_top_spec; [wf_mem|vecs|lia|lia|]. intros m4 M4 E4. rewrite E3 in E4.
  assert (num m4 xp (k + 1) = X0 + 4 * X2) as E1' by (pull_goal; lia).
  eapply returns_mono; [apply toom4_pm_spec; [wf_mem|vecs..|rewrite E1', E4; lia]|].
  intros [m5 neg] (M5 & P5 & N5 & ->). rewrite E1', E4 in *.
  split_and!; [touched|lia|rewrite N5; f_equal; lia|f_equal; lia].
Qed.

Lemma toom4_eval_half_spec xh : apart xh ->
  returns (toom4_eval_half m xh x0 x1 x2 x3 k s) (fun m' => modifies xh (k + 1) m m' /\
    num m' xh (k + 1) = 8 * X0 + 4 * X1 + 2 * X2 + X3).
Proof.
  intros Ah. destruct parts_range as [Rx HR]. unfold toom4_eval_half, apart in *.
  apply shift_add_spec; [done|vecs|vecs|vecs|lia|lia|vecs|vecs|]. intros m1 M1 E1.
  apply double_top_spec; [wf_mem|vecs|lia|lia|]. intros m2 M2 E2. rewrite E1 in E2.
  rewrite <- add_same_length. apply add_into_spec; [wf_mem|vecs|vecs|lia|vecs|rewrite E2; pull_goal; lia|].
  intros m3 M3 E3. rewrite E2 in E3. pull_in E3.
  apply double_top_spec; [wf_mem|vecs|lia|lia|]. intros m4 M4 E4. rewrite E3 in E4.
  apply add_into_spec; [wf_mem|vecs|vecs|lia|vecs|rewrite E4; pull_goal; lia|].
  intros m5 M5 E5. rewrite E4 in E5. pull_in E5. apply returns_ret. split; [touched|lia].
Qed.
End points4.
End evaluation4.

(** ** Assembly *)

Lemma partial_sums x0 x1 x2 x3 x4 x5 x6 M :
  0 <= x2 -> 0 <= x3 -> 0 <= x4 -> 0 <= x5 -> 0 <= x6 -> x0 + x1 + x2 + x3 + x4 + x5 + x6 < M ->
  x0 + x1 < M /\ x0 + x1 + x2 < M /\ x0 + x1 + x2 + x3 < M /\ x0 + x1 + x2 + x3 + x4 < M /\
  x0 + x1 + x2 + x3 + x4 + x5 < M.
Proof. lia. Qed.

Section assemble_7pts.
Context `{LimbWidth}.
Context (m : mem) (rp w0 k n s : Z) (c0 c1 c2 c3 c4 c5 c6 : Z).
Abbreviation l := (2 * k + 2).
Abbreviation total := (c0 + base ^ k * c1 + base ^ (2 * k) * c2 + base ^ (3 * k) * c3 + base ^ (4 * k) * c4 +
  base ^ (5 * k) * c5 + base ^ (6 * k) * c6).
Abbreviation fm1 := (c0 - c1 + c2 - c3 + c4 - c5 + c6).
Abbreviation fm2 := (c0 - 2 * c1 + 4 * c2 - 8 * c3 + 16 * c4 - 32 * c5 + 64 * c6).
Context (Hw : wf m) (Hs : 1 <= s <= k) (Hn : n = 3 * k + s).
Context (Vw : valid m w0 (8 * l)) (Vr : valid m rp (2 * n)) (D : disjoint rp (2 * n) w0 (8 * l)).
Context (Hc : 0 <= c0 /\ 0 <= c1 /\ 0 <= c2 /\ 0 <= c3 /\ 0 <= c4 /\ 0 <= c5 /\ 0 <= c6).
Context (Hsmall : 1024 * (c0 + c1 + c2 + c3 + c4 + c5 + c6) < base ^ l).
Context (H0 : c0 < base ^ (2 * k)) (H6 : c6 < base ^ (2 * s)) (Hsum : total < base ^ (2 * n)).

Lemma toom_interpolate_7pts_spec (neg2 neg1 : bool) :
  0 <= (if neg2 then - fm2 else fm2) -> 0 <= (if neg1 then - fm1 else fm1) ->
  residue m w0 l c0 -> residue m (w0 + l) l (if neg2 then - fm2 else fm2) ->
  residue m (w0 + l + l) l (c0 + c1 + c2 + c3 + c4 + c5 + c6) ->
  residue m (w0 + l + l + l) l (if neg1 then - fm1 else fm1) ->
  residue m (w0 + l + l + l + l) l (c0 + 2 * c1 + 4 * c2 + 8 * c3 + 16 * c4 + 32 * c5 + 64 * c6) ->
  residue m (w0 + l + l + l + l + l) l (64 * c0 + 32 * c1 + 16 * c2 + 8 * c3 + 4 * c4 + 2 * c5 + c6) ->
  residue m (w0 + l + l + l + l + l + l) l c6 ->
  returns (toom_interpolate_7pts m rp w0 (w0 + l) (w0 + l + l) (w0 + l + l + l) (w0 + l + l + l + l)
      (w0 + l + l + l + l + l) (w0 + l + l + l + l + l + l) (w0 + l + l + l + l + l + l + l) k n s l neg2 neg1) (fun m' =>
    touches (fun c => vec rp (2 * n) c \/ vec w0 (8 * l) c) m m' /\ num m' rp (2 * n) = total).
Proof.
  intros S2 S1 R0 R1 R2 R3 R4 R5 R6. unfold toom_interpolate_7pts. cbv zeta.
  eapply returns_bind; [apply (toom_solve_7pts_spec m w0 l c0 c1 c2 c3 c4 c5 c6); [done|idx|done..]|].
  clear R0 R1 R2 R3 R4 R5 R6. intros m1 (T1 & R0 & R1 & R2 & R3 & R4 & R5 & R6).
  apply residue_exact in R0, R1, R2, R3, R4, R5, R6; [|clear - Hc Hsmall; lia..]. pose proof (touches_wf _ _ _ T1) as Hw1.
  assert (forall j c, 0 <= j -> 0 <= c -> 0 <= base ^ j * c) as Hpos.
  { intros j c Hj Hc'. pose proof (base_pow_pos j Hj). apply Z.mul_nonneg_nonneg; lia. }
  pose proof (Hpos (2 * k) c2 ltac:(idx) ltac:(idx)) as P2.
  pose proof (Hpos (3 * k) c3 ltac:(idx) ltac:(idx)) as P3. pose proof (Hpos (4 * k) c4 ltac:(idx) ltac:(idx)) as P4.
  pose proof (Hpos (5 * k) c5 ltac:(idx) ltac:(idx)) as P5. pose proof (Hpos (6 * k) c6 ltac:(idx) ltac:(idx)) as P6.
  clear Hpos. destruct (partial_sums _ _ _ _ _ _ _ _ P2 P3 P4 P5 P6 Hsum) as (Q1 & Q2 & Q3 & Q4 & Q5).
  apply (zero_then_copy m1 rp (2 * n) w0 (2 * k)); [done|vecs|vecs|idx|vecs|]. intros m2 M2 V2.
  rewrite (num_low m1 w0 (2 * k) l c0 Hw1 ltac:(idx) R0 H0) in V2.
  eapply returns_bind; [put_part V2 k (w0 + l) l c1; exact Q1|]. intros m3 [M3 V3].
  eapply returns_bind; [put_part V3 (2 * k) (w0 + l + l) l c2; exact Q2|]. intros m4 [M4 V4].
  eapply returns_bind; [put_part V4 (3 * k) (w0 + l + l + l) l c3; exact Q3|]. intros m5 [M5 V5].
  eapply returns_bind; [put_part V5 (4 * k) (w0 + l + l + l + l) l c4; exact Q4|]. intros m6 [M6 V6].
  eapply returns_bind; [put_part V6 (5 * k) (w0 + l + l + l + l + l) l c5; exact Q5|]. intros m7 [M7 V7].
  eapply returns_mono; [put_part V7 (6 * k) (w0 + l + l + l + l + l + l) (2 * s) c6; [|exact Hsum]|].
  { pull_goal. apply (num_low _ _ _ l); [done|idx|done|done]. }
  intros m8 [M8 V8]. split; [touched|exact V8].
Qed.
End assemble_7pts.

(** ** Products *)

Lemma quarters n : toom4_split_ok n = true -> let k := (n + 3) / 4 in
  4 <= n /\ 1 <= n - 3 * k <= k /\ k + 1 < n.
Proof.
  intros Hs. apply andb_prop in Hs as [H1%Z.leb_le H2%Z.ltb_lt]. cbv zeta.
  pose proof (Z.div_mod (n + 3) 4). pose proof (Z.mod_pos_bound (n + 3) 4). lia.
Qed.

Lemma abs_product_nonneg x y :
  0 <= if xorb (Z.ltb x 0) (Z.ltb y 0) then - (x * y) else x * y.
Proof. rewrite <- abs_product. nia. Qed.

Section four_parts.
Context `{LimbWidth}.
Context (k s n : Z) (Hs : 1 <= s <= k) (Hn : n = 3 * k + s).
Abbreviation l := (2 * k + 2).

Definition join4 (a0 a1 a2 a3 : Z) : Z := a0 + base ^ k * a1 + base ^ (2 * k) * a2 + base ^ (3 * k) * a3.

Lemma num_quarters m p :
  num m p n = join4 (num m p k) (num m (p + k) k) (num m (p + 2 * k) k) (num m (p + 3 * k) s).
Proof.
  subst n. rewrite num_split by lia. replace (3 * k) with (2 * k + k) at 1 by lia. rewrite num_split by lia.
  replace (2 * k) with (k + k) at 1 by lia. rewrite num_split by lia. unfold join4. done.
Qed.

Section finish4.
Context (m : mem) (rp w0 : Z) (a0 a1 a2 a3 b0 b1 b2 b3 : Z).
Context (Ra : 0 <= a0 < base ^ k /\ 0 <= a1 < base ^ k /\ 0 <= a2 < base ^ k /\ 0 <= a3 < base ^ s).
Context (Rb : 0 <= b0 < base ^ k /\ 0 <= b1 < base ^ k /\ 0 <= b2 < base ^ k /\ 0 <= b3 < base ^ s).
Abbreviation c0 := (a0 * b0).
Abbreviation c1 := (a0 * b1 + a1 * b0).
Abbreviation c2 := (a0 * b2 + a1 * b1 + a2 * b0).
Abbreviation c3 := (a0 * b3 + a1 * b2 + a2 * b1 + a3 * b0).
Abbreviation c4 := (a1 * b3 + a2 * b2 + a3 * b1).
Abbreviation c5 := (a2 * b3 + a3 * b2).
Abbreviation c6 := (a3 * b3).

Lemma quarters_small : 1024 * (c0 + c1 + c2 + c3 + c4 + c5 + c6) < base ^ l.
Proof.
  set (P := base ^ k) in *. pose proof (base_pow_pos k ltac:(lia)) as HP. fold P in HP.
  assert (base ^ s <= P) by (apply Z.pow_le_mono_r; [apply base_pos|lia]).
  assert (base ^ l = base * base * (P * P)) as ->.
  { replace l with (1 + 1 + (k + k)) by lia. rewrite !Z.pow_add_r, !Z.pow_1_r by lia. done. }
  replace (c0 + c1 + c2 + c3 + c4 + c5 + c6) with ((a0 + a1 + a2 + a3) * (b0 + b1 + b2 + b3)) by ring.
  assert ((a0 + a1 + a2 + a3) * (b0 + b1 + b2 + b3) <= (4 * P) * (4 * P)) by (apply Z.mul_le_mono_nonneg; lia).
  assert (20000 * (P * P) <= base * base * (P * P)) by (apply Z.mul_le_mono_nonneg_r; pose proof base_ge; nia).
  assert (0 < P * P) by nia. lia.
Qed.

Context (Hw : wf m) (Vw : valid m w0 (8 * l)) (Vr : valid m rp (2 * n)) (D : disjoint rp (2 * n) w0 (8 * l)).

Lemma toom4_finish (neg2 neg1 : bool) : join4 a0 a1 a2 a3 * join4 b0 b1 b2 b3 < base ^ (2 * n) ->
  let p1 := (a0 - a1 + a2 - a3) * (b0 - b1 + b2 - b3) in
  let p2 := (a0 - 2 * a1 + 4 * a2 - 8 * a3) * (b0 - 2 * b1 + 4 * b2 - 8 * b3) in
  0 <= (if neg2 then - p2 else p2) -> 0 <= (if neg1 then - p1 else p1) ->
  num m w0 l = a0 * b0 -> num m (w0 + l) l = (if neg2 then - p2 else p2) ->
  num m (w0 + l + l) l = (a0 + a1 + a2 + a3) * (b0 + b1 + b2 + b3) ->
  num m (w0 + l + l + l) l = (if neg1 then - p1 else p1) ->
  num m (w0 + l + l + l + l) l = (a0 + 2 * a1 + 4 * a2 + 8 * a3) * (b0 + 2 * b1 + 4 * b2 + 8 * b3) ->
  num m (w0 + l + l + l + l + l) l = (8 * a0 + 4 * a1 + 2 * a2 + a3) * (8 * b0 + 4 * b1 + 2 * b2 + b3) ->
  num m (w0 + l + l + l + l + l + l) l = a3 * b3 ->
  returns (toom_interpolate_7pts m rp w0 (w0 + l) (w0 + l + l) (w0 + l + l + l) (w0 + l + l + l + l)
      (w0 + l + l + l + l + l) (w0 + l + l + l + l + l + l) (w0 + l + l + l + l + l + l + l) k n s l neg2 neg1) (fun m' =>
    touches (fun c => vec rp (2 * n) c \/ vec w0 (8 * l) c) m m' /\
    num m' rp (2 * n) = join4 a0 a1 a2 a3 * join4 b0 b1 b2 b3).
Proof.
  intros Hlt p1 p2 S2 S1 E0 E1 E2 E3 E4 E5 E6. pose proof quarters_small as Hsm.
  assert (p1 = c0 - c1 + c2 - c3 + c4 - c5 + c6) as Q1 by (subst p1; ring).
  assert (p2 = c0 - 2 * c1 + 4 * c2 - 8 * c3 + 16 * c4 - 32 * c5 + 64 * c6) as Q2 by (subst p2; ring).
  rewrite Q1, Q2 in *. clear p1 p2 Q1 Q2.
  assert (join4 a0 a1 a2 a3 * join4 b0 b1 b2 b3 =
    c0 + base ^ k * c1 + base ^ (2 * k) * c2 + base ^ (3 * k) * c3 + base ^ (4 * k) * c4 +
    base ^ (5 * k) * c5 + base ^ (6 * k) * c6) as Ej.
  { unfold join4. replace (6 * k) with (k + k + k + k + k + k) by idx. replace (5 * k) with (k + k + k + k + k) by idx.
    replace (4 * k) with (k + k + k + k) by idx. replace (3 * k) with (k + k + k) by idx.
    replace (2 * k) with (k + k) by idx. rewrite !Z.pow_add_r by idx. ring. }
  rewrite Ej in *. clear Ej. apply toom_interpolate_7pts_spec; try done.
  - clear - Ra Rb. destruct Ra as (? & ? & ? & ?), Rb as (? & ? & ? & ?). split_and!; repeat apply Z.add_nonneg_nonneg;
      apply Z.mul_nonneg_nonneg; lia.
  - clear - Ra Rb Hs. replace (2 * k) with (k + k) by lia. rewrite Z.pow_add_r by lia. apply Z.mul_lt_mono_nonneg; lia.
  - clear - Ra Rb Hs. replace (2 * s) with (s + s) by lia. rewrite Z.pow_add_r by lia. apply Z.mul_lt_mono_nonneg; lia.
  - apply residue_num; [done|idx|done].
  - apply residue_num; [done|idx|done].
  - apply residue_num; [done|idx|]. rewrite E2. ring.
  - apply residue_num; [done|idx|done].
  - apply residue_num; [done|idx|]. rewrite E4. ring.
  - apply residue_num; [done|idx|]. rewrite E5. ring.
  - apply residue_num; [done|idx|done].
Qed.
End finish4.
End four_parts.

(** One evaluation at a point and its opposite. *)
Tactic Notation "evaluate_signed" uconstr(lem) "from" ident(m) "as" ident(m') ident(neg) ident(P) ident(N) ident(S) :=
  let M := fresh "M" in
  eapply returns_bind; [apply lem; first [wf_mem|vecs|split; vecs]|];
  intros [m' neg] (M & P & N & S); subst_values m P; subst_values m N; subst_values m S; carry M.

Section toom4_level.
Context `{LimbWidth}.
Context (rec_ : mem -> Z -> Z -> Z -> Z -> Z -> Z -> Z -> option mem) (cutoff lim : Z) (need4 : Z -> Z).
Context (Hrec : balanced_ok rec_ cutoff lim need4) (Hneed : forall a b, 0 <= a <= b -> 0 <= need4 a <= need4 b).

Lemma mul_toom4_spec m rp ap bp n sc it : toom4_split_ok n = true -> n <= lim ->
  11 * ((n + 3) / 4 + 1) + 8 * (2 * ((n + 3) / 4) + 2) + need4 ((n + 3) / 4 + 1) <= it ->
  mul_pre m rp ap n bp n sc it ->
  returns (mul_toom4 rec_ m rp ap bp n sc cutoff) (mul_post m rp ap n bp n sc it).
Proof.
  intros Hsp Hlim Hit [Hw Hr Ha Hb Hsc Dar Dbr Das Dbs Drs _ Hbase].
  unfold mul_toom4, mul_post. pose proof (quarters n Hsp) as Hk. cbv zeta in Hk |- *.
  pose proof (product_bound m ap n bp n Hw ltac:(lia) ltac:(lia)) as Hprod.
  revert Hk Hit. generalize ((n + 3) / 4) as k. intros k (Hn4 & Hs & Hk) Hit.
  remember (n - 3 * k) as s eqn:Es. assert (n = 3 * k + s) as En by lia. clear Es Hsp.
  pose proof (Hneed k (k + 1) ltac:(lia)) as Hn1. pose proof (Hneed s (k + 1) ltac:(lia)) as Hn2.
  remember (it - (27 * (k + 1))) as it' eqn:Eit. assert (need4 (k + 1) <= it') as Hit' by lia.
  name_part m ap k as a0 A0 RA0. name_part m (ap + k) k as a1 A1 RA1.
  name_part m (ap + 2 * k) k as a2 A2 RA2. name_part m (ap + 3 * k) s as a3 A3 RA3.
  name_part m bp k as b0 B0 RB0. name_part m (bp + k) k as b1 B1 RB1.
  name_part m (bp + 2 * k) k as b2 B2 RB2. name_part m (bp + 3 * k) s as b3 B3 RB3.
  assert (num m ap n * num m bp n = join4 k a0 a1 a2 a3 * join4 k b0 b1 b2 b3) as Ej
    by (rewrite !(num_quarters k s n) by lia; by rewrite A0, A1, A2, A3, B0, B1, B2, B3).
  rewrite Ej in Hprod. replace (n + n) with (2 * n) in Hprod by lia.
  assert (touches (fun c => vec rp (n + n) c \/ vec sc it c) m m) as T by by apply touches_refl.
  evaluate_signed (toom4_eval_pm1_spec ap k s) from m as m1 an1 PA NA SA.
  evaluate_signed (toom4_eval_pm1_spec bp k s) from m1 as m2 bn1 PB NB SB.
  evaluate_signed (toom4_eval_pm2_spec ap k s) from m2 as m3 an2 PA2 NA2 SA2.
  evaluate_signed (toom4_eval_pm2_spec bp k s) from m3 as m4 bn2 PB2 NB2 SB2.
  evaluate (toom4_eval_half_spec ap k s) from m4 as m5 HA.
  evaluate (toom4_eval_half_spec bp k s) from m5 as m6 HB.
  product Hrec it' m6 as m7 W2. clear PA PB.
  product Hrec it' m7 as m8 W3. clear NA NB.
  product Hrec it' m8 as m9 W4. clear PA2 PB2.
  product Hrec it' m9 as m10 W1. clear NA2 NB2.
  product Hrec it' m10 as m11 W5. clear HA HB.
  product Hrec it' m11 as m12 W0.
  clearing as m13 Z0.
  product Hrec it' m13 as m14 W6.
  clearing as m15 Z6.
  replace (k + k) with (2 * k) in W0 by idx. replace (s + s) with (2 * s) in W6 by idx.
  replace (k + 1 + (k + 1)) with (2 * k + 2) in W1, W2, W3, W4, W5 by idx.
  rewrite <- (num_zero_above m15 _ (2 * k) (2 * k + 2) ltac:(idx) Z0) in W0.
  rewrite <- (num_zero_above m15 _ (2 * s) (2 * k + 2) ltac:(idx) Z6) in W6.
  rewrite abs_product in W1, W3. subst an1 bn1 an2 bn2.
  eapply returns_mono.
  - apply (toom4_finish k s n ltac:(idx) En m15 rp _ a0 a1 a2 a3 b0 b1 b2 b3);
      [done|done|wf_mem|vecs|vecs|vecs|apply Hprod|apply abs_product_nonneg|apply abs_product_nonneg
      |exact W0|exact W1|exact W2|exact W3|exact W4|exact W5|exact W6].
  - intros m16 [M16 V16]. split; [|replace (n + n) with (2 * n) by idx; by rewrite Ej].
    apply (touches_trans _ _ m15 _ T). eapply touches_mono; [exact M16|vecs].
Qed.
End toom4_level.

Section toom4_square.
Context `{LimbWidth}.
Context (rec_ : mem -> Z -> Z -> Z -> Z -> Z -> option mem) (cutoff lim : Z) (need4 : Z -> Z).
Context (Hrec : square_ok rec_ cutoff lim need4) (Hneed : forall a b, 0 <= a <= b -> 0 <= need4 a <= need4 b).

Lemma sqr_toom4_spec m rp ap n sc it : toom4_split_ok n = true -> n <= lim ->
  6 * ((n + 3) / 4 + 1) + 8 * (2 * ((n + 3) / 4) + 2) + need4 ((n + 3) / 4 + 1) <= it ->
  sqr_pre m rp ap n sc it ->
  returns (sqr_toom4 rec_ m rp ap n sc cutoff) (sqr_post m rp ap n sc it).
Proof.
  intros Hsp Hlim Hit [Hw Hr Ha Hsc Dar Das Drs Hbase].
  unfold sqr_toom4, sqr_post. pose proof (quarters n Hsp) as Hk. cbv zeta in Hk |- *.
  pose proof (product_bound m ap n ap n Hw ltac:(lia) ltac:(lia)) as Hprod.
  revert Hk Hit. generalize ((n + 3) / 4) as k. intros k (Hn4 & Hs & Hk) Hit.
  remember (n - 3 * k) as s eqn:Es. assert (n = 3 * k + s) as En by lia. clear Es Hsp.
  pose proof (Hneed k (k + 1) ltac:(lia)) as Hn1. pose proof (Hneed s (k + 1) ltac:(lia)) as Hn2.
  remember (it - (22 * (k + 1))) as it' eqn:Eit. assert (need4 (k + 1) <= it') as Hit' by lia.
  name_part m ap k as a0 A0 RA0. name_part m (ap + k) k as a1 A1 RA1.
  name_part m (ap + 2 * k) k as a2 A2 RA2. name_part m (ap + 3 * k) s as a3 A3 RA3.
  assert (num m ap n * num m ap n = join4 k a0 a1 a2 a3 * join4 k a0 a1 a2 a3) as Ej
    by (rewrite !(num_quarters k s n) by lia; by rewrite A0, A1, A2, A3).
  rewrite Ej in Hprod. replace (n + n) with (2 * n) in Hprod by lia.
  assert (touches (fun c => vec rp (2 * n) c \/ vec sc it c) m m) as T by by apply touches_refl.
  evaluate_signed (toom4_eval_pm1_spec ap k s) from m as m1 an1 PA NA SA. clear SA an1.
  evaluate_signed (toom4_eval_pm2_spec ap k s) from m1 as m3 an2 PA2 NA2 SA2. clear SA2 an2.
  evaluate (toom4_eval_half_spec ap k s) from m3 as m5 HA.
  product Hrec it' m5 as m7 W2. clear PA.
  product Hrec it' m7 as m8 W3. clear NA.
  product Hrec it' m8 as m9 W4. clear PA2.
  product Hrec it' m9 as m10 W1. clear NA2.
  product Hrec it' m10 as m11 W5. clear HA.
  product Hrec it' m11 as m12 W0.
  clearing as m13 Z0.
  product Hrec it' m13 as m14 W6.
  clearing as m15 Z6.
  replace (2 * (k + 1)) with (2 * k + 2) in W1, W2, W3, W4, W5 by idx.
  rewrite <- (num_zero_above m15 _ (2 * k) (2 * k + 2) ltac:(idx) Z0) in W0.
  rewrite <- (num_zero_above m15 _ (2 * s) (2 * k + 2) ltac:(idx) Z6) in W6.
  rewrite abs_product, Bool.xorb_nilpotent in W1, W3.
  eapply returns_mono.
  - apply (toom4_finish k s n ltac:(idx) En m15 rp _ a0 a1 a2 a3 a0 a1 a2 a3) with (neg2 := false) (neg1 := false);
      [done|done|wf_mem|vecs|vecs|vecs|apply Hprod|apply Z.square_nonneg|apply Z.square_nonneg
      |exact W0|exact W1|exact W2|exact W3|exact W4|exact W5|exact W6].
  - intros m16 [M16 V16]. split; [|by rewrite Ej].
    apply (touches_trans _ _ m15 _ T). eapply touches_mono; [exact M16|vecs].
Qed.
End toom4_square.

(** ** Closing the recursion *)

Section toom4_rec.
Context `{LimbWidth}.
Abbreviation need3 := (toom3_need threshold.mul_toom3 6 6).
Abbreviation need4 := (toom4_need threshold.mul_toom3 threshold.mul_toom4 11 6 6).

Lemma crossovers : 10 <= threshold.mul_toom4 <= threshold.mul_toom3.
Proof. unfold threshold.mul_toom3, threshold.mul_toom4, threshold.by_width. destruct (Z.eqb _ _); lia. Qed.

Lemma need4_mono a b : 0 <= a <= b -> 0 <= need4 a <= need4 b.
Proof. pose proof crossovers. apply toom4_need_mono; [lia|lia|lia|exact toom4_cost_mul]. Qed.

Lemma need4_kara n : 0 <= n -> kara_cost 6 2 n <= need4 n.
Proof. pose proof crossovers. apply toom4_need_kara; [lia|lia|exact toom4_cost_mul]. Qed.

Lemma long_splits n : 10 <= n -> toom4_split_ok n = true.
Proof.
  intros Hn. apply andb_true_intro. split; [apply Z.leb_le; lia|apply Z.ltb_lt].
  pose proof (Z.div_mod (n + 3) 4). pose proof (Z.mod_pos_bound (n + 3) 4). lia.
Qed.

Lemma __mul_rec4_spec cutoff fuel : forall m rp ap bp n sc it, n <= Z.of_nat fuel -> need4 n <= it ->
  mul_pre m rp ap n bp n sc it ->
  returns (__mul_rec4 fuel m rp ap n bp n sc cutoff) (mul_post m rp ap n bp n sc it).
Proof.
  pose proof crossovers as HT.
  induction fuel as [|fuel IH]; intros m rp ap bp n sc it Hf Hit Hpre; pose proof (mp_bn _ _ _ _ _ _ _ _ Hpre); [lia|].
  cbn [__mul_rec4]. rewrite Z.eqb_refl. cbn [andb].
  destruct (Z.leb_spec threshold.mul_toom4 n) as [Hge|Hlt]; cbn [andb].
  - rewrite long_splits by lia.
    apply (mul_toom4_spec _ _ (Z.of_nat (S fuel)) need4); [|exact need4_mono|apply long_splits; lia|lia| |done].
    + intros m' rp' ap' bp' n' sc' it' Hf' Hit' Hpre'. apply IH; [lia|done|done].
    + rewrite toom4_need_eq, (proj2 (Z.leb_le _ n) Hge), (proj2 (Z.leb_le 4 n)) in Hit by lia. exact Hit.
  - apply __mul_rec3_spec; [lia| |done]. rewrite toom3_need_low by lia. pose proof (need4_kara n ltac:(lia)). lia.
Qed.
End toom4_rec.
