(* ===== verification/MpnTiers.v ===== *)
(** The multiplication ladder (math/arbint/mul.hpp): the scratch requirement, the
    pinned tiers, the automatic choice by size and the entry of the fixed-width
    types. *)
From stdpp Require Import base numbers list option.
From Stdlib Require Import ZArith Lia.
From S2P Require Import Prelude Arrays Limb Mpn MpnMul Thresholds MpnKaratsuba MpnToom3 MpnToom4.

Local Open Scope Z_scope.

Definition tiers_built : algo := toom4.

Section tiers.
Context `{LimbWidth}.

(** ** Scratch *)

(** if ( t > base ) base = t *)
Definition raise_to (base t : Z) : Z := if Z.ltb base t then t else base.

Definition mul_itch (an bn cutoff : Z) : Z :=
  let n := if Z.ltb an bn then an else bn in
  if Z.ltb n cutoff then 0
  else
    let base := karatsuba_itch n cutoff in
    let base := if andb (Z.eqb an bn) (Z.leb threshold.mul_toom3 n) then raise_to base (toom3_itch n false) else base in
    let base := if andb (Z.eqb an bn) (Z.leb threshold.mul_toom4 n) then raise_to base (toom4_itch n false) else base in
    if Z.eqb an bn then base else unbalanced_stage_itch an bn cutoff + base.

Definition sqr_itch (n cutoff : Z) : Z :=
  let base := sqr_karatsuba_itch n cutoff in
  let base := if Z.leb threshold.sqr_toom3 n then raise_to base (sqr_toom3_itch n false) else base in
  if Z.leb threshold.sqr_toom4 n then raise_to base (sqr_toom4_itch n false) else base.

Definition mul_itch_forced (an bn : Z) : Z :=
  let base := mul_itch an bn karatsuba_force in
  if andb (Z.eqb an bn) (Z.leb 3 an) then raise_to base (toom3_itch an true) else base.

Definition sqr_itch_forced (n : Z) : Z :=
  let base := sqr_itch n karatsuba_force in
  if sqr_toom3_applies n then raise_to base (sqr_toom3_itch n true) else base.

Definition mul_itch_with (K : algo) (an bn : Z) : Z :=
  match K with
  | toom4 => if Z.eqb an bn then toom4_itch an true else mul_itch_forced an bn
  | _ => mul_itch_forced an bn
  end.

Definition sqr_itch_with (K : algo) (n : Z) : Z :=
  match K with
  | toom4 => sqr_toom4_itch n true
  | _ => sqr_itch_forced n
  end.

(** ** Pinned tiers *)

(** The Toom kernels called from outside their own recursion. *)
Definition run_toom3 (m : mem) (rp ap bp n scratch cutoff : Z) : option mem :=
  mul_toom3 (__mul_rec3 (Z.to_nat n)) m rp ap bp n scratch cutoff.

Definition run_toom4 (m : mem) (rp ap bp n scratch cutoff : Z) : option mem :=
  mul_toom4 (__mul_rec4 (Z.to_nat n)) m rp ap bp n scratch cutoff.

Definition run_sqr_toom3 (m : mem) (rp ap n scratch cutoff : Z) : option mem :=
  sqr_toom3 (__sqr_rec3 (Z.to_nat n)) m rp ap n scratch cutoff.

Definition run_sqr_toom4 (m : mem) (rp ap n scratch cutoff : Z) : option mem :=
  sqr_toom4 (__sqr_rec4 (Z.to_nat n)) m rp ap n scratch cutoff.

(** A tier above [tiers_built] is rejected by a [static_assert]. *)
Definition mul_with (K : algo) (m : mem) (rp ap an bp bn scratch : Z) : option mem :=
  match K with
  | basecase => mul_basecase m rp ap an bp bn
  | comba => mul_comba m rp ap an bp bn
  | karatsuba => mul_karatsuba_top m rp ap an bp bn scratch
  | toom3 =>
      if toom3_applies an bn then run_toom3 m rp ap bp an scratch threshold.mul_karatsuba
      else mul_karatsuba_top m rp ap an bp bn scratch
  | toom4 =>
      if toom4_applies an bn then run_toom4 m rp ap bp an scratch threshold.mul_karatsuba
      else if toom3_applies an bn then run_toom3 m rp ap bp an scratch threshold.mul_karatsuba
      else mul_karatsuba_top m rp ap an bp bn scratch
  | nussbaumer => None
  end.

Definition sqr_with (K : algo) (m : mem) (rp ap n scratch : Z) : option mem :=
  match K with
  | basecase => sqr_basecase m rp ap n
  | comba => sqr_comba m rp ap n
  | karatsuba => sqr_karatsuba_top m rp ap n scratch
  | toom3 =>
      if sqr_toom3_applies n then run_sqr_toom3 m rp ap n scratch threshold.sqr_karatsuba
      else sqr_karatsuba_top m rp ap n scratch
  | toom4 =>
      if sqr_toom4_applies n then run_sqr_toom4 m rp ap n scratch threshold.sqr_karatsuba
      else if sqr_toom3_applies n then run_sqr_toom3 m rp ap n scratch threshold.sqr_karatsuba
      else sqr_karatsuba_top m rp ap n scratch
  | nussbaumer => None
  end.

(** ** Automatic choice *)

Definition mul (m : mem) (rp ap an bp bn scratch : Z) : option mem :=
  if Z.eqb bn 1 then
    b0 ← m.[bp];
    '(m, cy) ← mul_1 m rp ap an b0;
    aset m (rp + an) cy
  else
    match clamp_algo (pick_mul an bn) with
    | basecase => mul_basecase m rp ap an bp bn
    | comba => mul_comba m rp ap an bp bn
    | karatsuba => mul_karatsuba m rp ap an bp bn scratch threshold.mul_karatsuba
    | toom3 =>
        if toom3_applies an bn then run_toom3 m rp ap bp an scratch threshold.mul_karatsuba
        else mul_karatsuba m rp ap an bp bn scratch threshold.mul_karatsuba
    | _ =>
        if toom4_applies an bn then run_toom4 m rp ap bp an scratch threshold.mul_karatsuba
        else if toom3_applies an bn then run_toom3 m rp ap bp an scratch threshold.mul_karatsuba
        else mul_karatsuba m rp ap an bp bn scratch threshold.mul_karatsuba
    end.

Definition sqr (m : mem) (rp ap n scratch : Z) : option mem :=
  if Z.eqb n 1 then
    a0 ← m.[ap];
    let '(lo, hi) := mul_wide a0 a0 in
    m ← aset m rp lo;
    aset m (rp + 1) hi
  else
    match clamp_to algo_u8 (pick_sqr n) sqr_tier_cap with
    | basecase => sqr_basecase m rp ap n
    | comba => sqr_comba m rp ap n
    | karatsuba => sqr_karatsuba m rp ap n scratch threshold.sqr_karatsuba
    | toom3 =>
        if sqr_toom3_applies n then run_sqr_toom3 m rp ap n scratch threshold.sqr_karatsuba
        else sqr_karatsuba m rp ap n scratch threshold.sqr_karatsuba
    | _ =>
        if sqr_toom4_applies n then run_sqr_toom4 m rp ap n scratch threshold.sqr_karatsuba
        else if sqr_toom3_applies n then run_sqr_toom3 m rp ap n scratch threshold.sqr_karatsuba
        else sqr_karatsuba m rp ap n scratch threshold.sqr_karatsuba
    end.

(** ** Entry of the fixed-width types *)

Definition mul_fixed (AN BN : Z) (S : solver.t) (m : mem) (rp ap an bp bn scratch : Z) : option mem :=
  match S with
  | solver.automatic =>
      if andb (andb (Z.leb AN 16) (Z.leb BN 16)) (Z.leb (AN + BN) 24) then
        if andb (Z.eqb an AN) (Z.eqb bn BN) then mul_comba_fixed AN BN m rp ap bp
        else mul m rp ap an bp bn scratch
      else mul m rp ap an bp bn scratch
  | _ => mul_with (pinned_algo S) m rp ap an bp bn scratch
  end.

Definition sqr_fixed (N : Z) (S : solver.t) (m : mem) (rp ap n scratch : Z) : option mem :=
  match S with
  | solver.automatic =>
      if Z.leb N 16 then
        if Z.eqb n N then sqr_comba_fixed N m rp ap else sqr m rp ap n scratch
      else sqr m rp ap n scratch
  | _ => sqr_with (pinned_algo S) m rp ap n scratch
  end.
End tiers.
