(* ===== verification/MpnTiersProof.v ===== *)
(** Every rung of the multiplication ladder is the exact product within the
    scratch its requirement function asks for. *)
From stdpp Require Import base numbers list option.
From Stdlib Require Import ZArith Lia.
From S2P Require Import Prelude Arrays Sums Limb Mpn MpnValue MpnArith MpnMul MpnMulProof MpnFrame Thresholds MpnKaratsuba MpnKaratsubaProof MpnToom3 MpnToom4 MpnToomScratch MpnToom3Proof MpnToom4Proof MpnTiers.

Local Open Scope Z_scope.

Lemma raise_to_ge b t : b <= raise_to b t /\ t <= raise_to b t.
Proof. unfold raise_to. destruct (Z.ltb_spec b t); lia. Qed.

Lemma raise_to_le b t : raise_to b t = b \/ raise_to b t = t.
Proof. unfold raise_to. destruct (Z.ltb_spec b t); lia. Qed.

(** Case analysis on the comparisons of a scratch requirement. *)
Ltac raised :=
  repeat match goal with
  | |- context [if Z.leb ?a ?b then _ else _] => destruct (Z.leb_spec a b)
  | |- context [if Z.ltb ?a ?b then _ else _] => destruct (Z.ltb_spec a b)
  end;
  repeat match goal with
  | |- context [raise_to ?a ?b] =>
      lazymatch a with context [raise_to _ _] => fail | _ => idtac end;
      pose proof (raise_to_ge a b); pose proof (raise_to_le a b);
      let x := fresh "r" in set (x := raise_to a b) in *; clearbody x
  end; lia.

Section scratch.
Context `{LimbWidth}.

Lemma cutoffs : 2 <= threshold.mul_karatsuba /\ 2 <= threshold.sqr_karatsuba /\ 10 <= threshold.sqr_toom3.
Proof. unfold threshold.mul_karatsuba, threshold.sqr_karatsuba, threshold.sqr_toom3, threshold.by_width. destruct (Z.eqb _ _); lia. Qed.

(** *** A forced Toom level *)

Lemma toom3_itch_top n : 3 <= n -> toom3_itch n true =
  6 * ((n + 2) / 3 + 1) + 5 * (2 * ((n + 2) / 3) + 2) + toom3_need threshold.mul_toom3 6 6 ((n + 2) / 3 + 1).
Proof.
  intros Hn. rewrite <- toom3_forced by done.
  unfold toom3_itch. destruct (toom3_levels _ _ _ _). cbn [fst snd]. by rewrite karatsuba_itch_cost.
Qed.

Lemma sqr_toom3_itch_top n : 3 <= n -> sqr_toom3_itch n true =
  3 * ((n + 2) / 3 + 1) + 5 * (2 * ((n + 2) / 3) + 2) + toom3_need threshold.sqr_toom3 3 5 ((n + 2) / 3 + 1).
Proof.
  intros Hn. rewrite <- toom3_forced by done.
  unfold sqr_toom3_itch. destruct (toom3_levels _ _ _ _). cbn [fst snd]. by rewrite sqr_karatsuba_itch_cost.
Qed.

Lemma toom4_itch_top n : 4 <= n -> toom4_itch n true =
  11 * ((n + 3) / 4 + 1) + 8 * (2 * ((n + 3) / 4) + 2) +
  toom4_need threshold.mul_toom3 threshold.mul_toom4 11 6 6 ((n + 3) / 4 + 1).
Proof.
  intros Hn. pose proof crossovers. rewrite <- toom4_forced by (done || lia).
  unfold toom4_itch. destruct (toom4_levels _ _ _ _). cbn [fst snd]. by rewrite toom3_itch_need.
Qed.

(** Above its crossover a level is taken whether forced or not. *)
Lemma toom3_itch_above n : threshold.mul_toom3 <= n -> toom3_itch n true = toom3_itch n false.
Proof. intros Hn. unfold toom3_itch, toom3_levels. rewrite (proj2 (Z.ltb_ge n _) Hn). by rewrite !Bool.andb_false_r. Qed.

Lemma sqr_toom3_itch_above n : threshold.sqr_toom3 <= n -> sqr_toom3_itch n true = sqr_toom3_itch n false.
Proof. intros Hn. unfold sqr_toom3_itch, toom3_levels. rewrite (proj2 (Z.ltb_ge n _) Hn). by rewrite !Bool.andb_false_r. Qed.

Lemma toom4_itch_above n : threshold.mul_toom4 <= n -> toom4_itch n true = toom4_itch n false.
Proof. intros Hn. unfold toom4_itch, toom4_levels. rewrite (proj2 (Z.ltb_ge n _) Hn). by rewrite !Bool.andb_false_r. Qed.

(** *** What the requirement of a product leaves for each rung *)

Lemma need_below an bn c : 2 <= c -> bn < c -> need an bn c = 0.
Proof.
  intros. unfold need. rewrite stages_eq, kara_cost_eq.
  rewrite (proj2 (Z.leb_gt c bn)) by lia. by rewrite !Bool.andb_false_r.
Qed.

Lemma mul_itch_rungs an bn c : 1 <= bn <= an ->
  need an bn (at_least_2 c) <= mul_itch an bn c /\
  (an = bn -> c <= bn -> threshold.mul_toom3 <= bn -> toom3_itch bn false <= mul_itch an bn c) /\
  (an = bn -> c <= bn -> threshold.mul_toom4 <= bn -> toom4_itch bn false <= mul_itch an bn c).
Proof.
  intros Hn. unfold mul_itch. rewrite (proj2 (Z.ltb_ge an bn)) by lia. cbv zeta.
  destruct (Z.ltb_spec bn c) as [Hlt|Hge].
  { pose proof (at_least_2_ge c). rewrite need_below by lia. split_and!; lia. }
  destruct (Z.eqb_spec an bn) as [->|Hne]; cbn [andb].
  - rewrite need_balanced, karatsuba_itch_cost. split_and!; intros; raised.
  - rewrite need_itch. split_and!; lia.
Qed.

(** A lower cutoff asks for more. *)
Lemma mul_itch_cutoff an bn c : 2 <= c -> 1 <= bn <= an -> mul_itch an bn c <= mul_itch an bn karatsuba_force.
Proof.
  intros Hc Hn. change karatsuba_force with 2.
  unfold mul_itch. rewrite (proj2 (Z.ltb_ge an bn)) by lia. cbv zeta.
  pose proof (kara_cost_mono 6 c 2 bn bn ltac:(lia) ltac:(lia) Hc) as E1.
  pose proof (stages_cutoff an bn c 2 ltac:(lia) Hc) as E2.
  assert (at_least_2 c = c) as E by (unfold at_least_2; destruct (Z.ltb_spec c 2); lia).
  rewrite !karatsuba_itch_cost. unfold unbalanced_stage_itch. rewrite E.
  change (at_least_2 2) with 2. fold (stages an bn c). fold (stages an bn 2).
  pose proof (stages_nonneg an bn 2). pose proof (kara_cost_nonneg 6 2 bn ltac:(lia)).
  destruct (Z.eqb_spec an bn) as [->|]; cbn [andb]; raised.
Qed.

Lemma mul_itch_forced_rungs an bn : 1 <= bn <= an ->
  need an bn 2 <= mul_itch_forced an bn /\
  (an = bn -> 3 <= bn -> toom3_itch bn true <= mul_itch_forced an bn) /\
  mul_itch an bn threshold.mul_karatsuba <= mul_itch_forced an bn.
Proof.
  intros Hn. unfold mul_itch_forced. cbv zeta.
  assert (need an bn 2 <= mul_itch an bn karatsuba_force) as E1 by apply (mul_itch_rungs an bn 2 Hn).
  assert (mul_itch an bn threshold.mul_karatsuba <= mul_itch an bn karatsuba_force) as E2
    by (apply mul_itch_cutoff; [apply cutoffs|done]).
  destruct (Z.eqb_spec an bn) as [->|]; cbn [andb]; [|split_and!; lia].
  split_and!; intros; raised.
Qed.

(** Likewise for a square. *)
Lemma sqr_itch_rungs n c : 1 <= n ->
  sqr_karatsuba_itch n c <= sqr_itch n c /\
  (threshold.sqr_toom3 <= n -> sqr_toom3_itch n false <= sqr_itch n c).
Proof. intros Hn. unfold sqr_itch. cbv zeta. split; intros; raised. Qed.

Lemma sqr_itch_cutoff n c : 2 <= c -> 1 <= n -> sqr_itch n c <= sqr_itch n karatsuba_force.
Proof.
  intros Hc Hn. unfold sqr_itch. cbv zeta. rewrite !sqr_karatsuba_itch_cost.
  assert (at_least_2 c = c) as -> by (unfold at_least_2; destruct (Z.ltb_spec c 2); lia).
  change (at_least_2 karatsuba_force) with 2.
  pose proof (kara_cost_mono 5 c 2 n n ltac:(lia) ltac:(lia) Hc) as E1. raised.
Qed.

Lemma sqr_itch_forced_rungs n : 1 <= n ->
  sqr_karatsuba_itch n karatsuba_force <= sqr_itch_forced n /\
  (toom3_split_ok n = true -> sqr_toom3_itch n true <= sqr_itch_forced n) /\
  sqr_itch n threshold.sqr_karatsuba <= sqr_itch_forced n.
Proof.
  intros Hn. unfold sqr_itch_forced, sqr_toom3_applies. cbv zeta.
  pose proof (sqr_itch_rungs n karatsuba_force Hn) as [E1 _].
  pose proof (sqr_itch_cutoff n threshold.sqr_karatsuba (proj1 (proj2 cutoffs)) Hn) as E2.
  destruct (toom3_split_ok n); [|split_and!; done || lia]. split_and!; intros; raised.
Qed.
End scratch.

Section rungs.
Context `{LimbWidth}.

(** *** The Toom kernels over their own recursion *)

Lemma run_toom3_post m rp ap bp n sc it cutoff : toom3_split_ok n = true -> toom3_itch n true <= it ->
  mul_pre m rp ap n bp n sc it ->
  returns (run_toom3 m rp ap bp n sc cutoff) (mul_post m rp ap n bp n sc it).
Proof.
  intros Hs Hit Hpre. pose proof (thirds n Hs) as [Hn _]. rewrite toom3_itch_top in Hit by lia.
  eapply (mul_toom3_spec _ _ n); [|exact need3_mono|done|lia|exact Hit|done].
  intros m' rp' ap' bp' n' sc' it' Hf' Hit' Hpre'. apply __mul_rec3_spec; [lia|done..].
Qed.

Lemma run_toom4_post m rp ap bp n sc it cutoff : toom4_split_ok n = true -> toom4_itch n true <= it ->
  mul_pre m rp ap n bp n sc it ->
  returns (run_toom4 m rp ap bp n sc cutoff) (mul_post m rp ap n bp n sc it).
Proof.
  intros Hs Hit Hpre. pose proof (quarters n Hs) as [Hn _]. rewrite toom4_itch_top in Hit by lia.
  eapply (mul_toom4_spec _ _ n); [|exact need4_mono|done|lia|exact Hit|done].
  intros m' rp' ap' bp' n' sc' it' Hf' Hit' Hpre'. apply __mul_rec4_spec; [lia|done..].
Qed.

Lemma run_sqr_toom3_post m rp ap n sc it cutoff : toom3_split_ok n = true -> sqr_toom3_itch n true <= it ->
  sqr_pre m rp ap n sc it ->
  returns (run_sqr_toom3 m rp ap n sc cutoff) (sqr_post m rp ap n sc it).
Proof.
  intros Hs Hit Hpre. pose proof (thirds n Hs) as [Hn _]. rewrite sqr_toom3_itch_top in Hit by lia.
  eapply (sqr_toom3_spec _ _ n); [|exact sqr_need3_mono|done|lia|exact Hit|done].
  intros m' rp' ap' n' sc' it' Hf' Hit' Hpre'. apply __sqr_rec3_spec; [lia|done..].
Qed.

(** *** The automatic choice *)

Lemma mul_spec m rp ap an bp bn sc it : mul_itch an bn threshold.mul_karatsuba <= it ->
  mul_pre m rp ap an bp bn sc it -> returns (mul m rp ap an bp bn sc) (mul_post m rp ap an bp bn sc it).
Proof.
  intros Hit Hpre. pose proof (mp_bn _ _ _ _ _ _ _ _ Hpre) as Hn.
  destruct (mul_itch_rungs an bn threshold.mul_karatsuba Hn) as (E1 & _ & E3). rewrite need_itch in E1.
  unfold mul. destruct (Z.eqb_spec bn 1) as [->|Hb1]; [by apply mul_by_1_spec|].
  unfold pick_mul. rewrite (proj2 (Z.ltb_ge an bn)) by lia. cbv zeta.
  destruct (Z.ltb _ threshold.mul_comba); [by apply mul_basecase_post|].
  destruct (Z.ltb_spec bn threshold.mul_karatsuba); [by apply mul_comba_post|].
  assert (returns (mul_karatsuba m rp ap an bp bn sc threshold.mul_karatsuba) (mul_post m rp ap an bp bn sc it)) as HK
    by (apply mul_karatsuba_spec; [lia|done]).
  destruct (Z.ltb_spec bn threshold.mul_toom3); [exact HK|].
  destruct (Z.ltb_spec bn threshold.mul_toom4); [unfold threshold.mul_toom3 in *; lia|].
  match goal with |- returns (match clamp_algo ?k with _ => _ end) _ => assert (clamp_algo k = toom4) as -> by (by case_match) end.
  unfold toom4_applies, toom3_applies.
  destruct (Z.eqb_spec an bn) as [->|Hne]; cbn [andb]; [|exact HK].
  pose proof crossovers. rewrite long_splits by lia.
  apply run_toom4_post; [apply long_splits; lia| |done]. rewrite toom4_itch_above by lia. etransitivity; [|exact Hit]. by apply E3.
Qed.

Lemma sqr_one m rp ap sc it : sqr_pre m rp ap 1 sc it ->
  returns (a0 ← m.[ap]; let '(lo, hi) := mul_wide a0 a0 in m ← aset m rp lo; aset m (rp + 1) hi)
    (sqr_post m rp ap 1 sc it).
Proof.
  intros [Hw Hr Ha Hs Dar Das Drs Hn]. rewrite get_cell by vecs. cbn [mbind option_bind].
  pose proof (wf_cell m ap Hw) as Hx. pose proof (mul_wide_spec _ _ Hx Hx) as E. destruct (mul_wide _ _) as [lo hi].
  destruct E as (Hlo & Hhi & _ & E). apply returns_set; [vecs|]. apply returns_set_tail; [vecs|].
  split.
  - apply (touches_trans _ _ (upd m rp lo)); (apply touches_upd; [|done|vecs|left; vecs]); [done|apply wf_upd; [done|vecs|done]].
  - change (2 * 1) with (1 + 1). rewrite num_upd_at by vecs. pose proof (num_upd_at m rp 0 lo) as E0.
    rewrite Z.add_0_r, num_0 in E0. change (0 + 1) with 1 in E0. rewrite E0 by vecs. rewrite !num_1. lia.
Qed.

Lemma long_splits3 n : 10 <= n -> toom3_split_ok n = true.
Proof.
  intros Hn. apply andb_true_intro. split; [apply Z.leb_le; lia|apply Z.ltb_lt].
  pose proof (Z.div_mod (n + 2) 3). pose proof (Z.mod_pos_bound (n + 2) 3). lia.
Qed.

(** What squaring uses of its scratch: Toom-4 is above the default cap. *)
Definition sqr_auto_room (n it : Z) : Prop := sqr_karatsuba_itch n threshold.sqr_karatsuba <= it /\
  (threshold.sqr_toom3 <= n -> sqr_toom3_itch n false <= it).

Lemma sqr_auto_spec m rp ap n sc it : sqr_auto_room n it ->
  sqr_pre m rp ap n sc it -> returns (sqr m rp ap n sc) (sqr_post m rp ap n sc it).
Proof.
  intros [E1 E2] Hpre. pose proof (sp_n _ _ _ _ _ _ Hpre) as Hn.
  unfold sqr. destruct (Z.eqb_spec n 1) as [->|Hb1]; [by apply sqr_one|].
  unfold pick_sqr.
  destruct (Z.ltb _ threshold.sqr_comba); [by apply sqr_basecase_post|].
  destruct (Z.ltb_spec n threshold.sqr_karatsuba); [by apply sqr_comba_post|].
  destruct (Z.ltb_spec n threshold.sqr_toom3); [by apply sqr_karatsuba_spec|].
  match goal with |- returns (match clamp_to _ ?k _ with _ => _ end) _ =>
    assert (clamp_to algo_u8 k sqr_tier_cap = toom3) as -> by (by repeat case_match) end.
  pose proof cutoffs. assert (toom3_split_ok n = true) as Hs by (apply long_splits3; lia).
  unfold sqr_toom3_applies. rewrite Hs. apply run_sqr_toom3_post; [done| |done].
  rewrite sqr_toom3_itch_above by lia. by apply E2.
Qed.

Lemma sqr_spec m rp ap n sc it : sqr_itch n threshold.sqr_karatsuba <= it ->
  sqr_pre m rp ap n sc it -> returns (sqr m rp ap n sc) (sqr_post m rp ap n sc it).
Proof.
  intros Hit Hpre. pose proof (sp_n _ _ _ _ _ _ Hpre) as Hn.
  destruct (sqr_itch_rungs n threshold.sqr_karatsuba ltac:(lia)) as [E1 E2].
  apply sqr_auto_spec; [|done]. split; [lia|]. intros. specialize (E2 ltac:(lia)). lia.
Qed.

(** *** The pinned tiers *)

(** The balanced sizes that four parts do not split. *)
Lemma odd_sizes n : 1 <= n -> toom4_split_ok n = false -> n = 1 \/ n = 2 \/ n = 3 \/ n = 5 \/ n = 6 \/ n = 9.
Proof.
  intros Hn Hs. destruct (decide (10 <= n)); [rewrite long_splits in Hs by done; done|].
  assert (n = 1 \/ n = 2 \/ n = 3 \/ n = 4 \/ n = 5 \/ n = 6 \/ n = 7 \/ n = 8 \/ n = 9) as Hc by lia.
  intuition (subst; try done).
Qed.

Lemma toom4_itch_small n : 1 <= n <= 2 -> need n n 2 <= toom4_itch n true.
Proof.
  intros Hn. assert (toom4_itch n true = toom4_itch n false) as ->
    by (unfold toom4_itch, toom4_levels; by rewrite (proj2 (Z.leb_gt 4 n)) by lia).
  rewrite toom4_itch_need, need_balanced. apply need4_kara. lia.
Qed.

(** Where Toom-4 hands a balanced product to Toom-3, three limbs excepted, its own
    scratch is enough. *)
Lemma toom4_itch_covers n : toom4_split_ok n = false -> 4 <= n -> toom3_itch n true <= toom4_itch n true.
Proof.
  intros Hs Hn. pose proof crossovers.
  rewrite toom3_itch_top, toom4_itch_top by lia.
  assert (forall k, 0 <= k < 10 -> toom3_need threshold.mul_toom3 6 6 k <=
    toom4_need threshold.mul_toom3 threshold.mul_toom4 11 6 6 k) as Hk.
  { intros k ?. rewrite toom3_need_low by lia. apply need4_kara. lia. }
  destruct (odd_sizes n) as [->|[->|[->|[->|[->| ->]]]]]; try lia; [done|..].
  - specialize (Hk 3). change ((5 + 2) / 3 + 1) with 3. change ((5 + 3) / 4 + 1) with 3. change ((5 + 2) / 3) with 2. change ((5 + 3) / 4) with 2. lia.
  - specialize (Hk 3). change ((6 + 2) / 3 + 1) with 3. change ((6 + 3) / 4 + 1) with 3. change ((6 + 2) / 3) with 2. change ((6 + 3) / 4) with 2. lia.
  - specialize (Hk 4). change ((9 + 2) / 3 + 1) with 4. change ((9 + 3) / 4 + 1) with 4. change ((9 + 2) / 3) with 3. change ((9 + 3) / 4) with 3. lia.
Qed.

Lemma mul_with_spec K m rp ap an bp bn sc it : K <> nussbaumer -> (K = toom4 -> an = bn -> an <> 3) ->
  mul_itch_with K an bn <= it ->
  mul_pre m rp ap an bp bn sc it -> returns (mul_with K m rp ap an bp bn sc) (mul_post m rp ap an bp bn sc it).
Proof.
  intros HK H3 Hit Hpre. pose proof (mp_bn _ _ _ _ _ _ _ _ Hpre) as Hn.
  destruct (mul_itch_forced_rungs an bn Hn) as (E1 & E2 & _).
  assert (need an bn 2 <= it -> returns (mul_karatsuba_top m rp ap an bp bn sc) (mul_post m rp ap an bp bn sc it)) as HT
    by (intros; apply mul_karatsuba_top_spec; [by rewrite <- need_itch|done]).
  destruct K; cbn [mul_with mul_itch_with] in *; [by apply mul_basecase_post|by apply mul_comba_post|apply HT; lia|..|done].
  - unfold toom3_applies. destruct (Z.eqb_spec an bn) as [->|]; cbn [andb]; [|apply HT; lia].
    destruct (toom3_split_ok bn) eqn:Es; [|apply HT; lia].
    pose proof (thirds bn Es) as [? _]. apply run_toom3_post; [done| |done]. specialize (E2 eq_refl). lia.
  - unfold toom4_applies, toom3_applies. destruct (Z.eqb_spec an bn) as [->|]; cbn [andb]; [|apply HT; lia].
    destruct (toom4_split_ok bn) eqn:E4; [by apply run_toom4_post|]. specialize (H3 eq_refl eq_refl).
    destruct (decide (4 <= bn)) as [Hge|Hlt].
    + pose proof (toom4_itch_covers bn E4 Hge).
      destruct (toom3_split_ok bn) eqn:Es; [apply run_toom3_post; [done|lia|done]|].
      destruct (odd_sizes bn) as [->|[->|[->|[->|[->| ->]]]]]; done || lia.
    + assert (toom3_split_ok bn = false) as -> by (unfold toom3_split_ok; by rewrite (proj2 (Z.leb_gt 3 bn)) by lia).
      apply HT. pose proof (toom4_itch_small bn ltac:(lia)). lia.
Qed.

Definition sqr_room (n it : Z) : Prop := sqr_karatsuba_itch n karatsuba_force <= it /\
  (toom3_split_ok n = true -> sqr_toom3_itch n true <= it).

Lemma sqr_with_room K m rp ap n sc it : (algo_u8 K <= algo_u8 toom3) -> sqr_room n it ->
  sqr_pre m rp ap n sc it -> returns (sqr_with K m rp ap n sc) (sqr_post m rp ap n sc it).
Proof.
  intros HK [E1 E2] Hpre. destruct K; cbn in HK; try lia; cbn [sqr_with];
    [by apply sqr_basecase_post|by apply sqr_comba_post|by apply sqr_karatsuba_top_spec|].
  unfold sqr_toom3_applies. destruct (toom3_split_ok n) eqn:Es; [|by apply sqr_karatsuba_top_spec].
  apply run_sqr_toom3_post; [done| |done]. by apply E2.
Qed.

(** *** The fixed-width entry, with the scratch its callers give it *)

Lemma mul_fixed_spec AN BN S m rp ap an bp bn sc it : S <> solver.nussbaumer -> mul_itch_forced an bn <= it ->
  mul_pre m rp ap an bp bn sc it ->
  returns (mul_fixed AN BN S m rp ap an bp bn sc) (mul_post m rp ap an bp bn sc it).
Proof.
  intros HS Hit Hpre. pose proof (mp_bn _ _ _ _ _ _ _ _ Hpre) as Hn.
  destruct (mul_itch_forced_rungs an bn Hn) as (_ & _ & E).
  destruct S; cbn [mul_fixed pinned_algo]; try done; try (by apply mul_with_spec).
  assert (returns (mul m rp ap an bp bn sc) (mul_post m rp ap an bp bn sc it)) as HM by (apply mul_spec; [lia|done]).
  destruct (andb _ (Z.leb (AN + BN) 24)); [|exact HM].
  destruct (Z.eqb_spec an AN) as [->|]; cbn [andb]; [|exact HM].
  destruct (Z.eqb_spec bn BN) as [->|]; [|exact HM]. rewrite mul_comba_fixed_eq. by apply mul_comba_post.
Qed.

Lemma sqr_room_auto n it : 1 <= n -> sqr_room n it -> sqr_auto_room n it.
Proof.
  intros Hn [E1 E2]. pose proof cutoffs as (_ & Hc & Ht). split.
  - rewrite sqr_karatsuba_itch_cost in *. change (at_least_2 karatsuba_force) with 2 in E1.
    assert (at_least_2 threshold.sqr_karatsuba = threshold.sqr_karatsuba) as ->
      by (unfold at_least_2; destruct (Z.ltb_spec threshold.sqr_karatsuba 2); lia).
    pose proof (kara_cost_mono 5 threshold.sqr_karatsuba 2 n n ltac:(lia) ltac:(lia) Hc). lia.
  - intros Hge. rewrite <- sqr_toom3_itch_above by done. apply E2, long_splits3. lia.
Qed.

Lemma sqr_forced_room n : 1 <= n -> sqr_room n (sqr_itch_forced n).
Proof. intros Hn. destruct (sqr_itch_forced_rungs n Hn) as (E1 & E2 & _). by split. Qed.

Lemma sqr_fixed_room N S m rp ap n sc it : S <> solver.nussbaumer -> sqr_room n it ->
  sqr_pre m rp ap n sc it -> returns (sqr_fixed N S m rp ap n sc) (sqr_post m rp ap n sc it).
Proof.
  intros HS Hr Hpre. pose proof (sp_n _ _ _ _ _ _ Hpre) as Hn.
  destruct S; cbn [sqr_fixed pinned_algo]; try done; try (by apply sqr_with_room).
  assert (returns (sqr m rp ap n sc) (sqr_post m rp ap n sc it)) as HM
    by (apply sqr_auto_spec; [apply sqr_room_auto; [lia|done]|done]).
  destruct (Z.leb N 16); [|exact HM]. destruct (Z.eqb_spec n N) as [->|]; [|exact HM].
  rewrite sqr_comba_fixed_eq. by apply sqr_comba_post.
Qed.
End rungs.

(** ** Scratch requirements of the smaller products of a larger one *)

Section shrink.
Context `{LimbWidth}.

(** Staging an unbalanced product costs at most two operand lengths: the blocks
    shrink as the remainders of Euclid's algorithm. *)
Lemma stages_le c fuel : forall an bn t, 0 <= bn <= an -> unbalanced_stage_loop fuel an bn c t <= t + 2 * (an + bn).
Proof.
  induction fuel as [|fuel IH]; intros an bn t Hn; cbn [unbalanced_stage_loop]; [lia|].
  destruct (andb _ _) eqn:E; [|lia]. apply stage_guard in E as (Hlt & _ & Hb). cbv zeta.
  pose proof (Z.mod_pos_bound an bn ltac:(lia)) as Hm.
  assert (bn + an mod bn <= an).
  { pose proof (Z.div_mod an bn ltac:(lia)). pose proof (Z.div_le_lower_bound an bn 1 ltac:(lia) ltac:(lia)). nia. }
  destruct (Z.eqb_spec (an mod bn) 0); [lia|]. specialize (IH bn (an mod bn) (t + 2 * bn) ltac:(lia)). lia.
Qed.

Lemma stages_bound an bn c : 0 <= bn <= an -> stages an bn c <= 2 * (an + bn).
Proof. intros. unfold stages. pose proof (stages_le c (Z.to_nat bn) an bn 0). lia. Qed.

Lemma mul_itch_unbalanced an bn c : 1 <= bn < an -> mul_itch an bn c <= need an bn (at_least_2 c).
Proof.
  intros Hn. unfold mul_itch. rewrite (proj2 (Z.ltb_ge an bn)), (proj2 (Z.eqb_neq an bn)) by lia. cbn [andb].
  cbv zeta. rewrite need_itch. destruct (Z.ltb bn c); [|lia].
  rewrite <- need_itch. apply need_nonneg.
Qed.

Lemma kara_at_2 n c : 2 <= n -> kara_cost c 2 n = c * ((n + 1) / 2) + 1 + kara_cost c 2 ((n + 1) / 2).
Proof. intros. rewrite kara_cost_eq. by rewrite (proj2 (Z.leb_le 2 n)) by done. Qed.

(** The two factors of a product of [n] limbs. *)
Lemma mul_itch_parts an bn n : 1 <= bn <= an -> an + bn <= n ->
  mul_itch an bn threshold.mul_karatsuba <= mul_itch_forced n n.
Proof.
  intros Hb Hn. destruct (mul_itch_forced_rungs n n ltac:(lia)) as (E1 & _ & E3). rewrite need_balanced in E1.
  pose proof cutoffs as (Hc & _). pose proof crossovers.
  destruct (decide (an = bn)) as [->|].
  - destruct (mul_itch_rungs n n threshold.mul_karatsuba ltac:(lia)) as (_ & F3 & F4).
    pose proof (kara_cost_mono 6 threshold.mul_karatsuba 2 bn n ltac:(lia) ltac:(lia) Hc).
    pose proof (kara_cost_nonneg 6 2 n ltac:(lia)).
    assert (threshold.mul_karatsuba <= threshold.mul_toom3 <= threshold.mul_toom4) by apply thresholds_ascend.
    assert (threshold.mul_toom3 <= bn -> toom3_itch bn false <= mul_itch_forced n n).
    { intros Hge. specialize (F3 eq_refl ltac:(lia) ltac:(lia)). rewrite toom3_itch_need in *.
      pose proof (need3_mono bn n ltac:(lia)). lia. }
    assert (threshold.mul_toom4 <= bn -> toom4_itch bn false <= mul_itch_forced n n).
    { intros Hge. specialize (F4 eq_refl ltac:(lia) ltac:(lia)). rewrite toom4_itch_need in *.
      pose proof (need4_mono bn n ltac:(lia)). lia. }
    unfold mul_itch. rewrite Z.ltb_irrefl, Z.eqb_refl. cbn [andb]. rewrite karatsuba_itch_cost.
    assert (at_least_2 threshold.mul_karatsuba = threshold.mul_karatsuba) as ->
      by (unfold at_least_2; destruct (Z.ltb_spec threshold.mul_karatsuba 2); lia).
    raised.
  - etransitivity; [apply mul_itch_unbalanced; lia|]. pose proof (at_least_2_ge threshold.mul_karatsuba) as [H1 _].
    unfold need. pose proof (stages_bound an bn (at_least_2 threshold.mul_karatsuba) ltac:(lia)).
    rewrite kara_at_2 in E1 by lia. pose proof (Z.div_mod (n + 1) 2). pose proof (Z.mod_pos_bound (n + 1) 2).
    assert (bn <= (n + 1) / 2) as Hh by lia.
    pose proof (kara_cost_mono 6 _ 2 bn ((n + 1) / 2) ltac:(lia) Hh H1). lia.
Qed.

(** A shorter balanced product. *)
Lemma mul_itch_forced_mono a n : 1 <= a <= n -> mul_itch_forced a a <= mul_itch_forced n n.
Proof.
  intros Ha. destruct (mul_itch_forced_rungs n n ltac:(lia)) as (E1 & E2 & _). rewrite need_balanced in E1.
  destruct (mul_itch_rungs n n karatsuba_force ltac:(lia)) as (_ & F3 & F4).
  assert (mul_itch n n karatsuba_force <= mul_itch_forced n n) as E0
    by (unfold mul_itch_forced; destruct (andb _ _); [apply raise_to_ge|lia]).
  pose proof crossovers. assert (threshold.mul_karatsuba <= threshold.mul_toom3 <= threshold.mul_toom4) by apply thresholds_ascend.
  pose proof (kara_cost_mono 6 2 2 a n ltac:(lia) ltac:(lia) ltac:(lia)). pose proof (kara_cost_nonneg 6 2 n ltac:(lia)).
  assert (threshold.mul_toom3 <= a -> toom3_itch a false <= mul_itch_forced n n).
  { intros Hge. specialize (F3 eq_refl ltac:(unfold karatsuba_force; lia) ltac:(lia)). rewrite toom3_itch_need in *.
    pose proof (need3_mono a n ltac:(lia)). lia. }
  assert (threshold.mul_toom4 <= a -> toom4_itch a false <= mul_itch_forced n n).
  { intros Hge. specialize (F4 eq_refl ltac:(unfold karatsuba_force; lia) ltac:(lia)). rewrite toom4_itch_need in *.
    pose proof (need4_mono a n ltac:(lia)). lia. }
  assert (3 <= a -> toom3_itch a true <= mul_itch_forced n n).
  { intros Hge. specialize (E2 eq_refl ltac:(lia)). rewrite toom3_itch_top in * by lia.
    pose proof (Z.div_le_mono (a + 2) (n + 2) 3 ltac:(lia) ltac:(lia)) as Hd.
    assert (0 <= (a + 2) / 3) by (apply Z.div_pos; lia).
    pose proof (need3_mono ((a + 2) / 3 + 1) ((n + 2) / 3 + 1) ltac:(lia)). lia. }
  unfold mul_itch_forced at 1, mul_itch. rewrite Z.ltb_irrefl, Z.eqb_refl. cbn [andb]. rewrite karatsuba_itch_cost.
  change (at_least_2 karatsuba_force) with 2. cbv zeta. raised.
Qed.

(** The square's own need at a smaller size. *)
Lemma kara_5_lower n : 3 <= n -> 4 * n <= kara_cost 5 2 n.
Proof.
  intros Hn. induction (Z.lt_wf 0 n) as [n _ IH]. destruct (decide (n <= 4)) as [Hs|Hl].
  - assert (n = 3 \/ n = 4) as [->| ->] by lia; vm_compute; discriminate.
  - rewrite kara_at_2 by lia. pose proof (Z.div_mod (n + 1) 2 ltac:(lia)). pose proof (Z.mod_pos_bound (n + 1) 2 ltac:(lia)).
    specialize (IH ((n + 1) / 2) ltac:(lia) ltac:(lia)). lia.
Qed.

(** The scratch array of a fixed-width type, sized for its full width, is enough for
    operands of every length. *)
Lemma mul_scratch_ok an bn n : 1 <= bn <= an -> an <= n ->
  an + bn + mul_itch_forced an bn <= 2 * n + 2 + mul_itch_forced n n + sqr_itch_forced n.
Proof.
  intros Hb Hn. destruct (sqr_itch_forced_rungs n ltac:(lia)) as (E1 & _ & _). rewrite sqr_karatsuba_itch_cost in E1.
  change (at_least_2 karatsuba_force) with 2 in E1. pose proof (kara_cost_nonneg 5 2 n ltac:(lia)).
  destruct (decide (an = bn)) as [->|Hne]; [pose proof (mul_itch_forced_mono bn n); lia|].
  destruct (mul_itch_forced_rungs n n ltac:(lia)) as (F1 & _ & _). rewrite need_balanced in F1.
  pose proof (kara_cost_nonneg 6 2 n ltac:(lia)).
  assert (mul_itch_forced an bn <= need an bn 2) as Hu.
  { unfold mul_itch_forced. rewrite (proj2 (Z.eqb_neq an bn) Hne). cbn [andb]. apply (mul_itch_unbalanced an bn 2). lia. }
  destruct (decide (bn < 2)) as [Hlt|Hge]; [rewrite need_below in Hu by lia; lia|].
  unfold need in Hu. pose proof (stages_bound an bn 2 ltac:(lia)). pose proof (kara_5_lower n ltac:(lia)).
  pose proof (kara_cost_mono 6 2 2 bn n ltac:(lia) ltac:(lia) ltac:(lia)). lia.
Qed.

Lemma sqr_scratch_ok a n it : 1 <= a <= n -> mul_itch_forced n n + sqr_itch_forced n <= it -> sqr_room a it.
Proof.
  intros Ha Hit. destruct (mul_itch_forced_rungs n n ltac:(lia)) as (F1 & F2 & _). pose proof (need_nonneg n n 2).
  destruct (sqr_itch_forced_rungs n ltac:(lia)) as (E1 & E2 & _). split.
  - rewrite sqr_karatsuba_itch_cost in *. change (at_least_2 karatsuba_force) with 2 in *.
    pose proof (kara_cost_mono 5 2 2 a n ltac:(lia) ltac:(lia) ltac:(lia)). lia.
  - intros Hs. pose proof (thirds a Hs) as [Ha3 _]. destruct (toom3_split_ok n) eqn:En.
    + specialize (E2 eq_refl). rewrite sqr_toom3_itch_top in * by lia.
      pose proof (Z.div_le_mono (a + 2) (n + 2) 3 ltac:(lia) ltac:(lia)) as Hd.
      assert (0 <= (a + 2) / 3) by (apply Z.div_pos; lia).
      pose proof (sqr_need3_mono ((a + 2) / 3 + 1) ((n + 2) / 3 + 1) ltac:(lia)). lia.
    + destruct (decide (10 <= n)) as [Hl|]; [rewrite long_splits3 in En by done; done|].
      assert (n = 4 /\ a = 3) as [-> ->].
      { assert (n = 3 \/ n = 4 \/ n = 5 \/ n = 6 \/ n = 7 \/ n = 8 \/ n = 9) as Hc by lia.
        destruct Hc as [->|[->|[->|[->|[->|[->| ->]]]]]]; try done. split; [done|]. assert (a = 3 \/ a = 4) as [->| ->] by lia; done. }
      specialize (F2 eq_refl ltac:(lia)). pose proof (kara_cost_nonneg 5 2 4 ltac:(lia)).
      rewrite sqr_karatsuba_itch_cost in E1. change (at_least_2 karatsuba_force) with 2 in E1.
      rewrite toom3_itch_top in F2 by lia. rewrite sqr_toom3_itch_top by lia.
      pose proof cutoffs as (_ & _ & Ht). pose proof crossovers. change ((3 + 2) / 3) with 1. change ((4 + 2) / 3) with 2 in F2.
      rewrite toom3_need_low in F2 by lia. rewrite toom3_need_low by lia.
      change (kara_cost 5 2 (1 + 1)) with 6. change (kara_cost 6 2 (2 + 1)) with 20 in F2. lia.
Qed.
End shrink.
