(* ===== verification/MpnDc.v ===== *)
(** Divide-and-conquer division (math/arbint/div_dc.hpp) and the division ladder
    (the dispatcher and the pinned tiers of math/arbint/div_mu.hpp). *)
From stdpp Require Import base numbers list option.
From Stdlib Require Import ZArith Lia.
From S2P Require Import Prelude Arrays Limb Mpn MpnDiv MpnToom3 Thresholds MpnTiers.

Local Open Scope Z_scope.

(** The Barrett tier (mu_div_qr and mu_div_qr_itch of div_mu.hpp) is an argument of
    the ladder: the default cap on division tiers never selects it. *)
Class BarrettTier := {
  mu_div_qr : mem -> Z -> Z -> Z -> Z -> Z -> Z -> option (mem * Z);
  mu_div_qr_itch : Z -> Z -> Z
}.

Section dc.
Context `{LimbWidth}.

Definition dc_div_itch (dn : Z) : Z := dn + mul_itch_forced dn dn.

(** while ( cy != 0 ) { qh -= sub_1(qp, qp, qn, 1); cy -= add_n(np, np, dp, n); } *)
Fixpoint add_back (fuel : nat) (m : mem) (qp qn np dp n qh cy : Z) : option (mem * Z) :=
  match fuel with
  | O => None
  | S fuel =>
      if negb (Z.eqb cy 0) then
        '(m, b) ← sub_1 m qp qp qn 1;
        '(m, c) ← add_n m np np dp n;
        add_back fuel m qp qn np dp n (to_limb (qh - b)) (to_limb (cy - c))
      else Some (m, qh)
  end.

(** Enough rounds: a quotient estimate is at most four too large. *)
Definition add_back_fuel : nat := 5.

(** One half of the quotient: divide the top of the numerator by the top of the
    divisor, subtract the product with the rest of the divisor, correct.  The
    subtrahend of a quotient digit above the vector is [dp], at [np + top]. *)
Definition subtract_rest (m : mem) (np tp n : Z) (qh top dp k : Z) : option (mem * Z) :=
  '(m, cy) ← sub_n m np np tp n;
  if negb (Z.eqb qh 0) then
    '(m, b) ← sub_n m top top dp k;
    Some (m, to_limb (cy + b))
  else Some (m, cy).

Fixpoint dc_div_qr_n (fuel : nat) (m : mem) (qp np dp n dinv tp mulsc : Z) : option (mem * Z) :=
  match fuel with
  | O => None
  | S fuel =>
      let lo := Z.shiftr n 1 in
      let hi := n - lo in
      '(m, qh) ← (if Z.ltb hi threshold.div_dc then sbpi1_div_qr m (qp + lo) (np + 2 * lo) (2 * hi) (dp + lo) hi dinv
                  else dc_div_qr_n fuel m (qp + lo) (np + 2 * lo) (dp + lo) hi dinv tp mulsc);
      m ← mul m tp (qp + lo) hi dp lo mulsc;
      '(m, cy) ← subtract_rest m (np + lo) tp n qh (np + n) dp lo;
      '(m, qh) ← add_back add_back_fuel m (qp + lo) hi (np + lo) dp n qh cy;
      '(m, ql) ← (if Z.ltb lo threshold.div_dc then sbpi1_div_qr m qp (np + hi) (2 * lo) (dp + hi) lo dinv
                  else dc_div_qr_n fuel m qp (np + hi) (dp + hi) lo dinv tp mulsc);
      m ← mul m tp dp hi qp lo mulsc;
      '(m, cy) ← subtract_rest m np tp n ql (np + lo) dp hi;
      '(m, _) ← add_back add_back_fuel m qp lo np dp n ql cy;
      Some (m, qh)
  end.

(** for ( j = qn - r; j >= dn; ) { j -= dn; ... } *)
Fixpoint dc_blocks (fuel : nat) (m : mem) (qp np dp dn dinv tp mulsc r j : Z) : option mem :=
  match fuel with
  | O => None
  | S fuel =>
      if Z.leb dn j then
        let j := j - dn in
        '(m, _) ← dc_div_qr_n (Z.to_nat dn) m (qp + r + j) (np + r + j) dp dn dinv tp mulsc;
        dc_blocks fuel m qp np dp dn dinv tp mulsc r j
      else Some m
  end.

Definition dc_div_qr (m : mem) (qp np nn dp dn dinv scratch : Z) : option (mem * Z) :=
  let tp := scratch in
  let mulsc := tp + dn in
  let qn := nn - dn in
  c ← cmp m (np + qn) dp dn;
  let qh := if Z.leb 0 c then 1 else 0 in
  m ← (if negb (Z.eqb qh 0) then void (sub_n m (np + qn) (np + qn) dp dn) else Some m);
  let r := qn mod dn in
  m ← dc_blocks (S (Z.to_nat qn)) m qp np dp dn dinv tp mulsc r (qn - r);
  m ← (if negb (Z.eqb r 0) then void (sbpi1_div_qr m qp np (r + dn) dp dn dinv) else Some m);
  Some (m, qh).

Definition div_wants_dc (nn dn : Z) : bool :=
  andb (andb (Z.leb (divalgo_u8 dc) (divalgo_u8 (clamp_to divalgo_u8 (pick_div nn dn) div_tier_cap))) (Z.leb 6 dn))
    (Z.ltb dn nn).

(** ** The ladder *)

Definition div_wants_mu (nn dn : Z) : bool :=
  andb (andb (Z.leb (divalgo_u8 mu) (divalgo_u8 (clamp_to divalgo_u8 (pick_div nn dn) div_tier_cap))) (Z.leb 2 dn))
    (Z.ltb dn nn).

Context `{BarrettTier}.

Definition divrem_itch (nn dn : Z) : Z :=
  if Z.leb dn 1 then 0
  else
    let t := nn + 1 + dn in
    if div_wants_mu (nn + 1) dn then t + mu_div_qr_itch (nn + 1) dn
    else if div_wants_dc (nn + 1) dn then t + dc_div_itch dn else t.

(** Copies the operands, shifted so that the divisor's top bit is set. *)
Definition normalize_operands (m : mem) (np nn dp dn dwork nwork sh : Z) : option mem :=
  if negb (Z.eqb sh 0) then
    '(m, _) ← lshift m dwork dp dn sh;
    '(m, top) ← lshift m nwork np nn sh;
    aset m (nwork + nn) top
  else
    m ← copyi m dwork dp dn;
    m ← copyi m nwork np nn;
    aset m (nwork + nn) 0.

(** Shifts the remainder back. *)
Definition restore_remainder (m : mem) (rp nwork dn sh : Z) : option mem :=
  if negb (Z.eqb sh 0) then void (rshift m rp nwork dn sh) else copyi m rp nwork dn.

Definition divrem (m : mem) (qp rp np nn dp dn scratch : Z) : option mem :=
  if Z.eqb dn 1 then
    d0 ← m.[dp];
    '(m, r) ← divrem_1 m qp np nn d0;
    aset m rp r
  else
    d1 ← m.[dp + (dn - 1)];
    let sh := limb_clz d1 in
    let dwork := scratch in
    let nwork := scratch + dn in
    m ← normalize_operands m np nn dp dn dwork nwork sh;
    m ← (if div_wants_mu (nn + 1) dn then
           void (mu_div_qr m qp nwork (nn + 1) dwork dn (nwork + nn + 1))
         else
           e1 ← m.[dwork + (dn - 1)];
           e0 ← m.[dwork + (dn - 2)];
           dinv ← invert_pi1 e1 e0;
           if div_wants_dc (nn + 1) dn then
             void (dc_div_qr m qp nwork (nn + 1) dwork dn dinv (nwork + nn + 1))
           else void (sbpi1_div_qr m qp nwork (nn + 1) dwork dn dinv));
    restore_remainder m rp nwork dn sh.

Definition divrem_with (K : divalgo) (m : mem) (qp rp np nn dp dn scratch : Z) : option mem :=
  if Z.eqb dn 1 then
    d0 ← m.[dp];
    '(m, r) ← divrem_1 m qp np nn d0;
    aset m rp r
  else
    d1 ← m.[dp + (dn - 1)];
    let sh := limb_clz d1 in
    let dwork := scratch in
    let nwork := scratch + dn in
    m ← normalize_operands m np nn dp dn dwork nwork sh;
    let tier := nwork + nn + 1 in
    m ← (if andb (bool_decide (K = mu)) (Z.ltb dn (nn + 1)) then
           void (mu_div_qr m qp nwork (nn + 1) dwork dn tier)
         else
           e1 ← m.[dwork + (dn - 1)];
           e0 ← m.[dwork + (dn - 2)];
           dinv ← invert_pi1 e1 e0;
           if andb (bool_decide (K <> sbpi1)) (andb (Z.leb 6 dn) (Z.ltb dn (nn + 1))) then
             void (dc_div_qr m qp nwork (nn + 1) dwork dn dinv tier)
           else void (sbpi1_div_qr m qp nwork (nn + 1) dwork dn dinv));
    restore_remainder m rp nwork dn sh.

Definition div_itch_with (K : divalgo) (nn dn : Z) : Z :=
  if Z.leb dn 1 then 0
  else
    let t := nn + 1 + dn in
    if andb (bool_decide (K = mu)) (Z.ltb dn (nn + 1)) then t + mu_div_qr_itch (nn + 1) dn
    else if andb (bool_decide (K <> sbpi1)) (andb (Z.leb 6 dn) (Z.ltb dn (nn + 1))) then t + dc_div_itch dn
    else t.
End dc.
