(* ===== verification/MpnDcProof.v ===== *)
(** Divide-and-conquer division is exact division: each half of the quotient is an
    estimate from the leading limbs, at most four too large, that adding the divisor
    back corrects. *)
From stdpp Require Import base numbers list option.
From Stdlib Require Import ZArith Lia.
From S2P Require Import Prelude Arrays Sums Limb Mpn MpnValue MpnArith MpnBits MpnMul MpnMulProof MpnDiv MpnDivProof MpnSchoolbook MpnFrame MpnToom3 Thresholds MpnKaratsubaProof MpnTiers MpnTiersProof MpnDc.

Local Open Scope Z_scope.

(** ** The contract of the division routines *)

Section contract.
Context `{LimbWidth}.

Record div_pre (m : mem) (qp np nn dp dn sc sn dinv : Z) : Prop := {
  dp_wf : wf m;
  dp_np : valid m np nn;
  dp_dp : valid m dp dn;
  dp_qp : valid m qp (nn - dn);
  dp_sc : valid m sc sn;
  dp_dn_ : disjoint dp dn np nn;
  dp_qn : disjoint qp (nn - dn) np nn;
  dp_qd : disjoint qp (nn - dn) dp dn;
  dp_ns : disjoint np nn sc sn;
  dp_ds : disjoint dp dn sc sn;
  dp_qs : disjoint qp (nn - dn) sc sn;
  dp_len : 2 <= dn <= nn;
  dp_base : dn <= base;
  dp_norm : norm_limb (cell m (dp + (dn - 1)));
  dp_recip : recip_two (cell m (dp + (dn - 1))) (cell m (dp + (dn - 2))) dinv
}.

Definition div_post (m : mem) (qp np nn dp dn sc sn : Z) (r : mem * Z) : Prop :=
  touches (fun k => (vec np nn k \/ vec qp (nn - dn) k) \/ vec sc sn k) m r.1 /\ 0 <= r.2 <= 1 /\
  num r.1 np dn < num m dp dn /\
  num m np nn = (r.2 * base ^ (nn - dn) + num r.1 qp (nn - dn)) * num m dp dn + num r.1 np dn.

Lemma sbpi1_post m qp np nn dp dn sc sn dinv : div_pre m qp np nn dp dn sc sn dinv ->
  returns (sbpi1_div_qr m qp np nn dp dn dinv) (div_post m qp np nn dp dn sc sn).
Proof.
  intros []. eapply returns_mono; [by apply sbpi1_div_qr_spec|].
  intros [m' qh] ((Hl & Hw & Hf) & Hq & Hr & E). split; [|done].
  split; [done|split; [done|]]. intros k Hk. unfold vec in Hk. apply Hf; intuition.
Qed.

(** A divisor whose top bit is set is at least half the base power. *)
Lemma normal_value m p n : wf m -> 1 <= n -> norm_limb (cell m (p + (n - 1))) -> base ^ n <= 2 * num m p n.
Proof.
  intros Hw Hn [_ Hd]. pose proof (num_range m p (n - 1) Hw ltac:(lia)).
  replace n with (n - 1 + 1) at 1 2 by lia. rewrite num_succ, Z.pow_add_r, Z.pow_1_r by lia.
  pose proof (Z.pow_pos_nonneg base (n - 1)). pose proof base_ge. nia.
Qed.

(** A part of the quotient and of the numerator, and a later memory. *)
Lemma div_pre_part m qp np nn dp n sc sn dinv o k : div_pre m qp np nn dp n sc sn dinv ->
  0 <= o -> 0 <= k -> o + k <= nn - n -> div_pre m (qp + o) (np + o) (n + k) dp n sc sn dinv.
Proof. intros [] Ho Hk Hok. constructor; replace (n + k - n) with k by lia; try done; vecs. Qed.

Lemma div_pre_later P m m' qp np nn dp n sc sn dinv : div_pre m qp np nn dp n sc sn dinv ->
  touches P m m' -> (forall c, vec dp n c -> ~ P c) -> div_pre m' qp np nn dp n sc sn dinv.
Proof.
  intros [] T HP. pose proof (touches_alen _ _ _ T) as L.
  constructor; try done; try vecs; [wf_mem|..];
    rewrite ?(touches_cell _ _ _ (dp + (n - 1)) T), ?(touches_cell _ _ _ (dp + (n - 2)) T); try done; apply HP; vecs.
Qed.
End contract.

(** ** Correcting an estimate *)

Section correct.
Context `{LimbWidth}.
Context (qp k np dp n : Z) (Hk : 1 <= k) (Hn : 1 <= n).
Context (Dqn : disjoint qp k np n) (Dqd : disjoint qp k dp n) (Dnd : disjoint dp n np n).

Lemma add_back_spec N fuel : forall m qh cy, wf m -> valid m qp k -> valid m np n -> valid m dp n ->
  0 < num m dp n -> 0 <= qh <= 1 -> 0 <= cy <= 2 -> 0 <= N ->
  let X := num m np n - base ^ n * cy in
  (qh * base ^ k + num m qp k) * num m dp n + X = N -> X < num m dp n -> 0 <= X + (Z.of_nat fuel - 1) * num m dp n ->
  returns (add_back fuel m qp k np dp n qh cy) (fun '(m', qh') =>
    touches (fun c => vec qp k c \/ vec np n c) m m' /\ 0 <= qh' <= 1 /\ num m' np n < num m dp n /\
    (qh' * base ^ k + num m' qp k) * num m dp n + num m' np n = N).
Proof.
  induction fuel as [|fuel IH]; intros m qh cy Hw Vq Vn Vd HD Hq Hc HN X E Hlt Hlow.
  { exfalso. lia. }
  pose proof (num_range m np n Hw ltac:(lia)) as Rn. pose proof (num_range m qp k Hw ltac:(lia)) as Rq.
  cbn [add_back]. destruct (Z.eqb_spec cy 0) as [->|Hcy]; cbn [negb].
  { apply returns_ret. unfold X in *. split_and!; [by apply touches_refl|lia..]. }
  pose proof base_ge as Hb. pose proof (base_pow_pos k ltac:(lia)) as Pk.
  assert (X < 0) as HX by (unfold X; assert (1 <= cy) by lia; clear - H0 Rn; nia).
  assert (1 <= qh * base ^ k + num m qp k) as HQ by (clear - E HX HN HD; nia).
  eapply returns_bind; [apply sub_1_spec; [done|vecs..|split; lia]|]. intros [m1 b] (M1 & Hb0 & Hb1 & V1).
  eapply returns_bind; [apply add_n_spec; [wf_mem|vecs..]|]. intros [m2 c] (M2 & Hc2 & V2). pull_in V2.
  pose proof (num_range m2 np n ltac:(wf_mem) ltac:(lia)) as Rn2. pose proof (num_range m1 qp k ltac:(wf_mem) ltac:(lia)) as Rq2.
  assert (num m2 qp k = num m1 qp k) as Eq by (pull_goal; done). assert (num m2 dp n = num m dp n) as Ed by (pull_goal; done).
  assert (b <= qh) as Hbq by (clear - V1 HQ Rq2 Pk Hq Hb0 Hb1 Hk; unfold is_limb in *; nia).
  assert (c <= cy) as Hcc by lia. unfold is_limb in Hb0.
  rewrite !to_limb_id by (unfold is_limb; lia).
  eapply returns_mono.
  - apply (IH m2 (qh - b) (cy - c)); [wf_mem|vecs|vecs|vecs|by rewrite Ed|lia|lia|done|..]; rewrite Ed, ?Eq.
    + rewrite <- E. unfold X. clear - V1 V2. nia.
    + unfold X in HX. clear - V2 HX. nia.
    + clear - V2 Hlow. unfold X in *. nia.
  - intros [m' qh'] (T & ? & Hr & E'). rewrite Ed in *. split; [|done].
    apply (touches_trans _ _ m2); [touched|done].
Qed.
End correct.

Lemma subtract_rest_spec `{LimbWidth} m np tp n qh dp k : wf m -> valid m np n -> valid m tp n -> valid m dp k ->
  disjoint np n tp n -> disjoint dp k np n -> 1 <= k <= n -> 0 <= qh <= 1 ->
  returns (subtract_rest m np tp n qh (np + (n - k)) dp k) (fun '(m', cy) =>
    touches (vec np n) m m' /\ 0 <= cy <= 2 /\
    num m' np n - base ^ n * cy = num m np n - num m tp n - qh * (base ^ (n - k) * num m dp k)).
Proof.
  intros Hw Vn Vt Vd Dt Dd Hk Hq. unfold subtract_rest.
  eapply returns_bind; [apply sub_n_spec; [done|vecs..]|]. intros [m1 cy] (M1 & Hc & V1).
  destruct (Z.eqb_spec qh 0) as [->|Hq0]; cbn [negb].
  { apply returns_ret. split_and!; [done|lia..]. }
  eapply returns_bind; [apply sub_n_spec; [wf_mem|vecs..]|]. intros [m2 b] (M2 & Hb & V2). pull_in V2.
  apply returns_ret. pose proof base_ge. rewrite to_limb_id by (unfold is_limb; lia).
  split; [touched|]. split; [lia|]. assert (qh = 1) as -> by lia.
  rewrite (num_split_at m1 np (n - k) n) in V1 by lia. rewrite (num_split_at m2 np (n - k) n) by lia.
  replace (num m2 np (n - k)) with (num m1 np (n - k)) by (symmetry; pull_goal; done).
  replace (n - (n - k)) with k in * by lia.
  assert (base ^ n = base ^ (n - k) * base ^ k) as Ep by (rewrite <- Z.pow_add_r by lia; f_equal; lia).
  rewrite Ep in *. clear - V1 V2. nia.
Qed.

(** ** Half a quotient *)

(** The estimate from the leading limbs is not below the quotient, and at most four
    above it. *)
Lemma half_estimate P K a r D0 D1 Q qh T N D : 0 <= a < P -> 0 <= r < D1 -> 0 <= D0 < P -> 0 <= Q < K -> 0 <= qh <= 1 ->
  D = D0 + P * D1 -> P * K <= 2 * D -> T = (qh * K + Q) * D1 + r -> N = a + P * T ->
  let X := a + P * r - Q * D0 - qh * (K * D0) in
  (qh * K + Q) * D + X = N /\ X < D /\ 0 <= X + 4 * D.
Proof.
  intros Ha Hr HD0 HQ Hq -> HD -> -> X. unfold X.
  split; [ring|]. assert (0 <= (qh * K + Q) * D0 <= 2 * (P * K)) as HX.
  { split; [apply Z.mul_nonneg_nonneg; nia|]. transitivity ((2 * K) * D0); [|nia]. apply Z.mul_le_mono_nonneg_r; nia. }
  assert (P * r <= P * (D1 - 1)) by (apply Z.mul_le_mono_nonneg_l; lia). split; nia.
Qed.

Section half.
Context `{LimbWidth}.
Context (m : mem) (qp np dp n j k sc tn it dinv : Z).
Context (Hn : n = j + k) (Hj : 1 <= j) (Hk : 2 <= k) (Htn : n <= tn) (Hit : 0 <= it).
Context (Hpre : div_pre m qp np (n + k) dp n sc (tn + it) dinv).

Lemma half_top : div_pre m qp (np + j) (2 * k) (dp + j) k sc (tn + it) dinv.
Proof.
  destruct Hpre. replace (n + k - n) with k in * by lia.
  constructor; replace (2 * k - k) with k by lia; try done; try vecs; try lia.
  - replace (dp + j + (k - 1)) with (dp + (n - 1)) by lia. done.
  - replace (dp + j + (k - 1)) with (dp + (n - 1)) by lia. replace (dp + j + (k - 2)) with (dp + (n - 2)) by lia. done.
Qed.

(** From the division of the leading limbs: the product with the other limbs of the
    divisor is subtracted and the estimate corrected. *)
Lemma half_rest m1 qh (mulx : option mem) :
  div_post m qp (np + j) (2 * k) (dp + j) k sc (tn + it) (m1, qh) ->
  returns mulx (fun m2 => touches (fun c => vec sc n c \/ vec (sc + tn) it c) m1 m2 /\
    num m2 sc n = num m1 qp k * num m1 dp j) ->
  returns mulx (fun m2 => returns (subtract_rest m2 np sc n qh (np + k) dp j) (fun '(m3, cy) =>
    returns (add_back add_back_fuel m3 qp k np dp n qh cy) (div_post m qp np (n + k) dp n sc (tn + it)))).
Proof.
  intros [T1 [Hq [HR E1]]] Hmul. cbn [fst snd] in *. eapply returns_mono; [exact Hmul|]. intros m2 [M2 V2]. clear Hmul.
  destruct Hpre as [Hw Vn Vd Vq Vs Ddn Dqn Dqd Dns Dds Dqs Hlen Hbase Hnorm _].
  pose proof (normal_value m dp n Hw ltac:(lia) Hnorm) as HDn.
  replace (n + k - n) with k in * by lia. replace (2 * k - k) with k in * by lia.
  pull_in V2.
  assert (touches (fun c => (vec np (n + k) c \/ vec qp k c) \/ vec sc (tn + it) c) m m2) as T2 by touched.
  assert (num m2 np n = num m np j + base ^ j * num m1 (np + j) k) as En.
  { replace n with (j + k) at 1 by lia. rewrite num_split by lia. f_equal; [|f_equal]; pull_goal; done. }
  assert (num m2 dp j = num m dp j) as Ed by (pull_goal; done).
  assert (num m dp n = num m dp j + base ^ j * num m (dp + j) k) as ED by (replace n with (j + k) by lia; by rewrite num_split by lia).
  assert (num m np (n + k) = num m np j + base ^ j * num m (np + j) (2 * k)) as EN
    by (replace (n + k) with (j + 2 * k) by lia; by rewrite num_split by lia).
  assert (num m2 qp k = num m1 qp k) as Eq by (pull_goal; done).
  assert (wf m2) as Hw2 by wf_mem. assert (alen m2 = alen m) as L2 by apply (touches_alen _ _ _ T2).
  assert (wf m1) as Hw1 by wf_mem.
  pose proof (num_range m np j Hw ltac:(lia)) as Ra. pose proof (num_range m1 (np + j) k Hw1 ltac:(lia)) as Rr.
  pose proof (num_range m dp j Hw ltac:(lia)) as Rd. pose proof (num_range m1 qp k Hw1 ltac:(lia)) as Rq.
  pose proof (num_range m (dp + j) k Hw ltac:(lia)) as Rd'.
  pose proof (num_range m np (n + k) Hw ltac:(lia)) as RN.
  clear T1 M2.
  replace (np + k) with (np + (n - j)) by lia.
  eapply returns_mono; [apply (subtract_rest_spec m2 np sc n qh dp j); [done|vecs..|done]|].
  intros [m3 cy] (M3 & Hcy & V3). rewrite V2, En, Ed in V3. replace (n - j) with k in V3 by lia.
  destruct (half_estimate (base ^ j) (base ^ k) (num m np j) (num m1 (np + j) k) (num m dp j) (num m (dp + j) k)
    (num m1 qp k) qh (num m (np + j) (2 * k)) (num m np (n + k)) (num m dp n)) as (HX1 & HX2 & HX3); try done; try lia.
  { rewrite <- Z.pow_add_r by lia. by rewrite <- Hn. }
  assert (num m3 dp n = num m dp n) as Ed3 by (pull_goal; done).
  assert (num m3 qp k = num m1 qp k) as Eq3 by (pull_goal; rewrite <- Eq; pull_goal; done).
  eapply returns_mono.
  - apply (add_back_spec qp k np dp n ltac:(lia) ltac:(lia) ltac:(vecs) ltac:(vecs) ltac:(vecs) (num m np (n + k)) 5 m3 qh cy);
      [wf_mem|vecs|vecs|vecs|..]; rewrite ?Ed3, ?Eq3; cbv zeta; rewrite ?V3; done || lia.
  - intros [m4 qh'] (M4 & Hq4 & HR4 & E4). rewrite Ed3 in *. split; [|split_and!; cbn [fst snd]; [lia|lia|done|]].
    + cbn [fst]. replace (n + k - n) with k by lia. drop_values. touched.
    + replace (n + k - n) with k by lia. rewrite <- E4. done.
Qed.
End half.

(** ** The recursion *)

Section recursion.
Context `{LimbWidth}.

(** The scratch area holds a product of [n] limbs and the work of its factors. *)
Definition mul_room (n it : Z) : Prop := 0 <= it /\
  forall a b, 1 <= b <= a -> a + b <= n -> mul_itch a b threshold.mul_karatsuba <= it.

Lemma mul_room_le n n' it : mul_room n it -> n' <= n -> mul_room n' it.
Proof. intros [? Hr] Hle. split; [done|]. intros. apply Hr; lia. Qed.

(** The product of a quotient part with the rest of the divisor, in the scratch area. *)
Lemma half_product m xp a yp b sc tn it : wf m -> valid m xp a -> valid m yp b -> valid m sc (tn + it) ->
  disjoint xp a sc (tn + it) -> disjoint yp b sc (tn + it) -> 1 <= b <= a -> a + b <= tn -> a <= base -> mul_room (a + b) it ->
  returns (mul m sc xp a yp b (sc + tn)) (fun m' =>
    touches (fun c => vec sc (a + b) c \/ vec (sc + tn) it c) m m' /\ num m' sc (a + b) = num m xp a * num m yp b).
Proof.
  intros Hw Vx Vy Vs Dx Dy Hb Htn Hbase [Hit Hr].
  apply (mul_spec m sc xp a yp b (sc + tn) it); [apply Hr; lia|]. constructor; try done; vecs.
Qed.

(** The two halves make the quotient. *)
Lemma join_halves m m4 m8 qp np dp n lo hi sc sn qh ql dinv : n = lo + hi -> 1 <= lo -> 1 <= hi ->
  div_pre m qp np (2 * n) dp n sc sn dinv ->
  div_post m (qp + lo) (np + lo) (n + hi) dp n sc sn (m4, qh) ->
  div_post m4 qp np (n + lo) dp n sc sn (m8, ql) ->
  div_post m qp np (2 * n) dp n sc sn (m8, qh).
Proof.
  intros En Hlo Hhi [Hw Vn Vd Vq Vs Ddn Dqn Dqd Dns Dds Dqs Hlen Hbase Hnorm _] (T4 & Hq & HR4 & E4) (T8 & Hql & HR8 & E8).
  cbn [fst snd] in *. replace (n + hi - n) with hi in * by lia. replace (n + lo - n) with lo in * by lia.
  replace (2 * n - n) with n in * by lia.
  assert (num m4 dp n = num m dp n) as ED by (pull_goal; done).
  assert (num m4 np (n + lo) = num m np lo + base ^ lo * num m4 (np + lo) n) as EN.
  { replace (n + lo) with (lo + n) by lia. rewrite num_split by lia. f_equal. pull_goal; done. }
  assert (num m np (2 * n) = num m np lo + base ^ lo * num m (np + lo) (n + hi)) as EN0
    by (replace (2 * n) with (lo + (n + hi)) by lia; by rewrite num_split by lia).
  assert (num m8 qp n = num m8 qp lo + base ^ lo * num m4 (qp + lo) hi) as EQ.
  { replace n with (lo + hi) at 1 by lia. rewrite num_split by lia. do 2 f_equal. pull_goal; done. }
  assert (wf m4) as Hw4 by wf_mem. assert (wf m8) as Hw8 by wf_mem.
  pose proof (num_range m np lo Hw ltac:(lia)) as Ra. pose proof (num_range m8 qp lo Hw8 ltac:(lia)) as Rq.
  pose proof (num_range m8 np n Hw8 ltac:(lia)) as Rr. pose proof (base_pow_pos lo ltac:(lia)) as Pl.
  assert (base ^ n = base ^ lo * base ^ hi) as Ep by (rewrite <- Z.pow_add_r by lia; f_equal; lia).
  rewrite ED in *. assert (ql = 0) as ->.
  { assert (base ^ lo * num m4 (np + lo) n <= base ^ lo * (num m dp n - 1)) by (apply Z.mul_le_mono_nonneg_l; lia).
    destruct (decide (ql = 1)) as [->|]; [exfalso|lia]. clear - EN E8 Ra Rq Rr Pl HR8 H0. nia. }
  split; [drop_values; cbn [fst]; touched|]. split; [done|]. split; [done|]. cbn [fst snd]. replace (2 * n - n) with n by lia.
  rewrite EN0, E4, EQ, Ep. rewrite EN in E8.
  replace (num m np lo) with ((0 * base ^ lo + num m8 qp lo) * num m dp n + num m8 np n - base ^ lo * num m4 (np + lo) n) by lia.
  ring.
Qed.

Lemma dc_div_qr_n_spec fuel : forall m qp np dp n sc tn it dinv, 4 <= n <= Z.of_nat fuel -> n <= tn -> mul_room n it ->
  div_pre m qp np (2 * n) dp n sc (tn + it) dinv ->
  returns (dc_div_qr_n fuel m qp np dp n dinv sc (sc + tn)) (div_post m qp np (2 * n) dp n sc (tn + it)).
Proof.
  induction fuel as [|fuel IH]; intros m qp np dp n sc tn it dinv Hn Htn Hroom Hpre; [lia|].
  cbn [dc_div_qr_n]. cbv zeta. rewrite Z.shiftr_div_pow2 by lia. change (2 ^ 1) with 2.
  pose proof (Z.div_mod n 2 ltac:(lia)) as Hdm. pose proof (Z.mod_pos_bound n 2 ltac:(lia)) as Hmod.
  remember (n / 2) as lo eqn:Elo. remember (n - lo) as hi eqn:Ehi. clear Elo.
  assert (n = lo + hi) as En by lia. assert (2 <= lo <= hi) as Hlo by lia. assert (hi < n) as Hhi by lia.
  assert (forall m' qp' np' dp' k, 2 <= k <= hi -> div_pre m' qp' np' (2 * k) dp' k sc (tn + it) dinv ->
    returns (if Z.ltb k threshold.div_dc then sbpi1_div_qr m' qp' np' (2 * k) dp' k dinv
             else dc_div_qr_n fuel m' qp' np' dp' k dinv sc (sc + tn)) (div_post m' qp' np' (2 * k) dp' k sc (tn + it))) as Hcore.
  { intros m' qp' np' dp' k Hk Hp. destruct (Z.ltb_spec k threshold.div_dc) as [|Hge]; [by eapply sbpi1_post|].
    assert (4 <= threshold.div_dc) by (unfold threshold.div_dc, threshold.by_width; destruct (Z.eqb _ _); lia).
    apply IH; [lia|lia|eapply mul_room_le; [exact Hroom|lia]|done]. }
  pose proof (div_pre_part _ _ _ _ _ _ _ _ _ lo hi Hpre ltac:(lia) ltac:(lia) ltac:(lia)) as Hp1.
  destruct Hroom as [Hit Hroom].
  destruct (Hcore m (qp + lo) (np + lo + lo) (dp + lo) hi ltac:(lia)) as ([m1 qh] & E1 & P1).
  { apply (half_top m (qp + lo) (np + lo) dp n lo hi sc tn it); done || lia. }
  replace (np + 2 * lo) with (np + lo + lo) by lia. rewrite E1. cbn [mbind option_bind].
  destruct (half_rest m (qp + lo) (np + lo) dp n lo hi sc tn it dinv ltac:(lia) ltac:(lia) ltac:(lia) Htn Hit Hp1 m1 qh
    (mul m1 sc (qp + lo) hi dp lo (sc + tn)) P1) as (m2 & E2 & [m3 cy] & E3 & [m4 qh4] & E4 & P4).
  { destruct P1 as [T1 _], Hpre. cbn [fst] in T1. replace (2 * n - n) with n in * by lia.
    eapply returns_mono; [apply (half_product m1 (qp + lo) hi dp lo sc tn it); [wf_mem|vecs..|lens|split; [idx|intros; apply Hroom; idx]]|].
    intros m' [T' V']. replace (hi + lo) with n in * by lia. done. }
  rewrite E2. cbn [mbind option_bind]. replace (np + lo + hi) with (np + n) in E3 by lia. rewrite E3. cbn [mbind option_bind].
  rewrite E4. cbn [mbind option_bind]. clear E1 E2 E3 E4 P1 m1 m2 m3 qh cy.
  pose proof (div_pre_part _ _ _ _ _ _ _ _ _ 0 lo Hpre ltac:(lia) ltac:(lia) ltac:(lia)) as Hp2.
  rewrite !Z.add_0_r in Hp2.
  assert (div_pre m4 qp np (n + lo) dp n sc (tn + it) dinv) as Hp4.
  { destruct P4 as [T4 _]. apply (div_pre_later _ m m4 _ _ _ _ _ _ _ _ Hp2 T4). destruct Hpre. cbn [fst].
    replace (2 * n - n) with n in * by lia. replace (n + hi - n) with hi in * by lia. vecs. }
  destruct (Hcore m4 qp (np + hi) (dp + hi) lo ltac:(lia)) as ([m5 ql] & E5 & P5).
  { apply (half_top m4 qp np dp n hi lo sc tn it); done || lia. }
  rewrite E5. cbn [mbind option_bind].
  destruct (half_rest m4 qp np dp n hi lo sc tn it dinv ltac:(lia) ltac:(lia) ltac:(lia) Htn Hit Hp4 m5 ql
    (mul m5 sc dp hi qp lo (sc + tn)) P5) as (m6 & E6 & [m7 cy] & E7 & [m8 ql8] & E8 & P8).
  { destruct P5 as [T5 _], Hp4. cbn [fst] in T5. replace (n + lo - n) with lo in * by lia.
    eapply returns_mono; [apply (half_product m5 dp hi qp lo sc tn it); [wf_mem|vecs..|lens|split; [idx|intros; apply Hroom; idx]]|].
    intros m' [T' V']. replace (hi + lo) with n in * by lia. split; [done|]. rewrite V'. apply Z.mul_comm. }
  rewrite E6. cbn [mbind option_bind]. rewrite E7. cbn [mbind option_bind].
  rewrite E8. cbn [mbind option_bind]. clear E5 E6 E7 E8 P5 m5 m6 m7 ql cy Hcore IH.
  apply returns_ret. eapply (join_halves m m4 m8 qp np dp n lo hi); [lia|lia|lia|exact Hpre|exact P4|exact P8].
Qed.
End recursion.

(** ** Long numerators, a block of the quotient at a time *)

Section blocks.
Context `{LimbWidth}.
Context (m : mem) (qp np nn dp dn sc tn it dinv : Z).
Context (Hpre : div_pre m qp np nn dp dn sc (tn + it) dinv).
Let qn := nn - dn.
Let D := num m dp dn.

(** The quotient is known from limb [t] on; the remainder stands above it. *)
Definition blocks_inv (t : Z) (m' : mem) : Prop :=
  touches (fun k => (vec np nn k \/ vec qp (nn - dn) k) \/ vec sc (tn + it) k) m m' /\
  num m' (np + t) dn < D /\ num m np nn = num m' np (t + dn) + base ^ t * (num m' (qp + t) (qn - t) * D).

Lemma dc_blocks_step m1 m2 qh t' s : 0 <= t' -> 0 <= s -> t' + s <= qn -> blocks_inv (t' + s) m1 ->
  div_post m1 (qp + t') (np + t') (dn + s) dp dn sc (tn + it) (m2, qh) -> blocks_inv t' m2.
Proof.
  intros Ht Hs Hts (T1 & HR & E) (T2 & Hq & HR2 & E2). cbn [fst snd] in *.
  destruct Hpre as [Hw Vn Vd Vq Vs Ddn Dqn Dqd Dns Dds Dqs Hlen Hbase Hnorm _].
  replace (dn + s - dn) with s in * by lia. unfold qn in *.
  assert (num m1 dp dn = D) as ED by (unfold D; pull_goal; done). rewrite ED in HR2, E2. clearbody D.
  assert (wf m1) as Hw1 by wf_mem. assert (wf m2) as Hw2 by wf_mem.
  assert (num m1 np (t' + s + dn) = num m1 np t' + base ^ t' * num m1 (np + t') (dn + s)) as EN
    by (replace (t' + s + dn) with (t' + (dn + s)) by lia; by rewrite num_split by lia).
  assert (num m2 np (t' + dn) = num m1 np t' + base ^ t' * num m2 (np + t') dn) as EN2.
  { rewrite num_split by lia. f_equal. pull_goal; done. }
  assert (num m2 (qp + t') (nn - dn - t') = num m2 (qp + t') s + base ^ s * num m1 (qp + (t' + s)) (nn - dn - (t' + s))) as EQ.
  { replace (nn - dn - t') with (s + (nn - dn - (t' + s))) by lia. rewrite num_split by lia.
    replace (qp + t' + s) with (qp + (t' + s)) by lia. do 2 f_equal. pull_goal; done. }
  assert (num m1 (np + t') (dn + s) = num m1 (np + t') s + base ^ s * num m1 (np + (t' + s)) dn) as ES.
  { replace (dn + s) with (s + dn) by lia. rewrite num_split by lia. by replace (np + t' + s) with (np + (t' + s)) by lia. }
  pose proof (num_range m1 (np + t') s Hw1 ltac:(lia)) as Ra. pose proof (num_range m2 (np + t') dn Hw2 ltac:(lia)) as Rr.
  pose proof (num_range m2 (qp + t') s Hw2 ltac:(lia)) as Rq. pose proof (base_pow_pos s ltac:(lia)) as Ps.
  assert (base ^ (t' + s) = base ^ t' * base ^ s) as Ep by (rewrite Z.pow_add_r by lia; done).
  assert (qh = 0) as ->.
  { assert (base ^ s * num m1 (np + (t' + s)) dn <= base ^ s * (D - 1)) by (apply Z.mul_le_mono_nonneg_l; lia).
    destruct (decide (qh = 1)) as [->|]; [exfalso|lia]. clear - ES E2 Ra Rq Rr Ps HR2 H0. nia. }
  split; [drop_values; touched|]. split; [done|]. unfold qn. rewrite E, EN, EN2, EQ, E2, Ep. ring.
Qed.

(** The loop over whole blocks, from [j = qn - r] down to the [r] limbs left over. *)
Lemma dc_blocks_spec fuel : forall m1 r j, 4 <= dn <= tn -> mul_room dn it -> 0 <= r -> 0 <= j -> r + j <= qn ->
  (exists c, j = c * dn /\ c < Z.of_nat fuel) -> blocks_inv (r + j) m1 ->
  returns (dc_blocks fuel m1 qp np dp dn dinv sc (sc + tn) r j) (blocks_inv r).
Proof.
  induction fuel as [|fuel IH]; intros m1 r j Hdn Hroom Hr Hj Hrj (c & Ec & Hc) Hinv; [exfalso; clear - Hj Ec Hc Hdn; nia|].
  cbn [dc_blocks]. destruct (Z.leb_spec dn j) as [Hle|Hgt].
  - assert (1 <= c) as Hc1 by (clear - Hle Ec Hdn; nia). cbv zeta.
    assert (div_pre m1 (qp + (r + (j - dn))) (np + (r + (j - dn))) (2 * dn) dp dn sc (tn + it) dinv) as Hp.
    { replace (2 * dn) with (dn + dn) by lia. apply (div_pre_part m1 qp np nn); [|lia|lia|unfold qn in *; lia].
      destruct Hinv as [T _]. apply (div_pre_later _ m m1 _ _ _ _ _ _ _ _ Hpre T). destruct Hpre. vecs. }
    replace (qp + r + (j - dn)) with (qp + (r + (j - dn))) by lia.
    replace (np + r + (j - dn)) with (np + (r + (j - dn))) by lia.
    destruct (dc_div_qr_n_spec (Z.to_nat dn) m1 (qp + (r + (j - dn))) (np + (r + (j - dn))) dp dn sc tn it dinv
      ltac:(lia) ltac:(lia) Hroom Hp) as ([m2 qh] & E2 & P2).
    rewrite E2. cbn [mbind option_bind]. apply IH; [done|done|done|lia|lia|exists (c - 1); split; [clear - Ec; nia|lia]|].
    replace (2 * dn) with (dn + dn) in P2 by lia.
    eapply (dc_blocks_step m1 m2 qh (r + (j - dn)) dn); [lia|lia|lia| |exact P2]. by replace (r + (j - dn) + dn) with (r + j) by lia.
  - apply returns_ret. assert (c = 0) as -> by (clear - Hgt Hj Ec Hdn; nia). by replace (r + j) with r in Hinv by lia.
Qed.

(** The limb of the quotient above its vector. *)
Lemma top_block : returns (c ← cmp m (np + qn) dp dn;
    let qh := if Z.leb 0 c then 1 else 0 in
    m ← (if negb (Z.eqb qh 0) then void (sub_n m (np + qn) (np + qn) dp dn) else Some m);
    Some (m, qh)) (fun '(m', qh) => 0 <= qh <= 1 /\
  touches (vec np nn) m m' /\ num m' (np + qn) dn < D /\ num m np nn = num m' np nn + base ^ qn * (qh * D)).
Proof.
  destruct Hpre as [Hw Vn Vd Vq Vs Ddn Dqn Dqd Dns Dds Dqs Hlen Hbase Hnorm _]. unfold qn in *.
  rewrite cmp_spec by (done || vecs). cbn [mbind option_bind]. rewrite sign_leb. fold D.
  pose proof (normal_value m dp dn Hw ltac:(lia) Hnorm) as HDn. fold D in HDn.
  pose proof (num_range m (np + (nn - dn)) dn Hw ltac:(lia)) as Rt.
  destruct (Z.leb_spec D (num m (np + (nn - dn)) dn)) as [Hge|Hlt]; cbn [negb Z.eqb].
  - unfold void. rewrite option_bind_assoc.
    eapply returns_bind; [apply sub_n_spec; [done|vecs..]|]. intros [m1 b] (M1 & Hb & V1). cbn [mbind option_bind].
    apply returns_ret. fold D in V1. pose proof (num_range m1 (np + (nn - dn)) dn ltac:(wf_mem) ltac:(lia)) as R1.
    apply no_borrow in V1; [|lia..]. split; [lia|]. split; [touched|]. split; [lia|].
    rewrite (num_split_at m np (nn - dn) nn), (num_split_at m1 np (nn - dn) nn) by lia.
    replace (nn - (nn - dn)) with dn by lia. rewrite V1.
    replace (num m1 np (nn - dn)) with (num m np (nn - dn)) by (symmetry; pull_goal; done). ring.
  - apply returns_ret. split; [lia|]. split; [by apply touches_refl|]. split; [done|]. lia.
Qed.

(** The limbs left over, by schoolbook division. *)
Lemma last_block m1 r : 0 <= r <= qn -> blocks_inv r m1 ->
  returns (if negb (Z.eqb r 0) then void (sbpi1_div_qr m1 qp np (r + dn) dp dn dinv) else Some m1) (blocks_inv 0).
Proof.
  intros Hr Hinv. destruct (Z.eqb_spec r 0) as [->|Hr0]; cbn [negb]; [by apply returns_ret|]. unfold void.
  assert (div_pre m1 qp np (dn + r) dp dn sc (tn + it) dinv) as Hp.
  { destruct Hinv as [T _]. pose proof (div_pre_later _ m m1 _ _ _ _ _ _ _ _ Hpre T) as Hp1.
    destruct (Z.add_0_r qp), (Z.add_0_r np). apply (div_pre_part m1 qp np nn); [|lia|lia|unfold qn in *; lia].
    apply Hp1. destruct Hpre. vecs. }
  replace (r + dn) with (dn + r) by lia. eapply returns_bind; [by eapply sbpi1_post|]. intros [m2 qh] P2.
  apply returns_ret. eapply (dc_blocks_step m1 m2 qh 0 r); [lia|lia|lia|done|]. by rewrite !Z.add_0_r.
Qed.
End blocks.

Lemma dc_div_qr_spec `{LimbWidth} m qp np nn dp dn sc it dinv : 4 <= dn -> mul_room dn it ->
  div_pre m qp np nn dp dn sc (dn + it) dinv ->
  returns (dc_div_qr m qp np nn dp dn dinv sc) (div_post m qp np nn dp dn sc (dn + it)).
Proof.
  intros Hdn Hroom Hpre. pose proof (top_block m qp np nn dp dn sc dn it dinv Hpre) as ([m1 qh] & E & Hq & T1 & HR & EN).
  pose proof (dp_len _ _ _ _ _ _ _ _ _ Hpre) as Hlen. pose proof (dp_dn_ _ _ _ _ _ _ _ _ _ Hpre) as Ddn.
  unfold dc_div_qr. destruct (cmp m (np + (nn - dn)) dp dn) as [c|]; [|done]. cbn [mbind option_bind] in E |- *.
  destruct (if negb _ then _ else _) as [m1'|]; [|done]. cbn [mbind option_bind] in E |- *. injection E as -> Eq.
  assert (num m1 dp dn = num m dp dn) as ED by (pull_goal; done).
  assert (div_pre m1 qp np nn dp dn sc (dn + it) dinv) as Hp1 by (apply (div_pre_later _ m m1 _ _ _ _ _ _ _ _ Hpre T1); vecs).
  set (qn := nn - dn) in *. pose proof (Z.mod_pos_bound qn dn ltac:(lia)) as Hr. pose proof (Z.div_mod qn dn ltac:(lia)) as Hdm.
  pose proof (Z.mod_le qn dn ltac:(unfold qn; lia) ltac:(lia)) as Hrq.
  eapply returns_bind.
  { apply (dc_blocks_spec m1 qp np nn dp dn sc dn it dinv Hp1); [lia|done|lia|lia|lia| |].
    - exists (qn / dn). split; [lia|]. pose proof (Z.div_le_upper_bound qn dn qn). nia.
    - replace (qn mod dn + (qn - qn mod dn)) with qn by lia. split; [apply touches_refl; wf_mem|].
      rewrite ED. split; [done|]. rewrite Z.sub_diag, num_0. replace (qn + dn) with nn by (unfold qn; lia). lia. }
  intros m2 Hinv. eapply returns_bind; [apply (last_block m1 qp np nn dp dn sc dn it dinv Hp1); [lia|exact Hinv]|].
  intros m3 (T3 & HR3 & E3). apply returns_ret. rewrite Eq. rewrite Z.add_0_r in HR3, E3. rewrite ED in *.
  replace (qp + 0) with qp in E3 by lia. rewrite Z.sub_0_r, Z.pow_0_r in E3.
  split; [|split; [done|split; [done|]]]; cbn [fst snd].
  - drop_values. apply (touches_trans _ m m1 m3); [eapply touches_mono; [exact T1|]; tauto|exact T3].
  - fold qn. rewrite EN, E3, Z.add_0_l. fold qn. ring.
Qed.

(** ** The dispatcher *)

Section dispatch.
Context `{LimbWidth}.

Record divrem_pre (m : mem) (qp rp np nn dp dn sc it : Z) : Prop := {
  dr_wf : wf m;
  dr_qp : valid m qp (nn - dn + 1);
  dr_rp : valid m rp dn;
  dr_np : valid m np nn;
  dr_dp : valid m dp dn;
  dr_sc : valid m sc it;
  dr_qr : disjoint qp (nn - dn + 1) rp dn;
  dr_qs : disjoint qp (nn - dn + 1) sc it;
  dr_rs : disjoint rp dn sc it;
  dr_nq : disjoint np nn qp (nn - dn + 1);
  dr_nr : disjoint np nn rp dn;
  dr_ns : disjoint np nn sc it;
  dr_dq : disjoint dp dn qp (nn - dn + 1);
  dr_dr : disjoint dp dn rp dn;
  dr_ds : disjoint dp dn sc it;
  dr_len : 1 <= dn <= nn;
  dr_base : dn <= base;
  dr_top : cell m (dp + (dn - 1)) <> 0
}.

Definition divrem_post (m : mem) (qp rp np nn dp dn sc it : Z) (m' : mem) : Prop :=
  touches (fun k => (vec qp (nn - dn + 1) k \/ vec rp dn k) \/ vec sc it k) m m' /\
  num m' qp (nn - dn + 1) = num m np nn / num m dp dn /\
  num m' rp dn = num m np nn mod num m dp dn.

(** A vector whose top limb is shifted up by its leading zeros. *)
Lemma shifted_divisor m p n : wf m -> 1 <= n -> cell m (p + (n - 1)) <> 0 ->
  let sh := limb_clz (cell m (p + (n - 1))) in
  0 <= sh < limb_bits /\ 0 < num m p n /\ base ^ (n - 1) <= num m p n /\
  num m p n * 2 ^ sh < base ^ n <= 2 * (num m p n * 2 ^ sh).
Proof.
  intros Hw Hn Hd sh. pose proof (wf_cell m (p + (n - 1)) Hw) as Hl.
  destruct (limb_clz_spec _ Hl Hd) as (Hs & _ & [Hls Hns]). fold sh in Hs, Hls, Hns. split; [done|].
  pose proof (num_range m p (n - 1) Hw ltac:(lia)) as R. pose proof (base_pow_pos (n - 1) ltac:(lia)) as P.
  pose proof (Z.pow_pos_nonneg 2 sh ltac:(lia) ltac:(lia)) as Ps.
  assert (base = 2 ^ (limb_bits - sh) * 2 ^ sh) as EB by (unfold base; rewrite <- Z.pow_add_r by lia; f_equal; lia).
  set (d := cell m (p + (n - 1))) in *. unfold is_limb in *.
  assert (d < 2 ^ (limb_bits - sh)) as Hd' by (clear - EB Hls Ps; nia).
  assert (num m p n = num m p (n - 1) + base ^ (n - 1) * d) as E
    by (replace n with (n - 1 + 1) at 1 by lia; by rewrite num_succ by lia).
  assert (base ^ n = base ^ (n - 1) * base) as EP by (replace n with (n - 1 + 1) at 1 by lia; rewrite Z.pow_add_r, Z.pow_1_r by lia; done).
  assert (1 <= d) as Hd1 by lia. assert (base ^ (n - 1) <= base ^ (n - 1) * d) as Hm by (clear - P Hd1; nia).
  split; [lia|]. split; [lia|]. rewrite E, EP. split.
  - assert (base ^ (n - 1) * base = base ^ (n - 1) * 2 ^ (limb_bits - sh) * 2 ^ sh) as ->
      by (rewrite <- Z.mul_assoc; f_equal; exact EB).
    apply Z.mul_lt_mono_pos_r; [done|]. clear - R Hd' P. nia.
  - transitivity (base ^ (n - 1) * (2 * (d * 2 ^ sh))); [apply Z.mul_le_mono_nonneg_l; lia|]. clear - R Ps. nia.
Qed.

(** Conversely, a value of at least half the base power has its top bit set. *)
Lemma normal_top m p n : wf m -> 1 <= n -> base ^ n <= 2 * num m p n -> norm_limb (cell m (p + (n - 1))).
Proof.
  intros Hw Hn Hge. split; [by apply wf_cell|]. pose proof (num_range m p (n - 1) Hw ltac:(lia)) as R.
  pose proof (base_pow_pos (n - 1) ltac:(lia)) as P.
  assert (num m p n = num m p (n - 1) + base ^ (n - 1) * cell m (p + (n - 1))) as E
    by (replace n with (n - 1 + 1) at 1 by lia; by rewrite num_succ by lia).
  assert (base ^ n = base ^ (n - 1) * base) as EP by (replace n with (n - 1 + 1) at 1 by lia; rewrite Z.pow_add_r, Z.pow_1_r by lia; done).
  assert (base = 2 * 2 ^ (limb_bits - 1)) as EB.
  { unfold base. rewrite <- Z.pow_succ_r by (pose proof limb_bits_pos; lia). f_equal. lia. }
  set (d := cell m (p + (n - 1))) in *. rewrite E, EP in Hge.
  assert (base < 2 * (d + 1)) as Hlt by (clear - Hge R P; nia). lia.
Qed.

Section operands.
Context (m : mem) (qp rp np nn dp dn sc it : Z) (Hpre : divrem_pre m qp rp np nn dp dn sc it).
Context (Hdn : 2 <= dn) (Hit : dn + (nn + 1) <= it).
Let sh := limb_clz (cell m (dp + (dn - 1))).
Let N := num m np nn.
Let D := num m dp dn.

Lemma normalize_operands_spec : returns (normalize_operands m np nn dp dn sc (sc + dn) sh) (fun m' =>
  touches (vec sc (dn + (nn + 1))) m m' /\ num m' sc dn = D * 2 ^ sh /\ num m' (sc + dn) (nn + 1) = N * 2 ^ sh).
Proof.
  destruct Hpre as [Hw Vq Vr Vn Vd Vs Dqr Dqs Drs Dnq Dnr Dns Ddq Ddr Dds Hlen Hbase Htop].
  clear Vq Vr Dqr Dqs Drs Dnq Dnr Ddq Ddr.
  destruct (shifted_divisor m dp dn Hw ltac:(lia) Htop) as (Hs & _ & _ & HD & _). fold sh D in HD. fold sh in Hs.
  unfold normalize_operands. destruct (Z.eqb_spec sh 0) as [E0|Hs0]; cbn [negb].
  - eapply returns_bind; [apply (copyi_spec m sc dp dn); [done|vecs..]|]. intros m1 [M1 V1].
    eapply returns_bind; [apply (copyi_spec m1 (sc + dn) np nn); [wf_mem|vecs..]|]. intros m2 [M2 V2]. pull_in V2.
    apply returns_set_tail; [vecs|].
    assert (touches (vec (sc + dn + nn) 1) m2 (upd m2 (sc + dn + nn) 0)) as M3
      by (apply touches_upd; [wf_mem|apply is_limb_0|vecs|vecs]).
    rewrite E0, Z.pow_0_r, !Z.mul_1_r. split; [touched|]. split; [by pull_goal|].
    rewrite num_upd_at by vecs. fold N. lia.
  - eapply returns_bind; [apply (lshift_spec m sc dp dn sh); [done|vecs..|lia|lia|vecs]|]. intros [m1 c1] (M1 & Hc1 & V1).
    eapply returns_bind; [apply (lshift_spec m1 (sc + dn) np nn sh); [wf_mem|vecs..|lia|lia|vecs]|].
    intros [m2 c2] (M2 & Hc2 & V2). pull_in V2. fold N in V2. fold D in V1.
    assert (is_limb c2) as Hl2 by (split; [lia|]; apply (Z.lt_trans _ (2 ^ sh)); [lia|]; apply Z.pow_lt_mono_r; lia).
    apply returns_set_tail; [vecs|].
    assert (touches (vec (sc + dn + nn) 1) m2 (upd m2 (sc + dn + nn) c2)) as M3
      by (apply touches_upd; [wf_mem|done|vecs|vecs]).
    pose proof (num_range m1 sc dn ltac:(wf_mem) ltac:(lia)) as R1.
    split; [touched|]. split; [|rewrite num_upd_at by vecs; lia].
    apply no_carry in V1; [|lia..]. rewrite <- V1. pull_goal. done.
Qed.
End operands.

Lemma restore_remainder_spec m rp nwork dn sh r : wf m -> valid m rp dn -> valid m nwork dn -> disjoint rp dn nwork dn ->
  1 <= dn -> 0 <= sh < limb_bits -> num m nwork dn = r * 2 ^ sh ->
  returns (restore_remainder m rp nwork dn sh) (fun m' => touches (vec rp dn) m m' /\ num m' rp dn = r).
Proof.
  intros Hw Vr Vn Dr Hdn Hs E. pose proof (Z.pow_pos_nonneg 2 sh ltac:(lia) ltac:(lia)) as Ps.
  unfold restore_remainder. destruct (Z.eqb_spec sh 0) as [E0|Hs0]; cbn [negb].
  - eapply returns_mono; [apply (copyi_spec m rp nwork dn); [done|vecs..]|]. intros m' [M V].
    split; [done|]. rewrite V, E, E0, Z.pow_0_r. lia.
  - unfold void. eapply returns_bind; [apply (rshift_spec m rp nwork dn sh); [done|vecs..|lia|lia|vecs]|].
    intros [m' o] (M & V & _). apply returns_ret. split; [done|]. rewrite V, E. by rewrite Z.div_mul by lia.
Qed.

(** Division of the shifted operands by a tier [f] that meets its contract. *)
Section by_tier.
Context (m : mem) (qp rp np nn dp dn sc it tsz : Z) (Hpre : divrem_pre m qp rp np nn dp dn sc it).
Context (Hdn : 2 <= dn) (Hit : dn + (nn + 1) + tsz <= it) (Ht : 0 <= tsz).
Context (f : mem -> Z -> option (mem * Z)).
Context (Hf : forall m1 dinv, div_pre m1 qp (sc + dn) (nn + 1) sc dn (sc + dn + nn + 1) tsz dinv ->
  returns (f m1 dinv) (div_post m1 qp (sc + dn) (nn + 1) sc dn (sc + dn + nn + 1) tsz)).
Let sh := limb_clz (cell m (dp + (dn - 1))).
Let N := num m np nn.
Let D := num m dp dn.

Lemma tier_divides m1 : touches (vec sc (dn + (nn + 1))) m m1 -> num m1 sc dn = D * 2 ^ sh ->
  num m1 (sc + dn) (nn + 1) = N * 2 ^ sh ->
  returns (e1 ← m1.[sc + (dn - 1)]; e0 ← m1.[sc + (dn - 2)]; dinv ← invert_pi1 e1 e0; void (f m1 dinv)) (fun m2 =>
    touches (fun k => vec qp (nn - dn + 1) k \/ vec sc it k) m m2 /\
    num m2 qp (nn - dn + 1) = N / D /\ num m2 (sc + dn) dn = (N mod D) * 2 ^ sh).
Proof.
  intros T1 VD VN. destruct Hpre as [Hw Vq Vr Vn Vd Vs Dqr Dqs Drs Dnq Dnr Dns Ddq Ddr Dds Hlen Hbase Htop].
  clear Vr Dqr Drs Dnq Dnr Ddr Ddq.
  destruct (shifted_divisor m dp dn Hw ltac:(lia) Htop) as (Hs & HD0 & HDb & HD1 & HD2). fold sh in Hs, HD1, HD2. fold D in HD0, HDb, HD1, HD2.
  rewrite !get_cell by vecs. cbn [mbind option_bind]. assert (wf m1) as Hw1 by wf_mem.
  assert (norm_limb (cell m1 (sc + (dn - 1)))) as Hn1 by (apply normal_top; [done|lia|by rewrite VD]).
  destruct (invert_pi1_spec (cell m1 (sc + (dn - 1))) (cell m1 (sc + (dn - 2)))) as (dinv & -> & Hrec).
  { split; [done|]. by apply wf_cell. }
  cbn [mbind option_bind]. unfold void. replace (nn - dn + 1) with (nn + 1 - dn) in * by lia.
  eapply returns_bind; [apply Hf; constructor; try done; try vecs; lens|]. intros [m2 qh] (T2 & Hq & HR & E).
  cbn [fst snd] in *. apply returns_ret. rewrite VD, VN in *.
  pose proof (num_range m np nn Hw ltac:(lia)) as RN. fold N in RN.
  pose proof (num_range m2 qp (nn + 1 - dn) ltac:(wf_mem) ltac:(lia)) as RQ.
  pose proof (num_range m2 (sc + dn) dn ltac:(wf_mem) ltac:(lia)) as RR.
  pose proof (Z.pow_pos_nonneg 2 sh ltac:(lia) ltac:(lia)) as Ps.
  assert (N < base ^ (nn + 1 - dn) * D) as HN.
  { apply (Z.lt_le_trans _ (base ^ (nn + 1 - dn) * base ^ (dn - 1))).
    - rewrite <- Z.pow_add_r by lia. replace (nn + 1 - dn + (dn - 1)) with nn by lia. lia.
    - apply Z.mul_le_mono_nonneg_l; [|done]. apply Z.pow_nonneg. pose proof base_ge. lia. }
  set (Q := num m2 qp (nn + 1 - dn)) in *. set (R := num m2 (sc + dn) dn) in *. set (P := base ^ (nn + 1 - dn)) in *.
  assert (qh = 0) as ->.
  { destruct (decide (qh = 1)) as [->|]; [exfalso|lia]. clear - E RQ RR HN Ps HD0. nia. }
  assert (R = (N - Q * D) * 2 ^ sh) as ER by (clear - E; nia).
  assert (0 <= N - Q * D < D) as Hr by (clear - ER RR HR Ps; nia).
  split; [drop_values; apply (touches_trans _ m m1); (eapply touches_mono; [eassumption|vecs])|].
  rewrite <- (Z.div_unique_pos N D Q (N - Q * D)), <- (Z.mod_unique_pos N D Q (N - Q * D)) by (done || lia). done.
Qed.

Lemma tier_divrem : returns (m1 ← normalize_operands m np nn dp dn sc (sc + dn) sh;
  m2 ← (e1 ← m1.[sc + (dn - 1)]; e0 ← m1.[sc + (dn - 2)]; dinv ← invert_pi1 e1 e0; void (f m1 dinv));
  restore_remainder m2 rp (sc + dn) dn sh) (divrem_post m qp rp np nn dp dn sc it).
Proof.
  eapply returns_bind; [apply (normalize_operands_spec m qp rp np nn dp dn sc it Hpre Hdn); lia|].
  intros m1 (T1 & VD & VN). eapply returns_bind; [by apply (tier_divides m1)|]. intros m2 (T2 & VQ & VR).
  destruct Hpre as [Hw Vq Vr Vn Vd Vs Dqr Dqs Drs Dnq Dnr Dns Ddq Ddr Dds Hlen Hbase Htop].
  clear Dqs Dnq Dnr Dns Ddq Ddr Dds T1 VD VN.
  destruct (shifted_divisor m dp dn Hw ltac:(lia) Htop) as (Hs & _).
  eapply returns_mono; [apply (restore_remainder_spec m2 rp (sc + dn) dn sh (N mod D)); [wf_mem|vecs..|lia|done|done]|].
  intros m3 [T3 V3]. split; [drop_values; touched|]. split; [|done]. etransitivity; [|exact VQ]. pull_goal. done.
Qed.
End by_tier.

Lemma mul_room_forced n : 1 <= n -> mul_room n (mul_itch_forced n n).
Proof.
  intros Hn. split.
  - destruct (mul_itch_forced_rungs n n ltac:(lia)) as (? & _). pose proof (need_nonneg n n 2). lia.
  - intros a b Hb Hab. by apply mul_itch_parts.
Qed.

(** With the default cap the Barrett tier is never chosen. *)
Lemma div_wants_mu_never nn dn : div_wants_mu nn dn = false.
Proof. unfold div_wants_mu. by destruct (pick_div nn dn). Qed.

(** A divisor of two limbs or more, by the two tiers. *)
Abbreviation by_tier m rp np nn dp dn sc f :=
  (m1 ← normalize_operands m np nn dp dn sc (sc + dn) (limb_clz (cell m (dp + (dn - 1))));
   m2 ← (e1 ← m1.[sc + (dn - 1)]; e0 ← m1.[sc + (dn - 2)]; dinv ← invert_pi1 e1 e0; void (f m1 dinv));
   restore_remainder m2 rp (sc + dn) dn (limb_clz (cell m (dp + (dn - 1))))).

Lemma by_schoolbook m qp rp np nn dp dn sc it : nn + 1 + dn <= it -> 2 <= dn -> divrem_pre m qp rp np nn dp dn sc it ->
  returns (by_tier m rp np nn dp dn sc (fun m1 dinv => sbpi1_div_qr m1 qp (sc + dn) (nn + 1) sc dn dinv))
    (divrem_post m qp rp np nn dp dn sc it).
Proof.
  intros. apply (tier_divrem m qp rp np nn dp dn sc it 0); try done; try lia. intros m1 dinv Hp. by eapply sbpi1_post.
Qed.

Lemma by_dc m qp rp np nn dp dn sc it : nn + 1 + dn + dc_div_itch dn <= it -> 6 <= dn ->
  divrem_pre m qp rp np nn dp dn sc it ->
  returns (by_tier m rp np nn dp dn sc (fun m1 dinv => dc_div_qr m1 qp (sc + dn) (nn + 1) sc dn dinv (sc + dn + nn + 1)))
    (divrem_post m qp rp np nn dp dn sc it).
Proof.
  intros Hit H6 Hpre. destruct (mul_room_forced dn ltac:(lia)) as [Hm0 Hm]. unfold dc_div_itch in Hit.
  apply (tier_divrem m qp rp np nn dp dn sc it (dn + mul_itch_forced dn dn)); try done; try lia.
  intros m1 dinv Hp. apply dc_div_qr_spec; [lia|by split|done].
Qed.

Lemma by_one_limb m qp rp np nn dp sc it : divrem_pre m qp rp np nn dp 1 sc it ->
  returns (d0 ← m.[dp]; '(m, r) ← divrem_1 m qp np nn d0; aset m rp r) (divrem_post m qp rp np nn dp 1 sc it).
Proof.
  intros [Hw Vq Vr Vn Vd Vs Dqr Dqs Drs Dnq Dnr Dns Ddq Ddr Dds Hlen Hbase Htop].
  rewrite get_cell by vecs. cbn [mbind option_bind]. replace (dp + (1 - 1)) with dp in Htop by lia.
  replace (nn - 1 + 1) with nn in * by lia. pose proof (wf_cell m dp Hw) as Hl.
  eapply returns_bind; [apply divrem_1_spec; [done|done|lia|done|done|done|vecs]|]. intros [m1 r] (M1 & VQ & Er).
  apply returns_set_tail; [vecs|].
  assert (is_limb r) as Hr.
  { pose proof (Z.mod_pos_bound (num m np nn) (cell m dp)). unfold is_limb in *. lia. }
  assert (touches (vec rp 1) m1 (upd m1 rp r)) as M2 by (apply touches_upd; [wf_mem|done|vecs|vecs]).
  unfold divrem_post. replace (nn - 1 + 1) with nn by lia. rewrite num_1. split; [drop_values; touched|]. split.
  - rewrite <- VQ. pull_goal. done.
  - pose proof (num_upd_at m1 rp 0 r) as E0.
    rewrite Z.add_0_r, num_0 in E0. change (0 + 1) with 1 in E0. rewrite E0 by vecs. lia.
Qed.

Context `{BarrettTier}.

Lemma divrem_spec m qp rp np nn dp dn sc it : divrem_itch nn dn <= it -> divrem_pre m qp rp np nn dp dn sc it ->
  returns (divrem m qp rp np nn dp dn sc) (divrem_post m qp rp np nn dp dn sc it).
Proof.
  intros Hit Hpre. unfold divrem. pose proof (dr_len _ _ _ _ _ _ _ _ _ Hpre) as Hlen.
  destruct (Z.eqb_spec dn 1) as [->|Hd1]; [by apply by_one_limb|].
  pose proof (dr_wf _ _ _ _ _ _ _ _ _ Hpre) as Hw. pose proof (dr_dp _ _ _ _ _ _ _ _ _ Hpre) as Vd.
  rewrite get_cell by vecs. cbn [mbind option_bind].
  unfold divrem_itch in Hit. rewrite (proj2 (Z.leb_gt dn 1)) in Hit by lia. cbv zeta in Hit.
  rewrite div_wants_mu_never in *. destruct (div_wants_dc (nn + 1) dn) eqn:Ew.
  - unfold div_wants_dc in Ew. apply andb_prop in Ew as [[_ H6%Z.leb_le]%andb_prop _]. by apply by_dc.
  - apply by_schoolbook; done || lia.
Qed.

(** The tiers pinned to schoolbook and to divide-and-conquer division. *)
Lemma divrem_with_spec K m qp rp np nn dp dn sc it : K <> mu -> div_itch_with K nn dn <= it ->
  divrem_pre m qp rp np nn dp dn sc it ->
  returns (divrem_with K m qp rp np nn dp dn sc) (divrem_post m qp rp np nn dp dn sc it).
Proof.
  intros HK Hit Hpre. unfold divrem_with. pose proof (dr_len _ _ _ _ _ _ _ _ _ Hpre) as Hlen.
  destruct (Z.eqb_spec dn 1) as [->|Hd1]; [by apply by_one_limb|].
  pose proof (dr_wf _ _ _ _ _ _ _ _ _ Hpre) as Hw. pose proof (dr_dp _ _ _ _ _ _ _ _ _ Hpre) as Vd.
  rewrite get_cell by vecs. cbn [mbind option_bind]. cbv zeta.
  unfold div_itch_with in Hit. rewrite (proj2 (Z.leb_gt dn 1)) in Hit by lia. cbv zeta in Hit.
  rewrite (bool_decide_eq_false_2 _ HK) in *. cbn [andb] in *.
  destruct (andb (bool_decide (K <> sbpi1)) _) eqn:Ew.
  - apply andb_prop in Ew as [_ [H6%Z.leb_le _]%andb_prop]. by apply by_dc.
  - apply by_schoolbook; done || lia.
Qed.
End dispatch.
