(* ===== verification/MpnTierTheorems.v ===== *)
(** What the multiplication ladder promises: every rung writes the exact product,
    within the scratch its requirement function asks for, and nothing else. *)
From stdpp Require Import base numbers list option.
From Stdlib Require Import ZArith Lia.
From S2P Require Import Prelude Arrays Sums Limb Mpn MpnValue MpnArith MpnBits MpnMul MpnMulProof MpnFrame Thresholds MpnKaratsuba MpnKaratsubaProof MpnToom3 MpnToom4 MpnTiers MpnTiersProof MpnDiv MpnDc MpnDcProof MpnTheorems.

Local Open Scope Z_scope.

Section theorems.
Context `{LimbWidth}.

(** Two rewrites of the same vectors with the same result differ in scratch alone. *)
Lemma same_product m rp ap an bp bn sc it m1 m2 : 0 <= an + bn ->
  mul_post m rp ap an bp bn sc it m1 -> mul_post m rp ap an bp bn sc it m2 ->
  forall k, ~ vec sc it k -> m1.[k] = m2.[k].
Proof.
  intros Hn [[L1 [W1 O1]] V1] [[L2 [W2 O2]] V2] k Hk. destruct (decide (vec rp (an + bn) k)) as [Hin|Hout].
  - pose proof (num_inj m1 m2 rp rp (an + bn) W1 W2 Hn ltac:(congruence) (k - rp)) as Ec. unfold vec in *.
    replace (rp + (k - rp)) with k in Ec by lia. specialize (Ec ltac:(lia)).
    destruct (decide (0 <= k < alen m)); [rewrite !get_cell by lia; by rewrite Ec|by rewrite !aget_out by lia].
  - rewrite O1, O2; intuition.
Qed.

(** C19: The automatic multiplication and squaring are exact for operands of any
    length: with the operands, the destination and a scratch area of [mul_itch]
    ([sqr_itch]) limbs apart from each other, [mul] returns, the destination holds
    the exact product, and no cell outside the destination and the scratch changes.
    This covers the choice between the quadratic, Karatsuba, Toom-3 and Toom-4
    rungs, balanced and unbalanced operands, and their recursion to the bottom. *)
Theorem ladder_multiplies m rp ap an bp bn sc :
  (mul_pre m rp ap an bp bn sc (mul_itch an bn threshold.mul_karatsuba) ->
   returns (mul m rp ap an bp bn sc) (mul_post m rp ap an bp bn sc (mul_itch an bn threshold.mul_karatsuba))) /\
  (sqr_pre m rp ap an sc (sqr_itch an threshold.sqr_karatsuba) ->
   returns (sqr m rp ap an sc) (sqr_post m rp ap an sc (sqr_itch an threshold.sqr_karatsuba))).
Proof. split; intros Hpre; [by apply mul_spec|by apply sqr_spec]. Qed.

(** The pinned tiers agree with one another and with the automatic choice: in a
    scratch area that is large enough for both, any two built tiers write the same
    memory but for the scratch, and the destination is the exact product.  Only Toom-4
    on three limbs by three is left out: [mul_itch_with] asks for too little there. *)
Theorem tiers_agree K1 K2 m rp ap an bp bn sc it :
  K1 <> nussbaumer -> K2 <> nussbaumer -> (K1 = toom4 -> ~ (an = 3 /\ bn = 3)) -> (K2 = toom4 -> ~ (an = 3 /\ bn = 3)) ->
  mul_itch_with K1 an bn <= it -> mul_itch_with K2 an bn <= it -> mul_itch an bn threshold.mul_karatsuba <= it ->
  mul_pre m rp ap an bp bn sc it ->
  exists m0 m1 m2, mul m rp ap an bp bn sc = Some m0 /\
    mul_with K1 m rp ap an bp bn sc = Some m1 /\ mul_with K2 m rp ap an bp bn sc = Some m2 /\
    num m1 rp (an + bn) = num m ap an * num m bp bn /\
    forall k, ~ vec sc it k -> m1.[k] = m2.[k] /\ m1.[k] = m0.[k].
Proof.
  intros H1 H2 H3 H4 I1 I2 I0 Hpre. pose proof (mp_bn _ _ _ _ _ _ _ _ Hpre).
  destruct (mul_spec m rp ap an bp bn sc it I0 Hpre) as (m0 & E0 & P0).
  destruct (mul_with_spec K1 m rp ap an bp bn sc it H1 ltac:(intros E; specialize (H3 E); lia) I1 Hpre) as (m1 & E1 & P1).
  destruct (mul_with_spec K2 m rp ap an bp bn sc it H2 ltac:(intros E; specialize (H4 E); lia) I2 Hpre) as (m2 & E2 & P2).
  exists m0, m1, m2. split_and!; try done; [apply P1|]. intros k Hk.
  split; (eapply same_product; [|exact P1| |exact Hk]; [lia|done]).
Qed.

(** C22: The division dispatcher gives the exact quotient and remainder for every
    divisor with a nonzero top limb, whatever its length: in a scratch area of
    [divrem_itch] limbs [divrem] returns, by the one-limb, the schoolbook or the
    divide-and-conquer routine, the quotient and remainder vectors hold N / D and
    N mod D, and nothing else but the scratch is written.  The operands may overlap
    each other.  The tiers pinned to schoolbook and to divide-and-conquer division
    give the same.  The Barrett tier is any function: no default size selects it. *)
Theorem divrem_divides `{BarrettTier} m qp rp np nn dp dn sc it : divrem_pre m qp rp np nn dp dn sc it ->
  (divrem_itch nn dn <= it -> returns (divrem m qp rp np nn dp dn sc) (divrem_post m qp rp np nn dp dn sc it)) /\
  (forall K, div_itch_with K nn dn <= it -> K <> mu ->
     returns (divrem_with K m qp rp np nn dp dn sc) (divrem_post m qp rp np nn dp dn sc it)).
Proof. intros Hpre. split; [intros; by apply divrem_spec|intros; by apply divrem_with_spec]. Qed.
End theorems.

(** C21: The scratch [mul_itch_with] asks for is enough for every pinned tier at every
    size but one: with it [mul_with] returns the exact product.  The exception is
    Toom-4 on three limbs by three, which goes to the Toom-3 kernel: with 64-bit
    limbs [mul_itch_with] asks for 20 limbs there, and when the memory ends where
    that scratch ends there is no result; with the 39 limbs Toom-3 uses there is. *)
Theorem pinned_scratch :
  (forall `{LimbWidth} K m rp ap an bp bn sc, K <> nussbaumer -> (K = toom4 -> ~ (an = 3 /\ bn = 3)) ->
     mul_pre m rp ap an bp bn sc (mul_itch_with K an bn) ->
     returns (mul_with K m rp ap an bp bn sc) (mul_post m rp ap an bp bn sc (mul_itch_with K an bn))) /\
  let _ := limb64 in
  mul_itch_with toom4 3 3 = 20 /\ mul_itch_with toom3 3 3 = 39 /\
  mul_with toom4 (replicate (12 + 20) 1) 6 0 3 3 3 12 = None /\
  is_Some (mul_with toom4 (replicate (12 + 39) 1) 6 0 3 3 3 12).
Proof.
  split.
  - intros W K m rp ap an bp bn sc HK H3 Hpre. apply mul_with_spec; [done|intros EK Eab E3; apply (H3 EK); lia|lia|done].
  - vm_compute. split_and!; try reflexivity. by eexists.
Qed.

(** ** The theorems at concrete vectors *)

#[local] Existing Instance limb64.

Ltac concrete_pre := constructor; concrete_mem.

Lemma ladder_multiplies_witness :
  let m := [2 ^ 64 - 1; 1; 2 ^ 64 - 1; 5; 9; 9; 9; 9] in
  returns (mul m 4 0 2 2 2 8) (fun m' => num m' 4 4 = (2 ^ 65 - 1) * (6 * 2 ^ 64 - 1)) /\
  returns (sqr m 4 0 2 8) (fun m' => num m' 4 4 = (2 ^ 65 - 1) * (2 ^ 65 - 1)).
Proof.
  destruct (ladder_multiplies [2 ^ 64 - 1; 1; 2 ^ 64 - 1; 5; 9; 9; 9; 9] 4 0 2 2 2 8) as [Hm Hs].
  split; (eapply returns_mono; [first [apply Hm|apply Hs]; concrete_pre|]).
  - intros m' [_ E]. etransitivity; [exact E|]. vm_compute. reflexivity.
  - intros m' [_ E]. etransitivity; [exact E|]. vm_compute. reflexivity.
Defined.

(** Four limbs by four, by Toom-4 and by rows. *)
Definition eight_limbs : mem := [2 ^ 64 - 1; 1; 7; 2 ^ 63; 5; 0; 2 ^ 64 - 1; 3] ++ replicate 120 0.

Lemma tiers_agree_witness :
  exists m1 m2, mul_with toom4 eight_limbs 8 0 4 4 4 16 = Some m1 /\ mul_with basecase eight_limbs 8 0 4 4 4 16 = Some m2 /\
    num m1 8 8 = num eight_limbs 0 4 * num eight_limbs 4 4 /\ m1.[15] = m2.[15].
Proof.
  destruct (tiers_agree toom4 basecase eight_limbs 8 0 4 4 4 16 112) as (m0 & m1 & m2 & _ & E1 & E2 & V & Hk);
    [done|done|lia|lia|vm_compute; discriminate|vm_compute; discriminate|vm_compute; discriminate|concrete_pre|].
  exists m1, m2. split; [exact E1|]. split; [exact E2|]. split; [exact V|].
  destruct (Hk 15) as [E _]; [unfold vec; lia|exact E].
Defined.

Lemma pinned_scratch_witness :
  let _ := limb64 in
  returns (mul_with toom4 eight_limbs 8 0 4 4 4 16) (fun m' => num m' 8 8 = num eight_limbs 0 4 * num eight_limbs 4 4).
Proof.
  destruct pinned_scratch as [Hp _]. eapply returns_mono.
  - apply (Hp limb64 toom4 eight_limbs 8 0 4 4 4 16); [done|lia|concrete_pre].
  - intros m' [_ E]. exact E.
Defined.

(** Four limbs by two, with the two-limb divisor overlapping the numerator; and six
    limbs by six with the tier pinned to divide and conquer. *)
Definition div_limbs : mem := [5; 6; 7; 8; 3; 2 ^ 63 + 1; 9; 1] ++ replicate 120 0.

(** A Barrett tier for the examples: schoolbook division. *)
#[local] Instance schoolbook_barrett : BarrettTier := {|
  mu_div_qr m qp np nn dp dn _ :=
    d1 ← m.[dp + (dn - 1)]; d0 ← m.[dp + (dn - 2)]; dinv ← invert_pi1 d1 d0; sbpi1_div_qr m qp np nn dp dn dinv;
  mu_div_qr_itch _ _ := 0
|}.

Lemma divrem_divides_witness :
  returns (divrem div_limbs 16 20 0 4 2 2 30) (fun m' =>
    num m' 16 3 = num div_limbs 0 4 / num div_limbs 2 2 /\ num m' 20 2 = num div_limbs 0 4 mod num div_limbs 2 2) /\
  returns (divrem_with dc div_limbs 8 10 0 7 1 6 17) (fun m' => num m' 8 2 = num div_limbs 0 7 / num div_limbs 1 6).
Proof.
  split.
  - destruct (divrem_divides div_limbs 16 20 0 4 2 2 30 90) as [Hd _]; [concrete_pre|].
    eapply returns_mono; [apply Hd; vm_compute; discriminate|]. intros m' (_ & E1 & E2). split; [exact E1|exact E2].
  - destruct (divrem_divides div_limbs 8 10 0 7 1 6 17 100) as [_ Hd]; [concrete_pre|].
    eapply returns_mono; [apply Hd; [vm_compute; discriminate|discriminate]|].
    intros m' (_ & E1 & _). exact E1.
Defined.
