(* ===== verification/Arbuint.v ===== *)
(** The bounded unsigned integers [arbuint<Bits>] (math/arbint/unsigned.hpp over the
    inline store of math/arbint/storage.hpp).

    An object is [cap_limbs] limbs followed by the limb count, at a pointer into the
    memory of the mpn routines, so that [a += a] and two operands in one object are
    what they are in the code.  Local arrays and temporaries are memory the caller
    of the definition points to: [sc] for scratch limbs, [tmp] for a temporary
    object.  The template arguments are the section's [Bits] and [Solver]; [Bits] is
    not 0. *)
From stdpp Require Import base numbers list option.
From Stdlib Require Import ZArith Lia.
From S2P Require Import Prelude Arrays Limb Mpn MpnToom3 Thresholds MpnTiers MpnDc.

Local Open Scope Z_scope.

(** What a call that may throw leaves: the memory, after a normal return or with
    [micron::except::domain_error] in flight. *)
Inductive outcome := returned (m : mem) | domain_error (m : mem).

(** A call that does not throw. *)
Definition returning (x : option mem) : option outcome := m ← x; Some (returned m).

(** The statements after a call that may throw. *)
Definition afterwards (x : option outcome) (f : mem -> option outcome) : option outcome :=
  out ← x;
  match out with returned m => f m | domain_error m => Some (domain_error m) end.

(** The operators the operator macro is expanded for. *)
Inductive binary_operator := plus | minus | times | divide | modulo | bit_and | bit_or | bit_xor.

Section arbuint.
Context `{LimbWidth} `{BarrettTier} (Bits : Z) (Solver : solver.t).

(** ** The store *)

Definition cap_limbs : Z := limbs_for Bits.

Definition excess_bits : Z := cap_limbs * limb_bits - Bits.

Definition top_mask : Z := if Z.eqb excess_bits 0 then limb_max else to_limb (Z.shiftr limb_max excess_bits).

Definition size (m : mem) (p : Z) : option Z := m.[p + cap_limbs].

Definition store (m : mem) (p : Z) : option mem :=
  m ← zero m p cap_limbs;
  aset m (p + cap_limbs) 0.

Definition set_size (m : mem) (p k : Z) : option mem :=
  aset m (p + cap_limbs) (wrap 32 (if Z.leb k cap_limbs then k else cap_limbs)).

Definition ensure (k : Z) : bool := Z.leb k cap_limbs.

Definition finish (m : mem) (p k : Z) : option mem :=
  let k := if Z.ltb cap_limbs k then cap_limbs else k in
  m ← (if negb (Z.eqb excess_bits 0) then
         if Z.eqb k cap_limbs then
           x ← m.[p + (cap_limbs - 1)];
           aset m (p + (cap_limbs - 1)) (Z.land x top_mask)
         else Some m
       else Some m);
  n ← normalize m p k;
  aset m (p + cap_limbs) (wrap 32 n).

Definition swap_with (m : mem) (p o : Z) : option mem :=
  m ← for_ 0 cap_limbs (fun i m =>
    t ← m.[p + i];
    u ← m.[o + i];
    m ← aset m (p + i) u;
    aset m (o + i) t) m;
  tn ← size m p;
  on ← size m o;
  m ← aset m (p + cap_limbs) on;
  aset m (o + cap_limbs) tn.

(** The defaulted copy operations copy every member. *)
Definition copy (m : mem) (p o : Z) : option mem := copyi m p o (cap_limbs + 1).

(** ** Conversions *)

(** sizeof(U) limbs, rounded up *)
Definition take_limbs (w : Z) : Z := (w / 8 + limb_bytes - 1) / limb_bytes.

(** [__assign_integral] of a [w]-bit type. *)
Definition __assign_integral (m : mem) (p w v : Z) : option mem :=
  let u := wrap w v in
  if Z.eqb u 0 then finish m p 0
  else
    let take := take_limbs w in
    let lim := if Z.ltb take cap_limbs then take else cap_limbs in
    '(m, _) ← for_ 0 lim (fun i '(m, u) =>
      m ← aset m (p + i) (to_limb u);
      Some (m, if Z.ltb limb_bits w then Z.shiftr u limb_bits else 0)) (m, u);
    finish m p lim.

Definition from_integral (m : mem) (p w v : Z) : option mem :=
  m ← store m p;
  __assign_integral m p w v.

Definition assign_integral (m : mem) (p w v : Z) : option mem :=
  m ← finish m p 0;
  __assign_integral m p w v.

(** The conversion to an unsigned [w]-bit type. *)
Definition to_integral (m : mem) (p w : Z) : option Z :=
  n ← size m p;
  let take := take_limbs w in
  let n := if Z.ltb n take then n else take in
  for_down n (fun i acc =>
    x ← m.[p + i];
    Some (wrap w (Z.lor (if Z.ltb limb_bits w then wrap w (Z.shiftl acc limb_bits) else 0) (wrap w x)))) 0.

Definition __assign_limbs (m : mem) (p q n : Z) : option mem :=
  m ← copyi m p q (if Z.ltb n cap_limbs then n else cap_limbs);
  finish m p n.

(** ** Queries *)

Definition arb_is_zero (m : mem) (p : Z) : option bool := n ← size m p; Some (Z.eqb n 0).

Definition arb_bit_length (m : mem) (p : Z) : option Z := n ← size m p; bitlen m p n.

Definition arb_popcount (m : mem) (p : Z) : option Z := n ← size m p; popcount m p n.

Definition arb_testbit (m : mem) (p i : Z) : option bool := n ← size m p; testbit m p n i.

Definition odd (m : mem) (p : Z) : option bool :=
  n ← size m p;
  if negb (Z.eqb n 0) then x ← m.[p]; Some (negb (Z.eqb (Z.land x 1) 0)) else Some false.

Definition even (m : mem) (p : Z) : option bool := b ← odd m p; Some (negb b).

Definition arb_cmp (m : mem) (a b : Z) : option Z :=
  an ← size m a;
  bn ← size m b;
  cmp_var m a an b bn.

(** ** Arithmetic *)

Definition zero_object (m : mem) (p : Z) : option mem := store m p.

Definition one (m : mem) (p : Z) : option mem := from_integral m p 32 1.

Definition power_of_two (m : mem) (p k : Z) : option mem :=
  m ← store m p;
  let w := k / limb_bits in
  if negb (ensure (w + 1)) then Some m
  else
    m ← zero m p (w + 1);
    x ← limb_shl 1 (k mod limb_bits);
    m ← aset m (p + w) x;
    finish m p (w + 1).

Definition add_assign (m : mem) (this o : Z) : option mem :=
  an ← size m this;
  bn ← size m o;
  if Z.eqb bn 0 then Some m
  else
    let mx := if Z.ltb bn an then an else bn in
    let mn := if Z.ltb bn an then bn else an in
    let r := this in
    let b := o in
    '(m, cy) ← add_n m r r b mn;
    '(m, cy) ← (if Z.ltb bn an then add_1 m (r + mn) (r + mn) (an - mn) cy
                else if Z.ltb an bn then add_1 m (r + mn) (b + mn) (bn - mn) cy
                else Some (m, cy));
    let n := mx in
    '(m, n) ← (if andb (negb (Z.eqb cy 0)) (Z.ltb n cap_limbs) then m ← aset m (r + n) cy; Some (m, n + 1)
               else Some (m, n));
    finish m this n.

Definition sub_assign (m : mem) (this o sc : Z) : option mem :=
  an ← size m this;
  bn ← size m o;
  if Z.eqb bn 0 then Some m
  else
    c ← cmp_var m this an o bn;
    if Z.eqb c 0 then finish m this 0
    else if Z.ltb 0 c then
      m ← void (sub m this this an o bn);
      finish m this an
    else
      let r := this in
      m ← zero m (r + an) (cap_limbs - an);
      let ext := sc in
      m ← zero m ext cap_limbs;
      m ← copyi m ext o bn;
      m ← void (sub_n m r r ext cap_limbs);
      finish m this cap_limbs.

Definition mul_scratch_limbs : Z :=
  2 * cap_limbs + 2 + mul_itch_forced cap_limbs cap_limbs + sqr_itch_forced cap_limbs.

Definition __mul_into (m : mem) (t ap an bp bn work : Z) : option mem :=
  mul_fixed cap_limbs cap_limbs Solver m t ap an bp bn work.

Definition __sqr_into (m : mem) (t ap an work : Z) : option mem := sqr_fixed cap_limbs Solver m t ap an work.

Definition __square (m : mem) (this sc : Z) : option mem :=
  an ← size m this;
  if Z.eqb an 0 then finish m this 0
  else
    let rn := 2 * an in
    let t := sc in
    m ← __sqr_into m t this an (t + rn);
    m ← copyi m this t (if Z.ltb rn cap_limbs then rn else cap_limbs);
    finish m this rn.

Definition mul_assign (m : mem) (this o sc : Z) : option mem :=
  an ← size m this;
  bn ← size m o;
  if orb (Z.eqb an 0) (Z.eqb bn 0) then finish m this 0
  else if Z.eqb o this then __square m this sc
  else
    let rn := an + bn in
    let t := sc in
    let work := t + rn in
    m ← (if Z.leb bn an then __mul_into m t this an o bn work else __mul_into m t o bn this an work);
    m ← copyi m this t (if Z.ltb rn cap_limbs then rn else cap_limbs);
    finish m this rn.

Definition div_scratch_limbs : Z := (cap_limbs + 1) + cap_limbs + divrem_itch (2 * cap_limbs) cap_limbs.

Definition __divmod_into (m : mem) (this o sc : Z) (want_quotient : bool) : option outcome :=
  an ← size m this;
  bn ← size m o;
  if Z.eqb bn 0 then Some (domain_error m)
  else if Z.ltb an bn then
    if want_quotient then m ← finish m this 0; Some (returned m) else Some (returned m)
  else
    let qn := an - bn + 1 in
    let qp := sc in
    let rp := qp + qn in
    let work := rp + bn in
    m ← divrem m qp rp this an o bn work;
    let src := if want_quotient then qp else rp in
    let n := if want_quotient then qn else bn in
    m ← copyi m this src (if Z.ltb n cap_limbs then n else cap_limbs);
    m ← finish m this n;
    Some (returned m).

Definition __divmod_both (m : mem) (this o q sc : Z) : option outcome :=
  an ← size m this;
  bn ← size m o;
  if Z.eqb bn 0 then Some (domain_error m)
  else if Z.ltb an bn then m ← finish m q 0; Some (returned m)
  else
    let qn := an - bn + 1 in
    let qp := sc in
    let rp := qp + qn in
    let work := rp + bn in
    m ← divrem m qp rp this an o bn work;
    m ← copyi m q qp (if Z.ltb qn cap_limbs then qn else cap_limbs);
    m ← finish m q qn;
    m ← copyi m this rp (if Z.ltb bn cap_limbs then bn else cap_limbs);
    m ← finish m this bn;
    Some (returned m).

Definition div_assign (m : mem) (this o sc : Z) : option outcome := __divmod_into m this o sc true.

Definition mod_assign (m : mem) (this o sc : Z) : option outcome := __divmod_into m this o sc false.

Definition shl_assign (m : mem) (this k : Z) : option mem :=
  an ← size m this;
  if orb (Z.eqb an 0) (Z.eqb k 0) then Some m
  else
    let wh := k / limb_bits in
    let bi := k mod limb_bits in
    let room := if Z.ltb (an + wh + 1) cap_limbs then an + wh + 1 else cap_limbs in
    if Z.leb room wh then finish m this 0
    else
      let keep := room - wh in
      let src := if Z.ltb keep an then keep else an in
      let r := this in
      let n := wh + src in
      '(m, n) ← (if negb (Z.eqb bi 0) then
                   '(m, top) ← lshift m (r + wh) r src bi;
                   if andb (negb (Z.eqb top 0)) (Z.ltb n room) then m ← aset m (r + n) top; Some (m, n + 1)
                   else Some (m, n)
                 else
                   m ← copyd m (r + wh) r src;
                   Some (m, n));
      m ← zero m r wh;
      finish m this n.

Definition shr_assign (m : mem) (this k : Z) : option mem :=
  an ← size m this;
  if orb (Z.eqb an 0) (Z.eqb k 0) then Some m
  else
    let wh := k / limb_bits in
    let bi := k mod limb_bits in
    if Z.leb an wh then finish m this 0
    else
      let keep := an - wh in
      let r := this in
      m ← (if negb (Z.eqb bi 0) then void (rshift m r (r + wh) keep bi) else copyi m r (r + wh) keep);
      finish m this keep.

Definition and_assign (m : mem) (this o : Z) : option mem :=
  sn ← size m this;
  on ← size m o;
  let mn := if Z.ltb sn on then sn else on in
  m ← and_n m this this o mn;
  finish m this mn.

(** The loop of [|=] and [^=] over the limbs only the longer operand has. *)
Definition copy_longer (m : mem) (r b an mn lim : Z) : option mem :=
  for_ mn lim (fun i m =>
    x ← (if Z.ltb i an then m.[r + i] else m.[b + i]);
    aset m (r + i) x) m.

Definition or_assign (m : mem) (this o : Z) : option mem :=
  an ← size m this;
  bn ← size m o;
  if Z.eqb bn 0 then Some m
  else
    let mx := if Z.ltb bn an then an else bn in
    let mn := if Z.ltb bn an then bn else an in
    let lim := if Z.ltb mx cap_limbs then mx else cap_limbs in
    m ← ior_n m this this o (if Z.ltb mn lim then mn else lim);
    m ← copy_longer m this o an mn lim;
    finish m this lim.

Definition xor_assign (m : mem) (this o : Z) : option mem :=
  an ← size m this;
  bn ← size m o;
  if Z.eqb bn 0 then Some m
  else
    let mx := if Z.ltb bn an then an else bn in
    let mn := if Z.ltb bn an then bn else an in
    let lim := if Z.ltb mx cap_limbs then mx else cap_limbs in
    m ← xor_n m this this o (if Z.ltb mn lim then mn else lim);
    m ← copy_longer m this o an mn lim;
    finish m this lim.

Definition increment (m : mem) (this tmp : Z) : option mem :=
  m ← from_integral m tmp 32 1;
  add_assign m this tmp.

Definition decrement (m : mem) (this tmp sc : Z) : option mem :=
  m ← from_integral m tmp 32 1;
  sub_assign m this tmp sc.

Definition __mul_add_1 (m : mem) (this mul add : Z) : option mem :=
  n ← size m this;
  let r := this in
  '(m, hi) ← (if negb (Z.eqb n 0) then mul_1 m r r n mul else Some (m, 0));
  '(m, hi) ← (if negb (Z.eqb n 0) then '(m, c) ← add_1 m r r n add; Some (m, to_limb (hi + c)) else Some (m, hi));
  let k := n in
  '(m, k) ← (if Z.eqb n 0 then
               if andb (negb (Z.eqb add 0)) (Z.ltb 0 cap_limbs) then m ← aset m r add; Some (m, 1)
               else Some (m, k)
             else if andb (negb (Z.eqb hi 0)) (Z.ltb k cap_limbs) then m ← aset m (r + k) hi; Some (m, k + 1)
             else Some (m, k));
  finish m this k.

Definition flip_bits (m : mem) (this : Z) : option mem :=
  let r := this in
  n ← size m this;
  m ← com m r r n;
  m ← for_ n cap_limbs (fun i m => aset m (r + i) limb_max) m;
  finish m this cap_limbs.

(** while ( e != 0 ) of [pow], over the objects [acc] and [base] *)
Fixpoint pow_loop (fuel : nat) (m : mem) (acc base e sc : Z) : option mem :=
  match fuel with
  | O => None
  | S fuel =>
      if negb (Z.eqb e 0) then
        m ← (if negb (Z.eqb (Z.land e 1) 0) then mul_assign m acc base sc else Some m);
        let e := Z.shiftr e 1 in
        m ← (if negb (Z.eqb e 0) then mul_assign m base base sc else Some m);
        pow_loop fuel m acc base e sc
      else Some m
  end.

(** The result is built in [acc]; a u64 exponent takes at most 64 rounds. *)
Definition pow (m : mem) (acc a e base sc : Z) : option mem :=
  if Z.eqb e 0 then one m acc
  else
    m ← copy m base a;
    m ← one m acc;
    pow_loop 65 m acc base e sc.

Definition set_zero (m : mem) (this : Z) : option mem := finish m this 0.

(** ** Free functions *)

(** [this OP= o] *)
Definition compound_assign (op : binary_operator) (m : mem) (this o sc : Z) : option outcome :=
  match op with
  | plus => returning (add_assign m this o)
  | minus => returning (sub_assign m this o sc)
  | times => returning (mul_assign m this o sc)
  | divide => div_assign m this o sc
  | modulo => mod_assign m this o sc
  | bit_and => returning (and_assign m this o)
  | bit_or => returning (or_assign m this o)
  | bit_xor => returning (xor_assign m this o)
  end.

(** The three functions of the operator macro; the result is the object [r]. *)
Definition operator_objects (op : binary_operator) (m : mem) (r a b sc : Z) : option outcome :=
  m ← copy m r a;
  compound_assign op m r b sc.

Definition operator_integral_right (op : binary_operator) (m : mem) (r a w v tmp sc : Z) : option outcome :=
  m ← copy m r a;
  m ← from_integral m tmp w v;
  compound_assign op m r tmp sc.

Definition operator_integral_left (op : binary_operator) (m : mem) (r w v a sc : Z) : option outcome :=
  m ← from_integral m r w v;
  compound_assign op m r a sc.

Definition operator_shl (m : mem) (r a k : Z) : option mem := m ← copy m r a; shl_assign m r k.

Definition operator_shr (m : mem) (r a k : Z) : option mem := m ← copy m r a; shr_assign m r k.

Definition operator_not (m : mem) (r a : Z) : option mem := m ← copy m r a; flip_bits m r.

Definition post_increment (m : mem) (t this tmp : Z) : option mem := m ← copy m t this; increment m this tmp.

Definition post_decrement (m : mem) (t this tmp sc : Z) : option mem := m ← copy m t this; decrement m this tmp sc.

Definition arb_sqr (m : mem) (r a sc : Z) : option mem := m ← copy m r a; __square m r sc.

(** The result's members are [quot] and [rem]. *)
Definition divmod (m : mem) (quot rem a b sc : Z) : option outcome :=
  m ← store m quot;
  m ← copy m rem a;
  __divmod_both m rem b quot sc.

(** The comparison with a [w]-bit integer, put in the limbs at [tmp]. *)
Definition cmp_integral (m : mem) (a w v tmp : Z) : option Z :=
  let take := take_limbs w in
  let u := wrap w v in
  m ← zero m tmp take;
  '(m, _) ← for_ 0 take (fun i '(m, u) =>
    m ← aset m (tmp + i) (to_limb u);
    Some (m, if Z.ltb limb_bits w then Z.shiftr u limb_bits else 0)) (m, u);
  an ← size m a;
  k ← normalize m tmp take;
  cmp_var m a an tmp k.

Definition cmp_integral_left (m : mem) (w v a tmp : Z) : option Z := c ← cmp_integral m a w v tmp; Some (- c).

(** The functions of the comparison macro for ==, !=, <, <=, > and >=: [cmp] OP 0. *)
Definition equal (m : mem) (a b : Z) : option bool := c ← arb_cmp m a b; Some (Z.eqb c 0).
Definition not_equal (m : mem) (a b : Z) : option bool := c ← arb_cmp m a b; Some (negb (Z.eqb c 0)).
Definition less (m : mem) (a b : Z) : option bool := c ← arb_cmp m a b; Some (Z.ltb c 0).
Definition less_equal (m : mem) (a b : Z) : option bool := c ← arb_cmp m a b; Some (Z.leb c 0).
Definition greater (m : mem) (a b : Z) : option bool := c ← arb_cmp m a b; Some (Z.ltb 0 c).
Definition greater_equal (m : mem) (a b : Z) : option bool := c ← arb_cmp m a b; Some (Z.leb 0 c).
End arbuint.
