(* ===== verification/ArbuintProof.v ===== *)
(** The operations of [arbuint<Bits>] compute modulo 2^Bits and keep the objects
    normalized. *)
From stdpp Require Import base numbers list option.
From Stdlib Require Import ZArith Lia.
From S2P Require Import Prelude Arrays Sums Limb Mpn MpnValue MpnArith MpnBits MpnFrame MpnToom3 Thresholds MpnKaratsuba MpnKaratsubaProof MpnTiers MpnTiersProof MpnDc MpnDcProof Arbuint.

Local Open Scope Z_scope.

(** Two steps proved together, and what follows. *)
Lemma returns_steps {A B C} (x : option A) (f : A -> option B) (g : B -> option C) Q R :
  returns (y ← x; f y) Q -> (forall z, Q z -> returns (g z) R) -> returns (y ← x; z ← f y; g z) R.
Proof. intros (z & E & HQ) Hg. destruct x as [y|]; [|done]. cbn [mbind option_bind] in *. rewrite E. by apply Hg. Qed.

Section arbuint.
Context `{W : LimbWidth} `{BarrettTier} (Bits : Z) (Solver : solver.t).

(** The widths covered: up to 256 MiB of inline storage. *)
Context (HBits : 1 <= Bits <= 2 ^ 31).

Abbreviation cap := (@cap_limbs W Bits).
Abbreviation M := (2 ^ Bits).

Abbreviation excess := (@excess_bits W Bits).
Abbreviation lw := (@limb_bits W).

Lemma cap_facts : 1 <= cap < 2 ^ 31 + 1 /\ (cap - 1) * limb_bits < Bits <= cap * limb_bits.
Proof.
  unfold cap_limbs, limbs_for. pose proof limb_bits_pos as HW. pose proof base_ge as Hb. unfold base in Hb.
  assert (Bits + (limb_bits - 1) < 2 ^ limb_bits) as Hlt.
  { apply (Z.lt_le_trans _ (2 ^ 32)); [change (2 ^ 31) with 2147483648 in *; change (2 ^ 32) with 4294967296; lia|].
    apply Z.pow_le_mono_r; lia. }
  rewrite wrap_id by (unfold in_unsigned; lia).
  pose proof (Z.div_mod (Bits + (limb_bits - 1)) _ limb_bits_nonzero) as E.
  pose proof (Z.mod_pos_bound (Bits + (limb_bits - 1)) _ limb_bits_gt) as R.
  set (c := (Bits + (limb_bits - 1)) / limb_bits) in *. clear - HW HBits E R. nia.
Qed.

Lemma cap_le_base : cap <= base.
Proof. pose proof cap_facts. pose proof base_ge. lia. Qed.

Lemma modulus_pos : 0 < M.
Proof. apply Z.pow_pos_nonneg; lia. Qed.

(** The store's limbs hold the value and some excess bits. *)
Lemma capacity_pow : base ^ cap = M * 2 ^ excess /\ 0 <= excess < limb_bits.
Proof.
  pose proof cap_facts as [Hc0 Hc]. unfold excess_bits. split; [|lia].
  rewrite base_pow2 by lia. rewrite <- Z.pow_add_r by lia. f_equal. lia.
Qed.

(** Congruence modulo the capacity is congruence modulo 2^Bits. *)
Lemma mod_capacity x y k : x = y + base ^ cap * k -> x mod M = y mod M.
Proof.
  intros ->. destruct capacity_pow as [-> _]. rewrite <- Z.mul_assoc, (Z.mul_comm M), Z.add_mod, Z.mod_mul by (pose proof modulus_pos; lia).
  rewrite Z.add_0_r. apply Z.mod_mod. pose proof modulus_pos. lia.
Qed.

Lemma below_capacity k : 0 <= k < cap -> base ^ k <= M.
Proof.
  intros Hk. pose proof cap_facts as [Hc0 Hc]. rewrite base_pow2 by lia. apply Z.pow_le_mono_r; [lia|].
  pose proof limb_bits_pos. nia.
Qed.

(** ** The representation *)

(** The object at [p] represents [v]. *)
Record arb (m : mem) (p v : Z) : Prop := {
  arb_valid : valid m p (cap + 1);
  arb_count : 0 <= cell m (p + cap) <= cap;
  arb_normal : normalized m p (cell m (p + cap));
  arb_value : num m p (cell m (p + cap)) = v;
  arb_bound : 0 <= v < M
}.

Abbreviation obj p := (vec p (cap + 1)).

Lemma arb_size m p v : arb m p v -> size Bits m p = Some (cell m (p + cap)).
Proof. intros [[] _ _ _ _]. unfold size. pose proof cap_facts. apply get_cell. lia. Qed.

(** An object that a step leaves alone. *)
Lemma arb_frame P m m' p v : arb m p v -> touches P m m' -> (forall k, obj p k -> ~ P k) -> arb m' p v.
Proof.
  intros [Hv Hc Hn Ev Hb] T HP. pose proof cap_facts as [Hcap _]. pose proof (touches_alen _ _ _ T).
  assert (cell m' (p + cap) = cell m (p + cap)) as E by (apply (touches_cell _ _ _ _ T), HP; unfold vec; lia).
  constructor; rewrite ?E; try done; [unfold valid in *; lia|..].
  - destruct Hn as [?|Hn]; [by left|]. destruct (decide (cell m (p + cap) = 0)); [by left|]. right.
    rewrite (touches_cell _ _ _ _ T); [done|]. apply HP. unfold vec. lia.
  - rewrite (touches_num _ _ _ _ _ T); [done|]. intros k Hk. apply HP. unfold vec in *. lia.
Qed.

(** A count of zero is the value zero. *)
Lemma arb_zero m p v : wf m -> arb m p v -> (cell m (p + cap) = 0 <-> v = 0).
Proof.
  intros Hw [Hv Hc Hn Ev Hb]. split; [intros E; rewrite E, num_0 in Ev; done|]. intros ->.
  destruct Hn as [?|Ht]; [done|]. destruct (decide (cell m (p + cap) = 0)) as [|Hne]; [done|]. exfalso.
  set (n := cell m (p + cap)) in *. replace n with (n - 1 + 1) in Ev by lia. rewrite num_succ in Ev by lia.
  pose proof (num_range m p (n - 1) Hw ltac:(lia)). pose proof (base_pow_pos (n - 1) ltac:(lia)).
  pose proof (wf_cell m (p + (n - 1)) Hw) as Hl. unfold is_limb in Hl. nia.
Qed.

(** ** Normalization *)

Lemma top_mask_land x : is_limb x -> Z.land x (top_mask Bits) = x mod 2 ^ (lw - excess).
Proof.
  intros Hx. destruct capacity_pow as [_ He]. unfold top_mask.
  assert (limb_max = Z.ones limb_bits) as ->
    by (unfold limb_max; rewrite limb_not_eq by apply is_limb_0; rewrite Z.ones_equiv; unfold base; lia).
  assert ((if Z.eqb excess 0 then Z.ones limb_bits else to_limb (Z.shiftr (Z.ones limb_bits) excess))
    = Z.ones (lw - excess)) as ->; [|apply Z.land_ones; lia].
  destruct (Z.eqb_spec excess 0) as [->|]; [f_equal; lia|].
  rewrite Z.shiftr_div_pow2 by lia. rewrite Z.ones_div_pow2 by lia.
  apply to_limb_id. rewrite Z.ones_equiv. unfold is_limb, base.
  pose proof (Z.pow_pos_nonneg 2 (lw - excess)).
  pose proof (Z.pow_le_mono_r 2 (lw - excess) limb_bits). lia.
Qed.

(** The value of the store's limbs modulo 2^Bits, by its top limb. *)
Lemma masked_value m p : wf m ->
  num m p (cap - 1) + base ^ (cap - 1) * (cell m (p + (cap - 1)) mod 2 ^ (lw - excess)) = num m p cap mod M.
Proof.
  intros Hw. pose proof cap_facts as [Hc0 _]. destruct capacity_pow as [Ec He].
  pose proof (num_range m p (cap - 1) Hw ltac:(lia)) as R. pose proof (base_pow_pos (cap - 1) ltac:(lia)) as P.
  pose proof (Z.pow_pos_nonneg 2 (lw - excess) ltac:(lia) ltac:(lia)) as P2.
  assert (M = base ^ (cap - 1) * 2 ^ (lw - excess)) as EM.
  { assert (0 <= lw * (cap - 1)) by (apply Z.mul_nonneg_nonneg; lia).
    rewrite base_pow2, <- Z.pow_add_r by lia. f_equal. unfold excess_bits. lia. }
  assert (num m p cap = num m p (cap - 1) + base ^ (cap - 1) * cell m (p + (cap - 1))) as E
    by (replace cap with (cap - 1 + 1) at 1 by lia; by rewrite num_succ by lia).
  set (x := cell m (p + (cap - 1))) in *. set (c := 2 ^ (lw - excess)) in *.
  pose proof (Z.div_mod x c ltac:(lia)) as Ex. pose proof (Z.mod_pos_bound x c ltac:(lia)) as Rx.
  apply (Z.mod_unique_pos _ _ (x / c)); [rewrite EM; nia|]. rewrite E, EM. rewrite Ex at 1. ring.
Qed.

Lemma low_value m p k : wf m -> 0 <= k < cap -> num m p k mod M = num m p k.
Proof.
  intros Hw Hk. apply Z.mod_small. pose proof (num_range m p k Hw ltac:(lia)). pose proof (below_capacity k Hk). lia.
Qed.

Lemma mask_spec m p k : wf m -> valid m p (cap + 1) -> 0 <= k <= cap ->
  returns (if negb (Z.eqb excess 0) then
      if Z.eqb k cap then x ← m.[p + (cap - 1)]; aset m (p + (cap - 1)) (Z.land x (top_mask Bits)) else Some m
    else Some m) (fun m' => touches (vec p cap) m m' /\ num m' p k = num m p k mod M).
Proof.
  intros Hw Hv Hk. pose proof cap_facts as [Hc0 _]. destruct capacity_pow as [Ec He]. pose proof modulus_pos as HM.
  destruct (Z.eqb_spec excess 0) as [E0|Hne]; cbn [negb].
  - apply returns_ret. split; [by apply touches_refl|]. destruct (decide (k = cap)) as [->|].
    + rewrite E0, Z.pow_0_r, Z.mul_1_r in Ec. rewrite <- Ec. symmetry. apply Z.mod_small, num_range; [done|lia].
    + symmetry. apply low_value; [done|lia].
  - destruct (Z.eqb_spec k cap) as [->|Hkc].
    + rewrite get_cell by vecs. cbn [mbind option_bind]. pose proof (wf_cell m (p + (cap - 1)) Hw) as Hl.
      rewrite top_mask_land by done. apply returns_set_tail; [vecs|].
      set (y := cell m (p + (cap - 1)) mod 2 ^ (lw - excess)).
      assert (is_limb y) as Hy.
      { unfold y, is_limb. pose proof (Z.mod_pos_bound (cell m (p + (cap - 1))) (2 ^ (lw - excess))
          ltac:(apply Z.pow_pos_nonneg; lia)). pose proof (Z.pow_le_mono_r 2 (lw - excess) limb_bits).
        unfold base. lia. }
      split; [apply touches_upd; [done|done|vecs|vecs]|]. rewrite <- masked_value by done. fold y.
      pose proof (num_upd_at m p (cap - 1) y) as E. replace (cap - 1 + 1) with cap in E by lia. apply E; vecs.
    + apply returns_ret. split; [by apply touches_refl|]. symmetry. apply low_value; [done|lia].
Qed.

Lemma finish_spec m p k : wf m -> valid m p (cap + 1) -> 0 <= k ->
  returns (finish Bits m p k) (fun m' => touches (obj p) m m' /\ arb m' p (num m p (Z.min k cap) mod M)).
Proof.
  intros Hw Hv Hk. pose proof cap_facts as [Hc0 _]. pose proof modulus_pos as HM. unfold finish.
  assert ((if Z.ltb cap k then cap else k) = Z.min k cap) as -> by (destruct (Z.ltb_spec cap k); lia). cbv zeta.
  eapply returns_bind; [apply (mask_spec m p (Z.min k cap)); [done|done|lia]|]. intros m1 [T1 V1].
  destruct (normalize_spec m1 p (Z.min k cap)) as (n & -> & Hn & Nn & En); [vecs|]. cbn [mbind option_bind].
  apply returns_set_tail; [vecs|]. rewrite wrap_id by (unfold in_unsigned; change (2 ^ 31) with 2147483648 in *; lia).
  pose proof cap_le_base as Hcb. pose proof base_ge as Hb.
  assert (is_limb n) as Hl by (unfold is_limb; lia).
  assert (touches (vec (p + cap) 1) m1 (upd m1 (p + cap) n)) as T2 by (apply touches_upd; [wf_mem|done|vecs|vecs]).
  split; [drop_values; touched|].
  assert (cell (upd m1 (p + cap) n) (p + cap) = n) as Ec by (unfold cell; rewrite aget_upd_eq by vecs; done).
  constructor; rewrite ?Ec; [vecs|lia| | |].
  - destruct Nn as [?|Nn]; [by left|]. destruct (decide (n = 0)); [by left|]. right.
    rewrite (touches_cell _ _ _ _ T2); [done|vecs].
  - rewrite (touches_num _ _ _ _ _ T2) by vecs. congruence.
  - apply Z.mod_pos_bound. done.
Qed.

(** [m'] is [m] with cells of [P] rewritten, and the object at [p] represents [x]. *)
Definition writes (P : Z -> Prop) (m : mem) (p x : Z) (m' : mem) : Prop := touches P m m' /\ arb m' p x.

Lemma finish_to P m m1 p k x : touches P m m1 -> valid m p (cap + 1) -> (forall c, obj p c -> P c) -> 0 <= k ->
  num m1 p (Z.min k cap) mod M = x -> returns (finish Bits m1 p k) (writes P m p x).
Proof.
  intros T Hv HP Hk <-. pose proof (touches_alen _ _ _ T).
  eapply returns_mono; [apply finish_spec; [wf_mem|vecs|done]|]. intros m' [T' A].
  split; [|done]. apply (touches_trans _ m m1 m' T). by eapply touches_mono.
Qed.

(** The object keeps its value. *)
Lemma kept P m p x : wf m -> arb m p x -> returns (Some m) (writes P m p x).
Proof. intros. apply returns_ret. split; [by apply touches_refl|done]. Qed.

Lemma kept_mod P m p x y : wf m -> arb m p x -> x = y -> returns (Some m) (writes P m p (y mod M)).
Proof. intros Hw Hx <-. apply kept; [done|]. rewrite Z.mod_small by apply Hx. done. Qed.

(** A result vector outside the object is copied into it, cut to the store. *)
Lemma store_result P m m1 p src n v : touches P m m1 -> valid m p (cap + 1) -> (forall c, obj p c -> P c) ->
  valid m src n -> disjoint p (cap + 1) src n -> num m1 src n = v ->
  returns (m2 ← copyi m1 p src (if Z.ltb n cap then n else cap); finish Bits m2 p n) (writes P m p (v mod M)).
Proof.
  intros T Hv HP Hs Hd E. pose proof cap_facts as [Hc0 _]. pose proof (touches_alen _ _ _ T).
  assert ((if Z.ltb n cap then n else cap) = Z.min n cap) as -> by (destruct (Z.ltb_spec n cap); lia).
  eapply returns_bind; [apply copyi_spec; [wf_mem|vecs..]|]. intros m2 [M2 V2].
  eapply finish_to; [apply (touches_trans _ m m1 m2 T); eapply touches_mono; [exact M2|]|done|done|unfold valid in *; lia|].
  { intros c Hc. apply HP. unfold vec in *. lia. }
  rewrite V2. destruct (decide (n <= cap)) as [Hle|Hgt]; [rewrite Z.min_l by done; by rewrite E|].
  rewrite Z.min_r by lia. rewrite (num_split_at m1 src cap n) in E by lia.
  apply (mod_capacity _ _ (- num m1 (src + cap) (n - cap))). lia.
Qed.

(** The top limb of a nonzero value. *)
Lemma arb_lower m p v : wf m -> arb m p v -> 0 < cell m (p + cap) -> base ^ (cell m (p + cap) - 1) <= v.
Proof.
  intros Hw [Hv Hc Hn Ev Hb] Hpos. set (n := cell m (p + cap)) in *. destruct Hn as [?|Hn]; [lia|].
  replace n with (n - 1 + 1) in Ev by lia. rewrite num_succ in Ev by lia.
  pose proof (num_range m p (n - 1) Hw ltac:(lia)). pose proof (wf_cell m (p + (n - 1)) Hw) as Hl. unfold is_limb in Hl.
  pose proof (base_pow_pos (n - 1) ltac:(lia)). nia.
Qed.

(** The longer of two objects is the larger. *)
Lemma longer_larger m p q v w : wf m -> arb m p v -> arb m q w -> cell m (p + cap) < cell m (q + cap) -> v < w.
Proof.
  intros Hw Hp Hq Hlt. destruct Hp as [Vp Cp Np Ep Bp]. pose proof (arb_lower m q w Hw Hq ltac:(lia)).
  pose proof (num_range m p (cell m (p + cap)) Hw ltac:(lia)).
  assert (base ^ cell m (p + cap) <= base ^ (cell m (q + cap) - 1)) by (apply Z.pow_le_mono_r; [pose proof base_ge|]; lia). lia.
Qed.

(** The scratch limbs a product asks for. *)
Lemma scratch_facts : 0 <= mul_itch_forced cap cap /\ 0 <= sqr_itch_forced cap.
Proof.
  pose proof cap_facts as [Hc0 _]. destruct (mul_room_forced cap ltac:(lia)) as [Hmf _]. split; [done|].
  destruct (sqr_itch_forced_rungs cap ltac:(lia)) as (Hsf & _). rewrite sqr_karatsuba_itch_cost in Hsf.
  pose proof (kara_cost_nonneg 5 (at_least_2 karatsuba_force) cap ltac:(lia)). lia.
Qed.

Section binary.
Context (m : mem) (this o a b : Z).
Context (Hw : wf m) (Ha : arb m this a) (Hb : arb m o b).
Context (Hal : this = o \/ disjoint this (cap + 1) o (cap + 1)).

(** The carry of the common limbs goes through the upper limbs of the longer operand. *)
Lemma carry_upper m1 an bn mn mx cy1 : 0 <= an <= cap -> 0 <= bn <= cap -> mn = Z.min an bn -> mx = Z.max an bn ->
  modifies this mn m m1 -> 0 <= cy1 <= 1 -> num m1 this mn + base ^ mn * cy1 = num m this mn + num m o mn ->
  returns (if Z.ltb bn an then add_1 m1 (this + mn) (this + mn) (an - mn) cy1
    else if Z.ltb an bn then add_1 m1 (this + mn) (o + mn) (bn - mn) cy1 else Some (m1, cy1)) (fun '(m2, cy) =>
    touches (vec this mx) m m2 /\ 0 <= cy <= 1 /\ num m2 this mx + base ^ mx * cy = num m this an + num m o bn).
Proof.
  intros Hna Hnb Emn Emx M1 Hc1 V1. destruct Ha as [Va _ _ _ _], Hb as [Vb _ _ _ _].
  assert (forall src n, mn + n = mx -> 1 <= n -> valid m src n -> fwd (this + mn) src n ->
    num m1 src n = num m src n -> num m this an + num m o bn = num m this mn + num m o mn + base ^ mn * num m src n ->
    returns (add_1 m1 (this + mn) src n cy1) (fun '(m2, cy) =>
      touches (vec this mx) m m2 /\ 0 <= cy <= 1 /\ num m2 this mx + base ^ mx * cy = num m this an + num m o bn)) as Hup.
  { intros src n En Hn Vs Fs Es E. pose proof base_ge. pose proof (modifies_alen _ _ _ _ M1).
    eapply returns_mono; [apply (add_1_spec m1 (this + mn) src n); [wf_mem|vecs|vecs|done|unfold is_limb; lia]|].
    intros [m2 cy] (M2 & Hcl & Hcy & V2). unfold is_limb in Hcl. split; [drop_values; touched|]. split; [lia|].
    rewrite <- En, (num_split m2 this mn n) by lia. rewrite E, Z.pow_add_r by lia.
    replace (num m2 this mn) with (num m1 this mn) by (symmetry; pull_goal; done). rewrite Es in V2.
    clear - V1 V2. nia. }
  destruct (Z.ltb_spec bn an) as [Hlt|Hge]; [|destruct (Z.ltb_spec an bn) as [Hlt|Hle]].
  - apply Hup; [lia|lia|vecs|left; lia|pull_goal; done|].
    rewrite (num_split_at m this mn an) by lia. replace mn with bn by lia. lia.
  - apply Hup; [lia|lia|vecs|vecs|pull_goal; done|].
    rewrite (num_split_at m o mn bn) by lia. replace mn with an by lia. lia.
  - apply returns_ret. assert (mx = mn /\ an = mn /\ bn = mn) as (-> & -> & ->) by lia. split; [done|]. split; [done|]. lia.
Qed.

Lemma add_assign_spec : returns (add_assign Bits m this o) (writes (obj this) m this ((a + b) mod M)).
Proof.
  unfold add_assign. rewrite (arb_size _ _ _ Ha), (arb_size _ _ _ Hb). cbn [mbind option_bind].
  pose proof (arb_zero _ _ _ Hw Hb) as Hz.
  destruct Ha as [Va Ca Na Ea Ba] eqn:EHa, Hb as [Vb Cb Nb Eb Bb] eqn:EHb. clear EHa EHb.
  set (an := cell m (this + cap)) in *. set (bn := cell m (o + cap)) in *. pose proof cap_facts as [Hc0 _].
  destruct (Z.eqb_spec bn 0) as [E0|Hb0]; [apply (kept_mod _ _ _ a); [done|done|]; apply Hz in E0; lia|]. cbv zeta.
  set (mx := if Z.ltb bn an then an else bn). set (mn := if Z.ltb bn an then bn else an).
  assert (mn = Z.min an bn /\ mx = Z.max an bn) as [Emn Emx] by (unfold mn, mx; destruct (Z.ltb_spec bn an); lia).
  eapply returns_bind; [apply (add_n_spec m this this o mn); [done|vecs..]|]. intros [m1 cy1] (M1 & Hc1 & V1).
  eapply returns_bind; [by apply (carry_upper m1 an bn mn mx)|]. intros [m2 cy] (T2 & Hcy & V2).
  pose proof (touches_alen _ _ _ T2) as L2. pose proof (touches_wf _ _ _ T2) as W2. clear M1 V1. rewrite Ea, Eb in V2.
  destruct (andb _ _) eqn:Eg.
  - apply andb_prop in Eg as [Hcz Hlt%Z.ltb_lt]. apply negb_true_iff, Z.eqb_neq in Hcz.
    pose proof base_ge as Hbg.
    rewrite aset_in by vecs. cbn [mbind option_bind].
    assert (touches (vec (this + mx) 1) m2 (upd m2 (this + mx) cy)) as T3
      by (apply touches_upd; [done|unfold is_limb; lia|vecs|vecs]).
    eapply finish_to; [drop_values; touched|done|vecs|lia|].
    replace (Z.min (mx + 1) cap) with (mx + 1) by lia. rewrite num_upd_at by vecs. f_equal. lia.
  - cbn [mbind option_bind]. eapply finish_to; [eapply touches_mono; [exact T2|vecs]|done|vecs|lia|].
    replace (Z.min mx cap) with mx by lia. apply Bool.andb_false_iff in Eg as [Eg|Eg].
    + apply negb_false_iff, Z.eqb_eq in Eg. f_equal. lia.
    + apply Z.ltb_ge in Eg. apply (mod_capacity _ _ (- cy)). replace mx with cap in * by lia. lia.
Qed.

Section with_scratch.
Context (sc sn : Z) (Vs : valid m sc sn).
Context (Dts : disjoint this (cap + 1) sc sn) (Dos : disjoint o (cap + 1) sc sn).
Abbreviation frame := (fun k => obj this k \/ vec sc sn k).

(** A difference below zero is computed on the whole store. *)
Lemma sub_below : cap <= sn -> a < b -> let an := cell m (this + cap) in let bn := cell m (o + cap) in
  returns (m1 ← zero m (this + an) (cap - an); m2 ← zero m1 sc cap; m3 ← copyi m2 sc o bn;
    m4 ← void (sub_n m3 this this sc cap); finish Bits m4 this cap) (writes frame m this ((a - b) mod M)).
Proof.
  intros Hsn Hlt an bn. destruct Ha as [Va Ca Na Ea Ba] eqn:EHa, Hb as [Vb Cb Nb Eb Bb] eqn:EHb. clear EHa EHb.
  fold an in Ca, Na, Ea. fold bn in Cb, Nb, Eb. pose proof cap_facts as [Hc0 _].
  assert (disjoint this (cap + 1) o (cap + 1)) as Dto.
  { destruct Hal as [E|]; [exfalso|done]. assert (a = b); [|lia]. rewrite <- Ea, <- Eb. unfold an, bn. by rewrite E. }
  clearbody an bn. clear Na Nb.
  eapply returns_bind; [apply (zero_spec m (this + an) (cap - an)); [done|vecs]|]. intros m1 [M1 V1].
  eapply returns_bind; [apply (zero_spec m1 sc cap); [wf_mem|vecs]|]. intros m2 [M2 V2].
  eapply returns_bind; [apply (copyi_spec m2 sc o bn); [wf_mem|vecs..]|]. intros m3 [M3 V3]. pull_in V3. rewrite Eb in V3.
  assert (num m3 this cap = a) as Et.
  { rewrite (num_split_at m3 this an cap) by lia. rewrite <- Ea.
    replace (num m3 (this + an) (cap - an)) with 0 by (rewrite <- V1; symmetry; pull_goal; done).
    rewrite Z.mul_0_r, Z.add_0_r. pull_goal. done. }
  assert (num m3 sc cap = b) as Es.
  { rewrite (num_split_at m3 sc bn cap), V3 by lia. rewrite (num_split_at m2 sc bn cap) in V2 by lia.
    replace (num m3 (sc + bn) (cap - bn)) with (num m2 (sc + bn) (cap - bn)) by (symmetry; pull_goal; done).
    pose proof (num_range m2 sc bn ltac:(wf_mem) ltac:(lia)). pose proof (base_pow_pos bn ltac:(lia)).
    pose proof (num_range m2 (sc + bn) (cap - bn) ltac:(wf_mem) ltac:(lia)). nia. }
  unfold void. rewrite option_bind_assoc.
  eapply returns_bind; [apply (sub_n_spec m3 this this sc cap); [wf_mem|vecs..]|]. intros [m4 bw] (M4 & Hbw & V4).
  rewrite Et, Es in V4. cbn [mbind option_bind].
  eapply finish_to; [drop_values; touched|done|vecs|lia|]. rewrite Z.min_id. apply (mod_capacity _ _ bw). lia.
Qed.

Lemma sub_assign_spec : cap <= sn -> returns (sub_assign Bits m this o sc) (writes frame m this ((a - b) mod M)).
Proof.
  intros Hsn. unfold sub_assign. rewrite (arb_size _ _ _ Ha), (arb_size _ _ _ Hb). cbn [mbind option_bind].
  pose proof (arb_zero _ _ _ Hw Hb) as Hz. pose proof (sub_below Hsn) as Hlow.
  pose proof (longer_larger m this o a b Hw Ha Hb) as Hlong.
  destruct Ha as [Va Ca Na Ea Ba] eqn:EHa, Hb as [Vb Cb Nb Eb Bb] eqn:EHb. clear EHa EHb. cbv zeta in Hlow.
  set (an := cell m (this + cap)) in *. set (bn := cell m (o + cap)) in *. pose proof cap_facts as [Hc0 _].
  destruct (Z.eqb_spec bn 0) as [E0|Hb0]; [apply (kept_mod _ _ _ a); [done|done|]; apply Hz in E0; lia|].
  rewrite cmp_var_spec by (done || vecs). rewrite Ea, Eb. cbn [mbind option_bind].
  destruct (Z.compare_spec a b) as [E|Hlt|Hgt]; cbn [sign_of Z.eqb Z.ltb Z.compare].
  - eapply finish_to; [by apply touches_refl|done|vecs|lia|].
    rewrite Z.min_l, num_0 by lia. rewrite E, Z.sub_diag. done.
  - by apply Hlow.
  - unfold void. rewrite option_bind_assoc. assert (bn <= an) as Hle.
    { destruct (decide (an < bn)) as [Hl|]; [exfalso|lia]. pose proof (Hlong Hl). lia. }
    eapply returns_bind; [apply sub_var_spec; [done|vecs..]|]. intros [m1 bw] (M1 & Hbw & V1).
    rewrite Ea, Eb in V1. cbn [mbind option_bind].
    pose proof (num_range m1 this an ltac:(wf_mem) ltac:(lia)) as R1. apply no_borrow in V1; [|lia..].
    eapply finish_to; [eapply touches_mono; [exact M1|vecs]|done|vecs|lia|].
    replace (Z.min an cap) with an by lia. by rewrite V1.
Qed.

Lemma square_spec : Solver <> solver.nussbaumer -> mul_scratch_limbs Bits <= sn ->
  returns (__square Bits Solver m this sc) (writes frame m this ((a * a) mod M)).
Proof.
  intros HS Hsn. unfold __square. rewrite (arb_size _ _ _ Ha). cbn [mbind option_bind].
  pose proof (arb_zero _ _ _ Hw Ha) as Hz. destruct Ha as [Va Ca Na Ea Ba] eqn:EHa. clear EHa.
  set (an := cell m (this + cap)) in *. pose proof cap_facts as [Hc0 _]. pose proof cap_le_base as Hcb.
  destruct (Z.eqb_spec an 0) as [E0|Hn0].
  { eapply finish_to; [by apply touches_refl|done|vecs|lia|]. rewrite Z.min_l, num_0 by lia.
    apply Hz in E0. rewrite E0. done. }
  cbv zeta. unfold mul_scratch_limbs in Hsn.
  pose proof scratch_facts as [Hmf Hsf].
  assert (sqr_room an (sn - 2 * an)) as Hroom by (apply (sqr_scratch_ok an cap); lia).
  eapply returns_bind.
  { apply (sqr_fixed_room cap Solver m sc this an (sc + 2 * an) (sn - 2 * an)); [done|done|].
    constructor; try done; try vecs; lens. }
  intros m1 [T1 V1]. rewrite Ea in V1.
  apply (store_result frame m m1 this sc (2 * an)); [|done|vecs|vecs|vecs|done].
  drop_values. eapply touches_mono; [exact T1|vecs].
Qed.

Lemma mul_assign_spec : Solver <> solver.nussbaumer -> mul_scratch_limbs Bits <= sn ->
  returns (mul_assign Bits Solver m this o sc) (writes frame m this ((a * b) mod M)).
Proof.
  intros HS Hsn. unfold mul_assign. rewrite (arb_size _ _ _ Ha), (arb_size _ _ _ Hb). cbn [mbind option_bind].
  pose proof (arb_zero _ _ _ Hw Ha) as Hza. pose proof (arb_zero _ _ _ Hw Hb) as Hzb. pose proof (square_spec HS Hsn) as Hsq.
  destruct Ha as [Va Ca Na Ea Ba] eqn:EHa, Hb as [Vb Cb Nb Eb Bb] eqn:EHb. clear EHa EHb.
  assert (o = this -> a = b) as Hsame by (intros ->; congruence).
  set (an := cell m (this + cap)) in *. set (bn := cell m (o + cap)) in *.
  pose proof cap_facts as [Hc0 _]. pose proof cap_le_base as Hcb.
  destruct (orb _ _) eqn:Eo.
  { eapply finish_to; [by apply touches_refl|done|vecs|lia|]. rewrite Z.min_l, num_0 by lia.
    assert (a * b = 0) as ->; [|done].
    apply orb_prop in Eo as [E%Z.eqb_eq|E%Z.eqb_eq]; [apply Hza in E|apply Hzb in E]; rewrite E; lia. }
  apply orb_false_elim in Eo as [Hna%Z.eqb_neq Hnb%Z.eqb_neq].
  destruct (Z.eqb_spec o this) as [E|Hne]; [rewrite <- (Hsame E); done|].
  assert (disjoint this (cap + 1) o (cap + 1)) as Dto by (destruct Hal; [congruence|done]).
  cbv zeta. unfold mul_scratch_limbs in Hsn. pose proof scratch_facts as [Hmf Hsf].
  assert (forall xp xn yp yn, 1 <= yn <= xn -> xn <= cap -> an + bn = xn + yn -> valid m xp xn -> valid m yp yn ->
    disjoint xp xn sc sn -> disjoint yp yn sc sn -> num m xp xn * num m yp yn = a * b ->
    returns (__mul_into Bits Solver m sc xp xn yp yn (sc + (an + bn))) (fun m1 =>
      touches frame m m1 /\ num m1 sc (an + bn) = a * b)) as Hmul.
  { intros xp xn yp yn Hn Hxc En Vx Vy Dx Dy E. pose proof (mul_scratch_ok xn yn cap Hn Hxc) as Hroom.
    assert (0 <= mul_itch_forced xn yn) as Hm0.
    { destruct (mul_itch_forced_rungs xn yn Hn) as (Hge & _). pose proof (need_nonneg xn yn 2). lia. }
    eapply returns_mono.
    - apply (mul_fixed_spec cap cap Solver m sc xp xn yp yn (sc + (an + bn)) (sn - (an + bn))); [done|lia|].
      constructor; try done; try vecs; lens.
    - intros m1 [T1 V1]. rewrite <- En, E in V1. split; [|done]. drop_values. rewrite <- En in T1. eapply touches_mono; [exact T1|vecs]. }
  eapply returns_bind.
  { instantiate (1 := fun m1 => touches frame m m1 /\ num m1 sc (an + bn) = a * b).
    destruct (Z.leb_spec bn an); apply Hmul; try lia; try vecs; rewrite Ea, Eb; lia. }
  intros m1 [T1 V1].
  apply (store_result frame m m1 this sc (an + bn)); [done|done|vecs|vecs|vecs|done].
Qed.
End with_scratch.
End binary.
End arbuint.
