(* ===== verification/ArbuintDiv.v ===== *)
(** Division, shifts and the bitwise operations of [arbuint<Bits>]. *)
From stdpp Require Import base numbers list option.
From Stdlib Require Import ZArith Lia.
From S2P Require Import Prelude Arrays Sums Limb Mpn MpnValue MpnArith MpnBits MpnFrame MpnToom3 Thresholds MpnKaratsuba MpnKaratsubaProof MpnTiers MpnTiersProof MpnDc MpnDcProof Arbuint ArbuintProof.

Local Open Scope Z_scope.

Section division.
Context `{W : LimbWidth} `{BarrettTier} (Bits : Z) (HBits : 1 <= Bits <= 2 ^ 31).

Abbreviation cap := (@cap_limbs W Bits).
Abbreviation M := (2 ^ Bits).
Abbreviation obj p := (vec p (cap + 1)).
Abbreviation arb := (arb Bits).

(** The scratch limbs the longest division asks for are enough for every division. *)
Lemma div_scratch_ok an bn : 1 <= bn <= an -> an <= cap ->
  an + 1 + divrem_itch an bn <= div_scratch_limbs Bits /\ 0 <= divrem_itch an bn.
Proof.
  intros Hb Ha. unfold div_scratch_limbs, divrem_itch. rewrite !div_wants_mu_never. cbv zeta.
  destruct (mul_room_forced bn ltac:(lia)) as [Hr _]. destruct (mul_room_forced cap ltac:(lia)) as [Hr' _].
  pose proof (mul_itch_forced_mono bn cap ltac:(lia)).
  destruct (Z.leb_spec bn 1) as [|Hb1].
  { split; [|lia]. destruct (Z.leb_spec cap 1); [lia|]. unfold dc_div_itch. destruct (div_wants_dc (2 * cap + 1) cap); lia. }
  rewrite (proj2 (Z.leb_gt cap 1)) by lia. unfold dc_div_itch.
  destruct (div_wants_dc (an + 1) bn) eqn:Ew; [|split; [destruct (div_wants_dc (2 * cap + 1) cap)|]; lia].
  assert (div_wants_dc (2 * cap + 1) cap = true) as ->; [|lia].
  unfold div_wants_dc, pick_div in *. apply andb_prop in Ew as [[Ep H6%Z.leb_le]%andb_prop _].
  rewrite (proj2 (Z.leb_le 6 cap)), (proj2 (Z.ltb_lt cap (2 * cap + 1))), !Bool.andb_true_r by lia.
  destruct (Z.ltb_spec bn threshold.div_dc) as [|Hdc]; [done|]. rewrite (proj2 (Z.ltb_ge cap _)) by lia.
  destruct (Z.ltb cap threshold.div_mu); [done|]. by destruct (andb (Z.leb cap _) _).
Qed.

Lemma quotient_parts (want : bool) a b : 0 <= a -> 0 < b -> 0 <= (if want then a / b else a mod b) <= a.
Proof.
  intros Ha Hb. destruct want.
  - split; [apply Z.div_pos; lia|]. apply Z.div_le_upper_bound; nia.
  - pose proof (Z.mod_pos_bound a b Hb). pose proof (Z.mod_le a b Ha Hb). lia.
Qed.

(** What a call that may throw on a zero divisor leaves. *)
Definition throws_or (m : mem) (b : Z) (Q : mem -> Prop) (out : outcome) : Prop :=
  match out with domain_error m' => b = 0 /\ m' = m | returned m' => b <> 0 /\ Q m' end.

Section operands.
Context (m : mem) (this o a b sc sn : Z).
Context (Hw : wf m) (Ha : arb m this a) (Hb : arb m o b).
Context (Hal : this = o \/ disjoint this (cap + 1) o (cap + 1)).
Context (Vs : valid m sc sn) (Dts : disjoint this (cap + 1) sc sn) (Dos : disjoint o (cap + 1) sc sn).
Context (Hsn : div_scratch_limbs Bits <= sn).
Abbreviation frame := (fun k => obj this k \/ vec sc sn k).

(** The long division into the scratch area. *)
Lemma divrem_scratch : let an := cell m (this + cap) in let bn := cell m (o + cap) in let qn := an - bn + 1 in
  bn <> 0 -> bn <= an -> returns (divrem m sc (sc + qn) this an o bn (sc + qn + bn)) (fun m' =>
    touches (vec sc sn) m m' /\ num m' sc qn = a / b /\ num m' (sc + qn) bn = a mod b /\
    1 <= qn <= cap /\ 1 <= bn <= cap /\ qn + bn <= sn).
Proof.
  intros an bn qn Hb0 Hle. destruct Ha as [Va Ca Na Ea Ba] eqn:EHa, Hb as [Vb Cb Nb Eb Bb] eqn:EHb. clear EHa EHb.
  fold an in Ca, Na, Ea. fold bn in Cb, Nb, Eb. pose proof (cap_le_base Bits HBits) as Hcb.
  destruct (div_scratch_ok an bn ltac:(lia) ltac:(lia)) as [Hok Hpos].
  destruct Nb as [?|Nb]; [done|]. clearbody an bn.
  eapply returns_mono.
  - apply (divrem_spec m sc (sc + qn) this an o bn (sc + qn + bn) (sn - (an + 1))); [lia|].
    unfold qn in *. constructor; try done; try vecs; lens.
  - intros m' (T & VQ & VR). fold qn in T, VQ. rewrite Ea, Eb in VQ, VR. split_and!; try done; try (unfold qn; lia).
    eapply touches_mono; [exact T|]. unfold qn, vec. drop_values. lia.
Qed.

Lemma divmod_into_spec want : returns (__divmod_into Bits m this o sc want)
  (throws_or m b (writes Bits frame m this (if want then a / b else a mod b))).
Proof.
  unfold __divmod_into. rewrite (arb_size Bits HBits _ _ _ Ha), (arb_size Bits HBits _ _ _ Hb). cbn [mbind option_bind].
  pose proof (arb_zero Bits HBits _ _ _ Hw Hb) as Hz. pose proof (longer_larger Bits HBits m this o a b Hw Ha Hb) as Hlong.
  pose proof divrem_scratch as Hdiv. cbv zeta in Hdiv. pose proof (cap_facts Bits HBits) as [Hc0 _].
  pose proof (arb_valid _ _ _ _ Ha) as Va. pose proof (arb_bound _ _ _ _ Ha) as Ba. pose proof (arb_bound _ _ _ _ Hb) as Bb.
  set (an := cell m (this + cap)) in *. set (bn := cell m (o + cap)) in *.
  destruct (Z.eqb_spec bn 0) as [E0|Hb0]; [apply returns_ret; split; [by apply Hz|done]|].
  assert (b <> 0) as Hbne by (intros E; by apply Hz in E).
  assert (forall r, 0 <= r <= a -> r mod M = r) as Hsmall by (intros; apply Z.mod_small; lia).
  destruct (Z.ltb_spec an bn) as [Hlt|Hge].
  { specialize (Hlong Hlt). destruct want.
    - rewrite Z.div_small by lia. eapply returns_bind.
      { apply (finish_to Bits HBits frame m m this 0 0); [by apply touches_refl|done|vecs|lia|].
        rewrite Z.min_l, num_0 by lia. apply Z.mod_0_l. pose proof (modulus_pos Bits HBits). lia. }
      intros m1 W1. by apply returns_ret.
    - rewrite Z.mod_small by lia. apply returns_ret. split; [done|]. split; [by apply touches_refl|done]. }
  cbv zeta. eapply returns_bind; [by apply Hdiv|]. intros m1 (T1 & VQ & VR & Hq & Hbn & Hfit).
  assert (touches frame m m1) as T1' by (eapply touches_mono; [exact T1|vecs]).
  apply (returns_steps _ _ _ (writes Bits frame m this ((if want then a / b else a mod b) mod M))).
  - destruct want.
    + apply (store_result Bits HBits frame m m1 this sc (an - bn + 1)); [done|done|vecs|vecs|vecs|done].
    + apply (store_result Bits HBits frame m m1 this (sc + (an - bn + 1)) bn); [done|done|vecs|vecs|vecs|done].
  - intros m2 W2. apply returns_ret. split; [done|]. rewrite Hsmall in W2; [done|]. apply quotient_parts; lia.
Qed.

(** Quotient into the object [q], remainder into [this]. *)
Lemma divmod_both_spec q : disjoint q (cap + 1) this (cap + 1) -> disjoint q (cap + 1) o (cap + 1) ->
  disjoint q (cap + 1) sc sn -> valid m q (cap + 1) ->
  returns (__divmod_both Bits m this o q sc) (throws_or m b (fun m' =>
    touches (fun k => obj q k \/ frame k) m m' /\ arb m' q (a / b) /\ arb m' this (a mod b))).
Proof.
  intros Dqt Dqo Dqs Vq.
  unfold __divmod_both. rewrite (arb_size Bits HBits _ _ _ Ha), (arb_size Bits HBits _ _ _ Hb). cbn [mbind option_bind].
  pose proof (arb_zero Bits HBits _ _ _ Hw Hb) as Hz. pose proof (longer_larger Bits HBits m this o a b Hw Ha Hb) as Hlong.
  pose proof divrem_scratch as Hdiv. cbv zeta in Hdiv. pose proof (cap_facts Bits HBits) as [Hc0 _].
  pose proof (arb_valid _ _ _ _ Ha) as Va. pose proof (arb_bound _ _ _ _ Ha) as Ba. pose proof (arb_bound _ _ _ _ Hb) as Bb.
  set (an := cell m (this + cap)) in *. set (bn := cell m (o + cap)) in *.
  destruct (Z.eqb_spec bn 0) as [E0|Hb0]; [apply returns_ret; split; [by apply Hz|done]|].
  assert (b <> 0) as Hbne by (intros E; by apply Hz in E).
  assert (forall r, 0 <= r <= a -> r mod M = r) as Hsmall by (intros; apply Z.mod_small; lia).
  pose proof (quotient_parts true a b ltac:(lia) ltac:(lia)) as Rq. pose proof (quotient_parts false a b ltac:(lia) ltac:(lia)) as Rr.
  cbv beta iota in Rq, Rr.
  destruct (Z.ltb_spec an bn) as [Hlt|Hge].
  { specialize (Hlong Hlt). rewrite Z.div_small, Z.mod_small by lia. eapply returns_bind.
    { apply (finish_to Bits HBits (obj q) m m q 0 0); [by apply touches_refl|done|vecs|lia|].
      rewrite Z.min_l, num_0 by lia. apply Z.mod_0_l. pose proof (modulus_pos Bits HBits). lia. }
    intros m1 [T1 A1]. apply returns_ret. split; [done|]. split; [eapply touches_mono; [exact T1|vecs]|]. split; [done|].
    eapply (arb_frame Bits HBits); [exact Ha|exact T1|vecs]. }
  cbv zeta. eapply returns_bind; [by apply Hdiv|]. intros m1 (T1 & VQ & VR & Hq & Hbn & Hfit).
  eapply returns_steps.
  { apply (store_result Bits HBits (obj q) m1 m1 q sc (an - bn + 1) (a / b));
      [apply touches_refl; wf_mem|vecs|vecs|vecs|vecs|done]. }
  intros m2 [T2 A2].
  pose proof (touches_wf _ _ _ T2) as W2.
  eapply returns_steps.
  { apply (store_result Bits HBits (obj this) m2 m2 this (sc + (an - bn + 1)) bn (a mod b));
      [by apply touches_refl|vecs|vecs|vecs|vecs|]. rewrite <- VR. pull_goal. done. }
  intros m3 [T3 A3]. apply returns_ret. split; [done|]. rewrite Hsmall in A2, A3 by done.
  split; [drop_values; touched|]. split; [|done]. eapply (arb_frame Bits HBits); [exact A2|exact T3|vecs].
Qed.
End operands.
End division.
