(* ===== verification/ArbuintBits.v ===== *)
(** Shifts, the bitwise operations and the complement of [arbuint<Bits>]. *)
From stdpp Require Import base numbers list option.
From Stdlib Require Import ZArith Lia.
From S2P Require Import Prelude Arrays Limb Mpn MpnValue MpnArith MpnBits MpnFrame MpnToom3 Arbuint ArbuintProof.

Local Open Scope Z_scope.

(** Copying from the top down, into a place that overlaps the source's upper part. *)
Lemma copyd_spec `{LimbWidth} m rp ap n : wf m -> valid m rp n -> valid m ap n -> bwd rp ap n ->
  returns (copyd m rp ap n) (fun m' => modifies rp n m m' /\ num m' rp n = num m ap n).
Proof.
  intros Hw Hr Ha Fa. unfold copyd.
  apply (returns_for_down n _ _ (fun i m1 => modifies (rp + i) (n - i) m m1 /\ num m1 (rp + i) (n - i) = num m (ap + i) (n - i))).
  - apply Hr.
  - rewrite Z.sub_diag, !num_0. split; [by apply modifies_refl|done].
  - intros i m1 Hi [Hm E]. rewrite (modifies_out _ _ _ _ _ Hm), get_cell by vec_bounds. cbn [mbind option_bind].
    apply returns_set_tail; [vec_bounds|]. pose proof (wf_cell m (ap + i) Hw) as Hl. split.
    + eapply modifies_upd_gen; [exact Hm|vec_bounds..|done].
    + rewrite num_upd_low by vec_bounds. replace (n - i) with (n - (i + 1) + 1) at 2 by lia. rewrite num_cons by lia.
      replace (n - i - 1) with (n - (i + 1)) by lia. rewrite <- !Z.add_assoc, E. lia.
  - intros m1. by rewrite !Z.add_0_r, Z.sub_0_r.
Qed.

Section arbuint.
Context `{W : LimbWidth} (Bits : Z) (HBits : 1 <= Bits <= 2 ^ 31).

Abbreviation cap := (@cap_limbs W Bits).
Abbreviation M := (2 ^ Bits).
Abbreviation lw := (@limb_bits W).
Abbreviation obj p := (vec p (cap + 1)).
Abbreviation arb := (arb Bits).
Abbreviation writes := (writes Bits).

Section shifts.
Context (m : mem) (this a k : Z) (Hw : wf m) (Ha : arb m this a) (Hk : 0 <= k).

(** A shift is one by whole limbs and one by the bits that are left. *)
Lemma shift_parts : let wh := k / lw in let bi := k mod lw in
  0 <= wh /\ 0 <= bi < lw /\ 2 ^ k = base ^ wh * 2 ^ bi.
Proof.
  intros wh bi. pose proof limb_bits_gt. pose proof (Z.div_mod k _ limb_bits_nonzero) as E.
  pose proof (Z.mod_pos_bound k _ limb_bits_gt). assert (0 <= wh) by (apply Z.div_pos; lia). split_and!; try lia.
  rewrite base_pow2, <- Z.pow_add_r by (done || nia || lia). f_equal. unfold wh, bi. lia.
Qed.

(** The limbs that stay in the store, moved up. *)
Lemma shl_moved wh bi : 0 <= bi < lw -> 0 <= wh < cap -> let an := cell m (this + cap) in an <> 0 ->
  let room := Z.min (an + wh + 1) cap in let src := Z.min (room - wh) an in
  returns (if negb (Z.eqb bi 0) then
      '(m1, top) ← lshift m (this + wh) this src bi;
      if andb (negb (Z.eqb top 0)) (Z.ltb (wh + src) room)
      then m2 ← aset m1 (this + (wh + src)) top; Some (m2, wh + src + 1) else Some (m1, wh + src)
    else m1 ← copyd m (this + wh) this src; Some (m1, wh + src)) (fun '(m1, n) =>
    touches (vec (this + wh) (cap - wh)) m m1 /\ wh <= n <= cap /\
    exists j, num m1 (this + wh) (n - wh) = a * 2 ^ bi + base ^ (cap - wh) * j).
Proof.
  intros Hbi Hwh an Ha0 room src. destruct Ha as [Va Ca Na Ea Ba] eqn:EHa. clear EHa. fold an in Ca, Ea.
  assert (1 <= src <= an /\ src <= cap - wh /\ (src < an -> src = cap - wh)) as (Hsrc & Hfit & Hcut)
    by (unfold src, room; lia).
  assert (exists h, num m this src = a + base ^ (cap - wh) * h) as [h Eh].
  { destruct (decide (src = an)) as [->|]; [exists 0; lia|]. rewrite <- Ea, (num_split_at m this src an) by lia.
    replace (cap - wh) with src by lia. eexists (- num m (this + src) (an - src)). lia. }
  destruct (Z.eqb_spec bi 0) as [E0|Hb0]; cbn [negb].
  - eapply returns_bind; [apply (copyd_spec m (this + wh) this src); [done|vecs|vecs|vecs]|]. intros m1 [M1 V1].
    apply returns_ret. split; [eapply touches_mono; [exact M1|vecs]|]. split; [lia|].
    exists h. replace (wh + src - wh) with src by lia. rewrite V1, Eh, E0, Z.pow_0_r. lia.
  - eapply returns_bind; [apply (lshift_spec m (this + wh) this src bi); [done|vecs|vecs|lia|lia|vecs]|].
    intros [m1 top] (M1 & Ht & V1). assert (touches (vec (this + wh) (cap - wh)) m m1) as T1 by (eapply touches_mono; [exact M1|vecs]).
    destruct (andb _ _) eqn:Eg.
    + apply andb_prop in Eg as [_ Hlt%Z.ltb_lt]. assert (src = an) as Esrc by (unfold room in Hlt; lia).
      assert (is_limb top) as Hl.
      { unfold is_limb, base. pose proof (Z.pow_lt_mono_r 2 bi limb_bits). lia. }
      rewrite aset_in by vecs. cbn [mbind option_bind]. apply returns_ret.
      assert (wh + src < cap) as Hlc by lia.
      split; [apply (touches_trans _ m m1); [done|]; apply touches_upd; [wf_mem|done|vecs|vecs]|]. split; [lia|].
      exists 0. replace (wh + src + 1 - wh) with (src + 1) by lia. rewrite Z.add_assoc, num_upd_at by vecs.
      rewrite V1, Esrc, Ea. lia.
    + apply returns_ret. split; [done|]. split; [lia|]. replace (wh + src - wh) with src by lia.
      apply Bool.andb_false_iff in Eg as [Eg%negb_false_iff%Z.eqb_eq|Eg%Z.ltb_ge].
      * exists (h * 2 ^ bi). rewrite Eg in V1. rewrite Z.mul_0_r, Z.add_0_r in V1. rewrite V1, Eh. ring.
      * assert (src = cap - wh) as Esrc by (unfold src, room in *; lia). exists (h * 2 ^ bi - top).
        rewrite Esrc in V1 at 2. rewrite Eh in V1. lia.
Qed.

Lemma shl_assign_spec : returns (shl_assign Bits m this k) (writes (obj this) m this ((a * 2 ^ k) mod M)).
Proof.
  unfold shl_assign. rewrite (arb_size Bits HBits _ _ _ Ha). cbn [mbind option_bind].
  pose proof (arb_zero Bits HBits _ _ _ Hw Ha) as Hz. pose proof shift_parts as Hp. pose proof shl_moved as Hmv.
  pose proof (arb_valid _ _ _ _ Ha) as Va. pose proof (arb_count _ _ _ _ Ha) as Ca. pose proof (cap_facts Bits HBits) as [Hc0 _].
  cbv zeta in Hp, Hmv |- *. set (an := cell m (this + cap)) in *. set (wh := k / lw) in *. set (bi := k mod lw) in *.
  destruct Hp as (Hwh & Hbi & E2k).
  destruct (Z.eqb_spec an 0) as [E0|Hn0]; cbn [orb].
  { apply (kept_mod Bits _ _ _ a); [done|done|]. apply Hz in E0. lia. }
  destruct (Z.eqb_spec k 0) as [Ek|Hk0].
  { apply (kept_mod Bits _ _ _ a); [done|done|]. rewrite Ek. lia. }
  assert ((if Z.ltb (an + wh + 1) cap then an + wh + 1 else cap) = Z.min (an + wh + 1) cap) as ->
    by (destruct (Z.ltb_spec (an + wh + 1) cap); lia).
  set (room := Z.min (an + wh + 1) cap). destruct (Z.leb_spec room wh) as [Hout|Hin].
  { eapply (finish_to Bits HBits); [by apply touches_refl|done|vecs|lia|]. rewrite Z.min_l, num_0 by lia.
    apply (mod_capacity Bits HBits _ _ (- (a * (base ^ (wh - cap) * 2 ^ bi)))). rewrite E2k, (base_split cap wh) by (unfold room in *; lia). ring. }
  assert ((if Z.ltb (room - wh) an then room - wh else an) = Z.min (room - wh) an) as ->
    by (destruct (Z.ltb_spec (room - wh) an); lia).
  eapply returns_bind; [apply (Hmv wh bi); [done|unfold room in *; lia|done]|]. intros [m1 n] (T1 & Hn & j & V1).
  eapply returns_bind; [apply (zero_spec m1 this wh); [wf_mem|vecs]|]. intros m2 [M2 V2].
  eapply (finish_to Bits HBits); [drop_values; touched|done|vecs|lia|]. rewrite Z.min_l by lia.
  rewrite (num_split_at m2 this wh n), V2 by lia. pull_goal. rewrite V1.
  apply (mod_capacity Bits HBits _ _ j). rewrite E2k, (base_split wh cap) by lia. ring.
Qed.

Lemma shr_assign_spec : returns (shr_assign Bits m this k) (writes (obj this) m this (a / 2 ^ k)).
Proof.
  unfold shr_assign. rewrite (arb_size Bits HBits _ _ _ Ha). cbn [mbind option_bind].
  pose proof (arb_zero Bits HBits _ _ _ Hw Ha) as Hz. pose proof shift_parts as Hp. pose proof (cap_facts Bits HBits) as [Hc0 _].
  destruct Ha as [Va Ca Na Ea Ba] eqn:EHa. clear EHa.
  cbv zeta in Hp |- *. set (an := cell m (this + cap)) in *. set (wh := k / lw) in *. set (bi := k mod lw) in *.
  destruct Hp as (Hwh & Hbi & E2k). pose proof (Z.pow_pos_nonneg 2 bi ltac:(lia) ltac:(lia)) as Pb.
  destruct (Z.eqb_spec an 0) as [E0|Hn0]; cbn [orb].
  { apply Hz in E0. rewrite E0, Z.div_0_l by (rewrite E2k; pose proof (base_pow_pos wh Hwh); nia). apply (kept Bits); [done|]. by rewrite <- E0. }
  destruct (Z.eqb_spec k 0) as [Ek|Hk0]; [rewrite Ek, Z.div_1_r; by apply (kept Bits)|].
  assert (0 <= a / 2 ^ k <= a) as Hq.
  { pose proof (Z.pow_pos_nonneg 2 k ltac:(lia) ltac:(lia)). split; [apply Z.div_pos; lia|apply Z.div_le_upper_bound; nia]. }
  assert (a / 2 ^ k = a / 2 ^ k mod M) as -> by (symmetry; apply Z.mod_small; lia).
  destruct (Z.leb_spec an wh) as [Hout|Hin].
  { eapply (finish_to Bits HBits); [by apply touches_refl|done|vecs|lia|]. rewrite Z.min_l, num_0 by lia. f_equal. symmetry.
    apply Z.div_small. split; [lia|]. pose proof (num_range m this an Hw ltac:(lia)) as R.
    pose proof (Z.pow_le_mono_r base an wh ltac:(apply base_pos) Hout). rewrite E2k. nia. }
  assert (a / 2 ^ k = num m (this + wh) (an - wh) / 2 ^ bi) as ->.
  { rewrite E2k. pose proof (base_pow_pos wh Hwh). rewrite <- Z.div_div by lia. f_equal.
    rewrite <- Ea, (num_split_at m this wh an) by lia. pose proof (num_range m this wh Hw Hwh).
    symmetry. apply (Z.div_unique_pos _ _ _ (num m this wh)); lia. }
  assert (returns (if negb (Z.eqb bi 0) then void (rshift m this (this + wh) (an - wh) bi) else copyi m this (this + wh) (an - wh))
    (fun m1 => modifies this (an - wh) m m1 /\ num m1 this (an - wh) = num m (this + wh) (an - wh) / 2 ^ bi)) as Hmv.
  { destruct (Z.eqb_spec bi 0) as [->|Hb0]; cbn [negb].
    - rewrite Z.pow_0_r, Z.div_1_r. apply copyi_spec; [done|vecs|vecs|vecs].
    - unfold void. eapply returns_bind; [apply (rshift_spec m this (this + wh)); [done|vecs|vecs|lia|lia|vecs]|].
      intros [m1 r] (M1 & V1 & _). by apply returns_ret. }
  eapply returns_bind; [exact Hmv|]. intros m1 [M1 V1].
  eapply (finish_to Bits HBits); [eapply touches_mono; [exact M1|vecs]|done|vecs|lia|]. rewrite Z.min_l by lia. by rewrite V1.
Qed.
End shifts.

(** ** Bitwise operations *)

Section bitwise.
Context (f : Z -> Z -> Z) (g : bool -> bool -> bool).
Context (Hfg : forall x y i, 0 <= i -> Z.testbit (f x y) i = g (Z.testbit x i) (Z.testbit y i)).
Context (Hg : g false false = false).
Context (m : mem) (this o a b : Z) (Hw : wf m) (Ha : arb m this a) (Hb : arb m o b).
Context (Hal : this = o \/ disjoint this (cap + 1) o (cap + 1)).
Let an := cell m (this + cap).
Let bn := cell m (o + cap).

(** The values split at the length of the shorter operand. *)
Lemma bitwise_split mn : 0 <= mn <= an -> mn <= bn ->
  f a b = f (num m this mn) (num m o mn) + base ^ mn * f (num m (this + mn) (an - mn)) (num m (o + mn) (bn - mn)).
Proof.
  intros Hn Hn'. destruct Ha as [_ _ _ Ea _], Hb as [_ _ _ Eb _]. pose proof limb_bits_pos.
  pose proof (num_range m this mn Hw ltac:(lia)) as R1. pose proof (num_range m o mn Hw ltac:(lia)) as R2.
  fold an in Ea. fold bn in Eb. rewrite (num_split_at m this mn an) in Ea by lia. rewrite (num_split_at m o mn bn) in Eb by lia.
  rewrite <- Ea, <- Eb. rewrite base_pow2 in * by lia. apply (bitwise_cat f g Hfg Hg); nia.
Qed.

Lemma bitwise_bound : f a b mod M = f a b.
Proof.
  destruct Ha as [_ _ _ _ Ba], Hb as [_ _ _ _ Bb]. apply Z.mod_small. apply (bitwise_small f g Hfg Hg); lia.
Qed.

(** The routine on the limbs both operands have. *)
Lemma bitwise_low mn : 0 <= mn <= cap -> returns
  (for_ 0 mn (fun i m => x ← m.[this + i]; y ← m.[o + i]; aset m (this + i) (f x y)) m) (fun m1 =>
    modifies this mn m m1 /\ num m1 this mn = f (num m this mn) (num m o mn)).
Proof.
  intros Hn. destruct Ha as [Va _ _ _ _], Hb as [Vb _ _ _ _].
  apply (bitwise_up f g Hfg Hg); [done|vecs|vecs|vecs|vecs|vecs].
Qed.

(** The limbs only the longer operand has. *)
Lemma copy_longer_spec m1 mn lim : mn = Z.min an bn -> lim = Z.max an bn -> modifies this mn m m1 ->
  returns (copy_longer m1 this o an mn lim) (fun m2 => modifies this lim m m2 /\
    num m2 this lim = num m1 this mn + base ^ mn * (num m (this + mn) (an - mn) + num m (o + mn) (bn - mn))).
Proof.
  intros Emn Elim M1. destruct Ha as [Va Ca _ _ _], Hb as [Vb Cb _ _ _]. fold an in Ca. fold bn in Cb. unfold copy_longer.
  eapply returns_mono.
  - apply (returns_map_up this lim m1 _ (fun i v => v = num m1 this mn + base ^ mn *
      (num m (this + mn) (Z.min i an - mn) + num m (o + mn) (Z.min i bn - mn))) mn); [wf_mem|vecs|lia| |].
    + replace (Z.min mn an - mn) with 0 by lia. replace (Z.min mn bn - mn) with 0 by lia. rewrite !num_0. lia.
    + intros i m2 Hi M2 E. assert (modifies this i m m2) as M3.
      { eapply modifies_trans; [eapply modifies_mono; [exact M1|lia..]|done]. }
      assert (forall p, num m (p + mn) (i + 1 - mn) = num m (p + mn) (i - mn) + base ^ (i - mn) * cell m (p + i)) as Hs.
      { intros p. replace (i + 1 - mn) with (i - mn + 1) by lia. rewrite num_succ by lia. do 3 f_equal. lia. }
      destruct (Z.ltb_spec i an) as [Hlt|Hge].
      * exists (cell m (this + i)). rewrite (modifies_out _ _ _ _ _ M3), get_cell by vecs. cbn [mbind option_bind].
        rewrite aset_in by vecs. split; [done|]. split; [by apply wf_cell|]. rewrite E.
        replace (Z.min i an) with i by lia. replace (Z.min (i + 1) an) with (i + 1) by lia.
        replace (Z.min (i + 1) bn) with (Z.min i bn) by lia. rewrite (Hs this).
        rewrite (base_split mn i) by lia. ring.
      * assert (disjoint this (cap + 1) o (cap + 1)) as Dto.
        { destruct Hal as [E'|]; [|done]. exfalso. unfold an, bn in *. rewrite E' in *. lia. }
        exists (cell m (o + i)). rewrite (modifies_out _ _ _ _ _ M3), get_cell by vecs. cbn [mbind option_bind].
        rewrite aset_in by vecs. split; [done|]. split; [by apply wf_cell|]. rewrite E.
        replace (Z.min i bn) with i by lia. replace (Z.min (i + 1) bn) with (i + 1) by lia.
        replace (Z.min (i + 1) an) with (Z.min i an) by lia. rewrite (Hs o).
        rewrite (base_split mn i) by lia. ring.
  - intros m2 [M2 E]. split; [eapply modifies_trans; [eapply modifies_mono; [exact M1|lia..]|done]|].
    rewrite E. by replace (Z.min lim an) with an by lia; replace (Z.min lim bn) with bn by lia.
Qed.

(** [|=] and [^=]: the routine on the common limbs, then the longer operand's. *)
Lemma join_assign_spec : (forall y, g false y = y) -> (forall x, g x false = x) ->
  let mx := if Z.ltb bn an then an else bn in let mn := if Z.ltb bn an then bn else an in
  let lim := if Z.ltb mx cap then mx else cap in
  returns (if Z.eqb bn 0 then Some m else
    m1 ← for_ 0 (if Z.ltb mn lim then mn else lim)
           (fun i m => x ← m.[this + i]; y ← m.[o + i]; aset m (this + i) (f x y)) m;
    m2 ← copy_longer m1 this o an mn lim;
    finish Bits m2 this lim) (writes (obj this) m this (f a b)).
Proof.
  intros G1 G2 mx mn lim. pose proof (arb_zero Bits HBits _ _ _ Hw Hb) as Hz. fold bn in Hz.
  pose proof (arb_count _ _ _ _ Ha) as Ca. pose proof (arb_count _ _ _ _ Hb) as Cb. fold an in Ca. fold bn in Cb.
  pose proof (arb_valid _ _ _ _ Ha) as Va.
  assert (forall x, f x 0 = x) as F2 by (intros x; apply Z.bits_inj'; intros i Hi; by rewrite Hfg, Z.bits_0, G2).
  assert (forall y, f 0 y = y) as F1 by (intros y; apply Z.bits_inj'; intros i Hi; by rewrite Hfg, Z.bits_0, G1).
  destruct (Z.eqb_spec bn 0) as [E0|Hb0]; [apply (kept Bits); [done|]; apply Hz in E0; by rewrite E0, F2|].
  assert (mn = Z.min an bn /\ mx = Z.max an bn) as [Emn Emx] by (unfold mn, mx; destruct (Z.ltb_spec bn an); lia).
  assert (lim = Z.max an bn) as Elim by (unfold lim; destruct (Z.ltb_spec mx cap); lia).
  assert ((if Z.ltb mn lim then mn else lim) = mn) as -> by (destruct (Z.ltb_spec mn lim); lia).
  eapply returns_bind; [apply bitwise_low; lia|]. intros m1 [M1 V1].
  eapply returns_bind; [by apply copy_longer_spec|]. intros m2 [M2 V2]. rewrite <- bitwise_bound.
  eapply (finish_to Bits HBits); [eapply touches_mono; [exact M2|vecs]|done|vecs|lia|]. rewrite Z.min_l by lia.
  f_equal. rewrite V2, V1, (bitwise_split mn) by lia. do 2 f_equal.
  destruct (decide (mn = an)) as [->|]; [rewrite Z.sub_diag, num_0, F1; done|].
  replace (bn - mn) with 0 by lia. rewrite num_0, F2. lia.
Qed.

(** [&=]: the limbs above the shorter operand go. *)
Lemma meet_assign_spec : (forall y, g false y = false) -> (forall x, g x false = false) ->
  let mn := if Z.ltb an bn then an else bn in
  returns (m1 ← for_ 0 mn (fun i m => x ← m.[this + i]; y ← m.[o + i]; aset m (this + i) (f x y)) m;
    finish Bits m1 this mn) (writes (obj this) m this (f a b)).
Proof.
  intros G1 G2 mn. pose proof (arb_count _ _ _ _ Ha) as Ca. pose proof (arb_count _ _ _ _ Hb) as Cb. fold an in Ca. fold bn in Cb.
  pose proof (arb_valid _ _ _ _ Ha) as Va.
  assert (forall x, f x 0 = 0) as F2 by (intros x; apply Z.bits_inj'; intros i Hi; by rewrite Hfg, Z.bits_0, G2).
  assert (forall y, f 0 y = 0) as F1 by (intros y; apply Z.bits_inj'; intros i Hi; by rewrite Hfg, Z.bits_0, G1).
  assert (mn = Z.min an bn) as Emn by (unfold mn; destruct (Z.ltb_spec an bn); lia).
  eapply returns_bind; [apply bitwise_low; lia|]. intros m1 [M1 V1]. rewrite <- bitwise_bound.
  eapply (finish_to Bits HBits); [eapply touches_mono; [exact M1|vecs]|done|vecs|lia|]. rewrite Z.min_l by lia.
  f_equal. rewrite V1, (bitwise_split mn) by lia.
  destruct (decide (mn = an)) as [->|]; [rewrite Z.sub_diag, num_0, F1; lia|].
  replace (bn - mn) with 0 by lia. rewrite num_0, F2. lia.
Qed.
End bitwise.

Section logic.
Context (m : mem) (this o a b : Z) (Hw : wf m) (Ha : arb m this a) (Hb : arb m o b).
Context (Hal : this = o \/ disjoint this (cap + 1) o (cap + 1)).

Lemma and_assign_spec : returns (and_assign Bits m this o) (writes (obj this) m this (Z.land a b)).
Proof.
  unfold and_assign. rewrite (arb_size Bits HBits _ _ _ Ha), (arb_size Bits HBits _ _ _ Hb). cbn [mbind option_bind].
  apply (meet_assign_spec Z.land andb); [intros; apply Z.land_spec|done..|intros []; done].
Qed.

Lemma or_assign_spec : returns (or_assign Bits m this o) (writes (obj this) m this (Z.lor a b)).
Proof.
  unfold or_assign. rewrite (arb_size Bits HBits _ _ _ Ha), (arb_size Bits HBits _ _ _ Hb). cbn [mbind option_bind].
  apply (join_assign_spec Z.lor orb); [intros; apply Z.lor_spec|done..|intros []; done].
Qed.

Lemma xor_assign_spec : returns (xor_assign Bits m this o) (writes (obj this) m this (Z.lxor a b)).
Proof.
  unfold xor_assign. rewrite (arb_size Bits HBits _ _ _ Ha), (arb_size Bits HBits _ _ _ Hb). cbn [mbind option_bind].
  apply (join_assign_spec Z.lxor xorb); [intros; apply Z.lxor_spec|done|done|done|done|done|intros []; done|intros []; done].
Qed.

(** The complement within [Bits] bits. *)
Lemma flip_bits_spec : returns (flip_bits Bits m this) (writes (obj this) m this (M - 1 - a)).
Proof.
  unfold flip_bits. rewrite (arb_size Bits HBits _ _ _ Ha). cbn [mbind option_bind]. pose proof (cap_facts Bits HBits) as [Hc0 _].
  destruct Ha as [Va Ca Na Ea Ba] eqn:EHa. clear EHa. remember (cell m (this + cap)) as n eqn:En.
  eapply returns_bind; [apply (com_spec m this this n); [done|vecs|vecs|vecs]|]. intros m1 [M1 V1]. rewrite Ea in V1.
  eapply returns_bind.
  { apply (returns_map_up this cap m1 _ (fun i v => v = base ^ i - 1 - a) n); [wf_mem|vecs|lia|done|].
    intros i m2 Hi M2 E. exists (base - 1). pose proof base_ge.
    assert (limb_max = base - 1) as -> by (unfold limb_max; rewrite limb_not_eq by apply is_limb_0; lia).
    rewrite aset_in by vecs. split; [done|]. split; [unfold is_limb; lia|]. rewrite E, base_succ by lia. ring. }
  intros m2 [M2 V2]. eapply (finish_to Bits HBits); [drop_values; touched|done|vecs|lia|]. rewrite Z.min_id, V2.
  transitivity ((M - 1 - a) mod M); [|apply Z.mod_small; lia].
  destruct (capacity_pow Bits HBits) as [-> He]. pose proof (modulus_pos Bits HBits).
  rewrite <- (Z.mod_add (M - 1 - a) (2 ^ excess_bits Bits - 1)) by lia. f_equal. ring.
Qed.

(** [this * mul + add] for limbs, as used by the radix conversion. *)
Lemma mul_add_1_spec mul add : is_limb mul -> is_limb add ->
  returns (__mul_add_1 Bits m this mul add) (writes (obj this) m this ((a * mul + add) mod M)).
Proof.
  intros Hmul Hadd. unfold __mul_add_1. rewrite (arb_size Bits HBits _ _ _ Ha). cbn [mbind option_bind].
  pose proof (cap_facts Bits HBits) as [Hc0 _]. pose proof (arb_zero Bits HBits _ _ _ Hw Ha) as Hz.
  destruct Ha as [Va Ca Na Ea Ba] eqn:EHa. clear EHa. remember (cell m (this + cap)) as n eqn:En.
  destruct (Z.eqb_spec n 0) as [E0|Hn0]; cbn [negb mbind option_bind].
  - apply Hz in E0 as Ea0. rewrite (proj2 (Z.ltb_lt 0 cap)), Bool.andb_true_r by lia.
    destruct (Z.eqb_spec add 0) as [->|Hadd0]; cbn [negb mbind option_bind].
    + eapply (finish_to Bits HBits); [by apply touches_refl|done|vecs|lia|]. rewrite Z.min_l by lia. f_equal. rewrite Ea. lia.
    + rewrite aset_in by vecs. cbn [mbind option_bind].
      eapply (finish_to Bits HBits); [apply touches_upd; [done|done|vecs|vecs]|done|vecs|lia|]. rewrite Z.min_l by lia.
      pose proof (num_upd_at m this 0 add) as E. rewrite Z.add_0_r in E. change (0 + 1) with 1 in E. rewrite E by vecs.
      f_equal. rewrite num_0. lia.
  - eapply returns_bind; [apply (mul_1_spec m this this n); [done|vecs|vecs|vecs|done]|]. intros [m1 hi] (M1 & Hhi & V1).
    rewrite option_bind_assoc.
    eapply returns_bind; [apply (add_1_spec m1 this this n); [wf_mem|vecs|vecs|vecs|done]|]. intros [m2 c] (M2 & Hcl & Hc & V2).
    cbn [mbind option_bind compose].
    assert (num m2 this n + base ^ n * (hi + c) = a * mul + add) as V by lia.
    pose proof (num_range m this n Hw ltac:(lia)) as R. pose proof (num_range m2 this n ltac:(wf_mem) ltac:(lia)) as R2.
    assert (is_limb (hi + c)) as Hs.
    { unfold is_limb in *. split; [lia|]. pose proof (base_pow_pos n ltac:(lia)). clear - R R2 V Hmul Hadd Ea H. nia. }
    rewrite to_limb_id by done. destruct (andb _ _) eqn:Eg.
    + apply andb_prop in Eg as [_ Hlt%Z.ltb_lt]. rewrite aset_in by vecs. cbn [mbind option_bind].
      assert (touches (vec (this + n) 1) m2 (upd m2 (this + n) (hi + c))) as T3 by (apply touches_upd; [wf_mem|done|vecs|vecs]).
      eapply (finish_to Bits HBits); [drop_values; touched|done|vecs|lia|]. rewrite Z.min_l, num_upd_at by vecs. by rewrite V.
    + cbn [mbind option_bind]. eapply (finish_to Bits HBits); [drop_values; touched|done|vecs|lia|]. rewrite Z.min_l by lia.
      apply Bool.andb_false_iff in Eg as [Eg%negb_false_iff%Z.eqb_eq|Eg%Z.ltb_ge].
      * rewrite Eg in V. f_equal. lia.
      * apply (mod_capacity Bits HBits _ _ (- (hi + c))). replace n with cap in * by lia. lia.
Qed.
End logic.
End arbuint.
