(* ===== verification/ArbuintConv.v ===== *)
(** Construction, conversion, copies, comparison and powers of [arbuint<Bits>]. *)
From stdpp Require Import base numbers list option.
From Stdlib Require Import ZArith Zpow_facts Lia.
From S2P Require Import Prelude Arrays Limb Mpn MpnValue MpnArith MpnBits MpnFrame MpnToom3 Thresholds MpnTiers MpnDc Arbuint ArbuintProof.

Local Open Scope Z_scope.

(** Testing the low bit. *)
Lemma low_bit x : negb (Z.eqb (Z.land x 1) 0) = Z.odd x.
Proof.
  assert (Z.land x 1 = x mod 2) as -> by (apply (Z.land_ones x 1); lia). rewrite Zmod_odd. by destruct (Z.odd x).
Qed.

Section arbuint.
Context `{W : LimbWidth} (Bits : Z) (HBits : 1 <= Bits <= 2 ^ 31).

Abbreviation cap := (@cap_limbs W Bits).
Abbreviation M := (2 ^ Bits).
Abbreviation lw := (@limb_bits W).
Abbreviation obj p := (vec p (cap + 1)).
Abbreviation arb := (arb Bits).
Abbreviation writes := (writes Bits).

(** ** Construction *)

(** A fresh object is zero. *)
Lemma store_spec m p : wf m -> valid m p (cap + 1) -> returns (store Bits m p) (writes (obj p) m p 0).
Proof.
  intros Hw Hv. pose proof (cap_facts Bits HBits) as [Hc0 _]. pose proof (modulus_pos Bits HBits) as HM. unfold store.
  eapply returns_bind; [apply (zero_spec m p cap); [done|vecs]|]. intros m1 [M1 V1].
  apply returns_set_tail; [vecs|].
  assert (touches (vec (p + cap) 1) m1 (upd m1 (p + cap) 0)) as T2 by (apply touches_upd; [wf_mem|apply is_limb_0|vecs|vecs]).
  split; [drop_values; touched|].
  assert (cell (upd m1 (p + cap) 0) (p + cap) = 0) as Ec by (unfold cell; rewrite aget_upd_eq by vecs; done).
  constructor; rewrite ?Ec; [vecs|lia|by left|by rewrite num_0|lia].
Qed.

(** The widths of the integral types. *)
Definition integral_width (w : Z) : Prop := 0 < w /\ w mod 8 = 0.

Lemma take_limbs_ok w : integral_width w -> 1 <= take_limbs w /\ w <= lw * take_limbs w /\ (w <= lw -> take_limbs w = 1).
Proof.
  intros [Hw Hw8]. unfold take_limbs, limb_bytes. pose proof (Z.div_mod w 8 ltac:(lia)) as E. rewrite Hw8 in E. set (b := w / 8) in *.
  destruct limb_bits_ok as [-> | ->]; [change (64 / 8) with 8|change (32 / 8) with 4].
  - pose proof (Z.div_mod (b + 8 - 1) 8 ltac:(lia)). pose proof (Z.mod_pos_bound (b + 8 - 1) 8 ltac:(lia)). lia.
  - pose proof (Z.div_mod (b + 4 - 1) 4 ltac:(lia)). pose proof (Z.mod_pos_bound (b + 4 - 1) 4 ltac:(lia)). lia.
Qed.

Lemma width_le_take w : integral_width w -> 2 ^ w <= base ^ take_limbs w.
Proof.
  intros Hw. destruct (take_limbs_ok w Hw) as (H1 & H2 & _). rewrite base_pow2 by lia.
  apply Z.pow_le_mono_r; [lia|done].
Qed.

(** The low limb of a number and the rest. *)
Lemma limb_rest u : 0 <= u -> to_limb u + base * Z.shiftr u lw = u.
Proof.
  intros Hu. pose proof limb_bits_pos. rewrite Z.shiftr_div_pow2 by lia. unfold to_limb, wrap, base.
  pose proof (Z.div_mod u (2 ^ lw) ltac:(apply Z.pow_nonzero; lia)). lia.
Qed.

Lemma rest_bound w u : 0 <= u < 2 ^ w -> 0 < w ->
  (if Z.ltb lw w then Z.shiftr u lw else 0) = Z.shiftr u lw /\ 0 <= Z.shiftr u lw < 2 ^ w.
Proof.
  intros Hu Hw. pose proof limb_bits_pos. rewrite Z.shiftr_div_pow2 by lia.
  pose proof (Z.pow_pos_nonneg 2 lw ltac:(lia) ltac:(lia)).
  assert (0 <= u / 2 ^ lw <= u) by (split; [apply Z.div_pos; lia|apply Z.div_le_upper_bound; nia]).
  split; [|lia]. destruct (Z.ltb_spec lw w); [done|]. symmetry. apply Z.div_small. split; [lia|].
  pose proof (Z.pow_le_mono_r 2 w lw). lia.
Qed.

(** The limbs of a [w]-bit integer, lowest first, and what is left of it. *)
Lemma integral_limbs_spec m p w u lim : wf m -> valid m p lim -> 0 < w -> 0 <= u < 2 ^ w ->
  returns (for_ 0 lim (fun i '(m, u) => m ← aset m (p + i) (to_limb u);
      Some (m, if Z.ltb limb_bits w then Z.shiftr u limb_bits else 0)) (m, u)) (fun '(m1, r) =>
    modifies p lim m m1 /\ 0 <= r < 2 ^ w /\ num m1 p lim + base ^ lim * r = u).
Proof.
  intros Hw Hv Hpos Hu.
  apply (returns_store_up p lim m u _ (fun i x r => 0 <= r < 2 ^ w /\ x + base ^ i * r = u)); [done|done| |].
  { rewrite Z.pow_0_r. lia. }
  intros i m1 r Hi M1 [Hr E]. destruct (rest_bound w r Hr Hpos) as [Er Hr'].
  exists (to_limb r), (Z.shiftr r lw). rewrite aset_in by vecs. cbn [mbind option_bind]. rewrite Er.
  split; [done|]. split; [apply to_limb_range|]. split; [done|].
  pose proof (limb_rest r ltac:(lia)) as El. rewrite base_succ by lia. rewrite <- E. rewrite <- El at 3. ring.
Qed.

(** Nothing is left after [take_limbs] limbs. *)
Lemma integral_limbs_all m1 p w u r : wf m1 -> integral_width w -> 0 <= u < 2 ^ w -> 0 <= r ->
  num m1 p (take_limbs w) + base ^ take_limbs w * r = u -> num m1 p (take_limbs w) = u.
Proof.
  intros Hw Hiw Hu Hr E. destruct (take_limbs_ok w Hiw) as (Ht & _). pose proof (width_le_take w Hiw) as Hwt.
  assert (0 <= take_limbs w) as Ht0 by lia. pose proof (num_range m1 p (take_limbs w) Hw Ht0).
  set (P := base ^ take_limbs w) in *. assert (r = 0) as Hr0; [|rewrite Hr0 in E; lia].
  destruct (decide (r = 0)) as [|Hne]; [done|exfalso]. pose proof (Z.mul_le_mono_nonneg_l 1 r P). lia.
Qed.

Lemma assign_integral_spec m p w v : wf m -> valid m p (cap + 1) -> integral_width w ->
  returns (__assign_integral Bits m p w v) (writes (obj p) m p ((v mod 2 ^ w) mod M)).
Proof.
  intros Hw Hv Hiw. pose proof (cap_facts Bits HBits) as [Hc0 _]. pose proof Hiw as [Hpos _].
  pose proof (Z.pow_pos_nonneg 2 w ltac:(lia) ltac:(lia)) as P. unfold __assign_integral, wrap.
  pose proof (Z.mod_pos_bound v (2 ^ w) P) as Hu. set (u := v mod 2 ^ w) in *. clearbody u.
  destruct (Z.eqb_spec u 0) as [->|Hne].
  { eapply (finish_to Bits HBits); [by apply touches_refl|done|vecs|lia|]. by rewrite Z.min_l, num_0 by lia. }
  destruct (take_limbs_ok w Hiw) as (Ht & _). cbv zeta.
  assert ((if Z.ltb (take_limbs w) cap then take_limbs w else cap) = Z.min (take_limbs w) cap) as ->
    by (destruct (Z.ltb_spec (take_limbs w) cap); lia).
  set (lim := Z.min (take_limbs w) cap).
  eapply returns_bind; [apply integral_limbs_spec; [done|unfold lim; vecs|done|done]|]. intros [m1 r] (M1 & Hr & E).
  eapply (finish_to Bits HBits); [eapply touches_mono; [exact M1|unfold lim; vecs]|done|vecs|unfold lim; lia|].
  replace (Z.min lim cap) with lim by (unfold lim; lia).
  destruct (decide (lim = cap)) as [El|Hl].
  - apply (mod_capacity Bits HBits _ _ (- r)). rewrite El in E |- *. lia.
  - assert (lim = take_limbs w) as El by (unfold lim in *; lia). f_equal. rewrite El in E |- *.
    by eapply integral_limbs_all; [wf_mem|..]; [done|done|apply Hr|].
Qed.

(** [from_integral] builds a new object, [assign_integral] reuses one. *)
Lemma from_integral_spec m p w v : wf m -> valid m p (cap + 1) -> integral_width w ->
  returns (from_integral Bits m p w v) (writes (obj p) m p ((v mod 2 ^ w) mod M)).
Proof.
  intros Hw Hv Hiw. unfold from_integral. eapply returns_bind; [by apply store_spec|]. intros m1 [T1 _].
  eapply returns_mono; [apply assign_integral_spec; [wf_mem|vecs|done]|]. intros m2 [T2 A2].
  split; [by eapply touches_trans|done].
Qed.

Lemma assign_integral_to m p w v : wf m -> valid m p (cap + 1) -> integral_width w ->
  returns (assign_integral Bits m p w v) (writes (obj p) m p ((v mod 2 ^ w) mod M)).
Proof.
  intros Hw Hv Hiw. unfold assign_integral.
  eapply returns_bind; [apply (finish_to Bits HBits (obj p) m m p 0); [by apply touches_refl|done|vecs|lia|done]|]. intros m1 [T1 _].
  eapply returns_mono; [apply assign_integral_spec; [wf_mem|vecs|done]|]. intros m2 [T2 A2].
  split; [by eapply touches_trans|done].
Qed.

Lemma one_spec m p : wf m -> valid m p (cap + 1) -> returns (one Bits m p) (writes (obj p) m p 1).
Proof.
  intros Hw Hv. unfold one. assert ((1 mod 2 ^ 32) mod M = 1) as E.
  { rewrite (Z.mod_small 1 (2 ^ 32)) by done. apply Z.mod_small. pose proof (Z.pow_le_mono_r 2 1 Bits). lia. }
  pose proof (from_integral_spec m p 32 1 Hw Hv ltac:(done)) as Hs. by rewrite E in Hs.
Qed.

Lemma power_of_two_spec m p k : wf m -> valid m p (cap + 1) -> 0 <= k ->
  returns (power_of_two Bits m p k) (writes (obj p) m p (2 ^ k mod M)).
Proof.
  intros Hw Hv Hk. pose proof (cap_facts Bits HBits) as [Hc0 [_ Hcb]]. unfold power_of_two.
  eapply returns_bind; [by apply store_spec|]. intros m1 [T1 A1].
  pose proof limb_bits_gt as Hlw. pose proof (Z.div_mod k _ limb_bits_nonzero) as E.
  pose proof (Z.mod_pos_bound k _ Hlw) as Hr. assert (0 <= k / lw) as Hq by (apply Z.div_pos; lia).
  cbv zeta. set (wh := k / lw) in *. set (bi := k mod lw) in *. unfold ensure.
  destruct (Z.leb_spec (wh + 1) cap) as [Hin|Hout]; cbn [negb].
  - eapply returns_bind; [apply (zero_spec m1 p (wh + 1)); [wf_mem|vecs]|]. intros m2 [M2 V2].
    assert (is_limb (2 ^ bi)) as Hl.
    { unfold is_limb, base. pose proof (Z.pow_pos_nonneg 2 bi). pose proof (Z.pow_lt_mono_r 2 bi lw). lia. }
    unfold limb_shl. rewrite decide_True by lia. rewrite Z.shiftl_mul_pow2, Z.mul_1_l, to_limb_id by (done || lia).
    cbn [mbind option_bind]. rewrite aset_in by vecs. cbn [mbind option_bind].
    assert (touches (vec (p + wh) 1) m2 (upd m2 (p + wh) (2 ^ bi))) as T3 by (apply touches_upd; [wf_mem|done|vecs|vecs]).
    eapply (finish_to Bits HBits); [drop_values; touched|done|vecs|lia|]. rewrite Z.min_l, num_upd_at by vecs.
    rewrite num_succ in V2 by lia. pose proof (num_range m2 p wh ltac:(wf_mem) Hq). pose proof (base_pow_pos wh Hq).
    pose proof (wf_cell m2 (p + wh) ltac:(wf_mem)) as Hc. unfold is_limb in Hc.
    assert (num m2 p wh = 0) as -> by nia. f_equal. rewrite E, Z.pow_add_r, <- base_pow2 by nia. lia.
  - apply returns_ret. split; [done|]. assert (2 ^ k mod M = 0) as ->; [|done].
    replace k with (Bits + (k - Bits)) by lia. rewrite Z.pow_add_r by nia. rewrite Z.mul_comm. apply Z.mod_mul.
    pose proof (modulus_pos Bits HBits). lia.
Qed.

(** ** Conversion back *)

Lemma to_integral_spec m p w a : wf m -> arb m p a -> integral_width w -> to_integral Bits m p w = Some (a mod 2 ^ w).
Proof.
  intros Hw Ha Hiw. unfold to_integral. rewrite (arb_size Bits HBits _ _ _ Ha). cbn [mbind option_bind].
  destruct Ha as [Va Ca _ Ea Ba]. set (an := cell m (p + cap)) in *. destruct (take_limbs_ok w Hiw) as (Ht & Hwt & Hone).
  pose proof limb_bits_pos as Hlw. destruct Hiw as [Hpos _]. cbv zeta. pose proof (Z.pow_pos_nonneg 2 w ltac:(lia) ltac:(lia)) as P.
  assert ((if Z.ltb an (take_limbs w) then an else take_limbs w) = Z.min an (take_limbs w)) as ->
    by (destruct (Z.ltb_spec an (take_limbs w)); lia).
  set (n := Z.min an (take_limbs w)).
  assert (returns (for_down n (fun i acc => x ← m.[p + i];
      Some (wrap w (Z.lor (if Z.ltb limb_bits w then wrap w (Z.shiftl acc limb_bits) else 0) (wrap w x)))) 0)
    (fun r => r = num m p n mod 2 ^ w)) as (r & -> & Hr).
  - apply (returns_for_down n _ _ (fun i acc => acc = num m (p + i) (n - i) mod 2 ^ w)).
    + unfold n. lia.
    + rewrite Z.sub_diag, num_0. by rewrite Z.mod_0_l by lia.
    + intros i acc Hi ->. rewrite get_cell by (unfold n in *; vecs). cbn [mbind option_bind]. apply returns_ret.
      replace (n - i) with (n - (i + 1) + 1) by lia. rewrite num_cons, <- Z.add_assoc by lia.
      pose proof (wf_cell m (p + i) Hw) as Hc. set (x := cell m (p + i)) in *. set (y := num m (p + (i + 1)) (n - (i + 1))).
      unfold wrap. destruct (Z.ltb_spec lw w) as [Hlt|Hge].
      * assert (x < 2 ^ lw) as Hx by apply Hc. pose proof (Z.pow_lt_mono_r 2 lw w).
        rewrite Z.shiftl_mul_pow2 by lia. rewrite (Z.mod_small x) by (unfold is_limb in Hc; lia).
        assert (2 ^ w = 2 ^ (w - lw) * 2 ^ lw) as Ew by (rewrite <- Z.pow_add_r by lia; f_equal; lia).
        assert ((y mod 2 ^ w * 2 ^ lw) mod 2 ^ w = (y mod 2 ^ (w - lw)) * 2 ^ lw) as ->.
        { rewrite Z.mul_mod_idemp_l by lia. rewrite Ew at 1. rewrite Z.mul_mod_distr_r by (apply Z.pow_nonzero; lia). done. }
        rewrite lor_high_low by (unfold is_limb in Hc; lia).
        transitivity ((y * 2 ^ lw + x) mod 2 ^ w); [|unfold base; f_equal; lia].
        rewrite <- (Z.add_mod_idemp_l (y * 2 ^ lw)) by lia. f_equal. f_equal.
        rewrite Ew. by rewrite Z.mul_mod_distr_r by (apply Z.pow_nonzero; lia).
      * rewrite Hone in * by lia. assert (n - (i + 1) = 0) as E0 by (unfold n in *; lia). unfold y. rewrite E0, num_0.
        rewrite Z.lor_0_l, Z.mod_mod by lia. f_equal. lia.
    + intros r. by rewrite Z.add_0_r, Z.sub_0_r.
  - f_equal. rewrite Hr, <- Ea. destruct (decide (an <= take_limbs w)) as [Hle|Hgt]; [by replace n with an by (unfold n; lia)|].
    replace n with (take_limbs w) by (unfold n; lia). rewrite (num_split_at m p (take_limbs w) an), base_pow2 by lia.
    replace (lw * take_limbs w) with (w + (lw * take_limbs w - w)) by lia. rewrite Z.pow_add_r by lia.
    rewrite <- Z.mul_assoc, (Z.mul_comm (2 ^ w)), Z.mod_add by lia. done.
Qed.

(** ** Copies *)

(** The object at [p] in [m'] has the cells of the one at [o] in [m]. *)
Lemma arb_cells m m' p o v : arb m o v -> valid m' p (cap + 1) ->
  (forall i, 0 <= i < cap + 1 -> cell m' (p + i) = cell m (o + i)) -> arb m' p v.
Proof.
  intros [Vo Co No Eo Bo] Vp Hc. pose proof (cap_facts Bits HBits) as [Hc0 _].
  assert (forall n, 0 <= n -> n <= cap -> num m' p n = num m o n) as Hn.
  { refine (natlike_ind _ _ _); [done|]. intros n Hn IH Hle. unfold Z.succ in *. rewrite !num_succ, IH, Hc by lia. done. }
  rewrite <- (Hc cap) in Co, No, Eo by lia. constructor; [done|done| | |done].
  - destruct No as [?|No]; [by left|]. destruct (decide (cell m' (p + cap) = 0)); [by left|]. right. by rewrite Hc by lia.
  - by rewrite Hn by lia.
Qed.

Lemma object_copy_spec m p o v : wf m -> arb m o v -> valid m p (cap + 1) -> p = o \/ disjoint p (cap + 1) o (cap + 1) ->
  returns (copy Bits m p o) (writes (obj p) m p v).
Proof.
  intros Hw Ho Vp Hal. pose proof (arb_valid _ _ _ _ Ho) as Vo. unfold copy.
  eapply returns_mono; [apply (copyi_spec m p o (cap + 1)); [done|done|done|vecs]|]. intros m1 [M1 V1]. split; [done|].
  apply (arb_cells m m1 p o v Ho); [vecs|]. intros i Hi. eapply num_inj; [wf_mem|done| |exact V1|done]. vecs.
Qed.

Section swap.
Context (m : mem) (p o : Z) (Hw : wf m) (Vp : valid m p (cap + 1)) (Vo : valid m o (cap + 1)).
Context (Hal : p = o \/ disjoint p (cap + 1) o (cap + 1)).

(** The first [i] cells have changed places. *)
Definition swapped_to (i : Z) (m1 : mem) : Prop :=
  touches (fun k => vec p i k \/ vec o i k) m m1 /\
  forall j, 0 <= j < i -> cell m1 (p + j) = cell m (o + j) /\ cell m1 (o + j) = cell m (p + j).

Lemma swap_step i m1 : 0 <= i < cap + 1 -> swapped_to i m1 ->
  cell m1 (p + i) = cell m (p + i) /\ cell m1 (o + i) = cell m (o + i) /\
  swapped_to (i + 1) (upd (upd m1 (p + i) (cell m (o + i))) (o + i) (cell m (p + i))).
Proof.
  intros Hi [T Hc]. pose proof (touches_alen _ _ _ T) as L. pose proof (touches_wf _ _ _ T) as W1.
  split; [apply (touches_cell _ _ _ _ T); vecs|]. split; [apply (touches_cell _ _ _ _ T); vecs|].
  assert (touches (vec (p + i) 1) m1 (upd m1 (p + i) (cell m (o + i)))) as T1 by (apply touches_upd; [done|by apply wf_cell|vecs|vecs]).
  set (m2 := upd m1 (p + i) (cell m (o + i))) in *.
  assert (touches (vec (o + i) 1) m2 (upd m2 (o + i) (cell m (p + i)))) as T2
    by (apply touches_upd; [wf_mem|by apply wf_cell|vecs|vecs]).
  set (m3 := upd m2 (o + i) (cell m (p + i))) in *.
  split; [drop_values; touched|]. intros j Hj. destruct (decide (j = i)) as [->|Hne].
  - assert (cell m3 (o + i) = cell m (p + i)) as Eo by (unfold m3, cell at 1; rewrite aget_upd_eq by vecs; done). split; [|done].
    destruct (decide (p = o)) as [->|Hpo]; [done|]. rewrite (touches_cell _ _ _ _ T2) by vecs.
    unfold m2, cell at 1. by rewrite aget_upd_eq by vecs.
  - rewrite !(touches_cell _ _ _ _ T2), !(touches_cell _ _ _ _ T1) by vecs. apply Hc. lia.
Qed.

Lemma swap_with_spec a b : arb m p a -> arb m o b -> returns (swap_with Bits m p o) (fun m' =>
  touches (fun k => obj p k \/ obj o k) m m' /\ arb m' p b /\ arb m' o a).
Proof.
  intros Ha Hb. pose proof (cap_facts Bits HBits) as [Hc0 _]. unfold swap_with.
  eapply returns_bind.
  - apply (returns_for 0 cap _ _ swapped_to (swapped_to cap)); [lia| | |done].
    + split; [by apply touches_refl|lia].
    + intros i m1 Hi Hs. destruct (swap_step i m1 ltac:(lia) Hs) as (Ep & Eo & Hs').
      pose proof (touches_alen _ _ _ (proj1 Hs)). rewrite !get_cell by vecs. cbn [mbind option_bind]. rewrite Ep, Eo.
      rewrite aset_in by vecs. cbn [mbind option_bind]. apply returns_set_tail; [vecs|done].
  - intros m1 Hs. destruct (swap_step cap m1 ltac:(lia) Hs) as (Ep & Eo & [T Hc]).
    pose proof (touches_alen _ _ _ (proj1 Hs)). unfold size. rewrite !get_cell by vecs. cbn [mbind option_bind]. rewrite Ep, Eo.
    rewrite aset_in by vecs. cbn [mbind option_bind]. apply returns_set_tail; [vecs|]. split; [done|].
    split; [eapply (arb_cells m); [exact Hb|vecs|]; intros i Hi; by apply Hc|].
    eapply (arb_cells m); [exact Ha|vecs|]. intros i Hi. by apply Hc.
Qed.
End swap.

(** ** Queries *)

Section queries.
Context (m : mem) (p a : Z) (Hw : wf m) (Ha : arb m p a).

Lemma arb_prefix : valid m p (cell m (p + cap)).
Proof. destruct Ha as [Va Ca _ _ _]. vecs. Qed.

Lemma arb_is_zero_spec : arb_is_zero Bits m p = Some (Z.eqb a 0).
Proof.
  unfold arb_is_zero. rewrite (arb_size Bits HBits _ _ _ Ha). cbn [mbind option_bind]. f_equal.
  pose proof (arb_zero Bits HBits _ _ _ Hw Ha). destruct (Z.eqb_spec (cell m (p + cap)) 0), (Z.eqb_spec a 0); tauto.
Qed.

Lemma arb_bit_length_spec : arb_bit_length Bits m p = Some (bit_length a).
Proof.
  unfold arb_bit_length. rewrite (arb_size Bits HBits _ _ _ Ha). cbn [mbind option_bind].
  rewrite bitlen_spec by (done || apply arb_prefix). by rewrite (arb_value _ _ _ _ Ha).
Qed.

Lemma arb_popcount_spec : arb_popcount Bits m p = Some (builtin_popcount a).
Proof.
  unfold arb_popcount. rewrite (arb_size Bits HBits _ _ _ Ha). cbn [mbind option_bind].
  rewrite popcount_spec by (done || apply arb_prefix). by rewrite (arb_value _ _ _ _ Ha).
Qed.

Lemma arb_testbit_spec i : 0 <= i -> arb_testbit Bits m p i = Some (Z.testbit a i).
Proof.
  intros Hi. unfold arb_testbit. rewrite (arb_size Bits HBits _ _ _ Ha). cbn [mbind option_bind].
  rewrite testbit_spec by (done || apply arb_prefix). by rewrite (arb_value _ _ _ _ Ha).
Qed.

Lemma odd_spec : odd Bits m p = Some (Z.odd a).
Proof.
  unfold odd. rewrite (arb_size Bits HBits _ _ _ Ha). cbn [mbind option_bind].
  pose proof (arb_zero Bits HBits _ _ _ Hw Ha) as Hz. pose proof (cap_facts Bits HBits) as [Hc0 _].
  destruct Ha as [Va Ca Na Ea Ba] eqn:EHa. clear EHa. set (n := cell m (p + cap)) in *.
  destruct (Z.eqb_spec n 0) as [E0|Hn0]; cbn [negb]; [apply Hz in E0; by rewrite E0|].
  rewrite get_cell by vecs. cbn [mbind option_bind]. f_equal.
  rewrite low_bit, <- Ea.
  replace n with (n - 1 + 1) by lia. rewrite num_cons, Z.odd_add by lia.
  assert (Z.odd (base * num m (p + 1) (n - 1)) = false) as ->.
  { rewrite Z.odd_mul. unfold base. pose proof limb_bits_pos. by rewrite Z.odd_pow by lia. }
  by rewrite Bool.xorb_false_r.
Qed.
End queries.

Lemma arb_cmp_spec m p o a b : wf m -> arb m p a -> arb m o b -> arb_cmp Bits m p o = Some (sign_of (a ?= b)).
Proof.
  intros Hw Ha Hb. unfold arb_cmp. rewrite (arb_size Bits HBits _ _ _ Ha), (arb_size Bits HBits _ _ _ Hb). cbn [mbind option_bind].
  rewrite cmp_var_spec; [by rewrite (arb_value _ _ _ _ Ha), (arb_value _ _ _ _ Hb)|done|by eapply arb_prefix|by eapply arb_prefix|apply Ha|apply Hb].
Qed.

(** The comparison with an integer; only the temporary is written, and dropped. *)
Lemma cmp_integral_spec m p a w v tmp : wf m -> arb m p a -> integral_width w -> valid m tmp (take_limbs w) ->
  disjoint p (cap + 1) tmp (take_limbs w) -> cmp_integral Bits m p w v tmp = Some (sign_of (a ?= v mod 2 ^ w)).
Proof.
  intros Hw Ha Hiw Vt Dt. pose proof Hiw as [Hpos _]. unfold cmp_integral, wrap.
  pose proof (Z.mod_pos_bound v (2 ^ w) ltac:(apply Z.pow_pos_nonneg; lia)) as Hu. set (u := v mod 2 ^ w) in *. clearbody u. cbv zeta.
  destruct (zero_spec m tmp (take_limbs w) Hw Vt) as (m0 & -> & M0 & _). cbn [mbind option_bind].
  destruct (integral_limbs_spec m0 tmp w u (take_limbs w)) as ([m1 r] & E1 & M1 & Hr & E); [wf_mem|vecs|done|done|].
  rewrite E1. cbn [mbind option_bind]. assert (wf m1) as Hw1 by wf_mem.
  apply integral_limbs_all in E; [|done|done|done|lia].
  assert (touches (vec tmp (take_limbs w)) m m1) as T by (drop_values; touched).
  assert (arb m1 p a) as Ha1 by (eapply (arb_frame Bits HBits); [exact Ha|exact T|vecs]).
  rewrite (arb_size Bits HBits _ _ _ Ha1). cbn [mbind option_bind].
  destruct (normalize_spec m1 tmp (take_limbs w)) as (k & -> & Hk & Nk & Ek); [vecs|]. cbn [mbind option_bind].
  rewrite cmp_var_spec; [by rewrite (arb_value _ _ _ _ Ha1), Ek, E|done|by eapply arb_prefix|vecs|apply Ha1|done].
Qed.

(** ** Increments and powers *)

Lemma increment_spec m p tmp a : wf m -> arb m p a -> valid m tmp (cap + 1) -> disjoint p (cap + 1) tmp (cap + 1) ->
  returns (increment Bits m p tmp) (writes (fun k => obj p k \/ obj tmp k) m p ((a + 1) mod M)).
Proof.
  intros Hw Ha Vt Dt. unfold increment. eapply returns_bind; [by apply one_spec|]. intros m1 [T1 A1].
  eapply returns_mono.
  - apply (add_assign_spec Bits HBits m1 p tmp a 1); [wf_mem|eapply (arb_frame Bits HBits); [exact Ha|exact T1|vecs]|done|by right].
  - intros m2 [T2 A2]. split; [touched|done].
Qed.

Lemma decrement_spec m p tmp sc sn a : wf m -> arb m p a -> valid m tmp (cap + 1) -> disjoint p (cap + 1) tmp (cap + 1) ->
  valid m sc sn -> disjoint p (cap + 1) sc sn -> disjoint tmp (cap + 1) sc sn -> cap <= sn ->
  returns (decrement Bits m p tmp sc) (writes (fun k => obj p k \/ obj tmp k \/ vec sc sn k) m p ((a - 1) mod M)).
Proof.
  intros Hw Ha Vt Dt Vs Dps Dts Hsn. unfold decrement. eapply returns_bind; [by apply one_spec|]. intros m1 [T1 A1].
  eapply returns_mono.
  - apply (sub_assign_spec Bits HBits m1 p tmp a 1) with (sn := sn);
      [wf_mem|eapply (arb_frame Bits HBits); [exact Ha|exact T1|vecs]|done|by right|vecs|done|done|done].
  - intros m2 [T2 A2]. split; [touched|done].
Qed.

Section power.
Context (Solver : solver.t) (HS : Solver <> solver.nussbaumer).
Context (acc base sc sn : Z) (Hsn : mul_scratch_limbs Bits <= sn).
Context (Dab : disjoint acc (cap + 1) base (cap + 1)) (Das : disjoint acc (cap + 1) sc sn) (Dbs : disjoint base (cap + 1) sc sn).
Abbreviation frame := (fun k => obj acc k \/ obj base k \/ vec sc sn k).

Lemma square_step x y e : 0 <= e ->
  (x * y ^ e) mod M = ((if Z.odd e then (x * y) mod M else x) * ((y * y) mod M) ^ (e / 2)) mod M.
Proof.
  intros He. pose proof (modulus_pos Bits HBits) as HM. assert (0 <= e / 2) by (apply Z.div_pos; lia).
  rewrite (Z.mul_mod _ (_ ^ (e / 2))), <- Zpower_mod, <- Z.mul_mod by lia.
  assert (y ^ e = (if Z.odd e then y else 1) * (y * y) ^ (e / 2)) as ->.
  { rewrite <- Z.pow_2_r, <- Z.pow_mul_r by lia. pose proof (Z.div_mod e 2 ltac:(lia)) as E. rewrite Zmod_odd in E.
    destruct (Z.odd e); [rewrite E at 1; rewrite Z.pow_add_r by lia; lia|]. rewrite E at 1. rewrite Z.add_0_r. lia. }
  destruct (Z.odd e); [|f_equal; lia]. rewrite Z.mul_mod_idemp_l by lia. f_equal. lia.
Qed.

(** Square and multiply: [acc] * [base] ^ [e] does not change. *)
Lemma pow_loop_spec fuel : forall m x y e, wf m -> arb m acc x -> arb m base y -> valid m sc sn ->
  0 <= e < 2 ^ Z.of_nat fuel ->
  returns (pow_loop Bits Solver (S fuel) m acc base e sc) (writes frame m acc ((x * y ^ e) mod M)).
Proof.
  induction fuel as [|fuel IH]; intros m x y e Hw Hx Hy Vs He.
  { assert (e = 0) as -> by (change (2 ^ Z.of_nat 0) with 1 in He; lia). cbn [pow_loop Z.eqb negb].
    apply (kept_mod Bits _ _ _ x); [done|done|]. rewrite Z.pow_0_r. lia. }
  rewrite Nat2Z.inj_succ, Z.pow_succ_r in He by lia.
  revert IH. generalize (S fuel). intros k IH. cbn [pow_loop].
  destruct (Z.eqb_spec e 0) as [->|He0]; cbn [negb].
  { apply (kept_mod Bits _ _ _ x); [done|done|]. rewrite Z.pow_0_r. lia. }
  rewrite low_bit.
  assert (Z.shiftr e 1 = e / 2) as -> by (rewrite Z.shiftr_div_pow2 by lia; done). cbv zeta.
  pose proof (Z.div_mod e 2 ltac:(lia)) as E. pose proof (Z.mod_pos_bound e 2 ltac:(lia)).
  pose proof (arb_valid _ _ _ _ Hx) as Va. pose proof (arb_valid _ _ _ _ Hy) as Vb.
  assert (returns (if Z.odd e then mul_assign Bits Solver m acc base sc else Some m)
    (writes (fun k => obj acc k \/ vec sc sn k) m acc (if Z.odd e then (x * y) mod M else x))) as Hm1.
  { destruct (Z.odd e); [|by apply (kept Bits)]. by apply (mul_assign_spec Bits Solver HBits); [..|right|done|done|done|done|done]. }
  eapply returns_bind; [exact Hm1|]. intros m1 [T1 A1]. clear Hm1.
  assert (arb m1 base y) as Hy1 by (eapply (arb_frame Bits HBits); [exact Hy|exact T1|vecs]).
  pose proof (touches_wf _ _ _ T1) as W1. pose proof (touches_alen _ _ _ T1) as L1.
  set (x1 := if Z.odd e then (x * y) mod M else x) in *.
  rewrite square_step by lia. fold x1.
  destruct (Z.eqb_spec (e / 2) 0) as [E0|Hne]; cbn [negb mbind option_bind].
  - eapply returns_mono; [apply (IH m1 x1 y (e / 2)); [done|done|done|vecs|lia]|]. intros m2 [T2 A2].
    rewrite E0, Z.pow_0_r in A2 |- *. split; [|done]. touched.
  - eapply returns_bind.
    { apply (mul_assign_spec Bits Solver HBits m1 base base y y W1 Hy1 Hy1 (or_introl eq_refl) sc sn); [vecs|done|done|done|done]. }
    intros m2 [T2 A2]. eapply returns_mono.
    + apply (IH m2 x1 ((y * y) mod M) (e / 2)); [wf_mem| |done|vecs|lia].
      eapply (arb_frame Bits HBits); [exact A1|exact T2|vecs].
    + intros m3 [T3 A3]. split; [|done]. touched.
Qed.

(** [pow] for an exponent of 64 bits. *)
Lemma pow_spec m a v e : wf m -> arb m a v -> valid m acc (cap + 1) -> valid m base (cap + 1) -> valid m sc sn ->
  disjoint a (cap + 1) base (cap + 1) -> disjoint a (cap + 1) acc (cap + 1) -> 0 <= e < 2 ^ 64 ->
  returns (pow Bits Solver m acc a e base sc) (writes frame m acc (v ^ e mod M)).
Proof.
  intros Hw Ha Vacc Vbase Vs Dabase Daacc He. unfold pow. destruct (Z.eqb_spec e 0) as [->|He0].
  { rewrite Z.pow_0_r. assert (1 mod M = 1) as -> by (apply Z.mod_small; pose proof (Z.pow_le_mono_r 2 1 Bits); lia).
    eapply returns_mono; [by apply one_spec|]. intros m1 [T1 A1]. split; [|done]. eapply touches_mono; [exact T1|vecs]. }
  eapply returns_bind; [apply (object_copy_spec m base a v); [done|done|done|right; vecs]|]. intros m1 [T1 A1].
  eapply returns_bind; [apply (one_spec m1 acc); [wf_mem|vecs]|]. intros m2 [T2 A2].
  eapply returns_mono.
  - apply (pow_loop_spec 64 m2 1 v e); [wf_mem|done| |vecs|done].
    eapply (arb_frame Bits HBits); [exact A1|exact T2|vecs].
  - intros m3 [T3 A3]. rewrite Z.mul_1_l in A3. split; [|done]. touched.
Qed.
End power.
End arbuint.
