(* ===== verification/ArbuintMachine.v ===== *)
(** Client programs over [arbuint<Bits>] objects.

    A client keeps [R] objects side by side, then two temporaries and the scratch
    area of the calls.  Its statements are the assignments of the class; a
    statement that throws ends the program.  [denote] gives the statements their
    meaning on unbounded integers modulo 2^Bits, and [exec_spec] is the simulation
    between the two. *)
From stdpp Require Import base numbers list option.
From Stdlib Require Import ZArith Lia.
From S2P Require Import Prelude Arrays Limb Mpn MpnValue MpnArith MpnBits MpnFrame MpnToom3 Thresholds MpnTiers MpnDc Arbuint ArbuintProof ArbuintDiv ArbuintBits ArbuintConv.

Local Open Scope Z_scope.

(** ** Statements *)

Inductive statement :=
| Update (op : binary_operator) (d s : Z)                  (* d OP= s *)
| Set_binary (op : binary_operator) (d a b : Z)            (* d = a OP b *)
| Set_right (op : binary_operator) (d a w v : Z)           (* d = a OP v, v of w bits *)
| Set_left (op : binary_operator) (d w v a : Z)            (* d = v OP a *)
| Set_divmod (q r a b : Z)                                 (* auto x = divmod(a, b); q = x.quot; r = x.rem *)
| Flip (d : Z) | Set_not (d a : Z)
| Shl (d k : Z) | Shr (d k : Z) | Set_shl (d a k : Z) | Set_shr (d a k : Z)
| Incr (d : Z) | Decr (d : Z) | Post_incr (d a : Z) | Post_decr (d a : Z)
| Mul_add (d x y : Z) | Zero (d : Z) | Load (d w v : Z) | Assign (d w v : Z) | Power_of_two (d k : Z)
| Copy (d s : Z) | Swap (d s : Z) | Set_sqr (d a : Z) | Set_pow (d a e : Z).

(** The value of a register. *)
Definition reg (regs : list Z) (i : Z) : Z := default 0 (regs.[i]).

Section denote.
Context (Bits : Z).
Let M := 2 ^ Bits.

Definition denote_op (op : binary_operator) (x y : Z) : option Z :=
  match op with
  | plus => Some ((x + y) mod M)
  | minus => Some ((x - y) mod M)
  | times => Some ((x * y) mod M)
  | divide => if decide (y = 0) then None else Some (x / y)
  | modulo => if decide (y = 0) then None else Some (x mod y)
  | bit_and => Some (Z.land x y)
  | bit_or => Some (Z.lor x y)
  | bit_xor => Some (Z.lxor x y)
  end.

(** The value of a [w]-bit integer in an object. *)
Definition loaded (w v : Z) : Z := (v mod 2 ^ w) mod M.

(** The registers after a statement; nothing after one that throws. *)
Definition denote (st : statement) (r : list Z) : option (list Z) :=
  match st with
  | Update op d s => upd r d <$> denote_op op (reg r d) (reg r s)
  | Set_binary op d a b => upd r d <$> denote_op op (reg r a) (reg r b)
  | Set_right op d a w v => upd r d <$> denote_op op (reg r a) (loaded w v)
  | Set_left op d w v a => upd r d <$> denote_op op (loaded w v) (reg r a)
  | Set_divmod q d a b => if decide (reg r b = 0) then None
                          else Some (upd (upd r q (reg r a / reg r b)) d (reg r a mod reg r b))
  | Flip d => Some (upd r d (M - 1 - reg r d))
  | Set_not d a => Some (upd r d (M - 1 - reg r a))
  | Shl d k => Some (upd r d ((reg r d * 2 ^ k) mod M))
  | Shr d k => Some (upd r d (reg r d / 2 ^ k))
  | Set_shl d a k => Some (upd r d ((reg r a * 2 ^ k) mod M))
  | Set_shr d a k => Some (upd r d (reg r a / 2 ^ k))
  | Incr d => Some (upd r d ((reg r d + 1) mod M))
  | Decr d => Some (upd r d ((reg r d - 1) mod M))
  | Post_incr d a => Some (upd (upd r a ((reg r a + 1) mod M)) d (reg r a))
  | Post_decr d a => Some (upd (upd r a ((reg r a - 1) mod M)) d (reg r a))
  | Mul_add d x y => Some (upd r d ((reg r d * x + y) mod M))
  | Zero d => Some (upd r d 0)
  | Load d w v | Assign d w v => Some (upd r d (loaded w v))
  | Power_of_two d k => Some (upd r d (2 ^ k mod M))
  | Copy d s => Some (upd r d (reg r s))
  | Swap d s => Some (upd (upd r d (reg r s)) s (reg r d))
  | Set_sqr d a => Some (upd r d ((reg r a * reg r a) mod M))
  | Set_pow d a e => Some (upd r d (reg r a ^ e mod M))
  end.

(** The registers when the program ends, and whether it got to its end. *)
Fixpoint denote_all (prog : list statement) (r : list Z) : list Z * bool :=
  match prog with
  | [] => (r, true)
  | st :: prog => match denote st r with Some r' => denote_all prog r' | None => (r, false) end
  end.
End denote.

Section machine.
Context `{W : LimbWidth} `{B : BarrettTier} (Bits : Z) (Solver : solver.t) (R sn : Z).

Abbreviation cap := (@cap_limbs W Bits).

(** Where object [i] lies; the temporaries are the objects [R] and [R + 1]. *)
Definition slot (i : Z) : Z := i * (cap_limbs Bits + 1).
Definition scratch : Z := slot (R + 2).

(** The result of a call is in the first temporary, and is assigned to [d]. *)
Definition assign_result (d : Z) (m : mem) : option outcome := returning (copy Bits m (slot d) (slot R)).

Definition exec (st : statement) (m : mem) : option outcome :=
  match st with
  | Update op d s => compound_assign Bits Solver op m (slot d) (slot s) scratch
  | Set_binary op d a b =>
      afterwards (operator_objects Bits Solver op m (slot R) (slot a) (slot b) scratch) (assign_result d)
  | Set_right op d a w v =>
      afterwards (operator_integral_right Bits Solver op m (slot R) (slot a) w v (slot (R + 1)) scratch) (assign_result d)
  | Set_left op d w v a =>
      afterwards (operator_integral_left Bits Solver op m (slot R) w v (slot a) scratch) (assign_result d)
  | Set_divmod q d a b =>
      afterwards (divmod Bits m (slot R) (slot (R + 1)) (slot a) (slot b) scratch) (fun m =>
        returning (m ← copy Bits m (slot q) (slot R); copy Bits m (slot d) (slot (R + 1))))
  | Flip d => returning (flip_bits Bits m (slot d))
  | Set_not d a => afterwards (returning (operator_not Bits m (slot R) (slot a))) (assign_result d)
  | Shl d k => returning (shl_assign Bits m (slot d) k)
  | Shr d k => returning (shr_assign Bits m (slot d) k)
  | Set_shl d a k => afterwards (returning (operator_shl Bits m (slot R) (slot a) k)) (assign_result d)
  | Set_shr d a k => afterwards (returning (operator_shr Bits m (slot R) (slot a) k)) (assign_result d)
  | Incr d => returning (increment Bits m (slot d) (slot R))
  | Decr d => returning (decrement Bits m (slot d) (slot R) scratch)
  | Post_incr d a => afterwards (returning (post_increment Bits m (slot R) (slot a) (slot (R + 1)))) (assign_result d)
  | Post_decr d a => afterwards (returning (post_decrement Bits m (slot R) (slot a) (slot (R + 1)) scratch)) (assign_result d)
  | Mul_add d x y => returning (__mul_add_1 Bits m (slot d) x y)
  | Zero d => returning (set_zero Bits m (slot d))
  | Load d w v => returning (from_integral Bits m (slot d) w v)
  | Assign d w v => returning (assign_integral Bits m (slot d) w v)
  | Power_of_two d k => returning (power_of_two Bits m (slot d) k)
  | Copy d s => returning (copy Bits m (slot d) (slot s))
  | Swap d s => returning (swap_with Bits m (slot d) (slot s))
  | Set_sqr d a => afterwards (returning (arb_sqr Bits Solver m (slot R) (slot a) scratch)) (assign_result d)
  | Set_pow d a e =>
      afterwards (returning (pow Bits Solver m (slot R) (slot a) e (slot (R + 1)) scratch)) (assign_result d)
  end.

Fixpoint run (prog : list statement) (m : mem) : option outcome :=
  match prog with
  | [] => Some (returned m)
  | st :: prog =>
      afterwards (exec st m) (run prog)
  end.

(** The default constructors of the objects. *)
Definition construct (m : mem) : option mem := for_ 0 R (fun i m => store Bits m (slot i)) m.

(** ** What is asked of a statement *)

Definition named (i : Z) : Prop := 0 <= i < R.

Definition well_formed (st : statement) : Prop :=
  match st with
  | Update _ d s | Copy d s | Swap d s | Set_not d s | Post_incr d s | Post_decr d s | Set_sqr d s => named d /\ named s
  | Set_binary _ d a b => named d /\ named a /\ named b
  | Set_right _ d a w _ | Set_left _ d w _ a => named d /\ named a /\ integral_width w
  | Set_divmod q d a b => named q /\ named d /\ named a /\ named b
  | Flip d | Incr d | Decr d | Zero d => named d
  | Shl d k | Shr d k | Power_of_two d k => named d /\ 0 <= k
  | Set_shl d a k | Set_shr d a k => named d /\ named a /\ 0 <= k
  | Mul_add d x y => named d /\ is_limb x /\ is_limb y
  | Load d w v | Assign d w v => named d /\ integral_width w
  | Set_pow d a e => named d /\ named a /\ 0 <= e < 2 ^ 64
  end.

(** The room of the client: the bounds of the class's local arrays. *)
Record machine_ok : Prop := {
  ok_bits : 1 <= Bits <= 2 ^ 31;
  ok_solver : Solver <> solver.nussbaumer;
  ok_objects : 0 <= R;
  ok_mul : mul_scratch_limbs Bits <= sn;
  ok_div : div_scratch_limbs Bits <= sn
}.

(** The objects hold the registers. *)
Record represents (m : mem) (r : list Z) : Prop := {
  rep_wf : wf m;
  rep_room : scratch + sn <= alen m;
  rep_regs : alen r = R;
  rep_obj : forall i, named i -> arb Bits m (slot i) (reg r i)
}.

Context (Hok : machine_ok).
Let HBits := ok_bits Hok.

Lemma scratch_room : cap <= sn.
Proof.
  pose proof (cap_facts Bits HBits) as [Hc _]. pose proof (ok_div Hok).
  destruct (div_scratch_ok Bits cap cap) as [Hs Hp]; lia.
Qed.

Lemma slots_apart i j : i <> j -> disjoint (slot i) (cap + 1) (slot j) (cap + 1).
Proof. intros Hne. pose proof (cap_facts Bits HBits) as [Hc _]. unfold disjoint, slot. nia. Qed.

Lemma slots_alias i j : slot i = slot j \/ disjoint (slot i) (cap + 1) (slot j) (cap + 1).
Proof. destruct (decide (i = j)) as [->|]; [by left|right; by apply slots_apart]. Qed.

(** Object [i] lies before object [j] when [i < j]. *)
Lemma slot_before i j : 0 <= i < j -> 0 <= slot i /\ slot i + (cap + 1) <= slot j.
Proof. intros Hij. pose proof (cap_facts Bits HBits) as [Hc _]. unfold slot. nia. Qed.

(** The temporaries and the scratch area. *)
Definition work (k : Z) : Prop := slot R <= k < scratch + sn.

Lemma layout : 0 <= slot R /\ slot R + (cap + 1) = slot (R + 1) /\ slot (R + 1) + (cap + 1) = scratch /\ 1 <= cap <= sn.
Proof.
  pose proof (cap_facts Bits HBits) as [Hc _]. pose proof (ok_objects Hok). pose proof scratch_room. unfold scratch, slot. nia.
Qed.

(** ** The operators *)

(** What a call leaves that writes the object [p] within [P], or throws after writes
    within [N]. *)
Definition op_post (P N : Z -> Prop) (m : mem) (p : Z) (v : option Z) (out : outcome) : Prop :=
  match v, out with
  | Some v, returned m' => writes Bits P m p v m'
  | None, domain_error m' => touches N m m'
  | _, _ => False
  end.

(** After writes within [Q]. *)
Lemma op_post_after (P N Q : Z -> Prop) m m1 p v out : touches Q m m1 -> (forall k, P k -> Q k) -> (forall k, N k -> Q k) ->
  op_post P N m1 p v out -> op_post Q Q m p v out.
Proof.
  intros T HP HN. destruct v, out as [m'|m']; cbn [op_post]; try done.
  - intros [T' A]. split; [|done]. eapply touches_trans; [exact T|]. by eapply touches_mono.
  - intros T'. eapply touches_trans; [exact T|]. by eapply touches_mono.
Qed.

Lemma op_returning (P Q N : Z -> Prop) m p v x : returns x (writes Bits P m p v) -> (forall k, P k -> Q k) ->
  returns (returning x) (op_post Q N m p (Some v)).
Proof.
  intros Hx HPQ. unfold returning. eapply returns_bind; [exact Hx|]. intros m' [T A]. apply returns_ret.
  split; [by eapply touches_mono|done].
Qed.

Lemma op_throws P N m p b v x : wf m -> returns x (throws_or m b (writes Bits P m p v)) ->
  returns x (op_post P N m p (if decide (b = 0) then None else Some v)).
Proof.
  intros Hw Hx. eapply returns_mono; [exact Hx|]. intros [m'|m']; cbn [throws_or].
  - intros [Hb Hm]. by rewrite decide_False.
  - intros [-> ->]. rewrite decide_True by done. by apply touches_refl.
Qed.

(** [this OP= o] computes the operator. *)
Lemma compound_assign_spec op m this o a b sc : wf m -> arb Bits m this a -> arb Bits m o b ->
  this = o \/ disjoint this (cap + 1) o (cap + 1) -> valid m sc sn ->
  disjoint this (cap + 1) sc sn -> disjoint o (cap + 1) sc sn ->
  returns (compound_assign Bits Solver op m this o sc)
    (op_post (fun k => vec this (cap + 1) k \/ vec sc sn k) (fun _ => False) m this (denote_op Bits op a b)).
Proof.
  intros Hw Ha Hb Hal Vs Dts Dos. pose proof scratch_room. pose proof (ok_mul Hok). pose proof (ok_div Hok). pose proof (ok_solver Hok).
  destruct op; cbn [compound_assign denote_op].
  - eapply op_returning; [by apply (add_assign_spec Bits HBits)|by left].
  - eapply op_returning; [by apply (sub_assign_spec Bits HBits) with (sn := sn)|done].
  - eapply op_returning; [by apply (mul_assign_spec Bits Solver HBits) with (sn := sn)|done].
  - apply op_throws; [done|]. by apply (divmod_into_spec Bits HBits) with (want := true).
  - apply op_throws; [done|]. by apply (divmod_into_spec Bits HBits) with (want := false).
  - eapply op_returning; [by apply (and_assign_spec Bits HBits)|by left].
  - eapply op_returning; [by apply (or_assign_spec Bits HBits)|by left].
  - eapply op_returning; [by apply (xor_assign_spec Bits HBits)|by left].
Qed.

(** ** The simulation *)

(** What a statement may write: the client's memory. *)
Abbreviation client := (fun k => 0 <= k < scratch + sn).

(** The objects hold the registers the statement denotes, or still hold [r] after an exception. *)
Definition simulates (m : mem) (r : list Z) (r' : option (list Z)) (out : outcome) : Prop :=
  match r', out with
  | Some r', returned m' => represents m' r' /\ touches client m m'
  | None, domain_error m' => represents m' r /\ touches client m m'
  | _, _ => False
  end.

Lemma reg_upd r i j x : 0 <= i < alen r -> reg (upd r i x) j = if decide (j = i) then x else reg r j.
Proof.
  intros Hi. unfold reg. destruct (decide (j = i)) as [->|Hne]; [by rewrite aget_upd_eq|]. by rewrite aget_upd_ne by lia.
Qed.

(** Two objects change, and the work area. *)
Lemma represents_upd2 m m' r d q v w : represents m r -> named d -> named q ->
  touches (fun k => (vec (slot d) (cap + 1) k \/ vec (slot q) (cap + 1) k) \/ work k) m m' ->
  arb Bits m' (slot d) v -> (q <> d -> arb Bits m' (slot q) w) ->
  represents m' (upd (upd r q w) d v) /\ touches client m m'.
Proof.
  intros [Hw Hroom Hr Hobj] Hd Hq T Ad Aq. pose proof (touches_alen _ _ _ T). unfold named in *. split.
  - constructor; [by eapply touches_wf|lia|by rewrite !alen_upd|].
    intros i Hi. unfold named in Hi. rewrite !reg_upd by (rewrite ?alen_upd; lia).
    destruct (decide (i = d)) as [->|Hnd]; [done|]. destruct (decide (i = q)) as [->|Hnq]; [by apply Aq|].
    eapply (arb_frame Bits HBits); [by apply Hobj|exact T|]. intros k Hk.
    pose proof (slots_apart i d Hnd). pose proof (slots_apart i q Hnq). pose proof (slot_before i R ltac:(lia)).
    unfold work, vec, disjoint in *. lia.
  - eapply touches_mono; [exact T|]. pose proof layout. pose proof (slot_before d R Hd). pose proof (slot_before q R Hq).
    unfold work, vec. lia.
Qed.

(** One object changes. *)
Lemma represents_upd m m' r d v : represents m r -> named d ->
  touches (fun k => vec (slot d) (cap + 1) k \/ work k) m m' -> arb Bits m' (slot d) v ->
  represents m' (upd r d v) /\ touches client m m'.
Proof.
  intros Hrep Hd T A.
  assert (upd r d v = upd (upd r d v) d v) as ->.
  { apply array_ext. intros i Hi. destruct (decide (i = d)) as [->|]; [|by rewrite !(aget_upd_ne _ d) by (unfold named in Hd; lia)].
    destruct (decide (d < alen r)); [by rewrite !aget_upd_eq by (rewrite ?alen_upd; unfold named in Hd; lia)|].
    by rewrite !aget_out by (rewrite ?alen_upd; lia). }
  apply (represents_upd2 m); try done. eapply touches_mono; [exact T|]. tauto.
Qed.

(** Only the work area changes. *)
Lemma represents_work m m' r : represents m r -> touches work m m' -> represents m' r /\ touches client m m'.
Proof.
  intros [Hw Hroom Hr Hobj] T. pose proof (touches_alen _ _ _ T). split.
  - constructor; [by eapply touches_wf|lia|done|]. intros i Hi. eapply (arb_frame Bits HBits); [by apply Hobj|exact T|].
    pose proof (slot_before i R Hi). unfold work, vec. lia.
  - eapply touches_mono; [exact T|]. pose proof layout. unfold work. lia.
Qed.

Section statements.
Context (m : mem) (r : list Z) (Hrep : represents m r).

Lemma named_in i : named i -> 0 <= i < R + 2.
Proof. unfold named. lia. Qed.

Lemma named_tmp i : named i -> i <> R /\ i <> R + 1.
Proof. unfold named. lia. Qed.

Lemma object_valid i : 0 <= i < R + 2 -> valid m (slot i) (cap + 1).
Proof.
  intros Hi. destruct Hrep as [_ Hroom _ _]. pose proof (slot_before i (R + 2) Hi). pose proof layout.
  unfold valid, scratch in *. lia.
Qed.

Lemma scratch_valid : valid m scratch sn.
Proof. destruct Hrep as [_ Hroom _ _]. pose proof layout. unfold valid. lia. Qed.

Lemma scratch_apart i : 0 <= i < R + 2 -> disjoint (slot i) (cap + 1) scratch sn.
Proof. intros Hi. left. by apply slot_before. Qed.

Lemma object_arb i : named i -> arb Bits m (slot i) (reg r i).
Proof. apply (rep_obj _ _ Hrep). Qed.

(** A call on an object of the client. *)
Lemma update_object (P N : Z -> Prop) d x v : named d -> returns x (op_post P N m (slot d) v) ->
  (forall k, P k -> vec (slot d) (cap + 1) k \/ work k) -> (forall k, N k -> work k) ->
  returns x (simulates m r (upd r d <$> v)).
Proof.
  intros Hd Hx HP HN. eapply returns_mono; [exact Hx|].
  intros [m'|m']; destruct v as [v|]; cbn [op_post fmap option_fmap option_map simulates]; try done.
  - intros [T A]. apply (represents_upd m); try done. by eapply touches_mono.
  - intros T. apply (represents_work m); [done|]. by eapply touches_mono.
Qed.

(** A call whose result is built in the first temporary. *)
Lemma assign_from_temporary d x v : named d -> returns x (op_post work work m (slot R) v) ->
  returns (afterwards x (assign_result d)) (simulates m r (upd r d <$> v)).
Proof.
  intros Hd Hx. pose proof layout as (L0 & L1 & L2 & Lc). unfold afterwards. eapply returns_bind; [exact Hx|].
  intros [m1|m1] Hp; destruct v as [v|]; cbn [op_post fmap option_fmap option_map] in *; try done.
  - destruct Hp as [T1 A1]. pose proof (object_valid d (named_in d Hd)). unfold assign_result, returning.
    eapply returns_bind.
    { apply (object_copy_spec Bits HBits m1 (slot d) (slot R) v); [wf_mem|done|vecs|right; by apply slots_apart, named_tmp]. }
    intros m2 [T2 A2]. apply returns_ret. apply (represents_upd m); [done|done| |done].
    eapply touches_trans; (eapply touches_mono; [eassumption|]); tauto.
  - apply returns_ret. by apply (represents_work m).
Qed.

Lemma temporaries : valid m (slot R) (cap + 1) /\ valid m (slot (R + 1)) (cap + 1) /\ disjoint (slot R) (cap + 1) scratch sn /\
  disjoint (slot (R + 1)) (cap + 1) scratch sn /\ disjoint (slot R) (cap + 1) (slot (R + 1)) (cap + 1).
Proof.
  pose proof (ok_objects Hok). split_and!; [apply object_valid; lia|apply object_valid; lia|apply scratch_apart; lia|
    apply scratch_apart; lia|apply slots_apart; lia].
Qed.

(** A call that starts with a copy of [a] into the first temporary. *)
Lemma with_copy a (f : mem -> option outcome) v : named a ->
  (forall m1, represents m1 r -> arb Bits m1 (slot R) (reg r a) -> returns (f m1) (op_post work work m1 (slot R) v)) ->
  returns (m1 ← copy Bits m (slot R) (slot a); f m1) (op_post work work m (slot R) v).
Proof.
  intros Ha Hf. pose proof layout as (L0 & L1 & L2 & Lc). destruct temporaries as (V0 & _). eapply returns_bind.
  - apply (object_copy_spec Bits HBits m (slot R) (slot a) (reg r a)); [apply Hrep|by apply object_arb|done|].
    right. apply slots_apart. pose proof (named_tmp a Ha). lia.
  - intros m1 [T1 A1]. assert (touches work m m1) as T1' by (eapply touches_mono; [exact T1|unfold work, vec; lia]).
    eapply returns_mono; [apply Hf; [by apply (represents_work m)|done]|].
    intros out. apply op_post_after; done.
Qed.

(** A call on the first temporary that may use the second and the scratch area. *)
Lemma in_work (P : Z -> Prop) x v : returns x (writes Bits P m (slot R) v) ->
  (forall k, P k -> vec (slot R) (cap + 1) k \/ vec (slot (R + 1)) (cap + 1) k \/ vec scratch sn k) ->
  returns (returning x) (op_post work work m (slot R) (Some v)).
Proof.
  intros Hx HP. eapply op_returning; [exact Hx|]. pose proof layout. intros k Hk%HP. unfold work, vec in *. lia.
Qed.

(** The operator on the first temporary and another object. *)
Lemma operator_in_work op o a b : arb Bits m (slot R) a -> arb Bits m (slot o) b -> o <> R -> 0 <= o < R + 2 ->
  returns (compound_assign Bits Solver op m (slot R) (slot o) scratch) (op_post work work m (slot R) (denote_op Bits op a b)).
Proof.
  intros Ha Hb Ho Ho'. destruct temporaries as (_ & _ & D0 & _ & _). pose proof layout. pose proof (rep_wf _ _ Hrep) as Hw. eapply returns_mono.
  - apply (compound_assign_spec op m (slot R) (slot o) a b scratch); [done|done|done|right; apply slots_apart; lia|apply scratch_valid|done|].
    by apply scratch_apart.
  - intros out. apply op_post_after; [by apply touches_refl|unfold work, vec; lia|done].
Qed.
End statements.

Section simulation.
Context (m : mem) (r : list Z) (Hrep : represents m r).
Let Hw := rep_wf _ _ Hrep.

Lemma returning_bind {A} (x : option A) (f : A -> option mem) : returning (y ← x; f y) = (y ← x; returning (f y)).
Proof. by destruct x. Qed.

Lemma set_binary_spec op a b : named a -> named b ->
  returns (operator_objects Bits Solver op m (slot R) (slot a) (slot b) scratch)
    (op_post work work m (slot R) (denote_op Bits op (reg r a) (reg r b))).
Proof.
  intros Ha Hb. apply (with_copy m r Hrep); [done|]. intros m1 Hrep1 A1.
  apply (operator_in_work m1 r Hrep1); [done|by apply object_arb|by apply named_tmp|by apply named_in].
Qed.

Lemma set_right_spec op a w v : named a -> integral_width w ->
  returns (operator_integral_right Bits Solver op m (slot R) (slot a) w v (slot (R + 1)) scratch)
    (op_post work work m (slot R) (denote_op Bits op (reg r a) (loaded Bits w v))).
Proof.
  intros Ha Hiw. apply (with_copy m r Hrep); [done|]. intros m1 Hrep1 A1. destruct (temporaries m1 r Hrep1) as (V0 & V1 & D0 & D1 & D01).
  pose proof layout as (L0 & L1 & L2 & Lc). pose proof (ok_objects Hok).
  eapply returns_bind; [apply (from_integral_spec Bits HBits m1 (slot (R + 1)) w v); [apply Hrep1|done|done]|]. intros m2 [T2 A2].
  assert (touches work m1 m2) as T2' by (eapply touches_mono; [exact T2|unfold work, vec; lia]).
  destruct (represents_work m1 m2 r Hrep1 T2') as [Hrep2 _]. eapply returns_mono.
  - apply (operator_in_work m2 r Hrep2 op (R + 1)); [|exact A2|lia|lia]. eapply (arb_frame Bits HBits); [exact A1|exact T2|vecs].
  - intros out. by apply op_post_after.
Qed.

Lemma set_left_spec op w v a : named a -> integral_width w ->
  returns (operator_integral_left Bits Solver op m (slot R) w v (slot a) scratch)
    (op_post work work m (slot R) (denote_op Bits op (loaded Bits w v) (reg r a))).
Proof.
  intros Ha Hiw. destruct (temporaries m r Hrep) as (V0 & _). pose proof layout as (L0 & L1 & L2 & Lc).
  eapply returns_bind; [apply (from_integral_spec Bits HBits m (slot R) w v); [done|done|done]|]. intros m1 [T1 A1].
  assert (touches work m m1) as T1' by (eapply touches_mono; [exact T1|unfold work, vec; lia]).
  destruct (represents_work m m1 r Hrep T1') as [Hrep1 _]. eapply returns_mono.
  - apply (operator_in_work m1 r Hrep1 op a); [exact A1|by apply object_arb|by apply named_tmp|by apply named_in].
  - intros out. by apply op_post_after.
Qed.

(** The unary operators that return a new object. *)
Lemma set_unary_spec a (g : mem -> option mem) v P : named a ->
  (forall m1, represents m1 r -> arb Bits m1 (slot R) (reg r a) -> returns (g m1) (writes Bits P m1 (slot R) v)) ->
  (forall k, P k -> vec (slot R) (cap + 1) k \/ vec (slot (R + 1)) (cap + 1) k \/ vec scratch sn k) ->
  returns (returning (m1 ← copy Bits m (slot R) (slot a); g m1)) (op_post work work m (slot R) (Some v)).
Proof.
  intros Ha Hg HP. rewrite returning_bind. apply (with_copy m r Hrep); [done|]. intros m1 Hrep1 A1.
  apply (in_work m1 P); [|done]. by apply Hg.
Qed.

(** [d = a++] and [d = a--]: the old value is kept in the first temporary. *)
Lemma post_update_spec d a (g : mem -> option mem) v P : named d -> named a ->
  (forall m1, represents m1 r -> returns (g m1) (writes Bits P m1 (slot a) v)) ->
  (forall k, P k -> vec (slot a) (cap + 1) k \/ vec (slot (R + 1)) (cap + 1) k \/ vec scratch sn k) ->
  returns (afterwards (returning (m1 ← copy Bits m (slot R) (slot a); g m1)) (assign_result d))
    (simulates m r (Some (upd (upd r a v) d (reg r a)))).
Proof.
  intros Hd Ha Hg HP. destruct (temporaries m r Hrep) as (V0 & _). pose proof layout as (L0 & L1 & L2 & Lc).
  pose proof (object_valid m r Hrep d (named_in d Hd)) as Vd. pose proof (slot_before a R Ha) as Ba. pose proof (slot_before d R Hd) as Bd.
  unfold afterwards. rewrite returning_bind, option_bind_assoc. eapply returns_bind.
  { apply (object_copy_spec Bits HBits m (slot R) (slot a) (reg r a)); [done|by apply object_arb|done|right; right; lia]. }
  intros m1 [T1 A1]. assert (touches work m m1) as T1' by (eapply touches_mono; [exact T1|unfold work, vec; lia]).
  destruct (represents_work m m1 r Hrep T1') as [Hrep1 _]. unfold returning at 1. cbn [compose]. rewrite option_bind_assoc.
  eapply returns_bind; [by apply Hg|]. intros m2 [T2 A2]. cbn [compose mbind option_bind]. unfold assign_result, returning.
  eapply returns_bind.
  { apply (object_copy_spec Bits HBits m2 (slot d) (slot R) (reg r a)); [wf_mem| |vecs|left + right; left; lia].
    eapply (arb_frame Bits HBits); [exact A1|exact T2|]. intros k Hk Hk'%HP. unfold vec in *. lia. }
  intros m3 [T3 A3]. apply returns_ret. apply (represents_upd2 m); [done|done|done| |done|].
  - eapply touches_trans; [eapply touches_mono; [exact T1'|tauto]|]. eapply touches_trans; (eapply touches_mono; [eassumption|]).
    + intros k Hk%HP. unfold work, vec in *. lia.
    + tauto.
  - intros Hne. eapply (arb_frame Bits HBits); [exact A2|exact T3|]. pose proof (slots_apart a d Hne). unfold vec, disjoint in *. lia.
Qed.

Lemma set_divmod_spec q d a b : named q -> named d -> named a -> named b ->
  returns (exec (Set_divmod q d a b) m) (simulates m r (denote Bits (Set_divmod q d a b) r)).
Proof.
  intros Hq Hd Ha Hb. cbn [exec denote]. destruct (temporaries m r Hrep) as (V0 & V1 & D0 & D1 & D01).
  pose proof layout as (L0 & L1 & L2 & Lc). pose proof (ok_div Hok) as Hdiv.
  pose proof (slot_before a R Ha) as Ba. pose proof (slot_before b R Hb) as Bb.
  pose proof (slot_before q R Hq) as Bq. pose proof (slot_before d R Hd) as Bd. pose proof (rep_room _ _ Hrep) as Hroom.
  unfold afterwards, divmod. rewrite option_bind_assoc.
  eapply returns_bind; [by apply (store_spec Bits HBits m (slot R))|]. intros m1 [T1 _]. cbn [compose]. rewrite option_bind_assoc.
  assert (touches work m m1) as T1' by (eapply touches_mono; [exact T1|unfold work, vec; lia]).
  destruct (represents_work m m1 r Hrep T1') as [Hrep1 _].
  eapply returns_bind.
  { apply (object_copy_spec Bits HBits m1 (slot (R + 1)) (slot a) (reg r a)); [apply Hrep1|by apply (object_arb m1 r)|vecs|right; right; lia]. }
  intros m2 [T2 A2]. cbn [compose]. assert (touches work m1 m2) as T2' by (eapply touches_mono; [exact T2|unfold work, vec; lia]).
  destruct (represents_work m1 m2 r Hrep1 T2') as [Hrep2 _].
  eapply returns_bind.
  { apply (divmod_both_spec Bits HBits m2 (slot (R + 1)) (slot b) (reg r a) (reg r b) scratch sn) with (q := slot R);
      [apply Hrep2|done|by apply (object_arb m2 r)|right; right; lia|by apply (scratch_valid m2 r)|done|left; lia|done|
       done|right; lia|done|vecs]. }
  intros [m3|m3]; cbn [throws_or]; [|intros [E ->]; rewrite decide_True by done; apply returns_ret; apply (represents_work m); [done|]; by eapply touches_trans].
  intros (Hne & T3 & Aq & Ar). rewrite decide_False by done. unfold returning. rewrite option_bind_assoc.
  eapply returns_bind; [apply (object_copy_spec Bits HBits m3 (slot q) (slot R) (reg r a / reg r b)); [wf_mem|done|unfold valid; same_length; lia|right; left; lia]|].
  intros m4 [T4 A4]. cbn [compose]. eapply returns_bind.
  { apply (object_copy_spec Bits HBits m4 (slot d) (slot (R + 1)) (reg r a mod reg r b)); [wf_mem| |unfold valid; same_length; lia|right; left; lia].
    eapply (arb_frame Bits HBits); [exact Ar|exact T4|unfold vec; lia]. }
  intros m5 [T5 A5]. apply returns_ret. apply (represents_upd2 m); [done|done|done| |done|].
  - eapply touches_trans; [eapply touches_mono; [exact T1'|tauto]|]. eapply touches_trans; [eapply touches_mono; [exact T2'|tauto]|].
    eapply touches_trans; [eapply touches_mono; [exact T3|unfold work, vec; lia]|].
    eapply touches_trans; (eapply touches_mono; [eassumption|]); tauto.
  - intros Hqd. eapply (arb_frame Bits HBits); [exact A4|exact T5|]. pose proof (slots_apart q d Hqd). unfold vec, disjoint in *. lia.
Qed.

Lemma swap_spec d s : named d -> named s -> returns (exec (Swap d s) m) (simulates m r (denote Bits (Swap d s) r)).
Proof.
  intros Hd Hs. cbn [exec denote]. unfold returning. eapply returns_bind.
  - apply (swap_with_spec Bits HBits m (slot d) (slot s) Hw); [by eapply object_valid, named_in|by eapply object_valid, named_in|
      apply slots_alias|by apply object_arb|by apply object_arb].
  - intros m' (T & Ad & As). apply returns_ret. apply (represents_upd2 m); try done.
    eapply touches_mono; [exact T|]. unfold vec. tauto.
Qed.

Ltac operands := eauto using slots_alias, slots_apart, object_valid, object_arb, scratch_apart, scratch_valid, named_in, rep_wf.

(** Statements that write one object. *)
Lemma one_object (P : Z -> Prop) d x v : named d -> returns x (writes Bits P m (slot d) v) ->
  (forall k, P k -> vec (slot d) (cap + 1) k \/ work k) -> returns (returning x) (simulates m r (Some (upd r d v))).
Proof.
  intros Hd Hx HP. apply (update_object m r Hrep P (fun _ => False) d _ (Some v)); [done| |done|done]. by eapply op_returning.
Qed.

(** Statements that build their result in a temporary. *)
Lemma new_object d x v : named d -> returns x (op_post work work m (slot R) (Some v)) ->
  returns (afterwards x (assign_result d)) (simulates m r (Some (upd r d v))).
Proof. intros Hd Hx. by apply (assign_from_temporary m r Hrep d x (Some v)). Qed.

Ltac one_by lem := eapply one_object; [eassumption|apply lem; operands; try lia|unfold work, vec; lia].
Ltac new_by lem := apply new_object; [done|]; eapply set_unary_spec; [eassumption|intros; apply lem; operands; try lia|unfold vec; lia].

(** Every statement does to the objects what it denotes on the registers. *)
Lemma exec_spec st : well_formed st -> returns (exec st m) (simulates m r (denote Bits st r)).
Proof.
  pose proof layout as (L0 & L1 & L2 & Lc). destruct (temporaries m r Hrep) as (V0 & V1 & D0 & D1 & D01).
  pose proof (ok_mul Hok). pose proof (ok_div Hok). pose proof (ok_solver Hok). pose proof (ok_objects Hok). pose proof scratch_room.
  assert (forall i, named i -> disjoint (slot i) (cap + 1) (slot R) (cap + 1)) by (intros i Hi; apply slots_apart, named_tmp, Hi).
  assert (forall i, named i -> disjoint (slot i) (cap + 1) (slot (R + 1)) (cap + 1)) by (intros i Hi; apply slots_apart, named_tmp, Hi).
  destruct st; intros Hst; cbn [well_formed] in Hst; destruct_and? Hst;
    try (by apply set_divmod_spec); try (by apply swap_spec); cbn [exec denote].
  - eapply update_object; [done|done|apply compound_assign_spec; operands|unfold work, vec; lia|done].
  - apply (assign_from_temporary m r Hrep); [done|by apply set_binary_spec].
  - apply (assign_from_temporary m r Hrep); [done|by apply set_right_spec].
  - apply (assign_from_temporary m r Hrep); [done|by apply set_left_spec].
  - one_by (flip_bits_spec Bits HBits).
  - new_by (flip_bits_spec Bits HBits).
  - one_by (shl_assign_spec Bits HBits).
  - one_by (shr_assign_spec Bits HBits).
  - new_by (shl_assign_spec Bits HBits).
  - new_by (shr_assign_spec Bits HBits).
  - one_by (increment_spec Bits HBits).
  - one_by (fun m p tmp => decrement_spec Bits HBits m p tmp scratch sn).
  - eapply post_update_spec; [done|done| |].
    + intros m1 Hrep1. destruct (temporaries m1 r Hrep1) as (_ & ? & _). apply (increment_spec Bits HBits); operands.
    + unfold vec; lia.
  - eapply post_update_spec; [done|done| |].
    + intros m1 Hrep1. destruct (temporaries m1 r Hrep1) as (_ & ? & _).
      apply (decrement_spec Bits HBits) with (sn := sn); operands.
    + unfold vec; lia.
  - one_by (mul_add_1_spec Bits HBits).
  - apply (one_object (vec (slot d) (cap + 1)) d); [done| |by left].
    apply (finish_to Bits HBits); [by apply touches_refl|operands|done|lia|]. rewrite Z.min_l, num_0 by lia.
    apply Z.mod_0_l. pose proof (modulus_pos Bits HBits). lia.
  - one_by (from_integral_spec Bits HBits).
  - one_by (assign_integral_to Bits HBits).
  - one_by (power_of_two_spec Bits HBits).
  - one_by (object_copy_spec Bits HBits).
  - apply new_object; [done|]. eapply set_unary_spec; [eassumption| |].
    + intros m1 Hrep1 A1. apply (square_spec Bits Solver HBits) with (o := slot R) (sn := sn); operands.
    + unfold vec; lia.
  - apply new_object; [done|]. eapply in_work.
    + apply (pow_spec Bits HBits Solver) with (sn := sn) (v := reg r a); operands.
    + unfold vec; tauto.
Qed.
End simulation.

(** ** Construction *)

Lemma reg_zeros i : reg (replicate (Z.to_nat R) 0) i = 0.
Proof. unfold reg, aget. case_decide; [|done]. destruct (_ !! _) as [x|] eqn:E; [|done]. by apply lookup_replicate in E as [-> _]. Qed.

(** Constructed objects hold zero. *)
Lemma construct_spec m : wf m -> scratch + sn <= alen m ->
  returns (construct m) (fun m' => represents m' (replicate (Z.to_nat R) 0)).
Proof.
  intros Hw Hroom. pose proof (ok_objects Hok) as HR. pose proof layout as (L0 & L1 & L2 & Lc). unfold construct.
  apply (returns_for 0 R _ _ (fun n m1 => wf m1 /\ alen m1 = alen m /\ forall i, 0 <= i < n -> arb Bits m1 (slot i) 0)); [done| | |].
  - split; [done|]. split; [done|]. lia.
  - intros n m1 Hn (Hw1 & L & Hobj). pose proof (slot_before n R Hn).
    eapply returns_mono; [apply (store_spec Bits HBits m1 (slot n)); [done|unfold valid; lia]|]. intros m2 [T A].
    split; [by eapply touches_wf|]. split; [by rewrite (touches_alen _ _ _ T)|]. intros i Hi.
    destruct (decide (i = n)) as [->|Hne]; [done|]. eapply (arb_frame Bits HBits); [apply Hobj; lia|exact T|].
    pose proof (slots_apart i n Hne). unfold vec, disjoint in *. lia.
  - intros m1 (Hw1 & L & Hobj). constructor; [done|lia| |].
    + unfold alen. rewrite length_replicate. lia.
    + intros i Hi. rewrite reg_zeros. by apply Hobj.
Qed.
End machine.
