(* ===== verification/ArbuintTheorems.v ===== *)
(** What the bounded integers promise to their clients: programs over objects
    compute modulo 2^Bits, the objects stay in normal form, and only a zero divisor
    throws. *)
From stdpp Require Import base numbers list option.
From Stdlib Require Import ZArith Lia.
From S2P Require Import Prelude Arrays Limb Mpn MpnValue MpnArith MpnBits MpnFrame MpnDiv MpnTheorems MpnToom3 Thresholds MpnTiers MpnDc Arbuint ArbuintProof ArbuintDiv ArbuintBits ArbuintConv ArbuintMachine.

Local Open Scope Z_scope.

Definition memory_of (out : outcome) : mem := match out with returned m | domain_error m => m end.

Definition threw (out : outcome) : bool := match out with returned _ => false | domain_error _ => true end.

Section theorems.
Context `{W : LimbWidth} `{B : BarrettTier} (Bits : Z) (Solver : solver.t) (R sn : Z).

Abbreviation cap := (@cap_limbs W Bits).
Abbreviation slot := (@slot W Bits).
Abbreviation scratch := (@scratch W Bits R).
Abbreviation represents := (represents Bits R sn).

(** The queries, conversions and comparisons with integers read the register an
    object stands for. *)
Definition observes (m : mem) (p v : Z) : Prop :=
  arb_is_zero Bits m p = Some (Z.eqb v 0) /\ arb_bit_length Bits m p = Some (bit_length v) /\
  arb_popcount Bits m p = Some (builtin_popcount v) /\ odd Bits m p = Some (Z.odd v) /\ even Bits m p = Some (Z.even v) /\
  (forall i, 0 <= i -> arb_testbit Bits m p i = Some (Z.testbit v i)) /\
  (forall w, integral_width w -> to_integral Bits m p w = Some (v mod 2 ^ w)) /\
  (forall w x, integral_width w -> take_limbs w <= sn -> cmp_integral Bits m p w x scratch = Some (sign_of (v ?= x mod 2 ^ w))).

(** The comparison operators on two objects. *)
Definition compares (m : mem) (p q v w : Z) : Prop :=
  arb_cmp Bits m p q = Some (sign_of (v ?= w)) /\
  equal Bits m p q = Some (Z.eqb v w) /\ not_equal Bits m p q = Some (negb (Z.eqb v w)) /\
  less Bits m p q = Some (Z.ltb v w) /\ less_equal Bits m p q = Some (Z.leb v w) /\
  greater Bits m p q = Some (Z.ltb w v) /\ greater_equal Bits m p q = Some (Z.leb w v).

Section queries.
Context (Hok : machine_ok Bits Solver R sn) (m : mem) (r : list Z) (Hrep : represents m r).
Let Hb := ok_bits _ _ _ _ Hok.
Let Hw := rep_wf _ _ _ _ _ Hrep.

Lemma object_observes i : named R i -> observes m (slot i) (reg r i).
Proof.
  intros Hi. pose proof (rep_obj _ _ _ _ _ Hrep i Hi) as Ha.
  assert (odd Bits m (slot i) = Some (Z.odd (reg r i))) as Eo by (by apply odd_spec).
  split_and!; [by apply arb_is_zero_spec|by apply arb_bit_length_spec|by apply arb_popcount_spec|done|
    |intros; by apply arb_testbit_spec|intros; by apply to_integral_spec|].
  - unfold even. rewrite Eo. cbn [mbind option_bind]. by rewrite Z.negb_odd.
  - intros w x Hiw Hfit. destruct (take_limbs_ok w Hiw) as (Ht & _). pose proof (named_in R i Hi).
    pose proof (scratch_valid Bits Solver R sn Hok m r Hrep) as Vs. pose proof (scratch_apart Bits Solver R sn Hok i ltac:(done)) as Ds.
    apply cmp_integral_spec; [done|done|done|done|unfold valid in *; lia|unfold disjoint in *; lia].
Qed.

Lemma objects_compare i j : named R i -> named R j -> compares m (slot i) (slot j) (reg r i) (reg r j).
Proof.
  intros Hi Hj. pose proof (arb_cmp_spec Bits Hb m _ _ _ _ Hw (rep_obj _ _ _ _ _ Hrep i Hi) (rep_obj _ _ _ _ _ Hrep j Hj)) as E.
  unfold compares, equal, not_equal, less, less_equal, greater, greater_equal. rewrite E. cbn [mbind option_bind].
  destruct (Z.compare_spec (reg r i) (reg r j)); cbn [sign_of Z.eqb Z.ltb Z.leb Z.compare negb];
    split_and!; done || (f_equal; lia).
Qed.
End queries.

Lemma run_spec prog : machine_ok Bits Solver R sn -> forall m r, represents m r -> Forall (well_formed R) prog ->
  returns (run Bits Solver R prog m) (fun out => let '(r', ok) := denote_all Bits prog r in
    represents (memory_of out) r' /\ threw out = negb ok /\ touches (fun k => 0 <= k < scratch + sn) m (memory_of out)).
Proof.
  intros Hok. induction prog as [|st prog IH]; intros m r Hrep Hf; cbn [run denote_all].
  { apply returns_ret. split; [done|]. split; [done|]. apply touches_refl, Hrep. }
  inversion_clear Hf as [|? ? Hst Hf']. unfold afterwards.
  eapply returns_bind; [by apply (exec_spec Bits Solver R sn Hok m r Hrep st)|].
  intros out Hout. destruct (denote Bits st r) as [r'|], out as [m'|m']; cbn [simulates] in Hout; try done.
  - destruct Hout as [Hrep' T]. eapply returns_mono; [by apply IH|]. intros out. destruct (denote_all Bits prog r') as [r2 ok].
    intros (H1 & H2 & H3). split; [done|]. split; [done|]. by eapply touches_trans.
  - destruct Hout as [Hrep' T]. apply returns_ret. by split_and!.
Qed.

(** C23: Programs over [arbuint<Bits>] objects compute on integers modulo 2^Bits.  Any
    list of statements (the compound assignments and operators on objects and on
    integers, divmod, shifts, increments, loads, copies, swaps, squares and powers,
    with operands that may be the same object) runs to an end on objects that hold
    the registers [r]: the objects then hold the registers the statements denote,
    where every result is the exact one modulo 2^Bits; it ends with an exception
    exactly when a statement divides by zero, with the registers of that moment;
    nothing outside the client's memory is written; and afterwards the comparisons,
    queries and conversions to integral types answer for the registers. *)
Theorem run_refines prog m r : machine_ok Bits Solver R sn -> represents m r -> Forall (well_formed R) prog ->
  exists out, run Bits Solver R prog m = Some out /\
    let '(r', ok) := denote_all Bits prog r in
    represents (memory_of out) r' /\ threw out = negb ok /\
    touches (fun k => 0 <= k < scratch + sn) m (memory_of out) /\
    (forall i, named R i -> observes (memory_of out) (slot i) (reg r' i)) /\
    (forall i j, named R i -> named R j -> compares (memory_of out) (slot i) (slot j) (reg r' i) (reg r' j)).
Proof.
  intros Hok Hrep Hf. destruct (run_spec prog Hok m r Hrep Hf) as (out & E & Hout). exists out. split; [done|].
  destruct (denote_all Bits prog r) as [r' ok]. destruct Hout as (Hrep' & Ht & T).
  split_and!; try done; intros; [by apply object_observes|by apply objects_compare].
Qed.

(** ** The invariant of the objects *)

(** The memories a client can get to from freshly constructed objects; it may go on
    after an exception. *)
Inductive reachable : mem -> Prop :=
| reachable_start m0 m : wf m0 -> scratch + sn <= alen m0 -> construct Bits R m0 = Some m -> reachable m
| reachable_step m st out : reachable m -> well_formed R st -> exec Bits Solver R st m = Some out -> reachable (memory_of out).

(** Normal form: the count fits, the top limb is not zero, the bits above [Bits] are. *)
Definition normal_form (m : mem) (p : Z) : Prop :=
  let n := cell m (p + cap) in
  0 <= n <= cap /\ (n = 0 \/ cell m (p + (n - 1)) <> 0) /\
  (n = cap -> Z.land (cell m (p + (cap - 1))) (top_mask Bits) = cell m (p + (cap - 1))).

Definition same_limbs (m : mem) (p q : Z) : Prop :=
  cell m (p + cap) = cell m (q + cap) /\ forall i, 0 <= i < cell m (p + cap) -> cell m (p + i) = cell m (q + i).

Lemma arb_normal_form m p v : 1 <= Bits <= 2 ^ 31 -> wf m -> arb Bits m p v -> normal_form m p.
Proof.
  intros Hb Hw [Vp Cp Np Ep Bp]. unfold normal_form. split; [done|]. split; [done|]. intros En. rewrite En in Ep.
  rewrite top_mask_land by (done || by apply wf_cell). pose proof (masked_value Bits Hb m p Hw) as Em.
  pose proof (cap_facts Bits Hb) as [Hc _]. rewrite Ep, (Z.mod_small v) in Em by done.
  replace cap with (cap - 1 + 1) in Ep at 1 by lia. rewrite num_succ in Ep by lia.
  assert (0 <= cap - 1) as Hc1 by lia. pose proof (base_pow_pos (cap - 1) Hc1). nia.
Qed.

(** Objects in normal form with the same value are the same. *)
Lemma arb_same_limbs m p q v w : 1 <= Bits <= 2 ^ 31 -> wf m -> arb Bits m p v -> arb Bits m q w ->
  (v = w <-> same_limbs m p q).
Proof.
  intros Hb Hw Hp Hq. split.
  - intros E. pose proof (longer_larger Bits Hb m p q v w Hw Hp Hq). pose proof (longer_larger Bits Hb m q p w v Hw Hq Hp).
    assert (cell m (p + cap) = cell m (q + cap)) as En by lia. split; [done|].
    apply num_inj; [done|done|apply Hp|]. rewrite En at 2. by rewrite (arb_value _ _ _ _ Hp), (arb_value _ _ _ _ Hq).
  - intros [En Hc]. rewrite <- (arb_value _ _ _ _ Hp), <- (arb_value _ _ _ _ Hq), <- En.
    pose proof (proj1 (arb_count _ _ _ _ Hp)) as Hn. revert Hc. generalize (cell m (p + cap)), Hn. clear.
    refine (natlike_ind _ _ _); [done|]. intros n Hn IH Hc. unfold Z.succ in *. rewrite !num_succ, IH, Hc by (intros; lia || apply Hc; lia). done.
Qed.

Lemma reachable_represents m : machine_ok Bits Solver R sn -> reachable m -> exists r, represents m r.
Proof.
  intros Hok Hm. induction Hm as [m0 m Hw Hroom E|m st out Hm [r Hrep] Hst E].
  - destruct (construct_spec Bits Solver R sn Hok m0 Hw Hroom) as (m' & E' & Hrep). rewrite E in E'. simplify_eq. by eexists.
  - destruct (exec_spec Bits Solver R sn Hok m r Hrep st Hst) as (out' & E' & Hout). rewrite E in E'. simplify_eq.
    destruct (denote Bits st r) as [r'|], out' as [m'|m']; cbn [simulates memory_of] in *; try done.
    + exists r'. apply Hout.
    + exists r. apply Hout.
Qed.

(** C24: The representation invariant of [arbuint<Bits>].  In every memory a client
    reaches from default-constructed objects, by any statements and also after
    caught exceptions, each object is in normal form: its limb count is within the
    store, its top limb is not zero and the bits of the top limb above [Bits] are
    clear.  Two objects compare equal exactly when they have the same count and
    limbs.  And every statement is defined there: it ends, without an access out of
    bounds. *)
Theorem objects_stay_normal m : machine_ok Bits Solver R sn -> reachable m ->
  (forall i, named R i -> normal_form m (slot i)) /\
  (forall i j, named R i -> named R j -> (arb_cmp Bits m (slot i) (slot j) = Some 0 <-> same_limbs m (slot i) (slot j))) /\
  (forall st, well_formed R st -> is_Some (exec Bits Solver R st m)).
Proof.
  intros Hok Hm. destruct (reachable_represents m Hok Hm) as [r Hrep]. pose proof (ok_bits _ _ _ _ Hok) as Hb.
  pose proof (rep_wf _ _ _ _ _ Hrep) as Hw. pose proof (rep_obj _ _ _ _ _ Hrep) as Hobj. split_and!.
  - intros i Hi. by eapply arb_normal_form; [..|apply Hobj].
  - intros i j Hi Hj. rewrite (arb_cmp_spec Bits Hb m _ _ _ _ Hw (Hobj i Hi) (Hobj j Hj)).
    rewrite <- (arb_same_limbs m _ _ _ _ Hb Hw (Hobj i Hi) (Hobj j Hj)).
    destruct (Z.compare_spec (reg r i) (reg r j)); cbn [sign_of]; intuition (congruence || lia).
  - intros st Hst. destruct (exec_spec Bits Solver R sn Hok m r Hrep st Hst) as (out & -> & _). by eexists.
Qed.

(** C25: Division reports a zero divisor and nothing else.  [/=], [%=] and the routine
    that gives both throw [domain_error] exactly when the divisor object is zero, and
    then leave the memory as it was, the destination included; otherwise they return
    q and r with a = q * b + r and 0 <= r < b, also when dividend and divisor are one
    object, and write only their destinations and the scratch. *)
Theorem division_errors m this o q a b sc : 1 <= Bits <= 2 ^ 31 -> div_scratch_limbs Bits <= sn -> wf m ->
  arb Bits m this a -> arb Bits m o b -> valid m q (cap + 1) -> valid m sc sn ->
  this = o \/ disjoint this (cap + 1) o (cap + 1) ->
  disjoint this (cap + 1) sc sn -> disjoint o (cap + 1) sc sn -> disjoint q (cap + 1) sc sn ->
  disjoint q (cap + 1) this (cap + 1) -> disjoint q (cap + 1) o (cap + 1) ->
  (b = 0 -> div_assign Bits m this o sc = Some (domain_error m) /\ mod_assign Bits m this o sc = Some (domain_error m) /\
     __divmod_both Bits m this o q sc = Some (domain_error m)) /\
  (b <> 0 -> exists m1 m2 m3 x y, div_assign Bits m this o sc = Some (returned m1) /\
     mod_assign Bits m this o sc = Some (returned m2) /\ __divmod_both Bits m this o q sc = Some (returned m3) /\
     a = x * b + y /\ 0 <= y < b /\ arb Bits m1 this x /\ arb Bits m2 this y /\ arb Bits m3 q x /\ arb Bits m3 this y /\
     (forall k, ~ vec this (cap + 1) k -> ~ vec sc sn k -> ~ vec q (cap + 1) k ->
        m1.[k] = m.[k] /\ m2.[k] = m.[k] /\ m3.[k] = m.[k])).
Proof.
  intros Hb Hsn Hw Ha Ho Vq Vs Hal Dts Dos Dqs Dqt Dqo.
  destruct (divmod_into_spec Bits Hb m this o a b sc sn Hw Ha Ho Hal Vs Dts Dos Hsn true) as (o1 & E1 & H1).
  destruct (divmod_into_spec Bits Hb m this o a b sc sn Hw Ha Ho Hal Vs Dts Dos Hsn false) as (o2 & E2 & H2).
  destruct (divmod_both_spec Bits Hb m this o a b sc sn Hw Ha Ho Hal Vs Dts Dos Hsn q Dqt Dqo Dqs Vq) as (o3 & E3 & H3).
  unfold div_assign, mod_assign. rewrite E1, E2, E3. pose proof (arb_bound _ _ _ _ Ho) as Bo. split; intros Hz.
  - by destruct o1, o2, o3; destruct H1, H2, H3; subst.
  - destruct o1 as [m1|], o2 as [m2|], o3 as [m3|]; destruct H1 as [? H1], H2 as [? H2], H3 as [? H3]; try done.
    destruct H1 as [T1 A1], H2 as [T2 A2], H3 as (T3 & A3 & A3').
    exists m1, m2, m3, (a / b), (a mod b). pose proof (Z.div_mod a b Hz). pose proof (Z.mod_pos_bound a b ltac:(lia)).
    split_and!; try done; try lia.
    intros k N1 N2 N3. destruct T1 as (_ & _ & F1), T2 as (_ & _ & F2), T3 as (_ & _ & F3). split_and!; [apply F1|apply F2|apply F3]; tauto.
Qed.
End theorems.

(** ** The theorems at concrete objects *)

#[local] Existing Instance limb64.

(** A Barrett tier for the examples: schoolbook division. *)
#[local] Instance example_barrett : BarrettTier := {|
  mu_div_qr m qp np nn dp dn _ :=
    d1 ← m.[dp + (dn - 1)]; d0 ← m.[dp + (dn - 2)]; dinv ← invert_pi1 d1 d0; sbpi1_div_qr m qp np nn dp dn dinv;
  mu_div_qr_itch _ _ := 0
|}.

(** Two objects of 100 bits, 2^70 + 5 and 7. *)
Definition two_objects : mem := [5; 64; 2; 7; 0; 1] ++ replicate 25 9.

Lemma two_machine_ok : machine_ok 100 solver.automatic 2 19.
Proof. constructor; [lia|done|lia|vm_compute; discriminate|vm_compute; discriminate]. Qed.

Ltac concrete_arb := constructor; [vm_compute; intuition congruence|vm_compute; intuition congruence|right; vm_compute; discriminate|vm_compute; reflexivity|vm_compute; intuition congruence].

Lemma two_represent : represents 100 2 19 two_objects [2 ^ 70 + 5; 7].
Proof.
  constructor; [apply wf_check_sound; vm_compute; reflexivity|vm_compute; discriminate|done|].
  intros i Hi. unfold named in Hi. assert (i = 0 \/ i = 1) as [-> | ->] by lia; concrete_arb.
Qed.

(** Squares, wraps around below zero, and ends at a division by zero. *)
Definition two_program : list statement :=
  [Update times 0 0; Set_binary minus 1 1 0; Shl 1 3; Assign 0 32 0; Set_right modulo 0 1 32 0; Flip 0].

Lemma run_refines_witness :
  exists m, run 100 solver.automatic 2 two_program two_objects = Some (domain_error m) /\
    to_integral 100 m 3 128 = Some (((7 - ((2 ^ 70 + 5) ^ 2) mod 2 ^ 100) * 8) mod 2 ^ 100).
Proof.
  destruct (run_refines 100 solver.automatic 2 19 two_program two_objects [2 ^ 70 + 5; 7])
    as (out & E & H); [exact two_machine_ok|exact two_represent| |].
  - repeat constructor; (unfold named; lia) || done.
  - destruct (denote_all 100 _ _) as [r' ok] eqn:Ed. vm_compute in Ed. injection Ed as <- <-.
    destruct H as (_ & Ht & _ & Hobs & _ ). destruct out as [m|m]; [discriminate|]. exists m. split; [exact E|].
    destruct (Hobs 1) as (_ & _ & _ & _ & _ & _ & Hi & _); [unfold named; lia|]. etransitivity; [apply (Hi 128); by split|]. vm_compute. reflexivity.
Defined.

(** Zero decremented: every bit below 100 is set. *)
Definition fresh_objects : mem := replicate 31 9.
Definition constructed_objects : mem := Eval vm_compute in default [] (construct 100 2 fresh_objects).
Definition decremented : mem :=
  Eval vm_compute in default [] (out ← exec 100 solver.automatic 2 (Decr 0) constructed_objects; Some (memory_of out)).

Lemma objects_stay_normal_witness :
  normal_form 100 decremented 0 /\ cell decremented 1 = 2 ^ 36 - 1 /\
  is_Some (exec 100 solver.automatic 2 (Update divide 1 1) decremented).
Proof.
  destruct (objects_stay_normal 100 solver.automatic 2 19 decremented) as (Hn & _ & He); [exact two_machine_ok| |].
  - change decremented with (memory_of (returned decremented)).
    apply (reachable_step 100 solver.automatic 2 19 constructed_objects (Decr 0)); [|unfold well_formed, named; lia|vm_compute; reflexivity].
    apply (reachable_start 100 solver.automatic 2 19 fresh_objects);
      [apply wf_check_sound; vm_compute; reflexivity|vm_compute; discriminate|vm_compute; reflexivity].
  - split; [apply (Hn 0); unfold named; lia|]. split; [vm_compute; reflexivity|].
    apply He. unfold well_formed, named. lia.
Defined.

Lemma division_errors_witness :
  div_assign 100 ([0; 0; 0] ++ two_objects) 3 0 15 = Some (domain_error ([0; 0; 0] ++ two_objects)) /\
  exists m, mod_assign 100 ([0; 0; 0] ++ two_objects) 3 6 15 = Some (returned m) /\ arb 100 m 3 ((2 ^ 70 + 5) mod 7).
Proof.
  assert (wf ([0; 0; 0] ++ two_objects)) as Hw by (apply wf_check_sound; vm_compute; reflexivity).
  split.
  - destruct (division_errors 100 19 ([0; 0; 0] ++ two_objects) 3 0 9 (2 ^ 70 + 5) 0 15) as [Hz _];
      [lia|vm_compute; discriminate|exact Hw|concrete_arb| |vm_compute; intuition congruence|vm_compute; intuition congruence|
       right; right; vm_compute; discriminate|left; vm_compute; discriminate|left; vm_compute; discriminate|
       left; vm_compute; discriminate|right; vm_compute; discriminate|right; vm_compute; discriminate|].
    + constructor; [vm_compute; intuition congruence|vm_compute; intuition congruence|left; reflexivity|reflexivity|lia].
    + destruct Hz as [E _]; [reflexivity|]. exact E.
  - destruct (division_errors 100 19 ([0; 0; 0] ++ two_objects) 3 6 9 (2 ^ 70 + 5) 7 15) as [_ Hr];
      [lia|vm_compute; discriminate|exact Hw|concrete_arb|concrete_arb|vm_compute; intuition congruence|vm_compute; intuition congruence|
       right; left; vm_compute; discriminate|left; vm_compute; discriminate|left; vm_compute; discriminate|
       left; vm_compute; discriminate|right; vm_compute; discriminate|right; vm_compute; discriminate|].
    destruct Hr as (m1 & m2 & m3 & x & y & _ & E & _ & Ea & Hy & _ & A & _); [discriminate|]. exists m2. split; [exact E|].
    replace ((2 ^ 70 + 5) mod 7) with y by (apply (Z.mod_unique_pos _ _ x); lia). exact A.
Defined.
