(* ===== verification/ArbConvert.v ===== *)
(** Conversion of [arbuint<Bits>] to text and back, in bases 2 to 36
    (math/arbint/convert.hpp).

    A character buffer or an input text is a list of codes with an offset; limbs and
    objects are in the memory of [Arbuint].  Local arrays, vectors and temporaries are
    memory the caller of the definition points to: [work] for limbs, [tmp] for an
    object, [sc] for the scratch limbs of the arithmetic, [st] for the objects of
    the recursive calls, which each call takes from its end.  [usize] has the width of
    a limb. *)
From Stdlib Require Import Ascii String.
From stdpp Require Import base numbers list option.
From Stdlib Require Import ZArith Lia.
From S2P Require Import Prelude Arrays Limb Mpn MpnDiv Thresholds MpnTiers MpnDc Arbuint.

Local Open Scope Z_scope.

Definition digits_lower : list Z := cstr "0123456789abcdefghijklmnopqrstuvwxyz".
Definition digits_upper : list Z := cstr "0123456789ABCDEFGHIJKLMNOPQRSTUVWXYZ".

Definition digit_value (c : Z) : Z :=
  if andb (Z.leb (ch "0") c) (Z.leb c (ch "9")) then c - ch "0"
  else if andb (Z.leb (ch "a") c) (Z.leb c (ch "z")) then c - ch "a" + 10
  else if andb (Z.leb (ch "A") c) (Z.leb c (ch "Z")) then c - ch "A" + 10
  else 4294967295.

Definition max_tower : Z := 64.

Definition is_pow2_base (base : Z) : bool := andb (Z.leb 2 base) (Z.eqb (Z.land base (base - 1)) 0).

Definition bad_base (base : Z) : bool := orb (Z.ltb base 2) (Z.ltb 36 base).

(** *--p = c *)
Definition emit (buf : list Z) (p c : Z) : option (list Z * Z) := buf ← aset buf (p - 1) c; Some (buf, p - 1).

(** The string a terminated buffer holds. *)
Fixpoint until_nul (l : list Z) : list Z := match l with [] => [] | c :: l => if Z.eqb c 0 then [] else c :: until_nul l end.

Section convert.
Context `{LimbWidth} `{BarrettTier} (Bits : Z) (Solver : solver.t).

Definition get_str_dc : Z := threshold.by_width 128 256.
Definition set_str_dc : Z := 10000.

(** usize arithmetic *)
Definition usize (z : Z) : Z := wrap limb_bits z.

(** The largest power of the base that fits a limb, and its exponent.  There are at most
    as many doublings as a limb has bits. *)
Definition largest_power (base : Z) : option (Z * Z) :=
  while_ (Z.to_nat limb_bits) (fun '(big, per) =>
    if Z.leb big (limb_max / base) then Some (inl (to_limb (big * base), per + 1)) else Some (inr (big, per))) (base, 1).

(** ** Digits out *)

(** for ( u32 b = base; b > 1u; b >>= 1 ) ++bits *)
Definition base_bits (base : Z) : option Z :=
  while_ 33 (fun '(b, bits) => if Z.ltb 1 b then Some (inl (Z.shiftr b 1, bits + 1)) else Some (inr bits)) (base, 0).

(** The loop over the bits of a power-of-two base; each round takes at least one bit. *)
Definition emit_slices (m : mem) (buf : list Z) (p work n base : Z) (tab : list Z) : option (list Z * Z) :=
  bits ← base_bits base;
  total ← bitlen m work n;
  while_ (S (Z.to_nat total)) (fun '(buf, p, at_) =>
    if Z.ltb at_ total then
      let i := at_ / limb_bits in
      let off := at_ mod limb_bits in
      x ← m.[work + i];
      v ← limb_shr x off;
      v ← (if andb (Z.ltb limb_bits (off + bits)) (Z.ltb (i + 1) n) then
             y ← m.[work + (i + 1)];
             y ← limb_shl y (limb_bits - off);
             Some (Z.lor v y)
           else Some v);
      c ← tab.[Z.land v (base - 1)];
      '(buf, p) ← emit buf p c;
      Some (inl (buf, p, at_ + bits))
    else Some (inr (buf, p))) (buf, p, 0).

(** do { *--p = tab[v % base]; v /= base; } while ( v != 0 ) *)
Definition emit_last (buf : list Z) (p v base : Z) (tab : list Z) : option (list Z * Z) :=
  while_ (S (Z.to_nat limb_bits)) (fun '(buf, p, v) =>
    c ← tab.[v mod base];
    '(buf, p) ← emit buf p c;
    let v := v / base in
    if negb (Z.eqb v 0) then Some (inl (buf, p, v)) else Some (inr (buf, p))) (buf, p, v).

(** for ( u32 k = 0; k < per; ++k ) *)
Definition emit_chunk (buf : list Z) (p v base per : Z) (tab : list Z) : option (list Z * Z) :=
  '(buf, p, _) ← for_ 0 per (fun _ '(buf, p, v) =>
    c ← tab.[v mod base];
    '(buf, p) ← emit buf p c;
    Some (buf, p, v / base)) (buf, p, v);
  Some (buf, p).

(** The limbs at [work] are used up.  The value at least halves in each round. *)
Definition emit_digits (m : mem) (buf : list Z) (e work n base : Z) (upper : bool) : option (mem * list Z * Z) :=
  let tab := if upper then digits_upper else digits_lower in
  if is_pow2_base base then '(buf, p) ← emit_slices m buf e work n base tab; Some (m, buf, p)
  else
    '(big, per) ← largest_power base;
    while_ (S (Z.to_nat (n * limb_bits))) (fun '(m, buf, p, n) =>
      if Z.ltb 0 n then
        '(m, rem) ← divrem_1 m work work n big;
        n ← normalize m work n;
        '(buf, p) ← (if Z.eqb n 0 then emit_last buf p rem base tab else emit_chunk buf p rem base per tab);
        Some (inl (m, buf, p, n))
      else Some (inr (m, buf, p))) (m, buf, e, n).

(** The buffer is [buf] from [b0] on; the answer is the number of characters. *)
Definition to_chars (m : mem) (buf : list Z) (b0 cap a base : Z) (upper : bool) (work : Z) : option (mem * list Z * Z) :=
  if orb (bad_base base) (Z.eqb cap 0) then Some (m, buf, 0)
  else
    z ← arb_is_zero Bits m a;
    if (z : bool) then
      if Z.ltb cap 1 then Some (m, buf, 0) else buf ← aset buf b0 (ch "0"); Some (m, buf, 1)
    else
      n ← size Bits m a;
      want ← arb_bit_length Bits m a;
      if Z.ltb cap want then Some (m, buf, 0)
      else
        m ← copyi m work a n;
        let e := b0 + want in
        '(m, buf, first) ← emit_digits m buf e work n base upper;
        let len := e - first in
        buf ← for_ 0 len (fun i buf => x ← buf.[first + i]; aset buf (b0 + i) x) buf;
        Some (m, buf, len).

(** ** Digits in *)

(** The digits [i .. i + k) of the text into a limb, or [None] inside when one is not a digit. *)
Definition read_chunk (text : list Z) (i k base : Z) : option (option Z) :=
  for_ 0 k (fun j acc =>
    match acc with
    | None => Some None
    | Some chunk =>
        c ← text.[i + j];
        let d := digit_value c in
        if Z.leb base d then Some None else Some (Some (to_limb (chunk * base + d)))
    end) (Some 0).

(** Texts are [n] codes from [p] on. *)
Definition from_chars_basecase (m : mem) (out : Z) (text : list Z) (p n base : Z) : option (mem * bool) :=
  if orb (bad_base base) (Z.eqb n 0) then Some (m, false)
  else
    m ← set_zero Bits m out;
    '(big, per) ← largest_power base;
    let head := n mod per in
    h ← read_chunk text p head base;
    match h with
    | None => Some (m, false)
    | Some chunk =>
        m ← (if negb (Z.eqb head 0) then __mul_add_1 Bits m out 1 chunk else Some m);
        while_ (S (Z.to_nat n)) (fun '(m, i) =>
          if Z.ltb i n then
            h ← read_chunk text (p + i) per base;
            match h with
            | None => Some (inr (m, false))
            | Some chunk => m ← __mul_add_1 Bits m out big chunk; Some (inl (m, i + per))
            end
          else Some (inr (m, true))) (m, head)
    end.

(** The stride of an array of objects. *)
Definition object_limbs : Z := cap_limbs Bits + 1.

Definition tower_at (tower i : Z) : Z := tower + i * object_limbs.

(** while ( lv > 0 && digits[lv] >= n ) --lv *)
Definition split_level (digits : list Z) (n level : Z) : option Z :=
  while_ (S (Z.to_nat level)) (fun lv =>
    if Z.ltb 0 lv then
      d ← digits.[lv];
      if Z.leb n d then Some (inl (lv - 1)) else Some (inr lv)
    else Some (inr lv)) level.

(** [hi] and [lo] are the two objects at [st]. *)
Fixpoint parse_dc (fuel : nat) (m : mem) (out : Z) (text : list Z) (p n base tower : Z) (digits : list Z) (level st sc : Z)
    : option (mem * bool) :=
  match fuel with
  | O => None
  | S fuel =>
      d0 ← digits.[0];
      if orb (orb (Z.eqb level 0) (Z.leb n d0)) (Z.ltb n set_str_dc) then from_chars_basecase m out text p n base
      else
        lv ← split_level digits n level;
        if andb (Z.eqb lv 0) (Z.leb n d0) then from_chars_basecase m out text p n base
        else
          low ← digits.[lv];
          let hi := st in
          let lo := st + object_limbs in
          let st := st + 2 * object_limbs in
          m ← store Bits m hi;
          m ← store Bits m lo;
          '(m, ok) ← parse_dc fuel m hi text p (n - low) base tower digits lv st sc;
          if negb ok then Some (m, false)
          else
            '(m, ok) ← parse_dc fuel m lo text (p + (n - low)) low base tower digits lv st sc;
            if negb ok then Some (m, false)
            else
              m ← mul_assign Bits Solver m hi (tower_at tower lv) sc;
              m ← add_assign Bits m hi lo;
              m ← copy Bits m out hi;
              Some (m, true)
  end.

(** U tower[max_tower]; tower[0] = U(bp.big); the squarings while [more tower digits top]. *)
Definition build_tower (m : mem) (tower tmp sc big per : Z) (more : mem -> list Z -> Z -> option bool) : option (mem * list Z * Z) :=
  m ← for_ 0 max_tower (fun i m => store Bits m (tower_at tower i)) m;
  m ← from_integral Bits m tmp limb_bits big;
  m ← copy Bits m (tower_at tower 0) tmp;
  let digits := per :: replicate 63 0 in
  while_ (Z.to_nat max_tower) (fun '(m, digits, top) =>
    if Z.ltb (top + 1) max_tower then
      b ← more m digits top;
      if (b : bool) then
        m ← arb_sqr Bits Solver m tmp (tower_at tower top) sc;
        m ← copy Bits m (tower_at tower (top + 1)) tmp;
        d ← digits.[top];
        digits ← aset digits (top + 1) (usize (d * 2));
        Some (inl (m, digits, top + 1))
      else Some (inr (m, digits, top))
    else Some (inr (m, digits, top))) (m, digits, 0).

(** for ( usize i = 0; i < n; ++i ) if ( digit_value(p[i]) >= base ) return false *)
Definition all_digits (text : list Z) (p n base : Z) : option bool :=
  for_ 0 n (fun i ok => c ← text.[p + i]; Some (andb ok (Z.ltb (digit_value c) base))) true.

Definition from_chars (m : mem) (out : Z) (text : list Z) (p n base tower tmp st sc : Z) : option (mem * bool) :=
  if orb (bad_base base) (Z.eqb n 0) then Some (m, false)
  else if orb (Z.ltb n set_str_dc) (is_pow2_base base) then from_chars_basecase m out text p n base
  else
    ok ← all_digits text p n base;
    if negb ok then Some (m, false)
    else
      '(big, per) ← largest_power base;
      '(m, digits, top) ← build_tower m tower tmp sc big per (fun _ digits top => d ← digits.[top]; Some (Z.ltb (usize (d * 2)) n));
      parse_dc (Z.to_nat n) m out text p n base tower digits top st sc.

(** ** Divide and conquer formatting *)

Definition emit_padded_basecase (m : mem) (buf : list Z) (out width work n base : Z) (upper : bool) : option (mem * list Z) :=
  let e := out + width in
  '(m, buf, first) ← emit_digits m buf e work n base upper;
  buf ← for_ out first (fun p buf => aset buf p (ch "0")) buf;
  Some (m, buf).

(** [qr] is the two objects at [st]; the recursion is on the level.  The exception of
    [divmod] for a zero divisor ends the call. *)
Fixpoint emit_padded (level : nat) (m : mem) (buf : list Z) (out width x base : Z) (upper : bool) (tower : Z) (digits : list Z)
    (work st sc : Z) : option (mem * list Z + mem) :=
  n ← size Bits m x;
  match level with
  | O => m ← copyi m work x n; r ← emit_padded_basecase m buf out width work n base upper; Some (inl r)
  | S level' =>
      if Z.ltb n get_str_dc then
        m ← copyi m work x n; r ← emit_padded_basecase m buf out width work n base upper; Some (inl r)
      else
        low ← digits.[Z.of_nat level];
        if Z.leb width low then emit_padded level' m buf out width x base upper tower digits work st sc
        else
          let quot := st in
          let rem := st + object_limbs in
          let st := st + 2 * object_limbs in
          o ← divmod Bits m quot rem x (tower_at tower (Z.of_nat level)) sc;
          match o with
          | domain_error m => Some (inr m)
          | returned m =>
              r ← emit_padded level' m buf out (width - low) quot base upper tower digits work st sc;
              match r with
              | inr m => Some (inr m)
              | inl (m, buf) => emit_padded level' m buf (out + (width - low)) low rem base upper tower digits work st sc
              end
          end
  end.

(** [to_chars] into the buffer, terminated: both plain paths of [to_string]. *)
Definition plain_string (m : mem) (buf : list Z) (cap a base : Z) (upper : bool) (work : Z) : option (list Z) :=
  '(_, buf, len) ← to_chars m buf 0 (cap - 1) a base upper work;
  buf ← aset buf len 0;
  Some (until_nul buf).

(** The leading zeros that are not the last character. *)
Definition leading_zeros (buf : list Z) (width : Z) : option Z :=
  while_ (S (Z.to_nat width)) (fun lead =>
    if Z.ltb (lead + 1) width then
      c ← buf.[lead];
      if Z.eqb c (ch "0") then Some (inl (lead + 1)) else Some (inr lead)
    else Some (inr lead)) 0.

(** [new_buffer n] is what the vector of [n] characters holds at first. *)
Definition to_string (new_buffer : Z -> list Z) (m : mem) (a base : Z) (upper : bool) (tower tmp work st sc : Z) : option (list Z + mem) :=
  bl ← arb_bit_length Bits m a;
  let cap := bl + 3 in
  let buf := new_buffer cap in
  n ← size Bits m a;
  if orb (orb (Z.ltb n get_str_dc) (is_pow2_base base)) (bad_base base) then
    s ← plain_string m buf cap a base upper work; Some (inl s)
  else
    '(big, per) ← largest_power base;
    '(m, digits, top) ← build_tower m tower tmp sc big per (fun m _ top => less_equal Bits m (tower_at tower top) a);
    width ← digits.[top];
    if Z.ltb cap (usize (width + 1)) then s ← plain_string m buf cap a base upper work; Some (inl s)
    else
      r ← emit_padded (Z.to_nat top) m buf 0 width a base upper tower digits work st sc;
      match r with
      | inr m => Some (inr m)
      | inl (_, buf) =>
          lead ← leading_zeros buf width;
          buf ← for_ 0 (width - lead) (fun i buf => x ← buf.[i + lead]; aset buf i x) buf;
          buf ← aset buf (width - lead) 0;
          Some (inl (until_nul buf))
      end.
End convert.
