(* ===== verification/Radix.v ===== *)
(** Numerals in bases 2 to 36: the text of a number at a fixed width, its shortest text,
    and the number a text stands for.  The reference for the conversions of
    [ArbConvert]. *)
From Stdlib Require Import Ascii String.
From stdpp Require Import base numbers list option.
From Stdlib Require Import ZArith Lia.
From S2P Require Import Prelude Arrays Limb MpnBits ArbConvert.

Local Open Scope Z_scope.

(** The digit alphabets. *)
Definition alphabet (upper : bool) : list Z := if upper then digits_upper else digits_lower.

Definition digit_char (upper : bool) (d : Z) : Z := default 0 (alphabet upper).[d].

(** The last [k] digits of [v], with leading zeros. *)
Fixpoint padded (b : Z) (upper : bool) (k : nat) (v : Z) : list Z :=
  match k with O => [] | S k => padded b upper k (v / b) ++ [digit_char upper (v mod b)] end.

(** The digits of [v] without leading zeros: none for 0, at most one for each bit. *)
Fixpoint count_digits (fuel : nat) (b v : Z) : nat :=
  match fuel with O => O | S fuel => if Z.eqb v 0 then O else S (count_digits fuel b (v / b)) end.

Definition ndigits (b v : Z) : nat := count_digits (Z.to_nat (bit_length v)) b v.

Definition numeral (b : Z) (upper : bool) (v : Z) : list Z := padded b upper (Nat.max 1 (ndigits b v)) v.

(** The number a text stands for, and whether it is one. *)
Definition text_value (b : Z) (l : list Z) : Z := foldl (fun acc c => acc * b + digit_value c) 0 l.

Definition is_digit (b c : Z) : bool := Z.ltb (digit_value c) b.

Definition is_numeral (b : Z) (l : list Z) : bool := forallb (is_digit b) l.

(** The [n] characters of [l] from [p] on. *)
Definition text_at (l : list Z) (p n : Z) : list Z := take (Z.to_nat n) (drop (Z.to_nat p) l).

Section text_at.
Implicit Types (l t : list Z) (p n i k : Z).

Lemma text_at_get l p n i : 0 <= p -> 0 <= i < n -> (text_at l p n).[i] = l.[p + i].
Proof.
  intros Hp Hi. unfold aget, text_at. rewrite !decide_True by lia. rewrite lookup_take_lt, lookup_drop by lia. f_equal. lia.
Qed.

Lemma text_at_alen l p n : 0 <= p -> 0 <= n -> p + n <= alen l -> alen (text_at l p n) = n.
Proof. unfold alen, text_at. intros. rewrite length_take, length_drop. lia. Qed.

Lemma text_at_split l p i k : 0 <= p -> 0 <= i -> 0 <= k -> text_at l p (i + k) = text_at l p i ++ text_at l (p + i) k.
Proof.
  intros. unfold text_at. replace (Z.to_nat (i + k)) with (Z.to_nat i + Z.to_nat k)%nat by lia.
  rewrite <- take_take_drop, drop_drop. do 3 f_equal. lia.
Qed.

Lemma text_at_0 l p : text_at l p 0 = [].
Proof. done. Qed.

Lemma text_at_succ l p i c : 0 <= p -> 0 <= i -> l.[p + i] = Some c -> text_at l p (i + 1) = text_at l p i ++ [c].
Proof.
  intros Hp Hi Hc. rewrite text_at_split by lia. f_equal. unfold text_at, aget in *. rewrite decide_True in Hc by lia.
  by rewrite (drop_S _ _ _ Hc).
Qed.

Lemma text_at_eq l p t : 0 <= p -> p + alen t <= alen l -> (forall i, 0 <= i < alen t -> l.[p + i] = t.[i]) -> text_at l p (alen t) = t.
Proof.
  intros Hp Hl E. pose proof (alen_nonneg t). apply array_ext. intros i Hi.
  destruct (Z.lt_ge_cases i (alen t)) as [Hlt|Hge]; [rewrite text_at_get by lia; by apply E|].
  rewrite !aget_out; [done|lia|]. rewrite text_at_alen; lia.
Qed.

Lemma text_at_ext l l' p n : 0 <= p -> 0 <= n -> alen l' = alen l -> p + n <= alen l -> (forall i, p <= i < p + n -> l'.[i] = l.[i]) ->
  text_at l' p n = text_at l p n.
Proof.
  intros Hp Hn Hl Hb E. assert (alen (text_at l p n) = n) as En by (by apply text_at_alen).
  rewrite <- En at 1. apply text_at_eq; [done|lia|]. intros i Hi. rewrite text_at_get by lia. apply E. lia.
Qed.
End text_at.

Lemma below_36 (P : Z -> Prop) : List.Forall P (Z.of_nat <$> seq 0 36) -> forall d, 0 <= d < 36 -> P d.
Proof.
  intros F d Hd. rewrite List.Forall_forall in F. apply F. replace d with (Z.of_nat (Z.to_nat d)) by lia.
  apply list_elem_of_In, list_elem_of_fmap_2, elem_of_seq. lia.
Qed.

Lemma digit_value_char upper d : 0 <= d < 36 -> digit_value (digit_char upper d) = d.
Proof. revert d. apply below_36. destruct upper; repeat constructor. Qed.

Lemma digit_char_get upper d : 0 <= d < 36 -> (alphabet upper).[d] = Some (digit_char upper d).
Proof. revert d. apply below_36. destruct upper; repeat constructor. Qed.

Lemma digit_char_0 upper : digit_char upper 0 = ch "0".
Proof. by destruct upper. Qed.

Lemma digit_char_ne upper d : 0 < d < 36 -> digit_char upper d <> ch "0".
Proof.
  intros Hd E. pose proof (digit_value_char upper d ltac:(lia)) as V. rewrite E in V.
  change (digit_value (ch "0")) with 0 in V. lia.
Qed.

Lemma digit_char_pos upper d : 0 <= d < 36 -> digit_char upper d <> 0.
Proof. revert d. apply below_36. destruct upper; repeat constructor; done. Qed.

Section radix.
Context (b : Z) (upper : bool) (Hb : 2 <= b <= 36).
Implicit Types (v : Z) (k : nat) (l : list Z).
Abbreviation padded := (padded b upper).

Lemma radix_pow_pos k : 0 < b ^ Z.of_nat k.
Proof. apply Z.pow_pos_nonneg; lia. Qed.

Lemma radix_pow_succ k : b ^ Z.of_nat (S k) = b * b ^ Z.of_nat k.
Proof. rewrite Nat2Z.inj_succ, Z.pow_succ_r; lia. Qed.

Lemma radix_digit v : 0 <= v mod b < 36.
Proof. pose proof (Z.mod_pos_bound v b). lia. Qed.

Lemma numeral_length k v : length (padded k v) = k.
Proof. revert v. induction k as [|k IH]; intros v; cbn; [done|]. rewrite length_app, IH. cbn. lia. Qed.

Lemma padded_alen k v : alen (padded k v) = Z.of_nat k.
Proof. unfold alen. by rewrite numeral_length. Qed.

(** The leading [j] digits and the last [k]. *)
Lemma padded_app j k v : padded (j + k) v = padded j (v / b ^ Z.of_nat k) ++ padded k v.
Proof.
  revert v. induction k as [|k IH]; intros v.
  - by rewrite Nat.add_0_r, Z.pow_0_r, Z.div_1_r, app_nil_r.
  - replace (j + S k)%nat with (S (j + k)) by lia. cbn [Radix.padded]. rewrite IH, (app_assoc (padded j _)). f_equal. f_equal. f_equal.
    rewrite radix_pow_succ, Z.div_div; [done|lia|apply radix_pow_pos].
Qed.

Lemma padded_cons k v : padded (S k) v = digit_char upper ((v / b ^ Z.of_nat k) mod b) :: padded k v.
Proof. exact (padded_app 1 k v). Qed.

Lemma padded_mod k v : padded k (v mod b ^ Z.of_nat k) = padded k v.
Proof.
  revert v. induction k as [|k IH]; intros v; [done|]. cbn [Radix.padded]. pose proof (radix_pow_pos k).
  rewrite radix_pow_succ. rewrite Z.rem_mul_r by lia. rewrite Z.mul_comm, Z.div_add, Z.mod_add by lia.
  rewrite (Z.div_small (v mod b)) by (apply Z.mod_pos_bound; lia). by rewrite Z.add_0_l, IH, Z.mod_mod by lia.
Qed.

Lemma padded_0 k : padded k 0 = replicate k (ch "0").
Proof.
  induction k as [|k IH]; [done|]. cbn [Radix.padded]. rewrite Z.div_0_l, Z.mod_0_l, IH, digit_char_0 by lia.
  by rewrite replicate_S_end.
Qed.

(** Leading zeros. *)
Lemma padded_zeros j k v : 0 <= v < b ^ Z.of_nat k -> padded (j + k) v = replicate j (ch "0") ++ padded k v.
Proof. intros Hv. by rewrite padded_app, Z.div_small, padded_0. Qed.

Lemma padded_nonzero k v : Forall (fun c => c <> 0) (padded k v).
Proof.
  revert v. induction k as [|k IH]; intros v; cbn; [constructor|]. apply Forall_app. split; [done|].
  repeat constructor. apply digit_char_pos, radix_digit.
Qed.

(** ** The value of a text *)

Lemma text_value_acc l x : foldl (fun acc c => acc * b + digit_value c) x l = x * b ^ alen l + text_value b l.
Proof.
  unfold text_value. revert x. induction l as [|c l IH]; intros x; [change (alen []) with 0; cbn; lia|]. cbn [foldl].
  rewrite IH, (IH (0 * b + digit_value c)). unfold alen. cbn [length]. rewrite radix_pow_succ. lia.
Qed.

Lemma text_value_app l l' : text_value b (l ++ l') = text_value b l * b ^ alen l' + text_value b l'.
Proof. unfold text_value at 1. rewrite foldl_app. apply text_value_acc. Qed.

Lemma text_value_snoc l c : text_value b (l ++ [c]) = text_value b l * b + digit_value c.
Proof. rewrite text_value_app. change (alen [c]) with 1. cbn. lia. Qed.

Lemma digit_value_nonneg c : 0 <= digit_value c.
Proof.
  unfold digit_value. destruct (andb _ _) eqn:E1; [apply andb_prop in E1; lia|].
  destruct (andb (Z.leb (ch "a") c) _) eqn:E2; [apply andb_prop in E2; lia|].
  destruct (andb (Z.leb (ch "A") c) _) eqn:E3; [apply andb_prop in E3; lia|]. lia.
Qed.

Lemma text_value_nonneg l : 0 <= text_value b l.
Proof.
  induction l as [|c l IH] using rev_ind; [done|]. rewrite text_value_snoc. pose proof (digit_value_nonneg c). nia.
Qed.

Lemma text_value_bound l : is_numeral b l = true -> text_value b l < b ^ alen l.
Proof.
  induction l as [|c l IH] using rev_ind; [done|]. unfold is_numeral. rewrite List.forallb_app. cbn [forallb].
  intros [H1 [H2%Z.ltb_lt _]%andb_prop]%andb_prop. rewrite text_value_snoc. specialize (IH H1).
  unfold alen in *. rewrite length_app, Nat.add_comm. cbn [length]. rewrite radix_pow_succ. nia.
Qed.

Lemma padded_is_numeral k v : is_numeral b (padded k v) = true.
Proof.
  revert v. induction k as [|k IH]; intros v; [done|]. cbn [Radix.padded]. unfold is_numeral.
  rewrite List.forallb_app. cbn [forallb]. rewrite Bool.andb_true_r. apply andb_true_intro. split; [apply IH|].
  apply Z.ltb_lt. rewrite digit_value_char by apply radix_digit. apply Z.mod_pos_bound. lia.
Qed.

Lemma text_value_padded k v : text_value b (padded k v) = v mod b ^ Z.of_nat k.
Proof.
  revert v. induction k as [|k IH]; intros v; [by rewrite Z.pow_0_r, Z.mod_1_r|]. cbn [Radix.padded].
  rewrite text_value_snoc, IH, digit_value_char by apply radix_digit. pose proof (radix_pow_pos k).
  rewrite radix_pow_succ, Z.rem_mul_r by lia. lia.
Qed.

(** ** The shortest text *)

Lemma count_digits_spec fuel v : 0 <= v < 2 ^ Z.of_nat fuel ->
  v < b ^ Z.of_nat (count_digits fuel b v) /\ (v <> 0 -> exists k, count_digits fuel b v = S k /\ b ^ Z.of_nat k <= v) /\
  (v = 0 -> count_digits fuel b v = O).
Proof.
  revert v. induction fuel as [|fuel IH]; intros v Hv; cbn [count_digits].
  { rewrite Z.pow_0_r in *. split; [lia|]. split; [lia|done]. }
  destruct (Z.eqb_spec v 0) as [->|Hne]; [by repeat split|].
  assert (0 <= v / b < 2 ^ Z.of_nat fuel) as Hq.
  { split; [apply Z.div_pos; lia|]. apply Z.div_lt_upper_bound; [lia|]. rewrite Nat2Z.inj_succ, Z.pow_succ_r in Hv by lia. nia. }
  destruct (IH _ Hq) as (H1 & H2 & H3). set (k := count_digits fuel b (v / b)) in *.
  pose proof (Z.div_mod v b ltac:(lia)) as E. pose proof (Z.mod_pos_bound v b ltac:(lia)) as R.
  split; [rewrite radix_pow_succ; nia|]. split; [|done]. intros _. exists k. split; [done|].
  destruct (decide (v / b = 0)) as [E0|Hq0]; [rewrite (H3 E0), Z.pow_0_r; lia|].
  destruct (H2 Hq0) as (j & -> & Hj). rewrite radix_pow_succ. nia.
Qed.

Lemma bit_length_pow v : 0 <= v -> v < 2 ^ bit_length v /\ 0 <= bit_length v.
Proof.
  intros Hv. unfold bit_length. destruct (Z.eqb_spec v 0) as [->|]; [done|].
  pose proof (Z.log2_nonneg v). split; [|lia]. apply Z.log2_spec. lia.
Qed.

Lemma ndigits_spec v : 0 <= v ->
  v < b ^ Z.of_nat (ndigits b v) /\ (v <> 0 -> exists k, ndigits b v = S k /\ b ^ Z.of_nat k <= v) /\ (v = 0 -> ndigits b v = O).
Proof.
  intros Hv. destruct (bit_length_pow v Hv) as [H1 H2]. apply count_digits_spec. rewrite Z2Nat.id by done. lia.
Qed.

(** A width that the number does not fit one place earlier is the number of its digits. *)
Lemma radix_pow_lt j k : b ^ Z.of_nat j < b ^ Z.of_nat k -> (j < k)%nat.
Proof. intros Hlt. apply Z.pow_lt_mono_r_iff in Hlt; lia. Qed.

Lemma ndigits_least k v : 0 <= v < b ^ Z.of_nat k -> (ndigits b v <= k)%nat.
Proof.
  intros Hv. destruct (ndigits_spec v) as (H1 & H2 & H3); [lia|]. destruct (decide (v = 0)) as [E|Hne]; [rewrite H3; [lia|done]|].
  destruct (H2 Hne) as (j & -> & Hj). apply radix_pow_lt. lia.
Qed.

Lemma ndigits_unique k v : 0 <= v < b ^ Z.of_nat k -> (k = O \/ b ^ Z.of_nat (k - 1) <= v) -> k = ndigits b v.
Proof.
  intros Hv Hk. pose proof (ndigits_least k v Hv). destruct Hk as [->|Hk]; [lia|].
  destruct (ndigits_spec v) as (H1 & _); [lia|]. pose proof (radix_pow_lt (k - 1) (ndigits b v)). lia.
Qed.

Lemma ndigits_bits v : 0 <= v -> (ndigits b v <= Z.to_nat (bit_length v))%nat.
Proof.
  intros Hv. destruct (bit_length_pow v Hv) as [H1 H2]. apply ndigits_least. rewrite Z2Nat.id by done.
  split; [done|]. eapply Z.lt_le_trans; [exact H1|]. apply Z.pow_le_mono_l. lia.
Qed.

Lemma numeral_digits v : 0 < v -> numeral b upper v = padded (ndigits b v) v.
Proof. intros Hv. unfold numeral. destruct (ndigits_spec v ltac:(lia)) as (_ & Hk & _). destruct Hk as (k & -> & _); [lia|done]. Qed.

Lemma numeral_0 : numeral b upper 0 = [ch "0"].
Proof. unfold numeral. destruct (ndigits_spec 0 ltac:(done)) as (_ & _ & H0). rewrite H0 by done. change (Nat.max 1 0) with 1%nat. apply (padded_0 1). Qed.

(** A number has one text, and the text stands for the number. *)
Lemma numeral_value v : 0 <= v -> text_value b (numeral b upper v) = v.
Proof.
  intros Hv. unfold numeral. rewrite text_value_padded. apply Z.mod_small. split; [done|].
  destruct (ndigits_spec v Hv) as (H1 & _). eapply Z.lt_le_trans; [exact H1|]. apply Z.pow_le_mono_r; lia.
Qed.

Lemma numeral_is_numeral v : is_numeral b (numeral b upper v) = true.
Proof. apply padded_is_numeral. Qed.

Lemma numeral_nonempty v : 1 <= alen (numeral b upper v).
Proof. unfold numeral. rewrite padded_alen. lia. Qed.

(** The leading character is not a zero, unless it is the only one. *)
Lemma numeral_head v : 0 < v -> exists c l, numeral b upper v = c :: l /\ c <> ch "0".
Proof.
  intros Hv. rewrite numeral_digits by done. destruct (ndigits_spec v ltac:(lia)) as (H1 & H2 & _).
  destruct H2 as (k & Ek & Hk); [lia|]. rewrite Ek in *.
  rewrite padded_cons. eexists _, _. split; [done|]. apply digit_char_ne. pose proof (radix_pow_pos k).
  assert (0 < v / b ^ Z.of_nat k < b) as Hd.
  { split; [apply Z.div_str_pos; lia|]. apply Z.div_lt_upper_bound; [lia|]. rewrite radix_pow_succ in H1. lia. }
  rewrite Z.mod_small; lia.
Qed.
End radix.
