(* ===== verification/ArbPrint.v ===== *)
(** The digits an [arbuint<Bits>] is printed with: [emit_digits], in both ways of taking a
    number apart, writes its shortest text backwards from the end of the buffer, and
    [to_chars] moves it to the front. *)
From Stdlib Require Import Ascii String.
From stdpp Require Import base numbers list option.
From Stdlib Require Import ZArith Lia.
From S2P Require Import Prelude Arrays Limb Mpn MpnValue MpnArith MpnBits MpnDiv MpnDivProof MpnFrame Arbuint ArbuintProof ArbuintConv ArbConvert Radix.

Local Open Scope Z_scope.

(** ** Numbers of bits *)

Lemma bit_length_le v k : 0 <= v < 2 ^ k -> 0 <= k -> bit_length v <= k.
Proof.
  intros Hv Hk. unfold bit_length. destruct (Z.eqb_spec v 0); [lia|]. pose proof (Z.log2_lt_pow2 v k ltac:(lia)). lia.
Qed.

Lemma bit_length_div v q : 0 < v -> 2 <= q -> 0 <= bit_length (v / q) < bit_length v.
Proof.
  intros Hv Hq. assert (0 <= v / q) as H0 by (apply Z.div_pos; lia). pose proof (bit_length_pow (v / q) H0) as [_ Hn].
  split; [done|]. pose proof (bit_length_pow v ltac:(lia)) as [H1 H2].
  assert (0 < bit_length v) as Hpos by (unfold bit_length; rewrite (proj2 (Z.eqb_neq _ 0)) by lia; pose proof (Z.log2_nonneg v); lia).
  cut (bit_length (v / q) <= bit_length v - 1); [lia|]. apply bit_length_le; [|lia]. split; [done|].
  apply Z.div_lt_upper_bound; [lia|]. replace (bit_length v) with (Z.succ (bit_length v - 1)) in H1 by lia.
  rewrite Z.pow_succ_r in H1 by lia. nia.
Qed.

(** ** Writing backwards *)

Lemma emit_take pre l p c : 0 < p <= alen pre ->
  emit (take (Z.to_nat p) pre ++ l) p c = Some (take (Z.to_nat (p - 1)) pre ++ c :: l, p - 1).
Proof.
  intros Hp. unfold alen in Hp. assert (exists y, pre !! Z.to_nat (p - 1) = Some y) as [y Hy] by (apply lookup_lt_is_Some; lia).
  replace (Z.to_nat p) with (S (Z.to_nat (p - 1))) by lia. rewrite (take_S_r _ _ y Hy), <- app_assoc. cbn [app].
  assert (length (take (Z.to_nat (p - 1)) pre) = Z.to_nat (p - 1)) as El by (rewrite length_take; lia).
  unfold emit. rewrite aset_in by (unfold alen; rewrite length_app; cbn [length]; lia). cbn [mbind option_bind].
  unfold upd. rewrite insert_app_r_alt by lia. by rewrite El, Nat.sub_diag.
Qed.

Section print.
Context `{W : LimbWidth} (b : Z) (upper : bool) (Hb : 2 <= b <= 36).
Implicit Types (m : mem) (pre post : list Z).
Abbreviation lw := (@limb_bits W).

(** The buffer [pre ++ post] when the last [j] digits of [v] are written before [post]. *)
Definition printed (pre post : list Z) (v : Z) (j : nat) : list Z :=
  take (Z.to_nat (alen pre - Z.of_nat j)) pre ++ padded b upper j v ++ post.

Lemma printed_0 pre post v : printed pre post v 0 = pre ++ post.
Proof. unfold printed, alen. rewrite Z.sub_0_r, Nat2Z.id, firstn_all. done. Qed.

Lemma emit_digit {A} pre post v j x (f : list Z * Z -> option A) : Z.of_nat j < alen pre -> x mod b = (v / b ^ Z.of_nat j) mod b ->
  (c ← (alphabet upper).[x mod b]; r ← emit (printed pre post v j) (alen pre - Z.of_nat j) c; f r) =
  f (printed pre post v (S j), alen pre - Z.of_nat (S j)).
Proof.
  intros Hj Hx. rewrite digit_char_get by (by apply radix_digit). cbn [mbind option_bind]. unfold printed at 1.
  rewrite emit_take by lia. cbn [mbind option_bind]. unfold printed. rewrite (padded_cons b upper Hb), Hx.
  replace (alen pre - Z.of_nat (S j)) with (alen pre - Z.of_nat j - 1) by lia. done.
Qed.

Lemma div_next v j : v / b ^ Z.of_nat j / b = v / b ^ Z.of_nat (S j).
Proof. pose proof (radix_pow_pos b Hb j). rewrite radix_pow_succ, (Z.mul_comm b), Z.div_div; [done|lia..]. Qed.

(** A digit of a remainder is a digit of the number. *)
Lemma chunk_digit x k n : (k < n)%nat -> (x mod b ^ Z.of_nat n / b ^ Z.of_nat k) mod b = (x / b ^ Z.of_nat k) mod b.
Proof.
  intros Hk. pose proof (radix_pow_pos b Hb k) as Pk. pose proof (radix_pow_pos b Hb (n - S k)) as Pr.
  assert (b ^ Z.of_nat n = b ^ Z.of_nat k * (b * b ^ Z.of_nat (n - S k))) as ->.
  { rewrite <- radix_pow_succ, <- Z.pow_add_r by lia. f_equal. lia. }
  rewrite Z.rem_mul_r by nia. rewrite Z.mul_comm, Z.div_add by lia.
  rewrite (Z.div_small (x mod _)) by (apply Z.mod_pos_bound; lia). rewrite Z.add_0_l, Z.rem_mul_r by lia.
  rewrite Z.mul_comm, Z.mod_add by lia. apply Z.mod_mod. lia.
Qed.

Lemma emit_chunk_spec pre post v j per : Z.of_nat (j + per) <= alen pre ->
  emit_chunk (printed pre post v j) (alen pre - Z.of_nat j) ((v / b ^ Z.of_nat j) mod b ^ Z.of_nat per) b (Z.of_nat per) (alphabet upper)
  = Some (printed pre post v (j + per), alen pre - Z.of_nat (j + per)).
Proof.
  intros Hfit. unfold emit_chunk. set (y := (v / b ^ Z.of_nat j) mod b ^ Z.of_nat per).
  apply returns_eq. eapply returns_bind.
  - apply (returns_for 0 (Z.of_nat per) _ _ (fun i '(buf, p, x) => buf = printed pre post v (j + Z.to_nat i) /\
      p = alen pre - Z.of_nat (j + Z.to_nat i) /\ x = y / b ^ Z.of_nat (Z.to_nat i)))
      with (Q := fun '(buf, p, x) => buf = printed pre post v (j + per) /\ p = alen pre - Z.of_nat (j + per)).
    + lia.
    + change (Z.to_nat 0) with 0%nat. rewrite Nat.add_0_r, Z.pow_0_r, Z.div_1_r. done.
    + intros i [[buf p] x] Hi (-> & -> & ->). rewrite emit_digit; [| |].
      * apply returns_ret. replace (Z.to_nat (i + 1)) with (S (Z.to_nat i)) by lia. rewrite div_next.
        replace (j + S (Z.to_nat i))%nat with (S (j + Z.to_nat i)) by lia. done.
      * lia.
      * unfold y. rewrite chunk_digit by lia. rewrite Z.div_div by (apply Z.neq_sym, Z.lt_neq, radix_pow_pos || apply radix_pow_pos; done).
        rewrite <- Z.pow_add_r by lia. do 3 f_equal. lia.
    + intros [[buf p] x] (-> & -> & _). rewrite Nat2Z.id. done.
  - intros [[buf p] x] [-> ->]. by apply returns_ret.
Qed.

Lemma emit_last_spec pre post v j : let x := v / b ^ Z.of_nat j in is_limb x -> 0 < x -> 0 <= v -> Z.of_nat (ndigits b v) <= alen pre ->
  emit_last (printed pre post v j) (alen pre - Z.of_nat j) x b (alphabet upper)
  = Some (printed pre post v (ndigits b v), alen pre - Z.of_nat (ndigits b v)).
Proof.
  intros x Hx Hpos Hv Hfit. unfold emit_last. apply returns_eq.
  apply (returns_while _ _ _ (fun '(buf, p, x) => exists j, buf = printed pre post v j /\ p = alen pre - Z.of_nat j /\
      x = v / b ^ Z.of_nat j /\ 0 < x) (fun '(_, _, x) => bit_length x)).
  - by exists j.
  - pose proof limb_bits_pos. pose proof (bit_length_pow x ltac:(lia)). pose proof (bit_length_le x lw ltac:(apply Hx)). lia.
  - clear x Hx Hpos j. intros [[buf p] x] (j & -> & -> & -> & Hpos). pose proof (radix_pow_pos b Hb j) as Pj.
    assert (b ^ Z.of_nat j <= v) as Hge by (destruct (Z.lt_ge_cases v (b ^ Z.of_nat j)); [rewrite Z.div_small in Hpos; lia|done]).
    assert (j < ndigits b v)%nat as Hj.
    { apply (radix_pow_lt b Hb). destruct (ndigits_spec b Hb v Hv) as [H1 _]. lia. }
    rewrite emit_digit by (done || lia). cbv zeta. rewrite div_next.
    destruct (Z.eqb_spec (v / b ^ Z.of_nat (S j)) 0) as [E0|Hne]; cbn [negb]; apply returns_ret.
    + assert (S j = ndigits b v) as ->; [|done]. apply ndigits_unique; [done| |right; by rewrite Nat.sub_1_r].
      pose proof (radix_pow_pos b Hb (S j)). apply Z.div_small_iff in E0; lia.
    + split; [exists (S j); split_and!; try done|].
      * assert (0 <= v / b ^ Z.of_nat (S j)) by (apply Z.div_pos; [lia|by apply radix_pow_pos]). lia.
      * rewrite <- div_next. apply bit_length_div; lia.
Qed.

(** ** Bit slices *)

Lemma pow2_base : is_pow2_base b = true -> exists k, 1 <= k <= 5 /\ b = 2 ^ k /\ base_bits b = Some k.
Proof.
  intros Hp. assert (Hall := below_36 (fun d => is_pow2_base (d + 1) = true -> exists k, 1 <= k <= 5 /\ d + 1 = 2 ^ k /\ base_bits (d + 1) = Some k)).
  ospecialize (Hall _ (b - 1) _); [|lia|].
  { repeat constructor; try discriminate; intros _; cbv beta.
    all: first [by exists 1|by exists 2|by exists 3|by exists 4|by exists 5]. }
  cbv beta in Hall. rewrite Z.sub_add in Hall. by apply Hall.
Qed.

(** The bits from [at_] on, taken from one limb or from two. *)
Lemma slice_value m work n k at_ : wf m -> 1 <= k <= 5 -> 0 <= at_ < lw * n ->
  let i := at_ / lw in
  let off := at_ mod lw in
  let x := Z.shiftr (cell m (work + i)) off in
  Z.land (if andb (Z.ltb lw (off + k)) (Z.ltb (i + 1) n) then
      Z.lor x (to_limb (Z.shiftl (cell m (work + (i + 1))) (lw - off))) else x) (2 ^ k - 1)
  = (num m work n / 2 ^ at_) mod 2 ^ k.
Proof.
  intros Hw Hk Hat i off x. pose proof limb_bits_pos as Hlw. pose proof (Z.div_mod at_ lw limb_bits_nonzero) as Ed.
  pose proof (Z.mod_pos_bound at_ lw limb_bits_gt) as Hoff. fold i off in Ed. fold off in Hoff.
  assert (0 <= i < n) as Hi by nia. replace (2 ^ k - 1) with (Z.ones k) by (rewrite Z.ones_equiv; lia). rewrite Z.land_ones by lia.
  apply Z.bits_inj'. intros t Ht. destruct (Z.lt_ge_cases t k) as [Htk|Htk]; [|by rewrite !Z.mod_pow2_bits_high by lia].
  rewrite !Z.mod_pow2_bits_low by lia. rewrite Z.div_pow2_bits by lia.
  pose proof (wf_cell m (work + i) Hw) as Hx.
  assert (Z.testbit x t = if Z.ltb (t + off) lw then Z.testbit (cell m (work + i)) (t + off) else false) as Ex.
  { unfold x. rewrite Z.shiftr_spec by done. destruct (Z.ltb_spec (t + off) lw); [done|].
    rewrite <- (Z.mod_small (cell m (work + i)) (2 ^ lw)) by apply Hx. apply Z.mod_pow2_bits_high. lia. }
  destruct (Z.lt_ge_cases (t + off) lw) as [Hin|Hout].
  - assert (Z.testbit (num m work n) (t + at_) = Z.testbit x t) as ->.
    { rewrite Ex, (proj2 (Z.ltb_lt _ _)) by done. rewrite num_testbit by (done || nia).
      replace (t + at_) with (t + off + i * lw) by lia. rewrite Z.div_add, Z.mod_add by apply limb_bits_nonzero.
      rewrite Z.div_small, Z.mod_small by lia. done. }
    destruct (andb _ _); [|done]. rewrite Z.lor_spec. unfold to_limb, wrap. rewrite Z.mod_pow2_bits_low by lia.
    rewrite Z.shiftl_spec_low by lia. apply orb_false_r.
  - rewrite (proj2 (Z.ltb_ge _ _)) in Ex by done. rewrite (proj2 (Z.ltb_lt lw (off + k))) by lia. cbn [andb].
    destruct (Z.ltb_spec (i + 1) n) as [Hn|Hn].
    + rewrite Z.lor_spec, Ex. cbn [orb]. unfold to_limb, wrap. rewrite Z.mod_pow2_bits_low, Z.shiftl_spec by lia.
      rewrite num_testbit by (done || nia). replace (t + at_) with (t + off - lw + (i + 1) * lw) by lia.
      rewrite Z.div_add, Z.mod_add by apply limb_bits_nonzero. rewrite Z.div_small, Z.mod_small by lia. f_equal. lia.
    + rewrite Ex. symmetry. pose proof (num_range m work n Hw ltac:(lia)) as Hr. rewrite base_pow2 in Hr by lia.
      rewrite <- (Z.mod_small _ _ Hr). apply Z.mod_pow2_bits_high. nia.
Qed.

Lemma emit_slices_spec m work n pre post : wf m -> valid m work n -> is_pow2_base b = true ->
  let v := num m work n in Z.of_nat (ndigits b v) <= alen pre ->
  emit_slices m (pre ++ post) (alen pre) work n b (alphabet upper)
  = Some (printed pre post v (ndigits b v), alen pre - Z.of_nat (ndigits b v)).
Proof.
  intros Hw Hv Hp v Hfit. destruct (pow2_base Hp) as (k & Hk & Ek & Eb). unfold emit_slices. rewrite Eb. cbn [mbind option_bind].
  rewrite bitlen_spec by done. cbn [mbind option_bind]. fold v. pose proof limb_bits_pos as Hlw.
  assert (0 <= n) as Hn by apply Hv. pose proof (num_range m work n Hw Hn) as Hr. fold v in Hr. rewrite base_pow2 in Hr by done.
  pose proof (bit_length_pow v ltac:(lia)) as [HL HL0]. pose proof (bit_length_le v (lw * n) Hr ltac:(nia)) as HLn.
  assert (forall j, b ^ Z.of_nat j = 2 ^ (k * Z.of_nat j)) as Epow by (intros; rewrite Ek, <- Z.pow_mul_r by lia; done).
  apply returns_eq.
  apply (returns_while _ _ _ (fun '(buf, p, at_) => exists j, buf = printed pre post v j /\ p = alen pre - Z.of_nat j /\
    at_ = k * Z.of_nat j /\ (j = O \/ b ^ Z.of_nat (j - 1) <= v)) (fun '(_, _, at_) => Z.max 0 (bit_length v - at_))).
  - exists O. rewrite printed_0. split_and!; [done|lia|lia|by left].
  - lia.
  - intros [[buf p] at_] (j & -> & -> & -> & Hj). destruct (Z.ltb_spec (k * Z.of_nat j) (bit_length v)) as [Hlt|Hge].
    + assert (b ^ Z.of_nat j <= v) as Hle.
      { rewrite Epow. destruct (Z.lt_ge_cases v (2 ^ (k * Z.of_nat j))) as [Hsm|]; [|done].
        pose proof (bit_length_le v (k * Z.of_nat j) ltac:(lia) ltac:(lia)). lia. }
      assert (j < ndigits b v)%nat as Hjn.
      { apply (radix_pow_lt b Hb). destruct (ndigits_spec b Hb v ltac:(lia)) as [H1 _]. lia. }
      assert (0 <= k * Z.of_nat j < lw * n) as Hat by lia. pose proof (slice_value m work n k _ Hw Hk Hat) as Hs. cbv zeta in Hs.
      pose proof (Z.div_mod (k * Z.of_nat j) lw limb_bits_nonzero) as Ed.
      pose proof (Z.mod_pos_bound (k * Z.of_nat j) lw limb_bits_gt) as Hoff.
      set (i := k * Z.of_nat j / lw) in *. set (off := (k * Z.of_nat j) mod lw) in *. assert (0 <= i < n) as Hi by nia.
      cbv zeta. rewrite (get_cell m (work + i)) by (destruct Hv; lia). cbn [mbind option_bind]. unfold limb_shr. rewrite decide_True by lia. cbn [mbind option_bind].
      assert ((if andb (Z.ltb lw (off + k)) (Z.ltb (i + 1) n) then
          y ← m.[work + (i + 1)]; y ← limb_shl y (lw - off); Some (Z.lor (Z.shiftr (cell m (work + i)) off) y)
        else Some (Z.shiftr (cell m (work + i)) off)) =
        Some (if andb (Z.ltb lw (off + k)) (Z.ltb (i + 1) n) then Z.lor (Z.shiftr (cell m (work + i)) off)
          (to_limb (Z.shiftl (cell m (work + (i + 1))) (lw - off))) else Z.shiftr (cell m (work + i)) off)) as ->.
      { destruct (andb _ _) eqn:Ea; [|done]. apply andb_prop in Ea as [E1%Z.ltb_lt E2%Z.ltb_lt].
        rewrite get_cell by (destruct Hv; lia). cbn [mbind option_bind]. unfold limb_shl. rewrite decide_True by lia. done. }
      cbn [mbind option_bind]. rewrite Ek at 1. rewrite Hs. replace (2 ^ k) with b by done. rewrite <- Epow.
      rewrite emit_digit by (done || lia). apply returns_ret. split; [|lia]. exists (S j).
      split_and!; [done|done|lia|right]. by rewrite Nat.sub_1_r.
    + apply returns_ret. assert (j = ndigits b v) as ->; [|done]. apply ndigits_unique; [done| |done].
      rewrite Epow. split; [lia|]. eapply Z.lt_le_trans; [exact HL|]. apply Z.pow_le_mono_r; lia.
Qed.
(** ** Chunks of a limb *)

(** A power of the radix that fits a limb. *)
Lemma largest_power_spec : exists per, largest_power b = Some (b ^ Z.of_nat per, Z.of_nat per) /\
  (1 <= per)%nat /\ Z.of_nat per < lw /\ is_limb (b ^ Z.of_nat per) /\ base <= b ^ Z.of_nat (S per).
Proof.
  pose proof limb_bits_pos as Hlw. pose proof base_ge as HB.
  assert (limb_max = base - 1) as Emax by (unfold limb_max; rewrite limb_not_eq by apply is_limb_0; lia).
  assert (forall p, is_limb (b ^ Z.of_nat p) -> Z.of_nat p < lw) as Hsmall.
  { intros p [_ Hp]. apply (Z.pow_lt_mono_r_iff 2); [lia..|]. eapply Z.le_lt_trans; [|exact Hp]. apply Z.pow_le_mono_l. lia. }
  assert (returns (largest_power b) (fun r => exists per, r = (b ^ Z.of_nat per, Z.of_nat per) /\
    (1 <= per)%nat /\ Z.of_nat per < lw /\ is_limb (b ^ Z.of_nat per) /\ base <= b ^ Z.of_nat (S per))) as (r & -> & per & -> & Hper);
    [|by exists per].
  apply (returns_while _ _ _ (fun r => exists per, r = (b ^ Z.of_nat per, Z.of_nat per) /\ (1 <= per)%nat /\ is_limb (b ^ Z.of_nat per))
    (fun '(_, per) => lw - per)).
  - exists 1%nat. rewrite Z.pow_1_r. split_and!; [done|lia|]. unfold is_limb. lia.
  - lia.
  - intros r (per & -> & H1 & Hl). pose proof (Hsmall _ Hl). pose proof Hl as [Hl0 Hl1].
    destruct (Z.leb_spec (b ^ Z.of_nat per) (limb_max / b)) as [Hle|Hgt]; apply returns_ret.
    + assert (is_limb (b ^ Z.of_nat (S per))) as Hl'.
      { rewrite radix_pow_succ by done. unfold is_limb. pose proof (Z.mul_div_le limb_max b ltac:(lia)). nia. }
      split; [exists (S per)|pose proof (Hsmall _ Hl'); lia]. split_and!; [|lia|done].
      rewrite Z.mul_comm, <- radix_pow_succ, to_limb_id by done. f_equal. lia.
    + exists per. split_and!; try done. rewrite radix_pow_succ by done. pose proof (Z.mul_succ_div_gt limb_max b ltac:(lia)). nia.
Qed.

(** ** All digits *)

Lemma emit_digits_spec m work n pre post : wf m -> valid m work n -> normalized m work n ->
  let v := num m work n in Z.of_nat (ndigits b v) <= alen pre ->
  returns (emit_digits m (pre ++ post) (alen pre) work n b upper) (fun '(m', buf, p) =>
    touches (vec work n) m m' /\ buf = printed pre post v (ndigits b v) /\ p = alen pre - Z.of_nat (ndigits b v)).
Proof.
  intros Hw Hv Hnorm v Hfit. unfold emit_digits. fold (alphabet upper).
  destruct (is_pow2_base b) eqn:Ep.
  { rewrite emit_slices_spec by done. cbn [mbind option_bind]. apply returns_ret. split; [by apply touches_refl|done]. }
  destruct largest_power_spec as (per & -> & Hp1 & _ & Hbig & _). cbn [mbind option_bind].
  assert (0 <= n) as Hn by apply Hv. pose proof (num_range m work n Hw Hn) as Hr. fold v in Hr. pose proof (radix_pow_pos b Hb per) as Pp.
  apply (returns_while _ _ _ (fun '(m1, buf, p, k) => touches (vec work n) m m1 /\ 0 <= k <= n /\ normalized m1 work k /\
    exists j, buf = printed pre post v j /\ p = alen pre - Z.of_nat j /\ num m1 work k = v / b ^ Z.of_nat j /\ (k = 0 -> j = ndigits b v))
    (fun '(m1, _, _, k) => bit_length (num m1 work k))).
  - split_and!; [by apply touches_refl|lia|lia|done|]. exists O. rewrite printed_0, Z.pow_0_r, Z.div_1_r.
    split_and!; [done|lia|done|]. intros ->. destruct (ndigits_spec b Hb v ltac:(lia)) as (_ & _ & H0). by rewrite H0.
  - fold v. pose proof (bit_length_pow v ltac:(lia)). rewrite base_pow2 in Hr by done. pose proof limb_bits_pos.
    pose proof (bit_length_le v (lw * n) Hr ltac:(nia)). lia.
  - intros [[[m1 buf] p] k] (T1 & Hk & N1 & j & -> & -> & Ej & Hj). pose proof (touches_wf _ _ _ T1) as W1.
    pose proof (touches_alen _ _ _ T1) as A1.
    destruct (Z.ltb_spec 0 k) as [Hpos|Hz].
    2: { assert (k = 0) as -> by lia. apply returns_ret. rewrite (Hj eq_refl). done. }
    eapply returns_bind; [apply (divrem_1_spec m1 work k (b ^ Z.of_nat per)); [done|destruct Hv; split; lia|lia|done|lia|destruct Hv; split; lia|unfold bwd; lia]|].
    intros [m2 rem] (M2 & Vq & Vr).
    pose proof (normalized_range m1 work k W1 ltac:(lia) N1) as Hlow. pose proof (base_pow_pos (k - 1) ltac:(lia)) as Pk.
    destruct (normalize_spec m2 work k) as (k' & -> & Hk' & N2 & Ek); [pose proof (modifies_alen _ _ _ _ M2); destruct Hv; split; lia|].
    cbn [mbind option_bind]. rewrite Ej in Vq, Vr, Hlow. rewrite Vq in Ek. set (x := v / b ^ Z.of_nat j) in *.
    assert (touches (vec work n) m m2) as T2 by (apply (touches_trans _ m m1 m2 T1); eapply touches_mono; [exact M2|unfold vec; lia]).
    pose proof (radix_pow_pos b Hb j) as Pj.
    assert (2 <= b ^ Z.of_nat per) as H2 by (replace 2 with (2 ^ 1) by done; transitivity (b ^ 1); [lia|apply Z.pow_le_mono_r; lia]).
    destruct (Z.eqb_spec k' 0) as [->|Hne].
    + rewrite num_0 in Ek. assert (0 < x < b ^ Z.of_nat per) as Hx by (symmetry in Ek; apply Z.div_small_iff in Ek; lia).
      rewrite Vr, Z.mod_small by lia. unfold x at 1.
      rewrite emit_last_spec; [|destruct Hbig; split; fold x; lia|fold x; lia|lia|done]. cbn [mbind option_bind]. apply returns_ret.
      split; [|rewrite Ej, num_0; pose proof (bit_length_div x 2 ltac:(lia)); change (bit_length 0) with 0; lia].
      split_and!; [done|lia|lia|done|]. exists (ndigits b v). split_and!; [done..| |done]. rewrite num_0.
      symmetry. apply Z.div_small. destruct (ndigits_spec b Hb v ltac:(lia)) as [H1 _]. lia.
    + assert (0 < x / b ^ Z.of_nat per) as Hq.
      { rewrite <- Ek. pose proof (normalized_range m2 work k' (modifies_wf _ _ _ _ M2) ltac:(lia) N2).
        pose proof (base_pow_pos (k' - 1) ltac:(lia)). lia. }
      assert (x / b ^ Z.of_nat per = v / b ^ Z.of_nat (j + per)) as Eq
        by (unfold x; rewrite Z.div_div, <- Z.pow_add_r, Nat2Z.inj_add by lia; done).
      assert (j + per < ndigits b v)%nat as Hjn.
      { apply (radix_pow_lt b Hb). destruct (ndigits_spec b Hb v ltac:(lia)) as [H1 _].
        destruct (Z.lt_ge_cases v (b ^ Z.of_nat (j + per))); [|lia]. rewrite Eq, Z.div_small in Hq; lia. }
      rewrite Vr. unfold x at 1. rewrite emit_chunk_spec by lia. cbn [mbind option_bind]. apply returns_ret.
      split; [|rewrite Ek, Ej; apply bit_length_div; lia].
      split_and!; [done|lia|lia|done|]. exists (j + per)%nat. split_and!; [done..| |done]. by rewrite Ek.
Qed.
Lemma printed_alen pre post v j : Z.of_nat j <= alen pre -> alen (printed pre post v j) = alen pre + alen post.
Proof. intros Hj. unfold printed, alen in *. rewrite !length_app, length_take, numeral_length. lia. Qed.

Lemma printed_text pre post v j : Z.of_nat j <= alen pre ->
  text_at (printed pre post v j) (alen pre - Z.of_nat j) (Z.of_nat j) = padded b upper j v.
Proof.
  intros Hj. unfold text_at, printed, alen in *. rewrite drop_app_length' by (rewrite length_take; lia).
  apply take_app_length'. rewrite numeral_length. lia.
Qed.

Lemma printed_other pre post v j i : Z.of_nat j <= alen pre -> ~ (alen pre - Z.of_nat j <= i < alen pre) ->
  (printed pre post v j).[i] = (pre ++ post).[i].
Proof.
  intros Hj Hi. unfold aget. case_decide; [|done]. unfold printed, alen in *.
  destruct (Z.lt_ge_cases i (Z.of_nat (length pre) - Z.of_nat j)).
  - rewrite lookup_app_l, lookup_take_lt, lookup_app_l by (rewrite ?length_take; lia). done.
  - rewrite lookup_app_r by (rewrite length_take; lia). rewrite lookup_app_r by (rewrite numeral_length, length_take; lia).
    rewrite lookup_app_r by lia. f_equal. rewrite numeral_length, length_take. lia.
Qed.
End print.

(** Characters moved towards the front. *)
Lemma move_front_spec body l dst src n : (forall i l, body i l = (x ← l.[src + i]; aset l (dst + i) x)) ->
  0 <= dst <= src -> 0 <= n -> src + n <= alen l ->
  returns (for_ 0 n body l) (fun l' => alen l' = alen l /\ text_at l' dst n = text_at l src n /\
    forall i, ~ (dst <= i < dst + n) -> l'.[i] = l.[i]).
Proof.
  intros Hbody Hd Hn Hs.
  apply (returns_for 0 n body l (fun k l' => alen l' = alen l /\ (forall i, 0 <= i < k -> l'.[dst + i] = l.[src + i]) /\
    forall i, ~ (dst <= i < dst + k) -> l'.[i] = l.[i])); [done|split_and!; [done|lia|done]| |].
  - intros k l' Hk (El & E1 & E2). rewrite Hbody, E2 by lia. destruct (aget_in l (src + k)) as [c Hc]; [lia|]. rewrite Hc.
    cbn [mbind option_bind]. apply returns_set_tail; [lia|]. rewrite alen_upd. split_and!; [done| |].
    + intros i Hi. rewrite aget_upd by lia. case_decide as Ei; [|apply E1; lia]. replace i with k by lia. done.
    + intros i Hi. rewrite aget_upd_ne by lia. apply E2. lia.
  - intros l' (El & E1 & E2). split_and!; [done| |done].
    assert (alen (text_at l src n) = n) as En by (apply text_at_alen; lia). rewrite <- En at 1. apply text_at_eq; [lia|lia|].
    intros i Hi. rewrite text_at_get by lia. apply E1. lia.
Qed.

(** ** [to_chars] *)

Section to_chars.
Context `{W : LimbWidth} (Bits : Z) (HBits : 1 <= Bits <= 2 ^ 31).
Abbreviation cap := (@cap_limbs W Bits).
Abbreviation arb := (arb Bits).

(** The part of the buffer a call may write is left alone outside, and holds [text] at the front. *)
Definition holds_text (buf : list Z) (b0 n : Z) (text buf' : list Z) : Prop :=
  alen buf' = alen buf /\ text_at buf' b0 (alen text) = text /\ forall i, ~ (b0 <= i < b0 + n) -> buf'.[i] = buf.[i].

Lemma bad_base_spec b : bad_base b = false -> 2 <= b <= 36.
Proof. unfold bad_base. intros [?%Z.ltb_ge ?%Z.ltb_ge]%orb_false_elim. lia. Qed.

(** The digits of a nonzero number, written at the end of the room and moved. *)
Lemma write_digits_spec m buf b0 want n b upper work : wf m -> valid m work n -> normalized m work n -> 2 <= b <= 36 ->
  let v := num m work n in 0 < v -> 0 <= b0 -> bit_length v <= want -> b0 + want <= alen buf ->
  returns (let e := b0 + want in
      '(m, buf, first) ← emit_digits m buf e work n b upper;
      let len := e - first in
      buf ← for_ 0 len (fun i buf => x ← buf.[first + i]; aset buf (b0 + i) x) buf;
      Some (m, buf, len)) (fun '(m', buf', len) =>
    touches (vec work n) m m' /\ holds_text buf b0 want (numeral b upper v) buf' /\ len = alen (numeral b upper v)).
Proof.
  intros Hw Hvw Hn Hb v Hv H0 Hwant Hfit. set (e := b0 + want). cbv zeta.
  pose proof (bit_length_pow v ltac:(lia)) as [_ HL]. pose proof (ndigits_bits b Hb v ltac:(lia)) as Hnd.
  set (pre := take (Z.to_nat e) buf). set (post := drop (Z.to_nat e) buf).
  assert (buf = pre ++ post) as Ebuf by (unfold pre, post; by rewrite take_drop).
  assert (alen pre = e) as Epre by (unfold pre, alen in *; rewrite length_take; lia).
  assert (alen buf = alen pre + alen post) as El by (rewrite Ebuf; unfold alen; rewrite length_app; lia).
  rewrite (numeral_digits b upper Hb) by done. set (k := ndigits b v) in *. assert (Z.of_nat k <= want) as Hk by lia.
  eapply returns_bind.
  { rewrite Ebuf, <- Epre. apply (emit_digits_spec b upper Hb); [done|done|done|]. fold v k. lia. }
  intros [[m1 buf1] first] (T1 & -> & ->). fold v k. rewrite Epre. replace (e - (e - Z.of_nat k)) with (Z.of_nat k) by lia.
  eapply returns_bind.
  { apply (move_front_spec _ _ b0 (e - Z.of_nat k) (Z.of_nat k)); [done|lia|lia|]. rewrite printed_alen by lia. lia. }
  intros buf2 (A2 & T2 & F2). apply returns_ret. rewrite (padded_alen b upper). split; [done|]. split; [|done].
  unfold holds_text. rewrite (padded_alen b upper). split_and!.
  - rewrite A2, printed_alen by lia. lia.
  - rewrite T2, <- Epre. apply printed_text. lia.
  - intros i Hi. rewrite F2 by lia. rewrite printed_other by lia. by rewrite <- Ebuf.
Qed.

Lemma to_chars_spec m buf b0 room a v b upper work : wf m -> arb m a v -> valid m work cap -> disjoint work cap a (cap + 1) ->
  0 <= b0 -> 0 <= room -> b0 + room <= alen buf ->
  returns (to_chars Bits m buf b0 room a b upper work) (fun '(m', buf', len) => touches (vec work cap) m m' /\
    if orb (bad_base b) (Z.ltb room (Z.max 1 (bit_length v))) then len = 0 /\ buf' = buf
    else len = alen (numeral b upper v) /\ holds_text buf b0 room (numeral b upper v) buf').
Proof.
  intros Hw Ha Vw Dw H0 Hr Hfit. unfold to_chars. destruct (bad_base b) eqn:Eb; cbn [orb].
  { apply returns_ret. split; [by apply touches_refl|done]. }
  apply bad_base_spec in Eb as Hb. pose proof (arb_bound _ _ _ _ Ha) as Bv. pose proof (bit_length_pow v ltac:(lia)) as [_ HL].
  destruct (Z.eqb_spec room 0) as [->|Hr0].
  { rewrite (proj2 (Z.ltb_lt 0 _)) by lia. apply returns_ret. split; [by apply touches_refl|done]. }
  rewrite (arb_is_zero_spec Bits HBits m a v Hw Ha). cbn [mbind option_bind].
  destruct (Z.eqb_spec v 0) as [->|Hv0].
  { change (bit_length 0) with 0. rewrite (proj2 (Z.ltb_ge room 1)), (proj2 (Z.ltb_ge room (Z.max 1 0))) by lia.
    rewrite aset_in by lia. cbn [mbind option_bind]. apply returns_ret. split; [by apply touches_refl|].
    rewrite (numeral_0 b upper Hb). split; [done|]. split_and!; [by rewrite alen_upd| |intros i Hi; apply aget_upd_ne; lia].
    apply text_at_eq; [done|rewrite alen_upd; change (alen [ch "0"]) with 1; lia|].
    intros i Hi. change (alen [ch "0"]) with 1 in Hi. replace i with 0 by lia. rewrite Z.add_0_r, aget_upd_eq by lia. done. }
  rewrite (arb_size Bits HBits _ _ _ Ha), (arb_bit_length_spec Bits HBits m a v Hw Ha). cbn [mbind option_bind].
  assert (1 <= bit_length v) as HL1 by (unfold bit_length; rewrite (proj2 (Z.eqb_neq v 0)) by done; pose proof (Z.log2_nonneg v); lia).
  rewrite Z.max_r by lia. destruct (Z.ltb_spec room (bit_length v)) as [Hs|Hs].
  { apply returns_ret. split; [by apply touches_refl|done]. }
  destruct Ha as [Va Ca Na Ea Ba]. set (n := cell m (a + cap)) in *.
  eapply returns_bind; [apply (copyi_spec m work a n); [done|vecs..]|]. intros m1 [M1 V1].
  assert (normalized m1 work n) as N1.
  { destruct Na as [?|Na]; [by left|]. destruct (decide (n = 0)); [by left|]. right.
    erewrite (num_inj m1 m work a n); [exact Na|wf_mem|done|lia|done|lia]. }
  pose proof (write_digits_spec m1 buf b0 (bit_length v) n b upper work ltac:(wf_mem) ltac:(vecs) N1 Hb) as Hwd. cbv zeta in Hwd.
  rewrite V1, Ea in Hwd. eapply returns_mono; [apply Hwd; lia|]. intros [[m2 buf2] len] (T2 & Hh & ->). split; [drop_values; touched|]. split; [done|].
  destruct Hh as (H1 & H2 & H3). split_and!; [done|done|]. intros i Hi. apply H3. lia.
Qed.
End to_chars.
