(* ===== verification/ArbTower.v ===== *)
(** The tower of powers of the radix that both divide and conquer conversions of
    [ArbConvert] build by squaring: entry [i] is the radix to the power [per * 2^i], modulo
    2^Bits. *)
From Stdlib Require Import Ascii String.
From stdpp Require Import base numbers list option.
From Stdlib Require Import ZArith Lia.
From S2P Require Import Prelude Arrays Limb Mpn MpnValue MpnArith MpnBits MpnFrame Thresholds MpnTiers MpnDc Arbuint ArbuintProof ArbuintConv ArbConvert Radix ArbPrint.

Local Open Scope Z_scope.

(** The working memory of a conversion: scratch limbs, a temporary, the tower, limbs for
    digits and the objects of the recursive calls, in this order. *)
Record workspace := { ws_sc : Z; ws_sn : Z; ws_tmp : Z; ws_tower : Z; ws_work : Z; ws_st : Z; ws_end : Z }.

Section places.
Context (per : nat).

(** The exponent of an entry. *)
Definition places (i : Z) : Z := Z.of_nat per * 2 ^ i.

Lemma places_0 : places 0 = Z.of_nat per.
Proof. unfold places. rewrite Z.pow_0_r. lia. Qed.

Lemma places_succ i : 0 <= i -> places (i + 1) = 2 * places i.
Proof. intros Hi. unfold places. rewrite Z.pow_add_r, Z.pow_1_r by lia. lia. Qed.

Lemma places_pos i : (1 <= per)%nat -> 0 <= i -> 1 <= places i.
Proof. intros Hp Hi. unfold places. pose proof (Z.pow_pos_nonneg 2 i). nia. Qed.

Lemma places_le i j : 0 <= i <= j -> places i <= places j.
Proof. intros Hij. unfold places. pose proof (Z.pow_le_mono_r 2 i j). nia. Qed.

End places.

Section tower.
Context `{W : LimbWidth} `{BarrettTier} (Bits : Z) (Solver : solver.t) (HBits : 1 <= Bits <= 2 ^ 31) (HS : Solver <> solver.nussbaumer).
Abbreviation cap := (@cap_limbs W Bits).
Abbreviation M := (2 ^ Bits).
Abbreviation obj p := (vec p (cap + 1)).
Abbreviation arb := (arb Bits).
Implicit Types (m : mem) (digits : list Z).

Record laid_out (w : workspace) (m : mem) : Prop := {
  lo_sc : 0 <= ws_sc w;
  lo_sn : mul_scratch_limbs Bits <= ws_sn w;
  lo_dn : div_scratch_limbs Bits <= ws_sn w;
  lo_tmp : ws_sc w + ws_sn w <= ws_tmp w;
  lo_tower : ws_tmp w + (cap + 1) <= ws_tower w;
  lo_work : ws_tower w + max_tower * (cap + 1) <= ws_work w;
  lo_st : ws_work w + cap <= ws_st w;
  lo_end : ws_st w + max_tower * (2 * (cap + 1)) <= ws_end w <= alen m
}.

(** The working memory of a conversion, from the address [p] on. *)
Definition workspace_at (p : Z) : workspace :=
  let sn := Z.max (mul_scratch_limbs Bits) (div_scratch_limbs Bits) in
  let tower := p + sn + (cap + 1) in
  let st := tower + max_tower * (cap + 1) + cap in
  {| ws_sc := p; ws_sn := sn; ws_tmp := p + sn; ws_tower := tower; ws_work := tower + max_tower * (cap + 1);
     ws_st := st; ws_end := st + max_tower * (2 * (cap + 1)) |}.

Lemma workspace_laid_out p m : 0 <= p -> ws_end (workspace_at p) <= alen m -> laid_out (workspace_at p) m.
Proof. intros Hp He. constructor; cbn [workspace_at ws_sc ws_sn ws_tmp ws_tower ws_work ws_st ws_end] in *; lia. Qed.

(** An object outside the working memory. *)
Definition outside (w : workspace) (m : mem) (p : Z) : Prop := valid m p (cap + 1) /\ (p + (cap + 1) <= ws_sc w \/ ws_end w <= p).

Lemma mul_scratch_nonneg : 0 <= mul_scratch_limbs Bits.
Proof. unfold mul_scratch_limbs. pose proof (cap_facts Bits HBits). pose proof (scratch_facts Bits HBits). lia. Qed.

Lemma laid_out_mono w m m' : laid_out w m -> alen m' = alen m -> laid_out w m'.
Proof. intros [] E. constructor; try done. by rewrite E. Qed.

Lemma arb_sqr_spec m r a v sc sn : wf m -> arb m a v -> valid m r (cap + 1) -> disjoint r (cap + 1) a (cap + 1) ->
  valid m sc sn -> disjoint r (cap + 1) sc sn -> disjoint a (cap + 1) sc sn -> mul_scratch_limbs Bits <= sn ->
  returns (arb_sqr Bits Solver m r a sc) (writes Bits (fun k => obj r k \/ vec sc sn k) m r ((v * v) mod M)).
Proof.
  intros Hw Ha Vr Dra Vs Drs Das Hsn. unfold arb_sqr.
  eapply returns_bind; [apply (object_copy_spec Bits HBits m r a v); [done|done|done|by right]|]. intros m1 [T1 A1].
  eapply returns_mono; [apply (square_spec Bits Solver HBits m1 r r v) with (sn := sn); [wf_mem|done|by left|vecs|done|done|done|done]|].
  intros m2 [T2 A2]. split; [touched|done].
Qed.

Section build.
Context (w : workspace).
Abbreviation entry i := (tower_at Bits (ws_tower w) i).

Lemma entry_in i : 0 <= i < max_tower -> ws_tower w <= entry i /\ entry i + (cap + 1) <= ws_tower w + max_tower * (cap + 1).
Proof. intros Hi. pose proof (cap_facts Bits HBits). unfold tower_at, object_limbs. nia. Qed.

Lemma entry_sep i j : 0 <= i < j -> entry i + (cap + 1) <= entry j.
Proof. intros Hi. pose proof (cap_facts Bits HBits). unfold tower_at, object_limbs. nia. Qed.

Context (b : Z) (per : nat).
Abbreviation places := (places per).

Record tower_ok (m : mem) (digits : list Z) (top : Z) : Prop := {
  tw_alen : alen digits = max_tower;
  tw_top : 0 <= top < max_tower;
  tw_digits : forall i, 0 <= i <= top -> digits.[i] = Some (usize (places i));
  tw_entry : forall i, 0 <= i <= top -> arb m (entry i) (b ^ places i mod M)
}.

(** The numbers of places are exact below the width of a word. *)
Lemma exact_places m digits top i : tower_ok m digits top -> places top < base -> 0 <= i <= top -> digits.[i] = Some (places i).
Proof.
  clear HBits. intros Hok Hlt Hi. rewrite (tw_digits _ _ _ Hok) by done. f_equal. apply wrap_id. unfold in_unsigned.
  pose proof (places_le per i top Hi). unfold base in Hlt. split; [|lia]. unfold places. pose proof (Z.pow_pos_nonneg 2 i). nia.
Qed.

(** Steps that leave the tower alone. *)
Lemma tower_frame P m m' digits top : tower_ok m digits top -> touches P m m' ->
  (forall k, ws_tower w <= k < ws_tower w + max_tower * (cap + 1) -> ~ P k) -> tower_ok m' digits top.
Proof.
  intros [El Ht Hd He] T HP. constructor; [done..|]. intros i Hi. eapply (arb_frame Bits HBits); [by apply He|exact T|].
  intros k Hk. apply HP. destruct (entry_in i ltac:(lia)). unfold vec in Hk. lia.
Qed.

(** The cells the construction writes. *)
Definition tower_cells (k : Z) : Prop := ws_sc w <= k < ws_tower w + max_tower * (cap + 1).

Context (Hper : Z.of_nat per < limb_bits) (Hbig : is_limb (b ^ Z.of_nat per)).

Lemma grow_spec m digits top : wf m -> laid_out w m -> tower_ok m digits top -> top + 1 < max_tower ->
  returns (m ← arb_sqr Bits Solver m (ws_tmp w) (entry top) (ws_sc w);
    m ← copy Bits m (entry (top + 1)) (ws_tmp w);
    d ← digits.[top];
    digits ← aset digits (top + 1) (usize (d * 2));
    Some (inl (m, digits, top + 1))) (fun o : _ + mem * list Z * Z =>
    match o with inl (m', digits', top') => top' = top + 1 /\ touches tower_cells m m' /\ tower_ok m' digits' (top + 1) | inr _ => False end).
Proof.
  intros Hw [] [El Ht Hd He] Htop. pose proof (cap_facts Bits HBits) as [Hc0 _].
  destruct (entry_in top ltac:(lia)) as [Hi1 Hi2]. destruct (entry_in (top + 1) ltac:(lia)) as [Hj1 Hj2].
  pose proof mul_scratch_nonneg as Hms.
  assert (0 <= places top) as Hp0 by (unfold places; pose proof (Z.pow_pos_nonneg 2 top); nia).
  eapply returns_bind.
  { apply (arb_sqr_spec m (ws_tmp w) (entry top) (b ^ places top mod M)) with (sn := ws_sn w); [done|apply He; lia|..|done]; unfold valid, disjoint; lia. }
  intros m1 [T1 A1].
  eapply returns_bind; [apply (object_copy_spec Bits HBits m1 (entry (top + 1)) (ws_tmp w)); [wf_mem|exact A1|..]|].
  { pose proof (touches_alen _ _ _ T1). unfold valid. lia. }
  { right. unfold disjoint. lia. }
  intros m2 [T2 A2]. rewrite (Hd top) by lia. cbn [mbind option_bind].
  assert (usize (usize (places top) * 2) = usize (places (top + 1))) as ->.
  { unfold usize, wrap. rewrite places_succ by lia. rewrite Z.mul_mod_idemp_l by (apply Z.pow_nonzero; [|pose proof limb_bits_pos]; lia). f_equal. lia. }
  rewrite aset_in by lia. cbn [mbind option_bind]. apply returns_ret. split; [done|]. split.
  { apply (touches_trans _ m m1 m2); [eapply touches_mono; [exact T1|]|eapply touches_mono; [exact T2|]]; unfold tower_cells, vec; lia. }
  constructor; [by rewrite alen_upd|lia|..].
  - intros i Hi. rewrite aget_upd by lia. case_decide as Ei; [by rewrite Ei|]. apply Hd. lia.
  - intros i Hi. destruct (decide (i = top + 1)) as [->|Hne].
    + rewrite places_succ by lia. replace (2 * places top) with (places top + places top) by lia. rewrite Z.pow_add_r by lia.
      by rewrite <- Z.mul_mod in A2 by (pose proof (modulus_pos Bits HBits); lia).
    + destruct (entry_in i ltac:(lia)). pose proof (entry_sep i (top + 1) ltac:(lia)).
      eapply (arb_frame Bits HBits); [|exact T2|unfold vec; lia].
      eapply (arb_frame Bits HBits); [apply He; lia|exact T1|unfold vec; lia].
Qed.
(** The entries before the first squaring. *)
Lemma first_entry_spec m : wf m -> laid_out w m ->
  returns (m ← for_ 0 max_tower (fun i m => store Bits m (entry i)) m;
    m ← from_integral Bits m (ws_tmp w) limb_bits (b ^ Z.of_nat per);
    copy Bits m (entry 0) (ws_tmp w)) (fun m' => touches tower_cells m m' /\ tower_ok m' (Z.of_nat per :: replicate 63 0) 0).
Proof.
  intros Hw Hlo. pose proof (cap_facts Bits HBits) as [Hc0 _]. destruct (entry_in 0 ltac:(done)) as [Hj1 Hj2]. destruct Hlo.
  pose proof mul_scratch_nonneg as Hms.
  eapply returns_bind with (P := touches tower_cells m).
  { apply (returns_for 0 max_tower _ _ (fun _ => touches tower_cells m)); [done|by apply touches_refl| |by intros].
    intros i m1 Hi T1. destruct (entry_in i Hi). pose proof (touches_alen _ _ _ T1).
    eapply returns_mono; [apply (store_spec Bits HBits); [wf_mem|unfold valid; lia]|]. intros m2 [T2 _].
    apply (touches_trans _ m m1 m2 T1). eapply touches_mono; [exact T2|]. unfold tower_cells, vec. lia. }
  intros m1 T1. pose proof (touches_alen _ _ _ T1).
  eapply returns_bind; [apply (from_integral_spec Bits HBits m1); [wf_mem|unfold valid; lia|]|].
  { split; [apply limb_bits_gt|]. by destruct limb_bits_ok as [-> | ->]. }
  intros m2 [T2 A2]. pose proof (touches_alen _ _ _ T2). rewrite (Z.mod_small (b ^ Z.of_nat per) (2 ^ limb_bits)) in A2 by apply Hbig.
  eapply returns_mono; [apply (object_copy_spec Bits HBits m2 (entry 0) (ws_tmp w)); [wf_mem|exact A2|unfold valid; lia|right; unfold disjoint; lia]|].
  intros m3 [T3 A3]. split.
  - apply (touches_trans _ m m2 m3); [apply (touches_trans _ m m1 m2 T1)|]; (eapply touches_mono; [eassumption|]); unfold tower_cells, vec; lia.
  - constructor; [done|done|..]; intros i Hi; replace i with 0 by lia; rewrite places_0; [|done].
    unfold usize. rewrite wrap_id; [done|]. unfold in_unsigned. pose proof limb_bits_pos. pose proof (Z.pow_gt_lin_r 2 limb_bits). lia.
Qed.

(** The squarings go on while the condition holds, and what holds of the last level is
    kept. *)
Lemma build_tower_spec m more (J : Z -> Prop) : wf m -> laid_out w m -> J 0 ->
  (forall m' digits top, touches tower_cells m m' -> tower_ok m' digits top -> J top -> top + 1 < max_tower ->
    exists c, more m' digits top = Some c /\ (c = true -> J (top + 1))) ->
  returns (build_tower Bits Solver m (ws_tower w) (ws_tmp w) (ws_sc w) (b ^ Z.of_nat per) (Z.of_nat per) more) (fun '(m', digits, top) =>
    touches tower_cells m m' /\ tower_ok m' digits top /\ J top /\ (top + 1 < max_tower -> more m' digits top = Some false)).
Proof.
  intros Hw Hlo HJ Hmore. unfold build_tower.
  destruct (first_entry_spec m Hw Hlo) as (m1 & E1 & T1 & W1).
  destruct (for_ 0 max_tower _ m) as [m0|]; [|done]. cbn [mbind option_bind] in E1 |- *.
  destruct (from_integral _ m0 _ _ _) as [m0'|]; [|done]. cbn [mbind option_bind] in E1 |- *. rewrite E1. cbn [mbind option_bind]. cbv zeta.
  apply (returns_while _ _ _ (fun '(m', digits, top) => touches tower_cells m m' /\ tower_ok m' digits top /\ J top)
    (fun '(_, _, top) => max_tower - 1 - top)).
  - by split_and!.
  - unfold max_tower. lia.
  - clear m0 m0' E1 m1 T1 W1. intros [[m1 digits] top] (T1 & W1 & J1). pose proof (tw_top _ _ _ W1) as Ht.
    destruct (Z.ltb_spec (top + 1) max_tower) as [Hlt|Hge]; [|by apply returns_ret; split_and!; [..|lia]].
    destruct (Hmore m1 digits top T1 W1 J1 Hlt) as (c & Ec & Hc). rewrite Ec. cbn [mbind option_bind].
    destruct c; [|by apply returns_ret; split_and!]. specialize (Hc eq_refl) as J2.
    eapply returns_mono; [apply grow_spec; [wf_mem|by eapply laid_out_mono, touches_alen|done|done]|].
    intros [[[m2 digits2] top2]|]; [|done]. intros (-> & T2 & W2). split; [|lia]. split_and!; [by eapply touches_trans|done|done].
Qed.
End build.
End tower.
