(* ===== verification/ArbScan.v ===== *)
(** Reading an [arbuint<Bits>] from text: [from_chars_basecase] and the divide and conquer
    [from_chars] give the number the text stands for, modulo 2^Bits, or reject it. *)
From Stdlib Require Import Ascii String.
From stdpp Require Import base numbers list option.
From Stdlib Require Import ZArith Lia.
From S2P Require Import Prelude Arrays Limb Mpn MpnValue MpnArith MpnBits MpnFrame Thresholds MpnTiers MpnDc Arbuint ArbuintProof ArbuintBits ArbuintConv ArbConvert Radix ArbPrint ArbTower.

Local Open Scope Z_scope.

Section scan.
Context `{W : LimbWidth} `{BarrettTier} (Bits : Z) (HBits : 1 <= Bits <= 2 ^ 31).
Abbreviation cap := (@cap_limbs W Bits).
Abbreviation M := (2 ^ Bits).
Abbreviation obj p := (vec p (cap + 1)).
Abbreviation arb := (arb Bits).
Implicit Types (m : mem) (text : list Z).

(** The number of a text, or nothing. *)
Definition text_number (b : Z) (t : list Z) : option Z := if is_numeral b t then Some (text_value b t) else None.

Lemma is_numeral_app b l l' : is_numeral b (l ++ l') = andb (is_numeral b l) (is_numeral b l').
Proof. apply List.forallb_app. Qed.

Lemma read_chunk_spec text i k b : 2 <= b <= 36 -> 0 <= i -> 0 <= k -> i + k <= alen text -> b ^ k <= base ->
  read_chunk text i k b = Some (text_number b (text_at text i k)).
Proof.
  intros Hb Hi Hk Hfit Hbig. unfold read_chunk. apply returns_eq.
  apply (returns_for 0 k _ _ (fun j acc => acc = text_number b (text_at text i j))); [done|done| |by intros].
  intros j acc Hj ->. destruct (aget_in text (i + j)) as [c Hc]; [lia|]. rewrite (text_at_succ _ _ _ c) by (done || lia).
  unfold text_number. rewrite is_numeral_app. cbn [is_numeral forallb]. rewrite Bool.andb_true_r.
  destruct (is_numeral b (text_at text i j)) eqn:En; cbn [andb]; [|by apply returns_ret].
  rewrite Hc. cbn [mbind option_bind]. cbv zeta. unfold is_digit.
  destruct (Z.leb_spec b (digit_value c)) as [Hge|Hlt]; apply returns_ret.
  { by rewrite (proj2 (Z.ltb_ge _ _)) by done. }
  rewrite (proj2 (Z.ltb_lt _ _)) by done. rewrite text_value_snoc. f_equal. apply to_limb_id.
  pose proof (text_value_nonneg b Hb (text_at text i j)). pose proof (digit_value_nonneg c).
  pose proof (text_value_bound b Hb _ En) as Hv. rewrite text_at_alen in Hv by lia.
  pose proof (Z.pow_le_mono_r b (j + 1) k ltac:(lia) ltac:(lia)) as Hm. rewrite Z.pow_add_r, Z.pow_1_r in Hm by lia.
  unfold is_limb. nia.
Qed.

(** The digits so far, and the next ones. *)
Lemma append_digits_spec m out text p i k b mul : wf m -> 2 <= b <= 36 -> 0 <= p -> 0 <= i -> 0 <= k -> p + (i + k) <= alen text ->
  arb m out (text_value b (text_at text p i) mod M) -> is_limb mul -> mul = b ^ k \/ i = 0 ->
  is_numeral b (text_at text (p + i) k) = true -> b ^ k <= base ->
  returns (__mul_add_1 Bits m out mul (text_value b (text_at text (p + i) k)))
    (writes Bits (obj out) m out (text_value b (text_at text p (i + k)) mod M)).
Proof.
  intros Hw Hb Hp Hi Hk Hfit Ha Hl Hmul Hn Hbig. pose proof (modulus_pos Bits HBits).
  pose proof (text_value_nonneg b Hb (text_at text (p + i) k)). pose proof (text_value_bound b Hb _ Hn) as Hv.
  rewrite text_at_alen in Hv by lia. eapply returns_mono; [apply (mul_add_1_spec Bits HBits m out _ Hw Ha); [done|unfold is_limb; lia]|].
  intros m1 [T1 A1]. split; [done|]. rewrite text_at_split, text_value_app, text_at_alen by lia.
  destruct Hmul as [->| ->]; [|rewrite text_at_0 in *; change (text_value b []) with 0 in *; by rewrite Z.mod_0_l in A1 by lia].
  by rewrite <- Z.add_mod_idemp_l, Z.mul_mod_idemp_l, Z.add_mod_idemp_l in A1 by lia.
Qed.

(** What reading leaves: the object out of an early rejection is not written; otherwise it is
    an object, and the number of the text when it has one. *)
Definition scanned (P : Z -> Prop) (m : mem) (out b : Z) (t : list Z) (r : mem * bool) : Prop :=
  let '(m', ok) := r in touches P m m' /\ ok = is_numeral b t /\ (exists x, arb m' out x) /\ (ok = true -> arb m' out (text_value b t mod M)).

Lemma from_chars_basecase_spec m out text p n b : wf m -> valid m out (cap + 1) -> 0 <= p -> 0 < n -> p + n <= alen text -> 2 <= b <= 36 ->
  returns (from_chars_basecase Bits m out text p n b) (scanned (obj out) m out b (text_at text p n)).
Proof.
  intros Hw Vo Hp Hn Hfit Hb. unfold from_chars_basecase. pose proof (modulus_pos Bits HBits) as HM.
  assert (bad_base b = false) as -> by (apply orb_false_intro; apply Z.ltb_ge; lia). rewrite (proj2 (Z.eqb_neq n 0)) by lia. cbn [orb].
  eapply returns_bind; [apply (finish_to Bits HBits (obj out) m m out 0 0); [by apply touches_refl|done|done|lia|]|].
  { pose proof (cap_facts Bits HBits). by rewrite Z.min_l, num_0 by lia. }
  intros m1 [T1 A1]. destruct (largest_power_spec b Hb) as (per & -> & Hp1 & _ & Hbig & _). cbn [mbind option_bind]. cbv zeta.
  pose proof (Z.mod_pos_bound n (Z.of_nat per) ltac:(lia)) as Hh. pose proof (Z.mod_le n (Z.of_nat per) ltac:(lia) ltac:(lia)) as Hle.
  pose proof (Z.div_mod n (Z.of_nat per) ltac:(lia)) as Ed. set (head := n mod Z.of_nat per) in *.
  assert (forall k, 0 <= k <= Z.of_nat per -> b ^ k <= base) as Hpow.
  { intros k Hk. destruct Hbig as [_ Hbig]. pose proof (Z.pow_le_mono_r b k (Z.of_nat per)). lia. }
  assert (forall i k m', 0 <= i -> 0 <= k -> i + k <= n -> touches (obj out) m m' -> (exists x, arb m' out x) ->
    is_numeral b (text_at text (p + i) k) = false -> scanned (obj out) m out b (text_at text p n) (m', false)) as Hbad.
  { intros i k m' Hi Hk Hik T A E. split_and!; [done| |done|done]. replace n with (i + (k + (n - i - k))) by lia.
    by rewrite (text_at_split _ p i), (text_at_split _ (p + i) k), !is_numeral_app, E, andb_false_r by lia. }
  rewrite read_chunk_spec by (try apply Hpow; lia). cbn [mbind option_bind]. unfold text_number at 1.
  destruct (is_numeral b (text_at text p head)) eqn:E1.
  2: { apply returns_ret. apply (Hbad 0 head); [lia..|done|by eexists|by rewrite Z.add_0_r]. }
  eapply returns_bind with (P := writes Bits (obj out) m out (text_value b (text_at text p head) mod M)).
  { destruct (Z.eqb_spec head 0) as [E0|Hne]; cbn [negb]; [rewrite E0; by apply returns_ret|].
    pose proof (append_digits_spec m1 out text p 0 head b 1) as Hap. rewrite Z.add_0_r, Z.add_0_l in Hap.
    eapply returns_mono; [apply Hap; first [wf_mem|done|lia|by right|apply Hpow; lia|unfold is_limb; pose proof base_ge; lia]|].
    intros m2 [T2 A2]. split; [by eapply touches_trans|done]. }
  intros m2 [T2 A2].
  apply (returns_while _ _ _ (fun '(m', i) => touches (obj out) m m' /\ is_numeral b (text_at text p i) = true /\
    arb m' out (text_value b (text_at text p i) mod M) /\ exists r, 0 <= r /\ n - i = Z.of_nat per * r /\ 0 <= i) (fun '(_, i) => n - i)).
  - split_and!; [done..|]. exists (n / Z.of_nat per). split_and!; [apply Z.div_pos; lia|lia|lia].
  - lia.
  - clear m1 T1 A1 m2 T2 A2. intros [m1 i] (T1 & N1 & A1 & r & Hr & Ei & Hi0).
    destruct (Z.ltb_spec i n) as [Hlt|Hge].
    2: { apply returns_ret. assert (i = n) as -> by nia. split_and!; [done|done|by eexists|done]. }
    assert (1 <= r) as Hr1 by nia. assert (i + Z.of_nat per <= n) as Hin by nia.
    rewrite read_chunk_spec by (try apply Hpow; lia). cbn [mbind option_bind]. unfold text_number.
    destruct (is_numeral b (text_at text (p + i) (Z.of_nat per))) eqn:E2.
    2: { apply returns_ret. eapply Hbad; [exact Hi0| | | | |exact E2]; [lia|lia|done|by eexists]. }
    eapply returns_bind; [apply (append_digits_spec m1 out text p i (Z.of_nat per) b); first [wf_mem|done|lia|by left|apply Hpow; lia]|].
    intros m2 [T2 A2]. apply returns_ret. split; [|lia]. split_and!; [by eapply touches_trans| |done|].
    + by rewrite text_at_split, is_numeral_app, N1, E2 by lia.
    + exists (r - 1). lia.
Qed.
(** ** Divide and conquer *)

Section parse.
Context (Solver : solver.t) (HS : Solver <> solver.nussbaumer) (w : workspace) (b : Z) (per : nat) (Hb : 2 <= b <= 36) (Hper : (1 <= per)%nat).
Abbreviation tower_ok := (tower_ok Bits w b per).
Abbreviation places := (places per).

Lemma split_level_spec m digits top n level : tower_ok m digits top -> places top < base -> 0 <= level <= top ->
  returns (split_level digits n level) (fun lv => 0 <= lv <= level /\ (0 < lv -> places lv < n) /\ (lv < level -> n <= places (lv + 1))).
Proof.
  intros Hok Hsm Hl. apply (returns_while _ _ _ (fun lv => 0 <= lv <= level /\ (lv < level -> n <= places (lv + 1))) (fun lv => lv)); [lia|lia|].
  intros lv [Hlv Hn]. destruct (Z.ltb_spec 0 lv) as [Hpos|Hz]; [|by apply returns_ret; split_and!; [lia..|]].
  rewrite (exact_places Bits w b per _ _ _ lv Hok Hsm) by lia. cbn [mbind option_bind].
  destruct (Z.leb_spec n (places lv)); apply returns_ret; [|done]. rewrite Z.sub_add. lia.
Qed.

(** The objects of a call are above [st]. *)
Definition below_stack (m : mem) (st p : Z) : Prop :=
  valid m p (cap + 1) /\ (p + (cap + 1) <= ws_sc w \/ ws_st w <= p /\ p + (cap + 1) <= st \/ ws_end w <= p).

Definition call_cells (out st k : Z) : Prop := obj out k \/ vec (ws_sc w) (ws_sn w) k \/ st <= k < ws_end w.

(** How many calls deep the text needs, for a level of the tower. *)
Definition deep_enough (n level depth : Z) : Prop := n <= places level /\ depth = level \/ n <= 2 * places level /\ depth = level + 1.

(** The two halves put together. *)
Lemma join_halves_spec m digits top lv out st x y : wf m -> laid_out Bits w m -> tower_ok m digits top -> 0 <= lv <= top ->
  ws_st w <= st -> st + 2 * (cap + 1) <= ws_end w -> below_stack m st out ->
  arb m st (x mod M) -> arb m (st + object_limbs Bits) (y mod M) ->
  returns (m ← mul_assign Bits Solver m st (tower_at Bits (ws_tower w) lv) (ws_sc w);
    m ← add_assign Bits m st (st + object_limbs Bits);
    m ← copy Bits m out st;
    Some (m, true)) (fun '(m', ok) => ok = true /\ touches (call_cells out st) m m' /\ arb m' out ((x * b ^ places lv + y) mod M)).
Proof.
  intros Hw [] Hok Hlv Hst Hroom [Vo Ho] Ax Ay. pose proof (cap_facts Bits HBits) as [Hc0 _]. pose proof (modulus_pos Bits HBits) as HM.
  pose proof (tw_top _ _ _ _ _ _ _ Hok) as Ht. destruct (entry_in Bits HBits w lv ltac:(lia)) as [He1 He2]. unfold max_tower in *.
  assert (object_limbs Bits = cap + 1) as EL by done. rewrite EL in *. set (e := tower_at Bits (ws_tower w) lv) in *.
  pose proof (mul_scratch_nonneg Bits HBits) as Hms.
  eapply returns_bind.
  { apply (mul_assign_spec Bits Solver HBits m st e (x mod M) (b ^ places lv mod M)) with (sn := ws_sn w); [done|done|by apply Hok|..|done|done];
      unfold valid, disjoint; lia. }
  intros m1 [T1 A1]. pose proof (touches_alen _ _ _ T1).
  eapply returns_bind.
  { apply (add_assign_spec Bits HBits m1 st (st + (cap + 1))); [wf_mem|exact A1| |right; unfold disjoint; lia].
    eapply (arb_frame Bits HBits); [exact Ay|exact T1|unfold vec; lia]. }
  intros m2 [T2 A2]. pose proof (touches_alen _ _ _ T2).
  eapply returns_bind; [apply (object_copy_spec Bits HBits m2 out st); [wf_mem|exact A2|unfold valid in *; lia|right; unfold disjoint; lia]|].
  intros m3 [T3 A3]. apply returns_ret. split; [done|]. split.
  - apply (touches_trans _ m m2 m3); [apply (touches_trans _ m m1 m2)|]; (eapply touches_mono; [eassumption|]); unfold call_cells, vec; lia.
  - by rewrite <- Z.mul_mod, <- Z.add_mod in A3 by lia.
Qed.

(** The text in two parts. *)
Lemma text_parts text p n low : 0 <= p -> 0 < low < n -> p + n <= alen text ->
  is_numeral b (text_at text p n) = andb (is_numeral b (text_at text p (n - low))) (is_numeral b (text_at text (p + (n - low)) low)) /\
  text_value b (text_at text p n) = text_value b (text_at text p (n - low)) * b ^ low + text_value b (text_at text (p + (n - low)) low).
Proof.
  intros Hp Hl Hfit. replace n with (n - low + low) at 1 4 by lia. rewrite text_at_split by lia.
  by rewrite is_numeral_app, text_value_app, text_at_alen by lia.
Qed.

Lemma parse_dc_spec fuel m out text p n digits top level depth st : wf m -> laid_out Bits w m -> tower_ok m digits top -> places top < base -> 0 <= level <= top ->
  0 <= p -> 0 < n <= Z.of_nat fuel -> p + n <= alen text -> deep_enough n level depth ->
  ws_st w <= st -> st + depth * (2 * (cap + 1)) <= ws_end w -> below_stack m st out -> (exists x, arb m out x) ->
  returns (parse_dc Bits Solver fuel m out text p n b (ws_tower w) digits level st (ws_sc w))
    (scanned (call_cells out st) m out b (text_at text p n)).
Proof.
  revert m out p n level depth st. induction fuel as [|fuel IH]; intros m out p n level depth st Hw Hlo Hok Hsm Hl Hp Hn Hfit Hdeep Hst Hroom Hout Hx; [lia|].
  pose proof (cap_facts Bits HBits) as [Hc0 _]. cbn [parse_dc]. rewrite (exact_places Bits w b per _ _ _ 0 Hok Hsm) by lia. cbn [mbind option_bind].
  assert (returns (from_chars_basecase Bits m out text p n b) (scanned (call_cells out st) m out b (text_at text p n))) as Hbase.
  { eapply returns_mono; [apply from_chars_basecase_spec; [done|apply Hout|done|lia|done|done]|].
    intros [m1 ok] (T & R). split; [|done]. eapply touches_mono; [exact T|]. unfold call_cells. tauto. }
  destruct (orb _ _) eqn:Eb; [done|]. apply orb_false_elim in Eb as [[E1%Z.eqb_neq E2%Z.leb_gt]%orb_false_elim _].
  destruct (split_level_spec m digits top n level Hok Hsm Hl) as (lv & -> & Hlv & Hlow & Hup). cbn [mbind option_bind].
  rewrite (proj2 (Z.leb_gt n _)) by lia. rewrite Bool.andb_false_r. rewrite (exact_places Bits w b per _ _ _ lv Hok Hsm) by lia. cbn [mbind option_bind].
  assert (places lv < n) as Hlt by (destruct (decide (lv = 0)) as [->|]; [done|apply Hlow; lia]).
  pose proof (places_pos per lv Hper ltac:(lia)) as Hpp. set (low := places lv) in *.
  assert (n - low <= low /\ st + 2 * (cap + 1) + lv * (2 * (cap + 1)) <= ws_end w) as [Hhalf Hroom'].
  { destruct (decide (lv < level)) as [Hll|Hll].
    - specialize (Hup Hll). rewrite places_succ in Hup by lia. fold low in Hup. split; [lia|]. destruct Hdeep as [[_ ->]|[_ ->]]; nia.
    - assert (lv = level) as -> by lia. destruct Hdeep as [[Hd ->]|[Hd ->]]; fold low in Hd; [lia|]. split; [lia|]. nia. }
  assert (object_limbs Bits = cap + 1) as EL by done. rewrite EL in *. destruct (text_parts text p n low) as [En Ev]; [lia..|].
  pose proof Hlo as []. destruct Hout as [Vo Ho]. unfold max_tower in *.
  pose proof (mul_scratch_nonneg Bits HBits) as Hms.
  eapply returns_bind; [apply (store_spec Bits HBits); [done|unfold valid; lia]|]. intros m1 [T1 A1]. pose proof (touches_alen _ _ _ T1).
  eapply returns_bind; [apply (store_spec Bits HBits); [wf_mem|unfold valid; lia]|]. intros m2 [T2 A2]. pose proof (touches_alen _ _ _ T2).
  assert (forall m', touches (call_cells out st) m m' -> tower_ok m' digits top) as Hkeep.
  { intros m' T'. eapply (tower_frame Bits HBits w b per); [exact Hok|exact T'|]. unfold call_cells, vec. unfold max_tower in *. lia. }
  assert (touches (call_cells out st) m m2) as T02.
  { apply (touches_trans _ m m1 m2); (eapply touches_mono; [eassumption|]); unfold call_cells, vec; lia. }
  assert (forall m' m'', touches (call_cells st (st + 2 * (cap + 1))) m' m'' -> touches (call_cells out st) m' m'') as Hhi.
  { intros m' m'' T'. eapply touches_mono; [exact T'|]. unfold call_cells, vec. lia. }
  assert (forall m' m'', touches (call_cells (st + (cap + 1)) (st + 2 * (cap + 1))) m' m'' -> touches (call_cells out st) m' m'') as Hlo'.
  { intros m' m'' T'. eapply touches_mono; [exact T'|]. unfold call_cells, vec. lia. }
  assert (deep_enough low lv lv /\ deep_enough (n - low) lv lv) as [Hd1 Hd2] by (split; left; fold low; lia).
  eapply returns_bind.
  { apply (IH m2 st p (n - low) lv lv (st + 2 * (cap + 1))); try done; try lia; [wf_mem|by eapply laid_out_mono, touches_alen|by apply Hkeep| |].
    - split; [unfold valid; lia|right; left; lia].
    - exists 0. eapply (arb_frame Bits HBits); [exact A1|exact T2|unfold vec; lia]. }
  intros [m3 ok1] (T3 & E3 & _ & A3). pose proof (touches_alen _ _ _ T3).
  assert (touches (call_cells out st) m m3) as T03 by (eapply touches_trans; [exact T02|by apply Hhi]).
  assert (exists x, arb m3 out x) as Hx3.
  { destruct Hx as [x Hx]. exists x.
    apply (arb_frame Bits HBits _ m2 m3 out x) with (2 := T3); [|unfold call_cells, vec; lia].
    apply (arb_frame Bits HBits _ m1 m2 out x) with (2 := T2); [|unfold vec; lia].
    apply (arb_frame Bits HBits _ m m1 out x Hx T1). unfold vec. lia. }
  destruct ok1; cbn [negb]; [|apply returns_ret; split_and!; [done|by rewrite En, <- E3|done|done]]. specialize (A3 eq_refl).
  eapply returns_bind.
  { apply (IH m3 (st + (cap + 1)) (p + (n - low)) low lv lv (st + 2 * (cap + 1))); try done; try lia;
      [wf_mem|by eapply laid_out_mono, touches_alen|by apply Hkeep| |].
    - split; [unfold valid; lia|right; left; lia].
    - exists 0. eapply (arb_frame Bits HBits); [exact A2|exact T3|unfold call_cells, vec; lia]. }
  intros [m4 ok2] (T4 & E4 & _ & A4). pose proof (touches_alen _ _ _ T4).
  assert (touches (call_cells out st) m m4) as T04 by (eapply touches_trans; [exact T03|by apply Hlo']).
  assert (exists x, arb m4 out x) as Hx4.
  { destruct Hx3 as [x Hx3]. exists x. eapply (arb_frame Bits HBits); [exact Hx3|exact T4|unfold call_cells, vec; lia]. }
  destruct ok2; cbn [negb]; [|apply returns_ret; split_and!; [done|by rewrite En, <- E3, <- E4|done|done]]. specialize (A4 eq_refl).
  eapply returns_mono.
  { apply (join_halves_spec m4 digits top lv out st) with (3 := Hkeep m4 T04) (9 := A4); [wf_mem|by eapply laid_out_mono, touches_alen|lia|lia|lia| |].
    - split; [unfold valid in *; lia|done].
    - eapply (arb_frame Bits HBits); [exact A3|exact T4|unfold call_cells, vec; lia]. }
  intros [m5 ok] (-> & T5 & A5). fold low in A5. rewrite <- Ev in A5. split_and!; [by eapply touches_trans|by rewrite En, <- E3, <- E4|by eexists|done].
Qed.
End parse.

Lemma all_digits_spec text p n b : 0 <= p -> 0 <= n -> p + n <= alen text -> all_digits text p n b = Some (is_numeral b (text_at text p n)).
Proof.
  intros Hp Hn Hfit. apply returns_eq. apply (returns_for 0 n _ _ (fun i ok => ok = is_numeral b (text_at text p i))); [done|done| |by intros].
  intros i ok Hi ->. destruct (aget_in text (p + i)) as [c Hc]; [lia|]. rewrite Hc. cbn [mbind option_bind]. apply returns_ret.
  rewrite (text_at_succ _ _ _ c) by (done || lia). rewrite is_numeral_app. cbn [is_numeral forallb]. by rewrite Bool.andb_true_r.
Qed.

(** The cells a conversion writes: its result and the working memory. *)
Definition convert_cells (w : workspace) (out k : Z) : Prop := obj out k \/ ws_sc w <= k < ws_end w.

(** A text in memory is at most half of it. *)
Lemma from_chars_spec Solver w m out text p n b : Solver <> solver.nussbaumer -> wf m -> laid_out Bits w m ->
  outside Bits w m out -> (exists x, arb m out x) -> 0 <= p -> 0 <= n -> p + n <= alen text -> 2 * n <= base ->
  returns (from_chars Bits Solver m out text p n b (ws_tower w) (ws_tmp w) (ws_st w) (ws_sc w)) (fun '(m', ok) =>
    if orb (bad_base b) (Z.eqb n 0) then m' = m /\ ok = false else scanned (convert_cells w out) m out b (text_at text p n) (m', ok)).
Proof.
  intros HS Hw Hlo [Vo Ho] Hx Hp Hn Hfit Hhalf. unfold from_chars. destruct (bad_base b) eqn:Eb; [by apply returns_ret|].
  destruct (Z.eqb_spec n 0) as [|Hn0]; [by apply returns_ret|]. cbn [orb]. apply bad_base_spec in Eb as Hb.
  pose proof (cap_facts Bits HBits) as [Hc0 _]. pose proof limb_bits_pos as Hlw.
  destruct (orb _ _) eqn:Ebase.
  { eapply returns_mono; [apply from_chars_basecase_spec; [done|done|done|lia|done|done]|].
    intros [m1 ok] (T & R). split; [|done]. eapply touches_mono; [exact T|]. unfold convert_cells. tauto. }
  apply orb_false_elim in Ebase as [Elong%Z.ltb_ge _]. unfold set_str_dc in Elong.
  rewrite all_digits_spec by done. cbn [mbind option_bind]. destruct (is_numeral b (text_at text p n)) eqn:En; cbn [negb].
  2: { apply returns_ret. split_and!; [by apply touches_refl|done|done|done]. }
  destruct (largest_power_spec b Hb) as (per & -> & Hp1 & Hpw & Hbig & _). cbn [mbind option_bind].
  eapply returns_bind.
  { apply (build_tower_spec Bits Solver HBits HS w b per Hpw Hbig m _ (fun top => 0 <= top -> places per top < n)); [done|done|rewrite places_0; lia|].
    intros m' digits top T' Hok Hj Htop. pose proof (tw_top _ _ _ _ _ _ _ Hok) as Ht. specialize (Hj ltac:(lia)).
    rewrite (exact_places Bits w b per _ _ _ top Hok) by lia.
    cbn [mbind option_bind]. eexists. split; [done|]. pose proof (places_pos per top Hp1 ltac:(lia)).
    rewrite places_succ by lia. unfold usize. rewrite wrap_id by (unfold in_unsigned; unfold base in Hhalf; lia). rewrite Z.ltb_lt. lia. }
  intros [[m1 digits] top] (T1 & Hok & Hj & Hend). pose proof (tw_top _ _ _ _ _ _ _ Hok) as Ht. specialize (Hj ltac:(lia)).
  pose proof (places_pos per top Hp1 ltac:(lia)) as Hpp.
  assert (n <= 2 * places per top) as Hle.
  { destruct (decide (top + 1 < max_tower)) as [Hlt|Hge].
    - specialize (Hend Hlt). rewrite (exact_places Bits w b per _ _ _ top Hok) in Hend by lia. cbn [mbind option_bind] in Hend.
      injection Hend as Hend%Z.ltb_ge. unfold usize in Hend. rewrite wrap_id in Hend by (unfold in_unsigned; unfold base in Hhalf; lia). lia.
    - unfold max_tower in *. assert (top = 63) as -> by lia. assert (base <= 2 ^ 64) by (apply Z.pow_le_mono_r; lia).
      unfold places in *. change (2 ^ 63) with 9223372036854775808 in *. change (2 ^ 64) with 18446744073709551616 in *. lia. }
  pose proof Hlo as []. unfold max_tower in *. pose proof (touches_alen _ _ _ T1).
  pose proof (mul_scratch_nonneg Bits HBits) as Hms.
  eapply returns_mono.
  { apply (parse_dc_spec Solver HS w b per Hb Hp1 (Z.to_nat n) m1 out text p n digits top top (top + 1)); try done; try lia;
      [wf_mem|by apply (laid_out_mono Bits w m)|right; lia|nia|split; [unfold valid in *; lia|]; lia|].
    destruct Hx as [x Hx]. exists x. eapply (arb_frame Bits HBits); [exact Hx|exact T1|]. unfold tower_cells, vec, max_tower. lia. }
  intros [m2 ok] (T2 & E2 & R). split; [|done].
  apply (touches_trans _ m m1 m2); (eapply touches_mono; [eassumption|]); unfold convert_cells, call_cells, tower_cells, vec, max_tower; lia.
Qed.
End scan.
