(* ===== verification/ArbFormat.v ===== *)
(** The strings an [arbuint<Bits>] is formatted to: [emit_padded] writes a number at a fixed
    width by dividing by the tower of powers, and [to_string] strips the leading zeros. *)
From Stdlib Require Import Ascii String.
From stdpp Require Import base numbers list option.
From Stdlib Require Import ZArith Lia.
From S2P Require Import Prelude Arrays Limb Mpn MpnValue MpnArith MpnBits MpnDiv MpnDivProof MpnFrame Thresholds MpnTiers MpnDc Arbuint ArbuintProof ArbuintDiv ArbuintConv ArbConvert Radix ArbPrint ArbTower ArbScan.

Local Open Scope Z_scope.

(** ** Text in a buffer *)

Lemma holds_text_app buf b0 t1 t2 buf1 buf2 : 0 <= b0 -> b0 + alen t1 + alen t2 <= alen buf ->
  holds_text buf b0 (alen t1) t1 buf1 -> holds_text buf1 (b0 + alen t1) (alen t2) t2 buf2 ->
  holds_text buf b0 (alen t1 + alen t2) (t1 ++ t2) buf2.
Proof.
  intros H0 Hfit (L1 & T1 & F1) (L2 & T2 & F2). pose proof (alen_nonneg t1). pose proof (alen_nonneg t2).
  unfold holds_text. assert (alen (t1 ++ t2) = alen t1 + alen t2) as -> by (unfold alen; rewrite length_app; lia). split_and!.
  - congruence.
  - rewrite text_at_split, T2 by lia. f_equal. rewrite <- T1 at 2. apply text_at_ext; [lia|lia|done|lia|]. intros i Hi. apply F2. lia.
  - intros i Hi. rewrite F2, F1 by lia. done.
Qed.

(** A run of one character. *)
Lemma fill_spec buf lo hi c : 0 <= lo <= hi -> hi <= alen buf ->
  returns (for_ lo hi (fun p buf => aset buf p c) buf) (fun buf' => holds_text buf lo (hi - lo) (replicate (Z.to_nat (hi - lo)) c) buf').
Proof.
  intros Hlo Hhi. apply (returns_for lo hi _ _ (fun k buf' => alen buf' = alen buf /\ (forall i, lo <= i < k -> buf'.[i] = Some c) /\
    forall i, ~ (lo <= i < k) -> buf'.[i] = buf.[i])); [lia|split_and!; [done|lia|done]| |].
  - intros k buf' Hk (L & E1 & E2). apply returns_set_tail; [lia|]. rewrite alen_upd. split_and!; [done|..]; intros i Hi.
    + rewrite aget_upd by lia. case_decide; [done|]. apply E1. lia.
    + rewrite aget_upd_ne by lia. apply E2. lia.
  - intros buf' (L & E1 & E2). assert (alen (replicate (Z.to_nat (hi - lo)) c) = hi - lo) as El by (unfold alen; rewrite length_replicate; lia).
    split_and!; [done| |intros; apply E2; lia]. apply text_at_eq; [lia|lia|]. intros i Hi. rewrite El in Hi. rewrite E1 by lia. symmetry.
    unfold aget. rewrite decide_True by lia. apply lookup_replicate_2. lia.
Qed.

Lemma until_nul_spec buf t : text_at buf 0 (alen t) = t -> Forall (fun c => c <> 0) t -> buf.[alen t] = Some 0 -> until_nul buf = t.
Proof.
  revert buf. induction t as [|c t IH]; intros buf E F Hz.
  - destruct buf as [|x buf]; [done|]. unfold aget in Hz. cbn in Hz. injection Hz as ->. done.
  - destruct buf as [|x buf]; [done|]. inversion F as [|? ? Hc F']; subst.
    assert (alen (c :: t) = alen t + 1) as El by (unfold alen; cbn [length]; lia). pose proof (alen_nonneg t).
    rewrite El in E, Hz. unfold text_at in E. replace (Z.to_nat (alen t + 1)) with (S (Z.to_nat (alen t))) in E by lia.
    cbn in E. injection E as -> E. cbn [until_nul]. rewrite (proj2 (Z.eqb_neq c 0)) by done. f_equal. apply IH; [|done|].
    + unfold text_at. cbn. done.
    + unfold aget in *. rewrite decide_True in Hz by lia. rewrite decide_True by lia.
      by replace (Z.to_nat (alen t + 1)) with (S (Z.to_nat (alen t))) in Hz by lia.
Qed.

Section format.
Context `{W : LimbWidth} `{BarrettTier} (Bits : Z) (HBits : 1 <= Bits <= 2 ^ 31).
Abbreviation cap := (@cap_limbs W Bits).
Abbreviation M := (2 ^ Bits).
Abbreviation obj p := (vec p (cap + 1)).
Abbreviation arb := (arb Bits).
Implicit Types (m : mem) (buf digits : list Z).

(** The text of [v] at the width [n]. *)
Definition wide (b : Z) (upper : bool) (n v : Z) : list Z := padded b upper (Z.to_nat n) v.

Lemma wide_alen b upper n v : 0 <= n -> alen (wide b upper n v) = n.
Proof. intros Hn. unfold wide. rewrite padded_alen. lia. Qed.

Lemma wide_split b upper n low v : 2 <= b <= 36 -> 0 <= low <= n ->
  wide b upper n v = wide b upper (n - low) (v / b ^ low) ++ wide b upper low (v mod b ^ low).
Proof.
  intros Hb Hl. unfold wide. replace (Z.to_nat n) with (Z.to_nat (n - low) + Z.to_nat low)%nat by lia.
  rewrite (padded_app b upper Hb), Z2Nat.id by lia. f_equal. rewrite <- (padded_mod b upper Hb (Z.to_nat low) v).
  by rewrite Z2Nat.id by lia.
Qed.

Lemma emit_padded_basecase_spec m buf out width work n b upper : wf m -> valid m work n -> normalized m work n -> 2 <= b <= 36 ->
  let v := num m work n in v < b ^ width -> 0 <= width -> 0 <= out -> out + width <= alen buf ->
  returns (emit_padded_basecase m buf out width work n b upper) (fun '(m', buf') =>
    touches (vec work n) m m' /\ holds_text buf out width (wide b upper width v) buf').
Proof.
  intros Hw Hvw Hn Hb v Hv Hwd H0 Hfit. unfold emit_padded_basecase. cbv zeta. set (e := out + width).
  assert (0 <= v) as Hv0 by (apply num_range; [done|apply Hvw]).
  pose proof (ndigits_least b Hb (Z.to_nat width) v) as Hnd. rewrite Z2Nat.id in Hnd by done. specialize (Hnd ltac:(lia)).
  set (pre := take (Z.to_nat e) buf). set (post := drop (Z.to_nat e) buf).
  assert (buf = pre ++ post) as Ebuf by (unfold pre, post; by rewrite take_drop).
  assert (alen pre = e) as Epre by (unfold pre, alen in *; rewrite length_take; lia).
  assert (alen buf = alen pre + alen post) as El by (rewrite Ebuf; unfold alen; rewrite length_app; lia).
  set (k := ndigits b v) in *.
  eapply returns_bind.
  { rewrite Ebuf, <- Epre. apply (emit_digits_spec b upper Hb); [done|done|done|]. fold v k. lia. }
  intros [[m1 buf1] first] (T1 & -> & ->). fold v k. rewrite Epre.
  pose proof (printed_alen b upper pre post v k ltac:(lia)) as La.
  eapply returns_bind; [apply fill_spec; [lia|rewrite La; lia]|]. intros buf2 Hf. apply returns_ret. split; [done|].
  replace (e - Z.of_nat k - out) with (width - Z.of_nat k) in Hf by lia. set (z := replicate (Z.to_nat (width - Z.of_nat k)) (ch "0")) in *.
  assert (alen z = width - Z.of_nat k) as Ez by (unfold z, alen; rewrite length_replicate; lia).
  destruct Hf as (L2 & T2 & F2). rewrite Ez in T2.
  assert (wide b upper width v = z ++ padded b upper k v) as Ew.
  { unfold wide, z. replace (Z.to_nat width) with (Z.to_nat (width - Z.of_nat k) + k)%nat by lia. apply (padded_zeros b upper Hb).
    split; [done|]. apply (ndigits_spec b Hb v Hv0). }
  split_and!; [rewrite L2, La; lia| |].
  - rewrite wide_alen, Ew by done. replace width with (width - Z.of_nat k + Z.of_nat k) at 1 by lia. rewrite text_at_split, T2 by lia. f_equal.
    rewrite <- (printed_text b upper pre post v k) by lia. rewrite Epre. replace (out + (width - Z.of_nat k)) with (e - Z.of_nat k) by lia.
    apply text_at_ext; [lia|lia|done|rewrite La; lia|]. intros i Hi. apply F2. lia.
  - intros i Hi. rewrite F2, printed_other by lia. by rewrite <- Ebuf.
Qed.
(** The limbs of an object, in the working limbs. *)
Lemma copy_limbs_spec m work x v : wf m -> arb m x v -> valid m work cap -> disjoint work cap x (cap + 1) ->
  returns (copyi m work x (cell m (x + cap))) (fun m' => touches (vec work cap) m m' /\
    num m' work (cell m (x + cap)) = v /\ normalized m' work (cell m (x + cap)) /\ valid m' work (cell m (x + cap)) /\ cell m (x + cap) <= cap).
Proof.
  intros Hw [Va Ca Na Ea Ba] Vw Dw. set (n := cell m (x + cap)) in *.
  eapply returns_mono; [apply (copyi_spec m work x n); [done|vecs..]|]. intros m1 [M1 V1]. split_and!.
  - drop_values. touched.
  - by rewrite V1.
  - destruct Na as [?|Na]; [by left|]. destruct (decide (n = 0)); [by left|]. right.
    erewrite (num_inj m1 m work x n); [exact Na|wf_mem|done|lia|done|lia].
  - vecs.
  - lia.
Qed.

Section padded.
Context (w : workspace) (b : Z) (upper : bool) (per : nat) (Hb : 2 <= b <= 36) (Hper : (1 <= per)%nat).
Abbreviation tower_ok := (tower_ok Bits w b per).
Abbreviation places := (places per).
Abbreviation wide := (wide b upper).
Abbreviation below_stack := (below_stack Bits w).

(** The cells a call with its objects from [st] on writes. *)
Definition format_cells (st k : Z) : Prop := vec (ws_sc w) (ws_sn w) k \/ vec (ws_work w) cap k \/ st <= k < ws_end w.

(** The result: the text at its width, and no exception. *)
Definition formatted (m : mem) (buf : list Z) (out width v st : Z) (r : mem * list Z + mem) : Prop :=
  match r with inl (m', buf') => touches (format_cells st) m m' /\ holds_text buf out width (wide width v) buf' | inr _ => False end.

Lemma below_stack_apart m st p : laid_out Bits w m -> below_stack m st p -> ws_st w <= st -> forall k, obj p k -> ~ format_cells st k.
Proof.
  intros [] [Vp Hp] Hst k Hk. pose proof (cap_facts Bits HBits) as [Hc0 _].
  pose proof (mul_scratch_nonneg Bits HBits).
  unfold format_cells, vec, max_tower in *. lia.
Qed.

Lemma leaf_spec m buf out width x v st : wf m -> laid_out Bits w m -> arb m x v -> below_stack m st x -> ws_st w <= st ->
  v < b ^ width -> 0 <= width -> 0 <= out -> out + width <= alen buf ->
  returns (m1 ← copyi m (ws_work w) x (cell m (x + cap));
    r ← emit_padded_basecase m1 buf out width (ws_work w) (cell m (x + cap)) b upper; Some (inl r)) (formatted m buf out width v st).
Proof.
  intros Hw Hlo Hx Hbs Hst Hv Hwd H0 Hfit. pose proof (cap_facts Bits HBits) as [Hc0 _]. pose proof Hlo as [].
  pose proof (mul_scratch_nonneg Bits HBits) as Hms.
  destruct Hbs as [Vx Hbs]. unfold max_tower in *.
  eapply returns_bind; [apply (copy_limbs_spec m (ws_work w) x v); [done|done|unfold valid; lia|unfold disjoint; lia]|].
  intros m1 (T1 & E1 & N1 & V1 & Hn). set (n := cell m (x + cap)) in *.
  pose proof (emit_padded_basecase_spec m1 buf out width (ws_work w) n b upper ltac:(wf_mem) V1 N1 Hb) as Hs. cbv zeta in Hs. rewrite E1 in Hs.
  eapply returns_bind; [by apply Hs|]. intros [m2 buf2] (T2 & Hh). apply returns_ret. split; [|done].
  apply (touches_trans _ m m1 m2); (eapply touches_mono; [eassumption|]); unfold format_cells, vec; lia.
Qed.

Lemma divmod_spec m digits top level x v st : wf m -> laid_out Bits w m -> tower_ok m digits top -> 0 <= level <= top -> b ^ places top < M ->
  arb m x v -> below_stack m st x -> ws_st w <= st -> st + 2 * (cap + 1) <= ws_end w ->
  returns (divmod Bits m st (st + object_limbs Bits) x (tower_at Bits (ws_tower w) level) (ws_sc w)) (fun o =>
    match o with
    | returned m' => touches (format_cells st) m m' /\ arb m' st (v / b ^ places level) /\ arb m' (st + object_limbs Bits) (v mod b ^ places level)
    | domain_error _ => False
    end).
Proof.
  intros Hw Hlo Hok Hl Hexact Hx [Vx Hbs] Hst Hroom. unfold divmod. change (object_limbs Bits) with (cap + 1).
  pose proof (cap_facts Bits HBits) as [Hc0 _]. pose proof Hlo as []. pose proof (tw_top _ _ _ _ _ _ _ Hok) as Ht.
  destruct (entry_in Bits HBits w level ltac:(lia)) as [He1 He2]. unfold max_tower in *. set (e := tower_at Bits (ws_tower w) level) in *.
  pose proof (mul_scratch_nonneg Bits HBits) as Hms.
  pose proof (tw_entry _ _ _ _ _ _ _ Hok level Hl) as Ae. fold e in Ae.
  pose proof (places_le per level top ltac:(lia)) as Hpl. pose proof (places_pos per level Hper ltac:(lia)) as Hpp.
  pose proof (Z.pow_pos_nonneg b (places level) ltac:(lia) ltac:(lia)) as Pe. pose proof (Z.pow_le_mono_r b _ _ ltac:(lia) Hpl) as Hple.
  rewrite Z.mod_small in Ae by lia.
  eapply returns_bind; [apply (store_spec Bits HBits); [done|unfold valid; lia]|]. intros m1 [T1 A1]. pose proof (touches_alen _ _ _ T1).
  eapply returns_bind.
  { apply (object_copy_spec Bits HBits m1 (st + (cap + 1)) x v); [wf_mem| |unfold valid; lia|right; unfold disjoint; lia].
    eapply (arb_frame Bits HBits); [exact Hx|exact T1|unfold vec; lia]. }
  intros m2 [T2 A2]. pose proof (touches_alen _ _ _ T2).
  assert (arb m2 e (b ^ places level)) as Ae2.
  { eapply (arb_frame Bits HBits); [eapply (arb_frame Bits HBits); [exact Ae|exact T1|unfold vec; lia]|exact T2|unfold vec; lia]. }
  eapply returns_mono.
  { apply (divmod_both_spec Bits HBits m2 (st + (cap + 1)) e v (b ^ places level) (ws_sc w) (ws_sn w)); [wf_mem|done|done|..];
      unfold valid, disjoint; lia. }
  intros [m3|m3]; cbn; [|lia]. intros (_ & T3 & A3 & A4). split_and!; [|done|done].
  apply (touches_trans _ m m2 m3); [apply (touches_trans _ m m1 m2)|]; (eapply touches_mono; [eassumption|]); unfold format_cells, vec; lia.
Qed.
Lemma emit_padded_spec level : forall m buf digits top out width x v st, wf m -> laid_out Bits w m -> tower_ok m digits top ->
  Z.of_nat level <= top -> places top < base -> b ^ places top < M -> arb m x v -> below_stack m st x -> ws_st w <= st ->
  st + Z.of_nat level * (2 * (cap + 1)) <= ws_end w -> v < b ^ width -> 0 <= width -> 0 <= out -> out + width <= alen buf ->
  returns (emit_padded Bits level m buf out width x b upper (ws_tower w) digits (ws_work w) st (ws_sc w)) (formatted m buf out width v st).
Proof.
  induction level as [|level IH]; intros m buf digits top out width x v st Hw Hlo Hok Hl Hsm Hexact Hx Hbs Hst Hroom Hv Hwd H0 Hfit;
    cbn [emit_padded]; rewrite (arb_size Bits HBits _ _ _ Hx); cbn [mbind option_bind]; [by apply leaf_spec|].
  destruct (Z.ltb _ get_str_dc); [by apply leaf_spec|]. rewrite (exact_places Bits w b per _ _ _ _ Hok Hsm) by lia. cbn [mbind option_bind].
  pose proof (places_pos per (Z.of_nat (S level)) Hper ltac:(lia)) as Hpp. set (low := places (Z.of_nat (S level))) in *.
  pose proof (cap_facts Bits HBits) as [Hc0 _].
  assert (st + 2 * (cap + 1) + Z.of_nat level * (2 * (cap + 1)) <= ws_end w /\ 0 <= Z.of_nat level * (2 * (cap + 1))) as [Hroom' Hr0] by nia.
  destruct (Z.leb_spec width low) as [Hle|Hgt]; [eapply IH; try done; lia|].
  eapply returns_bind; [apply (divmod_spec m digits top (Z.of_nat (S level)) x v st); try done; lia|].
  intros [m1|m1]; [|done]. intros (T1 & Aq & Ar). fold low in Aq, Ar. change (object_limbs Bits) with (cap + 1) in *.
  pose proof (arb_bound _ _ _ _ Hx) as [Hv0 _]. pose proof (Z.pow_pos_nonneg b low ltac:(lia) ltac:(lia)) as Pl.
  assert (v / b ^ low < b ^ (width - low)) as Hq.
  { apply Z.div_lt_upper_bound; [lia|]. rewrite <- Z.pow_add_r by lia. by replace (low + (width - low)) with width by lia. }
  assert (forall P m', touches P m1 m' -> (forall k, P k -> format_cells st k) -> wf m' /\ laid_out Bits w m' /\ tower_ok m' digits top) as Hkeep.
  { intros P m' T' HP. pose proof Hlo as []. unfold max_tower in *.
    assert (touches (format_cells st) m m') as T by (apply (touches_trans _ m m1 m' T1); by eapply touches_mono).
    split_and!; [exact (touches_wf _ _ _ T)|by eapply laid_out_mono, touches_alen|].
    eapply (tower_frame Bits HBits w b per); [exact Hok|exact T|]. unfold format_cells, vec, max_tower. lia. }
  pose proof (touches_alen _ _ _ T1) as L1. pose proof Hlo as []. pose proof (mul_scratch_nonneg Bits HBits). unfold max_tower in *.
  destruct (Hkeep (fun _ => False) m1) as (W1 & Lo1 & Ok1); [by apply touches_refl; exact (touches_wf _ _ _ T1)|done|].
  eapply returns_bind.
  { apply (IH m1 buf digits top out (width - low) st (v / b ^ low) (st + 2 * (cap + 1))); try done; try lia.
    split; [unfold valid; lia|right; left; lia]. }
  intros [[m2 buf2]|]; [|done]. intros [T2 Hh2].
  destruct (Hkeep _ m2 T2) as (W2 & Lo2 & Ok2); [unfold format_cells, vec; lia|]. pose proof (touches_alen _ _ _ T2) as L2.
  assert (below_stack m2 (st + 2 * (cap + 1)) (st + (cap + 1))) as Hbr by (split; [unfold valid; lia|right; left; lia]).
  eapply returns_mono.
  { apply (IH m2 buf2 digits top (out + (width - low)) low (st + (cap + 1)) (v mod b ^ low) (st + 2 * (cap + 1))); try done; try lia.
    - eapply (arb_frame Bits HBits); [exact Ar|exact T2|]. apply (below_stack_apart m1); [done| |lia].
      split; [unfold valid; lia|right; left; lia].
    - apply Z.mod_pos_bound. lia.
    - destruct Hh2 as [-> _]. lia. }
  intros [[m3 buf3]|]; [|done]. intros [T3 Hh3]. split.
  - apply (touches_trans _ m m1 m3 T1). apply (touches_trans _ m1 m2 m3); (eapply touches_mono; [eassumption|]); unfold format_cells, vec; lia.
  - rewrite (wide_split b upper width low v Hb) by lia.
    pose proof (wide_alen b upper (width - low) (v / b ^ low) ltac:(lia)) as E1. pose proof (wide_alen b upper low (v mod b ^ low) ltac:(lia)) as E2.
    replace width with (alen (wide (width - low) (v / b ^ low)) + alen (wide low (v mod b ^ low))) at 1 by lia.
    apply (holds_text_app buf out _ _ buf2 buf3); [done|lia|by rewrite E1|by rewrite E1, E2].
Qed.
End padded.

(** ** Strings *)

(** The string of a number: empty when the base has no digits. *)
Definition text_of (b : Z) (upper : bool) (v : Z) : list Z := if bad_base b then [] else numeral b upper v.

Lemma terminated_spec buf t : text_at buf 0 (alen t) = t -> Forall (fun c => c <> 0) t -> alen t < alen buf ->
  (l ← aset buf (alen t) 0; Some (until_nul l)) = Some t.
Proof.
  intros T F Hl. pose proof (alen_nonneg t). rewrite aset_in by lia. cbn [mbind option_bind]. f_equal.
  apply until_nul_spec; [|done|apply aget_upd_eq; lia]. transitivity (text_at buf 0 (alen t)); [|done].
  apply text_at_ext; [lia|lia|apply alen_upd|lia|]. intros i Hi. apply aget_upd_ne; lia.
Qed.

Lemma plain_string_spec m buf a v b upper work : wf m -> arb m a v -> valid m work cap -> disjoint work cap a (cap + 1) ->
  alen buf = bit_length v + 3 -> plain_string Bits m buf (bit_length v + 3) a b upper work = Some (text_of b upper v).
Proof.
  intros Hw Ha Vw Dw El. unfold plain_string. pose proof (arb_bound _ _ _ _ Ha) as [Hv0 _]. pose proof (bit_length_pow v Hv0) as [_ HL].
  destruct (to_chars_spec Bits HBits m buf 0 (bit_length v + 3 - 1) a v b upper work) as ([[m1 buf1] len] & -> & _ & R); [done..|lia|lia|lia|].
  cbn [mbind option_bind]. unfold text_of. rewrite (proj2 (Z.ltb_ge _ _)), Bool.orb_false_r in R by lia.
  destruct (bad_base b) eqn:Eb; destruct R as [-> R].
  - subst buf1. change 0 with (alen ([] : list Z)) at 1. apply (terminated_spec buf []); [done|constructor|]. rewrite El. change (alen []) with 0. lia.
  - apply bad_base_spec in Eb as Hb. destruct R as (L & T & F). apply terminated_spec; [done|apply (padded_nonzero b upper Hb)|].
    rewrite L, El. unfold numeral. rewrite padded_alen. pose proof (ndigits_bits b Hb v Hv0). lia.
Qed.

Lemma leading_zeros_spec buf width b upper v : 2 <= b <= 36 -> 0 < v < b ^ width -> 0 <= width <= alen buf ->
  text_at buf 0 width = wide b upper width v ->
  returns (leading_zeros buf width) (fun lead => 0 <= lead < width /\ text_at buf lead (width - lead) = numeral b upper v).
Proof.
  intros Hb Hv Hwd E. set (k := ndigits b v). pose proof (ndigits_least b Hb (Z.to_nat width) v) as Hk. rewrite Z2Nat.id in Hk by lia.
  specialize (Hk ltac:(lia)). fold k in Hk. destruct (ndigits_spec b Hb v ltac:(lia)) as (Hvk & Hex & _). fold k in Hvk.
  destruct Hex as (j & Ej & _); [lia|]. fold k in Ej.
  pose proof (numeral_digits b upper Hb v ltac:(lia)) as En. fold k in En.
  assert (wide b upper width v = replicate (Z.to_nat (width - Z.of_nat k)) (ch "0") ++ numeral b upper v) as Ew.
  { rewrite En. unfold wide. replace (Z.to_nat width) with (Z.to_nat (width - Z.of_nat k) + k)%nat by lia. apply (padded_zeros b upper Hb). lia. }
  assert (forall i, 0 <= i < width -> buf.[i] = (wide b upper width v).[i]) as Eget by (intros i Hi; by rewrite <- E, text_at_get by lia).
  set (z := width - Z.of_nat k) in *.
  assert (forall i, 0 <= i < z -> buf.[i] = Some (ch "0")) as Ez.
  { intros i Hi. rewrite Eget, Ew by lia. unfold aget. rewrite decide_True, lookup_app_l by (rewrite ?length_replicate; lia).
    apply lookup_replicate_2. lia. }
  destruct (numeral_head b upper Hb v ltac:(lia)) as (c & l & Ec & Hc).
  assert (buf.[z] = Some c) as Egz.
  { rewrite Eget, Ew by lia. unfold aget. rewrite decide_True, lookup_app_r by (rewrite ?length_replicate; lia).
    by rewrite length_replicate, Nat.sub_diag, Ec. }
  assert (text_at buf z (width - z) = numeral b upper v) as Etext.
  { pose proof (text_at_split buf 0 z (width - z) ltac:(lia) ltac:(lia) ltac:(lia)) as Es. replace (z + (width - z)) with width in Es by lia.
    rewrite E, Ew in Es. rewrite Z.add_0_l in Es. symmetry. eapply app_inj_1; [|exact Es].
    rewrite length_replicate. pose proof (text_at_alen buf 0 z ltac:(lia) ltac:(lia) ltac:(lia)). unfold alen in *. lia. }
  apply (returns_while _ _ _ (fun lead => 0 <= lead <= z) (fun lead => width - lead)); [lia|lia|].
  intros lead Hlead. destruct (Z.ltb_spec (lead + 1) width) as [Hlt|Hge].
  - destruct (decide (lead = z)) as [->|Hne].
    + rewrite Egz. cbn [mbind option_bind]. rewrite (proj2 (Z.eqb_neq c (ch "0"))) by done. apply returns_ret. split; [lia|done].
    + rewrite Ez by lia. cbn [mbind option_bind]. rewrite Z.eqb_refl. apply returns_ret. lia.
  - apply returns_ret. assert (lead = z) as -> by lia. split; [lia|done].
Qed.
(** The tower stays exact below the square root of 2^Bits. *)
Lemma print_tower_spec Solver w m a v b per : Solver <> solver.nussbaumer -> wf m -> laid_out Bits w m -> outside Bits w m a -> arb m a v ->
  2 <= b <= 36 -> (1 <= per)%nat -> Z.of_nat per < limb_bits -> is_limb (b ^ Z.of_nat per) -> base <= M -> v * v < M ->
  returns (build_tower Bits Solver m (ws_tower w) (ws_tmp w) (ws_sc w) (b ^ Z.of_nat per) (Z.of_nat per)
      (fun m _ top => less_equal Bits m (tower_at Bits (ws_tower w) top) a)) (fun '(m', digits, top) =>
    touches (tower_cells Bits w) m m' /\ tower_ok Bits w b per m' digits top /\ b ^ places per top < M /\ v < b ^ places per top /\
    places per top < 2 ^ 31).
Proof.
  intros HS Hw Hlo [Vo Ho] Ha Hb Hp1 Hpw Hbig HM Hsq. pose proof base_ge as Hbase. pose proof (arb_bound _ _ _ _ Ha) as [Hv0 _].
  pose proof (cap_facts Bits HBits) as [Hc0 _]. pose proof (mul_scratch_nonneg Bits HBits). pose proof Hlo as [].
  assert (forall i, 0 <= i -> b ^ places per i < M -> places per i < 2 ^ 31) as Hsmall.
  { intros i Hi Hlt. pose proof (places_pos per i Hp1 Hi). enough (places per i < Bits) by lia.
    apply (Z.pow_lt_mono_r_iff 2); [lia|lia|]. eapply Z.le_lt_trans; [|exact Hlt]. apply Z.pow_le_mono_l. lia. }
  assert (forall m' digits top, touches (tower_cells Bits w) m m' -> tower_ok Bits w b per m' digits top -> b ^ places per top < M ->
    less_equal Bits m' (tower_at Bits (ws_tower w) top) a = Some (Z.leb (b ^ places per top) v)) as Hcmp.
  { intros m' digits top T Hok HJ. pose proof (tw_top _ _ _ _ _ _ _ Hok) as Ht.
    pose proof (tw_entry _ _ _ _ _ _ _ Hok top ltac:(lia)) as Ae. pose proof (Z.pow_nonneg b (places per top)). rewrite Z.mod_small in Ae by lia.
    unfold less_equal. rewrite (arb_cmp_spec Bits HBits m' _ _ _ v (touches_wf _ _ _ T) Ae).
    - cbn [mbind option_bind]. f_equal. unfold sign_of, Z.leb. by destruct (Z.compare _ v).
    - eapply (arb_frame Bits HBits); [exact Ha|exact T|]. unfold tower_cells, vec, max_tower in *. lia. }
  eapply returns_mono.
  { apply (build_tower_spec Bits Solver HBits HS w b per Hpw Hbig m _ (fun top => 0 <= top -> b ^ places per top < M)); [done|done|..].
    - intros _. rewrite places_0. destruct Hbig. lia.
    - intros m' digits top T Hok HJ Htop. pose proof (tw_top _ _ _ _ _ _ _ Hok) as Ht. specialize (HJ ltac:(lia)).
      rewrite (Hcmp _ _ _ T Hok HJ). eexists. split; [done|]. intros Hle%Z.leb_le. pose proof (places_pos per top Hp1 ltac:(lia)).
      intros _. rewrite places_succ by lia. replace (2 * places per top) with (places per top + places per top) by lia. rewrite Z.pow_add_r by lia.
      pose proof (Z.pow_pos_nonneg b (places per top) ltac:(lia) ltac:(lia)). nia. }
  intros [[m1 digits] top] (T & Hok & HJ & Hend). pose proof (tw_top _ _ _ _ _ _ _ Hok) as Ht. specialize (HJ ltac:(lia)).
  specialize (Hsmall top ltac:(lia) HJ). split_and!; try done. rewrite (Hcmp _ _ _ T Hok HJ) in Hend.
  destruct (decide (top + 1 < max_tower)) as [Hlt|Hge]; [specialize (Hend Hlt); injection Hend as Hend%Z.leb_gt; done|].
  unfold max_tower in *. assert (top = 63) as -> by lia. unfold places in Hsmall. change (2 ^ 31) with 2147483648 in *.
  change (2 ^ 63) with 9223372036854775808 in *. lia.
Qed.
(** The number in the buffer at its width, without its leading zeros. *)
Lemma strip_spec buf width b upper v : 2 <= b <= 36 -> 0 < v < b ^ width -> 0 <= width < alen buf -> text_at buf 0 width = wide b upper width v ->
  (lead ← leading_zeros buf width;
   l ← for_ 0 (width - lead) (fun i l => x ← l.[i + lead]; aset l i x) buf;
   l ← aset l (width - lead) 0;
   Some (inl (until_nul l))) = Some (inl (B := mem) (numeral b upper v)).
Proof.
  intros Hb Hv Hwd E. destruct (leading_zeros_spec buf width b upper v) as (lead & -> & Hl & Et); [done|done|lia|done|].
  cbn [mbind option_bind].
  destruct (move_front_spec (fun i l => x ← l.[i + lead]; aset l i x) buf 0 lead (width - lead)) as (buf1 & -> & L1 & T1 & _);
    [intros; by rewrite Z.add_0_l, (Z.add_comm lead)|lia|lia|lia|]. cbn [mbind option_bind].
  assert (alen (numeral b upper v) = width - lead) as El by (rewrite <- Et; apply text_at_alen; lia).
  pose proof (terminated_spec buf1 (numeral b upper v)) as Ht. rewrite El, L1, T1 in Ht.
  specialize (Ht Et (padded_nonzero b upper Hb _ v) ltac:(lia)). destruct (aset buf1 (width - lead) 0); [|done].
  cbn [mbind option_bind] in *. congruence.
Qed.

Lemma to_string_spec Solver new_buffer w m a v b upper : Solver <> solver.nussbaumer -> (forall n, 0 <= n -> alen (new_buffer n) = n) ->
  wf m -> laid_out Bits w m -> outside Bits w m a -> arb m a v ->
  v < base ^ (get_str_dc - 1) \/ is_pow2_base b = true \/ v * v < M ->
  to_string Bits Solver new_buffer m a b upper (ws_tower w) (ws_tmp w) (ws_work w) (ws_st w) (ws_sc w) = Some (inl (text_of b upper v)).
Proof.
  intros HS Hnew Hw Hlo Hout Ha Hcond. unfold to_string. rewrite (arb_bit_length_spec Bits HBits m a v Hw Ha), (arb_size Bits HBits _ _ _ Ha).
  cbn [mbind option_bind]. cbv zeta. set (buf := new_buffer (bit_length v + 3)). pose proof (arb_bound _ _ _ _ Ha) as Bv.
  pose proof (bit_length_pow v ltac:(lia)) as [HL HL0]. assert (alen buf = bit_length v + 3) as Lb by (apply Hnew; lia).
  pose proof (cap_facts Bits HBits) as [Hc0 _]. pose proof (mul_scratch_nonneg Bits HBits) as Hms. pose proof Hlo as []. destruct Hout as [Vo Ho].
  unfold max_tower in *.
  assert (forall m', touches (tower_cells Bits w) m m' -> plain_string Bits m' buf (bit_length v + 3) a b upper (ws_work w) = Some (text_of b upper v)) as Hplain.
  { intros m' T. pose proof (touches_alen _ _ _ T). apply plain_string_spec; [wf_mem| |unfold valid; lia|unfold disjoint; lia|done].
    eapply (arb_frame Bits HBits); [exact Ha|exact T|]. unfold tower_cells, vec, max_tower. lia. }
  set (n := cell m (a + cap)) in *. destruct (orb _ (bad_base b)) eqn:Ep; [by rewrite Hplain by (by apply touches_refl)|].
  apply orb_false_elim in Ep as [[En%Z.ltb_ge Ep]%orb_false_elim Eb]. apply bad_base_spec in Eb as Hb. unfold text_of in *. rewrite Eb in *.
  assert (128 <= get_str_dc) as Hdc by (unfold get_str_dc, threshold.by_width; destruct limb_bits_ok as [-> | ->]; done).
  pose proof (arb_lower Bits HBits m a v Hw Ha ltac:(lia)) as Hlow. fold n in Hlow. pose proof base_ge as Hbase.
  assert (base <= v) as Hv1.
  { etransitivity; [|exact Hlow]. rewrite <- (Z.pow_1_r base) at 1. apply Z.pow_le_mono_r; lia. }
  assert (v * v < M) as Hsq.
  { destruct Hcond as [Hc|[Hc|Hc]]; [|congruence|done]. pose proof (Z.pow_le_mono_r base (get_str_dc - 1) (n - 1)). lia. }
  destruct (largest_power_spec b Hb) as (per & -> & Hp1 & Hpw & Hbig & _). cbn [mbind option_bind].
  destruct (print_tower_spec Solver w m a v b per) as ([[m1 digits] top] & -> & T1 & Hok & Hexact & Hfits & Hsmall); try done; try lia.
  cbn [mbind option_bind]. pose proof (tw_top _ _ _ _ _ _ _ Hok) as Ht.
  assert (places per top < base) as Hsm by (change (2 ^ 31) with 2147483648 in *; change (2 ^ 32) with 4294967296 in *; lia).
  rewrite (exact_places Bits w b per _ _ _ top Hok Hsm) by lia. cbn [mbind option_bind].
  pose proof (places_pos per top Hp1 ltac:(lia)) as Hpp. set (width := places per top) in *.
  assert (usize (width + 1) = width + 1) as ->.
  { unfold usize. apply wrap_id. unfold in_unsigned. unfold base in Hbase. change (2 ^ 31) with 2147483648 in *. change (2 ^ 32) with 4294967296 in *. lia. }
  destruct (Z.ltb_spec (bit_length v + 3) (width + 1)) as [Hover|Hin]; [by rewrite Hplain|].
  pose proof (touches_alen _ _ _ T1) as L1. unfold max_tower in *.
  destruct (emit_padded_spec w b upper per Hb Hp1 (Z.to_nat top) m1 buf digits top 0 width a v (ws_st w)) as ([[m2 buf2]|] & -> & Hf);
    try done; try (rewrite ?Z2Nat.id; lia).
  { exact (touches_wf _ _ _ T1). }
  { by apply (laid_out_mono Bits w m). }
  { eapply (arb_frame Bits HBits); [exact Ha|exact T1|]. unfold tower_cells, vec, max_tower. lia. }
  { split; [unfold valid in *; lia|lia]. }
  { rewrite Z2Nat.id by lia. nia. }
  destruct Hf as (_ & L2 & T2 & _). rewrite wide_alen in T2 by lia. cbn [mbind option_bind]. apply strip_spec; [done|lia|lia|done].
Qed.
(** ** A width of zero *)

Lemma emit_at_start {A} buf c (f : list Z * Z -> option A) : (r ← emit buf 0 c; f r) = None.
Proof. unfold emit, aset. by rewrite decide_False by lia. Qed.

Lemma first_digit_at_start {A} buf v b upper (f : list Z * Z -> option A) : 2 <= b <= 36 ->
  (c ← (alphabet upper).[v mod b]; r ← emit buf 0 c; f r) = None.
Proof. intros Hb. rewrite digit_char_get by (by apply radix_digit). apply emit_at_start. Qed.

(** With no room before its end, the first digit goes before the buffer. *)
Lemma emit_digits_no_room m buf work n b upper : wf m -> valid m work n -> 0 < n -> 2 <= b <= 36 -> is_pow2_base b = false ->
  emit_digits m buf 0 work n b upper = None.
Proof.
  intros Hw Hv Hn Hb Hp. unfold emit_digits. rewrite Hp. fold (alphabet upper).
  destruct (largest_power_spec b Hb) as (per & -> & Hp1 & _ & Hbig & _). cbn [mbind option_bind while_].
  rewrite (proj2 (Z.ltb_lt 0 n)) by done. pose proof (radix_pow_pos b Hb per).
  destruct (divrem_1_spec m work n (b ^ Z.of_nat per) Hw Hv ltac:(lia) Hbig ltac:(lia) work Hv ltac:(unfold bwd; lia)) as ([m1 rem] & -> & M1 & _).
  cbn [mbind option_bind]. pose proof (modifies_alen _ _ _ _ M1).
  destruct (normalize_spec m1 work n) as (k & -> & _); [unfold valid in *; lia|]. cbn [mbind option_bind].
  assert ((if Z.eqb k 0 then emit_last buf 0 rem b (alphabet upper) else emit_chunk buf 0 rem b (Z.of_nat per) (alphabet upper)) = None) as ->; [|done].
  destruct (Z.eqb k 0).
  - unfold emit_last. cbn [while_]. by rewrite first_digit_at_start.
  - unfold emit_chunk, for_. replace (Z.to_nat (Z.of_nat per - 0)) with (S (per - 1)) by lia. cbn [for_up]. by rewrite first_digit_at_start.
Qed.

Lemma emit_padded_no_room level : forall w b per upper m buf digits top x v, wf m -> laid_out Bits w m -> outside Bits w m x ->
  tower_ok Bits w b per m digits top -> Z.of_nat level <= top -> arb m x v -> get_str_dc <= cell m (x + cap) -> 0 < cell m (x + cap) ->
  2 <= b <= 36 -> is_pow2_base b = false ->
  emit_padded Bits level m buf 0 0 x b upper (ws_tower w) digits (ws_work w) (ws_st w) (ws_sc w) = None.
Proof.
  induction level as [|level IH]; intros w b per upper m buf digits top x v Hw Hlo [Vx Hx] Hok Hl Ha Hn Hpos Hb Hp; cbn [emit_padded];
    rewrite (arb_size Bits HBits _ _ _ Ha); cbn [mbind option_bind].
  - pose proof (cap_facts Bits HBits) as [Hc0 _]. pose proof (mul_scratch_nonneg Bits HBits). pose proof Hlo as []. unfold max_tower in *.
    destruct (copy_limbs_spec m (ws_work w) x v Hw Ha) as (m1 & -> & T1 & _ & _ & V1 & _); [unfold valid; lia|unfold disjoint; lia|].
    cbn [mbind option_bind]. unfold emit_padded_basecase. cbv zeta. rewrite emit_digits_no_room; [done|wf_mem|done|done|done|done].
  - rewrite (proj2 (Z.ltb_ge _ _)) by done. rewrite (tw_digits _ _ _ _ _ _ _ Hok) by lia. cbn [mbind option_bind].
    assert (0 <= limb_bits) as Hlb by (pose proof limb_bits_pos; lia).
    pose proof (wrap_range limb_bits (places per (Z.of_nat (S level))) Hlb) as Hr.
    rewrite (proj2 (Z.leb_le 0 _)) by apply Hr. eapply IH; try done; lia.
Qed.

(** With room before the buffer the digits are stored there: the width 0 goes down to the last
    level, and the digits end where the buffer begins. *)
Lemma emit_padded_before level : forall w b per upper m pre post digits top x v, wf m -> laid_out Bits w m -> outside Bits w m x ->
  tower_ok Bits w b per m digits top -> Z.of_nat level <= top -> arb m x v -> get_str_dc <= cell m (x + cap) -> 0 < v ->
  2 <= b <= 36 -> alen (numeral b upper v) <= alen pre ->
  returns (emit_padded Bits level m (pre ++ post) (alen pre) 0 x b upper (ws_tower w) digits (ws_work w) (ws_st w) (ws_sc w)) (fun r =>
    match r with
    | inl (_, buf') => holds_text (pre ++ post) (alen pre - alen (numeral b upper v)) (alen (numeral b upper v)) (numeral b upper v) buf'
    | inr _ => False
    end).
Proof.
  induction level as [|level IH]; intros w b per upper m pre post digits top x v Hw Hlo [Vx Hx] Hok Hl Ha Hn Hpos Hb Hfit; cbn [emit_padded];
    rewrite (arb_size Bits HBits _ _ _ Ha); cbn [mbind option_bind].
  - pose proof (cap_facts Bits HBits) as [Hc0 _]. pose proof (mul_scratch_nonneg Bits HBits). pose proof Hlo as []. unfold max_tower in *.
    destruct (copy_limbs_spec m (ws_work w) x v Hw Ha) as (m1 & -> & T1 & E1 & N1 & V1 & _); [unfold valid; lia|unfold disjoint; lia|].
    cbn [mbind option_bind]. unfold emit_padded_basecase. cbv zeta. rewrite Z.add_0_r.
    assert (1 <= ndigits b v)%nat as Hk by (destruct (ndigits b v) eqn:Ek; [|lia]; pose proof (ndigits_spec b Hb v ltac:(lia)) as Hs; rewrite Ek in Hs; cbn in Hs; lia).
    assert (numeral b upper v = padded b upper (ndigits b v) v) as Et by (unfold numeral; by rewrite Nat.max_r by lia).
    assert (alen (padded b upper (ndigits b v) v) = Z.of_nat (ndigits b v)) as Ek by (by rewrite padded_alen). rewrite Et, Ek in *.
    destruct (emit_digits_spec b upper Hb m1 (ws_work w) (cell m (x + cap)) pre post ltac:(wf_mem) V1 N1) as ([[m2 buf2] first] & -> & T2 & -> & ->);
      [by rewrite E1|]. rewrite E1. cbn [mbind option_bind]. unfold for_. replace (Z.to_nat _) with 0%nat by lia. cbn [for_up mbind option_bind].
    apply returns_ret. unfold holds_text. rewrite Ek, printed_alen by lia. unfold alen at 3. rewrite length_app. split_and!.
    + unfold alen. lia.
    + by apply printed_text.
    + intros i Hi. apply printed_other; [done|lia].
  - rewrite (proj2 (Z.ltb_ge _ _)) by done. rewrite (tw_digits _ _ _ _ _ _ _ Hok) by lia. cbn [mbind option_bind].
    assert (0 <= limb_bits) as Hlb by (pose proof limb_bits_pos; lia).
    pose proof (wrap_range limb_bits (places per (Z.of_nat (S level))) Hlb) as Hr.
    rewrite (proj2 (Z.leb_le 0 _)) by apply Hr. eapply IH; try done; lia.
Qed.

(** The largest value is above every entry of the wrapped tower: the loop runs to the end of the
    array, and the number of places in its last cell is 0. *)
Lemma largest_tower Solver w m a b : Solver <> solver.nussbaumer -> wf m -> laid_out Bits w m -> outside Bits w m a ->
  arb m a (M - 1) -> 2 <= b <= 36 -> (forall per, largest_power b = Some (b ^ per, per) -> usize (per * 2 ^ 63) = 0) ->
  exists (per : nat) m1 digits, largest_power b = Some (b ^ Z.of_nat per, Z.of_nat per) /\
    build_tower Bits Solver m (ws_tower w) (ws_tmp w) (ws_sc w) (b ^ Z.of_nat per) (Z.of_nat per)
      (fun m _ top => less_equal Bits m (tower_at Bits (ws_tower w) top) a) = Some (m1, digits, 63) /\
    digits.[63] = Some 0 /\ wf m1 /\ laid_out Bits w m1 /\ outside Bits w m1 a /\ tower_ok Bits w b per m1 digits 63 /\
    arb m1 a (M - 1) /\ cell m1 (a + cap) = cell m (a + cap).
Proof.
  intros HS Hw Hlo Hout Ha Hb Hper. destruct (largest_power_spec b Hb) as (per & Elp & Hp1 & Hpw & Hlimb & _). exists per. specialize (Hper (Z.of_nat per) Elp).
  assert (forall m' digits top, touches (tower_cells Bits w) m m' -> tower_ok Bits w b per m' digits top ->
    less_equal Bits m' (tower_at Bits (ws_tower w) top) a = Some true /\ arb m' a (M - 1) /\ cell m' (a + cap) = cell m (a + cap)) as Hcmp.
  { intros m' digits top T Hok. pose proof (tw_top _ _ _ _ _ _ _ Hok) as Ht. pose proof (tw_entry _ _ _ _ _ _ _ Hok top ltac:(lia)) as Ae.
    pose proof (cap_facts Bits HBits) as [Hc0 _]. pose proof (mul_scratch_nonneg Bits HBits). destruct Hout as [Va Hout]. destruct Hlo.
    assert (forall k, obj a k -> ~ tower_cells Bits w k) as Hapart by (unfold tower_cells, vec, max_tower in *; lia).
    assert (arb m' a (M - 1)) as Aa by (eapply (arb_frame Bits HBits); [exact Ha|exact T|done]). split_and!; [|done|].
    - unfold less_equal. rewrite (arb_cmp_spec Bits HBits m' _ _ _ _ (touches_wf _ _ _ T) Ae Aa). cbn [mbind option_bind]. f_equal.
      pose proof (arb_bound _ _ _ _ Ae). destruct (Z.compare_spec (b ^ places per top mod M) (M - 1)); cbn [sign_of]; [done|done|lia].
    - apply (touches_cell _ _ _ _ T), Hapart. unfold vec. lia. }
  destruct (build_tower_spec Bits Solver HBits HS w b per Hpw Hlimb m (fun m _ top => less_equal Bits m (tower_at Bits (ws_tower w) top) a) (fun _ => True))
    as ([[m1 digits] top] & Eb & T1 & Hok & _ & Hend); [done|done|done| |].
  { intros m' digits top T Hok _ _. destruct (Hcmp m' digits top T Hok) as [-> _]. by eexists. }
  pose proof (tw_top _ _ _ _ _ _ _ Hok) as Ht. destruct (Hcmp _ _ _ T1 Hok) as (Ele & A1 & Ec). rewrite Ele in Hend.
  assert (top = 63) as -> by (unfold max_tower in *; destruct (Z.lt_ge_cases (top + 1) 64) as [Hlt|]; [by specialize (Hend Hlt)|lia]).
  exists m1, digits. pose proof (touches_alen _ _ _ T1). split_and!; [done|done| |wf_mem|by apply (laid_out_mono Bits w m)| |done|done|done].
  - rewrite (tw_digits _ _ _ _ _ _ _ Hok) by lia. unfold places. by rewrite Hper.
  - destruct Hout as [Va Hout]. split; [unfold valid in *; lia|done].
Qed.

(** A value that large has many limbs. *)
Lemma largest_limbs m a : wf m -> arb m a (M - 1) -> base ^ (get_str_dc - 1) < M -> get_str_dc <= cell m (a + cap).
Proof.
  intros Hw Ha Hbig. pose proof (arb_count _ _ _ _ Ha) as Hc. pose proof (num_range m a (cell m (a + cap)) Hw ltac:(lia)) as Hr. rewrite (arb_value _ _ _ _ Ha) in Hr.
  destruct (Z.le_gt_cases get_str_dc (cell m (a + cap))) as [|Hlt]; [done|]. pose proof base_ge.
  pose proof (Z.pow_le_mono_r base (cell m (a + cap)) (get_str_dc - 1)). lia.
Qed.

Lemma to_string_no_room Solver new_buffer w m a b upper : Solver <> solver.nussbaumer -> wf m -> laid_out Bits w m -> outside Bits w m a ->
  arb m a (M - 1) -> base ^ (get_str_dc - 1) < M -> 2 <= b <= 36 -> is_pow2_base b = false ->
  (forall per, largest_power b = Some (b ^ per, per) -> usize (per * 2 ^ 63) = 0) ->
  to_string Bits Solver new_buffer m a b upper (ws_tower w) (ws_tmp w) (ws_work w) (ws_st w) (ws_sc w) = None.
Proof.
  intros HS Hw Hlo Hout Ha Hbig Hb Hp Hper. unfold to_string. rewrite (arb_bit_length_spec Bits HBits m a _ Hw Ha), (arb_size Bits HBits _ _ _ Ha).
  cbn [mbind option_bind]. cbv zeta. set (buf := new_buffer _). pose proof (arb_bound _ _ _ _ Ha) as Bv. pose proof (bit_length_pow (M - 1) ltac:(lia)) as [_ HL].
  assert (128 <= get_str_dc) as Hdc by (unfold get_str_dc, threshold.by_width; destruct limb_bits_ok as [-> | ->]; done).
  pose proof (largest_limbs m a Hw Ha Hbig) as Hn.
  assert (bad_base b = false) as -> by (apply orb_false_intro; apply Z.ltb_ge; lia).
  rewrite (proj2 (Z.ltb_ge _ get_str_dc)), Hp by done. cbn [orb].
  destruct (largest_tower Solver w m a b HS Hw Hlo Hout Ha Hb Hper) as (per & m1 & digits & -> & E1 & E0 & W1 & L1 & O1 & K1 & A1 & Ec).
  cbn [mbind option_bind]. rewrite E1. cbn [mbind option_bind]. rewrite E0. cbn [mbind option_bind].
  assert (usize (0 + 1) = 1) as -> by (apply wrap_id; unfold in_unsigned; pose proof base_ge as Hbs; unfold base in Hbs; lia).
  rewrite (proj2 (Z.ltb_ge _ _)) by lia.
  by rewrite (emit_padded_no_room (Z.to_nat 63) w b per upper m1 buf digits 63 a (M - 1)) by (done || lia || (rewrite ?Ec; lia)).
Qed.
End format.
