(* ===== verification/ArbConvertTheorems.v ===== *)
(** What the radix conversions of [arbuint<Bits>] promise: numbers print as their shortest
    numeral, texts are read as the number they stand for or rejected, what was printed reads
    back; and where [to_string] breaks its promise, because its tower of powers wraps. *)
From Stdlib Require Import Ascii String.
From stdpp Require Import base numbers list option.
From Stdlib Require Import ZArith Lia.
From S2P Require Import Prelude Arrays Limb Mpn MpnValue MpnArith MpnBits MpnFrame MpnDiv MpnTheorems Thresholds MpnTiers MpnDc Arbuint ArbuintProof ArbuintDiv ArbuintConv ArbuintTheorems ArbConvert Radix ArbPrint ArbTower ArbScan ArbFormat.

Local Open Scope Z_scope.

Section theorems.
Context `{W : LimbWidth} `{B : BarrettTier} (Bits : Z) (Solver : solver.t).
Abbreviation cap := (@cap_limbs W Bits).
Abbreviation obj p := (vec p (cap + 1)).
Abbreviation arb := (arb Bits).

(** The assumptions of a conversion with the working memory [w]. *)
Record conversion_ok (w : workspace) (m : mem) : Prop := {
  cv_bits : 1 <= Bits <= 2 ^ 31;
  cv_solver : Solver <> solver.nussbaumer;
  cv_wf : wf m;
  cv_laid_out : laid_out Bits w m
}.

Lemma work_limbs w m a : conversion_ok w m -> outside Bits w m a -> valid m (ws_work w) cap /\ disjoint (ws_work w) cap a (cap + 1).
Proof.
  intros [Hb _ _ []] [Va Ha]. pose proof (cap_facts Bits Hb). pose proof (mul_scratch_nonneg Bits Hb). unfold valid, disjoint, max_tower in *. lia.
Qed.

Lemma conversion_step w m m' P : conversion_ok w m -> touches P m m' -> conversion_ok w m'.
Proof. intros [] T. constructor; try done; [exact (touches_wf _ _ _ T)|by eapply laid_out_mono, touches_alen]. Qed.

Lemma outside_step w m m' P p : outside Bits w m p -> touches P m m' -> outside Bits w m' p.
Proof. intros [] T. pose proof (touches_alen _ _ _ T). split; [unfold valid in *; lia|done]. Qed.

Lemma numeral_room v b upper : 1 <= Bits <= 2 ^ 31 -> 2 <= b <= 36 -> 0 <= v < 2 ^ Bits ->
  alen (numeral b upper v) <= Z.max 1 (bit_length v) /\ bit_length v <= Bits /\ 2 * alen (numeral b upper v) <= base.
Proof.
  intros HB Hb Hv. pose proof (bit_length_le v Bits Hv ltac:(lia)). pose proof (bit_length_pow v ltac:(lia)).
  pose proof (ndigits_bits b Hb v ltac:(lia)). pose proof base_ge. unfold numeral. rewrite padded_alen.
  change (2 ^ 31) with 2147483648 in *. change (2 ^ 32) with 4294967296 in *. lia.
Qed.

(** Printing with enough room. *)
Lemma prints w m a v b upper buf b0 room : conversion_ok w m -> outside Bits w m a -> arb m a v -> 2 <= b <= 36 ->
  0 <= b0 -> b0 + room <= alen buf -> 1 <= room -> bit_length v <= room ->
  returns (to_chars Bits m buf b0 room a b upper (ws_work w)) (fun '(m', buf', len) => touches (vec (ws_work w) cap) m m' /\
    alen buf' = alen buf /\ len = alen (numeral b upper v) /\ text_at buf' b0 len = numeral b upper v).
Proof.
  intros Hok Hout Ha Hb H0 Hfit Hr Hl. pose proof Hok as [HB HS Hw Hlo]. destruct (work_limbs w m a Hok Hout) as [Vw Dw].
  eapply returns_mono; [apply (to_chars_spec Bits HB m buf b0 room a v b upper (ws_work w)); try done; lia|]. intros [[m1 buf1] len] [T1 R].
  assert (bad_base b = false) as Eb by (apply orb_false_intro; apply Z.ltb_ge; lia).
  rewrite Eb, (proj2 (Z.ltb_ge _ _)) in R by lia. cbn [orb] in R. destruct R as (-> & L & T & _). by split_and!.
Qed.

(** C26: A number prints as its shortest numeral in the base, in digits and the letters of
    the case asked for, and is left as it was.  [to_chars] needs a character for each bit:
    with less room, or a base outside 2 .. 36, it returns 0 and writes nothing; otherwise it
    returns the length, and writes nothing outside its room.  [to_string] gives the same
    text, empty for a base outside 2 .. 36, when the base is a power of two, the number is
    short or its square is below 2^Bits. *)
Theorem formats_exact new_buffer w m a v b upper buf b0 room : conversion_ok w m -> outside Bits w m a -> arb m a v ->
  (forall n, 0 <= n -> alen (new_buffer n) = n) -> 0 <= b0 -> 0 <= room -> b0 + room <= alen buf ->
  returns (to_chars Bits m buf b0 room a b upper (ws_work w)) (fun '(m', buf', len) => arb m' a v /\
    if orb (bad_base b) (Z.ltb room (Z.max 1 (bit_length v))) then len = 0 /\ buf' = buf
    else len = alen (numeral b upper v) /\ text_at buf' b0 len = numeral b upper v /\ alen buf' = alen buf /\
      forall i, ~ (b0 <= i < b0 + room) -> buf'.[i] = buf.[i]) /\
  (v < base ^ (get_str_dc - 1) \/ is_pow2_base b = true \/ v * v < 2 ^ Bits ->
   to_string Bits Solver new_buffer m a b upper (ws_tower w) (ws_tmp w) (ws_work w) (ws_st w) (ws_sc w) = Some (inl (text_of b upper v))).
Proof.
  intros Hok Hout Ha Hnew H0 Hr Hfit. pose proof Hok as [HB HS Hw Hlo]. destruct (work_limbs w m a Hok Hout) as [Vw Dw]. split.
  - eapply returns_mono; [by apply (to_chars_spec Bits HB m buf b0 room a v b upper (ws_work w))|]. intros [[m1 buf1] len] [T1 R]. split.
    + eapply (arb_frame Bits HB); [exact Ha|exact T1|unfold disjoint, vec in *; lia].
    + destruct (orb _ _); [done|]. destruct R as (-> & L & T & F). done.
  - intros Hc. by apply (to_string_spec Bits HB).
Qed.

(** C27: [from_chars] accepts a text exactly when the base is between 2 and 36, the text is
    not empty and all of it is digits of the base, in either case of letters; the object is
    then the number the text stands for, modulo 2^Bits, for texts of any length: in one pass
    or by halves.  A base out of range or an empty text leaves the memory as it was; in every
    case the object stays a valid one, and nothing but it and the working memory is written. *)
Theorem scans_exact w m out text p n b : conversion_ok w m -> outside Bits w m out -> (exists x, arb m out x) ->
  0 <= p -> 0 <= n -> p + n <= alen text -> 2 * n <= base ->
  returns (from_chars Bits Solver m out text p n b (ws_tower w) (ws_tmp w) (ws_st w) (ws_sc w)) (fun '(m', ok) =>
    ok = andb (negb (orb (bad_base b) (Z.eqb n 0))) (is_numeral b (text_at text p n)) /\
    (ok = true -> arb m' out (text_value b (text_at text p n) mod 2 ^ Bits)) /\ (exists x, arb m' out x) /\
    (orb (bad_base b) (Z.eqb n 0) = true -> m' = m) /\
    forall k, ~ obj out k -> ~ (ws_sc w <= k < ws_end w) -> m'.[k] = m.[k]).
Proof.
  intros [HB HS Hw Hlo] Hout Hx Hp Hn Hfit Hhalf.
  eapply returns_mono; [by apply (from_chars_spec Bits HB Solver w m out text p n b)|]. intros [m' ok] R.
  destruct (orb _ _); cbn [negb andb]; [by destruct R as [-> ->]; split_and!|]. destruct R as (T & E & Hx' & Hv). split_and!; try done.
  destruct T as (_ & _ & F). intros k N1 N2. apply F. unfold convert_cells. tauto.
Qed.

(** C28: What was printed reads back: [from_chars], in the same base, of the text [to_chars]
    wrote succeeds and gives the number, whatever the case of the letters; and a text that is
    read and printed again comes out as the shortest numeral of its value modulo 2^Bits. *)
Theorem chars_roundtrip w m a out v b upper buf b0 room : conversion_ok w m -> outside Bits w m a -> outside Bits w m out ->
  out = a \/ disjoint out (cap + 1) a (cap + 1) -> arb m a v -> (exists x, arb m out x) -> 2 <= b <= 36 ->
  0 <= b0 -> b0 + room <= alen buf ->
  (1 <= room -> bit_length v <= room ->
   returns ('(m, buf, len) ← to_chars Bits m buf b0 room a b upper (ws_work w);
      from_chars Bits Solver m out buf b0 len b (ws_tower w) (ws_tmp w) (ws_st w) (ws_sc w)) (fun '(m', ok) =>
    ok = true /\ arb m' out v /\ arb m' a v)) /\
  (forall text p n, 0 <= p -> 0 < n -> p + n <= alen text -> 2 * n <= base -> Bits <= room -> is_numeral b (text_at text p n) = true ->
   returns ('(m, ok) ← from_chars Bits Solver m out text p n b (ws_tower w) (ws_tmp w) (ws_st w) (ws_sc w);
      if (ok : bool) then to_chars Bits m buf b0 room out b upper (ws_work w) else None) (fun '(m', buf', len) =>
    text_at buf' b0 len = numeral b upper (text_value b (text_at text p n) mod 2 ^ Bits))).
Proof.
  intros Hok Ha' Ho Hal Ha Hx Hb H0 Hfit. pose proof Hok as [HB HS Hw Hlo]. pose proof (arb_bound _ _ _ _ Ha) as Bv.
  assert (bad_base b = false) as Eb by (apply orb_false_intro; apply Z.ltb_ge; lia). split.
  - intros Hr Hl. destruct (numeral_room v b upper HB Hb Bv) as (_ & _ & Hhalf). pose proof (numeral_nonempty b upper v) as Hne.
    eapply returns_bind; [by apply (prints w m a v b upper buf b0 room)|]. intros [[m1 buf1] len] (T1 & L1 & -> & E1).
    pose proof (conversion_step w m m1 _ Hok T1) as Hok1. pose proof Hok1 as [_ _ Hw1 Hlo1].
    assert (forall p x, outside Bits w m p -> arb m p x -> arb m1 p x) as Hkeep.
    { intros p x Hp Ap. destruct (work_limbs w m p Hok Hp) as [_ D]. eapply (arb_frame Bits HB); [exact Ap|exact T1|]. unfold disjoint, vec in *. lia. }
    assert (alen (numeral b upper v) <= room) as Hlen by (destruct (numeral_room v b upper HB Hb Bv); lia).
    eapply returns_mono; [apply (from_chars_spec Bits HB Solver w m1 out buf1 b0); try done; try lia;
      [by eapply outside_step|destruct Hx as [x Hx]; exists x; by apply Hkeep]|].
    intros [m2 ok]. rewrite Eb, (proj2 (Z.eqb_neq _ 0)) by lia. cbn [orb]. rewrite E1. intros (T2 & -> & _ & A2).
    rewrite (numeral_is_numeral b upper Hb), (numeral_value b upper Hb) in * by lia. specialize (A2 eq_refl). rewrite Z.mod_small in A2 by lia.
    split_and!; [done|done|]. destruct Hal as [<-|Hd]; [done|]. eapply (arb_frame Bits HB); [by apply Hkeep|exact T2|].
    destruct Ha' as [_ Ha']. unfold convert_cells, disjoint, vec in *. lia.
  - intros text p n Hp Hn Htf Hhalf Hroom Hnum.
    eapply returns_bind; [apply (from_chars_spec Bits HB Solver w m out text p n b); try done; lia|].
    intros [m1 ok]. rewrite Eb, (proj2 (Z.eqb_neq n 0)) by lia. cbn [orb]. intros (T1 & -> & _ & A1). rewrite Hnum in *. specialize (A1 eq_refl).
    destruct (numeral_room (text_value b (text_at text p n) mod 2 ^ Bits) b upper HB Hb) as (_ & Hl & _); [by apply A1|].
    eapply returns_mono; [apply (prints w m1 out _ b upper buf b0 room) with (3 := A1); try done; try lia;
      [by eapply conversion_step|by eapply outside_step]|]. intros [[m2 buf2] len] (_ & _ & _ & E). done.
Qed.
(** The bases whose chunk of a 64-bit limb has an even number of digits. *)
Definition even_chunk_bases : list Z := [3; 6; 7; 9; 11; 14; 15; 20; 21; 22; 23; 31; 33; 34; 35; 36].

Lemma places_wrap b per : limb_bits = 32 \/ b ∈ even_chunk_bases -> largest_power b = Some (b ^ per, per) -> usize (per * 2 ^ 63) = 0.
Proof.
  unfold usize, wrap, largest_power, limb_max, limb_not, to_limb, wrap. intros Hb E. destruct (decide (limb_bits = 32)) as [->|Hne].
  { replace (per * 2 ^ 63) with (per * 2 ^ 31 * 2 ^ 32) by lia. apply Z.mod_mul. lia. }
  destruct Hb as [?|Hb]; [done|]. destruct limb_bits_ok as [E64|]; [|done]. rewrite E64 in *. apply (f_equal (fmap snd)) in E. cbn [fmap option_fmap option_map snd] in E.
  repeat (apply elem_of_cons in Hb as [->|Hb]; [vm_compute in E; injection E as <-; reflexivity|]). by apply elem_of_nil in Hb.
Qed.

(** C29: The tower of [to_string] is kept modulo 2^Bits, so its entries need not grow past the
    number.  For the largest value of a type of more limbs than the threshold no entry does:
    the loop runs to the end of the array, and the number of digits wraps to 0 in every base of a
    32-bit target and in 16 bases of a 64-bit one.  [emit_padded] is then asked for the width 0 at
    the start of the buffer, and it stores the whole numeral in the cells just before: given
    memory there it succeeds and changes those cells and no other.  The buffer of [to_string] has
    none, so the call has no defined result. *)
Theorem to_string_underflow new_buffer w m a b upper : conversion_ok w m -> outside Bits w m a -> arb m a (2 ^ Bits - 1) ->
  base ^ (get_str_dc - 1) < 2 ^ Bits -> 2 <= b <= 36 -> is_pow2_base b = false -> limb_bits = 32 \/ b ∈ even_chunk_bases ->
  (exists big per m1 digits, largest_power b = Some (big, per) /\
    build_tower Bits Solver m (ws_tower w) (ws_tmp w) (ws_sc w) big per
      (fun m _ top => less_equal Bits m (tower_at Bits (ws_tower w) top) a) = Some (m1, digits, 63) /\
    digits.[63] = Some 0 /\
    let t := numeral b upper (2 ^ Bits - 1) in
    forall before buf, alen t <= alen before ->
      returns (emit_padded Bits 63 m1 (before ++ buf) (alen before) 0 a b upper (ws_tower w) digits (ws_work w) (ws_st w) (ws_sc w))
        (fun r => match r with inl (_, buf') => holds_text (before ++ buf) (alen before - alen t) (alen t) t buf' | inr _ => False end)) /\
  to_string Bits Solver new_buffer m a b upper (ws_tower w) (ws_tmp w) (ws_work w) (ws_st w) (ws_sc w) = None.
Proof.
  intros [HB HS Hw Hlo] Hout Ha Hbig Hb Hp Hc. assert (forall per, largest_power b = Some (b ^ per, per) -> usize (per * 2 ^ 63) = 0) as Hper
    by (intros per; by apply places_wrap).
  split; [|by apply (to_string_no_room Bits HB)].
  destruct (largest_tower Bits HB Solver w m a b HS Hw Hlo Hout Ha Hb Hper) as (per & m1 & digits & E & E1 & E0 & W1 & L1 & O1 & K1 & A1 & Ec).
  exists (b ^ Z.of_nat per), (Z.of_nat per), m1, digits. split_and!; [done|done|done|]. intros t before buf Hfit.
  pose proof (largest_limbs Bits HB m a Hw Ha Hbig). pose proof (Z.pow_le_mono_r 2 1 Bits ltac:(lia) ltac:(lia)).
  apply (emit_padded_before Bits HB 63 w b per upper m1 before buf digits 63 a (2 ^ Bits - 1)); try done; [lia|lia].
Qed.
End theorems.

(** ** The theorems at concrete objects *)

#[local] Existing Instance limb64.
#[local] Existing Instance example_barrett.

Ltac concrete_object := constructor; [vm_compute; intuition congruence|vm_compute; intuition congruence|right; vm_compute; discriminate|vm_compute; reflexivity|vm_compute; intuition congruence].

(** Two objects of 128 bits, 10^30 and 7, and working memory. *)
Definition text_objects : mem :=
  [10 ^ 30 mod 2 ^ 64; 10 ^ 30 / 2 ^ 64; 2; 7; 0; 1] ++ replicate 1200 5.
Definition text_workspace : workspace := workspace_at 128 6.

Lemma text_conversion_ok : conversion_ok 128 solver.automatic text_workspace text_objects.
Proof.
  constructor; [lia|done|apply wf_check_sound; vm_compute; reflexivity|]. apply workspace_laid_out; [lia|vm_compute; discriminate].
Qed.

Lemma text_outside p : 0 <= p <= 3 -> outside 128 text_workspace text_objects p.
Proof. intros Hp. split; [split; [lia|]; vm_compute (alen _); vm_compute (cap_limbs _); lia|left; vm_compute (ws_sc _); vm_compute (cap_limbs _); lia]. Qed.

Lemma formats_exact_witness :
  returns (to_chars 128 text_objects (replicate 130 0) 1 128 0 10 false (ws_work text_workspace)) (fun '(_, buf, len) =>
    text_at buf 1 len = cstr "1000000000000000000000000000000" /\ buf.[0] = Some 0) /\
  to_string 128 solver.automatic (fun n => replicate (Z.to_nat n) 0) text_objects 0 16 true (ws_tower text_workspace) (ws_tmp text_workspace)
    (ws_work text_workspace) (ws_st text_workspace) (ws_sc text_workspace) = Some (inl (cstr "C9F2C9CD04674EDEA40000000")).
Proof.
  assert (forall b upper, returns (to_chars 128 text_objects (replicate 130 0) 1 128 0 b upper (ws_work text_workspace)) (fun '(m', buf', len) =>
    arb 128 m' 0 (10 ^ 30) /\
    if orb (bad_base b) (Z.ltb 128 (Z.max 1 (bit_length (10 ^ 30)))) then len = 0 /\ buf' = replicate 130 0
    else len = alen (numeral b upper (10 ^ 30)) /\ text_at buf' 1 len = numeral b upper (10 ^ 30) /\ alen buf' = alen (replicate 130 0) /\
      forall i, ~ (1 <= i < 1 + 128) -> buf'.[i] = (replicate 130 0).[i]) /\
   (10 ^ 30 < base ^ (get_str_dc - 1) \/ is_pow2_base b = true \/ 10 ^ 30 * 10 ^ 30 < 2 ^ 128 ->
    to_string 128 solver.automatic (fun n => replicate (Z.to_nat n) 0) text_objects 0 b upper (ws_tower text_workspace) (ws_tmp text_workspace)
      (ws_work text_workspace) (ws_st text_workspace) (ws_sc text_workspace) = Some (inl (text_of b upper (10 ^ 30))))) as H.
  { intros b upper. apply (formats_exact 128 solver.automatic (fun n => replicate (Z.to_nat n) 0) text_workspace text_objects 0 (10 ^ 30) b upper (replicate 130 0) 1 128);
      [exact text_conversion_ok|apply text_outside; lia|concrete_object| |lia|lia|vm_compute; discriminate].
    intros n Hn. unfold alen. rewrite length_replicate. lia. }
  split.
  - eapply returns_mono; [apply (H 10 false)|]. intros [[m' buf'] len] [_ R]. vm_compute (orb _ _) in R. destruct R as (_ & E & _ & F).
    rewrite E, F by lia. split; vm_compute; reflexivity.
  - etransitivity; [apply (H 16 true)|vm_compute; reflexivity]. right. left. reflexivity.
Defined.


Lemma scans_exact_witness :
  returns (from_chars 128 solver.automatic text_objects 0 (cstr "+340282366920938463463374607431768211459") 1 39 10 (ws_tower text_workspace)
      (ws_tmp text_workspace) (ws_st text_workspace) (ws_sc text_workspace)) (fun '(m', ok) => ok = true /\ arb 128 m' 0 3) /\
  returns (from_chars 128 solver.automatic text_objects 3 (cstr "12a4") 0 4 10 (ws_tower text_workspace)
      (ws_tmp text_workspace) (ws_st text_workspace) (ws_sc text_workspace)) (fun '(m', ok) => ok = false /\ exists x, arb 128 m' 3 x).
Proof.
  split.
  - eapply returns_mono; [apply (scans_exact 128 solver.automatic text_workspace text_objects 0 (cstr "+340282366920938463463374607431768211459") 1 39 10);
      [exact text_conversion_ok|apply text_outside; lia|exists (10 ^ 30); concrete_object|lia|lia|vm_compute; discriminate|vm_compute; discriminate]|].
    intros [m' ok] (E & H & _). vm_compute in E. split; [exact E|]. exact (H E).
  - eapply returns_mono; [apply (scans_exact 128 solver.automatic text_workspace text_objects 3 (cstr "12a4") 0 4 10);
      [exact text_conversion_ok|apply text_outside; lia|exists 7; concrete_object|lia|lia|vm_compute; discriminate|vm_compute; discriminate]|].
    intros [m' ok] (E & _ & Hx & _). vm_compute in E. split; [exact E|exact Hx].
Defined.

Lemma chars_roundtrip_witness :
  returns ('(m, buf, len) ← to_chars 128 text_objects (replicate 130 0) 0 100 0 7 false (ws_work text_workspace);
    from_chars 128 solver.automatic m 3 buf 0 len 7 (ws_tower text_workspace) (ws_tmp text_workspace) (ws_st text_workspace) (ws_sc text_workspace))
    (fun '(m', ok) => ok = true /\ arb 128 m' 3 (10 ^ 30) /\ arb 128 m' 0 (10 ^ 30)).
Proof.
  apply (chars_roundtrip 128 solver.automatic text_workspace text_objects 0 3 (10 ^ 30) 7 false (replicate 130 0) 0 100);
    [exact text_conversion_ok|apply text_outside; lia|apply text_outside; lia|right; right; vm_compute; discriminate|concrete_object|
     exists 7; concrete_object|lia|lia|vm_compute; discriminate|lia|vm_compute; discriminate].
Defined.

(** The largest number of 8192 bits. *)
Definition largest_object : mem := replicate 128 (2 ^ 64 - 1) ++ [128] ++ replicate (Z.to_nat 27100) 0.

Lemma to_string_underflow_witness :
  to_string 8192 solver.automatic (fun n => replicate (Z.to_nat n) 0) largest_object 0 6 false (ws_tower (workspace_at 8192 129))
    (ws_tmp (workspace_at 8192 129)) (ws_work (workspace_at 8192 129)) (ws_st (workspace_at 8192 129)) (ws_sc (workspace_at 8192 129)) = None.
Proof.
  apply (to_string_underflow 8192 solver.automatic (fun n => replicate (Z.to_nat n) 0) (workspace_at 8192 129) largest_object 0 6 false);
    [|split; [vm_compute; intuition congruence|left; vm_compute; discriminate]| |vm_compute; reflexivity|lia|reflexivity|].
  - constructor; [lia|done|apply wf_check_sound; vm_compute; reflexivity|apply workspace_laid_out; [lia|vm_compute; discriminate]].
  - constructor; [vm_compute; intuition congruence|vm_compute; intuition congruence|right; vm_compute; discriminate|vm_compute; reflexivity|
      split; [vm_compute; discriminate|vm_compute; reflexivity]].
  - right. right. left.
Defined.
