(* ===== verification/Arbint.v ===== *)
(** The signed integers of math/arbint/signed.hpp, a magnitude and a sign.

    An object at [p] is the [arbuint] object of its magnitude followed by a cell for
    the flag [ng].  As in [Arbuint], the results and the temporaries of an operation
    are memory the caller points to: [tmp] for objects, [sc] for scratch limbs.  An
    integer type is its width and whether it is signed. *)
From stdpp Require Import base numbers list option.
From Stdlib Require Import ZArith Lia.
From S2P Require Import Prelude Arrays Limb Mpn MpnToom3 Thresholds MpnTiers MpnDc Arbuint.

Local Open Scope Z_scope.

Module signed.

(** enum class bitop *)
Inductive bitop := b_and | b_ior | b_xor.

Section arbint.
Context `{LimbWidth} `{BarrettTier} (Bits : Z) (Solver : solver.t).

(** The size of an object. *)
Definition object_size : Z := cap_limbs Bits + 2.

Definition negative (m : mem) (p : Z) : option bool := x ← m.[p + (cap_limbs Bits + 1)]; Some (negb (Z.eqb x 0)).

(** ng = b *)
Definition set_ng (m : mem) (p : Z) (b : bool) : option mem := aset m (p + (cap_limbs Bits + 1)) (Z.b2z b).

Definition __fix_zero (m : mem) (p : Z) : option mem :=
  z ← arb_is_zero Bits m p;
  if (z : bool) then set_ng m p false else Some m.

(** ** Construction *)

Definition default (m : mem) (p : Z) : option mem := m ← store Bits m p; set_ng m p false.

Definition copy (m : mem) (p o : Z) : option mem :=
  m ← Arbuint.copy Bits m p o;
  b ← negative m o;
  set_ng m p b.

Definition from_magnitude (m : mem) (p mag : Z) (neg : bool) : option mem :=
  m ← Arbuint.copy Bits m p mag;
  m ← set_ng m p neg;
  __fix_zero m p.

Definition __assign_integral (m : mem) (p : Z) (is_signed : bool) (w v : Z) : option mem :=
  m ← (if is_signed then
         let neg := Z.ltb v 0 in
         let u := if neg then wrap w (0 - wrap w v) else wrap w v in
         m ← assign_integral Bits m p w u;
         set_ng m p neg
       else
         m ← assign_integral Bits m p w v;
         set_ng m p false);
  __fix_zero m p.

Definition from_integral (m : mem) (p : Z) (is_signed : bool) (w v : Z) : option mem :=
  m ← default m p;
  __assign_integral m p is_signed w v.

(** The literal 1 is an int. *)
Definition one (m : mem) (p : Z) : option mem := from_integral m p true 32 1.

Definition power_of_two (m : mem) (p k tmp : Z) : option mem :=
  m ← Arbuint.power_of_two Bits m tmp k;
  from_magnitude m p tmp false.

(** ** Queries *)

Definition sign (m : mem) (p : Z) : option Z :=
  z ← arb_is_zero Bits m p;
  b ← negative m p;
  Some (if (z : bool) then 0 else if (b : bool) then -1 else 1).

(** The conversion to a [w]-bit type. *)
Definition to_integral (m : mem) (p : Z) (is_signed : bool) (w : Z) : option Z :=
  u ← Arbuint.to_integral Bits m p w;
  b ← negative m p;
  let u := if (b : bool) then wrap w (0 - u) else u in
  Some (if is_signed then swrap w u else u).

Definition cmp (m : mem) (a b : Z) : option Z :=
  sa ← sign m a;
  sb ← sign m b;
  if negb (Z.eqb sa sb) then Some (if Z.ltb sa sb then -1 else 1)
  else if Z.eqb sa 0 then Some 0
  else
    c ← arb_cmp Bits m a b;
    Some (if Z.ltb sa 0 then - c else c).

Definition cmp_integral (m : mem) (a : Z) (is_signed : bool) (w v tmp : Z) : option Z :=
  m ← from_integral m tmp is_signed w v;
  cmp m a tmp.

Definition cmp_integral_left (m : mem) (is_signed : bool) (w v a tmp : Z) : option Z :=
  c ← cmp_integral m a is_signed w v tmp;
  Some (- c).

(** ** Arithmetic *)

Definition set_zero (m : mem) (p : Z) : option mem := m ← Arbuint.set_zero Bits m p; set_ng m p false.

Definition negate (m : mem) (p : Z) : option mem :=
  b ← negative m p;
  m ← set_ng m p (negb b);
  __fix_zero m p.

Definition swap (m : mem) (p o : Z) : option mem :=
  m ← swap_with Bits m p o;
  t ← negative m p;
  b ← negative m o;
  m ← set_ng m p b;
  set_ng m o t.

Definition add_assign (m : mem) (this o tmp sc : Z) : option mem :=
  oz ← arb_is_zero Bits m o;
  if (oz : bool) then Some m
  else
    z ← arb_is_zero Bits m this;
    if (z : bool) then
      m ← Arbuint.copy Bits m this o;
      b ← negative m o;
      set_ng m this b
    else
      ng ← negative m this;
      ong ← negative m o;
      if Bool.eqb ng ong then Arbuint.add_assign Bits m this o
      else
        c ← arb_cmp Bits m this o;
        if Z.eqb c 0 then set_zero m this
        else
          m ← (if Z.ltb 0 c then Arbuint.sub_assign Bits m this o sc
               else
                 m ← Arbuint.copy Bits m tmp o;
                 m ← Arbuint.sub_assign Bits m tmp this sc;
                 m ← swap_with Bits m this tmp;
                 b ← negative m o;
                 set_ng m this b);
          __fix_zero m this.

Definition sub_assign (m : mem) (this o tmp sc : Z) : option mem :=
  oz ← arb_is_zero Bits m o;
  if (oz : bool) then Some m
  else if Z.eqb this o then set_zero m this
  else
    let t := tmp in
    m ← copy m t o;
    b ← negative m t;
    m ← set_ng m t (negb b);
    add_assign m this t (tmp + object_size) sc.

Definition mul_assign (m : mem) (this o sc : Z) : option mem :=
  ng ← negative m this;
  ong ← negative m o;
  let s := negb (Bool.eqb ng ong) in
  m ← Arbuint.mul_assign Bits Solver m this o sc;
  m ← set_ng m this s;
  __fix_zero m this.

(** An exception of the magnitude leaves before the sign is set. *)
Definition div_assign (m : mem) (this o sc : Z) : option outcome :=
  ng ← negative m this;
  ong ← negative m o;
  let s := negb (Bool.eqb ng ong) in
  out ← Arbuint.div_assign Bits m this o sc;
  match out with
  | domain_error m => Some (domain_error m)
  | returned m => m ← set_ng m this s; m ← __fix_zero m this; Some (returned m)
  end.

Definition mod_assign (m : mem) (this o sc : Z) : option outcome :=
  out ← Arbuint.mod_assign Bits m this o sc;
  match out with
  | domain_error m => Some (domain_error m)
  | returned m => m ← __fix_zero m this; Some (returned m)
  end.

Definition shl_assign (m : mem) (this k : Z) : option mem :=
  m ← Arbuint.shl_assign Bits m this k;
  __fix_zero m this.

Definition shr_assign (m : mem) (this k tmp : Z) : option mem :=
  z ← arb_is_zero Bits m this;
  if orb z (Z.eqb k 0) then Some m
  else
    ng ← negative m this;
    lost ← (if (ng : bool) then n ← size Bits m this; s ← scan1 m this n; Some (Z.ltb s k) else Some false);
    m ← Arbuint.shr_assign Bits m this k;
    m ← (if (lost : bool) then m ← Arbuint.one Bits m tmp; Arbuint.add_assign Bits m this tmp else Some m);
    __fix_zero m this.

(** ** Two's complement *)

Definition __to_twos (m : mem) (this out n : Z) : option mem :=
  k ← size Bits m this;
  m ← copyi m out this k;
  m ← zero m (out + k) (n - k);
  b ← negative m this;
  if (b : bool) then void (neg m out out n) else Some m.

Definition __from_twos (m : mem) (this in_ n : Z) : option mem :=
  t ← m.[in_ + (n - 1)];
  let ngv := negb (Z.eqb (Z.land t limb_msb) 0) in
  m ← (if ngv then void (neg m in_ in_ n) else Some m);
  m ← __assign_limbs Bits m this in_ n;
  m ← set_ng m this ngv;
  __fix_zero m this.

Definition __bitwise (which : bitop) (m : mem) (this o sc : Z) : option mem :=
  an ← size Bits m this;
  bn ← size Bits m o;
  let n := (if Z.ltb bn an then an else bn) + 1 in
  let a := sc in
  let b := a + n in
  m ← __to_twos m this a n;
  m ← __to_twos m o b n;
  m ← match which with
      | b_and => and_n m a a b n
      | b_ior => ior_n m a a b n
      | b_xor => xor_n m a a b n
      end;
  __from_twos m this a n.

(** ** Derived operations *)

Definition increment (m : mem) (this tmp sc : Z) : option mem :=
  m ← one m tmp;
  add_assign m this tmp (tmp + object_size) sc.

Definition decrement (m : mem) (this tmp sc : Z) : option mem :=
  m ← one m tmp;
  sub_assign m this tmp (tmp + object_size) sc.

Definition post_increment (m : mem) (t this tmp sc : Z) : option mem := m ← copy m t this; increment m this tmp sc.

Definition post_decrement (m : mem) (t this tmp sc : Z) : option mem := m ← copy m t this; decrement m this tmp sc.

(** [this OP= o] *)
Definition compound_assign (op : binary_operator) (m : mem) (this o tmp sc : Z) : option outcome :=
  match op with
  | plus => returning (add_assign m this o tmp sc)
  | minus => returning (sub_assign m this o tmp sc)
  | times => returning (mul_assign m this o sc)
  | divide => div_assign m this o sc
  | modulo => mod_assign m this o sc
  | bit_and => returning (__bitwise b_and m this o sc)
  | bit_or => returning (__bitwise b_ior m this o sc)
  | bit_xor => returning (__bitwise b_xor m this o sc)
  end.

Definition operator_objects (op : binary_operator) (m : mem) (r a b tmp sc : Z) : option outcome :=
  m ← copy m r a;
  compound_assign op m r b tmp sc.

Definition operator_integral_right (op : binary_operator) (m : mem) (r a : Z) (is_signed : bool) (w v tmp sc : Z) : option outcome :=
  m ← copy m r a;
  m ← from_integral m tmp is_signed w v;
  compound_assign op m r tmp (tmp + object_size) sc.

Definition operator_integral_left (op : binary_operator) (m : mem) (r : Z) (is_signed : bool) (w v a tmp sc : Z) : option outcome :=
  m ← from_integral m r is_signed w v;
  compound_assign op m r a tmp sc.

Definition operator_shl (m : mem) (r a k : Z) : option mem := m ← copy m r a; shl_assign m r k.

Definition operator_shr (m : mem) (r a k tmp : Z) : option mem := m ← copy m r a; shr_assign m r k tmp.

Definition operator_minus (m : mem) (r a : Z) : option mem := m ← copy m r a; negate m r.

Definition operator_not (m : mem) (r a tmp sc : Z) : option mem :=
  m ← copy m r a;
  m ← negate m r;
  m ← one m tmp;
  sub_assign m r tmp (tmp + object_size) sc.

(** The result's members; the second operation can only throw when the first did. *)
Definition divmod (m : mem) (quot rem a b sc : Z) : option outcome :=
  m ← copy m quot a;
  m ← copy m rem a;
  out ← div_assign m quot b sc;
  match out with
  | domain_error m => Some (domain_error m)
  | returned m => mod_assign m rem b sc
  end.

Definition abs (m : mem) (r a : Z) : option mem := from_magnitude m r a false.

Definition sqr (m : mem) (r a tmp sc : Z) : option mem :=
  m ← arb_sqr Bits Solver m tmp a sc;
  from_magnitude m r tmp false.

Definition pow (m : mem) (r a e tmp sc : Z) : option mem :=
  b ← negative m a;
  let s := andb b (negb (Z.eqb (Z.land e 1) 0)) in
  m ← Arbuint.pow Bits Solver m tmp a e (tmp + object_size) sc;
  from_magnitude m r tmp s.

(** The comparison operators. *)
Definition equal (m : mem) (a b : Z) : option bool := c ← cmp m a b; Some (Z.eqb c 0).
Definition not_equal (m : mem) (a b : Z) : option bool := c ← cmp m a b; Some (negb (Z.eqb c 0)).
Definition less (m : mem) (a b : Z) : option bool := c ← cmp m a b; Some (Z.ltb c 0).
Definition less_equal (m : mem) (a b : Z) : option bool := c ← cmp m a b; Some (Z.leb c 0).
Definition greater (m : mem) (a b : Z) : option bool := c ← cmp m a b; Some (Z.ltb 0 c).
Definition greater_equal (m : mem) (a b : Z) : option bool := c ← cmp m a b; Some (Z.leb 0 c).
End arbint.
End signed.
