(* ===== verification/SignMagnitude.v ===== *)
(** Numbers as a sign and a magnitude below a modulus, and the operations of [Arbint] on
    them: which integer the result is, and when zero can come out with a sign. *)
From stdpp Require Import base numbers list option.
From Stdlib Require Import ZArith Lia.

Local Open Scope Z_scope.

Abbreviation snum := (bool * Z)%type.

(** The integer, and the numbers that have no sign at zero. *)
Definition sval (x : snum) : Z := if x.1 then - x.2 else x.2.

Definition canonical (x : snum) : Prop := x.1 = true -> x.2 <> 0.

Definition fixz (x : snum) : snum := (andb x.1 (negb (Z.eqb x.2 0)), x.2).

Lemma sval_fixz x : sval (fixz x) = sval x.
Proof. destruct x as [[] a]; unfold sval, fixz; cbn; [|done]. by destruct (Z.eqb_spec a 0) as [->|]. Qed.

Lemma canonical_fixz x : canonical (fixz x).
Proof. destruct x as [[] a]; unfold canonical, fixz; cbn; [|done]. by destruct (Z.eqb_spec a 0). Qed.

Lemma fixz_canonical x : canonical x -> fixz x = x.
Proof. destruct x as [[] a]; unfold canonical, fixz; cbn; [|done]. intros Hc. by rewrite (proj2 (Z.eqb_neq a 0)) by auto. Qed.

Section modulus.
Context (M : Z) (HM : 2 <= M).
Implicit Types (x y : snum).

Definition in_range (x : snum) : Prop := 0 <= x.2 < M.

(** Cut to the modulus towards zero: the magnitude wraps and the sign stays. *)
Definition clip (z : Z) : Z := if Z.ltb z 0 then - (- z mod M) else z mod M.

Lemma clip_small z : - M < z < M -> clip z = z.
Proof. intros Hz. unfold clip. destruct (Z.ltb_spec z 0); rewrite Z.mod_small; lia. Qed.

Definition of_int (z : Z) : snum := fixz (Z.ltb z 0, Z.abs z mod M).

Lemma of_int_value z : sval (of_int z) = clip z.
Proof.
  unfold of_int. rewrite sval_fixz. unfold sval, clip. cbn. destruct (Z.ltb_spec z 0); [by rewrite Z.abs_neq by lia|by rewrite Z.abs_eq by lia].
Qed.

Lemma of_int_range z : in_range (of_int z).
Proof. apply Z.mod_pos_bound. lia. Qed.

Lemma of_int_canonical z : canonical (of_int z).
Proof. apply canonical_fixz. Qed.

(** Two numbers with the same integer differ in the sign of zero only. *)
Lemma sval_inj x y : in_range x -> in_range y -> canonical x -> canonical y -> sval x = sval y -> x = y.
Proof.
  destruct x as [[] a], y as [[] b]; unfold in_range, canonical, sval; cbn; intros Rx Ry Cx Cy E; try specialize (Cx eq_refl); try specialize (Cy eq_refl);
    f_equal; lia.
Qed.

Lemma canonical_of_int x : in_range x -> canonical x -> x = of_int (sval x).
Proof.
  intros Rx Cx. apply sval_inj; [done|apply of_int_range|done|apply of_int_canonical|].
  rewrite of_int_value, clip_small; [done|]. destruct x as [[] a]; unfold in_range, sval in *; cbn in *; lia.
Qed.

(** ** Sums *)

Definition add_pair (x y : snum) : snum :=
  if Z.eqb y.2 0 then x
  else if Z.eqb x.2 0 then y
  else if Bool.eqb x.1 y.1 then (x.1, (x.2 + y.2) mod M)
  else match x.2 ?= y.2 with Eq => (false, 0) | Gt => (x.1, x.2 - y.2) | Lt => (y.1, y.2 - x.2) end.

Definition opp_pair (x : snum) : snum := (negb x.1, x.2).

Lemma sval_opp x : sval (opp_pair x) = - sval x.
Proof. destruct x as [[] a]; unfold sval, opp_pair; cbn; lia. Qed.

Lemma clip_mag (n : bool) z : 0 <= z -> clip (if n then - z else z) = (if n then - (z mod M) else z mod M).
Proof.
  intros Hz. unfold clip. destruct n.
  - destruct (Z.ltb_spec (- z) 0); [by rewrite Z.opp_involutive|]. replace z with 0 by lia. rewrite Z.mod_0_l by lia. done.
  - by rewrite (proj2 (Z.ltb_ge z 0)) by lia.
Qed.

Lemma add_pair_range x y : in_range x -> in_range y -> in_range (add_pair x y).
Proof.
  unfold in_range, add_pair. intros Rx Ry. destruct (Z.eqb y.2 0); [done|]. destruct (Z.eqb x.2 0); [done|].
  destruct (Bool.eqb _ _); [apply Z.mod_pos_bound; lia|]. destruct (Z.compare_spec x.2 y.2); cbn; lia.
Qed.

Lemma add_pair_value x y : in_range x -> in_range y -> sval (add_pair x y) = clip (sval x + sval y).
Proof.
  destruct x as [n a], y as [k b]. unfold in_range, add_pair. cbn [fst snd]. intros Rx Ry.
  destruct (Z.eqb_spec b 0) as [->|Hb]; [unfold sval; cbn [fst snd]; destruct n, k; rewrite clip_small; lia|].
  destruct (Z.eqb_spec a 0) as [->|Ha]; [unfold sval; cbn [fst snd]; destruct n, k; rewrite clip_small; lia|].
  destruct n, k; cbn [Bool.eqb]; unfold sval; cbn [fst snd].
  - rewrite <- (clip_mag true) by lia. f_equal. lia.
  - destruct (Z.compare_spec a b); cbn [fst snd]; rewrite clip_small; lia.
  - destruct (Z.compare_spec a b); cbn [fst snd]; rewrite clip_small; lia.
  - rewrite <- (clip_mag false) by lia. done.
Qed.

(** The sum of numbers of one sign whose magnitudes add up to the modulus. *)
Lemma add_pair_canonical x y : in_range x -> in_range y -> canonical x -> canonical y ->
  sval x + sval y <> - M -> canonical (add_pair x y).
Proof.
  destruct x as [n a], y as [k b]. unfold in_range, canonical, add_pair, sval. cbn [fst snd]. intros Rx Ry Cx Cy Hov.
  destruct (Z.eqb_spec b 0); [done|]. destruct (Z.eqb_spec a 0); [done|]. destruct n, k; cbn [Bool.eqb fst snd]; intros Hn.
  - intros E. apply Z.mod_divide in E as [q E]; [|lia]. assert (q = 1) by nia. subst q. lia.
  - destruct (Z.compare_spec a b); cbn [fst snd] in *; [done|done|lia].
  - destruct (Z.compare_spec a b); cbn [fst snd] in *; [done|lia|done].
  - done.
Qed.

Lemma add_pair_negative_zero x y : in_range x -> in_range y -> x.1 = true -> y.1 = true -> sval x + sval y = - M -> add_pair x y = (true, 0).
Proof.
  destruct x as [n a], y as [k b]. unfold in_range, add_pair, sval. cbn [fst snd]. intros Rx Ry -> -> Hov.
  rewrite (proj2 (Z.eqb_neq b 0)), (proj2 (Z.eqb_neq a 0)) by lia. cbn [Bool.eqb]. replace (a + b) with M by lia. by rewrite Z.mod_same by lia.
Qed.

(** ** Products and quotients *)

Definition mul_pair (x y : snum) : snum := fixz (xorb x.1 y.1, (x.2 * y.2) mod M).

Definition div_pair (x y : snum) : snum := fixz (xorb x.1 y.1, x.2 / y.2).

Definition mod_pair (x y : snum) : snum := fixz (x.1, x.2 mod y.2).

Lemma mul_pair_value x y : in_range x -> in_range y -> sval (mul_pair x y) = clip (sval x * sval y).
Proof.
  destruct x as [n a], y as [k b]. unfold in_range, mul_pair. rewrite sval_fixz. unfold sval. cbn [fst snd]. intros Rx Ry.
  rewrite <- (clip_mag (xorb n k)) by nia. f_equal. destruct n, k; cbn; lia.
Qed.

Lemma div_pair_value x y : in_range x -> 0 < y.2 -> sval (div_pair x y) = Z.quot (sval x) (sval y) /\ sval (mod_pair x y) = Z.rem (sval x) (sval y).
Proof.
  destruct x as [n a], y as [k b]. unfold in_range, div_pair, mod_pair. rewrite !sval_fixz. unfold sval. cbn [fst snd]. intros Rx Hb.
  destruct n, k; cbn [xorb]; rewrite ?Z.quot_opp_opp, ?Z.quot_opp_l, ?Z.quot_opp_r, ?Z.rem_opp_l', ?Z.rem_opp_r' by lia;
    rewrite Z.quot_div_nonneg, Z.rem_mod_nonneg by lia; lia.
Qed.

Lemma div_pair_range x y : in_range x -> 0 < y.2 -> in_range (div_pair x y) /\ in_range (mod_pair x y).
Proof.
  unfold in_range, div_pair, mod_pair, fixz. cbn. intros Rx Hy. split.
  - split; [apply Z.div_pos; lia|]. apply Z.div_lt_upper_bound; nia.
  - pose proof (Z.mod_pos_bound x.2 y.2 Hy). pose proof (Z.mod_le x.2 y.2 ltac:(lia) Hy). lia.
Qed.

(** ** Shifts *)

Definition shl_pair (x : snum) (k : Z) : snum := fixz (x.1, (x.2 * 2 ^ k) mod M).

(** Rounded away from zero below it, when bits are lost. *)
Definition shr_pair (x : snum) (k : Z) : snum :=
  if orb (Z.eqb x.2 0) (Z.eqb k 0) then x
  else fixz (x.1, x.2 / 2 ^ k + Z.b2z (andb x.1 (negb (Z.eqb (x.2 mod 2 ^ k) 0)))).

Lemma shl_pair_value x k : in_range x -> 0 <= k -> sval (shl_pair x k) = clip (sval x * 2 ^ k).
Proof.
  destruct x as [n a]. unfold in_range, shl_pair. rewrite sval_fixz. unfold sval. cbn [fst snd]. intros Rx Hk.
  pose proof (Z.pow_pos_nonneg 2 k ltac:(lia) Hk). rewrite <- (clip_mag n) by nia. f_equal. destruct n; lia.
Qed.

Lemma shr_round a k : 0 <= a < M -> 0 < k -> 0 <= a / 2 ^ k /\ a / 2 ^ k + 1 < M + Z.b2z (Z.eqb (a mod 2 ^ k) 0) /\ a / 2 ^ k < M.
Proof.
  intros Ha Hk. pose proof (Z.pow_le_mono_r 2 1 k ltac:(lia) ltac:(lia)) as H2. rewrite Z.pow_1_r in H2. set (P := 2 ^ k) in *.
  pose proof (Z.div_mod a P ltac:(lia)) as E. pose proof (Z.mod_pos_bound a P ltac:(lia)). assert (0 <= a / P) by (apply Z.div_pos; lia).
  destruct (Z.eqb_spec (a mod P) 0) as [E0|Hne]; cbn [Z.b2z]; nia.
Qed.

Lemma shr_pair_range x k : in_range x -> 0 <= k -> in_range (shr_pair x k).
Proof.
  destruct x as [n a]. unfold in_range, shr_pair. cbn [fst snd]. intros Rx Hk. destruct (orb _ _) eqn:E; [done|].
  apply orb_false_elim in E as [_ E%Z.eqb_neq]. unfold fixz. cbn [fst snd]. destruct (shr_round a k Rx ltac:(lia)) as (H1 & H2 & H3).
  destruct n; cbn [andb Z.b2z]; [|lia]. destruct (Z.eqb (a mod 2 ^ k) 0); cbn [negb Z.b2z] in *; lia.
Qed.

Lemma shr_pair_value x k : in_range x -> 0 <= k -> sval (shr_pair x k) = sval x / 2 ^ k.
Proof.
  destruct x as [n a]. unfold in_range, shr_pair. cbn [fst snd]. intros Rx Hk. pose proof (Z.pow_pos_nonneg 2 k ltac:(lia) Hk) as P.
  destruct (Z.eqb_spec a 0) as [->|Ha]; cbn [orb]; [destruct n; unfold sval; cbn [fst snd]; by rewrite ?Z.opp_0, Z.div_0_l by lia|].
  destruct (Z.eqb_spec k 0) as [->|Hk0]; cbn [orb]; [by rewrite Z.pow_0_r, Z.div_1_r|].
  rewrite sval_fixz. unfold sval. cbn [fst snd]. destruct n; cbn [andb Z.b2z]; [|lia].
  destruct (Z.eqb_spec (a mod 2 ^ k) 0) as [E|E]; cbn [negb Z.b2z].
  - rewrite Z.div_opp_l_z by lia. lia.
  - rewrite Z.div_opp_l_nz by lia. lia.
Qed.

Lemma shr_pair_canonical x k : canonical x -> canonical (shr_pair x k).
Proof. intros Hx. unfold shr_pair. destruct (orb _ _); [done|]. apply canonical_fixz. Qed.

(** Negation. *)
Definition neg_pair (x : snum) : snum := fixz (opp_pair x).

Lemma neg_pair_value x : sval (neg_pair x) = - sval x.
Proof. unfold neg_pair. rewrite sval_fixz. apply sval_opp. Qed.
End modulus.
