(* ===== verification/ArbintProof.v ===== *)
(** The operations of the signed integers act on sign and magnitude as the functions of
    [SignMagnitude] do, also when the operands are one object. *)
From stdpp Require Import base numbers list option.
From Stdlib Require Import ZArith Lia.
From S2P Require Import Prelude Arrays Limb Mpn MpnValue MpnArith MpnBits MpnFrame MpnToom3 Thresholds MpnTiers MpnDc Arbuint ArbuintProof ArbuintDiv ArbuintBits ArbuintConv Arbint SignMagnitude.

Local Open Scope Z_scope.

(** ** Two's complement of any width *)

Section twos.
Context (f : Z -> Z -> Z) (g : bool -> bool -> bool).
Context (Hfg : forall x y i, 0 <= i -> Z.testbit (f x y) i = g (Z.testbit x i) (Z.testbit y i)).

Lemma bitwise_mod k x y : g false false = false -> 0 <= k -> f (x mod 2 ^ k) (y mod 2 ^ k) = f x y mod 2 ^ k.
Proof.
  intros Hg Hk. apply Z.bits_inj'. intros i Hi. rewrite Hfg by done. destruct (Z.lt_ge_cases i k).
  - by rewrite !Z.mod_pow2_bits_low, Hfg by lia.
  - by rewrite !Z.mod_pow2_bits_high by lia.
Qed.

Lemma constant_bits z c : (forall i, 0 <= i -> Z.testbit z i = c) -> z = if c then -1 else 0.
Proof.
  intros Hz. apply Z.bits_inj'. intros i Hi. rewrite Hz by done. destruct c; [by rewrite Z.bits_m1|by rewrite Z.bits_0].
Qed.

Lemma sign_bits k x : 0 <= k -> - 2 ^ k <= x < 2 ^ k -> forall i, k <= i -> Z.testbit x i = Z.ltb x 0.
Proof.
  intros Hk Hx i Hi. pose proof (Z.pow_pos_nonneg 2 k ltac:(lia) Hk). replace i with (i - k + k) by lia.
  rewrite <- Z.div_pow2_bits by lia. destruct (Z.ltb_spec x 0).
  - replace (x / 2 ^ k) with (-1); [apply Z.bits_m1; lia|]. apply (Z.div_unique_pos _ _ _ (x + 2 ^ k)); lia.
  - rewrite Z.div_small by lia. apply Z.bits_0.
Qed.

Lemma bitwise_signed k x y : 0 <= k -> - 2 ^ k <= x < 2 ^ k -> - 2 ^ k <= y < 2 ^ k -> - 2 ^ k <= f x y < 2 ^ k.
Proof.
  intros Hk Hx Hy. pose proof (Z.pow_pos_nonneg 2 k ltac:(lia) Hk) as P.
  assert (f x y / 2 ^ k = if g (Z.ltb x 0) (Z.ltb y 0) then -1 else 0) as E.
  { apply constant_bits. intros i Hi. rewrite Z.div_pow2_bits, Hfg by lia. by rewrite (sign_bits k x), (sign_bits k y) by lia. }
  pose proof (Z.div_mod (f x y) (2 ^ k) ltac:(lia)) as Ed. pose proof (Z.mod_pos_bound (f x y) (2 ^ k) P).
  destruct (g _ _); lia.
Qed.
End twos.

Section arbint.
Context `{W : LimbWidth} `{BarrettTier} (Bits : Z) (Solver : solver.t) (HBits : 1 <= Bits <= 2 ^ 31).
Abbreviation cap := (@cap_limbs W Bits).
Abbreviation M := (2 ^ Bits).
Abbreviation obj p := (vec p (cap + 1)).
Abbreviation sobj p := (vec p (cap + 2)).
Abbreviation arb := (arb Bits).
Implicit Types (m : mem) (x y : snum).

Lemma modulus_two : 2 <= M.
Proof. pose proof (Z.pow_le_mono_r 2 1 Bits). lia. Qed.

(** ** The representation *)

(** The object at [p] has the sign and magnitude [x]. *)
Record sarb (m : mem) (p : Z) (x : snum) : Prop := {
  sa_mag : arb m p x.2;
  sa_valid : valid m p (cap + 2);
  sa_ng : cell m (p + (cap + 1)) = Z.b2z x.1
}.

Lemma sarb_range m p x : sarb m p x -> in_range M x.
Proof. intros []. by apply (arb_bound Bits m p). Qed.

Lemma negative_spec m p x : sarb m p x -> signed.negative Bits m p = Some x.1.
Proof.
  intros [_ Hv Hn]. unfold signed.negative. pose proof (cap_facts Bits HBits). rewrite get_cell by vecs. cbn [mbind option_bind]. f_equal.
  rewrite Hn. by destruct x.1.
Qed.

Lemma sarb_frame P m m' p x : sarb m p x -> touches P m m' -> (forall k, sobj p k -> ~ P k) -> sarb m' p x.
Proof.
  intros [Ha Hv Hn] T HP. pose proof (cap_facts Bits HBits). pose proof (touches_alen _ _ _ T). constructor.
  - eapply (arb_frame Bits HBits); [exact Ha|exact T|]. intros k Hk. apply HP. unfold vec in *. lia.
  - unfold valid in *. lia.
  - rewrite (touches_cell _ _ _ _ T); [done|]. apply HP. unfold vec. lia.
Qed.

(** [m'] is [m] with cells of [P] rewritten, and the object at [p] is [x]. *)
Definition swrites (P : Z -> Prop) (m : mem) (p : Z) (x : snum) (m' : mem) : Prop := touches P m m' /\ sarb m' p x.

(** The magnitude is rewritten, the sign is kept. *)
Lemma keep_sign P m p x a m' : sarb m p x -> writes Bits P m p a m' -> ~ P (p + (cap + 1)) -> sarb m' p (x.1, a).
Proof.
  intros [Ha Hv Hn] [T A] HP. pose proof (touches_alen _ _ _ T). constructor; cbn [fst snd]; [done|unfold valid in *; lia|].
  by rewrite (touches_cell _ _ _ _ T).
Qed.

Lemma set_ng_spec m p a s : wf m -> arb m p a -> valid m p (cap + 2) ->
  returns (signed.set_ng Bits m p s) (swrites (vec (p + (cap + 1)) 1) m p (s, a)).
Proof.
  intros Hw Ha Hv. pose proof (cap_facts Bits HBits) as [Hc0 _]. unfold signed.set_ng. apply returns_set_tail; [vecs|].
  assert (is_limb (Z.b2z s)) as Hl by (unfold is_limb; pose proof base_ge; destruct s; cbn; lia).
  assert (touches (vec (p + (cap + 1)) 1) m (upd m (p + (cap + 1)) (Z.b2z s))) as T by (apply touches_upd; [done|done|vecs|vecs]).
  split; [done|]. constructor; cbn [fst snd].
  - eapply (arb_frame Bits HBits); [exact Ha|exact T|unfold vec; lia].
  - vecs.
  - unfold cell. rewrite aget_upd_eq by vecs. done.
Qed.

Lemma fix_zero_spec m p x : wf m -> sarb m p x -> returns (signed.__fix_zero Bits m p) (swrites (vec (p + (cap + 1)) 1) m p (fixz x)).
Proof.
  intros Hw Hx. destruct x as [n a]. unfold signed.__fix_zero. rewrite (arb_is_zero_spec Bits HBits m p a Hw (sa_mag _ _ _ Hx)). cbn [mbind option_bind].
  unfold fixz. cbn [fst snd]. destruct (Z.eqb_spec a 0) as [->|Hne]; cbn [negb].
  - rewrite Bool.andb_false_r. apply set_ng_spec; [done|exact (sa_mag _ _ _ Hx)|exact (sa_valid _ _ _ Hx)].
  - rewrite Bool.andb_true_r. apply returns_ret. split; [by apply touches_refl|done].
Qed.

(** The last steps of an operation: a new magnitude, then the sign. *)
Lemma finish_sign P m p a m1 s : writes Bits P m p a m1 -> valid m p (cap + 2) -> (forall k, vec (p + (cap + 1)) 1 k -> P k) ->
  returns (m2 ← signed.set_ng Bits m1 p s; signed.__fix_zero Bits m2 p) (swrites P m p (fixz (s, a))).
Proof.
  intros [T A] Hv HP. pose proof (touches_alen _ _ _ T).
  eapply returns_bind; [apply set_ng_spec; [wf_mem|exact A|unfold valid in *; lia]|]. intros m2 [T2 A2].
  eapply returns_mono; [apply (fix_zero_spec m2 p (s, a)); [wf_mem|exact A2]|]. intros m3 [T3 A3]. split; [|done].
  apply (touches_trans _ m m1 m3 T). apply (touches_trans _ m1 m2 m3); (eapply touches_mono; [eassumption|done]).
Qed.

(** A new magnitude under the old sign. *)
Lemma finish_kept P m p x a m1 : writes Bits P m p a m1 -> sarb m p x -> ~ P (p + (cap + 1)) ->
  returns (signed.__fix_zero Bits m1 p) (swrites (fun k => P k \/ k = p + (cap + 1)) m p (fixz (x.1, a))).
Proof.
  intros HW Hx HP. pose proof (keep_sign _ _ _ _ _ _ Hx HW HP) as A1. destruct HW as [T A].
  eapply returns_mono; [apply (fix_zero_spec m1 p (x.1, a)); [wf_mem|exact A1]|]. intros m2 [T2 A2]. split; [|done].
  apply (touches_trans _ m m1 m2); (eapply touches_mono; [eassumption|]); unfold vec; intros k; [tauto|lia].
Qed.

(** ** Construction and copies *)

Lemma default_spec m p : wf m -> valid m p (cap + 2) -> returns (signed.default Bits m p) (swrites (sobj p) m p (false, 0)).
Proof.
  intros Hw Hv. pose proof (cap_facts Bits HBits). unfold signed.default.
  eapply returns_bind; [apply (store_spec Bits HBits); [done|unfold valid in *; lia]|]. intros m1 [T1 A1]. pose proof (touches_alen _ _ _ T1).
  eapply returns_mono; [apply set_ng_spec; [wf_mem|exact A1|unfold valid in *; lia]|]. intros m2 [T2 A2]. split; [touched|done].
Qed.

Lemma copy_signed_spec m p o x : wf m -> sarb m o x -> valid m p (cap + 2) -> p = o \/ disjoint p (cap + 2) o (cap + 2) ->
  returns (signed.copy Bits m p o) (swrites (sobj p) m p x).
Proof.
  intros Hw Hx Hv Hal. pose proof (cap_facts Bits HBits). unfold signed.copy.
  eapply returns_bind; [apply (object_copy_spec Bits HBits m p o x.2); [done|apply Hx|unfold valid in *; lia|destruct Hal; [by left|right; unfold disjoint in *; lia]]|].
  intros m1 [T1 A1]. pose proof (touches_alen _ _ _ T1).
  assert (sarb m1 o x) as Hx1.
  { destruct Hal as [->|Hd]; [|eapply sarb_frame; [exact Hx|exact T1|unfold disjoint, vec in *; lia]].
    destruct x as [n a]. apply (keep_sign (obj o) m o (n, a) a m1 Hx); [by split|unfold vec; lia]. }
  rewrite (negative_spec _ _ _ Hx1). cbn [mbind option_bind].
  eapply returns_mono; [apply (set_ng_spec m1 p x.2 x.1); [wf_mem|exact A1|unfold valid in *; lia]|]. intros m2 [T2 A2].
  split; [touched|by destruct x].
Qed.

Lemma from_magnitude_spec m p mag a s : wf m -> arb m mag a -> valid m p (cap + 2) -> p = mag \/ disjoint p (cap + 1) mag (cap + 1) ->
  returns (signed.from_magnitude Bits m p mag s) (swrites (sobj p) m p (fixz (s, a))).
Proof.
  intros Hw Ha Hv Hal. pose proof (cap_facts Bits HBits). unfold signed.from_magnitude.
  eapply returns_bind; [apply (object_copy_spec Bits HBits m p mag a); [done|done|unfold valid in *; lia|done]|]. intros m1 [T1 A1].
  apply finish_sign; [split; [eapply touches_mono; [exact T1|unfold vec; lia]|done]|done|unfold vec; lia].
Qed.

(** ** Integers in and out *)

(** The values of a [w]-bit type. *)
Definition integral_value (is_signed : bool) (w v : Z) : Prop := if is_signed then in_signed w v else in_unsigned w v.

Lemma assign_integral_signed m p s w v : wf m -> valid m p (cap + 2) -> integral_width w -> integral_value s w v ->
  returns (signed.__assign_integral Bits m p s w v) (swrites (sobj p) m p (of_int M v)).
Proof.
  intros Hw Hv Hiw Hval. pose proof (cap_facts Bits HBits) as [Hc0 _]. unfold signed.__assign_integral. pose proof Hiw as [Hpos _].
  pose proof (Z.pow_pos_nonneg 2 w ltac:(lia) ltac:(lia)) as P.
  assert (forall (neg : bool) u, u mod 2 ^ w = Z.abs v -> neg = Z.ltb v 0 ->
    returns (m2 ← (m1 ← assign_integral Bits m p w u; signed.set_ng Bits m1 p neg); signed.__fix_zero Bits m2 p) (swrites (sobj p) m p (of_int M v))) as Hgo.
  { intros neg u Eu ->. rewrite option_bind_assoc.
    eapply returns_bind; [apply (assign_integral_to Bits HBits m p w u); [done|unfold valid in *; lia|done]|]. intros m1 [T1 A1].
    rewrite Eu in A1. unfold of_int. apply (finish_sign (sobj p)); [split; [eapply touches_mono; [exact T1|unfold vec; lia]|done]|done|unfold vec; lia]. }
  destruct s; cbn [integral_value] in Hval.
  - unfold in_signed in Hval. assert (2 ^ w = 2 * 2 ^ (w - 1)) as Ew by (rewrite <- Z.pow_succ_r by lia; f_equal; lia).
    cbv zeta. apply Hgo; [|done]. unfold wrap. destruct (Z.ltb_spec v 0).
    + rewrite Z.mod_mod by lia. rewrite Zminus_mod_idemp_r. rewrite Z.mod_small; lia.
    + rewrite Z.mod_mod by lia. rewrite Z.mod_small; lia.
  - unfold in_unsigned in Hval. apply Hgo; [rewrite Z.mod_small; lia|]. symmetry. apply Z.ltb_ge. lia.
Qed.

Lemma from_integral_signed m p s w v : wf m -> valid m p (cap + 2) -> integral_width w -> integral_value s w v ->
  returns (signed.from_integral Bits m p s w v) (swrites (sobj p) m p (of_int M v)).
Proof.
  intros Hw Hv Hiw Hval. unfold signed.from_integral. eapply returns_bind; [by apply default_spec|]. intros m1 [T1 _].
  pose proof (touches_alen _ _ _ T1).
  eapply returns_mono; [apply assign_integral_signed; [wf_mem|unfold valid in *; lia|done|done]|]. intros m2 [T2 A2].
  split; [by eapply touches_trans|done].
Qed.

Lemma one_signed m p : wf m -> valid m p (cap + 2) -> returns (signed.one Bits m p) (swrites (sobj p) m p (false, 1)).
Proof.
  intros Hw Hv. unfold signed.one. pose proof (from_integral_signed m p true 32 1 Hw Hv ltac:(done) ltac:(done)) as Hs.
  assert (of_int M 1 = (false, 1)) as E; [|by rewrite E in Hs]. unfold of_int, fixz. cbn [fst snd]. pose proof modulus_two.
  change (Z.abs 1) with 1. by rewrite Z.mod_small by lia.
Qed.

(** A conversion keeps the low bits of the two's complement. *)
Lemma to_integral_signed m p x s w : wf m -> sarb m p x -> integral_width w ->
  signed.to_integral Bits m p s w = Some (if s then swrap w (sval x) else wrap w (sval x)).
Proof.
  intros Hw Hx Hiw. unfold signed.to_integral. rewrite (to_integral_spec Bits HBits m p w x.2 Hw (sa_mag _ _ _ Hx) Hiw). cbn [mbind option_bind].
  rewrite (negative_spec _ _ _ Hx). cbn [mbind option_bind]. cbv zeta. f_equal. destruct Hiw as [Hpos _].
  pose proof (Z.pow_pos_nonneg 2 w ltac:(lia) ltac:(lia)) as P.
  assert (wrap w (sval x) = if x.1 then wrap w (0 - x.2 mod 2 ^ w) else x.2 mod 2 ^ w) as Ew.
  { unfold wrap, sval. destruct x.1; [|done]. rewrite Zminus_mod_idemp_r. f_equal. }
  rewrite <- Ew. destruct s; [|done]. unfold swrap, wrap. by rewrite !(Z.add_mod_idemp_l (sval x)), ?Z.mod_mod by lia.
Qed.

Lemma sign_spec m p x : wf m -> sarb m p x -> signed.sign Bits m p = Some (Z.sgn (sval x)).
Proof.
  intros Hw Hx. unfold signed.sign. rewrite (arb_is_zero_spec Bits HBits m p x.2 Hw (sa_mag _ _ _ Hx)), (negative_spec _ _ _ Hx). cbn [mbind option_bind].
  f_equal. pose proof (sarb_range _ _ _ Hx) as R. unfold in_range in R. unfold sval. destruct (Z.eqb_spec x.2 0) as [->|]; destruct x.1; lia.
Qed.

Lemma cmp_signed m p o x y : wf m -> sarb m p x -> sarb m o y -> signed.cmp Bits m p o = Some (sign_of (sval x ?= sval y)).
Proof.
  intros Hw Hx Hy. unfold signed.cmp. rewrite (sign_spec m p x Hw Hx), (sign_spec m o y Hw Hy). cbn [mbind option_bind].
  pose proof (sarb_range _ _ _ Hx) as Rx. pose proof (sarb_range _ _ _ Hy) as Ry. unfold in_range in *.
  destruct (Z.eqb_spec (Z.sgn (sval x)) (Z.sgn (sval y))) as [Es|Hne]; cbn [negb].
  - destruct (Z.eqb_spec (Z.sgn (sval x)) 0) as [E0|E0].
    + assert (sval x = 0 /\ sval y = 0) as [-> ->] by lia. done.
    + rewrite (arb_cmp_spec Bits HBits m p o x.2 y.2 Hw (sa_mag _ _ _ Hx) (sa_mag _ _ _ Hy)). cbn [mbind option_bind]. f_equal.
      unfold sval in *. destruct x.1, y.1;
        match goal with |- context [Z.ltb (Z.sgn ?z) 0] => destruct (Z.ltb_spec (Z.sgn z) 0) end; try lia.
      destruct (Z.compare_spec x.2 y.2), (Z.compare_spec (- x.2) (- y.2)); cbn [sign_of]; lia.
  - f_equal. destruct (Z.ltb_spec (Z.sgn (sval x)) (Z.sgn (sval y))), (Z.compare_spec (sval x) (sval y)); cbn [sign_of]; lia.
Qed.
(** ** Arithmetic *)

Lemma set_zero_signed m p : wf m -> valid m p (cap + 2) -> returns (signed.set_zero Bits m p) (swrites (sobj p) m p (false, 0)).
Proof.
  intros Hw Hv. pose proof (cap_facts Bits HBits) as [Hc0 _]. pose proof modulus_two. unfold signed.set_zero, Arbuint.set_zero.
  eapply returns_bind; [apply (finish_to Bits HBits (obj p) m m p 0 0); [by apply touches_refl|unfold valid in *; lia|done|lia|]|].
  { rewrite Z.min_l, num_0 by lia. apply Z.mod_0_l. lia. }
  intros m1 [T1 A1]. pose proof (touches_alen _ _ _ T1).
  eapply returns_mono; [apply set_ng_spec; [wf_mem|exact A1|unfold valid in *; lia]|]. intros m2 [T2 A2]. split; [touched|done].
Qed.

Lemma negate_spec m p x : wf m -> sarb m p x -> returns (signed.negate Bits m p) (swrites (sobj p) m p (neg_pair x)).
Proof.
  intros Hw Hx. unfold signed.negate. rewrite (negative_spec _ _ _ Hx). cbn [mbind option_bind].
  apply (finish_sign (sobj p) m p x.2 m (negb x.1)); [split; [by apply touches_refl|apply Hx]|apply Hx|unfold vec; pose proof (cap_facts Bits HBits); lia].
Qed.

Lemma swap_signed m p o x y : wf m -> sarb m p x -> sarb m o y -> p = o \/ disjoint p (cap + 2) o (cap + 2) ->
  returns (signed.swap Bits m p o) (fun m' => touches (fun k => sobj p k \/ sobj o k) m m' /\ sarb m' p y /\ sarb m' o x).
Proof.
  intros Hw Hx Hy Hal. pose proof (cap_facts Bits HBits) as [Hc0 _]. pose proof Hx as [Ax Vx Nx]. pose proof Hy as [Ay Vy Ny]. unfold signed.swap.
  eapply returns_bind; [apply (swap_with_spec Bits HBits m p o Hw); [apply Ax|apply Ay| |exact Ax|exact Ay]|].
  { destruct Hal; [by left|right; unfold disjoint in *; lia]. }
  intros m1 (T1 & A1 & B1). pose proof (touches_alen _ _ _ T1).
  assert (sarb m1 p (x.1, y.2) /\ sarb m1 o (y.1, x.2)) as [Hp1 Ho1].
  { split; constructor; cbn [fst snd]; try done; try (unfold valid in *; lia);
      (rewrite (touches_cell _ _ _ _ T1); [done|]; destruct Hal as [->|Hd]; unfold disjoint, vec in *; lia). }
  rewrite (negative_spec _ _ _ Hp1), (negative_spec _ _ _ Ho1). cbn [mbind option_bind fst].
  eapply returns_bind; [apply (set_ng_spec m1 p y.2 y.1); [wf_mem|exact A1|unfold valid in *; lia]|]. intros m2 [T2 A2].
  pose proof (touches_alen _ _ _ T2).
  eapply returns_mono; [apply (set_ng_spec m2 o x.2 x.1); [wf_mem| |unfold valid in *; lia]|].
  { eapply (arb_frame Bits HBits); [exact B1|exact T2|]. destruct Hal as [->|Hd]; unfold disjoint, vec in *; lia. }
  intros m3 [T3 A3]. split.
  - apply (touches_trans _ m m1 m3); [|apply (touches_trans _ m1 m2 m3)]; (eapply touches_mono; [eassumption|]); unfold vec; lia.
  - split; [|by destruct x]. destruct Hal as [->|Hd].
    + assert (x = y) as <-; [|by destruct x]. destruct x as [n a], y as [k b]. cbn [fst snd] in *. f_equal.
      * rewrite Nx in Ny. by destruct n, k.
      * by rewrite <- (arb_value _ _ _ _ Ax), <- (arb_value _ _ _ _ Ay).
    + eapply sarb_frame; [by destruct y|exact T3|unfold disjoint, vec in *; lia].
Qed.

Section sum.
Context (m : mem) (this o tmp sc sn : Z) (x y : snum) (Hw : wf m) (Hx : sarb m this x) (Hy : sarb m o y).
Context (Hal : this = o \/ disjoint this (cap + 2) o (cap + 2)).
Context (Vt : valid m tmp (cap + 1)) (Dtt : disjoint this (cap + 2) tmp (cap + 1)) (Dot : disjoint o (cap + 2) tmp (cap + 1)).
Context (Vs : valid m sc sn) (Dts : disjoint this (cap + 2) sc sn) (Dos : disjoint o (cap + 2) sc sn) (Dms : disjoint tmp (cap + 1) sc sn) (Hsn : cap <= sn).

(** The cells a sum writes. *)
Definition sum_cells (this tmp sc sn k : Z) : Prop := sobj this k \/ obj tmp k \/ vec sc sn k.

(** The larger magnitude is on the right: the difference is built aside and swapped in. *)
Lemma sub_reversed : x.2 < y.2 -> this <> o -> returns (m1 ← Arbuint.copy Bits m tmp o;
    m2 ← Arbuint.sub_assign Bits m1 tmp this sc;
    m3 ← swap_with Bits m2 this tmp;
    b ← signed.negative Bits m3 o;
    signed.set_ng Bits m3 this b) (swrites (sum_cells this tmp sc sn) m this (y.1, y.2 - x.2)).
Proof.
  intros Hlt Hne. destruct Hal as [|Hd]; [done|]. pose proof (cap_facts Bits HBits) as [Hc0 _]. pose proof Hx as [Ax Vx Nx]. pose proof Hy as [Ay Vy Ny].
  pose proof (arb_bound _ _ _ _ Ax). pose proof (arb_bound _ _ _ _ Ay).
  eapply returns_bind; [apply (object_copy_spec Bits HBits m tmp o y.2); [done|done|done|right; unfold disjoint in *; lia]|]. intros m1 [T1 A1].
  pose proof (touches_alen _ _ _ T1).
  assert (arb m1 this x.2) as Ax1 by (eapply (arb_frame Bits HBits); [exact Ax|exact T1|unfold disjoint, vec in *; lia]).
  eapply returns_bind.
  { apply (sub_assign_spec Bits HBits m1 tmp this y.2 x.2) with (sn := sn); [wf_mem|done|done| | | | |done]; unfold disjoint, valid in *; lia. }
  intros m2 [T2 A2]. pose proof (touches_alen _ _ _ T2). rewrite Z.mod_small in A2 by lia.
  assert (arb m2 this x.2) as Ax2 by (eapply (arb_frame Bits HBits); [exact Ax1|exact T2|unfold disjoint, vec in *; lia]).
  eapply returns_bind; [apply (swap_with_spec Bits HBits m2 this tmp); [wf_mem|apply Ax2|apply A2|right; unfold disjoint in *; lia|exact Ax2|exact A2]|].
  intros m3 (T3 & A3 & _). pose proof (touches_alen _ _ _ T3).
  assert (sarb m3 o y) as Hy3.
  { apply (sarb_frame _ m2 m3 o y) with (2 := T3); [|unfold disjoint, vec in *; lia].
    apply (sarb_frame _ m1 m2 o y) with (2 := T2); [|unfold disjoint, vec in *; lia].
    apply (sarb_frame _ m m1 o y Hy T1). unfold disjoint, vec in *. lia. }
  rewrite (negative_spec _ _ _ Hy3). cbn [mbind option_bind].
  eapply returns_mono; [apply (set_ng_spec m3 this (y.2 - x.2) y.1); [wf_mem|exact A3|unfold valid in *; lia]|]. intros m4 [T4 A4].
  split; [|done]. apply (touches_trans _ m m2 m4); [apply (touches_trans _ m m1 m2)|apply (touches_trans _ m2 m3 m4)];
    (eapply touches_mono; [eassumption|]); unfold sum_cells, vec; lia.
Qed.

Lemma add_assign_signed : returns (signed.add_assign Bits m this o tmp sc) (swrites (sum_cells this tmp sc sn) m this (add_pair M x y)).
Proof.
  pose proof (cap_facts Bits HBits) as [Hc0 _]. pose proof Hx as [Ax Vx Nx]. pose proof Hy as [Ay Vy Ny].
  pose proof (arb_bound _ _ _ _ Ax) as Bx. pose proof (arb_bound _ _ _ _ Ay) as By.
  assert (this = o \/ disjoint this (cap + 1) o (cap + 1)) as Hal1 by (destruct Hal; [by left|right; unfold disjoint in *; lia]).
  unfold signed.add_assign, add_pair. rewrite (arb_is_zero_spec Bits HBits m o y.2 Hw Ay). cbn [mbind option_bind].
  destruct (Z.eqb_spec y.2 0) as [Ey|Ey]; [apply returns_ret; split; [by apply touches_refl|done]|].
  rewrite (arb_is_zero_spec Bits HBits m this x.2 Hw Ax). cbn [mbind option_bind].
  destruct (Z.eqb_spec x.2 0) as [Ex|Ex].
  { eapply returns_mono; [apply (copy_signed_spec m this o y); [done|done|done|done]|]. intros m1 [T1 A1]. split; [|done].
    eapply touches_mono; [exact T1|unfold sum_cells; tauto]. }
  rewrite (negative_spec _ _ _ Hx), (negative_spec _ _ _ Hy). cbn [mbind option_bind].
  destruct (Bool.eqb x.1 y.1) eqn:En.
  { eapply returns_mono; [by apply (add_assign_spec Bits HBits m this o x.2 y.2)|]. intros m1 HW.
    split; [destruct HW as [T1 _]; eapply touches_mono; [exact T1|unfold sum_cells, vec; lia]|].
    apply (keep_sign _ _ _ _ _ _ Hx HW). unfold vec. lia. }
  rewrite (arb_cmp_spec Bits HBits m this o x.2 y.2 Hw Ax Ay). cbn [mbind option_bind].
  destruct (Z.compare_spec x.2 y.2) as [E|Hlt|Hgt]; cbn [sign_of Z.eqb Z.ltb Z.compare].
  - eapply returns_mono; [by apply set_zero_signed|]. intros m1 [T1 A1]. split; [|done]. eapply touches_mono; [exact T1|unfold sum_cells; tauto].
  - assert (this <> o) as Hne.
    { intros <-. rewrite <- (arb_value _ _ _ _ Ax), <- (arb_value _ _ _ _ Ay) in Hlt. lia. }
    eapply returns_bind; [by apply sub_reversed|]. intros m1 [T1 A1].
    eapply returns_mono; [apply (fix_zero_spec m1 this _ ltac:(wf_mem) A1)|]. intros m2 [T2 A2].
    rewrite fixz_canonical in A2 by (unfold canonical; cbn; lia). split; [|done].
    apply (touches_trans _ m m1 m2 T1). eapply touches_mono; [exact T2|unfold sum_cells, vec; lia].
  - eapply returns_bind.
    { apply (sub_assign_spec Bits HBits m this o x.2 y.2) with (sn := sn); [done|done|done|done|done| | |done]; unfold disjoint in *; lia. }
    intros m1 HW. rewrite Z.mod_small in HW by lia.
    eapply returns_mono; [apply (finish_kept _ _ _ x _ _ HW Hx); unfold disjoint, vec in *; lia|]. intros m2 [T2 A2].
    rewrite fixz_canonical in A2 by (unfold canonical; cbn; lia). split; [|done]. eapply touches_mono; [exact T2|unfold sum_cells, vec; lia].
Qed.
End sum.
(** Operands, temporaries and scratch limbs of an operation. *)
Section operands.
Context (m : mem) (this o tmp tn sc sn : Z) (x y : snum) (Hw : wf m) (Hx : sarb m this x) (Hy : sarb m o y).
Context (Hal : this = o \/ disjoint this (cap + 2) o (cap + 2)).
Context (Vt : valid m tmp tn) (Dtt : disjoint this (cap + 2) tmp tn) (Dot : disjoint o (cap + 2) tmp tn) (Htn : 2 * (cap + 2) <= tn).
Context (Vs : valid m sc sn) (Dts : disjoint this (cap + 2) sc sn) (Dos : disjoint o (cap + 2) sc sn) (Dms : disjoint tmp tn sc sn).
Context (Hsub : cap <= sn) (Hmul : mul_scratch_limbs Bits <= sn) (Hdiv : div_scratch_limbs Bits <= sn) (Htwos : 2 * (cap + 1) <= sn).
Context (HS : Solver <> solver.nussbaumer).

(** The cells an operation writes. *)
Definition op_cells (this tmp tn sc sn k : Z) : Prop := sobj this k \/ vec tmp tn k \/ vec sc sn k.
Abbreviation cells := (op_cells this tmp tn sc sn).

Lemma magnitudes_apart : this = o \/ disjoint this (cap + 1) o (cap + 1).
Proof. destruct Hal; [by left|right; unfold disjoint in *; lia]. Qed.

Lemma sub_assign_signed : returns (signed.sub_assign Bits m this o tmp sc) (swrites cells m this (add_pair M x (opp_pair y))).
Proof.
  pose proof (cap_facts Bits HBits) as [Hc0 _]. pose proof Hx as [Ax Vx Nx]. pose proof Hy as [Ay Vy Ny].
  unfold signed.sub_assign. change (signed.object_size Bits) with (cap + 2). rewrite (arb_is_zero_spec Bits HBits m o y.2 Hw Ay). cbn [mbind option_bind].
  destruct (Z.eqb_spec y.2 0) as [Ey|Ey].
  { unfold add_pair, opp_pair. cbn [fst snd]. rewrite Ey. apply returns_ret. split; [by apply touches_refl|done]. }
  destruct (Z.eqb_spec this o) as [E|Hne].
  { assert (add_pair M x (opp_pair y) = (false, 0)) as ->.
    { assert (x = y) as -> by (destruct x as [n a], y as [k c]; cbn [fst snd] in *; subst o; f_equal;
        [rewrite Nx in Ny; by destruct n, k|by rewrite <- (arb_value _ _ _ _ Ax), <- (arb_value _ _ _ _ Ay)]).
      unfold add_pair, opp_pair. cbn [fst snd]. rewrite (proj2 (Z.eqb_neq y.2 0)) by done.
      destruct y.1; cbn [negb Bool.eqb]; by rewrite Z.compare_refl. }
    eapply returns_mono; [by apply set_zero_signed|]. intros m1 [T1 A1]. split; [|done]. eapply touches_mono; [exact T1|unfold op_cells; tauto]. }
  destruct Hal as [|Hd]; [done|]. cbv zeta.
  eapply returns_bind; [apply (copy_signed_spec m tmp o y); [done|done|unfold valid in *; lia|right; unfold disjoint in *; lia]|]. intros m1 [T1 A1].
  pose proof (touches_alen _ _ _ T1). rewrite (negative_spec _ _ _ A1). cbn [mbind option_bind].
  eapply returns_bind; [apply (set_ng_spec m1 tmp y.2 (negb y.1)); [wf_mem|apply A1|apply A1]|]. intros m2 [T2 A2]. pose proof (touches_alen _ _ _ T2).
  assert (sarb m2 this x) as Hx2.
  { apply (sarb_frame _ m1 m2 this x) with (2 := T2); [|unfold disjoint, vec in *; lia]. apply (sarb_frame _ m m1 this x Hx T1). unfold disjoint, vec in *. lia. }
  eapply returns_mono.
  { apply (add_assign_signed m2 this tmp (tmp + (cap + 2)) sc sn x (opp_pair y)); [wf_mem|exact Hx2|exact A2|right|..];
      unfold disjoint, valid in *; lia. }
  intros m3 [T3 A3]. split; [|done].
  apply (touches_trans _ m m2 m3); [apply (touches_trans _ m m1 m2)|]; (eapply touches_mono; [eassumption|]); unfold op_cells, sum_cells, vec; lia.
Qed.

Lemma mul_assign_signed : returns (signed.mul_assign Bits Solver m this o sc) (swrites cells m this (mul_pair M x y)).
Proof.
  pose proof (cap_facts Bits HBits) as [Hc0 _]. pose proof Hx as [Ax Vx Nx]. pose proof Hy as [Ay Vy Ny]. pose proof magnitudes_apart as Hal1.
  unfold signed.mul_assign. rewrite (negative_spec _ _ _ Hx), (negative_spec _ _ _ Hy). cbn [mbind option_bind].
  eapply returns_bind.
  { apply (mul_assign_spec Bits Solver HBits m this o x.2 y.2) with (sn := sn); [done|done|done|done|done| | |done|done]; unfold disjoint in *; lia. }
  intros m1 [T1 A1]. unfold mul_pair. replace (xorb x.1 y.1) with (negb (Bool.eqb x.1 y.1)) by (by destruct x.1, y.1).
  apply finish_sign; [split; [eapply touches_mono; [exact T1|]|done]|done|]; unfold op_cells, vec; lia.
Qed.

(** Division: an exception leaves everything as it was. *)
Definition sthrows_or (z : snum) (out : outcome) : Prop :=
  match out with domain_error m' => y.2 = 0 /\ m' = m | returned m' => y.2 <> 0 /\ swrites cells m this z m' end.

Lemma div_assign_signed : returns (signed.div_assign Bits m this o sc) (sthrows_or (div_pair x y)).
Proof.
  pose proof (cap_facts Bits HBits) as [Hc0 _]. pose proof Hx as [Ax Vx Nx]. pose proof Hy as [Ay Vy Ny]. pose proof magnitudes_apart as Hal1.
  unfold signed.div_assign, Arbuint.div_assign. rewrite (negative_spec _ _ _ Hx), (negative_spec _ _ _ Hy). cbn [mbind option_bind].
  eapply returns_bind.
  { apply (divmod_into_spec Bits HBits m this o x.2 y.2 sc sn); [done|done|done|done|done| | |done]; unfold disjoint in *; lia. }
  intros [m1|m1]; cbn [throws_or]; [|intros [E ->]; by apply returns_ret]. intros [Ey [T1 A1]].
  destruct (finish_sign cells m this (x.2 / y.2) m1 (negb (Bool.eqb x.1 y.1))) as (m3 & E3 & HW); [|done|unfold op_cells, vec; lia|].
  { split; [eapply touches_mono; [exact T1|unfold op_cells, vec; lia]|done]. }
  destruct (signed.set_ng Bits m1 this _) as [m2|]; [|done]. cbn [mbind option_bind] in *. rewrite E3. apply returns_ret. split; [done|].
  unfold div_pair. by replace (xorb x.1 y.1) with (negb (Bool.eqb x.1 y.1)) by (by destruct x.1, y.1).
Qed.

Lemma mod_assign_signed : returns (signed.mod_assign Bits m this o sc) (sthrows_or (mod_pair x y)).
Proof.
  pose proof (cap_facts Bits HBits) as [Hc0 _]. pose proof Hx as [Ax Vx Nx]. pose proof Hy as [Ay Vy Ny]. pose proof magnitudes_apart as Hal1.
  unfold signed.mod_assign, Arbuint.mod_assign.
  eapply returns_bind.
  { apply (divmod_into_spec Bits HBits m this o x.2 y.2 sc sn); [done|done|done|done|done| | |done]; unfold disjoint in *; lia. }
  intros [m1|m1]; cbn [throws_or]; [|intros [E ->]; by apply returns_ret]. intros [Ey HW].
  eapply returns_bind; [apply (finish_kept _ _ _ x _ _ HW Hx); unfold disjoint, vec in *; lia|]. intros m2 [T2 A2]. apply returns_ret.
  split; [done|]. split; [|done]. eapply touches_mono; [exact T2|unfold op_cells, vec; lia].
Qed.

Lemma shl_assign_signed k : 0 <= k -> returns (signed.shl_assign Bits m this k) (swrites cells m this (shl_pair M x k)).
Proof.
  intros Hk. pose proof (cap_facts Bits HBits) as [Hc0 _]. pose proof Hx as [Ax Vx Nx]. unfold signed.shl_assign.
  eapply returns_bind; [by apply (shl_assign_spec Bits HBits m this x.2 k)|]. intros m1 HW.
  eapply returns_mono; [apply (finish_kept _ _ _ x _ _ HW Hx); unfold vec; lia|]. intros m2 [T2 A2]. split; [|done].
  eapply touches_mono; [exact T2|unfold op_cells, vec; lia].
Qed.

(** Bits are lost exactly when the lowest set bit is below the shift. *)
Lemma lost_bits k : x.2 <> 0 -> 0 <= k ->
  exists s, (n ← size Bits m this; scan1 m this n) = Some s /\ Z.ltb s k = negb (Z.eqb (x.2 mod 2 ^ k) 0).
Proof.
  intros Hne Hk. pose proof Hx as [Ax Vx Nx]. rewrite (arb_size Bits HBits _ _ _ Ax). cbn [mbind option_bind].
  destruct (scan1_spec m this (cell m (this + cap)) Hw (arb_prefix Bits m this x.2 Ax)) as (s & -> & Hs). exists s. split; [done|].
  rewrite (arb_value _ _ _ _ Ax) in Hs. destruct Hs as [[? _]|(q & Hs & E)]; [done|]. rewrite E.
  pose proof (Z.pow_pos_nonneg 2 k ltac:(lia) Hk). destruct (Z.ltb_spec s k) as [Hlt|Hge].
  - rewrite (proj2 (Z.eqb_neq _ 0)); [done|]. replace k with (s + (k - s)) by lia. rewrite Z.pow_add_r, Z.mul_mod_distr_l by lia.
    assert ((2 * q + 1) mod 2 ^ (k - s) <> 0) as Hm.
    { replace (k - s) with (Z.succ (k - s - 1)) by lia. rewrite Z.pow_succ_r by lia.
      rewrite Z.rem_mul_r by lia. replace ((2 * q + 1) mod 2) with 1 by (rewrite Z.add_comm, Z.mul_comm, Z.mod_add; [done|lia]).
      pose proof (Z.mod_pos_bound ((2 * q + 1) / 2) (2 ^ (k - s - 1)) ltac:(apply Z.pow_pos_nonneg; lia)). lia. }
    pose proof (Z.pow_pos_nonneg 2 s ltac:(lia) ltac:(lia)). nia.
  - replace s with (s - k + k) by lia. rewrite Z.pow_add_r by lia. replace (2 ^ (s - k) * 2 ^ k * (2 * q + 1)) with (2 ^ (s - k) * (2 * q + 1) * 2 ^ k) by ring.
    by rewrite Z.mod_mul by lia.
Qed.
Lemma shr_assign_signed k : 0 <= k -> returns (signed.shr_assign Bits m this k tmp) (swrites cells m this (shr_pair x k)).
Proof.
  intros Hk. pose proof (cap_facts Bits HBits) as [Hc0 _]. pose proof Hx as [Ax Vx Nx]. pose proof (arb_bound _ _ _ _ Ax) as Bx.
  unfold signed.shr_assign, shr_pair. rewrite (arb_is_zero_spec Bits HBits m this x.2 Hw Ax). cbn [mbind option_bind].
  destruct (orb _ _) eqn:E; [apply returns_ret; split; [by apply touches_refl|done]|]. apply orb_false_elim in E as [Ex%Z.eqb_neq Ek%Z.eqb_neq].
  rewrite (negative_spec _ _ _ Hx). cbn [mbind option_bind]. destruct (lost_bits k Ex Hk) as (s & Es & Hlost).
  assert ((if x.1 then n ← size Bits m this; s ← scan1 m this n; Some (Z.ltb s k) else Some false) =
    Some (andb x.1 (negb (Z.eqb (x.2 mod 2 ^ k) 0)))) as ->.
  { destruct x.1; [|done]. rewrite <- Hlost. destruct (size Bits m this); [|done]. cbn [mbind option_bind] in *. by rewrite Es. }
  cbn [mbind option_bind]. destruct (shr_round M modulus_two x.2 k Bx ltac:(lia)) as (H1 & H2 & H3).
  eapply returns_bind; [by apply (shr_assign_spec Bits HBits m this x.2 k)|]. intros m1 [T1 A1]. pose proof (touches_alen _ _ _ T1).
  set (lost := andb x.1 (negb (Z.eqb (x.2 mod 2 ^ k) 0))) in *.
  eapply returns_bind with (P := writes Bits (fun c => obj this c \/ obj tmp c) m this (x.2 / 2 ^ k + Z.b2z lost)).
  - destruct lost eqn:El; cbn [Z.b2z].
    + eapply returns_bind; [apply (one_spec Bits HBits m1 tmp); [wf_mem|unfold valid in *; lia]|]. intros m2 [T2 A2].
      assert (arb m2 this (x.2 / 2 ^ k)) as A2' by (eapply (arb_frame Bits HBits); [exact A1|exact T2|unfold disjoint, vec in *; lia]).
      eapply returns_mono; [apply (add_assign_spec Bits HBits m2 this tmp _ _ ltac:(wf_mem) A2' A2); right; unfold disjoint in *; lia|].
      intros m3 [T3 A3]. subst lost. apply andb_prop in El as [_ El%negb_true_iff]. rewrite El in H2. cbn [Z.b2z] in H2.
      rewrite Z.mod_small in A3 by lia. split; [|done].
      apply (touches_trans _ m m1 m3); [|apply (touches_trans _ m1 m2 m3)]; (eapply touches_mono; [eassumption|]); unfold vec; lia.
    + apply returns_ret. rewrite Z.add_0_r. split; [eapply touches_mono; [exact T1|tauto]|done].
  - intros m2 HW. eapply returns_mono; [apply (finish_kept _ _ _ x _ _ HW Hx); unfold disjoint, vec in *; lia|]. intros m3 [T3 A3].
    split; [|done]. eapply touches_mono; [exact T3|unfold op_cells, vec; lia].
Qed.
End operands.

(** ** Bitwise operations *)

(** The vector holds the two's complement of the number. *)
Lemma to_twos_spec m this out n x : wf m -> sarb m this x -> cell m (this + cap) <= n -> valid m out n -> disjoint this (cap + 2) out n ->
  returns (signed.__to_twos Bits m this out n) (fun m' => touches (vec out n) m m' /\ num m' out n = sval x mod base ^ n).
Proof.
  intros Hw Hx Hn Vo Do. pose proof (cap_facts Bits HBits) as [Hc0 _]. pose proof Hx as [Ax Vx Nx]. pose proof (arb_count _ _ _ _ Ax) as Hc.
  unfold signed.__to_twos. rewrite (arb_size Bits HBits _ _ _ Ax). cbn [mbind option_bind]. pose proof (arb_value _ _ _ _ Ax) as Ev.
  set (k := cell m (this + cap)) in *.
  eapply returns_bind; [apply (copyi_spec m out this k); [done|vecs..]|]. intros m1 [M1 V1].
  eapply returns_bind; [apply (zero_spec m1 (out + k) (n - k)); [wf_mem|vecs]|]. intros m2 [M2 V2].
  assert (touches (vec out n) m m2) as T2 by (drop_values; touched).
  assert (num m2 out n = x.2) as E2.
  { rewrite (num_split_at m2 out k n), V2 by lia. rewrite (modifies_num _ _ _ _ out k M2) by vecs. lia. }
  assert (sarb m2 this x) as Hx2 by (eapply sarb_frame; [exact Hx|exact T2|unfold disjoint, vec in *; lia]).
  rewrite (negative_spec _ _ _ Hx2). cbn [mbind option_bind].
  pose proof (num_range m2 out n ltac:(wf_mem) ltac:(lia)) as Hr. rewrite E2 in Hr. unfold sval. destruct x.1.
  - eapply returns_bind; [apply (neg_spec m2 out out n); [wf_mem|vecs|vecs|left; lia]|]. intros [m3 c] (M3 & -> & E3). apply returns_ret.
    split; [drop_values; touched|]. rewrite E3, E2. destruct (Z.eqb_spec x.2 0) as [->|Hne]; [rewrite Z.opp_0, Z.mod_0_l; lia|].
    rewrite Z.mod_opp_l_nz by (rewrite ?Z.mod_small by lia; lia). rewrite Z.mod_small by lia. lia.
  - apply returns_ret. split; [done|]. by rewrite E2, Z.mod_small by lia.
Qed.
Lemma msb_set t : is_limb t -> negb (Z.eqb (Z.land t limb_msb) 0) = Z.leb (base / 2) t.
Proof.
  intros Ht. pose proof limb_bits_pos as Hlw. pose proof half_base as Hh. unfold is_limb in Ht.
  assert (base / 2 = 2 ^ (limb_bits - 1)) as -> by (rewrite Hh; apply Z.div_mul; lia). set (j := limb_bits - 1) in *.
  pose proof (Z.pow_pos_nonneg 2 j ltac:(lia) ltac:(lia)) as P.
  assert (limb_msb = 2 ^ j) as ->.
  { unfold limb_msb. rewrite Z.shiftl_mul_pow2, Z.mul_1_l by lia. apply to_limb_id. unfold is_limb. fold j. lia. }
  assert (Z.testbit t j = Z.leb (2 ^ j) t) as Eb.
  { replace (Z.testbit t j) with (Z.testbit (t / 2 ^ j) 0) by (rewrite Z.div_pow2_bits by lia; f_equal; lia). destruct (Z.leb_spec (2 ^ j) t).
    - replace (t / 2 ^ j) with 1; [done|]. apply (Z.div_unique_pos _ _ _ (t - 2 ^ j)); lia.
    - rewrite Z.div_small by lia. apply Z.bits_0. }
  rewrite <- Eb. destruct (Z.testbit t j) eqn:E.
  - rewrite (proj2 (Z.eqb_neq _ 0)); [done|]. intros E0. apply (f_equal (fun z => Z.testbit z j)) in E0.
    rewrite Z.land_spec, E, Z.pow2_bits_true, Z.bits_0 in E0 by lia. done.
  - rewrite (proj2 (Z.eqb_eq _ 0)); [done|]. apply Z.bits_inj'. intros i Hi. rewrite Z.land_spec, Z.bits_0, Z.pow2_bits_eqb by lia.
    destruct (Z.eqb_spec j i) as [<-|]; [by rewrite E|apply andb_false_r].
Qed.

(** The number a two's complement vector holds, cut to the modulus. *)
Lemma from_twos_spec P m0 m this in_ n r : touches P m0 m -> valid m0 this (cap + 2) -> valid m0 in_ n -> 1 <= n -> disjoint this (cap + 2) in_ n ->
  (forall k, sobj this k -> P k) -> (forall k, vec in_ n k -> P k) ->
  num m in_ n = r mod base ^ n -> - base ^ (n - 1) <= r < base ^ (n - 1) ->
  returns (signed.__from_twos Bits m this in_ n) (swrites P m0 this (of_int M r)).
Proof.
  intros T Vt Vi Hn Dti HPt HPi E Hr. pose proof (cap_facts Bits HBits) as [Hc0 _]. pose proof (touches_alen _ _ _ T). pose proof base_ge as HB.
  pose proof (touches_wf _ _ _ T) as Hw. unfold signed.__from_twos. rewrite (get_cell m (in_ + (n - 1))) by vecs. cbn [mbind option_bind].
  pose proof (base_pow_pos (n - 1) ltac:(lia)) as Pn. assert (base ^ n = base * base ^ (n - 1)) as En by (rewrite <- Z.pow_succ_r by lia; f_equal; lia).
  assert (r mod base ^ n = if Z.ltb r 0 then r + base ^ n else r) as Em.
  { destruct (Z.ltb_spec r 0); [|apply Z.mod_small; nia]. symmetry. apply (Z.mod_unique_pos _ _ (-1)); nia. }
  rewrite (msb_set _ (wf_cell _ _ Hw)).
  assert (Z.leb (base / 2) (cell m (in_ + (n - 1))) = Z.ltb r 0) as ->.
  { pose proof (num_range m in_ (n - 1) Hw ltac:(lia)) as Rl. pose proof (wf_cell m (in_ + (n - 1)) Hw) as [Hc1 Hc2].
    replace n with (n - 1 + 1) in E at 1 by lia. rewrite num_succ, Em in E by lia. set (t := cell m (in_ + (n - 1))) in *.
    pose proof (Z.div_mod base 2 ltac:(lia)). pose proof (Z.mod_pos_bound base 2 ltac:(lia)). set (h := base / 2) in *. clearbody h t.
    destruct (Z.ltb_spec r 0); [apply Z.leb_le|apply Z.leb_gt]; nia. }
  cbv zeta. eapply returns_bind with (P := fun m1 => touches P m0 m1 /\ num m1 in_ n = Z.abs r).
  { destruct (Z.ltb_spec r 0) as [Hneg|Hpos].
    - eapply returns_bind; [apply (neg_spec m in_ in_ n); [done|vecs|vecs|left; lia]|]. intros [m1 c] (M1 & -> & E1). apply returns_ret.
      split; [apply (touches_trans _ m0 m m1 T); eapply touches_mono; [exact M1|done]|].
      rewrite E1, E, Em. rewrite (proj2 (Z.eqb_neq _ 0)) by nia. lia.
    - apply returns_ret. split; [done|]. rewrite E, Em. lia. }
  intros m1 [T1 E1]. pose proof (touches_alen _ _ _ T1). pose proof (touches_wf _ _ _ T1) as W1.
  eapply returns_bind.
  { unfold __assign_limbs. apply (store_result Bits HBits P m0 m1 this in_ n (Z.abs r)); [done|unfold valid in *; lia| |done|unfold disjoint in *; lia|done].
    intros k Hk. apply HPt. unfold vec in *. lia. }
  intros m2 HW. apply (finish_sign P m0 this _ m2 (Z.ltb r 0) HW Vt). intros k Hk. apply HPt. unfold vec in *. lia.
Qed.
Definition bit_fun (which : signed.bitop) : Z -> Z -> Z := match which with signed.b_and => Z.land | signed.b_ior => Z.lor | signed.b_xor => Z.lxor end.

Definition bit_op (which : signed.bitop) : bool -> bool -> bool := match which with signed.b_and => andb | signed.b_ior => orb | signed.b_xor => xorb end.

Lemma bit_fun_spec which (x y i : Z) : 0 <= i -> Z.testbit (bit_fun which x y) i = bit_op which (Z.testbit x i) (Z.testbit y i).
Proof. intros _. destruct which; [apply Z.land_spec|apply Z.lor_spec|apply Z.lxor_spec]. Qed.

(** The magnitude of an object is below the base to its count. *)
Lemma sval_bound m p x n : wf m -> sarb m p x -> cell m (p + cap) <= n -> - base ^ n < sval x < base ^ n.
Proof.
  intros Hw [Ax _ _] Hn. pose proof (arb_count _ _ _ _ Ax) as Hc. pose proof (num_range m p (cell m (p + cap)) Hw ltac:(lia)) as Hr.
  rewrite (arb_value _ _ _ _ Ax) in Hr. pose proof base_ge as HB. pose proof (Z.pow_le_mono_r base (cell m (p + cap)) n base_pos Hn).
  unfold sval. destruct x.1; lia.
Qed.

Lemma bitwise_assign_signed which m this o sc sn x y P : wf m -> sarb m this x -> sarb m o y -> valid m sc sn ->
  disjoint this (cap + 2) sc sn -> disjoint o (cap + 2) sc sn -> 2 * (cap + 1) <= sn ->
  (forall k, sobj this k -> P k) -> (forall k, vec sc sn k -> P k) ->
  returns (signed.__bitwise Bits which m this o sc) (swrites P m this (of_int M (bit_fun which (sval x) (sval y)))).
Proof.
  intros Hw Hx Hy Vs Dts Dos Hsn HPt HPs. pose proof (cap_facts Bits HBits) as [Hc0 _]. pose proof base_ge as HB. unfold signed.__bitwise.
  pose proof Hx as [Ax Vx _]. pose proof Hy as [Ay Vy _]. rewrite (arb_size Bits HBits _ _ _ Ax), (arb_size Bits HBits _ _ _ Ay). cbn [mbind option_bind].
  pose proof (arb_count _ _ _ _ Ax) as Cx. pose proof (arb_count _ _ _ _ Ay) as Cy.
  pose proof (sval_bound m this x (Z.max (cell m (this + cap)) (cell m (o + cap))) Hw Hx ltac:(lia)) as Bx.
  pose proof (sval_bound m o y (Z.max (cell m (this + cap)) (cell m (o + cap))) Hw Hy ltac:(lia)) as By.
  set (an := cell m (this + cap)) in *. set (bn := cell m (o + cap)) in *. cbv zeta.
  assert ((if Z.ltb bn an then an else bn) = Z.max an bn) as -> by (destruct (Z.ltb_spec bn an); lia). set (n := Z.max an bn + 1).
  replace (Z.max an bn) with (n - 1) in Bx, By by (unfold n; lia). assert (1 <= n <= cap + 1) as Hn by (unfold n; lia).
  eapply returns_bind; [apply (to_twos_spec m this sc n x); [done|done|unfold n; fold an; lia|vecs|unfold disjoint in *; lia]|]. intros m1 [T1 E1].
  pose proof (touches_alen _ _ _ T1). pose proof (touches_wf _ _ _ T1) as W1.
  assert (sarb m1 o y) as Hy1 by (eapply sarb_frame; [exact Hy|exact T1|unfold disjoint, vec in *; lia]).
  assert (cell m1 (o + cap) = bn) as Ebn by (unfold bn; apply (touches_cell _ _ _ _ T1); unfold disjoint, vec in *; lia).
  eapply returns_bind; [apply (to_twos_spec m1 o (sc + n) n y); [done|done|rewrite Ebn; unfold n; lia|vecs|unfold disjoint in *; lia]|]. intros m2 [T2 E2].
  pose proof (touches_alen _ _ _ T2). pose proof (touches_wf _ _ _ T2) as W2.
  assert (num m2 sc n = sval x mod base ^ n) as E1' by (rewrite (touches_num _ _ _ _ _ T2) by vecs; done).
  assert (touches (vec sc sn) m m2) as T02 by (apply (touches_trans _ m m1 m2); (eapply touches_mono; [eassumption|]); unfold vec; lia).
  eapply returns_bind with (P := fun m3 => modifies sc n m2 m3 /\ num m3 sc n = bit_fun which (num m2 sc n) (num m2 (sc + n) n)).
  { destruct which; [apply (bitwise_up Z.land andb)|apply (bitwise_up Z.lor orb)|apply (bitwise_up Z.lxor xorb)]; try done; try (intros; first [apply Z.land_spec|apply Z.lor_spec|apply Z.lxor_spec]); try vecs; left; lia. }
  intros m3 [M3 E3]. rewrite E1', E2, base_pow2 in E3 by lia. rewrite (bitwise_mod _ (bit_op which)) in E3;
    [|by apply bit_fun_spec|by destruct which|pose proof limb_bits_pos; nia].
  assert (touches (vec sc sn) m m3) as T03 by (apply (touches_trans _ m m2 m3 T02); eapply touches_mono; [exact M3|unfold vec; lia]).
  apply (from_twos_spec P m m3 this sc n); try done.
  - eapply touches_mono; [exact T03|done].
  - vecs.
  - lia.
  - unfold disjoint in *. lia.
  - intros k Hk. apply HPs. unfold vec in *. lia.
  - by rewrite base_pow2 by lia.
  - rewrite base_pow2 in * by lia. apply (bitwise_signed _ (bit_op which)); [by apply bit_fun_spec|pose proof limb_bits_pos; nia|lia|lia].
Qed.
End arbint.
