(* ===== verification/ArbintOps.v ===== *)
(** The operators of the signed integers, built from the compound assignments: what each
    computes on sign and magnitude, and as an integer. *)
From stdpp Require Import base numbers list option.
From Stdlib Require Import ZArith Lia.
From S2P Require Import Prelude Arrays Limb Mpn MpnValue MpnArith MpnBits MpnFrame MpnToom3 Thresholds MpnTiers MpnDc Arbuint ArbuintProof ArbuintDiv ArbuintBits ArbuintConv ArbTower Arbint SignMagnitude ArbintProof.

Local Open Scope Z_scope.

(** Membership in, and inclusion of, lists of objects that are written out. *)
Ltac member := first [left|right; member].
Ltac included := let q := fresh in intros q; rewrite !elem_of_cons; tauto.

(** ** The operators on integers *)

Definition divides (op : binary_operator) : bool := match op with divide | modulo => true | _ => false end.

Definition additive (op : binary_operator) : bool := match op with plus | minus => true | _ => false end.

(** The exact result. *)
Definition exact (op : binary_operator) (x y : Z) : Z :=
  match op with
  | plus => x + y
  | minus => x - y
  | times => x * y
  | divide => Z.quot x y
  | modulo => Z.rem x y
  | bit_and => Z.land x y
  | bit_or => Z.lor x y
  | bit_xor => Z.lxor x y
  end.

Section pairs.
Context (M : Z) (HM : 2 <= M).

Definition op_pair (op : binary_operator) (x y : snum) : snum :=
  match op with
  | plus => add_pair M x y
  | minus => add_pair M x (opp_pair y)
  | times => mul_pair M x y
  | divide => div_pair x y
  | modulo => mod_pair x y
  | bit_and => of_int M (Z.land (sval x) (sval y))
  | bit_or => of_int M (Z.lor (sval x) (sval y))
  | bit_xor => of_int M (Z.lxor (sval x) (sval y))
  end.

Lemma quotient_small x y : in_range M x -> in_range M y -> y.2 <> 0 -> clip M (Z.quot (sval x) (sval y)) = Z.quot (sval x) (sval y) /\
  clip M (Z.rem (sval x) (sval y)) = Z.rem (sval x) (sval y).
Proof.
  intros Rx Ry Hy. assert (0 < y.2) as Hpos by (unfold in_range in Ry; lia). destruct (div_pair_value M x y Rx Hpos) as [<- <-].
  destruct (div_pair_range M HM x y Rx Hpos) as [R1 R2].
  split; apply clip_small; unfold in_range, sval in *; [destruct (div_pair x y).1|destruct (mod_pair x y).1]; lia.
Qed.

Lemma op_pair_value op x y : in_range M x -> in_range M y -> (divides op = true -> y.2 <> 0) ->
  sval (op_pair op x y) = clip M (exact op (sval x) (sval y)).
Proof.
  intros Rx Ry Hd. destruct op; cbn [op_pair exact divides] in *.
  1: by apply add_pair_value.
  1: rewrite add_pair_value by done; by rewrite sval_opp.
  1: by apply mul_pair_value.
  1,2: specialize (Hd eq_refl); destruct (quotient_small x y Rx Ry Hd) as [E1 E2]; rewrite ?E1, ?E2; apply (div_pair_value M); [done|unfold in_range in Ry; lia].
  all: by apply of_int_value.
Qed.

(** A result is zero with a sign exactly when it is a sum of -2^Bits. *)
Lemma op_pair_signed_zero op x y : in_range M x -> in_range M y -> canonical x -> canonical y ->
  op_pair op x y = (true, 0) <-> additive op = true /\ exact op (sval x) (sval y) = - M.
Proof.
  intros Rx Ry Cx Cy.
  assert (forall z, canonical z -> z <> (true, 0)) as Hc by (intros [n a] Hz E; injection E as -> ->; by apply Hz).
  assert (forall u, in_range M u -> (u.2 <> 0 -> canonical u) -> (add_pair M x u = (true, 0) <-> sval x + sval u = - M)) as Hadd.
  { intros u Ru Cu. destruct (Z.eq_dec u.2 0) as [Eu|Hu].
    - unfold add_pair. rewrite (proj2 (Z.eqb_eq u.2 0)) by done. split; [by intros E%Hc|]. unfold sval, in_range in *. destruct x.1, u.1; lia.
    - specialize (Cu Hu). destruct (Z.eq_dec (sval x + sval u) (- M)) as [E|E].
      + split; [done|]. intros _. unfold in_range in *. apply add_pair_negative_zero; try done; unfold sval in E; destruct x.1, u.1; try done; lia.
      + split; [|done]. intros E'. by destruct (Hc _ (add_pair_canonical M HM x u Rx Ru Cx Cu E)). }
  destruct op; cbn [op_pair exact additive].
  1: rewrite (Hadd y) by done; tauto.
  1: rewrite (Hadd (opp_pair y)) by (done || (intros ? E; cbn in *; done)); rewrite sval_opp; rewrite Z.add_opp_r; tauto.
  all: split; [intros E; exfalso; revert E; apply Hc; (apply of_int_canonical || apply canonical_fixz)|intros [? _]; done].
Qed.
End pairs.

(** ** The compound assignments *)

Section operators.
Context `{W : LimbWidth} `{BarrettTier} (Bits : Z) (Solver : solver.t) (HBits : 1 <= Bits <= 2 ^ 31) (HS : Solver <> solver.nussbaumer).
Abbreviation cap := (@cap_limbs W Bits).
Abbreviation M := (2 ^ Bits).
Abbreviation sobj p := (vec p (cap + 2)).
Abbreviation sarb := (sarb Bits).
Abbreviation swrites := (swrites Bits).
Abbreviation op_cells := (op_cells Bits).
Implicit Types (m : mem) (x y : snum).

(** The objects [ps], room for [c] temporary objects at [tmp] and scratch limbs at [sc]. *)
Record layout (c : Z) (m : mem) (ps : list Z) (tmp tn sc sn : Z) : Prop := {
  ly_objects : forall p, p ∈ ps -> valid m p (cap + 2) /\ disjoint p (cap + 2) tmp tn /\ disjoint p (cap + 2) sc sn;
  ly_apart : forall p q, p ∈ ps -> q ∈ ps -> p = q \/ disjoint p (cap + 2) q (cap + 2);
  ly_tmp : valid m tmp tn;
  ly_sc : valid m sc sn;
  ly_split : disjoint tmp tn sc sn;
  ly_room : 0 <= c /\ c * (cap + 2) <= tn;
  ly_scratch : cap <= sn /\ mul_scratch_limbs Bits <= sn /\ div_scratch_limbs Bits <= sn /\ 2 * (cap + 1) <= sn
}.

Lemma layout_step c m m' ps tmp tn sc sn : layout c m ps tmp tn sc sn -> alen m' = alen m -> layout c m' ps tmp tn sc sn.
Proof. intros [] E. constructor; try done; unfold valid in *; rewrite E; done. Qed.

Lemma layout_sub c m ps qs tmp tn sc sn : layout c m ps tmp tn sc sn -> (forall p, p ∈ qs -> p ∈ ps) -> layout c m qs tmp tn sc sn.
Proof. intros [] Hs. constructor; auto. Qed.

(** A temporary becomes an operand. *)
Lemma layout_push c m ps tmp tn sc sn : layout (c + 1) m ps tmp tn sc sn -> 0 <= c ->
  layout c m (tmp :: ps) (tmp + (cap + 2)) (tn - (cap + 2)) sc sn.
Proof.
  intros [Ho Ha Vt Vs Ds [Hc Hr] Hsc] Hc'. pose proof (cap_facts Bits HBits) as [Hc0 _]. assert (c * (cap + 2) + (cap + 2) <= tn) as Hr' by lia. clear Hr.
  assert (0 <= c * (cap + 2)) by nia. constructor; try done; try (unfold valid, disjoint in *; lia).
  - intros p [->|Hp]%elem_of_cons; [unfold valid, disjoint in *; lia|]. destruct (Ho p Hp) as (V & D1 & D2). unfold valid, disjoint in *. lia.
  - intros p q [->|Hp]%elem_of_cons [->|Hq]%elem_of_cons; [by left| | |by apply Ha].
    + right. destruct (Ho q Hq) as (_ & D1 & _). unfold disjoint in *. lia.
    + right. destruct (Ho p Hp) as (_ & D1 & _). unfold disjoint in *. lia.
Qed.

Lemma layout_apart c m ps tmp tn sc sn p q : layout c m ps tmp tn sc sn -> p ∈ ps -> q ∈ ps -> p <> q -> forall k, sobj q k -> ~ op_cells p tmp tn sc sn k.
Proof.
  intros L Hp Hq Hne k Hk. destruct (ly_objects _ _ _ _ _ _ _ L q Hq) as (_ & D1 & D2).
  destruct (ly_apart _ _ _ _ _ _ _ L p q Hp Hq) as [|D]; [done|]. unfold ArbintProof.op_cells, disjoint, vec in *. lia.
Qed.

(** What a compound assignment leaves: an exception leaves everything as it was. *)
Definition assigns (op : binary_operator) (cells : Z -> Prop) (m : mem) (this : Z) (x y : snum) (out : outcome) : Prop :=
  match out with
  | domain_error m' => divides op = true /\ y.2 = 0 /\ m' = m
  | returned m' => (divides op = true -> y.2 <> 0) /\ swrites cells m this (op_pair M op x y) m'
  end.

Lemma returning_spec p (P : mem -> Prop) (Q : outcome -> Prop) : returns p P -> (forall m, P m -> Q (returned m)) -> returns (returning p) Q.
Proof. intros (m & -> & Hm) HQ. eexists. split; [done|]. by apply HQ. Qed.

Lemma compound_signed op m this o tmp tn sc sn x y : wf m -> layout 2 m [this; o] tmp tn sc sn -> sarb m this x -> sarb m o y ->
  returns (signed.compound_assign Bits Solver op m this o tmp sc) (assigns op (op_cells this tmp tn sc sn) m this x y).
Proof.
  intros Hw L Hx Hy. pose proof L as [Ho Ha Vt Vs Ds [_ Hr] (Hs1 & Hs2 & Hs3 & Hs4)]. pose proof (cap_facts Bits HBits) as [Hc0 _].
  destruct (Ho this ltac:(member)) as (_ & Dtt & Dts). destruct (Ho o ltac:(member)) as (_ & Dot & Dos).
  pose proof (Ha this o ltac:(member) ltac:(member)) as Hal.
  destruct op; cbn [signed.compound_assign];
    try (eapply returning_spec; [|intros m' HW; split; [done|exact HW]]; cbn [op_pair]).
  - eapply returns_mono; [apply (add_assign_signed Bits HBits m this o tmp sc sn x y); try done; unfold disjoint, valid in *; lia|].
    intros m' [T A]. split; [|done]. eapply touches_mono; [exact T|]. unfold sum_cells, ArbintProof.op_cells, vec. lia.
  - by apply (sub_assign_signed Bits HBits).
  - by apply (mul_assign_signed Bits Solver HBits m this o tmp tn).
  - eapply returns_mono; [by apply (div_assign_signed Bits HBits m this o tmp tn sc sn x y)|]. intros [m'|m']; cbn; tauto.
  - eapply returns_mono; [by apply (mod_assign_signed Bits HBits m this o tmp tn sc sn x y)|]. intros [m'|m']; cbn; tauto.
  - apply (bitwise_assign_signed Bits HBits signed.b_and m this o sc sn x y); try done; unfold ArbintProof.op_cells; tauto.
  - apply (bitwise_assign_signed Bits HBits signed.b_ior m this o sc sn x y); try done; unfold ArbintProof.op_cells; tauto.
  - apply (bitwise_assign_signed Bits HBits signed.b_xor m this o sc sn x y); try done; unfold ArbintProof.op_cells; tauto.
Qed.

(** ** Operators that build their result *)

Definition produces (op : binary_operator) (cells : Z -> Prop) (m : mem) (r : Z) (x y : snum) (out : outcome) : Prop :=
  match out with
  | domain_error m' => divides op = true /\ y.2 = 0 /\ touches cells m m'
  | returned m' => (divides op = true -> y.2 <> 0) /\ swrites cells m r (op_pair M op x y) m'
  end.

(** A compound assignment after the result and a temporary were prepared. *)
Lemma then_compound op m m1 r o tmp tn tmp' tn' sc sn x y : touches (op_cells r tmp tn sc sn) m m1 -> layout 2 m1 [r; o] tmp' tn' sc sn ->
  sarb m1 r x -> sarb m1 o y -> (forall k, vec tmp' tn' k -> vec tmp tn k) ->
  returns (signed.compound_assign Bits Solver op m1 r o tmp' sc) (produces op (op_cells r tmp tn sc sn) m r x y).
Proof.
  intros T L Hx Hy Hin. eapply returns_mono; [by apply (compound_signed op m1 r o tmp' tn' sc sn x y (touches_wf _ _ _ T))|].
  intros [m2|m2]; cbn [assigns produces].
  - intros (Hd & T2 & A2). split; [done|]. split; [|done]. apply (touches_trans _ m m1 m2 T). eapply touches_mono; [exact T2|].
    intros k. unfold ArbintProof.op_cells. specialize (Hin k). tauto.
  - by intros (Hd & Hy0 & ->).
Qed.

Lemma operator_objects_signed op m r a b tmp tn sc sn x y : wf m -> layout 2 m [r; a; b] tmp tn sc sn -> r <> a -> r <> b ->
  sarb m a x -> sarb m b y ->
  returns (signed.operator_objects Bits Solver op m r a b tmp sc) (produces op (op_cells r tmp tn sc sn) m r x y).
Proof.
  intros Hw L Na Nb Hx Hy. unfold signed.operator_objects.
  eapply returns_bind; [apply (copy_signed_spec Bits HBits m r a x); [done|done|eapply ly_objects; [exact L|member]|eapply ly_apart; [exact L|member..]]|].
  intros m1 [T1 A1]. pose proof (touches_alen _ _ _ T1).
  apply (then_compound op m m1 r b tmp tn tmp tn); [eapply touches_mono; [exact T1|unfold ArbintProof.op_cells; tauto]| |done| |done].
  - apply (layout_step _ m); [|done]. eapply layout_sub; [exact L|included].
  - eapply (sarb_frame Bits HBits); [exact Hy|exact T1|]. intros k Hk Hk'.
    eapply (layout_apart _ m _ tmp tn sc sn r b L); [member|member|done|exact Hk|by left].
Qed.

Lemma operator_right_signed op m r a s w v tmp tn sc sn x : wf m -> layout 3 m [r; a] tmp tn sc sn -> r <> a -> sarb m a x ->
  integral_width w -> integral_value s w v ->
  returns (signed.operator_integral_right Bits Solver op m r a s w v tmp sc) (produces op (op_cells r tmp tn sc sn) m r x (of_int M v)).
Proof.
  intros Hw L Na Hx Hiw Hv. unfold signed.operator_integral_right. pose proof (cap_facts Bits HBits) as [Hc0 _].
  eapply returns_bind; [apply (copy_signed_spec Bits HBits m r a x); [done|done|eapply ly_objects; [exact L|member]|eapply ly_apart; [exact L|member..]]|].
  intros m1 [T1 A1]. pose proof (touches_alen _ _ _ T1) as E1. pose proof (layout_step _ m m1 _ _ _ _ _ L E1) as L1.
  pose proof (layout_push 2 m1 _ _ _ _ _ L1 ltac:(lia)) as L1'.
  eapply returns_bind; [apply (from_integral_signed Bits HBits m1 tmp s w v); [wf_mem|eapply ly_objects; [exact L1'|member]|done|done]|].
  intros m2 [T2 A2]. pose proof (touches_alen _ _ _ T2) as E2. pose proof (ly_room _ _ _ _ _ _ _ L) as [_ Hr].
  destruct (ly_objects _ _ _ _ _ _ _ L r ltac:(member)) as (_ & Drt & _).
  apply (then_compound op m m2 r tmp tmp tn (tmp + (cap + 2)) (tn - (cap + 2))); [| | |done|unfold vec; lia].
  - apply (touches_trans _ m m1 m2); (eapply touches_mono; [eassumption|]); unfold ArbintProof.op_cells, vec; lia.
  - apply (layout_step _ m1); [|done]. eapply layout_sub; [exact L1'|included].
  - eapply (sarb_frame Bits HBits); [exact A1|exact T2|unfold disjoint, vec in *; lia].
Qed.

Lemma operator_left_signed op m r a s w v tmp tn sc sn x : wf m -> layout 2 m [r; a] tmp tn sc sn -> r <> a -> sarb m a x ->
  integral_width w -> integral_value s w v ->
  returns (signed.operator_integral_left Bits Solver op m r s w v a tmp sc) (produces op (op_cells r tmp tn sc sn) m r (of_int M v) x).
Proof.
  intros Hw L Na Hx Hiw Hv. unfold signed.operator_integral_left.
  eapply returns_bind; [apply (from_integral_signed Bits HBits m r s w v); [done|eapply ly_objects; [exact L|member]|done|done]|].
  intros m1 [T1 A1]. pose proof (touches_alen _ _ _ T1).
  apply (then_compound op m m1 r a tmp tn tmp tn); [eapply touches_mono; [exact T1|unfold ArbintProof.op_cells; tauto]|by apply (layout_step _ m)|done| |done].
  eapply (sarb_frame Bits HBits); [exact Hx|exact T1|]. intros k Hk Hk'.
  eapply (layout_apart _ m _ tmp tn sc sn r a L); [member|member|done|exact Hk|by left].
Qed.

(** ** Increments, complements, quotient and remainder *)

Lemma returning_inv p (Q : outcome -> Prop) : returns (returning p) Q -> returns p (fun m => Q (returned m)).
Proof. intros (out & E & HQ). destruct p as [m|]; [|done]. cbn in E. injection E as <-. by exists m. Qed.

(** Adding or subtracting one, held in a temporary. *)
Lemma one_step op m this tmp tn sc sn x : op = plus \/ op = minus -> wf m -> layout 3 m [this] tmp tn sc sn -> sarb m this x ->
  returns (m1 ← signed.one Bits m tmp; signed.compound_assign Bits Solver op m1 this tmp (tmp + signed.object_size Bits) sc)
    (produces op (op_cells this tmp tn sc sn) m this x (false, 1)).
Proof.
  intros Hop Hw L Hx. pose proof (cap_facts Bits HBits) as [Hc0 _]. pose proof (layout_push 2 m _ _ _ _ _ L ltac:(lia)) as L'.
  pose proof (ly_room _ _ _ _ _ _ _ L) as [_ Hr]. destruct (ly_objects _ _ _ _ _ _ _ L this ltac:(member)) as (_ & Dt & _).
  eapply returns_bind; [apply (one_signed Bits HBits m tmp Hw); eapply ly_objects; [exact L'|member]|]. intros m1 [T1 A1].
  pose proof (touches_alen _ _ _ T1). change (signed.object_size Bits) with (cap + 2).
  apply (then_compound op m m1 this tmp tmp tn (tmp + (cap + 2)) (tn - (cap + 2))); [| | |done|unfold vec; lia].
  - eapply touches_mono; [exact T1|]. unfold ArbintProof.op_cells, vec. lia.
  - apply (layout_step _ m); [|done]. eapply layout_sub; [exact L'|included].
  - eapply (sarb_frame Bits HBits); [exact Hx|exact T1|unfold disjoint, vec in *; lia].
Qed.

Lemma increment_signed m this tmp tn sc sn x : wf m -> layout 3 m [this] tmp tn sc sn -> sarb m this x ->
  returns (signed.increment Bits m this tmp sc) (swrites (op_cells this tmp tn sc sn) m this (add_pair M x (false, 1))).
Proof.
  intros Hw L Hx. pose proof (one_step plus m this tmp tn sc sn x ltac:(by left) Hw L Hx) as Hs. unfold signed.increment.
  destruct (signed.one Bits m tmp) as [m1|]; cbn [mbind option_bind] in *; [|by destruct Hs as (? & ? & _)].
  eapply returns_mono; [exact (returning_inv _ _ Hs)|]. by intros m2 [_ HW].
Qed.

Lemma decrement_signed m this tmp tn sc sn x : wf m -> layout 3 m [this] tmp tn sc sn -> sarb m this x ->
  returns (signed.decrement Bits m this tmp sc) (swrites (op_cells this tmp tn sc sn) m this (add_pair M x (true, 1))).
Proof.
  intros Hw L Hx. pose proof (one_step minus m this tmp tn sc sn x ltac:(by right) Hw L Hx) as Hs. unfold signed.decrement.
  destruct (signed.one Bits m tmp) as [m1|]; cbn [mbind option_bind] in *; [|by destruct Hs as (? & ? & _)].
  eapply returns_mono; [exact (returning_inv _ _ Hs)|]. by intros m2 [_ HW].
Qed.

Lemma operator_minus_signed m r a x : wf m -> sarb m a x -> valid m r (cap + 2) -> disjoint r (cap + 2) a (cap + 2) ->
  returns (signed.operator_minus Bits m r a) (swrites (sobj r) m r (neg_pair x)).
Proof.
  intros Hw Hx Vr D. unfold signed.operator_minus. eapply returns_bind; [apply (copy_signed_spec Bits HBits m r a x); auto|]. intros m1 [T1 A1].
  eapply returns_mono; [apply (negate_spec Bits HBits m1 r x); [wf_mem|done]|]. intros m2 [T2 A2]. split; [by eapply touches_trans|done].
Qed.

Lemma operator_not_signed m r a tmp tn sc sn x : wf m -> layout 3 m [r; a] tmp tn sc sn -> r <> a -> sarb m a x ->
  returns (signed.operator_not Bits m r a tmp sc) (swrites (op_cells r tmp tn sc sn) m r (add_pair M (neg_pair x) (true, 1))).
Proof.
  intros Hw L Na Hx. destruct (ly_apart _ _ _ _ _ _ _ L r a ltac:(member) ltac:(member)) as [|D]; [done|].
  destruct (operator_minus_signed m r a x Hw Hx ltac:(eapply ly_objects; [exact L|member]) D) as (m1 & E1 & T1 & A1).
  unfold signed.operator_not. unfold signed.operator_minus in E1. destruct (signed.copy Bits m r a) as [m0|]; [|done].
  cbn [mbind option_bind] in *. rewrite E1. cbn [mbind option_bind].
  eapply returns_mono; [apply (decrement_signed m1 r tmp tn sc sn); [wf_mem| |exact A1]|].
  - apply (layout_step _ m); [eapply layout_sub; [exact L|included]|exact (touches_alen _ _ _ T1)].
  - intros m2 [T2 A2]. split; [|done]. apply (touches_trans _ m m1 m2); [|done]. eapply touches_mono; [exact T1|]. unfold ArbintProof.op_cells. tauto.
Qed.

(** Quotient and remainder in one call. *)
Definition divides_both (cells : Z -> Prop) (m : mem) (quot rem : Z) (x y : snum) (out : outcome) : Prop :=
  match out with
  | domain_error m' => y.2 = 0 /\ touches cells m m'
  | returned m' => y.2 <> 0 /\ touches cells m m' /\ sarb m' quot (div_pair x y) /\ sarb m' rem (mod_pair x y)
  end.

Lemma divmod_signed m quot rem a b tmp tn sc sn x y : wf m -> layout 2 m [quot; rem; a; b] tmp tn sc sn ->
  quot <> rem -> quot <> a -> quot <> b -> rem <> a -> rem <> b -> sarb m a x -> sarb m b y ->
  returns (signed.divmod Bits m quot rem a b sc) (divides_both (fun k => sobj rem k \/ op_cells quot tmp tn sc sn k) m quot rem x y).
Proof.
  intros Hw L Nqr Nqa Nqb Nra Nrb Hx Hy. unfold signed.divmod.
  assert (forall p q, p ∈ [quot; rem; a; b] -> q ∈ [quot; rem; a; b] -> p <> q -> disjoint p (cap + 2) q (cap + 2)) as Hap.
  { intros p q Hp Hq Hne. by destruct (ly_apart _ _ _ _ _ _ _ L p q Hp Hq). }
  pose proof (Hap rem a ltac:(member) ltac:(member) Nra) as Dra. pose proof (Hap rem b ltac:(member) ltac:(member) Nrb) as Drb.
  pose proof (Hap quot a ltac:(member) ltac:(member) Nqa) as Dqa. pose proof (Hap quot b ltac:(member) ltac:(member) Nqb) as Dqb.
  pose proof (Hap quot rem ltac:(member) ltac:(member) Nqr) as Dqr. clear Hap.
  eapply returns_bind; [apply (copy_signed_spec Bits HBits m quot a x); [done|done|eapply ly_objects; [exact L|member]|by right]|]. intros m1 [T1 A1].
  pose proof (touches_alen _ _ _ T1) as E1.
  eapply returns_bind; [apply (copy_signed_spec Bits HBits m1 rem a x); [wf_mem| |eapply ly_objects; [exact (layout_step _ _ _ _ _ _ _ _ L E1)|member]|by right]|].
  { eapply (sarb_frame Bits HBits); [exact Hx|exact T1|unfold disjoint, vec in *; lia]. }
  intros m2 [T2 A2]. pose proof (touches_alen _ _ _ T2) as E2. rewrite E1 in E2.
  assert (forall p z, disjoint quot (cap + 2) p (cap + 2) -> disjoint rem (cap + 2) p (cap + 2) -> sarb m p z -> sarb m2 p z) as Hkeep.
  { intros p z D1 D2 Hz. eapply (sarb_frame Bits HBits); [eapply (sarb_frame Bits HBits); [exact Hz|exact T1|]|exact T2|]; unfold disjoint, vec in *; lia. }
  assert (sarb m2 quot x) as Aq by (eapply (sarb_frame Bits HBits); [exact A1|exact T2|unfold disjoint, vec in *; lia]).
  assert (touches (fun k => sobj rem k \/ op_cells quot tmp tn sc sn k) m m2) as T02.
  { apply (touches_trans _ m m1 m2); (eapply touches_mono; [eassumption|]); unfold ArbintProof.op_cells; tauto. }
  assert (layout 2 m2 [quot; b] tmp tn sc sn) as L2 by (apply (layout_step _ m); [eapply layout_sub; [exact L|included]|done]).
  eapply returns_bind; [apply (compound_signed divide m2 quot b tmp tn sc sn x y ltac:(wf_mem) L2 Aq (Hkeep b y Dqb Drb Hy))|].
  intros [m3|m3]; cbn [assigns]; [|intros (_ & Hy0 & ->); apply returns_ret; by split]. intros [Hne [T3 A3]]. specialize (Hne eq_refl).
  pose proof (touches_alen _ _ _ T3) as E3. rewrite E2 in E3.
  assert (forall p z, p ∈ [quot; rem; a; b] -> quot <> p -> sarb m2 p z -> sarb m3 p z) as Hkeep3.
  { intros p z Hp Hne' Hz. eapply (sarb_frame Bits HBits); [exact Hz|exact T3|]. eapply layout_apart; [exact L|member|done|done]. }
  eapply returns_mono; [apply (compound_signed modulo m3 rem b tmp tn sc sn x y); [wf_mem| |apply Hkeep3; [member|done|done]|apply Hkeep3; [member|done|by apply Hkeep]]|].
  { apply (layout_step _ m); [eapply layout_sub; [exact L|included]|done]. }
  intros [m4|m4]; cbn [assigns divides_both]; [|by intros (_ & ? & _)]. intros (_ & T4 & A4). split; [done|]. split; [|split; [|done]].
  - apply (touches_trans _ m m2 m4 T02), (touches_trans _ m2 m3 m4); (eapply touches_mono; [eassumption|]); unfold ArbintProof.op_cells; tauto.
  - eapply (sarb_frame Bits HBits); [exact A3|exact T4|]. apply (layout_apart 2 m [quot; rem; a; b] tmp tn sc sn rem quot L); [member|member|congruence].
Qed.

(** ** Absolute value, square and power *)

Lemma abs_signed m r a x : wf m -> sarb m a x -> valid m r (cap + 2) -> r = a \/ disjoint r (cap + 2) a (cap + 2) ->
  returns (signed.abs Bits m r a) (swrites (sobj r) m r (false, x.2)).
Proof.
  intros Hw Hx Vr D. apply (from_magnitude_spec Bits HBits m r a x.2 false Hw (sa_mag _ _ _ _ Hx) Vr).
  destruct D; [by left|right; unfold disjoint in *; lia].
Qed.

Lemma sqr_signed m r a tmp tn sc sn x : wf m -> layout 1 m [r; a] tmp tn sc sn -> sarb m a x ->
  returns (signed.sqr Bits Solver m r a tmp sc) (swrites (op_cells r tmp tn sc sn) m r (false, (x.2 * x.2) mod M)).
Proof.
  intros Hw L Hx. pose proof (cap_facts Bits HBits) as [Hc0 _]. pose proof L as [Ho Ha Vt Vs Ds [_ Hr] (_ & Hs2 & _)].
  destruct (Ho a ltac:(member)) as (_ & Dat & Das). destruct (Ho r ltac:(member)) as (Vr & Drt & _). unfold signed.sqr.
  eapply returns_bind; [apply (arb_sqr_spec Bits Solver HBits HS m tmp a x.2 sc sn Hw (sa_mag _ _ _ _ Hx)); try done; unfold valid, disjoint in *; lia|].
  intros m1 [T1 A1]. pose proof (touches_alen _ _ _ T1).
  eapply returns_mono; [apply (from_magnitude_spec Bits HBits m1 r tmp _ false ltac:(wf_mem) A1); [unfold valid in *; lia|right; unfold disjoint in *; lia]|].
  intros m2 [T2 A2]. split; [|done]. apply (touches_trans _ m m1 m2); (eapply touches_mono; [eassumption|]); unfold ArbintProof.op_cells, vec; lia.
Qed.

Lemma pow_signed m r a e tmp tn sc sn x : wf m -> layout 2 m [r; a] tmp tn sc sn -> sarb m a x -> 0 <= e < 2 ^ 64 ->
  returns (signed.pow Bits Solver m r a e tmp sc) (swrites (op_cells r tmp tn sc sn) m r (fixz (andb x.1 (Z.odd e), x.2 ^ e mod M))).
Proof.
  intros Hw L Hx He. pose proof (cap_facts Bits HBits) as [Hc0 _]. pose proof L as [Ho Ha Vt Vs Ds [_ Hr] (_ & Hs2 & _)].
  destruct (Ho a ltac:(member)) as (_ & Dat & Das). destruct (Ho r ltac:(member)) as (Vr & Drt & _). unfold signed.pow.
  rewrite (negative_spec Bits HBits m a x Hx). cbn [mbind option_bind]. cbv zeta. change (signed.object_size Bits) with (cap + 2).
  assert (negb (Z.eqb (Z.land e 1) 0) = Z.odd e) as ->.
  { change 1 with (Z.ones 1). rewrite Z.land_ones by lia. rewrite Z.pow_1_r, Zmod_odd. by destruct (Z.odd e). }
  eapply returns_bind.
  { apply (pow_spec Bits HBits Solver HS tmp (tmp + (cap + 2)) sc sn Hs2) with (v := x.2); try done; try apply (sa_mag _ _ _ _ Hx); unfold valid, disjoint in *; lia. }
  intros m1 [T1 A1]. pose proof (touches_alen _ _ _ T1).
  eapply returns_mono; [apply (from_magnitude_spec Bits HBits m1 r tmp _ _ ltac:(wf_mem) A1); [unfold valid in *; lia|right; unfold disjoint in *; lia]|].
  intros m2 [T2 A2]. split; [|done]. apply (touches_trans _ m m1 m2); (eapply touches_mono; [eassumption|]); unfold ArbintProof.op_cells, vec; lia.
Qed.

(** ** Shifts *)

Lemma shr_signed m this tmp tn sc sn x k : wf m -> layout 2 m [this] tmp tn sc sn -> sarb m this x -> 0 <= k ->
  returns (signed.shr_assign Bits m this k tmp) (swrites (op_cells this tmp tn sc sn) m this (shr_pair x k)).
Proof.
  intros Hw L Hx Hk. pose proof L as [Ho Ha Vt Vs Ds [_ Hr] (Hs1 & Hs2 & Hs3 & Hs4)]. destruct (Ho this ltac:(member)) as (_ & Dt & Ds').
  apply (shr_assign_signed Bits HBits m this this tmp tn sc sn x); try done; by left.
Qed.

Lemma operator_shifts_signed m r a tmp tn sc sn x k : wf m -> layout 2 m [r; a] tmp tn sc sn -> sarb m a x -> 0 <= k ->
  returns (signed.operator_shl Bits m r a k) (swrites (op_cells r tmp tn sc sn) m r (shl_pair M x k)) /\
  returns (signed.operator_shr Bits m r a k tmp) (swrites (op_cells r tmp tn sc sn) m r (shr_pair x k)).
Proof.
  intros Hw L Hx Hk. unfold signed.operator_shl, signed.operator_shr.
  destruct (copy_signed_spec Bits HBits m r a x) as (m1 & -> & T1 & A1);
    [done|done|eapply ly_objects; [exact L|member]|eapply ly_apart; [exact L|member..]|].
  cbn [mbind option_bind]. assert (touches (op_cells r tmp tn sc sn) m m1) as T1' by (eapply touches_mono; [exact T1|unfold ArbintProof.op_cells; tauto]).
  assert (layout 2 m1 [r] tmp tn sc sn) as L1.
  { apply (layout_step _ m); [eapply layout_sub; [exact L|included]|exact (touches_alen _ _ _ T1)]. }
  split; (eapply returns_mono;
    [(apply (shl_assign_signed Bits HBits m1 r tmp tn sc sn x) || apply (shr_signed m1 r tmp tn sc sn x)); [wf_mem|try done..]|]);
    intros m2 [T2 A2]; (split; [by eapply touches_trans|done]).
Qed.

(** ** Comparisons and constants *)

Definition compares (m : mem) (p q v w : Z) : Prop :=
  signed.cmp Bits m p q = Some (sign_of (v ?= w)) /\
  signed.equal Bits m p q = Some (Z.eqb v w) /\ signed.not_equal Bits m p q = Some (negb (Z.eqb v w)) /\
  signed.less Bits m p q = Some (Z.ltb v w) /\ signed.less_equal Bits m p q = Some (Z.leb v w) /\
  signed.greater Bits m p q = Some (Z.ltb w v) /\ signed.greater_equal Bits m p q = Some (Z.leb w v).

Lemma compares_signed m p q x y : wf m -> sarb m p x -> sarb m q y -> compares m p q (sval x) (sval y).
Proof.
  intros Hw Hx Hy. pose proof (cmp_signed Bits HBits m p q x y Hw Hx Hy) as E.
  unfold compares, signed.equal, signed.not_equal, signed.less, signed.less_equal, signed.greater, signed.greater_equal. rewrite E. cbn [mbind option_bind].
  destruct (Z.compare_spec (sval x) (sval y)); cbn [sign_of Z.eqb Z.ltb Z.leb Z.compare negb]; split_and!; done || (f_equal; lia).
Qed.

Lemma cmp_integral_signed m a s w v tmp tn sc sn x : wf m -> layout 1 m [a] tmp tn sc sn -> sarb m a x -> integral_width w -> integral_value s w v ->
  signed.cmp_integral Bits m a s w v tmp = Some (sign_of (sval x ?= clip M v)) /\
  signed.cmp_integral_left Bits m s w v a tmp = Some (sign_of (clip M v ?= sval x)).
Proof.
  intros Hw L Hx Hiw Hv. pose proof (cap_facts Bits HBits) as [Hc0 _]. pose proof (layout_push 0 m _ _ _ _ _ L ltac:(lia)) as L'.
  assert (signed.cmp_integral Bits m a s w v tmp = Some (sign_of (sval x ?= clip M v))) as E.
  { unfold signed.cmp_integral. destruct (from_integral_signed Bits HBits m tmp s w v Hw) as (m1 & -> & T1 & A1); [eapply ly_objects; [exact L'|member]|done|done|].
    cbn [mbind option_bind]. rewrite <- of_int_value. apply (cmp_signed Bits HBits m1 a tmp); [wf_mem| |done].
    eapply (sarb_frame Bits HBits); [exact Hx|exact T1|]. destruct (ly_objects _ _ _ _ _ _ _ L a ltac:(member)) as (_ & D & _).
    pose proof (ly_room _ _ _ _ _ _ _ L). unfold disjoint, vec in *. lia. }
  split; [done|]. unfold signed.cmp_integral_left. rewrite E. cbn [mbind option_bind]. rewrite (Z.compare_antisym (sval x)). by destruct (sval x ?= clip M v).
Qed.

Lemma power_of_two_signed m r k tmp tn sc sn : wf m -> layout 1 m [r] tmp tn sc sn -> 0 <= k ->
  returns (signed.power_of_two Bits m r k tmp) (swrites (op_cells r tmp tn sc sn) m r (false, 2 ^ k mod M)).
Proof.
  intros Hw L Hk. pose proof (cap_facts Bits HBits) as [Hc0 _]. pose proof L as [Ho _ Vt _ _ [_ Hr] _]. destruct (Ho r ltac:(member)) as (Vr & Drt & _).
  unfold signed.power_of_two. eapply returns_bind; [apply (power_of_two_spec Bits HBits m tmp k Hw); [unfold valid in *; lia|done]|].
  intros m1 [T1 A1]. pose proof (touches_alen _ _ _ T1).
  eapply returns_mono; [apply (from_magnitude_spec Bits HBits m1 r tmp _ false ltac:(wf_mem) A1); [unfold valid in *; lia|right; unfold disjoint in *; lia]|].
  intros m2 [T2 A2]. split; [|done]. apply (touches_trans _ m m1 m2); (eapply touches_mono; [eassumption|]); unfold ArbintProof.op_cells, vec; lia.
Qed.
End operators.

(** ** The values of the unary operators *)

Section values.
Context (M : Z) (HM : 2 <= M).

Lemma neg_pair_range x : in_range M x -> in_range M (neg_pair x).
Proof. done. Qed.

Lemma not_pair_value x : in_range M x -> sval (add_pair M (neg_pair x) (true, 1)) = clip M (Z.lnot (sval x)).
Proof.
  intros Rx. rewrite add_pair_value; [|done|by apply neg_pair_range|unfold in_range; cbn; lia]. rewrite neg_pair_value. f_equal.
Qed.

Lemma sqr_pair_value x : in_range M x -> sval (false, (x.2 * x.2) mod M) = clip M (sval x * sval x).
Proof.
  intros Rx. unfold in_range in Rx. assert (sval x * sval x = x.2 * x.2) as -> by (unfold sval; destruct x.1; lia).
  symmetry. apply (clip_mag M HM false). nia.
Qed.

Lemma pow_pair_value x e : in_range M x -> 0 <= e -> sval (fixz (andb x.1 (Z.odd e), x.2 ^ e mod M)) = clip M (sval x ^ e).
Proof.
  intros Rx He. unfold in_range in Rx. rewrite sval_fixz. unfold sval at 1. cbn [fst snd]. pose proof (Z.pow_nonneg x.2 e ltac:(lia)) as Hp.
  rewrite <- (clip_mag M HM) by done. f_equal. unfold sval. destruct x.1; cbn [andb]; [|done]. destruct (Z.odd e) eqn:Eo.
  - by rewrite Z.pow_opp_odd by (by apply Z.odd_spec).
  - rewrite Z.pow_opp_even; [done|]. apply Z.even_spec. by rewrite <- Z.negb_odd, Eo.
Qed.
End values.
