(* ===== verification/ArbintText.v ===== *)
(** The overloads of math/arbint/convert.hpp for signed integers: a sign in front of the
    numeral of the magnitude. *)
From Stdlib Require Import Ascii String.
From stdpp Require Import base numbers list option.
From Stdlib Require Import ZArith Lia.
From S2P Require Import Prelude Arrays Limb Mpn MpnValue MpnArith MpnBits MpnFrame Thresholds MpnTiers MpnDc Arbuint ArbuintProof ArbuintDiv ArbuintConv ArbConvert Radix ArbPrint ArbTower ArbScan ArbFormat Arbint SignMagnitude ArbintProof.

Local Open Scope Z_scope.

Module signed_chars.
Section overloads.
Context `{LimbWidth} `{BarrettTier} (Bits : Z) (Solver : solver.t).

Definition to_chars (m : mem) (buf : list Z) (b0 cap a base : Z) (upper : bool) (work : Z) : option (mem * list Z * Z) :=
  ng ← signed.negative Bits m a;
  if negb ng then ArbConvert.to_chars Bits m buf b0 cap a base upper work
  else if Z.eqb cap 0 then Some (m, buf, 0)
  else
    buf ← aset buf b0 (ch "-");
    '(m, buf, k) ← ArbConvert.to_chars Bits m buf (b0 + 1) (cap - 1) a base upper work;
    Some (m, buf, if Z.eqb k 0 then 0 else k + 1).

(** [mag] is the local magnitude and [t] the constructed value that is assigned. *)
Definition from_chars (m : mem) (out : Z) (text : list Z) (p n base mag t tower tmp st sc : Z) : option (mem * bool) :=
  if Z.eqb n 0 then Some (m, false)
  else
    c ← text.[p];
    let signed_text := orb (Z.eqb c (ch "-")) (Z.eqb c (ch "+")) in
    let neg := Z.eqb c (ch "-") in
    let i := if signed_text then 1 else 0 in
    if andb signed_text (Z.eqb n 1) then Some (m, false)
    else
      m ← store Bits m mag;
      '(m, ok) ← ArbConvert.from_chars Bits Solver m mag text (p + i) (n - i) base tower tmp st sc;
      if negb ok then Some (m, false)
      else
        m ← signed.from_magnitude Bits m t mag neg;
        m ← signed.copy Bits m out t;
        Some (m, true).

Definition to_string (new_buffer : Z -> list Z) (m : mem) (a base : Z) (upper : bool) (work : Z) : option (list Z) :=
  bl ← arb_bit_length Bits m a;
  let cap := bl + 3 in
  let buf := new_buffer cap in
  '(_, buf, len) ← to_chars m buf 0 (cap - 1) a base upper work;
  buf ← aset buf len 0;
  Some (until_nul buf).
End overloads.
End signed_chars.

Section texts.
Context `{W : LimbWidth} `{B : BarrettTier} (Bits : Z) (Solver : solver.t) (HBits : 1 <= Bits <= 2 ^ 31) (HS : Solver <> solver.nussbaumer).
Abbreviation cap := (@cap_limbs W Bits).
Abbreviation M := (2 ^ Bits).
Abbreviation sobj p := (vec p (cap + 2)).
Abbreviation sarb := (sarb Bits).
Implicit Types (m : mem) (x y : snum) (buf text : list Z).

(** ** Printing *)

Definition signed_numeral (b : Z) (upper : bool) (x : snum) : list Z :=
  if x.1 then ch "-" :: numeral b upper x.2 else numeral b upper x.2.

(** The characters the call needs. *)
Definition signed_room (x : snum) : Z := Z.b2z x.1 + Z.max 1 (bit_length x.2).

(** A call that has no room returns 0, and may have written the sign. *)
Definition printed (buf : list Z) (b0 room : Z) (b : Z) (upper : bool) (x : snum) (buf' : list Z) (len : Z) : Prop :=
  if orb (bad_base b) (Z.ltb room (signed_room x)) then len = 0 /\ alen buf' = alen buf /\ forall i, x.1 = false \/ i <> b0 -> buf'.[i] = buf.[i]
  else len = alen (signed_numeral b upper x) /\ holds_text buf b0 room (signed_numeral b upper x) buf'.

Lemma signed_to_chars_spec m buf b0 room a x b upper work : wf m -> sarb m a x -> valid m work cap -> disjoint work cap a (cap + 2) ->
  0 <= b0 -> 0 <= room -> b0 + room <= alen buf ->
  returns (signed_chars.to_chars Bits m buf b0 room a b upper work) (fun '(m', buf', len) => touches (vec work cap) m m' /\ printed buf b0 room b upper x buf' len).
Proof.
  intros Hw Hx Vw Dw H0 Hr Hfit. pose proof (sa_mag _ _ _ _ Hx) as Ha. assert (disjoint work cap a (cap + 1)) as Dw' by (unfold disjoint in *; lia).
  unfold signed_chars.to_chars. rewrite (negative_spec Bits HBits m a x Hx). cbn [mbind option_bind]. unfold printed, signed_room, signed_numeral.
  destruct x as [[] v]; cbn [fst snd negb Z.b2z] in *.
  2: { eapply returns_mono; [by apply (to_chars_spec Bits HBits m buf b0 room a v b upper work)|]. intros [[m1 buf1] len] [T R]. split; [done|].
    destruct (orb _ _); [by destruct R as [-> ->]|done]. }
  destruct (Z.eqb_spec room 0) as [->|Hr0].
  { apply returns_ret. split; [by apply touches_refl|]. rewrite (proj2 (Z.ltb_lt 0 _)), Bool.orb_true_r by lia. done. }
  rewrite aset_in by lia. cbn [mbind option_bind]. set (buf0 := upd buf b0 (ch "-")). assert (alen buf0 = alen buf) as L0 by apply alen_upd.
  eapply returns_bind; [apply (to_chars_spec Bits HBits m buf0 (b0 + 1) (room - 1) a v b upper work); try done; lia|].
  intros [[m1 buf1] len] [T R]. apply returns_ret. split; [done|].
  replace (Z.ltb room (1 + Z.max 1 (bit_length v))) with (Z.ltb (room - 1) (Z.max 1 (bit_length v))) by lia.
  destruct (orb _ _) eqn:Eo.
  - destruct R as [-> ->]. cbn [Z.eqb]. split; [done|]. split; [done|]. intros i [?|Hi]; [done|]. unfold buf0. by rewrite aget_upd_ne.
  - destruct R as (-> & L1 & T1 & F1). pose proof (numeral_nonempty b upper v) as Hne. rewrite (proj2 (Z.eqb_neq _ 0)) by lia.
    unfold holds_text. assert (alen (ch "-" :: numeral b upper v) = 1 + alen (numeral b upper v)) as -> by (unfold alen; cbn [length]; lia).
    split; [lia|]. split; [lia|]. split.
    + rewrite text_at_split by lia. rewrite T1. change 1 with (0 + 1) at 1. rewrite (text_at_succ buf1 b0 0 (ch "-")); [done|lia|lia|].
      rewrite Z.add_0_r, F1 by lia. apply aget_upd_eq. lia.
    + intros i Hi. rewrite F1 by lia. apply aget_upd_ne; lia.
Qed.
(** The text as a string: the empty one for a base out of range. *)
Lemma signed_to_string_spec new_buffer m a x b upper work : wf m -> sarb m a x -> valid m work cap -> disjoint work cap a (cap + 2) ->
  (forall n, 0 <= n -> alen (new_buffer n) = n) ->
  signed_chars.to_string Bits new_buffer m a b upper work = Some (if bad_base b then [] else signed_numeral b upper x).
Proof.
  intros Hw Hx Vw Dw Hnew. pose proof (sa_mag _ _ _ _ Hx) as Ha. pose proof (arb_bound _ _ _ _ Ha) as [Hv0 _]. pose proof (bit_length_pow x.2 Hv0) as [_ HL].
  unfold signed_chars.to_string. rewrite (arb_bit_length_spec Bits HBits m a x.2 Hw Ha). cbn [mbind option_bind]. cbv zeta.
  pose proof (Hnew (bit_length x.2 + 3) ltac:(lia)) as El. set (buf := new_buffer _) in *. clearbody buf.
  destruct (signed_to_chars_spec m buf 0 (bit_length x.2 + 3 - 1) a x b upper work) as ([[m1 buf1] len] & -> & _ & R); try done; [lia|lia|].
  cbn [mbind option_bind]. unfold printed in R. rewrite (proj2 (Z.ltb_ge _ (signed_room x))), Bool.orb_false_r in R by (unfold signed_room; destruct x.1; cbn [Z.b2z]; lia).
  destruct (bad_base b) eqn:Eb.
  - destruct R as (-> & L & _). apply (terminated_spec buf1 []); [done|constructor|]. change (alen []) with 0. lia.
  - apply bad_base_spec in Eb as Hb. destruct R as (-> & L & T & _). pose proof (padded_nonzero b upper Hb) as Hnz. apply terminated_spec; [done| |].
    + unfold signed_numeral. destruct x.1; [constructor; [done|]|]; apply Hnz.
    + rewrite L, El. unfold signed_numeral. assert (alen (numeral b upper x.2) <= Z.max 1 (bit_length x.2)) as Hn.
      { unfold numeral. rewrite padded_alen. pose proof (ndigits_bits b Hb x.2 Hv0). lia. }
      destruct x.1; [|lia]. unfold alen in *. cbn [length]. lia.
Qed.

(** ** Scanning *)

(** The sign and the digits of a text. *)
Definition split_sign (l : list Z) : bool * list Z :=
  match l with
  | [] => (false, [])
  | c :: l' => if Z.eqb c (ch "-") then (true, l') else if Z.eqb c (ch "+") then (false, l') else (false, l)
  end.

Definition is_signed_numeral (b : Z) (l : list Z) : bool := let '(_, t) := split_sign l in andb (negb (Z.eqb (alen t) 0)) (is_numeral b t).

Definition signed_value (b : Z) (l : list Z) : Z := let '(neg, t) := split_sign l in if neg then - text_value b t else text_value b t.
Lemma of_magnitude (neg : bool) v : 0 <= v -> fixz (neg, v mod M) = of_int M (if neg then - v else v).
Proof.
  intros Hv. unfold of_int, fixz. cbn [fst snd]. destruct neg.
  - rewrite Z.abs_opp, Z.abs_eq by lia. f_equal. destruct (Z.ltb_spec (- v) 0); [done|]. assert (v = 0) as -> by lia. by rewrite Z.mod_0_l by (pose proof (modulus_two Bits HBits); lia).
  - rewrite Z.abs_eq by lia. by rewrite (proj2 (Z.ltb_ge v 0)) by lia.
Qed.

Lemma text_at_cons text p n c : 0 <= p -> 0 < n -> text.[p] = Some c -> text_at text p n = c :: text_at text (p + 1) (n - 1).
Proof.
  intros Hp Hn Hc. unfold text_at. unfold aget in Hc. rewrite decide_True in Hc by lia. rewrite (drop_S _ _ _ Hc).
  replace (Z.to_nat n) with (S (Z.to_nat (n - 1))) by lia. cbn [take]. do 3 f_equal. lia.
Qed.

(** The text after its sign. *)
Lemma split_sign_text text p n c : 0 <= p -> 0 < n -> p + n <= alen text -> text.[p] = Some c ->
  let signed_text := orb (Z.eqb c (ch "-")) (Z.eqb c (ch "+")) in
  let i := if signed_text then 1 else 0 in
  split_sign (text_at text p n) = (Z.eqb c (ch "-"), text_at text (p + i) (n - i)) /\ alen (text_at text (p + i) (n - i)) = n - i.
Proof.
  intros Hp Hn Hfit Hc st i. split; [|subst i; apply text_at_alen; destruct st; lia].
  rewrite (text_at_cons text p n c Hp Hn Hc).
  subst i st. unfold split_sign. destruct (Z.eqb c (ch "-")); [done|]. destruct (Z.eqb c (ch "+")); [done|]. cbn [orb].
  by rewrite Z.add_0_r, Z.sub_0_r, (text_at_cons text p n c Hp Hn Hc).
Qed.

Lemma split_sign_shorter text p n : 0 <= p -> 0 <= n -> p + n <= alen text -> alen (split_sign (text_at text p n)).2 <= n.
Proof.
  intros Hp Hn Hfit. destruct (Z.eq_dec n 0) as [->|]; [done|]. destruct (aget_in text p ltac:(lia)) as [c Hc].
  destruct (split_sign_text text p n c Hp ltac:(lia) Hfit Hc) as [-> E]. cbn [snd]. rewrite E. destruct (orb _ _); lia.
Qed.

(** An object and its sign outside the working memory. *)
Definition signed_outside (w : workspace) (m : mem) (p : Z) : Prop := valid m p (cap + 2) /\ (p + (cap + 2) <= ws_sc w \/ ws_end w <= p).

Definition scan_cells (w : workspace) (out mag t k : Z) : Prop := sobj out k \/ sobj mag k \/ sobj t k \/ ws_sc w <= k < ws_end w.

(** A text that is not a number leaves the object as it was. *)
Lemma signed_from_chars_spec w m out mag t text p n b x : wf m -> laid_out Bits w m -> sarb m out x ->
  signed_outside w m out -> signed_outside w m mag -> signed_outside w m t ->
  disjoint out (cap + 2) mag (cap + 2) -> disjoint out (cap + 2) t (cap + 2) -> disjoint mag (cap + 2) t (cap + 2) ->
  0 <= p -> 0 <= n -> p + n <= alen text -> 2 * alen (split_sign (text_at text p n)).2 <= base ->
  returns (signed_chars.from_chars Bits Solver m out text p n b mag t (ws_tower w) (ws_tmp w) (ws_st w) (ws_sc w)) (fun '(m', ok) =>
    ok = andb (negb (bad_base b)) (is_signed_numeral b (text_at text p n)) /\ touches (scan_cells w out mag t) m m' /\
    sarb m' out (if ok then of_int M (signed_value b (text_at text p n)) else x)).
Proof.
  intros Hw Hlo Hx [Vo Oo] [Vm Om] [Vt Ot] Dom Dot Dmt Hp Hn Hfit Hhalf. pose proof (cap_facts Bits HBits) as [Hc0 _]. unfold signed_chars.from_chars.
  destruct (Z.eqb_spec n 0) as [->|Hn0].
  { apply returns_ret. rewrite Bool.andb_false_r. split_and!; [done|by apply touches_refl|done]. }
  destruct (aget_in text p ltac:(lia)) as [c Hc]. rewrite Hc. cbn [mbind option_bind]. cbv zeta.
  destruct (split_sign_text text p n c Hp ltac:(lia) Hfit Hc) as [Es El]. unfold is_signed_numeral, signed_value. rewrite Es in *. cbn [snd] in Hhalf. rewrite El in *.
  set (i := if orb _ _ then 1 else 0) in *. assert (0 <= i <= 1) as Hi by (subst i; destruct (orb _ _); lia).
  assert (andb (orb (Z.eqb c (ch "-")) (Z.eqb c (ch "+"))) (Z.eqb n 1) = Z.eqb (n - i) 0) as -> by (subst i; destruct (orb _ _); cbn [andb]; lia).
  destruct (Z.eqb_spec (n - i) 0) as [E0|Hne]; cbn [negb andb].
  { apply returns_ret. rewrite Bool.andb_false_r. split_and!; [done|by apply touches_refl|done]. }
  eapply returns_bind; [apply (store_spec Bits HBits m mag Hw); unfold valid in *; lia|]. intros m1 [T1 A1]. pose proof (touches_alen _ _ _ T1) as L1.
  eapply returns_bind.
  { apply (from_chars_spec Bits HBits Solver w m1 mag text (p + i) (n - i) b HS); [wf_mem|by eapply laid_out_mono| |by eexists|lia..].
    split; [unfold valid in *|]; lia. }
  intros [m2 ok] R. rewrite (proj2 (Z.eqb_neq (n - i) 0)), Bool.orb_false_r in R by done.
  assert (touches (scan_cells w out mag t) m m2 /\ ok = andb (negb (bad_base b)) (is_numeral b (text_at text (p + i) (n - i))) /\
    (ok = true -> 2 <= b <= 36 /\ arb Bits m2 mag (text_value b (text_at text (p + i) (n - i)) mod M)) /\ sarb m2 out x) as (T2 & Eok & A2 & Hx2).
  { assert (sarb m1 out x) as Hx1 by (eapply (sarb_frame Bits HBits); [exact Hx|exact T1|unfold disjoint, vec in *; lia]).
    assert (touches (scan_cells w out mag t) m m1) as T1' by (eapply touches_mono; [exact T1|unfold scan_cells, vec; lia]).
    destruct (bad_base b) eqn:Eb; [by destruct R as [-> ->]|]. destruct R as (T & -> & _ & A). apply bad_base_spec in Eb. split_and!; try done.
    - apply (touches_trans _ m m1 m2 T1'). eapply touches_mono; [exact T|unfold convert_cells, scan_cells, vec; lia].
    - intros E. split; [done|by apply A].
    - eapply (sarb_frame Bits HBits); [exact Hx1|exact T|]. unfold convert_cells, disjoint, vec in *. lia. }
  pose proof (touches_alen _ _ _ T2) as L2. rewrite <- Eok. destruct ok; cbn [negb]; [|by apply returns_ret].
  destruct (A2 eq_refl) as [Hb A3]. rewrite <- (of_magnitude (Z.eqb c (ch "-"))) by (by apply (text_value_nonneg b)).
  eapply returns_bind; [apply (from_magnitude_spec Bits HBits m2 t mag _ (Z.eqb c (ch "-")) ltac:(wf_mem) A3); [unfold valid in *; lia|right; unfold disjoint in *; lia]|].
  intros m3 [T3 A4]. pose proof (touches_alen _ _ _ T3).
  eapply returns_bind; [apply (copy_signed_spec Bits HBits m3 out t _ ltac:(wf_mem) A4); [unfold valid in *; lia|by right]|].
  intros m4 [T4 A5]. apply returns_ret. split_and!; [done| |done].
  apply (touches_trans _ m m2 m4 T2), (touches_trans _ m2 m3 m4); (eapply touches_mono; [eassumption|]); unfold scan_cells; tauto.
Qed.
(** ** What was printed *)

Lemma split_signed_numeral b upper x : 2 <= b <= 36 -> 0 <= x.2 -> split_sign (signed_numeral b upper x) = (x.1, numeral b upper x.2).
Proof.
  intros Hb Hx. unfold signed_numeral. destruct x as [[] v]; cbn [fst snd] in *; [done|].
  pose proof (numeral_is_numeral b upper Hb v) as Hn. destruct (numeral b upper v) as [|c l]; [done|].
  cbn [is_numeral forallb] in Hn. apply andb_prop in Hn as [Hc%Z.ltb_lt _]. unfold split_sign.
  destruct (Z.eqb_spec c (ch "-")) as [->|]; [assert (36 <= digit_value (ch "-")) by (vm_compute; discriminate); lia|].
  destruct (Z.eqb_spec c (ch "+")) as [->|]; [assert (36 <= digit_value (ch "+")) by (vm_compute; discriminate); lia|]. done.
Qed.

Lemma signed_numeral_reads b upper x : 2 <= b <= 36 -> 0 <= x.2 ->
  is_signed_numeral b (signed_numeral b upper x) = true /\ signed_value b (signed_numeral b upper x) = sval x.
Proof.
  intros Hb Hx. unfold is_signed_numeral, signed_value. rewrite split_signed_numeral by done. pose proof (numeral_nonempty b upper x.2).
  rewrite (proj2 (Z.eqb_neq _ 0)) by lia. rewrite (numeral_is_numeral b upper Hb), (numeral_value b upper Hb) by done. by split.
Qed.
End texts.
