(* ===== verification/ArbintTheorems.v ===== *)
(** What the signed integers promise: exact arithmetic cut to 2^Bits towards zero, two's
    complement for the bit operations and shifts, texts that read back; and the one case in
    which a result is zero with a sign. *)
From Stdlib Require Import Ascii String.
From stdpp Require Import base numbers list option.
From Stdlib Require Import ZArith Lia.
From S2P Require Import Prelude Arrays Limb Mpn MpnValue MpnArith MpnBits MpnFrame MpnDiv MpnTheorems Thresholds MpnTiers MpnDc Arbuint ArbuintProof ArbuintDiv ArbuintConv ArbuintTheorems ArbConvert Radix ArbPrint ArbTower ArbScan ArbFormat ArbConvertTheorems Arbint SignMagnitude ArbintProof ArbintOps ArbintText.

Local Open Scope Z_scope.

Section theorems.
Context `{W : LimbWidth} `{B : BarrettTier} (Bits : Z) (Solver : solver.t).
Abbreviation cap := (@cap_limbs W Bits).
Abbreviation M := (2 ^ Bits).
Abbreviation sarb := (sarb Bits).
Abbreviation layout := (layout Bits).

(** The assumptions of an operation on the objects [ps]. *)
Record signed_ok (c : Z) (m : mem) (ps : list Z) (tmp tn sc sn : Z) : Prop := {
  so_bits : 1 <= Bits <= 2 ^ 31;
  so_solver : Solver <> solver.nussbaumer;
  so_wf : wf m;
  so_layout : layout c m ps tmp tn sc sn
}.

Lemma sval_zero x : sval x = 0 <-> x.2 = 0.
Proof. unfold sval. destruct x.1; lia. Qed.

(** C30: The compound assignments of [arbint<Bits>] compute on integers.  [+=], [-=] and [*=]
    give the exact result with its magnitude cut to 2^Bits and its sign kept, so the exact
    one whenever it fits; [/=] and [%=] truncate towards zero as the built-in operators do;
    [&=], [|=] and [^=] act on two's complement of unbounded width.  The operand may be the
    object itself.  Only a division throws, exactly for a zero divisor, and leaves the memory
    as it was; the other operand keeps its number, and nothing but the object, the
    temporaries and the scratch limbs is written. *)
Theorem signed_arithmetic op m this o tmp tn sc sn x y : signed_ok 2 m [this; o] tmp tn sc sn -> sarb m this x -> sarb m o y ->
  returns (signed.compound_assign Bits Solver op m this o tmp sc) (fun out =>
    match out with
    | domain_error m' => divides op = true /\ sval y = 0 /\ m' = m
    | returned m' => (divides op = true -> sval y <> 0) /\
        (exists z, sarb m' this z /\ sval z = clip M (exact op (sval x) (sval y)) /\
           (- M < exact op (sval x) (sval y) < M -> sval z = exact op (sval x) (sval y))) /\
        (o <> this -> sarb m' o y) /\ forall k, ~ op_cells Bits this tmp tn sc sn k -> m'.[k] = m.[k]
    end).
Proof.
  intros [HB HS Hw L] Hx Hy.
  eapply returns_mono; [by apply (compound_signed Bits Solver HB HS op m this o tmp tn sc sn x y)|].
  intros [m'|m']; cbn [assigns]; [|rewrite sval_zero; tauto]. intros (Hd & T & A). rewrite sval_zero.
  pose proof (op_pair_value M (modulus_two Bits HB) op x y (sarb_range _ _ _ _ Hx) (sarb_range _ _ _ _ Hy) Hd) as Ev.
  split; [done|]. split; [|split].
  - eexists. split; [exact A|]. split; [done|]. intros Hs. by rewrite Ev, clip_small.
  - intros Hne. eapply (sarb_frame Bits HB); [exact Hy|exact T|]. eapply (layout_apart Bits); [exact L|member|member|congruence].
  - apply T.
Qed.

(** C31: A zero has no sign, with one exception.  From operands without a signed zero every
    compound assignment gives a result without one, unless it is [+=] or [-=] and the exact
    result is -2^Bits: then, and only then, the magnitude wraps to zero under the sign of the
    operands, and the object is a zero that [negative] reports as negative.  Conversions,
    shifts and negation always give a number without a signed zero. *)
Theorem zero_has_no_sign op m this o tmp tn sc sn x y : signed_ok 2 m [this; o] tmp tn sc sn -> sarb m this x -> sarb m o y ->
  canonical x -> canonical y ->
  returns (signed.compound_assign Bits Solver op m this o tmp sc) (fun out =>
    match out with
    | domain_error _ => divides op = true
    | returned m' => exists z, sarb m' this z /\
        (~ canonical z <-> additive op = true /\ exact op (sval x) (sval y) = - M) /\
        (~ canonical z -> signed.negative Bits m' this = Some true /\ signed.sign Bits m' this = Some 0)
    end) /\
  (forall k, 0 <= k -> returns (signed.shl_assign Bits m this k) (fun m' => exists z, sarb m' this z /\ canonical z) /\
    returns (signed.shr_assign Bits m this k tmp) (fun m' => exists z, sarb m' this z /\ canonical z)) /\
  returns (signed.negate Bits m this) (fun m' => exists z, sarb m' this z /\ canonical z) /\
  (forall s w v, integral_width w -> integral_value s w v ->
    returns (signed.from_integral Bits m this s w v) (fun m' => exists z, sarb m' this z /\ canonical z)).
Proof.
  intros [HB HS Hw L] Hx Hy Cx Cy. pose proof (modulus_two Bits HB) as HM. split; [|split; [|split]].
  - eapply returns_mono; [by apply (compound_signed Bits Solver HB HS op m this o tmp tn sc sn x y)|].
    intros [m'|m']; cbn [assigns]; [|tauto]. intros (Hd & T & A). eexists. split; [exact A|].
    assert (~ canonical (op_pair M op x y) <-> op_pair M op x y = (true, 0)) as Hc.
    { destruct (op_pair M op x y) as [[] v]; unfold canonical; cbn [fst snd].
      - split; [|intros E; injection E as ->; by intros H; apply H]. intros H. destruct (Z.eq_dec v 0) as [->|]; [done|]. by destruct H.
      - split; [|done]. intros H. by destruct H. }
    rewrite Hc, op_pair_signed_zero by (done || by eapply sarb_range). split; [done|].
    intros E. apply (op_pair_signed_zero M HM) in E; [|by eapply sarb_range|by eapply sarb_range|done|done].
    rewrite E in A. pose proof (touches_wf _ _ _ T). by rewrite (negative_spec Bits HB _ _ _ A), (sign_spec Bits HB _ _ _ ltac:(done) A).
  - intros k Hk. split.
    + eapply returns_mono; [by apply (shl_assign_signed Bits HB m this tmp tn sc sn x)|]. intros m' [_ A]. eexists. split; [exact A|apply canonical_fixz].
    + eapply returns_mono; [apply (shr_signed Bits HB m this tmp tn sc sn x k Hw); [eapply layout_sub; [exact L|included]|done|done]|].
      intros m' [_ A]. eexists. split; [exact A|by apply shr_pair_canonical].
  - eapply returns_mono; [by apply (negate_spec Bits HB m this x)|]. intros m' [_ A]. eexists. split; [exact A|apply canonical_fixz].
  - intros s w v Hiw Hv. eapply returns_mono; [apply (from_integral_signed Bits HB m this s w v); [done|apply Hx|done|done]|].
    intros m' [_ A]. eexists. split; [exact A|apply of_int_canonical].
Qed.

(** The object at [r] ends up as the integer [z]. *)
Definition gives (p : option mem) (r z : Z) : Prop := returns p (fun m' => exists u, sarb m' r u /\ sval u = z).

Definition gives_or_throws (op : binary_operator) (p : option outcome) (r vx vy : Z) : Prop :=
  returns p (fun out =>
    match out with
    | domain_error _ => divides op = true /\ vy = 0
    | returned m' => (divides op = true -> vy <> 0) /\ exists u, sarb m' r u /\ sval u = clip M (exact op vx vy)
    end).

Lemma writes_gives P (p : option mem) m r u z : returns p (swrites Bits P m r u) -> sval u = z -> gives p r z.
Proof. intros H E. eapply returns_mono; [exact H|]. intros m' [_ A]. by exists u. Qed.

Lemma produces_gives op P p m r x y : 1 <= Bits <= 2 ^ 31 -> in_range M x -> in_range M y ->
  returns p (produces Bits op P m r x y) -> gives_or_throws op p r (sval x) (sval y).
Proof.
  intros HB Rx Ry H. eapply returns_mono; [exact H|]. intros [m'|m']; cbn [produces]; rewrite sval_zero; [|tauto]. intros (Hd & _ & A).
  split; [done|]. eexists. split; [exact A|]. by apply op_pair_value; [apply modulus_two|..].
Qed.

(** The complement is cut for one number. *)
Lemma clip_lnot x : 2 <= M -> in_range M x -> clip M (Z.lnot (sval x)) = if decide (sval x = M - 1) then 0 else Z.lnot (sval x).
Proof.
  intros HM Rx. assert (- M < sval x < M) as Hs by (unfold in_range, sval in *; destruct x as [[] a]; cbn in *; lia).
  assert (Z.lnot (sval x) = - sval x - 1) as -> by (unfold Z.lnot; lia). case_decide as E.
  - rewrite E. unfold clip. rewrite (proj2 (Z.ltb_lt _ _)) by lia. replace (- (- (M - 1) - 1)) with (1 * M) by lia. rewrite Z.mod_mul; lia.
  - apply clip_small; lia.
Qed.

(** C32: The operators that build a new object.  The binary operators on objects, and on an
    object and an integer of any width and signedness on either side, give the results of
    compound assignments, where the integer counts as its value cut to 2^Bits; [-], [<<] and [>>] are negation
    and the shifts of two's complement, [>>] rounding down also for negative numbers; [~] is
    the exact complement of every number but 2^Bits - 1, whose complement -2^Bits no object
    holds: there it is 0; [++], [--], [abs], [sqr] and [pow] are exact up to the cut;
    [divmod] gives quotient and remainder, or throws for a zero divisor; a conversion to an
    integer type keeps the low bits, so an integer that fits comes back.  The six
    comparisons compare the numbers of two objects exactly, and the number of an object with
    an integer below 2^Bits in absolute value exactly; a larger integer counts as its value
    cut to 2^Bits, so that an object of 8 bits that is 0 is equal to 256. *)
Theorem signed_operators m r q a b tmp tn sc sn x y : signed_ok 3 m [r; q; a; b] tmp tn sc sn -> r <> q -> r <> a -> q <> a -> r <> b -> q <> b ->
  sarb m a x -> sarb m b y ->
  (forall op, gives_or_throws op (signed.operator_objects Bits Solver op m r a b tmp sc) r (sval x) (sval y)) /\
  (forall op s w v, integral_width w -> integral_value s w v ->
    gives_or_throws op (signed.operator_integral_right Bits Solver op m r a s w v tmp sc) r (sval x) (clip M v) /\
    gives_or_throws op (signed.operator_integral_left Bits Solver op m r s w v a tmp sc) r (clip M v) (sval x)) /\
  (gives (signed.operator_minus Bits m r a) r (- sval x) /\ gives (signed.operator_not Bits m r a tmp sc) r (if decide (sval x = M - 1) then 0 else Z.lnot (sval x)) /\
   gives (signed.increment Bits m a tmp sc) a (clip M (sval x + 1)) /\ gives (signed.decrement Bits m a tmp sc) a (clip M (sval x - 1))) /\
  (forall k, 0 <= k -> gives (signed.operator_shl Bits m r a k) r (clip M (Z.shiftl (sval x) k)) /\
    gives (signed.operator_shr Bits m r a k tmp) r (Z.shiftr (sval x) k)) /\
  (gives (signed.abs Bits m r a) r (Z.abs (sval x)) /\ gives (signed.sqr Bits Solver m r a tmp sc) r (clip M (sval x * sval x)) /\
   forall e, 0 <= e < 2 ^ 64 -> gives (signed.pow Bits Solver m r a e tmp sc) r (clip M (sval x ^ e))) /\
  returns (signed.divmod Bits m r q a b sc) (fun out =>
    match out with
    | domain_error _ => sval y = 0
    | returned m' => sval y <> 0 /\ exists u v, sarb m' r u /\ sval u = Z.quot (sval x) (sval y) /\ sarb m' q v /\ sval v = Z.rem (sval x) (sval y)
    end) /\
  (forall s w v, integral_width w -> integral_value s w v -> - M < v < M ->
    signed.to_integral Bits m a s w = Some (if s then swrap w (sval x) else wrap w (sval x)) /\
    (m ← signed.from_integral Bits m r s w v; signed.to_integral Bits m r s w) = Some v) /\
  compares Bits m a b (sval x) (sval y) /\
  (forall s w v, integral_width w -> integral_value s w v ->
    signed.cmp_integral Bits m a s w v tmp = Some (sign_of (sval x ?= clip M v)) /\
    signed.cmp_integral_left Bits m s w v a tmp = Some (sign_of (clip M v ?= sval x)) /\
    (- M < v < M -> signed.cmp_integral Bits m a s w v tmp = Some (sign_of (sval x ?= v)) /\
      signed.cmp_integral_left Bits m s w v a tmp = Some (sign_of (v ?= sval x)))) /\
  (forall k, 0 <= k -> gives (signed.power_of_two Bits m r k tmp) r (clip M (2 ^ k))).
Proof.
  intros [HB HS Hw L] Nrq Nra Nqa Nrb Nqb Hx Hy. pose proof (modulus_two Bits HB) as HM. pose proof (sarb_range _ _ _ _ Hx) as Rx. pose proof (sarb_range _ _ _ _ Hy) as Ry.
  assert (forall c ps, 0 <= c <= 3 -> (forall p, p ∈ ps -> p ∈ [r; q; a; b]) -> layout c m ps tmp tn sc sn) as Hly.
  { intros c ps Hc Hs. apply (layout_sub Bits c m [r; q; a; b]); [|done]. destruct L as [? ? ? ? ? [? Hr] ?]. constructor; try done.
    pose proof (cap_facts Bits HB). split; [lia|nia]. }
  assert (forall v, in_range M (of_int M v)) as Ri by (intros v; by apply of_int_range).
  split_and!.
  - intros op. eapply produces_gives; [done|done|done|]. apply (operator_objects_signed Bits Solver HB HS op m r a b tmp tn sc sn x y); try done. apply Hly; [lia|included].
  - intros op s w v Hiw Hv. rewrite <- (of_int_value M v). split; (eapply produces_gives; [done|done || apply Ri..|]).
    + apply (operator_right_signed Bits Solver HB HS op m r a s w v tmp tn sc sn x); try done. apply Hly; [lia|included].
    + apply (operator_left_signed Bits Solver HB HS op m r a s w v tmp tn sc sn x); try done. apply Hly; [lia|included].
  - eapply writes_gives; [apply (operator_minus_signed Bits HB m r a x); try done; [eapply ly_objects; [exact L|member]|]|apply neg_pair_value].
    by destruct (ly_apart Bits _ _ _ _ _ _ _ L r a ltac:(member) ltac:(member)).
  - eapply writes_gives; [apply (operator_not_signed Bits Solver HB HS m r a tmp tn sc sn x); try done; apply Hly; [lia|included]|]. rewrite not_pair_value by done. by apply clip_lnot.
  - eapply writes_gives; [apply (increment_signed Bits Solver HB HS m a tmp tn sc sn x); try done; apply Hly; [lia|included]|].
    rewrite add_pair_value; [done|done|done|unfold in_range; cbn; lia].
  - eapply writes_gives; [apply (decrement_signed Bits Solver HB HS m a tmp tn sc sn x); try done; apply Hly; [lia|included]|].
    rewrite add_pair_value; [done|done|done|unfold in_range; cbn; lia].
  - intros k Hk. rewrite Z.shiftl_mul_pow2, Z.shiftr_div_pow2 by done.
    destruct (operator_shifts_signed Bits HB m r a tmp tn sc sn x k Hw) as [H1 H2]; [apply Hly; [lia|included]|done|done|].
    split; (eapply writes_gives; [eassumption|]); [by apply shl_pair_value|by apply (shr_pair_value M)].
  - eapply writes_gives; [apply (abs_signed Bits HB m r a x); try done; [eapply ly_objects; [exact L|member]|eapply ly_apart; [exact L|member..]]|].
    unfold in_range in Rx. unfold sval. cbn [fst snd]. destruct x.1; lia.
  - eapply writes_gives; [apply (sqr_signed Bits Solver HB HS m r a tmp tn sc sn x); try done; apply Hly; [lia|included]|by apply sqr_pair_value].
  - intros e He. eapply writes_gives; [apply (pow_signed Bits Solver HB HS m r a e tmp tn sc sn x); try done; apply Hly; [lia|included]|apply pow_pair_value; [done|done|lia]].
  - eapply returns_mono; [apply (divmod_signed Bits Solver HB HS m r q a b tmp tn sc sn x y); try done; apply Hly; [lia|included]|].
    intros [m'|m']; cbn [divides_both]; rewrite sval_zero; [|tauto]. intros (Hne & _ & A1 & A2). split; [done|].
    destruct (div_pair_value M x y Rx) as [E1 E2]; [unfold in_range in Ry; lia|]. by exists (div_pair x y), (mod_pair x y).
  - intros s w v Hiw Hv Hfit. split; [by apply to_integral_signed|].
    destruct (from_integral_signed Bits HB m r s w v Hw) as (m1 & -> & T1 & A1); [eapply ly_objects; [exact L|member]|done|done|]. cbn [mbind option_bind].
    rewrite (to_integral_signed Bits HB m1 r _ s w ltac:(wf_mem) A1 Hiw), of_int_value, clip_small by done. f_equal.
    destruct Hiw as [Hw0 _]. destruct s; cbn [integral_value] in Hv; [apply swrap_id|apply wrap_id]; done || lia.
  - by apply (compares_signed Bits HB).
  - intros s w v Hiw Hv. destruct (cmp_integral_signed Bits HB m a s w v tmp tn sc sn x) as [E1 E2]; try done; [apply Hly; [lia|included]|].
    split_and!; [exact E1|exact E2|]. intros Hfit. by rewrite E1, E2, clip_small.
  - intros k Hk. eapply writes_gives; [apply (power_of_two_signed Bits HB m r k tmp tn sc sn); try done; apply Hly; [lia|included]|].
    symmetry. apply (clip_mag M HM false). apply Z.pow_nonneg. lia.
Qed.

(** The objects of a signed conversion: the number [a], the target [out], the magnitude and
    the value that are local to [from_chars]. *)
Record signed_conversion (w : workspace) (m : mem) (a out mag t : Z) : Prop := {
  sc_ok : conversion_ok Bits Solver w m;
  sc_outside : signed_outside Bits w m a /\ signed_outside Bits w m out /\ signed_outside Bits w m mag /\ signed_outside Bits w m t;
  sc_target : out = a \/ disjoint out (cap + 2) a (cap + 2);
  sc_locals : disjoint out (cap + 2) mag (cap + 2) /\ disjoint out (cap + 2) t (cap + 2) /\ disjoint mag (cap + 2) t (cap + 2)
}.

Lemma signed_work w m a : conversion_ok Bits Solver w m -> signed_outside Bits w m a -> valid m (ws_work w) cap /\ disjoint (ws_work w) cap a (cap + 2).
Proof.
  intros [Hb _ _ []] [Va Ha]. pose proof (cap_facts Bits Hb). pose proof (mul_scratch_nonneg Bits Hb). unfold valid, disjoint, max_tower in *. lia.
Qed.

Lemma signed_numeral_room x b upper : 1 <= Bits <= 2 ^ 31 -> 2 <= b <= 36 -> in_range M x ->
  1 <= alen (signed_numeral b upper x) <= signed_room x /\ 2 * alen (split_sign (signed_numeral b upper x)).2 <= base.
Proof.
  intros HB Hb Rx. pose proof (numeral_nonempty b upper x.2). destruct (numeral_room Bits x.2 b upper HB Hb Rx) as (H1 & _ & H3).
  rewrite split_signed_numeral by (done || apply Rx). cbn [snd]. unfold signed_numeral, signed_room. destruct x.1; cbn [Z.b2z]; [|lia].
  assert (alen (ch "-" :: numeral b upper x.2) = 1 + alen (numeral b upper x.2)) as -> by (unfold alen; cbn [length]; lia). lia.
Qed.

(** C33: The texts of signed integers.  [to_chars] writes a minus sign for a number whose sign
    is set (so a zero with a sign prints as -0) and the shortest numeral of the magnitude, or
    returns 0 for a base outside 2 .. 36 or a buffer with less than a character for the sign
    and one for each bit; [to_string] gives the same text.  [from_chars] accepts exactly an
    optional sign followed by at least one digit, all of them of the base, gives the integer
    cut to 2^Bits without a signed zero, and keeps the target as it was when it rejects.
    What was printed reads back as the same integer. *)
Theorem signed_texts new_buffer w m a out mag t x y b upper buf b0 room text p n : signed_conversion w m a out mag t ->
  sarb m a x -> sarb m out y -> (forall n, 0 <= n -> alen (new_buffer n) = n) ->
  0 <= b0 -> 0 <= room -> b0 + room <= alen buf -> 0 <= p -> 0 <= n -> p + n <= alen text -> 2 * n <= base ->
  let scan m text p n := signed_chars.from_chars Bits Solver m out text p n b mag t (ws_tower w) (ws_tmp w) (ws_st w) (ws_sc w) in
  returns (signed_chars.to_chars Bits m buf b0 room a b upper (ws_work w)) (fun '(m', buf', len) => sarb m' a x /\
    if orb (bad_base b) (Z.ltb room (signed_room x)) then len = 0
    else len = alen (signed_numeral b upper x) /\ text_at buf' b0 len = signed_numeral b upper x /\ alen buf' = alen buf /\
      forall i, ~ (b0 <= i < b0 + room) -> buf'.[i] = buf.[i]) /\
  signed_chars.to_string Bits new_buffer m a b upper (ws_work w) = Some (if bad_base b then [] else signed_numeral b upper x) /\
  returns (scan m text p n) (fun '(m', ok) =>
    ok = andb (negb (bad_base b)) (is_signed_numeral b (text_at text p n)) /\
    sarb m' out (if ok then of_int M (signed_value b (text_at text p n)) else y)) /\
  (bad_base b = false -> signed_room x <= room ->
   returns ('(m, buf, len) ← signed_chars.to_chars Bits m buf b0 room a b upper (ws_work w); scan m buf b0 len) (fun '(m', ok) =>
     ok = true /\ exists z, sarb m' out z /\ sval z = sval x /\ (canonical x -> z = x))).
Proof.
  intros [Hok (Oa & Oo & Om & Ot) Hal (Dom & Dot & Dmt)] Hx Hy Hnew H0 Hr Hfit Hp Hn Htf Hhalf scan. pose proof Hok as [HB HS Hw Hlo].
  destruct (signed_work w m a Hok Oa) as [Vw Dw]. destruct (signed_work w m out Hok Oo) as [_ Dwo]. pose proof (sarb_range _ _ _ _ Hx) as Rx.
  split; [|split; [by apply signed_to_string_spec|split]].
  - eapply returns_mono; [by apply (signed_to_chars_spec Bits HB m buf b0 room a x b upper (ws_work w))|]. intros [[m1 buf1] len] [T1 R]. split.
    + eapply (sarb_frame Bits HB); [exact Hx|exact T1|unfold disjoint, vec in *; lia].
    + unfold printed in R. destruct (orb _ _); [apply R|]. destruct R as (-> & L & T & F). done.
  - eapply returns_mono; [apply (signed_from_chars_spec Bits Solver HB HS w m out mag t text p n b y); try done; pose proof (split_sign_shorter text p n); lia|]. intros [m1 ok] (E & _ & A). done.
  - intros Eb Hroom. apply bad_base_spec in Eb as Hb. destruct (signed_numeral_room x b upper HB Hb Rx) as [Hlen Hhalf'].
    eapply returns_bind; [by apply (signed_to_chars_spec Bits HB m buf b0 room a x b upper (ws_work w))|]. intros [[m1 buf1] len] [T1 R].
    unfold printed in R. rewrite Eb, (proj2 (Z.ltb_ge _ _)) in R by done. cbn [orb] in R. destruct R as (-> & L & T & _). pose proof (touches_alen _ _ _ T1) as L1.
    assert (sarb m1 out y) as Hy1 by (eapply (sarb_frame Bits HB); [exact Hy|exact T1|unfold disjoint, vec in *; lia]).
    assert (forall q, signed_outside Bits w m q -> signed_outside Bits w m1 q) as Ho by (intros q [V O]; split; [unfold valid in *; lia|done]).
    eapply returns_mono; [apply (signed_from_chars_spec Bits Solver HB HS w m1 out mag t buf1 b0); try done; try (by apply Ho);
      [exact (touches_wf _ _ _ T1)|by eapply laid_out_mono|lia|lia|by rewrite T]|].
    intros [m2 ok] (E & _ & A). destruct (signed_numeral_reads b upper x Hb ltac:(apply Rx)) as [E1 E2]. rewrite T, E1, Eb in E. cbn in E. subst ok.
    split; [done|]. eexists. split; [exact A|]. rewrite T, E2. pose proof (modulus_two Bits HB) as HM. split.
    + rewrite of_int_value. apply clip_small. unfold in_range, sval in *. destruct x.1; lia.
    + intros Cx. symmetry. by apply (canonical_of_int M HM).
Qed.
End theorems.

(** ** The theorems at concrete objects *)

#[local] Existing Instance limb64.
#[local] Existing Instance example_barrett.

(** Objects of 128 bits: [n], 7 and two more, room for three temporaries and scratch limbs. *)
Definition signed_objects (n : Z) : mem :=
  [Z.abs n mod 2 ^ 64; Z.abs n / 2 ^ 64; 2; Z.b2z (Z.ltb n 0); 7; 0; 1; 0] ++ replicate 220 5.

Ltac listed_objects :=
  repeat match goal with
  | H : _ ∈ [] |- _ => by apply elem_of_nil in H
  | H : _ ∈ _ :: _ |- _ => apply elem_of_cons in H as [->|H]
  end.

Lemma signed_objects_ok n c : wf (signed_objects n) -> 0 <= c <= 3 -> signed_ok 128 solver.automatic c (signed_objects n) [8; 12; 0; 4] 16 12 28 200.
Proof.
  intros Hw Hc. assert (alen (signed_objects n) = 228) as El by reflexivity. constructor; [lia|done|done|]. change (@cap_limbs limb64 128) with 2.
  constructor; change (@cap_limbs limb64 128) with 2; unfold valid, disjoint; rewrite ?El; try lia.
  - intros p Hp. listed_objects; lia.
  - intros p q Hp Hq. listed_objects; lia.
  - split_and!; vm_compute; discriminate.
Qed.

Lemma signed_ok_sub m n ps qs : signed_ok 128 solver.automatic n m ps 16 12 28 200 -> (forall p, p ∈ qs -> p ∈ ps) -> signed_ok 128 solver.automatic n m qs 16 12 28 200.
Proof. intros [] Hs. constructor; try done. by eapply layout_sub. Qed.

Ltac signed_object :=
  split; [concrete_object|vm_compute; intuition congruence|vm_compute; reflexivity].

Lemma signed_arithmetic_witness :
  returns (signed.compound_assign 128 solver.automatic divide (signed_objects (- 10 ^ 30)) 0 4 16 28) (fun out =>
    exists m' z, out = returned m' /\ sarb 128 m' 0 z /\ sval z = - 142857142857142857142857142857).
Proof.
  pose proof (signed_arithmetic 128 solver.automatic divide (signed_objects (- 10 ^ 30)) 0 4 16 12 28 200 (true, 10 ^ 30) (false, 7)) as Hd.
  eapply returns_mono; [apply Hd|].
  - eapply signed_ok_sub; [apply (signed_objects_ok _ 2); [apply wf_check_sound; vm_compute; reflexivity|lia]|included].
  - signed_object.
  - signed_object.
  - intros [m'|m'].
    + intros (_ & (z & Hz & E & _) & _). exists m', z. split; [reflexivity|]. split; [exact Hz|]. rewrite E. vm_compute. reflexivity.
    + intros (_ & E & _). vm_compute in E. discriminate.
Defined.

(** -2^127 added to itself is a zero with a sign. *)
Lemma zero_has_no_sign_witness :
  returns (signed.compound_assign 128 solver.automatic plus (signed_objects (- 2 ^ 127)) 0 0 16 28) (fun out =>
    exists m' z, out = returned m' /\ sarb 128 m' 0 z /\ ~ canonical z /\ signed.negative 128 m' 0 = Some true /\ signed.sign 128 m' 0 = Some 0).
Proof.
  destruct (zero_has_no_sign 128 solver.automatic plus (signed_objects (- 2 ^ 127)) 0 0 16 12 28 200 (true, 2 ^ 127) (true, 2 ^ 127)) as [Hd _].
  - eapply signed_ok_sub; [apply (signed_objects_ok _ 2); [apply wf_check_sound; vm_compute; reflexivity|lia]|included].
  - signed_object.
  - signed_object.
  - discriminate.
  - discriminate.
  - eapply returns_mono; [exact Hd|]. intros [m'|m']; [|discriminate]. intros (z & Hz & [_ Hs] & Hn).
    assert (~ canonical z) as Hc by (apply Hs; split; [reflexivity|vm_compute; reflexivity]).
    exists m', z. split; [reflexivity|]. split; [exact Hz|]. split; [exact Hc|]. exact (Hn Hc).
Defined.

Lemma signed_operators_witness :
  gives 128 (signed.operator_shr 128 (signed_objects (- 10 ^ 30)) 8 0 99 16) 8 (-2) /\
  gives 128 (signed.pow 128 solver.automatic (signed_objects (- 10 ^ 30)) 8 0 3 16 28) 8 (clip (2 ^ 128) ((- 10 ^ 30) ^ 3)) /\
  (m ← signed.from_integral 128 (signed_objects (- 10 ^ 30)) 8 true 16 (-32768); signed.to_integral 128 m 8 true 16) = Some (-32768).
Proof.
  destruct (signed_operators 128 solver.automatic (signed_objects (- 10 ^ 30)) 8 12 0 4 16 12 28 200 (true, 10 ^ 30) (false, 7)) as (_ & _ & _ & Hs & (_ & _ & Hp) & _ & Hi & _);
    [apply signed_objects_ok; [apply wf_check_sound; vm_compute; reflexivity|lia]|lia..|signed_object|signed_object|].
  split; [|split].
  - destruct (Hs 99 ltac:(lia)) as [_ H]. exact H.
  - exact (Hp 3 ltac:(lia)).
  - destruct (Hi true 16 (-32768)) as [_ H]; [by split|by vm_compute|lia|]. exact H.
Defined.

(** -10^30 and 7, two local objects and working memory. *)
Definition signed_text_objects : mem :=
  [10 ^ 30 mod 2 ^ 64; 10 ^ 30 / 2 ^ 64; 2; 1; 7; 0; 1; 0] ++ replicate 1300 5.

Lemma signed_texts_witness :
  let w := workspace_at 128 16 in
  signed_chars.to_string 128 (fun n => replicate (Z.to_nat n) 0) signed_text_objects 0 10 false (ws_work w) = Some (cstr "-1000000000000000000000000000000") /\
  returns ('(m, buf, len) ← signed_chars.to_chars 128 signed_text_objects (replicate 130 0) 0 101 0 36 true (ws_work w);
    signed_chars.from_chars 128 solver.automatic m 4 buf 0 len 36 8 12 (ws_tower w) (ws_tmp w) (ws_st w) (ws_sc w)) (fun '(m', ok) =>
    ok = true /\ exists z, sarb 128 m' 4 z /\ sval z = - 10 ^ 30).
Proof.
  intros w. assert (alen signed_text_objects = 1308) as El by reflexivity. assert (signed_conversion 128 solver.automatic w signed_text_objects 0 4 8 12) as Hc.
  { constructor; unfold signed_outside, valid, disjoint; rewrite ?El; change (@cap_limbs limb64 128) with 2; change (ws_sc w) with 16; try lia.
    constructor; [lia|done|apply wf_check_sound; vm_compute; reflexivity|]. apply workspace_laid_out; [lia|vm_compute; discriminate]. }
  assert (forall n, 0 <= n -> alen (replicate (Z.to_nat n) 0) = n) as Hnew by (intros n Hn; unfold alen; rewrite length_replicate; lia).
  pose proof (signed_texts 128 solver.automatic (fun n => replicate (Z.to_nat n) 0) w signed_text_objects 0 4 8 12 (true, 10 ^ 30) (false, 7)) as Ht. split.
  - etransitivity; [apply (Ht 10 false [] 0 0 [] 0 0 Hc); [signed_object|signed_object|exact Hnew|vm_compute; discriminate..]|]. vm_compute. reflexivity.
  - destruct (Ht 36 true (replicate 130 0) 0 101 [] 0 0 Hc) as (_ & _ & _ & Hr); [signed_object|signed_object|exact Hnew|vm_compute; discriminate..|].
    eapply returns_mono; [apply Hr; [reflexivity|vm_compute; discriminate]|]. intros [m' ok] [E (z & Hz & Ev & _)]. split; [exact E|].
    exists z. split; [exact Hz|exact Ev].
Defined.
