(* ===== verification/Steps.v ===== *)
(** Labelled transition systems.

    A concurrent component is a step relation between states, one step per access
    to shared memory; a label is what the step lets its caller see.  An execution is
    any interleaving.  The file has the rules the components use: invariants,
    forward simulation with an abstract machine, and the bound a measure puts on the
    length of an execution; and sums over the threads. *)
From stdpp Require Import base numbers list option relations.
From Stdlib Require Import ZArith Lia.
From S2P Require Import Prelude Arrays.

Local Open Scope Z_scope.

Section steps.
Context {St E : Type} (step : St -> option E -> St -> Prop).

(** [execution s es s']: steps from [s] to [s'] with the labels [es]. *)
Inductive execution : St -> list E -> St -> Prop :=
| exec_nil s : execution s [] s
| exec_silent s s1 s2 es : execution s es s1 -> step s1 None s2 -> execution s es s2
| exec_event s s1 s2 es e : execution s es s1 -> step s1 (Some e) s2 -> execution s (es ++ [e]) s2.

Lemma execution_invariant (I : St -> Prop) s es s' :
  I s -> (forall s1 o s2, I s1 -> step s1 o s2 -> I s2) -> execution s es s' -> I s'.
Proof. intros H0 Hstep He. induction He; eauto. Qed.

(** A run of an abstract machine with the same labels. *)
Inductive follows {Q} (astep : Q -> E -> Q -> Prop) : Q -> list E -> Q -> Prop :=
| follows_nil q : follows astep q [] q
| follows_event q q1 q2 es e : follows astep q es q1 -> astep q1 e q2 -> follows astep q (es ++ [e]) q2.

(** Forward simulation: the abstract machine follows the labels. *)
Lemma execution_simulation {Q} (astep : Q -> E -> Q -> Prop) (R : St -> Q -> Prop) s q es s' :
  R s q ->
  (forall s1 q1 s2, R s1 q1 -> step s1 None s2 -> R s2 q1) ->
  (forall s1 q1 e s2, R s1 q1 -> step s1 (Some e) s2 -> exists q2, astep q1 e q2 /\ R s2 q2) ->
  execution s es s' -> exists q', R s' q' /\ follows astep q es q'.
Proof.
  intros H0 Hs He Hx. induction Hx as [s|s s1 s2 es Hx IH H1|s s1 s2 es e Hx IH H1].
  - exists q. split; [done|]. constructor.
  - destruct (IH H0) as (q1 & R1 & F1). exists q1. split; [by eapply Hs|done].
  - destruct (IH H0) as (q1 & R1 & F1). destruct (He _ _ _ _ R1 H1) as (q2 & A & R2). exists q2. split; [done|]. by econstructor.
Qed.

(** Steps that a measure counts down end after at most that many. *)
Lemma measured_steps (I : St -> Prop) (mu : St -> Z) s n s' :
  (forall s1 o s2, I s1 -> step s1 o s2 -> I s2 /\ mu s2 < mu s1) -> (forall s1, I s1 -> 0 <= mu s1) ->
  I s -> nsteps (fun s1 s2 => exists o, step s1 o s2) n s s' -> I s' /\ Z.of_nat n + mu s' <= mu s.
Proof.
  intros Hstep Hpos HI Hn. induction Hn as [s|n s s1 s' [o H1] _ IH]; [split; [done|lia]|].
  destruct (Hstep _ _ _ HI H1) as [HI1 Hlt]. destruct (IH HI1) as [HI' Hle]. split; [done|]. lia.
Qed.

(** If a step is possible until [R] holds, the steps lead to it. *)
Lemma measured_rests (I R : St -> Prop) (mu : St -> Z) s :
  (forall s1 o s2, I s1 -> step s1 o s2 -> I s2 /\ mu s2 < mu s1) -> (forall s1, I s1 -> 0 <= mu s1) ->
  (forall s1, I s1 -> R s1 \/ exists o s2, step s1 o s2) ->
  I s -> exists n s', nsteps (fun s1 s2 => exists o, step s1 o s2) n s s' /\ R s'.
Proof.
  intros Hstep Hpos Hprog HI. remember (Z.to_nat (mu s)) as m eqn:Em. revert s HI Em.
  induction m as [m IH] using lt_wf_ind. intros s HI Em. destruct (Hprog s HI) as [HR|(o & s1 & H1)].
  - exists 0%nat, s. split; [constructor|done].
  - destruct (Hstep _ _ _ HI H1) as [HI1 Hlt]. pose proof (Hpos s1 HI1).
    destruct (IH (Z.to_nat (mu s1)) ltac:(lia) s1 HI1 eq_refl) as (k & s' & Hk & HR).
    exists (S k), s'. split; [|done]. econstructor; [by exists o|done].
Qed.

Lemma follows_snoc {Q} (astep : Q -> E -> Q -> Prop) q es e q2 : follows astep q (es ++ [e]) q2 ->
  exists q1, follows astep q es q1 /\ astep q1 e q2.
Proof.
  intros F. inversion F as [q0 E1 E2|q0 q1 q2' es' e' F' A E1 E2]; [by destruct es|]. apply app_inj_tail in E2 as [-> ->]. by exists q1.
Qed.
End steps.

(** ** Calls and answers

    A label is an action with its thread.  [moves] says which actions are open to a
    thread in which phase of its call, so that a call that is visible is answered, and
    by an answer of that call, before the thread makes the next one. *)
Section calls.
Context {Q A P : Type} (astep : Q -> nat * A -> Q -> Prop) (moves : P -> A -> P -> Prop).

Inductive tracked : Q * list P -> nat * A -> Q * list P -> Prop :=
| tracked_step q q' ps i a p p' : astep q (i, a) q' -> ps !! i = Some p -> moves p a p' -> tracked (q, ps) (i, a) (q', <[i := p']> ps).

(** A step is silent to the phases, or is the action of one thread. *)
Definition phased (ps : list P) (o : option (nat * A)) (ps' : list P) : Prop :=
  match o with
  | None => ps' = ps
  | Some (i, a) => exists p p', ps !! i = Some p /\ moves p a p' /\ ps' = <[i := p']> ps
  end.

Lemma execution_tracked {St} (step : St -> option (nat * A) -> St -> Prop) (phases : St -> list P) s es s' q q' :
  (forall s1 o s2, step s1 o s2 -> phased (phases s1) o (phases s2)) ->
  execution step s es s' -> follows astep q es q' -> follows tracked (q, phases s) es (q', phases s').
Proof.
  intros Hp Hx. revert q'. induction Hx as [s|s s1 s2 es Hx IH H1|s s1 s2 es [i a] Hx IH H1]; intros q' F.
  - inversion F as [q0 E1 E2|q0 q1 q2' es' e' F' A' E1 E2]; [constructor|by destruct es'].
  - pose proof (Hp _ _ _ H1) as E. cbn in E. rewrite E. by apply IH.
  - apply follows_snoc in F as (q1 & F & Ha). destruct (Hp _ _ _ H1) as (p & p' & Hi & Hm & ->).
    econstructor; [by apply IH|]. by econstructor.
Qed.

(** The phase of a place in the code. *)
Lemma phased_move {C} (place : C -> P) (ts : list C) i p q (a : option A) : ts !! i = Some p ->
  match a with None => place q = place p | Some a => moves (place p) a (place q) end ->
  phased (place <$> ts) (match a with Some a => Some (i, a) | None => None end) (place <$> <[i := q]> ts).
Proof.
  intros Hi Hm. rewrite list_fmap_insert. assert ((place <$> ts) !! i = Some (place p)) as Hp by (by rewrite list_lookup_fmap, Hi).
  destruct a as [a|]; cbn; [by eauto|]. rewrite Hm. by apply list_insert_id.
Qed.
End calls.

(** ** Sums over the threads *)

Fixpoint total {P} (f : P -> Z) (l : list P) : Z := match l with [] => 0 | p :: l => f p + total f l end.

Lemma total_insert {P} (f : P -> Z) l i p q : l !! i = Some p -> total f (<[i := q]> l) = total f l - f p + f q.
Proof.
  revert i. induction l as [|x l IH]; intros [|i] Hi; [done|done| |]; cbn in Hi; [simplify_eq; cbn; lia|].
  change (<[S i := q]> (x :: l)) with (x :: <[i := q]> l). cbn [total]. rewrite (IH i Hi). lia.
Qed.

Lemma total_bounds {P} (f : P -> Z) l m : (forall p, 0 <= f p <= m) -> 0 <= total f l <= m * alen l.
Proof.
  intros Hf. unfold alen. induction l as [|x l IH]; cbn [total length]; [lia|]. pose proof (Hf x). lia.
Qed.

Lemma total_add {P} (f g : P -> Z) l : total (fun p => f p + g p) l = total f l + total g l.
Proof. induction l as [|x l IH]; cbn; lia. Qed.

Lemma total_sub {P} (f g : P -> Z) l : total (fun p => f p - g p) l = total f l - total g l.
Proof. induction l as [|x l IH]; cbn; lia. Qed.

Lemma total_const {P} (f : P -> Z) l : (forall p, p ∈ l -> f p = 0) -> total f l = 0.
Proof.
  induction l as [|x l IH]; intros Hf; cbn; [done|]. rewrite (Hf x), IH; [done| |constructor]. intros p Hp. apply Hf. by constructor.
Qed.

Lemma total_member {P} (f : P -> Z) l i p : (forall p, 0 <= f p) -> l !! i = Some p -> f p <= total f l.
Proof.
  intros Hf. assert (forall l, 0 <= total f l) as Hp by (induction l0 as [|x l0 IH]; cbn; [lia|]; pose proof (Hf x); lia).
  revert i. induction l as [|x l IH]; intros [|i] Hi; [done|done| |]; cbn in *.
  - simplify_eq. pose proof (Hp l). lia.
  - pose proof (IH i Hi). pose proof (Hf x). lia.
Qed.

(** All totals after a thread moved from [p] to [q]. *)
Ltac moved Hi :=
  repeat match goal with |- context [total ?f (<[?i := ?q]> ?l)] => rewrite (total_insert f l i _ q Hi) end.
