(* ===== verification/Spsc.v ===== *)
(** The single-producer single-consumer ring [spsc_queue] (queue/spsc_queue.hpp).

    One thread pushes, one thread pops.  Each call is an automaton that makes one
    access to the shared members ([head], [tail], a cell) per step; what a call does
    with its own variables and with the side of the cache it owns goes with the next
    shared access.  Loads and stores interleave in any order but are seen by both
    threads at once (sequential consistency).  [T] is a type for which the
    [if constexpr] tests take their trivial branches. *)
From stdpp Require Import base numbers list option.
From Stdlib Require Import ZArith Lia.
From S2P Require Import Prelude Arrays Steps.

Local Open Scope Z_scope.

(** ** Capacity *)

Definition smear (n k : Z) : Z := Z.lor n (Z.shiftr n k).

(** [w] is the width of [usize]. *)
Definition __next_pow2 (w n : Z) : Z :=
  let n := wrap w (n - 1) in
  let n := smear n 1 in
  let n := smear n 2 in
  let n := smear n 4 in
  let n := smear n 8 in
  let n := smear n 16 in
  let n := if Z.ltb 32 w then smear n 32 else n in
  wrap w (n + 1).

Section queue.
Context {A : Type} (dflt : A) (w N : Z).

Definition capacity : Z := __next_pow2 w N.
Definition mask : Z := wrap w (capacity - 1).

(** ** State *)

Inductive push_call :=
| call_push (v : A)                     (* push(T &&), push(const T &), emplace; push(void) with T{} *)
| call_push_batch (items : list A).     (* push_batch(items, count) *)

Inductive pop_call :=
| call_pop                              (* pop(T &) *)
| call_pop_void                         (* pop(void) *)
| call_pop_batch (count : Z)            (* pop_batch(items, count) *)
| call_peek.                            (* peek(T &) *)

(** Where the producer is: before the load of [tail], before the load of [head],
    before the store of an item into a cell (the items, how many are stored), before
    the store of [tail]. *)
Inductive producer :=
| p_idle
| p_start (c : push_call)
| p_reload (c : push_call) (t : Z)
| p_fill (t : Z) (items : list A) (i : Z)
| p_publish (t : Z) (items : list A).

(** Where the consumer is: before the load of [head], before the load of [tail],
    before the read of a cell (what has been read, how many to read), before the
    store to a cell that is dropped, before the store of [head]; for [peek] before
    the load of [tail] and before the read. *)
Inductive consumer :=
| c_idle
| c_start (c : pop_call)
| c_reload (c : pop_call) (h : Z)
| c_take (h : Z) (got : list A) (n : Z)
| c_drop (h : Z)
| c_publish (h : Z) (got : list A)
| c_publish_drop (h : Z)
| c_peek (h : Z)
| c_peek_read (h : Z).

Record state := State {
  cells : list A;
  head : Z;
  tail : Z;
  cached_head : Z;
  cached_tail : Z;
  p_at : producer;
  c_at : consumer
}.

(** A call with its arguments, or what a finished call answers: a caller of [push] sees
    only that it stored its item, a caller of [push_batch] only how many of them. *)
Inductive event :=
| pushing (c : push_call)
| popping (c : pop_call)
| pushed (n : Z)               (* true (n = 1), or the count *)
| was_full                     (* false *)
| popped (items : list A)      (* true and the item, or the count and the items *)
| dropped                      (* true of pop(void) *)
| was_empty                    (* false *)
| peeked (v : A)
| cleared.

Definition initial : state := State (replicate (Z.to_nat capacity) dflt) 0 0 0 0 p_idle c_idle.

(** ** The producer *)

Definition room (t ch : Z) : Z := wrap w (capacity - wrap w (t - ch)).

(** The test before the slow path. *)
Definition no_room (c : push_call) (avail : Z) : bool :=
  match c with call_push _ => Z.eqb avail 0 | call_push_batch items => Z.ltb avail (alen items) end.

(** The items a call goes on with. *)
Definition accepted (c : push_call) (avail : Z) : list A :=
  match c with
  | call_push v => [v]
  | call_push_batch items => if Z.ltb avail (alen items) then take (Z.to_nat avail) items else items
  end.

Definition fill_from (t : Z) (items : list A) (i : Z) : producer :=
  if Z.ltb i (alen items) then p_fill t items i else p_publish t items.

Definition at_prod (s : state) (p : producer) : state :=
  State (cells s) (head s) (tail s) (cached_head s) (cached_tail s) p (c_at s).

Definition producer_step (s : state) : option (state * option event) :=
  match p_at s with
  | p_idle => None
  | p_start c =>
      let t := tail s in
      let avail := room t (cached_head s) in
      Some (at_prod s (if no_room c avail then p_reload c t else fill_from t (accepted c avail) 0), None)
  | p_reload c t =>
      let ch := head s in
      let avail := room t ch in
      let s := State (cells s) (head s) (tail s) ch (cached_tail s) (p_at s) (c_at s) in
      match c with
      | call_push _ =>
          if Z.eqb avail 0 then Some (at_prod s p_idle, Some was_full)
          else Some (at_prod s (fill_from t (accepted c avail) 0), None)
      | call_push_batch _ => Some (at_prod s (fill_from t (accepted c avail) 0), None)
      end
  | p_fill t items i =>
      x ← items.[i];
      m ← aset (cells s) (Z.land (wrap w (t + i)) mask) x;
      Some (State m (head s) (tail s) (cached_head s) (cached_tail s) (fill_from t items (i + 1)) (c_at s), None)
  | p_publish t items =>
      Some (State (cells s) (head s) (wrap w (t + alen items)) (cached_head s) (cached_tail s) p_idle (c_at s),
            Some (pushed (alen items)))
  end.

(** ** The consumer *)

Definition no_items (c : pop_call) (avail : Z) : bool :=
  match c with call_pop_batch count => Z.ltb avail count | _ => Z.eqb avail 0 end.

Definition take_from (h : Z) (got : list A) (n : Z) : consumer :=
  if Z.ltb (alen got) n then c_take h got n else c_publish h got.

(** Where a call goes on with [avail] items to read. *)
Definition consume (c : pop_call) (h avail : Z) : consumer :=
  match c with
  | call_pop => take_from h [] 1
  | call_pop_void => c_drop h
  | call_pop_batch count => take_from h [] (if Z.ltb avail count then avail else count)
  | call_peek => c_peek_read h
  end.

Definition at_cons (s : state) (c : consumer) : state :=
  State (cells s) (head s) (tail s) (cached_head s) (cached_tail s) (p_at s) c.

Definition consumer_step (s : state) : option (state * option event) :=
  match c_at s with
  | c_idle => None
  | c_start call_peek => Some (at_cons s (c_peek (head s)), None)
  | c_start c =>
      let h := head s in
      let avail := wrap w (cached_tail s - h) in
      Some (at_cons s (if no_items c avail then c_reload c h else consume c h avail), None)
  | c_reload c h =>
      let ct := tail s in
      let avail := wrap w (ct - h) in
      let s := State (cells s) (head s) (tail s) (cached_head s) ct (p_at s) (c_at s) in
      match c with
      | call_pop_batch _ => Some (at_cons s (consume c h avail), None)
      | _ => if Z.eqb avail 0 then Some (at_cons s c_idle, Some was_empty) else Some (at_cons s (consume c h avail), None)
      end
  | c_take h got n =>
      x ← (cells s).[Z.land (wrap w (h + alen got)) mask];
      Some (at_cons s (take_from h (got ++ [x]) n), None)
  | c_drop h =>
      m ← aset (cells s) (Z.land h mask) dflt;
      Some (State m (head s) (tail s) (cached_head s) (cached_tail s) (p_at s) (c_publish_drop h), None)
  | c_publish h got =>
      Some (State (cells s) (wrap w (h + alen got)) (tail s) (cached_head s) (cached_tail s) (p_at s) c_idle,
            Some (popped got))
  | c_publish_drop h =>
      Some (State (cells s) (wrap w (h + 1)) (tail s) (cached_head s) (cached_tail s) (p_at s) c_idle, Some dropped)
  | c_peek h =>
      let t := tail s in
      if negb (Z.eqb h t) then Some (at_cons s (c_peek_read h), None) else Some (at_cons s c_idle, Some was_empty)
  | c_peek_read h =>
      x ← (cells s).[Z.land h mask];
      Some (at_cons s c_idle, Some (peeked x))
  end.

(** [clear], called while no other call runs. *)
Definition clear (s : state) : state :=
  State (replicate (Z.to_nat capacity) dflt) 0 0 0 0 (p_at s) (c_at s).

(** [size] and [empty] when the other thread does not move between their two loads. *)
Definition size (s : state) : Z := wrap w (tail s - head s).

Definition is_empty (s : state) : bool := Z.eqb (head s) (tail s).

(** The references [front] and [last] return, as the item they lead to. *)
Definition front (s : state) : option A := (cells s).[Z.land (head s) mask].

Definition last (s : state) : option A := (cells s).[Z.land (wrap w (tail s - 1)) mask].

(** ** Interleavings *)

(** A count is a [usize]. *)
Definition call_ok (c : pop_call) : Prop := match c with call_pop_batch n => 0 <= n | _ => True end.

Inductive step : state -> option event -> state -> Prop :=
| step_push s c : p_at s = p_idle -> step s (Some (pushing c)) (at_prod s (p_start c))
| step_pop s c : c_at s = c_idle -> call_ok c -> step s (Some (popping c)) (at_cons s (c_start c))
| step_producer s s' e : producer_step s = Some (s', e) -> step s e s'
| step_consumer s s' e : consumer_step s = Some (s', e) -> step s e s'
| step_clear s : p_at s = p_idle -> c_at s = c_idle -> step s (Some cleared) (clear s).
End queue.
