(* ===== verification/SpscProof.v ===== *)
(** The ring [spsc_queue] is a bounded first-in first-out queue under every
    interleaving of its two threads. *)
From stdpp Require Import base numbers list option relations.
From Stdlib Require Import ZArith Lia.
From S2P Require Import Prelude Arrays Steps Spsc.

Local Open Scope Z_scope.

(** ** Rounding up to a power of two *)

(** The bits of [y] are those of [x], each also copied to the [j - 1] positions below. *)
Definition smeared (x j y : Z) : Prop :=
  0 <= y /\ forall i, 0 <= i -> (Z.testbit y i = true <-> exists d, 0 <= d < j /\ Z.testbit x (i + d) = true).

Lemma smeared_start x : 0 <= x -> smeared x 1 x.
Proof.
  intros Hx. split; [done|]. intros i Hi. split; [intros; exists 0; rewrite Z.add_0_r; by split|].
  intros (d & Hd & Ht). by replace (i + d) with i in Ht by lia.
Qed.

Lemma smear_spec x j y : 0 < j -> smeared x j y -> smeared x (2 * j) (smear y j).
Proof.
  intros Hj [Hy Hs]. unfold smear. split; [apply Z.lor_nonneg; split; [done|by apply Z.shiftr_nonneg]|].
  intros i Hi. rewrite Z.lor_spec, Z.shiftr_spec, Bool.orb_true_iff, !Hs by lia. split.
  - intros [(d & Hd & Ht)|(d & Hd & Ht)]; [exists d; split; [lia|done]|]. exists (j + d). split; [lia|]. by rewrite Z.add_assoc.
  - intros (d & Hd & Ht). destruct (decide (d < j)); [left; exists d; split; [lia|done]|].
    right. exists (d - j). split; [lia|]. by replace (i + j + (d - j)) with (i + d) by lia.
Qed.

(** With all positions covered, every bit up to the top one is set. *)
Lemma smeared_ones x j y : 0 < j -> 0 < x < 2 ^ j -> smeared x j y -> y = 2 ^ (Z.log2 x + 1) - 1.
Proof.
  intros Hj0 Hx [Hy Hs]. pose proof (Z.log2_nonneg x) as Hl. pose proof (Z.log2_spec x ltac:(lia)) as [L1 L2].
  assert (Z.log2 x < j) as Hlj by (apply Z.log2_lt_pow2; lia).
  replace (2 ^ (Z.log2 x + 1) - 1) with (Z.ones (Z.log2 x + 1)) by (rewrite Z.ones_equiv; lia).
  apply Z.bits_inj'. intros i Hi. rewrite Z.testbit_ones_nonneg by lia.
  destruct (Z.ltb_spec i (Z.log2 x + 1)).
  - apply Hs; [done|]. exists (Z.log2 x - i). split; [lia|]. replace (i + (Z.log2 x - i)) with (Z.log2 x) by lia. apply Z.bit_log2. lia.
  - apply Bool.not_true_is_false. intros (d & Hd & Ht)%Hs; [|done]. rewrite Z.bits_above_log2 in Ht by lia. done.
Qed.

(** The least power of two that is not below [n]. *)
Lemma next_pow2_spec w n : w = 64 \/ w = 32 -> 1 <= n <= 2 ^ (w - 1) ->
  exists k, 0 <= k < w /\ __next_pow2 w n = 2 ^ k /\ n <= 2 ^ k /\ 2 ^ k < 2 * n.
Proof.
  intros Hw Hn. assert (2 ^ w = 2 * 2 ^ (w - 1)) as Ew by (rewrite <- Z.pow_succ_r by lia; f_equal; lia).
  unfold __next_pow2. rewrite (wrap_id w (n - 1)) by (unfold in_unsigned; lia).
  set (x := n - 1).
  assert (smeared x 32 (smear (smear (smear (smear (smear x 1) 2) 4) 8) 16)) as H5.
  { apply (smear_spec x 16), (smear_spec x 8), (smear_spec x 4), (smear_spec x 2), (smear_spec x 1), smeared_start; unfold x; lia. }
  set (y5 := smear (smear (smear (smear (smear x 1) 2) 4) 8) 16) in *. cbv zeta.
  assert (smeared x w (if Z.ltb 32 w then smear y5 32 else y5)) as Hy.
  { destruct Hw as [-> | ->]; [apply (smear_spec x 32); done|done]. }
  set (y := if Z.ltb 32 w then smear y5 32 else y5) in *. destruct (decide (x = 0)) as [E|Hne].
  - exists 0. assert (y = 0) as ->.
    { apply Z.bits_inj'. intros i Hi. rewrite Z.bits_0. apply Bool.not_true_is_false. intros (d & Hd & Ht)%Hy; [|done].
      rewrite E, Z.bits_0 in Ht. done. }
    rewrite wrap_id by (unfold in_unsigned; destruct Hw as [-> | ->]; done). unfold x in E. split_and!; try done; lia.
  - rewrite (smeared_ones x w y) by (done || (unfold x in *; lia)). exists (Z.log2 x + 1).
    pose proof (Z.log2_nonneg x). pose proof (Z.log2_spec x ltac:(unfold x in *; lia)) as [L1 L2].
    assert (Z.log2 x < w - 1) by (apply Z.log2_lt_pow2; unfold x in *; lia). rewrite <- Z.add_1_r in L2.
    assert (2 ^ (Z.log2 x + 1) < 2 ^ w) by (apply Z.pow_lt_mono_r; lia). rewrite Z.pow_add_r in * by lia.
    rewrite wrap_id by (unfold in_unsigned; lia). split_and!; unfold x in *; lia.
Qed.

(** ** The abstract queue

    Its state is the contents and the calls under way: at most one push with the room
    there was when it was called, and at most one pop with the number of items there
    were then. *)

Record fifo (A : Type) := Fifo {
  contents : list A;
  push_under_way : option (@push_call A * Z);
  pop_under_way : option (pop_call * Z)
}.
#[global] Arguments Fifo {A} _ _ _.
#[global] Arguments contents {A} _.
#[global] Arguments push_under_way {A} _.
#[global] Arguments pop_under_way {A} _.

Section fifo.
Context {A : Type} (cap : Z).

(** What a push is called with. *)
Definition arguments (c : @push_call A) : list A := match c with call_push v => [v] | call_push_batch items => items end.

(** The number of items a push may store: [push] its item, [push_batch] no fewer than
    there was room for when it was called. *)
Definition stores (c : @push_call A) (free n : Z) : Prop :=
  match c with call_push _ => n = 1 | call_push_batch items => Z.min free (alen items) <= n <= alen items end.

(** The number of items a pop may take. *)
Definition takes (c : pop_call) (avail n : Z) : Prop :=
  match c with call_pop => n = 1 | call_pop_batch count => Z.min avail count <= n <= count | _ => False end.

(** The calls that answer false on an empty queue. *)
Definition needs_item (c : pop_call) : Prop := match c with call_pop_batch _ => False | _ => True end.

Inductive fifo_step : fifo A -> event -> fifo A -> Prop :=
| fifo_pushing q r c : fifo_step (Fifo q None r) (pushing c) (Fifo q (Some (c, cap - alen q)) r)
| fifo_popping q p c : fifo_step (Fifo q p None) (popping c) (Fifo q p (Some (c, alen q)))
| fifo_push q c free r n : stores c free n -> alen q + n <= cap ->
    fifo_step (Fifo q (Some (c, free)) r) (pushed n) (Fifo (q ++ take (Z.to_nat n) (arguments c)) None r)
| fifo_full q v free r : alen q = cap -> fifo_step (Fifo q (Some (call_push v, free)) r) was_full (Fifo q None r)
| fifo_pop items q p c avail : takes c avail (alen items) ->
    fifo_step (Fifo (items ++ q) p (Some (c, avail))) (popped items) (Fifo q p None)
| fifo_drop x q p avail : fifo_step (Fifo (x :: q) p (Some (call_pop_void, avail))) dropped (Fifo q p None)
| fifo_empty p c avail : needs_item c -> fifo_step (Fifo [] p (Some (c, avail))) was_empty (Fifo [] p None)
| fifo_peek x q p avail : fifo_step (Fifo (x :: q) p (Some (call_peek, avail))) (peeked x) (Fifo (x :: q) p None)
| fifo_clear q : fifo_step (Fifo q None None) cleared (Fifo [] None None).
End fifo.

(** ** The invariant *)

Section ring.
Context {A : Type} (dflt : A) (w N k : Z).
Context (Hk : 0 <= k < w) (Hcap : capacity w N = 2 ^ k).

Abbreviation cap := (2 ^ k).
Abbreviation state := (@state A).

Lemma cap_bounds : 0 < cap /\ cap < 2 ^ w /\ 2 ^ w = cap * 2 ^ (w - k).
Proof.
  split; [apply Z.pow_pos_nonneg; lia|]. split; [apply Z.pow_lt_mono_r; lia|]. rewrite <- Z.pow_add_r by lia. f_equal. lia.
Qed.

Lemma mask_index x : Z.land (wrap w x) (mask w N) = x mod cap.
Proof.
  destruct cap_bounds as (P & L & E). unfold mask. rewrite Hcap, (wrap_id w (cap - 1)) by (unfold in_unsigned; lia).
  replace (cap - 1) with (Z.ones k) by (rewrite Z.ones_equiv; lia). rewrite Z.land_ones by lia. unfold wrap.
  apply Z.mod_mod_divide. exists (2 ^ (w - k)). lia.
Qed.

Lemma wrap_add x y : wrap w (wrap w x + y) = wrap w (x + y).
Proof. unfold wrap. apply Z.add_mod_idemp_l. apply Z.pow_nonzero; lia. Qed.

Lemma wrap_diff x y : 0 <= x - y <= cap -> wrap w (wrap w x - wrap w y) = x - y.
Proof.
  intros Hd. destruct cap_bounds as (P & L & E). unfold wrap. rewrite <- Zminus_mod. apply Z.mod_small. lia.
Qed.

Lemma room_eq T C : 0 <= T - C <= cap -> room w N (wrap w T) (wrap w C) = cap - (T - C).
Proof.
  intros Hd. destruct cap_bounds as (P & L & E). unfold room. rewrite wrap_diff, Hcap by done. apply wrap_id. unfold in_unsigned. lia.
Qed.

(** Positions less than a lap apart are in different cells. *)
Lemma cells_apart x y : x <> y -> - cap < x - y < cap -> x mod cap <> y mod cap.
Proof.
  intros Hne Hd E. destruct cap_bounds as (P & _ & _).
  pose proof (Z.div_mod x cap ltac:(lia)). pose proof (Z.div_mod y cap ltac:(lia)).
  assert (x - y = cap * (x / cap - y / cap)) as Ed by lia. assert (x / cap - y / cap = 0) as Ez by nia. rewrite Ez in Ed. lia.
Qed.

Lemma cell_range x : 0 <= x mod cap < cap.
Proof. apply Z.mod_pos_bound. apply cap_bounds. Qed.

(** [items] from [P] on, the first [n] of them. *)
Definition stored (m : list A) (P n : Z) (items : list A) : Prop :=
  forall j, 0 <= j < n -> m.[(P + j) mod cap] = items.[j].

(** Where the producer is, with [T] items pushed and [C] popped as far as it knows. *)
Definition producer_ok (m : list A) (T C : Z) (p : producer) : Prop :=
  match p with
  | p_idle | p_start _ => True
  | p_reload _ t => t = wrap w T
  | p_fill t items i => t = wrap w T /\ 0 <= i < alen items /\ T + alen items <= C + cap /\ stored m T i items
  | p_publish t items => t = wrap w T /\ T + alen items <= C + cap /\ stored m T (alen items) items
  end.

(** Where the consumer is, with [H] items popped and [C] pushed as far as it knows. *)
Definition consumer_ok (q : list A) (H T C : Z) (c : consumer) : Prop :=
  match c with
  | c_idle => True
  | c_start c => call_ok c
  | c_reload c h => h = wrap w H /\ call_ok c /\ c <> call_peek
  | c_take h got n => h = wrap w H /\ alen got < n /\ H + n <= C /\ got = take (length got) q
  | c_drop h | c_publish_drop h => h = wrap w H /\ H + 1 <= C
  | c_publish h got => h = wrap w H /\ H + alen got <= C /\ got = take (length got) q
  | c_peek h => h = wrap w H
  | c_peek_read h => h = wrap w H /\ H < T
  end.

(** The items at the front the consumer has overwritten already. *)
Definition lost (c : @consumer A) : Z := match c with c_publish_drop _ => 1 | _ => 0 end.

Record ring (s : state) (q : list A) (H T CH CT : Z) : Prop := {
  r_len : alen (cells s) = cap;
  r_head : head s = wrap w H;
  r_tail : tail s = wrap w T;
  r_ch : cached_head s = wrap w CH;
  r_ct : cached_tail s = wrap w CT;
  r_order : 0 <= CH <= H /\ H <= CT <= T /\ T <= CH + cap;
  r_size : alen q = T - H;
  r_cells : forall i, lost (c_at s) <= i < alen q -> (cells s).[(H + i) mod cap] = q.[i];
  r_prod : producer_ok (cells s) T CH (p_at s);
  r_cons : consumer_ok q H T CT (c_at s)
}.

Definition ring_of (s : state) (q : list A) : Prop := exists H T CH CT, ring s q H T CH CT.

(** What a step does to the contents. *)
Inductive effect (s : state) (q : list A) : option event -> list A -> Prop :=
| effect_none : effect s q None q
| effect_pushing c : effect s q (Some (pushing c)) q
| effect_popping c : effect s q (Some (popping c)) q
| effect_push t items : p_at s = p_publish t items -> alen q + alen items <= cap -> effect s q (Some (pushed (alen items))) (q ++ items)
| effect_full v t : p_at s = p_reload (call_push v) t -> alen q = cap -> effect s q (Some was_full) q
| effect_pop h items q' : c_at s = c_publish h items -> q = items ++ q' -> effect s q (Some (popped items)) q'
| effect_drop h x q' : c_at s = c_publish_drop h -> q = x :: q' -> effect s q (Some dropped) q'
| effect_empty : (exists h, c_at s = c_peek h \/ exists c, c_at s = c_reload c h /\ needs_item c) -> q = [] -> effect s q (Some was_empty) q
| effect_peek h x q' : c_at s = c_peek_read h -> q = x :: q' -> effect s q (Some (peeked x)) q
| effect_clear : p_at s = p_idle -> c_at s = c_idle -> effect s q (Some cleared) [].

Lemma ring_initial : ring_of (initial dflt w N) [].
Proof.
  exists 0, 0, 0, 0. destruct cap_bounds as (P & L & _). assert (wrap w 0 = 0) as E by (apply wrap_id; unfold in_unsigned; lia).
  constructor; cbn; rewrite ?E; try done; try lia.
  - unfold alen. rewrite length_replicate, Hcap. lia.
  - unfold alen. cbn. lia.
Qed.

(** Storing the next item keeps the queue and the items stored before. *)
Lemma fill_cell s q H T CH CT items i x t : ring s q H T CH CT -> p_at s = p_fill t items i -> items.[i] = Some x ->
  let m := upd (cells s) ((T + i) mod cap) x in
  alen m = cap /\ (forall j, lost (c_at s) <= j < alen q -> m.[(H + j) mod cap] = q.[j]) /\ stored m T (i + 1) items.
Proof.
  intros [Rl Rh Rt Rch Rct Ro Rs Rc Rp Rq] Ep Ex m. rewrite Ep in Rp. destruct Rp as (-> & Hi & Hfit & Hst).
  pose proof (cell_range (T + i)). assert (0 <= lost (c_at s)) as Hl0 by (unfold lost; destruct (c_at s); lia).
  unfold m. split; [by rewrite alen_upd|]. split.
  - intros j Hj. rewrite aget_upd_ne; [by apply Rc|lia|]. apply cells_apart; lia.
  - intros j Hj. destruct (decide (j = i)) as [->|Hne]; [rewrite aget_upd_eq by lia; done|].
    rewrite aget_upd_ne; [apply Hst; lia|lia|]. apply cells_apart; lia.
Qed.

(** The items a call goes on with fit. *)
Lemma accepted_fits c T C (m : list A) : 0 <= T - C <= cap ->
  (match c with call_push _ => T - C < cap | call_push_batch _ => True end) ->
  producer_ok m T C (fill_from (wrap w T) (accepted c (cap - (T - C))) 0).
Proof.
  intros Hd Hc. assert (T + alen (accepted c (cap - (T - C))) <= C + cap) as Hfit.
  { destruct c as [v|items]; cbn [accepted]; [unfold alen; cbn; lia|].
    destruct (Z.ltb_spec (cap - (T - C)) (alen items)); [|lia]. unfold alen. rewrite length_take. lia. }
  unfold fill_from. destruct (Z.ltb_spec 0 (alen (accepted c (cap - (T - C))))); cbn [producer_ok]; split_and!; try done; try lia;
    intros j Hj; lia.
Qed.

(** A step of the producer keeps the ring and does to the queue what it answers. *)
Lemma producer_simulates s q s' e : ring_of s q -> producer_step w N s = Some (s', e) ->
  exists q', effect s q e q' /\ ring_of s' q'.
Proof.
  intros (H & T & CH & CT & R) E. destruct R as [Rl Rh Rt Rch Rct Ro Rs Rc Rp Rq] eqn:ER. pose proof R as R'. clear ER. unfold producer_step in E.
  destruct (p_at s) as [|c|c t|t items i|t items] eqn:Ep; [done|..].
  - simplify_eq. exists q. split; [constructor|]. rewrite Rt, Rch, room_eq by lia. exists H, T, CH, CT. constructor; try done. cbn [p_at at_prod cells].
    destruct (no_room c (cap - (T - CH))) eqn:En; [done|]. apply accepted_fits; [lia|].
    destruct c; [|done]. cbn in En. apply Z.eqb_neq in En. lia.
  - cbn in Rp. subst t. rewrite Rh, room_eq in E by lia. destruct c as [v|items].
    + destruct (Z.eqb_spec (cap - (T - H)) 0) as [Ez|Hne]; simplify_eq.
      * exists q. split; [eapply effect_full; [done|lia]|]. exists H, T, H, CT. constructor; try done; cbn; lia.
      * exists q. split; [constructor|]. exists H, T, H, CT. constructor; try done; try (cbn; lia). apply accepted_fits; cbn; lia.
    + simplify_eq. exists q. split; [constructor|]. exists H, T, H, CT. constructor; try done; try (cbn; lia). apply accepted_fits; [lia|done].
  - cbn in Rp. destruct Rp as (-> & Hi & Hfit & Hst). destruct (items.[i]) as [x|] eqn:Ex; [|done]. cbn [mbind option_bind] in E.
    rewrite wrap_add, mask_index in E. pose proof (cell_range (T + i)). rewrite aset_in in E by lia. cbn [mbind option_bind] in E.
    simplify_eq. destruct (fill_cell s q H T CH CT items i x (wrap w T) R' Ep Ex) as (Hl & Hc & Hst').
    exists q. split; [constructor|]. exists H, T, CH, CT. constructor; try done. cbn [p_at cells]. unfold fill_from.
    destruct (Z.ltb_spec (i + 1) (alen items)); cbn [producer_ok]; split_and!; try done; try lia.
    by replace (alen items) with (i + 1) by lia.
  - cbn in Rp. destruct Rp as (-> & Hfit & Hst). simplify_eq.
    assert (alen (q ++ items) = T - H + alen items) as Elen by (unfold alen in *; rewrite length_app; lia).
    exists (q ++ items). split; [eapply effect_push; [done|lia]|]. exists H, (T + alen items), CH, CT. pose proof (alen_nonneg items) as Hp.
    constructor; try done; cbn [cells head tail cached_head cached_tail p_at c_at producer_ok]; try lia; [by rewrite wrap_add| |].
    + intros j Hj. destruct (decide (j < alen q)) as [Hlt|Hge].
      * rewrite Rc by lia. unfold aget. rewrite !decide_True by (unfold lost in Hj; destruct (c_at s); lia).
        rewrite lookup_app_l; [done|]. unfold alen in *. unfold lost in Hj. destruct (c_at s); lia.
      * replace (H + j) with (T + (j - alen q)) by lia. rewrite Hst by lia. unfold aget. rewrite !decide_True by lia.
        rewrite lookup_app_r by (unfold alen in *; lia). f_equal. unfold alen in *. lia.
    + destruct (c_at s); cbn [consumer_ok] in *; try done; destruct_and? Rq; split_and!; try done; try lia.
      all: rewrite take_app_le; [done|]; unfold alen in *; lia.
Qed.

(** Where a call goes on once it knows of [C - H] items. *)
Lemma consume_ok c q H T C : 0 <= C - H -> C <= T -> call_ok c -> c <> call_peek ->
  (match c with call_pop_batch _ => True | _ => 0 < C - H end) -> consumer_ok q H T C (consume c (wrap w H) (C - H)) /\
  lost (@consume A c (wrap w H) (C - H)) = 0.
Proof.
  intros Hd HT Hok Hp Hc. destruct c as [| |n|]; cbn [consume]; [|split; [split; [done|lia]|done]| |done].
  - split; [|done]. cbn. split_and!; try done; lia.
  - unfold take_from. cbn [alen length Z.of_nat]. change (alen []) with 0. cbn [call_ok] in Hok.
    set (n' := if Z.ltb (C - H) n then C - H else n). assert (0 <= n' <= C - H) as Hn by (unfold n'; destruct (Z.ltb_spec (C - H) n); lia).
    destruct (Z.ltb_spec 0 n'); cbn [consumer_ok lost]; split; try done; split_and!; try done; unfold alen; cbn; lia.
Qed.

Lemma take_snoc (q : list A) got x : got = take (length got) q -> q.[alen got] = Some x -> got ++ [x] = take (length (got ++ [x])) q.
Proof.
  intros E Ex. unfold aget, alen in Ex. rewrite decide_True, Nat2Z.id in Ex by lia.
  rewrite length_app. cbn [length]. rewrite Nat.add_1_r. rewrite (take_S_r _ _ x) by done. by rewrite <- E.
Qed.

(** The queue after the first items have gone. *)
Lemma ring_popped s q H T CH CT n : ring s q H T CH CT -> lost (c_at s) <= n -> 0 <= n -> H + n <= CT ->
  ring (State (cells s) (wrap w (H + n)) (tail s) (cached_head s) (cached_tail s) (p_at s) c_idle) (drop (Z.to_nat n) q) (H + n) T CH CT.
Proof.
  intros [Rl Rh Rt Rch Rct Ro Rs Rc Rp Rq] Hlost Hn Hle.
  constructor; try done; cbn [cells head tail cached_head cached_tail p_at c_at lost]; try lia.
  - unfold alen in *. rewrite length_drop. lia.
  - intros i Hi. unfold alen in Hi. rewrite length_drop in Hi. rewrite <- Z.add_assoc, Rc by (unfold alen; lia).
    unfold aget. rewrite !decide_True by lia. rewrite lookup_drop. f_equal. lia.
Qed.

Lemma queue_split (q : list A) got : got = take (length got) q -> q = got ++ drop (length got) q.
Proof. intros E. rewrite E at 1. symmetry. apply take_drop. Qed.

(** A change of the consumer's place alone. *)
Lemma ring_at s q H T CH CT CT' c : ring s q H T CH CT -> H <= CT' <= T -> consumer_ok q H T CT' c ->
  lost c = 0 -> lost (c_at s) = 0 ->
  ring (State (cells s) (head s) (tail s) (cached_head s) (wrap w CT') (p_at s) c) q H T CH CT'.
Proof.
  intros [Rl Rh Rt Rch Rct Ro Rs Rc Rp Rq] HC Hc L0 L1. rewrite L1 in Rc. constructor; try done; cbn; rewrite ?L0; done || lia.
Qed.

(** Dropping the front item leaves the others and the producer's items. *)
Lemma drop_cell s q H T CH CT h : ring s q H T CH CT -> c_at s = c_drop h ->
  ring (State (upd (cells s) (H mod cap) dflt) (head s) (tail s) (cached_head s) (cached_tail s) (p_at s) (c_publish_drop h)) q H T CH CT.
Proof.
  intros [Rl Rh Rt Rch Rct Ro Rs Rc Rp Rq] Ec. rewrite Ec in Rc, Rq. cbn in Rq. destruct Rq as [-> Hle].
  pose proof (cell_range H) as Hr.
  assert (forall items n, T + n <= CH + cap -> stored (cells s) T n items -> stored (upd (cells s) (H mod cap) dflt) T n items) as Hst.
  { intros items n Hfit Hs j Hj. rewrite aget_upd_ne; [by apply Hs|lia|]. apply cells_apart; lia. }
  constructor; try done; cbn [cells head tail cached_head cached_tail p_at c_at lost]; [by rewrite alen_upd| |].
  - intros i Hi. rewrite aget_upd_ne; [apply Rc; cbn; lia|lia|]. apply cells_apart; lia.
  - destruct (p_at s); cbn [producer_ok] in *; try done; destruct_and? Rp; split_and!; try done; apply Hst; done || lia.
Qed.

Lemma front_item (q : list A) : 0 < alen q -> exists x, q.[0] = Some x /\ q = x :: drop 1 q.
Proof. intros Hq. destruct q as [|x q]; [unfold alen in Hq; cbn in Hq; lia|]. by exists x. Qed.

(** A step of the consumer keeps the ring and does to the queue what it answers. *)
Lemma consumer_simulates s q s' e : ring_of s q -> consumer_step dflt w N s = Some (s', e) ->
  exists q', effect s q e q' /\ ring_of s' q'.
Proof.
  intros (H & T & CH & CT & R) E. pose proof R as [Rl Rh Rt Rch Rct Ro Rs Rc Rp Rq]. unfold consumer_step in E.
  destruct (c_at s) as [|c|c h|h got n|h|h got|h|h|h] eqn:Ec; [done|..]; cbn [consumer_ok] in Rq.
  - assert (forall c', consumer_ok q H T CT c' /\ lost c' = 0 -> exists q', effect s q None q' /\ ring_of (at_cons s c') q') as Hat.
    { intros c' [Hc' L']. exists q. split; [constructor|]. exists H, T, CH, CT. pose proof (ring_at s q H T CH CT CT c' R ltac:(lia) Hc' L') as R2.
      rewrite <- Rct, Ec in R2. by apply R2. }
    rewrite Rh, Rct, wrap_diff in E by lia.
    destruct c as [| |n|]; simplify_eq; try (by apply Hat);
      (destruct (no_items _ (CT - H)) eqn:En; [by apply Hat|]); cbn [no_items] in En;
      first [apply Z.eqb_neq in En | apply Z.ltb_ge in En]; apply Hat; apply consume_ok; done || lia.
  - destruct Rq as (-> & Hok & Hp). rewrite Rt, wrap_diff in E by lia.
    assert (forall c', consumer_ok q H T T c' /\ lost c' = 0 ->
      ring_of (State (cells s) (head s) (wrap w T) (cached_head s) (wrap w T) (p_at s) c') q) as Hat.
    { intros c' [Hc' L']. exists H, T, CH, T. rewrite <- Rt at 1. apply (ring_at s q H T CH CT T c' R); [lia|done|done|by rewrite Ec]. }
    assert (0 < T - H \/ (q = [] /\ T - H = 0)) as Hq.
    { destruct (decide (T - H = 0)) as [E0|]; [right|left; lia]. split; [|done]. destruct q; [done|]. unfold alen in Rs. cbn in Rs. lia. }
    destruct c as [| |n|]; [| | |done].
    all: try (destruct (Z.eqb_spec (T - H) 0); simplify_eq;
      [exists q; split; [destruct Hq as [?|[-> _]]; [lia|constructor; eauto]|by apply Hat]|exists q; split; [constructor|]; apply Hat; apply consume_ok; done || lia]).
    simplify_eq. exists q. split; [constructor|]. apply Hat; apply consume_ok; done || lia.
  - destruct Rq as (-> & Hlt & Hle & Eg). rewrite wrap_add, mask_index, Rc in E by (cbn; pose proof (alen_nonneg got); lia).
    destruct (q.[alen got]) as [x|] eqn:Ex; [|done]. cbn [mbind option_bind] in E. simplify_eq. exists q. split; [constructor|]. exists H, T, CH, CT.
    assert (alen (got ++ [x]) = alen got + 1) as El by (unfold alen; rewrite length_app; cbn; lia).
    pose proof (take_snoc q got x Eg Ex) as Eg'.
    pose proof (ring_at s q H T CH CT CT (take_from (wrap w H) (got ++ [x]) n) R ltac:(lia)) as R2. rewrite <- Rct, Ec in R2.
    apply R2; [|by unfold take_from; destruct (Z.ltb _ _)|done].
    unfold take_from. rewrite El. destruct (Z.ltb_spec (alen got + 1) n); cbn [consumer_ok]; split_and!; try done; lia.
  - destruct Rq as (-> & Hle). rewrite mask_index in E. pose proof (cell_range H). rewrite aset_in in E by lia.
    cbn [mbind option_bind] in E. simplify_eq. exists q. split; [constructor|]. exists H, T, CH, CT. by apply drop_cell.
  - destruct Rq as (-> & Hle & Eg). simplify_eq. exists (drop (length got) q). pose proof (alen_nonneg got).
    split; [eapply effect_pop; [done|by apply queue_split]|]. exists (H + alen got), T, CH, CT. rewrite wrap_add.
    pose proof (ring_popped s q H T CH CT (alen got) R) as R2. rewrite Ec in R2. cbn [lost] in R2.
    replace (Z.to_nat (alen got)) with (length got) in R2 by (unfold alen; lia). apply R2; lia.
  - destruct Rq as (-> & Hle). simplify_eq. destruct (front_item q ltac:(lia)) as (x & _ & Eq).
    exists (drop 1 q). split; [by eapply effect_drop|]. exists (H + 1), T, CH, CT. rewrite wrap_add.
    pose proof (ring_popped s q H T CH CT 1 R) as R2. rewrite Ec in R2. apply R2; cbn; lia.
  - subst h. assert (forall c', consumer_ok q H T CT c' /\ lost c' = 0 -> exists q', effect s q None q' /\ ring_of (at_cons s c') q') as Hat.
    { intros c' [Hc' L']. exists q. split; [constructor|]. exists H, T, CH, CT. pose proof (ring_at s q H T CH CT CT c' R ltac:(lia) Hc' L') as R2.
      rewrite <- Rct, Ec in R2. by apply R2. }
    destruct (Z.eqb_spec (wrap w H) (tail s)) as [Eq|Hne]; cbn [negb] in E; simplify_eq.
    + assert (q = []) as Eq0; [|exists q; split; [constructor; eauto|]; destruct (Hat c_idle ltac:(done)) as (q' & Hq' & R'); by inversion Hq'; subst q']. rewrite Rt in Eq. pose proof (wrap_diff T H ltac:(lia)) as Hd. rewrite <- Eq, Z.sub_diag in Hd.
      destruct q; [done|]. unfold alen in Rs. cbn in Rs. destruct cap_bounds as (? & ? & ?). rewrite wrap_id in Hd by (unfold in_unsigned; lia). lia.
    + apply Hat. split; [|done]. split; [done|]. destruct (decide (H = T)) as [->|]; [by rewrite Rt in Hne|lia].
  - destruct Rq as (-> & Hlt). pose proof (Rc 0) as Hx. rewrite Z.add_0_r in Hx. rewrite mask_index, Hx in E by (cbn; lia).
    destruct (front_item q ltac:(lia)) as (x & Ex & Eq). rewrite Ex in E. cbn [mbind option_bind] in E. simplify_eq.
    exists q. split; [by eapply effect_peek|]. exists H, T, CH, CT.
    pose proof (ring_at s q H T CH CT CT c_idle R ltac:(lia)) as R2. rewrite <- Rct, Ec in R2. by apply R2.
Qed.

Lemma step_simulates s q e s' : ring_of s q -> step dflt w N s e s' -> exists q', effect s q e q' /\ ring_of s' q'.
Proof.
  intros R Hs. destruct Hs as [s c Ep|s c Ec Hok|s s' e E|s s' e E|s Ep Ec].
  - destruct R as (H & T & CH & CT & []). exists q. split; [constructor|]. exists H, T, CH, CT. by constructor.
  - destruct R as (H & T & CH & CT & [Rl Rh Rt Rch Rct Ro Rs Rc Rp Rq]). rewrite Ec in Rc. exists q. split; [constructor|].
    exists H, T, CH, CT. by constructor.
  - by eapply producer_simulates.
  - by eapply consumer_simulates.
  - exists []. split; [by constructor|]. exists 0, 0, 0, 0. destruct cap_bounds as (P & L & _).
    assert (wrap w 0 = 0) as E by (apply wrap_id; unfold in_unsigned; lia).
    unfold clear. rewrite Ep, Ec. constructor; cbn; rewrite ?E; try done; try lia.
    + unfold alen. rewrite length_replicate, Hcap. lia.
    + unfold alen. cbn. lia.
Qed.

(** ** Calls and answers *)

(** The push under way and where the producer is. *)
Definition push_linked (q : list A) (p : @producer A) (u : option (@push_call A * Z)) : Prop :=
  match p, u with
  | p_idle, None => True
  | (p_start c | p_reload c _), Some (c', free) => c' = c /\ free <= cap - alen q
  | (p_fill _ items _ | p_publish _ items), Some (c, free) =>
      free <= cap - alen q /\ items = take (length items) (arguments c) /\ stores c free (alen items)
  | _, _ => False
  end.

(** The pop under way and where the consumer is. *)
Definition pop_linked (q : list A) (c : @consumer A) (u : option (pop_call * Z)) : Prop :=
  match c, u with
  | c_idle, None => True
  | (c_start c | c_reload c _), Some (c', avail) => c' = c /\ avail <= alen q
  | c_take _ got n, Some (c, avail) => avail <= alen q /\ alen got <= n /\ takes c avail n
  | c_publish _ got, Some (c, avail) => avail <= alen q /\ takes c avail (alen got)
  | (c_drop _ | c_publish_drop _), Some (c, avail) => avail <= alen q /\ c = call_pop_void
  | (c_peek _ | c_peek_read _), Some (c, avail) => avail <= alen q /\ c = call_peek
  | _, _ => False
  end.

Definition implements (s : state) (f : fifo A) : Prop :=
  ring_of s (contents f) /\ push_linked (contents f) (p_at s) (push_under_way f) /\ pop_linked (contents f) (c_at s) (pop_under_way f).

(** Room only grows until the push answers, and items only come until the pop does. *)
Lemma push_linked_less q q' p u : alen q' <= alen q -> push_linked q p u -> push_linked q' p u.
Proof. intros Hl Hp. destruct p, u as [[c1 free]|]; cbn in *; try done; destruct_and? Hp; split_and!; done || lia. Qed.

Lemma pop_linked_more q q' c u : alen q <= alen q' -> pop_linked q c u -> pop_linked q' c u.
Proof. intros Hl Hp. destruct c, u as [[c1 avail]|]; cbn in *; try done; destruct_and? Hp; split_and!; done || lia. Qed.

(** The items a call goes on with are its first ones, and enough of them. *)
Lemma accepted_linked c t q free room : free <= cap - alen q -> 0 <= room -> no_room c room = false \/ free <= room ->
  push_linked q (fill_from t (accepted c room) 0) (Some (c, free)).
Proof.
  intros Hf Hr Hn. assert (accepted c room = take (length (accepted c room)) (arguments c) /\ stores c free (alen (accepted c room))) as [E1 E2].
  { destruct c as [v|items]; cbn [accepted arguments stores no_room] in *; [done|]. destruct (Z.ltb_spec room (alen items)).
    - destruct Hn as [?|Hn]; [done|]. unfold alen in *. rewrite length_take. split; [f_equal; lia|lia].
    - split; [by rewrite take_ge|]. lia. }
  unfold fill_from. destruct (Z.ltb _ _); cbn; by split_and!.
Qed.

Lemma producer_implements s f s' e : implements s f -> producer_step w N s = Some (s', e) ->
  match e with None => implements s' f | Some e => exists f', fifo_step cap f e f' /\ implements s' f' end.
Proof.
  destruct f as [q u r]. intros (R & Hp & Hc) E. cbn in R, Hp, Hc. destruct (producer_simulates s q s' e R E) as (q' & Hef & R').
  destruct R as (H & T & CH & CT & [Rl Rh Rt Rch Rct Ro Rs Rc Rp Rq]). destruct cap_bounds as (Pc & _ & _).
  unfold producer_step in E. destruct (p_at s) as [|c|c t|t items i|t items] eqn:Ep, u as [[c' free]|]; cbn in Hp; try done.
  - destruct Hp as [-> Hf]. simplify_eq. inversion Hef; subst q'. split_and!; [done| |done]. cbn [push_under_way contents p_at at_prod].
    clear R'. rewrite Rt, Rch, room_eq by lia. destruct (no_room c _) eqn:En; [cbn; by split|]. apply accepted_linked; [done|lia|by left].
  - destruct Hp as [-> Hf]. cbn in Rp. subst t. rewrite Rh, room_eq in E by lia.
    assert (push_linked q (fill_from (wrap w T) (accepted c (cap - (T - H))) 0) (Some (c, free))) as Hl by (apply accepted_linked; [done|lia|right; lia]).
    destruct c as [v|items]; [destruct (Z.eqb _ _)|]; simplify_eq; inversion Hef; subst q'; try (by split_and!).
    exists (Fifo q None r). split; [by constructor|by split_and!].
  - destruct (items.[i]); [|done]. cbn [mbind option_bind] in E. destruct (aset _ _ _); [|done]. cbn [mbind option_bind] in E. simplify_eq.
    inversion Hef; subst q'. split_and!; [done| |done]. cbn [p_at push_under_way contents]. unfold fill_from. by destruct (Z.ltb _ _).
  - destruct Hp as (Hf & Ei & Hst). simplify_eq. inversion Hef as [| | |t0 items0 Ep0 Hfit| | | | | |]; subst q'. rewrite Ep in Ep0. simplify_eq.
    exists (Fifo (q ++ take (Z.to_nat (alen items0)) (arguments c')) None r). split; [by constructor|].
    replace (Z.to_nat (alen items0)) with (length items0) by (unfold alen; lia). rewrite <- Ei. split_and!; [done|done|].
    cbn [contents c_at pop_under_way]. apply (pop_linked_more q); [unfold alen; rewrite length_app; lia|done].
Qed.

(** Where a call goes on with [avail] items: it takes enough of them. *)
Lemma consume_linked c h q avail m : avail <= alen q -> 0 <= m -> call_ok c -> c <> call_peek -> no_items c m = false \/ avail <= m ->
  pop_linked q (consume c h m) (Some (c, avail)).
Proof.
  intros Ha Hm Hok Hpk Hn. assert (forall n, 0 <= n -> takes c avail n -> pop_linked q (take_from h [] n) (Some (c, avail))) as Ht.
  { intros n Hn0 Ht. unfold take_from. change (alen []) with 0. destruct (Z.ltb_spec 0 n); cbn; [by split_and!|].
    change (alen []) with 0. by replace n with 0 in Ht by lia. }
  destruct c as [| |n|]; cbn [consume]; [by apply Ht|cbn; by split| |done]. cbn in Hn, Hok.
  destruct (Z.ltb_spec m n); (apply Ht; [lia|cbn]); [destruct Hn as [?|Hn]; [done|]|]; lia.
Qed.

Lemma consumer_implements s f s' e : implements s f -> consumer_step dflt w N s = Some (s', e) ->
  match e with None => implements s' f | Some e => exists f', fifo_step cap f e f' /\ implements s' f' end.
Proof.
  destruct f as [q r u]. intros (R & Hp & Hc) E. cbn in R, Hp, Hc. destruct (consumer_simulates s q s' e R E) as (q' & Hef & R').
  destruct R as (H & T & CH & CT & [Rl Rh Rt Rch Rct Ro Rs Rc Rp Rq]).
  unfold consumer_step in E. destruct (c_at s) as [|c|c h|h got n|h|h got|h|h|h] eqn:Ec, u as [[c' avail]|]; cbn in Hc, Rq; try done.
  - destruct Hc as [-> Ha]. rewrite Rh, Rct, wrap_diff in E by lia.
    destruct c as [| |n|]; simplify_eq; inversion Hef; subst q'; (split_and!; [done|done|]); cbn [contents c_at at_cons pop_under_way]; try (cbn; by split);
      destruct (no_items _ _) eqn:En; try (cbn; by split); (apply consume_linked; [done|lia|done|done|by left]).
  - destruct Hc as [-> Ha]. destruct Rq as (-> & Hok & Hpk). rewrite Rt, wrap_diff in E by lia.
    assert (pop_linked q (consume c (wrap w H) (T - H)) (Some (c, avail))) as Hl by (apply consume_linked; [done|lia|done|done|right; lia]).
    destruct c as [| |n|]; [destruct (Z.eqb _ _)|destruct (Z.eqb _ _)| |done]; simplify_eq; inversion Hef; subst; try (by split_and!);
      (exists (Fifo [] r None); split; [by constructor|by split_and!]).
  - destruct ((cells s).[_]) as [x|]; [|done]. cbn [mbind option_bind] in E. simplify_eq. inversion Hef; subst q'. split_and!; [done|done|].
    destruct Hc as (Ha & Hle & Ht). destruct Rq as (_ & Hlt & _). cbn [contents c_at at_cons pop_under_way]. unfold take_from.
    assert (alen (got ++ [x]) = alen got + 1) as El by (unfold alen; rewrite length_app; cbn; lia). rewrite El.
    destruct (Z.ltb_spec (alen got + 1) n); cbn; rewrite El; [by split_and!; [|lia|]|]. by replace (alen got + 1) with n by lia.
  - destruct (aset _ _ _); [|done]. cbn [mbind option_bind] in E. simplify_eq. inversion Hef; subst q'. by split_and!.
  - destruct Hc as [Ha Ht]. simplify_eq. inversion Hef as [| | | | |h0 items q0 Ec0 Eq0| | | |]; subst. exists (Fifo q' r None). rewrite Ec in Ec0. simplify_eq.
    split; [by constructor|]. split_and!; [done| |done]. refine (push_linked_less _ _ _ _ _ Hp). unfold alen. rewrite length_app. cbn. lia.
  - destruct Hc as [Ha ->]. simplify_eq. inversion Hef as [| | | | | |h0 x q0 Ec0 Eq0| | |]; subst. exists (Fifo q' r None).
    split; [by constructor|]. split_and!; [done| |done]. refine (push_linked_less _ _ _ _ _ Hp). unfold alen. cbn. lia.
  - destruct Hc as [Ha ->]. destruct (negb _); simplify_eq; inversion Hef; subst; [by split_and!|].
    exists (Fifo [] r None). split; [by constructor|by split_and!].
  - destruct Hc as [Ha ->]. destruct ((cells s).[_]) as [x|]; [|done]. cbn [mbind option_bind] in E. simplify_eq.
    inversion Hef as [| | | | | | | |h0 x0 q0 Ec0 Eq0|]; subst. eexists (Fifo _ r None). split; [by constructor|by split_and!].
Qed.

Lemma step_implements s f e s' : implements s f -> step dflt w N s e s' ->
  match e with None => implements s' f | Some e => exists f', fifo_step cap f e f' /\ implements s' f' end.
Proof.
  intros Hi Hs. pose proof Hs as Hs'. destruct Hs as [s c Ep|s c Ec Hok|s s' e E|s s' e E|s Ep Ec];
    [| |by eapply producer_implements|by eapply consumer_implements|]; destruct f as [q u r]; destruct Hi as (R & Hp & Hc); cbn in R, Hp, Hc;
    destruct (step_simulates _ q _ _ R Hs') as (q' & Hef & R'); inversion Hef; subst.
  - rewrite Ep in Hp. destruct u; [done|]. eexists. split; [constructor|]. by split_and!.
  - rewrite Ec in Hc. destruct r; [done|]. eexists. split; [constructor|]. by split_and!.
  - rewrite Ep in Hp. rewrite Ec in Hc. destruct u; [done|]. destruct r; [done|]. eexists. split; [constructor|]. split_and!; [done|by rewrite <- Ep in Hp|by rewrite <- Ec in Hc].
Qed.

Lemma implements_initial : implements (initial dflt w N) (Fifo [] None None).
Proof. split_and!; [apply ring_initial|done|done]. Qed.

(** ** Calls finish *)

(** An upper bound on the steps a call still makes by itself. *)
Definition call_items (c : @push_call A) : Z := match c with call_push _ => 1 | call_push_batch items => alen items end.

Definition producer_left (p : @producer A) : Z :=
  match p with
  | p_idle => 0
  | p_start c => call_items c + 3
  | p_reload c _ => call_items c + 2
  | p_fill _ items i => alen items - i + 1
  | p_publish _ _ => 1
  end.

Definition consumer_left (c : @consumer A) : Z :=
  match c with
  | c_idle => 0
  | c_start (call_pop_batch n) => n + 3
  | c_start _ => 4
  | c_reload (call_pop_batch n) _ => n + 2
  | c_reload _ _ => 3
  | c_take _ got n => n - alen got + 1
  | c_drop _ | c_peek _ => 2
  | c_publish _ _ | c_publish_drop _ | c_peek_read _ => 1
  end.

Lemma call_items_nonneg c : 0 <= call_items c.
Proof. destruct c; cbn; [done|apply alen_nonneg]. Qed.

Lemma fill_left t c avail : 0 <= avail -> 1 <= producer_left (fill_from t (accepted c avail) 0) <= call_items c + 1.
Proof.
  intros Ha. assert (0 <= alen (accepted c avail) <= call_items c) as Hl.
  { split; [apply alen_nonneg|]. destruct c as [v|items]; cbn; [done|]. destruct (Z.ltb_spec avail (alen items)); [|lia].
    unfold alen in *. rewrite length_take. lia. }
  unfold fill_from. destruct (Z.ltb_spec 0 (alen (accepted c avail))); cbn; lia.
Qed.

(** A call of the producer always has a next step, and it comes closer to its end. *)
Lemma producer_progress s q : ring_of s q -> p_at s <> p_idle ->
  exists s' e, producer_step w N s = Some (s', e) /\ 0 <= producer_left (p_at s') < producer_left (p_at s) /\ c_at s' = c_at s.
Proof.
  intros (H & T & CH & CT & [Rl Rh Rt Rch Rct Ro Rs Rc Rp Rq]) Hp. unfold producer_step.
  destruct (p_at s) as [|c|c t|t items i|t items] eqn:Ep; [done|..].
  - do 2 eexists. split; [done|]. cbn [p_at at_prod c_at producer_left]. rewrite Rt, Rch, room_eq by lia. split; [|done].
    pose proof (call_items_nonneg c). destruct (no_room c (cap - (T - CH))); [cbn; lia|].
    pose proof (fill_left (wrap w T) c (cap - (T - CH)) ltac:(lia)). lia.
  - cbn in Rp. subst t. cbn [producer_left]. rewrite Rh, room_eq by lia. pose proof (fill_left (wrap w T) c (cap - (T - H)) ltac:(lia)) as Hf. pose proof (call_items_nonneg c).
    destruct c as [v|items]; [destruct (Z.eqb _ _)|]; do 2 eexists; (split; [done|]); cbn [p_at at_prod c_at producer_left]; (split; [|done]); cbn [call_items] in *; lia.
  - cbn in Rp. destruct Rp as (-> & Hi & Hfit & Hst). destruct (aget_in items i Hi) as [x ->]. cbn [mbind option_bind].
    rewrite wrap_add, mask_index. pose proof (cell_range (T + i)). rewrite aset_in by lia. cbn [mbind option_bind].
    do 2 eexists. split; [done|]. cbn [p_at c_at producer_left]. split; [|done]. unfold fill_from.
    destruct (Z.ltb_spec (i + 1) (alen items)); cbn; lia.
  - do 2 eexists. split; [done|]. cbn. split; [lia|done].
Qed.

Lemma consumer_progress s q : ring_of s q -> c_at s <> c_idle ->
  exists s' e, consumer_step dflt w N s = Some (s', e) /\ 0 <= consumer_left (c_at s') < consumer_left (c_at s) /\ p_at s' = p_at s.
Proof.
  intros (H & T & CH & CT & [Rl Rh Rt Rch Rct Ro Rs Rc Rp Rq]) Hc. unfold consumer_step.
  assert (forall h n, consumer_left (take_from h [] n) <= Z.max n 0 + 1 /\ 1 <= consumer_left (take_from h [] n)) as Htake.
  { intros h n. unfold take_from. change (alen []) with 0. destruct (Z.ltb_spec 0 n); cbn; change (alen []) with 0; lia. }
  assert (forall c h a, call_ok c -> 1 <= consumer_left (consume c h a) < consumer_left (c_reload c h)) as Hcons.
  { intros c h a Hok. destruct c as [| |n|]; cbn [consume]; try (cbn; lia); [pose proof (Htake h 1); cbn in *; lia|].
    pose proof (Htake h (if Z.ltb a n then a else n)) as Hl. cbn [call_ok] in Hok. cbn [consumer_left]. destruct (Z.ltb_spec a n); lia. }
  destruct (c_at s) as [|c|c h|h got n|h|h got|h|h|h] eqn:Ec; [done|..]; cbn [consumer_ok] in Rq.
  - destruct c as [| |n|]; do 2 eexists; (split; [done|]); cbn [c_at at_cons p_at]; (split; [|done]); [| | |cbn; lia];
      (destruct (no_items _ _); [cbn in *; lia|]); match goal with |- context [consume ?c ?h ?a] => pose proof (Hcons c h a Rq) as Hl end; cbn in *; lia.
  - destruct Rq as (-> & Hok & Hp). pose proof (Hcons c (wrap w H) (wrap w (tail s - wrap w H)) Hok) as Hl.
    destruct c as [| |n|]; [destruct (Z.eqb _ _)|destruct (Z.eqb _ _)| |done]; do 2 eexists; (split; [done|]); cbn [c_at at_cons p_at]; (split; [|done]); cbn [consumer_left] in *; lia.
  - destruct Rq as (-> & Hlt & Hle & Eg). rewrite wrap_add, mask_index, Rc by (cbn; pose proof (alen_nonneg got); lia).
    destruct (aget_in q (alen got)) as [x ->]; [pose proof (alen_nonneg got); lia|]. cbn [mbind option_bind].
    do 2 eexists. split; [done|]. cbn [c_at at_cons p_at]. split; [|done]. unfold take_from.
    assert (alen (got ++ [x]) = alen got + 1) as El by (unfold alen; rewrite length_app; cbn; lia). rewrite El.
    destruct (Z.ltb_spec (alen got + 1) n); cbn [consumer_left]; rewrite ?El; lia.
  - destruct Rq as (-> & Hle). rewrite mask_index. pose proof (cell_range H). rewrite aset_in by lia. cbn [mbind option_bind].
    do 2 eexists. split; [done|]. cbn. split; [lia|done].
  - do 2 eexists. split; [done|]. cbn. split; [lia|done].
  - do 2 eexists. split; [done|]. cbn. split; [lia|done].
  - destruct (negb _); do 2 eexists; (split; [done|]); cbn; (split; [lia|done]).
  - destruct Rq as (-> & Hlt). pose proof (Rc 0) as Hx. rewrite Z.add_0_r in Hx. rewrite mask_index, Hx by (cbn; lia).
    destruct (aget_in q 0 ltac:(lia)) as [x ->]. cbn [mbind option_bind]. do 2 eexists. split; [done|]. cbn. split; [lia|done].
Qed.

(** ** The two threads never use one cell at a time *)

Definition producer_cell (s : state) : option Z :=
  match p_at s with p_fill t _ i => Some (Z.land (wrap w (t + i)) (mask w N)) | _ => None end.

Definition consumer_cell (s : state) : option Z :=
  match c_at s with
  | c_take h got _ => Some (Z.land (wrap w (h + alen got)) (mask w N))
  | c_drop h | c_peek_read h => Some (Z.land h (mask w N))
  | _ => None
  end.

Lemma no_race s q i j : ring_of s q -> producer_cell s = Some i -> consumer_cell s = Some j -> i <> j.
Proof.
  intros (H & T & CH & CT & [Rl Rh Rt Rch Rct Ro Rs Rc Rp Rq]) Ei Ej. unfold producer_cell in Ei. unfold consumer_cell in Ej.
  destruct (p_at s) as [| | |t items n|]; try done. cbn in Rp. destruct Rp as (-> & Hn & Hfit & _).
  rewrite wrap_add, mask_index in Ei. simplify_eq.
  destruct (c_at s) as [| | |h got m|h| | | |h]; try done; cbn in Rq.
  - destruct Rq as (-> & Hlt & Hle & _). rewrite wrap_add, mask_index in Ej. simplify_eq. pose proof (alen_nonneg got). apply cells_apart; lia.
  - destruct Rq as (-> & Hle). rewrite mask_index in Ej. simplify_eq. apply cells_apart; lia.
  - destruct Rq as (-> & Hle). rewrite mask_index in Ej. simplify_eq. apply cells_apart; lia.
Qed.
End ring.
