(* ===== verification/Semaphore.v ===== *)
(** The counting semaphore [basic_semaphore] (sync/semaphore.hpp) over futexes
    (sync/futex.hpp).

    Any number of threads call [wait], [try_wait] and [flag]; each access to
    [counter] or [wakeups] is one step, and steps interleave in any order
    (sequential consistency).  The kernel's part is in the step relation: a
    FUTEX_WAIT sleeps while the word has the expected value and otherwise returns
    EAGAIN, a sleeper is woken by FUTEX_WAKE or returns early (EINTR), and a weak
    compare-exchange may fail for no reason. *)
From stdpp Require Import base numbers list option relations.
From Stdlib Require Import ZArith Lia.
From S2P Require Import Prelude Arrays Steps.

Local Open Scope Z_scope.

(** Where a thread is in its call: what it accesses next. *)
Inductive pc :=
| idle
| w_start                (* wait: counter.sub_fetch *)
| w_load                 (* wait: wakeups.get *)
| w_cas (w : Z)          (* wait: wakeups.compare_exchange_weak(w, w - 1) *)
| w_futex                (* wait: the futex call *)
| w_parked               (* wait: asleep in the kernel *)
| t_start                (* try_wait: counter.get *)
| t_cas (old : Z)        (* try_wait: counter.compare_exchange_weak(old, old - 1) *)
| f_start                (* flag: counter.add_fetch *)
| f_token                (* flag: wakeups.add_fetch *)
| f_wake.                (* flag: wake_futex *)

Record state := State {
  counter : Z;
  wakeups : Z;
  threads : list pc
}.

(** wait, try_wait, flag *)
Inductive call := wait_call | try_call | flag_call.

(** [called]: a thread makes a call; [permitted]: a flag gave its permit; [acquired]: a
    wait or try_wait took one at once; [joined]: a wait found none and has to wait for
    one; [served]: a wait that had to took one; [refused]: a try_wait found none;
    [failed]: a wait returned on an error. *)
Inductive act := called (c : call) | permitted | acquired | joined | served | refused | failed.

Definition event : Type := nat * act.

Definition label (i : nat) (a : option act) : option event := match a with Some a => Some (i, a) | None => None end.

Definition initial (init n : Z) : state := State init 0 (replicate (Z.to_nat n) idle).

(** while ( w > 0 ) of [wait], with the value last read. *)
Definition wait_loop (w : Z) : pc := if Z.ltb 0 w then w_cas w else w_futex.

(** After the futex call returned [r]. *)
Definition after_futex (r : Z) : pc * option act :=
  if andb (Z.ltb r 0) (andb (negb (Z.eqb r (-11))) (negb (Z.eqb r (-4)))) then (idle, Some failed) else (w_load, None).

(** while ( old > 0 ) of [try_wait]. *)
Definition try_loop (old : Z) : pc * option act := if Z.ltb 0 old then (t_cas old, None) else (idle, Some refused).

(** The next access of a thread at [p] to the words [c] and [w]: their new values, where
    the thread is then, and its answer. *)
Definition local_step (c w : Z) (p : pc) : option (Z * Z * (pc * option act)) :=
  match p with
  | idle | w_parked | f_wake => None
  | w_start =>
      let c := swrap 32 (c - 1) in
      Some (c, w, if Z.leb 0 c then (idle, Some acquired) else (w_load, Some joined))
  | w_load => Some (c, w, (wait_loop w, None))
  | w_cas v => if Z.eqb w v then Some (c, wrap 32 (v - 1), (idle, Some served)) else Some (c, w, (wait_loop w, None))
  | w_futex => if Z.eqb w 0 then Some (c, w, (w_parked, None)) else Some (c, w, after_futex (-11))
  | t_start => Some (c, w, try_loop c)
  | t_cas v => if Z.eqb c v then Some (swrap 32 (v - 1), w, (idle, Some acquired)) else Some (c, w, try_loop c)
  | f_start =>
      let o := swrap 32 (c + 1) in
      Some (o, w, (if Z.leb o 0 then f_token else idle, Some permitted))
  | f_token => Some (c, wrap 32 (w + 1), (f_wake, None))
  end.

Definition set_pc (s : state) (i : nat) (p : pc) : state := State (counter s) (wakeups s) (<[i := p]> (threads s)).

(** Steps of calls that are under way. *)
Inductive work : state -> option event -> state -> Prop :=
| work_local s i p c w q e : threads s !! i = Some p -> local_step (counter s) (wakeups s) p = Some (c, w, (q, e)) ->
    work s (label i e) (State c w (<[i := q]> (threads s)))
| work_wake s i j : threads s !! i = Some f_wake -> threads s !! j = Some w_parked ->
    work s (label j (snd (after_futex 0))) (set_pc (set_pc s i idle) j (fst (after_futex 0)))
| work_wake_none s i : threads s !! i = Some f_wake -> w_parked ∉ threads s -> work s None (set_pc s i idle).

(** Where a call begins. *)
Definition begins (c : call) : pc := match c with wait_call => w_start | try_call => t_start | flag_call => f_start end.

(** New calls, and what may happen at any time. *)
Inductive step : state -> option event -> state -> Prop :=
| step_work s e s' : work s e s' -> step s e s'
| step_call s i c : threads s !! i = Some idle -> step s (Some (i, called c)) (set_pc s i (begins c))
| step_weak_wait s i v : threads s !! i = Some (w_cas v) -> step s None (set_pc s i (wait_loop (wakeups s)))
| step_weak_try s i v : threads s !! i = Some (t_cas v) ->
    step s (label i (snd (try_loop (counter s)))) (set_pc s i (fst (try_loop (counter s))))
| step_signal s j : threads s !! j = Some w_parked ->
    step s (label j (snd (after_futex (-4)))) (set_pc s j (fst (after_futex (-4)))).

(** ** Calls made while no other call runs *)

Definition value (s : state) : Z := counter s.

Definition reset (s : state) (init : Z) : state := State init 0 (threads s).
