(* ===== verification/SemaphoreProof.v ===== *)
(** The semaphore counts, and it loses no wake-up. *)
From stdpp Require Import base numbers list option relations.
From Stdlib Require Import ZArith Lia.
From S2P Require Import Prelude Arrays Steps Semaphore.

Local Open Scope Z_scope.

(** ** The abstract semaphore

    Its state is the number of permits that were given and not taken, and the number of
    waits that have to wait for one.  A permit beyond those the waiting calls are to get
    is free: [wait] and [try_wait] take a free one at once, and only without a free one
    does [wait] join the waiting calls and [try_wait] refuse. *)

Inductive permits_step : Z * Z -> event -> Z * Z -> Prop :=
| permits_called i c n k : permits_step (n, k) (i, called c) (n, k)
| permits_flag i n k : permits_step (n, k) (i, permitted) (n + 1, k)
| permits_wait i n k : k < n -> permits_step (n, k) (i, acquired) (n - 1, k)
| permits_join i n k : n <= k -> permits_step (n, k) (i, joined) (n, k + 1)
| permits_serve i n k : 0 < n -> 0 < k -> permits_step (n, k) (i, served) (n - 1, k - 1)
| permits_refused i n k : n <= k -> permits_step (n, k) (i, refused) (n, k).

(** The phases of a thread's call, and the actions open to it. *)
Inductive phase := resting_phase | in_wait | in_queue | in_try | in_flag.

Inductive permits_moves : phase -> act -> phase -> Prop :=
| moves_wait : permits_moves resting_phase (called wait_call) in_wait
| moves_try : permits_moves resting_phase (called try_call) in_try
| moves_flag : permits_moves resting_phase (called flag_call) in_flag
| moves_acquired p : p = in_wait \/ p = in_try -> permits_moves p acquired resting_phase
| moves_joined : permits_moves in_wait joined in_queue
| moves_served : permits_moves in_queue served resting_phase
| moves_refused : permits_moves in_try refused resting_phase
| moves_permitted : permits_moves in_flag permitted resting_phase.

(** The semaphore over threads that call it. *)
Abbreviation called_semaphore := (tracked permits_step permits_moves).

(** The phase of a thread; a flag has given its permit before it wakes a sleeper. *)
Definition place (p : pc) : phase :=
  match p with
  | idle | f_token | f_wake => resting_phase
  | w_start => in_wait
  | w_load | w_cas _ | w_futex | w_parked => in_queue
  | t_start | t_cas _ => in_try
  | f_start => in_flag
  end.

(** ** The invariant *)

(** Who is where. *)
Definition waiting (p : pc) : Z := match p with w_load | w_cas _ | w_futex | w_parked => 1 | _ => 0 end.
Definition awake (p : pc) : Z := match p with w_load | w_cas _ | w_futex => 1 | _ => 0 end.
Definition parked (p : pc) : Z := match p with w_parked => 1 | _ => 0 end.
Definition owing (p : pc) : Z := match p with f_token => 1 | _ => 0 end.
Definition waking (p : pc) : Z := match p with f_wake => 1 | _ => 0 end.
Definition flagging (p : pc) : Z := match p with f_start => 1 | _ => 0 end.

(** A compare-exchange only runs from a positive value. *)
Definition positive (p : pc) : Prop := match p with w_cas v | t_cas v => 0 < v | _ => True end.

(** Permits: what the counter has above zero, tokens, and tokens about to be added. *)
Definition permits (s : state) : Z := Z.max 0 (counter s) + wakeups s + total owing (threads s).

Record sem (s : state) : Prop := {
  s_wakeups : 0 <= wakeups s;
  s_debt : total waiting (threads s) = wakeups s + total owing (threads s) + Z.max 0 (- counter s);
  s_positive : Forall positive (threads s);
  s_woken : total parked (threads s) = 0 \/ wakeups s <= total waking (threads s) + total awake (threads s)
}.

Lemma total_idle f n : f idle = 0 -> total f (replicate n idle) = 0.
Proof. intros Hf. apply total_const. by intros p [-> _]%elem_of_replicate. Qed.

Lemma sem_initial init n : 0 <= init -> sem (initial init n) /\ permits (initial init n) = init.
Proof.
  intros Hi. unfold permits. cbn. rewrite !(total_idle _ _ eq_refl). split; [|lia].
  constructor; cbn; rewrite ?(total_idle _ _ eq_refl); [lia|lia| |by left]. by apply Forall_replicate.
Qed.

Lemma waiting_bound s : sem s -> - alen (threads s) <= counter s /\ wakeups s + total owing (threads s) <= alen (threads s).
Proof.
  intros [Hw Hd _ _]. pose proof (total_bounds waiting (threads s) 1 ltac:(by intros [])). pose proof (total_bounds owing (threads s) 1 ltac:(by intros [])). lia.
Qed.

(** With a thread that is not waiting there is one more place. *)
Lemma waiting_room l i p : l !! i = Some p -> waiting p = 0 -> total waiting l < alen l.
Proof.
  intros Hi H0. pose proof (total_insert waiting l i p w_load Hi) as E. cbn [waiting] in E.
  pose proof (total_bounds waiting (<[i := w_load]> l) 1 ltac:(by intros [])) as Hb. unfold alen in *. rewrite length_insert in Hb. lia.
Qed.

(** The abstract state, and what a step does to it. *)
Definition account (s : state) : Z * Z := (permits s, total waiting (threads s)).

Definition permits_move (x : Z * Z) (e : option event) (y : Z * Z) : Prop :=
  match e with None => y = x | Some e => permits_step x e y end.

(** A thread moves from [p] to [q] and the words change: what is left to check. *)
Lemma sem_moved s i p q c w : sem s -> threads s !! i = Some p -> 0 <= w -> positive q ->
  waiting q - waiting p = (w - wakeups s) + (owing q - owing p) + (Z.max 0 (- c) - Z.max 0 (- counter s)) ->
  (parked q <= parked p /\ w - wakeups s <= (waking q - waking p) + (awake q - awake p) \/ w = 0) ->
  sem (State c w (<[i := q]> (threads s))).
Proof.
  intros [Hw Hd Hp Hk] Hi H0 Hq E1 E2. pose proof (total_bounds parked (<[i := q]> (threads s)) 1 ltac:(by intros [])) as Hb.
  pose proof (total_bounds waking (<[i := q]> (threads s)) 1 ltac:(by intros [])) as Hb2.
  pose proof (total_bounds awake (<[i := q]> (threads s)) 1 ltac:(by intros [])) as Hb3.
  rewrite (total_insert _ _ _ _ _ Hi) in Hb. rewrite (total_insert _ _ _ _ _ Hi) in Hb2. rewrite (total_insert _ _ _ _ _ Hi) in Hb3.
  constructor; cbn; [done| |by apply Forall_insert|]; moved Hi; lia.
Qed.

Lemma account_moved s i p q c w : threads s !! i = Some p ->
  account (State c w (<[i := q]> (threads s))) =
  (permits s + (Z.max 0 c - Z.max 0 (counter s)) + (w - wakeups s) + (owing q - owing p), total waiting (threads s) + (waiting q - waiting p)).
Proof. intros Hi. unfold account, permits. cbn. moved Hi. f_equal; lia. Qed.

(** The counter is the number of permits that no waiting call is to get. *)
Lemma free_permits s : sem s -> counter s = permits s - total waiting (threads s).
Proof. intros [_ Hd _ _]. unfold permits. lia. Qed.

Lemma account_kept x y : y = x -> permits_move x None y.
Proof. done. Qed.

Lemma account_step i a x n k : permits_step x (i, a) (n, k) -> forall n' k', n' = n -> k' = k -> permits_move x (Some (i, a)) (n', k').
Proof. by intros H n' k' -> ->. Qed.

Lemma wait_loop_place w : 0 <= w -> positive (wait_loop w) /\ waiting (wait_loop w) = 1 /\ awake (wait_loop w) = 1 /\
  parked (wait_loop w) = 0 /\ owing (wait_loop w) = 0 /\ waking (wait_loop w) = 0.
Proof. intros Hw. unfold wait_loop. by destruct (Z.ltb_spec 0 w). Qed.

(** Permits a step gives. *)
Definition grants (e : option event) : Z := match e with Some (_, permitted) => 1 | _ => 0 end.

Section bounded.
Context (s : state) (Hs : sem s) (Hn : alen (threads s) < 2 ^ 31).

(** The words a step writes are exact. *)
Lemma counter_down i p : threads s !! i = Some p -> waiting p = 0 -> counter s < 2 ^ 31 -> swrap 32 (counter s - 1) = counter s - 1.
Proof.
  intros Hi H0 Hc. pose proof (waiting_room _ _ _ Hi H0). destruct Hs as [Hw Hd _ _].
  pose proof (total_bounds owing (threads s) 1 ltac:(by intros [])). apply swrap_id; [done|]. unfold in_signed. change (32 - 1) with 31. lia.
Qed.

Lemma sem_local_simulates i p c w q e : threads s !! i = Some p -> local_step (counter s) (wakeups s) p = Some (c, w, (q, e)) ->
  counter s + grants (label i e) < 2 ^ 31 ->
  sem (State c w (<[i := q]> (threads s))) /\ permits_move (account s) (label i e) (account (State c w (<[i := q]> (threads s)))).
Proof.
  intros Hi E Hc. rewrite (account_moved s i p q c w Hi). pose proof (waiting_bound s Hs) as [B1 B2]. pose proof Hs as [Hw Hd Hpos Hk].
  pose proof (free_permits s Hs) as Hfree. unfold account.
  assert (counter s < 2 ^ 31) as Hc' by (destruct e as [[]|]; cbn in Hc; lia).
  pose proof (Forall_lookup_1 _ _ _ _ Hpos Hi) as Hp. pose proof (total_bounds owing (threads s) 1 ltac:(by intros [])) as Ho.
  pose proof (total_member owing _ _ _ ltac:(by intros []) Hi) as Hoi. pose proof (total_member waiting _ _ _ ltac:(by intros []) Hi) as Hwi.
  pose proof (wait_loop_place (wakeups s) Hw) as (W1 & W2 & W3 & W4 & W5 & W6).
  assert (forall x, in_signed 32 x <-> - 2 ^ 31 <= x < 2 ^ 31) as Hin by done.
  assert (forall a b, a = 0 -> b = 0 -> permits_move (permits s, total waiting (threads s)) None (permits s + a, total waiting (threads s) + b)) as Hkept
    by (intros a b -> ->; cbn; f_equal; lia).
  destruct p as [| | |v| | | |v| | |]; cbn [local_step] in *; try done.
  - rewrite (counter_down _ _ Hi) in E by done || lia. destruct (Z.leb_spec 0 (counter s - 1)); simplify_eq;
      (split; [apply (sem_moved s i w_start); cbn; done || lia|]).
    + eapply account_step; [apply permits_wait|..]; cbn; lia.
    + eapply account_step; [apply permits_join|..]; cbn; lia.
  - simplify_eq. split; [apply (sem_moved s i w_load); cbn [waiting awake parked owing waking]; done || lia|].
    cbn. f_equal; lia.
  - cbn in Hp. destruct (Z.eqb_spec (wakeups s) v) as [Ev|]; simplify_eq.
    + rewrite wrap_id by (unfold in_unsigned; lia). split; [apply (sem_moved s i (w_cas (wakeups s))); cbn; done || lia|].
      cbn in Hwi. eapply account_step; [apply permits_serve|..]; cbn; unfold permits; lia.
    + split; [apply (sem_moved s i (w_cas v)); cbn [waiting awake parked owing waking]; done || lia|]. cbn. f_equal; lia.
  - destruct (Z.eqb_spec (wakeups s) 0) as [Ev|]; cbn in E; simplify_eq; (split; [apply (sem_moved s i w_futex); cbn; done || lia|]);
      cbn; f_equal; lia.
  - unfold try_loop in E. destruct (Z.ltb_spec 0 (counter s)); simplify_eq; (split; [apply (sem_moved s i t_start); cbn; done || lia|]).
    + cbn. f_equal; lia.
    + eapply account_step; [apply permits_refused|..]; cbn; lia.
  - cbn in Hp. unfold try_loop in E. destruct (Z.eqb_spec (counter s) v) as [Ev|]; [|destruct (Z.ltb_spec 0 (counter s))]; simplify_eq.
    + rewrite (counter_down _ _ Hi) by done || lia. split; [apply (sem_moved s i (t_cas (counter s))); cbn; done || lia|].
      eapply account_step; [apply permits_wait|..]; cbn; lia.
    + split; [apply (sem_moved s i (t_cas v)); cbn; done || lia|]. cbn. f_equal; lia.
    + split; [apply (sem_moved s i (t_cas v)); cbn; done || lia|]. eapply account_step; [apply permits_refused|..]; cbn; lia.
  - injection E as <- <- <- <-. cbn in Hc. rewrite swrap_id by done || (apply Hin; lia).
    split; [apply (sem_moved s i f_start)|eapply account_step; [apply permits_flag|..]]; destruct (Z.leb_spec (counter s + 1) 0); cbn; done || lia.
  - cbn in Hoi. rewrite wrap_id in E by (unfold in_unsigned; lia). simplify_eq.
    split; [apply (sem_moved s i f_token); cbn; done || lia|]. cbn. f_equal; lia.
Qed.
End bounded.

(** Waking a sleeper: the thread [i] of the flag ends, the sleeper [j] is awake. *)
Lemma sem_wake_simulates s i j : sem s -> threads s !! i = Some f_wake -> threads s !! j = Some w_parked ->
  let s' := set_pc (set_pc s i idle) j w_load in sem s' /\ account s' = account s.
Proof.
  intros [Hw Hd Hp Hk] Hi Hj. cbn. assert (i <> j) as Hne by (intros ->; congruence).
  assert (<[i := idle]> (threads s) !! j = Some w_parked) as Hj' by (by rewrite list_lookup_insert_ne).
  pose proof (total_member parked _ _ _ ltac:(by intros []) Hj) as Hpj. cbn in Hpj.
  unfold account, permits. split; [constructor; cbn; [done| |by apply Forall_insert; [apply Forall_insert|]|]|cbn; f_equal];
    moved Hj'; moved Hi; cbn; lia.
Qed.

Lemma sem_wake_none_simulates s i : sem s -> threads s !! i = Some f_wake -> w_parked ∉ threads s ->
  sem (set_pc s i idle) /\ account (set_pc s i idle) = account s.
Proof.
  intros [Hw Hd Hp Hk] Hi Hno. unfold account, permits. split; [constructor; cbn; [done| |by apply Forall_insert|]|cbn; moved Hi; cbn; f_equal; lia].
  - moved Hi. cbn. lia.
  - left. moved Hi. cbn. rewrite total_const; [done|]. intros [] Hin; done.
Qed.

(** A step that only moves a thread between places that count the same, or wakes it. *)
Lemma place_simulates s i p q : sem s -> threads s !! i = Some p -> positive q -> waiting q = waiting p ->
  owing q = owing p -> waking q = waking p -> parked q <= parked p -> awake p <= awake q ->
  sem (set_pc s i q) /\ account (set_pc s i q) = account s.
Proof.
  intros Hs Hi Hq E1 E2 E3 E4 E5. unfold set_pc. rewrite (account_moved s i p q _ _ Hi). split; [|unfold account; f_equal; lia].
  apply (sem_moved s i p q); try done; try lia. apply Hs.
Qed.

Lemma counter_permits s : sem s -> counter s <= permits s.
Proof. intros [Hw _ _ _]. unfold permits. pose proof (total_bounds owing (threads s) 1 ltac:(by intros [])). lia. Qed.

Lemma threads_set s i p : alen (threads (set_pc s i p)) = alen (threads s).
Proof. cbn. unfold alen. by rewrite length_insert. Qed.

Lemma sem_work_simulates s e s' : sem s -> alen (threads s) < 2 ^ 31 -> permits s + grants e < 2 ^ 31 -> work s e s' ->
  sem s' /\ permits_move (account s) e (account s') /\ alen (threads s') = alen (threads s).
Proof.
  intros Hs Hn Hc Hw. pose proof (counter_permits s Hs). destruct Hw as [s i p c w q e Hi E|s i j Hi Hj|s i Hi Hno].
  - destruct (sem_local_simulates s Hs Hn i p c w q e Hi E ltac:(lia)). split_and!; try done. cbn. unfold alen. by rewrite length_insert.
  - destruct (sem_wake_simulates s i j Hs Hi Hj) as [H1 H2]. split_and!; try done. by rewrite !threads_set.
  - destruct (sem_wake_none_simulates s i Hs Hi Hno) as [H1 H2]. split_and!; try done. by rewrite threads_set.
Qed.

Lemma step_keeps_sem s e s' : sem s -> alen (threads s) < 2 ^ 31 -> permits s + grants e < 2 ^ 31 -> step s e s' ->
  sem s' /\ permits_move (account s) e (account s') /\ alen (threads s') = alen (threads s).
Proof.
  intros Hs Hn Hc Hw. pose proof (wait_loop_place (wakeups s) (s_wakeups s Hs)) as (W1 & W2 & W3 & W4 & W5 & W6).
  destruct Hw as [s e s' Hw|s i c Hi|s i v Hi|s i v Hi|s j Hj]; [by apply sem_work_simulates|..]; rewrite threads_set.
  - destruct (place_simulates s i idle (begins c) Hs Hi) as [H1 H2]; [by destruct c..|]. split_and!; [done| |done]. rewrite H2. constructor.
  - destruct (place_simulates s i (w_cas v) (wait_loop (wakeups s)) Hs Hi) as [H1 H2]; rewrite ?W2, ?W3, ?W4, ?W5, ?W6; done.
  - unfold try_loop in *. destruct (Z.ltb_spec 0 (counter s)); cbn [fst snd].
    + by destruct (place_simulates s i (t_cas v) (t_cas (counter s)) Hs Hi) as [H1 H2].
    + destruct (place_simulates s i (t_cas v) idle Hs Hi) as [H1 H2]; [done..|]. split_and!; [done| |done]. rewrite H2.
      apply permits_refused. pose proof (free_permits s Hs). lia.
  - by destruct (place_simulates s j w_parked w_load Hs Hj) as [H1 H2].
Qed.

(** ** Executions *)

#[export] Instance call_eq_dec : EqDecision call.
Proof. solve_decision. Defined.

#[export] Instance act_eq_dec : EqDecision act.
Proof. solve_decision. Defined.

#[export] Instance pc_eq_dec : EqDecision pc.
Proof. solve_decision. Defined.

Definition count (a : act) (es : list event) : Z := alen (filter (fun x => x.2 = a) es).

(** The permits that were taken. *)
Definition taken (es : list event) : Z := count acquired es + count served es.

Lemma count_snoc a es x : count a (es ++ [x]) = count a es + if decide (x.2 = a) then 1 else 0.
Proof. unfold count, alen. rewrite filter_app, filter_cons, length_app, Nat2Z.inj_add. by destruct (decide (x.2 = a)). Qed.

Lemma taken_nonneg es : 0 <= taken es.
Proof. unfold taken, count, alen. lia. Qed.

(** A step is an action of one thread that is open to it. *)
Lemma sem_work_phased s e s' : work s e s' -> phased permits_moves (place <$> threads s) e (place <$> threads s').
Proof.
  intros Hw. destruct Hw as [s i p c w q e Hi E|s i j Hi Hj|s i Hi Hno]; cbn [threads set_pc].
  - apply (phased_move permits_moves place _ i p q e Hi). destruct p as [| | |v| | | |v| | |]; cbn in E; try done; unfold wait_loop, try_loop in E;
      repeat match type of E with context [if ?b then _ else _] => destruct b eqn:?; cbn in E end; simplify_eq; cbn; try done; constructor; by auto.
  - cbn. rewrite !list_fmap_insert. assert (i <> j) as Hne by (intros ->; congruence).
    rewrite (list_insert_id (place <$> threads s) i); [|by rewrite list_lookup_fmap, Hi]. apply list_insert_id. by rewrite list_lookup_fmap, Hj.
  - by apply (phased_move permits_moves place _ i f_wake idle None Hi).
Qed.

Lemma sem_phased s e s' : step s e s' -> phased permits_moves (place <$> threads s) e (place <$> threads s').
Proof.
  intros Hst. destruct Hst as [s e s' Hw|s i c Hi|s i v Hi|s i v Hi|s j Hj]; cbn [threads set_pc].
  - by apply sem_work_phased.
  - apply (phased_move permits_moves place _ i idle (begins c) (Some (called c)) Hi). destruct c; constructor.
  - apply (phased_move permits_moves place _ i (w_cas v) _ None Hi). unfold wait_loop. by destruct (Z.ltb _ _).
  - apply (phased_move permits_moves place _ i (t_cas v) _ _ Hi). unfold try_loop. destruct (Z.ltb _ _); cbn; [done|constructor].
  - by apply (phased_move permits_moves place _ j w_parked w_load None Hj).
Qed.

Lemma execution_permits init n es s : 0 <= init -> 0 <= n < 2 ^ 31 -> execution step (initial init n) es s ->
  init + count permitted es < 2 ^ 31 ->
  sem s /\ alen (threads s) = n /\ permits s = init + count permitted es - taken es /\ follows permits_step (init, 0) es (account s).
Proof.
  intros Hinit Hn Hx. remember (initial init n) as s0 eqn:E0. induction Hx as [s|s s1 s2 es Hx IH Hst|s s1 s2 es e Hx IH Hst]; intros Hc.
  - subst s. destruct (sem_initial init n Hinit) as [Hs Ep]. unfold account. rewrite Ep.
    change (count permitted []) with 0. change (taken []) with 0.
    split_and!; [done|cbn; unfold alen; rewrite length_replicate; lia|lia|]. cbn. rewrite (total_idle _ _ eq_refl). constructor.
  - destruct (IH E0 Hc) as (Hs & El & Ep & Hf). pose proof (taken_nonneg es).
    destruct (step_keeps_sem s1 None s2 Hs ltac:(lia) ltac:(cbn; lia) Hst) as (Hs2 & Em & El2). cbn in Em. rewrite Em, El2.
    assert (permits s2 = permits s1) as -> by (by apply (f_equal fst) in Em). by split_and!.
  - unfold taken in *. rewrite !count_snoc in *. destruct (IH E0 ltac:(destruct (decide _); lia)) as (Hs & El & Ep & Hf).
    pose proof (taken_nonneg es). unfold taken in *. destruct e as [i a]. cbn [snd] in *.
    destruct (step_keeps_sem s1 (Some (i, a)) s2 Hs ltac:(lia)) as (Hs2 & Em & El2); [destruct a; repeat case_decide; cbn; done || lia|done|]. rewrite El2.
    split_and!; [done|done| |by econstructor]. cbn in Em. unfold account in Em. inversion Em; subst; repeat case_decide; done || lia.
Qed.

(** ** No wake-up is lost *)

(** No thread has work to do: each is between calls or asleep. *)
Definition at_rest (p : pc) : bool := match p with idle | w_parked => true | _ => false end.

Definition resting (s : state) : Prop := Forall at_rest (threads s).

(** At rest every sleeper waits for a permit that was not given. *)
Lemma sem_resting_exact s : sem s -> resting s -> wakeups s = 0 /\ total parked (threads s) = Z.max 0 (- counter s).
Proof.
  intros [Hw Hd Hp Hk] Hr. unfold resting in Hr. rewrite Forall_forall in Hr.
  assert (forall f, f idle = 0 -> f w_parked = 0 -> total f (threads s) = 0) as Hz.
  { intros f F1 F2. apply total_const. intros p Hin%Hr. by destruct p. }
  assert (total waiting (threads s) = total parked (threads s)) as E.
  { rewrite <- (Z.add_0_r (total parked _)), <- (Hz awake eq_refl eq_refl), <- total_add. clear. 
    induction (threads s) as [|p l IH]; cbn; [done|]. rewrite IH. destruct p; cbn; lia. }
  rewrite (Hz owing eq_refl eq_refl) in Hd. rewrite (Hz waking eq_refl eq_refl), (Hz awake eq_refl eq_refl) in Hk. lia.
Qed.

(** Unless all rest, a thread can go on. *)
Lemma sem_work_or_rest s : resting s \/ exists e s', work s e s'.
Proof.
  destruct (decide (Forall at_rest (threads s))) as [|Hn]; [by left|right]. apply not_Forall_Exists in Hn; [|apply _].
  apply Exists_exists in Hn as (p & [i Hi]%list_elem_of_lookup & Hp).
  destruct (local_step (counter s) (wakeups s) p) as [[[c w] [q e]]|] eqn:E; [by eauto using work_local|].
  destruct p; cbn in Hp, E; try done; try (by destruct (Z.eqb _ _)).
  destruct (decide (w_parked ∈ threads s)) as [[j Hj]%list_elem_of_lookup|]; eauto using work_wake, work_wake_none.
Qed.

(** What a thread has left to do: [stages] to pass, and within a stage the steps it
    makes while the words stay as they are. *)
Definition stages (p : pc) : Z :=
  match p with idle => 0 | f_start => 3 | w_start | f_token => 2 | _ => 1 end.

Definition retries (c w : Z) (p : pc) : Z :=
  match p with
  | w_load | t_start => 2
  | w_cas v => if Z.eqb w v then 1 else 2
  | w_futex => if Z.eqb w 0 then 1 else 3
  | t_cas v => if Z.eqb c v then 1 else 2
  | _ => 0
  end.

Definition work_left (s : state) : Z :=
  (3 * alen (threads s) + 1) * total stages (threads s) + total (retries (counter s) (wakeups s)) (threads s).

Lemma sem_retries_bounds c w p : 0 <= retries c w p <= 3.
Proof. destruct p; cbn; try lia; destruct (Z.eqb _ _); lia. Qed.

Lemma sem_work_left_bounds s : 0 <= work_left s <= (9 * alen (threads s) + 6) * alen (threads s).
Proof.
  unfold work_left. pose proof (total_bounds (retries (counter s) (wakeups s)) (threads s) 3 (sem_retries_bounds _ _)).
  pose proof (total_bounds stages (threads s) 3 ltac:(intros []; cbn; lia)). pose proof (alen_nonneg (threads s)). nia.
Qed.

(** A step ends a stage, or it leaves the words alone and makes one retry less. *)
Lemma sem_local_progress c w p c' w' q e : local_step c w p = Some (c', w', (q, e)) -> 0 <= w ->
  stages q < stages p \/ (stages q = stages p /\ c' = c /\ w' = w /\ retries c w q < retries c w p).
Proof.
  intros E Hw. destruct p as [| | |v| | | |v| | |]; cbn in E; try done; unfold wait_loop, try_loop in E;
    repeat match type of E with context [if ?b then _ else _] => destruct b eqn:?; cbn in E end; simplify_eq;
    rewrite ?Z.eqb_eq, ?Z.eqb_neq, ?Z.ltb_lt, ?Z.ltb_ge, ?Z.leb_le, ?Z.leb_gt in *; cbn;
    repeat match goal with |- context [Z.eqb ?a ?b] => destruct (Z.eqb_spec a b) end; try lia.
Qed.

Lemma sem_work_left_less s c w l : total stages l < total stages (threads s) -> length l = length (threads s) ->
  work_left (State c w l) < work_left s.
Proof.
  intros Hs El. unfold work_left. cbn. unfold alen. rewrite El.
  pose proof (total_bounds (retries (counter s) (wakeups s)) (threads s) 3 (sem_retries_bounds _ _)) as B1.
  pose proof (total_bounds (retries c w) l 3 (sem_retries_bounds _ _)) as B2. unfold alen in *. rewrite El in B2. nia.
Qed.

Lemma sem_work_progress s e s' : 0 <= wakeups s -> work s e s' -> work_left s' < work_left s.
Proof.
  intros H0 Hw. destruct Hw as [s i p c w q e Hi E|s i j Hi Hj|s i Hi Hno].
  - destruct (sem_local_progress _ _ _ _ _ _ _ E H0) as [Hlt|(Es & -> & -> & Hr)].
    + apply sem_work_left_less; [moved Hi; lia|by rewrite length_insert].
    + unfold work_left. cbn. unfold alen. rewrite length_insert. moved Hi. rewrite Es. lia.
  - assert (i <> j) as Hne by (intros ->; congruence).
    assert (<[i := idle]> (threads s) !! j = Some w_parked) as Hj' by (by rewrite list_lookup_insert_ne).
    apply sem_work_left_less; [cbn; moved Hj'; moved Hi; cbn; lia|cbn; by rewrite !length_insert].
  - apply sem_work_left_less; [cbn; moved Hi; cbn; lia|cbn; by rewrite !length_insert].
Qed.

(** The counter has room for every flag that is under way. *)
Definition ready (s : state) : Prop :=
  sem s /\ alen (threads s) < 2 ^ 31 /\ permits s + total flagging (threads s) < 2 ^ 31.

Lemma work_flags s e s' : work s e s' -> total flagging (threads s') + grants e = total flagging (threads s).
Proof.
  intros Hw. destruct Hw as [s i p c w q e Hi E|s i j Hi Hj|s i Hi Hno]; cbn.
  - moved Hi. destruct p as [| | |v| | | |v| | |]; cbn in E; try done; unfold wait_loop, try_loop in E;
      repeat match type of E with context [if ?b then _ else _] => destruct b eqn:?; cbn in E end; simplify_eq; cbn; lia.
  - assert (<[i := idle]> (threads s) !! j = Some w_parked) as Hj' by (rewrite list_lookup_insert_ne; [done|congruence]).
    moved Hj'. moved Hi. cbn. lia.
  - moved Hi. cbn. lia.
Qed.

Lemma work_ready s e s' : ready s -> work s e s' -> ready s' /\ work_left s' < work_left s.
Proof.
  intros (Hs & Hn & Hc) Hw. pose proof (work_flags s e s' Hw) as Hf. split; [|by eapply sem_work_progress; [apply Hs|done]].
  pose proof (total_bounds flagging (threads s') 1 ltac:(by intros [])).
  destruct (sem_work_simulates s e s' Hs Hn ltac:(lia) Hw) as (Hs' & Em & El). split_and!; [done|lia|].
  unfold account in Em. destruct e as [e|]; cbn in Em; [|injection Em; cbn in Hf; lia]. inversion Em; subst e; cbn in Hf; lia.
Qed.

Definition working (s s' : state) : Prop := exists e, work s e s'.

Lemma sem_working_bounded s k s' : ready s -> nsteps working k s s' -> ready s' /\ Z.of_nat k + work_left s' <= work_left s.
Proof. apply (measured_steps work). { intros. by eapply work_ready. } intros. apply sem_work_left_bounds. Qed.

Lemma sem_working_rests s : ready s -> exists k s', nsteps working k s s' /\ resting s'.
Proof.
  apply (measured_rests work ready resting work_left); [by eauto using work_ready|intros; apply sem_work_left_bounds|].
  intros s1 _. destruct (sem_work_or_rest s1) as [|(e & s2 & Hw)]; eauto.
Qed.

Lemma execution_ready init n es s : 0 <= init -> 0 <= n -> execution step (initial init n) es s ->
  init + count permitted es + n < 2 ^ 31 -> ready s /\ alen (threads s) = n.
Proof.
  intros Hi Hn Hx Hc. assert (0 <= count permitted es) by apply alen_nonneg. pose proof (taken_nonneg es).
  destruct (execution_permits init n es s Hi ltac:(lia) Hx ltac:(lia)) as (Hs & El & Ep & _).
  pose proof (total_bounds flagging (threads s) 1 ltac:(by intros [])). split; [|done]. split_and!; [done|lia|lia].
Qed.
