(* ===== verification/Locks.v ===== *)
(** What every lock promises: at most one thread has it.

    The answers of a lock's calls, each with the thread that made the call, and the
    abstract lock, which is an owner or none. *)
From stdpp Require Import base numbers list option.
From Stdlib Require Import ZArith Lia.
From S2P Require Import Prelude Arrays Steps.

Local Open Scope Z_scope.

(** lock, try_lock, try_lock_until and try_lock_for, unlock *)
Inductive call := lock_call | try_call | timed_call | unlock_call.

(** A thread makes a call; a call has the lock; it gave it back; try_lock found it taken;
    the compare-exchange of a try_lock failed for no reason; a deadline passed. *)
Inductive act := called (c : call) | took | gave | refused | missed | timed_out.

Definition event : Type := nat * act.

Definition label (i : nat) (a : option act) : option event := match a with Some a => Some (i, a) | None => None end.

(** A refusal needs an owner. *)
Inductive lock_step : option nat -> event -> option nat -> Prop :=
| lock_called i c o : lock_step o (i, called c) o
| lock_took i : lock_step None (i, took) (Some i)
| lock_gave i : lock_step (Some i) (i, gave) None
| lock_refused i j : lock_step (Some j) (i, refused) (Some j)
| lock_missed i o : lock_step o (i, missed) o
| lock_late i o : lock_step o (i, timed_out) o.

(** The phases of a thread, and the actions open to it. *)
Inductive phase := outside | locking | trying | timing | within | leaving.

Inductive lock_moves : phase -> act -> phase -> Prop :=
| moves_lock : lock_moves outside (called lock_call) locking
| moves_try : lock_moves outside (called try_call) trying
| moves_timed : lock_moves outside (called timed_call) timing
| moves_unlock : lock_moves within (called unlock_call) leaving
| moves_took p : p = locking \/ p = trying \/ p = timing -> lock_moves p took within
| moves_gave : lock_moves leaving gave outside
| moves_refused : lock_moves trying refused outside
| moves_missed : lock_moves trying missed outside
| moves_late : lock_moves timing timed_out outside.

(** The lock with one owner, over threads that call it. *)
Abbreviation called_lock := (tracked lock_step lock_moves).

(** ** Owners among the threads *)

Section owner.
Context {P : Type} (holds : P -> bool).

(** The owner is the one thread whose place in the code holds the lock. *)
Definition owner (ts : list P) (o : option nat) : Prop :=
  forall i, o = Some i <-> exists p, ts !! i = Some p /\ holds p = true.

Lemma owner_holds ts o i p : owner ts o -> ts !! i = Some p -> holds p = true -> o = Some i.
Proof. intros Ho Hi Hp. apply Ho. by exists p. Qed.

Lemma owner_keep ts o i p q : owner ts o -> ts !! i = Some p -> holds q = holds p -> owner (<[i := q]> ts) o.
Proof.
  intros Ho Hi E j. unfold owner in Ho. rewrite Ho. destruct (decide (i = j)) as [<-|Hne]; [|by rewrite list_lookup_insert_ne].
  rewrite list_lookup_insert_eq by (by eapply lookup_lt_Some). rewrite Hi. split; intros (x & Ex & Hx); simplify_eq; eexists; split; done || congruence.
Qed.

Lemma owner_take ts i p q : owner ts None -> ts !! i = Some p -> holds q = true -> owner (<[i := q]> ts) (Some i).
Proof.
  intros Ho Hi Hq j. destruct (decide (i = j)) as [<-|Hne].
  - rewrite list_lookup_insert_eq by (by eapply lookup_lt_Some). split; [by exists q|done].
  - rewrite list_lookup_insert_ne by done. split; [congruence|]. intros Hj. by apply Ho in Hj.
Qed.

Lemma owner_give ts i p q : owner ts (Some i) -> ts !! i = Some p -> holds q = false -> owner (<[i := q]> ts) None.
Proof.
  intros Ho Hi Hq j. split; [done|]. intros (x & Ex & Hx). destruct (decide (i = j)) as [<-|Hne].
  - rewrite list_lookup_insert_eq in Ex by (by eapply lookup_lt_Some). congruence.
  - rewrite list_lookup_insert_ne in Ex by done. assert (Some i = Some j) by (apply Ho; by exists x). congruence.
Qed.

Lemma owner_idle p n : holds p = false -> owner (replicate n p) None.
Proof. intros Hp i. split; [done|]. intros (x & [-> _]%lookup_replicate & Hx). congruence. Qed.

(** Two threads in places that hold the lock are one. *)
Lemma owner_unique ts o i j p q : owner ts o -> ts !! i = Some p -> ts !! j = Some q -> holds p = true -> holds q = true -> i = j.
Proof. intros Ho Hi Hj Hp Hq. pose proof (owner_holds ts o i p Ho Hi Hp). pose proof (owner_holds ts o j q Ho Hj Hq). congruence. Qed.
End owner.

Definition lock_move (o : option nat) (e : option event) (o' : option nat) : Prop :=
  match e with None => o' = o | Some e => lock_step o e o' end.

(** ** Fair locks *)

Module Turns.

(** A thread took its place in the queue; it has the lock; it gave it back; the call
    took the free lock at once; try_lock failed; unlock found nothing held. *)
Inductive act := drew | entered | left | walked_in | refused | misused.

Definition event : Type := nat * act.

Definition label (i : nat) (a : option act) : option event := match a with Some a => Some (i, a) | None => None end.

(** The abstract lock is a queue, and whether its first thread is inside. *)
Inductive turn_step : list nat * bool -> event -> list nat * bool -> Prop :=
| turn_drew q b i : i ∉ q -> turn_step (q, b) (i, drew) (q ++ [i], b)
| turn_entered q i : turn_step (i :: q, false) (i, entered) (i :: q, true)
| turn_left q i : turn_step (i :: q, true) (i, left) (q, false)
| turn_walked i : turn_step ([], false) (i, walked_in) ([i], true)
| turn_refused q b i : i ∉ q -> turn_step (q, b) (i, refused) (q, b).

Definition turn_move (x : list nat * bool) (e : option event) (y : list nat * bool) : Prop :=
  match e with None => y = x | Some e => turn_step x e y end.
End Turns.
