(* ===== verification/SpinLock.v ===== *)
(** The spinning locks: [spin_lock] (mutex/locks/spin_lock.hpp), [basic_ttas_lock]
    (mutex/locks/ttas_lock.hpp), and [mutex], [weak_mutex] and [fast_mutex]
    (mutex/mutex.hpp).

    All spin on a flag and take it by compare-and-swap; they differ in where a call
    starts.  Each access to the flag [tk] is one step, in any order (sequential
    consistency); [atomic_token::compare_and_swap] is a weak compare-exchange, which
    may fail for no reason; the back-off between two looks has no effect on the
    state. *)
From stdpp Require Import base numbers list option.
From Stdlib Require Import ZArith Lia.
From S2P Require Import Prelude Arrays Steps Locks.

Local Open Scope Z_scope.

(** Where a thread is in its call: what it does to [tk] next. *)
Inductive pc :=
| idle
| first        (* operator() of all but spin_lock: the first compare_and_swap *)
| look         (* operator(): tk.get in the inner loop *)
| grab         (* operator(): compare_and_swap *)
| try_look     (* try_lock: tk.get *)
| try_grab     (* try_lock: compare_and_swap *)
| inside       (* between lock and unlock *)
| leave.       (* unlock: tk.store *)

Record state := State { tk : bool; threads : list pc }.

(** The constructors: ATOMIC_OPEN is [false]; a lock that is constructed locked is held
    by the thread that is to unlock it. *)
Definition initial (n : Z) (o : option nat) : state :=
  match o with
  | None => State false (replicate (Z.to_nat n) idle)
  | Some i => State true (<[i := inside]> (replicate (Z.to_nat n) idle))
  end.

(** Where a call begins: [operator()] with a look in [spin_lock] and with a
    compare-and-swap in the others; [try_lock] with a look in [spin_lock] and
    [basic_ttas_lock], and it is one compare-and-swap in the mutexes. *)
Definition begins (c : call) (p : pc) : bool :=
  match c, p with
  | lock_call, (first | look) | try_call, (try_look | try_grab) => true
  | _, _ => false
  end.

Definition local_step (t : bool) (p : pc) : option (bool * (pc * option act)) :=
  match p with
  | idle | inside => None
  | first => Some (true, if t then (look, None) else (inside, Some took))
  | look => Some (t, (if t then look else grab, None))
  | grab => Some (true, if t then (look, None) else (inside, Some took))
  | try_look => Some (t, if t then (idle, Some refused) else (try_grab, None))
  | try_grab => Some (true, if t then (idle, Some refused) else (inside, Some took))
  | leave => Some (false, (idle, Some gave))
  end.

(** After a compare-and-swap that failed for no reason. *)
Definition weak_step (p : pc) : option (pc * option act) :=
  match p with first | grab => Some (look, None) | try_grab => Some (idle, Some missed) | _ => None end.

Definition set_pc (s : state) (i : nat) (p : pc) : state := State (tk s) (<[i := p]> (threads s)).

Inductive step : state -> option event -> state -> Prop :=
| step_local s i p t q a : threads s !! i = Some p -> local_step (tk s) p = Some (t, (q, a)) ->
    step s (label i a) (State t (<[i := q]> (threads s)))
| step_weak s i p q a : threads s !! i = Some p -> weak_step p = Some (q, a) -> step s (label i a) (set_pc s i q)
| step_lock s i c p : threads s !! i = Some idle -> begins c p = true -> step s (Some (i, called c)) (set_pc s i p)
| step_unlock s i : threads s !! i = Some inside -> step s (Some (i, called unlock_call)) (set_pc s i leave).

Definition is_locked (s : state) : bool := tk s.

(** The phase of a thread. *)
Definition place (p : pc) : phase :=
  match p with
  | idle => outside
  | first | look | grab => locking
  | try_look | try_grab => trying
  | inside => within
  | leave => leaving
  end.

Lemma spin_phased s e s' : step s e s' -> phased lock_moves (place <$> threads s) e (place <$> threads s').
Proof.
  intros Hst. destruct Hst as [s i p t q a Hi E|s i p q a Hi E|s i c p Hi Hb|s i Hi]; cbn [threads set_pc].
  - apply (phased_move lock_moves place _ i p q a Hi). destruct p, t; cbn in E; simplify_eq; try destruct (tk s); simplify_eq; cbn; constructor; auto.
  - apply (phased_move lock_moves place _ i p q a Hi). destruct p; cbn in E; simplify_eq; cbn; done || constructor.
  - apply (phased_move lock_moves place _ i idle p (Some (called c)) Hi). destruct c, p; try done; constructor.
  - apply (phased_move lock_moves place _ i inside leave (Some (called unlock_call)) Hi). constructor.
Qed.

(** ** The owner *)

Definition holds (p : pc) : bool := match p with inside | leave => true | _ => false end.

Record spin_ok (s : state) (o : option nat) : Prop := {
  sp_free : tk s = false <-> o = None;
  sp_owner : owner holds (threads s) o
}.

Lemma spin_initial n o : (forall i, o = Some i -> Z.of_nat i < n) -> spin_ok (initial n o) o.
Proof.
  intros Ho. destruct o as [i|]; constructor; [done| |done|by apply owner_idle].
  specialize (Ho i eq_refl). eapply owner_take; [by apply owner_idle|apply lookup_replicate; split; [done|lia]|done].
Qed.

Lemma spin_stays s i p q o : spin_ok s o -> threads s !! i = Some p -> holds q = holds p -> spin_ok (set_pc s i q) o.
Proof. intros [Hf Ho] Hi Hq. constructor; [done|by eapply owner_keep]. Qed.

Lemma spin_takes s i p o : spin_ok s o -> threads s !! i = Some p -> tk s = false ->
  spin_ok (State true (<[i := inside]> (threads s))) (Some i) /\ lock_step o (i, took) (Some i).
Proof.
  intros [Hf Ho] Hi Ht. rewrite Hf in Ht. subst o. split; [|constructor]. constructor; [done|]. by eapply owner_take.
Qed.

Lemma step_keeps_spin s o e s' : spin_ok s o -> step s e s' -> exists o', spin_ok s' o' /\ lock_move o e o'.
Proof.
  intros Hs Hst. destruct Hst as [s i p t q a Hi E|s i p q a Hi E|s i c p Hi Hb|s i Hi].
  2: exists o; (split; [eapply spin_stays; [done|exact Hi|]|]); by destruct p; cbn in E; simplify_eq; try constructor.
  2, 3: exists o; (split; [|constructor]); eapply spin_stays; [done|exact Hi|]; by try (destruct c, p).
  destruct (tk s) eqn:Et.
  - destruct o as [j|]; [|destruct Hs as [[_ Hf] _]; rewrite Hf in Et; done].
    destruct p; cbn in E; simplify_eq;
      try (exists (Some j); split; [rewrite <- Et; by eapply (spin_stays s)|done || constructor]).
    assert (Some j = Some i) as Ej by (eapply owner_holds; [apply Hs|exact Hi|done]). injection Ej as ->.
    exists None. split; [|constructor]. constructor; [done|]. eapply owner_give; [apply Hs|exact Hi|done].
  - destruct p; cbn in E; simplify_eq; try (exists (Some i); by eapply spin_takes);
      try (exists o; split; [rewrite <- Et; by eapply (spin_stays s)|done]).
    assert (o = Some i) as -> by (eapply owner_holds; [apply Hs|exact Hi|done]).
    destruct Hs as [Hf _]. apply Hf in Et. done.
Qed.

Lemma execution_spin n o es s : (forall i, o = Some i -> Z.of_nat i < n) -> execution step (initial n o) es s ->
  exists o', spin_ok s o' /\ follows called_lock (o, place <$> threads (initial n o)) es (o', place <$> threads s).
Proof.
  intros Ho Hx. destruct (execution_simulation step lock_step spin_ok (initial n o) o es s (spin_initial n o Ho)) as (o' & Hs & F); [| |done|].
  - intros s1 o1 s2 Hs Hst. by destruct (step_keeps_spin s1 o1 None s2 Hs Hst) as (o2 & Hs2 & ->).
  - intros s1 o1 e s2 Hs Hst. destruct (step_keeps_spin s1 o1 (Some e) s2 Hs Hst) as (o2 & Hs2 & Hl). by exists o2.
  - exists o'. split; [done|]. by apply (execution_tracked lock_step lock_moves step (fun s => place <$> threads s) _ _ _ _ _ spin_phased).
Qed.
