(* ===== verification/RecursiveLock.v ===== *)
(** The recursive lock [recursive_lock] (mutex/locks/recursive_lock.hpp).

    The owner may lock again; a depth counts how often, and only the owner may
    unlock.  Each access to [owner] or [depth] is one step, in any order (sequential
    consistency); [atomic_token::compare_and_swap] is a weak compare-exchange, which
    may fail for no reason.  A thread's stamp is its index plus one: the stamps are
    handed out once per thread and are not zero, which of them a thread gets is
    immaterial. *)
From stdpp Require Import base numbers list option.
From Stdlib Require Import ZArith Lia.
From S2P Require Import Prelude Arrays Steps.

Local Open Scope Z_scope.

Definition __ownerless : Z := 0.

Definition current_thread (i : nat) : Z := Z.of_nat i + 1.

(** Where a thread is in its call: what it accesses next ([tried]: in try_lock). *)
Inductive pc :=
| idle
| l_load (tried : bool)    (* owner.get *)
| l_again (tried : bool)   (* depth.fetch_add *)
| l_cas (tried : bool)     (* owner.compare_and_swap *)
| l_first (tried : bool)   (* depth.store(1) *)
| u_owner                  (* reset: owner.get *)
| u_depth                  (* reset: depth.get *)
| u_less (d : Z)           (* reset: depth.store(d - 1) *)
| u_zero                   (* reset: depth.store(0) *)
| u_free.                  (* reset: owner.store(__ownerless) *)

Record state := State { owner : Z; depth : Z; threads : list pc }.

(** lock, try_lock, unlock *)
Inductive call := lock_call | try_call | unlock_call.

(** A thread makes a call; a call took the free lock; the owner locked again; the owner
    unlocked; the unlock was the last one; try_lock found another owner; the
    compare-exchange of a try_lock failed for no reason; unlock was called by another
    thread, or with nothing held. *)
Inductive act := called (c : call) | took | again | less | gave | refused | missed | not_owner | not_held.

Definition event : Type := nat * act.

Definition initial (n : Z) : state := State __ownerless 0 (replicate (Z.to_nat n) idle).

(** Where [lock] and [try_lock] go when they did not get the lock, [why] they did not. *)
Definition failed (tried : bool) (why : act) : pc * option act := if tried then (idle, Some why) else (l_load false, None).

(** Where a call begins. *)
Definition begins (c : call) : pc := match c with lock_call => l_load false | try_call => l_load true | unlock_call => u_owner end.

Section width.
(** The width of [usize]. *)
Context (w : Z).

(** The next access of thread [i] at [p]. *)
Definition local_step (o d : Z) (i : nat) (p : pc) : option (Z * Z * (pc * option act)) :=
  let me := current_thread i in
  match p with
  | idle => None
  | l_load tried =>
      Some (o, d, if Z.eqb o me then (l_again tried, None) else if Z.eqb o __ownerless then (l_cas tried, None) else failed tried refused)
  | l_again _ => Some (o, wrap w (d + 1), (idle, Some again))
  | l_cas tried => if Z.eqb o __ownerless then Some (me, d, (l_first tried, Some took)) else Some (o, d, failed tried refused)
  | l_first _ => Some (o, 1, (idle, None))
  | u_owner => Some (o, d, if Z.eqb o me then (u_depth, None) else (idle, Some not_owner))
  | u_depth => Some (o, d, if Z.eqb d 0 then (idle, Some not_held) else if Z.ltb 1 d then (u_less d, None) else (u_zero, None))
  | u_less d0 => Some (o, wrap w (d0 - 1), (idle, Some less))
  | u_zero => Some (o, 0, (u_free, None))
  | u_free => Some (__ownerless, d, (idle, Some gave))
  end.

Definition label (i : nat) (a : option act) : option event := match a with Some a => Some (i, a) | None => None end.

Definition set_pc (s : state) (i : nat) (p : pc) : state := State (owner s) (depth s) (<[i := p]> (threads s)).

(** Any thread may call [unlock]. *)
Inductive step : state -> option event -> state -> Prop :=
| step_local s i p o d q a : threads s !! i = Some p -> local_step (owner s) (depth s) i p = Some (o, d, (q, a)) ->
    step s (label i a) (State o d (<[i := q]> (threads s)))
| step_weak s i tried : threads s !! i = Some (l_cas tried) -> step s (label i (snd (failed tried missed))) (set_pc s i (fst (failed tried missed)))
| step_call s i c : threads s !! i = Some idle -> step s (Some (i, called c)) (set_pc s i (begins c)).
End width.

Definition is_locked (s : state) : bool := negb (Z.eqb (owner s) __ownerless).
Definition lock_depth (s : state) : Z := depth s.

(** ** The abstract lock: an owner with a depth *)

Inductive depth_step : option (nat * Z) -> event -> option (nat * Z) -> Prop :=
| depth_took i : depth_step None (i, took) (Some (i, 1))
| depth_again i d : depth_step (Some (i, d)) (i, again) (Some (i, d + 1))
| depth_less i d : 1 < d -> depth_step (Some (i, d)) (i, less) (Some (i, d - 1))
| depth_gave i : depth_step (Some (i, 1)) (i, gave) None
| depth_refused i j d : i <> j -> depth_step (Some (j, d)) (i, refused) (Some (j, d))
| depth_missed i x : (forall d, x <> Some (i, d)) -> depth_step x (i, missed) x
| depth_called i c x : depth_step x (i, called c) x
| depth_not_owner i x : (forall d, x <> Some (i, d)) -> depth_step x (i, not_owner) x.

(** The phases of a thread's call, and the actions open to it. *)
Inductive phase := resting | locking | trying | unlocking.

Inductive depth_moves : phase -> act -> phase -> Prop :=
| moves_lock : depth_moves resting (called lock_call) locking
| moves_try : depth_moves resting (called try_call) trying
| moves_unlock : depth_moves resting (called unlock_call) unlocking
| moves_got p a : p = locking \/ p = trying -> a = took \/ a = again -> depth_moves p a resting
| moves_not a : a = refused \/ a = missed -> depth_moves trying a resting
| moves_unlocked a : a = less \/ a = gave \/ a = not_owner \/ a = not_held -> depth_moves unlocking a resting.

(** The lock with an owner and a depth, over threads that call it. *)
Abbreviation called_recursive_lock := (tracked depth_step depth_moves).

(** The phase of a thread; one that is about to store the first depth has the lock. *)
Definition place (p : pc) : phase :=
  match p with
  | idle | l_first _ => resting
  | l_load tried | l_again tried | l_cas tried => if tried then trying else locking
  | u_owner | u_depth | u_less _ | u_zero | u_free => unlocking
  end.

Section proof.
Context (w : Z) (Hw : 1 <= w).
Abbreviation local_step := (local_step w).
Abbreviation step := (step w).

Lemma width_big : 2 <= 2 ^ w.
Proof using Hw. pose proof (Z.pow_le_mono_r 2 1 w). lia. Qed.

Lemma rec_phased s e s' : step s e s' -> phased depth_moves (place <$> threads s) e (place <$> threads s').
Proof.
  intros Hst. destruct Hst as [s i p o d q a Hi E|s i tried Hi|s i c Hi]; cbn [threads set_pc].
  - apply (phased_move depth_moves place _ i p q a Hi). destruct p as [|t|t|t|t| | |d0| |]; try destruct t; cbn in E; unfold failed in E;
      repeat match type of E with context [if ?b then _ else _] => destruct b end; simplify_eq; cbn; try done; constructor; by auto.
  - apply (phased_move depth_moves place _ i (l_cas tried) _ _ Hi). destruct tried; cbn; [constructor; by auto|done].
  - apply (phased_move depth_moves place _ i idle _ (Some (called c)) Hi). destruct c; constructor.
Qed.

(** ** The invariant *)

(** What the place of the owner says of the depth. *)
Definition owns (d v : Z) (p : pc) : Prop :=
  match p with
  | l_cas _ => False
  | l_first _ | u_free => d = 1 /\ v = 0
  | u_zero => d = 1 /\ v = 1
  | u_less d0 => 1 < d /\ v = d /\ d0 = d
  | _ => v = d
  end.

(** The other threads are not in a part of the code that only the owner reaches. *)
Definition foreign (p : pc) : Prop :=
  match p with idle | l_load _ | l_cas _ | u_owner => True | _ => False end.

Record recursive (s : state) (x : option (nat * Z)) : Prop := {
  v_free : x = None -> owner s = __ownerless /\ depth s = 0;
  v_owner : forall i d, x = Some (i, d) -> owner s = current_thread i /\ 1 <= d < 2 ^ w;
  v_owns : forall i d p, x = Some (i, d) -> threads s !! i = Some p -> owns d (depth s) p;
  v_foreign : forall i p, (forall d, x <> Some (i, d)) -> threads s !! i = Some p -> foreign p
}.

Lemma current_thread_inj i j : current_thread i = current_thread j -> i = j.
Proof. unfold current_thread. lia. Qed.

Lemma insert_cases (ts : list pc) i q j p : <[i := q]> ts !! j = Some p -> (j = i /\ p = q) \/ (j <> i /\ ts !! j = Some p).
Proof.
  intros Hj. destruct (decide (i = j)) as [<-|Hne]; [left|right; by rewrite list_lookup_insert_ne in Hj].
  apply list_lookup_insert_Some in Hj. naive_solver.
Qed.

(** A thread moves and the words stay. *)
Lemma rec_stays s x i p q : recursive s x -> threads s !! i = Some p ->
  (forall d, x = Some (i, d) -> owns d (depth s) q) -> ((forall d, x <> Some (i, d)) -> foreign q) -> recursive (set_pc s i q) x.
Proof.
  intros [Vf Vo Vw Vg] Hi H1 H2. constructor; cbn; [done|done| |].
  - intros j d p' Ex [[-> ->]|[_ Hj]]%insert_cases; [by apply H1|by eapply Vw].
  - intros j p' Hx [[-> ->]|[_ Hj]]%insert_cases; [by apply H2|by eapply Vg].
Qed.

(** The owner moves and changes the words; the other threads are outside. *)
Lemma rec_owner s i d p q o v x : recursive s (Some (i, d)) -> threads s !! i = Some p ->
  (x = None /\ o = __ownerless /\ v = 0 /\ foreign q \/
   exists d', x = Some (i, d') /\ o = owner s /\ 1 <= d' < 2 ^ w /\ owns d' v q) ->
  recursive (State o v (<[i := q]> (threads s))) x.
Proof.
  intros [Vf Vo Vw Vg] Hi Hx. assert (forall j p, j <> i -> threads s !! j = Some p -> foreign p) as Hf by (intros; eapply Vg; [|done]; congruence).
  destruct Hx as [(-> & -> & -> & Hq)|(d' & -> & -> & Hd & Hq)]; constructor; cbn; try done.
  - intros j p' _ [[-> ->]|[? Hj]]%insert_cases; [done|by eapply Hf].
  - intros j d0 [= <- <-]. split; [by apply (Vo i d)|done].
  - intros j d0 p' [= <- <-] [[_ ->]|[? _]]%insert_cases; [done|done].
  - intros j p' Hx [[-> ->]|[? Hj]]%insert_cases; [by destruct (Hx d')|by eapply Hf].
Qed.

Lemma rec_takes s i tried : recursive s None -> threads s !! i = Some (l_cas tried) ->
  recursive (State (current_thread i) (depth s) (<[i := l_first tried]> (threads s))) (Some (i, 1)).
Proof.
  intros [Vf Vo Vw Vg] Hi. destruct (Vf eq_refl) as [_ Ev]. constructor; cbn; [done| | |].
  - intros j d [= <- <-]. split; [done|]. pose proof width_big. lia.
  - intros j d p [= <- <-] [[_ ->]|[? _]]%insert_cases; [by rewrite Ev|done].
  - intros j p Hx [[-> ->]|[? Hj]]%insert_cases; [by destruct (Hx 1)|by eapply Vg].
Qed.

Definition depth_move (x : option (nat * Z)) (e : option event) (y : option (nat * Z)) : Prop :=
  match e with None => y = x | Some e => depth_step x e y end.

(** A thread is the owner, or it is foreign and sees that it is not. *)
Lemma rec_who s x i p : recursive s x -> threads s !! i = Some p ->
  (exists d, x = Some (i, d) /\ owner s = current_thread i /\ 1 <= d < 2 ^ w /\ owns d (depth s) p) \/
  ((forall d, x <> Some (i, d)) /\ owner s <> current_thread i /\ foreign p).
Proof.
  intros [Vf Vo Vw Vg] Hi. destruct x as [[j d]|].
  - destruct (Vo j d eq_refl) as [Eo Hd]. destruct (decide (i = j)) as [->|Hne].
    + left. exists d. split_and!; try done; try lia. by eapply Vw.
    + right. split_and!; [congruence| |eapply Vg; [|done]; congruence]. intros E. apply Hne, current_thread_inj. congruence.
  - right. destruct (Vf eq_refl) as [Eo _]. split_and!; [done| |by eapply Vg]. rewrite Eo. unfold current_thread, __ownerless. lia.
Qed.

(** Locks that count towards the depth. *)
Definition deepens (e : option event) : Z := match e with Some (_, again) => 1 | _ => 0 end.

Definition depth_of (x : option (nat * Z)) : Z := match x with Some (_, d) => d | None => 0 end.

Lemma rec_failed s x i p tried why : recursive s x -> threads s !! i = Some p -> (forall d, x <> Some (i, d)) -> depth_step x (i, why) x ->
  recursive (set_pc s i (fst (failed tried why))) x /\ depth_move x (label i (snd (failed tried why))) x.
Proof.
  intros H Hi Hx Hs. split; [|by destruct tried]. eapply rec_stays; [done|exact Hi| |by destruct tried].
  intros d E. by destruct (Hx d).
Qed.

(** A lock that has an owner, who is another thread, refuses. *)
Lemma rec_refuses s x i : recursive s x -> (forall d, x <> Some (i, d)) -> owner s <> __ownerless -> depth_step x (i, refused) x.
Proof.
  intros H Hx Ho. destruct x as [[j d]|]; [|by destruct (v_free s _ H eq_refl)]. constructor. intros ->. by destruct (Hx d).
Qed.

Lemma owner_keeps_rec s i d p o v q a : recursive s (Some (i, d)) -> threads s !! i = Some p -> owns d (depth s) p -> 1 <= d < 2 ^ w ->
  owner s = current_thread i -> local_step (owner s) (depth s) i p = Some (o, v, (q, a)) -> d + deepens (label i a) < 2 ^ w ->
  exists x', recursive (State o v (<[i := q]> (threads s))) x' /\ depth_move (Some (i, d)) (label i a) x'.
Proof.
  intros H Hi Ho Hd Eo E Hb. assert (forall q, owns d (depth s) q -> recursive (set_pc s i q) (Some (i, d))) as Hst.
  { intros q' Hq. eapply rec_stays; [done|exact Hi| |]; [intros d' [= <-]; done|intros Hn; by destruct (Hn d)]. }
  destruct p as [|t|t|t|t| | |d0| |]; cbn in E, Ho; try done; rewrite ?Eo, ?Z.eqb_refl in E.
  - injection E as <- <- <- <-. exists (Some (i, d)). rewrite <- Eo. split; [by apply Hst|done].
  - injection E as <- <- <- <-. cbn in Hb. exists (Some (i, d + 1)). rewrite <- Eo. split; [|constructor].
    eapply rec_owner; [done|exact Hi|right; exists (d + 1)]. rewrite wrap_id by (unfold in_unsigned; lia). cbn. split_and!; done || lia.
  - injection E as <- <- <- <-. exists (Some (i, d)). rewrite <- Eo. split; [|done].
    eapply rec_owner; [done|exact Hi|right; exists d]. cbn. split_and!; done || lia.
  - injection E as <- <- <- <-. exists (Some (i, d)). rewrite <- Eo. split; [by apply Hst|done].
  - rewrite (proj2 (Z.eqb_neq _ _)) in E by lia. destruct (Z.ltb_spec 1 (depth s)); injection E as <- <- <- <-; exists (Some (i, d)); rewrite <- Eo;
      (split; [apply Hst; cbn; lia|done]).
  - destruct Ho as (H1 & H2 & E0). injection E as <- <- <- <-. rewrite E0. exists (Some (i, d - 1)). rewrite <- Eo. split; [|by constructor].
    eapply rec_owner; [done|exact Hi|right; exists (d - 1)]. rewrite wrap_id by (unfold in_unsigned; lia). cbn. split_and!; done || lia.
  - injection E as <- <- <- <-. exists (Some (i, d)). rewrite <- Eo. split; [|done].
    eapply rec_owner; [done|exact Hi|right; exists d]. cbn. split_and!; done || lia.
  - destruct Ho as [E1 Ev]. injection E as <- <- <- <-. rewrite E1. exists None. split; [|constructor]. eapply rec_owner; [done|exact Hi|by left].
Qed.

Lemma foreign_keeps_rec s x i p o v q a : recursive s x -> threads s !! i = Some p -> foreign p -> (forall d, x <> Some (i, d)) ->
  owner s <> current_thread i -> local_step (owner s) (depth s) i p = Some (o, v, (q, a)) ->
  exists x', recursive (State o v (<[i := q]> (threads s))) x' /\ depth_move x (label i a) x'.
Proof.
  intros H Hi Hf Hx Ho E.
  assert (forall q, foreign q -> recursive (set_pc s i q) x) as Hst by (intros; eapply rec_stays; [done|exact Hi|intros d Ed; by destruct (Hx d)|done]).
  destruct p as [|t|t|t|t| | |d0| |]; cbn in E, Hf; try done.
  - rewrite (proj2 (Z.eqb_neq _ _) Ho) in E. destruct (Z.eqb_spec (owner s) __ownerless) as [E0|E0].
    + injection E as <- <- <- <-. exists x. split; [by apply Hst|done].
    + destruct (rec_failed s x i _ t refused H Hi Hx (rec_refuses s x i H Hx E0)) as [H1 H2]. destruct (failed t refused) as [q' a']. injection E as <- <- <- <-. by exists x.
  - destruct (Z.eqb_spec (owner s) __ownerless) as [E0|E0].
    + injection E as <- <- <- <-. destruct x as [[j d]|].
      * destruct (v_owner s _ H j d eq_refl) as [Ej _]. unfold current_thread in Ej. rewrite E0 in Ej. unfold __ownerless in Ej. lia.
      * exists (Some (i, 1)). split; [by eapply rec_takes|constructor].
    + destruct (rec_failed s x i _ t refused H Hi Hx (rec_refuses s x i H Hx E0)) as [H1 H2]. destruct (failed t refused) as [q' a']. injection E as <- <- <- <-. by exists x.
  - rewrite (proj2 (Z.eqb_neq _ _) Ho) in E. injection E as <- <- <- <-. exists x. split; [by apply Hst|by constructor].
Qed.

Lemma step_keeps_rec s e s' x : recursive s x -> depth_of x + deepens e < 2 ^ w -> step s e s' ->
  exists x', recursive s' x' /\ depth_move x e x'.
Proof.
  intros H Hb Hst. destruct Hst as [s i p o v q a Hi E|s i tried Hi|s i c Hi].
  - destruct (rec_who s x i p H Hi) as [(d & -> & Eo & Hd & Ho)|(Hx & Ho & Hf)]; [by eapply owner_keeps_rec|by eapply foreign_keeps_rec].
  - destruct (rec_who s x i _ H Hi) as [(d & -> & Eo & Hd & Ho)|(Hx & Ho & Hf)]; [done|]. exists x. eapply rec_failed; [done|exact Hi|done|by constructor].
  - exists x. split; [|constructor]. eapply rec_stays; [done|exact Hi| |by destruct c].
    intros d ->. pose proof (v_owns s _ H i d _ eq_refl Hi). by destruct c.
Qed.

Lemma rec_initial n : recursive (initial n) None.
Proof. constructor; cbn; try done. by intros i p _ [-> _]%lookup_replicate. Qed.

(** How often an owner locked again. *)
Definition deepened (es : list event) : Z := total (fun e => deepens (Some e)) es.

Lemma deepened_snoc es e : deepened (es ++ [e]) = deepened es + deepens (Some e).
Proof. unfold deepened. induction es as [|y es IH]; cbn [total app]; [lia|]. rewrite IH. lia. Qed.

Lemma execution_rec n es s : execution step (initial n) es s -> deepened es < 2 ^ w - 1 ->
  exists x, recursive s x /\ depth_of x <= deepened es + 1 /\ follows called_recursive_lock (None, place <$> threads (initial n)) es (x, place <$> threads s).
Proof.
  intros Hx0 Hd0. enough (exists x, recursive s x /\ depth_of x <= deepened es + 1 /\ follows depth_step None es x) as (x & H1 & H2 & F).
  { exists x. split_and!; [done|done|]. by apply (execution_tracked depth_step depth_moves step (fun s => place <$> threads s) _ _ _ _ _ rec_phased). }
  revert Hd0. rename Hx0 into Hx. remember (initial n) as s0 eqn:E0. induction Hx as [s|s s1 s2 es Hx IH Hst|s s1 s2 es e Hx IH Hst]; intros Hd.
  - subst s. exists None. split_and!; [apply rec_initial|cbn; lia|constructor].
  - destruct (IH E0 Hd) as (x & Hr & Hle & F). destruct (step_keeps_rec s1 None s2 x Hr ltac:(cbn; lia) Hst) as (x' & Hr' & E).
    cbn in E. subst x'. by exists x.
  - rewrite deepened_snoc in *. assert (0 <= deepens (Some e)) as H0 by (destruct e as [i []]; cbn; lia).
    destruct (IH E0 ltac:(lia)) as (x & Hr & Hle & F).
    destruct (step_keeps_rec s1 (Some e) s2 x Hr ltac:(lia) Hst) as (x' & Hr' & E). cbn in E.
    exists x'. split_and!; [done| |by econstructor].
    assert (0 <= deepened es) as H1 by (apply (total_bounds (fun e => deepens (Some e)) es 1); intros [i []]; cbn; lia).
    inversion E; subst; cbn in *; lia.
Qed.
End proof.
