(* ===== verification/FutexMutex.v ===== *)
(** The adaptive mutex [futex_mutex] (mutex/locks/futex_mutex.hpp) with the back-off
    it spins with (bits/__backoff.hpp).

    Any number of threads lock, try to lock, lock with a deadline and unlock; each
    access to the word [__s] is one step and steps interleave in any order
    (sequential consistency).  As in the semaphore, a FUTEX_WAIT sleeps while the
    word has the expected value and returns otherwise, a sleeper is woken, returns
    early, or, with a deadline, times out; a weak compare-exchange may fail for no
    reason.  Time is not modelled: a deadline may have passed whenever it is looked at.
    The counters of [__lock_stats] are compiled out. *)
From stdpp Require Import base numbers list option relations.
From Stdlib Require Import ZArith Lia.
From S2P Require Import Prelude Arrays Steps Locks.

Local Open Scope Z_scope.

(** ** Back-off *)

Record spin_policy := Policy { pause_cap : Z; spin_rounds : Z; yield_rounds : Z }.

Definition spin_only : spin_policy := Policy 64 (2 ^ 32 - 1) 0.
Definition spin_yield : spin_policy := Policy 64 6 4.
Definition spin_park : spin_policy := Policy 64 6 0.

Inductive spin_step := spun | yielded | park.

(** [__b], the width of the next burst of pauses, and [__r], the rounds completed. *)
Record backoff := Backoff { bo_b : Z; bo_r : Z }.

Definition backoff_new : backoff := Backoff 1 0.

Definition next (P : spin_policy) (bo : backoff) : backoff * spin_step :=
  let r := wrap 32 (bo_r bo + 1) in
  if andb (negb (Z.eqb (pause_cap P) 0)) (Z.leb r (spin_rounds P)) then
    let b := wrap 32 (Z.shiftl (bo_b bo) 1) in
    (Backoff (if Z.ltb (pause_cap P) b then pause_cap P else b) r, spun)
  else if andb (negb (Z.eqb (yield_rounds P) 0)) (Z.leb r (wrap 32 (spin_rounds P + yield_rounds P))) then
    (Backoff (bo_b bo) r, yielded)
  else (Backoff (bo_b bo) r, park).

(** ** The mutex *)

Definition __free : Z := 0.
Definition __held : Z := 1.
Definition __contended : Z := 2.

(** [operator()], or [try_lock_until] and [try_lock_for]. *)
Inductive way := blocking | timed.

(** Where a thread is in its call: what it accesses next. *)
Inductive pc :=
| idle
| first (k : way)                     (* the first compare_exchange_strong *)
| spin_load (k : way) (bo : backoff)  (* __spin_phase: __s.get *)
| spin_cas (k : way) (bo : backoff)   (* __spin_phase: compare_exchange_weak *)
| publish (k : way)                   (* __s.swap(__contended) *)
| sleep (k : way)                     (* the deadline, then the futex call *)
| asleep (k : way)
| expired                             (* out of time: __s.get *)
| pass_on                             (* out of time: wake_futex *)
| attempt                             (* try_lock: compare_exchange_strong *)
| inside                              (* between lock and unlock *)
| leave                               (* unlock: __s.swap(__free) *)
| waker.                              (* unlock: wake_futex *)

Record state := State { word : Z; threads : list pc }.

Definition initial (n : Z) : state := State __free (replicate (Z.to_nat n) idle).

(** A round of [__spin_phase] that got nothing. *)
Definition spin_again (k : way) (bo : backoff) : pc :=
  match next spin_park bo with
  | (_, park) => publish k
  | (bo, _) => spin_load k bo
  end.

(** The next access of a thread at [p] to the word [s]. *)
Definition local_step (s : Z) (p : pc) : option (Z * (pc * option act)) :=
  match p with
  | idle | asleep _ | inside | pass_on | waker => None
  | first k => Some (if Z.eqb s __free then (__held, (inside, Some took)) else (s, (spin_load k backoff_new, None)))
  | spin_load k bo => Some (s, (if Z.eqb s __free then spin_cas k bo else spin_again k bo, None))
  | spin_cas k bo => Some (if Z.eqb s __free then (__held, (inside, Some took)) else (s, (spin_again k bo, None)))
  | publish k => Some (__contended, if Z.eqb s __free then (inside, Some took) else (sleep k, None))
  | sleep k => Some (s, (if Z.eqb s __contended then asleep k else publish k, None))
  | expired => Some (s, if Z.eqb s __contended then (pass_on, None) else (idle, Some timed_out))
  | attempt => Some (if Z.eqb s __free then (__held, (inside, Some took)) else (s, (idle, Some refused)))
  | leave => Some (__free, (if Z.eqb s __contended then waker else idle, Some gave))
  end.

(** The calls of wake_futex, and what follows them. *)
Definition after_wake (p : pc) : option (option act) :=
  match p with waker => Some None | pass_on => Some (Some timed_out) | _ => None end.

Definition set_pc (s : state) (i : nat) (p : pc) : state := State (word s) (<[i := p]> (threads s)).

(** Steps of calls that are under way. *)
Inductive work : state -> option event -> state -> Prop :=
| work_local s i p w q a : threads s !! i = Some p -> local_step (word s) p = Some (w, (q, a)) ->
    work s (label i a) (State w (<[i := q]> (threads s)))
| work_late s i : threads s !! i = Some (sleep timed) -> work s None (set_pc s i expired)
| work_wake s i j p k a : threads s !! i = Some p -> after_wake p = Some a -> threads s !! j = Some (asleep k) ->
    work s (label i a) (set_pc (set_pc s i idle) j (publish k))
| work_wake_none s i p a : threads s !! i = Some p -> after_wake p = Some a -> (forall k, asleep k ∉ threads s) ->
    work s (label i a) (set_pc s i idle).

(** Where a call begins. *)
Definition begins (c : call) : option pc :=
  match c with lock_call => Some (first blocking) | timed_call => Some (first timed) | try_call => Some attempt | unlock_call => None end.

(** New calls, and what may happen at any time. *)
Inductive step : state -> option event -> state -> Prop :=
| step_work s e s' : work s e s' -> step s e s'
| step_lock s i c p : threads s !! i = Some idle -> begins c = Some p -> step s (Some (i, called c)) (set_pc s i p)
| step_unlock s i : threads s !! i = Some inside -> step s (Some (i, called unlock_call)) (set_pc s i leave)
| step_weak s i k bo : threads s !! i = Some (spin_cas k bo) -> step s None (set_pc s i (spin_again k bo))
| step_signal s i k : threads s !! i = Some (asleep k) -> step s None (set_pc s i (publish k))
| step_timeout s i : threads s !! i = Some (asleep timed) -> step s None (set_pc s i expired).

(** [is_locked] and [contended]. *)
Definition is_locked (s : state) : bool := negb (Z.eqb (word s) __free).
Definition contended (s : state) : bool := Z.eqb (word s) __contended.
