(* ===== verification/FutexMutexProof.v ===== *)
(** The adaptive mutex excludes, and it loses no wake-up. *)
From stdpp Require Import base numbers list option relations.
From Stdlib Require Import ZArith Lia.
From S2P Require Import Prelude Arrays Steps Locks FutexMutex.

Local Open Scope Z_scope.

(** ** Places *)

Definition holds (p : pc) : bool := match p with inside | leave => true | _ => false end.
Definition sleeping (p : pc) : Z := match p with asleep _ => 1 | _ => 0 end.

(** About to wake a sleeper, or to mark the word as contended. *)
Definition rousing (p : pc) : Z := match p with waker | pass_on | publish _ => 1 | _ => 0 end.

Definition rounds_ok (p : pc) : Prop := match p with spin_load _ bo | spin_cas _ bo => 0 <= bo_r bo <= 6 | _ => True end.

Record mutex_ok (s : state) (o : option nat) : Prop := {
  m_word : word s = __free \/ word s = __held \/ word s = __contended;
  m_free : word s = __free <-> o = None;
  m_owner : owner holds (threads s) o;
  m_rounds : Forall rounds_ok (threads s);
  m_woken : total sleeping (threads s) = 0 \/ word s = __contended \/ 0 < total rousing (threads s)
}.

Lemma mutex_initial n : mutex_ok (initial n) None.
Proof.
  constructor; cbn; [by left|done|by apply owner_idle|by apply Forall_replicate|]. left. apply total_const. by intros p [-> _]%elem_of_replicate.
Qed.

(** What a spinning thread does next. *)
Lemma spin_again_spec k bo : 0 <= bo_r bo <= 6 ->
  spin_again k bo = publish k \/ exists bo', spin_again k bo = spin_load k bo' /\ bo_r bo < bo_r bo' <= 6.
Proof.
  intros Hr. unfold spin_again, next. rewrite wrap_id by (unfold in_unsigned; lia). cbn [pause_cap spin_rounds yield_rounds spin_park].
  cbn [Z.eqb negb andb]. destruct (Z.leb_spec (bo_r bo + 1) 6); [right|by left]. eexists. split; [done|]. cbn. lia.
Qed.

Lemma spin_again_place k bo : 0 <= bo_r bo <= 6 ->
  rounds_ok (spin_again k bo) /\ holds (spin_again k bo) = false /\ sleeping (spin_again k bo) = 0 /\ 0 <= rousing (spin_again k bo).
Proof. intros Hr. destruct (spin_again_spec k bo Hr) as [-> |(bo' & -> & Hb)]; cbn; split_and!; done || lia. Qed.

Lemma rousing_total ts : 0 <= total rousing ts.
Proof. apply (total_bounds rousing ts 1). by intros []. Qed.

(** A thread moves from [p] to [q]: what is left to check. *)
Lemma mutex_moved s i p q w o o' : mutex_ok s o -> threads s !! i = Some p -> rounds_ok q ->
  w = __free \/ w = __held \/ w = __contended -> (w = __free <-> o' = None) ->
  owner holds (<[i := q]> (threads s)) o' ->
  w = __contended \/ sleeping q <= sleeping p /\ (0 < rousing q \/ (w = word s \/ word s <> __contended) /\ rousing p <= rousing q) ->
  mutex_ok (State w (<[i := q]> (threads s))) o'.
Proof.
  intros [Mw Mf Mo Mr Mk] Hi Hq Hw Hf Ho Hk. constructor; cbn; [done|done|done|by apply Forall_insert|]. moved Hi.
  pose proof (rousing_total (<[i := q]> (threads s))) as R1. moved Hi. rewrite (total_insert _ _ _ _ _ Hi) in R1.
  pose proof (total_bounds sleeping (<[i := q]> (threads s)) 1 ltac:(by intros [])) as R2. rewrite (total_insert _ _ _ _ _ Hi) in R2.
  pose proof (total_member rousing _ _ _ ltac:(by intros []) Hi). lia.
Qed.

Lemma word_free s o : mutex_ok s o -> word s = __free -> o = None.
Proof. intros Hm. apply Hm. Qed.

Lemma word_taken s o : mutex_ok s o -> word s <> __free -> exists j, o = Some j.
Proof. intros Hm Hw. destruct o as [j|]; [by exists j|]. destruct Hw. by apply Hm. Qed.

(** A thread that stays outside, or inside, and leaves the word alone or marks it. *)
Lemma mutex_stays s i p q w o : mutex_ok s o -> threads s !! i = Some p -> rounds_ok q -> holds q = holds p ->
  w = word s \/ word s <> __free /\ w = __contended ->
  w = __contended \/ sleeping q <= sleeping p /\ rousing p <= rousing q ->
  mutex_ok (State w (<[i := q]> (threads s))) o.
Proof.
  intros Hm Hi Hq Hh Hw Hk. apply (mutex_moved s i p q w o o Hm Hi Hq).
  - destruct Hm as [[?|[?|?]] _ _ _ _], Hw as [-> |[_ ->]]; auto.
  - destruct Hw as [-> |[Hn ->]]; [apply Hm|]. split; [done|]. intros E. destruct Hn. by apply Hm.
  - eapply owner_keep; [apply Hm|done|done].
  - destruct Hw as [-> |[_ ->]]; [|by left]. destruct Hk as [?|[? ?]]; [by left|]. right. split; [done|]. right. split; [by left|done].
Qed.

(** A thread takes the free lock. *)
Lemma mutex_takes s i p w o : mutex_ok s o -> threads s !! i = Some p -> word s = __free -> w = __held \/ w = __contended ->
  sleeping p = 0 -> w = __contended \/ rousing p = 0 ->
  mutex_ok (State w (<[i := inside]> (threads s))) (Some i) /\ lock_step o (i, took) (Some i).
Proof.
  intros Hm Hi E0 Hw Hs Hr. pose proof (word_free s o Hm E0) as ->. split; [|constructor].
  apply (mutex_moved s i p inside w None (Some i) Hm Hi); [done|by right| |eapply owner_take; [apply Hm|done|done]|].
  - destruct Hw as [-> | ->]; done.
  - destruct Hr as [?|Hr]; [by left|]. right. cbn. rewrite Hs, Hr, E0. split; [lia|]. right. split; [by right|lia].
Qed.

(** The owner gives the lock back, and wakes if the word was marked. *)
Lemma mutex_gives s i q o : mutex_ok s o -> threads s !! i = Some leave ->
  q = waker \/ word s <> __contended /\ q = idle ->
  mutex_ok (State __free (<[i := q]> (threads s))) None /\ lock_step o (i, gave) None.
Proof.
  intros Hm Hi Hq. assert (o = Some i) as -> by (eapply owner_holds; [apply Hm|exact Hi|done]). split; [|constructor].
  apply (mutex_moved s i leave q __free (Some i) None Hm Hi); [by destruct Hq as [-> |[_ ->]]|by left|done| |].
  - eapply owner_give; [apply Hm|exact Hi|]. by destruct Hq as [-> |[_ ->]].
  - right. destruct Hq as [-> |[Hn ->]]; cbn; [auto with lia|]. split; [lia|]. right. auto with lia.
Qed.

Lemma mutex_local_simulates s o i p w q a : mutex_ok s o -> threads s !! i = Some p -> local_step (word s) p = Some (w, (q, a)) ->
  exists o', mutex_ok (State w (<[i := q]> (threads s))) o' /\ lock_move o (label i a) o'.
Proof.
  intros Hm Hi E. pose proof (Forall_lookup_1 _ _ _ _ (m_rounds s o Hm) Hi) as Hr.
  assert (forall k bo, rounds_ok p -> p = spin_load k bo \/ p = spin_cas k bo ->
    mutex_ok (State (word s) (<[i := spin_again k bo]> (threads s))) o) as Hspin.
  { intros k bo Hb Ep. destruct (spin_again_place k bo) as (R1 & R2 & R3 & R4); [by destruct Ep as [-> | ->]|].
    apply (mutex_stays s i p (spin_again k bo) (word s) o); try done; try (by left); destruct Ep as [-> | ->]; cbn; (done || right; lia). }
  destruct p as [|k|k bo|k bo|k|k|k| | | | | |]; cbn in E; try done;
    try (destruct (Z.eqb_spec (word s) __free) as [E0|E0]); try (destruct (Z.eqb_spec (word s) __contended) as [E2|E2]); simplify_eq; cbn [label lock_move].
  all: try (exists None; apply (mutex_gives s i _ o Hm Hi); by auto).
  all: try (exists (Some i); apply (mutex_takes s i _ _ o Hm Hi E0); by auto).
  all: try (exists o; split; [|done]; by eauto).
  all: exists o; split; [apply (mutex_stays s i _ _ _ o Hm Hi); cbn; auto with lia; fail|].
  all: try first [done|constructor].
  all: destruct (word_taken s o Hm E0) as [j ->]; constructor.
Qed.

(** Waking a sleeper: the caller [i] ends, the sleeper [j] marks the word next. *)
Lemma mutex_wake_simulates s o i j p k a : mutex_ok s o -> threads s !! i = Some p -> after_wake p = Some a -> threads s !! j = Some (asleep k) ->
  mutex_ok (set_pc (set_pc s i idle) j (publish k)) o /\ lock_move o (label i a) o.
Proof.
  intros [Mw Mf Mo Mr Mk] Hi Ha Hj. assert (i <> j) as Hne by (intros ->; by destruct p; simplify_eq).
  assert (<[i := idle]> (threads s) !! j = Some (asleep k)) as Hj' by (by rewrite list_lookup_insert_ne).
  assert (holds p = false /\ rousing p = 1 /\ sleeping p = 0) as (P1 & P2 & P3) by (by destruct p; simplify_eq). split.
  - constructor; cbn; [done|done| |by apply Forall_insert; [apply Forall_insert|]|].
    + eapply owner_keep; [eapply owner_keep; [done|exact Hi|by rewrite P1]|exact Hj'|done].
    + right; right. moved Hj'. moved Hi. pose proof (total_member rousing _ _ _ ltac:(by intros []) Hi). cbn. lia.
  - destruct p; cbn in Ha; simplify_eq; [constructor|done].
Qed.

Lemma mutex_wake_none_simulates s o i p a : mutex_ok s o -> threads s !! i = Some p -> after_wake p = Some a -> (forall k, asleep k ∉ threads s) ->
  mutex_ok (set_pc s i idle) o /\ lock_move o (label i a) o.
Proof.
  intros [Mw Mf Mo Mr Mk] Hi Ha Hno. assert (holds p = false /\ sleeping p = 0) as (P1 & P3) by (by destruct p; simplify_eq). split.
  - constructor; cbn; [done|done| |by apply Forall_insert|].
    + eapply owner_keep; [done|exact Hi|by rewrite P1].
    + left. moved Hi. rewrite P3, total_const; [done|]. intros [] Hin; try done. by destruct (Hno k).
  - destruct p; cbn in Ha; simplify_eq; [constructor|done].
Qed.

Lemma mutex_work_simulates s o e s' : mutex_ok s o -> work s e s' -> exists o', mutex_ok s' o' /\ lock_move o e o'.
Proof.
  intros Hm Hw. destruct Hw as [s i p w q a Hi E|s i Hi|s i j p k a Hi Ha Hj|s i p a Hi Ha Hno].
  - by eapply mutex_local_simulates.
  - exists o. split; [|done]. apply (mutex_stays s i _ _ _ o Hm Hi); cbn; auto with lia.
  - exists o. by eapply mutex_wake_simulates.
  - exists o. by eapply mutex_wake_none_simulates.
Qed.

Lemma step_keeps_mutex s o e s' : mutex_ok s o -> step s e s' -> exists o', mutex_ok s' o' /\ lock_move o e o'.
Proof.
  intros Hm Hst. destruct Hst as [s e s' Hw|s i c p Hi Hb|s i Hi|s i k bo Hi|s i k Hi|s i Hi]; [by eapply mutex_work_simulates|..];
    exists o; (split; [|done || constructor]).
  - apply (mutex_stays s i idle p _ o Hm Hi); destruct c; cbn in Hb; simplify_eq; cbn; auto with lia.
  - apply (mutex_stays s i _ _ _ o Hm Hi); cbn; auto with lia.
  - pose proof (Forall_lookup_1 _ _ _ _ (m_rounds s o Hm) Hi) as Hr. destruct (spin_again_place k bo Hr) as (R1 & R2 & R3 & R4).
    apply (mutex_stays s i _ _ _ o Hm Hi); cbn; auto. right. lia.
  - apply (mutex_stays s i _ _ _ o Hm Hi); cbn; auto with lia.
  - apply (mutex_stays s i _ _ _ o Hm Hi); cbn; auto with lia.
Qed.

(** The phase of a thread; a thread that is about to wake another has given the lock back. *)
Definition place (p : pc) : phase :=
  match p with
  | idle | waker => outside
  | first k | spin_load k _ | spin_cas k _ | publish k | sleep k | asleep k => match k with blocking => locking | timed => timing end
  | expired | pass_on => timing
  | attempt => trying
  | inside => within
  | leave => leaving
  end.

Lemma place_spin_again k bo : place (spin_again k bo) = place (publish k).
Proof. unfold spin_again. by destruct (next spin_park bo) as [bo' []]. Qed.

Lemma local_step_moves w p w' q a : local_step w p = Some (w', (q, a)) ->
  match a with None => place q = place p | Some a => lock_moves (place p) a (place q) end.
Proof.
  intros E. destruct p as [|k|k bo|k bo|k|k|k| | | | | |]; cbn in E; try done;
    try (destruct (Z.eqb w __free)); try (destruct (Z.eqb w __contended)); simplify_eq; try (by rewrite place_spin_again); cbn; try done.
  all: try (destruct k; constructor; by auto). all: constructor; by auto.
Qed.

Lemma after_wake_moves p a : after_wake p = Some a ->
  match a with None => place idle = place p | Some a => lock_moves (place p) a (place idle) end.
Proof. destruct p; cbn; intros E; simplify_eq; done || constructor. Qed.

Lemma mutex_work_phased s e s' : work s e s' -> phased lock_moves (place <$> threads s) e (place <$> threads s').
Proof.
  intros Hw. destruct Hw as [s i p w q a Hi E|s i Hi|s i j p k a Hi Ha Hj|s i p a Hi Ha Hno]; cbn [threads set_pc].
  - exact (phased_move lock_moves place _ i p q a Hi (local_step_moves _ _ _ _ _ E)).
  - exact (phased_move lock_moves place _ i (sleep timed) expired None Hi eq_refl).
  - assert (i <> j) as Hne by (intros ->; by destruct p; simplify_eq).
    replace (place <$> <[j := publish k]> (<[i := idle]> (threads s))) with (place <$> <[i := idle]> (threads s));
      [exact (phased_move lock_moves place _ i p idle a Hi (after_wake_moves p a Ha))|].
    rewrite (list_fmap_insert place _ j). symmetry. apply list_insert_id. by rewrite list_lookup_fmap, list_lookup_insert_ne, Hj.
  - exact (phased_move lock_moves place _ i p idle a Hi (after_wake_moves p a Ha)).
Qed.

Lemma mutex_phased s e s' : step s e s' -> phased lock_moves (place <$> threads s) e (place <$> threads s').
Proof.
  intros Hst. destruct Hst as [s e s' Hw|s i c p Hi Hb|s i Hi|s i k bo Hi|s i k Hi|s i Hi]; cbn [threads set_pc].
  - by apply mutex_work_phased.
  - apply (phased_move lock_moves place _ i idle p (Some (called c)) Hi). destruct c; cbn in Hb; simplify_eq; constructor.
  - apply (phased_move lock_moves place _ i inside leave (Some (called unlock_call)) Hi). constructor.
  - apply (phased_move lock_moves place _ i (spin_cas k bo) _ None Hi). by rewrite place_spin_again.
  - by apply (phased_move lock_moves place _ i (asleep k) _ None Hi).
  - by apply (phased_move lock_moves place _ i (asleep timed) _ None Hi).
Qed.

Lemma execution_mutex n es s : execution step (initial n) es s ->
  exists o, mutex_ok s o /\ follows called_lock (None, place <$> threads (initial n)) es (o, place <$> threads s).
Proof.
  intros Hx. destruct (execution_simulation step lock_step mutex_ok (initial n) None es s (mutex_initial n)) as (o & Hm & F); [| |done|].
  - intros s1 o1 s2 Hm Hst. by destruct (step_keeps_mutex s1 o1 None s2 Hm Hst) as (o2 & Hm2 & ->).
  - intros s1 o1 e s2 Hm Hst. destruct (step_keeps_mutex s1 o1 (Some e) s2 Hm Hst) as (o2 & Hm2 & Hl). by exists o2.
  - exists o. split; [done|]. by apply (execution_tracked lock_step lock_moves step (fun s => place <$> threads s) _ _ _ _ _ mutex_phased).
Qed.

(** ** No wake-up is lost *)

Definition stages (p : pc) : Z :=
  match p with
  | idle | inside => 0
  | first _ => 18
  | spin_load _ bo => 17 - 2 * bo_r bo
  | spin_cas _ bo => 16 - 2 * bo_r bo
  | publish _ | sleep _ | asleep _ => 3
  | expired | leave => 2
  | pass_on | attempt | waker => 1
  end.

Definition retries (w : Z) (p : pc) : Z :=
  match p with publish _ => 2 | sleep _ => if Z.eqb w __contended then 1 else 3 | _ => 0 end.

Definition work_left (s : state) : Z :=
  (3 * alen (threads s) + 1) * total stages (threads s) + total (retries (word s)) (threads s).

Lemma mutex_retries_bounds w p : 0 <= retries w p <= 3.
Proof. destruct p; cbn; try lia; destruct (Z.eqb _ _); lia. Qed.

(** Marking the word makes no thread retry more. *)
Lemma retries_marked w p : retries __contended p <= retries w p.
Proof. destruct p; cbn; try lia; destruct (Z.eqb _ _); lia. Qed.

Lemma stages_bounds ts : Forall rounds_ok ts -> 0 <= total stages ts <= 18 * alen ts.
Proof.
  unfold alen. induction 1 as [|p ts Hp _ IH]; cbn [total length]; [lia|].
  assert (0 <= stages p <= 18) by (destruct p; cbn in *; lia). lia.
Qed.

Lemma mutex_work_left_bounds s o : mutex_ok s o -> 0 <= work_left s <= (54 * alen (threads s) + 21) * alen (threads s).
Proof.
  intros Hm. unfold work_left. pose proof (total_bounds (retries (word s)) (threads s) 3 (mutex_retries_bounds _)).
  pose proof (stages_bounds (threads s) (m_rounds s o Hm)). pose proof (alen_nonneg (threads s)). nia.
Qed.

(** A step ends a stage, or it makes one retry less and at most marks the word. *)
Lemma mutex_local_progress s p s' q a : local_step s p = Some (s', (q, a)) -> rounds_ok p ->
  stages q < stages p \/ (stages q = stages p /\ (s' = s \/ s' = __contended) /\ retries s' q < retries s p).
Proof.
  intros E Hr.
  assert (forall k bo, 0 <= bo_r bo <= 6 -> stages (spin_again k bo) < 16 - 2 * bo_r bo) as Hspin.
  { intros k bo Hb. destruct (spin_again_spec k bo Hb) as [-> |(bo' & -> & Hb')]; cbn; lia. }
  destruct p as [|k|k bo|k bo|k|k|k| | | | | |]; cbn in E; try done;
    try (destruct (Z.eqb_spec s __free) as [E0|E0]); try (destruct (Z.eqb_spec s __contended) as [E2|E2]); simplify_eq; cbn [stages];
    try (specialize (Hspin k bo Hr); lia); try (left; cbn in *; lia); right; (split; [done|]); (split; [auto|]); cbn;
    repeat match goal with |- context [Z.eqb ?a ?b] => destruct (Z.eqb_spec a b) end; done || lia.
Qed.

Lemma mutex_work_left_less s o w l : mutex_ok s o -> total stages l < total stages (threads s) -> length l = length (threads s) ->
  work_left (State w l) < work_left s.
Proof.
  intros Hm Hs El. unfold work_left. cbn. unfold alen. rewrite El.
  pose proof (total_bounds (retries (word s)) (threads s) 3 (mutex_retries_bounds _)) as B1.
  pose proof (total_bounds (retries w) l 3 (mutex_retries_bounds _)) as B2. unfold alen in *. rewrite El in B2. nia.
Qed.

Lemma mutex_work_progress s o e s' : mutex_ok s o -> work s e s' -> work_left s' < work_left s.
Proof.
  intros Hm Hw. destruct Hw as [s i p w q a Hi E|s i Hi|s i j p k a Hi Ha Hj|s i p a Hi Ha Hno].
  - destruct (mutex_local_progress _ _ _ _ _ E (Forall_lookup_1 _ _ _ _ (m_rounds s o Hm) Hi)) as [Hlt|(Es & Hw & Hr)].
    + eapply mutex_work_left_less; [done|moved Hi; lia|by rewrite length_insert].
    + unfold work_left. cbn. unfold alen. rewrite length_insert. moved Hi. rewrite Es.
      assert (forall p, 0 <= retries (word s) p - retries w p) as Hle
        by (intros p'; destruct Hw as [-> | ->]; [lia|]; pose proof (retries_marked (word s) p'); lia).
      pose proof (total_member _ _ _ _ Hle Hi) as Ht. cbn beta in Ht. rewrite total_sub in Ht. lia.
  - eapply mutex_work_left_less; [done|cbn; moved Hi; cbn; lia|cbn; by rewrite length_insert].
  - assert (i <> j) as Hne by (intros ->; by destruct p; simplify_eq).
    assert (<[i := idle]> (threads s) !! j = Some (asleep k)) as Hj' by (by rewrite list_lookup_insert_ne).
    assert (stages p = 1) by (by destruct p; simplify_eq).
    eapply mutex_work_left_less; [done|cbn; moved Hj'; moved Hi; cbn; lia|cbn; by rewrite !length_insert].
  - assert (stages p = 1) by (by destruct p; simplify_eq).
    eapply mutex_work_left_less; [done|cbn; moved Hi; cbn; lia|cbn; by rewrite !length_insert].
Qed.

(** No thread has work to do: each is between calls or asleep. *)
Definition at_rest (p : pc) : bool := match p with idle | inside | asleep _ => true | _ => false end.

Definition resting (s : state) : Prop := Forall at_rest (threads s).

Lemma mutex_work_or_rest s : resting s \/ exists e s', work s e s'.
Proof.
  destruct (decide (Forall at_rest (threads s))) as [|Hn]; [by left|right]. apply not_Forall_Exists in Hn; [|apply _].
  apply Exists_exists in Hn as (p & [i Hi]%list_elem_of_lookup & Hp).
  destruct (local_step (word s) p) as [[w [q a]]|] eqn:E; [by eauto using work_local|].
  assert (exists a, after_wake p = Some a) as [a Ha] by (destruct p; cbn in Hp, E; try done; by eauto).
  destruct (decide (Exists (fun p => sleeping p = 1) (threads s))) as [(x & [j Hj]%list_elem_of_lookup & Hx)%Exists_exists|Hno].
  - destruct x; try done. by eauto using work_wake.
  - do 2 eexists. apply (work_wake_none s i p a Hi Ha). intros k Hk. apply Hno, Exists_exists. by exists (asleep k).
Qed.

(** At rest a sleeper waits for a thread that is inside, and the word says so. *)
Lemma mutex_resting_exact s o : mutex_ok s o -> resting s -> 0 < total sleeping (threads s) ->
  word s = __contended /\ exists i, o = Some i /\ threads s !! i = Some inside.
Proof.
  intros [Mw Mf Mo Mr Mk] Hr Hs. unfold resting in Hr. rewrite Forall_forall in Hr.
  assert (word s = __contended) as Ew.
  { destruct Mk as [?|[?|Hk]]; [lia|done|]. rewrite total_const in Hk; [lia|]. intros p Hin%Hr. by destruct p. }
  split; [done|]. destruct o as [i|]; [|destruct Mf as [_ Mf]; rewrite Mf in Ew by done; done].
  exists i. split; [done|]. destruct (proj1 (Mo i) eq_refl) as (p & Hi & Hp). rewrite Hi.
  assert (at_rest p) as Hpr by (apply Hr; by eapply list_elem_of_lookup_2). by destruct p.
Qed.

Definition working (s s' : state) : Prop := exists e, work s e s'.

Definition mutex_reached (s : state) : Prop := exists o, mutex_ok s o.

Lemma work_reached s e s' : mutex_reached s -> work s e s' -> mutex_reached s' /\ work_left s' < work_left s.
Proof.
  intros [o Hm] Hw. destruct (mutex_work_simulates s o e s' Hm Hw) as (o' & Hm' & _). split; [by exists o'|]. by eapply mutex_work_progress.
Qed.

Lemma work_left_nonneg s : mutex_reached s -> 0 <= work_left s.
Proof. intros [o Hm]. apply (mutex_work_left_bounds s o Hm). Qed.

Lemma mutex_working_bounded s k s' : mutex_reached s -> nsteps working k s s' -> mutex_reached s' /\ Z.of_nat k + work_left s' <= work_left s.
Proof. apply (measured_steps work); [by eauto using work_reached|exact work_left_nonneg]. Qed.

Lemma mutex_working_rests s : mutex_reached s -> exists k s', nsteps working k s s' /\ resting s'.
Proof.
  apply (measured_rests work mutex_reached resting work_left); [by eauto using work_reached|exact work_left_nonneg|].
  intros s1 _. destruct (mutex_work_or_rest s1) as [|(e & s2 & Hw)]; eauto.
Qed.

Lemma execution_threads n es s : execution step (initial n) es s -> alen (threads s) = Z.max 0 n.
Proof.
  apply (execution_invariant step (fun s => alen (threads s) = Z.max 0 n)).
  - cbn. unfold alen. rewrite length_replicate. lia.
  - intros s1 e s2 <- Hst. assert (forall e s1 s2, work s1 e s2 -> length (threads s2) = length (threads s1)) as Hw
      by (intros ? ? ? []; cbn; by rewrite ?length_insert). unfold alen.
    destruct Hst; cbn; rewrite ?length_insert; try done. by erewrite Hw.
Qed.
