(* ===== verification/TicketLock.v ===== *)
(** The ticket lock [basic_ticket_lock] (mutex/locks/ticket_lock.hpp).

    A thread draws a ticket and waits until it is served; the tickets are 32-bit and
    wrap around.  Each access to [__next] or [__serving] is one step, in any order
    (sequential consistency); [atomic_token::compare_and_swap] is a weak
    compare-exchange, which may fail for no reason; the pauses between two looks at
    [__serving] have no effect on the state. *)
From stdpp Require Import base numbers list option.
From Stdlib Require Import ZArith Lia.
From S2P Require Import Prelude Arrays Steps Locks.
Import Turns.

Local Open Scope Z_scope.

(** Where a thread is in its call: what it accesses next. *)
Inductive pc :=
| idle
| draw                   (* operator(): __next.fetch_add *)
| look (my : Z)          (* operator(): __serving.get, first and in the loop *)
| try_serving            (* try_lock: __serving.get *)
| try_next (s : Z)       (* try_lock: __next.get *)
| try_cas (n : Z)        (* try_lock: __next.compare_and_swap(n, n + 1) *)
| inside                 (* between lock and unlock *)
| leave                  (* unlock: __serving.get *)
| leave_check (s : Z)    (* unlock: __next.get *)
| leave_store (s : Z).   (* unlock: __serving.store(s + 1) *)

Record state := State { next : Z; serving : Z; threads : list pc }.

Definition initial (seed n : Z) : state := State seed seed (replicate (Z.to_nat n) idle).

(** The next access of a thread at [p]: the new words, where it is then, its answer. *)
Definition local_step (n s : Z) (p : pc) : option (Z * Z * (pc * option act)) :=
  match p with
  | idle | inside => None
  | draw => Some (wrap 32 (n + 1), s, (look n, Some drew))
  | look my => Some (n, s, if Z.eqb s my then (inside, Some entered) else (look my, None))
  | try_serving => Some (n, s, (try_next s, None))
  | try_next s0 => Some (n, s, if negb (Z.eqb s0 n) then (idle, Some refused) else (try_cas n, None))
  | try_cas n0 =>
      if Z.eqb n n0 then Some (wrap 32 (n0 + 1), s, (inside, Some walked_in)) else Some (n, s, (idle, Some refused))
  | leave => Some (n, s, (leave_check s, None))
  | leave_check s0 => Some (n, s, if Z.eqb s0 n then (idle, Some misused) else (leave_store s0, None))
  | leave_store s0 => Some (n, wrap 32 (s0 + 1), (idle, Some left))
  end.

Definition set_pc (s : state) (i : nat) (p : pc) : state := State (next s) (serving s) (<[i := p]> (threads s)).

Inductive step : state -> option event -> state -> Prop :=
| step_local s i p n v q a : threads s !! i = Some p -> local_step (next s) (serving s) p = Some (n, v, (q, a)) ->
    step s (label i a) (State n v (<[i := q]> (threads s)))
| step_weak s i n : threads s !! i = Some (try_cas n) -> step s (Some (i, refused)) (set_pc s i idle)
| step_lock s i p : threads s !! i = Some idle -> p = draw \/ p = try_serving -> step s None (set_pc s i p)
| step_unlock s i : threads s !! i = Some inside -> step s None (set_pc s i leave).

(** [is_locked] and [queued], when no other thread moves between their two loads. *)
Definition is_locked (s : state) : bool := negb (Z.eqb (next s) (serving s)).
Definition queued (s : state) : Z := wrap 32 (next s - serving s).
