(* ===== verification/TicketLockProof.v ===== *)
(** The ticket lock admits threads one at a time, in the order of their tickets. *)
From stdpp Require Import base numbers list option.
From Stdlib Require Import ZArith Lia.
From S2P Require Import Prelude Arrays Steps Locks TicketLock.
Import Turns.

Local Open Scope Z_scope.

(** ** The invariant *)

(** Number of tickets drawn. *)
Definition draws (e : event) : Z := match e.2 with drew | walked_in => 1 | _ => 0 end.

Definition drawn (es : list event) : Z := total draws es.

Section invariant.
Context (seed : Z) (Hseed : in_unsigned 32 seed).

(** [S] is the ticket served and [T] the next one, before they wrap.  The place of
    thread [i] fits the queue. *)
Definition placed (q : list nat) (b : bool) (S : Z) (i : nat) (p : pc) : Prop :=
  match p with
  | idle | draw | try_serving => i ∉ q
  | look my => exists j, q !! j = Some i /\ my = wrap 32 (S + Z.of_nat j) /\ (j = 0%nat -> b = false)
  | try_next v | try_cas v => (i ∉ q) /\ (exists S0, v = wrap 32 S0 /\ seed <= S0 <= S)
  | inside | leave => q !! 0%nat = Some i /\ b = true
  | leave_check v | leave_store v => q !! 0%nat = Some i /\ b = true /\ v = wrap 32 S
  end.

Record tickets (s : state) (q : list nat) (b : bool) (S T : Z) : Prop := {
  k_next : next s = wrap 32 T;
  k_serving : serving s = wrap 32 S;
  k_order : seed <= S <= T;
  k_len : alen q = T - S;
  k_inside : b = true -> q <> [];
  k_nodup : NoDup q;
  k_placed : forall i p, threads s !! i = Some p -> placed q b S i p
}.

Lemma wrap_apart x y : 0 <= x - y < 2 ^ 32 -> wrap 32 x = wrap 32 y -> x = y.
Proof.
  unfold wrap. intros Hd E. pose proof (Z.div_mod x (2 ^ 32) ltac:(lia)). pose proof (Z.div_mod y (2 ^ 32) ltac:(lia)).
  assert (x / 2 ^ 32 - y / 2 ^ 32 = 0) by nia. lia.
Qed.

Lemma wrap_next x : wrap 32 (wrap 32 x + 1) = wrap 32 (x + 1).
Proof. unfold wrap. by rewrite Z.add_mod_idemp_l. Qed.

(** ** What the other threads see *)

Lemma placed_drew q b S i j p : j <> i -> placed q b S j p -> placed (q ++ [i]) b S j p.
Proof.
  intros Hne. assert (j ∉ q -> j ∉ q ++ [i]) as Hn by (rewrite not_elem_of_app, list_elem_of_singleton; by auto).
  assert (forall k, q !! k = Some j -> (q ++ [i]) !! k = Some j) as Hl.
  { intros k Hk. rewrite lookup_app_l; [done|]. by eapply lookup_lt_Some. }
  destruct p; cbn; naive_solver.
Qed.

Lemma placed_entered q S i j p : j <> i -> placed (i :: q) false S j p -> placed (i :: q) true S j p.
Proof. intros Hne. destruct p; cbn; naive_solver. Qed.

Lemma placed_left q S i j p : j <> i -> placed (i :: q) true S j p -> placed q false (S + 1) j p.
Proof.
  intros Hne. assert (j ∉ i :: q -> j ∉ q) as Hn by (rewrite not_elem_of_cons; by intros []).
  destruct p; cbn; try naive_solver lia.
  intros ([|k] & Hk & -> & _); cbn in Hk; [congruence|]. exists k. split_and!; [done|f_equal; lia|done].
Qed.

Lemma placed_walked S i j p : j <> i -> placed [] false S j p -> placed [i] true S j p.
Proof.
  intros Hne. assert (j ∉ [i]) as Hn by (by rewrite list_elem_of_singleton). destruct p; cbn; naive_solver.
Qed.

(** ** Steps *)

(** One thread moves and the others see the new queue. *)
Lemma tickets_moved s q b S T i p p' n v q' b' S' T' : tickets s q b S T -> threads s !! i = Some p ->
  n = wrap 32 T' -> v = wrap 32 S' -> seed <= S' <= T' -> alen q' = T' - S' -> (b' = true -> q' <> []) -> NoDup q' ->
  (forall j x, j <> i -> placed q b S j x -> placed q' b' S' j x) -> placed q' b' S' i p' ->
  tickets (State n v (<[i := p']> (threads s))) q' b' S' T'.
Proof.
  intros [Kn Ks Ko Kl Kb Kd Kp] Hi -> -> Ho Hl Hb Hd Hj Hp. constructor; cbn; try done. intros j x Hx.
  destruct (decide (i = j)) as [<-|Hne].
  - rewrite list_lookup_insert_eq in Hx by (by eapply lookup_lt_Some). by simplify_eq.
  - rewrite list_lookup_insert_ne in Hx by done. apply Hj; [done|]. by apply Kp.
Qed.

(** A thread that moves without changing the queue. *)
Lemma tickets_stay s q b S T i p p' : tickets s q b S T -> threads s !! i = Some p -> placed q b S i p' ->
  tickets (set_pc s i p') q b S T.
Proof. intros H Hi Hp. pose proof H as [Kn Ks Ko Kl Kb Kd Kp]. by eapply tickets_moved. Qed.

Definition draws_of (e : option event) : Z := match e with Some e => draws e | None => 0 end.

Lemma step_keeps_tickets s e s' q b S T : tickets s q b S T -> T + draws_of e < seed + 2 ^ 32 -> step s e s' ->
  exists q' b' S', tickets s' q' b' S' (T + draws_of e) /\ turn_move (q, b) e (q', b').
Proof.
  intros H HT Hst. pose proof H as [Kn Ks Ko Kl Kb Kd Kp]. destruct Hst as [s i p n v p' a Hi E|s i n Hi|s i p Hi Hp|s i Hi].
  2: { exists q, b, S. cbn in *. rewrite Z.add_0_r. pose proof (Kp i _ Hi) as [? _]. split; [|by constructor]. by eapply tickets_stay. }
  2: { exists q, b, S. cbn in *. rewrite Z.add_0_r. split; [|done]. eapply tickets_stay; [done|exact Hi|].
       pose proof (Kp i idle Hi). by destruct Hp as [-> | ->]. }
  2: { exists q, b, S. cbn in *. rewrite Z.add_0_r. split; [|done]. eapply tickets_stay; [done|exact Hi|]. by pose proof (Kp i inside Hi). }
  pose proof (Kp i p Hi) as Pi. destruct p as [| |my| |v0|n0| | |v0|v0]; cbn in E; try done.
  - simplify_eq. cbn [label draws_of draws snd] in *. exists (q ++ [i]), b, S. split; [|by constructor].
    eapply tickets_moved; [done|exact Hi|by rewrite Kn, wrap_next|done|lia| | | |intros; by apply placed_drew|].
    + unfold alen in *. rewrite length_app. cbn. lia.
    + intros _. by destruct q.
    + apply list.NoDup_app. split_and!; [done| |apply list.NoDup_singleton]. intros x Hx ->%list_elem_of_singleton. done.
    + cbn. exists (length q). rewrite lookup_app_r, Nat.sub_diag by lia. split_and!; [done| |].
      * rewrite Kn. f_equal. unfold alen in Kl. lia.
      * intros El%length_zero_iff_nil. destruct b; [by destruct (Kb eq_refl)|done].
  - destruct Pi as (j & Hj & -> & Hb). destruct (Z.eqb_spec (serving s) (wrap 32 (S + Z.of_nat j))) as [E0|E0]; simplify_eq;
      cbn [label draws_of draws snd] in *; rewrite Z.add_0_r in *.
    + pose proof (lookup_lt_Some _ _ _ Hj). unfold alen in Kl. rewrite Ks in E0.
      assert (j = 0%nat) as -> by (symmetry in E0; apply wrap_apart in E0; lia). rewrite (Hb eq_refl) in *.
      destruct q as [|i' q]; [done|]. cbn in Hj. injection Hj as ->. exists (i :: q), true, S. split; [|constructor].
      eapply tickets_moved; [done|exact Hi|done|done|lia|done|done|done|intros; by apply placed_entered|done].
    + exists q, b, S. split; [|done]. eapply (tickets_stay s); [done|exact Hi|]. by exists j.
  - simplify_eq. cbn in *. rewrite Z.add_0_r in *. exists q, b, S. split; [|done]. eapply (tickets_stay s); [done|exact Hi|]. split; [done|].
    exists S. split; [done|lia].
  - destruct Pi as [Hq (S0 & -> & HS)]. destruct (Z.eqb_spec (wrap 32 S0) (next s)) as [E0|E0]; cbn in E; simplify_eq;
      cbn [label draws_of draws snd] in *; rewrite Z.add_0_r in *; exists q, b, S.
    + split; [|done]. eapply (tickets_stay s); [done|exact Hi|]. split; [done|]. by exists S0.
    + split; [|by constructor]. by eapply (tickets_stay s).
  - destruct Pi as [Hq (S0 & -> & HS)]. destruct (Z.eqb_spec (next s) (wrap 32 S0)) as [E0|E0]; simplify_eq;
      cbn [label draws_of draws snd] in *.
    + rewrite Kn in E0. apply wrap_apart in E0; [|lia]. assert (S0 = S) as -> by lia. subst T.
      destruct q; [|unfold alen in Kl; cbn in Kl; lia]. destruct b; [by destruct (Kb eq_refl)|].
      exists [i], true, S. split; [|constructor].
      eapply tickets_moved; [done|exact Hi|by rewrite wrap_next|done|lia|unfold alen; cbn; lia|done|apply list.NoDup_singleton|intros; by apply placed_walked|done].
    + rewrite Z.add_0_r in *. exists q, b, S. split; [|by constructor]. by eapply (tickets_stay s).
  - simplify_eq. cbn in *. rewrite Z.add_0_r in *. exists q, b, S. split; [|done]. eapply (tickets_stay s); [done|exact Hi|].
    destruct Pi as [? ?]. cbn. by rewrite Ks.
  - destruct Pi as (Hq & -> & ->). destruct (Z.eqb_spec (wrap 32 S) (next s)) as [E0|E0]; simplify_eq; cbn [label draws_of draws snd] in *;
      rewrite Z.add_0_r in *; exists q, true, S.
    + rewrite Kn in E0. symmetry in E0. apply wrap_apart in E0; [|lia]. destruct q; [done|]. unfold alen in Kl. cbn in Kl. lia.
    + split; [|done]. by eapply (tickets_stay s).
  - destruct Pi as (Hq & -> & ->). simplify_eq. cbn [label draws_of draws snd] in *. rewrite Z.add_0_r in *.
    destruct q as [|i' q]; [done|]. cbn in Hq. injection Hq as ->. exists q, false, (S + 1). split; [|constructor].
    unfold alen in *. cbn in Kl. apply list.NoDup_cons in Kd as [Hn Kd].
    by eapply tickets_moved; [done|exact Hi|done|by rewrite wrap_next|lia|unfold alen; lia|done|done|intros; by eapply placed_left|].
Qed.

Lemma tickets_initial n : tickets (initial seed n) [] false seed seed.
Proof using Hseed.
  constructor; cbn; try done; try (by rewrite wrap_id); [unfold alen; cbn; lia|constructor|].
  intros i p [-> _]%lookup_replicate. cbn. apply not_elem_of_nil.
Qed.

Lemma drawn_snoc es e : drawn (es ++ [e]) = drawn es + draws e.
Proof. unfold drawn. induction es as [|x es IH]; cbn; [lia|]. rewrite IH. lia. Qed.

Lemma drawn_nonneg es : 0 <= drawn es.
Proof. apply (total_bounds draws es 1). intros [i []]; cbn; lia. Qed.

Lemma execution_tickets n es s : execution step (initial seed n) es s -> drawn es < 2 ^ 32 ->
  exists q b S, tickets s q b S (seed + drawn es) /\ follows turn_step ([], false) es (q, b).
Proof using Hseed.
  intros Hx. remember (initial seed n) as s0 eqn:E0. induction Hx as [s|s s1 s2 es Hx IH Hst|s s1 s2 es e Hx IH Hst]; intros Hd.
  - subst s. exists [], false, seed. cbn. rewrite Z.add_0_r. split; [apply tickets_initial|constructor].
  - destruct (IH E0 Hd) as (q & b & S & Ht & Hf). destruct (step_keeps_tickets s1 None s2 q b S _ Ht ltac:(cbn; lia) Hst) as (q' & b' & S' & Ht' & Hm).
    cbn in *. rewrite Z.add_0_r in Ht'. simplify_eq. by exists q, b, S'.
  - rewrite drawn_snoc in *. assert (0 <= draws e) by (destruct e as [i []]; cbn; lia).
    destruct (IH E0 ltac:(lia)) as (q & b & S & Ht & Hf).
    destruct (step_keeps_tickets s1 (Some e) s2 q b S _ Ht ltac:(cbn; lia) Hst) as (q' & b' & S' & Ht' & Hm).
    exists q', b', S'. rewrite Z.add_assoc. split; [done|]. by econstructor.
Qed.

(** The two words show the length of the queue. *)
Lemma tickets_exact s q b S d : tickets s q b S (seed + d) -> d < 2 ^ 32 ->
  queued s = alen q /\ (is_locked s = false <-> q = []).
Proof.
  intros [Kn Ks Ko Kl Kb Kd Kp] Hd. pose proof (alen_nonneg q).
  assert (queued s = alen q) as Eq by (unfold queued; rewrite Kn, Ks; unfold wrap; rewrite <- Zminus_mod, Z.mod_small; lia).
  split; [done|]. unfold is_locked. unfold queued in Eq.
  destruct (Z.eqb_spec (next s) (serving s)) as [E|E]; cbn; (split; [intros ?|intros ->]); try done.
  - rewrite E, Z.sub_diag in Eq. change (wrap 32 0) with 0 in Eq. destruct q; [done|]. unfold alen in Eq. cbn in Eq. lia.
  - destruct E. rewrite Kn, Ks. f_equal. unfold alen in Kl. cbn in Kl. lia.
Qed.
End invariant.
