(* ===== verification/McsLock.v ===== *)
(** The queue lock [queuing_mutex] (mutex/mutex.hpp).

    Threads form a linked list of the nodes they bring, one per thread; each spins on
    the flag of its own node until its predecessor clears it.  Each access to [tail]
    or to a member of a node is one step, in any order (sequential consistency);
    [atomic_token::compare_and_swap] is a weak compare-exchange, which may fail for no
    reason.  The diagnostics of misuse are compiled out. *)
From stdpp Require Import base numbers list option functions.
From Stdlib Require Import ZArith Lia.
From S2P Require Import Prelude Arrays Steps Locks.
Import Turns.

Local Open Scope Z_scope.

(** Where a thread is in its call: what it accesses next. *)
Inductive pc :=
| idle
| l_next                 (* operator(): node.next.store *)
| l_waiting              (* operator(): node.waiting.store *)
| l_swap                 (* operator(): tail.swap *)
| l_link (prev : nat)    (* operator(): prev->next.store *)
| l_spin                 (* operator(): node.waiting.get *)
| t_look                 (* try_lock: tail.get *)
| t_next                 (* try_lock: node.next.store *)
| t_waiting              (* try_lock: node.waiting.store *)
| t_cas                  (* try_lock: tail.compare_and_swap *)
| inside                 (* between lock and unlock *)
| u_next                 (* do_unlock: node.next.get *)
| u_cas                  (* do_unlock: tail.compare_exchange_strong *)
| u_wait                 (* do_unlock: node.next.get in the loop *)
| u_pass (n : nat).      (* do_unlock: expected_next->waiting.store *)

(** A node is named by its thread. *)
Record state := State {
  tail : option nat;
  next : nat -> option nat;
  waiting : nat -> bool;
  threads : list pc
}.

Definition initial (n : Z) : state := State None (fun _ => None) (fun _ => false) (replicate (Z.to_nat n) idle).

(** The next access of thread [i] at [p]. *)
Definition local_step (s : state) (i : nat) (p : pc) : option (option nat * (nat -> option nat) * (nat -> bool) * (pc * option act)) :=
  let t := tail s in let nx := next s in let wt := waiting s in
  match p with
  | idle | inside => None
  | l_next => Some (t, <[i := None]> nx, wt, (l_waiting, None))
  | l_waiting => Some (t, nx, <[i := true]> wt, (l_swap, None))
  | l_swap => Some (Some i, nx, wt, match t with Some prev => (l_link prev, Some drew) | None => (inside, Some walked_in) end)
  | l_link prev => Some (t, <[prev := Some i]> nx, wt, (l_spin, None))
  | l_spin => Some (t, nx, wt, if wt i then (l_spin, None) else (inside, Some entered))
  | t_look => Some (t, nx, wt, match t with Some _ => (idle, Some refused) | None => (t_next, None) end)
  | t_next => Some (t, <[i := None]> nx, wt, (t_waiting, None))
  | t_waiting => Some (t, nx, <[i := false]> wt, (t_cas, None))
  | t_cas => Some (match t with None => (Some i, nx, wt, (inside, Some walked_in)) | Some _ => (t, nx, wt, (idle, Some refused)) end)
  | u_next => Some (t, nx, wt, (match nx i with Some n => u_pass n | None => u_cas end, None))
  | u_cas =>
      if decide (t = Some i) then Some (None, nx, wt, (idle, Some left))
      else Some (t, nx, wt, match t with None => (idle, Some misused) | Some _ => (u_wait, None) end)
  | u_wait => Some (t, nx, wt, (match nx i with Some n => u_pass n | None => u_wait end, None))
  | u_pass n => Some (t, nx, <[n := false]> wt, (idle, Some left))
  end.

Definition set_pc (s : state) (i : nat) (p : pc) : state := State (tail s) (next s) (waiting s) (<[i := p]> (threads s)).

Inductive step : state -> option event -> state -> Prop :=
| step_local s i p t nx wt q a : threads s !! i = Some p -> local_step s i p = Some (t, nx, wt, (q, a)) ->
    step s (label i a) (State t nx wt (<[i := q]> (threads s)))
| step_weak s i : threads s !! i = Some t_cas -> step s (Some (i, refused)) (set_pc s i idle)
| step_lock s i p : threads s !! i = Some idle -> p = l_next \/ p = t_look -> step s None (set_pc s i p)
| step_unlock s i : threads s !! i = Some inside -> step s None (set_pc s i u_next).

Definition is_locked (s : state) : bool := match tail s with Some _ => true | None => false end.
