(* ===== verification/McsLockProof.v ===== *)
(** The queue lock admits threads one at a time, in the order of their arrival. *)
From stdpp Require Import base numbers list option functions.
From Stdlib Require Import ZArith Lia.
From S2P Require Import Prelude Arrays Steps Locks McsLock.
Import Turns.

Local Open Scope Z_scope.

(** [c] comes right after [a] in the queue. *)
Definition after (q : list nat) (a c : nat) : Prop := exists j, q !! j = Some a /\ q !! S j = Some c.

(** The place of thread [i] fits the queue and the nodes. *)
Definition placed (q : list nat) (b : bool) (nx : nat -> option nat) (wt : nat -> bool) (i : nat) (p : pc) : Prop :=
  match p with
  | idle | l_next | t_look | t_next => i ∉ q
  | l_waiting | t_waiting => (i ∉ q) /\ nx i = None
  | l_swap => (i ∉ q) /\ nx i = None /\ wt i = true
  | t_cas => (i ∉ q) /\ nx i = None /\ wt i = false
  | l_link a => after q a i /\ nx a = None /\ wt i = true
  | l_spin => (q !! 0%nat = Some i /\ b = false /\ wt i = false) \/ (exists a, after q a i /\ nx a = Some i /\ wt i = true)
  | inside | u_next | u_cas => q !! 0%nat = Some i /\ b = true
  | u_wait => q !! 0%nat = Some i /\ b = true /\ (2 <= length q)%nat
  | u_pass n => q !! 0%nat = Some i /\ b = true /\ q !! 1%nat = Some n /\ nx i = Some n
  end.

Record mcs (s : state) (q : list nat) (b : bool) : Prop := {
  c_tail : tail s = list.last q;
  c_nodup : NoDup q;
  c_inside : b = true -> q <> [];
  c_last : forall i, list.last q = Some i -> next s i = None;
  c_next : forall a c, a ∈ q -> next s a = Some c -> after q a c;
  c_placed : forall i p, threads s !! i = Some p -> placed q b (next s) (waiting s) i p
}.

(** ** Neighbours *)

Lemma after_in q a c : after q a c -> a ∈ q /\ c ∈ q.
Proof. intros (j & Ha & Hc). split; by eapply list_elem_of_lookup_2. Qed.

Lemma after_prev q a a' c : NoDup q -> after q a c -> after q a' c -> a = a'.
Proof. intros Hd (j & Ha & Hc) (k & Ha' & Hc'). assert (S j = S k) as E by (by eapply NoDup_lookup). simplify_eq. congruence. Qed.

Lemma after_next q a c c' : NoDup q -> after q a c -> after q a c' -> c = c'.
Proof. intros Hd (j & Ha & Hc) (k & Ha' & Hc'). assert (j = k) as -> by (by eapply NoDup_lookup). congruence. Qed.

Lemma after_head q a i : NoDup q -> q !! 0%nat = Some i -> ~ after q a i.
Proof. intros Hd H0 (j & _ & Hi). assert (0%nat = S j) by (by eapply NoDup_lookup). lia. Qed.

Lemma after_app q a c i : after q a c -> after (q ++ [i]) a c.
Proof. intros (j & Ha & Hc). exists j. split; (rewrite lookup_app_l; [done|by eapply lookup_lt_Some]). Qed.

Lemma after_last q a i : list.last q = Some a -> after (q ++ [i]) a i.
Proof.
  rewrite last_lookup. intros Ha. pose proof (lookup_lt_Some _ _ _ Ha). exists (Nat.pred (length q)). split; [by rewrite lookup_app_l|].
  rewrite lookup_app_r by lia. replace (S (Nat.pred (length q)) - length q)%nat with 0%nat by lia. done.
Qed.

Lemma after_last_none q a c : NoDup q -> after q a c -> list.last q <> Some a.
Proof.
  intros Hd (j & Ha & Hc) Hl. rewrite last_lookup in Hl. assert (j = Nat.pred (length q)) by (by eapply NoDup_lookup).
  apply lookup_lt_Some in Hc. lia.
Qed.

(** Without its first thread the queue keeps the others in order. *)
Lemma after_shift i n q a c : after (i :: n :: q) a c -> c <> n -> after (n :: q) a c.
Proof. intros ([|j] & Ha & Hc) Hne; cbn in *; [congruence|]. by exists j. Qed.

Lemma after_single i a c : ~ after [i] a c.
Proof. intros ([|j] & _ & Hc); done. Qed.

Lemma after_nil a c : ~ after [] a c.
Proof. intros (j & Ha & _); done. Qed.

(** ** Steps *)

(** One thread moves; the queue, the nodes and the other threads follow. *)
Lemma mcs_moved s q b i p p' t nx wt q' b' : mcs s q b -> threads s !! i = Some p ->
  t = list.last q' -> NoDup q' -> (b' = true -> q' <> []) ->
  (forall a, list.last q' = Some a -> nx a = None) -> (forall a c, a ∈ q' -> nx a = Some c -> after q' a c) ->
  (forall j x, j <> i -> threads s !! j = Some x -> placed q b (next s) (waiting s) j x -> placed q' b' nx wt j x) ->
  placed q' b' nx wt i p' -> mcs (State t nx wt (<[i := p']> (threads s))) q' b'.
Proof.
  intros [Ct Cd Ci Cl Cn Cp] Hi Ht Hd Hb Hl Hn Hj Hp. constructor; cbn; try done. intros j x Hx.
  destruct (decide (i = j)) as [<-|Hne].
  - rewrite list_lookup_insert_eq in Hx by (by eapply lookup_lt_Some). by simplify_eq.
  - rewrite list_lookup_insert_ne in Hx by done. apply Hj; [done|done|]. by apply Cp.
Qed.

Lemma mcs_stays s q b i p p' : mcs s q b -> threads s !! i = Some p -> placed q b (next s) (waiting s) i p' -> mcs (set_pc s i p') q b.
Proof. intros H Hi Hp. pose proof H as [Ct Cd Ci Cl Cn Cp]. by eapply mcs_moved. Qed.

(** A thread outside the queue writes its own node. *)
Lemma placed_own q b nx wt i j x nx' wt' : j <> i -> i ∉ q -> (forall k, k <> i -> nx' k = nx k /\ wt' k = wt k) ->
  placed q b nx wt j x -> placed q b nx' wt' j x.
Proof.
  intros Hne Hi Hk. destruct (Hk j Hne) as [E1 E2].
  assert (forall a, after q a j -> nx' a = nx a) as Ha.
  { intros a [Hin _]%after_in. apply Hk. intros ->. done. }
  destruct x; cbn; rewrite ?E1, ?E2; try done.
  - intros (H1 & H2 & H3). split_and!; [done|by rewrite Ha|done].
  - intros [?|(a & H1 & H2 & H3)]; [by left|right]. exists a. split_and!; [done|by rewrite Ha|done].
Qed.

Lemma mcs_own s q b i p p' nx' wt' : mcs s q b -> threads s !! i = Some p -> i ∉ q ->
  (forall k, k <> i -> nx' k = next s k /\ wt' k = waiting s k) -> placed q b nx' wt' i p' ->
  mcs (State (tail s) nx' wt' (<[i := p']> (threads s))) q b.
Proof.
  intros H Hi Hq Hk Hp. pose proof H as [Ct Cd Ci Cl Cn Cp]. eapply mcs_moved; [done|exact Hi|done|done|done| | | |done].
  - intros a Ha. destruct (Hk a) as [-> _]; [|by apply Cl]. intros ->. apply Hq. rewrite last_lookup in Ha. by eapply list_elem_of_lookup_2.
  - intros a c Ha. destruct (Hk a) as [-> _]; [|by apply Cn]. intros ->. done.
  - intros j x Hne _. by apply placed_own with i.
Qed.

(** ** What the other threads see *)

Lemma placed_joins q b nx wt i j x : j <> i -> placed q b nx wt j x -> placed (q ++ [i]) b nx wt j x.
Proof.
  intros Hne. assert (j ∉ q -> j ∉ q ++ [i]) as Hn by (rewrite not_elem_of_app, list_elem_of_singleton; by auto).
  assert (forall k v, q !! k = Some v -> (q ++ [i]) !! k = Some v) as Hl.
  { intros k v Hk. rewrite lookup_app_l; [done|]. by eapply lookup_lt_Some. }
  destruct x; cbn; rewrite ?length_app; try done; try by intros; destruct_and?; split_and!; auto with lia.
  - intros (H1 & H2 & H3). split_and!; [by apply after_app|done|done].
  - intros [(H1 & H2 & H3)|(a & H1 & H2 & H3)]; [left; split_and!; auto|right]. exists a. split_and!; [by apply after_app|done|done].
Qed.

Lemma placed_first nx wt i j x : j <> i -> placed [] false nx wt j x -> placed [i] true nx wt j x.
Proof.
  intros Hne. assert (j ∉ [i]) as Hn by (by rewrite list_elem_of_singleton).
  destruct x; cbn; try by intros; destruct_and?.
  - intros (H & _). by apply after_nil in H.
  - intros [(H & _)|(a & H & _)]; [done|by apply after_nil in H].
Qed.

Lemma placed_links q b nx wt a i j x : NoDup q -> after q a i -> nx a = None -> j <> i ->
  placed q b nx wt j x -> placed q b (<[a := Some i]> nx) wt j x.
Proof.
  intros Hd Ha Hn Hne. assert (j ∉ q -> (<[a := Some i]> nx) j = nx j) as Hj.
  { intros Hq. rewrite fn_lookup_insert_ne; [done|]. intros ->. by apply Hq, (after_in q j i). }
  destruct x; cbn; try by intros; destruct_and?; rewrite ?Hj.
  - intros (H1 & H2 & H3). split_and!; [done| |done]. rewrite fn_lookup_insert_ne; [done|].
    intros ->. apply Hne. by eapply after_next.
  - intros [?|(c & H1 & H2 & H3)]; [by left|right]. exists c. split_and!; [done| |done]. rewrite fn_lookup_insert_ne; [done|]. congruence.
  - intros (H1 & H2 & H3 & H4). rewrite fn_lookup_insert_ne; [done|]. congruence.
Qed.

Lemma placed_enters q nx wt i j x : j <> i -> placed (i :: q) false nx wt j x -> placed (i :: q) true nx wt j x.
Proof.
  intros Hne. destruct x; cbn; try by intros; destruct_and?.
  intros [(H & _)|H]; [congruence|by right].
Qed.

Lemma placed_empties nx wt i j x : j <> i -> placed [i] true nx wt j x -> placed [] false nx wt j x.
Proof.
  intros Hne. assert (j ∉ []) as Hn by apply not_elem_of_nil.
  destruct x; cbn; try by intros; destruct_and?; try congruence.
  - intros (H & _). by apply after_single in H.
  - intros [(_ & H & _)|(a & H & _)]; [done|by apply after_single in H].
Qed.

(** The first thread hands over to the second, whose flag it clears. *)
Lemma placed_passes q nx wt i n j x : NoDup (i :: n :: q) -> nx i = Some n -> j <> i ->
  placed (i :: n :: q) true nx wt j x -> placed (n :: q) false nx (<[n := false]> wt) j x.
Proof.
  intros Hd Hi Hne. assert (j ∉ i :: n :: q -> j ∉ n :: q) as Hn by (rewrite (not_elem_of_cons (n :: q)); by intros []).
  assert (j ∉ i :: n :: q -> (<[n := false]> wt) j = wt j) as Hw.
  { intros Hq. rewrite fn_lookup_insert_ne; [done|]. intros ->. apply Hq. do 2 constructor. }
  destruct x; cbn; try (by intros; destruct_and?; rewrite ?Hw; auto); try by intros; destruct_and?; congruence.
  - intros (H1 & H2 & H3). assert (j <> n) as Hjn.
    { intros ->. assert (prev = i) as -> by (eapply after_prev; [done|exact H1|by exists 0%nat]). congruence. }
    split_and!; [by eapply after_shift|done|by rewrite fn_lookup_insert_ne].
  - intros [(_ & ? & _)|(a & H1 & H2 & H3)]; [done|]. destruct (decide (j = n)) as [->|Hjn].
    + left. by rewrite fn_lookup_insert.
    + right. exists a. split_and!; [by eapply after_shift|done|by rewrite fn_lookup_insert_ne].
Qed.

Lemma last_empty (q : list nat) : list.last q = None -> q = [].
Proof. by rewrite last_None. Qed.

Lemma first_last i n (q : list nat) : NoDup (i :: q) -> list.last (i :: q) = Some n -> n = i -> q = [].
Proof.
  intros Hd Hl ->. rewrite last_lookup in Hl. assert (0%nat = Nat.pred (length (i :: q))) as E by (by eapply NoDup_lookup).
  destruct q; [done|]. cbn in E. lia.
Qed.

(** A thread joins a queue that is not empty. *)
Lemma mcs_joins s q b i p prev : mcs s q b -> threads s !! i = Some p -> (i ∉ q) -> next s i = None -> waiting s i = true ->
  list.last q = Some prev -> mcs (State (Some i) (next s) (waiting s) (<[i := l_link prev]> (threads s))) (q ++ [i]) b.
Proof.
  intros H Hi Hq Hn Hw Hl. pose proof H as [Ct Cd Ci Cl Cn Cp]. eapply mcs_moved; [done|exact Hi| | | | | | |].
  - by rewrite last_snoc.
  - apply list.NoDup_app. split_and!; [done| |apply list.NoDup_singleton]. intros x Hx ->%list_elem_of_singleton. done.
  - intros _. by destruct q.
  - intros a. rewrite last_snoc. intros [= <-]. done.
  - intros a c [Ha|Ha]%elem_of_app Hc; [by apply after_app, Cn|]. apply list_elem_of_singleton in Ha. congruence.
  - intros j x Hne _. by apply placed_joins.
  - cbn. split_and!; [by apply after_last|by apply Cl|done].
Qed.

(** A thread takes the free lock. *)
Lemma mcs_takes s b i p : mcs s [] b -> threads s !! i = Some p -> next s i = None ->
  b = false /\ mcs (State (Some i) (next s) (waiting s) (<[i := inside]> (threads s))) [i] true.
Proof.
  intros H Hi Hn. pose proof H as [Ct Cd Ci Cl Cn Cp]. assert (b = false) as -> by (destruct b; [by destruct (Ci eq_refl)|done]). split; [done|].
  eapply mcs_moved; [done|exact Hi|done|apply list.NoDup_singleton|done| | | |done].
  - by intros a [= <-].
  - intros a c Ha%list_elem_of_singleton Hc. congruence.
  - intros j x Hne _. by apply placed_first.
Qed.

Lemma mcs_links s q b i a : mcs s q b -> threads s !! i = Some (l_link a) ->
  mcs (State (tail s) (<[a := Some i]> (next s)) (waiting s) (<[i := l_spin]> (threads s))) q b.
Proof.
  intros H Hi. pose proof H as [Ct Cd Ci Cl Cn Cp]. destruct (Cp i _ Hi) as (Ha & Hn & Hw).
  eapply mcs_moved; [done|exact Hi|done|done|done| | | |].
  - intros c Hc. rewrite fn_lookup_insert_ne; [by apply Cl|]. intros ->. by destruct (after_last_none q c i Cd Ha).
  - intros c d Hc. destruct (decide (c = a)) as [->|Hne]; [rewrite fn_lookup_insert; by intros [= <-]|].
    rewrite fn_lookup_insert_ne by done. by apply Cn.
  - intros j x Hne _. by apply placed_links.
  - cbn. right. exists a. split_and!; [done|by rewrite fn_lookup_insert|done].
Qed.

Lemma mcs_leaves s q b i : mcs s q b -> threads s !! i = Some u_cas -> list.last q = Some i ->
  q = [i] /\ b = true /\ mcs (State None (next s) (waiting s) (<[i := idle]> (threads s))) [] false.
Proof.
  intros H Hi Hl. pose proof H as [Ct Cd Ci Cl Cn Cp]. destruct (Cp i _ Hi) as (Hq & ->). destruct q as [|i' q]; [done|]. injection Hq as ->.
  pose proof (first_last i i q Cd Hl eq_refl) as ->. split_and!; [done|done|].
  eapply mcs_moved; [done|exact Hi|done|constructor|done|done| | |apply not_elem_of_nil].
  - by intros a c ?%not_elem_of_nil.
  - intros j x Hne _. by apply placed_empties.
Qed.

Lemma mcs_passes s q b i n : mcs s q b -> threads s !! i = Some (u_pass n) ->
  exists q', q = i :: n :: q' /\ b = true /\
    mcs (State (tail s) (next s) (<[n := false]> (waiting s)) (<[i := idle]> (threads s))) (n :: q') false.
Proof.
  intros H Hi. pose proof H as [Ct Cd Ci Cl Cn Cp]. destruct (Cp i _ Hi) as (Hq & -> & Hq1 & Hn).
  destruct q as [|i' [|n' q]]; [done|done|]. cbn in Hq, Hq1. simplify_eq. exists q. split_and!; [done|done|].
  pose proof (proj1 (list.NoDup_cons _ _) Cd) as [Hni Cd']. eapply mcs_moved; [done|exact Hi|done|done|done| | | |done].
  - intros a Ha. by apply Cl.
  - intros a c Ha Hc. apply (after_shift i); [apply Cn; [by constructor|done]|]. intros ->.
    assert (a = i) as -> by (eapply after_prev; [exact Cd|apply Cn; [by constructor|exact Hc]|by exists 0%nat]). done.
  - intros j x Hne _. by apply placed_passes.
Qed.

Lemma mcs_enters s q b i : mcs s q b -> threads s !! i = Some l_spin -> waiting s i = false ->
  exists q', q = i :: q' /\ b = false /\ mcs (set_pc s i inside) q true.
Proof.
  intros H Hi Hw. pose proof H as [Ct Cd Ci Cl Cn Cp]. destruct (Cp i _ Hi) as [(Hq & -> & _)|(a & _ & _ & ?)]; [|congruence].
  destruct q as [|i' q]; [done|]. injection Hq as ->. exists q. split_and!; [done|done|].
  eapply mcs_moved; [done|exact Hi|done|done|done|done|done| |done]. intros j x Hne _. by apply placed_enters.
Qed.

(** Who reads a link in unlock finds the next thread. *)
Lemma mcs_next s q b i n p : mcs s q b -> threads s !! i = Some p -> q !! 0%nat = Some i -> b = true -> next s i = Some n ->
  mcs (set_pc s i (u_pass n)) q b.
Proof.
  intros H Hi Hq -> Hn. pose proof H as [Ct Cd Ci Cl Cn Cp]. eapply mcs_stays; [done|exact Hi|]. split_and!; [done|done| |done].
  destruct (Cn i n) as (j & Hj & Hj'); [by eapply list_elem_of_lookup_2|done|]. by assert (j = 0%nat) as -> by (by eapply NoDup_lookup).
Qed.

Lemma local_keeps_mcs s q b i p t nx wt p' a : mcs s q b -> threads s !! i = Some p -> local_step s i p = Some (t, nx, wt, (p', a)) ->
  exists q' b', mcs (State t nx wt (<[i := p']> (threads s))) q' b' /\ turn_move (q, b) (label i a) (q', b').
Proof.
  intros H Hi E. pose proof H as [Ct Cd Ci Cl Cn Cp]. pose proof (Cp i p Hi) as Pi.
  assert (forall (f : nat -> option nat) v k, k <> i -> (<[i := v]> f) k = f k) as Ho by (intros; by rewrite fn_lookup_insert_ne).
  assert (forall (f : nat -> bool) v k, k <> i -> (<[i := v]> f) k = f k) as Hw by (intros; by rewrite fn_lookup_insert_ne).
  destruct p as [| | | |prev| | | | | | | | | |n]; cbn in E, Pi; try done.
  - simplify_eq. exists q, b. split; [|done]. eapply mcs_own; [done|exact Hi|done|by auto|]. split; [done|by rewrite fn_lookup_insert].
  - simplify_eq. destruct Pi as [? ?]. exists q, b. split; [|done]. eapply mcs_own; [done|exact Hi|done|by auto|].
    split_and!; [done|done|by rewrite fn_lookup_insert].
  - destruct Pi as (Hq & Hn & Hwt). destruct (tail s) as [prev|] eqn:Et; simplify_eq.
    + exists (q ++ [i]), b. split; [by eapply mcs_joins|by constructor].
    + symmetry in Ct. apply last_empty in Ct as ->. destruct (mcs_takes s b i l_swap H Hi Hn) as [-> Hm]. exists [i], true. split; [done|constructor].
  - simplify_eq. exists q, b. split; [by apply mcs_links|done].
  - destruct (waiting s i) eqn:Ew; simplify_eq; [exists q, b; split; [eapply (mcs_stays s); [done|exact Hi|by apply Cp]|done]|].
    destruct (mcs_enters s q b i H Hi Ew) as (q' & -> & -> & Hm). exists (i :: q'), true. split; [done|constructor].
  - destruct (tail s) eqn:Et; simplify_eq; exists q, b; (split; [rewrite <- Et; by eapply (mcs_stays s)|]); [by constructor|done].
  - simplify_eq. exists q, b. split; [|done]. eapply mcs_own; [done|exact Hi|done|by auto|]. split; [done|by rewrite fn_lookup_insert].
  - simplify_eq. destruct Pi as [? ?]. exists q, b. split; [|done]. eapply mcs_own; [done|exact Hi|done|by auto|].
    split_and!; [done|done|by rewrite fn_lookup_insert].
  - destruct Pi as (Hq & Hn & Hwt). destruct (tail s) as [prev|] eqn:Et; simplify_eq.
    + exists q, b. split; [rewrite <- Et; by eapply (mcs_stays s)|by constructor].
    + symmetry in Ct. apply last_empty in Ct as ->. destruct (mcs_takes s b i t_cas H Hi Hn) as [-> Hm]. exists [i], true. split; [done|constructor].
  - destruct Pi as [Hq ->]. destruct (next s i) as [n|] eqn:En; simplify_eq; exists q, true; (split; [|done]).
    + by eapply mcs_next.
    + by eapply (mcs_stays s).
  - destruct Pi as [Hq ->]. destruct (decide (tail s = Some i)) as [Et|Et]; simplify_eq.
    + rewrite Ct in Et. destruct (mcs_leaves s q true i H Hi Et) as (-> & _ & Hm). exists [], false. split; [done|constructor].
    + destruct (tail s) as [n|] eqn:Et'; simplify_eq.
      * exists q, true. split; [|done]. rewrite <- Et'. eapply (mcs_stays s); [done|exact Hi|]. split_and!; [done|done|].
        destruct q as [|x [|y q]]; [done| |cbn; lia]. cbn in Hq, Ct. congruence.
      * symmetry in Ct. apply last_empty in Ct as ->. done.
  - destruct Pi as (Hq & -> & Hl). destruct (next s i) as [n|] eqn:En; simplify_eq; exists q, true; (split; [|done]).
    + by eapply mcs_next.
    + by eapply (mcs_stays s).
  - simplify_eq. destruct (mcs_passes s q b i n H Hi) as (q' & -> & -> & Hm). exists (n :: q'), false. split; [done|constructor].
Qed.

Lemma step_keeps_mcs s e s' q b : mcs s q b -> step s e s' -> exists q' b', mcs s' q' b' /\ turn_move (q, b) e (q', b').
Proof.
  intros H Hst. pose proof H as [Ct Cd Ci Cl Cn Cp]. destruct Hst as [s i p t nx wt p' a Hi E|s i Hi|s i p Hi Hp|s i Hi].
  - by eapply local_keeps_mcs.
  - destruct (Cp i _ Hi) as [Hq _]. exists q, b. split; [by eapply mcs_stays|by constructor].
  - pose proof (Cp i _ Hi). exists q, b. split; [|done]. eapply mcs_stays; [done|exact Hi|]. by destruct Hp as [-> | ->].
  - pose proof (Cp i _ Hi). exists q, b. split; [|done]. by eapply mcs_stays.
Qed.

Lemma mcs_initial n : mcs (initial n) [] false.
Proof. constructor; cbn; try done; [constructor|]. intros i p [-> _]%lookup_replicate. apply not_elem_of_nil. Qed.

Lemma execution_mcs n es s : execution step (initial n) es s -> exists q b, mcs s q b /\ follows turn_step ([], false) es (q, b).
Proof.
  intros Hx.
  destruct (execution_simulation step turn_step (fun s x => mcs s x.1 x.2) (initial n) ([], false) es s (mcs_initial n)) as ([q b] & Hm & F);
    [| |done|by exists q, b].
  - intros s1 [q b] s2 Hm Hst. destruct (step_keeps_mcs s1 None s2 q b Hm Hst) as (q' & b' & Hm' & E). cbn in E. by injection E as -> ->.
  - intros s1 [q b] e s2 Hm Hst. destruct (step_keeps_mcs s1 (Some e) s2 q b Hm Hst) as (q' & b' & Hm' & E). by exists (q', b').
Qed.
