(* ===== verification/ConcurrencyTheorems.v ===== *)
(** What the concurrent components promise: the ring [spsc_queue] is a wait-free
    bounded queue, the semaphore counts and loses no wake-up. *)
From stdpp Require Import base numbers list option relations.
From Stdlib Require Import ZArith Lia.
From S2P Require Import Prelude Arrays Steps Spsc SpscProof Semaphore SemaphoreProof.

Local Open Scope Z_scope.

(** ** The ring *)

Section ring.
Context {A : Type} (dflt : A) (w N : Z).

Lemma reachable_ring es s : w = 64 \/ w = 32 -> 1 <= N <= 2 ^ (w - 1) -> execution (Spsc.step dflt w N) (Spsc.initial dflt w N) es s ->
  exists k f, 0 <= k < w /\ capacity w N = 2 ^ k /\ N <= 2 ^ k < 2 * N /\ follows (fifo_step (2 ^ k)) (Fifo [] None None) es f /\ implements w k s f.
Proof.
  intros Hw HN Hx. destruct (next_pow2_spec w N Hw HN) as (k & Hk & Ec & L1 & L2). exists k.
  destruct (execution_simulation (Spsc.step dflt w N) (fifo_step (2 ^ k)) (implements w k) _ (Fifo [] None None) es s (implements_initial dflt w N k Hk Ec)) as (f & R & F); [| |done|].
  - intros s1 f1 s2 R1 H1. exact (step_implements dflt w N k Hk Ec s1 f1 None s2 R1 H1).
  - intros s1 f1 e s2 R1 H1. exact (step_implements dflt w N k Hk Ec s1 f1 (Some e) s2 R1 H1).
  - exists f. split_and!; done || lia.
Qed.

(** C34: Under every interleaving of one producer and one consumer the ring behaves as a
    first-in first-out queue whose capacity is the least power of two not below N.
    The calls and the answers follow the abstract queue: a [push] that answers true has
    appended the item it was called with, a [push_batch] that answers n the first n of
    its items, where n is no less than the room there was when it was called or all of
    them; [pop] and [pop_batch] return the items at the front in order, one or as many
    as were there when the call was made, at least, up to the count; [peek] returns the
    front item and leaves it; [push] answers false only to a full queue and [pop] and
    [peek] only to an empty one.  This holds although each side works with a stale copy
    of the other's index and the indices wrap around.  [size], [empty], [front] and
    [last] are exact, and the two threads are never about to use the same cell. *)
Theorem spsc_is_fifo es s : w = 64 \/ w = 32 -> 1 <= N <= 2 ^ (w - 1) ->
  execution (Spsc.step dflt w N) (Spsc.initial dflt w N) es s ->
  exists k f, capacity w N = 2 ^ k /\ N <= 2 ^ k < 2 * N /\ follows (fifo_step (2 ^ k)) (Fifo [] None None) es f /\
    let q := contents f in
    alen q <= 2 ^ k /\ size w s = alen q /\ (is_empty s = true <-> q = []) /\
    (0 < alen q -> lost (c_at s) = 0 -> front w N s = q.[0] /\ last w N s = q.[alen q - 1]) /\
    (forall i j, producer_cell w N s = Some i -> consumer_cell w N s = Some j -> i <> j).
Proof.
  intros Hw HN Hx. destruct (reachable_ring es s Hw HN Hx) as (k & f & Hk & Ec & Hc & F & R & _). exists k, f.
  set (q := contents f) in *. cbv zeta.
  pose proof R as (H & T & CH & CT & [Rl Rh Rt Rch Rct Ro Rs Rc Rp Rq]). pose proof (alen_nonneg q).
  assert (size w s = alen q) as Es by (unfold size; rewrite Rh, Rt, (wrap_diff w k Hk); lia).
  do 5 (split; [done || lia|]). split; [|split; [|intros i j; by apply (no_race w N k Hk Ec s q)]].
  2: { intros Hq Hl. unfold front, last. rewrite Rh, Rt, <- Z.add_opp_r, (wrap_add w k Hk), !(mask_index w N k Hk Ec) by done.
       rewrite <- !Rc by lia. split; do 2 f_equal; lia. }
  unfold is_empty, size in *. rewrite Z.eqb_eq. split.
  - intros E. rewrite E, Z.sub_diag, wrap_id in Es by (unfold in_unsigned; lia). destruct q; [done|]. unfold alen in Es. cbn in Es. lia.
  - intros ->. change (alen []) with 0 in Rs. rewrite Rh, Rt. f_equal. lia.
Qed.

(** C35: The ring is wait-free: in every reachable state a call under way has a next step
    of its own, whatever the other thread does; it changes nothing of where the other
    thread is and leaves fewer steps to the end of the call.  A push or a pop ends
    after at most 4 of its own steps, a batch of n items after at most n + 3. *)
Theorem spsc_wait_free es s : w = 64 \/ w = 32 -> 1 <= N <= 2 ^ (w - 1) ->
  execution (Spsc.step dflt w N) (Spsc.initial dflt w N) es s ->
  (p_at s <> p_idle -> exists s' e, producer_step w N s = Some (s', e) /\ c_at s' = c_at s /\
     0 <= producer_left (p_at s') < producer_left (p_at s)) /\
  (c_at s <> c_idle -> exists s' e, consumer_step dflt w N s = Some (s', e) /\ p_at s' = p_at s /\
     0 <= consumer_left (c_at s') < consumer_left (c_at s)).
Proof.
  intros Hw HN Hx. destruct (reachable_ring es s Hw HN Hx) as (k & f & Hk & Ec & _ & _ & R & _). split; intros Hi.
  - destruct (producer_progress w N k Hk Ec s (contents f) R Hi) as (s' & e & E & L & C). by exists s', e.
  - destruct (consumer_progress dflt w N k Hk Ec s (contents f) R Hi) as (s' & e & E & L & C). by exists s', e.
Qed.
End ring.

(** ** The semaphore *)

(** C36: The semaphore counts: for any number n < 2^31 of threads and any interleaving,
    as long as no more than 2^31 - 1 permits are ever given, the calls and the answers
    are those of a number of permits.  [flag] adds one; [wait] and [try_wait] take one
    at once exactly when there is one that no waiting call is to get, and otherwise
    [wait] joins the waiting calls and takes a permit later, and [try_wait] refuses.
    Every answer is one of the call its thread made.  The permits taken are those given
    less those left, so there are never more acquisitions than permits; [value] is the
    number of permits less the number of waiting calls; no wait ever returns on an
    error; and every thread in [wait] is accounted for by a token, a token about to be
    added, or the counter below zero. *)
Theorem semaphore_counts init n es s : 0 <= init -> 0 <= n < 2 ^ 31 ->
  execution Semaphore.step (Semaphore.initial init n) es s -> init + count permitted es < 2 ^ 31 ->
  follows called_semaphore ((init, 0), replicate (Z.to_nat n) resting_phase) es
    ((permits s, total waiting (threads s)), place <$> threads s) /\
  0 <= permits s /\ taken es = init + count permitted es - permits s /\
  value s = permits s - total waiting (threads s) /\
  total waiting (threads s) = wakeups s + total owing (threads s) + Z.max 0 (- counter s).
Proof.
  intros Hi Hn Hx Hc. destruct (execution_permits init n es s Hi Hn Hx Hc) as (Hs & El & Ep & F). split_and!; [| |lia|by apply free_permits|apply Hs].
  - pose proof (execution_tracked permits_step permits_moves Semaphore.step (fun s => place <$> threads s) _ es s _ _ sem_phased Hx F) as Ht.
    cbn beta in Ht. unfold Semaphore.initial in Ht. cbn [threads] in Ht. by rewrite fmap_replicate in Ht.
  - destruct Hs as [Hw _ _ _]. unfold permits. pose proof (total_bounds owing (threads s) 1 ltac:(by intros [])). lia.
Qed.

(** C37: The semaphore loses no wake-up: from every reachable state the calls under way
    make at most (9 n + 6) n further steps, in whatever order the threads run, and
    when none is left every thread is between calls or asleep in [wait], no token is
    unused, and exactly as many threads sleep as the counter is below zero: while a
    permit is available nobody sleeps. *)
Theorem semaphore_wakes init n es s : 0 <= init -> 0 <= n ->
  execution Semaphore.step (Semaphore.initial init n) es s -> init + count permitted es + n < 2 ^ 31 ->
  (forall k s', nsteps working k s s' -> Z.of_nat k <= (9 * n + 6) * n) /\
  (exists k s', nsteps working k s s' /\ resting s') /\
  (forall k s', nsteps working k s s' -> (forall e s2, ~ work s' e s2) ->
     resting s' /\ wakeups s' = 0 /\ total parked (threads s') = Z.max 0 (- counter s')).
Proof.
  intros Hi Hn Hx Hc. destruct (execution_ready init n es s Hi Hn Hx Hc) as [Hr El]. split_and!.
  - intros k s' Hk. destruct (sem_working_bounded s k s' Hr Hk) as [_ Hle]. pose proof (sem_work_left_bounds s). pose proof (sem_work_left_bounds s').
    rewrite El in *. lia.
  - by apply sem_working_rests.
  - intros k s' Hk Hno. destruct (sem_working_bounded s k s' Hr Hk) as [(Hs & _) _].
    destruct (sem_work_or_rest s') as [Hrest|(e & s2 & Hw)]; [|by destruct (Hno e s2)].
    split; [done|]. by apply sem_resting_exact.
Qed.

(** ** Sample executions *)

(** One interleaving of the ring, given by whose turn it is. *)
Inductive turn := push_begins (c : @push_call Z) | pop_begins (c : pop_call) | producer_turn | consumer_turn.

Definition record {E} (es : list E) (e : option E) : list E := match e with Some e => es ++ [e] | None => es end.

Fixpoint play (w N : Z) (es : list (@Spsc.event Z)) (s : @Spsc.state Z) (ts : list turn) : option (list Spsc.event * Spsc.state) :=
  match ts with
  | [] => Some (es, s)
  | push_begins c :: ts => match p_at s with p_idle => play w N (es ++ [pushing c]) (at_prod s (p_start c)) ts | _ => None end
  | pop_begins c :: ts => match c_at s with c_idle => play w N (es ++ [popping c]) (at_cons s (c_start c)) ts | _ => None end
  | producer_turn :: ts => '(s', e) ← producer_step w N s; play w N (record es e) s' ts
  | consumer_turn :: ts => '(s', e) ← consumer_step 0 w N s; play w N (record es e) s' ts
  end.

Lemma record_execution {St E} (step : St -> option E -> St -> Prop) s0 es s e s' :
  execution step s0 es s -> step s e s' -> execution step s0 (record es e) s'.
Proof. intros. destruct e; by econstructor. Qed.

Lemma play_execution w N s0 ts es s es' s' : Forall (fun t => match t with pop_begins c => call_ok c | _ => True end) ts ->
  execution (Spsc.step 0 w N) s0 es s -> play w N es s ts = Some (es', s') -> execution (Spsc.step 0 w N) s0 es' s'.
Proof.
  intros Hok. revert es s. induction Hok as [|t ts Ht Hok IH]; intros es s Hx E; cbn in E; [by simplify_eq|]. destruct t as [c|c| |].
  - destruct (p_at s) eqn:Ep; try done. apply (IH _ _ ltac:(eapply exec_event; [exact Hx|by apply step_push]) E).
  - destruct (c_at s) eqn:Ec; try done. apply (IH _ _ ltac:(eapply exec_event; [exact Hx|by apply step_pop]) E).
  - destruct (producer_step w N s) as [[s1 e]|] eqn:E1; [|done]. cbn in E. eapply IH; [|exact E].
    eapply record_execution; [exact Hx|]. by apply step_producer.
  - destruct (consumer_step 0 w N s) as [[s1 e]|] eqn:E1; [|done]. cbn in E. eapply IH; [|exact E].
    eapply record_execution; [exact Hx|]. by apply step_consumer.
Qed.

(** Three items go into a ring of four; the consumer takes the first while the producer
    stores what fits of a second batch. *)
Definition sample_turns : list turn :=
  [push_begins (call_push_batch [1; 2; 3]); producer_turn; producer_turn; producer_turn; producer_turn; producer_turn;
   push_begins (call_push_batch [4; 5]); producer_turn; producer_turn; pop_begins call_pop; consumer_turn; producer_turn;
   consumer_turn; consumer_turn; producer_turn; consumer_turn].

Definition sample_labels : list (@Spsc.event Z) :=
  [pushing (call_push_batch [1; 2; 3]); pushed 3; pushing (call_push_batch [4; 5]); popping call_pop; pushed 1; popped [1]].

Lemma sample_events : exists s, play 64 3 [] (Spsc.initial 0 64 3) sample_turns = Some (sample_labels, s).
Proof. eexists. vm_compute. reflexivity. Qed.

Lemma sample_execution : exists s, execution (Spsc.step 0 64 3) (Spsc.initial 0 64 3) sample_labels s.
Proof.
  destruct sample_events as [s E]. exists s. eapply play_execution; [|apply exec_nil|exact E]. by repeat constructor.
Qed.

Lemma spsc_is_fifo_witness : exists s k f,
  execution (Spsc.step 0 64 3) (Spsc.initial 0 64 3) sample_labels s /\
  capacity 64 3 = 2 ^ k /\ size 64 s = alen (contents f) /\ follows (fifo_step (2 ^ k)) (Fifo [] None None) sample_labels f.
Proof.
  destruct sample_execution as [s Hx]. exists s.
  destruct (spsc_is_fifo 0 64 3 sample_labels s) as (k & f & Ec & _ & F & _ & Es & _); [by left|lia|exact Hx|].
  exists k, f. split_and!; done.
Defined.

Lemma push_execution : execution (Spsc.step 0 64 3) (Spsc.initial 0 64 3) [pushing (call_push 7)] (at_prod (Spsc.initial 0 64 3) (p_start (call_push 7))).
Proof. eapply (exec_event _ _ _ _ []); [apply exec_nil|by apply step_push]. Qed.

Lemma spsc_wait_free_witness : exists s' e,
  producer_step 64 3 (at_prod (Spsc.initial 0 64 3) (p_start (call_push 7))) = Some (s', e) /\ 0 <= producer_left (p_at s') < 4.
Proof.
  destruct (spsc_wait_free 0 64 3 [pushing (call_push 7)] (at_prod (Spsc.initial 0 64 3) (p_start (call_push 7)))) as [Hp _];
    [by left|lia|exact push_execution|]. destruct Hp as (s' & e & E & _ & L); [done|]. exists s', e. split; [exact E|exact L].
Defined.

(** One interleaving of the semaphore. *)
Inductive move := call_by (i : nat) (c : Semaphore.call) | step_by (i : nat) | wake_by (i j : nat).

Fixpoint play_threads (es : list Semaphore.event) (s : Semaphore.state) (ms : list move) : option (list Semaphore.event * Semaphore.state) :=
  match ms with
  | [] => Some (es, s)
  | call_by i c :: ms =>
      if bool_decide (threads s !! i = Some idle) then play_threads (es ++ [(i, called c)]) (set_pc s i (begins c)) ms else None
  | step_by i :: ms =>
      p ← threads s !! i;
      '(c, w, (q, e)) ← local_step (counter s) (wakeups s) p;
      play_threads (record es (label i e)) (Semaphore.State c w (<[i := q]> (threads s))) ms
  | wake_by i j :: ms =>
      if andb (bool_decide (threads s !! i = Some f_wake)) (bool_decide (threads s !! j = Some w_parked))
      then play_threads es (set_pc (set_pc s i idle) j w_load) ms else None
  end.

Lemma play_threads_execution s0 ms es s es' s' :
  execution Semaphore.step s0 es s -> play_threads es s ms = Some (es', s') -> execution Semaphore.step s0 es' s'.
Proof.
  revert es s. induction ms as [|m ms IH]; intros es s Hx E; cbn [play_threads] in E; [by simplify_eq|]. destruct m as [i c|i|i j].
  - case_bool_decide as Hi; [|done]. eapply IH; [|exact E]. eapply exec_event; [exact Hx|]. by apply step_call.
  - destruct (threads s !! i) as [p|] eqn:Hi; [|done]. cbn [mbind option_bind] in E.
    destruct (local_step _ _ p) as [[[c w] [q e]]|] eqn:El; [|done]. cbn [mbind option_bind] in E. eapply IH; [|exact E].
    eapply record_execution; [exact Hx|]. by eapply step_work, work_local.
  - case_bool_decide as Hi; [|done]. case_bool_decide as Hj; [|done]. eapply IH; [|exact E].
    eapply exec_silent; [exact Hx|]. by apply step_work, work_wake.
Qed.

(** A thread goes to sleep for a permit, another gives it and wakes the sleeper. *)
Definition sample_moves : list move :=
  [call_by 0 wait_call; step_by 0; step_by 0; step_by 0; call_by 1 flag_call; step_by 1; step_by 1; wake_by 1 0; step_by 0; step_by 0].

Definition sample_sem_labels : list Semaphore.event :=
  [(0%nat, called wait_call); (0%nat, joined); (1%nat, called flag_call); (1%nat, permitted); (0%nat, served)].

Lemma semaphore_execution : execution Semaphore.step (Semaphore.initial 0 2) sample_sem_labels (Semaphore.initial 0 2).
Proof. apply (play_threads_execution _ sample_moves [] (Semaphore.initial 0 2)); [apply exec_nil|]. vm_compute. reflexivity. Qed.

Lemma semaphore_counts_witness : follows called_semaphore ((0, 0), [resting_phase; resting_phase]) sample_sem_labels ((0, 0), [resting_phase; resting_phase]).
Proof.
  apply (semaphore_counts 0 2 sample_sem_labels (Semaphore.initial 0 2)); [lia|lia|exact semaphore_execution|vm_compute; reflexivity].
Defined.

(** The sleeper before the permit is given. *)
Definition sleeper : Semaphore.state := Semaphore.State (-1) 0 [w_parked; idle].

Lemma sleeper_execution : execution Semaphore.step (Semaphore.initial 0 2) (take 2 sample_sem_labels) sleeper.
Proof. apply (play_threads_execution _ (take 4 sample_moves) [] (Semaphore.initial 0 2)); [apply exec_nil|]. vm_compute. reflexivity. Qed.

Lemma semaphore_wakes_witness : exists k s', nsteps working k sleeper s' /\ resting s'.
Proof. apply (semaphore_wakes 0 2 (take 2 sample_sem_labels) sleeper); [lia|lia|exact sleeper_execution|vm_compute; reflexivity]. Defined.
