(* ===== verification/LockTheorems.v ===== *)
(** What the locks promise: mutual exclusion, arrival order of the ticket lock and of
    the queue lock, and no lost wake-up of the adaptive mutex. *)
From stdpp Require Import base numbers list option relations.
From Stdlib Require Import ZArith Lia.
From S2P Require Import Prelude Arrays Steps RecursiveLock Locks SpinLock FutexMutex FutexMutexProof TicketLock TicketLockProof McsLock McsLockProof.

Local Open Scope Z_scope.

(** C38: Mutual exclusion: for any number of threads and any interleaving, the calls and
    answers of the spinning locks ([spin_lock], the test-and-test-and-set lock, [mutex],
    [weak_mutex], [fast_mutex], also constructed locked) and of the adaptive [futex_mutex]
    are those of a lock with one owner: a call ends with an answer of that call, a thread
    gets the lock only while nobody has it and is alone between lock and unlock, unlock
    gives it back, a try_lock is refused only while another thread has it (or its weak
    compare-exchange failed), and [is_locked] says whether there is an owner.  The
    recursive lock is one with an owner and a depth: the owner is never refused, each of
    its locks and unlocks changes the depth by one, the last unlock frees the lock, an
    unlock by another thread is reported and changes nothing, and [lock_depth] is the
    depth; for a [usize] of 64 or 32 bits and fewer relocks than it counts. *)
Theorem locks_exclude n w : w = 64 \/ w = 32 ->
  (forall o es s, (forall i, o = Some i -> Z.of_nat i < n) -> execution SpinLock.step (SpinLock.initial n o) es s -> exists o',
     follows called_lock (o, SpinLock.place <$> SpinLock.threads (SpinLock.initial n o)) es (o', SpinLock.place <$> SpinLock.threads s) /\
     owner SpinLock.holds (SpinLock.threads s) o' /\ (SpinLock.is_locked s = false <-> o' = None)) /\
  (forall es s, execution FutexMutex.step (FutexMutex.initial n) es s -> exists o,
     follows called_lock (None, FutexMutexProof.place <$> FutexMutex.threads (FutexMutex.initial n)) es (o, FutexMutexProof.place <$> FutexMutex.threads s) /\
     owner FutexMutexProof.holds (FutexMutex.threads s) o /\ (FutexMutex.is_locked s = false <-> o = None)) /\
  (forall es s, execution (RecursiveLock.step w) (RecursiveLock.initial n) es s -> deepened es < 2 ^ w - 1 -> exists x,
     follows called_recursive_lock (None, RecursiveLock.place <$> RecursiveLock.threads (RecursiveLock.initial n)) es
       (x, RecursiveLock.place <$> RecursiveLock.threads s) /\
     (RecursiveLock.is_locked s = false <-> x = None) /\
     (forall i d, x = Some (i, d) -> RecursiveLock.threads s !! i = Some RecursiveLock.idle -> lock_depth s = d)).
Proof.
  intros Hw. split_and!.
  - intros o es s Ho Hx. destruct (execution_spin n o es s Ho Hx) as (o' & [Hf Hh] & F). by exists o'.
  - intros es s Hx. destruct (execution_mutex n es s Hx) as (o & [Mw Mf Mo _ _] & F). exists o. split; [done|]. split; [done|].
    rewrite <- Mf. unfold FutexMutex.is_locked. destruct (Z.eqb_spec (word s) __free); by split.
  - intros es s Hx Hd. destruct (execution_rec w ltac:(lia) n es s Hx Hd) as (x & [Vf Vo Vw Vg] & _ & F). exists x. split; [done|]. split.
    + unfold RecursiveLock.is_locked. split; [|intros ->; by rewrite (proj1 (Vf eq_refl))]. destruct x as [[i d]|]; [|done].
      destruct (Vo i d eq_refl) as [-> _]. unfold current_thread, __ownerless. destruct (Z.eqb_spec (Z.of_nat i + 1) 0); [lia|done].
    + intros i d Ex Hi. exact (Vw i d _ Ex Hi).
Qed.

(** C39: The adaptive mutex loses no wake-up: from every reachable state the calls under
    way make at most (54 n + 21) n further steps, in whatever order the n threads
    run, and when none is left each thread is between calls, has the lock, or sleeps;
    if one sleeps then another is inside and the word is marked as contended, so that
    its unlock wakes a sleeper. *)
Theorem futex_mutex_wakes n es s : 0 <= n -> execution FutexMutex.step (FutexMutex.initial n) es s ->
  (forall k s', nsteps working k s s' -> Z.of_nat k <= (54 * n + 21) * n) /\
  (exists k s', nsteps working k s s' /\ resting s') /\
  (forall k s', nsteps working k s s' -> (forall e s2, ~ work s' e s2) -> resting s' /\
     (0 < total sleeping (FutexMutex.threads s') ->
      word s' = __contended /\ exists i, FutexMutex.threads s' !! i = Some FutexMutex.inside)).
Proof.
  intros Hn Hx. destruct (execution_mutex n es s Hx) as (o & Hm & _). pose proof (execution_threads n es s Hx) as El.
  assert (mutex_reached s) as Hr by (by exists o). split_and!.
  - intros k s' Hk. destruct (mutex_working_bounded s k s' Hr Hk) as [Hr' Hle]. pose proof (mutex_work_left_bounds s o Hm).
    pose proof (work_left_nonneg s' Hr'). rewrite El, Z.max_r in * by lia. lia.
  - by apply mutex_working_rests.
  - intros k s' Hk Hno. destruct (mutex_working_bounded s k s' Hr Hk) as [[o' Hm'] _].
    destruct (mutex_work_or_rest s') as [Hrest|(e & s2 & Hw)]; [|by destruct (Hno e s2)].
    split; [done|]. intros Hs. destruct (mutex_resting_exact s' o' Hm' Hrest Hs) as (Ew & i & _ & Hi). split; [done|]. by exists i.
Qed.

Lemma first_served {A} (q : list A) j i : NoDup q -> q !! 0%nat = Some i -> q !! j = Some i -> j = 0%nat.
Proof. intros Hd H0 Hj. by eapply NoDup_lookup. Qed.

(** C40: Fair locks: the ticket lock and the queue lock [queuing_mutex] serve threads in
    the order in which they drew a ticket or joined the queue, one at a time; the
    first thread alone may be inside, and when it is not its next look admits it; a
    try_lock succeeds only on an empty queue, and [unlock] never finds the lock not
    held.  The 32-bit tickets may wrap around, as long as fewer than 2^32 are drawn;
    [queued] is the length of the queue and [is_locked] says whether it is empty. *)
Theorem fair_locks seed n : in_unsigned 32 seed ->
  (forall es s, execution TicketLock.step (TicketLock.initial seed n) es s -> drawn es < 2 ^ 32 ->
     exists q b, follows Turns.turn_step ([], false) es (q, b) /\ queued s = alen q /\ (TicketLock.is_locked s = false <-> q = []) /\
       (forall i, TicketLock.threads s !! i = Some TicketLock.inside -> q !! 0%nat = Some i /\ b = true) /\
       (forall i p, q !! 0%nat = Some i -> b = false -> TicketLock.threads s !! i = Some p -> p = TicketLock.look (serving s))) /\
  (forall es s, execution McsLock.step (McsLock.initial n) es s ->
     exists q b, follows Turns.turn_step ([], false) es (q, b) /\ (McsLock.is_locked s = false <-> q = []) /\
       (forall i, McsLock.threads s !! i = Some McsLock.inside -> q !! 0%nat = Some i /\ b = true) /\
       (forall i p, q !! 0%nat = Some i -> b = false -> McsLock.threads s !! i = Some p -> p = l_spin /\ waiting s i = false)).
Proof.
  intros Hseed. split; intros es s Hx.
  - intros Hd. destruct (execution_tickets seed Hseed n es s Hx Hd) as (q & b & S & Ht & F). exists q, b. split; [done|].
    destruct (tickets_exact seed s q b S _ Ht Hd) as [Eq El]. destruct Ht as [Kn Ks Ko Kl Kb Kd Kp].
    split; [done|]. split; [done|]. split; [intros i Hi; exact (Kp i _ Hi)|]. intros i p H0 -> Hp. pose proof (Kp i p Hp) as Hi.
    assert (i ∈ q) by (by eapply list_elem_of_lookup_2).
    destruct p; cbn in Hi; try done; try (by destruct_and? Hi). destruct Hi as (j & Hj & -> & _).
    rewrite (first_served q j i Kd H0 Hj), Z.add_0_r, <- Ks. done.
  - destruct (execution_mcs n es s Hx) as (q & b & [Ct Cd Ci Cl Cn Cp] & F). exists q, b. split; [done|].
    split; [|split; [intros i Hi; exact (Cp i _ Hi)|]].
    + unfold McsLock.is_locked. rewrite Ct. split; [|by intros ->]. destruct (list.last q) eqn:El; [done|]. intros _. by apply last_empty.
    + intros i p H0 -> Hp. pose proof (Cp i p Hp) as Hi. assert (i ∈ q) by (by eapply list_elem_of_lookup_2).
      assert (forall a, ~ after q a i) as Ha by (intros; by apply after_head).
      destruct p; cbn in Hi; try done; try (by destruct_and? Hi).
      * by destruct (Ha prev (proj1 Hi)).
      * destruct Hi as [(_ & _ & Hw)|(a & H1 & _)]; [done|by destruct (Ha a)].
Qed.

(** ** Sample executions *)

(** A thread takes the free mutex. *)
Definition mutex_events : list Locks.event := [(0%nat, Locks.called Locks.lock_call); (0%nat, Locks.took)].

Lemma mutex_execution : execution FutexMutex.step (FutexMutex.initial 2) mutex_events
  (FutexMutex.State __held [FutexMutex.inside; FutexMutex.idle]).
Proof.
  refine (exec_event FutexMutex.step _ (FutexMutex.State __free [FutexMutex.first blocking; FutexMutex.idle]) _
            [(0%nat, Locks.called Locks.lock_call)] (0%nat, Locks.took) _ _).
  - refine (exec_event FutexMutex.step _ (FutexMutex.initial 2) _ [] (0%nat, Locks.called Locks.lock_call) (exec_nil _ _) _).
    by apply (FutexMutex.step_lock (FutexMutex.initial 2) 0 Locks.lock_call (FutexMutex.first blocking)).
  - apply FutexMutex.step_work.
    by apply (FutexMutex.work_local (FutexMutex.State __free [FutexMutex.first blocking; FutexMutex.idle]) 0 (FutexMutex.first blocking)
                __held FutexMutex.inside (Some Locks.took)).
Qed.

(** A thread unlocks a spin lock that was constructed locked, without ever locking it. *)
Definition spin_events : list Locks.event := [(1%nat, Locks.called Locks.unlock_call); (1%nat, Locks.gave)].

Lemma spin_execution : execution SpinLock.step (SpinLock.initial 2 (Some 1%nat)) spin_events (SpinLock.initial 2 None).
Proof.
  refine (exec_event SpinLock.step _ (SpinLock.State true [SpinLock.idle; SpinLock.leave]) _
            [(1%nat, Locks.called Locks.unlock_call)] (1%nat, Locks.gave) _ _).
  - refine (exec_event SpinLock.step _ (SpinLock.initial 2 (Some 1%nat)) _ [] (1%nat, Locks.called Locks.unlock_call) (exec_nil _ _) _).
    by apply (SpinLock.step_unlock (SpinLock.initial 2 (Some 1%nat)) 1).
  - by apply (SpinLock.step_local (SpinLock.State true [SpinLock.idle; SpinLock.leave]) 1 SpinLock.leave false SpinLock.idle (Some Locks.gave)).
Qed.

(** The owner's try_lock of a recursive lock locks it again. *)
Definition rec_events : list RecursiveLock.event :=
  [(0%nat, RecursiveLock.called RecursiveLock.lock_call); (0%nat, RecursiveLock.took);
   (0%nat, RecursiveLock.called RecursiveLock.try_call); (0%nat, RecursiveLock.again)].

Lemma rec_execution : execution (RecursiveLock.step 32) (RecursiveLock.initial 2) rec_events (RecursiveLock.State 1 2 [RecursiveLock.idle; RecursiveLock.idle]).
Proof.
  assert (forall o d p q o' d' a es, execution (RecursiveLock.step 32) (RecursiveLock.initial 2) es (RecursiveLock.State o d [p; RecursiveLock.idle]) ->
    RecursiveLock.local_step 32 o d 0 p = Some (o', d', (q, a)) ->
    execution (RecursiveLock.step 32) (RecursiveLock.initial 2) (match a with Some a => es ++ [(0%nat, a)] | None => es end)
      (RecursiveLock.State o' d' [q; RecursiveLock.idle])) as Hgo.
  { intros o d p q o' d' a es Hx E. pose proof (RecursiveLock.step_local 32 (RecursiveLock.State o d [p; RecursiveLock.idle]) 0 p o' d' q a eq_refl E) as Hs.
    destruct a; by econstructor. }
  assert (forall o d c es, execution (RecursiveLock.step 32) (RecursiveLock.initial 2) es (RecursiveLock.State o d [RecursiveLock.idle; RecursiveLock.idle]) ->
    execution (RecursiveLock.step 32) (RecursiveLock.initial 2) (es ++ [(0%nat, RecursiveLock.called c)])
      (RecursiveLock.State o d [RecursiveLock.begins c; RecursiveLock.idle])) as Hcall.
  { intros o d c es Hx. eapply exec_event; [exact Hx|].
    exact (RecursiveLock.step_call 32 (RecursiveLock.State o d [RecursiveLock.idle; RecursiveLock.idle]) 0 c eq_refl). }
  pose proof (Hcall 0 0 RecursiveLock.lock_call [] (exec_nil _ _)) as H1.
  pose proof (Hgo _ _ _ _ _ _ _ _ H1 eq_refl) as H2. pose proof (Hgo _ _ _ _ _ _ _ _ H2 eq_refl) as H3.
  pose proof (Hgo _ _ _ _ _ _ _ _ H3 eq_refl) as H4. pose proof (Hcall _ _ RecursiveLock.try_call _ H4) as H5.
  pose proof (Hgo _ _ _ _ _ _ _ _ H5 eq_refl) as H6. exact (Hgo _ _ _ _ _ _ _ _ H6 eq_refl).
Qed.

Lemma rec_run_events x ps : follows called_recursive_lock (None, replicate 2 RecursiveLock.resting) rec_events (x, ps) -> x = Some (0%nat, 2).
Proof.
  intros F. change rec_events with (([] ++ [(0%nat, RecursiveLock.called RecursiveLock.lock_call)]) ++ [(0%nat, RecursiveLock.took)] ++
    [(0%nat, RecursiveLock.called RecursiveLock.try_call)] ++ [(0%nat, RecursiveLock.again)]) in F. rewrite !app_assoc in F.
  apply follows_snoc in F as ([q3 p3] & F & S4). apply follows_snoc in F as ([q2 p2] & F & S3). apply follows_snoc in F as ([q1 p1] & F & S2).
  inversion S2 as [? ? ? ? ? ? ? A2]; subst. inversion S3 as [? ? ? ? ? ? ? A3]; subst. inversion S4 as [? ? ? ? ? ? ? A4]; subst.
  inversion A2; subst. inversion A3; subst. inversion A4; subst. done.
Qed.

Lemma locks_exclude_witness :
  (exists o, follows called_lock (None, replicate 2 outside) mutex_events (o, [within; outside]) /\
     owner FutexMutexProof.holds [FutexMutex.inside; FutexMutex.idle] o) /\
  follows called_lock (Some 1%nat, [outside; within]) spin_events (None, [outside; outside]) /\
  follows called_recursive_lock (None, replicate 2 RecursiveLock.resting) rec_events (Some (0%nat, 2), replicate 2 RecursiveLock.resting).
Proof.
  destruct (locks_exclude 2 32 ltac:(by right)) as (Hs & Hm & Hr). split; [|split].
  - destruct (Hm _ _ mutex_execution) as (o & F & Ho & _). exists o. split; [exact F|exact Ho].
  - destruct (Hs (Some 1%nat) _ _ ltac:(by intros i [= <-]) spin_execution) as (o & F & _ & Hf).
    assert (o = None) as -> by (by apply Hf). exact F.
  - destruct (Hr _ _ rec_execution ltac:(by vm_compute)) as (x & F & _ & _). assert (x = Some (0%nat, 2)) as ->; [|exact F].
    apply (rec_run_events x _ F).
Defined.

Lemma futex_mutex_wakes_witness : exists k s',
  nsteps working k (FutexMutex.State __held [FutexMutex.inside; FutexMutex.idle]) s' /\ resting s'.
Proof. apply (futex_mutex_wakes 2 mutex_events); [lia|exact mutex_execution]. Defined.

(** A thread draws the last ticket before the wrap and is served. *)
Lemma ticket_execution : execution TicketLock.step (TicketLock.initial (2 ^ 32 - 1) 2) [(0%nat, Turns.drew); (0%nat, Turns.entered)]
  (TicketLock.State 0 (2 ^ 32 - 1) [TicketLock.inside; TicketLock.idle]).
Proof.
  refine (exec_event TicketLock.step _ (TicketLock.State 0 (2 ^ 32 - 1) [TicketLock.look (2 ^ 32 - 1); TicketLock.idle]) _
            [(0%nat, Turns.drew)] (0%nat, Turns.entered) _ _).
  - refine (exec_event TicketLock.step _ (TicketLock.State (2 ^ 32 - 1) (2 ^ 32 - 1) [TicketLock.draw; TicketLock.idle]) _ []
              (0%nat, Turns.drew) _ _).
    + refine (exec_silent TicketLock.step _ (TicketLock.initial (2 ^ 32 - 1) 2) _ [] (exec_nil _ _) _).
      apply (TicketLock.step_lock (TicketLock.initial (2 ^ 32 - 1) 2) 0 TicketLock.draw); [done|by left].
    + by apply (TicketLock.step_local (TicketLock.State (2 ^ 32 - 1) (2 ^ 32 - 1) [TicketLock.draw; TicketLock.idle]) 0 TicketLock.draw
                  0 (2 ^ 32 - 1) (TicketLock.look (2 ^ 32 - 1)) (Some Turns.drew)).
  - by apply (TicketLock.step_local (TicketLock.State 0 (2 ^ 32 - 1) [TicketLock.look (2 ^ 32 - 1); TicketLock.idle]) 0
                (TicketLock.look (2 ^ 32 - 1)) 0 (2 ^ 32 - 1) TicketLock.inside (Some Turns.entered)).
Qed.

(** A thread begins to lock the queue lock. *)
Lemma queue_execution : exists s, execution McsLock.step (McsLock.initial 2) [] s.
Proof.
  eexists. refine (exec_silent McsLock.step _ (McsLock.initial 2) _ [] (exec_nil _ _) _).
  apply (McsLock.step_lock (McsLock.initial 2) 0 l_next); [done|by left].
Qed.

Lemma fair_locks_witness :
  (exists q b, follows Turns.turn_step ([], false) [(0%nat, Turns.drew); (0%nat, Turns.entered)] (q, b) /\
     queued (TicketLock.State 0 (2 ^ 32 - 1) [TicketLock.inside; TicketLock.idle]) = alen q) /\
  (exists s q b, execution McsLock.step (McsLock.initial 2) [] s /\ follows Turns.turn_step ([], false) [] (q, b)).
Proof.
  destruct (fair_locks (2 ^ 32 - 1) 2 ltac:(by vm_compute)) as [Ht Hq]. split.
  - destruct (Ht _ _ ticket_execution) as (q & b & F & E & _); [by vm_compute|]. exists q, b. split; [exact F|exact E].
  - destruct queue_execution as [s Hx]. destruct (Hq _ _ Hx) as (q & b & F & _). exists s, q, b. split; [exact Hx|exact F].
Defined.
